(* ===== verification/_CoqProject ===== *)
-Q . S2P
Prelude.v
Bytes.v
Float64.v
GoStd.v
GoText.v
GoTime.v
Model.v
Wire.v
MqlAst.v
MqlLex.v
MqlPrint.v
MqlParse.v
MqlQuery.v
MqlSafe.v
MqlTotal.v
MqlTokens.v
MqlReparse.v
MqlFields.v
EngineKeys.v
EngineCodec.v
EngineFilter.v
EngineDB.v
EngineRep.v
EngineInv.v
EngineSchema.v
EngineStore.v
EngineOpen.v
EngineQuery.v
EngineScan.v
EngineTrace.v
Instances.v
EngineProps.v
MqlProps.v
ExtractAC.v
ExtractACProofs.v
ExtractHistogram.v
ExtractTimestamp.v
MqlValidate.v
MqlValidateProps.v
Render.v
StoreShard.v
ExtractStream.v
ExtractHolds.v
ExtractHoldOps.v
ExtractStreamInv.v
ExtractDemo.v
ExtractProps.v
IngestRecord.v
IngestSink.v
IngestSinkProofs.v
IngestFollow.v
IngestDelivery.v
IngestDeliveryProps.v
IngestFollowProps.v
StoreState.v
StoreDict.v
StoreDictProofs.v
StoreReclaim.v
StoreDemo.v
StoreDictProps.v
StoreCatalogue.v
StoreWrite.v
StoreWriteProofs.v
StoreWriteProps.v
StoreRetention.v
StoreNamespace.v
StoreIdem.v
StorePlan.v
StorePlanProps.v
StoreScan.v
StoreSamples.v
StoreRequests.v
StoreQuery.v
StoreQueryProps.v
StoreSeriesProps.v
StoreQueryDemo.v
StoreAnswers.v
RenderProofs.v
RenderTheorems.v
Witnesses.v
