(* ===== verification/Prelude.v ===== *)
(** * Mensura: a verification development

    Mensura is a time-series store written in Go: a row engine on an LSM
    key-value store, a store process that shards, catalogues and queries the
    rows, a query language (MQL), a renderer that reduces a series to the
    points a graph can show, an extraction pipeline that turns log lines
    into samples, and an ingest process that follows files and delivers what
    they hold.  This library models its core logic as executable definitions
    translated from the source, and proves what makes each part correct.

    ** Layout

    Shared ground.
    - [Prelude]: fallible code as [result], fixed-width integers with their
      wrap-around, notations, tactics, generic list lemmas.
    - [Bytes]: Go strings and byte slices as [gostr] (lists of bytes), byte
      order, big-endian and varint encodings.
    - [Float64]: float64 as the executable specification of binary64; which
      integers it holds exactly.
    - [GoStd], [GoText], [GoTime]: the parts of strconv, utf8, unicode, sort,
      strings and time the source uses.
      The Unicode tables and the text of floats are classes ([Unicode],
      [FloatText]) with the documented laws ([UnicodeLaws],
      [FloatTextLaws]).

    pkg/model.  [Model]: [value.go], [sample.go], [names.go], [key.go]:
    values and their conversions, the validity of samples, identifiers, and
    the byte stream a primary key hashes.  XXH3 is a parameter.

    internal/engine.
    - [EngineKeys] ([keys.go]): the keyspace and its byte order.
    - [EngineCodec] ([codec.go]): row payloads, the projecting decoder.
    - [EngineFilter] ([filter.go]): predicates, evaluated on the payload.
    - [EngineDB], [EngineQuery] ([db.go], [query.go]): the interface of the
      LSM (a sorted map, atomic batches, and calls that fail whenever an
      oracle says so), and the operations as functions of a state monad over
      the handle, the LSM and the oracle; a range query as plan and
      iterator.
    - [EngineRep]: the abstract store (a map from set to rows) and the
      relation the keyspace keeps with it.
    - [EngineInv], [EngineSchema], [EngineStore], [EngineOpen],
      [EngineScan], [EngineTrace]: the invariant, and each operation's
      refinement of the abstract store; [EngineTrace] closes them under
      sequences of calls, failures and restarts.
    - [EngineProps]: the properties and their witnesses.

    pkg/mql.
    - [MqlAst] ([ast.go], the structural checks of [validate.go]).
    - [MqlLex] ([lex.go]), [MqlParse] and [MqlQuery] ([parse.go]), [MqlPrint]
      ([print.go]).
    - [MqlSafe], [MqlTotal]: the parser under a calculus of "answers without
      a bug, and leaves this"; the lexer's loop.
    - [MqlTokens], [MqlReparse], [MqlFields]: printed text, its tokens, and
      the parser on them.
    - [MqlValidate], [MqlValidateProps] ([validate.go]): the checks of a
      query against a schema, and the queries they accept.
    - [MqlProps]: the round trip, the properties and their witnesses.

    pkg/render.  [Render] ([render.go]): the windowed reduction as the fold
    the loop is, the break and padding passes.  [RenderProofs],
    [RenderTheorems]: its invariants and properties.

    pkg/extract.
    - [ExtractAC], [ExtractACProofs] ([ac.go]): the Aho-Corasick matcher,
      built and scanned, against a linear search.
    - [ExtractHistogram] ([histogram.go], the bucket sets of [spec.go]):
      edges, payload formats, derived columns.
    - [ExtractTimestamp] ([timestamp.go]): epoch units, the search over
      formats.  Package regexp and the layouts of package time are the
      interfaces [Regexp] and [TimeLib].
    - [ExtractStream] ([stream.go]): the state of a source and its handlers;
      windows are objects of a store that the window map, the expiry queue
      and the hold list point into.
    - [ExtractHolds], [ExtractHoldOps], [ExtractStreamInv]: the floor of the
      hold list, the invariant that keeps it right, each step and each
      handler, the states a stream reaches.
    - [ExtractDemo]: a small profile on small instances of the interfaces.
    - [ExtractProps]: the properties.

    pkg/wire.  [Wire] ([types.go]): the text encoding/json writes, the write
    request and its body, the response.  The text of a float64 in
    JSON is the class [JsonFloat].

    internal/ingest.
    - [IngestRecord] ([record.go]): framing over a buffered reader whose
      chunks are any a buffer may give.
    - [IngestSink], [IngestSinkProofs] ([sink.go]): buffers, body budget and
      delivery.  A flush is two steps, before and after the request, as the
      locks make it; the store's answers are a parameter.  A client of the
      sink is an instance of [DeliveryObserver]; the one at the end moves the
      positions the tailer of [follow.go] and the progress of [remote.go]
      share.
    - [IngestFollow] ([follow.go], [checkpoint.go]): reading, rotation and
      checkpoints of one file; SHA-256 is the class [SHA256].
    - [IngestDelivery]: readers, sink and store as a step relation, any
      reader between the two halves of a flush, and its invariant.
    - [IngestDeliveryProps], [IngestFollowProps]: the properties.

    internal/store, over the engine of [EngineDB] and [EngineQuery].
    - [StoreShard]: the names, widths and spans of time shards, the horizon
      of a retention.
    - [StoreState]: the state of the process, its errors, its records.
    - [StoreDict], [StoreDictProofs]: label dictionaries, interning and
      reading back.  [StoreReclaim]: reclaiming values, in the two halves
      the locks make of it.  [StoreDictProps]: the properties.
    - [StoreCatalogue]: what sets carry, how an observation widens it, what
      may be declared.
    - [StoreWrite], [StoreWriteProofs] ([write.go]): one write request.
      [StoreWriteProps]: what a batch commits.
    - [StoreRetention]: the sweep, the administrator's drop, opening and
      closing.  [StoreNamespace]: what every operation keeps of a set's
      names.  [StoreIdem]: a request sent again, after whatever the store
      did in between.
    - [StorePlan], [StorePlanProps] ([query.go]): query lowering.
      [StoreScan]: the walk over shards.  [StoreQuery]: the executors and
      the gates.  [StoreQueryProps], [StoreSeriesProps]: the properties.
    - [StoreSamples], [StoreRequests], [StoreAnswers]: the store as its
      clients see it, a map from shard and primary key to the sample last
      accepted there ([served]); a request puts the samples it accepts into
      the map, and a query answers those of the map it is about.
    - [StoreDemo], [StoreQueryDemo]: a small store, and queries over it.

    [Instances]: every interface instantiated by concrete definitions, and
    a small store; [Witnesses]: applications of the remaining theorems.

    ** What the theorems show

    - The engine refines a map from sets to rows: a write files every row or
      none, whichever call fails; a query returns exactly the rows it asks
      for, in order; retention and dropping remove exactly what they say;
      set ids are never reused; reopening recovers everything.
    - The encodings are order-preserving or invertible, the projecting
      decoder agrees with the full one, predicates on the payload with their
      meaning on the row.
    - Every text parses to a query or an error; printing a query and parsing
      the text gives it back; an accepted query is well formed and within
      the node bound.  One theorem exhibits predicates the text accepts and
      the tree's bound refuses.  Validation accepts exactly the queries a
      declarative description names.
    - A rendered series is ordered, keeps extremes, breaks at gaps and
      invents nothing.
    - The matcher finds the first pattern that occurs; a histogram's columns
      are the payload's counts and their sums.
    - A stream's held position is safe to resume at: at or before everything
      open, never inside what was already emitted, as long as no continuation
      line goes back in time; an example runs the path that breaks it.
      Expired windows are closed exactly, in order.
    - A record is the next line, cut at the cap, however it was buffered; one
      theorem exhibits the flag that does depend on the buffer.
    - An acknowledged position covers only samples the store holds, provided
      a lost batch holds no sample of a reader with nothing in flight; one
      theorem exhibits a run where that proviso fails and a lost sample is
      acknowledged.  Samples of a set keep their order through refusals and
      requeues; a closing sink drains; a request stays within its budget,
      unless its samples carry a microsecond fraction, which one theorem
      shows is not charged.  A checkpoint is never ahead of what was read;
      examples show what the handling of a rotated file gets wrong.
    - A label value, once interned, reads back as itself across restarts,
      and reclaiming, run by itself, frees only what no row refers to.  A
      write files the samples it accepts, the last one where two go to one
      place, and names the ones it rejects; its retry changes nothing while
      its key is kept.  Retention drops exactly the shards past their
      horizon.  No name is ever both a label and an observed field of a set.
    - The expression the planner pushes into the engine holds of a row
      exactly when the query's predicate holds of its labels; a table and a
      series hold exactly what the rows of the set, the range and the
      predicate say, in order, within the ceilings.  A field named as a
      label, where the catalogue lets it through, is exhibited.
    - End to end, on an engine nothing disturbs: a request to a store that
      serves a map of samples is answered, and leaves the map with the
      samples it accepted; a table, a log view or a graph of a valid query
      is made of exactly the samples of the map in its set and range that
      satisfy it, read off their own labels and fields.

    ** Fuel and bounds

    Loops that consume their input take its length as fuel: a lexer turn
    takes a byte, a parser loop a token, the predicate parser at most four
    calls between tokens ([ParseDiags_total] shows none runs short).
    Varints and decimal digits take the 10 and 20 steps a 64-bit integer can
    need.  The loops that close windows take the length of the queue they
    shorten.  [int64] arithmetic wraps where the source's does.

    A call of a stream reads the wall clock once ([now]), the store each of
    its readings in turn ([s_clock]); the heap of container/heap is a list
    in the heap's order; a time is its instant in nanoseconds.  A Go map is
    walked in any order ([ExtractAC], the codec) or in that of [map_to_list]:
    the columns of a batch ([derive_columns]) and its shards
    ([commit_shards]) are, and the theorems about them say nothing of the
    order.

    ** Not modelled, and why

    - Goroutines, mutexes and contexts: each operation is one step, except
      a flush and a reclaim, whose two halves other operations may come
      between.  So two requests under one key do not wait for each other
      ([idempotencyCache.acquire]), requests are not interleaved inside, and
      a writer of the sink finds room and appends at once.
    - The LSM's own durability, compression and iterators: the classes of
      [EngineDB] state the documented interface; an iterator's error is
      handed on as it is.
    - encoding/json, HTTP (the store's handlers, the client's transport, the
      slots and deadlines of queries), files and process start: input and
      output only.
    - The words of error messages and diagnostics: each is its kind and what
      its text is made of.
    - The directory sweep of a follower, the ssh sessions and the network
      listeners of ingest, the Grafana plugin, the commands: input and
      output.
    - The compilation and lint of extraction specifications beyond bucket
      sets: the profile a stream runs is a parameter of its theorems. *)

From Stdlib Require Import ZArith Lia Bool.
From Stdlib Require Import Strings.Byte Strings.String.
From stdpp Require Export base tactics decidable option list countable gmap.
From stdpp Require Import strings.

#[export] Set Default Goal Selector "!".

Declare Scope go_scope.
Delimit Scope go_scope with go.
Open Scope Z_scope.
Open Scope go_scope.

(** ** Fallible code

    A Go function returning [(T, error)] becomes a function into
    [result E T]; [Ok] is the nil error. *)

Inductive result (E A : Type) : Type :=
| Ok (a : A)
| Err (e : E).
Arguments Ok {E A} a.
Arguments Err {E A} e.

Definition rbind {E A B} (r : result E A) (k : A -> result E B) : result E B :=
  match r with
  | Ok a => k a
  | Err e => Err e
  end.

Definition is_ok {E A} (r : result E A) : bool :=
  match r with Ok _ => true | Err _ => false end.

Notation "'try' x <- r ; k" := (rbind r (fun x => k))
  (at level 100, x name, r at next level, right associativity) : go_scope.
Notation "'try' ' p <- r ; k" := (rbind r (fun x => match x with p => k end))
  (at level 100, p pattern, r at next level, right associativity) : go_scope.
Notation "'check' r ; k" := (rbind r (fun _ => k))
  (at level 100, r at next level, right associativity) : go_scope.

Section ResultFacts.
Context {E A B : Type}.
Implicit Types (r : result E A).

Lemma rbind_ok_inv r (k : A -> result E B) (b : B) :
  rbind r k = Ok b -> exists a, r = Ok a /\ k a = Ok b.
Proof. destruct r; simpl; [eauto | discriminate]. Qed.

Lemma rbind_err_inv r (k : A -> result E B) (e : E) :
  rbind r k = Err e -> r = Err e \/ exists a, r = Ok a /\ k a = Err e.
Proof. destruct r; simpl; [eauto | intros [= ->]; auto]. Qed.

Lemma is_ok_true r : is_ok r = true <-> exists a, r = Ok a.
Proof. destruct r; simpl; split; try done; eauto. intros [? [=]]. Qed.
End ResultFacts.

(** ** Machine integers

    Go's fixed-width integers are [Z] with their wrap-around written out:
    [i64] and [u64] are the conversions that reduce an exact result to the
    width Go keeps. *)

Definition two63 : Z := 9223372036854775808.
Definition two64 : Z := 18446744073709551616.
Definition i64 (z : Z) : Z := (z + two63) mod two64 - two63.
Definition u64 (z : Z) : Z := z mod two64.
Definition u32 (z : Z) : Z := z mod 4294967296.
Definition i64_min : Z := - two63.
Definition i64_max : Z := two63 - 1.
Definition in_i64 (z : Z) : Prop := - two63 <= z < two63.
Definition in_u64 (z : Z) : Prop := 0 <= z < two64.
Definition in_u32 (z : Z) : Prop := 0 <= z < 4294967296.

#[export] Instance in_i64_dec z : Decision (in_i64 z).
Proof. unfold in_i64. apply _. Defined.

Lemma i64_id z : in_i64 z -> i64 z = z.
Proof.
  unfold in_i64, i64, two63, two64. intros H.
  rewrite Z.mod_small by lia. lia.
Qed.

Lemma u64_id z : in_u64 z -> u64 z = z.
Proof. unfold in_u64, u64. intros H. by rewrite Z.mod_small. Qed.

Lemma i64_range z : in_i64 (i64 z).
Proof.
  unfold in_i64, i64.
  pose proof (Z.mod_pos_bound (z + two63) two64 ltac:(unfold two64; lia)).
  unfold two63, two64 in *. lia.
Qed.

Lemma u64_range z : in_u64 (u64 z).
Proof. unfold in_u64, u64. apply Z.mod_pos_bound. unfold two64; lia. Qed.

(** Go's division truncates towards zero, which is [Z.quot]/[Z.rem]. *)
Notation "a '/go' b" := (Z.quot a b) (at level 40, left associativity) : go_scope.
Notation "a '%go' b" := (Z.rem a b) (at level 40, left associativity) : go_scope.

(** ** Automation *)

(** Unfolds the width constants and closes a linear goal. *)
Ltac mlia :=
  unfold in_i64, in_u64, in_u32, i64_min, i64_max, two63, two64 in *; lia.

(** Splits every boolean test of the goal or of a hypothesis, reflecting
    comparisons on [Z] and [nat]. *)
Ltac bsplit :=
  repeat match goal with
  | H : _ && _ = true |- _ => apply andb_true_iff in H; destruct H
  | H : _ || _ = false |- _ => apply orb_false_iff in H; destruct H
  | H : negb _ = true |- _ => apply negb_true_iff in H
  | H : negb _ = false |- _ => apply negb_false_iff in H
  | H : (_ <? _) = true |- _ => apply Z.ltb_lt in H
  | H : (_ <? _) = false |- _ => apply Z.ltb_ge in H
  | H : (_ <=? _) = true |- _ => apply Z.leb_le in H
  | H : (_ <=? _) = false |- _ => apply Z.leb_gt in H
  | H : (_ =? _) = true |- _ => apply Z.eqb_eq in H
  | H : (_ =? _) = false |- _ => apply Z.eqb_neq in H
  | H : (_ >? _) = true |- _ => rewrite Z.gtb_ltb in H
  | H : (_ >? _) = false |- _ => rewrite Z.gtb_ltb in H
  | H : (_ >=? _) = true |- _ => rewrite Z.geb_leb in H
  | H : (_ >=? _) = false |- _ => rewrite Z.geb_leb in H
  end.

(** Case analysis on the first [if] or [match] scrutinee in sight. *)
Ltac break_if :=
  match goal with
  | |- context [if ?b then _ else _] => destruct b eqn:?
  | H : context [if ?b then _ else _] |- _ => destruct b eqn:?
  end.

Ltac break_match :=
  match goal with
  | |- context [match ?x with _ => _ end] => destruct x eqn:?
  | H : context [match ?x with _ => _ end] |- _ => destruct x eqn:?
  end.

(** Inverts the equations a successful [result] computation leaves. *)
Ltac inv_ok :=
  repeat match goal with
  | H : rbind _ _ = Ok _ |- _ => apply rbind_ok_inv in H; destruct H as (? & ? & ?)
  | H : Ok _ = Ok _ |- _ => injection H as H; try subst
  | H : Err _ = Ok _ |- _ => discriminate H
  | H : Ok _ = Err _ |- _ => discriminate H
  end.

Create HintDb gomodel.
Create Rewrite HintDb gomodel.
#[export] Hint Resolve i64_range u64_range : gomodel.
#[export] Hint Rewrite i64_id u64_id using (mlia) : gomodel.

(** ** Generic list facts the components share *)

Section ListFacts.
Context {A : Type}.
Implicit Types (l : list A).

Lemma app_inj_len l1 l2 k1 k2 :
  length l1 = length k1 -> l1 ++ l2 = k1 ++ k2 -> l1 = k1 /\ l2 = k2.
Proof. intros Hlen Heq. by apply app_inj_1. Qed.

Lemma last_app_cons l1 l2 (x : A) : last (l1 ++ x :: l2) = last (x :: l2).
Proof.
  induction l1 as [|y l1 IH]; [done|].
  rewrite <- app_comm_cons. rewrite <- IH.
  destruct l1; done.
Qed.
End ListFacts.

(** Lengths as Go's [len] reports them. *)
Definition zlen {A} (l : list A) : Z := Z.of_nat (length l).

Lemma zlen_nonneg {A} (l : list A) : 0 <= zlen l.
Proof. unfold zlen. lia. Qed.

Lemma zlen_app {A} (l k : list A) : zlen (l ++ k) = zlen l + zlen k.
Proof. unfold zlen. rewrite length_app. lia. Qed.

Lemma zlen_cons {A} (x : A) (l : list A) : zlen (x :: l) = 1 + zlen l.
Proof. unfold zlen. rewrite length_cons. lia. Qed.

#[export] Hint Resolve zlen_nonneg : gomodel.
