(* ===== verification/Bytes.v ===== *)
(** * Bytes: Go strings and byte slices

    A Go [string] and a Go [[]byte] are both a list of bytes here; the
    file holds what the source uses of [encoding/binary] (big-endian
    integers and uvarints), the lexicographic order of [bytes.Compare]
    (which is also [sort.Strings]'s and the key order of the LSM), and the
    lemmas every codec of the development shares. *)

From Stdlib Require Import ZArith Lia Bool.
From Stdlib Require Import Strings.Byte Strings.String.
From S2P Require Import Prelude.

Abbreviation gostr := (list byte).

(** String literals of the source: [bs "FROM"]. *)
Definition bs (s : string) : gostr := list_byte_of_string s.

#[export] Instance byte_eq_dec : EqDecision byte := byte_eq_dec.

#[export] Program Instance byte_countable : Countable byte :=
  inj_countable Byte.to_N Byte.of_N _.
Next Obligation. apply of_to_N. Qed.

(** ** Bytes as integers *)

Definition b2z (b : byte) : Z := Z.of_N (Byte.to_N b).

(** [byte(x)]: the low eight bits. *)
Definition z2b (z : Z) : byte :=
  match Byte.of_N (Z.to_N (z mod 256)) with
  | Some b => b
  | None => x00
  end.

Lemma b2z_range b : 0 <= b2z b < 256.
Proof. unfold b2z. pose proof (to_N_bounded b). lia. Qed.

Lemma b2z_z2b z : b2z (z2b z) = z mod 256.
Proof.
  unfold b2z, z2b. pose proof (Z.mod_pos_bound z 256 ltac:(lia)).
  destruct (of_N (Z.to_N (z mod 256))) as [b|] eqn:E.
  - apply to_of_N in E. rewrite E. lia.
  - apply of_N_None_iff in E. lia.
Qed.

Lemma z2b_b2z b : z2b (b2z b) = b.
Proof.
  unfold z2b. rewrite Z.mod_small by apply b2z_range.
  unfold b2z. by rewrite N2Z.id, of_to_N.
Qed.

Lemma b2z_inj a b : b2z a = b2z b -> a = b.
Proof. intros H. by rewrite <- (z2b_b2z a), H, z2b_b2z. Qed.

Definition byte_eqb (a b : byte) : bool := b2z a =? b2z b.

Lemma byte_eqb_spec a b : byte_eqb a b = true <-> a = b.
Proof.
  unfold byte_eqb. rewrite Z.eqb_eq. split; [apply b2z_inj | by intros ->].
Qed.

Fixpoint bytes_eqb (a b : gostr) : bool :=
  match a, b with
  | [], [] => true
  | x :: a', y :: b' => byte_eqb x y && bytes_eqb a' b'
  | _, _ => false
  end.

Lemma bytes_eqb_spec a b : bytes_eqb a b = true <-> a = b.
Proof.
  revert b. induction a as [|x a IH]; intros [|y b]; simpl; try done.
  rewrite andb_true_iff, byte_eqb_spec, IH.
  split; [by intros [-> ->] | by intros [= -> ->]].
Qed.

Lemma bytes_eqb_refl a : bytes_eqb a a = true.
Proof. by apply bytes_eqb_spec. Qed.

Lemma bytes_eqb_neq a b : bytes_eqb a b = false <-> a <> b.
Proof.
  rewrite <- not_true_iff_false, bytes_eqb_spec. done.
Qed.

(** ** The lexicographic order: [bytes.Compare(a, b) < 0] *)

Fixpoint blt (a b : gostr) : bool :=
  match a, b with
  | [], [] => false
  | [], _ :: _ => true
  | _ :: _, [] => false
  | x :: a', y :: b' =>
      if b2z x <? b2z y then true
      else if b2z y <? b2z x then false
      else blt a' b'
  end.

Definition ble (a b : gostr) : bool := negb (blt b a).

Lemma blt_irrefl a : blt a a = false.
Proof. induction a as [|x a IH]; simpl; [done|]. by rewrite Z.ltb_irrefl. Qed.

Lemma blt_trans a b c : blt a b = true -> blt b c = true -> blt a c = true.
Proof.
  revert b c. induction a as [|x a IH]; intros [|y b] [|z c]; simpl; try done.
  intros H1 H2.
  repeat break_if; bsplit; try done; try lia. eauto.
Qed.

Lemma blt_total a b : blt a b = true \/ a = b \/ blt b a = true.
Proof.
  revert b. induction a as [|x a IH]; intros [|y b]; simpl; auto.
  destruct (b2z x <? b2z y) eqn:E1; [auto|].
  destruct (b2z y <? b2z x) eqn:E2; [auto|].
  bsplit. assert (x = y) as -> by (apply b2z_inj; lia).
  destruct (IH b) as [?|[->|?]]; auto.
Qed.

Lemma blt_asym a b : blt a b = true -> blt b a = false.
Proof.
  intros H. destruct (blt b a) eqn:E; [|done].
  pose proof (blt_trans _ _ _ H E) as Hc. by rewrite blt_irrefl in Hc.
Qed.

Lemma ble_lt_eq a b : ble a b = true <-> blt a b = true \/ a = b.
Proof.
  unfold ble. rewrite negb_true_iff. split.
  - intros H. destruct (blt_total a b) as [?|[?|?]]; auto. congruence.
  - intros [H| ->]; [by apply blt_asym | apply blt_irrefl].
Qed.

Lemma ble_trans a b c : ble a b = true -> ble b c = true -> ble a c = true.
Proof.
  rewrite !ble_lt_eq. intros [H1| ->] [H2| ->]; auto.
  left. by eapply blt_trans.
Qed.

(** Keys of one length compare through a shared prefix, and the first
    differing component decides. *)
Lemma blt_app_prefix p a b : blt (p ++ a) (p ++ b) = blt a b.
Proof. induction p as [|x p IH]; simpl; [done|]. by rewrite Z.ltb_irrefl. Qed.

Lemma blt_app_lt a b s t :
  length a = length b -> blt a b = true -> blt (a ++ s) (b ++ t) = true.
Proof.
  revert b. induction a as [|x a IH]; intros [|y b]; simpl; try done.
  intros [= Hlen] H. repeat break_if; eauto.
Qed.

Lemma blt_app_len a b s t :
  length a = length b ->
  blt (a ++ s) (b ++ t) = blt a b || (bool_decide (a = b) && blt s t).
Proof.
  intros Hlen. destruct (blt_total a b) as [H|[->|H]].
  - rewrite H. simpl. by apply blt_app_lt.
  - rewrite blt_irrefl, blt_app_prefix, bool_decide_true by done. done.
  - rewrite (blt_asym _ _ H). rewrite bool_decide_false; simpl.
    + apply blt_asym, blt_app_lt; done.
    + intros ->. by rewrite blt_irrefl in H.
Qed.

(** A key that starts with [p] is not below it. *)
Lemma ble_prefix p s : ble p (p ++ s) = true.
Proof.
  unfold ble. rewrite <- (app_nil_r p) at 2. rewrite blt_app_prefix.
  by destruct s.
Qed.

(** ** Big-endian integers: [binary.BigEndian.PutUint32/64] and back *)

Fixpoint be_bytes (n : nat) (z : Z) : gostr :=
  match n with
  | O => []
  | S n' => z2b (z / 256 ^ Z.of_nat n') :: be_bytes n' z
  end.

Fixpoint be_val_acc (acc : Z) (l : gostr) : Z :=
  match l with
  | [] => acc
  | b :: l' => be_val_acc (acc * 256 + b2z b) l'
  end.
Definition be_val (l : gostr) : Z := be_val_acc 0 l.

Definition PutUint16 (z : Z) : gostr := be_bytes 2 z.
Definition PutUint32 (z : Z) : gostr := be_bytes 4 z.
Definition PutUint64 (z : Z) : gostr := be_bytes 8 z.
Definition Uint64 (l : gostr) : Z := be_val (take 8 l).
Definition Uint32 (l : gostr) : Z := be_val (take 4 l).

Lemma length_be_bytes n z : length (be_bytes n z) = n.
Proof. induction n; simpl; congruence. Qed.

Lemma pow256_pos n : 0 < 256 ^ Z.of_nat n.
Proof. apply Z.pow_pos_nonneg; lia. Qed.

Lemma pow256_succ n : 256 ^ Z.of_nat (S n) = 256 * 256 ^ Z.of_nat n.
Proof. rewrite Nat2Z.inj_succ, Z.pow_succ_r by lia. done. Qed.

Lemma mod_pow256_succ n z :
  z mod 256 ^ Z.of_nat (S n)
  = (z / 256 ^ Z.of_nat n) mod 256 * 256 ^ Z.of_nat n + z mod 256 ^ Z.of_nat n.
Proof.
  rewrite pow256_succ, (Z.mul_comm 256).
  pose proof (pow256_pos n).
  rewrite Z.rem_mul_r by lia. lia.
Qed.

Lemma be_val_acc_bytes n acc z :
  be_val_acc acc (be_bytes n z) = acc * 256 ^ Z.of_nat n + z mod 256 ^ Z.of_nat n.
Proof.
  revert acc. induction n as [|n IH]; intros acc; simpl be_bytes; simpl be_val_acc.
  - rewrite Z.mod_1_r. lia.
  - rewrite IH, b2z_z2b, mod_pow256_succ, pow256_succ. lia.
Qed.

Lemma be_val_bytes n z : be_val (be_bytes n z) = z mod 256 ^ Z.of_nat n.
Proof. unfold be_val. rewrite be_val_acc_bytes. lia. Qed.

Lemma be_val_acc_lin l acc :
  be_val_acc acc l = acc * 256 ^ Z.of_nat (length l) + be_val l.
Proof.
  revert acc. induction l as [|b l IH]; intros acc.
  - unfold be_val. simpl. lia.
  - change (be_val (b :: l)) with (be_val_acc (b2z b) l).
    cbn [be_val_acc length]. rewrite IH, (IH (b2z b)), pow256_succ. lia.
Qed.

Lemma be_val_bound l : 0 <= be_val l < 256 ^ Z.of_nat (length l).
Proof.
  induction l as [|b l IH]; [done|].
  unfold be_val. simpl be_val_acc. rewrite be_val_acc_lin.
  simpl length. rewrite pow256_succ. pose proof (b2z_range b). nia.
Qed.

Lemma be_bytes_mod n z k : be_bytes n (k * 256 ^ Z.of_nat n + z) = be_bytes n z.
Proof.
  revert z k. induction n as [|n IH]; intros z k; [done|]. cbn [be_bytes].
  rewrite pow256_succ.
  replace (k * (256 * 256 ^ Z.of_nat n) + z)
    with ((k * 256) * 256 ^ Z.of_nat n + z) by lia.
  rewrite IH. f_equal.
  pose proof (pow256_pos n). rewrite Z.div_add_l by lia.
  unfold z2b. rewrite Z.add_comm, Z.mod_add by lia. done.
Qed.

Lemma be_bytes_val l : be_bytes (length l) (be_val l) = l.
Proof.
  induction l as [|b l IH]; [done|].
  change (be_val (b :: l)) with (be_val_acc (b2z b) l).
  cbn [be_bytes length]. rewrite be_val_acc_lin.
  pose proof (be_val_bound l). pose proof (b2z_range b). f_equal.
  - rewrite Z.div_add_l, Z.div_small by lia. rewrite Z.add_0_r. apply z2b_b2z.
  - rewrite be_bytes_mod. exact IH.
Qed.

Lemma be_bytes_inj n x y :
  0 <= x < 256 ^ Z.of_nat n -> 0 <= y < 256 ^ Z.of_nat n ->
  be_bytes n x = be_bytes n y -> x = y.
Proof.
  intros Hx Hy H. apply (f_equal be_val) in H.
  rewrite !be_val_bytes, !Z.mod_small in H by done. done.
Qed.

(** Big-endian order is numeric order. *)
Lemma blt_be_bytes n x y :
  blt (be_bytes n x) (be_bytes n y)
  = (x mod 256 ^ Z.of_nat n <? y mod 256 ^ Z.of_nat n).
Proof.
  induction n as [|n IH].
  - simpl. by rewrite !Z.mod_1_r.
  - cbn [be_bytes blt]. rewrite !b2z_z2b, IH, !mod_pow256_succ.
    pose proof (pow256_pos n) as Hp.
    pose proof (Z.mod_pos_bound x _ Hp). pose proof (Z.mod_pos_bound y _ Hp).
    set (P := 256 ^ Z.of_nat n) in *.
    set (a := (x / P) mod 256). set (b := (y / P) mod 256).
    symmetry. destruct (a <? b) eqn:E1; [|destruct (b <? a) eqn:E2]; bsplit.
    + apply Z.ltb_lt. nia.
    + apply Z.ltb_ge. nia.
    + assert (a = b) as -> by lia.
      destruct (x mod P <? y mod P) eqn:E3; bsplit;
        [apply Z.ltb_lt | apply Z.ltb_ge]; lia.
Qed.

(** ** Uvarints: [binary.AppendUvarint] and [binary.Uvarint] *)

(** The encoder's loop; a uint64 leaves after at most ten bytes, which is
    the fuel ([MaxVarintLen64]). *)
Fixpoint uvarint_loop (fuel : nat) (x : Z) : gostr :=
  match fuel with
  | O => []
  | S f => if x >=? 128 then z2b (Z.lor x 128) :: uvarint_loop f (Z.shiftr x 7)
           else [z2b x]
  end.
Definition AppendUvarint (x : Z) : gostr := uvarint_loop 10 x.

(** The decoder: [(value, n)], [n <= 0] reporting a short or an overflowing
    encoding exactly as the library does. *)
Fixpoint uvarint_decode (i : Z) (x : Z) (buf : gostr) : Z * Z :=
  match buf with
  | [] => (0, 0)
  | b :: rest =>
      if i =? 10 then (0, - (i + 1))
      else if b2z b <? 128 then
        if (i =? 9) && (1 <? b2z b) then (0, - (i + 1))
        else (u64 (Z.lor x (Z.shiftl (b2z b) (7 * i))), i + 1)
      else uvarint_decode (i + 1)
             (u64 (Z.lor x (Z.shiftl (Z.land (b2z b) 127) (7 * i)))) rest
  end.
Definition Uvarint (buf : gostr) : Z * Z := uvarint_decode 0 0 buf.

Lemma lor_disjoint x y k :
  0 <= k -> 0 <= x < 2 ^ k -> Z.lor x (Z.shiftl y k) = x + y * 2 ^ k.
Proof.
  intros Hk Hx.
  assert (Hl : Z.land x (Z.shiftl y k) = 0).
  { apply Z.bits_inj'. intros n Hn. rewrite Z.land_spec, Z.bits_0.
    destruct (Z.lt_ge_cases n k).
    - rewrite Z.shiftl_spec_low by lia. apply andb_false_r.
    - rewrite <- (Z.mod_small x (2 ^ k)) by lia.
      by rewrite Z.mod_pow2_bits_high by lia. }
  rewrite <- Z.lxor_lor by done. rewrite <- Z.add_nocarry_lxor by done.
  by rewrite Z.shiftl_mul_pow2.
Qed.

(** A property of every byte value is checked by evaluation. *)
Lemma byte_cases (P : Z -> bool) :
  forallb (fun n => P (Z.of_nat n)) (seq 0 256) = true ->
  forall z, 0 <= z < 256 -> P z = true.
Proof.
  intros H z Hz. rewrite forallb_forall in H.
  specialize (H (Z.to_nat z)). rewrite Z2Nat.id in H by lia.
  apply H. apply in_seq. lia.
Qed.

(** One continuation byte: its payload is the low seven bits. *)
Lemma cont_byte y :
  0 <= y -> b2z (z2b (Z.lor y 128)) = y mod 128 + 128.
Proof.
  intros Hy. rewrite b2z_z2b.
  pose proof (Z.mod_pos_bound y 256 ltac:(lia)) as Hb.
  replace (y mod 128) with ((y mod 256) mod 128)
    by (change 256 with (128 * 2); rewrite Z.rem_mul_r, Z.mul_comm, Z.mod_add, Z.mod_mod by lia; done).
  replace (Z.lor y 128 mod 256) with (Z.lor (y mod 256) 128).
  - apply Z.eqb_eq.
    by apply (byte_cases (fun z => Z.lor z 128 =? z mod 128 + 128)).
  - change 256 with (2 ^ 8) at 2. rewrite <- Z.land_ones by lia.
    rewrite Z.land_lor_distr_l, Z.land_ones by lia. done.
Qed.

Lemma land_127 z : 0 <= z -> Z.land z 127 = z mod 128.
Proof. intros Hz. change 127 with (Z.ones 7). by rewrite Z.land_ones. Qed.

Lemma uvarint_decode_loop fuel : forall i x y rest,
  0 <= i -> i + Z.of_nat fuel = 10 -> 0 <= x < 2 ^ (7 * i) -> 0 <= y ->
  x + y * 2 ^ (7 * i) < two64 -> (1 <= fuel)%nat ->
  uvarint_decode i x (uvarint_loop fuel y ++ rest)
  = (x + y * 2 ^ (7 * i), i + zlen (uvarint_loop fuel y)).
Proof.
  induction fuel as [|f IH]; intros i x y rest Hi Hfuel Hx Hy Hb Hf; [lia|].
  assert (Hp : 0 < 2 ^ (7 * i)) by (apply Z.pow_pos_nonneg; lia).
  assert (Hy64 : y * 2 ^ (7 * i) < two64) by lia.
  cbn [uvarint_loop]. rewrite Z.geb_leb. destruct (128 <=? y) eqn:E; bsplit.
  - (* a continuation byte *)
    assert (Hi9 : i < 9).
    { destruct (Z.lt_ge_cases i 9); [done|]. assert (i = 9) as -> by lia.
      change (2 ^ (7 * 9)) with 9223372036854775808 in *.
      unfold two64 in *. nia. }
    cbn [app uvarint_decode]. rewrite (proj2 (Z.eqb_neq i 10)) by lia.
    rewrite cont_byte by lia.
    pose proof (Z.mod_pos_bound y 128 ltac:(lia)).
    rewrite (proj2 (Z.ltb_ge (y mod 128 + 128) 128)) by lia.
    rewrite land_127 by lia.
    replace ((y mod 128 + 128) mod 128) with (y mod 128)
      by (rewrite <- Z.add_mod_idemp_r, Z.mod_same, Z.add_0_r, Z.mod_mod by lia; done).
    rewrite lor_disjoint by lia.
    assert (H7 : 2 ^ (7 * (i + 1)) = 128 * 2 ^ (7 * i)).
    { replace (7 * (i + 1)) with (7 + 7 * i) by lia.
      rewrite Z.pow_add_r by lia. done. }
    pose proof (Z.div_mod y 128 ltac:(lia)) as Hdm.
    pose proof (Z.div_pos y 128 ltac:(lia) ltac:(lia)).
    rewrite u64_id by (unfold in_u64; nia).
    rewrite Z.shiftr_div_pow2 by lia. change (2 ^ 7) with 128.
    rewrite IH; rewrite ?H7; try lia; try nia.
    rewrite zlen_cons. f_equal; [nia | lia].
  - (* the last byte *)
    cbn [app uvarint_decode]. rewrite (proj2 (Z.eqb_neq i 10)) by lia.
    rewrite b2z_z2b, Z.mod_small by lia.
    rewrite (proj2 (Z.ltb_lt y 128)) by lia.
    destruct ((i =? 9) && (1 <? y)) eqn:E9; bsplit.
    { subst i. change (2 ^ (7 * 9)) with 9223372036854775808 in *.
      unfold two64 in *. lia. }
    rewrite lor_disjoint by lia. rewrite u64_id by (unfold in_u64; lia).
    done.
Qed.

(** The round trip every length prefix of the engine relies on. *)
Lemma Uvarint_AppendUvarint x rest :
  in_u64 x ->
  Uvarint (AppendUvarint x ++ rest) = (x, zlen (AppendUvarint x)).
Proof.
  intros Hx. unfold Uvarint, AppendUvarint.
  rewrite uvarint_decode_loop; try done; unfold in_u64 in *; try lia.
  f_equal; lia.
Qed.

Lemma uvarint_loop_cons f x : exists b l, uvarint_loop (S f) x = b :: l.
Proof. cbn [uvarint_loop]. break_if; eauto. Qed.

Lemma AppendUvarint_pos x : 0 < zlen (AppendUvarint x).
Proof.
  unfold AppendUvarint. destruct (uvarint_loop_cons 9 x) as (b & l & ->).
  rewrite zlen_cons. pose proof (zlen_nonneg l). lia.
Qed.

Lemma AppendUvarint_small x : 0 <= x < 128 -> AppendUvarint x = [z2b x].
Proof.
  intros Hx. unfold AppendUvarint. cbn [uvarint_loop].
  rewrite Z.geb_leb. by rewrite (proj2 (Z.leb_gt 128 x)) by lia.
Qed.

(** Uvarints are prefix-free, so a length prefix cannot be forged. *)
Lemma AppendUvarint_app_inj x y s t :
  in_u64 x -> in_u64 y ->
  AppendUvarint x ++ s = AppendUvarint y ++ t -> x = y /\ s = t.
Proof.
  intros Hx Hy H.
  pose proof (Uvarint_AppendUvarint x s Hx) as H1.
  pose proof (Uvarint_AppendUvarint y t Hy) as H2.
  rewrite H in H1. rewrite H1 in H2. injection H2 as -> Hl.
  split; [done|]. by apply app_inv_head in H.
Qed.

#[export] Hint Rewrite length_be_bytes @length_app : gomodel.
