(* ===== verification/Float64.v ===== *)
(** * Float64: Go's [float64]

    A float64 is a [spec_float] of precision 53 and maximal exponent 1024,
    the executable specification of IEEE 754 binary64; arithmetic rounds to
    nearest even, as Go's does.  A NaN has no payload here: every NaN of
    the program is [math.NaN()].  The file holds the comparisons and
    conversions the source uses and the order facts the render walk and
    the filters rely on. *)

From Stdlib Require Import ZArith Lia Bool Floats.SpecFloat.
From S2P Require Import Prelude Bytes.

Abbreviation f64 := spec_float.
#[export] Instance f64_eq_dec : EqDecision f64.
Proof. solve_decision. Defined.

Definition prec : Z := 53.
Definition emax : Z := 1024.

Definition fvalid (f : f64) : bool := valid_binary prec emax f.

Definition feqb (a b : f64) : bool := SFeqb a b.     (* a == b *)
Definition fltb (a b : f64) : bool := SFltb a b.     (* a < b  *)
Definition fleb (a b : f64) : bool := SFleb a b.     (* a <= b *)
Definition fgtb (a b : f64) : bool := fltb b a.     (* a > b  *)
Definition fgeb (a b : f64) : bool := fleb b a.     (* a >= b *)
Definition fadd (a b : f64) : f64 := SFadd prec emax a b.
Definition fsub (a b : f64) : f64 := SFsub prec emax a b.
Definition fmul (a b : f64) : f64 := SFmul prec emax a b.
Definition fdiv (a b : f64) : f64 := SFdiv prec emax a b.
Definition fneg (a : f64) : f64 := SFopp a.

(** [float64(n)] for an integer, and an exact constant [n * 2^e]. *)
Definition of_int (n : Z) : f64 := binary_normalize prec emax n 0 false.
Arguments of_int : simpl never.
Arguments fadd : simpl never.
Arguments fsub : simpl never.
Arguments fmul : simpl never.
Arguments fdiv : simpl never.
Arguments fltb : simpl never.
Arguments fleb : simpl never.
Arguments feqb : simpl never.
Definition f_zero : f64 := S754_zero false.

Definition IsNaN (f : f64) : bool :=
  match f with S754_nan => true | _ => false end.
Definition IsInf (f : f64) : bool :=
  match f with S754_infinity _ => true | _ => false end.

(** [int64(f)] for a finite [f] inside the int64 range: truncation towards
    zero.  The source only converts after a range check. *)
Definition to_int (f : f64) : Z :=
  match f with
  | S754_finite s m e =>
      let t := if 0 <=? e then Z.pos m * 2 ^ e else Z.pos m / 2 ^ (- e) in
      if s then - t else t
  | _ => 0
  end.

(** [math.Float64bits] and [math.Float64frombits]. *)
Definition Float64bits (f : f64) : Z :=
  match f with
  | S754_nan => 9221120237041090561
  | S754_infinity s => (if s then two63 else 0) + 2047 * 2 ^ 52
  | S754_zero s => if s then two63 else 0
  | S754_finite s m e =>
      (if s then two63 else 0) +
      (if Z.pos m <? 2 ^ 52 then Z.pos m
       else (e + 1075) * 2 ^ 52 + (Z.pos m - 2 ^ 52))
  end.

Definition Float64frombits (u : Z) : f64 :=
  let s := two63 <=? u in
  let ex := (u / 2 ^ 52) mod 2048 in
  let ma := u mod 2 ^ 52 in
  if ex =? 2047 then (if ma =? 0 then S754_infinity s else S754_nan)
  else if ex =? 0 then
    match ma with Z.pos m => S754_finite s m (-1074) | _ => S754_zero s end
  else match ma + 2 ^ 52 with
       | Z.pos m => S754_finite s m (ex - 1075)
       | _ => S754_zero s
       end.

(** ** The order is lexicographic on a rank *)

Definition frank (f : f64) : Z * Z * Z :=
  match f with
  | S754_infinity false => (2, 0, 0)
  | S754_finite false m e => (1, e, Z.pos m)
  | S754_zero _ | S754_nan => (0, 0, 0)
  | S754_finite true m e => (-1, - e, Z.neg m)
  | S754_infinity true => (-2, 0, 0)
  end.

Definition rank_lt (a b : Z * Z * Z) : Prop :=
  let '(a1, a2, a3) := a in
  let '(b1, b2, b3) := b in
  a1 < b1 \/ (a1 = b1 /\ (a2 < b2 \/ (a2 = b2 /\ a3 < b3))).

Lemma fltb_rank a b :
  fltb a b = true <-> IsNaN a = false /\ IsNaN b = false /\ rank_lt (frank a) (frank b).
Proof.
  unfold fltb, SFltb.
  destruct a as [sa|sa| |sa ma ea], b as [sb|sb| |sb mb eb];
    try destruct sa; try destruct sb; simpl; try (split; [done | lia]);
    try (split; [intros _; repeat split; lia | done]);
    try (split; [done | intros (?&?&?); lia]);
    destruct (Z.compare_spec ea eb);
    change (Pos.compare_cont Eq ma mb) with (Pos.compare ma mb);
    try destruct (Pos.compare_spec ma mb); simpl;
    (split; [intros H'; try discriminate H'; repeat split; lia
            | intros (?&?&?); first [reflexivity | exfalso; lia]]).
Qed.

Lemma fleb_rank a b :
  fleb a b = true <->
  IsNaN a = false /\ IsNaN b = false /\ ~ rank_lt (frank b) (frank a).
Proof.
  unfold fleb, SFleb.
  destruct a as [sa|sa| |sa ma ea], b as [sb|sb| |sb mb eb];
    try destruct sa; try destruct sb; simpl; try (split; [done | lia]);
    try (split; [intros _; repeat split; lia | done]);
    try (split; [done | intros (?&?&?); lia]);
    destruct (Z.compare_spec ea eb);
    change (Pos.compare_cont Eq ma mb) with (Pos.compare ma mb);
    try destruct (Pos.compare_spec ma mb); simpl;
    (split; [intros H'; try discriminate H'; repeat split; lia
            | intros (?&?&?); first [reflexivity | exfalso; lia]]).
Qed.

Lemma rank_lt_irrefl a : ~ rank_lt a a.
Proof. destruct a as [[??]?]. simpl. lia. Qed.

Lemma rank_lt_trans a b c : rank_lt a b -> rank_lt b c -> rank_lt a c.
Proof. destruct a as [[??]?], b as [[??]?], c as [[??]?]. simpl. lia. Qed.

Lemma fltb_irrefl a : fltb a a = false.
Proof.
  destruct (fltb a a) eqn:E; [|done].
  apply fltb_rank in E as (_ & _ & E). by apply rank_lt_irrefl in E.
Qed.

Lemma fltb_trans a b c : fltb a b = true -> fltb b c = true -> fltb a c = true.
Proof.
  rewrite !fltb_rank. intros (?&?&?) (?&?&?).
  eauto using rank_lt_trans.
Qed.

(** "Not below" composes, which is what keeps a running extremum an
    extremum of everything seen so far. *)
Lemma fltb_false_trans a b c :
  IsNaN b = false -> fltb a b = false -> fltb b c = false -> fltb a c = false.
Proof.
  intros Hb Hab Hbc. destruct (fltb a c) eqn:E; [|done].
  apply fltb_rank in E as (Ha & Hc & E).
  assert (~ rank_lt (frank a) (frank b))
    by (intros ?; rewrite (proj2 (fltb_rank a b)) in Hab; [discriminate|auto]).
  assert (~ rank_lt (frank b) (frank c))
    by (intros ?; rewrite (proj2 (fltb_rank b c)) in Hbc; [discriminate|auto]).
  exfalso. destruct (frank a) as [[??]?], (frank b) as [[??]?], (frank c) as [[??]?].
  simpl in *. lia.
Qed.

Lemma fltb_asym a b : fltb a b = true -> fltb b a = false.
Proof.
  intros H. destruct (fltb b a) eqn:E; [|done].
  pose proof (fltb_trans _ _ _ H E). by rewrite fltb_irrefl in *.
Qed.

(** Between two finite values [<=] is the negation of [>]. *)
Lemma fleb_negb_fltb a b :
  IsNaN a = false -> IsNaN b = false -> fleb a b = negb (fltb b a).
Proof.
  intros Ha Hb. destruct (fleb a b) eqn:E1, (fltb b a) eqn:E2; simpl; try done.
  - apply fleb_rank in E1 as (_&_&E1). apply fltb_rank in E2 as (_&_&E2). done.
  - exfalso. assert (fleb a b = true); [|congruence].
    apply fleb_rank. repeat split; [done..|]. intros ?.
    assert (fltb b a = true); [|congruence]. by apply fltb_rank.
Qed.

(** [==] on non-NaN values: equal ranks. *)
Lemma feqb_spec a b :
  feqb a b = true <-> IsNaN a = false /\ IsNaN b = false /\ frank a = frank b.
Proof.
  unfold feqb, SFeqb.
  destruct a as [sa|sa| |sa ma ea], b as [sb|sb| |sb mb eb];
    try destruct sa; try destruct sb; simpl; try (split; [done | intros (?&?&?); congruence]);
    try (split; [intros _; repeat split; lia | done]);
    destruct (Z.compare_spec ea eb);
    change (Pos.compare_cont Eq ma mb) with (Pos.compare ma mb);
    try destruct (Pos.compare_spec ma mb); simpl;
    (split; [intros H'; try discriminate H'; repeat split; congruence
            | intros (?&?&[=]); first [reflexivity | exfalso; lia]]).
Qed.

Lemma feqb_refl a : IsNaN a = false -> feqb a a = true.
Proof. intros. by apply feqb_spec. Qed.

Lemma feqb_sym a b : feqb a b = feqb b a.
Proof.
  apply Bool.eq_iff_eq_true. rewrite !feqb_spec. intuition congruence.
Qed.

Lemma feqb_trans a b c : feqb a b = true -> feqb b c = true -> feqb a c = true.
Proof. rewrite !feqb_spec. intros (?&?&?) (?&?&?). repeat split; congruence. Qed.

(** ** Bit patterns *)

Lemma digits2_pos_bound m :
  2 ^ (Z.pos (digits2_pos m) - 1) <= Z.pos m < 2 ^ Z.pos (digits2_pos m).
Proof.
  induction m as [m IH|m IH|]; cbn [digits2_pos]; [| |done].
  all: rewrite Pos2Z.inj_succ.
  all: replace (Z.succ (Z.pos (digits2_pos m)) - 1) with (Z.succ (Z.pos (digits2_pos m) - 1)) by lia.
  all: rewrite !Z.pow_succ_r by lia.
  all: lia.
Qed.

(** What [bounded] says for binary64: a normal number has 53 bits, a
    subnormal one sits at the least exponent. *)
Lemma fvalid_finite s m e :
  fvalid (S754_finite s m e) = true <->
  e <= 971 /\ ((2 ^ 52 <= Z.pos m < 2 ^ 53 /\ -1074 <= e) \/ (Z.pos m < 2 ^ 52 /\ e = -1074)).
Proof.
  unfold fvalid, valid_binary, bounded, canonical_mantissa, fexp, SpecFloat.emin.
  rewrite andb_true_iff, Z.eqb_eq, Z.leb_le. unfold prec, emax.
  pose proof (digits2_pos_bound m) as Hd.
  set (d := Z.pos (digits2_pos m)) in *.
  assert (Hmono : forall a b, a <= b -> 2 ^ a <= 2 ^ b)
    by (intros; apply Z.pow_le_mono_r; lia).
  assert (d <= 52 \/ d = 53 \/ 54 <= d) as [H|[H|H]] by lia.
  - pose proof (Hmono d 52 H). split; [lia|].
    intros [? [?|[? ->]]]; lia.
  - rewrite H in *. change (53 - 1) with 52 in Hd. lia.
  - pose proof (Hmono 53 (d - 1) ltac:(lia)). lia.
Qed.

Lemma Float64frombits_bits f : fvalid f = true -> Float64frombits (Float64bits f) = f.
Proof.
  destruct f as [s|s| |s m e]; try (destruct s); try done; intros H.
  all: apply fvalid_finite in H; unfold Float64bits.
  all: destruct (Z.pos m <? 2 ^ 52) eqn:E; bsplit; unfold Float64frombits.
  all: try (destruct H as [_ [[? _]|[_ ->]]]; [lia|]).
  all: try (destruct H as [He [[Hm He']|[? _]]]; [|lia]).
  - replace (two63 + Z.pos m) with (Z.pos m + 2048 * 2 ^ 52) by (unfold two63; lia).
    rewrite Z.div_add, (Z.div_small (Z.pos m)) by lia.
    rewrite Z.mod_add, (Z.mod_small (Z.pos m)), (proj2 (Z.leb_le two63 _))
      by (unfold two63; lia). done.
  - set (z := two63 + _).
    assert (z = (2048 + (e + 1075)) * 2 ^ 52 + (Z.pos m - 2 ^ 52)) as -> by (unfold z, two63; lia).
    rewrite (proj2 (Z.leb_le two63 _)) by (unfold two63; lia).
    rewrite Z.div_add_l, (Z.div_small (Z.pos m - 2 ^ 52)) by lia.
    rewrite (Z.add_comm (_ * 2 ^ 52)), Z.mod_add, (Z.mod_small (Z.pos m - 2 ^ 52)) by lia.
    replace (2048 + (e + 1075) + 0) with (e + 1075 + 1 * 2048) by lia.
    rewrite Z.mod_add, Z.mod_small by lia.
    rewrite (proj2 (Z.eqb_neq _ 2047)), (proj2 (Z.eqb_neq _ 0)) by lia.
    replace (Z.pos m - 2 ^ 52 + 2 ^ 52) with (Z.pos m) by lia. f_equal; lia.
  - rewrite Z.add_0_l, Z.div_small, (Z.mod_small (Z.pos m)) by lia.
    rewrite (proj2 (Z.leb_gt two63 _)) by (unfold two63; lia). done.
  - rewrite Z.add_0_l. rewrite (proj2 (Z.leb_gt two63 _)) by (unfold two63; lia).
    rewrite Z.div_add_l, (Z.div_small (Z.pos m - 2 ^ 52)) by lia.
    rewrite (Z.add_comm ((e + 1075) * 2 ^ 52)), Z.mod_add, (Z.mod_small (Z.pos m - 2 ^ 52)) by lia.
    rewrite Z.add_0_r, Z.mod_small by lia.
    rewrite (proj2 (Z.eqb_neq _ 2047)), (proj2 (Z.eqb_neq _ 0)) by lia.
    replace (Z.pos m - 2 ^ 52 + 2 ^ 52) with (Z.pos m) by lia. f_equal; lia.
Qed.

Lemma Float64bits_range f : fvalid f = true -> in_u64 (Float64bits f).
Proof.
  destruct f as [s|s| |s m e]; try (destruct s); try done; intros H.
  all: try (unfold in_u64, two64; simpl; lia).
  all: apply fvalid_finite in H; unfold Float64bits, in_u64, two64, two63.
  all: break_if; bsplit; lia.
Qed.

(** ** [float64(n)] of an int64 is a number *)

Section OfInt.
Lemma shr_1_m r :
  0 <= shr_m r -> 0 <= shr_m (shr_1 r) <= shr_m r.
Proof. destruct r as [[|[p|p|]|p] rr ss]; simpl; lia. Qed.

Lemma iter_pos_inv {A} (f : A -> A) (P : A -> Prop) :
  (forall x, P x -> P (f x)) -> forall n x, P x -> P (SpecFloat.iter_pos f n x).
Proof. intros Hf n. induction n; intros x Hx; simpl; auto. Qed.

Lemma shr_bounds r e n M :
  0 <= shr_m r <= M ->
  0 <= shr_m (fst (shr r e n)) <= M /\ snd (shr r e n) = e + Z.max 0 n.
Proof.
  intros Hr. destruct n as [|p|p]; simpl; [lia| |lia].
  split; [|lia].
  apply (iter_pos_inv shr_1 (fun r => 0 <= shr_m r <= M)); [|done].
  intros x Hx. pose proof (shr_1_m x). lia.
Qed.

Lemma Zdigits2_bound m B : 0 <= m < 2 ^ B -> 0 <= B -> Zdigits2 m <= B.
Proof.
  intros Hm HB. destruct m as [|p|p]; simpl; [lia| |lia].
  pose proof (digits2_pos_bound p).
  destruct (Z.le_gt_cases (Z.pos (digits2_pos p)) B) as [?|Hgt]; [done|].
  assert (2 ^ B <= 2 ^ (Z.pos (digits2_pos p) - 1)) by (apply Z.pow_le_mono_r; lia). lia.
Qed.

Lemma round_aux_finite s m e :
  0 <= m < 2 ^ 66 -> -100 <= e <= 100 ->
  let f := binary_round_aux prec emax s m e loc_Exact in
  IsNaN f = false /\ IsInf f = false.
Proof.
  intros Hm He f. unfold f, binary_round_aux, shr_fexp.
  set (n1 := fexp prec emax (Zdigits2 m + e) - e).
  pose proof (Zdigits2_bound m 66 Hm ltac:(lia)).
  pose proof (shr_bounds (shr_record_of_loc m loc_Exact) e n1 m ltac:(simpl; lia)) as [Hm1 He1].
  destruct (shr (shr_record_of_loc m loc_Exact) e n1) as [r1 e1]. simpl fst in *; simpl snd in *.
  set (m1 := round_nearest_even (shr_m r1) (loc_of_shr_record r1)).
  assert (Hm2 : 0 <= m1 < 2 ^ 67).
  { unfold m1, round_nearest_even. destruct (loc_of_shr_record r1) as [|[]]; try lia.
    destruct (Z.even (shr_m r1)); lia. }
  set (n2 := fexp prec emax (Zdigits2 m1 + e1) - e1).
  pose proof (Zdigits2_bound m1 67 Hm2 ltac:(lia)).
  pose proof (shr_bounds (shr_record_of_loc m1 loc_Exact) e1 n2 m1 ltac:(simpl; lia)) as [Hm3 He2].
  destruct (shr (shr_record_of_loc m1 loc_Exact) e1 n2) as [r2 e2]. simpl fst in *; simpl snd in *.
  assert (e2 <= 971).
  { unfold n1, n2, fexp, SpecFloat.emin, prec, emax in *. lia. }
  destruct (shr_m r2) as [|p|p]; try done; [|lia].
  unfold emax, prec. rewrite (proj2 (Z.leb_le _ _)) by lia. done.
Qed.

Lemma iter_xO p n : Z.pos (Pos.iter xO p n) = Z.pos p * 2 ^ Z.pos n.
Proof.
  induction n as [|n IH] using Pos.peano_ind.
  - simpl. lia.
  - rewrite Pos.iter_succ, Pos2Z.inj_succ, Z.pow_succ_r by lia.
    rewrite (Pos2Z.inj_xO (Pos.iter xO p n)), IH. lia.
Qed.

Lemma binary_round_finite s p :
  Z.pos p < 2 ^ 65 ->
  IsNaN (binary_round prec emax s p 0) = false /\
  IsInf (binary_round prec emax s p 0) = false.
Proof.
  intros Hp. pose proof (digits2_pos_bound p) as Hd.
  pose proof (Zdigits2_bound (Z.pos p) 65 ltac:(lia) ltac:(lia)) as Hd65. simpl in Hd65.
  assert (Hf : fexp prec emax (Z.pos (digits2_pos p) + 0) = Z.pos (digits2_pos p) - 53)
    by (unfold fexp, SpecFloat.emin, prec, emax; lia).
  unfold binary_round, shl_align. rewrite Hf, Z.sub_0_r.
  set (d := Z.pos (digits2_pos p)) in *. assert (1 <= d) by (unfold d; lia).
  destruct (d - 53) as [|q|q] eqn:E; [apply (round_aux_finite s (Z.pos p) 0); lia..|].
  apply (round_aux_finite s (Z.pos (Pos.iter xO p q)) (Z.neg q)); [|lia].
  rewrite iter_xO. replace (Z.pos q) with (53 - d) by lia.
  assert (Z.pos p * 2 ^ (53 - d) < 2 ^ d * 2 ^ (53 - d)) as Hlt
    by (apply Z.mul_lt_mono_pos_r; [apply Z.pow_pos_nonneg; lia | lia]).
  rewrite <- Z.pow_add_r in Hlt by lia. replace (d + (53 - d)) with 53 in Hlt by lia.
  assert (0 < 2 ^ (53 - d)) by (apply Z.pow_pos_nonneg; lia). lia.
Qed.

Lemma of_int_finite n :
  - 2 ^ 64 <= n <= 2 ^ 64 -> IsNaN (of_int n) = false /\ IsInf (of_int n) = false.
Proof.
  intros Hn. unfold of_int, binary_normalize. destruct n as [|p|p]; [done| |];
    apply binary_round_finite; lia.
Qed.
End OfInt.

(** * FloatExact: integers a float64 holds exactly

    Below 2^53 a conversion from an integer, a product and the conversion
    back are exact, which is what a duration's text goes through. *)


Lemma digits2_pos_unique p d : 2 ^ (d - 1) <= Z.pos p < 2 ^ d -> 0 < d -> Z.pos (digits2_pos p) = d.
Proof.
  intros Hp Hd. pose proof (digits2_pos_bound p) as Hb. set (k := Z.pos (digits2_pos p)) in *.
  assert (0 < k) by (unfold k; lia).
  destruct (Z.lt_trichotomy k d) as [Hlt|[?|Hgt]]; [|done|].
  - assert (2 ^ k <= 2 ^ (d - 1)) by (apply Z.pow_le_mono_r; lia). lia.
  - assert (2 ^ d <= 2 ^ (k - 1)) by (apply Z.pow_le_mono_r; lia). lia.
Qed.

Lemma pow2_pos n : 0 <= n -> 0 < 2 ^ n.
Proof. intros. by apply Z.pow_pos_nonneg. Qed.

Definition whole_record (m : Z) : shr_record := {| shr_m := m; shr_r := false; shr_s := false |}.

Lemma shr_1_double m : 0 <= m -> shr_1 (whole_record (2 * m)) = whole_record m.
Proof. intros Hm. destruct m as [|p|p]; [done|done|lia]. Qed.
Lemma iter_shr_exact n : forall m, 0 <= m ->
  SpecFloat.iter_pos shr_1 n (whole_record (m * 2 ^ Z.pos n)) = whole_record m.
Proof.
  induction n as [n IH|n IH|]; intros m Hm; cbn [SpecFloat.iter_pos].
  - replace (m * 2 ^ Z.pos n~1) with (2 * (m * 2 ^ Z.pos n * 2 ^ Z.pos n)).
    2: { rewrite Pos2Z.inj_xI. replace (2 * Z.pos n + 1) with (1 + (Z.pos n + Z.pos n)) by lia.
         rewrite !Z.pow_add_r by lia. change (2 ^ 1) with 2. ring. }
    pose proof (pow2_pos (Z.pos n) ltac:(lia)). rewrite shr_1_double by nia. rewrite !IH by nia. done.
  - replace (m * 2 ^ Z.pos n~0) with (m * 2 ^ Z.pos n * 2 ^ Z.pos n).
    2: { replace (Z.pos n~0) with (Z.pos n + Z.pos n) by lia. rewrite Z.pow_add_r by lia. ring. }
    pose proof (pow2_pos (Z.pos n) ltac:(lia)). by rewrite !IH by nia.
  - change (2 ^ 1) with 2. rewrite Z.mul_comm. by apply shr_1_double.
Qed.
Lemma shr_exact m e n : 0 <= m -> 0 <= n -> shr (whole_record (m * 2 ^ n)) e n = (whole_record m, e + n).
Proof.
  intros Hm Hn. destruct n as [|n|n]; [|by cbn; rewrite iter_shr_exact|lia].
  cbn. by rewrite Z.mul_1_r, Z.add_0_r.
Qed.

(** A mantissa of 53 bits, shifted left: rounding shifts it back. *)
Lemma round_aux_exact s M n e :
  2 ^ 52 <= Z.pos M < 2 ^ 53 -> 0 <= n -> -1074 <= e + n <= 971 ->
  binary_round_aux prec emax s (Z.pos M * 2 ^ n) e loc_Exact = S754_finite s M (e + n).
Proof.
  intros HM Hn He. unfold binary_round_aux, shr_fexp.
  pose proof (pow2_pos n Hn).
  assert (Hd : Zdigits2 (Z.pos M * 2 ^ n) = 53 + n).
  { destruct (Z.pos M * 2 ^ n) as [|q|q] eqn:E; [nia| |nia]. cbn [Zdigits2]. apply digits2_pos_unique; [|lia].
    rewrite <- E. replace (53 + n - 1) with (52 + n) by lia. rewrite !Z.pow_add_r by lia. nia. }
  assert (Hf : fexp prec emax (Zdigits2 (Z.pos M * 2 ^ n) + e) - e = n)
    by (rewrite Hd; unfold fexp, SpecFloat.emin, prec, emax; lia).
  rewrite Hf. change (shr_record_of_loc (Z.pos M * 2 ^ n) loc_Exact) with (whole_record (Z.pos M * 2 ^ n)).
  rewrite shr_exact by lia. cbn [shr_m whole_record loc_of_shr_record shr_r shr_s round_nearest_even].
  assert (Hf2 : fexp prec emax (Zdigits2 (Z.pos M) + (e + n)) - (e + n) = 0).
  { cbn [Zdigits2]. rewrite (digits2_pos_unique M 53) by lia. unfold fexp, SpecFloat.emin, prec, emax. lia. }
  rewrite Hf2. cbn [shr shr_m shr_record_of_loc fst snd].
  rewrite (proj2 (Z.leb_le _ _)) by (unfold emax, prec; lia). done.
Qed.

(** ** The float of an integer *)

Definition exact (k : Z) : Prop := - 2 ^ 53 < k < 2 ^ 53.

Lemma of_int_zero : of_int 0 = S754_zero false.
Proof. reflexivity. Qed.

(** The 53-bit mantissa and the exponent of [p]. *)
Lemma binary_round_exact s p : Z.pos p < 2 ^ 53 ->
  exists M d, 1 <= d <= 53 /\ 2 ^ (d - 1) <= Z.pos p < 2 ^ d /\ Z.pos M = Z.pos p * 2 ^ (53 - d) /\
    2 ^ 52 <= Z.pos M < 2 ^ 53 /\ binary_round prec emax s p 0 = S754_finite s M (d - 53).
Proof.
  intros Hp. pose proof (digits2_pos_bound p) as Hb.
  pose proof (Zdigits2_bound (Z.pos p) 53 ltac:(lia) ltac:(lia)) as Hd. cbn [Zdigits2] in Hd.
  set (d := Z.pos (digits2_pos p)) in *. assert (Hd1 : 1 <= d) by (unfold d; lia).
  assert (HM : 2 ^ 52 <= Z.pos p * 2 ^ (53 - d) < 2 ^ 53).
  { pose proof (pow2_pos (53 - d) ltac:(lia)).
    replace (2 ^ 52) with (2 ^ (d - 1) * 2 ^ (53 - d)) by (rewrite <- Z.pow_add_r by lia; f_equal; lia).
    replace (2 ^ 53) with (2 ^ d * 2 ^ (53 - d)) by (rewrite <- Z.pow_add_r by lia; f_equal; lia). nia. }
  destruct (Z.pos p * 2 ^ (53 - d)) as [|M|M] eqn:EM; [lia| |lia].
  exists M, d. do 4 (split; [done || lia|]).
  assert (Hf : fexp prec emax (Z.pos (digits2_pos p) + 0) = d - 53)
    by (unfold fexp, SpecFloat.emin, prec, emax; fold d; lia).
  unfold binary_round, shl_align. rewrite Hf, Z.sub_0_r.
  assert (Hr : binary_round_aux prec emax s (Z.pos M) (d - 53) loc_Exact = S754_finite s M (d - 53)).
  { pose proof (round_aux_exact s M 0 (d - 53) HM ltac:(lia) ltac:(lia)) as Hr.
    by rewrite Z.add_0_r, Z.mul_1_r in Hr. }
  destruct (d - 53) as [|q|q] eqn:E; [|lia|].
  - assert (d = 53) as Hd53 by lia. rewrite Hd53 in EM. change (2 ^ (53 - 53)) with 1 in EM.
    rewrite Z.mul_1_r in EM. by injection EM as ->.
  - rewrite iter_xO. replace (Z.pos q) with (53 - d) by lia. by rewrite EM.
Qed.

Lemma of_int_exact k : exact k -> k <> 0 ->
  exists M d, 1 <= d <= 53 /\ 2 ^ (d - 1) <= Z.abs k < 2 ^ d /\ Z.pos M = Z.abs k * 2 ^ (53 - d) /\
    2 ^ 52 <= Z.pos M < 2 ^ 53 /\ of_int k = S754_finite (k <? 0) M (d - 53).
Proof.
  unfold exact, of_int, binary_normalize. intros Hk Hne. destruct k as [|p|p]; [done| |].
  - destruct (binary_round_exact false p) as (M & d & H); [lia|]. by exists M, d.
  - destruct (binary_round_exact true p) as (M & d & H); [lia|]. by exists M, d.
Qed.

Lemma to_int_of_int k : exact k -> to_int (of_int k) = k.
Proof.
  intros Hk. destruct (Z.eq_dec k 0) as [->|Hne]; [done|].
  destruct (of_int_exact k Hk Hne) as (M & d & Hd & Hb & HM & _ & ->). cbn [to_int].
  pose proof (pow2_pos (53 - d) ltac:(lia)).
  assert ((if 0 <=? d - 53 then Z.pos M * 2 ^ (d - 53) else Z.pos M / 2 ^ (- (d - 53))) = Z.abs k) as ->.
  { destruct (0 <=? d - 53) eqn:E; bsplit.
    - assert (d = 53) as -> by lia. rewrite HM. change (2 ^ (53 - 53)) with 1. lia.
    - replace (- (d - 53)) with (53 - d) by lia. rewrite HM. by apply Z.div_mul; lia. }
  destruct (k <? 0) eqn:E; bsplit; lia.
Qed.

Lemma fmul_exact a b : exact a -> exact b -> exact (a * b) -> a <> 0 -> 0 < b -> fmul (of_int a) (of_int b) = of_int (a * b).
Proof.
  intros Ha Hb Hab Hne Hpos.
  destruct (of_int_exact a Ha Hne) as (M1 & d1 & Hd1 & Hb1 & HM1 & R1 & ->).
  destruct (of_int_exact b Hb ltac:(lia)) as (M2 & d2 & Hd2 & Hb2 & HM2 & R2 & ->).
  destruct (of_int_exact (a * b) Hab ltac:(nia)) as (M & d & Hd & Hbd & HM & R & ->).
  unfold fmul, SFmul. rewrite (proj2 (Z.ltb_ge b 0)) by lia. rewrite xorb_false_r.
  assert (Hs : (a <? 0) = (a * b <? 0)) by (destruct (a <? 0) eqn:E1, (a * b <? 0) eqn:E2; bsplit; nia).
  rewrite Hs. rewrite Z.abs_mul in *. set (n := d + 53 - d1 - d2).
  assert (Hn : 0 <= n).
  { assert (Hlow : 2 ^ (d1 - 1) * 2 ^ (d2 - 1) <= Z.abs a * Z.abs b).
    { apply Z.mul_le_mono_nonneg; try lia; apply Z.lt_le_incl, pow2_pos; lia. }
    rewrite <- Z.pow_add_r in Hlow by lia.
    destruct (Z.le_gt_cases d (d1 - 1 + (d2 - 1))) as [Hle|?]; [|unfold n; lia].
    assert (2 ^ d <= 2 ^ (d1 - 1 + (d2 - 1))) by (apply Z.pow_le_mono_r; lia). lia. }
  assert (Hprod : Z.pos (M1 * M2) = Z.pos M * 2 ^ n).
  { rewrite Pos2Z.inj_mul, HM1, HM2, HM. unfold n.
    replace (Z.abs a * 2 ^ (53 - d1) * (Z.abs b * 2 ^ (53 - d2)))
      with (Z.abs a * Z.abs b * (2 ^ (53 - d1) * 2 ^ (53 - d2))) by ring.
    replace (Z.abs a * Z.abs b * 2 ^ (53 - d) * 2 ^ (d + 53 - d1 - d2))
      with (Z.abs a * Z.abs b * (2 ^ (53 - d) * 2 ^ (d + 53 - d1 - d2))) by ring.
    rewrite <- !Z.pow_add_r by (unfold n in Hn; lia). do 2 f_equal. lia. }
  rewrite Hprod. rewrite round_aux_exact; [|done|done|unfold n; lia]. f_equal. unfold n. lia.
Qed.

(** Comparisons against a power of two no exact integer reaches. *)
Lemma of_int_in_range k : exact k ->
  fgeb (of_int k) (fneg (of_int two63)) = true /\ fltb (of_int k) (of_int two63) = true.
Proof.
  intros Hk. destruct (Z.eq_dec k 0) as [->|Hne]; [vm_compute; by split|].
  destruct (of_int_exact k Hk Hne) as (M & d & Hd & Hb & HM & R & ->).
  assert (E : of_int two63 = S754_finite false 4503599627370496 11) by (vm_compute; reflexivity).
  rewrite E. unfold fgeb. split.
  - apply fleb_rank. split; [done|]. split; [done|]. cbn [frank fneg SFopp]. destruct (k <? 0); cbn; lia.
  - apply fltb_rank. split; [done|]. split; [done|]. cbn [frank]. destruct (k <? 0); cbn; lia.
Qed.
