(* ===== verification/GoStd.v ===== *)
(** * GoStd: what the source uses of the Go standard library

    [strconv]'s integer text, [unicode/utf8], [sort.Strings] and the ASCII
    helpers, as executable definitions; the Unicode tables and the float
    text of [strconv] are classes whose operations the components take as
    arguments. *)

From Stdlib Require Import ZArith Lia Bool.
From Stdlib Require Import Strings.Byte Strings.String.
From stdpp Require Import sorting.
From S2P Require Import Prelude Bytes Float64.

(** ** ASCII classes, on a rune or a byte read as an integer *)

Definition between (lo c hi : Z) : bool := (lo <=? c) && (c <=? hi).
Definition ascii_lower (c : Z) : bool := between 97 c 122.
Definition ascii_upper (c : Z) : bool := between 65 c 90.
Definition ascii_digit (c : Z) : bool := between 48 c 57.
Definition ascii_letter (c : Z) : bool := ascii_lower c || ascii_upper c.

(** ** strconv: integers in base ten *)

Definition digit (d : Z) : byte := z2b (48 + d).

Fixpoint digits_loop (fuel : nat) (n : Z) (acc : gostr) : gostr :=
  match fuel with
  | O => acc
  | S f =>
      let acc' := digit (n mod 10) :: acc in
      if n / 10 =? 0 then acc' else digits_loop f (n / 10) acc'
  end.

(** Twenty digits hold every 64-bit magnitude. *)
Definition FormatUint (n : Z) : gostr := digits_loop 20 n [].
Definition FormatInt (n : Z) : gostr :=
  if n <? 0 then x2d :: FormatUint (- n) else FormatUint n.

Fixpoint parse_digits (acc : Z) (s : gostr) : option Z :=
  match s with
  | [] => Some acc
  | c :: s' =>
      if ascii_digit (b2z c) then parse_digits (acc * 10 + (b2z c - 48)) s' else None
  end.

Definition ParseUint_digits (s : gostr) : option Z :=
  match s with [] => None | _ => parse_digits 0 s end.

(** [strconv.ParseInt(s, 10, 64)], [None] for its error. *)
Definition ParseInt (s : gostr) : option Z :=
  let '(neg, body) :=
    match s with
    | x2b :: s' => (false, s')
    | x2d :: s' => (true, s')
    | _ => (false, s)
    end in
  match ParseUint_digits body with
  | None => None
  | Some un =>
      if negb neg && (two63 <=? un) then None
      else if neg && (two63 <? un) then None
      else Some (if neg then - un else un)
  end.

Lemma b2z_digit d : 0 <= d < 10 -> b2z (digit d) = 48 + d.
Proof. intros. unfold digit. rewrite b2z_z2b, Z.mod_small; lia. Qed.

Lemma parse_digits_app acc s t :
  parse_digits acc (s ++ t)
  = match parse_digits acc s with Some a => parse_digits a t | None => None end.
Proof.
  revert acc. induction s as [|c s IH]; intros acc; [done|].
  simpl. destruct (ascii_digit (b2z c)); [apply IH | done].
Qed.

Lemma parse_digits_loop fuel : forall n acc,
  0 <= n < 10 ^ Z.of_nat fuel -> (1 <= fuel)%nat ->
  parse_digits 0 (digits_loop fuel n acc) = parse_digits n acc.
Proof.
  induction fuel as [|f IH]; intros n acc Hn Hf; [lia|].
  cbn [digits_loop].
  assert (Hd : forall k, parse_digits k (digit (n mod 10) :: acc)
                    = parse_digits (k * 10 + n mod 10) acc).
  { intros k. pose proof (Z.mod_pos_bound n 10 ltac:(lia)). cbn [parse_digits].
    rewrite b2z_digit by lia. unfold ascii_digit, between.
    rewrite (proj2 (Z.leb_le _ _)), (proj2 (Z.leb_le _ _)) by lia.
    simpl. f_equal. lia. }
  pose proof (Z.div_mod n 10 ltac:(lia)). pose proof (Z.mod_pos_bound n 10 ltac:(lia)).
  rewrite Nat2Z.inj_succ, Z.pow_succ_r in Hn by lia.
  destruct (n / 10 =? 0) eqn:E; bsplit.
  - rewrite Hd. f_equal. lia.
  - pose proof (Z.div_pos n 10 ltac:(lia) ltac:(lia)).
    destruct f as [|f]; [change (10 * 10 ^ Z.of_nat 0) with 10 in Hn; lia|].
    rewrite IH; [rewrite Hd; f_equal; lia | | lia].
    split; [lia | apply Z.div_lt_upper_bound; lia].
Qed.

Lemma digits_loop_cons fuel n acc :
  (1 <= fuel)%nat -> 0 <= n ->
  exists d l, 0 <= d < 10 /\ digits_loop fuel n acc = digit d :: l.
Proof.
  revert n acc. induction fuel as [|f IH]; intros n acc Hf Hn; [lia|].
  cbn [digits_loop]. pose proof (Z.mod_pos_bound n 10 ltac:(lia)).
  destruct (n / 10 =? 0) eqn:E; [eauto|].
  destruct f as [|f]; [simpl; eauto|].
  apply IH; [lia|]. apply Z.div_pos; lia.
Qed.

Lemma FormatUint_cons n :
  0 <= n -> exists d l, 0 <= d < 10 /\ FormatUint n = digit d :: l.
Proof. apply digits_loop_cons. lia. Qed.

Lemma ParseUint_FormatUint n :
  0 <= n < 10 ^ 20 -> ParseUint_digits (FormatUint n) = Some n.
Proof.
  intros Hn. destruct (FormatUint_cons n) as (d & l & Hd & E); [lia|].
  unfold ParseUint_digits. rewrite E, <- E. unfold FormatUint.
  rewrite parse_digits_loop by (simpl Z.of_nat; lia). done.
Qed.

Lemma digit_not_sign d : 0 <= d < 10 -> digit d <> x2b /\ digit d <> x2d.
Proof.
  intros Hd. split; intros E; apply (f_equal b2z) in E;
    rewrite b2z_digit in E by done; change (b2z x2b) with 43 in E || change (b2z x2d) with 45 in E; lia.
Qed.

Lemma parse_digits_nonneg s : forall acc u,
  0 <= acc -> parse_digits acc s = Some u -> 0 <= u.
Proof.
  induction s as [|c s IH]; intros acc u Ha; simpl; [by intros [= <-]|].
  destruct (ascii_digit (b2z c)) eqn:E; [|done].
  unfold ascii_digit, between in E. bsplit. apply IH. lia.
Qed.

Lemma ParseInt_range s n : ParseInt s = Some n -> in_i64 n.
Proof.
  unfold ParseInt.
  destruct (match s with x2b :: s' => _ | x2d :: s' => _ | _ => _ end) as [neg body].
  destruct (ParseUint_digits body) as [u|] eqn:Eu; [|done].
  assert (0 <= u).
  { unfold ParseUint_digits in Eu. destruct body; [done|].
    eapply parse_digits_nonneg; [|exact Eu]. lia. }
  destruct neg; simpl; break_if; intros [= <-]; bsplit; mlia.
Qed.

(** [ParseInt] reads back every int64 [FormatInt] prints. *)
Lemma ParseInt_FormatInt n : in_i64 n -> ParseInt (FormatInt n) = Some n.
Proof.
  intros Hn. unfold FormatInt. destruct (n <? 0) eqn:E; bsplit.
  - unfold ParseInt. rewrite ParseUint_FormatUint by mlia. simpl.
    rewrite (proj2 (Z.ltb_ge _ _)) by mlia. f_equal. lia.
  - destruct (FormatUint_cons n) as (d & l & Hd & El); [lia|].
    destruct (digit_not_sign d Hd) as [H1 H2].
    assert (ParseInt (FormatUint n) =
            match ParseUint_digits (FormatUint n) with
            | None => None
            | Some un => if two63 <=? un then None else Some un end) as ->.
    { unfold ParseInt. rewrite El. destruct (digit d); try done. }
    rewrite ParseUint_FormatUint by mlia.
    rewrite (proj2 (Z.leb_gt _ _)) by mlia. done.
Qed.

Lemma FormatInt_inj m n : in_i64 m -> in_i64 n -> FormatInt m = FormatInt n -> m = n.
Proof.
  intros Hm Hn H. apply (f_equal ParseInt) in H.
  rewrite !ParseInt_FormatInt in H by done. congruence.
Qed.

(** ** unicode/utf8 *)

Definition RuneError : Z := 65533.

Definition cont (b : byte) : bool := between 128 (b2z b) 191.
Definition low6 (b : byte) : Z := b2z b - 128.

(** [utf8.DecodeRuneInString]: the rune and its width; an invalid sequence
    is [RuneError] of width one, the empty string of width zero. *)
Definition DecodeRune (s : gostr) : Z * Z :=
  match s with
  | [] => (RuneError, 0)
  | b0 :: t =>
      let c := b2z b0 in
      if c <? 128 then (c, 1)
      else if between 194 c 223 then
        match t with
        | b1 :: _ => if cont b1 then ((c - 192) * 64 + low6 b1, 2) else (RuneError, 1)
        | _ => (RuneError, 1)
        end
      else if between 224 c 239 then
        let lo := if c =? 224 then 160 else 128 in
        let hi := if c =? 237 then 159 else 191 in
        match t with
        | b1 :: b2 :: _ =>
            if between lo (b2z b1) hi && cont b2
            then ((c - 224) * 4096 + low6 b1 * 64 + low6 b2, 3) else (RuneError, 1)
        | _ => (RuneError, 1)
        end
      else if between 240 c 244 then
        let lo := if c =? 240 then 144 else 128 in
        let hi := if c =? 244 then 143 else 191 in
        match t with
        | b1 :: b2 :: b3 :: _ =>
            if between lo (b2z b1) hi && cont b2 && cont b3
            then ((c - 240) * 262144 + low6 b1 * 4096 + low6 b2 * 64 + low6 b3, 4)
            else (RuneError, 1)
        | _ => (RuneError, 1)
        end
      else (RuneError, 1)
  end.

Lemma DecodeRune_size b s :
  1 <= snd (DecodeRune (b :: s)) <= zlen (b :: s).
Proof.
  unfold DecodeRune, zlen. simpl length.
  repeat (break_if || break_match); subst; simpl; lia.
Qed.

Lemma DecodeRune_ascii b s : b2z b < 128 -> DecodeRune (b :: s) = (b2z b, 1).
Proof. intros H. simpl. by rewrite (proj2 (Z.ltb_lt _ _)). Qed.

Lemma DecodeRune_high b s : 128 <= b2z b -> 128 <= fst (DecodeRune (b :: s)).
Proof.
  intros H. unfold DecodeRune, RuneError. rewrite (proj2 (Z.ltb_ge _ _)) by done.
  repeat (break_if || break_match); unfold between, cont, low6, between in *;
    bsplit; simpl; try lia.
  all: pose proof (b2z_range b).
  all: repeat match goal with H : b2z _ = _ |- _ => rewrite H in * end; lia.
Qed.

(** [for i, r := range s]: the byte index and the rune of each step. *)
Fixpoint range_runes (fuel : nat) (i : Z) (s : gostr) : list (Z * Z) :=
  match fuel, s with
  | O, _ | _, [] => []
  | S f, _ =>
      let '(r, w) := DecodeRune s in
      (i, r) :: range_runes f (i + w) (drop (Z.to_nat w) s)
  end.
Definition runes (s : gostr) : list (Z * Z) := range_runes (length s) 0 s.

(** [utf8.ValidString]. *)
Fixpoint valid_utf8 (fuel : nat) (s : gostr) : bool :=
  match fuel, s with
  | O, _ => true
  | _, [] => true
  | S f, b :: _ =>
      let '(r, w) := DecodeRune s in
      if (128 <=? b2z b) && (w =? 1) then false
      else valid_utf8 f (drop (Z.to_nat w) s)
  end.
Definition ValidString (s : gostr) : bool := valid_utf8 (length s) s.

(** ** The Unicode tables: letters, digits and upper case above ASCII *)

Class Unicode := {
  letter_above : Z -> bool;
  digit_above : Z -> bool;
  upper_above : gostr -> gostr;
  lower_above : gostr -> gostr;
}.

(** U+FFFD, which stands for an undecodable byte, is a symbol. *)
Class UnicodeLaws (U : Unicode) : Prop := {
  letter_replacement : letter_above RuneError = false;
  digit_replacement : digit_above RuneError = false;
}.

Definition IsLetter `{Unicode} (r : Z) : bool :=
  if r <? 128 then ascii_letter r else letter_above r.
Definition IsDigit `{Unicode} (r : Z) : bool :=
  if r <? 128 then ascii_digit r else digit_above r.

Definition upper_byte (b : byte) : byte :=
  if ascii_lower (b2z b) then z2b (b2z b - 32) else b.
Definition is_ascii (s : gostr) : bool := forallb (fun b => b2z b <? 128) s.

(** [strings.ToUpper] and [strings.ToLower] on ASCII text; the rest goes
    through the tables. *)
Definition ToUpper `{Unicode} (s : gostr) : gostr :=
  if is_ascii s then map upper_byte s else upper_above s.

Definition lower_byte (b : byte) : byte :=
  if ascii_upper (b2z b) then z2b (b2z b + 32) else b.
Definition ToLower `{Unicode} (s : gostr) : gostr :=
  if is_ascii s then map lower_byte s else lower_above s.

(** ** The float text of strconv *)

Class FloatText := {
  ParseFloat : gostr -> option f64;          (* strconv.ParseFloat(s, 64) *)
  FormatFloat_f : f64 -> gostr;              (* strconv.FormatFloat(f, 'f', -1, 64) *)
  FormatFloat_g : f64 -> gostr;              (* strconv.FormatFloat(f, 'g', -1, 64) *)
}.

Definition all_digits (s : gostr) : bool := forallb (fun b => ascii_digit (b2z b)) s.

(** The decimal forms [strconv] writes: an optional minus, digits, an
    optional fraction, an optional signed exponent. *)
Inductive number_text : gostr -> Prop :=
| number_text_intro sg ip fp ex :
    sg = [] \/ sg = [x2d] ->
    ip <> [] -> all_digits ip = true ->
    fp = [] \/ (exists ds, fp = x2e :: ds /\ ds <> [] /\ all_digits ds = true) ->
    ex = [] \/ (exists c ds, ex = x65 :: c :: ds /\ (c = x2b \/ c = x2d) /\ ds <> [] /\ all_digits ds = true) ->
    number_text (sg ++ ip ++ fp ++ ex).

(** What [strconv] documents: the shortest text reads back to the same
    float, and the text of an integer reads as that integer. *)
Class FloatTextLaws (F : FloatText) : Prop := {
  FormatFloat_f_text f : fvalid f = true -> IsNaN f = false -> IsInf f = false ->
    number_text (FormatFloat_f f) /\ ParseFloat (FormatFloat_f f) = Some f;
  FormatFloat_g_text f : fvalid f = true -> IsNaN f = false -> IsInf f = false ->
    number_text (FormatFloat_g f) /\ ParseFloat (FormatFloat_g f) = Some f;
  ParseFloat_whole n : - 2 ^ 53 < n < 2 ^ 53 -> ParseFloat (FormatInt n) = Some (of_int n);
}.

(** The digits of an integer. *)
Lemma digits_loop_digits fuel : forall n acc, 0 <= n -> all_digits acc = true -> all_digits (digits_loop fuel n acc) = true.
Proof.
  induction fuel as [|f IH]; intros n acc Hn Ha; [done|]. cbn [digits_loop].
  pose proof (Z.mod_pos_bound n 10 ltac:(lia)).
  assert (Hd : all_digits (digit (n mod 10) :: acc) = true).
  { unfold all_digits in *. cbn [forallb]. rewrite b2z_digit, Ha by lia. unfold ascii_digit, between.
    rewrite !(proj2 (Z.leb_le _ _)) by lia. done. }
  destruct (_ =? 0); [done|]. apply IH; [|done]. apply Z.div_pos; lia.
Qed.
Lemma FormatUint_digits n : 0 <= n -> all_digits (FormatUint n) = true.
Proof. intros Hn. by apply digits_loop_digits. Qed.
Lemma FormatUint_not_nil n : 0 <= n -> FormatUint n <> [].
Proof. intros Hn. destruct (FormatUint_cons n Hn) as (d & l & _ & ->). done. Qed.

(** The sign and the digits of an integer's text. *)
Lemma FormatInt_split n : exists sg ds, FormatInt n = sg ++ ds /\ (sg = [] \/ sg = [x2d]) /\ ds <> [] /\ all_digits ds = true.
Proof.
  unfold FormatInt. destruct (n <? 0) eqn:En; bsplit.
  - exists [x2d], (FormatUint (- n)). split; [done|]. split; [by right|].
    split; [apply FormatUint_not_nil; lia|apply FormatUint_digits; lia].
  - exists [], (FormatUint n). split; [done|]. split; [by left|]. split; [by apply FormatUint_not_nil|by apply FormatUint_digits].
Qed.
Lemma number_text_int n : number_text (FormatInt n).
Proof.
  destruct (FormatInt_split n) as (sg & ds & -> & Hsg & Hne & Hd). rewrite <- (app_nil_r ds).
  apply (number_text_intro sg ds [] []); auto.
Qed.

(** ** sort.Strings *)

Definition str_le (a b : gostr) : Prop := ble a b = true.
#[export] Instance str_le_dec a b : Decision (str_le a b).
Proof. unfold str_le. apply _. Defined.

#[export] Instance str_le_total : Total str_le.
Proof.
  intros a b. unfold str_le. rewrite !ble_lt_eq.
  destruct (blt_total a b) as [?|[?|?]]; auto.
Qed.
#[export] Instance str_le_trans : Transitive str_le.
Proof. intros a b c. apply ble_trans. Qed.
#[export] Instance str_le_antisym : AntiSymm (=) str_le.
Proof.
  intros a b Ha Hb. unfold str_le in *. apply ble_lt_eq in Ha as [Ha|?]; [|done].
  apply ble_lt_eq in Hb as [Hb|?]; [|done]. by rewrite (blt_asym _ _ Ha) in Hb.
Qed.

Definition sort_strings (l : list gostr) : list gostr := merge_sort str_le l.

Lemma sort_strings_perm l : sort_strings l ≡ₚ l.
Proof. apply merge_sort_Permutation. Qed.

Lemma sort_strings_sorted l : Sorted str_le (sort_strings l).
Proof. apply Sorted_merge_sort. apply _. Qed.

(** The sorted order depends only on the elements, which is what makes a
    canonical encoding of a Go map possible. *)
Lemma sort_strings_canonical l k : l ≡ₚ k -> sort_strings l = sort_strings k.
Proof.
  intros H. eapply (Sorted_unique str_le).
  - apply sort_strings_sorted.
  - apply sort_strings_sorted.
  - by rewrite !sort_strings_perm.
Qed.
