(* ===== verification/GoText.v ===== *)
(** * What the source uses of package strings, and of slices by index

    [HasPrefix], [Contains], [Index], [IndexByte], [Cut], [Split], [Fields],
    [TrimSpace] and [TrimSuffix] on Go strings; slice reads and writes with
    the panic of an index out of range as [None]; [int32]. *)

From Stdlib Require Import Strings.Byte.
From stdpp Require Import gmap.
From S2P Require Import Prelude Bytes GoStd.

(** ** int32 *)

Definition i32 (z : Z) : Z := (z + 2147483648) mod 4294967296 - 2147483648.

Lemma i32_id z : -2147483648 <= z < 2147483648 -> i32 z = z.
Proof. intros H. unfold i32. rewrite Z.mod_small by lia. lia. Qed.

(** ** Slices *)

Definition idx {A} (l : list A) (i : Z) : option A :=
  if i <? 0 then None else l !! Z.to_nat i.

Definition upd {A} (l : list A) (i : Z) (x : A) : option (list A) :=
  if (i <? 0) || (zlen l <=? i) then None else Some (<[Z.to_nat i := x]> l).

Section Slices.
Context {A : Type}.
Implicit Types (l : list A) (i j : Z) (x y : A).

Lemma idx_Some l i x : idx l i = Some x <-> 0 <= i /\ l !! Z.to_nat i = Some x.
Proof. unfold idx. break_if; bsplit; naive_solver lia. Qed.

Lemma idx_range l i x : idx l i = Some x -> 0 <= i < zlen l.
Proof.
  intros [? H]%idx_Some. split; [done|].
  apply lookup_lt_Some in H. unfold zlen. lia.
Qed.

Lemma idx_is_Some l i : 0 <= i < zlen l -> exists x, idx l i = Some x.
Proof.
  intros H. unfold zlen in H. unfold idx.
  rewrite (proj2 (Z.ltb_ge _ _)) by lia.
  destruct (lookup_lt_is_Some_2 l (Z.to_nat i)) as [x ->]; [lia | eauto].
Qed.

Lemma idx_app_l l k i x : idx l i = Some x -> idx (l ++ k) i = Some x.
Proof. rewrite !idx_Some. intros [? ?]. split; [done|]. by apply lookup_app_l_Some. Qed.

Lemma idx_snoc l x : idx (l ++ [x]) (zlen l) = Some x.
Proof.
  apply idx_Some. split; [apply zlen_nonneg|].
  unfold zlen. rewrite Nat2Z.id. by apply list_lookup_middle.
Qed.

Lemma idx_snoc_inv l i x y :
  idx (l ++ [y]) i = Some x -> idx l i = Some x \/ (i = zlen l /\ x = y).
Proof.
  rewrite !idx_Some. intros [? [[_ H] | [Hi ->]]%lookup_snoc_Some]; [tauto|].
  right. unfold zlen. split; [lia | done].
Qed.

Lemma idx_singleton i x y : idx [y] i = Some x -> i = 0 /\ x = y.
Proof.
  intros H. pose proof (idx_range _ _ _ H) as Hr. unfold zlen in Hr. simpl in Hr.
  assert (i = 0) as -> by lia. unfold idx in H. simpl in H. naive_solver.
Qed.

Lemma upd_Some l i x : 0 <= i < zlen l -> upd l i x = Some (<[Z.to_nat i := x]> l).
Proof.
  intros H. unfold upd.
  by rewrite (proj2 (Z.ltb_ge _ _)), (proj2 (Z.leb_gt _ _)) by lia.
Qed.

Lemma idx_insert l i j x :
  0 <= i < zlen l ->
  idx (<[Z.to_nat i := x]> l) j = if i =? j then Some x else idx l j.
Proof.
  intros Hi. unfold idx, zlen in *. destruct (Z.ltb_spec j 0).
  { by rewrite (proj2 (Z.eqb_neq i j)) by lia. }
  destruct (Z.eqb_spec i j) as [-> | Hne].
  - apply list_lookup_insert_eq. lia.
  - apply list_lookup_insert_ne. lia.
Qed.

Lemma zlen_insert l (n : nat) x : zlen (<[n := x]> l) = zlen l.
Proof. unfold zlen. by rewrite length_insert. Qed.
End Slices.

(** ** Search *)

(** [strings.HasPrefix]. *)
Definition HasPrefix (s p : gostr) : bool := bytes_eqb (take (length p) s) p.

Lemma HasPrefix_spec s p : HasPrefix s p = true <-> exists k, s = p ++ k.
Proof.
  unfold HasPrefix. rewrite bytes_eqb_spec. split.
  - intros H. exists (drop (length p) s). by rewrite <- H at 1; rewrite take_drop.
  - intros [k ->]. apply take_app_length.
Qed.

(** [strings.HasSuffix]. *)
Definition HasSuffix (s p : gostr) : bool :=
  bytes_eqb (drop (length s - length p) s) p.

(** [strings.TrimSuffix]. *)
Definition TrimSuffix (s p : gostr) : gostr :=
  if HasSuffix s p then take (length s - length p) s else s.

(** [strings.Contains]. *)
Fixpoint Contains (s p : gostr) : bool :=
  HasPrefix s p || match s with [] => false | _ :: s' => Contains s' p end.

Lemma Contains_spec s p : Contains s p = true <-> exists a b, s = a ++ p ++ b.
Proof.
  induction s as [|c s IH]; cbn [Contains]; rewrite orb_true_iff, HasPrefix_spec.
  - split.
    + intros [[k Hk] | [=]]. exists [], k. done.
    + intros (a & b & H). left. exists b. by destruct a.
  - rewrite IH. split.
    + intros [[k ->] | (a & b & ->)]; [by exists [], k | by exists (c :: a), b].
    + intros ([|x a] & b & H); [left; by exists b | right].
      injection H as _ ->. by exists a, b.
Qed.

(** [strings.IndexByte] and [strings.IndexAny] with ASCII bytes: the first
    position whose byte passes, or -1. *)
Fixpoint index_from (i : Z) (f : byte -> bool) (s : gostr) : Z :=
  match s with
  | [] => -1
  | b :: s' => if f b then i else index_from (i + 1) f s'
  end.
Definition IndexByte (s : gostr) (c : byte) : Z := index_from 0 (byte_eqb c) s.
Definition IndexAny (s chars : gostr) : Z :=
  index_from 0 (fun b => existsb (byte_eqb b) chars) s.

Lemma index_from_spec f s : forall i,
  (index_from i f s = -1 /\ forallb (fun b => negb (f b)) s = true) \/
  exists a b t, s = a ++ b :: t /\ f b = true /\
    forallb (fun b => negb (f b)) a = true /\ index_from i f s = i + zlen a.
Proof.
  induction s as [|c s IH]; intros i; cbn [index_from forallb]; [by left|].
  destruct (f c) eqn:Hc.
  - right. exists [], c, s. rewrite Z.add_0_r. done.
  - destruct (IH (i + 1)) as [[-> ->] | (a & b & t & -> & Hb & Ha & ->)]; [by left|].
    right. exists (c :: a), b, t. rewrite zlen_cons. cbn [forallb]. rewrite Hc, Ha.
    repeat split; [done | lia].
Qed.

(** [strings.Split] on a one-byte separator. *)
Fixpoint split_byte (c : byte) (acc : gostr) (s : gostr) : list gostr :=
  match s with
  | [] => [rev acc]
  | b :: s' => if byte_eqb b c then rev acc :: split_byte c [] s' else split_byte c (b :: acc) s'
  end.
Definition Split (s : gostr) (c : byte) : list gostr := split_byte c [] s.

(** ** White space *)

(** [unicode.IsSpace]: the White_Space property. *)
Definition IsSpace (r : Z) : bool :=
  between 9 r 13 || (r =? 32) || (r =? 133) || (r =? 160) || (r =? 5760) ||
  between 8192 r 8202 || (r =? 8232) || (r =? 8233) || (r =? 8239) ||
  (r =? 8287) || (r =? 12288).

(** The width of the white space a string starts with, 0 for none. *)
Definition lead_space (s : gostr) : nat :=
  let '(r, w) := DecodeRune s in
  if IsSpace r then Z.to_nat w else 0%nat.

(** The width of the white space a string ends with: a rune of [k] bytes is
    last exactly when the last [k] bytes decode to it. *)
Definition trail_space (s : gostr) : nat :=
  let try_width (k : nat) :=
    let t := drop (length s - k) s in
    Nat.eqb (length t) k && Nat.eqb (lead_space t) k in
  if try_width 1%nat then 1%nat
  else if try_width 2%nat then 2%nat
  else if try_width 3%nat then 3%nat else 0%nat.

Fixpoint trim_left (fuel : nat) (s : gostr) : gostr :=
  match fuel, lead_space s with
  | S fuel, S _ as w => trim_left fuel (drop (lead_space s) s)
  | _, _ => s
  end.

Fixpoint trim_right (fuel : nat) (s : gostr) : gostr :=
  match fuel, trail_space s with
  | S fuel, S _ => trim_right fuel (take (length s - trail_space s) s)
  | _, _ => s
  end.

(** [strings.TrimSpace]. *)
Definition TrimSpace (s : gostr) : gostr :=
  let t := trim_left (length s) s in trim_right (length t) t.

(** [strings.Fields]: the maximal runs of bytes that are not white space. *)
Fixpoint fields_loop (fuel : nat) (acc : gostr) (s : gostr) : list gostr :=
  let flush := if bytes_eqb acc [] then [] else [rev acc] in
  match fuel, s with
  | O, _ | _, [] => flush
  | S fuel, b :: s' =>
      match lead_space s with
      | O =>
          (* a whole rune at a time: its bytes are never white space *)
          let w := Z.to_nat (DecodeRune s).2 in
          fields_loop fuel (rev (take w s) ++ acc) (drop w s)
      | w => flush ++ fields_loop fuel [] (drop w s)
      end
  end.
Definition strings_Fields (s : gostr) : list gostr := fields_loop (length s) [] s.

(** [utf8.DecodeLastRuneInString]: the width is the one at which the last
    bytes decode to one rune. *)
Definition DecodeLastRune (s : gostr) : Z * Z :=
  let try_width (k : nat) :=
    let t := drop (length s - k) s in
    let '(r, w) := DecodeRune t in
    if Nat.eqb (length t) k && (w =? Z.of_nat k) && negb ((r =? RuneError) && (w =? 1))
    then Some (r, w) else None in
  match s with
  | [] => (RuneError, 0)
  | _ => default (RuneError, 1)
           (match try_width 1%nat with Some x => Some x | None =>
            match try_width 2%nat with Some x => Some x | None =>
            match try_width 3%nat with Some x => Some x | None => try_width 4%nat end end end)
  end.

(** ** Length-prefixed parts

    What the keys of a group are built from: no part runs into the next,
    whatever bytes it holds. *)

Definition framed (s : gostr) : gostr := AppendUvarint (zlen s) ++ s.

Lemma framed_inj s t r r' : zlen s < two63 -> zlen t < two63 -> framed s ++ r = framed t ++ r' -> s = t /\ r = r'.
Proof.
  intros Hs Ht. unfold framed. rewrite <- !app_assoc. intros Heq.
  apply AppendUvarint_app_inj in Heq as [Hl Heq]; [|unfold zlen in *; mlia..].
  apply app_inj_1 in Heq; [done|]. unfold zlen in Hl. lia.
Qed.

Lemma framed_cons s r : framed s ++ r <> [].
Proof. unfold framed. pose proof (AppendUvarint_pos (zlen s)). by destruct (AppendUvarint (zlen s)). Qed.
