(* ===== verification/GoTime.v ===== *)
(** * Civil dates in UTC (package time)

    Instants in seconds since 1970; the calendar of package time, which is
    the proleptic Gregorian one.  A date is found by whole cycles of 400,
    100, 4 and 1 years, then by the months of its year. *)

From Stdlib Require Import ZArith Lia Bool.
From Stdlib Require Import Strings.Byte Strings.String.
From S2P Require Import Prelude Bytes GoStd GoText.

(** ** Days *)

Definition is_leap (y : Z) : bool := (y mod 4 =? 0) && (negb (y mod 100 =? 0) || (y mod 400 =? 0)).

(** The day, from 1970, of the first of January. *)
Definition year_start (y : Z) : Z :=
  let p := y - 1 in 365 * p + p / 4 - p / 100 + p / 400 - 719162.

(** The year of a day and the day of that year. *)
Definition year_of_day (n : Z) : Z * Z :=
  let d := n + 719162 in
  let n400 := d / 146097 in
  let d := d - 146097 * n400 in
  let n100 := d / 36524 in
  let n100 := if n100 =? 4 then 3 else n100 in
  let d := d - 36524 * n100 in
  let n4 := d / 1461 in
  let d := d - 1461 * n4 in
  let n1 := d / 365 in
  let n1 := if n1 =? 4 then 3 else n1 in
  (400 * n400 + 100 * n100 + 4 * n4 + n1 + 1, d - 365 * n1).

Definition month_lengths (leap : bool) : list Z :=
  [31; if leap then 29 else 28; 31; 30; 31; 30; 31; 31; 30; 31; 30; 31].

Fixpoint month_walk (m d : Z) (lengths : list Z) : Z * Z :=
  match lengths with
  | len :: rest => if d <? len then (m, d + 1) else month_walk (m + 1) (d - len) rest
  | [] => (m, d + 1)
  end.

Record civil : Type := { cv_year : Z; cv_month : Z; cv_day : Z }.

Definition civil_of_day (n : Z) : civil :=
  let '(y, d) := year_of_day n in
  let '(m, d) := month_walk 1 d (month_lengths (is_leap y)) in
  {| cv_year := y; cv_month := m; cv_day := d |}.

Definition sum_first (k : nat) (l : list Z) : Z := foldr Z.add 0 (take k l).

Definition day_of_civil (c : civil) : Z :=
  year_start (cv_year c) + sum_first (Z.to_nat (cv_month c - 1)) (month_lengths (is_leap (cv_year c))) + cv_day c - 1.

Definition daysIn (y m : Z) : Z := nth (Z.to_nat (m - 1)) (month_lengths (is_leap y)) 0.

(** ** The layouts "20060102" and "2006010215" *)

Definition pad2 (n : Z) : gostr := [digit (n / 10); digit (n mod 10)].
Definition pad4 (n : Z) : gostr := pad2 (n / 100) ++ pad2 (n mod 100).

(** A year the layouts print with four digits. *)
Definition format_date (day : Z) : gostr :=
  let c := civil_of_day day in pad4 (cv_year c) ++ pad2 (cv_month c) ++ pad2 (cv_day c).

Definition format_hour (day hour : Z) : gostr := format_date day ++ pad2 hour.

Definition digits_value (s : gostr) : option Z :=
  if all_digits s then ParseUint_digits s else None.

(** [ParseInLocation] of eight bytes, in days. *)
Definition parse_date (s : gostr) : option Z :=
  match digits_value (take 4 s), digits_value (take 2 (drop 4 s)), digits_value (take 2 (drop 6 s)) with
  | Some y, Some m, Some d =>
      if between 1 m 12 && between 1 d (daysIn y m)
      then Some (day_of_civil {| cv_year := y; cv_month := m; cv_day := d |})
      else None
  | _, _, _ => None
  end.

(** Of ten bytes, in hours. *)
Definition parse_hour (s : gostr) : option Z :=
  match parse_date (take 8 s), digits_value (drop 8 s) with
  | Some day, Some h => if h <? 24 then Some (24 * day + h) else None
  | _, _ => None
  end.

(** ** The calendar *)

Ltac divmod n k := pose proof (Z.div_mod n k ltac:(lia)); pose proof (Z.mod_pos_bound n k ltac:(lia)).

Lemma year_of_day_spec n :
  let '(y, d) := year_of_day n in
  year_start y + d = n /\ 0 <= d < (if is_leap y then 366 else 365).
Proof.
  unfold year_of_day. set (d0 := n + 719162).
  pose proof (Z.div_mod d0 146097 ltac:(lia)) as H400. pose proof (Z.mod_pos_bound d0 146097 ltac:(lia)) as B400.
  set (a := d0 / 146097) in *. set (d1 := d0 mod 146097) in *. replace (d0 - 146097 * a) with d1 by lia.
  pose proof (Z.div_mod d1 36524 ltac:(lia)) as H100. pose proof (Z.mod_pos_bound d1 36524 ltac:(lia)) as B100.
  set (q100 := d1 / 36524) in *. assert (Hq : 0 <= q100 <= 4) by (unfold q100; split; [apply Z.div_pos; lia | lia]).
  set (b := if q100 =? 4 then 3 else q100). assert (Hb : 0 <= b <= 3 /\ 0 <= d1 - 36524 * b <= 36524 /\ (b < 3 -> d1 - 36524 * b < 36524)).
  { unfold b. destruct (Z.eqb_spec q100 4); lia. }
  set (d2 := d1 - 36524 * b) in *.
  pose proof (Z.div_mod d2 1461 ltac:(lia)) as H4. pose proof (Z.mod_pos_bound d2 1461 ltac:(lia)) as B4.
  set (c := d2 / 1461) in *. assert (Hc : 0 <= c <= 24) by (unfold c; split; [apply Z.div_pos; lia | lia]).
  set (d3 := d2 mod 1461) in *. replace (d2 - 1461 * c) with d3 by lia.
  pose proof (Z.div_mod d3 365 ltac:(lia)) as H1. pose proof (Z.mod_pos_bound d3 365 ltac:(lia)) as B1.
  set (q1 := d3 / 365) in *. assert (Hq1 : 0 <= q1 <= 4) by (unfold q1; split; [apply Z.div_pos; lia | lia]).
  set (e := if q1 =? 4 then 3 else q1). assert (He : 0 <= e <= 3 /\ 0 <= d3 - 365 * e <= 365 /\ (e < 3 -> d3 - 365 * e < 365)).
  { unfold e. destruct (Z.eqb_spec q1 4); lia. }
  set (d4 := d3 - 365 * e) in *.
  set (y := 400 * a + 100 * b + 4 * c + e + 1).
  assert (Hd4 : (y - 1) / 4 = 100 * a + 25 * b + c) by (symmetry; apply (Z.div_unique _ _ _ e); unfold y; lia).
  assert (Hd100 : (y - 1) / 100 = 4 * a + b) by (symmetry; apply (Z.div_unique _ _ _ (4 * c + e)); unfold y; lia).
  assert (Hd400 : (y - 1) / 400 = a) by (symmetry; apply (Z.div_unique _ _ _ (100 * b + 4 * c + e)); unfold y; lia).
  split; [unfold year_start; rewrite Hd4, Hd100, Hd400; unfold y; lia|].
  split; [lia|]. unfold is_leap.
  assert (Hm4 : y mod 4 = (e + 1) mod 4).
  { unfold y. replace (400 * a + 100 * b + 4 * c + e + 1) with (e + 1 + (100 * a + 25 * b + c) * 4) by lia. apply Z_mod_plus_full. }
  destruct (Z.eq_dec e 3) as [He3 | Hne]; [|repeat break_if; lia].
  rewrite Hm4, He3. change ((3 + 1) mod 4 =? 0) with true. cbn [andb].
  destruct (Z.eq_dec c 24) as [Hc24 | Hc24].
  - assert (Hm100 : y mod 100 = 0).
    { unfold y. replace (400 * a + 100 * b + 4 * c + e + 1) with ((4 * a + b + 1) * 100) by lia. apply Z_mod_mult. }
    rewrite Hm100. change (0 =? 0) with true. cbn [negb orb].
    destruct (Z.eq_dec b 3) as [Hb3 | Hb3].
    + assert (y mod 400 = 0) as ->.
      { unfold y. replace (400 * a + 100 * b + 4 * c + e + 1) with ((a + 1) * 400) by lia. apply Z_mod_mult. }
      change (0 =? 0) with true. cbn iota. lia.
    + break_if; lia.
  - assert (Hm100 : y mod 100 = 4 * c + e + 1).
    { symmetry. apply (Z.mod_unique _ _ (4 * a + b)); unfold y; lia. }
    rewrite Hm100. destruct (Z.eqb_spec (4 * c + e + 1) 0); [lia|]. cbn [negb orb]. lia.
Qed.

(** The month and day of each day of a year. *)
Definition month_day_ok (leap : bool) (d : Z) : bool :=
  let l := month_lengths leap in
  let '(m, k) := month_walk 1 d l in
  between 1 m 12 && between 1 k (nth (Z.to_nat (m - 1)) l 0) && (sum_first (Z.to_nat (m - 1)) l + k - 1 =? d).

Lemma forall_days (f : Z -> bool) (n : nat) :
  forallb f (map Z.of_nat (seq 0 n)) = true -> forall d, 0 <= d < Z.of_nat n -> f d = true.
Proof.
  intros Hf d Hd. rewrite forallb_forall in Hf. apply Hf. apply in_map_iff. exists (Z.to_nat d).
  split; [lia | apply in_seq; lia].
Qed.

Lemma month_walk_spec (leap : bool) d : 0 <= d < (if leap then 366 else 365) -> month_day_ok leap d = true.
Proof.
  destruct leap; intros Hd.
  - apply (forall_days (month_day_ok true) 366); [vm_compute; reflexivity | lia].
  - apply (forall_days (month_day_ok false) 365); [vm_compute; reflexivity | lia].
Qed.

Lemma civil_of_day_spec n :
  let c := civil_of_day n in
  day_of_civil c = n /\ 1 <= cv_month c <= 12 /\ 1 <= cv_day c <= daysIn (cv_year c) (cv_month c) /\
  year_start (cv_year c) <= n < year_start (cv_year c) + (if is_leap (cv_year c) then 366 else 365).
Proof.
  unfold civil_of_day. pose proof (year_of_day_spec n) as Hy. destruct (year_of_day n) as [y d]. destruct Hy as [Hn Hd].
  pose proof (month_walk_spec (is_leap y) d Hd) as Hm. unfold month_day_ok in Hm.
  destruct (month_walk 1 d (month_lengths (is_leap y))) as [m k]. unfold between in Hm.
  rewrite !andb_true_iff, !Z.leb_le, Z.eqb_eq in Hm. unfold day_of_civil, daysIn. cbn [cv_year cv_month cv_day].
  destruct (is_leap y); split_and!; lia.
Qed.

Lemma year_range n : 0 <= n <= 2932896 -> 1970 <= cv_year (civil_of_day n) <= 9999.
Proof.
  intros Hn. destruct (civil_of_day_spec n) as (_ & _ & _ & Hy). generalize dependent (cv_year (civil_of_day n)). intros y Hy.
  unfold year_start in Hy. assert (Hl : (if is_leap y then 366 else 365) <= 366) by (destruct (is_leap y); lia).
  divmod (y - 1) 4. divmod (y - 1) 100. divmod (y - 1) 400. split.
  - destruct (Z.le_gt_cases 1970 y); [done|]. exfalso. assert (y = 1969 \/ y - 1 <= 1967) as [E | E] by lia.
    + subst y. destruct Hy as [_ Hy]. vm_compute in Hy. destruct n; done || lia.
    + lia.
  - destruct (Z.le_gt_cases y 9999); [done|]. exfalso. assert (y - 1 = 9999 \/ 10000 <= y - 1) as [E | E] by lia.
    + assert (y = 10000) by lia. subst y. destruct Hy as [Hy _]. change (10000 - 1) with 9999 in Hy.
      change (9999 / 4) with 2499 in Hy. change (9999 / 100) with 99 in Hy. change (9999 / 400) with 24 in Hy. lia.
    + lia.
Qed.

(** ** Digits *)

Lemma pad2_digits n : 0 <= n < 100 -> all_digits (pad2 n) = true.
Proof. apply (forall_days (fun n => all_digits (pad2 n)) 100). vm_compute. reflexivity. Qed.

Lemma parse_pad2 acc n : 0 <= n < 100 -> parse_digits acc (pad2 n) = Some (100 * acc + n).
Proof.
  intros Hn. unfold pad2. divmod n 10.
  cbn [parse_digits]. unfold ascii_digit, between. rewrite !b2z_digit by lia.
  rewrite !(proj2 (Z.leb_le _ _)) by lia. cbn [andb]. f_equal. lia.
Qed.

Lemma digits_value_pad2 n : 0 <= n < 100 -> digits_value (pad2 n) = Some n.
Proof.
  intros Hn. unfold digits_value. rewrite pad2_digits by done. change (ParseUint_digits (pad2 n)) with (parse_digits 0 (pad2 n)).
  rewrite parse_pad2 by done. f_equal; lia.
Qed.

Lemma digits_value_pad4 n : 0 <= n < 10000 -> digits_value (pad4 n) = Some n.
Proof.
  intros Hn. divmod n 100. assert (0 <= n / 100 < 100) by lia.
  unfold digits_value, pad4. unfold all_digits. rewrite forallb_app.
  fold (all_digits (pad2 (n / 100))). fold (all_digits (pad2 (n mod 100))). rewrite !pad2_digits by done. cbn [andb].
  change (ParseUint_digits (pad2 (n / 100) ++ pad2 (n mod 100))) with (parse_digits 0 (pad2 (n / 100) ++ pad2 (n mod 100))).
  rewrite parse_digits_app, parse_pad2 by done. rewrite parse_pad2 by done. f_equal. lia.
Qed.

(** ** Round trips of the layouts *)

Lemma format_date_len day : zlen (format_date day) = 8.
Proof. done. Qed.

Lemma daysIn_bound y m : daysIn y m <= 31.
Proof.
  unfold daysIn. assert (Hall : Forall (fun n => n <= 31) (month_lengths (is_leap y))).
  { destruct (is_leap y); repeat constructor; lia. }
  destruct (nth_in_or_default (Z.to_nat (m - 1)) (month_lengths (is_leap y)) 0) as [Hin | ->]; [|lia].
  rewrite Forall_forall in Hall. apply Hall. by apply list_elem_of_In.
Qed.

Lemma parse_format_date day : 0 <= day <= 2932896 -> parse_date (format_date day) = Some day.
Proof.
  intros Hday. pose proof (year_range day Hday) as Hy. destruct (civil_of_day_spec day) as (Hc & Hm & Hd & _).
  unfold parse_date, format_date. set (c := civil_of_day day) in *.
  change (take 4 (pad4 (cv_year c) ++ pad2 (cv_month c) ++ pad2 (cv_day c))) with (pad4 (cv_year c)).
  change (take 2 (drop 4 (pad4 (cv_year c) ++ pad2 (cv_month c) ++ pad2 (cv_day c)))) with (pad2 (cv_month c)).
  change (take 2 (drop 6 (pad4 (cv_year c) ++ pad2 (cv_month c) ++ pad2 (cv_day c)))) with (pad2 (cv_day c)).
  pose proof (daysIn_bound (cv_year c) (cv_month c)).
  rewrite digits_value_pad4, !digits_value_pad2 by lia.
  unfold between. rewrite !(proj2 (Z.leb_le _ _)) by lia. cbn [andb].
  rewrite <- Hc. clearbody c. by destruct c.
Qed.

Lemma parse_format_hour day hour :
  0 <= day <= 2932896 -> 0 <= hour < 24 -> parse_hour (format_hour day hour) = Some (24 * day + hour).
Proof.
  intros Hday Hh. unfold parse_hour, format_hour.
  change (take 8 (format_date day ++ pad2 hour)) with (format_date day).
  change (drop 8 (format_date day ++ pad2 hour)) with (pad2 hour).
  rewrite parse_format_date, digits_value_pad2 by lia. destruct (Z.ltb_spec hour 24); [done | lia].
Qed.
