(* ===== verification/Model.v ===== *)
(** * Model: pkg/model

    The value union, the identifier rules, sample validation and the
    primary-key derivation shared by every component
    ([pkg/model/value.go], [names.go], [sample.go], [key.go]). *)

From Stdlib Require Import ZArith Lia Bool.
From Stdlib Require Import Strings.Byte Strings.String.
From Stdlib Require Import Floats.SpecFloat.
From S2P Require Import Prelude Bytes Float64 GoStd GoText.

(** ** value.go: the value union *)

(** [ValueType] is a byte; the codec reads any byte as one. *)
Definition ValueType : Type := Z.
Definition TypeInvalid : ValueType := 0.
Definition TypeInt : ValueType := 1.
Definition TypeFloat : ValueType := 2.
Definition TypeString : ValueType := 3.
Definition TypeBool : ValueType := 4.

(** [Value]: the struct [{T, I, F, S, B}] of which only the member [T]
    names is ever read, hence a tagged union.  [VInvalid] is [Value{}]. *)
Inductive Value : Type :=
| VInvalid
| VInt (i : Z)
| VFloat (f : f64)
| VString (s : gostr)
| VBool (b : bool).

Definition v_T (v : Value) : ValueType :=
  match v with
  | VInvalid => TypeInvalid
  | VInt _ => TypeInt
  | VFloat _ => TypeFloat
  | VString _ => TypeString
  | VBool _ => TypeBool
  end.

Definition Valid (v : Value) : bool := negb (v_T v =? TypeInvalid).

Definition isFinite (f : f64) : bool := negb (IsNaN f) && negb (IsInf f).

(** [maxIntFloat = float64(1 << 63)]. *)
Definition maxIntFloat : f64 := of_int two63.

Section Values.
Context `{FloatText}.

Definition AsFloat (v : Value) : f64 * bool :=
  match v with
  | VInt i => (of_int i, true)
  | VFloat f => (f, isFinite f)
  | VString s =>
      match ParseFloat s with
      | Some f => (f, isFinite f)
      | None => (f_zero, false)
      end
  | VBool b => if b then (of_int 1, true) else (f_zero, true)
  | VInvalid => (f_zero, false)
  end.

Definition AsInt (v : Value) : Z * bool :=
  match v with
  | VInt i => (i, true)
  | VFloat f =>
      if negb (isFinite f) then (0, false)
      else if fgeb f maxIntFloat || fltb f (fneg maxIntFloat) then (0, false)
      else (to_int f, true)
  | VString s =>
      match ParseInt s with
      | Some i => (i, true)
      | None => (0, false)
      end
  | _ => (0, false)
  end.

Definition Value_String (v : Value) : gostr :=
  match v with
  | VInt i => FormatInt i
  | VFloat f => FormatFloat_g f
  | VString s => s
  | VBool b => if b then bs "true" else bs "false"
  | VInvalid => []
  end.

Definition Coerce (s : gostr) : Value :=
  match ParseInt s with
  | Some i => VInt i
  | None =>
      match ParseFloat s with
      | Some f => VFloat f
      | None => VString s
      end
  end.
End Values.

Inductive model_err : Type :=
| ErrUnknownKind (k : gostr)
| ErrUnknownType (s : gostr)
| ErrInvalidSetName (s : gostr)
| ErrInvalidFieldName (s : gostr)
| ErrInvalidBucketSetName (s : gostr)
| ErrInvalidLabelKey (s : gostr)
| ErrReservedColumn (s : gostr)
| ErrLabelValueEmpty
| ErrLabelValueTooLong
| ErrLabelValueNotUTF8
| ErrTimestampNotPositive
| ErrTimestampTooLarge (ts : Z)
| ErrSubUS (n : Z)
| ErrNoFields
| ErrFieldNoValue (k : gostr)
| ErrNotFinite
| ErrLabel (k : gostr) (e : model_err)
| ErrField (k : gostr) (e : model_err).

Definition ValidateKind (k : gostr) : result model_err unit :=
  if bytes_eqb k (bs "counter") || bytes_eqb k (bs "gauge")
     || bytes_eqb k (bs "delta") || bytes_eqb k (bs "string")
  then Ok tt else Err (ErrUnknownKind k).

Definition ParseValueType (s : gostr) : result model_err ValueType :=
  if bytes_eqb s (bs "int") || bytes_eqb s (bs "int64") then Ok TypeInt
  else if bytes_eqb s (bs "float") || bytes_eqb s (bs "float64") then Ok TypeFloat
  else if bytes_eqb s (bs "string") then Ok TypeString
  else if bytes_eqb s (bs "bool") then Ok TypeBool
  else Err (ErrUnknownType s).

Definition ValueType_String (t : ValueType) : gostr :=
  if t =? TypeInt then bs "int64"
  else if t =? TypeFloat then bs "float64"
  else if t =? TypeString then bs "string"
  else if t =? TypeBool then bs "bool"
  else bs "invalid".

(** ** names.go: identifier rules *)

Definition ReservedPrefix : gostr := bs "_mensura".
Definition maxIdentLen : Z := 128.
Definition maxLabelValueLen : Z := 1024.
Definition TimestampField : gostr := bs "timestamp".

(** One step of [validIdent]'s loop over [i, r := range s]. *)
Definition ident_rune_ok (allowLeadingDigit : bool) (i r : Z) : bool :=
  if between 97 r 122 || between 65 r 90 || (r =? 95) then true
  else if (i >? 0) && (between 48 r 57 || (r =? 46) || (r =? 45)) then true
  else if (i =? 0) && allowLeadingDigit && between 48 r 57 then true
  else false.

Definition validIdent (s : gostr) (allowLeadingDigit : bool) : bool :=
  if bytes_eqb s [] || (zlen s >? maxIdentLen) then false
  else forallb (fun '(i, r) => ident_rune_ok allowLeadingDigit i r) (runes s).

Definition ValidateSetName (s : gostr) : result model_err unit :=
  if negb (validIdent s false) then Err (ErrInvalidSetName s) else Ok tt.

Definition ValidateFieldName (s : gostr) : result model_err unit :=
  if negb (validIdent s true) then Err (ErrInvalidFieldName s)
  else if bytes_eqb s TimestampField then Err (ErrReservedColumn s)
  else Ok tt.

Definition ValidateBucketSetName (s : gostr) : result model_err unit :=
  if negb (validIdent s true) then Err (ErrInvalidBucketSetName s) else Ok tt.

Definition ValidateLabelKey (s : gostr) : result model_err unit :=
  if negb (validIdent s false) then Err (ErrInvalidLabelKey s)
  else if bytes_eqb s TimestampField then Err (ErrReservedColumn s)
  else Ok tt.

Definition ValidateLabelValue (s : gostr) : result model_err unit :=
  if bytes_eqb s [] then Err ErrLabelValueEmpty
  else if zlen s >? maxLabelValueLen then Err ErrLabelValueTooLong
  else if negb (ValidString s) then Err ErrLabelValueNotUTF8
  else Ok tt.

Definition IsReserved (name : gostr) : bool := HasPrefix name ReservedPrefix.

(** ** sample.go: samples *)

Definition MaxTSMs : Z := 253402300799999.

Inductive KeyScheme := KeyContent | KeyOffset.

Record Sample := {
  TSMs : Z;
  SubUS : Z;
  Labels : gmap gostr gostr;
  Fields : gmap gostr Value;
  KeyHint : gostr;
}.

Definition ValidateFieldValue (v : Value) : result model_err unit :=
  match v with
  | VFloat f => if negb (isFinite f) then Err ErrNotFinite else Ok tt
  | _ => Ok tt
  end.

Definition wrap_err {A} (w : model_err -> model_err) (r : result model_err A) : result model_err A :=
  match r with Ok a => Ok a | Err e => Err (w e) end.

(** The two loops of [Validate]; Go fixes no order for a map's entries, so
    they take the entries as a list. *)
Fixpoint validate_labels (l : list (gostr * gostr)) : result model_err unit :=
  match l with
  | [] => Ok tt
  | (k, v) :: l' =>
      check ValidateLabelKey k;
      check wrap_err (ErrLabel k) (ValidateLabelValue v);
      validate_labels l'
  end.

Fixpoint validate_fields (l : list (gostr * Value)) : result model_err unit :=
  match l with
  | [] => Ok tt
  | (k, v) :: l' =>
      check ValidateFieldName k;
      if negb (Valid v) then Err (ErrFieldNoValue k)
      else
        check wrap_err (ErrField k) (ValidateFieldValue v);
        validate_fields l'
  end.

Definition Validate (s : Sample) : result model_err unit :=
  if TSMs s <=? 0 then Err ErrTimestampNotPositive
  else if TSMs s >? MaxTSMs then Err (ErrTimestampTooLarge (TSMs s))
  else if (SubUS s <? 0) || (SubUS s >? 999) then Err (ErrSubUS (SubUS s))
  else if Z.of_nat (size (Fields s)) =? 0 then Err ErrNoFields
  else
    check validate_labels (map_to_list (Labels s));
    validate_fields (map_to_list (Fields s)).

Definition SortedLabelKeys (s : Sample) : list gostr :=
  sort_strings (map fst (map_to_list (Labels s))).
Definition SortedFieldKeys (s : Sample) : list gostr :=
  sort_strings (map fst (map_to_list (Fields s))).

(** ** key.go: the primary key *)

(** xxh3 is not part of the source: its 128-bit sum is a parameter. *)
Class XXH3 := {
  Sum128 : gostr -> gostr;
  Sum128_length : forall s, length (Sum128 s) = 16%nat;
}.

Definition hashLen (n : Z) : gostr := AppendUvarint (u64 n).
Definition hashPart (s : gostr) : gostr := hashLen (zlen s) ++ s.

Definition hash_labels (m : gmap gostr gostr) (keys : list gostr) : gostr :=
  concat (map (fun k => hashPart k ++ hashPart (default [] (m !! k))) keys).

Definition hash_fields `{FloatText} (m : gmap gostr Value) (keys : list gostr) : gostr :=
  concat (map (fun k =>
    let v := default VInvalid (m !! k) in
    hashPart k ++ [z2b (v_T v)] ++ hashPart (Value_String v)) keys).

(** Everything [PrimaryKey] writes to the hasher, in order. *)
Definition key_stream `{FloatText} (set : gostr) (s : Sample) (scheme : KeyScheme) : gostr :=
  hashPart set
  ++ PutUint64 (u64 (TSMs s))
  ++ (if negb (SubUS s =? 0) then PutUint16 (SubUS s) else [])
  ++ hashLen (zlen (SortedLabelKeys s))
  ++ hash_labels (Labels s) (SortedLabelKeys s)
  ++ match scheme with
     | KeyOffset => hashPart (KeyHint s)
     | KeyContent =>
         hashLen (zlen (SortedFieldKeys s))
         ++ hash_fields (Fields s) (SortedFieldKeys s)
     end.

Definition PrimaryKey `{FloatText} `{XXH3} (set : gostr) (s : Sample) (scheme : KeyScheme) : gostr :=
  Sum128 (key_stream set s scheme).

(** [KeyHex]: thirty-two lower-case hex characters. *)
Definition hex_digit (n : Z) : byte := if n <? 10 then z2b (48 + n) else z2b (87 + n).
Definition KeyHex (k : gostr) : gostr :=
  concat (map (fun b => [hex_digit (b2z b / 16); hex_digit (b2z b mod 16)]) k).

(** ** Facts *)

(** *** Identifiers *)

(** The character class the error messages of [names.go] print:
    [A-Za-z_] (or [A-Za-z0-9_]) followed by up to 127 of [A-Za-z0-9_.-]. *)
Definition ident_first (allowLeadingDigit : bool) (b : byte) : bool :=
  ascii_letter (b2z b) || (b2z b =? 95) || (allowLeadingDigit && ascii_digit (b2z b)).
Definition ident_rest (b : byte) : bool :=
  ascii_letter (b2z b) || (b2z b =? 95) || ascii_digit (b2z b)
  || (b2z b =? 46) || (b2z b =? 45).
Definition ident_regex (allowLeadingDigit : bool) (s : gostr) : bool :=
  match s with
  | [] => false
  | b :: t => ident_first allowLeadingDigit b && forallb ident_rest t && (zlen t <=? 127)
  end.

Fixpoint ident_bytes (allow : bool) (i : Z) (s : gostr) : bool :=
  match s with
  | [] => true
  | b :: t => ident_rune_ok allow i (b2z b) && ident_bytes allow (i + 1) t
  end.

Lemma ident_rune_ok_high allow i r : 128 <= r -> ident_rune_ok allow i r = false.
Proof.
  intros Hr. unfold ident_rune_ok.
  assert (Hb : forall lo hi, hi < 128 -> between lo r hi = false)
    by (intros; unfold between; rewrite (proj2 (Z.leb_gt r hi)) by lia; apply andb_false_r).
  rewrite !Hb, !(proj2 (Z.eqb_neq r _)) by lia.
  by destruct (i >? 0), (i =? 0), allow.
Qed.

Lemma range_runes_bytes allow s : forall fuel i,
  (length s <= fuel)%nat ->
  forallb (fun '(i, r) => ident_rune_ok allow i r) (range_runes fuel i s)
  = ident_bytes allow i s.
Proof.
  induction s as [|b s IH]; intros [|f] i Hf; try done; [simpl in Hf; lia|].
  destruct (Z.lt_ge_cases (b2z b) 128) as [Hb|Hb].
  - cbn [range_runes]. rewrite DecodeRune_ascii by done.
    change (drop (Z.to_nat 1) (b :: s)) with s.
    cbn [forallb ident_bytes]. rewrite IH by (simpl in Hf; lia). done.
  - cbn [range_runes]. pose proof (DecodeRune_high b s Hb).
    destruct (DecodeRune (b :: s)) as [r w]. cbn [forallb ident_bytes fst] in *.
    by rewrite !ident_rune_ok_high.
Qed.

Lemma ident_bytes_rest allow s i :
  0 < i -> ident_bytes allow i s = forallb ident_rest s.
Proof.
  revert i. induction s as [|b s IH]; intros i Hi; [done|].
  cbn [ident_bytes forallb]. rewrite IH by lia. f_equal.
  unfold ident_rune_ok, ident_rest, ascii_letter, ascii_lower, ascii_upper, ascii_digit.
  rewrite Z.gtb_ltb, (proj2 (Z.ltb_lt 0 i)), (proj2 (Z.eqb_neq i 0)) by lia.
  destruct (between 97 _ _), (between 65 _ _), (_ =? 95), (between 48 _ _), (_ =? 46), (_ =? 45); done.
Qed.

(** [validIdent], which loops over the runes of the name, accepts
    exactly the byte strings of the character class and length its error
    messages document: no multi-byte rune and no invalid UTF-8 passes. *)
Theorem validIdent_regex (s : gostr) (allow : bool) :
  validIdent s allow = ident_regex allow s.
Proof.
  unfold validIdent. destruct s as [|b t]; [done|].
  change (bytes_eqb (b :: t) []) with false. unfold runes.
  rewrite range_runes_bytes by done. cbn [ident_bytes orb].
  rewrite ident_bytes_rest by lia. unfold ident_regex, maxIdentLen.
  rewrite zlen_cons, Z.gtb_ltb.
  assert (ident_rune_ok allow 0 (b2z b) = ident_first allow b) as ->.
  { unfold ident_rune_ok, ident_first, ascii_letter, ascii_lower, ascii_upper, ascii_digit.
    simpl. destruct (between 97 _ _), (between 65 _ _), (_ =? 95), (between 48 _ _), allow; done. }
  destruct (128 <? 1 + zlen t) eqn:E1, (zlen t <=? 127) eqn:E2; bsplit; try lia;
    destruct (ident_first allow b), (forallb ident_rest t); done.
Qed.

(** *** Validation *)

Definition label_ok (k v : gostr) : Prop :=
  ValidateLabelKey k = Ok tt /\ ValidateLabelValue v = Ok tt.
Definition field_ok (k : gostr) (v : Value) : Prop :=
  ValidateFieldName k = Ok tt /\ Valid v = true /\ ValidateFieldValue v = Ok tt.

Lemma check_ok_iff {E} (r : result E unit) (k : result E unit) :
  rbind r (fun _ => k) = Ok tt <-> r = Ok tt /\ k = Ok tt.
Proof. destruct r as [[]|]; simpl; naive_solver. Qed.

Lemma wrap_err_ok w (r : result model_err unit) : wrap_err w r = Ok tt <-> r = Ok tt.
Proof. destruct r as [[]|]; simpl; naive_solver. Qed.

Lemma validate_labels_spec l :
  validate_labels l = Ok tt <-> Forall (fun kv => label_ok kv.1 kv.2) l.
Proof.
  induction l as [|[k v] l IH]; simpl; [by split|].
  rewrite !check_ok_iff, wrap_err_ok, IH, Forall_cons. unfold label_ok. naive_solver.
Qed.

Lemma validate_fields_spec l :
  validate_fields l = Ok tt <-> Forall (fun kv => field_ok kv.1 kv.2) l.
Proof.
  induction l as [|[k v] l IH]; simpl; [by split|].
  rewrite check_ok_iff, Forall_cons. unfold field_ok. simpl.
  destruct (Valid v); simpl; [|naive_solver].
  rewrite check_ok_iff, wrap_err_ok, IH. naive_solver.
Qed.

(** the verdict of [Validate] does not depend on the order Go walks the
    label and field maps in: a sample is accepted exactly when its
    timestamp is in (0, MaxTSMs], its fraction in 0..999, it has a field,
    and every label and every field passes its own rule. *)
Theorem Validate_spec (s : Sample) :
  Validate s = Ok tt <->
  0 < TSMs s <= MaxTSMs /\ 0 <= SubUS s <= 999 /\ Fields s <> ∅ /\
  (forall k v, Labels s !! k = Some v -> label_ok k v) /\
  (forall k v, Fields s !! k = Some v -> field_ok k v).
Proof.
  unfold Validate. rewrite !Z.gtb_ltb.
  destruct (TSMs s <=? 0) eqn:E1; bsplit; [split; [done | lia]|].
  destruct (MaxTSMs <? TSMs s) eqn:E2; bsplit; [split; [done | lia]|].
  destruct ((SubUS s <? 0) || (999 <? SubUS s)) eqn:E3.
  { split; [done|]. apply orb_true_iff in E3. bsplit. destruct E3; bsplit; lia. }
  bsplit. destruct (Z.of_nat (size (Fields s)) =? 0) eqn:E4; bsplit.
  { split; [done|]. intros (_&_&Hf&_). exfalso. apply Hf, map_size_empty_inv. lia. }
  rewrite check_ok_iff, validate_labels_spec, validate_fields_spec, !Forall_forall.
  split.
  - intros [Hl Hf]. do 2 (split; [lia|]). split.
    + intros He. rewrite He, map_size_empty in E4. lia.
    + split; intros k v Hin%elem_of_map_to_list; [exact (Hl (k, v) Hin) | exact (Hf (k, v) Hin)].
  - intros (_ & _ & _ & Hl & Hf).
    split; intros [k v] Hin%elem_of_map_to_list; eauto.
Qed.

(** *** The primary key *)

(** A string Go can hold: its length fits an [int]. *)
Definition fits (s : gostr) : Prop := zlen s < two64.

Lemma hashLen_app_inj m n x y :
  in_u64 m -> in_u64 n -> hashLen m ++ x = hashLen n ++ y -> m = n /\ x = y.
Proof.
  unfold hashLen. intros Hm Hn. rewrite !u64_id by done.
  by apply AppendUvarint_app_inj.
Qed.

Lemma hashPart_app_inj a b x y :
  fits a -> fits b -> hashPart a ++ x = hashPart b ++ y -> a = b /\ x = y.
Proof.
  unfold hashPart, fits. intros Ha Hb. rewrite <- !app_assoc. intros H.
  pose proof (zlen_nonneg a). pose proof (zlen_nonneg b).
  apply hashLen_app_inj in H as [Hl H]; [|split; lia..].
  apply app_inj_len in H; [done|]. unfold zlen in Hl. lia.
Qed.

(** A sequence of self-delimiting encodings determines its items. *)
Lemma concat_map_app_inj {A} (enc : A -> gostr) (ok : A -> Prop)
    (inj : forall a b x y, ok a -> ok b -> enc a ++ x = enc b ++ y -> a = b /\ x = y)
    (l k : list A) (x y : gostr) :
  Forall ok l -> Forall ok k -> length l = length k ->
  concat (map enc l) ++ x = concat (map enc k) ++ y -> l = k /\ x = y.
Proof.
  intros Hl. revert k x y. induction Hl as [|a l Ha Hl IH]; intros [|b k] x y Hk Hlen; try done.
  simpl. rewrite <- !app_assoc. inversion Hk; subst. intros H.
  apply inj in H as [-> H]; [|done..].
  apply IH in H as [-> ->]; [done..|]. simpl in Hlen. lia.
Qed.

Definition label_items (s : Sample) : list (gostr * gostr) :=
  map (fun k => (k, default [] (Labels s !! k))) (SortedLabelKeys s).
Definition field_items (s : Sample) : list (gostr * Value) :=
  map (fun k => (k, default VInvalid (Fields s !! k))) (SortedFieldKeys s).

(** The sorted items hold the whole map. *)
Lemma sorted_items_map {A} (d : A) (m : gmap gostr A) :
  list_to_map (map (fun k => (k, default d (m !! k))) (sort_strings (map fst (map_to_list m)))) = m.
Proof.
  apply map_eq. intros k. set (keys := sort_strings _).
  assert (Hk : forall k, k ∈ keys <-> is_Some (m !! k)).
  { intros k'. unfold keys. rewrite (sort_strings_perm _), list_elem_of_fmap. split.
    - intros ([k1 v] & -> & Hin%elem_of_map_to_list). simpl. eauto.
    - intros [v Hv]. exists (k', v). split; [done|]. by apply elem_of_map_to_list. }
  assert (Hfst : map fst (map (fun k => (k, default d (m !! k))) keys) = keys)
    by (rewrite map_map; apply map_id).
  destruct (m !! k) as [v|] eqn:E.
  - apply elem_of_list_to_map_1.
    + change (NoDup (map fst (map (fun k => (k, default d (m !! k))) keys))). rewrite Hfst.
      unfold keys. rewrite (sort_strings_perm _). apply NoDup_fst_map_to_list.
    + apply list_elem_of_fmap. exists k. rewrite E. split; [done|]. apply Hk. eauto.
  - apply not_elem_of_list_to_map_1.
    change (k ∉ map fst (map (fun k => (k, default d (m !! k))) keys)). rewrite Hfst.
    rewrite Hk, E. intros [? [=]].
Qed.

Section KeyStream.
Context `{FloatText}.

(** The documented behaviour of [FormatFloat(f, 'g', -1, 64)] the key
    relies on: the shortest text that parses back, so distinct numbers
    have distinct texts. *)
Definition format_g_injective : Prop :=
  forall f g, IsNaN f = false -> IsNaN g = false ->
    fvalid f = true -> fvalid g = true ->
    FormatFloat_g f = FormatFloat_g g -> f = g.

Definition value_fits (v : Value) : Prop :=
  fits (Value_String v) /\
  match v with
  | VInvalid => False
  | VInt i => in_i64 i
  | VFloat f => IsNaN f = false /\ fvalid f = true
  | _ => True
  end.

(** What every sample the write path accepts satisfies: finite values,
    lengths and counts an [int] holds. *)
Record sample_fits (s : Sample) : Prop := {
  sf_ts : 0 < TSMs s <= MaxTSMs;
  sf_sub : 0 <= SubUS s <= 999;
  sf_hint : fits (KeyHint s);
  sf_nlabels : in_u64 (zlen (SortedLabelKeys s));
  sf_nfields : in_u64 (zlen (SortedFieldKeys s));
  sf_labels : Forall (fun kv => fits kv.1 /\ fits kv.2) (label_items s);
  sf_fields : Forall (fun kv => fits kv.1 /\ value_fits kv.2) (field_items s);
}.

Definition enc_label (kv : gostr * gostr) : gostr := hashPart kv.1 ++ hashPart kv.2.
Definition enc_field (kv : gostr * Value) : gostr :=
  hashPart kv.1 ++ [z2b (v_T kv.2)] ++ hashPart (Value_String kv.2).

Lemma hash_labels_items s :
  hash_labels (Labels s) (SortedLabelKeys s) = concat (map enc_label (label_items s)).
Proof. unfold hash_labels, label_items. by rewrite map_map. Qed.

Lemma hash_fields_items s :
  hash_fields (Fields s) (SortedFieldKeys s) = concat (map enc_field (field_items s)).
Proof. unfold hash_fields, field_items. by rewrite map_map. Qed.

Lemma enc_label_inj a b x y :
  fits a.1 /\ fits a.2 -> fits b.1 /\ fits b.2 ->
  enc_label a ++ x = enc_label b ++ y -> a = b /\ x = y.
Proof.
  destruct a as [k v], b as [k' v']. unfold enc_label. simpl.
  intros [??] [??]. rewrite <- !app_assoc. intros E.
  apply hashPart_app_inj in E as [-> E]; [|done..].
  by apply hashPart_app_inj in E as [-> ->].
Qed.

Lemma Value_String_inj v w :
  format_g_injective -> value_fits v -> value_fits w ->
  v_T v = v_T w -> Value_String v = Value_String w -> v = w.
Proof.
  intros Hg [_ Hv] [_ Hw] HT E.
  destruct v, w; try done; simpl in *.
  - f_equal. by apply FormatInt_inj.
  - f_equal. destruct Hv, Hw. by apply Hg.
  - congruence.
  - by destruct b, b0.
Qed.

Lemma enc_field_inj a b x y :
  format_g_injective ->
  fits a.1 /\ value_fits a.2 -> fits b.1 /\ value_fits b.2 ->
  enc_field a ++ x = enc_field b ++ y -> a = b /\ x = y.
Proof.
  intros Hg. destruct a as [k v], b as [k' v']. unfold enc_field. simpl.
  intros [? Hv] [? Hw]. rewrite <- !app_assoc. intros E.
  apply hashPart_app_inj in E as [-> E]; [|done..].
  injection E as HT E.
  apply hashPart_app_inj in E as [Hs ->]; [|apply Hv|apply Hw].
  assert (v_T v = v_T v') as HT'.
  { apply (f_equal b2z) in HT. rewrite !b2z_z2b in HT. by destruct v, v'. }
  by rewrite (Value_String_inj v v' Hg Hv Hw HT' Hs).
Qed.

Lemma label_items_inj s t :
  label_items s = label_items t -> Labels s = Labels t.
Proof.
  intros E. rewrite <- (sorted_items_map [] (Labels s)), <- (sorted_items_map [] (Labels t)).
  unfold label_items, SortedLabelKeys in E. by rewrite E.
Qed.

Lemma field_items_inj s t :
  field_items s = field_items t -> Fields s = Fields t.
Proof.
  intros E. rewrite <- (sorted_items_map VInvalid (Fields s)), <- (sorted_items_map VInvalid (Fields t)).
  unfold field_items, SortedFieldKeys in E. by rewrite E.
Qed.

(** The part of the stream before the scheme's own input determines the
    set, the time and the labels, given that both samples write a
    sub-millisecond fraction or neither does. *)
Lemma key_stream_head_inj set set' s t x y :
  fits set -> fits set' -> sample_fits s -> sample_fits t ->
  (SubUS s = 0 <-> SubUS t = 0) ->
  hashPart set ++ PutUint64 (u64 (TSMs s))
    ++ (if negb (SubUS s =? 0) then PutUint16 (SubUS s) else [])
    ++ hashLen (zlen (SortedLabelKeys s))
    ++ hash_labels (Labels s) (SortedLabelKeys s) ++ x =
  hashPart set' ++ PutUint64 (u64 (TSMs t))
    ++ (if negb (SubUS t =? 0) then PutUint16 (SubUS t) else [])
    ++ hashLen (zlen (SortedLabelKeys t))
    ++ hash_labels (Labels t) (SortedLabelKeys t) ++ y ->
  set = set' /\ TSMs s = TSMs t /\ SubUS s = SubUS t /\ Labels s = Labels t /\ x = y.
Proof.
  intros Hset Hset' [] [] Hsub E.
  apply hashPart_app_inj in E as [-> E]; [|done..].
  apply app_inj_len in E as [Hts E]; [|unfold PutUint64; by rewrite !length_be_bytes].
  unfold MaxTSMs in *.
  rewrite !u64_id in Hts by (split; unfold two64; lia).
  apply be_bytes_inj in Hts; [|change (256 ^ Z.of_nat 8) with two64; unfold two64; lia..].
  apply app_inj_len in E as [Hs E].
  2:{ destruct (SubUS s =? 0) eqn:E1, (SubUS t =? 0) eqn:E2; bsplit; try done; tauto. }
  assert (SubUS s = SubUS t) as HS.
  { destruct (SubUS s =? 0) eqn:E1, (SubUS t =? 0) eqn:E2; bsplit; try lia; [tauto..|].
    apply be_bytes_inj in Hs; [done|change (256 ^ Z.of_nat 2) with 65536; lia..]. }
  apply hashLen_app_inj in E as [Hn E]; [|done..].
  rewrite !hash_labels_items in E.
  apply (concat_map_app_inj enc_label (fun kv => fits kv.1 /\ fits kv.2) enc_label_inj) in E
    as [El ->]; [|done..|].
  - apply label_items_inj in El. done.
  - unfold label_items. rewrite !length_map. unfold zlen in Hn. lia.
Qed.

(** C13: under content keying, the bytes hashed into a primary key
    determine the whole sample but its key hint: two samples of one set
    hash the same bytes only when they agree on the timestamp, the
    fraction, every label and every field -- provided both carry a
    sub-millisecond fraction or neither does. *)
Theorem key_stream_content_injective (set set' : gostr) (s t : Sample) :
  format_g_injective ->
  fits set -> fits set' -> sample_fits s -> sample_fits t ->
  (SubUS s = 0 <-> SubUS t = 0) ->
  key_stream set s KeyContent = key_stream set' t KeyContent ->
  set = set' /\ TSMs s = TSMs t /\ SubUS s = SubUS t /\
  Labels s = Labels t /\ Fields s = Fields t.
Proof.
  intros Hg Hset Hset' Hs Ht Hsub E. unfold key_stream in E.
  apply key_stream_head_inj in E as (-> & ? & ? & ? & E); [|done..].
  apply hashLen_app_inj in E as [Hn E]; [|apply Hs|apply Ht].
  rewrite !hash_fields_items in E.
  rewrite <- (app_nil_r (concat _)), <- (app_nil_r (concat (map enc_field (field_items t)))) in E.
  apply (concat_map_app_inj enc_field (fun kv => fits kv.1 /\ value_fits kv.2)
           (fun a b x y => enc_field_inj a b x y Hg)) in E as [El _];
    [|apply Hs|apply Ht|].
  - apply field_items_inj in El. done.
  - unfold field_items. rewrite !length_map. unfold zlen in Hn. lia.
Qed.

(** under offset keying the bytes determine the occurrence: set,
    time, labels and the caller's hint, under the same proviso. *)
Theorem key_stream_offset_injective (set set' : gostr) (s t : Sample) :
  fits set -> fits set' -> sample_fits s -> sample_fits t ->
  (SubUS s = 0 <-> SubUS t = 0) ->
  key_stream set s KeyOffset = key_stream set' t KeyOffset ->
  set = set' /\ TSMs s = TSMs t /\ SubUS s = SubUS t /\
  Labels s = Labels t /\ KeyHint s = KeyHint t.
Proof.
  intros Hset Hset' Hs Ht Hsub E. unfold key_stream in E.
  apply key_stream_head_inj in E as (-> & ? & ? & ? & E); [|done..].
  rewrite <- (app_nil_r (hashPart (KeyHint s))), <- (app_nil_r (hashPart (KeyHint t))) in E.
  apply hashPart_app_inj in E as [? _]; [done|apply Hs|apply Ht].
Qed.
End KeyStream.

(** Two samples of one set, one with a fraction and one without. *)
Definition collide_a : Sample :=
  {| TSMs := 1700000000000; SubUS := 9; Labels := ∅;
     Fields := {[ bs "v" := VInt 1 ]}; KeyHint := bs "web1:42" |}.
Definition collide_b : Sample :=
  {| TSMs := 1700000000000; SubUS := 0; Labels := ∅;
     Fields := {[ bs "v" := VInt 2 ]}; KeyHint := x00 :: x07 :: bs "web1:42" |}.

(** the proviso is needed.  The fraction's two bytes carry no
    marker of their presence, so under offset keying a sample with a
    fraction and one without can hash the same bytes: the label count of
    the first is read as the length of the second's hint. *)
Theorem key_stream_fraction_collision `{FloatText} :
  Validate collide_a = Ok tt /\ Validate collide_b = Ok tt /\
  Fields collide_a <> Fields collide_b /\
  key_stream (bs "app") collide_a KeyOffset = key_stream (bs "app") collide_b KeyOffset.
Proof.
  split; [vm_compute; reflexivity|]. split; [vm_compute; reflexivity|].
  split; [|vm_compute; reflexivity].
  intros E. apply (f_equal (lookup (bs "v"))) in E. vm_compute in E. discriminate.
Qed.

(** *** Coercions *)

Section Coercions.
Context `{FloatText}.

Definition value_wf (v : Value) : Prop :=
  match v with
  | VInt i => in_i64 i
  | VFloat f => fvalid f = true
  | _ => True
  end.

(** [AsFloat] never hands the render path a NaN or an infinity: what
    it reports as a number is finite, whichever type it came from. *)
Theorem AsFloat_finite (v : Value) (f : f64) :
  value_wf v -> AsFloat v = (f, true) -> isFinite f = true.
Proof.
  intros Hv E. destruct v as [|i|g|s|[]]; cbn [AsFloat value_wf] in *; [done|..].
  - injection E as <-. unfold isFinite.
    destruct (of_int_finite i) as [-> ->]; [unfold in_i64, two63 in Hv; lia | done].
  - by injection E as <- ->.
  - destruct (ParseFloat s); [by injection E as <- -> | done].
  - by injection E as <-.
  - by injection E as <-.
Qed.

Lemma to_int_range f :
  fvalid f = true -> isFinite f = true ->
  fgeb f maxIntFloat = false -> fltb f (fneg maxIntFloat) = false ->
  in_i64 (to_int f).
Proof.
  intros Hv Hfin Hge Hlt. destruct f as [s|s| |s m e]; try done.
  assert (maxIntFloat = S754_finite false 4503599627370496 11) as HM by reflexivity.
  apply fvalid_finite in Hv.
  assert (Hrank : (s = false /\ (e < 11 \/ (e = 11 /\ Z.pos m < 4503599627370496))) \/
                  (s = true /\ (e < 11 \/ (e = 11 /\ Z.pos m <= 4503599627370496)))).
  { destruct s; [right|left]; (split; [done|]).
    - destruct (Z.lt_ge_cases e 11); [by left|].
      assert (~ rank_lt (frank (S754_finite true m e)) (frank (fneg maxIntFloat))) as Hn.
      { intros Hr. assert (fltb (S754_finite true m e) (fneg maxIntFloat) = true); [|congruence].
        by apply fltb_rank. }
      rewrite HM in Hn. simpl in Hn. lia.
    - destruct (Z.lt_ge_cases e 11); [by left|].
      assert (rank_lt (frank (S754_finite false m e)) (frank maxIntFloat)) as Hn.
      { destruct (fgeb (S754_finite false m e) maxIntFloat) eqn:E; [done|].
        unfold fgeb in E. fold (fleb maxIntFloat (S754_finite false m e)) in E.
        rewrite fleb_negb_fltb in E by done. apply negb_false_iff, fltb_rank in E. tauto. }
      rewrite HM in Hn. simpl in Hn. lia. }
  unfold to_int.
  assert (Hm : 0 < Z.pos m < 2 ^ 53) by lia.
  destruct (0 <=? e) eqn:E; bsplit.
  - assert (0 < 2 ^ e) by (apply Z.pow_pos_nonneg; lia).
    assert (e = 11 \/ e <= 10) as [->|He] by lia.
    + change (2 ^ 11) with 2048 in *. destruct s; mlia.
    + assert (2 ^ e <= 2 ^ 10) as Hle by (apply Z.pow_le_mono_r; lia).
      change (2 ^ 10) with 1024 in Hle. destruct s; unfold in_i64, two63; nia.
  - assert (0 < 2 ^ (- e)) by (apply Z.pow_pos_nonneg; lia).
    assert (0 <= Z.pos m / 2 ^ (- e) <= Z.pos m)
      by (split; [apply Z.div_pos; lia | apply Z.div_le_upper_bound; nia]).
    destruct s; mlia.
Qed.

(** What [AsInt] answers is always an int64: the float path converts
    only after the range check, so no undefined conversion is reached. *)
Lemma AsInt_in_i64 (v : Value) (i : Z) :
  value_wf v -> AsInt v = (i, true) -> in_i64 i.
Proof.
  intros Hv E. destruct v as [|j|f|s|b]; cbn [AsInt value_wf] in *; try done.
  - by injection E as <-.
  - destruct (isFinite f) eqn:Ef; [|done]. cbn [negb] in E.
    destruct (fgeb f maxIntFloat || fltb f (fneg maxIntFloat)) eqn:E'; [done|].
    bsplit. injection E as <-. by apply to_int_range.
  - destruct (ParseInt s) as [n|] eqn:Ep; [|done]. injection E as <-.
    by apply (ParseInt_range s).
Qed.

(** an integer survives being printed and coerced back from a log:
    counters stay integers rather than becoming floats. *)
Theorem Coerce_String_int (i : Z) :
  in_i64 i -> Coerce (Value_String (VInt i)) = VInt i.
Proof.
  intros Hi. unfold Coerce. cbn [Value_String]. by rewrite ParseInt_FormatInt.
Qed.
End Coercions.
