(* ===== verification/Wire.v ===== *)
(** * Wire: JSON text as encoding/json writes it, and the types of a request

    The string escaping of [json.Marshal] (HTML-safe, invalid UTF-8
    replaced), integers, booleans, arrays, objects, and maps in the order
    of their sorted keys.  The text of a float64 is the class [JsonFloat]:
    the shortest decimal of strconv, at most 25 bytes. *)

From Stdlib Require Import ZArith Lia Bool Strings.Byte Strings.String.
From stdpp Require Import gmap sorting.
From S2P Require Import Prelude Bytes Float64 GoStd GoText Model.

Class JsonFloat := { json_float : f64 -> gostr }.

(** The widest text is a negative number just above 1e-6:
    -0.0000012345678901234567. *)
Class JsonFloatLaws (J : JsonFloat) : Prop := {
  json_float_width : forall f, isFinite f = true -> zlen (json_float f) <= 25;
}.

(** ** Strings *)

Definition u00 (b : byte) : gostr := bs "\u00" ++ [hex_digit (b2z b / 16); hex_digit (b2z b mod 16)].

Definition html_unsafe (b : byte) : bool := byte_eqb b x3c || byte_eqb b x3e || byte_eqb b x26.

Definition json_ascii (b : byte) : gostr :=
  if byte_eqb b x22 || byte_eqb b x5c then [x5c; b]
  else if byte_eqb b x08 then bs "\b"
  else if byte_eqb b x0c then bs "\f"
  else if byte_eqb b x0a then bs "\n"
  else if byte_eqb b x0d then bs "\r"
  else if byte_eqb b x09 then bs "\t"
  else if (b2z b <? 32) || html_unsafe b then u00 b
  else [b].

Definition json_rune (r w : Z) (s : gostr) : gostr :=
  if (r =? RuneError) && (w =? 1) then bs "\ufffd"
  else if (r =? 8232) || (r =? 8233) then bs "\u202" ++ [hex_digit (r mod 16)]
  else take (Z.to_nat w) s.

Fixpoint json_escape (fuel : nat) (s : gostr) : gostr :=
  match fuel, s with
  | S fuel, b :: t =>
      if b2z b <? 128 then json_ascii b ++ json_escape fuel t
      else
        let '(r, w) := DecodeRune s in
        json_rune r w s ++ json_escape fuel (drop (Z.to_nat w) s)
  | _, _ => []
  end.

Definition json_text (s : gostr) : gostr := json_escape (length s) s.
Definition json_string (s : gostr) : gostr := [x22] ++ json_text s ++ [x22].

(** ** Composite values *)

Fixpoint join_comma (l : list gostr) : gostr :=
  match l with
  | [] => []
  | [x] => x
  | x :: l' => x ++ [x2c] ++ join_comma l'
  end.

Definition json_array (l : list gostr) : gostr := [x5b] ++ join_comma l ++ [x5d].
Definition json_member (m : gostr * gostr) : gostr := json_string m.1 ++ [x3a] ++ m.2.
Definition json_object (l : list (gostr * gostr)) : gostr := [x7b] ++ join_comma (map json_member l) ++ [x7d].

(** The entries of a map, by key. *)
Definition sorted_entries {A} (m : gmap gostr A) : list (gostr * A) :=
  omap (fun k => pair k <$> m !! k) (sort_strings (map fst (map_to_list m))).

(** ** Lengths *)

Definition total_len (l : list gostr) : Z := foldr (fun s n => zlen s + n) 0 l.

Lemma join_comma_len l : zlen (join_comma l) = total_len l + Z.max 0 (zlen l - 1).
Proof.
  induction l as [|x [|y l] IH]; [done | cbn; unfold zlen; cbn; lia |].
  change (join_comma (x :: y :: l)) with (x ++ [x2c] ++ join_comma (y :: l)).
  rewrite !zlen_app, IH. change (total_len (x :: y :: l)) with (zlen x + total_len (y :: l)).
  rewrite !zlen_cons. change (zlen (@nil byte)) with 0. pose proof (zlen_nonneg l). lia.
Qed.

Lemma total_len_app l k : total_len (l ++ k) = total_len l + total_len k.
Proof. induction l as [|x l IH]; [done|]. simpl. rewrite IH. lia. Qed.

Lemma total_len_nonneg l : 0 <= total_len l.
Proof. induction l as [|x l IH]; simpl; [lia|]. pose proof (zlen_nonneg x). lia. Qed.

Lemma json_array_len l : zlen (json_array l) = 2 + total_len l + Z.max 0 (zlen l - 1).
Proof.
  unfold json_array. rewrite !zlen_app, join_comma_len.
  change (zlen [x5b]) with 1. change (zlen [x5d]) with 1. lia.
Qed.

Lemma json_object_len l :
  zlen (json_object l) = 2 + total_len (map json_member l) + Z.max 0 (zlen l - 1).
Proof.
  unfold json_object. rewrite !zlen_app, join_comma_len.
  change (zlen [x7b]) with 1. change (zlen [x7d]) with 1. unfold zlen. rewrite length_map. lia.
Qed.

Lemma json_string_len s : zlen (json_string s) = 2 + zlen (json_text s).
Proof. unfold json_string. rewrite !zlen_app. change (zlen [x22]) with 1. lia. Qed.

Lemma json_member_len m : zlen (json_member m) = 3 + zlen (json_text m.1) + zlen m.2.
Proof. unfold json_member. rewrite !zlen_app, json_string_len. change (zlen [x3a]) with 1. lia. Qed.

(** The sorted entries are the map's. *)
Lemma sorted_entries_perm {A} (m : gmap gostr A) : sorted_entries m ≡ₚ map_to_list m.
Proof.
  unfold sorted_entries. rewrite (sort_strings_perm _).
  assert (Hin : forall l : list (gostr * A), (forall k v, (k, v) ∈ l -> m !! k = Some v) ->
            omap (fun k => pair k <$> m !! k) (map fst l) = l).
  { induction l as [|[k v] l IH]; intros Hl; [done|]. simpl. rewrite (Hl k v) by left. simpl.
    f_equal. apply IH. intros k' v' Hin. apply Hl. by right. }
  rewrite Hin; [done|]. intros k v Hkv. by apply elem_of_map_to_list.
Qed.

(** * Requests and responses of the write API ([pkg/wire/types.go])

    The records, the response's bookkeeping of rejections, and the JSON
    body of a write request. *)


Record SetMeta : Type := {
  sm_Set : gostr;
  sm_RetentionMs : option Z;
  sm_ShardMs : option Z;
  sm_KeyScheme : gostr;
}.

Record FieldMeta : Type := {
  fm_Set : gostr;
  fm_Field : gostr;
  fm_Kind : gostr;
  fm_Unit : gostr;
  fm_UnitHint : gostr;
  fm_Description : gostr;
  fm_MaxIntervalMs : Z;
  fm_MaxIntervalS : Z;
  fm_LimitMin : option f64;
  fm_LimitMax : option f64;
  fm_BucketSet : gostr;
  fm_BucketIndex : Z;
  fm_BucketEdge : f64;
}.

Record Rejection : Type := { rj_Index : Z; rj_Reason : gostr }.

Record WriteResponse : Type := {
  wr_Accepted : Z;
  wr_Duplicate : bool;
  wr_Rejected : list Rejection;
  wr_RejectedCount : Z;
  wr_CatalogueVersion : Z;
  wr_Durable : bool;
}.

Definition MaxReportedRejections : Z := 100.

Definition Reject (index : Z) (reason : gostr) (r : WriteResponse) : WriteResponse :=
  {| wr_Accepted := wr_Accepted r; wr_Duplicate := wr_Duplicate r;
     wr_Rejected := if zlen (wr_Rejected r) <? MaxReportedRejections
                    then wr_Rejected r ++ [{| rj_Index := index; rj_Reason := reason |}]
                    else wr_Rejected r;
     wr_RejectedCount := i64 (wr_RejectedCount r + 1);
     wr_CatalogueVersion := wr_CatalogueVersion r; wr_Durable := wr_Durable r |}.

Definition Refused (r : WriteResponse) : Z :=
  if wr_RejectedCount r >? zlen (wr_Rejected r) then wr_RejectedCount r else zlen (wr_Rejected r).

(** ** The JSON body

    [omitempty] leaves an empty text, a zero number, an empty map and a nil
    pointer out. *)

Section Json.
Context `{JsonFloat}.

Definition omit (name value : gostr) (empty : bool) : list (gostr * gostr) :=
  if empty then [] else [(name, value)].
Definition omit_text (name s : gostr) : list (gostr * gostr) := omit name (json_string s) (bytes_eqb s []).
Definition omit_int (name : gostr) (n : Z) : list (gostr * gostr) := omit name (FormatInt n) (n =? 0).
Definition omit_ptr {A} (enc : A -> gostr) (name : gostr) (o : option A) : list (gostr * gostr) :=
  match o with None => [] | Some x => [(name, enc x)] end.

(** [Value.MarshalJSON]. *)
Definition json_value (v : Value) : option gostr :=
  match v with
  | VInt i => Some (json_object [(bs "i", FormatInt i)])
  | VFloat f => if isFinite f then Some (json_object [(bs "f", json_float f)]) else None
  | VString s => Some (json_object [(bs "s", json_string s)])
  | VBool b => Some (json_object [(bs "b", if b then bs "true" else bs "false")])
  | VInvalid => None
  end.

Definition json_labels (m : gmap gostr gostr) : gostr :=
  json_object (map (fun kv => (kv.1, json_string kv.2)) (sorted_entries m)).

Definition json_fields (m : gmap gostr Value) : option gostr :=
  json_object <$> mapM (fun kv : gostr * Value => pair kv.1 <$> json_value kv.2) (sorted_entries m).

Definition json_sample (s : Sample) : option gostr :=
  fields ← json_fields (Fields s);
  Some (json_object (
    [(bs "ts_ms", FormatInt (TSMs s))]
    ++ omit_int (bs "sub_us") (SubUS s)
    ++ omit (bs "labels") (json_labels (Labels s)) (bool_decide (Labels s = ∅))
    ++ [(bs "fields", fields)]
    ++ omit_text (bs "key_hint") (KeyHint s))).

Definition json_batch (b : gostr * list Sample) : option gostr :=
  samples ← mapM json_sample b.2;
  Some (json_object [(bs "set", json_string b.1); (bs "samples", json_array samples)]).

Definition json_field_meta (m : FieldMeta) : gostr :=
  json_object (
    [(bs "set", json_string (fm_Set m)); (bs "field", json_string (fm_Field m))]
    ++ omit_text (bs "kind") (fm_Kind m)
    ++ omit_text (bs "unit") (fm_Unit m)
    ++ omit_text (bs "unit_hint") (fm_UnitHint m)
    ++ omit_text (bs "description") (fm_Description m)
    ++ omit_int (bs "max_interval_ms") (fm_MaxIntervalMs m)
    ++ omit_int (bs "max_interval_s") (fm_MaxIntervalS m)
    ++ omit_ptr json_float (bs "limit_min") (fm_LimitMin m)
    ++ omit_ptr json_float (bs "limit_max") (fm_LimitMax m)
    ++ omit_text (bs "bucket_set") (fm_BucketSet m)
    ++ omit_int (bs "bucket_index") (fm_BucketIndex m)
    ++ omit (bs "bucket_edge") (json_float (fm_BucketEdge m)) (feqb (fm_BucketEdge m) f_zero)).

(** A float that is not finite makes the whole array fail. *)
Definition meta_finite (m : FieldMeta) : bool :=
  isFinite (fm_BucketEdge m) && match fm_LimitMin m with Some f => isFinite f | None => true end &&
  match fm_LimitMax m with Some f => isFinite f | None => true end.

Definition json_field_metas (l : list FieldMeta) : option gostr :=
  if forallb meta_finite l then Some (json_array (map json_field_meta l)) else None.

Definition json_set_meta (m : SetMeta) : gostr :=
  json_object (
    [(bs "set", json_string (sm_Set m))]
    ++ omit_ptr FormatInt (bs "retention_ms") (sm_RetentionMs m)
    ++ omit_ptr FormatInt (bs "shard_ms") (sm_ShardMs m)
    ++ omit_text (bs "key_scheme") (sm_KeyScheme m)).

Definition json_set_metas (l : list SetMeta) : gostr := json_array (map json_set_meta l).

Definition empty_list {A} (l : list A) : bool := match l with [] => true | _ => false end.

Definition json_request (meta : list FieldMeta) (sets : list SetMeta) (batches : list (gostr * list Sample)) : option gostr :=
  bodies ← mapM json_batch batches;
  metas ← json_field_metas meta;
  Some (json_object (
    omit (bs "field_meta") metas (empty_list meta)
    ++ omit (bs "set_meta") (json_set_metas sets) (empty_list sets)
    ++ [(bs "batches", json_array bodies)])).
End Json.
