(* ===== verification/MqlAst.v ===== *)
(** * MqlAst: the query language's syntax tree

    [pkg/mql/ast.go] and the structural checks of [pkg/mql/validate.go]: the
    one place a query exists in both its forms, JSON and text.  The tree
    admits more than the grammar can write -- a predicate node with two
    arms, an empty list -- and the checks here say which trees those are. *)

From Stdlib Require Import ZArith Lia Bool.
From Stdlib Require Import Strings.Byte Strings.String.
From S2P Require Import Prelude Bytes Float64 GoStd.

(** ** The tree *)

(** [Format] and [Kind] are Go string types: a tree may carry any text. *)
Definition Format : Type := gostr.
Definition FormatTimeseries : Format := bs "timeseries".
Definition FormatTable : Format := bs "table".
Definition FormatHeatmap : Format := bs "heatmap".
Definition FormatLogs : Format := bs "logs".

Definition Kind : Type := gostr.
Definition KindQuery : Kind := bs "query".
Definition KindSets : Kind := bs "sets".
Definition KindFields : Kind := bs "fields".
Definition KindLabels : Kind := bs "labels".
Definition KindLabelKeys : Kind := bs "label_keys".

Record Limits := { li_Series : option Z; li_Points : option Z }.
Record Clamp := { cl_Min : option f64; cl_Max : option f64; cl_Else : gostr }.
Record SSE := { ss_Mode : gostr; ss_Value : f64 }.

Record Modifiers := {
  m_Delta : bool;
  m_PerSecond : bool;
  m_Negate : bool;
  m_Required : bool;
  m_GapMs : option Z;
  m_Clamp : option Clamp;
  m_SSE : option SSE;
}.
Definition no_modifiers : Modifiers :=
  {| m_Delta := false; m_PerSecond := false; m_Negate := false; m_Required := false;
     m_GapMs := None; m_Clamp := None; m_SSE := None |}.

Record FieldExpr := { fe_Field : gostr; fe_Histogram : gostr; fe_As : gostr; fe_Modifiers : Modifiers }.

Record Compare := { c_Label : gostr; c_Value : gostr; c_Literal : bool }.
Record InList := { in_Label : gostr; in_Values : list gostr; in_Literal : list bool }.
Record MatchExpr := { mx_Label : gostr; mx_Regex : gostr }.

(** A node holds every arm of the union at once; that exactly one is set is
    a property, not a type. *)
Inductive Expr : Type :=
| mkExpr (And Or : list Expr) (Not : option Expr) (Eq Ne : option Compare) (In : option InList)
         (Match NoMatch : option MatchExpr) (Has Missing : gostr).

Definition e_And (e : Expr) := let '(mkExpr a _ _ _ _ _ _ _ _ _) := e in a.
Definition e_Or (e : Expr) := let '(mkExpr _ o _ _ _ _ _ _ _ _) := e in o.
Definition e_Not (e : Expr) := let '(mkExpr _ _ n _ _ _ _ _ _ _) := e in n.
Definition e_Eq (e : Expr) := let '(mkExpr _ _ _ x _ _ _ _ _ _) := e in x.
Definition e_Ne (e : Expr) := let '(mkExpr _ _ _ _ x _ _ _ _ _) := e in x.
Definition e_In (e : Expr) := let '(mkExpr _ _ _ _ _ x _ _ _ _) := e in x.
Definition e_Match (e : Expr) := let '(mkExpr _ _ _ _ _ _ x _ _ _) := e in x.
Definition e_NoMatch (e : Expr) := let '(mkExpr _ _ _ _ _ _ _ x _ _) := e in x.
Definition e_Has (e : Expr) := let '(mkExpr _ _ _ _ _ _ _ _ x _) := e in x.
Definition e_Missing (e : Expr) := let '(mkExpr _ _ _ _ _ _ _ _ _ x) := e in x.

(** Induction through the arms of a node. *)
Lemma mql_Expr_ind (P : Expr -> Prop) :
  (forall ands ors nt eq ne il m nm has missing, Forall P ands -> Forall P ors -> match nt with Some e => P e | None => True end ->
     P (mkExpr ands ors nt eq ne il m nm has missing)) ->
  forall e, P e.
Proof.
  intros Hnode. fix IH 1. intros [ands ors nt eq ne il m nm has missing]. apply Hnode.
  - induction ands; constructor; auto.
  - induction ors; constructor; auto.
  - destruct nt; [apply IH | done].
Qed.

(** The composite literals the code writes: [Expr{And: l}] and the like. *)
Definition EmptyE : Expr := mkExpr [] [] None None None None None None [] [].
Definition AndE (l : list Expr) : Expr := mkExpr l [] None None None None None None [] [].
Definition OrE (l : list Expr) : Expr := mkExpr [] l None None None None None None [] [].
Definition NotE (e : Expr) : Expr := mkExpr [] [] (Some e) None None None None None [] [].
Definition EqE (c : Compare) : Expr := mkExpr [] [] None (Some c) None None None None [] [].
Definition NeE (c : Compare) : Expr := mkExpr [] [] None None (Some c) None None None [] [].
Definition InE (l : InList) : Expr := mkExpr [] [] None None None (Some l) None None [] [].
Definition MatchE (m : MatchExpr) : Expr := mkExpr [] [] None None None None (Some m) None [] [].
Definition NoMatchE (m : MatchExpr) : Expr := mkExpr [] [] None None None None None (Some m) [] [].
Definition HasE (n : gostr) : Expr := mkExpr [] [] None None None None None None n [].
Definition MissingE (n : gostr) : Expr := mkExpr [] [] None None None None None None [] n.

Record Query := {
  q_Kind : Kind;
  q_From : gostr;
  q_Select : list FieldExpr;
  q_Where : Expr;
  q_By : list gostr;
  q_EveryMs : option Z;
  q_Format : Format;
  q_Limits : Limits;
  q_Label : gostr;
}.
Definition no_limits : Limits := {| li_Series := None; li_Points := None |}.
(** [&Query{Kind: k}] *)
Definition blank_query (k : Kind) : Query :=
  {| q_Kind := k; q_From := []; q_Select := []; q_Where := EmptyE; q_By := []; q_EveryMs := None;
     q_Format := []; q_Limits := no_limits; q_Label := [] |}.

(** ** Queries on the tree *)

Definition is_nil {A} (l : list A) : bool := match l with [] => true | _ => false end.
Definition is_none {A} (o : option A) : bool := match o with None => true | _ => false end.

Definition FieldExpr_Name (f : FieldExpr) : gostr :=
  if negb (is_nil (fe_As f)) then fe_As f
  else if negb (is_nil (fe_Histogram f)) then fe_Histogram f
  else fe_Field f.

Definition Expr_Empty (e : Expr) : bool :=
  is_nil (e_And e) && is_nil (e_Or e) && is_none (e_Not e) && is_none (e_Eq e) &&
  is_none (e_Ne e) && is_none (e_In e) && is_none (e_Match e) && is_none (e_NoMatch e) &&
  is_nil (e_Has e) && is_nil (e_Missing e).

Definition arms (e : Expr) : Z :=
  zlen (filter (fun b : bool => b = true)
    [negb (is_nil (e_And e)); negb (is_nil (e_Or e)); negb (is_none (e_Not e)); negb (is_none (e_Eq e));
     negb (is_none (e_Ne e)); negb (is_none (e_In e)); negb (is_none (e_Match e)); negb (is_none (e_NoMatch e));
     negb (is_nil (e_Has e)); negb (is_nil (e_Missing e))]).

(** The part of [Query.MarshalJSON] that is not [encoding/json]. *)
Definition marshal_defaults (q : Query) : Query :=
  {| q_Kind := if is_nil (q_Kind q) then KindQuery else q_Kind q;
     q_From := q_From q; q_Select := q_Select q; q_Where := q_Where q; q_By := q_By q;
     q_EveryMs := q_EveryMs q;
     q_Format := if is_nil (q_Format q) then FormatTimeseries else q_Format q;
     q_Limits := q_Limits q; q_Label := q_Label q |}.

(** ** The structural bounds *)

Definition MaxPredicateDepth : Z := 64.
Definition MaxPredicateNodes : Z := 1024.
Definition MaxSelectFields : Z := 1024.
Definition MaxByLabels : Z := 64.

Inductive shape_err := TooDeep | TooMany.

(** [predicateShapeOK]: threads the node budget; a failure is the verdict
    of the whole walk. *)
Fixpoint predicateShapeOK (e : Expr) (depth budget : Z) : result shape_err Z :=
  let walk_list :=
    fix walk_list (l : list Expr) (depth budget : Z) : result shape_err Z :=
      match l with
      | [] => Ok budget
      | sub :: rest => try b <- predicateShapeOK sub depth budget; walk_list rest depth b
      end in
  let '(mkExpr ands ors nt _ _ _ _ _ _ _) := e in
  if Expr_Empty e then Ok budget
  else if depth >=? MaxPredicateDepth then Err TooDeep
  else
    let budget := budget - 1 in
    if budget <? 0 then Err TooMany
    else
      try b <- walk_list ands (depth + 1) budget;
      try b <- walk_list ors (depth + 1) b;
      match nt with
      | Some sub => predicateShapeOK sub (depth + 1) b
      | None => Ok b
      end.

Definition checkPredicateShape (e : Expr) : result shape_err unit :=
  check predicateShapeOK e 0 MaxPredicateNodes; Ok tt.

Definition CheckPredicateDepth (q : option Query) : result shape_err unit :=
  match q with None => Ok tt | Some q => checkPredicateShape (q_Where q) end.

(** [modifierNames], as the canonical spellings. *)
Definition modifierNames (m : Modifiers) : list gostr :=
  (if m_Delta m && m_PerSecond m then [bs "RATE"]
   else if m_Delta m then [bs "DELTA"]
   else if m_PerSecond m then [bs "PER SECOND"] else []) ++
  (if m_Negate m then [bs "NEGATE"] else []) ++
  (if negb (is_none (m_Clamp m)) then [bs "CLAMP"] else []) ++
  (if negb (is_none (m_GapMs m)) then [bs "GAP"] else []) ++
  (if negb (is_none (m_SSE m)) then [bs "SSE"] else []) ++
  (if m_Required m then [bs "REQUIRED"] else []).

(** [checkUnusedClauses]: the clause a query of an auxiliary kind carries
    and does not read, as its [E008] names it. *)
Inductive unused_clause :=
| UFrom | ULabel | USelect | UWhere | UBy | UEvery | UFormat | USeries | UPoints.
#[export] Instance unused_clause_eq_dec : EqDecision unused_clause.
Proof. solve_decision. Defined.
Definition checkUnusedClauses (q : Query) : option unused_clause :=
  if is_nil (q_Kind q) || bytes_eqb (q_Kind q) KindQuery then None
  else if negb (is_nil (q_From q)) && negb (bytes_eqb (q_Kind q) KindFields) && negb (bytes_eqb (q_Kind q) KindLabelKeys)
  then Some UFrom
  else if negb (is_nil (q_Label q)) && negb (bytes_eqb (q_Kind q) KindLabels) then Some ULabel
  else if negb (is_nil (q_Select q)) then Some USelect
  else if negb (Expr_Empty (q_Where q)) && negb (bytes_eqb (q_Kind q) KindLabels) then Some UWhere
  else if negb (is_nil (q_By q)) then Some UBy
  else if negb (is_none (q_EveryMs q)) then Some UEvery
  else if negb (is_nil (q_Format q)) && negb (bytes_eqb (q_Format q) FormatTimeseries) then Some UFormat
  else if negb (is_none (li_Series (q_Limits q))) then Some USeries
  else if negb (is_none (li_Points (q_Limits q))) then Some UPoints
  else None.
