(* ===== verification/MqlLex.v ===== *)
(** * MqlLex: the lexer of the query language

    [pkg/mql/lex.go].  The lexer's state is the text still to read; a
    token's position is what has been read of the source.  Every scanning
    loop of the source is a function here that splits the text it is given
    into what it takes and what it leaves. *)

From Stdlib Require Import ZArith Lia Bool.
From Stdlib Require Import Strings.Byte Strings.String.
From S2P Require Import Prelude Bytes Float64 GoStd MqlAst.

Inductive tokKind :=
| tokEOF | tokIdent | tokKeyword | tokString | tokNumber | tokDuration | tokRegex | tokVariable | tokPunct.
#[export] Instance tokKind_eq_dec : EqDecision tokKind.
Proof. solve_decision. Defined.

Record token := { tk_kind : tokKind; tk_text : gostr; tk_pos : Z }.

Definition keywords : list gostr := map bs
  ["FROM"; "SELECT"; "WHERE"; "BY"; "EVERY"; "FORMAT"; "LIMIT"; "AS"; "AND"; "OR"; "NOT"; "IN"; "HAS"; "MISSING";
   "DELTA"; "PER"; "SECOND"; "RATE"; "NEGATE"; "REQUIRED"; "GAP"; "SSE"; "CLAMP"; "MIN"; "MAX"; "ELSE"; "RAW";
   "BOUND"; "REPEAT"; "OFF"; "SERIES"; "POINTS"; "HISTOGRAM"; "SETS"; "FIELDS"; "LABELS"; "LABEL"; "KEYS"]%string.
Definition is_keyword (s : gostr) : bool := existsb (bytes_eqb s) keywords.

(** What the lexer's and the parser's messages say. *)
Inductive mql_msg :=
| QueryTooLong (len : Z)
| UnterminatedVariable | EmptyVariable | ExpectedNe | UnexpectedChar (s : gostr) | UnterminatedLiteral
| Expected (what : gostr) (found : token)
| ExpectedHere (what : gostr)
| EmptyName (what : gostr)
| AfterEnd (found : token)
| TooManyClauses | NestsTooDeep
| UnknownFormat (f : gostr)
| GivenTwice (what : gostr)
| AlsoSets (what other : gostr)
| ClampComma (bound : gostr)
| ClampNeedsBound
| NotANumber (text : gostr) | NotWhole (text : gostr)
| BadDuration (text : gostr) | BadDurationUnit (text : gostr) | DurationNeedsUnit (text : gostr)
| DurationRange (text : gostr)
| ExpectedOperator (label : gostr).

(** A failed lex or parse: a positioned [ParseError], a [fmt.Errorf]
    without a position, an index past the token slice (a run-time panic),
    and the fuel of this model, which the theorems show is never short. *)
Inductive mql_err :=
| ParseError (pos : Z) (msg : mql_msg)
| PlainError (msg : mql_msg)
| IndexPanic
| OutOfFuel.

Definition MaxQueryBytes : Z := 1048576.
Definition MaxRegexBytes : Z := 8192.

Section Lex.
Context `{Unicode}.

Definition isIdentStart (r : Z) : bool := (r =? 95) || IsLetter r.
Definition isIdentRune (r : Z) : bool :=
  (r =? 95) || (r =? 46) || (r =? 45) || IsLetter r || IsDigit r.

Definition is_digit (b : byte) : bool := ascii_digit (b2z b).

(** [scanIdent]: the run of identifier runes at the head of the text. *)
Fixpoint scanIdent_loop (fuel : nat) (s : gostr) : gostr * gostr :=
  match fuel, s with
  | O, _ | _, [] => ([], s)
  | S f, _ =>
      let '(r, size) := DecodeRune s in
      if (r =? RuneError) && (size <=? 1) then ([], s)
      else if negb (isIdentRune r) then ([], s)
      else
        let n := Z.to_nat size in
        let '(w, rest) := scanIdent_loop f (drop n s) in
        (take n s ++ w, rest)
  end.
Definition scanIdent (s : gostr) : gostr * gostr := scanIdent_loop (length s) s.

Definition peekDigit (s : gostr) : bool :=
  match s with b :: _ => is_digit b | [] => false end.

(** The digits of a number, with one decimal point at most. *)
Fixpoint scan_number (seenDot : bool) (s : gostr) : gostr * gostr :=
  match s with
  | c :: t =>
      if is_digit c then let '(w, rest) := scan_number seenDot t in (c :: w, rest)
      else if byte_eqb c x2e && negb seenDot then let '(w, rest) := scan_number true t in (c :: w, rest)
      else ([], s)
  | [] => ([], [])
  end.
Fixpoint scan_digits (s : gostr) : gostr * gostr :=
  match s with
  | c :: t => if is_digit c then let '(w, rest) := scan_digits t in (c :: w, rest) else ([], s)
  | [] => ([], [])
  end.

Definition is_sign (c : byte) : bool := byte_eqb c x2d || byte_eqb c x2b.
Definition scan_sign (s : gostr) : gostr * gostr :=
  match s with
  | c :: t => if is_sign c then ([c], t) else ([], s)
  | [] => ([], [])
  end.

(** A complete exponent: [e], an optional sign, a digit at least. *)
Definition scan_exponent (s : gostr) : option (gostr * gostr) :=
  match s with
  | c :: t =>
      if byte_eqb c x65 || byte_eqb c x45 then
        let '(sg, t1) := scan_sign t in
        let '(ds, t2) := scan_digits t1 in
        match ds with [] => None | _ => Some (c :: sg ++ ds, t2) end
      else None
  | [] => None
  end.

(** The unit: the run of letters, rune by rune. *)
Fixpoint scan_unit_loop (fuel : nat) (s : gostr) : gostr * gostr :=
  match fuel, s with
  | O, _ | _, [] => ([], s)
  | S f, _ =>
      let '(r, w) := DecodeRune s in
      if negb (IsLetter r) then ([], s)
      else
        let n := Z.to_nat w in
        let '(u, rest) := scan_unit_loop f (drop n s) in
        (take n s ++ u, rest)
  end.
Definition scan_unit (s : gostr) : gostr * gostr := scan_unit_loop (length s) s.

Definition is_unit (u : gostr) : bool :=
  existsb (bytes_eqb u) (map bs ["ms"; "s"; "m"; "h"; "d"]%string).

(** [lexNumber]: the kind, the text and what is left. *)
Definition lexNumber (s : gostr) : tokKind * gostr * gostr :=
  let '(sg, s1) := scan_sign s in
  let '(ds, s2) := scan_number false s1 in
  match scan_exponent s2 with
  | Some (ex, s3) => (tokNumber, sg ++ ds ++ ex, s3)
  | None =>
      let '(u, s3) := scan_unit s2 in
      if is_unit u then (tokDuration, sg ++ ds ++ u, s3)
      else if is_nil u then (tokNumber, sg ++ ds, s2)
      else (tokNumber, sg ++ ds, s2)
  end.

(** What [lexQuoted] makes of the character after a backslash. *)
Definition decode_escape (delim d : byte) : gostr :=
  if byte_eqb d x6e then [x0a]
  else if byte_eqb d x74 then [x09]
  else if byte_eqb d x72 then [x0d]
  else if byte_eqb d x5c then [x5c]
  else if byte_eqb d delim then [delim]
  else [x5c; d].

(** The loop of [lexQuoted], past the opening delimiter; [None] is the
    unterminated literal. *)
Fixpoint lexQuoted_loop (delim : byte) (s acc : gostr) : option (gostr * gostr) :=
  match s with
  | [] => None
  | c :: t =>
      match t with
      | d :: t' =>
          if byte_eqb c x5c then lexQuoted_loop delim t' (acc ++ decode_escape delim d)
          else if byte_eqb c delim then Some (acc, t)
          else lexQuoted_loop delim t (acc ++ [c])
      | [] => if byte_eqb c delim then Some (acc, t) else lexQuoted_loop delim t (acc ++ [c])
      end
  end.
Definition lexQuoted (delim : byte) (s : gostr) : option (gostr * gostr) :=
  lexQuoted_loop delim (drop 1 s) [].

Fixpoint skip_line (s : gostr) : gostr :=
  match s with
  | c :: t => if byte_eqb c x0a then s else skip_line t
  | [] => []
  end.
Definition is_space (c : byte) : bool :=
  byte_eqb c x20 || byte_eqb c x09 || byte_eqb c x0a || byte_eqb c x0d.
Fixpoint skip_loop (fuel : nat) (s : gostr) : gostr :=
  match fuel, s with
  | O, _ | _, [] => s
  | S f, c :: t =>
      if is_space c then skip_loop f t
      else match t with
           | d :: _ => if byte_eqb c x2d && byte_eqb d x2d then skip_loop f (skip_line s) else s
           | [] => s
           end
  end.
Definition skipSpaceAndComments (s : gostr) : gostr := skip_loop (length s) s.

(** [$name] or [${name}], past the dollar. *)
Definition lex_variable (start : Z) (t : gostr) : result mql_err (tokKind * gostr * gostr) :=
  let '(braced, t1) := match t with b :: t' => if byte_eqb b x7b then (true, t') else (false, t) | [] => (false, t) end in
  let '(name, t2) := scanIdent t1 in
  try t3 <- (if braced : bool then
               match t2 with
               | b :: t' => if byte_eqb b x7d then Ok t' else Err (ParseError start UnterminatedVariable)
               | [] => Err (ParseError start UnterminatedVariable)
               end
             else Ok t2);
  if is_nil name then Err (ParseError start EmptyVariable) else Ok (tokVariable, name, t3).

(** The token at the head of a text that starts with neither space nor
    comment, and what follows it. *)
Definition lex_token (start : Z) (s : gostr) : result mql_err (tokKind * gostr * gostr) :=
  match s with
  | [] => Ok (tokEOF, [], [])
  | c :: t =>
      let '(r, size) := DecodeRune s in
      if byte_eqb c x22 then
        match lexQuoted x22 s with
        | Some (w, rest) => Ok (tokString, w, rest)
        | None => Err (ParseError start UnterminatedLiteral)
        end
      else if byte_eqb c x2f then
        match lexQuoted x2f s with
        | Some (w, rest) => Ok (tokRegex, w, rest)
        | None => Err (ParseError start UnterminatedLiteral)
        end
      else if byte_eqb c x24 then lex_variable start t
      else if is_digit c || (byte_eqb c x2d && peekDigit t) || (byte_eqb c x2b && peekDigit t) then Ok (lexNumber s)
      else if isIdentStart r then
        let '(word, rest) := scanIdent s in
        if is_keyword (ToUpper word) then Ok (tokKeyword, ToUpper word, rest)
        else Ok (tokIdent, word, rest)
      else if byte_eqb c x2c || byte_eqb c x28 || byte_eqb c x29 then Ok (tokPunct, [c], t)
      else if byte_eqb c x3d then
        match t with
        | d :: t' => if byte_eqb d x7e then Ok (tokPunct, bs "=~", t') else Ok (tokPunct, bs "=", t)
        | [] => Ok (tokPunct, bs "=", t)
        end
      else if byte_eqb c x21 then
        match t with
        | d :: t' => if byte_eqb d x3d || byte_eqb d x7e then Ok (tokPunct, [x21; d], t')
                     else Err (ParseError start ExpectedNe)
        | [] => Err (ParseError start ExpectedNe)
        end
      else Err (ParseError start (UnexpectedChar (take (Z.to_nat size) s)))
  end.

(** The loop of [lex]; [total] is the length of the source. *)
Fixpoint lex_loop (fuel : nat) (total : Z) (s : gostr) : result mql_err (list token) :=
  match fuel with
  | O => Err OutOfFuel
  | S f =>
      let s := skipSpaceAndComments s in
      let start := total - zlen s in
      match s with
      | [] => Ok [{| tk_kind := tokEOF; tk_text := []; tk_pos := start |}]
      | _ =>
          try '(k, w, rest) <- lex_token start s;
          try toks <- lex_loop f total rest;
          Ok ({| tk_kind := k; tk_text := w; tk_pos := start |} :: toks)
      end
  end.

(** Every token takes a byte, so the source's length bounds the loop. *)
Definition lex (src : gostr) : result mql_err (list token) :=
  if zlen src >? MaxQueryBytes then Err (ParseError 0 (QueryTooLong (zlen src)))
  else lex_loop (S (length src)) (zlen src) src.

(** [IsVariable] of [validate.go]. *)
Definition ident_runes (l : list (Z * Z)) : bool :=
  forallb (fun ir : Z * Z => if ir.1 =? 0 then isIdentStart ir.2 else isIdentRune ir.2) l.
Definition IsVariable (v : gostr) : bool :=
  match v with
  | b :: name => if byte_eqb b x24 && negb (is_nil name) then ident_runes (runes name) else false
  | [] => false
  end.
End Lex.
