(* ===== verification/MqlPrint.v ===== *)
(** * MqlPrint: canonical text

    [pkg/mql/print.go]: the text of a tree, in the one spelling the grammar
    reads back. *)

From Stdlib Require Import ZArith Lia Bool.
From Stdlib Require Import Strings.Byte Strings.String.
From S2P Require Import Prelude Bytes Float64 GoStd MqlAst MqlLex.

(** [strings.Join] *)
Fixpoint Join (sep : gostr) (parts : list gostr) : gostr :=
  match parts with
  | [] => []
  | [p] => p
  | p :: rest => p ++ sep ++ Join sep rest
  end.

(** ** Literals *)

Definition quote_byte (c : byte) : gostr :=
  if byte_eqb c x5c then [x5c; x5c]
  else if byte_eqb c x22 then [x5c; x22]
  else if byte_eqb c x0a then [x5c; x6e]
  else if byte_eqb c x09 then [x5c; x74]
  else if byte_eqb c x0d then [x5c; x72]
  else [c].
Definition quoteMQL (s : gostr) : gostr := [x22] ++ concat (map quote_byte s) ++ [x22].

Definition lexerDecodesEscape (c : byte) : bool :=
  byte_eqb c x6e || byte_eqb c x74 || byte_eqb c x72 || byte_eqb c x5c || byte_eqb c x2f.

Fixpoint escapeRegex (re : gostr) : gostr :=
  match re with
  | [] => []
  | c :: t =>
      (if byte_eqb c x2f then [x5c; x2f]
       else if byte_eqb c x5c then
         match t with
         | [] => [x5c; x5c]
         | d :: _ => if lexerDecodesEscape d then [x5c; x5c] else [x5c]
         end
       else [c]) ++ escapeRegex t
  end.

Definition wrap (s : gostr) (nested : bool) : gostr := if nested then bs "(" ++ s ++ bs ")" else s.

(** [printDuration]: the largest unit that divides the value. *)
Definition printDuration (ms : Z) : gostr :=
  if ms =? 0 then bs "0"
  else if ms %go 86400000 =? 0 then FormatInt (ms /go 86400000) ++ bs "d"
  else if ms %go 3600000 =? 0 then FormatInt (ms /go 3600000) ++ bs "h"
  else if ms %go 60000 =? 0 then FormatInt (ms /go 60000) ++ bs "m"
  else if ms %go 1000 =? 0 then FormatInt (ms /go 1000) ++ bs "s"
  else FormatInt ms ++ bs "ms".

(** [math.MaxFloat64] *)
Definition MaxFloat64 : f64 := SpecFloat.S754_finite false 9007199254740991 971.
Definition maxPlainFloatDigits : Z := 24.

Section Print.
Context `{Unicode} `{FloatText}.

Definition printFloat (f : f64) : gostr :=
  if IsNaN f then bs "0"
  else
    let f := if IsInf f then (if fgtb f f_zero then MaxFloat64 else fneg MaxFloat64) else f in
    let plain := FormatFloat_f f in
    if zlen plain <=? maxPlainFloatDigits then plain else FormatFloat_g f.

(** ** Names and values *)

Definition quoteIdent (s : gostr) : gostr :=
  if is_nil s then [x22; x22]
  else if is_keyword (ToUpper s) then quoteMQL s
  else if ident_runes (runes s) then s else quoteMQL s.

Definition printValue (v : gostr) (literal : bool) : gostr :=
  if IsVariable v && negb literal then v else quoteMQL v.

(** The values of an IN list: a short [Literal] reads as false. *)
Fixpoint printValues (vals : list gostr) (lits : list bool) : list gostr :=
  match vals with
  | [] => []
  | v :: vals' =>
      match lits with
      | [] => printValue v false :: printValues vals' []
      | l :: lits' => printValue v l :: printValues vals' lits'
      end
  end.

(** ** Predicates *)

Fixpoint printExpr (e : Expr) (nested : bool) : gostr :=
  let '(mkExpr ands ors nt eq ne il mt nm has missing) := e in
  if negb (is_nil ands) then
    wrap (Join (bs " AND ") (map (fun s => printExpr s true) ands)) nested
  else if negb (is_nil ors) then
    wrap (Join (bs " OR ") (map (fun s => printExpr s true) ors)) nested
  else
    match nt, eq, ne, il, mt, nm with
    | Some s, _, _, _, _, _ => bs "NOT " ++ printExpr s true
    | None, Some c, _, _, _, _ => quoteIdent (c_Label c) ++ bs " = " ++ printValue (c_Value c) (c_Literal c)
    | None, None, Some c, _, _, _ => quoteIdent (c_Label c) ++ bs " != " ++ printValue (c_Value c) (c_Literal c)
    | None, None, None, Some l, _, _ =>
        quoteIdent (in_Label l) ++ bs " IN (" ++ Join (bs ", ") (printValues (in_Values l) (in_Literal l)) ++ bs ")"
    | None, None, None, None, Some m, _ =>
        quoteIdent (mx_Label m) ++ bs " =~ /" ++ escapeRegex (mx_Regex m) ++ bs "/"
    | None, None, None, None, None, Some m =>
        quoteIdent (mx_Label m) ++ bs " !~ /" ++ escapeRegex (mx_Regex m) ++ bs "/"
    | None, None, None, None, None, None =>
        if negb (is_nil has) then bs "HAS " ++ quoteIdent has
        else if negb (is_nil missing) then bs "MISSING " ++ quoteIdent missing
        else []
    end.

(** ** Fields *)

Definition printClamp (c : Clamp) : gostr :=
  bs " CLAMP " ++
  Join (bs ", ")
    ((match cl_Min c with Some v => [bs "MIN " ++ printFloat v] | None => [] end) ++
     (match cl_Max c with Some v => [bs "MAX " ++ printFloat v] | None => [] end)) ++
  (if bytes_eqb (cl_Else c) (bs "raw") then bs " ELSE RAW" else []).

Definition printFieldExpr (fe : FieldExpr) : gostr :=
  let m := fe_Modifiers fe in
  (if negb (is_nil (fe_Histogram fe)) then bs "HISTOGRAM(" ++ quoteIdent (fe_Histogram fe) ++ bs ")"
   else quoteIdent (fe_Field fe)) ++
  (if m_Delta m && m_PerSecond m then bs " RATE"
   else if m_Delta m then bs " DELTA"
   else if m_PerSecond m then bs " PER SECOND" else []) ++
  (if m_Negate m then bs " NEGATE" else []) ++
  (match m_Clamp m with Some c => printClamp c | None => [] end) ++
  (match m_GapMs m with Some d => bs " GAP " ++ printDuration d | None => [] end) ++
  (match m_SSE m with
   | Some s =>
       if bytes_eqb (ss_Mode s) (bs "repeat") then bs " SSE REPEAT"
       else if bytes_eqb (ss_Mode s) (bs "off") then bs " SSE OFF"
       else bs " SSE " ++ printFloat (ss_Value s)
   | None => []
   end) ++
  (if m_Required m then bs " REQUIRED" else []) ++
  (if negb (is_nil (fe_As fe)) then bs " AS " ++ quoteMQL (fe_As fe) else []).

(** ** Queries *)

Definition NL : gostr := [x0a].
Definition printWhere (e : Expr) : gostr :=
  if negb (Expr_Empty e) then NL ++ bs "WHERE  " ++ printExpr e false else [].

Definition Print (q : Query) : gostr :=
  if bytes_eqb (q_Kind q) KindSets then bs "SETS"
  else if bytes_eqb (q_Kind q) KindFields then bs "FIELDS FROM " ++ quoteIdent (q_From q)
  else if bytes_eqb (q_Kind q) KindLabelKeys then bs "LABEL KEYS FROM " ++ quoteIdent (q_From q)
  else if bytes_eqb (q_Kind q) KindLabels then bs "LABELS " ++ quoteIdent (q_Label q) ++ printWhere (q_Where q)
  else
    bs "FROM   " ++ quoteIdent (q_From q) ++ NL ++
    bs "SELECT " ++ Join (bs "," ++ NL ++ bs "       ") (map printFieldExpr (q_Select q)) ++
    printWhere (q_Where q) ++
    (if negb (is_nil (q_By q)) then NL ++ bs "BY     " ++ Join (bs ", ") (map quoteIdent (q_By q)) else []) ++
    (match q_EveryMs q with Some d => NL ++ bs "EVERY  " ++ printDuration d | None => [] end) ++
    (if negb (is_nil (q_Format q)) && negb (bytes_eqb (q_Format q) FormatTimeseries)
     then NL ++ bs "FORMAT " ++ q_Format q else []) ++
    (let lims :=
       (match li_Series (q_Limits q) with Some n => [bs "SERIES " ++ FormatInt n] | None => [] end) ++
       (match li_Points (q_Limits q) with Some n => [bs "POINTS " ++ FormatInt n] | None => [] end) in
     if negb (is_nil lims) then NL ++ bs "LIMIT  " ++ Join (bs ", ") lims else []).
End Print.
