(* ===== verification/MqlParse.v ===== *)
(** * MqlParse: the parser of the query language

    [pkg/mql/parse.go]: recursive descent over the token slice.  The
    parser's [toks] and [i] are the tokens from [i] on; reading past the
    slice is [IndexPanic], which the theorems exclude.  Loops that consume
    a token per turn take the tokens left as fuel. *)

From Stdlib Require Import ZArith Lia Bool.
From Stdlib Require Import Strings.Byte Strings.String.
From S2P Require Import Prelude Bytes Float64 GoStd MqlAst MqlLex.

(** [W101]: the modifiers of the named field are out of canonical order. *)
Inductive Diag := W101 (field : gostr).

Record parser := {
  p_toks : list token;
  p_diags : list Diag;
  p_depth : Z;
  p_nodes : Z;
}.
Definition set_toks (l : list token) (p : parser) : parser :=
  {| p_toks := l; p_diags := p_diags p; p_depth := p_depth p; p_nodes := p_nodes p |}.
Definition set_diags (d : list Diag) (p : parser) : parser :=
  {| p_toks := p_toks p; p_diags := d; p_depth := p_depth p; p_nodes := p_nodes p |}.
Definition set_depth (d : Z) (p : parser) : parser :=
  {| p_toks := p_toks p; p_diags := p_diags p; p_depth := d; p_nodes := p_nodes p |}.
Definition set_nodes (n : Z) (p : parser) : parser :=
  {| p_toks := p_toks p; p_diags := p_diags p; p_depth := p_depth p; p_nodes := n |}.

(** ** The monad of parsing *)

Definition P (A : Type) : Type := parser -> result mql_err (A * parser).
#[export] Instance P_ret : MRet P := fun A a p => Ok (a, p).
#[export] Instance P_bind : MBind P := fun A B k m p =>
  match m p with
  | Ok (a, p') => k a p'
  | Err e => Err e
  end.

Definition get_p : P parser := fun p => Ok (p, p).
Definition modify_p (f : parser -> parser) : P unit := fun p => Ok (tt, f p).
Definition raise {A} (e : mql_err) : P A := fun _ => Err e.

Definition cur : P token := fun p =>
  match p_toks p with t :: _ => Ok (t, p) | [] => Err IndexPanic end.
(** [p.i++] *)
Definition advance : P unit := modify_p (fun p => set_toks (tail (p_toks p)) p).
Definition errf {A} (msg : mql_msg) : P A := t ← cur; raise (ParseError (tk_pos t) msg).

Definition is_tok (k : tokKind) (s : gostr) (t : token) : bool :=
  bool_decide (tk_kind t = k) && bytes_eqb (tk_text t) s.

Definition accept (k : tokKind) (s : gostr) : P bool :=
  t ← cur; if is_tok k s t then advance ;; mret true else mret false.
Definition acceptKeyword (kw : gostr) : P bool := accept tokKeyword kw.
Definition acceptPunct (s : gostr) : P bool := accept tokPunct s.
Definition expectKeyword (kw : gostr) : P unit :=
  ok ← acceptKeyword kw;
  if ok : bool then mret tt else t ← cur; errf (Expected kw t).
(** [if !p.acceptPunct(s) { return p.errf(...) }] *)
Definition expectPunct (s what : gostr) : P unit :=
  ok ← acceptPunct s;
  if ok : bool then mret tt else errf (ExpectedHere what).

Definition acceptCommaBefore (kws : list gostr) : P bool :=
  t ← cur;
  if negb (is_tok tokPunct (bs ",") t) then mret false
  else
    p ← get_p;
    match p_toks p with
    | _ :: next :: _ =>
        if existsb (fun kw => is_tok tokKeyword kw next) kws then advance ;; mret true else mret false
    | _ => raise IndexPanic
    end.

Definition countNode : P unit :=
  modify_p (fun p => set_nodes (p_nodes p + 1) p) ;;
  p ← get_p;
  if p_nodes p >? MaxPredicateNodes then errf TooManyClauses else mret tt.

Definition name (what : gostr) : P gostr :=
  t ← cur;
  if bool_decide (tk_kind t = tokIdent) || bool_decide (tk_kind t = tokString) then
    if is_nil (tk_text t) then errf (EmptyName what) else advance ;; mret (tk_text t)
  else errf (Expected what t).

(** [for { x; append; if !p.acceptPunct(",") { break } }] *)
Fixpoint comma_loop {A} (fuel : nat) (item : P A) (acc : list A) : P (list A) :=
  match fuel with
  | O => raise OutOfFuel
  | S f =>
      x ← item;
      more ← acceptPunct (bs ",");
      if more : bool then comma_loop f item (acc ++ [x]) else mret (acc ++ [x])
  end.
Definition comma_list {A} (item : P A) : P (list A) :=
  p ← get_p; comma_loop (S (length (p_toks p))) item [].

Section Parse.
Context `{Unicode} `{FloatText}.

(** ** Numbers and durations *)

Definition number : P f64 :=
  t ← cur;
  if negb (bool_decide (tk_kind t = tokNumber)) then errf (Expected (bs "a number") t)
  else
    match ParseFloat (tk_text t) with
    | None => errf (NotANumber (tk_text t))
    | Some f => advance ;; mret f
    end.

Definition integer : P Z :=
  t ← cur;
  if negb (bool_decide (tk_kind t = tokNumber)) then errf (Expected (bs "an integer") t)
  else
    match ParseInt (tk_text t) with
    | None => errf (NotWhole (tk_text t))
    | Some n => advance ;; mret n
    end.

(** 2^63 as a float *)
Definition maxIntFloat : f64 := of_int 9223372036854775808.

Definition scaleDuration (text : gostr) (n : f64) (unitMs : Z) : result mql_err Z :=
  let ms := fmul n (of_int unitMs) in
  if negb (fgeb ms (fneg maxIntFloat) && fltb ms maxIntFloat) then Err (PlainError (DurationRange text))
  else Ok (to_int ms).

Fixpoint scan_digits_dots (s : gostr) : gostr * gostr :=
  match s with
  | c :: t =>
      if is_digit c || byte_eqb c x2e then let '(w, rest) := scan_digits_dots t in (c :: w, rest) else ([], s)
  | [] => ([], [])
  end.

Definition ParseDuration (s : gostr) : result mql_err Z :=
  let '(sg, s1) := scan_sign s in
  let '(ds, u) := scan_digits_dots s1 in
  if is_nil ds then Err (PlainError (BadDuration s))
  else
    match ParseFloat (sg ++ ds) with
    | None => Err (PlainError (BadDuration s))
    | Some n =>
        if bytes_eqb u (bs "ms") then scaleDuration s n 1
        else if bytes_eqb u (bs "s") then scaleDuration s n 1000
        else if bytes_eqb u (bs "m") then scaleDuration s n 60000
        else if bytes_eqb u (bs "h") then scaleDuration s n 3600000
        else if bytes_eqb u (bs "d") then scaleDuration s n 86400000
        else if is_nil u then
          if feqb n f_zero then Ok 0 else Err (PlainError (DurationNeedsUnit s))
        else Err (PlainError (BadDurationUnit s))
    end.

Definition lift_r {A} (r : result mql_err A) : P A :=
  match r with Ok a => mret a | Err e => raise e end.

Definition duration : P Z :=
  t ← cur;
  if is_tok tokNumber (bs "0") t then advance ;; lift_r (ParseDuration (tk_text t))
  else if negb (bool_decide (tk_kind t = tokDuration)) then errf (Expected (bs "a duration such as 30s") t)
  else advance ;; lift_r (ParseDuration (tk_text t)).

(** ** Predicates *)

Definition valueOrVar : P (gostr * bool) :=
  t ← cur;
  match tk_kind t with
  | tokString => advance ;; mret (tk_text t, IsVariable (tk_text t))
  | tokIdent | tokNumber => advance ;; mret (tk_text t, false)
  | tokVariable => advance ;; mret (x24 :: tk_text t, false)
  | _ => errf (Expected (bs "a value") t)
  end.

Definition regex : P gostr :=
  t ← cur;
  if negb (bool_decide (tk_kind t = tokRegex)) then errf (Expected (bs "a /regex/") t)
  else advance ;; mret (tk_text t).

Definition parseIn (label : gostr) : P Expr :=
  expectPunct (bs "(") (bs "( after IN") ;;
  vls ← comma_list valueOrVar;
  expectPunct (bs ")") (bs ") to close IN") ;;
  mret (InE {| in_Label := label; in_Values := map fst vls;
               in_Literal := if existsb snd vls then map snd vls else [] |}).

(** The comparison of a label. *)
Definition parseCompare : P Expr :=
  label ← name (bs "a label key");
  eq ← acceptPunct (bs "=");
  if eq : bool then
    vl ← valueOrVar; mret (EqE {| c_Label := label; c_Value := vl.1; c_Literal := vl.2 |})
  else
    ne ← acceptPunct (bs "!=");
    if ne : bool then
      vl ← valueOrVar; mret (NeE {| c_Label := label; c_Value := vl.1; c_Literal := vl.2 |})
    else
      mt ← acceptPunct (bs "=~");
      if mt : bool then re ← regex; mret (MatchE {| mx_Label := label; mx_Regex := re |})
      else
        nm ← acceptPunct (bs "!~");
        if nm : bool then re ← regex; mret (NoMatchE {| mx_Label := label; mx_Regex := re |})
        else
          il ← acceptKeyword (bs "IN");
          if il : bool then parseIn label else errf (ExpectedOperator label).

(** Everything below [NOT] in [parseUnary]. *)
Definition parseLeaf : P Expr :=
  has ← acceptKeyword (bs "HAS");
  if has : bool then n ← name (bs "a field name"); mret (HasE n)
  else
    missing ← acceptKeyword (bs "MISSING");
    if missing : bool then n ← name (bs "a field or label name"); mret (MissingE n)
    else parseCompare.

Definition at_keyword (kw : gostr) : P bool := t ← cur; mret (is_tok tokKeyword kw t).

Fixpoint parseOr (fuel : nat) : P Expr :=
  match fuel with
  | O => raise OutOfFuel
  | S f =>
      left ← parseAnd f;
      more ← at_keyword (bs "OR");
      if negb more then mret left
      else terms ← orTerms f [left]; countNode ;; mret (OrE terms)
  end
with orTerms (fuel : nat) (terms : list Expr) : P (list Expr) :=
  match fuel with
  | O => raise OutOfFuel
  | S f =>
      more ← acceptKeyword (bs "OR");
      if more : bool then right ← parseAnd f; orTerms f (terms ++ [right]) else mret terms
  end
with parseAnd (fuel : nat) : P Expr :=
  match fuel with
  | O => raise OutOfFuel
  | S f =>
      left ← parseUnary f;
      more ← at_keyword (bs "AND");
      if negb more then mret left
      else terms ← andTerms f [left]; countNode ;; mret (AndE terms)
  end
with andTerms (fuel : nat) (terms : list Expr) : P (list Expr) :=
  match fuel with
  | O => raise OutOfFuel
  | S f =>
      more ← acceptKeyword (bs "AND");
      if more : bool then right ← parseUnary f; andTerms f (terms ++ [right]) else mret terms
  end
with parseUnary (fuel : nat) : P Expr :=
  match fuel with
  | O => raise OutOfFuel
  | S f =>
      p ← get_p;
      if p_depth p >=? MaxPredicateDepth then errf NestsTooDeep
      else
        modify_p (fun p => set_depth (p_depth p + 1) p) ;;
        e ← (open ← acceptPunct (bs "(");
             if open : bool then
               inner ← parseOr f;
               expectPunct (bs ")") (bs ") to close the group") ;;
               mret inner
             else
               countNode ;;
               nt ← acceptKeyword (bs "NOT");
               if nt : bool then inner ← parseUnary f; mret (NotE inner) else parseLeaf);
        modify_p (fun p => set_depth (p_depth p - 1) p) ;;
        mret e
  end.

(** Four calls at most between two tokens. *)
Definition parsePredicate : P Expr :=
  p ← get_p; parseOr (4 * length (p_toks p) + 4).
End Parse.
