(* ===== verification/MqlQuery.v ===== *)
(** * MqlQuery: fields, clauses and whole queries

    The rest of [pkg/mql/parse.go]: a selected field and its modifiers, the
    clauses of a data query, the auxiliary forms, and [ParseDiags]. *)

From Stdlib Require Import ZArith Lia Bool.
From Stdlib Require Import Strings.Byte Strings.String.
From S2P Require Import Prelude Bytes Float64 GoStd MqlAst MqlLex MqlParse.

Section Query.
Context `{Unicode} `{FloatText}.

(** ** CLAMP and SSE *)

Definition with_min (v : f64) (c : Clamp) : Clamp := {| cl_Min := Some v; cl_Max := cl_Max c; cl_Else := cl_Else c |}.
Definition with_max (v : f64) (c : Clamp) : Clamp := {| cl_Min := cl_Min c; cl_Max := Some v; cl_Else := cl_Else c |}.
Definition with_else (s : gostr) (c : Clamp) : Clamp := {| cl_Min := cl_Min c; cl_Max := cl_Max c; cl_Else := s |}.

Definition clamp_bound (c : Clamp) : P Clamp :=
  mn ← acceptKeyword (bs "MIN");
  if mn : bool then
    v ← number;
    if is_none (cl_Min c) then mret (with_min v c) else errf (GivenTwice (bs "CLAMP MIN"))
  else
    mx ← acceptKeyword (bs "MAX");
    if mx : bool then
      v ← number;
      if is_none (cl_Max c) then mret (with_max v c) else errf (GivenTwice (bs "CLAMP MAX"))
    else errf (ExpectedHere (bs "MIN or MAX after CLAMP")).

Fixpoint clamp_loop (fuel : nat) (c : Clamp) : P Clamp :=
  match fuel with
  | O => raise OutOfFuel
  | S f =>
      c ← clamp_bound c;
      more ← acceptCommaBefore [bs "MIN"; bs "MAX"];
      if more : bool then clamp_loop f c else mret c
  end.

Definition clamp_else (c : Clamp) : P Clamp :=
  el ← acceptKeyword (bs "ELSE");
  if el : bool then
    raw ← acceptKeyword (bs "RAW");
    if raw : bool then mret (with_else (bs "raw") c)
    else
      bound ← acceptKeyword (bs "BOUND");
      if bound : bool then mret (with_else (bs "bound") c)
      else errf (ExpectedHere (bs "RAW or BOUND after ELSE"))
  else mret c.

Definition clamp : P Clamp :=
  p ← get_p;
  c ← clamp_loop (S (length (p_toks p))) {| cl_Min := None; cl_Max := None; cl_Else := bs "bound" |};
  t ← cur;
  if is_tok tokKeyword (bs "MIN") t || is_tok tokKeyword (bs "MAX") t then errf (ClampComma (tk_text t))
  else
    c ← clamp_else c;
    if is_none (cl_Min c) && is_none (cl_Max c) then errf ClampNeedsBound else mret c.

(** [if v, err := p.number(); err != nil { return p.errf(...) }]: the error
    is replaced, and the cursor has not moved. *)
Definition sse : P SSE :=
  rp ← acceptKeyword (bs "REPEAT");
  if rp : bool then mret {| ss_Mode := bs "repeat"; ss_Value := f_zero |}
  else
    off ← acceptKeyword (bs "OFF");
    if off : bool then mret {| ss_Mode := bs "off"; ss_Value := f_zero |}
    else
      fun p =>
        match number p with
        | Ok (v, p') => Ok ({| ss_Mode := bs "const"; ss_Value := v |}, p')
        | Err IndexPanic => Err IndexPanic
        | Err _ => errf (ExpectedHere (bs "a number, REPEAT or OFF after SSE")) p
        end.

(** ** Modifiers *)

(** The locals of [parseFieldExpr]: the modifiers seen, the last rank and
    whether the order broke, and the field under construction. *)
Record field_st := { fs_seen : list gostr; fs_lastRank : Z; fs_outOfOrder : bool; fs_fe : FieldExpr }.

Definition upd_mods (f : Modifiers -> Modifiers) (st : field_st) : field_st :=
  {| fs_seen := fs_seen st; fs_lastRank := fs_lastRank st; fs_outOfOrder := fs_outOfOrder st;
     fs_fe := {| fe_Field := fe_Field (fs_fe st); fe_Histogram := fe_Histogram (fs_fe st); fe_As := fe_As (fs_fe st);
                 fe_Modifiers := f (fe_Modifiers (fs_fe st)) |} |}.
Definition upd_as (s : gostr) (st : field_st) : field_st :=
  {| fs_seen := fs_seen st; fs_lastRank := fs_lastRank st; fs_outOfOrder := fs_outOfOrder st;
     fs_fe := {| fe_Field := fe_Field (fs_fe st); fe_Histogram := fe_Histogram (fs_fe st); fe_As := s;
                 fe_Modifiers := fe_Modifiers (fs_fe st) |} |}.

Definition seen (st : field_st) (k : gostr) : bool := existsb (bytes_eqb k) (fs_seen st).

(** [mark] *)
Definition mark (what : gostr) (rank : Z) (sets : list gostr) (st : field_st) : P field_st :=
  match List.find (seen st) sets with
  | Some k => if bytes_eqb k what then errf (GivenTwice what) else errf (AlsoSets what k)
  | None =>
      mret {| fs_seen := sets ++ fs_seen st; fs_lastRank := rank;
              fs_outOfOrder := fs_outOfOrder st || (rank <? fs_lastRank st); fs_fe := fs_fe st |}
  end.

Definition mod_delta (m : Modifiers) : Modifiers :=
  {| m_Delta := true; m_PerSecond := m_PerSecond m; m_Negate := m_Negate m; m_Required := m_Required m;
     m_GapMs := m_GapMs m; m_Clamp := m_Clamp m; m_SSE := m_SSE m |}.
Definition mod_persecond (m : Modifiers) : Modifiers :=
  {| m_Delta := m_Delta m; m_PerSecond := true; m_Negate := m_Negate m; m_Required := m_Required m;
     m_GapMs := m_GapMs m; m_Clamp := m_Clamp m; m_SSE := m_SSE m |}.
Definition mod_negate (m : Modifiers) : Modifiers :=
  {| m_Delta := m_Delta m; m_PerSecond := m_PerSecond m; m_Negate := true; m_Required := m_Required m;
     m_GapMs := m_GapMs m; m_Clamp := m_Clamp m; m_SSE := m_SSE m |}.
Definition mod_required (m : Modifiers) : Modifiers :=
  {| m_Delta := m_Delta m; m_PerSecond := m_PerSecond m; m_Negate := m_Negate m; m_Required := true;
     m_GapMs := m_GapMs m; m_Clamp := m_Clamp m; m_SSE := m_SSE m |}.
Definition mod_gap (d : Z) (m : Modifiers) : Modifiers :=
  {| m_Delta := m_Delta m; m_PerSecond := m_PerSecond m; m_Negate := m_Negate m; m_Required := m_Required m;
     m_GapMs := Some d; m_Clamp := m_Clamp m; m_SSE := m_SSE m |}.
Definition mod_clamp (c : Clamp) (m : Modifiers) : Modifiers :=
  {| m_Delta := m_Delta m; m_PerSecond := m_PerSecond m; m_Negate := m_Negate m; m_Required := m_Required m;
     m_GapMs := m_GapMs m; m_Clamp := Some c; m_SSE := m_SSE m |}.
Definition mod_sse (s : SSE) (m : Modifiers) : Modifiers :=
  {| m_Delta := m_Delta m; m_PerSecond := m_PerSecond m; m_Negate := m_Negate m; m_Required := m_Required m;
     m_GapMs := m_GapMs m; m_Clamp := m_Clamp m; m_SSE := Some s |}.

(** One turn of the modifier loop: the state it leaves and whether to go
    on.  The cases are tried in the order of the [switch]. *)
Definition modifier (st : field_st) : P (bool * field_st) :=
  t ← cur;
  if is_tok tokKeyword (bs "RATE") t then
    advance ;;
    st ← mark (bs "RATE") 1 [bs "RATE"; bs "DELTA"; bs "PER SECOND"] st;
    mret (true, upd_mods (fun m => mod_persecond (mod_delta m)) st)
  else if is_tok tokKeyword (bs "DELTA") t then
    advance ;; st ← mark (bs "DELTA") 1 [bs "DELTA"] st; mret (true, upd_mods mod_delta st)
  else if is_tok tokKeyword (bs "PER") t then
    advance ;; expectKeyword (bs "SECOND") ;;
    st ← mark (bs "PER SECOND") 2 [bs "PER SECOND"] st; mret (true, upd_mods mod_persecond st)
  else if is_tok tokKeyword (bs "NEGATE") t then
    advance ;; st ← mark (bs "NEGATE") 3 [bs "NEGATE"] st; mret (true, upd_mods mod_negate st)
  else if is_tok tokKeyword (bs "REQUIRED") t then
    advance ;; st ← mark (bs "REQUIRED") 7 [bs "REQUIRED"] st; mret (true, upd_mods mod_required st)
  else if is_tok tokKeyword (bs "GAP") t then
    advance ;; st ← mark (bs "GAP") 5 [bs "GAP"] st; d ← duration; mret (true, upd_mods (mod_gap d) st)
  else if is_tok tokKeyword (bs "SSE") t then
    advance ;; st ← mark (bs "SSE") 6 [bs "SSE"] st; s ← sse; mret (true, upd_mods (mod_sse s) st)
  else if is_tok tokKeyword (bs "CLAMP") t then
    advance ;; st ← mark (bs "CLAMP") 4 [bs "CLAMP"] st; c ← clamp; mret (true, upd_mods (mod_clamp c) st)
  else if is_tok tokKeyword (bs "AS") t then
    advance ;; n ← name (bs "a display name"); mret (false, upd_as n st)
  else mret (false, st).

Fixpoint modifiers_loop (fuel : nat) (st : field_st) : P field_st :=
  match fuel with
  | O => raise OutOfFuel
  | S f =>
      r ← modifier st;
      if r.1 : bool then modifiers_loop f r.2 else mret r.2
  end.

Definition field_head : P FieldExpr :=
  h ← acceptKeyword (bs "HISTOGRAM");
  if h : bool then
    expectPunct (bs "(") (bs "( after HISTOGRAM") ;;
    n ← name (bs "a bucket-set name");
    expectPunct (bs ")") (bs ") to close HISTOGRAM") ;;
    mret {| fe_Field := []; fe_Histogram := n; fe_As := []; fe_Modifiers := no_modifiers |}
  else
    n ← name (bs "a field name");
    mret {| fe_Field := n; fe_Histogram := []; fe_As := []; fe_Modifiers := no_modifiers |}.

(** The deferred [W101] goes in last. *)
Definition parseFieldExpr : P FieldExpr :=
  fe ← field_head;
  p ← get_p;
  st ← modifiers_loop (S (length (p_toks p)))
         {| fs_seen := []; fs_lastRank := 0; fs_outOfOrder := false; fs_fe := fe |};
  (if fs_outOfOrder st
   then modify_p (fun p => set_diags (p_diags p ++ [W101 (FieldExpr_Name (fs_fe st))]) p)
   else mret tt) ;;
  mret (fs_fe st).

(** ** The clauses *)

(** [if p.acceptKeyword(kw) { ... }] *)
Definition optional {A} (kw : gostr) (m : P A) : P (option A) :=
  ok ← acceptKeyword kw;
  if ok : bool then a ← m; mret (Some a) else mret None.

Definition parseFormat : P Format :=
  f ← name (bs "a format");
  let f' := ToLower f in
  if existsb (bytes_eqb f') [FormatTimeseries; FormatTable; FormatHeatmap; FormatLogs] then mret f'
  else errf (UnknownFormat f).

Definition limit_item (l : Limits) : P Limits :=
  s ← acceptKeyword (bs "SERIES");
  if s : bool then
    n ← integer;
    if is_none (li_Series l) then mret {| li_Series := Some n; li_Points := li_Points l |}
    else errf (GivenTwice (bs "LIMIT SERIES"))
  else
    pt ← acceptKeyword (bs "POINTS");
    if pt : bool then
      n ← integer;
      if is_none (li_Points l) then mret {| li_Series := li_Series l; li_Points := Some n |}
      else errf (GivenTwice (bs "LIMIT POINTS"))
    else errf (ExpectedHere (bs "SERIES or POINTS after LIMIT")).

Fixpoint limit_loop (fuel : nat) (l : Limits) : P Limits :=
  match fuel with
  | O => raise OutOfFuel
  | S f =>
      l ← limit_item l;
      more ← acceptPunct (bs ",");
      if more : bool then limit_loop f l else mret l
  end.

Definition parseDataQuery : P Query :=
  expectKeyword (bs "FROM") ;;
  set ← name (bs "a set name");
  expectKeyword (bs "SELECT") ;;
  sel ← comma_list parseFieldExpr;
  wh ← optional (bs "WHERE") parsePredicate;
  by_ ← optional (bs "BY") (comma_list (name (bs "a label key")));
  every ← optional (bs "EVERY") duration;
  fmt ← optional (bs "FORMAT") parseFormat;
  p ← get_p;
  lim ← optional (bs "LIMIT") (limit_loop (S (length (p_toks p))) no_limits);
  mret {| q_Kind := KindQuery; q_From := set; q_Select := sel; q_Where := default EmptyE wh;
          q_By := default [] by_; q_EveryMs := every; q_Format := default FormatTimeseries fmt;
          q_Limits := default no_limits lim; q_Label := [] |}.

Definition from_query (k : Kind) (set : gostr) : Query :=
  {| q_Kind := k; q_From := set; q_Select := []; q_Where := EmptyE; q_By := []; q_EveryMs := None;
     q_Format := []; q_Limits := no_limits; q_Label := [] |}.
Definition labels_query (label : gostr) (wh : Expr) : Query :=
  {| q_Kind := KindLabels; q_From := []; q_Select := []; q_Where := wh; q_By := []; q_EveryMs := None;
     q_Format := []; q_Limits := no_limits; q_Label := label |}.

Definition parseQuery : P Query :=
  sets ← acceptKeyword (bs "SETS");
  if sets : bool then mret (blank_query KindSets)
  else
    fields ← acceptKeyword (bs "FIELDS");
    if fields : bool then
      expectKeyword (bs "FROM") ;; set ← name (bs "a set name"); mret (from_query KindFields set)
    else
      label ← acceptKeyword (bs "LABEL");
      if label : bool then
        expectKeyword (bs "KEYS") ;; expectKeyword (bs "FROM") ;;
        set ← name (bs "a set name"); mret (from_query KindLabelKeys set)
      else
        labels ← acceptKeyword (bs "LABELS");
        if labels : bool then
          l ← name (bs "a label key");
          wh ← optional (bs "WHERE") parsePredicate;
          mret (labels_query l (default EmptyE wh))
        else parseDataQuery.

Definition new_parser (toks : list token) : parser :=
  {| p_toks := toks; p_diags := []; p_depth := 0; p_nodes := 0 |}.

Definition parse_all : P (Query * list Diag) :=
  q ← parseQuery;
  t ← cur;
  if bool_decide (tk_kind t = tokEOF) then p ← get_p; mret (q, p_diags p)
  else errf (AfterEnd t).

Definition ParseDiags (src : gostr) : result mql_err (Query * list Diag) :=
  try toks <- lex src;
  try qp <- parse_all (new_parser toks);
  Ok qp.1.

Definition Parse (src : gostr) : result mql_err Query :=
  try qd <- ParseDiags src; Ok qd.1.
End Query.
