(* ===== verification/MqlSafe.v ===== *)
(** * MqlSafe: what the parser accepts, and that it always answers

    Every function of the parser is specified by [safe]: it neither reads
    past the token slice nor runs short of fuel, and when it accepts, it
    has moved along the tokens and left what the specification says.  The
    trees it builds are [canonical]: one arm per node, no empty name, list
    or group, and as many nodes as it counted. *)

From Stdlib Require Import ZArith Lia Bool.
From Stdlib Require Import Strings.Byte Strings.String.
From S2P Require Import Prelude Bytes Float64 GoStd MqlAst MqlLex MqlParse MqlQuery.

(** ** Token slices *)

Definition toks_ok (l : list token) : Prop :=
  exists init e, l = init ++ [e] /\ tk_kind e = tokEOF /\ Forall (fun t => tk_kind t <> tokEOF) init.
Definition wf (p : parser) : Prop := toks_ok (p_toks p).

Lemma toks_ok_head l : toks_ok l -> exists t l', l = t :: l' /\ (tk_kind t <> tokEOF -> toks_ok l').
Proof.
  intros (init & e & -> & He & Hi). destruct init as [|t init]; cbn.
  - exists e, []. split; [done|]. by intros ?.
  - exists t, (init ++ [e]). split; [done|]. intros _. exists init, e. by apply Forall_cons in Hi as [_ ?].
Qed.

(** A parser that has moved at least [n] tokens on from another. *)
Record step (n : nat) (p p' : parser) : Prop := {
  st_wf : wf p';
  st_len : (length (p_toks p') + n <= length (p_toks p))%nat;
  st_depth : p_depth p' = p_depth p;
  st_nodes : p_nodes p' = p_nodes p;
}.

Lemma step_refl p : wf p -> step 0 p p.
Proof. split; [done|lia|done|done]. Qed.
Lemma step_trans n m p1 p2 p3 : step n p1 p2 -> step m p2 p3 -> step (n + m) p1 p3.
Proof. intros [] []. split; [done|lia|congruence|congruence]. Qed.
Lemma step_weaken n m p p' : (m <= n)%nat -> step n p p' -> step m p p'.
Proof. intros Hle []. split; [done|lia|done|done]. Qed.

Definition no_bug (e : mql_err) : Prop := e <> IndexPanic /\ e <> OutOfFuel.

Definition safe {A} (m : P A) (p : parser) (Q : A -> parser -> Prop) : Prop :=
  match m p with
  | Ok (a, p') => Q a p'
  | Err e => no_bug e
  end.

Lemma safe_ret {A} (a : A) p (Q : A -> parser -> Prop) : Q a p -> safe (mret a) p Q.
Proof. done. Qed.
Lemma safe_bind {A B} (m : P A) (k : A -> P B) p (Q : B -> parser -> Prop) :
  safe m p (fun a p' => safe (k a) p' Q) -> safe (m ≫= k) p Q.
Proof. unfold safe, mbind, P_bind. by destruct (m p) as [[a p']|e]. Qed.
Lemma safe_mono {A} (m : P A) p (Q Q' : A -> parser -> Prop) :
  safe m p Q -> (forall a p', Q a p' -> Q' a p') -> safe m p Q'.
Proof. unfold safe. destruct (m p) as [[a p']|e]; auto. Qed.
Lemma safe_get p (Q : parser -> parser -> Prop) : Q p p -> safe get_p p Q.
Proof. done. Qed.
Lemma safe_modify f p (Q : unit -> parser -> Prop) : Q tt (f p) -> safe (modify_p f) p Q.
Proof. done. Qed.

Lemma safe_cur p (Q : token -> parser -> Prop) :
  wf p -> (forall t l, p_toks p = t :: l -> (tk_kind t <> tokEOF -> toks_ok l) -> Q t p) -> safe cur p Q.
Proof.
  intros Hwf HQ. destruct (toks_ok_head _ Hwf) as (t & l & E & Hl). unfold safe, cur. rewrite E. by eapply HQ.
Qed.
Lemma safe_errf {A} msg p (Q : A -> parser -> Prop) : wf p -> safe (errf msg : P A) p Q.
Proof. intros Hwf. apply safe_bind, safe_cur; [done|]. intros t l _ _. by split. Qed.

Lemma step_advance p t l : p_toks p = t :: l -> toks_ok l -> step 1 p (set_toks (tail (p_toks p)) p).
Proof. intros E Hl. rewrite E. split; cbn; [done| |done|done]. rewrite E. cbn. lia. Qed.

(** Reading the current token and moving past it. *)
Lemma safe_take {A} (k : P A) p t l (Q : A -> parser -> Prop) :
  p_toks p = t :: l -> (tk_kind t <> tokEOF -> toks_ok l) -> tk_kind t <> tokEOF ->
  (forall p', step 1 p p' -> safe k p' Q) -> safe (advance ;; k) p Q.
Proof.
  intros E Hl Ht Hk. apply safe_bind, safe_modify. apply Hk. eapply step_advance; [exact E|by apply Hl].
Qed.

Lemma is_tok_kind k s t : is_tok k s t = true -> tk_kind t = k.
Proof. unfold is_tok. intros [? _]%andb_true_iff. by apply bool_decide_eq_true in H. Qed.

Lemma accept_safe k s p (Q : bool -> parser -> Prop) :
  wf p -> k <> tokEOF -> Q false p -> (forall p', step 1 p p' -> Q true p') -> safe (accept k s) p Q.
Proof.
  intros Hwf Hk Hf Ht. apply safe_bind, safe_cur; [done|]. intros t l E Hl.
  destruct (is_tok k s t) eqn:Et; [|by apply safe_ret].
  eapply safe_take; [exact E|done|by rewrite (is_tok_kind _ _ _ Et)|]. intros p' Hp. by apply safe_ret, Ht.
Qed.

(** The shape every consuming call has. *)
Ltac accept_ := eapply accept_safe; [eassumption|discriminate| |].

Lemma expectKeyword_safe kw p (Q : unit -> parser -> Prop) :
  wf p -> (forall p', step 1 p p' -> Q tt p') -> safe (expectKeyword kw) p Q.
Proof.
  intros Hwf HQ. apply safe_bind. accept_.
  - apply safe_bind, safe_cur; [done|]. intros t l _ _. by apply safe_errf.
  - intros p' Hp. apply safe_ret. by apply HQ.
Qed.
Lemma expectPunct_safe s what p (Q : unit -> parser -> Prop) :
  wf p -> (forall p', step 1 p p' -> Q tt p') -> safe (expectPunct s what) p Q.
Proof.
  intros Hwf HQ. apply safe_bind. accept_; [by apply safe_errf|]. intros p' Hp. apply safe_ret. by apply HQ.
Qed.

Lemma name_safe what p (Q : gostr -> parser -> Prop) :
  wf p -> (forall n p', n <> [] -> step 1 p p' -> Q n p') -> safe (name what) p Q.
Proof.
  intros Hwf HQ. apply safe_bind, safe_cur; [done|]. intros t l E Hl.
  destruct (bool_decide _ || bool_decide _) eqn:Ek; [|by apply safe_errf].
  destruct (tk_text t) as [|b s] eqn:Et; cbn [is_nil]; [by apply safe_errf|].
  eapply safe_take; [exact E|done| |].
  - apply orb_true_iff in Ek as [Ek|Ek]; apply bool_decide_eq_true in Ek; by rewrite Ek.
  - intros p' Hp. apply safe_ret. by apply HQ.
Qed.

Lemma acceptCommaBefore_safe kws p (Q : bool -> parser -> Prop) :
  wf p -> Q false p -> (forall p', step 1 p p' -> Q true p') -> safe (acceptCommaBefore kws) p Q.
Proof.
  intros Hwf Hf Ht. apply safe_bind, safe_cur; [done|]. intros t l E Hl.
  destruct (is_tok tokPunct _ t) eqn:Et; cbn [negb]; [|by apply safe_ret].
  assert (Hk : tk_kind t <> tokEOF) by (by rewrite (is_tok_kind _ _ _ Et)).
  apply safe_bind, safe_get. rewrite E. destruct (toks_ok_head _ (Hl Hk)) as (u & l' & -> & _).
  destruct (existsb _ _); [|by apply safe_ret].
  eapply safe_take; [exact E|done|done|]. intros p' Hp. by apply safe_ret, Ht.
Qed.

Lemma comma_loop_safe {A} (item : P A) (ok : A -> Prop) fuel : forall p acc (Q : list A -> parser -> Prop),
  (forall p, wf p -> safe item p (fun a p' => ok a /\ step 1 p p')) ->
  wf p -> (length (p_toks p) <= fuel)%nat -> Forall ok acc ->
  (forall l p', Forall ok l -> l <> [] -> step 1 p p' -> Q l p') -> safe (comma_loop fuel item acc) p Q.
Proof.
  induction fuel as [|f IH]; intros p acc Q Hitem Hwf Hf Hacc HQ.
  { destruct (toks_ok_head _ Hwf) as (t & l & E & _). rewrite E in Hf. cbn in Hf. lia. }
  cbn [comma_loop]. apply safe_bind. eapply safe_mono; [by apply Hitem|]. intros a p1 [Ha H1].
  assert (Hacc' : Forall ok (acc ++ [a])) by (apply Forall_app; split; [done|by apply Forall_singleton]).
  apply safe_bind. eapply accept_safe; [apply H1|done| |].
  - apply safe_ret, HQ; [done| |done]. by destruct acc.
  - intros p2 H2. apply IH; [done|apply H2| |done|].
    + destruct H1, H2. lia.
    + intros l p3 Hl Hne H3. apply HQ; [done|done|].
      apply (step_weaken 3); [lia|]. apply (step_trans 1 2 _ p1); [exact H1|]. by apply (step_trans 1 1 _ p2).
Qed.

Lemma comma_list_safe {A} (item : P A) (ok : A -> Prop) p (Q : list A -> parser -> Prop) :
  (forall p, wf p -> safe item p (fun a p' => ok a /\ step 1 p p')) -> wf p ->
  (forall l p', Forall ok l -> l <> [] -> step 1 p p' -> Q l p') -> safe (comma_list item) p Q.
Proof.
  intros Hitem Hwf HQ. apply safe_bind, safe_get. eapply comma_loop_safe; [exact Hitem|done|lia|done|done].
Qed.

Section Safe.
Context `{Unicode} `{FloatText}.

(** ** Numbers and durations *)

Lemma number_safe p (Q : f64 -> parser -> Prop) :
  wf p -> (forall f p', step 1 p p' -> Q f p') -> safe number p Q.
Proof.
  intros Hwf HQ. apply safe_bind, safe_cur; [done|]. intros t l E Hl.
  destruct (bool_decide _) eqn:Ek; cbn [negb]; [|by apply safe_errf]. apply bool_decide_eq_true in Ek.
  destruct (ParseFloat (tk_text t)); [|by apply safe_errf].
  eapply safe_take; [exact E|done|by rewrite Ek|]. intros p' Hp. by apply safe_ret, HQ.
Qed.

Lemma integer_safe p (Q : Z -> parser -> Prop) :
  wf p -> (forall n p', step 1 p p' -> Q n p') -> safe integer p Q.
Proof.
  intros Hwf HQ. apply safe_bind, safe_cur; [done|]. intros t l E Hl.
  destruct (bool_decide _) eqn:Ek; cbn [negb]; [|by apply safe_errf]. apply bool_decide_eq_true in Ek.
  destruct (ParseInt (tk_text t)); [|by apply safe_errf].
  eapply safe_take; [exact E|done|by rewrite Ek|]. intros p' Hp. by apply safe_ret, HQ.
Qed.

Lemma ParseDuration_no_bug s : match ParseDuration s with Ok _ => True | Err e => no_bug e end.
Proof.
  unfold ParseDuration, scaleDuration. destruct (scan_sign s) as [sg s1], (scan_digits_dots s1) as [ds u].
  repeat (break_if || case_match); try done; try by split.
  all: match goal with E : Ok _ = Err _ |- _ => discriminate | E : Err _ = Err _ |- _ => injection E as <-; by split end.
Qed.

Lemma lift_duration_safe s p (Q : Z -> parser -> Prop) :
  (forall n, Q n p) -> safe (lift_r (ParseDuration s)) p Q.
Proof.
  intros HQ. pose proof (ParseDuration_no_bug s) as Hb. destruct (ParseDuration s); [by apply HQ|done].
Qed.

Lemma duration_safe p (Q : Z -> parser -> Prop) :
  wf p -> (forall n p', step 1 p p' -> Q n p') -> safe duration p Q.
Proof.
  intros Hwf HQ. apply safe_bind, safe_cur; [done|]. intros t l E Hl.
  destruct (is_tok tokNumber (bs "0") t) eqn:Ez.
  - eapply safe_take; [exact E|done|by rewrite (is_tok_kind _ _ _ Ez)|]. intros p' Hp.
    apply lift_duration_safe. intros n. by apply HQ.
  - destruct (bool_decide _) eqn:Ek; cbn [negb]; [|by apply safe_errf]. apply bool_decide_eq_true in Ek.
    eapply safe_take; [exact E|done|by rewrite Ek|]. intros p' Hp.
    apply lift_duration_safe. intros n. by apply HQ.
Qed.

(** ** Canonical predicates *)

(** A literal bit is set only where the text would otherwise read as a
    variable. *)
Definition lit_ok (v : gostr) (l : bool) : Prop := l = true -> IsVariable v = true.
Definition lits_ok (vals : list gostr) (lits : list bool) : Prop :=
  lits = [] \/ (Forall2 lit_ok vals lits /\ existsb (fun b => b) lits = true).

Inductive canonical : Expr -> Prop :=
| can_And l : (2 <= length l)%nat -> Forall canonical l -> canonical (AndE l)
| can_Or l : (2 <= length l)%nat -> Forall canonical l -> canonical (OrE l)
| can_Not e : canonical e -> canonical (NotE e)
| can_Eq c : c_Label c <> [] -> lit_ok (c_Value c) (c_Literal c) -> canonical (EqE c)
| can_Ne c : c_Label c <> [] -> lit_ok (c_Value c) (c_Literal c) -> canonical (NeE c)
| can_In l : in_Label l <> [] -> in_Values l <> [] -> lits_ok (in_Values l) (in_Literal l) -> canonical (InE l)
| can_Match m : mx_Label m <> [] -> canonical (MatchE m)
| can_NoMatch m : mx_Label m <> [] -> canonical (NoMatchE m)
| can_Has n : n <> [] -> canonical (HasE n)
| can_Missing n : n <> [] -> canonical (MissingE n).

Fixpoint size (e : Expr) : Z :=
  let sum := fix sum (l : list Expr) : Z := match l with [] => 0 | x :: r => size x + sum r end in
  let '(mkExpr ands ors nt _ _ _ _ _ _ _) := e in
  1 + sum ands + sum ors + match nt with Some x => size x | None => 0 end.
Definition sizes (l : list Expr) : Z := foldr (fun e n => size e + n) 0 l.

Fixpoint height (e : Expr) : Z :=
  let most := fix most (l : list Expr) : Z := match l with [] => 0 | x :: r => Z.max (height x) (most r) end in
  let '(mkExpr ands ors nt _ _ _ _ _ _ _) := e in
  1 + Z.max (most ands) (Z.max (most ors) match nt with Some x => height x | None => 0 end).
Definition heights (l : list Expr) : Z := foldr (fun e n => Z.max (height e) n) 0 l.

Lemma size_And l : size (AndE l) = 1 + sizes l.
Proof. cbn. unfold sizes. induction l as [|e l IH]; cbn in *; lia. Qed.
Lemma size_Or l : size (OrE l) = 1 + sizes l.
Proof. cbn. unfold sizes. induction l as [|e l IH]; cbn in *; lia. Qed.
Lemma size_Not e : size (NotE e) = 1 + size e.
Proof. reflexivity. Qed.
Lemma height_And l : height (AndE l) = 1 + heights l.
Proof. cbn. unfold heights. induction l as [|e l IH]; cbn in *; lia. Qed.
Lemma height_Or l : height (OrE l) = 1 + heights l.
Proof. cbn. unfold heights. induction l as [|e l IH]; cbn in *; lia. Qed.
Lemma height_Not e : 0 <= height e -> height (NotE e) = 1 + height e.
Proof. cbn. lia. Qed.

Lemma sizes_app l k : sizes (l ++ k) = sizes l + sizes k.
Proof. unfold sizes. induction l as [|e l IH]; cbn; [done|]. rewrite IH. lia. Qed.
Lemma heights_le l n : 0 <= n -> Forall (fun e => height e <= n) l -> heights l <= n.
Proof. intros Hn. induction 1; cbn; [done|]. unfold heights in *. lia. Qed.

Lemma height_pos e : 1 <= height e.
Proof.
  destruct e as [ands ors nt ? ? ? ? ? ? ?]. cbn [height].
  match goal with |- 1 <= 1 + Z.max ?a _ => enough (0 <= a) by lia end.
  induction ands as [|x l IH]; cbn; lia.
Qed.

(** ** Leaves *)

Definition leaf (e : Expr) : Prop := canonical e /\ size e = 1 /\ height e = 1.

Lemma valueOrVar_safe p (Q : gostr * bool -> parser -> Prop) :
  wf p -> (forall vl p', lit_ok vl.1 vl.2 -> step 1 p p' -> Q vl p') -> safe valueOrVar p Q.
Proof.
  intros Hwf HQ. apply safe_bind, safe_cur; [done|]. intros t l E Hl.
  destruct (tk_kind t) eqn:Ek; try (by apply safe_errf).
  all: eapply safe_take; [exact E|by rewrite Ek|by rewrite Ek|]; intros p' Hp; apply safe_ret, HQ; [|done].
  all: unfold lit_ok; by cbn.
Qed.

Lemma regex_safe p (Q : gostr -> parser -> Prop) :
  wf p -> (forall re p', step 1 p p' -> Q re p') -> safe regex p Q.
Proof.
  intros Hwf HQ. apply safe_bind, safe_cur; [done|]. intros t l E Hl.
  destruct (bool_decide _) eqn:Ek; cbn [negb]; [|by apply safe_errf]. apply bool_decide_eq_true in Ek.
  eapply safe_take; [exact E|done|by rewrite Ek|]. intros p' Hp. by apply safe_ret, HQ.
Qed.

Lemma literal_bits (vls : list (gostr * bool)) :
  Forall (fun vl => lit_ok vl.1 vl.2) vls ->
  lits_ok (map fst vls) (if existsb snd vls then map snd vls else []).
Proof.
  intros Hl. destruct (existsb snd vls) eqn:E; [right|by left]. split.
  - clear E. induction Hl; cbn; constructor; done.
  - clear Hl. induction vls as [|[v l] vls IH]; [done|]. cbn in *. destruct l; [done|]. by apply IH.
Qed.

Lemma parseIn_safe label p (Q : Expr -> parser -> Prop) :
  wf p -> label <> [] -> (forall e p', leaf e -> step 3 p p' -> Q e p') -> safe (parseIn label) p Q.
Proof.
  intros Hwf Hne HQ. apply safe_bind, expectPunct_safe; [done|]. intros p1 H1.
  apply safe_bind. eapply (comma_list_safe valueOrVar (fun vl => lit_ok vl.1 vl.2)); [|apply H1|].
  { intros q Hq. apply valueOrVar_safe; [done|]. by split. }
  intros vls p2 Hvls Hnil H2. apply safe_bind, expectPunct_safe; [apply H2|]. intros p3 H3.
  apply safe_ret, HQ.
  - split; [|done]. apply can_In; cbn; [done| |by apply literal_bits].
    intros E. apply Hnil. by destruct vls.
  - apply (step_trans 1 2 _ p1); [done|]. by apply (step_trans 1 1 _ p2).
Qed.

Lemma parseCompare_safe p (Q : Expr -> parser -> Prop) :
  wf p -> (forall e p', leaf e -> step 1 p p' -> Q e p') -> safe parseCompare p Q.
Proof.
  intros Hwf HQ. apply safe_bind, name_safe; [done|]. intros label p1 Hne H1.
  assert (Hlift : forall n e p', leaf e -> step n p1 p' -> Q e p').
  { intros n e p' He Hp. apply HQ; [done|]. apply (step_weaken (1 + n)); [lia|]. by eapply step_trans. }
  assert (Hwf1 : wf p1) by apply H1.
  assert (Hval : forall (k : gostr -> bool -> Expr) p2, step 1 p1 p2 ->
    (forall v l, lit_ok v l -> leaf (k v l)) ->
    safe (vl ← valueOrVar; mret (k vl.1 vl.2)) p2 Q).
  { intros k p2 H2 Hk. apply safe_bind, valueOrVar_safe; [apply H2|]. intros [v l] p3 Hl H3.
    apply safe_ret. eapply Hlift; [by apply Hk|]. by eapply (step_trans 1 1). }
  assert (Hre : forall (k : gostr -> Expr) p2, step 1 p1 p2 -> (forall re, leaf (k re)) ->
    safe (re ← regex; mret (k re)) p2 Q).
  { intros k p2 H2 Hk. apply safe_bind, regex_safe; [apply H2|]. intros re p3 H3.
    apply safe_ret. eapply Hlift; [by apply Hk|]. by eapply (step_trans 1 1). }
  apply safe_bind. accept_.
  2: { intros p2 H2. apply (Hval (fun v l => EqE {| c_Label := label; c_Value := v; c_Literal := l |})); [done|].
       intros v l Hl. split; [by constructor|done]. }
  apply safe_bind. accept_.
  2: { intros p2 H2. apply (Hval (fun v l => NeE {| c_Label := label; c_Value := v; c_Literal := l |})); [done|].
       intros v l Hl. split; [by constructor|done]. }
  apply safe_bind. accept_.
  2: { intros p2 H2. apply (Hre (fun re => MatchE {| mx_Label := label; mx_Regex := re |})); [done|].
       intros re. split; [by constructor|done]. }
  apply safe_bind. accept_.
  2: { intros p2 H2. apply (Hre (fun re => NoMatchE {| mx_Label := label; mx_Regex := re |})); [done|].
       intros re. split; [by constructor|done]. }
  apply safe_bind. accept_; [by apply safe_errf|].
  intros p2 H2. apply parseIn_safe; [apply H2|done|]. intros e p3 He H3.
  eapply Hlift; [done|]. by eapply step_trans.
Qed.

Lemma parseLeaf_safe p (Q : Expr -> parser -> Prop) :
  wf p -> (forall e p', leaf e -> step 1 p p' -> Q e p') -> safe parseLeaf p Q.
Proof.
  intros Hwf HQ.
  assert (Hname : forall what (k : gostr -> Expr) p1, step 1 p p1 -> (forall n, n <> [] -> leaf (k n)) ->
    safe (n ← name what; mret (k n)) p1 Q).
  { intros what k p1 H1 Hk. apply safe_bind, name_safe; [apply H1|]. intros n p2 Hn H2.
    apply safe_ret, HQ; [by apply Hk|]. apply (step_weaken 2); [lia|]. by eapply (step_trans 1 1). }
  apply safe_bind. accept_.
  2: { intros p1 H1. apply (Hname _ HasE); [done|]. intros n Hn. split; [by constructor|done]. }
  apply safe_bind. accept_.
  2: { intros p1 H1. apply (Hname _ MissingE); [done|]. intros n Hn. split; [by constructor|done]. }
  by apply parseCompare_safe.
Qed.

(** ** Predicates *)

(** What a predicate parser leaves: a canonical tree no higher than [h],
    counted node by node within the bound. *)
Record built (h : Z) (p : parser) (e : Expr) (p' : parser) : Prop := {
  bu_canonical : canonical e;
  bu_height : height e <= h;
  bu_nodes : p_nodes p' = p_nodes p + size e;
  bu_bound : p_nodes p' <= MaxPredicateNodes;
  bu_wf : wf p';
  bu_len : (length (p_toks p') < length (p_toks p))%nat;
  bu_depth : p_depth p' = p_depth p;
}.

(** And a loop over the terms of a chain, started with [terms]. *)
Record chained (h : Z) (p : parser) (terms terms' : list Expr) (p' : parser) : Prop := {
  ch_terms : Forall (fun e => canonical e /\ height e <= h) terms';
  ch_nodes : p_nodes p' + sizes terms = p_nodes p + sizes terms';
  ch_len : (length terms <= length terms')%nat;
  ch_wf : wf p';
  ch_toks : (length (p_toks p') <= length (p_toks p))%nat;
  ch_depth : p_depth p' = p_depth p;
}.

Lemma countNode_safe p (Q : unit -> parser -> Prop) :
  wf p -> (p_nodes p + 1 <= MaxPredicateNodes -> Q tt (set_nodes (p_nodes p + 1) p)) -> safe countNode p Q.
Proof.
  intros Hwf HQ. apply safe_bind, safe_modify, safe_bind, safe_get. cbn [p_nodes set_nodes].
  destruct (p_nodes p + 1 >? MaxPredicateNodes) eqn:E; [by apply safe_errf|].
  apply safe_ret, HQ. rewrite Z.gtb_ltb in E. bsplit. lia.
Qed.

Lemma at_keyword_safe kw p (Q : bool -> parser -> Prop) :
  wf p -> (forall t l, p_toks p = t :: l -> Q (is_tok tokKeyword kw t) p) -> safe (at_keyword kw) p Q.
Proof. intros Hwf HQ. apply safe_bind, safe_cur; [done|]. intros t l E _. apply safe_ret. by eapply HQ. Qed.

Abbreviation toks_len p := (length (p_toks p)).

(** The heights [parseUnary], [parseAnd] and [parseOr] may build, [d] groups
    deep. *)
Definition hU (d : Z) : Z := 2 * (MaxPredicateDepth - d) - 1.

Definition or_ok (f : nat) : Prop := forall p, wf p -> (4 * toks_len p + 4 <= f)%nat ->
  safe (parseOr f) p (built (hU (p_depth p) + 2) p).
Definition and_ok (f : nat) : Prop := forall p, wf p -> (4 * toks_len p + 3 <= f)%nat ->
  safe (parseAnd f) p (built (hU (p_depth p) + 1) p).
Definition unary_ok (f : nat) : Prop := forall p, wf p -> (4 * toks_len p + 2 <= f)%nat ->
  safe (parseUnary f) p (built (hU (p_depth p)) p).

(** The term loops: a chain that has begun gains a term. *)
Definition terms_ok (kw : gostr) (h : Z -> Z) (loop : list Expr -> P (list Expr)) (f : nat) : Prop :=
  forall p terms, wf p -> (4 * toks_len p + 1 <= f)%nat ->
    Forall (fun e => canonical e /\ height e <= h (p_depth p)) terms ->
    safe (loop terms) p (fun terms' p' =>
      chained (h (p_depth p)) p terms terms' p' /\
      (forall t l, p_toks p = t :: l -> is_tok tokKeyword kw t = true -> (S (length terms) <= length terms')%nat)).

(** One more turn of a term loop. *)
Lemma terms_step kw (h : Z -> Z) (item : P Expr) (loop : list Expr -> P (list Expr)) k f :
  (k <= 3)%nat ->
  (forall p, wf p -> (4 * toks_len p + k <= f)%nat -> safe item p (built (h (p_depth p)) p)) ->
  terms_ok kw h loop f ->
  terms_ok kw h (fun terms => more ← acceptKeyword kw; if more : bool then right ← item; loop (terms ++ [right]) else mret terms) (S f).
Proof.
  intros Hk Hitem Hloop p terms Hwf Hf Hterms. apply safe_bind. unfold acceptKeyword, accept.
  apply safe_bind, safe_cur; [done|]. intros t l E Hl.
  destruct (is_tok tokKeyword kw t) eqn:Et.
  2: { apply safe_ret, safe_ret. split; [split; [done|lia|done|done|done|done]|].
       intros t' l' E'. rewrite E in E'. injection E' as <- <-. by rewrite Et. }
  eapply safe_take; [exact E|done|by rewrite (is_tok_kind _ _ _ Et)|]. intros p1 H1. apply safe_ret.
  destruct H1 as [Hw1 L1 D1 N1].
  apply safe_bind. eapply safe_mono; [apply Hitem; [done|lia]|]. intros e p2 [C2 He2 N2 B2 W2 L2 D2].
  rewrite D1 in He2. eapply safe_mono.
  { apply (Hloop p2 (terms ++ [e])); [done|lia|]. rewrite D2, D1. apply Forall_app. split; [done|]. by apply Forall_singleton. }
  intros terms' p3 [[T3 N3 Le3 W3 L3 D3] _]. rewrite D2, D1 in *.
  rewrite length_app in Le3. cbn [length] in Le3. rewrite sizes_app in N3. cbn [sizes foldr] in N3.
  split; [split; [done|lia|lia|done|lia|congruence]|]. intros _ _ _ _. lia.
Qed.

(** A chain: a term, and the loop when its keyword follows. *)
Lemma chain_ok kw (h : Z -> Z) (item : P Expr) (loop : list Expr -> P (list Expr)) (mk : list Expr -> Expr) k f p :
  (2 <= k)%nat ->
  (forall l, (2 <= length l)%nat -> Forall canonical l -> canonical (mk l)) ->
  (forall l, size (mk l) = 1 + sizes l) -> (forall l, height (mk l) = 1 + heights l) ->
  (forall p, wf p -> (4 * toks_len p + k <= f)%nat -> safe item p (built (h (p_depth p)) p)) ->
  terms_ok kw h loop f -> wf p -> (4 * toks_len p + k <= f)%nat ->
  safe (left ← item; more ← at_keyword kw;
        if negb more then mret left else terms ← loop [left]; countNode ;; mret (mk terms)) p
    (built (h (p_depth p) + 1) p).
Proof.
  intros Hk Hcan Hsize Hheight Hitem Hloop Hwf Hf.
  apply safe_bind. eapply safe_mono; [by apply Hitem|]. intros e p1 [C1 He1 N1 B1 W1 L1 D1].
  apply safe_bind, at_keyword_safe; [done|]. intros t l E.
  destruct (is_tok tokKeyword kw t) eqn:Et; cbn [negb].
  2: { apply safe_ret. split; try done. lia. }
  apply safe_bind. eapply safe_mono.
  { apply (Hloop p1 [e]); [done|lia|]. rewrite D1. by apply Forall_singleton. }
  intros terms p2 [[T2 N2 Le2 W2 L2 D2] Hmore]. specialize (Hmore t l E Et). rewrite D1 in *.
  cbn [sizes foldr length] in *.
  apply safe_bind, countNode_safe; [done|]. intros Hb. apply safe_ret.
  split; cbn [p_nodes p_toks p_depth set_nodes]; try done.
  - apply Hcan; [lia|]. by eapply Forall_impl; [exact T2|]; intros ? [? _].
  - rewrite Hheight. pose proof (height_pos e).
    enough (heights terms <= h (p_depth p)) by lia. apply heights_le; [lia|].
    by eapply Forall_impl; [exact T2|]; intros ? [_ ?].
  - rewrite Hsize. lia.
  - lia.
Qed.

Lemma built_leaf d p e p1 p' :
  d < MaxPredicateDepth -> wf p -> leaf e -> step 1 p1 p' -> p_toks p1 = p_toks p -> p_depth p1 = p_depth p ->
  p_nodes p1 = p_nodes p + 1 -> p_nodes p1 <= MaxPredicateNodes -> built (hU d) p e p'.
Proof.
  intros Hd Hwf (C & S1 & H1) [] Et Ed En Hb. rewrite Et in *. unfold hU.
  split; [done|lia|congruence|congruence|done|lia|congruence].
Qed.

Lemma parse_unary_step f : or_ok f -> unary_ok f -> unary_ok (S f).
Proof.
  intros Hor Hun p Hwf Hf. cbn [parseUnary]. apply safe_bind, safe_get.
  destruct (p_depth p >=? MaxPredicateDepth) eqn:Ed; [by apply safe_errf|].
  rewrite Z.geb_leb in Ed. bsplit. apply safe_bind, safe_modify, safe_bind.
  set (q := set_depth (p_depth p + 1) p). assert (Hq : wf q) by exact Hwf.
  eapply (safe_mono _ _ (fun e p' => built (hU (p_depth p)) p e (set_depth (p_depth p) p') /\ p_depth p' = p_depth p + 1)).
  2: { intros e p' [[] D]. apply safe_bind, safe_modify, safe_ret. rewrite D. replace (p_depth p + 1 - 1) with (p_depth p) by lia. by split. }
  apply safe_bind. accept_.
  - (* no group: the node is counted *)
    apply safe_bind, countNode_safe; [done|]. intros Hb. set (q1 := set_nodes (p_nodes q + 1) q).
    assert (Hq1 : wf q1) by exact Hwf. apply safe_bind. accept_.
    + apply parseLeaf_safe; [done|]. intros e p' He [W L D N]. destruct He as (C & S1 & H1). unfold hU.
      split; [split; cbn in *; try done; lia|done].
    + intros p1 [W1 L1 D1 N1]. apply safe_bind. eapply safe_mono; [apply Hun; [done|cbn in *; lia]|].
      intros e p2 [C2 He2 N2 B2 W2 L2 D2]. apply safe_ret. rewrite D1 in *. cbn in He2, D2, N1, L1.
      split; [split; cbn [p_nodes p_toks p_depth set_depth]; try done|by rewrite D2].
      * by constructor.
      * pose proof (height_pos e). rewrite height_Not by lia. unfold hU in *. lia.
      * rewrite size_Not. lia.
      * lia.
  - intros p1 [W1 L1 D1 N1]. apply safe_bind. eapply safe_mono; [apply Hor; [done|cbn in *; lia]|].
    intros e p2 [C2 He2 N2 B2 W2 L2 D2]. apply safe_bind, expectPunct_safe; [done|].
    intros p3 [W3 L3 D3 N3]. apply safe_ret. rewrite D1 in *. cbn in He2, D2, N1, L1.
    split; [split; cbn [p_nodes p_toks p_depth set_depth]; try done|by rewrite D3, D2].
    + unfold hU in *. lia.
    + rewrite N3, N2, N1. done.
    + by rewrite N3.
    + lia.
Qed.

Lemma parsers_ok f :
  or_ok f /\ and_ok f /\ unary_ok f /\
  terms_ok (bs "OR") (fun d => hU d + 1) (orTerms f) f /\ terms_ok (bs "AND") hU (andTerms f) f.
Proof.
  induction f as [|f (Hor & Hand & Hun & Hots & Hats)].
  { split; [|split; [|split; [|split]]]; intros ? **; lia. }
  split; [|split; [|split; [|split]]].
  - intros p Hwf Hf. cbn [parseOr]. replace (hU (p_depth p) + 2) with ((hU (p_depth p) + 1) + 1) by lia.
    apply (chain_ok (bs "OR") (fun d => hU d + 1) (parseAnd f) (orTerms f) OrE 3 f);
      [lia|intros l; apply can_Or|apply size_Or|apply height_Or|intros; by apply Hand|done|done|lia].
  - intros p Hwf Hf. cbn [parseAnd].
    apply (chain_ok (bs "AND") hU (parseUnary f) (andTerms f) AndE 2 f);
      [lia|intros l; apply can_And|apply size_And|apply height_And|intros; by apply Hun|done|done|lia].
  - by apply parse_unary_step.
  - intros p terms Hwf Hf Hterms. cbn [orTerms].
    refine (terms_step (bs "OR") (fun d => hU d + 1) (parseAnd f) (orTerms f) 3 f _ _ Hots p terms Hwf Hf Hterms);
      [lia|intros; by apply Hand].
  - intros p terms Hwf Hf Hterms. cbn [andTerms].
    refine (terms_step (bs "AND") hU (parseUnary f) (andTerms f) 2 f _ _ Hats p terms Hwf Hf Hterms);
      [lia|intros; by apply Hun].
Qed.

Lemma parsePredicate_safe p (Q : Expr -> parser -> Prop) :
  wf p -> (forall e p', built (hU (p_depth p) + 2) p e p' -> Q e p') -> safe parsePredicate p Q.
Proof.
  intros Hwf HQ. apply safe_bind, safe_get. eapply safe_mono; [apply parsers_ok; [done|lia]|exact HQ].
Qed.
End Safe.
