(* ===== verification/MqlTotal.v ===== *)
(** * MqlTotal: parsing always answers

    The fields, the clauses and the query forms under the [safe] calculus,
    and the lexer's loop; together: [ParseDiags] ends on every input with a
    query or an error of its own. *)

From Stdlib Require Import ZArith Lia Bool Strings.Byte Strings.String.
From S2P Require Import Prelude Bytes Float64 GoStd MqlAst MqlLex MqlParse MqlQuery MqlSafe.

Section Fields.
Context `{Unicode} `{FloatText}.

Lemma step_app n m p1 p2 p3 k : (k <= n + m)%nat -> step n p1 p2 -> step m p2 p3 -> step k p1 p3.
Proof. intros Hk H12 H23. eapply step_weaken; [exact Hk|]. by eapply step_trans. Qed.

Lemma clamp_bound_safe c p (Q : Clamp -> parser -> Prop) :
  wf p -> (forall c p', step 2 p p' -> Q c p') -> safe (clamp_bound c) p Q.
Proof.
  intros Hwf HQ. apply safe_bind. accept_.
  - apply safe_bind. accept_; [by apply safe_errf|]. intros p1 H1.
    apply safe_bind, number_safe; [apply H1|]. intros f p2 H2.
    destruct (is_none _); [|apply safe_errf, H2]. apply safe_ret, HQ. by apply (step_app 1 1 _ p1).
  - intros p1 H1. apply safe_bind, number_safe; [apply H1|]. intros f p2 H2.
    destruct (is_none _); [|apply safe_errf, H2]. apply safe_ret, HQ. by apply (step_app 1 1 _ p1).
Qed.

Lemma clamp_loop_safe fuel : forall c p (Q : Clamp -> parser -> Prop),
  wf p -> (length (p_toks p) <= fuel)%nat -> (forall c p', step 1 p p' -> Q c p') -> safe (clamp_loop fuel c) p Q.
Proof.
  induction fuel as [|f IH]; intros c p Q Hwf Hf HQ.
  { destruct (toks_ok_head _ Hwf) as (t & l & E & _). rewrite E in Hf. cbn in Hf. lia. }
  cbn [clamp_loop]. apply safe_bind, clamp_bound_safe; [done|]. intros c1 p1 H1.
  apply safe_bind, acceptCommaBefore_safe; [apply H1| |].
  - apply safe_ret, HQ. by apply (step_weaken 2); [lia|].
  - intros p2 H2. apply IH; [apply H2|destruct H1, H2; lia|]. intros c3 p3 H3. apply HQ.
    apply (step_app 2 2 _ p1); [lia|done|]. by apply (step_app 1 1 _ p2).
Qed.

Lemma clamp_else_safe c p (Q : Clamp -> parser -> Prop) :
  wf p -> (forall c p', step 0 p p' -> Q c p') -> safe (clamp_else c) p Q.
Proof.
  intros Hwf HQ. apply safe_bind. accept_; [apply safe_ret, HQ; by apply step_refl|]. intros p1 H1.
  apply safe_bind. eapply accept_safe; [apply H1|done| |].
  - apply safe_bind. eapply accept_safe; [apply H1|done|apply safe_errf, H1|].
    intros p2 H2. apply safe_ret, HQ. by apply (step_app 1 1 _ p1); [lia|..].
  - intros p2 H2. apply safe_ret, HQ. by apply (step_app 1 1 _ p1); [lia|..].
Qed.

Lemma clamp_safe p (Q : Clamp -> parser -> Prop) :
  wf p -> (forall c p', step 1 p p' -> Q c p') -> safe clamp p Q.
Proof.
  intros Hwf HQ. apply safe_bind, safe_get, safe_bind, clamp_loop_safe; [done|lia|]. intros c p1 H1.
  apply safe_bind, safe_cur; [apply H1|]. intros t l _ _.
  destruct (_ || _); [apply safe_errf, H1|].
  apply safe_bind, clamp_else_safe; [apply H1|]. intros c2 p2 H2.
  destruct (_ && _); [apply safe_errf, H2|]. apply safe_ret, HQ. by apply (step_app 1 0 _ p1).
Qed.

Lemma sse_safe p (Q : SSE -> parser -> Prop) :
  wf p -> (forall s p', step 1 p p' -> Q s p') -> safe sse p Q.
Proof.
  intros Hwf HQ. apply safe_bind. accept_; [|intros p1 H1; by apply safe_ret, HQ].
  apply safe_bind. accept_; [|intros p1 H1; by apply safe_ret, HQ].
  pose proof (number_safe p (fun (_ : f64) p' => step 1 p p') Hwf ltac:(done)) as Hn. unfold safe in *.
  destruct (number p) as [[v p']|e]; [by apply HQ|].
  pose proof (fun msg => safe_errf (A:=SSE) msg p Q Hwf) as He. unfold safe in He.
  destruct e; try apply He. by destruct Hn.
Qed.

Lemma mark_safe what rank sets st p (Q : field_st -> parser -> Prop) :
  wf p -> (forall st', fs_fe st' = fs_fe st -> Q st' p) -> safe (mark what rank sets st) p Q.
Proof.
  intros Hwf HQ. unfold mark. destruct (List.find _ _); [destruct (bytes_eqb _ _); by apply safe_errf|].
  by apply safe_ret, HQ.
Qed.

(** A field is named by its column or by its bucket set. *)
Definition named (fe : FieldExpr) : Prop := fe_Field fe <> [] \/ fe_Histogram fe <> [].

Lemma modifier_safe st p (Q : bool * field_st -> parser -> Prop) :
  wf p -> named (fs_fe st) ->
  (forall (b : bool) st' p', named (fs_fe st') -> step (if b then 1 else 0)%nat p p' -> Q (b, st') p') ->
  safe (modifier st) p Q.
Proof.
  intros Hwf Hn HQ. apply safe_bind, safe_cur; [done|]. intros t l E Hl.
  assert (Hmark : forall what rank sets kw (k : field_st -> P (bool * field_st)),
    is_tok tokKeyword kw t = true ->
    (forall st' p1, fs_fe st' = fs_fe st -> step 1 p p1 -> safe (k st') p1 Q) ->
    safe (advance ;; st ← mark what rank sets st; k st) p Q).
  { intros what rank sets kw k Et Hk. eapply safe_take; [exact E|done|by rewrite (is_tok_kind _ _ _ Et)|].
    intros p1 H1. apply safe_bind, mark_safe; [apply H1|]. intros st' E'. by apply Hk. }
  assert (Hdone : forall f st' p1, fs_fe st' = fs_fe st -> step 1 p p1 -> safe (mret (true, upd_mods f st')) p1 Q).
  { intros f st' p1 E' H1. apply safe_ret, HQ; [|done]. unfold named. cbn. by rewrite E'. }
  destruct (is_tok _ (bs "RATE") t) eqn:Et1; [eapply Hmark; [exact Et1|apply Hdone]|].
  destruct (is_tok _ (bs "DELTA") t) eqn:Et2; [eapply Hmark; [exact Et2|apply Hdone]|].
  destruct (is_tok _ (bs "PER") t) eqn:Et3.
  { eapply safe_take; [exact E|done|by rewrite (is_tok_kind _ _ _ Et3)|]. intros p1 H1.
    apply safe_bind, expectKeyword_safe; [apply H1|]. intros p2 H2.
    apply safe_bind, mark_safe; [apply H2|]. intros st' E'. apply Hdone; [done|]. by apply (step_app 1 1 _ p1); [lia|..]. }
  destruct (is_tok _ (bs "NEGATE") t) eqn:Et4; [eapply Hmark; [exact Et4|apply Hdone]|].
  destruct (is_tok _ (bs "REQUIRED") t) eqn:Et5; [eapply Hmark; [exact Et5|apply Hdone]|].
  destruct (is_tok _ (bs "GAP") t) eqn:Et6.
  { eapply Hmark; [exact Et6|]. intros st' p1 E' H1. apply safe_bind, duration_safe; [apply H1|]. intros d p2 H2.
    apply Hdone; [done|]. by apply (step_app 1 1 _ p1); [lia|..]. }
  destruct (is_tok _ (bs "SSE") t) eqn:Et7.
  { eapply Hmark; [exact Et7|]. intros st' p1 E' H1. apply safe_bind, sse_safe; [apply H1|]. intros d p2 H2.
    apply Hdone; [done|]. by apply (step_app 1 1 _ p1); [lia|..]. }
  destruct (is_tok _ (bs "CLAMP") t) eqn:Et8.
  { eapply Hmark; [exact Et8|]. intros st' p1 E' H1. apply safe_bind, clamp_safe; [apply H1|]. intros d p2 H2.
    apply Hdone; [done|]. by apply (step_app 1 1 _ p1); [lia|..]. }
  destruct (is_tok _ (bs "AS") t) eqn:Et9.
  - eapply safe_take; [exact E|done|by rewrite (is_tok_kind _ _ _ Et9)|]. intros p1 H1.
    apply safe_bind, name_safe; [apply H1|]. intros n p2 _ H2. apply safe_ret, HQ; [done|].
    by apply (step_app 1 1 _ p1); [lia|..].
  - apply safe_ret, HQ; [done|by apply step_refl].
Qed.

Lemma modifiers_loop_safe fuel : forall st p (Q : field_st -> parser -> Prop),
  wf p -> (length (p_toks p) <= fuel)%nat -> named (fs_fe st) ->
  (forall st' p', named (fs_fe st') -> step 0 p p' -> Q st' p') -> safe (modifiers_loop fuel st) p Q.
Proof.
  induction fuel as [|f IH]; intros st p Q Hwf Hf Hn HQ.
  { destruct (toks_ok_head _ Hwf) as (t & l & E & _). rewrite E in Hf. cbn in Hf. lia. }
  cbn [modifiers_loop]. apply safe_bind, modifier_safe; [done|done|]. intros b st1 p1 Hn1 H1.
  cbn [fst snd]. destruct b; [|by apply safe_ret, HQ].
  apply IH; [apply H1|destruct H1; lia|done|]. intros st2 p2 Hn2 H2. apply HQ; [done|].
  by apply (step_app 1 0 _ p1); [lia|..].
Qed.

Lemma parseFieldExpr_safe p : wf p -> safe parseFieldExpr p (fun fe p' => named fe /\ step 1 p p').
Proof.
  intros Hwf. apply safe_bind.
  assert (Hrest : forall fe p1, named fe -> step 1 p p1 ->
    safe (p0 ← get_p;
          st ← modifiers_loop (S (length (p_toks p0))) {| fs_seen := []; fs_lastRank := 0; fs_outOfOrder := false; fs_fe := fe |};
          (if fs_outOfOrder st
           then modify_p (fun p => set_diags (p_diags p ++ [W101 (FieldExpr_Name (fs_fe st))]) p)
           else mret tt) ;; mret (fs_fe st)) p1 (fun fe p' => named fe /\ step 1 p p')).
  { intros fe p1 Hn H1. apply safe_bind, safe_get, safe_bind, modifiers_loop_safe; [apply H1|lia|done|].
    intros st p2 Hn2 H2. apply safe_bind. assert (H12 : step 1 p p2) by (by apply (step_app 1 0 _ p1)).
    destruct (fs_outOfOrder st); [apply safe_modify|apply safe_ret]; apply safe_ret; (split; [done|]); [|done].
    destruct H12. by split. }
  unfold field_head. apply safe_bind. accept_.
  - apply safe_bind, name_safe; [done|]. intros n p1 Hne H1. apply safe_ret, Hrest; [by left|done].
  - intros p1 H1. apply safe_bind, expectPunct_safe; [apply H1|]. intros p2 H2.
    apply safe_bind, name_safe; [apply H2|]. intros n p3 Hne H3.
    apply safe_bind, expectPunct_safe; [apply H3|]. intros p4 H4. apply safe_ret, Hrest; [by right|].
    apply (step_app 1 1 _ p1); [lia|done|]. apply (step_app 1 1 _ p2); [lia|done|]. by apply (step_app 1 1 _ p3); [lia|..].
Qed.
End Fields.

(** ** The clauses *)

Section Queries.
Context `{Unicode} `{FloatText}.

(** What [Parse] guarantees of a tree: a FROM, a SELECT and names that are
    not empty where the kind reads them, and a predicate that is absent or
    canonical, within the node bound, and not much higher than the group
    depth allows. *)
Definition where_ok (e : Expr) : Prop :=
  e = EmptyE \/ (canonical e /\ size e <= MaxPredicateNodes /\ height e <= 129).
Record query_wf (q : Query) : Prop := {
  qw_where : where_ok (q_Where q);
  qw_select : Forall named (q_Select q);
  qw_by : Forall (fun l => l <> []) (q_By q);
  qw_kind :
    (q_Kind q = KindQuery /\ q_From q <> [] /\ q_Select q <> []) \/
    (q_Kind q = KindSets /\ q = blank_query KindSets) \/
    (q_Kind q = KindFields /\ q_From q <> [] /\ q = from_query KindFields (q_From q)) \/
    (q_Kind q = KindLabelKeys /\ q_From q <> [] /\ q = from_query KindLabelKeys (q_From q)) \/
    (q_Kind q = KindLabels /\ q_Label q <> [] /\ q = labels_query (q_Label q) (q_Where q));
}.

Lemma optional_safe {A} kw (m : P A) p (Q : option A -> parser -> Prop) :
  wf p -> Q None p -> (forall p1, step 1 p p1 -> safe m p1 (fun a p' => Q (Some a) p')) -> safe (optional kw m) p Q.
Proof.
  intros Hwf Hn Hs. apply safe_bind. accept_; [by apply safe_ret|]. intros p1 H1. apply safe_bind.
  eapply safe_mono; [by apply Hs|]. intros a p2 Ha. by apply safe_ret.
Qed.

(** A parser some way into a query, its predicate counters untouched. *)
Definition fresh_counters (p : parser) : Prop := p_nodes p = 0 /\ p_depth p = 0.

Lemma predicate_where p (Q : Expr -> parser -> Prop) :
  wf p -> fresh_counters p -> (forall e p', where_ok e -> wf p' -> Q e p') -> safe parsePredicate p Q.
Proof.
  intros Hwf [Hn Hd] HQ. apply parsePredicate_safe; [done|]. intros e p' []. apply HQ; [|done].
  rewrite Hn, Hd in *. right. unfold hU, MaxPredicateDepth in *. split; [done|]. split; lia.
Qed.

Lemma limit_loop_safe fuel : forall l p (Q : Limits -> parser -> Prop),
  wf p -> (length (p_toks p) <= fuel)%nat -> (forall l p', wf p' -> Q l p') -> safe (limit_loop fuel l) p Q.
Proof.
  induction fuel as [|f IH]; intros l p Q Hwf Hf HQ.
  { destruct (toks_ok_head _ Hwf) as (t & r & E & _). rewrite E in Hf. cbn in Hf. lia. }
  cbn [limit_loop]. apply safe_bind.
  assert (Hmore : forall l p1, step 2 p p1 ->
    safe (more ← acceptPunct (bs ","); if more : bool then limit_loop f l else mret l) p1 Q).
  { intros l1 p1 H1. apply safe_bind. eapply accept_safe; [apply H1|done|apply safe_ret, HQ, H1|].
    intros p2 H2. apply IH; [apply H2|destruct H1, H2; lia|done]. }
  apply safe_bind. accept_.
  - apply safe_bind. accept_; [by apply safe_errf|]. intros p1 H1.
    apply safe_bind, integer_safe; [apply H1|]. intros n p2 H2.
    destruct (is_none _); [|apply safe_errf, H2]. apply safe_ret, Hmore. by apply (step_app 1 1 _ p1).
  - intros p1 H1. apply safe_bind, integer_safe; [apply H1|]. intros n p2 H2.
    destruct (is_none _); [|apply safe_errf, H2]. apply safe_ret, Hmore. by apply (step_app 1 1 _ p1).
Qed.

Lemma parseFormat_safe p (Q : Format -> parser -> Prop) :
  wf p -> (forall f p', step 1 p p' -> Q f p') -> safe parseFormat p Q.
Proof.
  intros Hwf HQ. apply safe_bind, name_safe; [done|]. intros n p1 _ H1.
  cbv beta zeta. break_if; [|apply safe_errf, H1]. by apply safe_ret, HQ.
Qed.

(** The clauses after WHERE. *)
Lemma tail_clauses_safe (k : list gostr -> option Z -> option Format -> option Limits -> Query) p (Q : Query -> parser -> Prop) :
  wf p -> (forall by_ ev fm li p', Forall (fun l => l <> []) by_ -> wf p' -> Q (k by_ ev fm li) p') ->
  safe (by_ ← optional (bs "BY") (comma_list (name (bs "a label key")));
        every ← optional (bs "EVERY") duration;
        fmt ← optional (bs "FORMAT") parseFormat;
        p ← get_p;
        lim ← optional (bs "LIMIT") (limit_loop (S (length (p_toks p))) no_limits);
        mret (k (default [] by_) every fmt lim)) p Q.
Proof.
  intros Hwf HQ.
  assert (Hlim : forall by_ ev fm p1, Forall (fun l => l <> []) by_ -> wf p1 ->
    safe (p ← get_p;
          lim ← optional (bs "LIMIT") (limit_loop (S (length (p_toks p))) no_limits);
          mret (k by_ ev fm lim)) p1 Q).
  { intros by_ ev fm p1 Hby Hw. apply safe_bind, safe_get, safe_bind, optional_safe; [done|by apply safe_ret, HQ|].
    intros p2 H2. apply limit_loop_safe; [apply H2|destruct H2; lia|]. intros l p3 Hw3. by apply safe_ret, HQ. }
  assert (Hfmt : forall by_ ev p1, Forall (fun l => l <> []) by_ -> wf p1 ->
    safe (fmt ← optional (bs "FORMAT") parseFormat;
          p ← get_p;
          lim ← optional (bs "LIMIT") (limit_loop (S (length (p_toks p))) no_limits);
          mret (k by_ ev fmt lim)) p1 Q).
  { intros by_ ev p1 Hby Hw. apply safe_bind, optional_safe; [done|by apply Hlim|].
    intros p2 H2. apply parseFormat_safe; [apply H2|]. intros f p3 H3. apply Hlim; [done|apply H3]. }
  assert (Hev : forall by_ p1, Forall (fun l => l <> []) by_ -> wf p1 ->
    safe (every ← optional (bs "EVERY") duration;
          fmt ← optional (bs "FORMAT") parseFormat;
          p ← get_p;
          lim ← optional (bs "LIMIT") (limit_loop (S (length (p_toks p))) no_limits);
          mret (k by_ every fmt lim)) p1 Q).
  { intros by_ p1 Hby Hw. apply safe_bind, optional_safe; [done|by apply Hfmt|].
    intros p2 H2. apply duration_safe; [apply H2|]. intros d p3 H3. apply Hfmt; [done|apply H3]. }
  apply safe_bind, optional_safe; [done|by apply Hev|]. intros p1 H1.
  eapply (comma_list_safe _ (fun l => l <> [])); [|apply H1|].
  { intros q Hq. apply name_safe; [done|]. by split. }
  intros l p2 Hl _ H2. apply Hev; [done|apply H2].
Qed.

Lemma parseDataQuery_safe p :
  wf p -> fresh_counters p -> safe parseDataQuery p (fun q p' => query_wf q /\ wf p').
Proof.
  intros Hwf Hc. apply safe_bind, expectKeyword_safe; [done|]. intros p1 H1.
  apply safe_bind, name_safe; [apply H1|]. intros set p2 Hset H2.
  apply safe_bind, expectKeyword_safe; [apply H2|]. intros p3 H3.
  apply safe_bind. eapply (comma_list_safe _ named); [by apply parseFieldExpr_safe|apply H3|]. intros sel p4 Hsel Hne H4.
  assert (Hc4 : fresh_counters p4).
  { destruct H1, H2, H3, H4, Hc. unfold fresh_counters. split; congruence. }
  assert (Htail : forall wh p5, where_ok (default EmptyE wh) -> wf p5 ->
    safe (by_ ← optional (bs "BY") (comma_list (name (bs "a label key")));
          every ← optional (bs "EVERY") duration;
          fmt ← optional (bs "FORMAT") parseFormat;
          p ← get_p;
          lim ← optional (bs "LIMIT") (limit_loop (S (length (p_toks p))) no_limits);
          mret {| q_Kind := KindQuery; q_From := set; q_Select := sel; q_Where := default EmptyE wh;
                  q_By := default [] by_; q_EveryMs := every; q_Format := default FormatTimeseries fmt;
                  q_Limits := default no_limits lim; q_Label := [] |}) p5 (fun q p' => query_wf q /\ wf p')).
  { intros wh p5 Hwh Hw5.
    apply (tail_clauses_safe (fun by_ ev fm li =>
      {| q_Kind := KindQuery; q_From := set; q_Select := sel; q_Where := default EmptyE wh;
         q_By := by_; q_EveryMs := ev; q_Format := default FormatTimeseries fm;
         q_Limits := default no_limits li; q_Label := [] |})); [done|].
    intros by_ ev fm li p6 Hby Hw6. split; [|done]. split; cbn; try done. by left. }
  apply safe_bind, optional_safe; [apply H4|apply Htail; [by left|apply H4]|].
  intros p5 H5. apply predicate_where; [apply H5| |].
  - destruct H5, Hc4. split; congruence.
  - intros e p6 He Hw6. by apply Htail.
Qed.

Lemma parseQuery_safe p :
  wf p -> fresh_counters p -> safe parseQuery p (fun q p' => query_wf q /\ wf p').
Proof.
  intros Hwf Hc.
  assert (Hfrom : forall k p1, wf p1 -> k = KindFields \/ k = KindLabelKeys ->
    safe (expectKeyword (bs "FROM") ;; set ← name (bs "a set name"); mret (from_query k set)) p1
      (fun q p' => query_wf q /\ wf p')).
  { intros k p1 Hw1 Hk. apply safe_bind, expectKeyword_safe; [done|]. intros p2 H2.
    apply safe_bind, name_safe; [apply H2|]. intros set p3 Hs H3. apply safe_ret. split; [|apply H3].
    split; cbn; try done; [by left|]. destruct Hk as [-> | ->]; [right; right; left|do 3 right; left]; done. }
  apply safe_bind. accept_.
  2: { intros p1 H1. apply safe_ret. split; [|apply H1]. split; cbn; try done; [by left|]. right. by left. }
  apply safe_bind. accept_; [|intros p1 H1; apply Hfrom; [apply H1|by left]].
  apply safe_bind. accept_.
  2: { intros p1 H1. apply safe_bind, expectKeyword_safe; [apply H1|]. intros p2 H2. apply Hfrom; [apply H2|by right]. }
  apply safe_bind. accept_; [by apply parseDataQuery_safe|].
  intros p1 H1. apply safe_bind, name_safe; [apply H1|]. intros l p2 Hl H2.
  assert (Hend : forall wh p3, where_ok (default EmptyE wh) -> wf p3 ->
    safe (mret (labels_query l (default EmptyE wh))) p3 (fun q p' => query_wf q /\ wf p')).
  { intros wh p3 Hwh Hw3. apply safe_ret. split; [|done]. split; cbn; try done. by do 4 right. }
  apply safe_bind, optional_safe; [apply H2|apply Hend; [by left|apply H2]|].
  intros p3 H3. apply predicate_where; [apply H3| |].
  - destruct H1, H2, H3, Hc. split; congruence.
  - intros e p4 He Hw4. by apply Hend.
Qed.
End Queries.

(** * MqlLexProofs: the lexer's loop and its scanners

    Every scanner splits the text it reads; a token takes at least a byte,
    so the loop ends; and one step of the loop is a function of the text
    alone, which is what the printer's proofs walk along. *)


Section Scanners.
Context `{U : Unicode} `{!UnicodeLaws U}.

Lemma take_drop_split (n : nat) (s w rest : gostr) : drop n s = w ++ rest -> s = (take n s ++ w) ++ rest.
Proof. intros E. rewrite <- app_assoc, <- E. by rewrite take_drop. Qed.

Lemma scanIdent_loop_split fuel : forall s w rest, scanIdent_loop fuel s = (w, rest) -> s = w ++ rest.
Proof.
  induction fuel as [|f IH]; intros s w rest E; [by injection E as <- <-|].
  destruct s as [|b s']; [by injection E as <- <-|]. cbn [scanIdent_loop] in E. revert E.
  destruct (DecodeRune (b :: s')) as [r size]. destruct (_ && _); [by intros [= <- <-]|].
  destruct (negb _); [by intros [= <- <-]|].
  destruct (scanIdent_loop f (drop (Z.to_nat size) (b :: s'))) as [w0 rest0] eqn:E0. intros [= <- <-].
  by apply take_drop_split, IH.
Qed.
Lemma scanIdent_split s w rest : scanIdent s = (w, rest) -> s = w ++ rest.
Proof. apply scanIdent_loop_split. Qed.

Lemma scan_unit_loop_split fuel : forall s w rest, scan_unit_loop fuel s = (w, rest) -> s = w ++ rest.
Proof.
  induction fuel as [|f IH]; intros s w rest E; [by injection E as <- <-|].
  destruct s as [|b s']; [by injection E as <- <-|]. cbn [scan_unit_loop] in E. revert E.
  destruct (DecodeRune (b :: s')) as [r size]. destruct (negb _); [by intros [= <- <-]|].
  destruct (scan_unit_loop f (drop (Z.to_nat size) (b :: s'))) as [w0 rest0] eqn:E0. intros [= <- <-].
  by apply take_drop_split, IH.
Qed.

Lemma scan_sign_split s w rest : scan_sign s = (w, rest) -> s = w ++ rest.
Proof. destruct s as [|c t]; cbn; [by intros [= <- <-]|]. destruct (is_sign c); by intros [= <- <-]. Qed.
Lemma scan_number_split s : forall dot w rest, scan_number dot s = (w, rest) -> s = w ++ rest.
Proof.
  induction s as [|c t IH]; intros dot w rest; cbn; [by intros [= <- <-]|].
  destruct (is_digit c).
  - destruct (scan_number dot t) as [w0 r0] eqn:E. intros [= <- <-]. cbn. by rewrite <- (IH _ _ _ E).
  - destruct (_ && _); [|by intros [= <- <-]].
    destruct (scan_number true t) as [w0 r0] eqn:E. intros [= <- <-]. cbn. by rewrite <- (IH _ _ _ E).
Qed.
Lemma scan_digits_split s : forall w rest, scan_digits s = (w, rest) -> s = w ++ rest.
Proof.
  induction s as [|c t IH]; intros w rest; cbn; [by intros [= <- <-]|].
  destruct (is_digit c); [|by intros [= <- <-]].
  destruct (scan_digits t) as [w0 r0]. intros [= <- <-]. cbn. f_equal. by apply IH.
Qed.
Lemma scan_exponent_split s w rest : scan_exponent s = Some (w, rest) -> s = w ++ rest.
Proof.
  destruct s as [|c t]; [done|]. cbn. destruct (_ || _); [|done].
  destruct (scan_sign t) as [sg t1] eqn:E1, (scan_digits t1) as [ds t2] eqn:E2.
  apply scan_sign_split in E1 as ->. apply scan_digits_split in E2 as ->.
  destruct ds as [|d ds]; [done|]. intros [= <- <-]. change (c :: sg ++ (d :: ds) ++ t2 = c :: (sg ++ d :: ds) ++ t2).
  by rewrite <- app_assoc.
Qed.

(** ** A token takes a byte *)

Lemma lexQuoted_loop_shorter n : forall delim s acc w rest, (length s <= n)%nat ->
  lexQuoted_loop delim s acc = Some (w, rest) -> (length rest < length s)%nat.
Proof.
  induction n as [|n IH]; intros delim s acc w rest Hn.
  { destruct s; [done|cbn in Hn; lia]. }
  destruct s as [|c [|d t]]; cbn [lexQuoted_loop]; [done| |].
  - destruct (byte_eqb c delim); [|done]. intros [= <- <-]. cbn. lia.
  - cbn [length] in *. destruct (byte_eqb c x5c).
    + intros E. apply IH in E; [lia|lia].
    + destruct (byte_eqb c delim); [intros [= <- <-]; cbn; lia|].
      intros E. apply (IH _ (d :: t)) in E; [cbn in E; lia|cbn; lia].
Qed.
Lemma lexQuoted_shorter delim c t w rest : lexQuoted delim (c :: t) = Some (w, rest) -> (length rest <= length t)%nat.
Proof.
  unfold lexQuoted. change (drop 1 (c :: t)) with t. intros E.
  pose proof (lexQuoted_loop_shorter (length t) _ _ _ _ _ (le_n _) E). lia.
Qed.

Lemma lexNumber_shorter c t k w rest :
  is_digit c || (byte_eqb c x2d && peekDigit t) || (byte_eqb c x2b && peekDigit t) = true ->
  lexNumber (c :: t) = (k, w, rest) -> (length rest <= length t)%nat /\ (k = tokNumber \/ k = tokDuration).
Proof.
  intros Hc. unfold lexNumber.
  destruct (scan_sign (c :: t)) as [sg s1] eqn:E1, (scan_number false s1) as [ds s2] eqn:E2.
  assert (Hlen : (length s2 <= length t)%nat).
  { revert E1 E2. cbn [scan_sign]. destruct (is_sign c) eqn:Es.
    - intros [= <- <-] E2. apply scan_number_split in E2. rewrite E2, length_app. lia.
    - intros [= <- <-]. cbn [scan_number]. assert (is_digit c = true) as ->.
      { unfold is_sign in Es. apply orb_false_iff in Es as [E E']. rewrite E, E' in Hc. cbn in Hc. by rewrite !orb_false_r in Hc. }
      destruct (scan_number false t) as [w0 r0] eqn:E. intros [= <- <-].
      apply scan_number_split in E. rewrite E, length_app. lia. }
  destruct (scan_exponent s2) as [[ex s3]|] eqn:E3.
  - intros [= <- <- <-]. apply scan_exponent_split in E3. rewrite E3, length_app in Hlen. split; [lia|by left].
  - destruct (scan_unit s2) as [u s3] eqn:E4. apply scan_unit_loop_split in E4.
    assert ((length s3 <= length s2)%nat) by (rewrite E4, length_app; lia).
    destruct (is_unit u); [intros [= <- <- <-]; split; [lia|by right]|].
    destruct (is_nil u); intros [= <- <- <-]; (split; [lia|by left]).
Qed.

Lemma IsLetter_replacement : IsLetter RuneError = false.
Proof. unfold IsLetter. cbn. apply letter_replacement. Qed.

Lemma isIdentStart_rune r : isIdentStart r = true -> isIdentRune r = true.
Proof.
  unfold isIdentStart, isIdentRune. intros [->| ->]%orb_true_iff; [done|]. by rewrite !orb_true_r.
Qed.
Lemma isIdentStart_not_error r : isIdentStart r = true -> (r =? RuneError) = false.
Proof.
  intros Hr. destruct (r =? RuneError) eqn:E; [|done]. apply Z.eqb_eq in E as ->.
  unfold isIdentStart in Hr. by rewrite IsLetter_replacement in Hr.
Qed.

Lemma scanIdent_shorter c t w rest :
  isIdentStart (fst (DecodeRune (c :: t))) = true -> scanIdent (c :: t) = (w, rest) -> (length rest <= length t)%nat.
Proof.
  intros Hs. pose proof (DecodeRune_size c t) as Hsize.
  unfold scanIdent. cbn [length scanIdent_loop].
  destruct (DecodeRune (c :: t)) as [r size]. cbn [fst snd] in *.
  rewrite isIdentStart_not_error, isIdentStart_rune by done. cbn [andb negb].
  destruct (scanIdent_loop (length t) (drop (Z.to_nat size) (c :: t))) as [w0 r0] eqn:E. intros [= <- <-].
  apply scanIdent_loop_split in E. apply (f_equal length) in E. rewrite length_drop, length_app in E.
  cbn [length] in *. lia.
Qed.

Lemma lex_variable_shorter start t k w rest :
  lex_variable start t = Ok (k, w, rest) -> (length rest <= length t)%nat /\ k = tokVariable.
Proof.
  unfold lex_variable. destruct (match t with [] => _ | b :: t' => _ end) as [braced t1] eqn:E1.
  assert (H1 : (length t1 <= length t)%nat).
  { destruct t as [|b t']; [by injection E1 as <- <-|]. destruct (byte_eqb b x7b); injection E1 as <- <-; cbn; lia. }
  destruct (scanIdent t1) as [nm t2] eqn:E2. apply scanIdent_split in E2.
  assert (H2 : (length t2 <= length t1)%nat) by (rewrite E2, length_app; lia).
  intros (t3 & E3 & E4)%rbind_ok_inv. destruct (is_nil nm); [done|]. injection E4 as <- <- <-. split; [|done].
  destruct braced; [|injection E3 as <-; lia].
  destruct t2 as [|b t']; [done|]. destruct (byte_eqb b x7d); [|done]. injection E3 as <-. cbn in H2. lia.
Qed.

Lemma lex_token_shorter start c t k w rest :
  lex_token start (c :: t) = Ok (k, w, rest) -> (length rest <= length t)%nat /\ k <> tokEOF.
Proof.
  unfold lex_token. destruct (DecodeRune (c :: t)) as [r size] eqn:Er.
  destruct (byte_eqb c x22).
  { destruct (lexQuoted x22 (c :: t)) as [[w' rest']|] eqn:E; [|done]. intros [= <- <- <-].
    split; [by apply lexQuoted_shorter in E|done]. }
  destruct (byte_eqb c x2f).
  { destruct (lexQuoted x2f (c :: t)) as [[w' rest']|] eqn:E; [|done]. intros [= <- <- <-].
    split; [by apply lexQuoted_shorter in E|done]. }
  destruct (byte_eqb c x24); [intros [? ->]%lex_variable_shorter; by split|].
  destruct (is_digit c || _ || _) eqn:En.
  { intros E. injection E as E. destruct (lexNumber_shorter _ _ _ _ _ En E) as [? [-> | ->]]; by split. }
  destruct (isIdentStart r) eqn:Es.
  { destruct (scanIdent (c :: t)) as [word rest'] eqn:E.
    assert (Hl : (length rest' <= length t)%nat) by (eapply scanIdent_shorter; [|exact E]; by rewrite Er).
    destruct (is_keyword _); intros [= <- <- <-]; by split. }
  destruct (byte_eqb c x2c || byte_eqb c x28 || byte_eqb c x29); [intros E; injection E as <- _ <-; by split|].
  destruct (byte_eqb c x3d).
  { destruct t as [|d t']; [by intros [= <- <- <-]|]. destruct (byte_eqb d x7e); intros [= <- <- <-]; cbn; (split; [lia|done]). }
  destruct (byte_eqb c x21); [|done].
  destruct t as [|d t']; [done|]. destruct (byte_eqb d x3d || byte_eqb d x7e); [|done].
  intros E. injection E as <- _ <-. cbn. split; [lia|done].
Qed.

(** An error of the lexer is always positioned. *)
Lemma lex_token_err start s e : lex_token start s = Err e -> exists pos msg, e = ParseError pos msg.
Proof.
  unfold lex_token, lex_variable. intros Hl.
  repeat (break_match; try discriminate; try (injection Hl as <-; by eauto)).
  all: repeat match goal with
    | E : rbind _ _ = Err _ |- _ => apply rbind_err_inv in E as [E|(? & _ & E)]
    | E : context [match ?x with _ => _ end] |- _ => destruct x; try discriminate
    | E : Err _ = Err _ |- _ => injection E as <-; by eauto
    end.
Qed.

Lemma skip_line_length s : (length (skip_line s) <= length s)%nat.
Proof. induction s as [|c t IH]; cbn; [done|]. destruct (byte_eqb c x0a); cbn; lia. Qed.
Lemma skip_loop_length fuel : forall s, (length (skip_loop fuel s) <= length s)%nat.
Proof.
  induction fuel as [|f IH]; intros s; [by destruct s|]. destruct s as [|c t]; [done|]. cbn [skip_loop].
  destruct (is_space c); [specialize (IH t); cbn; lia|].
  destruct t as [|d t']; [done|]. destruct (_ && _); [|done].
  etransitivity; [apply IH|]. apply skip_line_length.
Qed.

Definition positioned {A} (r : result mql_err A) (Q : A -> Prop) : Prop :=
  match r with Ok a => Q a | Err e => exists pos msg, e = ParseError pos msg end.

Lemma lex_loop_total total fuel : forall s, (length s < fuel)%nat ->
  positioned (lex_loop fuel total s) toks_ok.
Proof.
  induction fuel as [|f IH]; intros s Hf; [lia|]. cbn [lex_loop].
  pose proof (skip_loop_length (length s) s) as Hskip. fold (skipSpaceAndComments s) in Hskip.
  destruct (skipSpaceAndComments s) as [|c t].
  { exists [], {| tk_kind := tokEOF; tk_text := []; tk_pos := total - zlen (@nil byte) |}. by split. }
  set (start := total - zlen (c :: t)). destruct (lex_token start (c :: t)) as [[[k w] rest]|e] eqn:E.
  2: { cbn. by apply lex_token_err in E. }
  apply lex_token_shorter in E as [Hlen Hk]. cbn [rbind].
  specialize (IH rest ltac:(cbn in Hskip; lia)). destruct (lex_loop f total rest) as [toks|e]; [|exact IH].
  destruct IH as (init & e & -> & He & Hi). cbn [rbind positioned].
  exists ({| tk_kind := k; tk_text := w; tk_pos := start |} :: init), e. split; [done|]. split; [done|]. by constructor.
Qed.

Lemma lex_total src : positioned (lex src) toks_ok.
Proof.
  unfold lex. destruct (zlen src >? MaxQueryBytes); [by do 2 eexists|]. apply lex_loop_total. lia.
Qed.
End Scanners.

(** * MqlShape: the structural bounds, exactly

    What [checkPredicateShape] decides of a canonical predicate, in terms of
    its size and height, and the induction principle canonical trees have. *)


Section Shape.
Context `{Unicode}.

(** A node without sub-expressions. *)
Inductive canonical_leaf : Expr -> Prop :=
| cl_Eq c : c_Label c <> [] -> lit_ok (c_Value c) (c_Literal c) -> canonical_leaf (EqE c)
| cl_Ne c : c_Label c <> [] -> lit_ok (c_Value c) (c_Literal c) -> canonical_leaf (NeE c)
| cl_In l : in_Label l <> [] -> in_Values l <> [] -> lits_ok (in_Values l) (in_Literal l) -> canonical_leaf (InE l)
| cl_Match m : mx_Label m <> [] -> canonical_leaf (MatchE m)
| cl_NoMatch m : mx_Label m <> [] -> canonical_leaf (NoMatchE m)
| cl_Has n : n <> [] -> canonical_leaf (HasE n)
| cl_Missing n : n <> [] -> canonical_leaf (MissingE n).

Lemma canonical_induction (R : Expr -> Prop) :
  (forall l, (2 <= length l)%nat -> Forall canonical l -> Forall R l -> R (AndE l)) ->
  (forall l, (2 <= length l)%nat -> Forall canonical l -> Forall R l -> R (OrE l)) ->
  (forall e, canonical e -> R e -> R (NotE e)) ->
  (forall e, canonical_leaf e -> R e) ->
  forall e, canonical e -> R e.
Proof.
  intros Hand Hor Hnot Hleaf. fix IH 2. intros e [l Hlen Hl|l Hlen Hl|e' He|c|c|l|m|m|n|n].
  - apply Hand; [done|done|]. clear Hlen. induction Hl; constructor; auto.
  - apply Hor; [done|done|]. clear Hlen. induction Hl; constructor; auto.
  - apply Hnot; auto.
  - intros; by apply Hleaf; constructor.
  - intros; by apply Hleaf; constructor.
  - intros; by apply Hleaf; constructor.
  - intros; by apply Hleaf; constructor.
  - intros; by apply Hleaf; constructor.
  - intros; by apply Hleaf; constructor.
  - intros; by apply Hleaf; constructor.
Qed.

Lemma size_pos e : 1 <= size e.
Proof.
  revert e. fix IH 1. intros [ands ors nt ? ? ? ? ? ? ?]. cbn [size].
  set (sum := fix sum (l : list Expr) : Z := match l with [] => 0 | x :: r => size x + sum r end).
  assert (Hs : forall l, 0 <= sum l).
  { fix IHl 1. intros [|x l]; cbn; [done|]. specialize (IH x). specialize (IHl l). lia. }
  pose proof (Hs ands). pose proof (Hs ors). destruct nt as [x|]; [specialize (IH x)|]; lia.
Qed.

Lemma sizes_nonneg l : 0 <= sizes l.
Proof. unfold sizes. induction l as [|x l IH]; cbn; [done|]. pose proof (size_pos x). lia. Qed.

Lemma canonical_not_empty e : canonical e -> Expr_Empty e = false.
Proof.
  intros [l Hl|l Hl| | | | | | |n Hn|n Hn]; try done.
  - destruct l; [cbn in Hl; lia|done].
  - destruct l; [cbn in Hl; lia|done].
  - by destruct n.
  - by destruct n.
Qed.

(** The walk over the arms of a compound node. *)
Fixpoint walk_list (l : list Expr) (depth budget : Z) : result shape_err Z :=
  match l with
  | [] => Ok budget
  | sub :: rest => try b <- predicateShapeOK sub depth budget; walk_list rest depth b
  end.

Lemma walk_head e depth budget :
  Expr_Empty e = false -> depth < MaxPredicateDepth -> 0 <= budget - 1 ->
  predicateShapeOK e depth budget =
    (try b <- walk_list (e_And e) (depth + 1) (budget - 1);
     try b <- walk_list (e_Or e) (depth + 1) b;
     match e_Not e with Some sub => predicateShapeOK sub (depth + 1) b | None => Ok b end).
Proof.
  intros He Hd Hb. destruct e as [ands ors nt ? ? ? ? ? ? ?]. cbn [predicateShapeOK e_And e_Or e_Not]. rewrite He.
  rewrite Z.geb_leb, (proj2 (Z.leb_gt _ _)), (proj2 (Z.ltb_ge _ _)) by lia. done.
Qed.

(** Deep or shallow, as long as the budget lasts. *)
Definition walks (e : Expr) : Prop := forall depth budget, size e <= budget ->
  predicateShapeOK e depth budget = if depth + height e <=? MaxPredicateDepth then Ok (budget - size e) else Err TooDeep.

Lemma walk_list_walks l depth budget :
  Forall walks l -> sizes l <= budget -> l <> [] ->
  walk_list l depth budget = if depth + heights l <=? MaxPredicateDepth then Ok (budget - sizes l) else Err TooDeep.
Proof.
  intros Hl. revert budget. induction Hl as [|e l He Hl IH]; intros budget Hb Hne; [done|].
  pose proof (size_pos e). pose proof (height_pos e). cbn [walk_list]. change (sizes (e :: l)) with (size e + sizes l) in *.
  change (heights (e :: l)) with (Z.max (height e) (heights l)).
  pose proof (sizes_nonneg l).
  rewrite He by lia. destruct (depth + height e <=? _) eqn:E; cbn [rbind].
  - destruct l as [|x l]; [cbn; bsplit; rewrite (proj2 (Z.leb_le _ _)) by lia; f_equal; lia|].
    rewrite IH by (lia || done). bsplit.
    destruct (depth + heights (x :: l) <=? _) eqn:E2; bsplit.
    + rewrite (proj2 (Z.leb_le _ _)) by lia. f_equal. lia.
    + by rewrite (proj2 (Z.leb_gt _ _)) by lia.
  - bsplit. by rewrite (proj2 (Z.leb_gt _ _)) by lia.
Qed.

(** A canonical node below the depth bound. *)
Lemma walk_deep e depth budget : Expr_Empty e = false -> MaxPredicateDepth <= depth -> predicateShapeOK e depth budget = Err TooDeep.
Proof.
  intros He Hd. destruct e. cbn [predicateShapeOK]. rewrite He. by rewrite Z.geb_leb, (proj2 (Z.leb_le _ _)).
Qed.

(** A node above a list of arms that walk. *)
Lemma compound_walks e l :
  Expr_Empty e = false -> size e = 1 + sizes l -> height e = 1 + heights l -> l <> [] -> Forall walks l ->
  (forall depth budget,
    (try b <- walk_list (e_And e) depth budget;
     try b <- walk_list (e_Or e) depth b;
     match e_Not e with Some sub => predicateShapeOK sub depth b | None => Ok b end) = walk_list l depth budget) ->
  walks e.
Proof.
  intros He Hs Hh Hne Hw Harms depth budget Hb. rewrite Hs in *. pose proof (height_pos e). rewrite Hh in *.
  pose proof (sizes_nonneg l). destruct (Z.le_gt_cases MaxPredicateDepth depth).
  { rewrite walk_deep by done. by rewrite (proj2 (Z.leb_gt _ _)) by lia. }
  rewrite walk_head, Harms, walk_list_walks by (done || lia).
  replace (depth + 1 + heights l) with (depth + (1 + heights l)) by lia.
  destruct (_ <=? _); [f_equal; lia|done].
Qed.

Lemma rbind_ok_id {E A} (r : result E A) : (try a <- r; Ok a) = r.
Proof. by destruct r. Qed.

(** A node that is not compound. *)
Lemma bare_walks e : e_And e = [] -> e_Or e = [] -> e_Not e = None -> Expr_Empty e = false -> walks e.
Proof.
  intros Ea Eo En He depth budget Hb. assert (size e = 1 /\ height e = 1) as [Hs Hh] by (destruct e; cbn in *; by subst).
  rewrite Hs, Hh in *. destruct (Z.le_gt_cases MaxPredicateDepth depth).
  { rewrite walk_deep by done. by rewrite (proj2 (Z.leb_gt _ _)) by lia. }
  rewrite walk_head, Ea, Eo, En by (done || lia). cbn. by rewrite (proj2 (Z.leb_le _ _)) by lia.
Qed.

Lemma leaf_walks e : canonical_leaf e -> Expr_Empty e = false -> walks e.
Proof. intros [] He; by apply bare_walks. Qed.

Lemma canonical_walks e : canonical e -> walks e.
Proof.
  intros Hc. assert (Hc' := canonical_not_empty _ Hc). revert e Hc Hc'.
  apply (canonical_induction (fun e => Expr_Empty e = false -> walks e)).
  1,2: intros l Hlen Hcl IH He; assert (Hw : Forall walks l)
    by (clear -IH Hcl; induction IH; inversion Hcl; subst; constructor; auto using canonical_not_empty);
    (assert (Hne : l <> []) by (by intros ->; cbn in Hlen; lia)).
  - apply (compound_walks _ l); [done|apply size_And|apply height_And|done|done|]. intros. cbn. apply rbind_ok_id.
  - apply (compound_walks _ l); [done|apply size_Or|apply height_Or|done|done|]. intros. cbn. apply rbind_ok_id.
  - intros e Hce IH He. specialize (IH (canonical_not_empty _ Hce)). pose proof (height_pos e).
    apply (compound_walks _ [e]); [done|cbn; lia|cbn; lia|done|by apply Forall_singleton|].
    intros. cbn. symmetry. apply rbind_ok_id.
  - intros e Hl He. by apply leaf_walks.
Qed.

Lemma shape_within e : canonical e -> size e <= MaxPredicateNodes ->
  checkPredicateShape e = if height e <=? MaxPredicateDepth then Ok tt else Err TooDeep.
Proof.
  intros Hc Hs. unfold checkPredicateShape. rewrite canonical_walks by done. rewrite Z.add_0_l.
  by destruct (height e <=? _).
Qed.
End Shape.
