(* ===== verification/MqlTokens.v ===== *)
(** * MqlTokens: the text of a tree, lexed

    The tokens a printed piece of text turns into: [lexes s ts r] says that
    the lexer, at [s], produces [ts] and stands at [r].  Positions are left
    out; the parser uses them only in its errors. *)

From Stdlib Require Import ZArith Lia Bool Strings.Byte Strings.String.
From S2P Require Import Prelude Bytes Float64 GoStd MqlAst MqlLex MqlPrint MqlParse MqlSafe MqlTotal.

Definition lexeme : Type := tokKind * gostr.
Definition erase (t : token) : lexeme := (tk_kind t, tk_text t).

(** ** Decoding does not look past a rune *)

Lemma DecodeRune_app s r : fst (DecodeRune s) <> RuneError -> DecodeRune (s ++ r) = DecodeRune s.
Proof.
  destruct s as [|b0 [|b1 [|b2 [|b3 t]]]]; [done| | | |]; cbn [app].
  all: unfold DecodeRune; repeat break_if; done.
Qed.

(** Text that ends an identifier: nothing, or an ASCII byte no identifier
    holds. *)
Definition stops `{Unicode} (r : gostr) : Prop :=
  match r with [] => True | b :: _ => (b2z b <? 128) && negb (isIdentRune (b2z b)) = true end.

Section Tokens.
Context `{U : Unicode} `{!UnicodeLaws U}.

Inductive lexes : gostr -> list lexeme -> gostr -> Prop :=
| lexes_nil s : lexes s [] s
| lexes_cons s c t k w rest ts r :
    skipSpaceAndComments s = c :: t -> (forall start, lex_token start (c :: t) = Ok (k, w, rest)) ->
    lexes rest ts r -> lexes s ((k, w) :: ts) r.

Lemma lexes_app s ts m us r : lexes s ts m -> lexes m us r -> lexes s (ts ++ us) r.
Proof. induction 1; [done|]. intros Hm. cbn. econstructor; eauto. Qed.

Lemma lexes_skip s s' t ts r :
  skipSpaceAndComments s = skipSpaceAndComments s' -> lexes s' (t :: ts) r -> lexes s (t :: ts) r.
Proof. intros E Hl. inversion Hl; subst. econstructor; [|done|done]. by rewrite E. Qed.

Lemma skip_space c s : is_space c = true -> skipSpaceAndComments (c :: s) = skipSpaceAndComments s.
Proof. intros E. unfold skipSpaceAndComments. cbn [length skip_loop]. by rewrite E. Qed.
Lemma skip_stays c s : is_space c = false -> byte_eqb c x2d = false -> skipSpaceAndComments (c :: s) = c :: s.
Proof. intros E1 E2. unfold skipSpaceAndComments. cbn [length skip_loop]. rewrite E1, E2. by destruct s. Qed.

Lemma lexes_space c s t ts r : is_space c = true -> lexes s (t :: ts) r -> lexes (c :: s) (t :: ts) r.
Proof. intros E. apply lexes_skip. by apply skip_space. Qed.

Lemma lexes_tok c t k w r :
  is_space c = false -> byte_eqb c x2d = false -> (forall start, lex_token start (c :: t) = Ok (k, w, r)) ->
  lexes (c :: t) [(k, w)] r.
Proof. intros E1 E2 E. econstructor; [by apply skip_stays|done|constructor]. Qed.

(** The whole source: the loop of [lex] makes the tokens and the end. *)
Lemma lex_loop_lexes s ts r : lexes s ts r -> skipSpaceAndComments r = [] -> forall total fuel, (length s < fuel)%nat ->
  exists toks, lex_loop fuel total s = Ok toks /\ map erase toks = ts ++ [(tokEOF, [])].
Proof.
  induction 1 as [s|s c t k w rest ts r Hs Ht Hl IH]; intros Hr total fuel Hf; (destruct fuel as [|f]; [lia|]).
  - cbn [lex_loop]. rewrite Hr. by eexists.
  - pose proof (skip_loop_length (length s) s) as Hskip. fold (skipSpaceAndComments s) in Hskip.
    cbn [lex_loop]. rewrite Hs, Ht in *. cbn [rbind].
    destruct (lex_token_shorter 0 _ _ _ _ _ (Ht 0)) as [Hlen _]. cbn [length] in Hskip.
    destruct (IH Hr total f) as (toks & -> & E); [lia|]. cbn [rbind]. eexists. split; [done|]. cbn. by rewrite E.
Qed.
Lemma lex_lexes src ts r : lexes src ts r -> skipSpaceAndComments r = [] -> zlen src <= MaxQueryBytes ->
  exists toks, lex src = Ok toks /\ map erase toks = ts ++ [(tokEOF, [])].
Proof.
  intros Hl Hr Hlen. unfold lex. rewrite Z.gtb_ltb, (proj2 (Z.ltb_ge _ _)) by done.
  eapply lex_loop_lexes; [done|done|lia].
Qed.

(** ** Quoted text *)

Lemma byte_eqb_refl b : byte_eqb b b = true.
Proof. by apply byte_eqb_spec. Qed.
Lemma byte_eqb_false a b : byte_eqb a b = false -> a <> b.
Proof. intros E ->. by rewrite byte_eqb_refl in E. Qed.

(** A step of [lexQuoted] on text that is not at its end. *)
Lemma lexQuoted_escape delim d t acc : delim <> x5c ->
  lexQuoted_loop delim (x5c :: d :: t) acc = lexQuoted_loop delim t (acc ++ decode_escape delim d).
Proof. intros Hd. cbn [lexQuoted_loop]. done. Qed.
Lemma lexQuoted_plain delim c t acc : c <> x5c -> c <> delim ->
  lexQuoted_loop delim (c :: t) acc = lexQuoted_loop delim t (acc ++ [c]).
Proof.
  intros H1 H2. cbn [lexQuoted_loop].
  assert (byte_eqb c x5c = false) as -> by (destruct (byte_eqb c x5c) eqn:E; [by apply byte_eqb_spec in E|done]).
  assert (byte_eqb c delim = false) as -> by (destruct (byte_eqb c delim) eqn:E; [by apply byte_eqb_spec in E|done]).
  by destruct t.
Qed.
Lemma lexQuoted_close delim t acc : delim <> x5c -> lexQuoted_loop delim (delim :: t) acc = Some (acc, t).
Proof.
  intros Hd. cbn [lexQuoted_loop]. rewrite byte_eqb_refl.
  assert (byte_eqb delim x5c = false) as -> by (destruct (byte_eqb delim x5c) eqn:E; [by apply byte_eqb_spec in E|done]).
  by destruct t.
Qed.

Lemma lexQuoted_quote_bytes s : forall acc r,
  lexQuoted_loop x22 (concat (map quote_byte s) ++ x22 :: r) acc = Some (acc ++ s, r).
Proof.
  induction s as [|c s IH]; intros acc r.
  { cbn [map concat app]. rewrite lexQuoted_close by done. by rewrite app_nil_r. }
  cbn [map concat]. rewrite <- app_assoc. unfold quote_byte.
  destruct (byte_eqb c x5c) eqn:E1; [apply byte_eqb_spec in E1 as ->|apply byte_eqb_false in E1].
  { cbn [app]. rewrite lexQuoted_escape by done. rewrite IH. by rewrite <- app_assoc. }
  destruct (byte_eqb c x22) eqn:E2; [apply byte_eqb_spec in E2 as ->|apply byte_eqb_false in E2].
  { cbn [app]. rewrite lexQuoted_escape by done. rewrite IH. by rewrite <- app_assoc. }
  destruct (byte_eqb c x0a) eqn:E3; [apply byte_eqb_spec in E3 as ->|].
  { cbn [app]. rewrite lexQuoted_escape by done. rewrite IH. by rewrite <- app_assoc. }
  destruct (byte_eqb c x09) eqn:E4; [apply byte_eqb_spec in E4 as ->|].
  { cbn [app]. rewrite lexQuoted_escape by done. rewrite IH. by rewrite <- app_assoc. }
  destruct (byte_eqb c x0d) eqn:E5; [apply byte_eqb_spec in E5 as ->|].
  { cbn [app]. rewrite lexQuoted_escape by done. rewrite IH. by rewrite <- app_assoc. }
  cbn [app]. rewrite lexQuoted_plain by done. rewrite IH. by rewrite <- app_assoc.
Qed.
Lemma lexQuoted_quote s r : lexQuoted x22 (quoteMQL s ++ r) = Some (s, r).
Proof.
  unfold lexQuoted, quoteMQL. change (drop 1 ([x22] ++ ?b)) with b. cbn [app drop].
  rewrite <- app_assoc. apply lexQuoted_quote_bytes.
Qed.

Lemma decode_escape_kept d : lexerDecodesEscape d = false -> decode_escape x2f d = [x5c; d].
Proof.
  unfold lexerDecodesEscape, decode_escape. intros E. bsplit.
  repeat match goal with H : byte_eqb _ _ = false |- _ => rewrite H; clear H end. done.
Qed.

Lemma escapeRegex_cons c t : escapeRegex (c :: t) =
  (if byte_eqb c x2f then [x5c; x2f]
   else if byte_eqb c x5c then
     match t with
     | [] => [x5c; x5c]
     | d :: _ => if lexerDecodesEscape d then [x5c; x5c] else [x5c]
     end
   else [c]) ++ escapeRegex t.
Proof. reflexivity. Qed.

(** A backslash that escapes nothing keeps the byte after it, whatever
    [escapeRegex] makes of that byte. *)
Lemma lexQuoted_escapeRegex re : forall acc r,
  lexQuoted_loop x2f (escapeRegex re ++ x2f :: r) acc = Some (acc ++ re, r).
Proof.
  induction re as [|c re IH]; intros acc r.
  { cbn [escapeRegex app]. rewrite lexQuoted_close by done. by rewrite app_nil_r. }
  rewrite escapeRegex_cons, <- app_assoc.
  destruct (byte_eqb c x2f) eqn:E1; [apply byte_eqb_spec in E1 as ->|apply byte_eqb_false in E1].
  { cbn [app]. rewrite lexQuoted_escape by done. rewrite IH. by rewrite <- app_assoc. }
  destruct (byte_eqb c x5c) eqn:E2; [apply byte_eqb_spec in E2 as ->|apply byte_eqb_false in E2].
  - destruct re as [|d re'].
    { cbn [app]. rewrite lexQuoted_escape by done. rewrite IH. by rewrite <- app_assoc. }
    destruct (lexerDecodesEscape d) eqn:Ed.
    { cbn [app]. rewrite lexQuoted_escape by done. rewrite IH. by rewrite <- app_assoc. }
    (* the byte after it is copied as it stands *)
    assert (byte_eqb d x2f = false /\ byte_eqb d x5c = false) as [Ed1 Ed2].
    { unfold lexerDecodesEscape in Ed. by bsplit. }
    assert (Estep : escapeRegex (d :: re') = d :: escapeRegex re') by (by rewrite escapeRegex_cons, Ed1, Ed2).
    specialize (IH (acc ++ [x5c]) r). rewrite Estep in *. cbn [app] in *.
    rewrite lexQuoted_escape, decode_escape_kept by done.
    rewrite lexQuoted_plain in IH by (by apply byte_eqb_false). rewrite <- !app_assoc in IH. exact IH.
  - cbn [app]. rewrite lexQuoted_plain by done. rewrite IH. by rewrite <- app_assoc.
Qed.

Lemma lexes_quoted s r : lexes (quoteMQL s ++ r) [(tokString, s)] r.
Proof.
  change (quoteMQL s ++ r) with (x22 :: (concat (map quote_byte s) ++ [x22]) ++ r).
  apply lexes_tok; [done|done|]. intros start. unfold lex_token.
  change (x22 :: (concat (map quote_byte s) ++ [x22]) ++ r) with (quoteMQL s ++ r).
  destruct (DecodeRune (quoteMQL s ++ r)). rewrite byte_eqb_refl, lexQuoted_quote. done.
Qed.
Lemma lexes_regex re r : lexes (x2f :: escapeRegex re ++ x2f :: r) [(tokRegex, re)] r.
Proof.
  apply lexes_tok; [done|done|]. intros start. unfold lex_token.
  destruct (DecodeRune _). assert (byte_eqb x2f x22 = false) as -> by done. rewrite byte_eqb_refl.
  unfold lexQuoted. change (drop 1 (x2f :: ?b)) with b. by rewrite lexQuoted_escapeRegex.
Qed.

(** ** Identifiers *)

Lemma isIdentRune_not_error r : isIdentRune r = true -> r <> RuneError.
Proof.
  intros Hr ->. revert Hr. unfold isIdentRune, IsLetter, IsDigit. cbn.
  by rewrite letter_replacement, digit_replacement.
Qed.

Lemma stops_loop fuel r : stops r -> scanIdent_loop fuel r = ([], r).
Proof.
  destruct fuel as [|f], r as [|b r']; [done..|]. cbn [stops scanIdent_loop]. intros [Hb Hi]%andb_true_iff. bsplit.
  rewrite DecodeRune_ascii by done. rewrite Hi. by destruct (_ && _).
Qed.

(** A run of identifier runes, whatever the fuels. *)
Lemma scan_word f1 : forall f2 i w r, (length w <= f1)%nat -> (length w <= f2)%nat ->
  forallb (fun ir : Z * Z => isIdentRune ir.2) (range_runes f1 i w) = true -> stops r ->
  scanIdent_loop f2 (w ++ r) = (w, r).
Proof.
  induction f1 as [|f1 IH]; intros f2 i w r H1 H2 Hw Hr.
  { destruct w; [|cbn in H1; lia]. by apply stops_loop. }
  destruct w as [|b w']; [by apply stops_loop|]. destruct f2 as [|f2]; [cbn in H2; lia|].
  pose proof (DecodeRune_size b w') as Hsize. cbn [range_runes] in Hw.
  pose proof (DecodeRune_app (b :: w') r) as Happ.
  destruct (DecodeRune (b :: w')) as [rn size] eqn:Er. cbn [forallb fst snd] in *. apply andb_true_iff in Hw as [Hi Hw].
  specialize (Happ (isIdentRune_not_error _ Hi)).
  change ((b :: w') ++ r) with (b :: (w' ++ r)) in *. cbn [scanIdent_loop]. rewrite Happ.
  rewrite (proj2 (Z.eqb_neq _ _)), Hi by (by apply isIdentRune_not_error). cbn [andb negb].
  change (b :: w' ++ r) with ((b :: w') ++ r).
  assert (Hn : (Z.to_nat size <= length (b :: w'))%nat) by (unfold zlen in Hsize; lia).
  rewrite drop_app_le, take_app_le by done.
  rewrite (IH f2 (i + size) (drop (Z.to_nat size) (b :: w')) r); [by rewrite take_drop| | |exact Hw|done].
  - rewrite length_drop. cbn [length] in *. lia.
  - rewrite length_drop. cbn [length] in *. lia.
Qed.

Lemma ident_runes_forall l : ident_runes l = true -> forallb (fun ir : Z * Z => isIdentRune ir.2) l = true.
Proof.
  unfold ident_runes. rewrite !forallb_forall. intros Hl x Hx. specialize (Hl x Hx).
  destruct (x.1 =? 0); [by apply isIdentStart_rune|done].
Qed.
Lemma scanIdent_ident w r : ident_runes (runes w) = true -> stops r -> scanIdent (w ++ r) = (w, r).
Proof.
  intros Hw Hr. unfold scanIdent. eapply (scan_word (length w)); [done| |by apply ident_runes_forall|done].
  rewrite length_app. lia.
Qed.

(** The first byte of an identifier starts no other token. *)
Lemma ident_head b w : ident_runes (runes (b :: w)) = true -> isIdentStart (fst (DecodeRune (b :: w))) = true.
Proof.
  unfold ident_runes, runes. cbn [length range_runes]. destruct (DecodeRune (b :: w)) as [r size].
  cbn [forallb]. by intros [? _]%andb_true_iff.
Qed.
Definition head_byte (b : byte) : bool := (128 <=? b2z b) || isIdentStart (b2z b).
Lemma head_byte_ok b w : isIdentStart (fst (DecodeRune (b :: w))) = true -> head_byte b = true.
Proof.
  unfold head_byte. destruct (128 <=? b2z b) eqn:E; [done|]. bsplit. by rewrite DecodeRune_ascii by done.
Qed.
Lemma head_byte_not b c : head_byte b = true -> head_byte c = false -> byte_eqb b c = false.
Proof. intros H1 H2. destruct (byte_eqb b c) eqn:E; [|done]. apply byte_eqb_spec in E as ->. congruence. Qed.
Lemma head_byte_digit b : head_byte b = true -> is_digit b = false.
Proof.
  unfold head_byte, isIdentStart, IsLetter, is_digit, ascii_letter, ascii_lower, ascii_upper, ascii_digit, between.
  intros Hb. destruct (b2z b <? 128) eqn:E; bsplit.
  - rewrite (proj2 (Z.leb_gt 128 _)) in Hb by lia. cbn [orb] in Hb.
    apply not_true_is_false. intros Hd. bsplit. revert Hb.
    rewrite (proj2 (Z.eqb_neq _ _)), !(proj2 (Z.leb_gt _ (b2z b))) by lia. done.
  - apply not_true_is_false. intros Hd. bsplit. lia.
Qed.

Definition word_token (w : gostr) : lexeme :=
  if is_keyword (ToUpper w) then (tokKeyword, ToUpper w) else (tokIdent, w).

Lemma lexes_word w r : w <> [] -> ident_runes (runes w) = true -> stops r -> lexes (w ++ r) [word_token w] r.
Proof.
  destruct w as [|b w]; [done|]. intros _ Hw Hr. pose proof (ident_head _ _ Hw) as Hs.
  pose proof (head_byte_ok _ _ Hs) as Hb.
  assert (Hd : DecodeRune ((b :: w) ++ r) = DecodeRune (b :: w)).
  { apply DecodeRune_app, isIdentRune_not_error, isIdentStart_rune, Hs. }
  pose proof (scanIdent_ident _ _ Hw Hr) as Hscan. pose proof (head_byte_digit _ Hb) as Hdig.
  change ((b :: w) ++ r) with (b :: (w ++ r)) in *.
  assert (Hne : forall c, head_byte c = false -> byte_eqb b c = false) by (intros; by apply head_byte_not).
  destruct (word_token (b :: w)) as [k x] eqn:E. apply lexes_tok.
  - unfold is_space. by rewrite !Hne by done.
  - by apply Hne.
  - intros start. unfold lex_token. rewrite Hd. destruct (DecodeRune (b :: w)) as [rn size]. cbn [fst] in Hs.
    rewrite Hdig, !Hne, Hs, Hscan by done. cbn [andb orb]. unfold word_token in E.
    destruct (is_keyword _); by injection E as <- <-.
Qed.

Definition name_token (s : gostr) : lexeme :=
  if is_nil s || is_keyword (ToUpper s) || negb (ident_runes (runes s)) then (tokString, s) else (tokIdent, s).
Lemma lexes_name s r : stops r -> lexes (quoteIdent s ++ r) [name_token s] r.
Proof.
  intros Hr. unfold quoteIdent, name_token. destruct s as [|b s]; cbn [is_nil orb].
  { by apply (lexes_quoted []). }
  destruct (is_keyword (ToUpper (b :: s))) eqn:Ek; cbn [orb]; [by apply lexes_quoted|].
  destruct (ident_runes (runes (b :: s))) eqn:Ei; cbn [negb]; [|by apply lexes_quoted].
  pose proof (lexes_word (b :: s) r ltac:(done) Ei Hr) as Hl. unfold word_token in Hl. by rewrite Ek in Hl.
Qed.

(** A keyword of the grammar, in its own spelling. *)
Definition keyword_ok (w : gostr) : bool :=
  negb (is_nil w) && ident_runes (runes w) && is_keyword (ToUpper w) && bytes_eqb (ToUpper w) w.
Lemma lexes_keyword w r : keyword_ok w = true -> stops r -> lexes (w ++ r) [(tokKeyword, w)] r.
Proof.
  unfold keyword_ok. intros (((Hn & Hi)%andb_true_iff & Hk)%andb_true_iff & Hu)%andb_true_iff Hr.
  apply bytes_eqb_spec in Hu. pose proof (lexes_word w r) as Hl. unfold word_token in Hl. rewrite Hk, Hu in Hl.
  apply Hl; [|done|done]. by destruct w.
Qed.

(** ** Values *)

Definition value_token (v : gostr) (literal : bool) : lexeme :=
  if IsVariable v && negb literal then (tokVariable, tail v) else (tokString, v).
Lemma lexes_value v l r : stops r -> lexes (printValue v l ++ r) [value_token v l] r.
Proof.
  intros Hr. unfold printValue, value_token.
  destruct (IsVariable v && negb l) eqn:E; [|by apply lexes_quoted]. apply andb_true_iff in E as [Hv _].
  unfold IsVariable in Hv. destruct v as [|d nm]; [done|]. destruct (byte_eqb d x24) eqn:Ed; [|done].
  apply byte_eqb_spec in Ed as ->. destruct nm as [|b nm]; [done|]. cbn [is_nil negb andb tail] in *.
  pose proof (head_byte_ok _ _ (ident_head _ _ Hv)) as Hb. pose proof (scanIdent_ident _ _ Hv Hr) as Hscan.
  change ((b :: nm) ++ r) with (b :: nm ++ r) in *. change ((x24 :: b :: nm) ++ r) with (x24 :: b :: nm ++ r).
  apply lexes_tok; [done|done|]. intros start. unfold lex_token.
  destruct (DecodeRune _) as [? ?].
  assert (byte_eqb x24 x22 = false /\ byte_eqb x24 x2f = false) as [-> ->] by done. rewrite byte_eqb_refl.
  unfold lex_variable. rewrite (head_byte_not _ x7b Hb) by done. rewrite Hscan. done.
Qed.
End Tokens.

(** * MqlText: printed text, piece by piece

    [reads p ts]: the text [p], followed by anything that ends an
    identifier, lexes to the tokens [ts].  The notion composes, so the
    tokens of a printed tree follow its structure. *)


Definition kw (s : string) : lexeme := (tokKeyword, bs s).
Definition pn (s : string) : lexeme := (tokPunct, bs s).

(** The tokens of a separated list. *)
Definition sep_tokens (sep : lexeme) (tss : list (list lexeme)) : list lexeme :=
  match tss with [] => [] | ts :: rest => ts ++ concat (map (cons sep) rest) end.

Section Text.
Context `{U : Unicode} `{!UnicodeLaws U}.

Definition reads (p : gostr) (ts : list lexeme) : Prop :=
  ts <> [] /\ forall r, stops r -> lexes (p ++ r) ts r.

Definition stop_head (q : gostr) : bool :=
  match q with b :: _ => (b2z b <? 128) && negb (isIdentRune (b2z b)) | [] => false end.

Lemma reads_seq p q ts us : reads p ts -> stop_head q = true -> reads q us -> reads (p ++ q) (ts ++ us).
Proof.
  intros [Hts Hp] Hq [_ Hus]. split; [by destruct ts|]. intros r Hr. rewrite <- app_assoc.
  eapply lexes_app; [|by apply Hus]. apply Hp. destruct q; [done|]. exact Hq.
Qed.
Lemma reads_space c p ts : is_space c = true -> reads p ts -> reads (c :: p) ts.
Proof.
  intros Hc [Hts Hp]. split; [done|]. intros r Hr. destruct ts as [|t ts]; [done|].
  change ((c :: p) ++ r) with (c :: (p ++ r)). apply lexes_space; [done|]. by apply Hp.
Qed.

(** A token that ends by itself. *)
Lemma reads_tok c w k x p ts :
  is_space c = false -> byte_eqb c x2d = false ->
  (forall start s, lex_token start ((c :: w) ++ p ++ s) = Ok (k, x, p ++ s)) ->
  reads p ts -> reads ((c :: w) ++ p) ((k, x) :: ts).
Proof.
  intros H1 H2 Ht [Hts Hp]. split; [done|]. intros r Hr. rewrite <- app_assoc.
  change ((c :: w) ++ p ++ r) with (c :: (w ++ p ++ r)).
  eapply lexes_cons; [by apply skip_stays| |by apply Hp]. intros start. apply (Ht start r).
Qed.
Lemma reads_open p ts : reads p ts -> reads (bs "(" ++ p) (pn "(" :: ts).
Proof. apply (reads_tok x28 []); [done|done|]. intros start s. done. Qed.
Lemma reads_comma p ts : reads p ts -> reads (bs "," ++ p) (pn "," :: ts).
Proof. apply (reads_tok x2c []); [done|done|]. intros start s. done. Qed.
Lemma reads_eq p ts : reads (x20 :: p) ts -> reads (bs "= " ++ p) (pn "=" :: ts).
Proof. apply (reads_tok x3d [] tokPunct (bs "=") (x20 :: p)); [done|done|]. intros start s. done. Qed.
Lemma reads_ne p ts : reads p ts -> reads (bs "!=" ++ p) (pn "!=" :: ts).
Proof. apply (reads_tok x21 [x3d]); [done|done|]. intros start s. done. Qed.
Lemma reads_match p ts : reads p ts -> reads (bs "=~" ++ p) (pn "=~" :: ts).
Proof. apply (reads_tok x3d [x7e]); [done|done|]. intros start s. done. Qed.
Lemma reads_nomatch p ts : reads p ts -> reads (bs "!~" ++ p) (pn "!~" :: ts).
Proof. apply (reads_tok x21 [x7e]); [done|done|]. intros start s. done. Qed.
Lemma reads_close p ts : reads p ts -> reads (p ++ bs ")") (ts ++ [pn ")"]).
Proof.
  intros Hp. apply reads_seq; [done|done|]. split; [done|]. intros r _.
  apply (lexes_tok x29); [done|done|]. intros start. done.
Qed.

Lemma reads_name s : reads (quoteIdent s) [name_token s].
Proof. split; [done|]. intros r. apply lexes_name. Qed.
Lemma reads_value v l : reads (printValue v l) [value_token v l].
Proof. split; [done|]. intros r. apply lexes_value. Qed.
Lemma reads_quoted s : reads (quoteMQL s) [(tokString, s)].
Proof. split; [done|]. intros r _. apply lexes_quoted. Qed.
Lemma reads_regex re : reads (bs "/" ++ escapeRegex re ++ bs "/") [(tokRegex, re)].
Proof.
  split; [done|]. intros r _. rewrite <- !app_assoc. apply lexes_regex.
Qed.
Lemma reads_keyword w : keyword_ok w = true -> reads w [(tokKeyword, w)].
Proof. intros Hw. split; [done|]. intros r. by apply lexes_keyword. Qed.
(** A keyword, a space and what follows. *)
Lemma reads_kw w p ts : keyword_ok w = true -> reads p ts -> reads (w ++ x20 :: p) ((tokKeyword, w) :: ts).
Proof.
  intros Hw Hp. apply (reads_seq _ (x20 :: p) [_]); [by apply reads_keyword|done|by apply reads_space].
Qed.

(** ** Separated lists *)

Definition separator (sep : gostr) (t : lexeme) : Prop :=
  stop_head sep = true /\ forall p ts, reads p ts -> reads (sep ++ p) (t :: ts).

Lemma reads_join sep t (parts : list gostr) (tss : list (list lexeme)) :
  separator sep t -> Forall2 reads parts tss -> parts <> [] -> reads (Join sep parts) (sep_tokens t tss).
Proof.
  intros [Hstop Hsep] Hall Hne. destruct Hall as [|p ts parts tss Hp Hall]; [done|].
  clear Hne. revert p ts Hp. induction Hall as [|q us parts tss Hq Hall IH]; intros p ts Hp; cbn [Join sep_tokens].
  { cbn. by rewrite app_nil_r. }
  apply reads_seq; [done|by destruct sep|]. cbn [map concat app]. apply Hsep. by apply IH.
Qed.

Lemma separator_and : separator (bs " AND ") (kw "AND").
Proof. split; [done|]. intros p ts Hp. apply (reads_space x20); [done|]. by apply (reads_kw (bs "AND")). Qed.
Lemma separator_or : separator (bs " OR ") (kw "OR").
Proof. split; [done|]. intros p ts Hp. apply (reads_space x20); [done|]. by apply (reads_kw (bs "OR")). Qed.
Lemma separator_comma : separator (bs ", ") (pn ",").
Proof. split; [done|]. intros p ts Hp. apply (reads_comma (x20 :: p)). by apply reads_space. Qed.
Lemma separator_comma_line : separator (bs "," ++ NL ++ bs "       ") (pn ",").
Proof.
  split; [done|]. intros p ts Hp. apply (reads_comma (NL ++ bs "       " ++ p)).
  by repeat (apply reads_space; [done|]).
Qed.

(** ** Predicates *)

Fixpoint value_tokens (vals : list gostr) (lits : list bool) : list (list lexeme) :=
  match vals with
  | [] => []
  | v :: vals' =>
      match lits with
      | [] => [value_token v false] :: value_tokens vals' []
      | l :: lits' => [value_token v l] :: value_tokens vals' lits'
      end
  end.
Lemma printValues_reads vals : forall lits, Forall2 reads (printValues vals lits) (value_tokens vals lits).
Proof.
  induction vals as [|v vals IH]; intros lits; [constructor|].
  destruct lits; constructor; auto using reads_value.
Qed.

Definition wrap_tokens (ts : list lexeme) (nested : bool) : list lexeme :=
  if nested then pn "(" :: ts ++ [pn ")"] else ts.

Definition leaf_tokens (e : Expr) : list lexeme :=
  let '(mkExpr _ _ _ eq ne il mt nm has missing) := e in
  match eq, ne, il, mt, nm with
  | Some c, _, _, _, _ => [name_token (c_Label c); pn "="; value_token (c_Value c) (c_Literal c)]
  | None, Some c, _, _, _ => [name_token (c_Label c); pn "!="; value_token (c_Value c) (c_Literal c)]
  | None, None, Some l, _, _ =>
      name_token (in_Label l) :: kw "IN" :: pn "(" ::
      sep_tokens (pn ",") (value_tokens (in_Values l) (in_Literal l)) ++ [pn ")"]
  | None, None, None, Some m, _ => [name_token (mx_Label m); pn "=~"; (tokRegex, mx_Regex m)]
  | None, None, None, None, Some m => [name_token (mx_Label m); pn "!~"; (tokRegex, mx_Regex m)]
  | None, None, None, None, None =>
      if is_nil has then [kw "MISSING"; name_token missing] else [kw "HAS"; name_token has]
  end.

(** The tokens of a printed predicate. *)
Fixpoint expr_tokens (e : Expr) (nested : bool) : list lexeme :=
  let '(mkExpr ands ors nt eq ne il mt nm has missing) := e in
  if negb (is_nil ands) then wrap_tokens (sep_tokens (kw "AND") (map (fun s => expr_tokens s true) ands)) nested
  else if negb (is_nil ors) then wrap_tokens (sep_tokens (kw "OR") (map (fun s => expr_tokens s true) ors)) nested
  else match nt with
       | Some s => kw "NOT" :: expr_tokens s true
       | None => leaf_tokens (mkExpr [] [] None eq ne il mt nm has missing)
       end.

Lemma reads_wrap s ts nested : reads s ts -> reads (wrap s nested) (wrap_tokens ts nested).
Proof.
  intros Hs. destruct nested; [|done]. cbn [wrap wrap_tokens]. apply reads_open. by apply reads_close.
Qed.

Lemma leaf_reads e nested : canonical_leaf e -> reads (printExpr e nested) (expr_tokens e nested).
Proof.
  intros [c Hc _|c Hc _|l Hl Hv _|m Hm|m Hm|n Hn|n Hn].
  - apply (reads_seq _ (bs " = " ++ _) [_]); [apply reads_name|done|].
    apply reads_space; [done|]. apply reads_eq, reads_space; [done|apply reads_value].
  - apply (reads_seq _ (bs " != " ++ _) [_]); [apply reads_name|done|].
    apply reads_space; [done|]. apply (reads_ne (x20 :: _)), reads_space; [done|apply reads_value].
  - apply (reads_seq _ (bs " IN (" ++ _) [_]); [apply reads_name|done|].
    apply reads_space; [done|]. apply (reads_kw (bs "IN") (bs "(" ++ _)); [done|].
    apply reads_open, reads_close. eapply reads_join; [apply separator_comma|apply printValues_reads|].
    by destruct (in_Values l), (in_Literal l).
  - apply (reads_seq _ (bs " =~ " ++ _) [_]); [apply reads_name|done|].
    apply reads_space; [done|]. apply (reads_match (x20 :: _)), reads_space; [done|apply reads_regex].
  - apply (reads_seq _ (bs " !~ " ++ _) [_]); [apply reads_name|done|].
    apply reads_space; [done|]. apply (reads_nomatch (x20 :: _)), reads_space; [done|apply reads_regex].
  - destruct n; [done|]. apply (reads_kw (bs "HAS")); [done|apply reads_name].
  - destruct n; [done|]. apply (reads_kw (bs "MISSING")); [done|apply reads_name].
Qed.

Lemma printExpr_reads e : canonical e -> forall nested, reads (printExpr e nested) (expr_tokens e nested).
Proof.
  revert e. apply (canonical_induction (fun e => forall nested, reads (printExpr e nested) (expr_tokens e nested))).
  1,2: intros l Hlen _ Hl nested;
    (assert (Hall : Forall2 reads (map (fun s => printExpr s true) l) (map (fun s => expr_tokens s true) l))
      by (clear Hlen; induction Hl; constructor; auto));
    (assert (Hne : map (fun s => printExpr s true) l <> []) by (by destruct l; [cbn in Hlen; lia|]));
    (destruct l as [|x l]; [done|]).
  - apply (reads_wrap (Join _ _)). eapply reads_join; [apply separator_and|exact Hall|done].
  - apply (reads_wrap (Join _ _)). eapply reads_join; [apply separator_or|exact Hall|done].
  - intros e _ He nested. apply (reads_kw (bs "NOT")); [done|apply He].
  - intros e He nested. by apply leaf_reads.
Qed.
End Text.
