(* ===== verification/MqlReparse.v ===== *)
(** * MqlReparse: the parser on the tokens of a printed predicate

    [runs m v a v']: from any parser in view [v] -- tokens without their
    positions, depth, node count, diagnostics -- [m] answers [a] and leaves
    view [v'].  Predicates first, then [parsePredicate] on a whole tree. *)

From Stdlib Require Import ZArith Lia Bool.
From Stdlib Require Import Strings.Byte Strings.String.
From S2P Require Import Prelude Bytes Float64 GoStd MqlAst MqlLex MqlPrint MqlParse MqlQuery MqlSafe MqlTotal MqlTokens.

Record view := V { v_toks : list lexeme; v_depth : Z; v_nodes : Z; v_diags : list Diag }.
Definition view_of (p : parser) : view := V (map erase (p_toks p)) (p_depth p) (p_nodes p) (p_diags p).

Definition runs {A} (m : P A) (v : view) (a : A) (v' : view) : Prop :=
  forall p, view_of p = v -> exists p', m p = Ok (a, p') /\ view_of p' = v'.

Lemma runs_ret {A} (a : A) v : runs (mret a) v a v.
Proof. intros p Hp. by exists p. Qed.
Lemma runs_bind {A B} (m : P A) (k : A -> P B) v a v1 b v2 :
  runs m v a v1 -> runs (k a) v1 b v2 -> runs (m ≫= k) v b v2.
Proof.
  intros Hm Hk p Hp. destruct (Hm p Hp) as (p1 & E1 & H1). destruct (Hk p1 H1) as (p2 & E2 & H2).
  exists p2. split; [|done]. unfold mbind, P_bind. by rewrite E1.
Qed.
Lemma runs_get {B} (k : parser -> P B) v b v' :
  (forall p, view_of p = v -> runs (k p) v b v') -> runs (get_p ≫= k) v b v'.
Proof. intros Hk p Hp. exact (Hk p Hp p Hp). Qed.
Lemma runs_modify f v v' : (forall p, view_of p = v -> view_of (f p) = v') -> runs (modify_p f) v tt v'.
Proof. intros Hf p Hp. exists (f p). split; [done|by apply Hf]. Qed.

(** Reading the current token: what follows depends on its kind and text. *)
Lemma runs_cur {B} (k : token -> P B) x ts d n g b v' :
  (forall t, erase t = x -> runs (k t) (V (x :: ts) d n g) b v') -> runs (cur ≫= k) (V (x :: ts) d n g) b v'.
Proof.
  intros Hk p Hp. assert (Hp' := Hp). unfold view_of in Hp'. injection Hp' as Ht _ _ _.
  destruct (p_toks p) as [|t l] eqn:E; [done|]. cbn in Ht. injection Ht as Hx _.
  destruct (Hk t Hx p Hp) as (p' & E' & H'). exists p'. split; [|done].
  unfold mbind, P_bind, cur. by rewrite E.
Qed.
Lemma runs_advance x ts d n g : runs advance (V (x :: ts) d n g) tt (V ts d n g).
Proof.
  apply runs_modify. intros p Hp. unfold view_of in *. injection Hp as Ht <- <- <-.
  destruct (p_toks p); [done|]. cbn in *. by injection Ht as _ <-.
Qed.

Definition is_lexeme (k : tokKind) (s : gostr) (x : lexeme) : bool := bool_decide (x.1 = k) && bytes_eqb x.2 s.
Lemma is_tok_erase k s t x : erase t = x -> is_tok k s t = is_lexeme k s x.
Proof. by intros <-. Qed.

Lemma runs_accept_yes k s ts d n g : runs (accept k s) (V ((k, s) :: ts) d n g) true (V ts d n g).
Proof.
  apply runs_cur. intros t Ht. rewrite (is_tok_erase _ _ _ _ Ht). unfold is_lexeme. cbn [fst snd].
  rewrite bool_decide_eq_true_2, bytes_eqb_refl by done. eapply runs_bind; [apply runs_advance|apply runs_ret].
Qed.
Lemma runs_accept_no k s x ts d n g : is_lexeme k s x = false -> runs (accept k s) (V (x :: ts) d n g) false (V (x :: ts) d n g).
Proof.
  intros Hx. apply runs_cur. intros t Ht. rewrite (is_tok_erase _ _ _ _ Ht), Hx. apply runs_ret.
Qed.
Lemma runs_expectPunct s what ts d n g : runs (expectPunct s what) (V ((tokPunct, s) :: ts) d n g) tt (V ts d n g).
Proof. eapply runs_bind; [apply runs_accept_yes|apply runs_ret]. Qed.
Lemma runs_expectKeyword s ts d n g : runs (expectKeyword s) (V ((tokKeyword, s) :: ts) d n g) tt (V ts d n g).
Proof. eapply runs_bind; [apply runs_accept_yes|apply runs_ret]. Qed.

(** ** Lists *)

Section CommaList.
Context {A : Type} (item : P A) (follow : list lexeme -> Prop) (d n : Z) (g : list Diag).

(** An item reads its tokens off when what follows them is expected. *)
Definition item_reads (a : A) (ts : list lexeme) : Prop :=
  ts <> [] /\ (forall r, follow (pn "," :: ts ++ r)) /\
  forall rest, follow rest -> runs item (V (ts ++ rest) d n g) a (V rest d n g).

Lemma runs_comma_loop (tss : list (list lexeme)) (l : list A) (x : lexeme) rest :
  is_lexeme tokPunct (bs ",") x = false -> follow (x :: rest) -> Forall2 item_reads l tss -> l <> [] ->
  forall fuel acc, (length l <= fuel)%nat ->
  runs (comma_loop fuel item acc) (V (sep_tokens (pn ",") tss ++ x :: rest) d n g) (acc ++ l) (V (x :: rest) d n g).
Proof.
  intros Hx Hfol Hall Hne. destruct Hall as [|a ts l tss Ha Hall]; [done|]. clear Hne. revert a ts Ha.
  induction Hall as [|b us l tss Hb Hall IH]; intros a ts (_ & _ & Ha) fuel acc Hf; (destruct fuel as [|f]; [cbn in Hf; lia|]);
    cbn [comma_loop sep_tokens map concat].
  - rewrite app_nil_r. eapply runs_bind; [by apply Ha|]. eapply runs_bind; [by apply runs_accept_no|]. apply runs_ret.
  - rewrite <- app_assoc. eapply runs_bind.
    { apply Ha. cbn [concat app]. rewrite <- app_assoc. apply Hb. }
    eapply runs_bind; [apply runs_accept_yes|].
    replace (acc ++ a :: b :: l) with ((acc ++ [a]) ++ b :: l) by (by rewrite <- app_assoc).
    apply (IH b us Hb); cbn [length] in *; lia.
Qed.

Lemma view_toks_length p v : view_of p = v -> length (p_toks p) = length (v_toks v).
Proof. intros <-. unfold view_of. cbn. by rewrite length_map. Qed.

Lemma runs_comma_list (tss : list (list lexeme)) (l : list A) (x : lexeme) rest :
  is_lexeme tokPunct (bs ",") x = false -> follow (x :: rest) -> l <> [] -> Forall2 item_reads l tss ->
  runs (comma_list item) (V (sep_tokens (pn ",") tss ++ x :: rest) d n g) l (V (x :: rest) d n g).
Proof.
  intros Hx Hfol Hne Hall. apply runs_get. intros p Hp. apply (runs_comma_loop tss l x rest Hx Hfol Hall Hne) with (acc := []).
  rewrite (view_toks_length _ _ Hp). cbn [v_toks]. rewrite length_app.
  assert (length l <= length (sep_tokens (pn ",") tss))%nat; [|lia].
  clear -Hall. destruct Hall as [|a ts l tss (Ha & _) Hall]; [done|]. cbn [sep_tokens]. rewrite length_app.
  assert (length l <= length (concat (map (cons (pn ",")) tss)))%nat.
  { induction Hall as [|b us l tss (Hb & _) Hall IH]; [done|]. cbn [map concat length]. rewrite length_app. cbn. lia. }
  destruct ts; [done|]. cbn. lia.
Qed.
End CommaList.

Section Reparse.
Context `{U : Unicode} `{F : FloatText}.

(** ** Names and values *)

Lemma name_token_text s : snd (name_token s) = s /\ (fst (name_token s) = tokIdent \/ fst (name_token s) = tokString).
Proof. unfold name_token. destruct (_ || _ || _); split; auto. Qed.
Lemma runs_name_tok what k s ts d n g : s <> [] -> k = tokIdent \/ k = tokString ->
  runs (name what) (V ((k, s) :: ts) d n g) s (V ts d n g).
Proof.
  intros Hs Hk. apply runs_cur. intros t Ht. injection Ht as Ek Et. rewrite Ek, Et.
  assert (bool_decide (k = tokIdent) || bool_decide (k = tokString) = true) as -> by (by destruct Hk as [-> | ->]).
  destruct s; [done|]. cbn [is_nil]. eapply runs_bind; [apply runs_advance|apply runs_ret].
Qed.
Lemma runs_name what s ts d n g : s <> [] -> runs (name what) (V (name_token s :: ts) d n g) s (V ts d n g).
Proof.
  intros Hs. destruct (name_token_text s) as [Et Ek]. destruct (name_token s) as [k s']. cbn in *. subst s'.
  by apply runs_name_tok.
Qed.

Lemma runs_value v l ts d n g : lit_ok v l -> runs valueOrVar (V (value_token v l :: ts) d n g) (v, l) (V ts d n g).
Proof.
  intros Hl. apply runs_cur. intros t Ht. unfold value_token in Ht.
  destruct (IsVariable v) eqn:Ev; cbn [andb] in Ht.
  - destruct l; cbn [negb] in Ht; injection Ht as Ek Et; rewrite Ek, Et.
    + rewrite Ev. eapply runs_bind; [apply runs_advance|apply runs_ret].
    + destruct v as [|b v]; [done|]. cbn [tail]. assert (b = x24) as ->.
      { unfold IsVariable in Ev. destruct (byte_eqb b x24) eqn:Eb; [by apply byte_eqb_spec|done]. }
      eapply runs_bind; [apply runs_advance|apply runs_ret].
  - injection Ht as Ek Et. rewrite Ek, Et, Ev. destruct l; [by specialize (Hl eq_refl); rewrite Ev in Hl|].
    eapply runs_bind; [apply runs_advance|apply runs_ret].
Qed.
Lemma runs_regex re ts d n g : runs regex (V ((tokRegex, re) :: ts) d n g) re (V ts d n g).
Proof.
  apply runs_cur. intros t Ht. injection Ht as Ek Et. rewrite Ek, Et.
  rewrite bool_decide_eq_true_2 by done. eapply runs_bind; [apply runs_advance|apply runs_ret].
Qed.

(** The values of an IN list with the literal bits [parseIn] keeps. *)
Lemma lit_bits vals lits : lits_ok vals lits ->
  exists vls, map fst vls = vals /\ (if existsb snd vls then map snd vls else []) = lits /\
    Forall2 (fun vl ts => ts <> [] /\ forall rest d n g, runs valueOrVar (V (ts ++ rest) d n g) vl (V rest d n g))
      vls (value_tokens vals lits).
Proof.
  assert (Hone : forall v l, lit_ok v l ->
    [value_token v l] <> [] /\ forall rest d n g, runs valueOrVar (V ([value_token v l] ++ rest) d n g) (v, l) (V rest d n g)).
  { intros v l Hl. split; [done|]. intros rest d n g. by apply runs_value. }
  intros [-> |[Hl Hex]].
  - exists (map (fun v => (v, false)) vals). split; [|split].
    + induction vals; cbn; congruence.
    + assert (existsb snd (map (fun v : gostr => (v, false)) vals) = false) as ->; [|done]. by induction vals.
    + induction vals as [|v vals IH]; cbn; constructor; [by apply Hone|exact IH].
  - exists (zip vals lits). assert (Ef : map fst (zip vals lits) = vals /\ map snd (zip vals lits) = lits).
    { clear -Hl. induction Hl; [done|]. destruct IHHl as [E1 E2]. cbn. by rewrite E1, E2. }
    destruct Ef as [Ef Es]. split; [done|]. split.
    + assert (existsb snd (zip vals lits) = existsb (fun b => b) lits) as ->; [|by rewrite Hex].
      clear -Hl. induction Hl; [done|]. cbn. by rewrite IHHl.
    + clear -Hl Hone. induction Hl; cbn; constructor; auto.
Qed.

(** ** Leaves *)

Lemma runs_bind_lift {A B C} (m : P A) (k : A -> B) (h : B -> P C) v a v1 c v2 :
  runs m v a v1 -> runs (h (k a)) v1 c v2 -> runs (x ← m; h (k x)) v c v2.
Proof. intros Hm Hk. by eapply runs_bind. Qed.

Lemma name_not_tok s k w : k <> tokIdent -> k <> tokString -> is_lexeme k w (name_token s) = false.
Proof.
  intros H1 H2. destruct (name_token_text s) as [_ Hk]. unfold is_lexeme.
  rewrite bool_decide_eq_false_2; [done|]. destruct Hk; congruence.
Qed.

Ltac accept_no := eapply runs_bind; [apply runs_accept_no; (done || by apply name_not_tok)|cbv iota].
Ltac accept_yes := eapply runs_bind; [apply runs_accept_yes|cbv iota].

Lemma runs_leaf e ts d n g : canonical_leaf e -> runs parseLeaf (V (leaf_tokens e ++ ts) d n g) e (V ts d n g).
Proof.
  intros [c Hc Hl|c Hc Hl|l Hl Hv Hb|m Hm|m Hm|s Hs|s Hs]; cbn [leaf_tokens app].
  1-5: accept_no; accept_no; eapply runs_bind; [by apply runs_name|].
  - accept_yes. eapply runs_bind; [by apply runs_value|]. destruct c. apply runs_ret.
  - accept_no. accept_yes. eapply runs_bind; [by apply runs_value|]. destruct c. apply runs_ret.
  - do 4 accept_no. accept_yes. eapply runs_bind; [apply runs_expectPunct|].
    destruct (lit_bits _ _ Hb) as (vls & E1 & E2 & Hall).
    match goal with |- runs _ (V ?t _ _ _) _ _ =>
      change t with ((sep_tokens (pn ",") (value_tokens (in_Values l) (in_Literal l)) ++ [pn ")"]) ++ ts) end.
    rewrite <- app_assoc.
    eapply runs_bind.
    { apply (runs_comma_list valueOrVar (fun _ => True) d n g _ vls); [done|done| |].
      - intros ->. cbn in E1. by rewrite <- E1 in Hv.
      - eapply Forall2_impl; [exact Hall|]. cbn. intros vl us [Hne Hr]. split; [done|]. split; [done|]. intros rest _. apply Hr. }
    eapply runs_bind; [apply runs_expectPunct|]. rewrite E1, E2. destruct l. apply runs_ret.
  - do 2 accept_no. accept_yes. eapply runs_bind; [apply runs_regex|]. destruct m. apply runs_ret.
  - do 3 accept_no. accept_yes. eapply runs_bind; [apply runs_regex|]. destruct m. apply runs_ret.
  - destruct s; [done|]. cbn [is_nil]. accept_yes. eapply runs_bind; [by apply runs_name|]. apply runs_ret.
  - destruct s; [done|]. cbn [is_nil]. accept_no. accept_yes. eapply runs_bind; [by apply runs_name|]. apply runs_ret.
Qed.

(** ** Trees *)

Lemma runs_countNode ts d n g : ts <> [] -> n + 1 <= MaxPredicateNodes -> runs countNode (V ts d n g) tt (V ts d (n + 1) g).
Proof.
  intros _ Hn. eapply (runs_bind _ _ _ tt (V ts d (n + 1) g)).
  { apply runs_modify. intros p Hp. unfold view_of in *. by injection Hp as <- <- <- <-. }
  apply runs_get. intros p Hp. unfold view_of in Hp. injection Hp as _ _ -> _.
  rewrite Z.gtb_ltb, (proj2 (Z.ltb_ge _ _)) by done. apply runs_ret.
Qed.
Lemma runs_at_keyword w x ts d n g :
  runs (at_keyword w) (V (x :: ts) d n g) (is_lexeme tokKeyword w x) (V (x :: ts) d n g).
Proof. apply runs_cur. intros t Ht. rewrite (is_tok_erase _ _ _ _ Ht). apply runs_ret. Qed.

(** Reading back a tree as one operand, within the bounds. *)
Definition unary_reads (e : Expr) : Prop := forall fuel x rest d n g,
  0 <= d -> d + height e <= MaxPredicateDepth -> n + size e <= MaxPredicateNodes ->
  (4 * length (expr_tokens e true) + 1 <= fuel)%nat ->
  runs (parseUnary fuel) (V (expr_tokens e true ++ x :: rest) d n g) e (V (x :: rest) d (n + size e) g).

(** The keywords that carry a chain on. *)
Definition ends_chain (x : lexeme) : bool :=
  negb (is_lexeme tokKeyword (bs "AND") x) && negb (is_lexeme tokKeyword (bs "OR") x).

Abbreviation tokens_of l := (map (fun s => expr_tokens s true) l).

Lemma chain_tokens_cons (k : lexeme) (t : list lexeme) tss r :
  concat ((k :: t) :: tss) ++ r = k :: t ++ concat tss ++ r.
Proof. cbn. by rewrite <- app_assoc. Qed.

Lemma runs_chain_loop (kwd : gostr) (item : nat -> P Expr) (loop : nat -> list Expr -> P (list Expr)) c x rest d g :
  (forall f terms, loop (S f) terms =
     (more ← acceptKeyword kwd; if more : bool then right ← item f; loop f (terms ++ [right]) else mret terms)) ->
  is_lexeme tokKeyword kwd x = false -> 0 <= d ->
  forall l, Forall (fun e => forall fuel y r n, n + size e <= MaxPredicateNodes -> (4 * length (expr_tokens e true) + c <= fuel)%nat ->
      (y = x \/ y = (tokKeyword, kwd)) ->
      runs (item fuel) (V (expr_tokens e true ++ y :: r) d n g) e (V (y :: r) d (n + size e) g)) l ->
  (1 <= c <= 3)%nat ->
  forall fuel acc n, n + sizes l <= MaxPredicateNodes ->
  (4 * length (concat (map (cons ((tokKeyword, kwd) : lexeme)) (tokens_of l))) + 1 <= fuel)%nat ->
  runs (loop fuel acc) (V (concat (map (cons ((tokKeyword, kwd) : lexeme)) (tokens_of l)) ++ x :: rest) d n g)
    (acc ++ l) (V (x :: rest) d (n + sizes l) g).
Proof.
  intros Hloop Hx Hd l Hl Hc. induction Hl as [|e l He Hl IH]; intros fuel acc n Hn Hf;
    (destruct fuel as [|f]; [cbn in Hf; lia|]); rewrite Hloop.
  - rewrite app_nil_r. cbn [map concat app sizes foldr]. rewrite Z.add_0_r.
    eapply runs_bind; [by apply runs_accept_no|]. apply runs_ret.
  - cbn [map] in *. rewrite chain_tokens_cons. change (sizes (e :: l)) with (size e + sizes l) in *.
    cbn [concat map] in Hf. rewrite length_app in Hf. cbn [length] in Hf.
    pose proof (sizes_nonneg l). pose proof (size_pos e).
    eapply runs_bind; [apply runs_accept_yes|].
    replace (acc ++ e :: l) with ((acc ++ [e]) ++ l) by (by rewrite <- app_assoc).
    replace (n + (size e + sizes l)) with (n + size e + sizes l) by lia.
    destruct l as [|e' l']; (eapply runs_bind; [|apply IH; [lia|cbn [map concat length] in *; lia]]).
    + apply (He f x rest n); [lia|lia|by left].
    + cbn [map]. rewrite chain_tokens_cons. apply (He f (tokKeyword, kwd) _ n); [lia|lia|by right].
Qed.

(** A chain: its first operand, its loop and its node. *)
Lemma runs_chain (kwd : gostr) (mk : list Expr -> Expr) (item : nat -> P Expr) (loop : nat -> list Expr -> P (list Expr)) c x rest d g :
  (forall f terms, loop (S f) terms =
     (more ← acceptKeyword kwd; if more : bool then right ← item f; loop f (terms ++ [right]) else mret terms)) ->
  is_lexeme tokKeyword kwd x = false -> 0 <= d -> (1 <= c <= 3)%nat ->
  forall l, Forall (fun e => forall fuel y r n, n + size e <= MaxPredicateNodes -> (4 * length (expr_tokens e true) + c <= fuel)%nat ->
      (y = x \/ y = (tokKeyword, kwd)) ->
      runs (item fuel) (V (expr_tokens e true ++ y :: r) d n g) e (V (y :: r) d (n + size e) g)) l ->
  (2 <= length l)%nat ->
  forall fuel n, n + 1 + sizes l <= MaxPredicateNodes ->
  (4 * length (sep_tokens (tokKeyword, kwd) (tokens_of l)) + c <= fuel)%nat ->
  runs (left ← item fuel; more ← at_keyword kwd;
        if negb more then mret left else terms ← loop fuel [left]; countNode ;; mret (mk terms))
    (V (sep_tokens (tokKeyword, kwd) (tokens_of l) ++ x :: rest) d n g) (mk l) (V (x :: rest) d (n + 1 + sizes l) g).
Proof.
  intros Hloop Hx Hd Hc l Hl Hlen fuel n Hn Hf. destruct Hl as [|e l He Hl]; [cbn in Hlen; lia|].
  destruct l as [|e' l]; [cbn in Hlen; lia|]. cbn [map sep_tokens] in *. rewrite <- app_assoc.
  rewrite length_app in Hf. change (sizes (e :: e' :: l)) with (size e + sizes (e' :: l)) in *.
  pose proof (sizes_nonneg (e' :: l)). pose proof (size_pos e).
  rewrite chain_tokens_cons.
  eapply runs_bind; [apply (He fuel (tokKeyword, kwd) _ n); [lia|lia|by right]|].
  eapply runs_bind; [apply runs_at_keyword|].
  assert (is_lexeme tokKeyword kwd (tokKeyword, kwd) = true) as ->.
  { unfold is_lexeme. cbn. by rewrite bytes_eqb_refl. }
  cbn [negb]. rewrite <- chain_tokens_cons. eapply runs_bind.
  { eapply (runs_chain_loop kwd item loop c x rest d g Hloop Hx Hd (e' :: l) Hl Hc fuel [e] (n + size e)); [lia|].
    cbn [map] in *. lia. }
  eapply runs_bind; [apply runs_countNode; [done|lia]|].
  replace (n + 1 + (size e + sizes (e' :: l))) with (n + size e + sizes (e' :: l) + 1) by lia. apply runs_ret.
Qed.

Lemma runs_and_operand e f y r d n g :
  unary_reads e -> is_lexeme tokKeyword (bs "AND") y = false -> 0 <= d -> d + height e <= MaxPredicateDepth ->
  n + size e <= MaxPredicateNodes -> (4 * length (expr_tokens e true) + 2 <= f)%nat ->
  runs (parseAnd f) (V (expr_tokens e true ++ y :: r) d n g) e (V (y :: r) d (n + size e) g).
Proof.
  intros He Hy Hd Hh Hn Hf. destruct f as [|f]; [lia|]. cbn [parseAnd].
  eapply runs_bind; [apply He; [done|done|done|lia]|].
  eapply runs_bind; [apply runs_at_keyword|]. rewrite Hy. apply runs_ret.
Qed.

Lemma heights_bound l e : In e l -> height e <= heights l.
Proof.
  unfold heights. induction l as [|x l IH]; [done|]. intros [-> |Hin]; cbn; [lia|]. specialize (IH Hin). lia.
Qed.
Lemma Forall_heights (Q : Expr -> Prop) l h : Forall Q l -> heights l <= h -> Forall (fun e => Q e /\ height e <= h) l.
Proof.
  intros HQ Hh. rewrite List.Forall_forall in *. intros e He. split; [by apply HQ|]. pose proof (heights_bound _ _ He). lia.
Qed.

Lemma runs_and l fuel x rest d n g :
  (2 <= length l)%nat -> Forall unary_reads l -> ends_chain x = true -> 0 <= d -> d + heights l <= MaxPredicateDepth ->
  n + 1 + sizes l <= MaxPredicateNodes -> (4 * length (sep_tokens (kw "AND") (tokens_of l)) + 3 <= fuel)%nat ->
  runs (parseOr fuel) (V (sep_tokens (kw "AND") (tokens_of l) ++ x :: rest) d n g) (AndE l) (V (x :: rest) d (n + 1 + sizes l) g).
Proof.
  intros Hlen Hl Hx Hd Hh Hn Hf. unfold ends_chain in Hx. apply andb_true_iff in Hx as [Hx1 Hx2]. bsplit.
  destruct fuel as [|[|f]]; [lia|lia|]. cbn [parseOr]. eapply runs_bind.
  { cbn [parseAnd]. apply (runs_chain (bs "AND") AndE parseUnary andTerms 1); [done|done|done|lia| |done|done|].
    - eapply Forall_impl; [apply (Forall_heights _ _ (MaxPredicateDepth - d) Hl); lia|].
      intros e [He Hhe] fuel y r m Hm Hfu _. apply He; [done|lia|done|lia].
    - change (length (sep_tokens (tokKeyword, bs "AND") (tokens_of l))) with (length (sep_tokens (kw "AND") (tokens_of l))). lia. }
  eapply runs_bind; [apply runs_at_keyword|]. rewrite Hx2. apply runs_ret.
Qed.

Lemma runs_or l fuel x rest d n g :
  (2 <= length l)%nat -> Forall unary_reads l -> ends_chain x = true -> 0 <= d -> d + heights l <= MaxPredicateDepth ->
  n + 1 + sizes l <= MaxPredicateNodes -> (4 * length (sep_tokens (kw "OR") (tokens_of l)) + 3 <= fuel)%nat ->
  runs (parseOr fuel) (V (sep_tokens (kw "OR") (tokens_of l) ++ x :: rest) d n g) (OrE l) (V (x :: rest) d (n + 1 + sizes l) g).
Proof.
  intros Hlen Hl Hx Hd Hh Hn Hf. unfold ends_chain in Hx. apply andb_true_iff in Hx as [Hx1 Hx2]. bsplit.
  destruct fuel as [|f]; [lia|]. cbn [parseOr].
  apply (runs_chain (bs "OR") OrE parseAnd orTerms 2); [done|done|done|lia| |done|done|].
  - eapply Forall_impl; [apply (Forall_heights _ _ (MaxPredicateDepth - d) Hl); lia|].
    intros e [He Hhe] fuel y r m Hm Hfu Hy. apply runs_and_operand; [done| |done|lia|done|done].
    by destruct Hy as [-> | ->].
  - change (length (sep_tokens (tokKeyword, bs "OR") (tokens_of l))) with (length (sep_tokens (kw "OR") (tokens_of l))). lia.
Qed.

(** The frame of [parseUnary]: the depth test, and the depth put back. *)
Lemma runs_unary f ts ts' d n n' g e (body : P Expr) :
  body = (open ← acceptPunct (bs "(");
          if open : bool then
            inner ← parseOr f; expectPunct (bs ")") (bs ") to close the group") ;; mret inner
          else
            countNode ;;
            nt ← acceptKeyword (bs "NOT");
            if nt : bool then inner ← parseUnary f; mret (NotE inner) else parseLeaf) ->
  d < MaxPredicateDepth -> runs body (V ts (d + 1) n g) e (V ts' (d + 1) n' g) ->
  runs (parseUnary (S f)) (V ts d n g) e (V ts' d n' g).
Proof.
  intros -> Hd Hb. cbn [parseUnary]. apply runs_get. intros p Hp. unfold view_of in Hp. injection Hp as _ -> _ _.
  rewrite Z.geb_leb, (proj2 (Z.leb_gt _ _)) by done.
  eapply runs_bind.
  { apply (runs_modify _ _ (V ts (d + 1) n g)). intros q Hq. unfold view_of in *. by injection Hq as <- <- <- <-. }
  eapply runs_bind; [exact Hb|]. eapply runs_bind; [|apply runs_ret].
  apply runs_modify. intros q Hq. unfold view_of in *. injection Hq as <- E <- <-. cbn. f_equal. lia.
Qed.

Lemma leaf_head e : canonical_leaf e -> exists x ts, leaf_tokens e = x :: ts /\ x.1 <> tokPunct /\ x <> kw "NOT".
Proof.
  assert (Hn : forall s, (name_token s).1 <> tokPunct /\ name_token s <> kw "NOT").
  { intros s. destruct (name_token_text s) as [_ Hk]. split; [by destruct Hk as [-> | ->]|].
    intros E. rewrite E in Hk. by destruct Hk. }
  intros [c Hc _|c Hc _|l Hl Hv _|m Hm|m Hm|s Hs|s Hs]; cbn [leaf_tokens]; [do 2 eexists; split; [done|apply Hn]..| |].
  all: destruct s; [done|]; do 2 eexists; (split; [done|by split]).
Qed.
Lemma is_lexeme_kind k s x : x.1 <> k -> is_lexeme k s x = false.
Proof. intros H. unfold is_lexeme. by rewrite bool_decide_eq_false_2. Qed.
Lemma is_lexeme_neq k s x : x <> (k, s) -> is_lexeme k s x = false.
Proof.
  intros H. unfold is_lexeme. destruct x as [k' s']. cbn in *. destruct (bool_decide (k' = k)) eqn:E; [|done].
  apply bool_decide_eq_true in E as ->. cbn. apply bytes_eqb_neq. congruence.
Qed.

Lemma leaf_expr_tokens e nested : canonical_leaf e -> expr_tokens e nested = leaf_tokens e.
Proof. by intros [?|?|?|?|?|?|?]. Qed.

(** A compound tree in parentheses. *)
Lemma runs_group (mk : list Expr -> Expr) sep l :
  (forall fuel x rest d n g,
    (2 <= length l)%nat -> Forall unary_reads l -> ends_chain x = true -> 0 <= d -> d + heights l <= MaxPredicateDepth ->
    n + 1 + sizes l <= MaxPredicateNodes -> (4 * length (sep_tokens sep (tokens_of l)) + 3 <= fuel)%nat ->
    runs (parseOr fuel) (V (sep_tokens sep (tokens_of l) ++ x :: rest) d n g) (mk l) (V (x :: rest) d (n + 1 + sizes l) g)) ->
  size (mk l) = 1 + sizes l -> height (mk l) = 1 + heights l ->
  expr_tokens (mk l) true = pn "(" :: sep_tokens sep (tokens_of l) ++ [pn ")"] ->
  (2 <= length l)%nat -> Forall unary_reads l -> unary_reads (mk l).
Proof.
  intros Hor Hs Hh Ht Hlen Hl fuel x rest d n g Hd Hdh Hn Hf. rewrite Hs, Hh, Ht in *. pose proof (height_pos (mk l)).
  cbn [length] in Hf. rewrite length_app in Hf. cbn [length] in Hf. destruct fuel as [|f]; [lia|].
  eapply runs_unary; [done|lia|]. cbn [app]. rewrite <- app_assoc.
  replace (n + (1 + sizes l)) with (n + 1 + sizes l) by lia.
  eapply runs_bind; [apply runs_accept_yes|].
  eapply runs_bind; [apply Hor; [done|done|done|lia|lia|lia|lia]|].
  eapply runs_bind; [apply runs_expectPunct|]. apply runs_ret.
Qed.

Lemma canonical_unary e : canonical e -> unary_reads e.
Proof.
  revert e. apply canonical_induction.
  - intros l Hlen _ Hl. apply (runs_group AndE (kw "AND")); [by intros; apply runs_and|apply size_And|apply height_And| |done|done].
    by destruct l; [cbn in Hlen; lia|].
  - intros l Hlen _ Hl. apply (runs_group OrE (kw "OR")); [by intros; apply runs_or|apply size_Or|apply height_Or| |done|done].
    by destruct l; [cbn in Hlen; lia|].
  - intros e _ He fuel x rest d n g Hd Hdh Hn Hf. pose proof (height_pos e). pose proof (size_pos e).
    rewrite height_Not, size_Not in * by lia. change (expr_tokens (NotE e) true) with (kw "NOT" :: expr_tokens e true) in *.
    cbn [length] in Hf. destruct fuel as [|f]; [lia|]. eapply runs_unary; [done|lia|].
    change ((kw "NOT" :: ?a) ++ ?b) with (kw "NOT" :: (a ++ b)).
    replace (n + (1 + size e)) with (n + 1 + size e) by lia.
    eapply runs_bind; [by apply runs_accept_no|]. eapply runs_bind; [apply runs_countNode; [done|lia]|].
    eapply runs_bind; [apply runs_accept_yes|]. eapply runs_bind; [apply He; [lia|lia|lia|lia]|]. apply runs_ret.
  - intros e He fuel x rest d n g Hd Hdh Hn Hf. rewrite leaf_expr_tokens in * by done.
    assert (size e = 1) as -> by (by destruct He). pose proof (height_pos e).
    destruct (leaf_head _ He) as (y & ts & E & Hk & Hnot). destruct fuel as [|f]; [lia|]. eapply runs_unary; [done|lia|].
    pose proof (runs_leaf e (x :: rest) (d + 1) (n + 1) g He) as Hleaf. rewrite E in *. change ((y :: ts) ++ ?b) with (y :: (ts ++ b)) in *.
    eapply runs_bind; [by apply runs_accept_no, is_lexeme_kind|]. eapply runs_bind; [apply runs_countNode; [done|]|].
    { assert (size e = 1) by (by destruct He). lia. }
    eapply runs_bind; [by apply runs_accept_no, is_lexeme_neq|]. exact Hleaf.
Qed.

(** The whole predicate, as [WHERE] reads it. *)
Lemma runs_predicate e x rest g :
  canonical e -> height e <= MaxPredicateDepth -> size e <= MaxPredicateNodes -> ends_chain x = true ->
  runs parsePredicate (V (expr_tokens e false ++ x :: rest) 0 0 g) e (V (x :: rest) 0 (size e) g).
Proof.
  intros Hc Hh Hs Hx. apply runs_get. intros p Hp. rewrite (view_toks_length _ _ Hp). cbn [v_toks]. rewrite length_app.
  assert (Hop : canonical e -> expr_tokens e false = expr_tokens e true -> forall fuel, (4 * length (expr_tokens e false) + 4 <= fuel)%nat ->
    runs (parseOr fuel) (V (expr_tokens e false ++ x :: rest) 0 0 g) e (V (x :: rest) 0 (size e) g)).
  { intros _ E fuel Hf. rewrite E in *. unfold ends_chain in Hx. apply andb_true_iff in Hx as [Hx1 Hx2]. bsplit.
    destruct fuel as [|f]; [lia|]. cbn [parseOr]. eapply runs_bind.
    { apply (runs_and_operand e f x rest 0 0); [by apply canonical_unary|done|done|lia|lia|lia]. }
    eapply runs_bind; [apply runs_at_keyword|]. rewrite Hx2. apply runs_ret. }
  assert (Hall : forall l, Forall canonical l -> Forall unary_reads l).
  { intros l Hl. eapply Forall_impl; [exact Hl|]. apply canonical_unary. }
  destruct Hc as [l Hlen Hl|l Hlen Hl|e' He|c Hcc Hll|c Hcc Hll|l Hcc Hv Hll|m Hm|m Hm|s Hs'|s Hs'].
  3-10: apply Hop; [by constructor|done|lia].
  - rewrite height_And, size_And in *.
    assert (E : expr_tokens (AndE l) false = sep_tokens (kw "AND") (tokens_of l)) by (by destruct l; [cbn in Hlen; lia|]).
    rewrite E. replace (1 + sizes l) with (0 + 1 + sizes l) by lia. apply runs_and; [done|by apply Hall|done|lia|lia|lia|lia].
  - rewrite height_Or, size_Or in *.
    assert (E : expr_tokens (OrE l) false = sep_tokens (kw "OR") (tokens_of l)) by (by destruct l; [cbn in Hlen; lia|]).
    rewrite E. replace (1 + sizes l) with (0 + 1 + sizes l) by lia. apply runs_or; [done|by apply Hall|done|lia|lia|lia|lia].
Qed.
End Reparse.
