(* ===== verification/MqlFields.v ===== *)
(** * MqlFields: numbers, durations and selected fields, printed and read back

    The text of a number, an integer or a duration lexes to one token, and
    that token reads back to the value, a duration's as long as a float64
    holds it exactly. *)

From Stdlib Require Import ZArith Lia Bool Strings.Byte Strings.String.
From S2P Require Import Prelude Bytes Float64 GoStd MqlAst MqlLex MqlPrint MqlParse MqlQuery MqlSafe MqlTotal MqlTokens.
From S2P Require Import MqlTokens MqlReparse.

Section Lexing.
Context `{U : Unicode} `{!UnicodeLaws U}.

(** ** What ends a number *)

Lemma stops_not (c : byte) r : stops r -> isIdentRune (b2z c) = true ->
  match r with b :: _ => byte_eqb b c = false | [] => True end.
Proof.
  destruct r as [|b r]; [done|]. cbn [stops]. intros [_ Hi]%andb_true_iff Hc. bsplit.
  destruct (byte_eqb b c) eqn:E; [|done]. apply byte_eqb_spec in E as ->. congruence.
Qed.
Lemma stops_digit b r : stops (b :: r) -> is_digit b = false.
Proof.
  cbn [stops]. intros [Hb Hi]%andb_true_iff. bsplit. unfold is_digit. unfold isIdentRune, IsDigit in Hi.
  rewrite (proj2 (Z.ltb_lt _ _)) in Hi by done. by bsplit.
Qed.
Lemma stops_unit r : stops r -> scan_unit r = ([], r).
Proof.
  destruct r as [|b r]; [done|]. cbn [stops]. intros [Hb Hi]%andb_true_iff. bsplit.
  unfold scan_unit. cbn [length scan_unit_loop]. rewrite DecodeRune_ascii by done.
  assert (IsLetter (b2z b) = false) as -> by (unfold isIdentRune in Hi; by bsplit). done.
Qed.
Lemma stops_exponent r : stops r -> scan_exponent r = None.
Proof.
  intros Hr. pose proof (stops_not x65 r Hr ltac:(done)) as H1. pose proof (stops_not x45 r Hr ltac:(done)) as H2.
  destruct r as [|b r]; [done|]. cbn [scan_exponent]. by rewrite H1, H2.
Qed.

(** ** The scanners on digits *)

Lemma is_digit_ascii b : is_digit b = ascii_digit (b2z b).
Proof. reflexivity. Qed.
Lemma scan_number_digits ds : forall dot rest, all_digits ds = true ->
  scan_number dot (ds ++ rest) = (ds ++ fst (scan_number dot rest), snd (scan_number dot rest)).
Proof.
  induction ds as [|b ds IH]; intros dot rest Hd; [cbn [app]; by destruct (scan_number dot rest)|].
  cbn [all_digits forallb] in Hd. apply andb_true_iff in Hd as [Hb Hd]. cbn [app scan_number].
  rewrite is_digit_ascii, Hb, IH by done. done.
Qed.
Lemma scan_number_dot rest : scan_number false (x2e :: rest) = (x2e :: fst (scan_number true rest), snd (scan_number true rest)).
Proof. cbn [scan_number]. cbn. by destruct (scan_number true rest). Qed.
Lemma scan_digits_all ds : forall rest, all_digits ds = true -> match rest with b :: _ => is_digit b = false | [] => True end ->
  scan_digits (ds ++ rest) = (ds, rest).
Proof.
  induction ds as [|b ds IH]; intros rest Hd Hr.
  - destruct rest as [|b rest]; [done|]. cbn. by rewrite Hr.
  - cbn [all_digits forallb] in Hd. apply andb_true_iff in Hd as [Hb Hd]. cbn [app scan_digits].
    rewrite is_digit_ascii, Hb, IH by done. done.
Qed.
(** What stops the scan of a number: neither digit nor point. *)
Definition ends_number (rest : gostr) : Prop :=
  match rest with b :: _ => is_digit b = false /\ byte_eqb b x2e = false | [] => True end.
Lemma scan_number_ends dot rest : ends_number rest -> scan_number dot rest = ([], rest).
Proof. destruct rest as [|b rest]; [done|]. intros [H1 H2]. cbn [scan_number]. by rewrite H1, H2. Qed.
Lemma stops_ends_number r : stops r -> ends_number r.
Proof.
  intros Hr. pose proof (stops_not x2e r Hr ltac:(done)) as Hd. destruct r as [|b r]; [done|].
  split; [by eapply stops_digit|done].
Qed.

Lemma scan_sign_split' sg rest : sg = [] \/ sg = [x2d] -> match rest with b :: _ => is_sign b = false | [] => True end ->
  scan_sign (sg ++ rest) = (sg, rest).
Proof. intros [-> | ->] Hr; [|done]. destruct rest as [|b rest]; [done|]. cbn. by rewrite Hr. Qed.
Lemma digit_is_not_sign b : is_digit b = true -> is_sign b = false.
Proof.
  unfold is_digit, ascii_digit, between, is_sign. intros Hb. bsplit.
  assert (forall c, b2z c < 48 -> byte_eqb b c = false) as Hc.
  { intros c Hc. destruct (byte_eqb b c) eqn:E; [|done]. apply byte_eqb_spec in E as ->. lia. }
  by rewrite !Hc.
Qed.

(** ** The tokens *)

(** The first byte of signed digits starts a number. *)
Lemma lexes_lexNumber sg ds tl k w r :
  sg = [] \/ sg = [x2d] -> ds <> [] -> all_digits ds = true ->
  lexNumber (sg ++ ds ++ tl) = (k, w, r) -> lexes (sg ++ ds ++ tl) [(k, w)] r.
Proof.
  intros Hsg Hne Hd E. destruct ds as [|b ds]; [done|]. cbn [all_digits forallb] in Hd. apply andb_true_iff in Hd as [Hb _].
  change (is_digit b = true) in Hb. assert (Hbs : forall c, is_digit c = false -> byte_eqb b c = false).
  { intros c Hc. destruct (byte_eqb b c) eqn:Ebc; [|done]. apply byte_eqb_spec in Ebc as ->. congruence. }
  destruct Hsg as [-> | ->].
  - change ([] ++ (b :: ds) ++ tl) with (b :: ds ++ tl) in *. apply lexes_tok; [unfold is_space; by rewrite !Hbs|by rewrite Hbs|].
    intros start. unfold lex_token. destruct (DecodeRune _). rewrite !Hbs, Hb by done. cbn [orb]. by rewrite E.
  - change ([x2d] ++ (b :: ds) ++ tl) with (x2d :: b :: ds ++ tl) in *.
    eapply lexes_cons; [|intros start|constructor].
    + unfold skipSpaceAndComments. cbn [length skip_loop]. by rewrite Hbs.
    + unfold lex_token. destruct (DecodeRune _). cbn [peekDigit]. rewrite Hb. cbn [andb orb]. by rewrite E.
Qed.

Lemma digits_app_ends ds rest : ds <> [] -> all_digits ds = true -> match ds ++ rest with b :: _ => is_sign b = false | [] => True end.
Proof.
  destruct ds as [|b ds]; [done|]. intros _. cbn [all_digits forallb]. intros [Hb _]%andb_true_iff. by apply digit_is_not_sign.
Qed.

Lemma lexNumber_text sg ip fp ex r :
  sg = [] \/ sg = [x2d] -> ip <> [] -> all_digits ip = true ->
  fp = [] \/ (exists ds, fp = x2e :: ds /\ ds <> [] /\ all_digits ds = true) ->
  ex = [] \/ (exists c ds, ex = x65 :: c :: ds /\ (c = x2b \/ c = x2d) /\ ds <> [] /\ all_digits ds = true) ->
  stops r -> lexNumber (sg ++ ip ++ fp ++ ex ++ r) = (tokNumber, sg ++ ip ++ fp ++ ex, r).
Proof.
  intros Hsg Hne Hip Hfp Hex Hr. unfold lexNumber. rewrite scan_sign_split' by (done || by apply digits_app_ends).
  assert (Hends : ends_number (ex ++ r)).
  { destruct Hex as [-> |(c & ds & -> & _)]; [by apply stops_ends_number|done]. }
  assert (scan_number false (ip ++ fp ++ ex ++ r) = (ip ++ fp, ex ++ r)) as ->.
  { rewrite scan_number_digits by done. destruct Hfp as [-> |(ds & -> & _ & Hds)].
    - cbn [app]. by rewrite scan_number_ends.
    - change ((x2e :: ds) ++ ex ++ r) with (x2e :: ds ++ ex ++ r). rewrite scan_number_dot, scan_number_digits by done.
      rewrite scan_number_ends by done. cbn [fst snd]. by rewrite app_nil_r. }
  destruct Hex as [-> |(c & ds & -> & Hc & Hdn & Hds)].
  - cbn [app]. rewrite stops_exponent, stops_unit by done. cbn. by rewrite app_nil_r.
  - change ((x65 :: c :: ds) ++ r) with (x65 :: c :: ds ++ r). cbn [scan_exponent]. change (byte_eqb x65 x65) with true. cbn [orb].
    assert (scan_sign (c :: ds ++ r) = ([c], ds ++ r)) as -> by (by destruct Hc as [-> | ->]).
    rewrite scan_digits_all; [|done|by destruct r; [|eapply stops_digit]]. destruct ds as [|d ds]; [done|].
    by rewrite <- !app_assoc.
Qed.

Lemma reads_number s : number_text s -> reads s [(tokNumber, s)].
Proof.
  intros [sg ip fp ex Hsg Hne Hip Hfp Hex]. split; [done|]. intros r Hr. rewrite <- !app_assoc.
  apply lexes_lexNumber; [done|done|done|]. by apply lexNumber_text.
Qed.
Lemma reads_int n : reads (FormatInt n) [(tokNumber, FormatInt n)].
Proof. apply reads_number, number_text_int. Qed.

(** A unit of the grammar, all letters. *)
Definition unit_text (u : gostr) : Prop := In u (map bs ["ms"; "s"; "m"; "h"; "d"]%string).
Lemma scan_unit_text u r : unit_text u -> stops r -> scan_unit (u ++ r) = (u, r) /\ scan_exponent (u ++ r) = None /\ ends_number (u ++ r).
Proof.
  intros Hu Hr.
  assert (Hone : forall f, scan_unit_loop f r = ([], r)).
  { intros f. destruct r as [|b r]; [by destruct f|]. cbn [stops] in Hr. apply andb_true_iff in Hr as [Hb Hi]. bsplit.
    destruct f; [done|]. cbn [scan_unit_loop]. rewrite DecodeRune_ascii by done.
    assert (IsLetter (b2z b) = false) as -> by (unfold isIdentRune in Hi; by bsplit). done. }
  assert (Hstep : forall f b t, IsLetter (b2z b) = true -> (b2z b <? 128) = true ->
    scan_unit_loop (S f) (b :: t) = (b :: fst (scan_unit_loop f t), snd (scan_unit_loop f t))).
  { intros f b t Hl Hb. bsplit. cbn [scan_unit_loop]. rewrite DecodeRune_ascii by done. rewrite Hl. cbn [negb].
    change (drop (Z.to_nat 1) (b :: t)) with t. change (take (Z.to_nat 1) (b :: t)) with [b].
    by destruct (scan_unit_loop f t). }
  destruct Hu as [<-|[<-|[<-|[<-|[<-|[]]]]]].
  all: unfold scan_unit; split; [|done].
  - change (bs "ms" ++ r) with (x6d :: x73 :: r). cbn [length]. by rewrite !Hstep, Hone.
  - change (bs "s" ++ r) with (x73 :: r). cbn [length]. by rewrite !Hstep, Hone.
  - change (bs "m" ++ r) with (x6d :: r). cbn [length]. by rewrite !Hstep, Hone.
  - change (bs "h" ++ r) with (x68 :: r). cbn [length]. by rewrite !Hstep, Hone.
  - change (bs "d" ++ r) with (x64 :: r). cbn [length]. by rewrite !Hstep, Hone.
Qed.

Lemma lexes_duration n u r : unit_text u -> stops r -> lexes ((FormatInt n ++ u) ++ r) [(tokDuration, FormatInt n ++ u)] r.
Proof.
  intros Hu Hr. destruct (FormatInt_split n) as (sg & ds & -> & Hsg & Hne & Hd). rewrite <- !app_assoc.
  destruct (scan_unit_text u r Hu Hr) as (E1 & E2 & E3).
  apply lexes_lexNumber; [done|done|done|]. unfold lexNumber.
  rewrite scan_sign_split' by (done || by apply digits_app_ends).
  rewrite scan_number_digits, scan_number_ends by done. cbn [fst snd]. rewrite E2, E1, app_nil_r.
  assert (is_unit u = true) as ->; [|done].
  unfold is_unit. rewrite existsb_exists. exists u. split; [exact Hu|apply bytes_eqb_refl].
Qed.
End Lexing.

(** ** Reading the tokens back *)

Definition duration_token (ms : Z) : lexeme :=
  if ms =? 0 then (tokNumber, bs "0") else (tokDuration, printDuration ms).

(** The quotient and the unit [printDuration] picks. *)
Definition units : list (gostr * Z) :=
  [(bs "d", 86400000); (bs "h", 3600000); (bs "m", 60000); (bs "s", 1000); (bs "ms", 1)].
Lemma printDuration_unit ms : ms <> 0 ->
  exists q u k, In (u, k) units /\ printDuration ms = FormatInt q ++ u /\ ms = q * k /\ q <> 0 /\ 0 < k.
Proof.
  intros Hne. unfold printDuration. rewrite (proj2 (Z.eqb_neq _ _)) by done.
  assert (Hq : forall k, 0 < k -> (ms %go k =? 0) = true -> ms = (ms /go k) * k /\ ms /go k <> 0).
  { intros k Hk E. bsplit. pose proof (Z.quot_rem' ms k). split; [lia|]. intros E0. rewrite E0 in *. lia. }
  destruct (ms %go 86400000 =? 0) eqn:E1; [|destruct (ms %go 3600000 =? 0) eqn:E2; [|destruct (ms %go 60000 =? 0) eqn:E3; [|destruct (ms %go 1000 =? 0) eqn:E4]]].
  1-4: match goal with E : (_ %go ?k =? 0) = true |- _ => destruct (Hq k ltac:(lia) E); exists (ms /go k) end.
  - exists (bs "d"), 86400000. split; [by left|]. by split.
  - exists (bs "h"), 3600000. split; [by right; left|]. by split.
  - exists (bs "m"), 60000. split; [by right; right; left|]. by split.
  - exists (bs "s"), 1000. split; [by right; right; right; left|]. by split.
  - exists ms, (bs "ms"), 1. split; [by do 4 right; left|]. split; [done|]. split; [lia|by split].
Qed.

Section Printed.
Context `{U : Unicode} `{!UnicodeLaws U}.

Lemma reads_duration ms : reads (printDuration ms) [duration_token ms].
Proof.
  unfold duration_token. destruct (ms =? 0) eqn:E; bsplit.
  - rewrite E. apply (reads_int 0).
  - split; [done|]. intros r Hr. destruct (printDuration_unit ms E) as (q & u & k & Hu & -> & _).
    apply lexes_duration; [|done]. unfold unit_text. cbn in Hu |- *. intuition congruence.
Qed.
End Printed.

Section Values.
Context `{F : FloatText} `{!FloatTextLaws F}.

Lemma scan_digits_dots_all ds rest : all_digits ds = true ->
  match rest with b :: _ => is_digit b = false /\ byte_eqb b x2e = false | [] => True end ->
  scan_digits_dots (ds ++ rest) = (ds, rest).
Proof.
  intros Hd Hr. induction ds as [|b ds IH].
  - destruct rest as [|b rest]; [done|]. destruct Hr as [H1 H2]. cbn. by rewrite H1, H2.
  - cbn [all_digits forallb] in Hd. apply andb_true_iff in Hd as [Hb Hd]. cbn [app scan_digits_dots].
    change (is_digit b = true) in Hb. by rewrite Hb, IH.
Qed.

Lemma scaleDuration_exact text q k : exact q -> q <> 0 -> 0 < k -> exact (q * k) -> scaleDuration text (of_int q) k = Ok (q * k).
Proof.
  intros Hq Hne Hk Hqk. unfold scaleDuration.
  assert (exact k) by (unfold exact in *; nia).
  rewrite fmul_exact by done. destruct (of_int_in_range (q * k) Hqk) as [H1 H2].
  unfold maxIntFloat. change 9223372036854775808 with two63. rewrite H1, H2. cbn [andb negb].
  by rewrite to_int_of_int.
Qed.

Lemma ParseDuration_print ms : exact ms -> ParseDuration (printDuration ms) = Ok ms.
Proof.
  intros Hms. destruct (Z.eq_dec ms 0) as [->|Hne].
  { unfold ParseDuration. change (scan_sign (printDuration 0)) with (@nil byte, bs "0"). cbv iota beta.
    change (scan_digits_dots (bs "0")) with (bs "0", @nil byte). cbv iota beta. cbn [is_nil app].
    change (bs "0") with (FormatInt 0). by rewrite (ParseFloat_whole 0). }
  destruct (printDuration_unit ms Hne) as (q & u & k & Hu & -> & Eq & Hq & Hk).
  assert (Hqe : exact q) by (unfold exact in *; nia).
  destruct (FormatInt_split q) as (sg & ds & E & Hsg & Hds & Hd).
  unfold ParseDuration. rewrite E, <- app_assoc, scan_sign_split'; [|done|by apply digits_app_ends].
  assert (Hends : match u with b :: _ => is_digit b = false /\ byte_eqb b x2e = false | [] => True end).
  { cbn in Hu. destruct Hu as [Hu|[Hu|[Hu|[Hu|[Hu|[]]]]]]; injection Hu as <- _; done. }
  rewrite scan_digits_dots_all by done. destruct ds as [|b ds]; [done|]. cbn [is_nil].
  rewrite <- E, ParseFloat_whole by (unfold exact in *; lia). rewrite Eq in *.
  cbn in Hu. destruct Hu as [Hu|[Hu|[Hu|[Hu|[Hu|[]]]]]]; injection Hu as <- <-; by apply scaleDuration_exact.
Qed.

Lemma runs_duration ms ts d n g : exact ms -> runs duration (V (duration_token ms :: ts) d n g) ms (V ts d n g).
Proof.
  intros Hms. pose proof (ParseDuration_print ms Hms) as Hp. apply runs_cur. intros t Ht. rewrite (is_tok_erase _ _ _ _ Ht).
  unfold duration_token in *. destruct (ms =? 0) eqn:E; injection Ht as Ek Et.
  - bsplit. rewrite E in *. change (is_lexeme tokNumber (bs "0") (tokNumber, bs "0")) with true.
    eapply runs_bind; [apply runs_advance|]. rewrite Et. change (printDuration 0) with (bs "0") in Hp. rewrite Hp. apply runs_ret.
  - change (is_lexeme tokNumber (bs "0") (tokDuration, printDuration ms)) with false.
    rewrite Ek, bool_decide_eq_true_2 by done. cbn [negb].
    eapply runs_bind; [apply runs_advance|]. rewrite Et, Hp. apply runs_ret.
Qed.

Lemma runs_integer k ts d n g : in_i64 k -> runs integer (V ((tokNumber, FormatInt k) :: ts) d n g) k (V ts d n g).
Proof.
  intros Hk. apply runs_cur. intros t Ht. injection Ht as Ek Et. rewrite Ek, Et, bool_decide_eq_true_2 by done. cbn [negb].
  rewrite ParseInt_FormatInt by done. eapply runs_bind; [apply runs_advance|apply runs_ret].
Qed.

(** A float the grammar can write. *)
Definition finite (f : f64) : Prop := fvalid f = true /\ IsNaN f = false /\ IsInf f = false.
Lemma printFloat_text f : finite f -> number_text (printFloat f) /\ ParseFloat (printFloat f) = Some f.
Proof.
  intros (Hv & Hn & Hi). unfold printFloat. rewrite Hn, Hi. destruct (_ <=? _).
  - by apply FormatFloat_f_text.
  - by apply FormatFloat_g_text.
Qed.
Definition float_token (f : f64) : lexeme := (tokNumber, printFloat f).
Lemma runs_number f ts d n g : finite f -> runs number (V (float_token f :: ts) d n g) f (V ts d n g).
Proof.
  intros Hf. apply runs_cur. intros t Ht. injection Ht as Ek Et. rewrite Ek, Et, bool_decide_eq_true_2 by done. cbn [negb].
  destruct (printFloat_text f Hf) as [_ ->]. eapply runs_bind; [apply runs_advance|apply runs_ret].
Qed.
Lemma reads_float `{U : Unicode} `{!UnicodeLaws U} f : finite f -> reads (printFloat f) [float_token f].
Proof. intros Hf. by apply reads_number, printFloat_text. Qed.
End Values.

(** * A selected field, printed and read back

    The modifiers of a field are items: the tokens [printFieldExpr] writes,
    the keys [mark] records, the rank and the update.  Printed in canonical
    order they read back one by one, without the order lint. *)


(** Evaluates the tests of the current token against a keyword. *)
Ltac eval_lexeme :=
  repeat match goal with
  | |- context [is_lexeme ?a ?b ?c] =>
      let v := eval vm_compute in (is_lexeme a b c) in
      match v with true => idtac | false => idtac end;
      change (is_lexeme a b c) with v; cbv iota
  end; cbn [orb andb negb]; cbv iota.
Ltac read_cur := apply runs_cur; let t := fresh "t" in let Ht := fresh "Ht" in
  intros t Ht; rewrite !(is_tok_erase _ _ _ _ Ht); eval_lexeme.
Ltac step_yes := eapply runs_bind; [apply runs_accept_yes|cbv iota].
Ltac step_no := eapply runs_bind; [apply runs_accept_no; first [done|assumption]|cbv iota].
Ltac step_advance := eapply runs_bind; [apply runs_advance|].

(** What may follow a field, or one of its clauses. *)
Definition not_bound (x : lexeme) : bool := negb (is_lexeme tokKeyword (bs "MIN") x) && negb (is_lexeme tokKeyword (bs "MAX") x).
Definition comma_follow (ts : list lexeme) : Prop :=
  exists x r, ts = x :: r /\ not_bound x = true /\
    (is_lexeme tokPunct (bs ",") x = true -> exists y r', r = y :: r' /\ not_bound y = true).
(** The head of the tokens is none of the given keywords. *)
Definition head_not (ws : list gostr) (ts : list lexeme) : Prop :=
  exists x r, ts = x :: r /\ forallb (fun w => negb (is_lexeme tokKeyword w x)) ws = true.
Definition clamp_follow (ts : list lexeme) : Prop := comma_follow ts /\ head_not [bs "ELSE"] ts.
Definition modifier_words : list gostr := map bs
  ["RATE"; "DELTA"; "PER"; "NEGATE"; "REQUIRED"; "GAP"; "SSE"; "CLAMP"; "AS"]%string.
Definition field_follow (ts : list lexeme) : Prop :=
  clamp_follow ts /\ head_not modifier_words ts.

Section Clamp.
Context `{U : Unicode} `{F : FloatText} `{!FloatTextLaws F}.

Definition clamp_ok (c : Clamp) : Prop :=
  (cl_Min c <> None \/ cl_Max c <> None) /\
  (forall v, cl_Min c = Some v -> finite v) /\ (forall v, cl_Max c = Some v -> finite v) /\
  (cl_Else c = bs "bound" \/ cl_Else c = bs "raw").
Definition bound_tokens (c : Clamp) : list (list lexeme) :=
  (match cl_Min c with Some v => [[kw "MIN"; float_token v]] | None => [] end) ++
  (match cl_Max c with Some v => [[kw "MAX"; float_token v]] | None => [] end).
Definition else_tokens (c : Clamp) : list lexeme := if bytes_eqb (cl_Else c) (bs "raw") then [kw "ELSE"; kw "RAW"] else [].
Definition clamp_tokens (c : Clamp) : list lexeme := sep_tokens (pn ",") (bound_tokens c) ++ else_tokens c.

(** The comma of a clamp belongs to it only before another bound. *)
Lemma runs_comma_before_none x ts d n g :
  is_lexeme tokPunct (bs ",") x = false -> runs (acceptCommaBefore [bs "MIN"; bs "MAX"]) (V (x :: ts) d n g) false (V (x :: ts) d n g).
Proof. intros Hx. apply runs_cur. intros t Ht. rewrite (is_tok_erase _ _ _ _ Ht), Hx. apply runs_ret. Qed.
Lemma runs_comma_before y ts d n g :
  runs (acceptCommaBefore [bs "MIN"; bs "MAX"]) (V (pn "," :: y :: ts) d n g) (negb (not_bound y))
    (V (if not_bound y then pn "," :: y :: ts else y :: ts) d n g).
Proof.
  apply runs_cur. intros t Ht. rewrite (is_tok_erase _ _ _ _ Ht). change (is_lexeme tokPunct (bs ",") (pn ",")) with true. cbn [negb].
  apply runs_get. intros p Hp. unfold view_of in Hp. injection Hp as Hts _ _ _.
  destruct (p_toks p) as [|t0 [|t1 l]]; [done|done|]. cbn in Hts.
  assert (Hy : erase t1 = y) by congruence. clear Hts.
  cbn [existsb]. rewrite !(is_tok_erase _ _ _ _ Hy), orb_false_r. unfold not_bound. rewrite <- negb_orb, negb_involutive.
  destruct (_ || _); cbn [negb]; [|apply runs_ret]. step_advance. apply runs_ret.
Qed.
Lemma runs_comma_follow ts d n g : comma_follow ts ->
  runs (acceptCommaBefore [bs "MIN"; bs "MAX"]) (V ts d n g) false (V ts d n g).
Proof.
  intros (x & r & -> & _ & Hc). destruct (is_lexeme tokPunct (bs ",") x) eqn:E; [|by apply runs_comma_before_none].
  assert (x = pn ",") as ->.
  { destruct x as [k s]. unfold is_lexeme in E. apply andb_true_iff in E as [E1 E2]. apply bool_decide_eq_true in E1.
    apply bytes_eqb_spec in E2. cbn in *. by subst. }
  destruct (Hc eq_refl) as (y & r' & -> & Hy). pose proof (runs_comma_before y r' d n g) as Hr. by rewrite Hy in Hr.
Qed.

Lemma runs_min c v ts d n g : finite v -> cl_Min c = None ->
  runs (clamp_bound c) (V (kw "MIN" :: float_token v :: ts) d n g) (with_min v c) (V ts d n g).
Proof. intros Hv Hc. step_yes. eapply runs_bind; [by apply runs_number|]. rewrite Hc. apply runs_ret. Qed.
Lemma runs_max c v ts d n g : finite v -> cl_Max c = None ->
  runs (clamp_bound c) (V (kw "MAX" :: float_token v :: ts) d n g) (with_max v c) (V ts d n g).
Proof. intros Hv Hc. step_no. step_yes. eapply runs_bind; [by apply runs_number|]. rewrite Hc. apply runs_ret. Qed.

Definition clamp_base : Clamp := {| cl_Min := None; cl_Max := None; cl_Else := bs "bound" |}.
Definition clamp_bounds (c : Clamp) : Clamp := {| cl_Min := cl_Min c; cl_Max := cl_Max c; cl_Else := bs "bound" |}.
Lemma runs_clamp_loop c ts d n g f : clamp_ok c -> comma_follow ts -> (2 <= f)%nat ->
  runs (clamp_loop f clamp_base) (V (sep_tokens (pn ",") (bound_tokens c) ++ ts) d n g) (clamp_bounds c) (V ts d n g).
Proof.
  intros (Hone & Hmin & Hmax & _) Hfol Hf. destruct f as [|[|f]]; [lia|lia|].
  unfold bound_tokens, clamp_bounds. destruct c as [[mn|] [mx|] el]; cbn [cl_Min cl_Max cl_Else] in *.
  - cbn [clamp_loop app sep_tokens map concat]. eapply runs_bind; [apply runs_min; [by apply Hmin|done]|].
    eapply runs_bind; [apply runs_comma_before|]. cbv iota. change (not_bound (kw "MAX")) with false. cbv iota. cbn [negb].
    eapply runs_bind; [apply runs_max; [by apply Hmax|done]|]. eapply runs_bind; [by apply runs_comma_follow|]. apply runs_ret.
  - cbn [clamp_loop app sep_tokens map concat]. eapply runs_bind; [apply runs_min; [by apply Hmin|done]|].
    eapply runs_bind; [by apply runs_comma_follow|]. apply runs_ret.
  - cbn [clamp_loop app sep_tokens map concat]. eapply runs_bind; [apply runs_max; [by apply Hmax|done]|].
    eapply runs_bind; [by apply runs_comma_follow|]. apply runs_ret.
  - by destruct Hone.
Qed.

Lemma runs_clamp c ts d n g : clamp_ok c -> clamp_follow ts -> runs clamp (V (clamp_tokens c ++ ts) d n g) c (V ts d n g).
Proof.
  intros Hc [Hfol Helse]. apply runs_get. intros p Hp. rewrite (view_toks_length _ _ Hp). cbn [v_toks]. unfold clamp_tokens.
  rewrite <- app_assoc.
  assert (Hcf : comma_follow (else_tokens c ++ ts)).
  { unfold else_tokens. destruct (bytes_eqb _ _); [|exact Hfol]. by eexists _, _. }
  eapply runs_bind.
  { apply runs_clamp_loop; [done|done|]. rewrite length_app.
    destruct Hc as ([Hc|Hc] & _); unfold bound_tokens; destruct (cl_Min c), (cl_Max c); cbn; done || lia. }
  destruct Hcf as (x & r & E & Hx & _). rewrite E. apply runs_cur. intros t Ht. rewrite !(is_tok_erase _ _ _ _ Ht).
  unfold not_bound in Hx. apply andb_true_iff in Hx as [H1 H2]. bsplit. rewrite H1, H2. cbn [orb]. rewrite <- E.
  destruct Hc as (Hone & _ & _ & Hel). unfold else_tokens in *.
  destruct Hel as [Hel|Hel]; rewrite Hel in *.
  - change (bytes_eqb (bs "bound") (bs "raw")) with false. cbn [app].
    destruct Helse as (y & r' & -> & Hy). cbn [forallb] in Hy. rewrite andb_true_r in Hy. bsplit.
    eapply runs_bind; [step_no; apply runs_ret|].
    unfold clamp_bounds. destruct c as [[mn|] [mx|] el]; cbn in *; subst; try apply runs_ret. by destruct Hone.
  - change (bytes_eqb (bs "raw") (bs "raw")) with true. cbn [app].
    eapply runs_bind; [step_yes; step_yes; apply runs_ret|].
    unfold clamp_bounds, with_else. destruct c as [[mn|] [mx|] el]; cbn in *; subst; try apply runs_ret. by destruct Hone.
Qed.
End Clamp.

(** ** SSE *)

Section Items.
Context `{U : Unicode} `{F : FloatText} `{!FloatTextLaws F}.

Definition sse_ok (s : SSE) : Prop :=
  s = {| ss_Mode := bs "repeat"; ss_Value := f_zero |} \/ s = {| ss_Mode := bs "off"; ss_Value := f_zero |} \/
  (ss_Mode s = bs "const" /\ finite (ss_Value s)).
Definition sse_tokens (s : SSE) : list lexeme :=
  if bytes_eqb (ss_Mode s) (bs "repeat") then [kw "REPEAT"]
  else if bytes_eqb (ss_Mode s) (bs "off") then [kw "OFF"]
  else [float_token (ss_Value s)].
Lemma runs_sse s ts d n g : sse_ok s -> runs sse (V (sse_tokens s ++ ts) d n g) s (V ts d n g).
Proof.
  unfold sse_tokens. intros [-> |[-> |[Hm Hf]]].
  - cbn. step_yes. apply runs_ret.
  - cbn. step_no. step_yes. apply runs_ret.
  - rewrite Hm. change (bytes_eqb (bs "const") (bs "repeat")) with false. change (bytes_eqb (bs "const") (bs "off")) with false.
    cbn [app]. step_no. step_no. intros p Hp. destruct (runs_number (ss_Value s) ts d n g Hf p Hp) as (p' & -> & Hp').
    exists p'. split; [|done]. destruct s. cbn in *. by subst.
Qed.

(** ** Modifiers *)

Record item := { it_toks : list lexeme; it_what : gostr; it_rank : Z; it_sets : list gostr; it_upd : Modifiers -> Modifiers }.
Definition marked (it : item) (st : field_st) : field_st :=
  {| fs_seen := it_sets it ++ fs_seen st; fs_lastRank := it_rank it;
     fs_outOfOrder := fs_outOfOrder st || (it_rank it <? fs_lastRank st); fs_fe := fs_fe st |}.

Lemma runs_mark it st v : existsb (seen st) (it_sets it) = false ->
  runs (mark (it_what it) (it_rank it) (it_sets it) st) v (marked it st) v.
Proof.
  intros Hs. unfold mark. destruct (List.find (seen st) (it_sets it)) as [k|] eqn:E; [|apply runs_ret].
  apply find_some in E as [Hin Hk]. assert (existsb (seen st) (it_sets it) = true); [|congruence].
  apply existsb_exists. by exists k.
Qed.

Definition item_ok (it : item) : Prop :=
  (exists w r, it_toks it = (tokKeyword, w) :: r /\ In w modifier_words) /\
  forall st ts d n g, existsb (seen st) (it_sets it) = false -> clamp_follow ts ->
    runs (modifier st) (V (it_toks it ++ ts) d n g) (true, upd_mods (it_upd it) (marked it st)) (V ts d n g).

Definition item_rate := {| it_toks := [kw "RATE"]; it_what := bs "RATE"; it_rank := 1;
  it_sets := [bs "RATE"; bs "DELTA"; bs "PER SECOND"]; it_upd := fun m => mod_persecond (mod_delta m) |}.
Definition item_delta := {| it_toks := [kw "DELTA"]; it_what := bs "DELTA"; it_rank := 1; it_sets := [bs "DELTA"]; it_upd := mod_delta |}.
Definition item_per := {| it_toks := [kw "PER"; kw "SECOND"]; it_what := bs "PER SECOND"; it_rank := 2;
  it_sets := [bs "PER SECOND"]; it_upd := mod_persecond |}.
Definition item_negate := {| it_toks := [kw "NEGATE"]; it_what := bs "NEGATE"; it_rank := 3; it_sets := [bs "NEGATE"]; it_upd := mod_negate |}.
Definition item_clamp c := {| it_toks := kw "CLAMP" :: clamp_tokens c; it_what := bs "CLAMP"; it_rank := 4;
  it_sets := [bs "CLAMP"]; it_upd := mod_clamp c |}.
Definition item_gap ms := {| it_toks := [kw "GAP"; duration_token ms]; it_what := bs "GAP"; it_rank := 5;
  it_sets := [bs "GAP"]; it_upd := mod_gap ms |}.
Definition item_sse s := {| it_toks := kw "SSE" :: sse_tokens s; it_what := bs "SSE"; it_rank := 6;
  it_sets := [bs "SSE"]; it_upd := mod_sse s |}.
Definition item_required := {| it_toks := [kw "REQUIRED"]; it_what := bs "REQUIRED"; it_rank := 7;
  it_sets := [bs "REQUIRED"]; it_upd := mod_required |}.

(** The modifiers of a field, in the order [printFieldExpr] writes them. *)
Definition items (m : Modifiers) : list item :=
  (if m_Delta m && m_PerSecond m then [item_rate]
   else if m_Delta m then [item_delta] else if m_PerSecond m then [item_per] else []) ++
  (if m_Negate m then [item_negate] else []) ++
  (match m_Clamp m with Some c => [item_clamp c] | None => [] end) ++
  (match m_GapMs m with Some ms => [item_gap ms] | None => [] end) ++
  (match m_SSE m with Some s => [item_sse s] | None => [] end) ++
  (if m_Required m then [item_required] else []).

Definition modifiers_ok (m : Modifiers) : Prop :=
  (forall c, m_Clamp m = Some c -> clamp_ok c) /\ (forall ms, m_GapMs m = Some ms -> exact ms) /\
  (forall s, m_SSE m = Some s -> sse_ok s).

Ltac item_head := split; [eexists _, _; split; [reflexivity|cbn; auto 12]|].
Lemma item_rate_ok : item_ok item_rate.
Proof.
  item_head. intros st ts d n g Hs Hfol. cbn [it_toks item_rate app].
  read_cur. step_advance. eapply runs_bind; [by apply (runs_mark item_rate)|]. apply runs_ret.
Qed.
Lemma item_delta_ok : item_ok item_delta.
Proof.
  item_head. intros st ts d n g Hs Hfol. cbn [it_toks item_delta app].
  read_cur. step_advance. eapply runs_bind; [by apply (runs_mark item_delta)|]. apply runs_ret.
Qed.
Lemma item_per_ok : item_ok item_per.
Proof.
  item_head. intros st ts d n g Hs Hfol. cbn [it_toks item_per app].
  read_cur. step_advance. eapply runs_bind; [apply runs_expectKeyword|].
  eapply runs_bind; [by apply (runs_mark item_per)|]. apply runs_ret.
Qed.
Lemma item_negate_ok : item_ok item_negate.
Proof.
  item_head. intros st ts d n g Hs Hfol. cbn [it_toks item_negate app].
  read_cur. step_advance. eapply runs_bind; [by apply (runs_mark item_negate)|]. apply runs_ret.
Qed.
Lemma item_required_ok : item_ok item_required.
Proof.
  item_head. intros st ts d n g Hs Hfol. cbn [it_toks item_required app].
  read_cur. step_advance. eapply runs_bind; [by apply (runs_mark item_required)|]. apply runs_ret.
Qed.
Lemma item_clamp_ok c : clamp_ok c -> item_ok (item_clamp c).
Proof.
  intros Hc. item_head. intros st ts d n g Hs Hfol. cbn [it_toks item_clamp].
  change ((?a :: ?b) ++ ?c) with (a :: (b ++ c)). read_cur. step_advance. eapply runs_bind; [by apply (runs_mark (item_clamp c))|].
  eapply runs_bind; [by apply runs_clamp|]. apply runs_ret.
Qed.
Lemma item_gap_ok ms : exact ms -> item_ok (item_gap ms).
Proof.
  intros Hc. item_head. intros st ts d n g Hs Hfol. cbn [it_toks item_gap app].
  read_cur. step_advance. eapply runs_bind; [by apply (runs_mark (item_gap ms))|].
  eapply runs_bind; [by apply runs_duration|]. apply runs_ret.
Qed.
Lemma item_sse_ok s : sse_ok s -> item_ok (item_sse s).
Proof.
  intros Hc. item_head. intros st ts d n g Hs Hfol. cbn [it_toks item_sse].
  change ((?a :: ?b) ++ ?c) with (a :: (b ++ c)). read_cur. step_advance. eapply runs_bind; [by apply (runs_mark (item_sse s))|].
  eapply runs_bind; [by apply runs_sse|]. apply runs_ret.
Qed.

Lemma items_ok m : modifiers_ok m -> Forall item_ok (items m).
Proof.
  intros (Hc & Hg & Hs). unfold items. repeat (apply Forall_app; split).
  - destruct (_ && _), (m_Delta m), (m_PerSecond m); repeat constructor; apply item_rate_ok || apply item_delta_ok || apply item_per_ok.
  - destruct (m_Negate m); repeat constructor. all: apply item_negate_ok.
  - destruct (m_Clamp m); repeat constructor. all: by apply item_clamp_ok, Hc.
  - destruct (m_GapMs m); repeat constructor. all: by apply item_gap_ok, Hg.
  - destruct (m_SSE m); repeat constructor. all: by apply item_sse_ok, Hs.
  - destruct (m_Required m); repeat constructor. all: apply item_required_ok.
Qed.

(** Keys not yet seen and ranks that do not fall back, down the list. *)
Fixpoint fits (seen : list gostr) (rank : Z) (its : list item) : bool :=
  match its with
  | [] => true
  | it :: rest =>
      negb (existsb (fun k => existsb (bytes_eqb k) seen) (it_sets it)) && (rank <=? it_rank it) &&
      fits (it_sets it ++ seen) (it_rank it) rest
  end.
Lemma items_fit m : fits [] 0 (items m) = true.
Proof.
  unfold items. destruct (m_Delta m), (m_PerSecond m), (m_Negate m), (m_Clamp m), (m_GapMs m), (m_SSE m), (m_Required m); reflexivity.
Qed.
(** The updates make the modifiers out of none. *)
Lemma items_update m : foldl (fun m it => it_upd it m) no_modifiers (items m) = m.
Proof.
  unfold items. destruct m as [dl ps ng rq gp cl ss]. cbn [m_Delta m_PerSecond m_Negate m_Required m_GapMs m_Clamp m_SSE].
  by destruct dl, ps, ng, cl, gp, ss, rq.
Qed.

Definition as_tokens (s : gostr) : list lexeme := if is_nil s then [] else [kw "AS"; (tokString, s)].
Definition with_mods (fe : FieldExpr) (m : Modifiers) (s : gostr) : FieldExpr :=
  {| fe_Field := fe_Field fe; fe_Histogram := fe_Histogram fe; fe_As := s; fe_Modifiers := m |}.

Lemma word_follow w r : In w modifier_words -> clamp_follow ((tokKeyword, w) :: r).
Proof.
  intros Hw. assert (Hb : not_bound (tokKeyword, w) = true /\ is_lexeme tokKeyword (bs "ELSE") (tokKeyword, w) = false).
  { cbn in Hw. repeat (destruct Hw as [<-|Hw]; [done|]). done. }
  destruct Hb as [H1 H2]. split.
  - eexists _, _. split; [done|]. split; [done|]. done.
  - eexists _, _. split; [done|]. cbn [forallb]. by rewrite H2.
Qed.
Lemma as_follow s ts : clamp_follow ts -> clamp_follow (as_tokens s ++ ts).
Proof. intros Ht. unfold as_tokens. destruct (is_nil s); [done|]. apply word_follow. cbn. auto 12. Qed.
Lemma items_follow its ts : Forall item_ok its -> clamp_follow ts -> clamp_follow (concat (map it_toks its) ++ ts).
Proof.
  intros Hi Ht. destruct Hi as [|it its [(w & r & E & Hw) _] _]; [done|]. cbn [map concat]. rewrite E. by apply word_follow.
Qed.

(** The end of the modifiers: AS, or something else altogether. *)
Lemma runs_modifiers_end s st ts d n g : field_follow ts -> fe_As (fs_fe st) = [] ->
  exists st', runs (modifier st) (V (as_tokens s ++ ts) d n g) (false, st') (V ts d n g) /\
    fs_outOfOrder st' = fs_outOfOrder st /\ fs_fe st' = with_mods (fs_fe st) (fe_Modifiers (fs_fe st)) s.
Proof.
  intros [_ (x & r & -> & Hx)] Has. unfold as_tokens. destruct s as [|b s]; cbn [is_nil app].
  - exists st. split; [|split; [done|]].
    + unfold modifier_words in Hx. cbn [map forallb] in Hx. bsplit.
      apply runs_cur. intros t Ht. rewrite !(is_tok_erase _ _ _ _ Ht).
      repeat match goal with H : is_lexeme _ _ x = false |- _ => rewrite H; clear H end. apply runs_ret.
    + destruct (fs_fe st). cbn in *. by subst.
  - exists (upd_as (b :: s) st). split; [|done]. read_cur. step_advance.
    eapply runs_bind; [apply runs_name_tok; [done|by right]|]. apply runs_ret.
Qed.

Lemma runs_modifiers its s ts d n g : Forall item_ok its -> field_follow ts -> forall st fuel,
  fits (fs_seen st) (fs_lastRank st) its = true -> fs_outOfOrder st = false -> fe_As (fs_fe st) = [] -> (length its < fuel)%nat ->
  exists st', runs (modifiers_loop fuel st) (V (concat (map it_toks its) ++ as_tokens s ++ ts) d n g) st' (V ts d n g) /\
    fs_outOfOrder st' = false /\
    fs_fe st' = with_mods (fs_fe st) (foldl (fun m it => it_upd it m) (fe_Modifiers (fs_fe st)) its) s.
Proof.
  intros Hi Hfol. induction Hi as [|it its [Hhead Hit] Hi IH]; intros st fuel Hfit Hord Has Hf; (destruct fuel as [|f]; [cbn in Hf; lia|]).
  - destruct (runs_modifiers_end s st ts d n g Hfol Has) as (st' & Hr & E1 & E2). exists st'.
    split; [|split; [congruence|done]]. cbn [modifiers_loop map concat app]. eapply runs_bind; [exact Hr|]. apply runs_ret.
  - cbn [fits] in Hfit. bsplit. cbn [map concat]. rewrite <- app_assoc.
    destruct (IH (upd_mods (it_upd it) (marked it st)) f) as (st' & Hr & E1 & E2); [done| |done|cbn in Hf; lia|].
    { cbn. rewrite Hord. cbn. by apply Z.ltb_ge. }
    exists st'. split; [|split; [done|]].
    + cbn [modifiers_loop]. eapply (runs_bind _ _ _ (true, upd_mods (it_upd it) (marked it st))); [|exact Hr]. apply Hit.
      * assert (E : forall l, existsb (seen st) l = existsb (fun k => existsb (bytes_eqb k) (fs_seen st)) l) by done.
        by rewrite E.
      * apply items_follow; [done|]. apply as_follow, Hfol.
    + rewrite E2. reflexivity.
Qed.

(** ** Fields *)

Definition field_ok (fe : FieldExpr) : Prop :=
  (fe_Histogram fe = [] /\ fe_Field fe <> [] \/ fe_Histogram fe <> [] /\ fe_Field fe = []) /\ modifiers_ok (fe_Modifiers fe).
Definition head_tokens (fe : FieldExpr) : list lexeme :=
  if is_nil (fe_Histogram fe) then [name_token (fe_Field fe)]
  else [kw "HISTOGRAM"; pn "("; name_token (fe_Histogram fe); pn ")"].
Definition field_tokens (fe : FieldExpr) : list lexeme :=
  head_tokens fe ++ concat (map it_toks (items (fe_Modifiers fe))) ++ as_tokens (fe_As fe).

Lemma runs_field fe ts d n g : field_ok fe -> field_follow ts ->
  runs parseFieldExpr (V (field_tokens fe ++ ts) d n g) fe (V ts d n g).
Proof.
  intros [Hhead Hm] Hfol. unfold field_tokens. rewrite <- !app_assoc.
  set (rest := concat (map it_toks (items (fe_Modifiers fe))) ++ as_tokens (fe_As fe) ++ ts).
  set (fe0 := with_mods fe no_modifiers []).
  eapply (runs_bind _ _ _ fe0 (V rest d n g)).
  { unfold head_tokens, fe0, with_mods. destruct Hhead as [[E Hne]|[Hne E]]; rewrite ?E.
    - cbn [is_nil app]. eapply runs_bind; [by apply runs_accept_no, name_not_tok|cbv iota].
      eapply runs_bind; [by apply runs_name|]. apply runs_ret.
    - destruct (fe_Histogram fe) as [|b h] eqn:Eh; [done|]. cbn [is_nil app]. step_yes.
      eapply runs_bind; [apply runs_expectPunct|]. eapply runs_bind; [by apply runs_name|].
      eapply runs_bind; [apply runs_expectPunct|]. apply runs_ret. }
  apply runs_get. intros p Hp. rewrite (view_toks_length _ _ Hp). cbn [v_toks].
  pose proof (items_ok _ Hm) as Hi.
  destruct (runs_modifiers (items (fe_Modifiers fe)) (fe_As fe) ts d n g Hi Hfol
    {| fs_seen := []; fs_lastRank := 0; fs_outOfOrder := false; fs_fe := fe0 |} (S (length rest)))
    as (st & Hr & E1 & E2); [apply items_fit|done|done| |].
  { unfold rest. rewrite length_app. assert (length (items (fe_Modifiers fe)) <= length (concat (map it_toks (items (fe_Modifiers fe)))))%nat; [|lia].
    clear -Hi. induction Hi as [|it its [(w & r & E & _) _] Hi IH]; [done|]. cbn [map concat length]. rewrite length_app, E. cbn [length]. lia. }
  eapply runs_bind; [exact Hr|]. rewrite E1. eapply runs_bind; [apply runs_ret|]. rewrite E2.
  cbn [fs_fe fe0 with_mods fe_Modifiers]. rewrite items_update. destruct fe. apply runs_ret.
Qed.
End Items.
