(* ===== verification/EngineKeys.v ===== *)
(** * EngineKeys: the LSM keyspace

    Every key the engine writes ([internal/engine/keys.go]), with the two
    facts the rest of the engine rests on: byte order of index keys is the
    order of (set, column, value, primary key), and [prefixEnd] bounds
    exactly the keys that start with a prefix. *)

From Stdlib Require Import ZArith Lia Bool.
From Stdlib Require Import Strings.Byte Strings.String.
From S2P Require Import Prelude Bytes.

Definition prefixMeta : byte := x4d.   (* 'M' *)
Definition prefixData : byte := x44.   (* 'D' *)
Definition prefixIndex : byte := x49.  (* 'I' *)
Definition prefixDict : byte := x4c.   (* 'L' *)

Definition biasInt (v : Z) : Z := Z.lxor (u64 v) (Z.shiftl 1 63).
Definition unbiasInt (u : Z) : Z := i64 (Z.lxor u (Z.shiftl 1 63)).

Definition be4 (v : Z) : gostr := PutUint32 v.

Definition dataKey (setID : Z) (pk : gostr) : gostr :=
  [prefixData] ++ be4 setID ++ pk.

Definition dataPrefix (setID : Z) : gostr := [prefixData] ++ be4 setID.

Definition indexKey (setID colID val : Z) (pk : gostr) : gostr :=
  [prefixIndex] ++ be4 setID ++ be4 colID ++ PutUint64 (biasInt val) ++ pk.

Definition indexPrefix (setID colID : Z) : gostr :=
  [prefixIndex] ++ be4 setID ++ be4 colID.

Definition indexBound (setID colID val : Z) : gostr :=
  indexPrefix setID colID ++ PutUint64 (biasInt val).

Definition indexKeyPK (key : gostr) : option gostr :=
  if negb (zlen key =? 1 + 4 + 4 + 8 + 16) then None else Some (drop 17 key).

Definition dataPointerTag : byte := x00.

Definition dataPointer (val : Z) : gostr :=
  dataPointerTag :: PutUint64 (biasInt val).

Definition taggedDataPointer (payload : gostr) : bool :=
  (zlen payload =? 9) &&
  match payload with b :: _ => byte_eqb b dataPointerTag | [] => false end.

Definition readDataPointer (payload : gostr) : option Z :=
  if taggedDataPointer payload then Some (unbiasInt (Uint64 (drop 1 payload)))
  else if zlen payload =? 8 then Some (unbiasInt (Uint64 payload))
  else None.

(** The loop of [prefixEnd], downwards from index [i - 1]; [None] is the
    nil result, no upper bound. *)
Fixpoint prefixEnd_loop (i : nat) (e : gostr) : option gostr :=
  match i with
  | O => None
  | S i' =>
      match e !! i' with
      | Some b =>
          if b2z b <? 255 then Some (take (S i') (<[i' := z2b (b2z b + 1)]> e))
          else prefixEnd_loop i' e
      | None => None
      end
  end.
Definition prefixEnd (prefix : gostr) : option gostr :=
  prefixEnd_loop (length prefix) prefix.

Fixpoint metaKey_parts (first : bool) (parts : list gostr) : gostr :=
  match parts with
  | [] => []
  | p :: rest => (if first then [] else [x2f]) ++ p ++ metaKey_parts false rest
  end.
Definition metaKey (parts : list gostr) : gostr := prefixMeta :: metaKey_parts true parts.

Definition dictKey (name : gostr) : gostr := prefixDict :: name.

(** ** The biased integer *)

Lemma lxor_two63 x : 0 <= x < two63 -> Z.lxor x (Z.shiftl 1 63) = x + two63.
Proof.
  intros Hx. rewrite Z.lxor_lor.
  - rewrite (lor_disjoint x 1 63); unfold two63 in *; lia.
  - pose proof (lor_disjoint x 1 63 ltac:(lia) ltac:(unfold two63 in *; lia)) as Hl.
    apply Z.bits_inj'. intros n Hn. rewrite Z.land_spec, Z.bits_0.
    rewrite <- (Z.mod_small x (2 ^ 63)) by (unfold two63 in *; lia).
    destruct (Z.lt_ge_cases n 63).
    + rewrite Z.shiftl_spec_low by lia. apply andb_false_r.
    + by rewrite Z.mod_pow2_bits_high by lia.
Qed.

Lemma biasInt_add v : in_i64 v -> biasInt v = v + two63.
Proof.
  intros Hv. unfold biasInt, u64. destruct (Z.lt_ge_cases v 0).
  - replace (v mod two64) with ((v + two63) + two63)
      by (apply Z.mod_unique with (-1); mlia).
    rewrite <- (lxor_two63 (v + two63)) by mlia.
    by rewrite Z.lxor_assoc, Z.lxor_nilpotent, Z.lxor_0_r.
  - rewrite Z.mod_small by mlia. apply lxor_two63. mlia.
Qed.

Lemma biasInt_range v : in_i64 v -> 0 <= biasInt v < 256 ^ Z.of_nat 8.
Proof.
  intros Hv. rewrite biasInt_add by done. change (256 ^ Z.of_nat 8) with two64. mlia.
Qed.

Lemma unbiasInt_biasInt v : in_i64 v -> unbiasInt (biasInt v) = v.
Proof.
  intros Hv. unfold unbiasInt, biasInt.
  rewrite Z.lxor_assoc, Z.lxor_nilpotent, Z.lxor_0_r.
  unfold i64, u64. rewrite Z.add_mod_idemp_l by (unfold two64; lia).
  exact (i64_id v Hv).
Qed.

Lemma PutUint64_biasInt_lt v w :
  in_i64 v -> in_i64 w ->
  blt (PutUint64 (biasInt v)) (PutUint64 (biasInt w)) = (v <? w).
Proof.
  intros Hv Hw. unfold PutUint64. rewrite blt_be_bytes.
  rewrite !Z.mod_small by (by apply biasInt_range).
  rewrite !biasInt_add by done.
  destruct (v <? w) eqn:E; bsplit; [apply Z.ltb_lt | apply Z.ltb_ge]; lia.
Qed.

Lemma PutUint64_biasInt_inj v w :
  in_i64 v -> in_i64 w ->
  PutUint64 (biasInt v) = PutUint64 (biasInt w) -> v = w.
Proof.
  intros Hv Hw E. apply be_bytes_inj in E; [|by apply biasInt_range..].
  rewrite !biasInt_add in E by done. lia.
Qed.

Lemma be4_lt v w : in_u32 v -> in_u32 w -> blt (be4 v) (be4 w) = (v <? w).
Proof.
  intros Hv Hw. unfold be4, PutUint32. rewrite blt_be_bytes.
  change (256 ^ Z.of_nat 4) with 4294967296. by rewrite !Z.mod_small by mlia.
Qed.

Lemma be4_inj v w : in_u32 v -> in_u32 w -> be4 v = be4 w -> v = w.
Proof.
  intros Hv Hw E. apply be_bytes_inj in E; [done|..];
    change (256 ^ Z.of_nat 4) with 4294967296; mlia.
Qed.

Lemma length_be4 v : length (be4 v) = 4%nat.
Proof. apply length_be_bytes. Qed.
Lemma length_PutUint64 v : length (PutUint64 v) = 8%nat.
Proof. apply length_be_bytes. Qed.
#[export] Hint Rewrite length_be4 length_PutUint64 : gomodel.

(** ** Index keys *)

(** One component of a key: order of the component, then of the rest. *)
Lemma blt_component (c c' s s' : gostr) (lt eq : Prop) `{Decision lt, Decision eq} :
  length c = length c' ->
  (blt c c' = true <-> lt) -> (c = c' <-> eq) ->
  blt (c ++ s) (c' ++ s') = true <-> lt \/ (eq /\ blt s s' = true).
Proof.
  intros Hlen Hlt Heq. rewrite blt_app_len by done.
  rewrite orb_true_iff, andb_true_iff, bool_decide_eq_true. tauto.
Qed.

Lemma indexKey_lt (s s' c c' v v' : Z) (pk pk' : gostr) :
  in_u32 s -> in_u32 s' -> in_u32 c -> in_u32 c' -> in_i64 v -> in_i64 v' ->
  blt (indexKey s c v pk) (indexKey s' c' v' pk') = true <->
  s < s' \/ (s = s' /\ (c < c' \/ (c = c' /\ (v < v' \/ (v = v' /\ blt pk pk' = true))))).
Proof.
  intros. unfold indexKey. rewrite blt_app_prefix.
  rewrite (blt_component _ _ _ _ (s < s') (s = s')).
  2: by rewrite !length_be4.
  2: by rewrite be4_lt, Z.ltb_lt.
  2: split; [by apply be4_inj | by intros ->].
  rewrite (blt_component _ _ _ _ (c < c') (c = c')).
  2: by rewrite !length_be4.
  2: by rewrite be4_lt, Z.ltb_lt.
  2: split; [by apply be4_inj | by intros ->].
  rewrite (blt_component _ _ _ _ (v < v') (v = v')).
  2: by rewrite !length_PutUint64.
  2: by rewrite PutUint64_biasInt_lt, Z.ltb_lt.
  2: split; [by apply PutUint64_biasInt_inj | by intros ->].
  done.
Qed.

(** byte order of index keys is the lexicographic order of set id,
    column id, signed value and primary key: an iterator over the LSM
    walks a set's rows in timestamp order. *)
Theorem indexKey_order (s s' c c' v v' : Z) (pk pk' : gostr) :
  in_u32 s -> in_u32 s' -> in_u32 c -> in_u32 c' -> in_i64 v -> in_i64 v' ->
  blt (indexKey s c v pk) (indexKey s' c' v' pk') = true <->
  s < s' \/ (s = s' /\ (c < c' \/ (c = c' /\ (v < v' \/ (v = v' /\ blt pk pk' = true))))).
Proof. apply indexKey_lt. Qed.

(** Membership of a key in the half-open range an iterator is given. *)
Definition in_range (lower : gostr) (upper : option gostr) (k : gostr) : bool :=
  ble lower k && match upper with Some u => blt k u | None => true end.

Lemma indexBound_indexKey s c v pk w :
  in_u32 s -> in_u32 c -> in_i64 v -> in_i64 w ->
  (blt (indexKey s c v pk) (indexBound s c w) = true <-> v < w).
Proof.
  intros. unfold indexKey, indexBound, indexPrefix. rewrite <- !app_assoc.
  rewrite !blt_app_prefix. rewrite <- (app_nil_r (PutUint64 (biasInt w))).
  rewrite (blt_component _ _ _ _ (v < w) (v = w)).
  2: by rewrite !length_PutUint64.
  2: by rewrite PutUint64_biasInt_lt, Z.ltb_lt.
  2: split; [by apply PutUint64_biasInt_inj | by intros ->].
  split; [|tauto]. intros [?|[_ Hp]]; [done|]. by destruct pk.
Qed.

(** the seek range [[indexBound lo, indexBound (hi+1))] holds exactly
    the index keys of the set and column whose value lies in the inclusive
    interval asked for, whatever their primary key. *)
Theorem indexBound_exact (s c lo hi v : Z) (pk : gostr) :
  in_u32 s -> in_u32 c -> in_i64 lo -> in_i64 hi -> in_i64 (hi + 1) -> in_i64 v ->
  in_range (indexBound s c lo) (Some (indexBound s c (hi + 1))) (indexKey s c v pk) = true
  <-> lo <= v <= hi.
Proof.
  intros. unfold in_range. rewrite andb_true_iff, indexBound_indexKey by done.
  unfold ble. rewrite negb_true_iff.
  pose proof (indexBound_indexKey s c v pk lo) as Hlo.
  destruct (blt (indexKey s c v pk) (indexBound s c lo)) eqn:E.
  - assert (v < lo) by tauto. split; [by intros [] | lia].
  - assert (~ v < lo) by (intros ?; assert (false = true) by tauto; done). lia.
Qed.

Lemma length_indexKey s c v pk : length pk = 16%nat -> zlen (indexKey s c v pk) = 33.
Proof.
  intros Hpk. unfold zlen, indexKey. rewrite !length_app, !length_be4, length_PutUint64, Hpk. done.
Qed.

(** The primary key is recovered from an index key, and only a key of
    the index layout's length yields one. *)
Lemma indexKeyPK_key (s c v : Z) (pk : gostr) :
  length pk = 16%nat -> indexKeyPK (indexKey s c v pk) = Some pk.
Proof.
  intros Hpk. unfold indexKeyPK. rewrite length_indexKey by done. simpl negb. cbv iota.
  unfold indexKey. rewrite !app_assoc, drop_app_length'; [done|].
  rewrite !length_app, !length_be4, length_PutUint64. done.
Qed.

(** ** Prefix bounds *)

(** The same bound computed from the front. *)
Fixpoint prefix_succ (p : gostr) : option gostr :=
  match p with
  | [] => None
  | b :: t =>
      match prefix_succ t with
      | Some e => Some (b :: e)
      | None => if b2z b <? 255 then Some [z2b (b2z b + 1)] else None
      end
  end.

Lemma prefix_succ_snoc l b :
  prefix_succ (l ++ [b])
  = if b2z b <? 255 then Some (l ++ [z2b (b2z b + 1)]) else prefix_succ l.
Proof.
  induction l as [|x l IH]; simpl; [done|].
  rewrite IH. by destruct (b2z b <? 255).
Qed.

Lemma prefixEnd_loop_succ l r : prefixEnd_loop (length l) (l ++ r) = prefix_succ l.
Proof.
  revert r. induction l as [|b l IH] using rev_ind; intros r; [done|].
  rewrite prefix_succ_snoc, length_app, Nat.add_1_r, <- app_assoc. cbn [prefixEnd_loop app].
  rewrite list_lookup_middle by done.
  destruct (b2z b <? 255) eqn:E.
  - rewrite insert_app_r_alt, Nat.sub_diag by done. cbn [insert list_insert].
    change (z2b (b2z b + 1) :: r) with ([z2b (b2z b + 1)] ++ r).
    rewrite app_assoc, take_app_length'; [done|]. rewrite length_app. simpl. lia.
  - apply (IH (b :: r)).
Qed.

Lemma prefixEnd_succ p : prefixEnd p = prefix_succ p.
Proof. unfold prefixEnd. rewrite <- (prefixEnd_loop_succ p []). by rewrite app_nil_r. Qed.

Lemma in_range_prefix (p k : gostr) :
  in_range p (prefixEnd p) k = true <-> p `prefix_of` k.
Proof.
  rewrite prefixEnd_succ. revert k. induction p as [|b p IH]; intros k.
  - simpl. unfold in_range, ble. rewrite andb_true_r. split; [|by destruct k].
    intros _. apply prefix_nil.
  - destruct k as [|c k].
    { unfold in_range, ble. simpl. split; [done|]. by intros ?%prefix_nil_not. }
    specialize (IH k).
    assert (Hp : b :: p `prefix_of` c :: k <-> b = c /\ p `prefix_of` k).
    { split; [|by intros [-> ?]; apply prefix_cons].
      intros H. split; [by eapply prefix_cons_inv_1 | by eapply prefix_cons_inv_2]. }
    rewrite Hp, <- IH. unfold in_range, ble in *.
    pose proof (b2z_range b). pose proof (b2z_range c). simpl.
    assert (Hbc : b = c <-> b2z b = b2z c) by (split; [by intros -> | apply b2z_inj]).
    rewrite Hbc. clear IH Hp Hbc.
    destruct (b2z c <? b2z b) eqn:E1; bsplit; [simpl; split; [done | lia]|].
    destruct (b2z b <? b2z c) eqn:E2; bsplit; simpl.
    + split; [|lia]. destruct (prefix_succ p) as [e|].
      * simpl. rewrite (proj2 (Z.ltb_ge (b2z c) (b2z b))), (proj2 (Z.ltb_lt (b2z b) (b2z c))) by lia. done.
      * destruct (b2z b <? 255) eqn:E3; bsplit; [|lia]. simpl.
        rewrite b2z_z2b, Z.mod_small by lia.
        rewrite (proj2 (Z.ltb_ge (b2z c) (b2z b + 1))) by lia.
        destruct (b2z b + 1 <? b2z c); [done|]. by destruct k.
    + assert (b2z b = b2z c) as Heq by lia. rewrite andb_true_iff.
      destruct (prefix_succ p) as [e|].
      * simpl. rewrite Heq, Z.ltb_irrefl. rewrite andb_true_iff. tauto.
      * destruct (b2z b <? 255) eqn:E3; bsplit; simpl.
        -- rewrite b2z_z2b, Z.mod_small by lia.
           rewrite (proj2 (Z.ltb_lt (b2z c) (b2z b + 1))) by lia.
           rewrite andb_true_r. tauto.
        -- rewrite andb_true_r. tauto.
Qed.

(** [prefixEnd] covers a prefix exactly: a key lies in the half-open
    range from the prefix to its end precisely when it starts with the
    prefix (an all-[0xff] prefix has no end, and needs none). *)
Theorem prefixEnd_exact (p k : gostr) :
  in_range p (prefixEnd p) k = true <-> p `prefix_of` k.
Proof. apply in_range_prefix. Qed.

(** ** Forward pointers *)

Lemma Uint64_PutUint64 v : in_u64 v -> Uint64 (PutUint64 v) = v.
Proof.
  intros Hv. unfold Uint64, PutUint64. rewrite take_ge by (by rewrite length_be_bytes).
  rewrite be_val_bytes. apply Z.mod_small. change (256 ^ Z.of_nat 8) with two64. mlia.
Qed.

(** A forward pointer reads back the value it was written for, in the
    tagged form and in the bare eight-byte form of an earlier build, and
    only the first is recognised as tagged. *)
Lemma readDataPointer_val (v : Z) :
  in_i64 v ->
  readDataPointer (dataPointer v) = Some v /\
  readDataPointer (PutUint64 (biasInt v)) = Some v /\
  taggedDataPointer (dataPointer v) = true /\
  taggedDataPointer (PutUint64 (biasInt v)) = false.
Proof.
  intros Hv. pose proof (biasInt_range v Hv) as Hr.
  change (256 ^ Z.of_nat 8) with two64 in Hr.
  assert (Htag : taggedDataPointer (dataPointer v) = true).
  { unfold taggedDataPointer, dataPointer, zlen. by rewrite length_cons, length_PutUint64. }
  assert (Hraw : taggedDataPointer (PutUint64 (biasInt v)) = false).
  { unfold taggedDataPointer, zlen. by rewrite length_PutUint64. }
  unfold readDataPointer. rewrite Htag, Hraw. unfold zlen. rewrite length_PutUint64.
  change (drop 1 (dataPointer v)) with (PutUint64 (biasInt v)).
  change (Z.of_nat 8 =? 8) with true.
  rewrite Uint64_PutUint64, unbiasInt_biasInt by done. done.
Qed.
