(* ===== verification/EngineCodec.v ===== *)
(** * EngineCodec: row payloads

    The row wire format of [internal/engine/codec.go]: a column count, then
    per column a length-prefixed name, a type tag and a length-prefixed
    value.  [walkRow] skips values by their prefix; [decodeRow]
    materialises a projection, and a [lazyRow] answers single columns off
    the payload for the pushdown filters. *)

From Stdlib Require Import ZArith Lia Bool.
From Stdlib Require Import Strings.Byte Strings.String.
From Stdlib Require Import Floats.SpecFloat.
From S2P Require Import Prelude Bytes Float64 GoStd Model EngineKeys.

Abbreviation Row := (gmap gostr Value).

Inductive codec_err := errCorruptRow | codec_fuel.

(** ** Encoding *)

Definition encode_value (v : Value) : gostr :=
  match v with
  | VInt i => AppendUvarint 8 ++ PutUint64 (u64 i)
  | VFloat f => AppendUvarint 8 ++ PutUint64 (Float64bits f)
  | VString s => AppendUvarint (zlen s) ++ s
  | VBool b => AppendUvarint 1 ++ [if b then x01 else x00]
  | VInvalid => AppendUvarint 0
  end.

Definition encode_column (nv : gostr * Value) : gostr :=
  AppendUvarint (zlen nv.1) ++ nv.1 ++ [z2b (v_T nv.2)] ++ encode_value nv.2.

(** [encodeRow] ranges over a map, so over its entries in some order. *)
Definition encode_entries (l : list (gostr * Value)) : gostr :=
  AppendUvarint (zlen l) ++ concat (map encode_column l).
Definition encodeRow (r : Row) : gostr := encode_entries (map_to_list r).

(** ** Decoding *)

Definition decodeValue (t : ValueType) (b : gostr) : result codec_err Value :=
  if t =? TypeInt then
    if negb (zlen b =? 8) then Err errCorruptRow else Ok (VInt (i64 (Uint64 b)))
  else if t =? TypeFloat then
    if negb (zlen b =? 8) then Err errCorruptRow
    else Ok (VFloat (Float64frombits (Uint64 b)))
  else if t =? TypeString then Ok (VString b)
  else if t =? TypeBool then
    if negb (zlen b =? 1) then Err errCorruptRow
    else Ok (VBool (match b with c :: _ => b2z c =? 1 | [] => false end))
  else Err errCorruptRow.

(** One length-prefixed slice: [binary.Uvarint], the bounds test, the cut. *)
Definition read_slice (p : gostr) : option (gostr * gostr) :=
  let '(n, adv) := Uvarint p in
  let rest := drop (Z.to_nat adv) p in
  if (adv <=? 0) || (zlen rest <? n) then None
  else Some (take (Z.to_nat n) rest, drop (Z.to_nat n) rest).

Section Walk.
Context {S : Type}.
(** The callback: it updates the state its closure captures and says
    whether to go on. *)
Variable fn : S -> gostr -> ValueType -> gostr -> S * bool.

(** Each turn consumes at least the name's length byte, so the payload's
    length bounds the turns whatever count the payload claims. *)
Fixpoint walk_loop (fuel : nat) (n : Z) (p : gostr) (st : S) : result codec_err S :=
  if n <=? 0 then Ok st
  else
    match fuel with
    | O => Err codec_fuel
    | Datatypes.S f =>
        match read_slice p with
        | None => Err errCorruptRow
        | Some (name, p1) =>
            match p1 with
            | [] => Err errCorruptRow
            | tb :: p2 =>
                match read_slice p2 with
                | None => Err errCorruptRow
                | Some (raw, p3) =>
                    let '(st', go) := fn st name (b2z tb) raw in
                    if negb go then Ok st' else walk_loop f (n - 1) p3 st'
                end
            end
        end
    end.

Definition walkRow (payload : gostr) (st : S) : result codec_err S :=
  let '(n, adv) := Uvarint payload in
  if adv <=? 0 then Err errCorruptRow
  else walk_loop (length payload) n (drop (Z.to_nat adv) payload) st.
End Walk.

Definition wants (projection : option (gset gostr)) (name : gostr) : bool :=
  match projection with
  | None => true
  | Some p => bool_decide (name ∈ p)
  end.

Definition decode_visit (projection : option (gset gostr))
    (st : Row * option codec_err) (name : gostr) (t : ValueType) (raw : gostr)
    : (Row * option codec_err) * bool :=
  let '(out, bad) := st in
  if negb (wants projection name) then (st, true)
  else
    match decodeValue t raw with
    | Err e => ((out, Some e), false)
    | Ok v => ((<[name := v]> out, bad), true)
    end.

Definition decodeRow (payload : gostr) (projection : option (gset gostr)) : result codec_err Row :=
  try st <- walkRow (decode_visit projection) payload (∅, None);
  match st with
  | (_, Some e) => Err e
  | (out, None) => Ok out
  end.

(** ** Lazy column access *)

Record lazyRow := {
  lr_payload : gostr;
  lr_cache : gmap gostr Value;
  lr_err : option codec_err;
}.

Definition newLazyRow (payload : gostr) : lazyRow :=
  {| lr_payload := payload; lr_cache := ∅; lr_err := None |}.

Definition get_visit (name : gostr) (st : Value * option codec_err)
    (n : gostr) (t : ValueType) (raw : gostr) : (Value * option codec_err) * bool :=
  let '(found, bad) := st in
  if negb (bytes_eqb n name) then (st, true)
  else
    match decodeValue t raw with
    | Err e => ((found, Some e), false)
    | Ok v => ((v, bad), false)
    end.

(** [get] answers the column and its validity, and updates the cache and
    the recorded error. *)
Definition lazy_get (l : lazyRow) (name : gostr) : (Value * bool) * lazyRow :=
  match lr_cache l !! name with
  | Some v => ((v, Valid v), l)
  | None =>
      let '(found, err) :=
        match walkRow (get_visit name) (lr_payload l) (VInvalid, None) with
        | Err e => (VInvalid, Some e)
        | Ok (found, Some e) => (found, Some e)
        | Ok (found, None) => (found, lr_err l)
        end in
      ((found, Valid found),
       {| lr_payload := lr_payload l; lr_cache := <[name := found]> (lr_cache l); lr_err := err |})
  end.

(** ** Facts *)

(** A value the write path can hold: typed, in range, and of a length an
    [int] fits. *)
Definition value_storable (v : Value) : Prop :=
  match v with
  | VInvalid => False
  | VInt i => in_i64 i
  | VFloat f => fvalid f = true
  | VString s => fits s
  | VBool _ => True
  end.

Definition column_storable (nv : gostr * Value) : Prop := fits nv.1 /\ value_storable nv.2.

Lemma i64_u64 i : in_i64 i -> i64 (u64 i) = i.
Proof.
  intros Hi. unfold i64, u64. rewrite Z.add_mod_idemp_l by (unfold two64; lia). exact (i64_id i Hi).
Qed.

(** The slice reader undoes a length prefix, whatever follows. *)
Lemma read_slice_app s rest : fits s -> read_slice (AppendUvarint (zlen s) ++ s ++ rest) = Some (s, rest).
Proof.
  intros Hs. unfold read_slice. pose proof (zlen_nonneg s). unfold fits in Hs.
  rewrite Uvarint_AppendUvarint by (split; lia).
  pose proof (AppendUvarint_pos (zlen s)).
  rewrite drop_app_length' by (unfold zlen; lia).
  rewrite zlen_app. pose proof (zlen_nonneg rest).
  rewrite (proj2 (Z.leb_gt _ _)), (proj2 (Z.ltb_ge _ _)) by lia. cbn [orb].
  rewrite take_app_length', drop_app_length' by (unfold zlen; lia). done.
Qed.

Definition value_bytes (v : Value) : gostr :=
  match v with
  | VInt i => PutUint64 (u64 i)
  | VFloat f => PutUint64 (Float64bits f)
  | VString s => s
  | VBool b => [if b then x01 else x00]
  | VInvalid => []
  end.

Lemma encode_value_bytes v : encode_value v = AppendUvarint (zlen (value_bytes v)) ++ value_bytes v.
Proof.
  destruct v; cbn [encode_value value_bytes]; try done;
    unfold zlen; by rewrite length_PutUint64.
Qed.

Lemma value_bytes_fits v : value_storable v -> fits (value_bytes v).
Proof.
  destruct v; simpl; try done; intros _; unfold fits, zlen; rewrite ?length_PutUint64; done.
Qed.

Lemma tag_byte v : b2z (z2b (v_T v)) = v_T v.
Proof. by destruct v. Qed.

Lemma decodeValue_bytes v : value_storable v -> decodeValue (v_T v) (value_bytes v) = Ok v.
Proof.
  destruct v as [|i|f|s|[]]; simpl; try done; intros Hv; unfold decodeValue, zlen; simpl;
    rewrite ?length_PutUint64; simpl.
  - rewrite Uint64_PutUint64 by apply u64_range. by rewrite i64_u64.
  - rewrite Uint64_PutUint64 by by apply Float64bits_range. by rewrite Float64frombits_bits.
Qed.

(** What the walk does to a callback's state over entries. *)
Fixpoint fold_visit {S} (fn : S -> gostr -> ValueType -> gostr -> S * bool)
    (l : list (gostr * Value)) (st : S) : S :=
  match l with
  | [] => st
  | (k, v) :: l' =>
      let '(st', go) := fn st k (v_T v) (value_bytes v) in
      if go then fold_visit fn l' st' else st'
  end.

Lemma encode_column_app nv rest :
  encode_column nv ++ rest
  = AppendUvarint (zlen nv.1) ++ nv.1 ++ z2b (v_T nv.2)
      :: AppendUvarint (zlen (value_bytes nv.2)) ++ value_bytes nv.2 ++ rest.
Proof. unfold encode_column. rewrite encode_value_bytes, <- !app_assoc. done. Qed.

Lemma walk_loop_entries {S} (fn : S -> gostr -> ValueType -> gostr -> S * bool) l :
  Forall column_storable l -> forall fuel rest st,
  (length l <= fuel)%nat ->
  walk_loop fn fuel (zlen l) (concat (map encode_column l) ++ rest) st = Ok (fold_visit fn l st).
Proof.
  induction 1 as [|[k v] l [Hk Hv] Hl IH]; intros fuel rest st Hf; [by destruct fuel|].
  destruct fuel as [|f]; [simpl in Hf; lia|].
  cbn [map concat]. rewrite <- app_assoc, encode_column_app. simpl fst in *; simpl snd in *.
  cbn [walk_loop]. rewrite zlen_cons. pose proof (zlen_nonneg l).
  rewrite (proj2 (Z.leb_gt _ _)) by lia.
  rewrite read_slice_app by done. rewrite read_slice_app by by apply value_bytes_fits.
  rewrite tag_byte. cbn [fold_visit].
  destruct (fn st k (v_T v) (value_bytes v)) as [st' []]; [|done]. cbn [negb].
  replace (1 + zlen l - 1) with (zlen l) by lia.
  apply IH. simpl in Hf. lia.
Qed.

Lemma length_encode_column nv : (1 <= length (encode_column nv))%nat.
Proof.
  unfold encode_column. rewrite length_app. pose proof (AppendUvarint_pos (zlen nv.1)).
  unfold zlen in *. lia.
Qed.

Lemma length_concat_columns l : (length l <= length (concat (map encode_column l)))%nat.
Proof.
  induction l as [|nv l IH]; simpl; [lia|].
  rewrite length_app. pose proof (length_encode_column nv). lia.
Qed.

Lemma walkRow_entries {S} (fn : S -> gostr -> ValueType -> gostr -> S * bool) l st :
  Forall column_storable l -> in_u64 (zlen l) ->
  walkRow fn (encode_entries l) st = Ok (fold_visit fn l st).
Proof.
  intros Hl Hn. unfold walkRow, encode_entries.
  rewrite Uvarint_AppendUvarint by done.
  pose proof (AppendUvarint_pos (zlen l)).
  rewrite (proj2 (Z.leb_gt _ _)) by lia.
  rewrite drop_app_length' by (unfold zlen; lia).
  rewrite <- (app_nil_r (concat (map encode_column l))).
  apply walk_loop_entries; [done|].
  rewrite app_nil_r, length_app. pose proof (length_concat_columns l). lia.
Qed.

(** Inserting the wanted columns one by one. *)
Definition project_into (projection : option (gset gostr)) (m : Row) (l : list (gostr * Value)) : Row :=
  foldl (fun m kv => if wants projection kv.1 then <[kv.1 := kv.2]> m else m) m l.

Lemma fold_visit_decode proj l out :
  Forall column_storable l ->
  fold_visit (decode_visit proj) l (out, None) = (project_into proj out l, None).
Proof.
  intros Hl. revert out. induction Hl as [|[k v] l [Hk Hv] Hl IH]; intros out; [done|].
  cbn [fold_visit decode_visit project_into foldl fst snd].
  destruct (wants proj k); cbn [negb]; [|apply IH].
  rewrite decodeValue_bytes by done. apply IH.
Qed.

Lemma project_into_lookup proj l m k :
  NoDup (l.*1) ->
  project_into proj m l !! k =
    match (list_to_map l : Row) !! k with
    | Some v => if wants proj k then Some v else m !! k
    | None => m !! k
    end.
Proof.
  revert m. induction l as [|[k' v'] l IH]; intros m Hnd; [done|].
  rewrite fmap_cons in Hnd. apply NoDup_cons in Hnd as [Hnin Hnd].
  cbn [project_into foldl fst snd list_to_map foldr]. rewrite lookup_insert.
  change (foldl _ ?m l) with (project_into proj m l). rewrite IH by done.
  case_decide as Hk; [subst k'|].
  - assert ((list_to_map l : Row) !! k = None) as -> by by apply not_elem_of_list_to_map_1.
    destruct (wants proj k); [by rewrite lookup_insert_eq | done].
  - destruct ((list_to_map l : Row) !! k);
      destruct (wants proj k'); try destruct (wants proj k); by rewrite ?lookup_insert_ne.
Qed.

Definition row_storable (r : Row) : Prop :=
  (forall k v, r !! k = Some v -> column_storable (k, v)) /\ in_u64 (Z.of_nat (size r)).

Lemma storable_entries (r : Row) l :
  row_storable r -> l ≡ₚ map_to_list r ->
  Forall column_storable l /\ in_u64 (zlen l) /\ NoDup (l.*1) /\ list_to_map l = r.
Proof.
  intros [Hr Hn] Hp. split; [|split; [|split]].
  - apply Forall_forall. intros [k v] Hin. apply Hr, elem_of_map_to_list. by rewrite <- Hp.
  - unfold zlen. by rewrite Hp, length_map_to_list.
  - rewrite Hp. apply NoDup_fst_map_to_list.
  - assert (NoDup (l.*1)) as Hnd by (rewrite Hp; apply NoDup_fst_map_to_list).
    rewrite (list_to_map_proper l (map_to_list r) Hnd Hp). apply list_to_map_to_list.
Qed.

Lemma decode_entries (r : Row) (l : list (gostr * Value)) (projection : option (gset gostr)) :
  row_storable r -> l ≡ₚ map_to_list r ->
  decodeRow (encode_entries l) projection
  = Ok (filter (fun kv => wants projection kv.1 = true) r).
Proof.
  intros Hr Hp. destruct (storable_entries r l Hr Hp) as (Hl & Hn & Hnd & Hm).
  unfold decodeRow. rewrite walkRow_entries by done. cbn [rbind].
  rewrite fold_visit_decode by done. f_equal.
  apply map_eq. intros k. rewrite project_into_lookup, Hm, lookup_empty by done.
  rewrite map_lookup_filter. destruct (r !! k) as [v|]; simpl; [|done].
  by destruct (wants projection k).
Qed.

(** decoding undoes encoding, in whatever order Go walked the row's
    map: under a projection the result is the row restricted to the named
    columns, and with none it is the whole row. *)
Theorem decodeRow_encodeRow (r : Row) (l : list (gostr * Value)) (projection : option (gset gostr)) :
  row_storable r -> l ≡ₚ map_to_list r ->
  decodeRow (encode_entries l) projection
  = Ok (filter (fun kv => wants projection kv.1 = true) r).
Proof. apply decode_entries. Qed.

Lemma fold_visit_get name l st :
  Forall column_storable l -> NoDup (l.*1) ->
  fold_visit (get_visit name) l (st, None)
  = (match (list_to_map l : Row) !! name with Some v => v | None => st end, None : option codec_err).
Proof.
  intros Hl. revert st. induction Hl as [|[k v] l [Hk Hv] Hl IH]; intros st Hnd; [done|].
  rewrite fmap_cons in Hnd. apply NoDup_cons in Hnd as [Hnin Hnd].
  cbn [fold_visit get_visit list_to_map foldr fst snd]. rewrite lookup_insert.
  destruct (bytes_eqb k name) eqn:E; cbn [negb].
  - apply bytes_eqb_spec in E as ->. rewrite decodeValue_bytes by done.
    by rewrite decide_True.
  - apply bytes_eqb_neq in E. rewrite decide_False by done. by apply IH.
Qed.

(** The cache of a lazy row over an encoded row only holds that row's
    answers; [get] keeps it so. *)
Definition cache_ok (r : Row) (l : lazyRow) : Prop :=
  (forall k v, lr_cache l !! k = Some v -> v = default VInvalid (r !! k)) /\ lr_err l = None.

(** A lazy row answers exactly what materialising the row would: the
    column's value when the row carries it, "absent" when it does not, no
    error recorded, and its cache stays faithful from one call to the
    next. *)
Lemma lazy_get_row (r : Row) (l : list (gostr * Value)) (lr : lazyRow) (name : gostr) :
  row_storable r -> l ≡ₚ map_to_list r ->
  lr_payload lr = encode_entries l -> cache_ok r lr ->
  let '((v, ok), lr') := lazy_get lr name in
  v = default VInvalid (r !! name) /\
  (ok = true <-> is_Some (r !! name)) /\
  lr_payload lr' = lr_payload lr /\ cache_ok r lr'.
Proof.
  intros Hr Hp Hpay [Hc He]. destruct (storable_entries r l Hr Hp) as (Hl & Hn & Hnd & Hm).
  assert (Hvalid : forall v, v = default VInvalid (r !! name) ->
            (Valid v = true <-> is_Some (r !! name))).
  { intros v ->. destruct (r !! name) as [w|] eqn:E; simpl.
    - destruct Hr as [Hr _]. destruct (Hr _ _ E) as [_ Hw].
      split; [by eauto | intros _; by destruct w].
    - split; [done | intros [? [=]]]. }
  unfold lazy_get. destruct (lr_cache lr !! name) as [v|] eqn:E.
  { pose proof (Hc _ _ E). split; [done|]. split; [by apply Hvalid|]. done. }
  rewrite Hpay, walkRow_entries by done. rewrite fold_visit_get by done. rewrite Hm.
  split; [by destruct (r !! name)|]. split; [apply Hvalid; by destruct (r !! name)|].
  split; [done|]. split; [|done]. simpl. intros k v.
  rewrite lookup_insert. case_decide; [subst k; intros [= <-]; by destruct (r !! name) | apply Hc].
Qed.

Lemma newLazyRow_cache_ok r payload : cache_ok r (newLazyRow payload).
Proof. split; [|done]. intros k v. simpl. rewrite lookup_empty. done. Qed.

(** ** Termination and corruption *)

Lemma Uvarint_adv_le buf : snd (Uvarint buf) <= zlen buf.
Proof.
  unfold Uvarint.
  enough (forall i x, 0 <= i -> snd (uvarint_decode i x buf) <= i + zlen buf)
    by (apply (H 0 0); lia).
  induction buf as [|b buf IH]; intros i x Hi; [unfold zlen; simpl; lia|].
  pose proof (zlen_nonneg buf). rewrite zlen_cons. cbn [uvarint_decode].
  repeat break_if; cbn [snd]; try lia.
  pose proof (IH (i + 1) (u64 (Z.lor x (Z.shiftl (Z.land (b2z b) 127) (7 * i)))) ltac:(lia)). lia.
Qed.

Lemma read_slice_shorter p s rest :
  read_slice p = Some (s, rest) -> (length rest < length p)%nat.
Proof.
  unfold read_slice. destruct (Uvarint p) as [n adv] eqn:E.
  destruct (_ || _) eqn:E1; [done|]. bsplit. intros [= <- <-].
  pose proof (Uvarint_adv_le p) as Ha. rewrite E in Ha. simpl in Ha.
  rewrite !length_drop. unfold zlen in Ha. lia.
Qed.

(** the walk terminates on every payload, corrupt or hostile: the
    turns are bounded by the payload's length and not by the column count
    it claims, so it ends with a row or with [errCorruptRow]. *)
Theorem walkRow_total {S} (fn : S -> gostr -> ValueType -> gostr -> S * bool) (payload : gostr) (st : S) :
  walkRow fn payload st <> Err codec_fuel.
Proof.
  unfold walkRow. destruct (Uvarint payload) as [n adv] eqn:Eu.
  destruct (adv <=? 0) eqn:Ha; [done|]. bsplit.
  assert (Hlen : (length (drop (Z.to_nat adv) payload) < length payload)%nat).
  { pose proof (Uvarint_adv_le payload) as Hle. rewrite Eu in Hle. simpl in Hle.
    unfold zlen in Hle. rewrite length_drop. lia. }
  revert Hlen. generalize (drop (Z.to_nat adv) payload) as p. generalize (length payload) as fuel.
  clear. intros fuel. revert n st.
  induction fuel as [|f IH]; intros n st p Hlen; [lia|]. cbn [walk_loop].
  destruct (n <=? 0) eqn:En; [done|].
  destruct (read_slice p) as [[name [|tb p2]]|] eqn:E1; try done.
  destruct (read_slice p2) as [[raw p3]|] eqn:E2; [|done].
  apply read_slice_shorter in E1, E2. simpl in E1.
  destruct (fn st name (b2z tb) raw) as [st' []]; [|done]. cbn [negb].
  apply IH. lia.
Qed.

(** a row payload is never mistaken for a tagged forward pointer,
    although one may well have a pointer's length. *)
Theorem encodeRow_not_pointer (l : list (gostr * Value)) :
  in_u64 (zlen l) -> taggedDataPointer (encode_entries l) = false.
Proof.
  intros Hn. unfold taggedDataPointer, encode_entries, AppendUvarint.
  destruct l as [|nv l]; [done|].
  apply andb_false_iff. right. cbn [uvarint_loop]. rewrite Z.geb_leb, zlen_cons.
  pose proof (zlen_nonneg l).
  destruct (128 <=? 1 + zlen l) eqn:E; bsplit; cbn [app]; apply Z.eqb_neq; change (b2z dataPointerTag) with 0.
  - rewrite cont_byte by lia. pose proof (Z.mod_pos_bound (1 + zlen l) 128). lia.
  - rewrite b2z_z2b, Z.mod_small by lia. lia.
Qed.
