(* ===== verification/EngineFilter.v ===== *)
(** * EngineFilter: pushdown predicates

    The predicates of [internal/engine/filter.go], evaluated against a lazy
    column accessor while a scan runs.  Evaluation threads the accessor's
    cache and error; the theorems say that it computes the predicate's
    meaning on the materialised row, that the indexed IN list is the linear
    one, and that a predicate reads only the columns it reports. *)

From Stdlib Require Import ZArith Lia Bool.
From Stdlib Require Import Strings.Byte Strings.String.
From Stdlib Require Import Floats.SpecFloat.
From S2P Require Import Prelude Bytes Float64 GoStd Model EngineCodec.

(** The expression types; [InExpr] carries the index [newInExpr] may build:
    Go's [map[float64]struct{}] is its list of keys, looked up by [==]. *)
Inductive Expr : Type :=
| AndExpr (sub : list Expr)
| OrExpr (sub : list Expr)
| NotExpr (sub : Expr)
| EqExpr (col : gostr) (val : Value)
| InExpr (col : gostr) (vals : list Value) (nums : option (list f64)) (strs : option (gset gostr))
| BetweenExpr (col : gostr) (lo hi : Value)
| ExistsExpr (col : gostr)
| ConstExpr (v : bool).

Section Filter.
Context `{FloatText}.

Definition valueEqual (a b : Value) : bool :=
  if (v_T a =? TypeString) || (v_T b =? TypeString) then
    match a, b with VString s, VString t => bytes_eqb s t | _, _ => false end
  else if (v_T a =? TypeBool) || (v_T b =? TypeBool) then
    match a, b with VBool s, VBool t => Bool.eqb s t | _, _ => false end
  else
    let '(af, ok1) := AsFloat a in
    let '(bf, ok2) := AsFloat b in
    ok1 && ok2 && feqb af bf.

Definition inSetThreshold : Z := 8.

(** The loop of [newInExpr]; [None] is its early return of the
    unindexed expression. *)
Fixpoint index_values (vals : list Value) (nums : list f64) (strs : gset gostr)
    : option (list f64 * gset gostr) :=
  match vals with
  | [] => Some (nums, strs)
  | v :: rest =>
      match v with
      | VString s => index_values rest nums ({[s]} ∪ strs)
      | VInt _ | VFloat _ =>
          let '(f, ok) := AsFloat v in
          if negb ok then None else index_values rest (f :: nums) strs
      | _ => None
      end
  end.

Definition newInExpr (col : gostr) (vals : list Value) : Expr :=
  if zlen vals <? inSetThreshold then InExpr col vals None None
  else
    match index_values vals [] ∅ with
    | None => InExpr col vals None None
    | Some (nums, strs) => InExpr col vals (Some nums) (Some strs)
    end.

Definition in_eval (v : Value) (vals : list Value) (nums : option (list f64)) (strs : option (gset gostr)) : bool :=
  match nums, strs with
  | None, None => existsb (valueEqual v) vals
  | _, _ =>
      match v with
      | VString s => match strs with Some m => bool_decide (s ∈ m) | None => false end
      | VInt _ | VFloat _ =>
          let '(f, ok) := AsFloat v in
          if negb ok then false
          else match nums with Some ks => existsb (feqb f) ks | None => false end
      | _ => false
      end
  end.

Definition between_eval (v lo hi : Value) : bool :=
  let '(f, ok) := AsFloat v in
  if negb ok then false
  else
    let '(l, ok1) := AsFloat lo in
    let '(h, ok2) := AsFloat hi in
    ok1 && ok2 && fgeb f l && fleb f h.

(** [Expr.eval]: the answer and the accessor it leaves. *)
Fixpoint eval (e : Expr) (r : lazyRow) : bool * lazyRow :=
  match e with
  | AndExpr sub =>
      (fix go l r :=
         match l with
         | [] => (true, r)
         | s :: l' => let '(b, r') := eval s r in if negb b then (false, r') else go l' r'
         end) sub r
  | OrExpr sub =>
      (fix go l r :=
         match l with
         | [] => (false, r)
         | s :: l' => let '(b, r') := eval s r in if b then (true, r') else go l' r'
         end) sub r
  | NotExpr s => let '(b, r') := eval s r in (negb b, r')
  | EqExpr col val =>
      let '((v, ok), r') := lazy_get r col in (ok && valueEqual v val, r')
  | InExpr col vals nums strs =>
      let '((v, ok), r') := lazy_get r col in
      if negb ok then (false, r') else (in_eval v vals nums strs, r')
  | BetweenExpr col lo hi =>
      let '((v, ok), r') := lazy_get r col in
      if negb ok then (false, r') else (between_eval v lo hi, r')
  | ExistsExpr col => let '((_, ok), r') := lazy_get r col in (ok, r')
  | ConstExpr v => (v, r)
  end.

(** [Expr.columns]. *)
Fixpoint columns (e : Expr) (into : gset gostr) : gset gostr :=
  match e with
  | AndExpr sub | OrExpr sub =>
      (fix go l into := match l with [] => into | s :: l' => go l' (columns s into) end) sub into
  | NotExpr s => columns s into
  | EqExpr col _ | InExpr col _ _ _ | BetweenExpr col _ _ | ExistsExpr col => {[col]} ∪ into
  | ConstExpr _ => into
  end.

(** ** The meaning of a predicate on a row *)

Fixpoint sem (e : Expr) (r : Row) : bool :=
  match e with
  | AndExpr sub => (fix go l := match l with [] => true | s :: l' => sem s r && go l' end) sub
  | OrExpr sub => (fix go l := match l with [] => false | s :: l' => sem s r || go l' end) sub
  | NotExpr s => negb (sem s r)
  | EqExpr col val => match r !! col with Some v => valueEqual v val | None => false end
  | InExpr col vals nums strs =>
      match r !! col with Some v => in_eval v vals nums strs | None => false end
  | BetweenExpr col lo hi =>
      match r !! col with Some v => between_eval v lo hi | None => false end
  | ExistsExpr col => match r !! col with Some _ => true | None => false end
  | ConstExpr v => v
  end.

(** Induction through the lists of AND and OR. *)
Lemma Expr_nested_ind (P : Expr -> Prop) :
  (forall l, Forall P l -> P (AndExpr l)) -> (forall l, Forall P l -> P (OrExpr l)) ->
  (forall s, P s -> P (NotExpr s)) -> (forall c v, P (EqExpr c v)) ->
  (forall c vs n s, P (InExpr c vs n s)) -> (forall c lo hi, P (BetweenExpr c lo hi)) ->
  (forall c, P (ExistsExpr c)) -> (forall v, P (ConstExpr v)) ->
  forall e, P e.
Proof.
  intros HAnd HOr HNot HEq HIn HBet HEx HC. fix IH 1. intros [l|l|s|c v|c vs n s|c lo hi|c|v].
  - apply HAnd. induction l; constructor; auto.
  - apply HOr. induction l; constructor; auto.
  - apply HNot, IH.
  - apply HEq.
  - apply HIn.
  - apply HBet.
  - apply HEx.
  - apply HC.
Qed.

Section OnEncodedRow.
Context (r : Row) (l : list (gostr * Value)).
Hypothesis (Hr : row_storable r) (Hl : l ≡ₚ map_to_list r).

Definition accessor_ok (lr : lazyRow) : Prop :=
  lr_payload lr = encode_entries l /\ cache_ok r lr.

Lemma accessor_get lr col :
  accessor_ok lr ->
  exists lr', accessor_ok lr' /\
    lazy_get lr col
    = ((default VInvalid (r !! col), match r !! col with Some _ => true | None => false end), lr').
Proof.
  intros [Hp Hc]. pose proof (lazy_get_row r l lr col Hr Hl Hp Hc) as Hg.
  destruct (lazy_get lr col) as [[v ok] lr']. destruct Hg as (-> & Hok & Hp' & Hc').
  exists lr'. split; [split; [congruence | done]|]. do 2 f_equal.
  destruct (r !! col), ok; try done; [by apply Hok; eauto | by apply Hok in Hok as [? [=]] || (destruct (proj1 Hok eq_refl) as [? [=]])].
Qed.

Lemma eval_sem_accessor e : forall lr,
  accessor_ok lr -> exists lr', accessor_ok lr' /\ eval e lr = (sem e r, lr').
Proof.
  induction e as [sub IH|sub IH|s IH|c v|c vs n s|c lo hi|c|v] using Expr_nested_ind; intros lr Hlr.
  - revert lr Hlr. induction IH as [|s sub Hs Hsub IHs]; intros lr Hlr; [by exists lr|].
    destruct (Hs lr Hlr) as (lr1 & H1 & E1).
    change (exists lr', accessor_ok lr' /\
      (let '(b, r') := eval s lr in if negb b then (false, r') else eval (AndExpr sub) r')
      = (sem s r && sem (AndExpr sub) r, lr')).
    rewrite E1. destruct (sem s r); cbn [negb andb]; [by apply IHs | by exists lr1].
  - revert lr Hlr. induction IH as [|s sub Hs Hsub IHs]; intros lr Hlr; [by exists lr|].
    destruct (Hs lr Hlr) as (lr1 & H1 & E1).
    change (exists lr', accessor_ok lr' /\
      (let '(b, r') := eval s lr in if b then (true, r') else eval (OrExpr sub) r')
      = (sem s r || sem (OrExpr sub) r, lr')).
    rewrite E1. destruct (sem s r); cbn [orb]; [by exists lr1 | by apply IHs].
  - destruct (IH lr Hlr) as (lr1 & H1 & E1). exists lr1. cbn [eval sem]. by rewrite E1.
  - destruct (accessor_get lr c Hlr) as (lr1 & H1 & E1). exists lr1. cbn [eval sem].
    rewrite E1. by destruct (r !! c).
  - destruct (accessor_get lr c Hlr) as (lr1 & H1 & E1). exists lr1. cbn [eval sem].
    rewrite E1. by destruct (r !! c).
  - destruct (accessor_get lr c Hlr) as (lr1 & H1 & E1). exists lr1. cbn [eval sem].
    rewrite E1. by destruct (r !! c).
  - destruct (accessor_get lr c Hlr) as (lr1 & H1 & E1). exists lr1. cbn [eval sem].
    rewrite E1. by destruct (r !! c).
  - by exists lr.
Qed.
End OnEncodedRow.

Lemma eval_sem (e : Expr) (r : Row) (l : list (gostr * Value)) :
  row_storable r -> l ≡ₚ map_to_list r ->
  exists lr', eval e (newLazyRow (encode_entries l)) = (sem e r, lr') /\
              lr_err lr' = None /\ cache_ok r lr'.
Proof.
  intros Hr Hl.
  destruct (eval_sem_accessor r l Hr Hl e (newLazyRow (encode_entries l))) as (lr' & [Hp Hc] & E).
  - split; [done | apply newLazyRow_cache_ok].
  - exists lr'. split; [done|]. split; [apply Hc | done].
Qed.

(** C12: evaluating a pushdown predicate straight off the payload bytes
    computes its meaning on the materialised row, records no error, and
    leaves an accessor that still answers for the row. *)
Theorem eval_refines_sem (e : Expr) (r : Row) (l : list (gostr * Value)) :
  row_storable r -> l ≡ₚ map_to_list r ->
  exists lr', eval e (newLazyRow (encode_entries l)) = (sem e r, lr') /\
              lr_err lr' = None /\ cache_ok r lr'.
Proof. apply eval_sem. Qed.

Lemma index_values_spec vals : forall nums strs nums' strs',
  index_values vals nums strs = Some (nums', strs') ->
  (forall f, existsb (feqb f) nums' = true <->
     existsb (feqb f) nums = true \/
     exists v g, v ∈ vals /\ v_T v <> TypeString /\ AsFloat v = (g, true) /\ feqb f g = true) /\
  (forall s, s ∈ strs' <-> s ∈ strs \/ VString s ∈ vals) /\
  Forall (fun v => v_T v = TypeInt \/ v_T v = TypeFloat \/ v_T v = TypeString) vals /\
  Forall (fun v => v_T v <> TypeString -> (AsFloat v).2 = true) vals.
Proof.
  induction vals as [|v vals IH]; intros nums strs nums' strs' E; cbn [index_values] in E.
  { injection E as <- <-. split; [|split; [|done]].
    - intros f. split; [by left|]. intros [?|(?&?&Hin&_)]; [done|]. by apply not_elem_of_nil in Hin.
    - intros s. split; [by left|]. intros [?|Hin]; [done|]. by apply not_elem_of_nil in Hin. }
  assert (Hnum : forall f ok, AsFloat v = (f, ok) -> v_T v <> TypeString -> (v_T v = TypeInt \/ v_T v = TypeFloat) ->
    (if negb ok then None else index_values vals (f :: nums) strs) = Some (nums', strs') ->
    (forall f, existsb (feqb f) nums' = true <->
       existsb (feqb f) nums = true \/
       exists v0 g, v0 ∈ v :: vals /\ v_T v0 <> TypeString /\ AsFloat v0 = (g, true) /\ feqb f g = true) /\
    (forall s, s ∈ strs' <-> s ∈ strs \/ VString s ∈ v :: vals) /\
    Forall (fun v => v_T v = TypeInt \/ v_T v = TypeFloat \/ v_T v = TypeString) (v :: vals) /\
    Forall (fun v => v_T v <> TypeString -> (AsFloat v).2 = true) (v :: vals)).
  { intros f [] Ef HT HT' E'; [|done]. cbn [negb] in E'.
    destruct (IH _ _ _ _ E') as (H1 & H2 & H3 & H4). split; [|split; [|split]].
    - intros f'. rewrite H1. cbn [existsb]. rewrite orb_true_iff. split.
      + intros [[Hf|Hf]|(v0&g&Hin&?)]; [right; exists v, f; rewrite elem_of_cons; auto | auto|].
        right. exists v0, g. rewrite elem_of_cons. tauto.
      + intros [Hf|(v0&g&Hin&HT0&Hg&Hfg)]; [auto|].
        apply elem_of_cons in Hin as [->|Hin]; [left; left; congruence|].
        right. by exists v0, g.
    - intros s. rewrite H2, elem_of_cons. split; [tauto|]. intros [?|[<-|?]]; [tauto|done|tauto].
    - constructor; [tauto|done].
    - constructor; [by rewrite Ef | done]. }
  destruct v as [|i|g|s|b]; try done.
  - destruct (AsFloat (VInt i)) as [f ok] eqn:Ef. apply (Hnum f ok); auto.
  - destruct (AsFloat (VFloat g)) as [f ok] eqn:Ef. apply (Hnum f ok); auto.
  - destruct (IH _ _ _ _ E) as (H1 & H2 & H3 & H4). split; [|split; [|split]].
    + intros f. rewrite H1. split; (intros [?|(v0&g&Hin&HT&?)]; [auto|right; exists v0, g]).
      * rewrite elem_of_cons. tauto.
      * apply elem_of_cons in Hin as [->|Hin]; [done|]. tauto.
    + intros s'. rewrite H2, elem_of_union, elem_of_singleton, elem_of_cons. split.
      * intros [[->|?]|?]; tauto.
      * intros [?|[[= ->]|?]]; tauto.
    + constructor; [tauto|done].
    + by constructor.
Qed.

(** the indexed IN list is an optimisation and nothing else: on
    every value it answers what the linear walk over the list answers. *)
Theorem newInExpr_linear (col : gostr) (vals : list Value) (r : Row) :
  sem (newInExpr col vals) r = sem (InExpr col vals None None) r.
Proof.
  unfold newInExpr. destruct (zlen vals <? inSetThreshold); [done|].
  destruct (index_values vals [] ∅) as [[nums strs]|] eqn:E; [|done].
  cbn [sem]. destruct (r !! col) as [v|]; [|done].
  destruct (index_values_spec vals [] ∅ nums strs E) as (H1 & H2 & H3 & H4).
  rewrite Forall_forall in H3, H4. unfold in_eval.
  apply Bool.eq_iff_eq_true. rewrite existsb_exists.
  assert (Hnumeric : forall f ok, AsFloat v = (f, ok) -> (v_T v = TypeInt \/ v_T v = TypeFloat) ->
    (if negb ok then false else existsb (feqb f) nums) = true <->
    exists x, In x vals /\ valueEqual v x = true).
  { intros f ok Ef HT. assert (Hv : forall x, x ∈ vals -> v_T x <> TypeString ->
      valueEqual v x = (let '(g, ok2) := AsFloat x in ok && ok2 && feqb f g)).
    { intros x Hin Hx. unfold valueEqual. rewrite Ef.
      destruct (H3 x Hin) as [HTx|[HTx|HTx]]; [| |done]; rewrite HTx;
        destruct HT as [-> | ->]; done. }
    assert (Hs : forall x, v_T x = TypeString -> valueEqual v x = false).
    { intros x Hx. unfold valueEqual. rewrite Hx, orb_true_r.
      destruct v, x; try done; destruct HT; done. }
    destruct ok; cbn [negb].
    - rewrite H1. split.
      + intros [?|(x&g&Hin&Hx&Hg&Hfg)]; [done|]. exists x.
        split; [by apply list_elem_of_In|]. rewrite Hv, Hg by done. by rewrite Hfg.
      + intros (x & Hin%list_elem_of_In & Hx). right.
        destruct (decide (v_T x = TypeString)) as [HTx|HTx]; [by rewrite Hs in Hx|].
        destruct (AsFloat x) as [g ok2] eqn:Eg. rewrite Hv, Eg in Hx by done.
        exists x, g. destruct ok2; simpl in Hx; [|done]. auto.
    - split; [done|]. intros (x & Hin%list_elem_of_In & Hx).
      destruct (decide (v_T x = TypeString)) as [HTx|HTx]; [by rewrite Hs in Hx|].
      rewrite Hv in Hx by done. by destruct (AsFloat x). }
  destruct v as [|i|g|s|b].
  - split; [done|]. intros (x & Hin%list_elem_of_In & Hx).
    destruct (H3 x Hin) as [HT|[HT|HT]]; unfold valueEqual in Hx; rewrite HT in Hx; try done;
      by destruct x.
  - destruct (AsFloat (VInt i)) as [f ok] eqn:Ef. apply Hnumeric; auto.
  - destruct (AsFloat (VFloat g)) as [f ok] eqn:Ef. apply Hnumeric; auto.
  - rewrite bool_decide_eq_true, H2. split.
    + intros [Hin|Hin]; [by apply not_elem_of_empty in Hin|]. exists (VString s).
      split; [by apply list_elem_of_In | apply bytes_eqb_refl].
    + intros (x & Hin%list_elem_of_In & Hx). right.
      destruct x; try done. unfold valueEqual in Hx. simpl in Hx.
      by apply bytes_eqb_spec in Hx as ->.
  - split; [done|]. intros (x & Hin%list_elem_of_In & Hx).
    destruct (H3 x Hin) as [HT|[HT|HT]]; destruct x; try done.
Qed.

(** ** Columns *)

Lemma columns_mono e : forall into, into ⊆ columns e into.
Proof.
  induction e as [sub IH|sub IH|s IH|c v|c vs n s|c lo hi|c|v] using Expr_nested_ind;
    intros into; cbn [columns]; try set_solver.
  all: revert into; induction IH as [|s sub Hs Hsub IHs]; intros into; [done|];
    etransitivity; [apply Hs | apply IHs].
Qed.

Lemma sem_agree e : forall into r r',
  (forall c, c ∈ columns e into -> r !! c = r' !! c) -> sem e r = sem e r'.
Proof.
  assert (Hl : forall sub (f : bool -> bool -> bool) (z : bool),
    Forall (fun e => forall into r r',
      (forall c, c ∈ columns e into -> r !! c = r' !! c) -> sem e r = sem e r') sub ->
    forall into r r',
    (forall c, c ∈ columns (AndExpr sub) into -> r !! c = r' !! c) ->
    (fix go l := match l with [] => z | s :: l' => f (sem s r) (go l') end) sub =
    (fix go l := match l with [] => z | s :: l' => f (sem s r') (go l') end) sub).
  { intros sub f z IH. induction IH as [|s sub Hs Hsub IHs]; intros into r r' Hc; [done|].
    change (forall c, c ∈ columns (AndExpr sub) (columns s into) -> r !! c = r' !! c) in Hc.
    f_equal; [|by apply (IHs (columns s into))].
    apply (Hs into). intros c Hin. apply Hc. by apply (columns_mono (AndExpr sub)). }
  induction e as [sub IH|sub IH|s IH|c v|c vs n s|c lo hi|c|v] using Expr_nested_ind;
    intros into r r' Hc.
  - exact (Hl sub andb true IH into r r' Hc).
  - exact (Hl sub orb false IH into r r' Hc).
  - cbn [sem]. f_equal. by apply (IH into).
  - cbn [sem columns] in *. rewrite (Hc c) by set_solver. done.
  - cbn [sem columns] in *. rewrite (Hc c) by set_solver. done.
  - cbn [sem columns] in *. rewrite (Hc c) by set_solver. done.
  - cbn [sem columns] in *. rewrite (Hc c) by set_solver. done.
  - done.
Qed.

(** a predicate reads only the columns it reports, so a scan whose
    projection includes them filters exactly as one that decodes
    everything. *)
Theorem columns_sufficient (e : Expr) (r : Row) (projection : gset gostr) :
  columns e projection ⊆ projection ->
  sem e (filter (fun kv => wants (Some projection) kv.1 = true) r) = sem e r.
Proof.
  intros Hsub. apply (sem_agree e projection). intros c Hc. apply Hsub in Hc.
  rewrite map_lookup_filter. simpl. destruct (r !! c); simpl; [|done].
  by rewrite bool_decide_true.
Qed.
End Filter.
