(* ===== verification/EngineDB.v ===== *)
(** * EngineDB: the storage interface, and the operations over it

    Pebble, the LSM the engine embeds, is not part of the source.  [LSM]
    is the interface the engine's definitions are written against -- point
    reads, bounded iteration, atomic batches -- and [LSMLaws] states its
    documented behaviour: an ordered map from byte keys to byte values
    under [bytes.Compare]; an ordered finite map is an instance that
    discharges the laws.  The operations of [db.go] follow: the handle, its
    schema, writes, point reads, dropping, retention, the dictionary. *)

From Stdlib Require Import ZArith Lia Bool Strings.Byte Strings.String.
From stdpp Require Import sorting fin_maps.
From S2P Require Import Prelude Bytes Float64 GoStd Model EngineKeys EngineCodec.

(** A batch operation: [b.Set], [b.Delete], [b.DeleteRange]. *)
Inductive batch_op : Type :=
| BSet (k v : gostr)
| BDelete (k : gostr)
| BDeleteRange (lo : gostr) (hi : option gostr).

Class LSM := {
  kv : Type;
  kv_empty : kv;
  kv_get : kv -> gostr -> option gostr;
  kv_scan : kv -> gostr -> option gostr -> list (gostr * gostr);
  kv_apply : kv -> list batch_op -> kv;
}.

(** What one operation, and a batch in order, do to one key. *)
Definition op_get (op : batch_op) (k : gostr) (old : option gostr) : option gostr :=
  match op with
  | BSet k' v => if bytes_eqb k' k then Some v else old
  | BDelete k' => if bytes_eqb k' k then None else old
  | BDeleteRange lo hi => if in_range lo hi k then None else old
  end.
Definition ops_get (ops : list batch_op) (k : gostr) (old : option gostr) : option gostr :=
  foldl (fun o op => op_get op k o) old ops.

Definition key_lt (a b : gostr * gostr) : Prop := blt a.1 b.1 = true.

Class LSMLaws (L : LSM) : Prop := {
  kv_get_empty : forall k, kv_get kv_empty k = None;
  kv_get_apply : forall d ops k, kv_get (kv_apply d ops) k = ops_get ops k (kv_get d k);
  kv_scan_elem : forall d lo hi k v,
    (k, v) ∈ kv_scan d lo hi <-> in_range lo hi k = true /\ kv_get d k = Some v;
  kv_scan_sorted : forall d lo hi, StronglySorted key_lt (kv_scan d lo hi);
}.

Section OpsGet.
Lemma ops_get_app ops1 ops2 k o :
  ops_get (ops1 ++ ops2) k o = ops_get ops2 k (ops_get ops1 k o).
Proof. unfold ops_get. apply foldl_app. Qed.

(** Operations that do not touch a key leave it as it was. *)
Definition touches (op : batch_op) (k : gostr) : bool :=
  match op with
  | BSet k' _ | BDelete k' => bytes_eqb k' k
  | BDeleteRange lo hi => in_range lo hi k
  end.

Lemma ops_get_untouched ops k o :
  Forall (fun op => touches op k = false) ops -> ops_get ops k o = o.
Proof.
  unfold ops_get. intros H. revert o. induction H as [|op ops Hop Hops IH]; intros o; [done|].
  simpl. destruct op; simpl in *; rewrite Hop; apply IH.
Qed.
End OpsGet.

(** ** An ordered finite map implements the interface *)

Definition entry_le (a b : gostr * gostr) : Prop := str_le a.1 b.1.
#[export] Instance entry_le_dec a b : Decision (entry_le a b).
Proof. unfold entry_le. apply _. Defined.
#[export] Instance entry_le_total : Total entry_le.
Proof. intros a b. apply (total str_le). Qed.
#[export] Instance entry_le_trans : Transitive entry_le.
Proof. intros a b c. unfold entry_le. apply transitivity. Qed.

Definition map_scan (m : gmap gostr gostr) (lo : gostr) (hi : option gostr) : list (gostr * gostr) :=
  merge_sort entry_le (filter (fun kv => in_range lo hi kv.1 = true) (map_to_list m)).

Definition map_op (m : gmap gostr gostr) (op : batch_op) : gmap gostr gostr :=
  match op with
  | BSet k v => <[k := v]> m
  | BDelete k => delete k m
  | BDeleteRange lo hi => filter (fun kv => in_range lo hi kv.1 = false) m
  end.

#[export] Instance MapLSM : LSM := {
  kv := gmap gostr gostr;
  kv_empty := ∅;
  kv_get m k := m !! k;
  kv_scan := map_scan;
  kv_apply m ops := foldl map_op m ops;
}.

Lemma map_op_lookup m op k : map_op m op !! k = op_get op k (m !! k).
Proof.
  destruct op as [k' v|k'|lo hi]; simpl.
  - rewrite lookup_insert. case_decide as E.
    + subst. by rewrite bytes_eqb_refl.
    + by rewrite (proj2 (bytes_eqb_neq _ _) E).
  - rewrite lookup_delete. case_decide as E.
    + subst. by rewrite bytes_eqb_refl.
    + by rewrite (proj2 (bytes_eqb_neq _ _) E).
  - rewrite map_lookup_filter. destruct (m !! k) as [v|]; simpl.
    + by destruct (in_range lo hi k).
    + by destruct (in_range lo hi k).
Qed.

Lemma sorted_entries_strict (l : list (gostr * gostr)) :
  NoDup (l.*1) -> StronglySorted entry_le l -> StronglySorted key_lt l.
Proof.
  intros Hnd Hs. induction Hs as [|a l Hs IH Ha]; [constructor|].
  rewrite fmap_cons in Hnd. apply NoDup_cons in Hnd as [Hnin Hnd].
  constructor; [by apply IH|]. rewrite Forall_forall in Ha |- *. intros b Hb.
  specialize (Ha b Hb). unfold entry_le, str_le, key_lt in *.
  apply ble_lt_eq in Ha as [?|Heq]; [done|].
  exfalso. apply Hnin. rewrite Heq. by apply list_elem_of_fmap_2.
Qed.

Lemma map_ops_lookup (ops : list batch_op) (m : gmap gostr gostr) (k : gostr) :
  foldl map_op m ops !! k = ops_get ops k (m !! k).
Proof.
  unfold ops_get. revert m. induction ops as [|op ops IH]; intros m; [done|].
  simpl. rewrite IH. f_equal. apply map_op_lookup.
Qed.

Lemma map_scan_elem (m : gmap gostr gostr) lo hi k v :
  (k, v) ∈ map_scan m lo hi <-> in_range lo hi k = true /\ m !! k = Some v.
Proof.
  unfold map_scan. rewrite (merge_sort_Permutation entry_le _).
  by rewrite list_elem_of_filter, elem_of_map_to_list.
Qed.

Lemma map_scan_sorted (m : gmap gostr gostr) lo hi : StronglySorted key_lt (map_scan m lo hi).
Proof.
  unfold map_scan. apply sorted_entries_strict.
  - rewrite (merge_sort_Permutation entry_le _).
    apply (sublist_NoDup _ ((map_to_list m).*1)); [apply NoDup_fst_map_to_list|].
    apply fmap_sublist, sublist_filter.
  - apply Sorted_StronglySorted; [apply _|]. apply Sorted_merge_sort. apply _.
Qed.

#[export] Instance MapLSM_laws : LSMLaws MapLSM.
Proof.
  constructor.
  - done.
  - intros d ops k. apply map_ops_lookup.
  - intros d lo hi k v. apply map_scan_elem.
  - intros d lo hi. apply map_scan_sorted.
Qed.

(** * The store's write and point-read paths

    The operations of [internal/engine/db.go] as state passing over a [DB]
    record: the schema maps, the set-id counter, the counters and the LSM.
    Every call into the LSM may fail: [d_faults] says, call by call, which
    ones do, and a failed call leaves the LSM as it was.  A call that ends
    in an error keeps the state changes made before it, as the Go code
    does. *)


Definition currentStorageVersion : Z := 1.
Definition indexedColumnID : Z := 1.

Record ColumnSpec := { cs_Name : gostr; cs_Type : ValueType; cs_Indexed : bool }.

Record setMeta := {
  sm_ID : Z;
  sm_Name : gostr;
  sm_Columns : gmap gostr ColumnSpec;
  sm_Indexed : gostr;
  sm_IndexCol : Z;
  sm_dirty : bool;
}.

Inductive db_err : Type :=
| ErrStorageVersionMismatch
| ErrUnknownSet
| ErrClosed
| ErrPathRequired
| ErrPebble
| ErrMetaRecord
| ErrCannotGainIndex (set col : gostr)
| ErrRowWithoutIndexedColumn (set col : gostr)
| ErrIndexedNotNumeric (col : gostr)
| ErrCodec (e : codec_err)
| ErrContext
| ErrFuel.

(** [encoding/json] on a [setMeta], whose unexported [dirty] it does not
    see. *)
Class MetaJSON := {
  json_Marshal : setMeta -> gostr;
  json_Unmarshal : gostr -> option setMeta;
}.

Record Stats := { st_Puts : Z; st_Gets : Z; st_Scans : Z; st_Queries : Z; st_RowsScanned : Z; st_OpenIterators : Z }.

Section Engine.
Context `{FloatText} `{MetaJSON} `{L : LSM}.

Record DB := {
  d_kv : kv;
  d_sets : gmap gostr setMeta;
  d_byID : gmap Z gostr;
  d_nextID : Z;
  d_closed : bool;
  d_stats : Stats;
  d_faults : list bool;
}.

Definition set_kv (k : kv) (d : DB) : DB :=
  {| d_kv := k; d_sets := d_sets d; d_byID := d_byID d; d_nextID := d_nextID d;
     d_closed := d_closed d; d_stats := d_stats d; d_faults := d_faults d |}.
Definition set_maps (s : gmap gostr setMeta) (b : gmap Z gostr) (n : Z) (d : DB) : DB :=
  {| d_kv := d_kv d; d_sets := s; d_byID := b; d_nextID := n;
     d_closed := d_closed d; d_stats := d_stats d; d_faults := d_faults d |}.
Definition set_faults (f : list bool) (d : DB) : DB :=
  {| d_kv := d_kv d; d_sets := d_sets d; d_byID := d_byID d; d_nextID := d_nextID d;
     d_closed := d_closed d; d_stats := d_stats d; d_faults := f |}.
Definition set_stats (s : Stats) (d : DB) : DB :=
  {| d_kv := d_kv d; d_sets := d_sets d; d_byID := d_byID d; d_nextID := d_nextID d;
     d_closed := d_closed d; d_stats := s; d_faults := d_faults d |}.
Definition set_closed (c : bool) (d : DB) : DB :=
  {| d_kv := d_kv d; d_sets := d_sets d; d_byID := d_byID d; d_nextID := d_nextID d;
     d_closed := c; d_stats := d_stats d; d_faults := d_faults d |}.

(** ** The monad of store operations *)

Definition M (A : Type) : Type := DB -> result db_err A * DB.
#[global] Instance M_ret : MRet M := fun A a d => (Ok a, d).
#[global] Instance M_bind : MBind M := fun A B k m d =>
  match m d with
  | (Ok a, d') => k a d'
  | (Err e, d') => (Err e, d')
  end.

Definition fail {A} (e : db_err) : M A := fun d => (Err e, d).
Definition get_db : M DB := fun d => (Ok d, d).
Definition modify (f : DB -> DB) : M unit := fun d => (Ok tt, f d).
Definition lift {A} (r : result codec_err A) : M A :=
  fun d => (match r with Ok a => Ok a | Err e => Err (ErrCodec e) end, d).
(** [if err := m; err != nil { handle; return err }] *)
Definition on_err {A} (m : M A) (handle : DB -> DB) : M A := fun d =>
  match m d with
  | (Ok a, d') => (Ok a, d')
  | (Err e, d') => (Err e, handle d')
  end.

(** A call whose error the caller keeps and goes on. *)
Definition attempt {A} (m : M A) : M (result db_err A) := fun d => let '(r, d') := m d in (Ok r, d').

(** ** Calls into the LSM *)

Definition pebble_call : M unit := fun d =>
  match d_faults d with
  | true :: f => (Err ErrPebble, set_faults f d)
  | false :: f => (Ok tt, set_faults f d)
  | [] => (Ok tt, d)
  end.

Definition pdb_Get (k : gostr) : M (option gostr) :=
  pebble_call ;; d ← get_db; mret (kv_get (d_kv d) k).
Definition pdb_Apply (ops : list batch_op) : M unit :=
  pebble_call ;; modify (fun d => set_kv (kv_apply (d_kv d) ops) d).
Definition pdb_Set (k v : gostr) : M unit := pdb_Apply [BSet k v].
Definition pdb_Delete (k : gostr) : M unit := pdb_Apply [BDelete k].
(** [NewIter], the walk, then [it.Error()]: two calls that may fail. *)
Definition pdb_Iter (lower : gostr) (upper : option gostr) : M (list (gostr * gostr)) :=
  pebble_call ;; d ← get_db; pebble_call ;; mret (kv_scan (d_kv d) lower upper).
(** [b.Set], [b.Delete], [b.DeleteRange] on a batch under construction. *)
Definition batch_add (b : list batch_op) (op : batch_op) : M (list batch_op) :=
  pebble_call ;; mret (b ++ [op]).

Definition guard_open : M unit :=
  d ← get_db; if d_closed d then fail ErrClosed else mret tt.

(** ** Metadata *)

Definition nextIDKey : gostr := metaKey [bs "next_set_id"].
Definition setKey (name : gostr) : gostr := metaKey [bs "set"; name].

Definition loadNextID : M Z :=
  v ← pdb_Get nextIDKey;
  match v with
  | None => mret 0
  | Some v => if zlen v <? 4 then mret 0 else mret (Uint32 v)
  end.

Definition persistNextID : M unit :=
  d ← get_db; pdb_Set nextIDKey (PutUint32 (d_nextID d)).

Definition persistSet (sm : setMeta) : M unit :=
  pdb_Set (setKey (sm_Name sm)) (json_Marshal sm).

Definition verKey : gostr := metaKey [bs "version"].

Definition load_version : M unit :=
  v ← pdb_Get verKey;
  match v with
  | None => pdb_Set verKey (PutUint32 currentStorageVersion)
  | Some v =>
      if zlen v <? 4 then fail ErrStorageVersionMismatch
      else if negb (Uint32 v =? currentStorageVersion) then fail ErrStorageVersionMismatch
      else mret tt
  end.

Fixpoint load_sets (records : list (gostr * gostr)) : M unit :=
  match records with
  | [] => mret tt
  | (_, v) :: rest =>
      match json_Unmarshal v with
      | None => fail ErrMetaRecord
      | Some sm =>
          modify (fun d =>
            set_maps (<[sm_Name sm := sm]> (d_sets d)) (<[sm_ID sm := sm_Name sm]> (d_byID d))
              (if sm_ID sm >=? d_nextID d then u32 (sm_ID sm + 1) else d_nextID d) d) ;;
          load_sets rest
      end
  end.

Definition loadMeta : M unit :=
  load_version ;;
  let prefix := metaKey [bs "set"; []] in
  pebble_call ;;
  d ← get_db;
  load_sets (kv_scan (d_kv d) prefix (prefixEnd prefix)) ;;
  pebble_call ;;
  hw ← loadNextID;
  modify (fun d => if hw >? d_nextID d then set_maps (d_sets d) (d_byID d) hw d else d) ;;
  d ← get_db;
  if negb (hw =? d_nextID d) then persistNextID else mret tt.

Definition fresh_db (k : kv) (faults : list bool) : DB :=
  {| d_kv := k; d_sets := ∅; d_byID := ∅; d_nextID := 0; d_closed := false;
     d_stats := {| st_Puts := 0; st_Gets := 0; st_Scans := 0; st_Queries := 0;
                   st_RowsScanned := 0; st_OpenIterators := 0 |};
     d_faults := faults |}.

Definition Open (path : gostr) (k : kv) (faults : list bool) : result db_err unit * DB :=
  if zlen path =? 0 then (Err ErrPathRequired, fresh_db k faults)
  else (pebble_call ;; loadMeta) (fresh_db k faults).

(** ** Schemas *)

Definition empty_meta (id : Z) (name : gostr) : setMeta :=
  {| sm_ID := id; sm_Name := name; sm_Columns := ∅; sm_Indexed := []; sm_IndexCol := 0; sm_dirty := false |}.
Definition with_dirty (b : bool) (sm : setMeta) : setMeta :=
  {| sm_ID := sm_ID sm; sm_Name := sm_Name sm; sm_Columns := sm_Columns sm;
     sm_Indexed := sm_Indexed sm; sm_IndexCol := sm_IndexCol sm; sm_dirty := b |}.
Definition with_index (c : gostr) (sm : setMeta) : setMeta :=
  {| sm_ID := sm_ID sm; sm_Name := sm_Name sm; sm_Columns := sm_Columns sm;
     sm_Indexed := c; sm_IndexCol := indexedColumnID; sm_dirty := sm_dirty sm |}.
Definition with_column (k : gostr) (c : ColumnSpec) (sm : setMeta) : setMeta :=
  {| sm_ID := sm_ID sm; sm_Name := sm_Name sm; sm_Columns := <[k := c]> (sm_Columns sm);
     sm_Indexed := sm_Indexed sm; sm_IndexCol := sm_IndexCol sm; sm_dirty := true |}.

(** [sm] is the pointer held in the map, so every change to it shows
    there at once. *)
Definition store_meta (sm : setMeta) : M setMeta :=
  modify (fun d => set_maps (<[sm_Name sm := sm]> (d_sets d)) (d_byID d) (d_nextID d) d) ;;
  mret sm.

(** One seek: [NewIter], [First], [Error]. *)
Definition hasDataRows (setID : Z) : M bool :=
  rows ← pdb_Iter (dataPrefix setID) (prefixEnd (dataPrefix setID));
  mret (match rows with [] => false | _ => true end).

(** One turn of [setLocked]'s loop over the columns of the call. *)
Definition add_column (created : bool) (sm : setMeta) (c : ColumnSpec) : M setMeta :=
  match sm_Columns sm !! cs_Name c with
  | Some existing =>
      if (cs_Type existing =? cs_Type c) && Bool.eqb (cs_Indexed existing) (cs_Indexed c)
      then mret sm
      else if (cs_Type existing =? TypeInt) && (cs_Type c =? TypeFloat)
      then store_meta (with_column (cs_Name c)
             {| cs_Name := cs_Name existing; cs_Type := TypeFloat; cs_Indexed := cs_Indexed existing |} sm)
      else mret sm
  | None =>
      sm1 ← (if cs_Indexed c && bytes_eqb (sm_Indexed sm) [] then
               has ← (if created then mret false else hasDataRows (sm_ID sm));
               if has : bool then fail (ErrCannotGainIndex (sm_Name sm) (cs_Name c))
               else mret (with_index (cs_Name c) sm)
             else mret sm);
      store_meta (with_column (cs_Name c) c sm1)
  end.

Fixpoint add_columns (created : bool) (sm : setMeta) (cols : list ColumnSpec) : M setMeta :=
  match cols with
  | [] => mret sm
  | c :: rest => sm' ← add_column created sm c; add_columns created sm' rest
  end.

(** The creation half: a fresh id, persisted before the set that uses
    it; the maps go back if that write fails. *)
Definition create_set (name : gostr) : M setMeta :=
  d ← get_db;
  let id := d_nextID d in
  let sm := with_dirty true (empty_meta id name) in
  modify (fun d => set_maps (<[name := sm]> (d_sets d)) (<[id := name]> (d_byID d)) (u32 (d_nextID d + 1)) d) ;;
  on_err persistNextID
    (fun d => set_maps (delete name (d_sets d)) (delete id (d_byID d)) (d_nextID d) d) ;;
  mret sm.

Definition setLocked (name : gostr) (cols : list ColumnSpec) : M setMeta :=
  d ← get_db;
  sm ← (match d_sets d !! name with Some sm => mret sm | None => create_set name end);
  let created := match d_sets d !! name with Some _ => false | None => true end in
  sm ← add_columns created sm cols;
  if sm_dirty sm then persistSet sm ;; store_meta (with_dirty false sm) else mret sm.

Definition RegisterSet (name : gostr) (cols : list ColumnSpec) : M unit :=
  guard_open ;; setLocked name cols ;; mret tt.

Definition Sets (d : DB) : list gostr := sort_strings ((map_to_list (d_sets d)).*1).

Definition cs_le (a b : ColumnSpec) : Prop := str_le (cs_Name a) (cs_Name b).
#[global] Instance cs_le_dec a b : Decision (cs_le a b).
Proof. unfold cs_le. apply _. Defined.
Definition Schema (d : DB) (name : gostr) : option (list ColumnSpec * gostr) :=
  match d_sets d !! name with
  | None => None
  | Some sm => Some (merge_sort cs_le ((map_to_list (sm_Columns sm)).*2), sm_Indexed sm)
  end.

(** ** Writing *)

Record Record_ := { rec_Key : gostr; rec_Row : Row }.

(** The column set of a batch: [at] maps a name to its index in
    [cols]. *)
Definition derive_column (st : list ColumnSpec * gmap gostr nat) (nv : gostr * Value)
    : list ColumnSpec * gmap gostr nat :=
  let '(cols, at_) := st in
  match at_ !! nv.1 with
  | None =>
      (cols ++ [{| cs_Name := nv.1; cs_Type := v_T nv.2; cs_Indexed := bytes_eqb nv.1 TimestampField |}],
       <[nv.1 := length cols]> at_)
  | Some j =>
      match cols !! j with
      | Some c =>
          if (cs_Type c =? TypeInt) && (v_T nv.2 =? TypeFloat)
          then (<[j := {| cs_Name := cs_Name c; cs_Type := TypeFloat; cs_Indexed := cs_Indexed c |}]> cols, at_)
          else st
      | None => st
      end
  end.
Definition derive_columns (recs : list Record_) : list ColumnSpec :=
  (foldl derive_column ([], ∅) (concat (map (fun r => map_to_list (rec_Row r)) recs))).1.

(** The batch one record adds to. *)
Definition put_record (set : gostr) (setID : Z) (indexed : gostr) (indexCol : Z)
    (b : list batch_op) (r : Record_) : M (list batch_op) :=
  let payload := encodeRow (rec_Row r) in
  if negb (bytes_eqb indexed []) then
    match rec_Row r !! indexed with
    | None => fail (ErrRowWithoutIndexedColumn set indexed)
    | Some iv =>
        let '(ts, ok) := AsInt iv in
        if negb ok then fail (ErrIndexedNotNumeric indexed)
        else
          b ← batch_add b (BSet (indexKey setID indexCol ts (rec_Key r)) payload);
          batch_add b (BSet (dataKey setID (rec_Key r)) (dataPointer ts))
    end
  else batch_add b (BSet (dataKey setID (rec_Key r)) payload).

Fixpoint put_records (set : gostr) (setID : Z) (indexed : gostr) (indexCol : Z)
    (b : list batch_op) (recs : list Record_) : M (list batch_op) :=
  match recs with
  | [] => mret b
  | r :: rest =>
      b ← put_record set setID indexed indexCol b r;
      put_records set setID indexed indexCol b rest
  end.

Definition add_puts (n : Z) (s : Stats) : Stats :=
  {| st_Puts := i64 (st_Puts s + n); st_Gets := st_Gets s; st_Scans := st_Scans s; st_Queries := st_Queries s;
     st_RowsScanned := st_RowsScanned s; st_OpenIterators := st_OpenIterators s |}.
Definition add_gets (s : Stats) : Stats :=
  {| st_Puts := st_Puts s; st_Gets := i64 (st_Gets s + 1); st_Scans := st_Scans s; st_Queries := st_Queries s;
     st_RowsScanned := st_RowsScanned s; st_OpenIterators := st_OpenIterators s |}.

Definition PutBatch (set : gostr) (recs : list Record_) : M unit :=
  guard_open ;;
  match recs with
  | [] => mret tt
  | _ =>
      sm ← setLocked set (derive_columns recs);
      b ← put_records set (sm_ID sm) (sm_Indexed sm) (sm_IndexCol sm) [] recs;
      pdb_Apply b ;;
      modify (fun d => set_stats (add_puts (zlen recs) (d_stats d)) d)
  end.

(** ** Reading one row *)

Record setRef_ := { ref_id : Z; ref_indexed : gostr; ref_indexCol : Z }.
Definition setRef (d : DB) (name : gostr) : option setRef_ :=
  match d_sets d !! name with
  | None => None
  | Some sm => Some {| ref_id := sm_ID sm; ref_indexed := sm_Indexed sm; ref_indexCol := sm_IndexCol sm |}
  end.

Definition projectionSet (cols : list gostr) : option (gset gostr) :=
  match cols with [] => None | _ => Some (list_to_set cols) end.

(** The payload of a row, given what is stored under its data key;
    [None] is "no such row". *)
Definition follow_pointer (sm : setRef_) (pk payload : gostr) : M (option gostr) :=
  match readDataPointer payload with
  | Some ts =>
      if negb (bytes_eqb (ref_indexed sm) []) then
        v2 ← pdb_Get (indexKey (ref_id sm) (ref_indexCol sm) ts pk);
        mret (match v2 with
              | Some p => Some p
              | None => if taggedDataPointer payload then None else Some payload
              end)
      else mret (Some payload)
  | None => mret (Some payload)
  end.

Definition Get (set pk : gostr) (projection : list gostr) : M (option Row) :=
  guard_open ;;
  modify (fun d => set_stats (add_gets (d_stats d)) d) ;;
  d ← get_db;
  match setRef d set with
  | None => fail ErrUnknownSet
  | Some sm =>
      val ← pdb_Get (dataKey (ref_id sm) pk);
      match val with
      | None => mret None
      | Some payload =>
          p ← follow_pointer sm pk payload;
          match p with
          | None => mret None
          | Some payload =>
              row ← lift (decodeRow payload (projectionSet projection));
              mret (Some row)
          end
      end
  end.

(** ** Dropping, dictionaries, retention *)

Definition delete_range (b : list batch_op) (prefix : gostr) : M (list batch_op) :=
  batch_add b (BDeleteRange prefix (prefixEnd prefix)).

Definition DropSet (name : gostr) : M unit :=
  guard_open ;;
  d ← get_db;
  match d_sets d !! name with
  | None => fail ErrUnknownSet
  | Some sm =>
      modify (fun d => set_maps (delete name (d_sets d)) (delete (sm_ID sm) (d_byID d)) (d_nextID d) d) ;;
      on_err
        (b ← delete_range [] (dataPrefix (sm_ID sm));
         b ← delete_range b (indexPrefix (sm_ID sm) (sm_IndexCol sm));
         b ← batch_add b (BDelete (setKey name));
         pdb_Apply b)
        (fun d => set_maps (<[name := sm]> (d_sets d)) (<[sm_ID sm := name]> (d_byID d)) (d_nextID d) d)
  end.

Definition PutDict (name val : gostr) : M unit :=
  guard_open ;; pdb_Set (dictKey name) val.
Definition GetDict (name : gostr) : M (option gostr) :=
  guard_open ;;
  v ← pdb_Get (dictKey name);
  match v with
  | None => mret None
  | Some v => pebble_call ;; mret (Some v)
  end.
Definition DeleteDict (name : gostr) : M unit :=
  guard_open ;; pdb_Delete (dictKey name).
Definition DictKeys : M (list gostr) :=
  guard_open ;;
  l ← pdb_Iter [prefixDict] (prefixEnd [prefixDict]);
  mret (sort_strings (map (fun kv => drop 1 kv.1) l)).

(** The rows an indexed sweep finds: its index key and its data key. *)
Definition doomed_indexed (sm : setRef_) (entry : gostr * gostr) : list (gostr * gostr) :=
  match indexKeyPK entry.1 with
  | None => []
  | Some pk => [(entry.1, dataKey (ref_id sm) pk)]
  end.
(** The rows an unindexed sweep finds; no index key ([len(row.index) = 0]).
    A row without the column reads the zero Value, which is not
    numeric. *)
Definition doomed_scanned (beforeMs : Z) (entry : gostr * gostr) : list (gostr * gostr) :=
  match decodeRow entry.2 (Some {[TimestampField]}) with
  | Err _ => []
  | Ok row =>
      let '(ts, ok) := AsInt (default VInvalid (row !! TimestampField)) in
      if negb ok || (ts >=? beforeMs) then [] else [([], entry.1)]
  end.

Fixpoint delete_rows (b : list batch_op) (dead : list (gostr * gostr)) : M (list batch_op) :=
  match dead with
  | [] => mret b
  | (index, data) :: rest =>
      b ← (if 0 <? zlen index then batch_add b (BDelete index) else mret b);
      b ← batch_add b (BDelete data);
      delete_rows b rest
  end.

Definition DeleteOlderThan (set : gostr) (beforeMs : Z) : M Z :=
  guard_open ;;
  d ← get_db;
  match setRef d set with
  | None => mret 0
  | Some sm =>
      dead ← (if negb (bytes_eqb (ref_indexed sm) []) then
                l ← pdb_Iter (indexPrefix (ref_id sm) (ref_indexCol sm))
                      (Some (indexBound (ref_id sm) (ref_indexCol sm) beforeMs));
                mret (concat (map (doomed_indexed sm) l))
              else
                l ← pdb_Iter (dataPrefix (ref_id sm)) (prefixEnd (dataPrefix (ref_id sm)));
                mret (concat (map (doomed_scanned beforeMs) l)));
      match dead with
      | [] => mret 0
      | _ =>
          b ← delete_rows [] dead;
          pdb_Apply b ;;
          mret (zlen dead)
      end
  end.

Definition CounterSnapshot (d : DB) : Stats := d_stats d.

(** [Flush] and [Compact] do not change what the LSM holds. *)
Definition Flush : M unit := guard_open ;; pebble_call.
Definition Compact : M unit := guard_open ;; pebble_call.

Definition Close : M unit :=
  d ← get_db;
  if d_closed d then mret tt
  else modify (set_closed true) ;; pebble_call ;; pebble_call.
End Engine.

Arguments DB {_} : rename.
