(* ===== verification/EngineRep.v ===== *)
(** * EngineRep: how a set's rows lie in the keyspace

    The representation of one set's rows in the LSM's keys: under [D/] a
    payload or a forward pointer per primary key, under [I/] the payload
    per (timestamp, primary key).  [rep] relates the key lookup function
    to the abstract map of rows; the lemmas say what writing one row,
    dropping the set, and operations elsewhere in the keyspace do to it. *)

From Stdlib Require Import ZArith Lia Bool.
From Stdlib Require Import Strings.Byte Strings.String.
From S2P Require Import Prelude Bytes Float64 GoStd Model EngineKeys EngineCodec EngineDB.

(** ** Areas of the keyspace *)

(** The set id a data or index key belongs to. *)
Definition area (k : gostr) : option Z :=
  match k with
  | b :: t => if byte_eqb b prefixData || byte_eqb b prefixIndex then Some (be_val (take 4 t)) else None
  | [] => None
  end.

Definition ixPrefix (id : Z) : gostr := [prefixIndex] ++ be4 id.

Lemma be_val_be4 id rest : in_u32 id -> be_val (take 4 (be4 id ++ rest)) = id.
Proof.
  intros Hid. rewrite take_app_length' by (by rewrite length_be4).
  unfold be4, PutUint32. rewrite be_val_bytes. apply Z.mod_small. mlia.
Qed.

Lemma area_data id rest : in_u32 id -> area (dataPrefix id ++ rest) = Some id.
Proof.
  intros Hid. change (Some (be_val (take 4 (be4 id ++ rest))) = Some id). by rewrite be_val_be4.
Qed.

Lemma area_ix id rest : in_u32 id -> area (ixPrefix id ++ rest) = Some id.
Proof.
  intros Hid. change (Some (be_val (take 4 (be4 id ++ rest))) = Some id). by rewrite be_val_be4.
Qed.

Lemma area_index id c ts pk : in_u32 id -> area (indexKey id c ts pk) = Some id.
Proof. intros Hid. apply (area_ix id (be4 c ++ PutUint64 (biasInt ts) ++ pk) Hid). Qed.

Lemma area_meta parts : area (metaKey parts) = None.
Proof. done. Qed.
Lemma area_dict name : area (dictKey name) = None.
Proof. done. Qed.

Lemma dataKey_prefix id pk : dataKey id pk = dataPrefix id ++ pk.
Proof. reflexivity. Qed.

Lemma indexKey_prefix id c ts pk :
  indexKey id c ts pk = ixPrefix id ++ (be4 c ++ PutUint64 (biasInt ts) ++ pk).
Proof. reflexivity. Qed.

Lemma data_ix_disjoint id id' rest rest' : dataPrefix id ++ rest <> ixPrefix id' ++ rest'.
Proof. discriminate. Qed.

Lemma index_rest_inj c ts pk ts' pk' :
  in_i64 ts -> in_i64 ts' ->
  be4 c ++ PutUint64 (biasInt ts) ++ pk = be4 c ++ PutUint64 (biasInt ts') ++ pk' ->
  ts = ts' /\ pk = pk'.
Proof.
  intros H1 H2 [_ E]%app_inj_len; [|done].
  apply app_inj_len in E as [E ->]; [|by rewrite !length_PutUint64].
  split; [by apply PutUint64_biasInt_inj | done].
Qed.

(** An operation stays inside an area when every key it touches does. *)
Definition op_within (a : option Z) (op : batch_op) : Prop :=
  forall k, touches op k = true -> area k = a.

Lemma set_within k v : op_within (area k) (BSet k v).
Proof. intros k'. simpl. by intros ->%bytes_eqb_spec. Qed.
Lemma delete_within k : op_within (area k) (BDelete k).
Proof. intros k'. simpl. by intros ->%bytes_eqb_spec. Qed.

Lemma in_range_prefixEnd p k : in_range p (prefixEnd p) k = true <-> p `prefix_of` k.
Proof. apply in_range_prefix. Qed.

Lemma range_data_within id : in_u32 id -> op_within (Some id) (BDeleteRange (dataPrefix id) (prefixEnd (dataPrefix id))).
Proof.
  intros Hid k. cbn [touches]. rewrite in_range_prefixEnd. intros [rest ->]. by apply area_data.
Qed.
Lemma range_index_within id c :
  in_u32 id -> op_within (Some id) (BDeleteRange (indexPrefix id c) (prefixEnd (indexPrefix id c))).
Proof.
  intros Hid k. cbn [touches]. rewrite in_range_prefixEnd. intros [rest ->].
  unfold indexPrefix. rewrite <- !app_assoc. apply (area_ix id (be4 c ++ rest) Hid).
Qed.

Lemma ops_outside a ops k o : Forall (op_within a) ops -> area k <> a -> ops_get ops k o = o.
Proof.
  intros Hops Hk. apply ops_get_untouched. eapply Forall_impl; [exact Hops|].
  intros op Hop. destruct (touches op k) eqn:E; [by apply Hop in E | done].
Qed.

(** ** The representation *)

Abbreviation Rows := (gmap gostr Row).
Abbreviation lookup_fn := (gostr -> option gostr).

(** The timestamp an indexed row is filed under. *)
Definition row_ts (indexed : gostr) (r : Row) : option Z :=
  match r !! indexed with
  | None => None
  | Some v => let '(ts, ok) := AsInt v in if ok then Some ts else None
  end.

Definition data_value (indexed : gostr) (r : Row) : gostr :=
  if bytes_eqb indexed [] then encodeRow r
  else match row_ts indexed r with Some ts => dataPointer ts | None => encodeRow r end.

Definition index_entry (indexed : gostr) (R : Rows) (rest v : gostr) : Prop :=
  indexed <> [] /\
  exists pk r ts, R !! pk = Some r /\ row_ts indexed r = Some ts /\
    rest = be4 1 ++ PutUint64 (biasInt ts) ++ pk /\ v = encodeRow r.

Definition row_ok (indexed pk : gostr) (r : Row) : Prop :=
  length pk = 16%nat /\ row_storable r /\ (indexed <> [] -> is_Some (row_ts indexed r)).

Record rep (g : lookup_fn) (id : Z) (indexed : gostr) (R : Rows) : Prop := {
  rep_rows : forall pk r, R !! pk = Some r -> row_ok indexed pk r;
  rep_data : forall rest, g (dataPrefix id ++ rest) = data_value indexed <$> R !! rest;
  rep_index : forall rest v, g (ixPrefix id ++ rest) = Some v <-> index_entry indexed R rest v;
}.

Lemma row_ts_range indexed r ts : row_storable r -> row_ts indexed r = Some ts -> in_i64 ts.
Proof.
  unfold row_ts. intros [Hr _] E. destruct (r !! indexed) as [v|] eqn:Ev; [|done].
  destruct (AsInt v) as [i ok] eqn:Ei. destruct ok; [|done]. injection E as <-.
  apply (AsInt_in_i64 v); [|done]. destruct (Hr _ _ Ev) as [_ Hv]. by destruct v.
Qed.

Lemma rep_frame g g' id indexed R :
  (forall k, area k = Some id -> g' k = g k) -> in_u32 id -> rep g id indexed R -> rep g' id indexed R.
Proof.
  intros Hg Hid [H1 H2 H3]. split; [done| |].
  - intros rest. rewrite Hg by (by apply area_data). apply H2.
  - intros rest v. rewrite Hg by (by apply area_ix). apply H3.
Qed.

(** An empty set is represented by no keys, whatever column indexes it. *)
Lemma rep_empty g id indexed :
  rep g id indexed ∅ <->
  (forall rest, g (dataPrefix id ++ rest) = None) /\ (forall rest, g (ixPrefix id ++ rest) = None).
Proof.
  split.
  - intros [_ H2 H3]. split; intros rest.
    + by rewrite H2, lookup_empty.
    + destruct (g (ixPrefix id ++ rest)) as [v|] eqn:E; [|done].
      apply H3 in E as [_ (pk & r & ts & Hl & _)]. by rewrite lookup_empty in Hl.
  - intros [H2 H3]. split.
    + intros pk r. by rewrite lookup_empty.
    + intros rest. by rewrite H2, lookup_empty.
    + intros rest v. rewrite H3. split; [done|].
      intros [_ (pk & r & ts & Hl & _)]. by rewrite lookup_empty in Hl.
Qed.

Lemma rep_no_data g id indexed R :
  rep g id indexed R -> (forall rest, g (dataPrefix id ++ rest) = None) -> R = ∅.
Proof.
  intros [_ H2 _] Hn. apply map_eq. intros pk. rewrite lookup_empty.
  specialize (H2 pk). rewrite Hn in H2. by destruct (R !! pk).
Qed.

(** What the batch holds for one record. *)
Definition row_ops (id : Z) (indexed : gostr) (pk : gostr) (r : Row) : list batch_op :=
  if bytes_eqb indexed [] then [BSet (dataKey id pk) (encodeRow r)]
  else match row_ts indexed r with
       | Some ts => [BSet (indexKey id 1 ts pk) (encodeRow r); BSet (dataKey id pk) (dataPointer ts)]
       | None => []
       end.

Lemma row_ops_within id indexed pk r : in_u32 id -> Forall (op_within (Some id)) (row_ops id indexed pk r).
Proof.
  intros Hid. unfold row_ops. rewrite dataKey_prefix. destruct (bytes_eqb indexed []).
  - constructor; [|done]. rewrite <- (area_data id pk Hid). apply set_within.
  - destruct (row_ts indexed r) as [ts|]; [|done].
    constructor; [rewrite <- (area_index id 1 ts pk Hid); apply set_within|].
    constructor; [|done]. rewrite <- (area_data id pk Hid). apply set_within.
Qed.

Lemma bytes_eqb_dec a b : bytes_eqb a b = bool_decide (a = b).
Proof.
  destruct (bytes_eqb a b) eqn:E.
  - apply bytes_eqb_spec in E as ->. by rewrite bool_decide_true.
  - apply bytes_eqb_neq in E. by rewrite bool_decide_false.
Qed.

(** Writing a row, fresh or over one filed under the same timestamp. *)
Lemma rep_put g id indexed R pk r :
  rep g id indexed R -> row_ok indexed pk r ->
  (forall r0, indexed <> [] -> R !! pk = Some r0 -> row_ts indexed r0 = row_ts indexed r) ->
  rep (fun k => ops_get (row_ops id indexed pk r) k (g k)) id indexed (<[pk := r]> R).
Proof.
  intros [H1 H2 H3] Hok Hsame. unfold row_ops.
  destruct (bytes_eqb indexed []) eqn:Ei.
  - apply bytes_eqb_spec in Ei as ->. split.
    + intros pk' r'. rewrite lookup_insert. case_decide; [by intros [= <-]; subst | by apply H1].
    + intros rest. cbn [ops_get foldl op_get]. rewrite dataKey_prefix, bytes_eqb_dec, lookup_insert, H2.
      case_decide; [subst; by rewrite bool_decide_true|].
      rewrite bool_decide_false; [done|]. by intros E%app_inv_head.
    + intros rest v. cbn [ops_get foldl op_get]. rewrite bytes_eqb_dec, bool_decide_false by done.
      rewrite H3. unfold index_entry. by split; intros [? _].
  - apply bytes_eqb_neq in Ei. destruct Hok as (Hlen & Hst & Hts).
    destruct (Hts Ei) as [ts Ets]. rewrite Ets.
    pose proof (row_ts_range _ _ _ Hst Ets) as Hrange. split.
    + intros pk' r'. rewrite lookup_insert. case_decide; [intros [= <-]; subst; exact (conj Hlen (conj Hst Hts)) | by apply H1].
    + intros rest. cbn [ops_get foldl op_get]. rewrite !bytes_eqb_dec, dataKey_prefix, indexKey_prefix.
      rewrite (bool_decide_false (ixPrefix _ ++ _ = _)) by done. rewrite lookup_insert, H2.
      case_decide as E; [subst; rewrite bool_decide_true by done|].
      * unfold data_value at 1. simpl. unfold data_value.
        by rewrite (proj2 (bytes_eqb_neq _ _) Ei), Ets.
      * rewrite bool_decide_false; [done|]. by intros ?%app_inv_head.
    + intros rest v. cbn [ops_get foldl op_get]. rewrite !bytes_eqb_dec, dataKey_prefix, indexKey_prefix.
      rewrite (bool_decide_false (dataPrefix _ ++ _ = _)) by done.
      destruct (decide (rest = be4 1 ++ PutUint64 (biasInt ts) ++ pk)) as [->|Hne].
      * rewrite bool_decide_true by done. split.
        -- intros [= <-]. split; [done|]. exists pk, r, ts. by rewrite lookup_insert_eq.
        -- intros [_ (pk' & r' & ts' & Hl & Ets' & E & ->)].
           assert (Hst' : row_storable r').
           { rewrite lookup_insert in Hl. case_decide; [by injection Hl as <-|]. by destruct (H1 _ _ Hl) as (_ & ? & _). }
           apply index_rest_inj in E as [<- <-]; [|done|by apply (row_ts_range indexed r')].
           rewrite lookup_insert_eq in Hl. by injection Hl as <-.
      * rewrite bool_decide_false by (by intros ?%app_inv_head). rewrite H3.
        split; intros [_ (pk' & r' & ts' & Hl & Ets' & E & ->)]; (split; [done|]); exists pk', r', ts'.
        -- rewrite lookup_insert_ne; [done|]. intros <-. apply Hne.
           rewrite (Hsame _ Ei Hl), Ets in Ets'. by injection Ets' as <-.
        -- rewrite lookup_insert_ne in Hl; [done|]. intros <-. apply Hne.
           rewrite lookup_insert_eq in Hl. injection Hl as <-. rewrite Ets in Ets'. by injection Ets' as <-.
Qed.

(** Deleting a row together with its index key. *)
Definition row_dels (id : Z) (indexed : gostr) (pk : gostr) (r : Row) : list batch_op :=
  if bytes_eqb indexed [] then [BDelete (dataKey id pk)]
  else match row_ts indexed r with
       | Some ts => [BDelete (indexKey id 1 ts pk); BDelete (dataKey id pk)]
       | None => []
       end.

Lemma row_dels_within id indexed pk r : in_u32 id -> Forall (op_within (Some id)) (row_dels id indexed pk r).
Proof.
  intros Hid. unfold row_dels. rewrite dataKey_prefix. destruct (bytes_eqb indexed []).
  - constructor; [|done]. rewrite <- (area_data id pk Hid). apply delete_within.
  - destruct (row_ts indexed r) as [ts|]; [|done].
    constructor; [rewrite <- (area_index id 1 ts pk Hid); apply delete_within|].
    constructor; [|done]. rewrite <- (area_data id pk Hid). apply delete_within.
Qed.

Lemma rep_delete g id indexed R pk r :
  rep g id indexed R -> R !! pk = Some r ->
  rep (fun k => ops_get (row_dels id indexed pk r) k (g k)) id indexed (delete pk R).
Proof.
  intros [H1 H2 H3] Hpk. unfold row_dels.
  assert (Hrows : forall pk' r', delete pk R !! pk' = Some r' -> row_ok indexed pk' r').
  { intros pk' r'. rewrite lookup_delete_Some. intros [_ ?]. by apply H1. }
  destruct (bytes_eqb indexed []) eqn:Ei.
  - apply bytes_eqb_spec in Ei as ->. split; [done| |].
    + intros rest. cbn [ops_get foldl op_get]. rewrite dataKey_prefix, bytes_eqb_dec, lookup_delete, H2.
      case_decide; [subst; by rewrite bool_decide_true|].
      rewrite bool_decide_false; [done|]. by intros E%app_inv_head.
    + intros rest v. cbn [ops_get foldl op_get]. rewrite bytes_eqb_dec, bool_decide_false by done.
      rewrite H3. unfold index_entry. by split; intros [? _].
  - apply bytes_eqb_neq in Ei. destruct (H1 _ _ Hpk) as (Hlen & Hst & Hts).
    destruct (Hts Ei) as [ts Ets]. rewrite Ets.
    pose proof (row_ts_range _ _ _ Hst Ets) as Hrange. split; [done| |].
    + intros rest. cbn [ops_get foldl op_get]. rewrite !bytes_eqb_dec, dataKey_prefix, indexKey_prefix.
      rewrite (bool_decide_false (ixPrefix _ ++ _ = _)) by done. rewrite lookup_delete, H2.
      case_decide as E; [subst; by rewrite bool_decide_true|].
      rewrite bool_decide_false; [done|]. by intros ?%app_inv_head.
    + intros rest v. cbn [ops_get foldl op_get]. rewrite !bytes_eqb_dec, dataKey_prefix, indexKey_prefix.
      rewrite (bool_decide_false (dataPrefix _ ++ _ = _)) by done.
      destruct (decide (rest = be4 1 ++ PutUint64 (biasInt ts) ++ pk)) as [->|Hne].
      * rewrite bool_decide_true by done. split; [done|].
        intros [_ (pk' & r' & ts' & Hl & Ets' & E & ->)].
        apply lookup_delete_Some in Hl as [Hne Hl]. destruct (H1 _ _ Hl) as (_ & Hst' & _).
        apply index_rest_inj in E as [_ ->]; [done|done|by apply (row_ts_range indexed r')].
      * rewrite bool_decide_false by (by intros ?%app_inv_head). rewrite H3.
        split; intros [_ (pk' & r' & ts' & Hl & Ets' & E & ->)]; (split; [done|]); exists pk', r', ts'.
        -- rewrite lookup_delete_ne; [done|]. intros <-. apply Hne.
           rewrite Hpk in Hl. injection Hl as <-. rewrite Ets in Ets'. by injection Ets' as <-.
        -- by apply lookup_delete_Some in Hl as [_ Hl].
Qed.

(** Several rows, in order. *)
Definition put_row (R : Rows) (pr : gostr * Row) : Rows := <[pr.1 := pr.2]> R.
Definition rows_ops (id : Z) (indexed : gostr) (prs : list (gostr * Row)) : list batch_op :=
  concat (map (fun pr => row_ops id indexed pr.1 pr.2) prs).

(** Every row a batch brings agrees, on the column the set is indexed by,
    with what is stored under its key and with the batch's other rows of
    that key. *)
Definition keys_agree (indexed : gostr) (R : Rows) (prs : list (gostr * Row)) : Prop :=
  forall pk r r0, indexed <> [] -> (pk, r) ∈ prs -> R !! pk = Some r0 \/ (pk, r0) ∈ prs ->
    row_ts indexed r0 = row_ts indexed r.

Lemma rep_ext g g' id indexed R :
  (forall k, g' k = g k) -> rep g id indexed R -> rep g' id indexed R.
Proof.
  intros Hg [H1 H2 H3]. split; [done| |]; intros rest; rewrite Hg; [apply H2 | apply H3].
Qed.

Lemma rep_puts g id indexed R prs :
  rep g id indexed R ->
  Forall (fun pr => row_ok indexed pr.1 pr.2) prs ->
  keys_agree indexed R prs ->
  rep (fun k => ops_get (rows_ops id indexed prs) k (g k)) id indexed (foldl put_row R prs).
Proof.
  intros Hrep Hok. revert g R Hrep. induction Hok as [|[pk r] prs Hr Hprs IH]; intros g R Hrep Hag; [done|].
  cbn [foldl]. unfold rows_ops. cbn [map concat fst snd] in *.
  apply (rep_ext (fun k => ops_get (rows_ops id indexed prs) k (ops_get (row_ops id indexed pk r) k (g k)))).
  { intros k. by rewrite ops_get_app. }
  apply (IH (fun k => ops_get (row_ops id indexed pk r) k (g k)) (put_row R (pk, r))).
  - apply rep_put; [done|done|]. intros r0 Hne Hr0. apply (Hag pk r r0); [done|left|by left].
  - intros pk' r' r0 Hne Hin Hold. apply (Hag pk' r' r0); [done|by right|].
    unfold put_row in Hold. simpl in Hold. rewrite lookup_insert in Hold.
    destruct Hold as [Hold|Hold]; [|right; by right].
    case_decide; [|by left]. subst. injection Hold as ->. right. left.
Qed.

Lemma rows_ops_within id indexed prs : in_u32 id -> Forall (op_within (Some id)) (rows_ops id indexed prs).
Proof.
  intros Hid. unfold rows_ops. apply Forall_concat, Forall_map, Forall_forall.
  intros pr _. by apply row_ops_within.
Qed.

(** Several deletions, of rows the set holds. *)
Definition rows_dels (id : Z) (indexed : gostr) (prs : list (gostr * Row)) : list batch_op :=
  concat (map (fun pr => row_dels id indexed pr.1 pr.2) prs).

Lemma rows_dels_within id indexed prs : in_u32 id -> Forall (op_within (Some id)) (rows_dels id indexed prs).
Proof.
  intros Hid. unfold rows_dels. apply Forall_concat, Forall_map, Forall_forall.
  intros pr _. by apply row_dels_within.
Qed.

Lemma rep_deletes g id indexed R prs :
  rep g id indexed R -> NoDup (prs.*1) -> (forall pk r, (pk, r) ∈ prs -> R !! pk = Some r) ->
  rep (fun k => ops_get (rows_dels id indexed prs) k (g k)) id indexed
      (foldr (fun pr m => delete pr.1 m) R prs).
Proof.
  intros Hrep Hnd Hin.
  enough (forall g R', rep g id indexed R' -> (forall pk r, (pk, r) ∈ prs -> R' !! pk = Some r) ->
    rep (fun k => ops_get (rows_dels id indexed prs) k (g k)) id indexed (foldr (fun pr m => delete pr.1 m) R' prs))
    by (apply H; [done | apply Hin]).
  clear g R Hrep Hin. induction prs as [|[pk r] prs IH]; intros g R Hrep Hin; [done|].
  rewrite fmap_cons in Hnd. apply NoDup_cons in Hnd as [Hnin Hnd].
  cbn [foldr fst]. unfold rows_dels. cbn [map concat fst snd].
  apply (rep_ext (fun k => ops_get (rows_dels id indexed prs) k (ops_get (row_dels id indexed pk r) k (g k)))).
  { intros k. by rewrite ops_get_app. }
  assert (Hcomm : delete pk (foldr (fun (pr : gostr * Row) m => delete pr.1 m) R prs)
                  = foldr (fun (pr : gostr * Row) m => delete pr.1 m) (delete pk R) prs).
  { clear. induction prs as [|p prs IH]; [done|]. cbn [foldr]. rewrite delete_delete. by rewrite IH. }
  rewrite Hcomm. apply (IH Hnd (fun k => ops_get (row_dels id indexed pk r) k (g k))).
  - apply rep_delete; [done|]. apply Hin. left.
  - intros pk' r' Hin'. rewrite lookup_delete_ne; [apply Hin; by right|].
    intros ->. apply Hnin. by apply (list_elem_of_fmap_2 fst) in Hin'.
Qed.

(** The two range deletes of a drop empty the set. *)
Definition drop_ops (id icol : Z) : list batch_op :=
  [BDeleteRange (dataPrefix id) (prefixEnd (dataPrefix id));
   BDeleteRange (indexPrefix id icol) (prefixEnd (indexPrefix id icol))].

Lemma drop_ops_within id icol : in_u32 id -> Forall (op_within (Some id)) (drop_ops id icol).
Proof.
  intros Hid. constructor; [by apply range_data_within|].
  constructor; [by apply range_index_within | done].
Qed.

Lemma rep_drop g id indexed R icol :
  rep g id indexed R -> (indexed <> [] -> icol = 1) ->
  rep (fun k => ops_get (drop_ops id icol) k (g k)) id [] ∅.
Proof.
  intros [H1 H2 H3] Hcol. apply rep_empty. split; intros rest; cbn [ops_get foldl op_get drop_ops].
  - assert (in_range (dataPrefix id) (prefixEnd (dataPrefix id)) (dataPrefix id ++ rest) = true) as ->
      by (apply in_range_prefixEnd; by exists rest).
    by destruct (in_range (indexPrefix _ _) _ _).
  - destruct (in_range (indexPrefix id icol) _ _) eqn:E; [done|].
    destruct (in_range (dataPrefix id) _ _); [done|].
    destruct (g (ixPrefix id ++ rest)) as [v|] eqn:Eg; [|done]. exfalso.
    apply H3 in Eg as [Hne (pk & r & ts & _ & _ & -> & _)]. rewrite (Hcol Hne) in E.
    assert (in_range (indexPrefix id 1) (prefixEnd (indexPrefix id 1))
              (ixPrefix id ++ be4 1 ++ PutUint64 (biasInt ts) ++ pk) = true) as E'; [|congruence].
    apply in_range_prefixEnd. exists (PutUint64 (biasInt ts) ++ pk).
    unfold indexPrefix, ixPrefix. by rewrite <- !app_assoc.
Qed.
