(* ===== verification/EngineInv.v ===== *)
(** * EngineInv: the store's invariant and what setLocked does to it

    [db_inv d A] relates a store to the abstract state [A], a map from set
    name to its rows by primary key.  It also ties the schema in memory to
    the records on disk, so that a restart finds what the process had. *)

From Stdlib Require Import ZArith Lia Bool.
From Stdlib Require Import Strings.Byte Strings.String.
From S2P Require Import Prelude Bytes Float64 GoStd Model EngineKeys EngineCodec EngineDB EngineRep.

(** Text that survives [encoding/json], which rewrites invalid UTF-8. *)
Definition meta_utf8 (sm : setMeta) : Prop :=
  ValidString (sm_Name sm) = true /\ ValidString (sm_Indexed sm) = true /\
  forall k c, sm_Columns sm !! k = Some c -> ValidString k = true /\ ValidString (cs_Name c) = true.

Definition cols_utf8 (cols : list ColumnSpec) : Prop :=
  Forall (fun c => ValidString (cs_Name c) = true) cols.

(** What the engine relies on [encoding/json] for. *)
Class MetaJSONLaws (J : MetaJSON) : Prop := {
  json_roundtrip : forall sm, meta_utf8 sm -> json_Unmarshal (json_Marshal sm) = Some (with_dirty false sm);
}.

Section Inv.
Context `{FloatText} `{J : MetaJSON} `{!MetaJSONLaws J} `{L : LSM} `{!LSMLaws L}.

Abbreviation AStore := (gmap gostr Rows).

Definition recorded_next (g : lookup_fn) : Z :=
  match g nextIDKey with
  | None => 0
  | Some v => if zlen v <? 4 then 0 else Uint32 v
  end.

(** The record on disk may lag a schema that is marked dirty, but never
    in a way that would lose rows on a restart. *)
Definition disk_ok (g : lookup_fn) (sm : setMeta) (R : Rows) : Prop :=
  match g (setKey (sm_Name sm)) with
  | None => R = ∅ /\ sm_dirty sm = true
  | Some v => exists sm0, json_Unmarshal v = Some sm0 /\
      sm_ID sm0 = sm_ID sm /\ sm_Name sm0 = sm_Name sm /\ meta_utf8 sm0 /\
      (sm_Indexed sm0 <> [] -> sm_IndexCol sm0 = 1) /\ in_u32 (sm_IndexCol sm0) /\
      sm_dirty sm0 = false /\
      (sm_Indexed sm0 = sm_Indexed sm \/ R = ∅) /\
      (sm_dirty sm = false -> sm0 = sm)
  end.

Record set_inv (g : lookup_fn) (n : gostr) (sm : setMeta) (R : Rows) : Prop := {
  si_name : sm_Name sm = n;
  si_utf8 : meta_utf8 sm;
  si_id : 0 <= sm_ID sm < recorded_next g;
  si_col : sm_Indexed sm <> [] -> sm_IndexCol sm = 1;
  si_col32 : in_u32 (sm_IndexCol sm);
  si_rep : rep g (sm_ID sm) (sm_Indexed sm) R;
  si_disk : disk_ok g sm R;
}.

Definition holds_id (sets : gmap gostr setMeta) (n : gostr) (id : Z) : Prop :=
  exists sm, sets !! n = Some sm /\ sm_ID sm = id.

Record inv (g : lookup_fn) (sets : gmap gostr setMeta) (byID : gmap Z gostr) (next : Z) (A : AStore) : Prop := {
  inv_next : in_u32 next;
  inv_rec : recorded_next g <= next;
  inv_version : g verKey = Some (PutUint32 currentStorageVersion);
  inv_dom : forall n, is_Some (sets !! n) <-> is_Some (A !! n);
  inv_set : forall n sm R, sets !! n = Some sm -> A !! n = Some R -> set_inv g n sm R;
  inv_inj : forall n1 n2 id, holds_id sets n1 id -> holds_id sets n2 id -> n1 = n2;
  inv_free : forall id, in_u32 id -> (forall n, ~ holds_id sets n id) -> rep g id [] ∅;
  inv_nometa : forall n, sets !! n = None -> g (setKey n) = None;
  inv_byID : forall id n, byID !! id = Some n <-> holds_id sets n id;
}.

Definition db_inv (d : DB) (A : AStore) : Prop :=
  inv (kv_get (d_kv d)) (d_sets d) (d_byID d) (d_nextID d) A.

(** ** Keys of the metadata *)

Lemma setKey_inj n n' : setKey n = setKey n' -> n = n'.
Proof. unfold setKey, metaKey. simpl. intros [= E]. by rewrite !app_nil_r in E. Qed.
Lemma setKey_nextIDKey n : setKey n <> nextIDKey.
Proof. discriminate. Qed.
Lemma setKey_prefix n : metaKey [bs "set"; []] ++ n = setKey n.
Proof. unfold setKey, metaKey. simpl. by rewrite app_nil_r. Qed.

Lemma recorded_Put n : in_u32 n ->
  (if zlen (PutUint32 n) <? 4 then 0 else Uint32 (PutUint32 n)) = n.
Proof.
  intros Hn. unfold zlen, Uint32. change (PutUint32 n) with (be4 n). rewrite length_be4. simpl Z.ltb. cbv iota.
  rewrite <- (app_nil_r (be4 n)). by apply be_val_be4.
Qed.

Lemma inv_rep g sets byID next A n sm R :
  inv g sets byID next A -> sets !! n = Some sm -> A !! n = Some R -> in_u32 (sm_ID sm).
Proof.
  intros Hi Hs HA. destruct (si_id _ _ _ _ (inv_set _ _ _ _ _ Hi _ _ _ Hs HA)).
  pose proof (inv_rec _ _ _ _ _ Hi). pose proof (inv_next _ _ _ _ _ Hi). mlia.
Qed.

(** The abstract state follows the maps. *)
Lemma inv_lookup g sets byID next A n sm :
  inv g sets byID next A -> sets !! n = Some sm -> exists R, A !! n = Some R /\ set_inv g n sm R.
Proof.
  intros Hi Hs. destruct (proj1 (inv_dom _ _ _ _ _ Hi n)) as [R HR]; [by exists sm|].
  exists R. split; [done|]. by apply Hi.
Qed.

Lemma inv_id32 g sets byID next A n sm :
  inv g sets byID next A -> sets !! n = Some sm -> in_u32 (sm_ID sm).
Proof. intros Hi Hs. destruct (inv_lookup _ _ _ _ _ _ _ Hi Hs) as (R & HR & _). by eapply inv_rep. Qed.

(** ** Stepping through an operation *)

Definition wp {A} (m : M A) (Q : result db_err A -> DB -> Prop) (d : DB) : Prop := Q (m d).1 (m d).2.

Lemma wp_ret {A} (a : A) Q d : Q (Ok a) d -> wp (mret a) Q d.
Proof. done. Qed.
Lemma wp_fail {A} e Q d : Q (Err e) d -> wp (fail e : M A) Q d.
Proof. done. Qed.
Lemma wp_bind {A B} (m : M A) (k : A -> M B) Q d :
  wp m (fun r d' => match r with Ok a => wp (k a) Q d' | Err e => Q (Err e) d' end) d -> wp (m ≫= k) Q d.
Proof. unfold wp, mbind, M_bind. by destruct (m d) as [[a|e] d']. Qed.
Lemma wp_get_db Q d : Q (Ok d) d -> wp get_db Q d.
Proof. done. Qed.
Lemma wp_modify f Q d : Q (Ok tt) (f d) -> wp (modify f) Q d.
Proof. done. Qed.
Lemma wp_on_err {A} (m : M A) h Q d :
  wp m (fun r d' => match r with Ok a => Q (Ok a) d' | Err e => Q (Err e) (h d') end) d -> wp (on_err m h) Q d.
Proof. unfold wp, on_err. by destruct (m d) as [[a|e] d']. Qed.
Lemma wp_mono {A} (m : M A) (P Q : result db_err A -> DB -> Prop) d :
  wp m P d -> (forall r d', P r d' -> Q r d') -> wp m Q d.
Proof. unfold wp. auto. Qed.

(** Two stores that differ in the pending faults alone; with none pending
    none appear. *)
Definition same_but_faults (d d' : DB) : Prop :=
  exists f, d' = set_faults f d /\ (d_faults d = [] -> f = []).

Lemma same_refl d : same_but_faults d d.
Proof. exists (d_faults d). split; [by destruct d | done]. Qed.
Lemma same_trans d1 d2 d3 : same_but_faults d1 d2 -> same_but_faults d2 d3 -> same_but_faults d1 d3.
Proof.
  intros (f & -> & Hf) (f' & -> & Hf'). exists f'. split; [done|]. intros E. by apply Hf', Hf.
Qed.

Lemma wp_pebble_call Q d :
  (forall d', same_but_faults d d' -> Q (Ok tt) d') ->
  (d_faults d <> [] -> forall d', same_but_faults d d' -> Q (Err ErrPebble) d') ->
  wp pebble_call Q d.
Proof.
  intros Hok Herr. unfold wp, pebble_call. destruct (d_faults d) as [|[] f] eqn:E; simpl.
  - apply Hok, same_refl.
  - apply Herr; [done|]. exists f. by rewrite E.
  - apply Hok. exists f. by rewrite E.
Qed.

Lemma wp_pdb_Get k Q d :
  (forall d', same_but_faults d d' -> Q (Ok (kv_get (d_kv d) k)) d') ->
  (d_faults d <> [] -> forall d', same_but_faults d d' -> Q (Err ErrPebble) d') ->
  wp (pdb_Get k) Q d.
Proof.
  intros Hok Herr. apply wp_bind, wp_pebble_call; [|done].
  intros d' (f & -> & Hf). apply (Hok (set_faults f d)). by exists f.
Qed.

Lemma wp_pdb_Apply ops Q d :
  (forall d', same_but_faults d d' -> Q (Ok tt) (set_kv (kv_apply (d_kv d) ops) d')) ->
  (d_faults d <> [] -> forall d', same_but_faults d d' -> Q (Err ErrPebble) d') ->
  wp (pdb_Apply ops) Q d.
Proof.
  intros Hok Herr. apply wp_bind, wp_pebble_call; [|done].
  intros d' (f & -> & Hf). apply (Hok (set_faults f d)). by exists f.
Qed.

Lemma wp_pdb_Iter lo hi Q d :
  (forall d', same_but_faults d d' -> Q (Ok (kv_scan (d_kv d) lo hi)) d') ->
  (d_faults d <> [] -> forall d', same_but_faults d d' -> Q (Err ErrPebble) d') ->
  wp (pdb_Iter lo hi) Q d.
Proof.
  intros Hok Herr. apply wp_bind, wp_pebble_call; [|done].
  intros d1 H1. apply wp_bind, wp_get_db, wp_bind, wp_pebble_call.
  - intros d2 H2. apply wp_ret. destruct H1 as (f & -> & Hf). apply (Hok d2).
    eapply same_trans; [|exact H2]. by exists f.
  - intros Hf d2 H2. apply Herr; [|by eapply same_trans].
    intros E. apply Hf. destruct H1 as (f & -> & Hf'). by apply Hf'.
Qed.

Lemma same_inv d d' A : same_but_faults d d' -> db_inv d A -> db_inv d' A.
Proof. by intros (f & -> & _). Qed.
Lemma same_faults d d' : same_but_faults d d' -> d_faults d' <> [] -> d_faults d <> [].
Proof. intros (f & -> & Hf) Hne E. by apply Hne, Hf. Qed.

(** ** What each write does to the invariant *)

Lemma ops_get_set k v k' o : ops_get [BSet k v] k' o = if decide (k = k') then Some v else o.
Proof. cbn [ops_get foldl op_get]. rewrite bytes_eqb_dec. by repeat case_decide. Qed.

Lemma recorded_other g g' : g' nextIDKey = g nextIDKey -> recorded_next g' = recorded_next g.
Proof. unfold recorded_next. by intros ->. Qed.

Lemma disk_ok_other g g' sm R : g' (setKey (sm_Name sm)) = g (setKey (sm_Name sm)) -> disk_ok g sm R -> disk_ok g' sm R.
Proof. unfold disk_ok. by intros ->. Qed.

Lemma area_setKey n : area (setKey n) = None.
Proof. done. Qed.
Lemma area_nextIDKey : area nextIDKey = None.
Proof. done. Qed.

Lemma set_inv_meta g g' n sm R :
  (forall id k, area k = Some id -> g' k = g k) -> in_u32 (sm_ID sm) ->
  recorded_next g <= recorded_next g' -> g' (setKey n) = g (setKey n) ->
  set_inv g n sm R -> set_inv g' n sm R.
Proof.
  intros Ha Hid Hrec Hk []. split; try done.
  - lia.
  - eapply rep_frame; [|done|done]. intros k. apply Ha.
  - eapply disk_ok_other; [|done]. by rewrite si_name0.
Qed.

(** Replacing a schema by one of the same id moves no id. *)
Lemma holds_id_insert sets n sm sm' n' id :
  sets !! n = Some sm -> sm_ID sm' = sm_ID sm ->
  holds_id (<[n := sm']> sets) n' id <-> holds_id sets n' id.
Proof.
  intros Hs Hid. unfold holds_id. rewrite lookup_insert. case_decide as E; [|done]. subst n'.
  rewrite Hs. split; intros (sm1 & [= <-] & <-); eauto.
Qed.

(** A schema changed in memory and marked dirty. *)
Lemma inv_update g sets byID next A n sm sm' R :
  inv g sets byID next A -> sets !! n = Some sm -> A !! n = Some R ->
  sm_ID sm' = sm_ID sm -> sm_Name sm' = sm_Name sm -> meta_utf8 sm' ->
  (sm_Indexed sm' = sm_Indexed sm /\ sm_IndexCol sm' = sm_IndexCol sm \/ R = ∅ /\ sm_IndexCol sm' = 1) ->
  sm_dirty sm' = true ->
  inv g (<[n := sm']> sets) byID next A.
Proof.
  intros Hi Hs HA Hid Hname Hutf Hidx Hdirty. pose proof Hi as []. split; try done.
  - intros n'. rewrite lookup_insert. case_decide as E; [|done]. subst.
    split; [by rewrite HA|]. by intros _.
  - intros n' sm1 R1. rewrite lookup_insert. case_decide as E; [|apply inv_set0].
    subst n'. intros [= <-] HR1. rewrite HA in HR1. injection HR1 as <-.
    destruct (inv_set0 _ _ _ Hs HA). split; try done.
    + congruence.
    + by rewrite Hid.
    + destruct Hidx as [[-> ->]|[_ ?]]; done.
    + destruct Hidx as [[_ ->]|[_ ->]]; [done | mlia].
    + rewrite Hid. destruct Hidx as [[-> _]|[-> _]]; [done|].
      apply rep_empty. by apply (rep_empty _ _ (sm_Indexed sm)).
    + unfold disk_ok in *. rewrite Hname, Hid. destruct (g (setKey (sm_Name sm))) as [v|].
      * destruct si_disk0 as (sm0 & ? & ? & ? & ? & ? & ? & ? & Hix & ?).
        exists sm0. repeat (split; [done|]). split; [|by rewrite Hdirty].
        destruct Hidx as [[-> _]|[-> _]]; [done | by right].
      * by destruct si_disk0.
  - intros n1 n2 id. rewrite !(holds_id_insert _ _ sm) by done. apply inv_inj0.
  - intros id Hid' Hfree. apply inv_free0; [done|]. intros n' Hh.
    apply (Hfree n'). by rewrite (holds_id_insert _ _ sm).
  - intros n'. rewrite lookup_insert. case_decide; [done|]. apply inv_nometa0.
  - intros id n'. by rewrite (holds_id_insert _ _ sm).
Qed.

(** The meta record of a schema reaches the disk. *)
Lemma inv_persist g g' sets byID next A n sm :
  inv g sets byID next A -> sets !! n = Some sm ->
  (forall k, g' k = ops_get [BSet (setKey n) (json_Marshal sm)] k (g k)) ->
  inv g' (<[n := with_dirty false sm]> sets) byID next A.
Proof.
  intros Hi Hs Hg. destruct (inv_lookup _ _ _ _ _ _ _ Hi Hs) as (R & HA & Hsm).
  assert (Hn : sm_Name sm = n) by apply Hsm.
  assert (Harea : forall id k, area k = Some id -> g' k = g k).
  { intros id k Hk. rewrite Hg. rewrite ops_get_set.
    rewrite decide_False; [done|]. intros <-. done. }
  assert (Hrec : recorded_next g' = recorded_next g).
  { apply recorded_other. rewrite Hg. rewrite ops_get_set.
    by rewrite decide_False. }
  assert (Hoth : forall n', n' <> n -> g' (setKey n') = g (setKey n')).
  { intros n' Hne. rewrite Hg. rewrite ops_get_set, decide_False; [done|].
    intros E%setKey_inj. by subst. }
  assert (Hself : g' (setKey n) = Some (json_Marshal sm)).
  { rewrite Hg. by rewrite ops_get_set, decide_True. }
  pose proof Hi as []. split; try done.
  - by rewrite Hrec.
  - by rewrite Hg, ops_get_set, decide_False.
  - intros n'. rewrite lookup_insert. case_decide as E; [|done]. subst n'.
    split; [by rewrite HA|]. by intros _.
  - intros n' sm1 R1. rewrite lookup_insert. case_decide as E.
    + subst n'. intros [= <-] HR1. rewrite HA in HR1. injection HR1 as <-. destruct Hsm. split; try done.
      * by rewrite Hrec.
      * cbn [sm_ID sm_Indexed with_dirty]. eapply rep_frame; [apply Harea| |done].
        eapply inv_id32; [exact Hi|exact Hs].
      * unfold disk_ok. cbn [sm_Name with_dirty]. rewrite Hn, Hself. exists (with_dirty false sm).
        split; [by apply json_roundtrip|]. repeat (split; [done|]). split; [by left | done].
    + intros Hs1 HR1. eapply set_inv_meta; [exact Harea| |by rewrite Hrec|apply Hoth; congruence|by apply inv_set0].
      eapply inv_id32; [exact Hi|exact Hs1].
  - intros n1 n2 id. rewrite !(holds_id_insert _ _ sm) by done. apply inv_inj0.
  - intros id Hid' Hfree. eapply rep_frame; [apply Harea|done|]. apply inv_free0; [done|].
    intros n' Hh. apply (Hfree n'). by rewrite (holds_id_insert _ _ sm).
  - intros n'. rewrite lookup_insert. case_decide; [done|]. intros Hn'.
    rewrite Hoth by congruence. by apply inv_nometa0.
  - intros id n'. by rewrite (holds_id_insert _ _ sm).
Qed.

(** Writes that touch neither rows nor metadata. *)
Lemma inv_elsewhere g g' sets byID next A :
  inv g sets byID next A ->
  (forall id k, area k = Some id -> g' k = g k) ->
  g' nextIDKey = g nextIDKey -> g' verKey = g verKey -> (forall n, g' (setKey n) = g (setKey n)) ->
  inv g' sets byID next A.
Proof.
  intros Hi Ha Hn Hv Hk. pose proof (recorded_other _ _ Hn) as Hrec. pose proof Hi as []. split; try done.
  - by rewrite Hrec.
  - by rewrite Hv.
  - intros n sm R Hs HA. eapply set_inv_meta; [exact Ha| |by rewrite Hrec|apply Hk|by apply inv_set0].
    eapply inv_id32; [exact Hi|exact Hs].
  - intros id Hid Hfree. eapply rep_frame; [apply Ha|done|]. by apply inv_free0.
  - intros n Hs. rewrite Hk. by apply inv_nometa0.
Qed.

(** The counter advanced without a set to show for it: an id is burnt. *)
Lemma inv_burn g sets byID next A :
  inv g sets byID next A -> in_u32 (next + 1) -> inv g sets byID (next + 1) A.
Proof. intros [] Hn. split; try done. lia. Qed.

Lemma id_unused g sets byID next A n : inv g sets byID next A -> ~ holds_id sets n next.
Proof.
  intros Hi (sm & Hs & <-). destruct (inv_lookup _ _ _ _ _ _ _ Hi Hs) as (R & _ & Hsm).
  pose proof (si_id _ _ _ _ Hsm). pose proof (inv_rec _ _ _ _ _ Hi). lia.
Qed.

Lemma byID_fresh g sets byID next A : inv g sets byID next A -> byID !! next = None.
Proof.
  intros Hi. destruct (byID !! next) as [n|] eqn:E; [|done].
  apply (inv_byID _ _ _ _ _ Hi) in E. by apply (id_unused _ _ _ _ _ _ Hi) in E.
Qed.

(** A set created and its id recorded. *)
Lemma inv_create g g' sets byID next A name :
  inv g sets byID next A -> in_u32 (next + 1) -> sets !! name = None -> ValidString name = true ->
  (forall k, g' k = ops_get [BSet nextIDKey (PutUint32 (next + 1))] k (g k)) ->
  inv g' (<[name := with_dirty true (empty_meta next name)]> sets) (<[next := name]> byID) (next + 1)
      (<[name := ∅]> A).
Proof.
  intros Hi Hnext Hnone Hutf Hg.
  assert (Harea : forall id k, area k = Some id -> g' k = g k).
  { intros id k Hk. rewrite Hg, ops_get_set, decide_False; [done|]. by intros <-. }
  assert (Hsk : forall n, g' (setKey n) = g (setKey n)).
  { intros n. rewrite Hg, ops_get_set, decide_False; [done|]. intros E. by apply (setKey_nextIDKey n). }
  assert (Hrec : recorded_next g' = next + 1).
  { unfold recorded_next. rewrite Hg, ops_get_set, decide_True by done. by apply recorded_Put. }
  pose proof Hi as [].
  assert (Hh : forall n id, holds_id (<[name := with_dirty true (empty_meta next name)]> sets) n id
                <-> (n = name /\ id = next) \/ holds_id sets n id).
  { intros n id. unfold holds_id. rewrite lookup_insert. case_decide as E.
    - subst n. rewrite Hnone. split.
      + intros (sm & [= <-] & <-). by left.
      + intros [[_ ->]|(sm & [=] & _)]. by eexists.
    - split; [by right|]. by intros [[-> _]|?]. }
  split; try done.
  - by rewrite Hrec.
  - by rewrite Hg, ops_get_set, decide_False.
  - intros n. rewrite !lookup_insert. case_decide; [|done]. by split.
  - intros n sm R. rewrite !lookup_insert. case_decide as E.
    + intros [= <-] [= <-]. subst n. split; try done.
      * cbn [sm_ID with_dirty empty_meta]. rewrite Hrec. mlia.
      * cbn [sm_ID sm_Indexed with_dirty empty_meta]. eapply rep_frame; [apply Harea|done|].
        apply inv_free0; [done|]. intros n. by eapply id_unused.
      * unfold disk_ok. cbn [sm_Name with_dirty empty_meta sm_dirty]. by rewrite Hsk, inv_nometa0.
    + intros Hs HA. eapply set_inv_meta; [exact Harea| | |apply Hsk|by apply inv_set0].
      * eapply inv_id32; [exact Hi|exact Hs].
      * lia.
  - intros n1 n2 id [[-> ->]|H1]%Hh [[-> E]|H2]%Hh; [done| | |by eapply inv_inj0].
    + by apply (id_unused _ _ _ _ _ _ Hi) in H2.
    + rewrite E in H1. by apply (id_unused _ _ _ _ _ _ Hi) in H1.
  - intros id Hid Hfree. eapply rep_frame; [apply Harea|done|]. apply inv_free0; [done|].
    intros n Hn. apply (Hfree n), Hh. by right.
  - intros n. rewrite lookup_insert, Hsk. case_decide; [done|]. apply inv_nometa0.
  - intros id n. rewrite Hh, lookup_insert. case_decide as E; [subst id|].
    + split; [intros [= ->]; by left|]. intros [[-> _]|Hb]; [done|].
      by apply (id_unused _ _ _ _ _ _ Hi) in Hb.
    + rewrite inv_byID0. split; [by right|]. by intros [[_ ->]|?].
Qed.

(** Rows of one set rewritten. *)
Lemma inv_rows g g' sets byID next A n sm R R' :
  inv g sets byID next A -> sets !! n = Some sm -> A !! n = Some R ->
  (forall k, area k <> Some (sm_ID sm) -> g' k = g k) ->
  rep g' (sm_ID sm) (sm_Indexed sm) R' ->
  (sm_dirty sm = false \/ (R = ∅ -> R' = ∅)) ->
  inv g' sets byID next (<[n := R']> A).
Proof.
  intros Hi Hs HA Hg Hrep Hdirty. pose proof Hi as [].
  pose proof (inv_id32 _ _ _ _ _ _ _ Hi Hs) as Hid.
  assert (Hrec : recorded_next g' = recorded_next g) by (apply recorded_other; by apply Hg).
  assert (Hsk : forall k, g' (setKey k) = g (setKey k)) by (intros k; by apply Hg).
  split; try done.
  - by rewrite Hrec.
  - by rewrite Hg.
  - intros n'. rewrite lookup_insert. case_decide; [subst|done]. by rewrite Hs.
  - intros n' sm1 R1 Hs1. rewrite lookup_insert. case_decide as E.
    + subst n'. intros [= <-]. rewrite Hs in Hs1. injection Hs1 as <-.
      destruct (inv_set0 _ _ _ Hs HA). split; try done.
      * by rewrite Hrec.
      * unfold disk_ok in *. rewrite Hsk. destruct (g (setKey (sm_Name sm))) as [v|].
        -- destruct si_disk0 as (sm0 & ? & ? & ? & ? & ? & ? & ? & Hix & Heq).
           exists sm0. repeat (split; [done|]). split; [|done].
           destruct Hdirty as [Hd|HR]; [left; by rewrite Heq|].
           destruct Hix as [?|?]; [by left | right; by apply HR].
        -- destruct si_disk0 as [HR Hd]. split; [|done].
           destruct Hdirty as [Hd'|HR']; [congruence | by apply HR'].
    + intros HA1. pose proof (inv_id32 _ _ _ _ _ _ _ Hi Hs1) as Hid1.
      destruct (inv_set0 _ _ _ Hs1 HA1). split; try done.
      * by rewrite Hrec.
      * eapply rep_frame; [|done|done]. intros k Hk. apply Hg. rewrite Hk. intros [= Heq].
        apply E. apply (inv_inj0 n n' (sm_ID sm)); [by exists sm | by exists sm1].
      * eapply disk_ok_other; [|done]. apply Hsk.
  - intros id Hid' Hfree. eapply rep_frame; [|done|by apply inv_free0].
    intros k Hk. apply Hg. rewrite Hk. intros [= ->]. apply (Hfree n). by exists sm.
  - intros n' Hn'. rewrite Hsk. by apply inv_nometa0.
Qed.

(** A set and its record gone. *)
Lemma inv_drop g g' sets byID next A n sm :
  inv g sets byID next A -> sets !! n = Some sm ->
  (forall k, g' k = ops_get (drop_ops (sm_ID sm) (sm_IndexCol sm) ++ [BDelete (setKey n)]) k (g k)) ->
  inv g' (delete n sets) (delete (sm_ID sm) byID) next (delete n A).
Proof.
  intros Hi Hs Hg. pose proof (inv_id32 _ _ _ _ _ _ _ Hi Hs) as Hid. pose proof Hi as [].
  destruct (inv_lookup _ _ _ _ _ _ _ Hi Hs) as (R & HA & Hsm).
  assert (Hdel : forall k o, ops_get [BDelete (setKey n)] k o = if decide (setKey n = k) then None else o).
  { intros k o. cbn [ops_get foldl op_get]. rewrite bytes_eqb_dec. by repeat case_decide. }
  assert (Hout : forall k, area k <> Some (sm_ID sm) -> k <> setKey n -> g' k = g k).
  { intros k Hk Hne. rewrite Hg, ops_get_app, Hdel, decide_False by congruence.
    eapply ops_outside; [by apply drop_ops_within | done]. }
  assert (Hrec : recorded_next g' = recorded_next g).
  { apply recorded_other. apply Hout; [done|]. intros E. by apply (setKey_nextIDKey n). }
  assert (Hh : forall n' id, holds_id (delete n sets) n' id <-> n' <> n /\ holds_id sets n' id).
  { intros n' id. unfold holds_id. rewrite lookup_delete. case_decide as E.
    - subst. split; [by intros (? & [=] & _) | by intros [? _]].
    - split; [by split|]. by intros [_ ?]. }
  assert (Hin : rep g' (sm_ID sm) [] ∅).
  { eapply rep_frame; [|exact Hid|].
    2: { eapply rep_drop; [apply Hsm | apply Hsm]. }
    intros k Hk. rewrite Hg, ops_get_app, Hdel, decide_False; [done|]. by intros <-. }
  split; try done.
  - by rewrite Hrec.
  - by rewrite Hout.
  - intros n'. rewrite !lookup_delete. by case_decide.
  - intros n' sm1 R1. rewrite !lookup_delete. case_decide as E; [done|]. intros Hs1 HA1.
    pose proof (inv_id32 _ _ _ _ _ _ _ Hi Hs1) as Hid1.
    destruct (inv_set0 _ _ _ Hs1 HA1). split; try done.
    + by rewrite Hrec.
    + eapply rep_frame; [|done|done]. intros k Hk. apply Hout; [|by intros ->].
      rewrite Hk. intros [= Heq]. apply E. apply (inv_inj0 n n' (sm_ID sm)); [by exists sm | by exists sm1].
    + eapply disk_ok_other; [|done]. apply Hout; [done|]. rewrite si_name0. intros ?%setKey_inj. congruence.
  - intros n1 n2 id [_ H1]%Hh [_ H2]%Hh. by eapply inv_inj0.
  - intros id Hid' Hfree. destruct (decide (id = sm_ID sm)) as [->|Hne]; [done|].
    eapply rep_frame; [|done|apply inv_free0; [done|]].
    + intros k Hk. apply Hout; [congruence | by intros ->].
    + intros n' Hn'. apply (Hfree n'), Hh. split; [|done]. intros ->.
      destruct Hn' as (sm1 & H1 & <-). congruence.
  - intros n'. rewrite lookup_delete. case_decide as E.
    + intros _. subst. by rewrite Hg, ops_get_app, Hdel, decide_True.
    + intros Hn'. rewrite Hout; [by apply inv_nometa0|done|]. intros ?%setKey_inj. congruence.
  - intros id n'. rewrite Hh, lookup_delete. case_decide as E.
    + subst id. split; [done|]. intros [Hne Hh']. exfalso. apply Hne.
      apply (inv_inj0 n' n (sm_ID sm)); [done | by exists sm].
    + rewrite inv_byID0. split; [|by intros [_ ?]]. intros Hn'. split; [|done].
      intros ->. destruct Hn' as (sm1 & H1 & <-). congruence.
Qed.
End Inv.
