(* ===== verification/EngineSchema.v ===== *)
(** * EngineSchema: registering sets and widening schemas

    [setLocked] keeps the invariant on every path, failures included: a
    schema only widens, a set holding unindexed rows gains no index, a new
    set takes an id never handed out before. *)

From Stdlib Require Import ZArith Lia Bool.
From Stdlib Require Import Strings.Byte Strings.String.
From S2P Require Import Prelude Bytes Float64 GoStd Model EngineKeys EngineCodec EngineDB EngineRep.
From S2P Require Import EngineInv.

(** A column as a later schema may hold it. *)
Definition column_le (c c' : ColumnSpec) : Prop :=
  cs_Name c' = cs_Name c /\ cs_Indexed c' = cs_Indexed c /\
  (cs_Type c' = cs_Type c \/ cs_Type c = TypeInt /\ cs_Type c' = TypeFloat).

Record schema_le (sm sm' : setMeta) : Prop := {
  sl_id : sm_ID sm' = sm_ID sm;
  sl_name : sm_Name sm' = sm_Name sm;
  sl_index : sm_Indexed sm <> [] -> sm_Indexed sm' = sm_Indexed sm /\ sm_IndexCol sm' = sm_IndexCol sm;
  sl_cols : forall k c, sm_Columns sm !! k = Some c ->
    exists c', sm_Columns sm' !! k = Some c' /\ column_le c c';
}.

#[export] Instance column_le_preorder : PreOrder column_le.
Proof.
  split; [by intros c; repeat split; left|].
  intros c1 c2 c3 (Hn & Hi & Ht) (Hn' & Hi' & Ht'). repeat split; [congruence|congruence|].
  destruct Ht as [Ht|[Ht1 Ht2]], Ht' as [Ht'|[Ht1' Ht2']].
  - left. congruence.
  - right. split; congruence.
  - right. split; congruence.
  - exfalso. rewrite Ht1' in Ht2. done.
Qed.

#[export] Instance schema_le_preorder : PreOrder schema_le.
Proof.
  split; [intros sm; split; [done|done|done|]; intros k c Hc; by exists c|].
  intros s1 s2 s3 [] []. split; [congruence|congruence| |].
  - intros Hne. destruct (sl_index0 Hne) as [E1 E2]. rewrite <- E1, <- E2.
    apply sl_index1. by rewrite E1.
  - intros k c Hc. destruct (sl_cols0 _ _ Hc) as (c' & Hc' & H1).
    destruct (sl_cols1 _ _ Hc') as (c'' & Hc'' & H2). exists c''. split; [done|]. by etransitivity.
Qed.

Section Schema.
Context `{FloatText} `{J : MetaJSON} `{!MetaJSONLaws J} `{L : LSM} `{!LSMLaws L}.

Abbreviation AStore := (gmap gostr Rows).

(** What a schema operation leaves alone. *)
Record quiet (d d' : DB) : Prop := {
  q_stats : d_stats d' = d_stats d;
  q_closed : d_closed d' = d_closed d;
  q_faults : d_faults d = [] -> d_faults d' = [];
}.
#[global] Instance quiet_preorder : PreOrder quiet.
Proof.
  split; [by intros d; split|]. intros d1 d2 d3 [] []. split; [congruence|congruence|auto].
Qed.
Lemma same_quiet d d' : same_but_faults d d' -> quiet d d'.
Proof. intros (f & -> & Hf). by split. Qed.

(** The other sets, untouched. *)
Definition others (name : gostr) (d d' : DB) : Prop :=
  forall n, n <> name -> d_sets d' !! n = d_sets d !! n.

(** The column a set is indexed by was so before, or is one of those the
    call declares as indexed. *)
Definition index_origin (cols : list ColumnSpec) (sm sm' : setMeta) : Prop :=
  sm_Indexed sm' = sm_Indexed sm \/
  exists c, c ∈ cols /\ cs_Indexed c = true /\ sm_Indexed sm' = cs_Name c.

(** The one refusal that is not the LSM's. *)
Definition gain_refused (name : gostr) (cols : list ColumnSpec) (sm : setMeta) (R : Rows) (e : db_err) : Prop :=
  exists c, c ∈ cols /\ e = ErrCannotGainIndex name (cs_Name c) /\ cs_Indexed c = true /\
    sm_Indexed sm = [] /\ R <> ∅.

Definition columns_post (name : gostr) (cols : list ColumnSpec) (d : DB) (sm : setMeta) (A : AStore) (R : Rows)
    (r : result db_err setMeta) (d' : DB) : Prop :=
  quiet d d' /\ db_inv d' A /\ others name d d' /\ d_kv d' = d_kv d /\ d_nextID d' = d_nextID d /\
  (exists sm', d_sets d' !! name = Some sm' /\ schema_le sm sm' /\ (R = ∅ \/ sm_Indexed sm' = sm_Indexed sm)) /\
  match r with
  | Ok sm' => d_sets d' !! name = Some sm' /\ index_origin cols sm sm' /\ schema_le sm sm' /\
      Forall (fun c => is_Some (sm_Columns sm' !! cs_Name c)) cols
  | Err e => (d_faults d <> [] /\ e = ErrPebble) \/ gain_refused name cols sm R e
  end.

Lemma with_column_utf8 k c sm :
  meta_utf8 sm -> ValidString k = true -> ValidString (cs_Name c) = true -> meta_utf8 (with_column k c sm).
Proof.
  intros (H1 & H2 & H3) Hk Hc. split; [done|]. split; [done|]. intros k' c'. cbn [sm_Columns with_column].
  rewrite lookup_insert. case_decide; [by intros [= <-]; subst | apply H3].
Qed.

Lemma scan_empty_prefix k p :
  kv_scan k p (prefixEnd p) = [] -> forall rest, kv_get k (p ++ rest) = None.
Proof.
  intros E rest. destruct (kv_get k (p ++ rest)) as [v|] eqn:Eg; [|done].
  assert ((p ++ rest, v) ∈ kv_scan k p (prefixEnd p)) as Hin.
  { apply kv_scan_elem. split; [|done]. apply in_range_prefixEnd. by exists rest. }
  rewrite E in Hin. by apply not_elem_of_nil in Hin.
Qed.

Lemma schema_le_with_column k c sm :
  (forall c0, sm_Columns sm !! k = Some c0 -> column_le c0 c) -> schema_le sm (with_column k c sm).
Proof.
  intros Hc. split; [done|done|done|]. intros k' c0 Hk. cbn [sm_Columns with_column]. rewrite lookup_insert.
  case_decide as E; [|by exists c0]. exists c. split; [done|]. apply Hc. by rewrite E.
Qed.
Lemma schema_le_with_index c sm : sm_Indexed sm = [] -> schema_le sm (with_index c sm).
Proof. intros E. split; [done|done|done|]. intros k c0 Hk. by exists c0. Qed.

(** Storing a widened schema. *)
Lemma store_meta_wp name cols d sm sm' A R :
  db_inv d A -> d_sets d !! name = Some sm -> A !! name = Some R ->
  meta_utf8 sm' -> schema_le sm sm' -> sm_dirty sm' = true ->
  (sm_Indexed sm' = sm_Indexed sm /\ sm_IndexCol sm' = sm_IndexCol sm \/ R = ∅ /\ sm_IndexCol sm' = 1) ->
  index_origin cols sm sm' -> Forall (fun c => is_Some (sm_Columns sm' !! cs_Name c)) cols ->
  wp (store_meta sm') (columns_post name cols d sm A R) d.
Proof.
  intros Hi Hs HA Hutf Hle Hdirty Hidx Horig Hcols.
  destruct (inv_lookup _ _ _ _ _ _ _ Hi Hs) as (R' & HA' & Hsm).
  assert (Hn : sm_Name sm' = name) by (rewrite (sl_name _ _ Hle); apply Hsm).
  unfold store_meta. rewrite Hn. apply wp_bind, wp_modify, wp_ret. split; [done|]. split.
  - unfold db_inv. simpl. eapply inv_update; [exact Hi|exact Hs|exact HA| | |done|exact Hidx|done]; apply Hle.
  - split; [intros n Hne; simpl; by rewrite lookup_insert_ne|]. split; [done|]. split; [done|].
    simpl. rewrite lookup_insert_eq. split.
    + exists sm'. split; [done|]. split; [done|]. destruct Hidx as [[? _]|[? _]]; [by right | by left].
    + done.
Qed.

Lemma columns_post_same name cols d d1 d2 sm A R r :
  same_but_faults d d1 -> columns_post name cols d1 sm A R r d2 -> columns_post name cols d sm A R r d2.
Proof.
  intros Hsame (H1 & H2 & H3 & H4 & H5 & H6 & H7).
  split; [etransitivity; [by apply same_quiet | done]|]. destruct Hsame as (f & -> & Hf). repeat (split; [done|]). destruct r as [sm'|e]; [done|].
  destruct H7 as [[Hne ?]|?]; [left; split; [|done]|by right]. intros E. by apply Hne, Hf.
Qed.

Lemma columns_post_id name cols d sm A R :
  db_inv d A -> d_sets d !! name = Some sm -> Forall (fun c => is_Some (sm_Columns sm !! cs_Name c)) cols ->
  columns_post name cols d sm A R (Ok sm) d.
Proof.
  intros Hi Hs Hc. split; [done|]. split; [done|]. split; [by intros ?|]. split; [done|]. split; [done|].
  split; [exists sm; split; [done|]; split; [done|]; by right|].
  split; [done|]. split; [by left|]. by split.
Qed.

Lemma columns_post_err name cols d d' sm A R e :
  db_inv d A -> d_sets d !! name = Some sm -> same_but_faults d d' ->
  (d_faults d <> [] /\ e = ErrPebble) \/ gain_refused name cols sm R e ->
  columns_post name cols d sm A R (Err e) d'.
Proof.
  intros Hi Hs Hsame He. split; [by apply same_quiet|]. destruct Hsame as (f & -> & Hf).
  split; [done|]. split; [by intros ?|]. split; [done|]. split; [done|]. split; [|done].
  exists sm. split; [done|]. split; [done|]. by right.
Qed.

Lemma add_column_wp name created c d sm A R :
  db_inv d A -> d_sets d !! name = Some sm -> A !! name = Some R ->
  (created = true -> R = ∅) -> ValidString (cs_Name c) = true ->
  wp (add_column created sm c) (columns_post name [c] d sm A R) d.
Proof.
  intros Hi Hs HA Hcr Hutf. destruct (inv_lookup _ _ _ _ _ _ _ Hi Hs) as (R' & HA' & Hsm).
  rewrite HA in HA'. injection HA' as <-. pose proof (si_utf8 _ _ _ _ Hsm) as Hu.
  unfold add_column. destruct (sm_Columns sm !! cs_Name c) as [c0|] eqn:Ec.
  - destruct ((cs_Type c0 =? cs_Type c) && Bool.eqb (cs_Indexed c0) (cs_Indexed c)).
    { apply wp_ret, columns_post_id; [done|done|]. constructor; [by rewrite Ec | done]. }
    destruct ((cs_Type c0 =? TypeInt) && (cs_Type c =? TypeFloat)) eqn:Ew.
    2: { apply wp_ret, columns_post_id; [done|done|]. constructor; [by rewrite Ec | done]. }
    bsplit. apply store_meta_wp; try done.
    + apply with_column_utf8; [done|done|]. simpl. by apply (proj2 (proj2 Hu) _ _ Ec).
    + apply schema_le_with_column. rewrite Ec. intros c1 [= <-]. repeat split. by right.
    + by left.
    + by left.
    + constructor; [|done]. simpl. by rewrite lookup_insert_eq.
  - destruct (cs_Indexed c && bytes_eqb (sm_Indexed sm) []) eqn:Ei.
    + apply andb_true_iff in Ei as [Eci Esi%bytes_eqb_spec].
      assert (Hgain : forall d', same_but_faults d d' -> R = ∅ ->
        wp (store_meta (with_column (cs_Name c) c (with_index (cs_Name c) sm))) (columns_post name [c] d sm A R) d').
      { intros d' Hsame HR. pose proof Hsame as (f & -> & Hf).
        eapply wp_mono; [|intros r d'; by apply columns_post_same].
        apply store_meta_wp; try done.
        - apply with_column_utf8; [|done|done]. destruct Hu as (? & _ & ?). by split.
        - etransitivity; [by apply schema_le_with_index|].
          apply schema_le_with_column. cbn [sm_Columns with_index]. by rewrite Ec.
        - by right.
        - right. exists c. split; [left|done].
        - constructor; [|done]. simpl. by rewrite lookup_insert_eq. }
      apply wp_bind, wp_bind. destruct created.
      { apply wp_ret, wp_ret. apply Hgain; [apply same_refl | by apply Hcr]. }
      apply wp_bind, wp_pdb_Iter.
      * intros d' Hsame. apply wp_ret.
        destruct (kv_scan (d_kv d) (dataPrefix (sm_ID sm)) (prefixEnd (dataPrefix (sm_ID sm)))) as [|kv0 l] eqn:Escan.
        -- apply wp_ret, Hgain; [done|]. eapply rep_no_data; [apply Hsm|]. by apply scan_empty_prefix.
        -- apply wp_fail. eapply columns_post_err; [done|done|done|]. right. exists c.
           split; [left|]. assert (sm_Name sm = name) as -> by apply Hsm. split; [done|]. split; [done|].
           split; [done|]. intros ->. destruct kv0 as [k v].
           assert ((k, v) ∈ kv_scan (d_kv d) (dataPrefix (sm_ID sm)) (prefixEnd (dataPrefix (sm_ID sm)))) as Hin
             by (rewrite Escan; left).
           apply kv_scan_elem in Hin as [[rest ->]%in_range_prefixEnd Hget].
           rewrite (rep_data _ _ _ _ (si_rep _ _ _ _ Hsm)), lookup_empty in Hget. done.
      * intros Hf d' Hsame. eapply columns_post_err; [done|done|done|]. by left.
    + apply wp_bind, wp_ret. apply store_meta_wp; try done.
      * by apply with_column_utf8.
      * apply schema_le_with_column. by rewrite Ec.
      * by left.
      * by left.
      * constructor; [|done]. simpl. by rewrite lookup_insert_eq.
Qed.

Lemma columns_post_cons name c cols d d1 d2 sm sm1 A R r :
  columns_post name [c] d sm A R (Ok sm1) d1 -> columns_post name cols d1 sm1 A R r d2 ->
  columns_post name (c :: cols) d sm A R r d2.
Proof.
  intros (Q1 & _ & O1 & K1 & N1 & (sm1' & S1' & _ & D1) & S1 & G1 & L1 & F1)
         (Q2 & I2 & O2 & K2 & N2 & (sm2 & S2 & L2 & D2) & P2).
  rewrite S1 in S1'. injection S1' as <-.
  split; [by etransitivity|]. split; [done|].
  split; [intros n Hn; rewrite O2 by done; by apply O1|].
  split; [congruence|]. split; [congruence|]. split.
  { exists sm2. split; [done|]. split; [by etransitivity|].
    destruct D1 as [?|E1], D2 as [?|E2]; [by left|by left|by left|right; congruence]. }
  destruct r as [sm2'|e].
  - destruct P2 as (P2 & G2 & L2' & F2). split; [done|]. split; [|split; [by etransitivity|]].
    + destruct G2 as [G2|(c2 & Hin & Hi & Hn)].
      * destruct G1 as [G1|(c1 & Hin%list_elem_of_singleton & Hi & Hn)]; [left; congruence|].
        subst c1. right. exists c. split; [left|]. split; [done|]. congruence.
      * right. exists c2. by split; [right|].
    + constructor; [|done]. apply Forall_singleton in F1 as [c1 Hc1].
      destruct (sl_cols _ _ L2' _ _ Hc1) as (c2 & -> & _). done.
  - destruct P2 as [[Hf ->]|(c2 & Hin & -> & Hi & Hx & HR)].
    + left. split; [|done]. intros E. by apply Hf, (q_faults _ _ Q1).
    + right. exists c2. split; [by right|]. split; [done|]. split; [done|]. split; [|done].
      destruct (decide (sm_Indexed sm = [])) as [|Hne]; [done|].
      destruct (sl_index _ _ L1 Hne). congruence.
Qed.

Lemma add_columns_wp name created cols : forall d sm A R,
  db_inv d A -> d_sets d !! name = Some sm -> A !! name = Some R ->
  (created = true -> R = ∅) -> cols_utf8 cols ->
  wp (add_columns created sm cols) (columns_post name cols d sm A R) d.
Proof.
  induction cols as [|c cols IH]; intros d sm A R Hi Hs HA Hcr Hutf; cbn [add_columns].
  { by apply wp_ret, columns_post_id. }
  apply Forall_cons in Hutf as [Hc Hcols]. apply wp_bind.
  eapply wp_mono; [by eapply add_column_wp|]. intros r d1 Hpost. destruct r as [sm1|e].
  - assert (Hi1 : db_inv d1 A) by apply Hpost.
    assert (Hs1 : d_sets d1 !! name = Some sm1) by apply Hpost.
    eapply wp_mono; [by eapply IH|]. intros r d2. by apply columns_post_cons.
  - destruct Hpost as (H1 & H2 & H3 & H4 & H5 & H6 & H7).
    repeat (split; [done|]). destruct H7 as [?|(c2 & Hin & ?)]; [by left|].
    right. exists c2. split; [|done]. apply list_elem_of_singleton in Hin as ->. left.
Qed.

(** ** setLocked *)

(** The abstract state once a set exists. *)
Definition with_set (name : gostr) (A : AStore) : AStore :=
  match A !! name with Some _ => A | None => <[name := ∅]> A end.
Definition rows_of (A : AStore) (name : gostr) : Rows := default ∅ (A !! name).

Lemma with_set_lookup name A : with_set name A !! name = Some (rows_of A name).
Proof. unfold with_set, rows_of. destruct (A !! name) eqn:E; [by rewrite E | by rewrite lookup_insert_eq]. Qed.

(** The schema a call finds: the stored one, or that of a set about to
    be created. *)
Definition base_meta (d : DB) (name : gostr) : setMeta :=
  default (with_dirty true (empty_meta (d_nextID d) name)) (d_sets d !! name).

Record locked_post (name : gostr) (cols : list ColumnSpec) (d : DB) (A : AStore)
    (r : result db_err setMeta) (d' : DB) : Prop := {
  lp_quiet : quiet d d';
  lp_others : others name d d';
  lp_next : d_nextID d <= d_nextID d';
  lp_rec : recorded_next (kv_get (d_kv d)) <= recorded_next (kv_get (d_kv d'));
  lp_sets : forall sm', d_sets d' !! name = Some sm' -> schema_le (base_meta d name) sm' /\
    (rows_of A name = ∅ \/ sm_Indexed sm' = sm_Indexed (base_meta d name));
  lp_inv : (db_inv d' A /\ (exists e, r = Err e)) \/ db_inv d' (with_set name A);
  lp_result :
    match r with
    | Ok sm' => d_sets d' !! name = Some sm' /\ db_inv d' (with_set name A) /\
        index_origin cols (base_meta d name) sm' /\ sm_dirty sm' = false /\
        Forall (fun c => is_Some (sm_Columns sm' !! cs_Name c)) cols
    | Err e => (d_faults d <> [] /\ e = ErrPebble) \/
        gain_refused name cols (base_meta d name) (rows_of A name) e
    end;
}.

Lemma base_meta_eq d name sm : d_sets d !! name = Some sm -> base_meta d name = sm.
Proof. unfold base_meta. by intros ->. Qed.

(** The last step: writing the record of a schema that is ahead of it. *)
Lemma persist_step_wp name d sm A R (Q : result db_err setMeta -> DB -> Prop) :
  db_inv d A -> d_sets d !! name = Some sm -> A !! name = Some R ->
  (forall d' sm', quiet d d' -> db_inv d' A -> others name d d' -> d_nextID d' = d_nextID d ->
     recorded_next (kv_get (d_kv d')) = recorded_next (kv_get (d_kv d)) ->
     d_sets d' !! name = Some sm' -> sm' = with_dirty false sm -> Q (Ok sm') d') ->
  (d_faults d <> [] -> forall d', same_but_faults d d' -> Q (Err ErrPebble) d') ->
  wp (if sm_dirty sm then persistSet sm ;; store_meta (with_dirty false sm) else mret sm) Q d.
Proof.
  intros Hi Hs HA Hok Herr. destruct (inv_lookup _ _ _ _ _ _ _ Hi Hs) as (R' & HA' & Hsm).
  assert (Hn : sm_Name sm = name) by apply Hsm.
  destruct (sm_dirty sm) eqn:Ed.
  - apply wp_bind, wp_pdb_Apply; [|done]. intros d' (f & -> & Hf).
    apply wp_bind, wp_modify, wp_ret. cbn [sm_Name with_dirty]. rewrite Hn.
    assert (Hget : forall k, kv_get (kv_apply (d_kv d) [BSet (setKey name) (json_Marshal sm)]) k
              = ops_get [BSet (setKey name) (json_Marshal sm)] k (kv_get (d_kv d) k))
      by (intros k; apply kv_get_apply).
    apply Hok; [by split| | |done| |simpl; by rewrite lookup_insert_eq|done].
    + unfold db_inv. simpl. by eapply inv_persist.
    + intros n Hne. simpl. by rewrite lookup_insert_ne.
    + apply recorded_other. cbn [d_kv set_kv set_maps]. rewrite Hget, ops_get_set.
      by rewrite decide_False.
  - apply wp_ret. apply (Hok d sm); try done.
    destruct sm; simpl in *. by subst.
Qed.

Lemma setLocked_wp name cols d A :
  db_inv d A -> ValidString name = true -> cols_utf8 cols -> in_u32 (d_nextID d + 1) ->
  wp (setLocked name cols) (locked_post name cols d A) d.
Proof.
  intros Hi Hname Hcols Hnext. unfold setLocked. apply wp_bind, wp_get_db, wp_bind.
  (* what remains once the set is there *)
  assert (Hrest : forall d1 sm created,
    quiet d d1 -> others name d d1 -> d_nextID d <= d_nextID d1 ->
    recorded_next (kv_get (d_kv d)) <= recorded_next (kv_get (d_kv d1)) ->
    db_inv d1 (with_set name A) -> d_sets d1 !! name = Some sm -> base_meta d name = sm ->
    (created = true -> rows_of A name = ∅) ->
    wp (sm ← add_columns created sm cols;
        if sm_dirty sm then persistSet sm ;; store_meta (with_dirty false sm) else mret sm)
       (locked_post name cols d A) d1).
  { intros d1 sm created Hq Ho Hn Hr Hi1 Hs1 Hbase Hcr. apply wp_bind.
    eapply wp_mono; [eapply add_columns_wp; [exact Hi1|exact Hs1|apply with_set_lookup|done|done]|].
    intros r d2 (Q2 & I2 & O2 & K2 & N2 & (sm2 & S2 & L2 & D2) & P2). destruct r as [sm2'|e].
    - destruct P2 as (P2 & G2 & L2' & F2). rewrite S2 in P2. injection P2 as <-.
      eapply persist_step_wp; [exact I2|exact S2|apply with_set_lookup| |].
      + intros d3 sm3 Q3 I3 O3 N3 R3 S3 ->. split.
        * etransitivity; [done|]. by etransitivity.
        * intros n Hne. by rewrite O3, O2, Ho.
        * lia.
        * rewrite R3, K2. done.
        * rewrite S3, Hbase. intros sm' [= <-]. split; [|done].
          etransitivity; [exact L2|]. split; [done|done|done|]. intros k c Hk. by exists c.
        * by right.
        * rewrite Hbase. done.
      + intros Hf d3 Hsame. pose proof (same_quiet _ _ Hsame). destruct Hsame as (f & -> & Hf'). split.
        * etransitivity; [done|]. by etransitivity.
        * intros n Hne. cbn. by rewrite O2, Ho.
        * cbn. lia.
        * cbn [d_kv set_faults]. rewrite K2. done.
        * cbn. rewrite S2, Hbase. intros sm' [= <-]. done.
        * by right.
        * left. split; [|done]. intros E. by apply Hf, (q_faults _ _ Q2), (q_faults _ _ Hq).
    - split.
      + by etransitivity.
      + intros n Hne. by rewrite O2, Ho.
      + lia.
      + rewrite K2. done.
      + rewrite S2, Hbase. intros sm' [= <-]. done.
      + by right.
      + rewrite Hbase. destruct P2 as [[Hf ->]|P2]; [|by right].
        left. split; [|done]. intros E. by apply Hf, (q_faults _ _ Hq). }
  destruct (d_sets d !! name) as [sm|] eqn:Es.
  - apply wp_ret. destruct (inv_lookup _ _ _ _ _ _ _ Hi Es) as (R & HA & _).
    apply Hrest; try done.
    + unfold db_inv, with_set. by rewrite HA.
    + by apply base_meta_eq.
  - assert (HA : A !! name = None).
    { destruct (A !! name) eqn:E; [|done].
      destruct (proj2 (inv_dom _ _ _ _ _ Hi name)) as [? ?]; [by rewrite E | congruence]. }
    unfold create_set. apply wp_bind, wp_get_db, wp_bind, wp_modify, wp_bind, wp_on_err.
    unfold persistNextID. apply wp_bind, wp_get_db, wp_pdb_Apply.
    + cbn [d_nextID set_maps]. unfold u32. rewrite Z.mod_small by mlia.
      intros d1 (f & -> & Hf). apply wp_ret.
      assert (Hget : forall k, kv_get (kv_apply (d_kv d) [BSet nextIDKey (PutUint32 (d_nextID d + 1))]) k
                = ops_get [BSet nextIDKey (PutUint32 (d_nextID d + 1))] k (kv_get (d_kv d) k))
        by (intros k; apply kv_get_apply).
      apply Hrest.
      * by split.
      * intros n Hne. simpl. by rewrite lookup_insert_ne.
      * simpl. lia.
      * cbn [d_kv set_kv set_faults set_maps]. unfold recorded_next at 2.
        rewrite Hget, ops_get_set, decide_True, recorded_Put by done.
        pose proof (inv_rec _ _ _ _ _ Hi). lia.
      * unfold with_set. rewrite HA. unfold db_inv. simpl. eapply inv_create; done.
      * simpl. by rewrite lookup_insert_eq.
      * unfold base_meta. by rewrite Es.
      * intros _. unfold rows_of. by rewrite HA.
    + cbn [d_faults set_maps]. intros Hf d1 (f & -> & Hf').
      assert (Hback : forall n, delete name (<[name := with_dirty true (empty_meta (d_nextID d) name)]> (d_sets d)) !! n
                = d_sets d !! n) by (intros n; by rewrite delete_insert_id).
      unfold u32. rewrite Z.mod_small by mlia.
      split; cbn [d_sets set_maps set_faults d_nextID d_kv].
      * by split.
      * intros n _. apply Hback.
      * lia.
      * lia.
      * intros sm'. rewrite Hback, Es. done.
      * left. split; [|by eexists]. unfold db_inv. cbn [d_sets d_byID set_maps set_faults d_nextID d_kv].
        rewrite delete_insert_id by done. rewrite delete_insert_id; [|by eapply byID_fresh].
        by apply inv_burn.
      * by left.
Qed.
End Schema.
