(* ===== verification/EngineStore.v ===== *)
(** * EngineStore: the store refines a map of maps

    Every operation of [EngineDB], failures included, against the abstract
    state of [EngineInv]: a map from set name to rows by primary key. *)

From Stdlib Require Import ZArith Lia Bool.
From Stdlib Require Import Strings.Byte Strings.String.
From stdpp Require Import sorting.
From S2P Require Import Prelude Bytes Float64 GoStd Model EngineKeys EngineCodec EngineDB EngineRep.
From S2P Require Import EngineInv EngineSchema.

Section Store.
Context `{FloatText} `{J : MetaJSON} `{!MetaJSONLaws J} `{L : LSM} `{!LSMLaws L}.

Abbreviation AStore := (gmap gostr Rows).

(** ** The columns of a batch *)

Definition column_origin (entries : list (gostr * Value)) (c : ColumnSpec) : Prop :=
  (exists v, (cs_Name c, v) ∈ entries) /\ cs_Indexed c = bytes_eqb (cs_Name c) TimestampField.

Lemma derive_column_origin nv entries st :
  Forall (column_origin entries) st.1 -> nv ∈ entries -> Forall (column_origin entries) (derive_column st nv).1.
Proof.
  destruct st as [cols at_], nv as [n v]. intros Hc Hin. cbn [derive_column fst snd] in *.
  destruct (at_ !! n) as [j|].
  - destruct (cols !! j) as [c|] eqn:Ej; [|done]. destruct (_ && _); [|done].
    simpl. apply Forall_insert; [done|]. rewrite Forall_lookup in Hc.
    destruct (Hc _ _ Ej) as [? ?]. by split.
  - simpl. apply Forall_app. split; [done|]. constructor; [|done]. split; [by exists v | done].
Qed.

Lemma derive_columns_origin recs :
  Forall (column_origin (concat (map (fun r => map_to_list (rec_Row r)) recs))) (derive_columns recs).
Proof.
  unfold derive_columns. set (entries := concat _).
  enough (forall l st, (forall nv, nv ∈ l -> nv ∈ entries) -> Forall (column_origin entries) st.1 ->
            Forall (column_origin entries) (foldl derive_column st l).1) by (apply H0; [done | constructor]).
  induction l as [|nv l IH]; intros st Hl Hst; [done|]. apply IH.
  - intros nv' ?. apply Hl. by right.
  - apply derive_column_origin; [done|]. apply Hl. left.
Qed.

Lemma entries_elem recs k v :
  (k, v) ∈ concat (map (fun r => map_to_list (rec_Row r)) recs) <->
  exists r, r ∈ recs /\ rec_Row r !! k = Some v.
Proof.
  rewrite list_elem_of_In, in_concat. split.
  - intros (l & (r & <- & Hr)%in_map_iff & Hin). exists r.
    split; [by apply list_elem_of_In|]. by apply elem_of_map_to_list, list_elem_of_In.
  - intros (r & Hr & Hk). exists (map_to_list (rec_Row r)). split.
    + apply in_map_iff. exists r. split; [done|]. by apply list_elem_of_In.
    + by apply list_elem_of_In, elem_of_map_to_list.
Qed.

(** ** PutBatch *)

Definition rec_pair (r : Record_) : gostr * Row := (rec_Key r, rec_Row r).

Definition rec_ok (r : Record_) : Prop :=
  length (rec_Key r) = 16%nat /\ row_storable (rec_Row r) /\
  forall k v, rec_Row r !! k = Some v -> ValidString k = true.

Lemma batch_add_wp b op Q d :
  (forall d', same_but_faults d d' -> Q (Ok (b ++ [op])) d') ->
  (d_faults d <> [] -> forall d', same_but_faults d d' -> Q (Err ErrPebble) d') ->
  wp (batch_add b op) Q d.
Proof. intros Hok Herr. apply wp_bind, wp_pebble_call; [|done]. intros d' Hs. apply wp_ret. by apply Hok. Qed.

(** A record the batch loop accepts. *)
Definition rec_filed (indexed : gostr) (r : Record_) : Prop :=
  indexed <> [] -> is_Some (row_ts indexed (rec_Row r)).

(** What building a batch may end in. *)
Definition build_err (set indexed : gostr) (recs : list Record_) (d : DB) (e : db_err) : Prop :=
  (d_faults d <> [] /\ e = ErrPebble) \/
  exists r, r ∈ recs /\ ~ rec_filed indexed r /\
    (e = ErrRowWithoutIndexedColumn set indexed \/ e = ErrIndexedNotNumeric indexed).

Lemma put_record_wp set id indexed b r Q d :
  (rec_filed indexed r -> forall d', same_but_faults d d' ->
     Q (Ok (b ++ row_ops id indexed (rec_Key r) (rec_Row r))) d') ->
  (forall e d', same_but_faults d d' -> build_err set indexed [r] d e -> Q (Err e) d') ->
  wp (put_record set id indexed (if bytes_eqb indexed [] then 0 else 1) b r) Q d.
Proof.
  intros Hok Herr. unfold put_record, row_ops, rec_filed in *. destruct (bytes_eqb indexed []) eqn:Ei; cbn [negb].
  - apply bytes_eqb_spec in Ei as ->. apply batch_add_wp.
    + intros d'. by apply Hok.
    + intros Hf d' Hs. apply Herr; [done|]. by left.
  - apply bytes_eqb_neq in Ei. unfold row_ts in *.
    assert (Hbad : rec_Row r !! indexed = None \/ (exists v, rec_Row r !! indexed = Some v /\ (AsInt v).2 = false) ->
              ~ rec_filed indexed r).
    { intros Hbad Hfiled. destruct (Hfiled Ei) as [ts Hts]. unfold row_ts in Hts.
      destruct Hbad as [E|(v & E & E2)]; rewrite E in Hts; [done|].
      destruct (AsInt v) as [ts' ok]. simpl in E2. by subst. }
    destruct (rec_Row r !! indexed) as [v|] eqn:Ev.
    + destruct (AsInt v) as [ts ok] eqn:Ea. destruct ok; cbn [negb].
      * apply wp_bind, batch_add_wp.
        -- intros d1 H1. apply batch_add_wp.
           ++ intros d2 H2. rewrite <- app_assoc. apply Hok; [by eexists | by eapply same_trans].
           ++ intros Hf d2 H2. apply Herr; [by eapply same_trans|]. left. split; [|done]. by eapply same_faults.
        -- intros Hf d1 H1. apply Herr; [done|]. by left.
      * apply wp_fail, Herr; [apply same_refl|]. right. exists r. split; [left|]. split; [|by right].
        apply Hbad. right. exists v. by rewrite Ea.
    + apply wp_fail, Herr; [apply same_refl|]. right. exists r. split; [left|]. split; [|by left].
      apply Hbad. by left.
Qed.

Lemma build_err_mono set indexed r recs d d' e :
  same_but_faults d d' -> build_err set indexed recs d' e -> build_err set indexed (r :: recs) d e.
Proof.
  intros Hs [[Hf ->]|(r' & Hin & ?)]; [left; split; [by eapply same_faults | done]|].
  right. exists r'. by split; [right|].
Qed.

Lemma put_records_wp set id indexed icol recs : forall b Q d,
  (indexed <> [] -> icol = 1) ->
  (Forall (rec_filed indexed) recs -> forall d', same_but_faults d d' ->
     Q (Ok (b ++ rows_ops id indexed (map rec_pair recs))) d') ->
  (forall e d', same_but_faults d d' -> build_err set indexed recs d e -> Q (Err e) d') ->
  wp (put_records set id indexed icol b recs) Q d.
Proof.
  induction recs as [|r recs IH]; intros b Q d Hcol Hok Herr; cbn [put_records].
  { apply wp_ret. specialize (Hok ltac:(constructor) d (same_refl d)). unfold rows_ops in Hok. simpl in Hok.
    by rewrite app_nil_r in Hok. }
  apply wp_bind.
  assert (put_record set id indexed icol b r
          = put_record set id indexed (if bytes_eqb indexed [] then 0 else 1) b r) as ->.
  { unfold put_record. destruct (bytes_eqb indexed []) eqn:E; [done|].
    apply bytes_eqb_neq in E. by rewrite Hcol. }
  apply put_record_wp.
  - intros Hf d1 H1. apply IH; [done| |].
    + intros Hfs d2 H2. rewrite <- app_assoc. apply Hok; [by constructor | by eapply same_trans].
    + intros e d2 H2 He. apply Herr; [by eapply same_trans|]. by eapply build_err_mono.
  - intros e d1 H1 [?|(r' & Hin & ?)]; apply Herr; [done|by left|done|].
    right. exists r'. split; [|done]. apply list_elem_of_singleton in Hin as ->. left.
Qed.

(** The indexed columns a batch may end up filed under. *)
Definition index_candidate (d : DB) (set idx : gostr) : Prop :=
  idx = TimestampField \/ idx = sm_Indexed (base_meta d set).

Lemma guard_open_wp Q d :
  (d_closed d = false -> Q (Ok tt) d) -> (d_closed d = true -> Q (Err ErrClosed) d) -> wp guard_open Q d.
Proof.
  intros Hok Herr. apply wp_bind, wp_get_db. destruct (d_closed d); [by apply wp_fail, Herr | by apply wp_ret, Hok].
Qed.

Lemma derived_utf8 recs : Forall rec_ok recs -> cols_utf8 (derive_columns recs).
Proof.
  intros Hrecs. eapply Forall_impl; [apply derive_columns_origin|]. intros c [[v Hin] _].
  apply entries_elem in Hin as (r & Hr & Hk). rewrite Forall_forall in Hrecs.
  destruct (Hrecs r Hr) as (_ & _ & Hu). by eapply Hu.
Qed.

Lemma derived_candidate d set recs sm :
  index_origin (derive_columns recs) (base_meta d set) sm -> index_candidate d set (sm_Indexed sm).
Proof.
  intros [E|(c & Hin & Hi & E)]; [by right|]. left.
  pose proof (derive_columns_origin recs) as Ho. rewrite Forall_forall in Ho.
  destruct (Ho _ Hin) as [_ Hb]. rewrite Hi in Hb. symmetry in Hb. apply bytes_eqb_spec in Hb. congruence.
Qed.

Definition put_err (set : gostr) (recs : list Record_) (d : DB) (A : AStore) (e : db_err) : Prop :=
  (d_closed d = true /\ e = ErrClosed) \/
  (d_faults d <> [] /\ e = ErrPebble) \/
  gain_refused set (derive_columns recs) (base_meta d set) (rows_of A set) e \/
  exists idx, index_candidate d set idx /\
    exists r, r ∈ recs /\ ~ rec_filed idx r /\
      (e = ErrRowWithoutIndexedColumn set idx \/ e = ErrIndexedNotNumeric idx).

Record put_post (set : gostr) (recs : list Record_) (d : DB) (A : AStore) (r : result db_err unit) (d' : DB) : Prop := {
  pp_inv :
    match r with
    | Ok _ => db_inv d' (match recs with [] => A | _ =>
                           <[set := foldl put_row (rows_of A set) (map rec_pair recs)]> A end)
    | Err e => (db_inv d' A \/ db_inv d' (with_set set A)) /\ put_err set recs d A e
    end;
  pp_others : others set d d';
  pp_rec : recorded_next (kv_get (d_kv d)) <= recorded_next (kv_get (d_kv d'));
  pp_sets : forall sm', d_sets d' !! set = Some sm' -> schema_le (base_meta d set) sm';
  pp_next : d_nextID d <= d_nextID d';
  pp_closed : d_closed d' = d_closed d;
}.

Lemma with_set_insert (set : gostr) (A : AStore) (R : Rows) : <[set := R]> (with_set set A) = <[set := R]> A.
Proof.
  unfold with_set. destruct (A !! set); [done|]. by rewrite insert_insert_eq.
Qed.

Lemma PutBatch_wp set recs d A :
  db_inv d A -> ValidString set = true -> Forall rec_ok recs -> in_u32 (d_nextID d + 1) ->
  (forall idx, index_candidate d set idx -> keys_agree idx (rows_of A set) (map rec_pair recs)) ->
  wp (PutBatch set recs) (put_post set recs d A) d.
Proof.
  intros Hi Hset Hrecs Hnext Hagree. apply wp_bind, guard_open_wp.
  2: { intros Hc. split; try done; [split; by left|].
       intros sm' Hs. by rewrite (base_meta_eq _ _ _ Hs). }
  intros Hopen. destruct recs as [|r0 recs0] eqn:Erecs.
  { apply wp_ret. split; try done. intros sm' Hs. by rewrite (base_meta_eq _ _ _ Hs). }
  assert (Hne : recs <> []) by (by rewrite Erecs). rewrite <- Erecs in *. clear r0 recs0 Erecs. apply wp_bind.
  eapply wp_mono; [apply setLocked_wp; [exact Hi|done|by apply derived_utf8|done]|].
  intros r d1 [Q1 O1 N1 R1 S1 I1 P1]. destruct r as [sm|e].
  2: { split; [|done|done| |lia|by rewrite (q_closed _ _ Q1)].
       - split; [by destruct I1 as [[? _]|?]; [left|right]|].
         destruct P1 as [?|?]; [right; by left | do 2 right; by left].
       - intros sm' Hs. by apply S1. }
  destruct P1 as (Hsm & Hi1 & Horig & Hclean & _).
  destruct (inv_lookup _ _ _ _ _ _ _ Hi1 Hsm) as (R & HA & Hinv).
  rewrite with_set_lookup in HA. injection HA as <-.
  pose proof (derived_candidate _ _ _ _ Horig) as Hcand.
  assert (Hle : schema_le (base_meta d set) sm) by (by apply S1).
  apply wp_bind, put_records_wp; [apply Hinv| |].
  - intros Hfiled d2 (f2 & -> & Hf2). cbn [app].
    set (ops := rows_ops (sm_ID sm) (sm_Indexed sm) (map rec_pair recs)).
    pose proof (inv_id32 _ _ _ _ _ _ _ Hi1 Hsm) as Hid.
    assert (Hout : forall k, area k <> Some (sm_ID sm) -> kv_get (kv_apply (d_kv d1) ops) k = kv_get (d_kv d1) k).
    { intros k Hk. rewrite kv_get_apply. eapply ops_outside; [by apply rows_ops_within | done]. }
    apply wp_bind, wp_pdb_Apply.
    + intros d3 (f3 & -> & Hf3). apply wp_modify.
      split; cbn [d_kv d_sets d_nextID d_closed set_stats set_kv set_faults].
      * assert (Hgoal : inv (kv_get (kv_apply (d_kv d1) ops)) (d_sets d1) (d_byID d1) (d_nextID d1)
                 (<[set := foldl put_row (rows_of A set) (map rec_pair recs)]> A)).
        { rewrite <- with_set_insert.
          eapply inv_rows; [exact Hi1|exact Hsm|apply with_set_lookup|exact Hout| |by left].
          apply (rep_ext (fun k => ops_get ops k (kv_get (d_kv d1) k)));
            [intros k; apply kv_get_apply|].
          apply rep_puts; [apply Hinv| |by apply Hagree].
          apply Forall_map. rewrite Forall_forall in Hrecs, Hfiled |- *. intros rc Hrc.
          destruct (Hrecs rc Hrc) as (Hlen & Hst & _). split; [done|]. split; [done|].
          by apply Hfiled. }
        unfold db_inv. cbn [d_kv d_sets d_byID d_nextID set_stats set_kv set_faults].
        by destruct recs.
      * done.
      * etransitivity; [exact R1|]. apply Z.eq_le_incl. symmetry. apply recorded_other. by apply Hout.
      * intros sm'. rewrite Hsm. intros [= <-]. done.
      * done.
      * apply Q1.
    + intros Hf d3 (f3 & -> & Hf3). split; cbn; try done.
      * split; [by right|]. right. left. split; [|done]. intros E. apply Hf. simpl. by apply Hf2, (q_faults _ _ Q1).
      * intros sm'. rewrite Hsm. by intros [= <-].
      * apply Q1.
  - intros e d2 (f2 & -> & Hf2) He. split; cbn; try done.
    + split; [by right|]. destruct He as [[Hf ->]|He].
      * right. left. split; [|done]. intros E. by apply Hf, (q_faults _ _ Q1).
      * do 3 right. by exists (sm_Indexed sm).
    + intros sm'. rewrite Hsm. by intros [= <-].
    + apply Q1.
Qed.

(** ** Get *)

Definition project (cols : list gostr) (r : Row) : Row :=
  filter (fun kv => wants (projectionSet cols) kv.1 = true) r.

Lemma decode_encodeRow r cols :
  row_storable r -> decodeRow (encodeRow r) (projectionSet cols) = Ok (project cols r).
Proof. intros Hr. by apply decode_entries. Qed.

Lemma ptr_read ts : in_i64 ts ->
  readDataPointer (dataPointer ts) = Some ts /\ taggedDataPointer (dataPointer ts) = true.
Proof. intros Hts. destruct (readDataPointer_val ts Hts) as (? & _ & ? & _). done. Qed.

(** What a read may do to the store: count itself. *)
Definition reads_only (d d' : DB) : Prop :=
  d_kv d' = d_kv d /\ d_sets d' = d_sets d /\ d_byID d' = d_byID d /\ d_nextID d' = d_nextID d /\
  d_closed d' = d_closed d.

Lemma same_reads d d' : same_but_faults d d' -> reads_only d d'.
Proof. by intros (f & -> & _). Qed.
Lemma reads_inv d d' A : reads_only d d' -> db_inv d A -> db_inv d' A.
Proof. intros (H1 & H2 & H3 & H4 & _). unfold db_inv. by rewrite H1, H2, H3, H4. Qed.

Definition get_post (set pk : gostr) (cols : list gostr) (d : DB) (A : AStore)
    (r : result db_err (option Row)) (d' : DB) : Prop :=
  reads_only d d' /\
  match r with
  | Ok o => d_closed d = false /\ exists R, A !! set = Some R /\ o = project cols <$> R !! pk
  | Err e =>
      (d_closed d = true /\ e = ErrClosed) \/
      (d_closed d = false /\ A !! set = None /\ e = ErrUnknownSet) \/
      (d_faults d <> [] /\ e = ErrPebble)
  end.

Lemma Get_wp set pk cols d A : db_inv d A -> wp (Get set pk cols) (get_post set pk cols d A) d.
Proof.
  intros Hi. apply wp_bind, guard_open_wp.
  2: { intros Hc. split; [done|]. by left. }
  intros Hopen. apply wp_bind, wp_modify, wp_bind, wp_get_db. unfold setRef. cbn [d_sets set_stats].
  destruct (d_sets d !! set) as [sm|] eqn:Es.
  2: { apply wp_fail. split; [done|]. right. left. split; [done|]. split; [|done].
       destruct (A !! set) eqn:E; [|done].
       destruct (proj2 (inv_dom _ _ _ _ _ Hi set)) as [? ?]; [by rewrite E | congruence]. }
  destruct (inv_lookup _ _ _ _ _ _ _ Hi Es) as (R & HA & Hsm).
  destruct (si_rep _ _ _ _ Hsm) as [H1 H2 H3].
  apply wp_bind. cbn [ref_id]. rewrite dataKey_prefix. apply wp_pdb_Get.
  2: { intros Hf d' Hs%same_reads. split; [done|]. by do 2 right. }
  intros d1 Hs1. cbn [d_kv set_stats]. rewrite H2.
  assert (Hr1 : reads_only d d1) by (apply same_reads in Hs1; exact Hs1).
  destruct (R !! pk) as [r|] eqn:Epk; cbn [fmap option_fmap option_map].
  2: { apply wp_ret. split; [done|]. split; [done|]. exists R. by rewrite Epk. }
  destruct (H1 _ _ Epk) as (Hlen & Hst & Hts).
  assert (Hdone : forall d', reads_only d d' ->
    wp (row ← lift (decodeRow (encodeRow r) (projectionSet cols)); mret (Some row))
       (get_post set pk cols d A) d').
  { intros d' Hr'. rewrite decode_encodeRow by done. apply wp_bind, wp_ret, wp_ret.
    split; [done|]. split; [done|]. exists R. by rewrite Epk. }
  apply wp_bind. unfold data_value, follow_pointer. cbn [ref_indexed ref_id ref_indexCol].
  destruct (bytes_eqb (sm_Indexed sm) []) eqn:Ei; cbn [negb].
  - destruct (readDataPointer (encodeRow r)); apply wp_ret; by apply Hdone.
  - apply bytes_eqb_neq in Ei. destruct (Hts Ei) as [ts Ets]. rewrite Ets.
    destruct (ptr_read ts) as [-> _]; [by eapply row_ts_range|].
    rewrite (si_col _ _ _ _ Hsm Ei), indexKey_prefix. apply wp_bind, wp_pdb_Get.
    2: { intros Hf d' Hs2. split.
         - apply same_reads in Hs2. unfold reads_only in *. intuition congruence.
         - do 2 right. split; [|done]. by eapply (same_faults _ _ Hs1). }
    intros d2 Hs2. apply wp_ret. destruct Hr1 as (E1 & _). rewrite E1.
    rewrite (proj2 (H3 _ (encodeRow r))).
    2: { split; [done|]. by exists pk, r, ts. }
    apply Hdone. destruct Hs1 as (f1 & -> & _), Hs2 as (f2 & -> & _). done.
Qed.

(** ** DropSet *)

Record drop_post (name : gostr) (d : DB) (A : AStore) (r : result db_err unit) (d' : DB) : Prop := {
  dp_inv :
    match r with
    | Ok _ => A !! name <> None /\ d_closed d = false /\ db_inv d' (delete name A) /\
        (forall n, d_sets d' !! n = delete name (d_sets d) !! n)
    | Err e => db_inv d' A /\ d_kv d' = d_kv d /\ (forall n, d_sets d' !! n = d_sets d !! n) /\
        ((d_closed d = true /\ e = ErrClosed) \/ (A !! name = None /\ e = ErrUnknownSet) \/
         (d_faults d <> [] /\ e = ErrPebble))
    end;
  dp_next : d_nextID d' = d_nextID d;
  dp_rec : recorded_next (kv_get (d_kv d')) = recorded_next (kv_get (d_kv d));
  dp_closed : d_closed d' = d_closed d;
}.

Lemma DropSet_wp name d A : db_inv d A -> wp (DropSet name) (drop_post name d A) d.
Proof.
  intros Hi. apply wp_bind, guard_open_wp.
  2: { intros Hc. split; try done. split; [done|]. split; [done|]. split; [done|]. by left. }
  intros Hopen. apply wp_bind, wp_get_db. destruct (d_sets d !! name) as [sm|] eqn:Es.
  2: { apply wp_fail. split; try done. split; [done|]. split; [done|]. split; [done|]. right. left.
       split; [|done]. destruct (A !! name) eqn:E; [|done].
       destruct (proj2 (inv_dom _ _ _ _ _ Hi name)) as [? ?]; [by rewrite E | congruence]. }
  destruct (inv_lookup _ _ _ _ _ _ _ Hi Es) as (R & HA & Hsm).
  pose proof (inv_id32 _ _ _ _ _ _ _ Hi Es) as Hid.
  (* a failure anywhere below puts the maps back *)
  assert (Hback : forall d' e, same_but_faults
      (set_maps (delete name (d_sets d)) (delete (sm_ID sm) (d_byID d)) (d_nextID d) d) d' ->
    d_faults d <> [] -> e = ErrPebble ->
    drop_post name d A (Err e)
      (set_maps (<[name := sm]> (d_sets d')) (<[sm_ID sm := name]> (d_byID d')) (d_nextID d') d')).
  { intros d' e (f & -> & Hf) Hne ->.
    assert (Hs : <[name := sm]> (delete name (d_sets d)) = d_sets d).
    { rewrite insert_delete_eq. by apply insert_id. }
    assert (Hb : <[sm_ID sm := name]> (delete (sm_ID sm) (d_byID d)) = d_byID d).
    { rewrite insert_delete_eq. apply insert_id. apply (inv_byID _ _ _ _ _ Hi). by exists sm. }
    split; cbn [d_sets d_kv d_nextID d_closed set_maps set_faults d_byID]; try done.
    unfold db_inv. cbn [d_sets d_kv d_nextID d_closed set_maps set_faults d_byID]. rewrite Hs, Hb.
    split; [done|]. split; [done|]. split; [done|]. by do 2 right. }
  apply wp_bind, wp_modify, wp_on_err. unfold delete_range.
  apply wp_bind, batch_add_wp; [|intros Hf d1 H1; by apply Hback]. intros d1 H1.
  apply wp_bind, batch_add_wp.
  2: { intros Hf d2 H2. apply Hback; [by eapply same_trans| |done]. by eapply (same_faults _ _ H1). }
  intros d2 H2. pose proof (same_trans _ _ _ H1 H2) as H12.
  apply wp_bind, batch_add_wp.
  2: { intros Hf d3 H3. apply Hback; [by eapply same_trans| |done]. by eapply (same_faults _ _ H12). }
  intros d3 H3. pose proof (same_trans _ _ _ H12 H3) as H13.
  apply wp_pdb_Apply.
  2: { intros Hf d4 H4. apply Hback; [by eapply same_trans| |done]. by eapply (same_faults _ _ H13). }
  intros d4 H4. destruct (same_trans _ _ _ H13 H4) as (f4 & -> & _).
  destruct H13 as (f3 & -> & _). cbn [d_kv set_faults set_maps app].
  change [BDeleteRange (dataPrefix (sm_ID sm)) (prefixEnd (dataPrefix (sm_ID sm)));
          BDeleteRange (indexPrefix (sm_ID sm) (sm_IndexCol sm)) (prefixEnd (indexPrefix (sm_ID sm) (sm_IndexCol sm)));
          BDelete (setKey name)]
    with (drop_ops (sm_ID sm) (sm_IndexCol sm) ++ [BDelete (setKey name)]).
  split; cbn [d_kv d_sets d_nextID d_closed set_kv set_faults set_maps]; try done.
  - split; [by rewrite HA|]. split; [done|]. split; [|done]. unfold db_inv.
    cbn [d_kv d_sets d_nextID d_byID set_kv set_faults set_maps].
    eapply inv_drop; [exact Hi|exact Es|]. intros k. apply kv_get_apply.
  - apply recorded_other. rewrite kv_get_apply, ops_get_app.
    rewrite (ops_outside (Some (sm_ID sm)) (drop_ops _ _)); [|by apply drop_ops_within|done].
    cbn [ops_get foldl op_get]. by rewrite bytes_eqb_dec, bool_decide_false.
Qed.

(** ** DeleteOlderThan *)

(** The column a sweep goes by, and the rows it is for. *)
Definition sweep_column (indexed : gostr) : gostr := if bytes_eqb indexed [] then TimestampField else indexed.
Definition older (col : gostr) (beforeMs : Z) (r : Row) : bool :=
  match row_ts col r with Some ts => ts <? beforeMs | None => false end.

(** The rows behind a list of index or data entries. *)
Definition sweep_entry (sm : setMeta) (pr : gostr * Row) : gostr * gostr :=
  if bytes_eqb (sm_Indexed sm) [] then ([], dataKey (sm_ID sm) pr.1)
  else (indexKey (sm_ID sm) 1 (default 0 (row_ts (sm_Indexed sm) pr.2)) pr.1, dataKey (sm_ID sm) pr.1).

Lemma delete_rows_wp sm prs : forall b Q d,
  (forall pk r, (pk, r) ∈ prs -> row_ok (sm_Indexed sm) pk r) ->
  (forall d', same_but_faults d d' -> Q (Ok (b ++ rows_dels (sm_ID sm) (sm_Indexed sm) prs)) d') ->
  (d_faults d <> [] -> forall d', same_but_faults d d' -> Q (Err ErrPebble) d') ->
  wp (delete_rows b (map (sweep_entry sm) prs)) Q d.
Proof.
  induction prs as [|[pk r] prs IH]; intros b Q d Hrow Hok Herr; cbn [map delete_rows].
  { apply wp_ret. specialize (Hok d (same_refl d)). unfold rows_dels in Hok. simpl in Hok.
    by rewrite app_nil_r in Hok. }
  unfold sweep_entry at 1. cbn [fst snd].
  assert (Hnext : forall b' d1, same_but_faults d d1 -> b' = b ++ row_dels (sm_ID sm) (sm_Indexed sm) pk r ->
    wp (delete_rows b' (map (sweep_entry sm) prs)) Q d1).
  { intros b' d1 H1 ->. apply IH.
    - intros pk' r' Hin. apply Hrow. by right.
    - intros d2 H2. rewrite <- app_assoc. apply Hok. by eapply same_trans.
    - intros Hf d2 H2. apply Herr; [by eapply same_faults | by eapply same_trans]. }
  unfold row_dels in Hnext. destruct (bytes_eqb (sm_Indexed sm) []) eqn:Ei.
  - apply wp_bind, wp_ret, wp_bind, batch_add_wp; [|done]. intros d1 H1. by apply Hnext.
  - apply bytes_eqb_neq in Ei. destruct (Hrow pk r) as (Hlen & Hst & Hts); [left|].
    destruct (Hts Ei) as [ts Ets]. rewrite Ets in Hnext |- *. cbn [default from_option id].
    assert ((0 <? zlen (indexKey (sm_ID sm) 1 ts pk)) = true) as -> by (by rewrite length_indexKey).
    apply wp_bind, batch_add_wp; [|done]. intros d1 H1. apply wp_bind, batch_add_wp.
    + intros d2 H2. apply Hnext; [by eapply same_trans|]. by rewrite <- app_assoc.
    + intros Hf d2 H2. apply Herr; [by eapply same_faults | by eapply same_trans].
Qed.

Lemma in_range_index id lo_col hi k :
  in_range (indexPrefix id lo_col) (Some (indexBound id lo_col hi)) k = true ->
  indexPrefix id lo_col `prefix_of` k.
Proof.
  (* the upper bound itself starts with the prefix *)
  intros Hr. apply in_range_prefixEnd. unfold in_range in *. apply andb_true_iff in Hr as [Hlo Hhi].
  rewrite Hlo. cbn [andb].
  assert (Hub : in_range (indexPrefix id lo_col) (prefixEnd (indexPrefix id lo_col)) (indexBound id lo_col hi) = true)
    by (apply in_range_prefixEnd; by exists (PutUint64 (biasInt hi))).
  unfold in_range in Hub. apply andb_true_iff in Hub as [_ Hub].
  destruct (prefixEnd (indexPrefix id lo_col)) as [u|]; [|done]. by eapply blt_trans.
Qed.

Lemma sorted_keys_nodup (l : list (gostr * gostr)) : StronglySorted key_lt l -> NoDup (l.*1).
Proof.
  induction 1 as [|a l Hs IH Ha]; [constructor|]. rewrite fmap_cons. constructor; [|done].
  intros Hin. apply list_elem_of_fmap in Hin as (b & E & Hb). rewrite Forall_forall in Ha.
  specialize (Ha _ Hb). unfold key_lt in Ha. rewrite E in Ha. by rewrite blt_irrefl in Ha.
Qed.

(** The rows an indexed scan walks, in its order: those whose timestamp
    the bounds admit. *)
Definition ts_in (indexed : gostr) (p : Z -> bool) (r : Row) : bool :=
  match row_ts indexed r with Some ts => p ts | None => false end.

Lemma index_scan_rows k id indexed R lower upper p l :
  rep (kv_get k) id indexed R -> indexed <> [] ->
  (forall k, in_range lower upper k = true -> indexPrefix id 1 `prefix_of` k) ->
  (forall ts pk, in_i64 ts -> in_range lower upper (indexKey id 1 ts pk) = p ts) ->
  l = kv_scan k lower upper ->
  exists prs, l = map (fun pr => (indexKey id 1 (default 0 (row_ts indexed pr.2)) pr.1, encodeRow pr.2)) prs /\
    NoDup (prs.*1) /\
    (forall pk r, (pk, r) ∈ prs <-> R !! pk = Some r /\ ts_in indexed p r = true).
Proof.
  intros [H1 H2 H3] Hne Hprefix Hp El.
  assert (Hex : forall k0 v, (k0, v) ∈ l <->
    exists pk r ts, R !! pk = Some r /\ row_ts indexed r = Some ts /\ p ts = true /\
      k0 = indexKey id 1 ts pk /\ v = encodeRow r).
  { intros k0 v. rewrite El, kv_scan_elem. split.
    - intros [Hr Hg]. pose proof (Hprefix _ Hr) as [rest ->].
      replace (indexPrefix id 1 ++ rest) with (ixPrefix id ++ (be4 1 ++ rest)) in *
        by (unfold indexPrefix, ixPrefix; by rewrite <- !app_assoc).
      apply H3 in Hg as [_ (pk & r & ts & Hpk & Hts & Erest & ->)].
      rewrite Erest in Hr |- *. exists pk, r, ts. split; [done|]. split; [done|].
      rewrite <- (indexKey_prefix id 1 ts pk) in Hr |- *. rewrite Hp in Hr; [done|].
      destruct (H1 _ _ Hpk) as (_ & Hst & _). exact (row_ts_range _ _ _ Hst Hts).
    - intros (pk & r & ts & Hpk & Hts & Hlt & -> & ->). split.
      + rewrite Hp; [done|]. destruct (H1 _ _ Hpk) as (_ & Hst & _). exact (row_ts_range _ _ _ Hst Hts).
      + rewrite indexKey_prefix. apply H3. split; [done|]. by exists pk, r, ts. }
  assert (Hnd : NoDup (l.*1)).
  { rewrite El. apply sorted_keys_nodup, kv_scan_sorted. }
  clear El. revert Hex Hnd.
  enough (forall l, (forall k0 v, (k0, v) ∈ l ->
      exists pk r ts, R !! pk = Some r /\ row_ts indexed r = Some ts /\ p ts = true /\
        k0 = indexKey id 1 ts pk /\ v = encodeRow r) -> NoDup (l.*1) ->
    exists prs, l = map (fun pr => (indexKey id 1 (default 0 (row_ts indexed pr.2)) pr.1, encodeRow pr.2)) prs /\
      NoDup (prs.*1) /\ (forall pk r, (pk, r) ∈ prs -> R !! pk = Some r /\ ts_in indexed p r = true)) as Hgen.
  { intros Hex Hnd. destruct (Hgen l) as (prs & -> & Hnd' & Hin); [by intros k0 v Hin; apply Hex|done|].
    exists prs. split; [done|]. split; [done|]. intros pk r. split; [apply Hin|].
    intros [Hpk Hold]. unfold ts_in in Hold. destruct (row_ts indexed r) as [ts|] eqn:Ets; [|done].
    assert ((indexKey id 1 ts pk, encodeRow r) ∈
      map (fun pr => (indexKey id 1 (default 0 (row_ts indexed pr.2)) pr.1, encodeRow pr.2)) prs) as Hm
      by (apply Hex; by exists pk, r, ts).
    apply list_elem_of_In, in_map_iff in Hm as ([pk' r'] & E & Hm). apply list_elem_of_In in Hm.
    destruct (Hin _ _ Hm) as [Hpk' Hold']. cbn [fst snd] in E. apply pair_equal_spec in E as [E _].
    unfold ts_in in Hold'. destruct (row_ts indexed r') as [ts'|] eqn:Ets'; [|done].
    cbn [default from_option] in E.
    destruct (H1 _ _ Hpk) as (_ & Hst & _), (H1 _ _ Hpk') as (_ & Hst' & _).
    rewrite !indexKey_prefix in E. apply app_inv_head in E.
    apply index_rest_inj in E as [_ ->]; [|exact (row_ts_range _ _ _ Hst' Ets')|exact (row_ts_range _ _ _ Hst Ets)].
    rewrite Hpk in Hpk'. by injection Hpk' as ->. }
  clear l. intros l. induction l as [|[k0 v] l IH]; intros Hex Hnd.
  { exists []. split; [done|]. split; [constructor|]. by intros pk r ?%not_elem_of_nil. }
  rewrite fmap_cons in Hnd. apply NoDup_cons in Hnd as [Hnin Hnd].
  destruct IH as (prs & -> & Hnd' & Hin); [intros k1 v1 Hv; apply Hex; by right|done|].
  destruct (Hex k0 v) as (pk & r & ts & Hpk & Hts & Hlt & -> & ->); [left|].
  exists ((pk, r) :: prs). cbn [map fst snd]. rewrite Hts. split; [done|].
  assert (Hold : ts_in indexed p r = true) by (unfold ts_in; by rewrite Hts).
  split.
  - rewrite fmap_cons. constructor; [|done]. intros Hpin. apply Hnin.
    apply list_elem_of_fmap in Hpin as ([pk' r'] & E & Hpr). simpl in E. subst pk'.
    destruct (Hin _ _ Hpr) as [Hpk' _]. rewrite Hpk in Hpk'. injection Hpk' as <-.
    apply list_elem_of_fmap. exists (indexKey id 1 ts pk, encodeRow r). split; [done|].
    apply list_elem_of_In, in_map_iff. exists (pk, r). simpl. rewrite Hts. split; [done|]. by apply list_elem_of_In.
  - intros pk' r' [[= -> ->]|Hpr]%elem_of_cons; [done | by apply Hin].
Qed.

Lemma in_range_below id hi ts pk :
  in_u32 id -> in_i64 hi -> in_i64 ts ->
  in_range (indexPrefix id 1) (Some (indexBound id 1 hi)) (indexKey id 1 ts pk) = (ts <? hi).
Proof.
  intros Hid Hhi Hr. unfold in_range.
  replace (indexKey id 1 ts pk) with (indexPrefix id 1 ++ (PutUint64 (biasInt ts) ++ pk)) at 1
    by (unfold indexKey, indexPrefix; by rewrite <- !app_assoc).
  rewrite ble_prefix. cbn [andb]. pose proof (indexBound_indexKey id 1 ts pk hi Hid ltac:(mlia) Hr Hhi) as Hb.
  apply Bool.eq_iff_eq_true. rewrite Hb. by rewrite Z.ltb_lt.
Qed.

(** The rows a scan of an unindexed set walks: all of them. *)
Lemma data_scan_rows k id R l :
  rep (kv_get k) id [] R ->
  l = kv_scan k (dataPrefix id) (prefixEnd (dataPrefix id)) ->
  exists prs, l = map (fun pr => (dataKey id pr.1, encodeRow pr.2)) prs /\
    NoDup (prs.*1) /\ (forall pk r, (pk, r) ∈ prs <-> R !! pk = Some r).
Proof.
  intros [H1 H2 H3] El.
  assert (Hex : forall k0 v, (k0, v) ∈ l <->
    exists pk r, R !! pk = Some r /\ k0 = dataKey id pk /\ v = encodeRow r).
  { intros k0 v. rewrite El, kv_scan_elem, in_range_prefixEnd. split.
    - intros [[pk ->] Hg]. rewrite H2 in Hg. destruct (R !! pk) as [r|] eqn:E; [|done].
      injection Hg as <-. by exists pk, r.
    - intros (pk & r & Hpk & -> & ->). split; [by exists pk|]. rewrite dataKey_prefix, H2, Hpk. done. }
  assert (Hnd : NoDup (l.*1)) by (rewrite El; apply sorted_keys_nodup, kv_scan_sorted).
  clear El. exists (map (fun e => (drop 5 e.1, default ∅ (R !! drop 5 e.1))) l).
  assert (Hdrop : forall pk, drop 5 (dataKey id pk) = pk).
  { intros pk. rewrite dataKey_prefix. apply drop_app_length'. unfold dataPrefix. by rewrite length_app, length_be4. }
  split; [|split].
  - rewrite map_map. symmetry. rewrite <- (map_id l) at 2. apply map_ext_in. intros [k0 v] Hin%list_elem_of_In.
    apply Hex in Hin as (pk & r & Hpk & -> & ->). cbn [fst snd]. rewrite Hdrop, Hpk. done.
  - revert Hnd Hex Hdrop. clear. intros Hnd Hex Hdrop.
    assert (forall e, e ∈ l -> exists pk, e.1 = dataKey id pk) as Hk.
    { intros [k0 v] Hin. apply Hex in Hin as (pk & r & _ & -> & _). by exists pk. }
    clear Hex. induction l as [|e l IH]; [constructor|]. rewrite !fmap_cons in *.
    apply NoDup_cons in Hnd as [Hnin Hnd]. cbn [map fmap list_fmap fst].
    constructor; [|apply IH; [done|]; intros; apply Hk; by right].
    intros (pr & E & Hpr)%list_elem_of_fmap. apply list_elem_of_In, in_map_iff in Hpr as (e' & <- & Hin%list_elem_of_In).
    apply Hnin. destruct (Hk e) as [pk Epk]; [left|]. destruct (Hk e') as [pk' Epk']; [by right|].
    cbn [fst] in E. rewrite Epk, Epk', !Hdrop in E. subst pk'. rewrite Epk, <- Epk'.
    by apply list_elem_of_fmap_2.
  - intros pk r. rewrite list_elem_of_In, in_map_iff. split.
    + intros ([k0 v] & [= <- <-] & Hin%list_elem_of_In). apply Hex in Hin as (pk & r & Hpk & -> & ->).
      cbn [fst]. by rewrite Hdrop, Hpk.
    + intros Hpk. exists (dataKey id pk, encodeRow r). cbn [fst snd]. rewrite Hdrop, Hpk. split; [done|].
      apply list_elem_of_In, Hex. by exists pk, r.
Qed.

Definition survivors (col : gostr) (beforeMs : Z) (R : Rows) : Rows :=
  filter (fun kv => older col beforeMs kv.2 = false) R.
Definition expired (col : gostr) (beforeMs : Z) (R : Rows) : Rows :=
  filter (fun kv => older col beforeMs kv.2 = true) R.

Lemma foldr_delete_lookup (prs : list (gostr * Row)) (R : Rows) k :
  foldr (fun pr m => delete pr.1 m) R prs !! k = if decide (k ∈ prs.*1) then None else R !! k.
Proof.
  induction prs as [|pr prs IH]; cbn [foldr]; [by rewrite decide_False by (apply not_elem_of_nil)|].
  rewrite fmap_cons. destruct (decide (pr.1 = k)) as [E1|E1].
  - rewrite decide_True by (rewrite E1; left). by rewrite E1, lookup_delete_eq.
  - rewrite lookup_delete_ne, IH by done. apply decide_ext. rewrite elem_of_cons.
    split; [by right|]. by intros [?|?].
Qed.

Lemma doomed_rows (col : gostr) (beforeMs : Z) (R : Rows) (prs : list (gostr * Row)) :
  NoDup (prs.*1) -> (forall pk r, (pk, r) ∈ prs <-> R !! pk = Some r /\ older col beforeMs r = true) ->
  foldr (fun pr m => delete pr.1 m) R prs = survivors col beforeMs R /\
  zlen prs = Z.of_nat (size (expired col beforeMs R)).
Proof.
  intros Hnd Hin. split.
  - apply map_eq. intros k. rewrite foldr_delete_lookup. unfold survivors. rewrite map_lookup_filter.
    case_decide as E.
    + apply list_elem_of_fmap in E as ([k' r] & -> & Hk). apply Hin in Hk as [Hk Ho]. simpl in *.
      rewrite Hk. simpl. by rewrite Ho.
    + destruct (R !! k) as [r|] eqn:Ek; [|done]. simpl.
      destruct (older col beforeMs r) eqn:Eo; [|done].
      exfalso. apply E. apply (list_elem_of_fmap_2 fst prs (k, r)). by apply Hin.
  - unfold zlen. rewrite <- length_map_to_list. f_equal.
    assert (prs ≡ₚ map_to_list (expired col beforeMs R)) as ->; [|done].
    apply NoDup_Permutation.
    + by apply (NoDup_fmap_1 fst).
    + apply NoDup_map_to_list.
    + intros [k r]. rewrite Hin, elem_of_map_to_list. unfold expired. by rewrite map_lookup_filter_Some.
Qed.

Definition sweep_post (set : gostr) (beforeMs : Z) (d : DB) (A : AStore) (r : result db_err Z) (d' : DB) : Prop :=
  d_sets d' = d_sets d /\ d_nextID d' = d_nextID d /\ d_closed d' = d_closed d /\
  recorded_next (kv_get (d_kv d')) = recorded_next (kv_get (d_kv d)) /\
  match r with
  | Ok n =>
      (A !! set = None /\ n = 0 /\ db_inv d' A) \/
      exists R sm, A !! set = Some R /\ d_sets d !! set = Some sm /\
        let col := sweep_column (sm_Indexed sm) in
        n = Z.of_nat (size (expired col beforeMs R)) /\
        db_inv d' (<[set := survivors col beforeMs R]> A)
  | Err e => db_inv d' A /\ d_kv d' = d_kv d /\
      ((d_closed d = true /\ e = ErrClosed) \/ (d_faults d <> [] /\ e = ErrPebble))
  end.

(** From the rows found to the rows gone. *)
Lemma sweep_tail_wp (set : gostr) (beforeMs : Z) (d1 d : DB) (A : AStore) (sm : setMeta) (R : Rows) (prs : list (gostr * Row)) :
  db_inv d A -> d_sets d !! set = Some sm -> A !! set = Some R -> same_but_faults d d1 ->
  NoDup (prs.*1) ->
  (forall pk r, (pk, r) ∈ prs <-> R !! pk = Some r /\ older (sweep_column (sm_Indexed sm)) beforeMs r = true) ->
  wp (match map (sweep_entry sm) prs with
      | [] => mret 0
      | _ => b ← delete_rows [] (map (sweep_entry sm) prs); pdb_Apply b ;; mret (zlen (map (sweep_entry sm) prs))
      end) (sweep_post set beforeMs d A) d1.
Proof.
  intros Hi Hs HA Hsame Hnd Hin. destruct (inv_lookup _ _ _ _ _ _ _ Hi Hs) as (R' & HA' & Hsm).
  rewrite HA in HA'. injection HA' as <-.
  destruct (doomed_rows _ _ _ _ Hnd Hin) as [Hrows Hcount].
  destruct (map (sweep_entry sm) prs) as [|e0 dead0] eqn:Edead.
  { apply map_eq_nil in Edead. subst prs. apply wp_ret. cbn [foldr] in Hrows.
    destruct Hsame as (f & -> & _). repeat (split; [done|]). right. exists R, sm. split; [done|]. split; [done|].
    split; [done|]. rewrite <- Hrows, insert_id by done. exact Hi. }
  rewrite <- Edead. assert (Hlen : zlen (map (sweep_entry sm) prs) = zlen prs) by (unfold zlen; by rewrite length_map).
  rewrite Hlen, Hcount. clear e0 dead0 Edead Hlen.
  pose proof (inv_id32 _ _ _ _ _ _ _ Hi Hs) as Hid.
  apply wp_bind, delete_rows_wp.
  - intros pk r Hpr. apply Hin in Hpr as [Hpk _]. by apply (rep_rows _ _ _ _ (si_rep _ _ _ _ Hsm)).
  - intros d2 H2. pose proof (same_trans _ _ _ Hsame H2) as H02. cbn [app].
    set (ops := rows_dels (sm_ID sm) (sm_Indexed sm) prs).
    apply wp_bind, wp_pdb_Apply.
    + intros d3 H3. destruct (same_trans _ _ _ H02 H3) as (f3 & -> & _). destruct H02 as (f2 & -> & _).
      apply wp_ret. cbn [d_kv set_faults].
      assert (Hout : forall k, area k <> Some (sm_ID sm) -> kv_get (kv_apply (d_kv d) ops) k = kv_get (d_kv d) k).
      { intros k Hk. rewrite kv_get_apply. eapply ops_outside; [by apply rows_dels_within | done]. }
      split; [done|]. split; [done|]. split; [done|]. split; [apply recorded_other; by apply Hout|].
      right. exists R, sm. split; [done|]. split; [done|]. split; [done|]. rewrite <- Hrows.
      eapply inv_rows; [exact Hi|exact Hs|exact HA|exact Hout| |].
      * apply (rep_ext (fun k => ops_get ops k (kv_get (d_kv d) k))); [intros k; apply kv_get_apply|].
        apply rep_deletes; [apply Hsm|done|]. intros pk r Hpr. by apply Hin in Hpr as [? _].
      * right. intros ->. apply map_eq. intros k. rewrite foldr_delete_lookup. by case_decide.
    + intros Hf d3 H3. destruct (same_trans _ _ _ H02 H3) as (f3 & -> & _).
      repeat (split; [done|]). right. split; [|done]. by eapply (same_faults _ _ H02).
  - intros Hf d2 H2. destruct (same_trans _ _ _ Hsame H2) as (f3 & -> & _).
    repeat (split; [done|]). right. split; [|done]. by eapply (same_faults _ _ Hsame).
Qed.

Lemma doomed_indexed_rows (sm : setMeta) (ref : setRef_) (prs : list (gostr * Row)) :
  ref_id ref = sm_ID sm -> sm_Indexed sm <> [] -> (forall pk r, (pk, r) ∈ prs -> length pk = 16%nat) ->
  concat (map (doomed_indexed ref)
    (map (fun pr => (indexKey (sm_ID sm) 1 (default 0 (row_ts (sm_Indexed sm) pr.2)) pr.1, encodeRow pr.2)) prs))
  = map (sweep_entry sm) prs.
Proof.
  intros Hid Hne. induction prs as [|[pk r] prs IH]; intros Hlen; [done|]. cbn [map concat fst snd].
  rewrite IH by (intros pk' r' Hin; apply (Hlen pk' r'); by right).
  unfold doomed_indexed at 1. cbn [fst snd]. rewrite indexKeyPK_key by (apply (Hlen pk r); left).
  unfold sweep_entry at 2. rewrite (proj2 (bytes_eqb_neq _ _) Hne), Hid. done.
Qed.

Lemma doomed_scanned_rows (sm : setMeta) (beforeMs : Z) (prs : list (gostr * Row)) :
  sm_Indexed sm = [] -> (forall pk r, (pk, r) ∈ prs -> row_storable r) ->
  concat (map (doomed_scanned beforeMs) (map (fun pr => (dataKey (sm_ID sm) pr.1, encodeRow pr.2)) prs))
  = map (sweep_entry sm) (filter (fun pr => older TimestampField beforeMs pr.2 = true) prs).
Proof.
  intros Hidx. induction prs as [|[pk r] prs IH]; intros Hst; [done|]. cbn [map concat fst snd].
  rewrite IH by (intros pk' r' Hin; apply (Hst pk' r'); by right).
  unfold doomed_scanned at 1. cbn [fst snd].
  unfold encodeRow. rewrite (decode_entries r (map_to_list r)); [|apply (Hst pk r); left|done].
  rewrite map_lookup_filter. cbn [wants].
  rewrite filter_cons. cbn [snd].
  assert (Ho : older TimestampField beforeMs r =
    (let '(ts, ok) := AsInt (default VInvalid (r !! TimestampField)) in ok && (ts <? beforeMs))).
  { unfold older, row_ts. destruct (r !! TimestampField) as [v|]; [|done].
    cbn [default from_option]. change (id v) with v. by destruct (AsInt v) as [ts []]. }
  rewrite Ho. match goal with |- context [AsInt (default VInvalid ?t)] =>
    assert (t = r !! TimestampField) as -> end.
  { destruct (r !! TimestampField); [|done]. simpl.
    rewrite bool_decide_true by set_solver. by rewrite option_guard_True. }
  destruct (AsInt (default VInvalid (r !! TimestampField))) as [ts ok].
  destruct ok; cbn [negb orb andb]; [|by rewrite decide_False].
  rewrite Z.geb_leb, Z.leb_antisym. destruct (ts <? beforeMs); cbn [negb]; [|by rewrite decide_False].
  rewrite decide_True by done. cbn [map app]. unfold sweep_entry at 2. by rewrite Hidx.
Qed.

Lemma DeleteOlderThan_wp (set : gostr) (beforeMs : Z) (d : DB) (A : AStore) :
  db_inv d A -> in_i64 beforeMs -> wp (DeleteOlderThan set beforeMs) (sweep_post set beforeMs d A) d.
Proof.
  intros Hi Hms. apply wp_bind, guard_open_wp.
  2: { intros Hc. repeat (split; [done|]). by left. }
  intros Hopen. apply wp_bind, wp_get_db. unfold setRef.
  destruct (d_sets d !! set) as [sm|] eqn:Es.
  2: { apply wp_ret. repeat (split; [done|]). left. split; [|done].
       destruct (A !! set) eqn:E; [|done].
       destruct (proj2 (inv_dom _ _ _ _ _ Hi set)) as [? ?]; [by rewrite E | congruence]. }
  destruct (inv_lookup _ _ _ _ _ _ _ Hi Es) as (R & HA & Hsm).
  pose proof (inv_id32 _ _ _ _ _ _ _ Hi Es) as Hid. pose proof (si_rep _ _ _ _ Hsm) as Hrep.
  assert (Herr : d_faults d <> [] -> forall d', same_but_faults d d' -> sweep_post set beforeMs d A (Err ErrPebble) d').
  { intros Hf d' (f & -> & _). repeat (split; [done|]). by right. }
  cbn [ref_id ref_indexed ref_indexCol]. apply wp_bind.
  destruct (bytes_eqb (sm_Indexed sm) []) eqn:Ei; cbn [negb].
  - apply bytes_eqb_spec in Ei. apply wp_bind, wp_pdb_Iter; [|done]. intros d1 H1. apply wp_ret.
    rewrite Ei in Hrep.
    destruct (data_scan_rows _ _ _ _ Hrep eq_refl) as (prs & -> & Hnd & Hin).
    rewrite doomed_scanned_rows; [|done|intros pk r Hpr; apply Hin in Hpr; by destruct (rep_rows _ _ _ _ Hrep _ _ Hpr) as (_ & ? & _)].
    eapply (sweep_tail_wp set beforeMs d1 d A sm R); try done.
    + eapply sublist_NoDup; [exact Hnd|]. apply fmap_sublist, sublist_filter.
    + intros pk r. rewrite list_elem_of_filter, Hin. unfold sweep_column. rewrite Ei. simpl. tauto.
  - apply bytes_eqb_neq in Ei. apply wp_bind, wp_pdb_Iter; [|done]. intros d1 H1. apply wp_ret.
    rewrite (si_col _ _ _ _ Hsm Ei).
    destruct (index_scan_rows (d_kv d) (sm_ID sm) (sm_Indexed sm) R (indexPrefix (sm_ID sm) 1)
                (Some (indexBound (sm_ID sm) 1 beforeMs)) (fun ts => ts <? beforeMs) _ Hrep Ei
                (in_range_index _ _ _) (fun ts pk => in_range_below _ _ _ _ Hid Hms) eq_refl)
      as (prs & -> & Hnd & Hin).
    rewrite doomed_indexed_rows; [|done|done|intros pk r Hpr; apply Hin in Hpr as [Hpk _]; by destruct (rep_rows _ _ _ _ Hrep _ _ Hpk)].
    eapply (sweep_tail_wp set beforeMs d1 d A sm R); try done. intros pk r. rewrite Hin. unfold sweep_column.
    by rewrite (proj2 (bytes_eqb_neq _ _) Ei).
Qed.
End Store.
