(* ===== verification/EngineOpen.v ===== *)
(** * EngineOpen: restarting on what the disk holds

    [Open] rebuilds the schema maps from the records under [M/set/].  Run
    on the LSM of any store that satisfies the invariant, after failed
    writes as well, it yields a store with the same rows in every set and
    a set-id counter above every id ever recorded. *)

From Stdlib Require Import ZArith Lia Bool.
From Stdlib Require Import Strings.Byte Strings.String.
From stdpp Require Import sorting.
From S2P Require Import Prelude Bytes Float64 GoStd Model EngineKeys EngineCodec EngineDB EngineRep.
From S2P Require Import EngineInv EngineSchema EngineStore.

Section Open_.
Context `{FloatText} `{J : MetaJSON} `{!MetaJSONLaws J} `{L : LSM} `{!LSMLaws L}.

Abbreviation AStore := (gmap gostr Rows).

(** The maps after some of the records were read. *)
Record loaded (hw : Z) (l : list (gostr * gostr)) (d : DB) : Prop := {
  ld_sets : forall n sm, d_sets d !! n = Some sm <-> exists v, (setKey n, v) ∈ l /\ json_Unmarshal v = Some sm;
  ld_byID : forall id n, d_byID d !! id = Some n <-> holds_id (d_sets d) n id;
  ld_next : 0 <= d_nextID d <= hw;
}.

(** Records that were written for distinct sets with distinct ids. *)
Record records_ok (hw : Z) (l : list (gostr * gostr)) : Prop := {
  ro_read : forall k v, (k, v) ∈ l -> exists sm, json_Unmarshal v = Some sm /\ k = setKey (sm_Name sm) /\ 0 <= sm_ID sm < hw;
  ro_keys : NoDup (l.*1);
  ro_ids : forall k1 v1 k2 v2 sm1 sm2, (k1, v1) ∈ l -> (k2, v2) ∈ l ->
    json_Unmarshal v1 = Some sm1 -> json_Unmarshal v2 = Some sm2 -> sm_ID sm1 = sm_ID sm2 -> k1 = k2;
}.

Definition same_but_maps (d d' : DB) : Prop :=
  d_kv d' = d_kv d /\ d_closed d' = d_closed d /\ d_faults d' = d_faults d.

Lemma load_sets_wp hw todo : forall l d,
  in_u32 hw -> records_ok hw (l ++ todo) -> loaded hw l d ->
  wp (load_sets todo) (fun r d' => r = Ok tt /\ loaded hw (l ++ todo) d' /\ same_but_maps d d') d.
Proof.
  induction todo as [|[k v] todo IH]; intros l d Hhw Hok Hld; cbn [load_sets].
  { apply wp_ret. rewrite app_nil_r. done. }
  destruct (ro_read _ _ Hok k v) as (sm & Hsm & -> & Hid); [rewrite elem_of_app; right; left|].
  rewrite Hsm. apply wp_bind, wp_modify.
  assert (Hl : l ++ (setKey (sm_Name sm), v) :: todo = (l ++ [(setKey (sm_Name sm), v)]) ++ todo)
    by (by rewrite <- app_assoc).
  rewrite Hl in Hok |- *. eapply wp_mono; [apply IH; [done|done|]|].
  2: { intros r d' (-> & H1 & H2). split; [done|]. split; [done|]. exact H2. }
  assert (Hnin : forall v', (setKey (sm_Name sm), v') ∉ l).
  { intros v' Hin. pose proof (ro_keys _ _ Hok) as Hnd. rewrite !fmap_app in Hnd.
    apply NoDup_app in Hnd as [Hnd _]. apply NoDup_app in Hnd as (_ & Hnd & _).
    apply (Hnd (setKey (sm_Name sm))); [by apply (list_elem_of_fmap_2 fst) in Hin | left]. }
  assert (Hids : forall n, ~ holds_id (d_sets d) n (sm_ID sm)).
  { intros n (sm1 & Hs1 & Hid1). apply (ld_sets _ _ _ Hld) in Hs1 as (v1 & Hin1 & Hv1).
    assert (setKey n = setKey (sm_Name sm)) as E.
    { eapply (ro_ids _ _ Hok _ v1 _ v sm1 sm); try done.
      - rewrite !elem_of_app. by left; left.
      - rewrite !elem_of_app. left; right; left. }
    rewrite E in Hin1. by apply Hnin in Hin1. }
  destruct Hld as [H1 H2 H3]. split; cbn [d_sets d_byID d_nextID set_maps].
  - intros n sm'. rewrite lookup_insert. case_decide as E.
    + subst n. split.
      * intros [= <-]. exists v. split; [|done]. rewrite elem_of_app. right. left.
      * intros (v' & Hin & Hv'). apply elem_of_app in Hin as [Hin|Hin]; [by apply Hnin in Hin|].
        apply list_elem_of_singleton in Hin as [= <-]. congruence.
    + rewrite H1. split; intros (v' & Hin & Hv'); exists v'; (split; [|done]).
      * rewrite elem_of_app. by left.
      * apply elem_of_app in Hin as [Hin|Hin]; [done|].
        apply list_elem_of_singleton, pair_equal_spec in Hin as [Hk%setKey_inj ->]. congruence.
  - intros id n. unfold holds_id. rewrite !lookup_insert.
    destruct (decide (sm_ID sm = id)) as [<-|E1], (decide (sm_Name sm = n)) as [<-|E2].
    + split; [intros _; by exists sm | done].
    + split; [intros [= E]; congruence|]. intros (sm1 & Hs1 & Hid1). exfalso. apply (Hids n). by exists sm1.
    + split.
      * intros Hb. apply H2 in Hb as (sm1 & Hs1 & _). apply H1 in Hs1 as (v1 & Hin1 & _).
        by apply Hnin in Hin1.
      * by intros (sm1 & [= <-] & Heq).
    + apply H2.
  - destruct (sm_ID sm >=? d_nextID d) eqn:E; bsplit; [|lia].
    unfold u32. rewrite Z.mod_small by mlia. lia.
Qed.

(** The state a restart comes back to. *)
Definition reopened (d : DB) (A : AStore) (d' : DB) : Prop :=
  exists A', db_inv d' A' /\ d_closed d' = false /\ d_kv d' = d_kv d /\
    d_nextID d' = recorded_next (kv_get (d_kv d)) /\
    (forall n, rows_of A' n = rows_of A n) /\
    (forall n sm, d_sets d !! n = Some sm -> sm_dirty sm = false -> d_sets d' !! n = Some sm) /\
    (forall n sm, d_sets d' !! n = Some sm -> exists sm', d_sets d !! n = Some sm' /\ sm_ID sm' = sm_ID sm).

Lemma disk_records d A :
  db_inv d A ->
  let l := kv_scan (d_kv d) (metaKey [bs "set"; []]) (prefixEnd (metaKey [bs "set"; []])) in
  (forall n v, (setKey n, v) ∈ l <-> kv_get (d_kv d) (setKey n) = Some v) /\
  records_ok (recorded_next (kv_get (d_kv d))) l.
Proof.
  intros Hi l.
  assert (Hel : forall k v, (k, v) ∈ l <-> exists n, k = setKey n /\ kv_get (d_kv d) (setKey n) = Some v).
  { intros k v. unfold l. rewrite kv_scan_elem, in_range_prefixEnd. split.
    - intros [[n ->] Hg]. exists n. by rewrite setKey_prefix in *.
    - intros (n & -> & Hg). split; [|done]. exists n. by rewrite setKey_prefix. }
  assert (Hrec : forall n v, kv_get (d_kv d) (setKey n) = Some v ->
    exists sm sm0, d_sets d !! n = Some sm /\ json_Unmarshal v = Some sm0 /\ sm_ID sm0 = sm_ID sm /\
      sm_Name sm0 = n /\ 0 <= sm_ID sm0 < recorded_next (kv_get (d_kv d))).
  { intros n v Hg. destruct (d_sets d !! n) as [sm|] eqn:Es.
    2: { rewrite (inv_nometa _ _ _ _ _ Hi) in Hg by done. done. }
    destruct (inv_lookup _ _ _ _ _ _ _ Hi Es) as (R & HA & Hsm).
    pose proof (si_disk _ _ _ _ Hsm) as Hd. unfold disk_ok in Hd. rewrite (si_name _ _ _ _ Hsm), Hg in Hd.
    destruct Hd as (sm0 & Hj & Hid & Hname & _). exists sm, sm0.
    split; [done|]. split; [done|]. split; [done|]. split; [done|]. rewrite Hid. apply Hsm. }
  split.
  - intros n v. rewrite Hel. split; [|intros ?; by exists n]. by intros (n' & ->%setKey_inj & ?).
  - split.
    + intros k v (n & -> & Hg)%Hel. destruct (Hrec _ _ Hg) as (sm & sm0 & _ & Hj & _ & Hn & Hid).
      exists sm0. by rewrite Hn.
    + apply sorted_keys_nodup, kv_scan_sorted.
    + intros k1 v1 k2 v2 sm1 sm2 (n1 & -> & Hg1)%Hel (n2 & -> & Hg2)%Hel Hj1 Hj2 Hid.
      destruct (Hrec _ _ Hg1) as (s1 & s1' & Hs1 & Hj1' & Hi1 & _), (Hrec _ _ Hg2) as (s2 & s2' & Hs2 & Hj2' & Hi2 & _).
      f_equal. apply (inv_inj _ _ _ _ _ Hi n1 n2 (sm_ID s1)); [by exists s1|]. exists s2. split; [done|].
      congruence.
Qed.

Lemma reopened_inv d A d' :
  db_inv d A -> d_kv d' = d_kv d -> d_closed d' = false ->
  loaded (recorded_next (kv_get (d_kv d)))
    (kv_scan (d_kv d) (metaKey [bs "set"; []]) (prefixEnd (metaKey [bs "set"; []]))) d' ->
  reopened d A (set_maps (d_sets d') (d_byID d') (recorded_next (kv_get (d_kv d))) d').
Proof.
  intros Hi Hkv Hopen [H1 H2 H3]. destruct (disk_records d A Hi) as [Hel Hok].
  assert (Hback : forall n sm0, d_sets d' !! n = Some sm0 ->
    exists sm R, d_sets d !! n = Some sm /\ A !! n = Some R /\ set_inv (kv_get (d_kv d)) n sm R /\
      sm_ID sm0 = sm_ID sm /\ sm_Name sm0 = n /\ set_inv (kv_get (d_kv d)) n sm0 R).
  { intros n sm0 Hs0. apply H1 in Hs0 as (v & Hg & Hj). apply Hel in Hg.
    destruct (d_sets d !! n) as [sm|] eqn:Es.
    2: { rewrite (inv_nometa _ _ _ _ _ Hi) in Hg by done. done. }
    destruct (inv_lookup _ _ _ _ _ _ _ Hi Es) as (R & HA & Hsm). exists sm, R.
    pose proof (si_disk _ _ _ _ Hsm) as Hd. unfold disk_ok in Hd. rewrite (si_name _ _ _ _ Hsm), Hg in Hd.
    destruct Hd as (sm0' & Hj' & Hid & Hname & Hu & Hc & Hc32 & Hd0 & Hix & _).
    rewrite Hj in Hj'. injection Hj' as <-.
    split; [done|]. split; [done|]. split; [done|]. split; [done|]. split; [done|]. split; try done.
    - rewrite Hid. apply Hsm.
    - rewrite Hid. destruct Hix as [->| ->]; [apply Hsm|]. apply rep_empty.
      apply (rep_empty _ _ (sm_Indexed sm)). apply Hsm.
    - unfold disk_ok. rewrite Hname, Hg. exists sm0. repeat (split; [done|]). by split; [left|]. }
  assert (Hgone : forall n sm, d_sets d !! n = Some sm -> d_sets d' !! n = None -> A !! n = Some ∅).
  { intros n sm Es Hn. destruct (inv_lookup _ _ _ _ _ _ _ Hi Es) as (R & HA & Hsm).
    pose proof (si_disk _ _ _ _ Hsm) as Hd. unfold disk_ok in Hd. rewrite (si_name _ _ _ _ Hsm) in Hd.
    destruct (kv_get (d_kv d) (setKey n)) as [v|] eqn:Hg.
    - destruct Hd as (sm0 & Hj & _). assert (d_sets d' !! n = Some sm0) as E; [|congruence].
      apply H1. exists v. split; [by apply Hel | done].
    - destruct Hd as [-> _]. done. }
  exists (filter (fun nr => is_Some (d_sets d' !! nr.1)) A).
  split; [|split; [done|split; [done|split; [done|split; [|split]]]]].
  - unfold db_inv. cbn [d_kv d_sets d_byID d_nextID set_maps]. rewrite Hkv. split.
    + pose proof (inv_rec _ _ _ _ _ Hi). pose proof (inv_next _ _ _ _ _ Hi). mlia.
    + done.
    + apply (inv_version _ _ _ _ _ Hi).
    + intros n. split.
      * intros [sm0 Hs0]. destruct (Hback _ _ Hs0) as (sm & R & _ & HA & _). exists R.
        rewrite map_lookup_filter_Some. simpl. rewrite Hs0. eauto.
      * intros [R HR]. by apply map_lookup_filter_Some in HR as [_ ?].
    + intros n sm0 R Hs0 HR. apply map_lookup_filter_Some in HR as [HR _].
      destruct (Hback _ _ Hs0) as (sm & R' & _ & HA & _ & _ & _ & Hsi). congruence.
    + intros n1 n2 id (s1 & Hs1 & Hi1) (s2 & Hs2 & Hi2).
      destruct (Hback _ _ Hs1) as (t1 & ? & Ht1 & _ & _ & E1 & _), (Hback _ _ Hs2) as (t2 & ? & Ht2 & _ & _ & E2 & _).
      apply (inv_inj _ _ _ _ _ Hi n1 n2 id); [exists t1 | exists t2]; (split; [done|congruence]).
    + intros id Hid Hfree. destruct (d_byID d !! id) as [n|] eqn:Eb.
      2: { apply (inv_free _ _ _ _ _ Hi); [done|]. intros n Hn.
           apply (inv_byID _ _ _ _ _ Hi) in Hn. congruence. }
      apply (inv_byID _ _ _ _ _ Hi) in Eb as (sm & Es & <-).
      assert (d_sets d' !! n = None) as Hn.
      { destruct (d_sets d' !! n) as [sm0|] eqn:E; [|done]. exfalso. apply (Hfree n). exists sm0.
        split; [done|]. destruct (Hback _ _ E) as (sm1 & R & Hs1 & _ & _ & Hid1 & _). congruence. }
      destruct (inv_lookup _ _ _ _ _ _ _ Hi Es) as (R & HA & Hsm). rewrite (Hgone n sm) in HA by done.
      injection HA as <-. apply rep_empty. apply (rep_empty _ _ (sm_Indexed sm)). apply Hsm.
    + intros n Hn. destruct (kv_get (d_kv d) (setKey n)) as [v|] eqn:Hg; [|done].
      apply Hel in Hg. destruct (ro_read _ _ Hok _ _ Hg) as (sm0 & Hj & _).
      assert (d_sets d' !! n = Some sm0) as E; [|congruence]. apply H1. by exists v.
    + apply H2.
  - intros n. unfold rows_of. rewrite map_lookup_filter. destruct (A !! n) as [R|] eqn:HA; [|done]. simpl.
    destruct (d_sets d' !! n) as [sm0|] eqn:E.
    + by rewrite option_guard_True by eauto.
    + rewrite option_guard_False by (by intros [? [=]]). simpl.
      destruct (proj2 (inv_dom _ _ _ _ _ Hi n)) as [sm Es]; [by rewrite HA|].
      rewrite (Hgone n sm) in HA by done. by injection HA as <-.
  - intros n sm Es Hclean. cbn [d_sets set_maps]. destruct (inv_lookup _ _ _ _ _ _ _ Hi Es) as (R & HA & Hsm).
    pose proof (si_disk _ _ _ _ Hsm) as Hd. unfold disk_ok in Hd. rewrite (si_name _ _ _ _ Hsm) in Hd.
    destruct (kv_get (d_kv d) (setKey n)) as [v|] eqn:Hg; [|destruct Hd; congruence].
    destruct Hd as (sm0 & Hj & _ & _ & _ & _ & _ & _ & _ & Heq). rewrite (Heq Hclean) in Hj.
    apply H1. exists v. split; [by apply Hel | done].
  - intros n sm0 Hs0. destruct (Hback _ _ Hs0) as (sm & R & Es & _ & _ & Hid & _). by exists sm.
Qed.

Lemma wp_eq {A} (m : M A) (Q : result db_err A -> DB -> Prop) d r d' : m d = (r, d') -> Q r d' -> wp m Q d.
Proof. unfold wp. by intros ->. Qed.

Lemma load_version_wp Q d :
  kv_get (d_kv d) verKey = Some (PutUint32 currentStorageVersion) ->
  (forall d', same_but_faults d d' -> Q (Ok tt) d') ->
  (d_faults d <> [] -> forall d', same_but_faults d d' -> Q (Err ErrPebble) d') ->
  wp load_version Q d.
Proof.
  intros Hv Hok Herr. apply wp_bind, wp_pdb_Get; [|done]. intros d1 H1. rewrite Hv. apply wp_ret. by apply Hok.
Qed.

Lemma loadNextID_wp Q d :
  (forall d', same_but_faults d d' -> Q (Ok (recorded_next (kv_get (d_kv d)))) d') ->
  (d_faults d <> [] -> forall d', same_but_faults d d' -> Q (Err ErrPebble) d') ->
  wp loadNextID Q d.
Proof.
  intros Hok Herr. apply wp_bind, wp_pdb_Get; [|done]. intros d1 H1. unfold recorded_next in Hok.
  destruct (kv_get (d_kv d) nextIDKey) as [v|]; [|by apply wp_ret, Hok].
  destruct (zlen v <? 4); by apply wp_ret, Hok.
Qed.

Lemma same_maps_keep d d' : same_but_faults d d' ->
  d_kv d' = d_kv d /\ d_sets d' = d_sets d /\ d_byID d' = d_byID d /\ d_nextID d' = d_nextID d /\ d_closed d' = d_closed d.
Proof. by intros (f & -> & _). Qed.

Lemma Open_run path d A faults (Q : result db_err unit -> DB -> Prop) :
  db_inv d A -> path <> [] ->
  (forall d', reopened d A d' -> Q (Ok tt) d') ->
  (faults <> [] -> forall d', Q (Err ErrPebble) d') ->
  Q (Open path (d_kv d) faults).1 (Open path (d_kv d) faults).2.
Proof.
  intros Hi Hpath Hok Herr. unfold Open.
  assert ((zlen path =? 0) = false) as ->.
  { apply Z.eqb_neq. destruct path; [done|]. rewrite zlen_cons. pose proof (zlen_nonneg path). lia. }
  set (d0 := fresh_db (d_kv d) faults). change (wp (pebble_call ;; loadMeta) Q d0).
  assert (Hf0 : d_faults d0 <> [] -> faults <> []) by done.
  apply wp_bind, wp_pebble_call; [|intros Hf d1 _; by apply Herr]. intros d1 H1.
  apply wp_bind, load_version_wp.
  { destruct (same_maps_keep _ _ H1) as (-> & _). apply (inv_version _ _ _ _ _ Hi). }
  2: { intros Hf d2 _. apply Herr. by apply (same_faults _ _ H1). }
  intros d2 H2. pose proof (same_trans _ _ _ H1 H2) as H02.
  apply wp_bind, wp_pebble_call.
  2: { intros Hf d3 _. apply Herr. by apply (same_faults _ _ H02). }
  intros d3 H3. pose proof (same_trans _ _ _ H02 H3) as H03.
  destruct (same_maps_keep _ _ H03) as (K3 & S3 & B3 & N3 & C3).
  apply wp_bind, wp_get_db, wp_bind. rewrite K3.
  destruct (disk_records d A Hi) as [Hel Hrok]. change (d_kv d0) with (d_kv d).
  set (hw := recorded_next (kv_get (d_kv d))) in *.
  set (l := kv_scan (d_kv d) (metaKey [bs "set"; []]) (prefixEnd (metaKey [bs "set"; []]))) in *.
  assert (Hhw : in_u32 hw).
  { pose proof (inv_rec _ _ _ _ _ Hi). pose proof (inv_next _ _ _ _ _ Hi).
    assert (0 <= hw); [|unfold hw in *; mlia].
    unfold hw, recorded_next. destruct (kv_get (d_kv d) nextIDKey) as [v|]; [|lia].
    destruct (zlen v <? 4); [lia|]. unfold Uint32. apply be_val_bound. }
  eapply wp_mono; [apply (load_sets_wp hw l []); [done|exact Hrok|]|].
  { split; rewrite ?S3, ?B3, ?N3; cbn [d_sets d_byID d_nextID d0 fresh_db].
    - intros n sm. rewrite lookup_empty. split; [done|]. intros (v & Hin & _). by apply not_elem_of_nil in Hin.
    - intros id n. rewrite lookup_empty. split; [done|]. intros (sm & Hs & _). by rewrite lookup_empty in Hs.
    - mlia. }
  cbn [app]. intros r d4 (-> & Hld & K4 & C4 & F4).
  assert (Hf4 : d_faults d4 <> [] -> faults <> []).
  { rewrite F4. intros Hf. by apply (same_faults _ _ H03). }
  apply wp_bind, wp_pebble_call; [|intros Hf d5 _; by apply Herr, Hf4]. intros d5 H5.
  destruct (same_maps_keep _ _ H5) as (K5 & S5 & B5 & N5 & C5).
  apply wp_bind, loadNextID_wp.
  2: { intros Hf d6 _. apply Herr, Hf4. by apply (same_faults _ _ H5). }
  intros d6 H6. destruct (same_maps_keep _ _ H6) as (K6 & S6 & B6 & N6 & C6).
  assert (Hk : d_kv d6 = d_kv d) by (rewrite K6, K5, K4, K3; done).
  assert (Hrec : recorded_next (kv_get (d_kv d5)) = hw) by (rewrite K5, K4, K3; done).
  rewrite Hrec.
  assert (Hld6 : loaded hw l d6).
  { destruct Hld as [L1 L2 L3]. split; rewrite S6, S5 || rewrite B6, B5 || rewrite N6, N5; try done.
    intros id n. rewrite B6, B5, ?S6, ?S5. apply L2. }
  pose proof (ld_next _ _ _ Hld6) as Hn6.
  assert (Hend : (if hw >? d_nextID d6 then set_maps (d_sets d6) (d_byID d6) hw d6 else d6)
                 = set_maps (d_sets d6) (d_byID d6) hw d6).
  { rewrite Z.gtb_ltb. destruct (d_nextID d6 <? hw) eqn:E; [done|]. bsplit.
    assert (d_nextID d6 = hw) as <- by lia. by destruct d6. }
  apply wp_bind, wp_modify, wp_bind, wp_get_db. rewrite Hend. cbn [d_nextID set_maps].
  rewrite Z.eqb_refl. cbn [negb]. apply wp_ret, Hok.
  apply reopened_inv; [done|done| |exact Hld6]. rewrite C6, C5, C4, C3. done.
Qed.

(** A store opened on an empty directory. *)
Lemma Open_empty path d' :
  path <> [] -> Open path kv_empty [] = (Ok tt, d') -> db_inv d' ∅ /\ d_nextID d' = 0 /\ d_closed d' = false.
Proof.
  intros Hpath. unfold Open.
  assert ((zlen path =? 0) = false) as ->.
  { apply Z.eqb_neq. destruct path; [done|]. rewrite zlen_cons. pose proof (zlen_nonneg path). lia. }
  set (k1 := kv_apply kv_empty [BSet verKey (PutUint32 currentStorageVersion)]).
  assert (Hg : forall k, kv_get k1 k = if decide (verKey = k) then Some (PutUint32 currentStorageVersion) else None).
  { intros k. unfold k1. by rewrite kv_get_apply, ops_get_set, kv_get_empty. }
  assert (Hscan : kv_scan k1 (metaKey [bs "set"; []]) (prefixEnd (metaKey [bs "set"; []])) = []).
  { destruct (kv_scan k1 (metaKey [bs "set"; []]) (prefixEnd (metaKey [bs "set"; []]))) as [|[k v] l] eqn:E; [done|].
    assert ((k, v) ∈ kv_scan k1 (metaKey [bs "set"; []]) (prefixEnd (metaKey [bs "set"; []]))) as Hin
      by (rewrite E; left).
    apply kv_scan_elem in Hin as [[n ->]%in_range_prefixEnd Hv]. rewrite Hg, decide_False in Hv; [done|].
    rewrite setKey_prefix. done. }
  assert (Hrec : recorded_next (kv_get k1) = 0) by (unfold recorded_next; by rewrite Hg, decide_False).
  intros E.
  assert (E' : (pebble_call ;; loadMeta) (fresh_db kv_empty []) = (Ok tt, set_kv k1 (fresh_db kv_empty []))).
  { change (loadMeta (fresh_db kv_empty []) = (Ok tt, set_kv k1 (fresh_db kv_empty []))).
    unfold loadMeta, mbind at 1, M_bind at 1.
    assert (load_version (fresh_db kv_empty []) = (Ok tt, set_kv k1 (fresh_db kv_empty []))) as ->.
    { unfold load_version, pdb_Get, mbind, M_bind. simpl. by rewrite kv_get_empty. }
    unfold mbind, M_bind. cbn [pebble_call d_faults set_kv fresh_db get_db mret M_ret d_kv].
    rewrite Hscan. cbn [load_sets mret M_ret pebble_call d_faults set_kv fresh_db].
    unfold loadNextID, pdb_Get, mbind, M_bind. cbn [pebble_call d_faults set_kv fresh_db get_db mret M_ret d_kv].
    assert (kv_get k1 nextIDKey = None) as -> by (by rewrite Hg, decide_False). done. }
  rewrite E' in E. injection E as <-. split; [|done]. unfold db_inv. cbn [d_kv d_sets d_byID d_nextID set_kv fresh_db].
  split; try done.
  - by rewrite Hrec.
  - intros n. by rewrite !lookup_empty.
  - intros n1 n2 id (sm & Hs & _). by rewrite lookup_empty in Hs.
  - intros id Hid _. apply rep_empty. split; intros rest; by rewrite Hg, decide_False.
  - intros id n. rewrite lookup_empty. split; [done|]. intros (sm & Hs & _). by rewrite lookup_empty in Hs.
Qed.
End Open_.
