(* ===== verification/EngineQuery.v ===== *)
(** * EngineQuery: scans

    [QueryBuilder] and [Iter] of [internal/engine/query.go].  A range on
    the indexed column becomes the bounds of the LSM iterator, any other
    range a predicate; rows are filtered and projected off their payload
    while the iterator walks a snapshot forwards or backwards. *)

From Stdlib Require Import ZArith Lia Bool.
From Stdlib Require Import Strings.Byte Strings.String.
From Stdlib Require Import Floats.SpecFloat.
From stdpp Require Import sorting.
From S2P Require Import Prelude Bytes Float64 GoStd Model EngineKeys EngineCodec EngineFilter EngineDB.
From S2P Require Import EngineDB.

Section Query.
Context `{FloatText} `{J : MetaJSON} `{L : LSM}.

Record QueryBuilder := {
  q_set : gostr;
  q_bet : option (gostr * Z * Z);        (* betCol, betLo, betHi when hasBet *)
  q_where : option Expr;
  q_project : list gostr;
  q_reverse : bool;
}.

Definition NewQuery (set : gostr) : QueryBuilder :=
  {| q_set := set; q_bet := None; q_where := None; q_project := []; q_reverse := false |}.
Definition Between (q : QueryBuilder) (col : gostr) (lo hi : Z) : QueryBuilder :=
  {| q_set := q_set q; q_bet := Some (col, lo, hi); q_where := q_where q;
     q_project := q_project q; q_reverse := q_reverse q |}.
Definition Where (q : QueryBuilder) (e : Expr) : QueryBuilder :=
  {| q_set := q_set q; q_bet := q_bet q; q_where := Some e;
     q_project := q_project q; q_reverse := q_reverse q |}.
Definition Project (q : QueryBuilder) (c : list gostr) : QueryBuilder :=
  {| q_set := q_set q; q_bet := q_bet q; q_where := q_where q;
     q_project := q_project q ++ c; q_reverse := q_reverse q |}.
Definition Reverse (q : QueryBuilder) (v : bool) : QueryBuilder :=
  {| q_set := q_set q; q_bet := q_bet q; q_where := q_where q;
     q_project := q_project q; q_reverse := v |}.

(** A pebble iterator over a snapshot: the entries in range and where it
    stands.  [it_ctx] says, turn by turn, whether the context is done. *)
Record Iter := {
  it_entries : list (gostr * gostr);
  it_pos : Z;
  it_where : option Expr;
  it_proj : option (gset gostr);
  it_indexed : bool;
  it_reverse : bool;
  it_key : gostr;
  it_row : Row;
  it_err : option db_err;
  it_closed : bool;
  it_started : bool;
  it_ctx : list bool;
}.

(** ** Run *)

(** The range demoted to a predicate. *)
Definition keepAsPredicate (bet : option (gostr * Z * Z)) (where_ : option Expr) (proj : option (gset gostr))
    : option Expr * option (gset gostr) :=
  match bet with
  | None => (where_, proj)
  | Some (col, lo, hi) =>
      let e := BetweenExpr col (VInt lo) (VInt hi) in
      (Some (match where_ with None => e | Some w => AndExpr [w; e] end),
       match proj with None => None | Some p => Some ({[col]} ∪ p) end)
  end.

Record Plan := {
  pl_lower : gostr; pl_upper : option gostr; pl_indexed : bool;
  pl_where : option Expr; pl_proj : option (gset gostr);
}.

Definition plan (sm : setRef_) (q : QueryBuilder) : Plan :=
  let proj0 := projectionSet (q_project q) in
  let proj := match proj0, q_where q with
              | Some p, Some w => Some (columns w p)
              | _, _ => proj0
              end in
  let ip := indexPrefix (ref_id sm) (ref_indexCol sm) in
  let dp := dataPrefix (ref_id sm) in
  let indexed_range :=
    match q_bet q with
    | Some (col, lo, hi) =>
        if negb (bytes_eqb (ref_indexed sm) []) && bytes_eqb col (ref_indexed sm) then Some (lo, hi) else None
    | None => None
    end in
  match indexed_range with
  | Some (lo, hi) =>
      {| pl_lower := indexBound (ref_id sm) (ref_indexCol sm) lo;
         pl_upper := if hi =? i64_max then prefixEnd ip
                     else Some (indexBound (ref_id sm) (ref_indexCol sm) (i64 (hi + 1)));
         pl_indexed := true; pl_where := q_where q; pl_proj := proj |}
  | None =>
      let '(w, p) := keepAsPredicate (q_bet q) (q_where q) proj in
      if negb (bytes_eqb (ref_indexed sm) []) then
        {| pl_lower := ip; pl_upper := prefixEnd ip; pl_indexed := true; pl_where := w; pl_proj := p |}
      else
        {| pl_lower := dp; pl_upper := prefixEnd dp; pl_indexed := false; pl_where := w; pl_proj := p |}
  end.

Definition bump_stats (dq dr di : Z) (s : Stats) : Stats :=
  {| st_Puts := st_Puts s; st_Gets := st_Gets s; st_Scans := st_Scans s;
     st_Queries := i64 (st_Queries s + dq); st_RowsScanned := i64 (st_RowsScanned s + dr);
     st_OpenIterators := i64 (st_OpenIterators s + di) |}.

Definition Run (q : QueryBuilder) (ctx : list bool) : M Iter :=
  guard_open ;;
  d ← get_db;
  match setRef d (q_set q) with
  | None => fail ErrUnknownSet
  | Some sm =>
      modify (fun d => set_stats (bump_stats 1 0 0 (d_stats d)) d) ;;
      pebble_call ;;
      modify (fun d => set_stats (bump_stats 0 0 1 (d_stats d)) d) ;;
      d ← get_db;
      let p := plan sm q in
      mret {| it_entries := kv_scan (d_kv d) (pl_lower p) (pl_upper p); it_pos := 0;
              it_where := pl_where p; it_proj := pl_proj p; it_indexed := pl_indexed p;
              it_reverse := q_reverse q; it_key := []; it_row := ∅; it_err := None;
              it_closed := false; it_started := false; it_ctx := ctx |}
  end.

Definition add_scans (s : Stats) : Stats :=
  {| st_Puts := st_Puts s; st_Gets := st_Gets s; st_Scans := i64 (st_Scans s + 1); st_Queries := st_Queries s;
     st_RowsScanned := st_RowsScanned s; st_OpenIterators := st_OpenIterators s |}.
Definition Scan (set : gostr) (projection : list gostr) (ctx : list bool) : M Iter :=
  modify (fun d => set_stats (add_scans (d_stats d)) d) ;;
  Run (Project (NewQuery set) projection) ctx.

(** ** Next *)

Definition it_with (i : Iter) (pos : Z) (started : bool) (ctx : list bool) (err : option db_err) : Iter :=
  {| it_entries := it_entries i; it_pos := pos; it_where := it_where i; it_proj := it_proj i;
     it_indexed := it_indexed i; it_reverse := it_reverse i; it_key := it_key i; it_row := it_row i;
     it_err := err; it_closed := it_closed i; it_started := started; it_ctx := ctx |}.
Definition it_found (i : Iter) (key : gostr) (row : Row) : Iter :=
  {| it_entries := it_entries i; it_pos := it_pos i; it_where := it_where i; it_proj := it_proj i;
     it_indexed := it_indexed i; it_reverse := it_reverse i; it_key := key; it_row := row;
     it_err := it_err i; it_closed := it_closed i; it_started := it_started i; it_ctx := it_ctx i |}.
Definition it_at (i : Iter) (key : gostr) : Iter := it_found i key (it_row i).

(** The primary key in an entry's key, by the layout of the scan. *)
Definition entry_pk (indexed : bool) (key : gostr) : option gostr :=
  if indexed then indexKeyPK key
  else if negb (zlen key =? 1 + 4 + 16) then None else Some (drop 5 key).

(** [First]/[Last]/[Next]/[Prev]. *)
Definition move (i : Iter) : Z :=
  if negb (it_started i) then (if it_reverse i then zlen (it_entries i) - 1 else 0)
  else if it_reverse i then it_pos i - 1 else it_pos i + 1.

(** What one turn of the loop makes of the entry the iterator stands on:
    skip it, stop with an error, or yield the row. *)
Inductive turn := TSkip | TFail (e : db_err) | TYield (row : Row).
Definition visit (i : Iter) (payload : gostr) : turn :=
  let matched :=
    match it_where i with
    | None => Ok true
    | Some w =>
        let '(m, lr) := eval w (newLazyRow payload) in
        match lr_err lr with Some e => Err e | None => Ok m end
    end in
  match matched with
  | Err e => TFail (ErrCodec e)
  | Ok false => TSkip
  | Ok true =>
      match decodeRow payload (it_proj i) with
      | Err e => TFail (ErrCodec e)
      | Ok row => TYield row
      end
  end.

Fixpoint next_loop (fuel : nat) (i : Iter) : M (bool * Iter) :=
  match fuel with
  | O => fail ErrFuel
  | S f =>
      match it_ctx i with
      | true :: c => mret (false, it_with i (it_pos i) (it_started i) c (Some ErrContext))
      | c0 =>
          let c := match c0 with [] => [] | _ :: c => c end in
          let pos := move i in
          let i1 := it_with i pos true c (it_err i) in
          (* a positioning call that fails reports [false], and its error
             through [it.Error()] *)
          moved ← attempt pebble_call;
          match moved with
          | Err e => mret (false, it_with i pos true c (Some e))
          | Ok _ =>
          match (if (0 <=? pos) && (pos <? zlen (it_entries i)) then it_entries i !! Z.to_nat pos else None) with
          | None => mret (false, it_with i pos true c None)
          | Some (key, payload) =>
              match entry_pk (it_indexed i) key with
              | None => next_loop f i1
              | Some pk =>
                  let i2 := it_at i1 pk in
                  modify (fun d => set_stats (bump_stats 0 1 0 (d_stats d)) d) ;;
                  match visit i payload with
                  | TSkip => next_loop f i2
                  | TFail e => mret (false, it_with i2 pos true c (Some e))
                  | TYield row => mret (true, it_found i2 pk row)
                  end
              end
          end
          end
      end
  end.

(** Each turn moves the iterator one entry, so the entries bound the
    turns. *)
Definition Next (i : Iter) : M (bool * Iter) :=
  match it_err i with
  | Some _ => mret (false, i)
  | None => if it_closed i then mret (false, i) else next_loop (length (it_entries i) + 2) i
  end.

Definition Iter_Record (i : Iter) : gostr * Row := (it_key i, it_row i).
Definition Iter_Err (i : Iter) : option db_err := it_err i.

(** Both closes run; the first error is the one reported, and the
    iterator is closed either way. *)
Definition Iter_Close (i : Iter) : M (Iter * option db_err) :=
  if it_closed i then mret (i, None)
  else
    modify (fun d => set_stats (bump_stats 0 0 (-1) (d_stats d)) d) ;;
    err ← attempt pebble_call;
    serr ← attempt pebble_call;
    mret ({| it_entries := it_entries i; it_pos := it_pos i; it_where := it_where i; it_proj := it_proj i;
             it_indexed := it_indexed i; it_reverse := it_reverse i; it_key := it_key i; it_row := it_row i;
             it_err := it_err i; it_closed := true; it_started := it_started i; it_ctx := it_ctx i |},
          match err, serr with Err e, _ => Some e | Ok _, Err e => Some e | Ok _, Ok _ => None end).

(** The callers' loop: [for it.Next() { ... it.Record() ... }]. *)
Fixpoint drain (fuel : nat) (i : Iter) (acc : list (gostr * Row)) : M (list (gostr * Row) * Iter) :=
  match fuel with
  | O => fail ErrFuel
  | S f =>
      bi ← Next i;
      let '(b, i') := bi : bool * Iter in
      if b then drain f i' (acc ++ [Iter_Record i']) else mret (acc, i')
  end.
Definition collect (i : Iter) : M (list (gostr * Row) * Iter) := drain (length (it_entries i) + 2) i [].
End Query.
