(* ===== verification/EngineScan.v ===== *)
(** * EngineScan: what a scan returns

    The iterator of [EngineQuery] against the abstract rows: a scan that
    reports no error returned exactly the rows the range and the predicate
    admit, once each, in timestamp order. *)

From Stdlib Require Import ZArith Lia Bool.
From Stdlib Require Import Strings.Byte Strings.String.
From Stdlib Require Import Floats.SpecFloat.
From stdpp Require Import sorting.
From S2P Require Import Prelude Bytes Float64 GoStd Model EngineKeys EngineCodec EngineFilter EngineDB.
From S2P Require Import EngineDB EngineRep EngineInv EngineSchema EngineStore EngineQuery.

Section Scan.
Context `{FloatText} `{J : MetaJSON} `{!MetaJSONLaws J} `{L : LSM} `{!LSMLaws L}.

Abbreviation AStore := (gmap gostr Rows).

(** ** The walk *)

Definition dir (i : Iter) : list (gostr * gostr) :=
  if it_reverse i then reverse (it_entries i) else it_entries i.

(** [n] entries of the walk are behind the iterator. *)
Definition at_n (i : Iter) (n : nat) : Prop :=
  (it_started i = false /\ n = 0%nat) \/
  (it_started i = true /\ it_pos i = if it_reverse i then zlen (it_entries i) - Z.of_nat n else Z.of_nat n - 1).

Definition same_scan (i i' : Iter) : Prop :=
  it_entries i' = it_entries i /\ it_where i' = it_where i /\ it_proj i' = it_proj i /\
  it_indexed i' = it_indexed i /\ it_reverse i' = it_reverse i /\ it_closed i' = it_closed i.

Lemma same_scan_trans i j k : same_scan i j -> same_scan j k -> same_scan i k.
Proof. unfold same_scan. intuition congruence. Qed.

Lemma length_dir i : length (dir i) = length (it_entries i).
Proof. unfold dir. destruct (it_reverse i); [apply length_reverse | done]. Qed.

Definition entry_at (i : Iter) (pos : Z) : option (gostr * gostr) :=
  if (0 <=? pos) && (pos <? zlen (it_entries i)) then it_entries i !! Z.to_nat pos else None.

Lemma move_entry i n :
  at_n i n -> (n <= length (it_entries i))%nat ->
  entry_at i (move i) = dir i !! n /\
  forall c e, at_n (it_with i (move i) true c e) (S n).
Proof.
  intros Hat Hn. assert (Hm : move i = if it_reverse i then zlen (it_entries i) - 1 - Z.of_nat n else Z.of_nat n).
  { unfold move. destruct Hat as [[-> ->]|[-> ->]]; cbn [negb]; destruct (it_reverse i); lia. }
  split.
  - rewrite Hm. unfold entry_at, dir, zlen. destruct (it_reverse i).
    + destruct (decide (n < length (it_entries i))%nat) as [Hlt|Hge].
      * rewrite reverse_lookup by done.
        rewrite (proj2 (Z.leb_le 0 _)), (proj2 (Z.ltb_lt _ _)) by lia. cbn [andb]. f_equal. lia.
      * rewrite (proj2 (Z.leb_gt 0 _)) by lia. cbn [andb]. symmetry.
        apply lookup_ge_None. rewrite length_reverse. lia.
    + rewrite (proj2 (Z.leb_le 0 _)) by lia. cbn [andb]. rewrite Nat2Z.id.
      destruct (Z.of_nat n <? Z.of_nat (length (it_entries i))) eqn:E; [done|]. bsplit.
      symmetry. apply lookup_ge_None. lia.
  - intros c e. right. split; [done|]. cbn [it_pos it_with it_reverse it_entries]. rewrite Hm.
    destruct (it_reverse i); lia.
Qed.

(** What one entry contributes to the answer. *)
Definition out (i : Iter) (e : gostr * gostr) : option (gostr * Row) :=
  match entry_pk (it_indexed i) e.1 with
  | None => None
  | Some pk => match visit i e.2 with TYield row => Some (pk, row) | _ => None end
  end.

Lemma visit_same i i' v : same_scan i i' -> visit i' v = visit i v.
Proof. intros (_ & Hw & Hp & _). unfold visit. by rewrite Hw, Hp. Qed.
Lemma out_same i i' e : same_scan i i' -> out i' e = out i e.
Proof.
  intros Hs. unfold out. rewrite (visit_same i i') by done. destruct Hs as (_ & _ & _ & -> & _). done.
Qed.
Lemma dir_same i i' : same_scan i i' -> dir i' = dir i.
Proof. intros (He & _ & _ & _ & Hr & _). unfold dir. by rewrite He, Hr. Qed.

Definition answer (i : Iter) (n : nat) : list (gostr * Row) := omap (out i) (drop n (dir i)).

Lemma answer_step i n e : dir i !! n = Some e ->
  answer i n = match out i e with Some o => o :: answer i (S n) | None => answer i (S n) end.
Proof. intros He. unfold answer. by rewrite (drop_S _ _ _ He). Qed.

Lemma answer_end i n : dir i !! n = None -> answer i n = [].
Proof. intros He. unfold answer. by rewrite drop_ge by (by apply lookup_ge_None). Qed.

(** A scan nothing disturbs: no failing call, no cancellation. *)
Definition calm (i : Iter) (d : DB) : Prop := d_faults d = [] /\ Forall (eq false) (it_ctx i).

Definition no_fail (i : Iter) : Prop :=
  Forall (fun e => match visit i e.2 with TFail _ => False | _ => True end) (it_entries i).

Definition next_post (i : Iter) (n : nat) (d : DB) (r : result db_err (bool * Iter)) (d' : DB) : Prop :=
  reads_only d d' /\ (d_faults d = [] -> d_faults d' = []) /\
  exists b i', r = Ok (b, i') /\ same_scan i i' /\
    (calm i d -> calm i' d') /\
    if b then
      it_err i' = None /\ exists n', at_n i' n' /\ (n < n' <= length (it_entries i))%nat /\
        answer i n = (it_key i', it_row i') :: answer i n'
    else
      (it_err i' = None -> answer i n = []) /\ (calm i d -> no_fail i -> it_err i' = None).

Lemma visit_fail_entry i n e err :
  dir i !! n = Some e -> visit i e.2 = TFail err -> ~ no_fail i.
Proof.
  intros He Hv Hnf. unfold no_fail in Hnf. rewrite Forall_forall in Hnf.
  specialize (Hnf e). rewrite Hv in Hnf. apply Hnf.
  apply list_elem_of_lookup_2 in He. unfold dir in He. destruct (it_reverse i); [|done].
  by rewrite elem_of_reverse in He.
Qed.

(** A turn that yields nothing leaves the rest of the walk as it was. *)
Lemma next_post_skip i i1 n e d d1 r d2 :
  dir i !! n = Some e -> out i e = None -> same_scan i i1 ->
  reads_only d d1 -> (d_faults d = [] -> d_faults d1 = []) -> (calm i d -> calm i1 d1) ->
  next_post i1 (S n) d1 r d2 -> next_post i n d r d2.
Proof.
  intros He Hout Hs Hr Hf Hc (Hr2 & Hf2 & b & i' & -> & Hs' & Hc' & Hb).
  split; [unfold reads_only in *; intuition congruence|]. split; [auto|].
  exists b, i'. split; [done|]. split; [by eapply same_scan_trans|]. split; [auto|].
  assert (Hans : forall m, answer i1 m = answer i m).
  { intros m. unfold answer. rewrite (dir_same i i1) by done. apply list_omap_ext.
    induction (drop m (dir i)); constructor; [by apply out_same | done]. }
  rewrite !Hans in Hb. rewrite (answer_step i n e He), Hout.
  assert (Hnf : no_fail i -> no_fail i1).
  { unfold no_fail. rewrite (proj1 Hs). intros Hn. eapply Forall_impl; [exact Hn|].
    intros x. by rewrite (visit_same i i1). }
  destruct b.
  - destruct Hb as (Herr & n' & Hat & Hlt & E). split; [done|]. exists n'. split; [done|].
    rewrite Hans in E. destruct Hs as (Hent & _). rewrite Hent in Hlt. split; [lia|]. done.
  - destruct Hb as [Hb1 Hb2]. split; [done|]. auto.
Qed.

Lemma attempt_wp Q d :
  (forall d', same_but_faults d d' -> Q (Ok (Ok tt)) d') ->
  (d_faults d <> [] -> forall d', same_but_faults d d' -> Q (Ok (Err ErrPebble)) d') ->
  wp (attempt pebble_call) Q d.
Proof.
  intros Hok Herr. enough (wp pebble_call (fun r d' => Q (Ok r) d') d) as Hw.
  { revert Hw. unfold wp, attempt. by destruct (pebble_call d). }
  by apply wp_pebble_call.
Qed.

Lemma next_loop_wp fuel : forall i n d,
  at_n i n -> (n <= length (it_entries i))%nat -> (length (it_entries i) - n < fuel)%nat -> it_err i = None ->
  wp (next_loop fuel i) (next_post i n d) d.
Proof.
  induction fuel as [|f IH]; intros i n d Hat Hn Hf Herr; [lia|]. cbn [next_loop].
  destruct (move_entry i n Hat Hn) as [Hentry Hat'].
  assert (Hgo : forall c, (Forall (eq false) (it_ctx i) -> Forall (eq false) c) ->
    wp (moved ← attempt pebble_call;
        match moved with
        | Err e => mret (false, it_with i (move i) true c (Some e))
        | Ok _ =>
        match entry_at i (move i) with
        | None => mret (false, it_with i (move i) true c None)
        | Some (key, payload) =>
            match entry_pk (it_indexed i) key with
            | None => next_loop f (it_with i (move i) true c (it_err i))
            | Some pk =>
                modify (fun d => set_stats (bump_stats 0 1 0 (d_stats d)) d) ;;
                match visit i payload with
                | TSkip => next_loop f (it_at (it_with i (move i) true c (it_err i)) pk)
                | TFail e => mret (false, it_with (it_at (it_with i (move i) true c (it_err i)) pk) (move i) true c (Some e))
                | TYield row => mret (true, it_found (it_at (it_with i (move i) true c (it_err i)) pk) pk row)
                end
            end
        end
        end) (next_post i n d) d).
  { intros c Hc. apply wp_bind, attempt_wp.
    2: { intros Hfl d1 H1. apply wp_ret. split; [by apply same_reads|].
         split; [by destruct H1 as (? & -> & ?)|].
         exists false, (it_with i (move i) true c (Some ErrPebble)). split; [done|]. split; [done|].
         split; [by intros [Hff _]|]. split; [done|]. by intros [Hff _]. }
    intros d1 H1. pose proof (same_reads _ _ H1) as Hr1.
    assert (Hf1 : d_faults d = [] -> d_faults d1 = []) by (by destruct H1 as (? & -> & ?)).
    assert (Hcalm : forall i1, it_ctx i1 = c -> calm i d -> calm i1 d1).
    { intros i1 E [? ?]. split; [auto|]. rewrite E. auto. }
    rewrite Hentry. destruct (dir i !! n) as [[key payload]|] eqn:Ee.
    2: { apply wp_ret. split; [done|]. split; [done|].
         exists false, (it_with i (move i) true c None). split; [done|]. split; [done|].
         split; [by apply Hcalm|]. split; [|done]. intros _. by apply answer_end. }
    assert (Hlt : (n < length (it_entries i))%nat)
      by (apply lookup_lt_Some in Ee; by rewrite length_dir in Ee).
    assert (Hskip : forall i1 d2, same_scan i i1 -> it_ctx i1 = c -> it_err i1 = None -> at_n i1 (S n) ->
      out i (key, payload) = None -> reads_only d d2 -> (d_faults d = [] -> d_faults d2 = []) ->
      (calm i d -> calm i1 d2) -> wp (next_loop f i1) (next_post i n d) d2).
    { intros i1 d2 Hs E1 E2 Hat1 Hout Hr2 Hf2 Hc2.
      eapply wp_mono; [apply (IH i1 (S n))|].
      - done.
      - rewrite (proj1 Hs). lia.
      - rewrite (proj1 Hs). lia.
      - done.
      - intros r d3. by eapply next_post_skip. }
    destruct (entry_pk (it_indexed i) key) as [pk|] eqn:Epk.
    2: { apply Hskip; try done; first [apply Hat' | by apply Hcalm | unfold out; cbn [fst snd]; by rewrite Epk]. }
    apply wp_bind, wp_modify.
    assert (Hc2 : forall i1, it_ctx i1 = c -> calm i d ->
      calm i1 (set_stats (bump_stats 0 1 0 (d_stats d1)) d1)).
    { intros i1 E1 Hcl. destruct (Hcalm i1 E1 Hcl). by split. }
    destruct (visit i payload) as [|e|row] eqn:Ev.
    - apply Hskip; try done;
        first [apply (Hat' c (it_err i)) | by apply Hc2 | unfold out; cbn [fst snd]; by rewrite Epk, Ev].
    - apply wp_ret. split; [done|]. split; [done|]. eexists false, _. split; [done|]. split; [done|].
      split; [by apply Hc2|]. split; [done|]. intros _ Hnf. exfalso.
      by apply (visit_fail_entry i n (key, payload) e).
    - apply wp_ret. split; [done|]. split; [done|]. eexists true, _. split; [done|]. split; [done|].
      split; [by apply Hc2|]. split; [done|]. exists (S n).
      split; [apply (Hat' c (it_err i))|]. split; [cbn; lia|].
      rewrite (answer_step i n _ Ee). unfold out. cbn [fst snd]. by rewrite Epk, Ev. }
  destruct (it_ctx i) as [|[] c] eqn:Ectx.
  - apply (Hgo []). done.
  - apply wp_ret. split; [done|]. split; [done|]. eexists false, _. split; [done|]. split; [done|].
    split; [intros [_ Hc]; rewrite Ectx in Hc; by inversion Hc|]. split; [done|].
    intros [_ Hc]. rewrite Ectx in Hc. by inversion Hc.
  - apply (Hgo c). intros Hc. by inversion Hc.
Qed.

Lemma Next_wp i n d :
  at_n i n -> (n <= length (it_entries i))%nat -> it_err i = None -> it_closed i = false ->
  wp (Next i) (next_post i n d) d.
Proof.
  intros Hat Hn Herr Hcl. unfold Next. rewrite Herr, Hcl. apply next_loop_wp; [done|done|lia|done].
Qed.

(** ** Draining *)

Definition drain_post (i : Iter) (n : nat) (acc : list (gostr * Row)) (d : DB)
    (r : result db_err (list (gostr * Row) * Iter)) (d' : DB) : Prop :=
  reads_only d d' /\
  exists rows i', r = Ok (acc ++ rows, i') /\ rows `prefix_of` answer i n /\
    (it_err i' = None -> rows = answer i n) /\ (calm i d -> no_fail i -> it_err i' = None).

Lemma drain_wp fuel : forall i n acc d,
  at_n i n -> (n <= length (it_entries i))%nat -> (length (it_entries i) - n < fuel)%nat ->
  it_err i = None -> it_closed i = false ->
  wp (drain fuel i acc) (drain_post i n acc d) d.
Proof.
  induction fuel as [|f IH]; intros i n acc d Hat Hn Hf Herr Hcl; [lia|]. cbn [drain]. apply wp_bind.
  eapply wp_mono; [by apply (Next_wp i n)|].
  intros r d1 (Hr & Hfl & b & i' & -> & Hs & Hcalm & Hb). destruct b.
  - destruct Hb as (Herr' & n' & Hat' & Hlt & Hans).
    assert (Hans' : forall m, answer i' m = answer i m).
    { intros m. unfold answer. rewrite (dir_same i i') by done. apply list_omap_ext.
      induction (drop m (dir i)); constructor; [by apply out_same | done]. }
    assert (Hent : it_entries i' = it_entries i) by apply Hs.
    eapply wp_mono; [apply (IH i' n')|].
    + done.
    + rewrite Hent. lia.
    + rewrite Hent. lia.
    + done.
    + by rewrite (proj2 (proj2 (proj2 (proj2 (proj2 Hs))))).
    + intros r d2 (Hr2 & rows & i2 & -> & Hp & Hall & Hc2).
      split; [unfold reads_only in *; intuition congruence|].
      exists (Iter_Record i' :: rows), i2. split; [by rewrite <- app_assoc|].
      rewrite Hans, <- !Hans'. split; [by apply prefix_cons|]. split; [intros E; by rewrite Hall|].
      intros Hcl1 Hnf. apply Hc2; [auto|]. unfold no_fail in *. rewrite Hent.
      eapply Forall_impl; [exact Hnf|]. intros x. by rewrite (visit_same i i').
  - destruct Hb as [Hb1 Hb2]. apply wp_ret. split; [done|].
    exists [], i'. rewrite app_nil_r. split; [done|]. split; [apply prefix_nil|].
    split; [intros E; by rewrite Hb1 | done].
Qed.

Lemma collect_wp i d :
  it_started i = false -> it_err i = None -> it_closed i = false ->
  wp (collect i) (drain_post i 0 [] d) d.
Proof.
  intros Hst Herr Hcl. unfold collect. apply (drain_wp _ i 0%nat [] d); [by left|lia|lia|done|done].
Qed.

(** ** The rows behind the walk *)

Definition sem_opt (w : option Expr) (r : Row) : bool := match w with None => true | Some w => sem w r end.

Definition range_on_index (indexed col : gostr) : bool :=
  negb (bytes_eqb indexed []) && bytes_eqb col indexed.

(** Whether a query admits a row: the range -- on the timestamp the row
    is filed under when it names the indexed column, on the column's
    value otherwise -- and the predicate. *)
Definition in_between (indexed : gostr) (bet : option (gostr * Z * Z)) (r : Row) : bool :=
  match bet with
  | None => true
  | Some (col, lo, hi) =>
      if range_on_index indexed col then ts_in indexed (fun ts => (lo <=? ts) && (ts <=? hi)) r
      else sem (BetweenExpr col (VInt lo) (VInt hi)) r
  end.
Definition admitted (indexed : gostr) (q : QueryBuilder) (r : Row) : bool :=
  in_between indexed (q_bet q) r && sem_opt (q_where q) r.

Definition bet_ok (bet : option (gostr * Z * Z)) : Prop :=
  match bet with None => True | Some (_, lo, hi) => in_i64 lo /\ in_i64 hi end.

(** Timestamp order, then key order; key order alone when nothing
    indexes the set. *)
Definition row_before (indexed : gostr) (a b : gostr * Row) : Prop :=
  if bytes_eqb indexed [] then blt a.1 b.1 = true
  else
    let ta := default 0 (row_ts indexed a.2) in
    let tb := default 0 (row_ts indexed b.2) in
    ta < tb \/ (ta = tb /\ blt a.1 b.1 = true).

Definition restrict (proj : option (gset gostr)) (pr : gostr * Row) : gostr * Row :=
  (pr.1, filter (fun kv => wants proj kv.1 = true) pr.2).

(** The answer a query owes its caller. *)
Definition scan_answer (indexed : gostr) (q : QueryBuilder) (R : Rows) (all : list (gostr * Row)) : Prop :=
  exists prs proj,
    all = map (restrict proj) prs /\
    (forall pk r, (pk, r) ∈ prs <-> R !! pk = Some r /\ admitted indexed q r = true) /\
    NoDup (prs.*1) /\
    StronglySorted (row_before indexed) (if q_reverse q then reverse prs else prs) /\
    match q_project q with
    | [] => proj = None
    | cols => exists P, proj = Some P /\ forall c, c ∈ cols -> c ∈ P
    end.

Definition row_entry (sm : setRef_) (pr : gostr * Row) : gostr * gostr :=
  (if bytes_eqb (ref_indexed sm) [] then dataKey (ref_id sm) pr.1
   else indexKey (ref_id sm) 1 (default 0 (row_ts (ref_indexed sm) pr.2)) pr.1,
   encodeRow pr.2).

Lemma in_range_between id lo hi ts pk :
  in_u32 id -> in_i64 lo -> in_i64 hi -> in_i64 ts ->
  in_range (indexBound id 1 lo)
    (if hi =? i64_max then prefixEnd (indexPrefix id 1) else Some (indexBound id 1 (i64 (hi + 1))))
    (indexKey id 1 ts pk) = (lo <=? ts) && (ts <=? hi).
Proof.
  intros Hid Hlo Hhi Hts. unfold in_range.
  pose proof (indexBound_indexKey id 1 ts pk lo Hid ltac:(mlia) Hts Hlo) as Hl.
  assert (ble (indexBound id 1 lo) (indexKey id 1 ts pk) = (lo <=? ts)) as ->.
  { unfold ble. rewrite Z.leb_antisym. f_equal. apply Bool.eq_iff_eq_true. rewrite Hl. by rewrite Z.ltb_lt. }
  f_equal. destruct (hi =? i64_max) eqn:E; bsplit.
  - assert (in_range (indexPrefix id 1) (prefixEnd (indexPrefix id 1)) (indexKey id 1 ts pk) = true) as Hr.
    { apply in_range_prefixEnd. exists (PutUint64 (biasInt ts) ++ pk). unfold indexKey, indexPrefix.
      by rewrite <- !app_assoc. }
    unfold in_range in Hr. apply andb_true_iff in Hr as [_ Hr]. rewrite Hr. symmetry. apply Z.leb_le. mlia.
  - rewrite i64_id by mlia.
    pose proof (indexBound_indexKey id 1 ts pk (hi + 1) Hid ltac:(mlia) Hts ltac:(mlia)) as Hh.
    apply Bool.eq_iff_eq_true. rewrite Hh, Z.leb_le. lia.
Qed.

Lemma in_range_between_prefix id lo hi k :
  in_range (indexBound id 1 lo)
    (if hi =? i64_max then prefixEnd (indexPrefix id 1) else Some (indexBound id 1 (i64 (hi + 1)))) k = true ->
  indexPrefix id 1 `prefix_of` k.
Proof.
  intros Hr. unfold in_range in Hr. apply andb_true_iff in Hr as [Hlo Hhi].
  assert (Hlow : ble (indexPrefix id 1) k = true).
  { eapply ble_trans; [|exact Hlo]. apply ble_prefix. }
  destruct (hi =? i64_max).
  - apply in_range_prefixEnd. unfold in_range. by rewrite Hlow, Hhi.
  - apply (in_range_index id 1 (i64 (hi + 1))). unfold in_range. by rewrite Hlow, Hhi.
Qed.

Lemma in_range_whole id ts pk :
  in_range (indexPrefix id 1) (prefixEnd (indexPrefix id 1)) (indexKey id 1 ts pk) = true.
Proof.
  apply in_range_prefixEnd. exists (PutUint64 (biasInt ts) ++ pk). unfold indexKey, indexPrefix.
  by rewrite <- !app_assoc.
Qed.

(** The scan's bounds admit exactly the rows its range admits; what the
    bounds do not say is left to the predicate. *)
Definition bound_admits (indexed : gostr) (bet : option (gostr * Z * Z)) (r : Row) : bool :=
  match bet with
  | Some (col, lo, hi) =>
      if range_on_index indexed col then in_between indexed bet r else true
  | None => true
  end.

Lemma plan_entries k sm R q :
  rep (kv_get k) (ref_id sm) (ref_indexed sm) R -> in_u32 (ref_id sm) ->
  (ref_indexed sm <> [] -> ref_indexCol sm = 1) -> bet_ok (q_bet q) ->
  exists prs, kv_scan k (pl_lower (plan sm q)) (pl_upper (plan sm q)) = map (row_entry sm) prs /\
    NoDup (prs.*1) /\
    (forall pk r, (pk, r) ∈ prs <-> R !! pk = Some r /\ bound_admits (ref_indexed sm) (q_bet q) r = true).
Proof.
  intros Hrep Hid Hcol Hbet. unfold plan, row_entry, bound_admits, range_on_index.
  destruct (bytes_eqb (ref_indexed sm) []) eqn:Ei; cbn [negb andb].
  - apply bytes_eqb_spec in Ei. rewrite Ei in Hrep.
    destruct (data_scan_rows k (ref_id sm) R _ Hrep eq_refl) as (prs & E & Hnd & Hin).
    exists prs. split; [|split; [done|]].
    + destruct (q_bet q) as [[[col lo] hi]|]; destruct (keepAsPredicate _ _ _); exact E.
    + intros pk r. rewrite Hin. destruct (q_bet q) as [[[col lo] hi]|]; tauto.
  - apply bytes_eqb_neq in Ei. rewrite (Hcol Ei).
    assert (Hwhole : exists prs, kv_scan k (indexPrefix (ref_id sm) 1) (prefixEnd (indexPrefix (ref_id sm) 1))
        = map (fun pr => (indexKey (ref_id sm) 1 (default 0 (row_ts (ref_indexed sm) pr.2)) pr.1, encodeRow pr.2)) prs /\
        NoDup (prs.*1) /\ (forall pk r, (pk, r) ∈ prs <-> R !! pk = Some r)).
    { destruct (index_scan_rows k (ref_id sm) (ref_indexed sm) R (indexPrefix (ref_id sm) 1)
        (prefixEnd (indexPrefix (ref_id sm) 1)) (fun _ => true) _ Hrep Ei
        (fun k => proj1 (in_range_prefixEnd _ k)) (fun ts pk _ => in_range_whole _ ts pk) eq_refl)
        as (prs & E & Hnd & Hin).
      exists prs. split; [done|]. split; [done|]. intros pk r. rewrite Hin. split; [tauto|]. intros Hpk.
      split; [done|]. destruct (rep_rows _ _ _ _ Hrep _ _ Hpk) as (_ & _ & Hts).
      unfold ts_in. destruct (Hts Ei) as [ts ->]. done. }
    destruct (q_bet q) as [[[col lo] hi]|] eqn:Eb.
    + destruct (bytes_eqb col (ref_indexed sm)) eqn:Ec; cbn [negb].
      * destruct Hbet as [Hlo Hhi]. cbn [pl_lower pl_upper].
        destruct (index_scan_rows k (ref_id sm) (ref_indexed sm) R _ _ (fun ts => (lo <=? ts) && (ts <=? hi)) _ Hrep Ei
          (in_range_between_prefix (ref_id sm) lo hi) (fun ts pk => in_range_between _ _ _ _ _ Hid Hlo Hhi) eq_refl)
          as (prs & E & Hnd & Hin).
        exists prs. split; [exact E|]. split; [done|]. intros pk r. rewrite Hin. unfold in_between, range_on_index.
        rewrite (proj2 (bytes_eqb_neq _ _) Ei), Ec. done.
      * destruct Hwhole as (prs & E & Hnd & Hin). exists prs. split; [exact E|]. split; [done|].
        intros pk r. rewrite Hin. tauto.
    + destruct Hwhole as (prs & E & Hnd & Hin). exists prs. split; [exact E|]. split; [done|].
      intros pk r. rewrite Hin. tauto.
Qed.

Lemma plan_where sm q r :
  bound_admits (ref_indexed sm) (q_bet q) r && sem_opt (pl_where (plan sm q)) r = admitted (ref_indexed sm) q r.
Proof.
  unfold admitted, plan, bound_admits, in_between, range_on_index.
  destruct (q_bet q) as [[[col lo] hi]|].
  - destruct (bytes_eqb (ref_indexed sm) []) eqn:Ei; cbn [negb andb].
    + cbn [keepAsPredicate pl_where sem_opt]. destruct (q_where q) as [w|]; cbn [sem sem_opt].
      * rewrite ?andb_true_l, ?andb_true_r; (done || apply andb_comm).
      * by rewrite ?andb_true_l, ?andb_true_r.
    + destruct (bytes_eqb col (ref_indexed sm)) eqn:Ec; [done|].
      cbn [keepAsPredicate pl_where sem_opt]. destruct (q_where q) as [w|]; cbn [sem sem_opt].
      * rewrite ?andb_true_l, ?andb_true_r; (done || apply andb_comm).
      * by rewrite ?andb_true_l, ?andb_true_r.
  - cbn [keepAsPredicate]. destruct (bytes_eqb (ref_indexed sm) []); done.
Qed.

Lemma plan_proj sm q :
  match q_project q with
  | [] => pl_proj (plan sm q) = None
  | cols => exists P, pl_proj (plan sm q) = Some P /\ forall c, c ∈ cols -> c ∈ P
  end.
Proof.
  unfold plan. destruct (q_project q) as [|c0 cols] eqn:Ep; cbn [projectionSet].
  - destruct (q_bet q) as [[[col lo] hi]|]; cbn [keepAsPredicate];
      repeat (match goal with |- context [if ?b then _ else _] => destruct b end); done.
  - set (P0 := list_to_set (c0 :: cols) : gset gostr).
    assert (H0 : forall c, c ∈ c0 :: cols -> c ∈ P0) by (intros c; unfold P0; set_solver).
    assert (H1 : exists P1, match q_where q with Some w => Some (columns w P0) | None => Some P0 end = Some P1 /\
                   forall c, c ∈ c0 :: cols -> c ∈ P1).
    { destruct (q_where q) as [w|]; [exists (columns w P0)|exists P0]; (split; [done|]); [|done].
      intros c Hc. apply (columns_mono w P0). by apply H0. }
    destruct H1 as (P1 & E1 & H1). change (match q_where q with Some w => Some (columns w P0) | None => Some P0 end)
      with (match Some P0, q_where q with Some p, Some w => Some (columns w p) | _, _ => Some P0 end) in E1.
    rewrite E1. destruct (q_bet q) as [[[col lo] hi]|]; cbn [keepAsPredicate];
      repeat (match goal with |- context [if ?b then _ else _] => destruct b end); cbn [pl_proj];
      eexists; (split; [done|]); set_solver.
Qed.

(** ** From the walk to the rows *)

Lemma visit_row i r :
  row_storable r ->
  visit i (encodeRow r)
  = if sem_opt (it_where i) r then TYield (filter (fun kv => wants (it_proj i) kv.1 = true) r) else TSkip.
Proof.
  intros Hr. unfold visit, sem_opt.
  assert (Hd : decodeRow (encodeRow r) (it_proj i) = Ok (filter (fun kv => wants (it_proj i) kv.1 = true) r))
    by (by apply (decode_entries r (map_to_list r))).
  destruct (it_where i) as [w|]; [|by rewrite Hd].
  destruct (eval_sem w r (map_to_list r) Hr) as (lr & E & Herr & _); [done|].
  change (encode_entries (map_to_list r)) with (encodeRow r) in E. rewrite E, Herr.
  destruct (sem w r); [by rewrite Hd | done].
Qed.

Lemma row_entry_pk sm pr : length pr.1 = 16%nat ->
  entry_pk (negb (bytes_eqb (ref_indexed sm) [])) (row_entry sm pr).1 = Some pr.1.
Proof.
  intros Hlen. unfold entry_pk, row_entry. cbn [fst].
  destruct (bytes_eqb (ref_indexed sm) []); cbn [negb]; [|by apply indexKeyPK_key].
  unfold zlen. rewrite dataKey_prefix. unfold dataPrefix. rewrite !length_app, length_be4, Hlen. cbn.
  by rewrite drop_0.
Qed.

Lemma omap_rows (i : Iter) (sm : setRef_) (prs : list (gostr * Row)) :
  it_indexed i = negb (bytes_eqb (ref_indexed sm) []) ->
  (forall pk r, (pk, r) ∈ prs -> length pk = 16%nat /\ row_storable r) ->
  omap (out i) (map (row_entry sm) prs)
  = map (restrict (it_proj i)) (filter (fun pr => sem_opt (it_where i) pr.2 = true) prs).
Proof.
  intros Hidx. induction prs as [|[pk r] prs IH]; intros Hin; [done|]. cbn [map].
  destruct (Hin pk r) as [Hlen Hst]; [left|].
  assert (IH' := IH (fun pk' r' Hx => Hin pk' r' (list_elem_of_further _ _ _ Hx))).
  rewrite filter_cons. cbn [snd].
  assert (Hout : out i (row_entry sm (pk, r))
            = if sem_opt (it_where i) r then Some (restrict (it_proj i) (pk, r)) else None).
  { unfold out. rewrite Hidx, (row_entry_pk sm (pk, r)) by done. cbn [snd fst row_entry].
    rewrite visit_row by done. by destruct (sem_opt (it_where i) r). }
  change (omap (out i) (row_entry sm (pk, r) :: map (row_entry sm) prs))
    with (match out i (row_entry sm (pk, r)) with
          | Some y => y :: omap (out i) (map (row_entry sm) prs)
          | None => omap (out i) (map (row_entry sm) prs) end).
  rewrite Hout, IH'. destruct (sem_opt (it_where i) r).
  - by rewrite decide_True.
  - by rewrite decide_False.
Qed.

Lemma key_lt_row_before (sm : setRef_) (a b : gostr * Row) (R : Rows) :
  in_u32 (ref_id sm) ->
  (forall pk r, (pk, r) = a \/ (pk, r) = b -> R !! pk = Some r) ->
  (forall pk r, R !! pk = Some r -> row_ok (ref_indexed sm) pk r) ->
  key_lt (row_entry sm a) (row_entry sm b) -> row_before (ref_indexed sm) a b.
Proof.
  intros Hid Hab Hok. unfold key_lt, row_before, row_entry. cbn [fst].
  destruct (bytes_eqb (ref_indexed sm) []) eqn:Ei.
  - rewrite !dataKey_prefix. by rewrite blt_app_prefix.
  - apply bytes_eqb_neq in Ei. destruct a as [pa ra], b as [pb rb]. cbn [fst snd].
    destruct (Hok pa ra) as (_ & Hsa & Hta); [apply Hab; by left|].
    destruct (Hok pb rb) as (_ & Hsb & Htb); [apply Hab; by right|].
    destruct (Hta Ei) as [ta Eta], (Htb Ei) as [tb Etb]. rewrite Eta, Etb. cbn [default from_option].
    intros Hlt. apply indexKey_lt in Hlt; try done.
    + destruct Hlt as [?|[_ [?|[_ Hlt]]]]; [lia|lia|exact Hlt].
    + exact (row_ts_range _ _ _ Hsa Eta).
    + exact (row_ts_range _ _ _ Hsb Etb).
Qed.

Lemma sorted_rows (sm : setRef_) (prs : list (gostr * Row)) (R : Rows) :
  in_u32 (ref_id sm) -> (forall pk r, (pk, r) ∈ prs -> R !! pk = Some r) ->
  (forall pk r, R !! pk = Some r -> row_ok (ref_indexed sm) pk r) ->
  StronglySorted key_lt (map (row_entry sm) prs) -> StronglySorted (row_before (ref_indexed sm)) prs.
Proof.
  intros Hid Hin Hok Hs. induction prs as [|a prs IH]; [constructor|].
  cbn [map] in Hs. apply StronglySorted_inv in Hs as [Hs' Ha].
  constructor; [apply IH; [intros pk r Hx; apply Hin; by right|done]|].
  rewrite Forall_map in Ha. eapply Forall_forall. intros b Hb. eapply key_lt_row_before; [done| |done|].
  - intros pk r [E|E]; apply Hin; rewrite E; [left | by right].
  - by apply (proj1 (Forall_forall _ _) Ha b).
Qed.

Lemma StronglySorted_filter {A} (R : A -> A -> Prop) (P : A -> Prop) `{forall x, Decision (P x)} l :
  StronglySorted R l -> StronglySorted R (filter P l).
Proof.
  induction 1 as [|a l Hs IH Ha]; [constructor|]. rewrite filter_cons. case_decide; [|done].
  constructor; [done|]. rewrite Forall_forall in Ha |- *. intros x Hx%list_elem_of_filter. apply Ha. tauto.
Qed.

Lemma rev_map {A B} (f : A -> B) l : map f (reverse l) = reverse (map f l).
Proof. exact (fmap_reverse f l). Qed.

(** The iterator a query starts with. *)
Definition started_iter (k : kv) (sm : setRef_) (q : QueryBuilder) (ctx : list bool) : Iter :=
  {| it_entries := kv_scan k (pl_lower (plan sm q)) (pl_upper (plan sm q)); it_pos := 0;
     it_where := pl_where (plan sm q); it_proj := pl_proj (plan sm q); it_indexed := pl_indexed (plan sm q);
     it_reverse := q_reverse q; it_key := []; it_row := ∅; it_err := None;
     it_closed := false; it_started := false; it_ctx := ctx |}.

Lemma plan_indexed sm q : pl_indexed (plan sm q) = negb (bytes_eqb (ref_indexed sm) []).
Proof.
  unfold plan. destruct (q_bet q) as [[[col lo] hi]|]; cbn [keepAsPredicate];
    destruct (bytes_eqb (ref_indexed sm) []); cbn [negb andb]; try done;
    by destruct (bytes_eqb col (ref_indexed sm)).
Qed.

Lemma started_answer k sm R q ctx :
  rep (kv_get k) (ref_id sm) (ref_indexed sm) R -> in_u32 (ref_id sm) ->
  (ref_indexed sm <> [] -> ref_indexCol sm = 1) -> bet_ok (q_bet q) ->
  scan_answer (ref_indexed sm) q R (answer (started_iter k sm q ctx) 0) /\
  no_fail (started_iter k sm q ctx).
Proof.
  intros Hrep Hid Hcol Hbet. destruct (plan_entries k sm R q Hrep Hid Hcol Hbet) as (prs & E & Hnd & Hin).
  pose proof (rep_rows _ _ _ _ Hrep) as Hok.
  assert (Hprs : forall pk r, (pk, r) ∈ prs -> length pk = 16%nat /\ row_storable r).
  { intros pk r Hx. apply Hin in Hx as [Hx _]. destruct (Hok _ _ Hx) as (? & ? & _). done. }
  set (i := started_iter k sm q ctx). assert (Hidx : it_indexed i = negb (bytes_eqb (ref_indexed sm) []))
    by apply plan_indexed. split.
  - set (kept := filter (fun pr => sem_opt (it_where i) pr.2 = true) prs).
    assert (Hsorted : StronglySorted (row_before (ref_indexed sm)) kept).
    { apply StronglySorted_filter. apply (sorted_rows sm prs R Hid); [intros pk r Hx; by apply Hin in Hx as [? _]|done|].
      rewrite <- E. apply kv_scan_sorted. }
    exists (if q_reverse q then reverse kept else kept), (it_proj i). split; [|split; [|split; [|split]]].
    + unfold answer. rewrite drop_0. unfold dir. cbn [it_reverse it_entries started_iter i]. rewrite E.
      destruct (q_reverse q).
      * rewrite <- rev_map. unfold kept. rewrite <- filter_reverse.
        rewrite (omap_rows i sm (reverse prs)) by (try done; intros pk r Hx; rewrite elem_of_reverse in Hx; by apply Hprs).
        done.
      * by apply omap_rows.
    + intros pk r. transitivity ((pk, r) ∈ kept); [by destruct (q_reverse q); rewrite ?elem_of_reverse|].
      unfold kept. rewrite list_elem_of_filter, Hin. cbn [snd]. rewrite <- plan_where, andb_true_iff.
      cbn [it_where i started_iter]. tauto.
    + assert (NoDup (kept.*1)) as Hk.
      { eapply sublist_NoDup; [exact Hnd|]. apply fmap_sublist, sublist_filter. }
      destruct (q_reverse q); [|done]. rewrite fmap_reverse. by rewrite reverse_Permutation.
    + destruct (q_reverse q); [by rewrite reverse_involutive | done].
    + apply plan_proj.
  - unfold no_fail. cbn [it_entries i started_iter]. rewrite E. apply Forall_map, Forall_forall.
    intros [pk r] Hx. destruct (Hprs _ _ Hx) as [_ Hst]. cbn [row_entry snd].
    rewrite visit_row by done. by destruct (sem_opt _ _).
Qed.

Definition query_post (q : QueryBuilder) (ctx : list bool) (d : DB) (A : AStore)
    (r : result db_err (list (gostr * Row) * Iter)) (d' : DB) : Prop :=
  reads_only d d' /\
  match r with
  | Ok (rows, i') =>
      d_closed d = false /\ exists sm R all, d_sets d !! q_set q = Some sm /\ A !! q_set q = Some R /\
        scan_answer (sm_Indexed sm) q R all /\ rows `prefix_of` all /\
        (it_err i' = None -> rows = all) /\
        (d_faults d = [] -> Forall (eq false) ctx -> it_err i' = None)
  | Err e =>
      (d_closed d = true /\ e = ErrClosed) \/ (A !! q_set q = None /\ e = ErrUnknownSet) \/
      (d_faults d <> [] /\ e = ErrPebble)
  end.

(** What [Run] hands its caller: an iterator that has not moved, over the
    entries the answer comes from. *)
Definition run_post (q : QueryBuilder) (ctx : list bool) (d : DB) (A : AStore) (r : result db_err Iter) (d' : DB) : Prop :=
  reads_only d d' /\ (d_faults d = [] -> d_faults d' = []) /\
  match r with
  | Ok i =>
      d_closed d = false /\ it_started i = false /\ it_err i = None /\ it_closed i = false /\ it_ctx i = ctx /\ no_fail i /\
        exists sm R, d_sets d !! q_set q = Some sm /\ A !! q_set q = Some R /\ scan_answer (sm_Indexed sm) q R (answer i 0)
  | Err e =>
      (d_closed d = true /\ e = ErrClosed) \/ (A !! q_set q = None /\ e = ErrUnknownSet) \/
      (d_faults d <> [] /\ e = ErrPebble)
  end.

Lemma run_wp q ctx d A : db_inv d A -> bet_ok (q_bet q) -> wp (Run q ctx) (run_post q ctx d A) d.
Proof.
  intros Hi Hbet. apply wp_bind, guard_open_wp.
  2: { intros Hc. do 2 (split; [done|]). by left. }
  intros Hopen. apply wp_bind, wp_get_db. unfold setRef.
  destruct (d_sets d !! q_set q) as [sm|] eqn:Es.
  2: { apply wp_fail. do 2 (split; [done|]). right. left. split; [|done]. destruct (A !! q_set q) eqn:E; [|done].
       destruct (proj2 (inv_dom _ _ _ _ _ Hi (q_set q))) as [? ?]; [by rewrite E | congruence]. }
  destruct (inv_lookup _ _ _ _ _ _ _ Hi Es) as (R & HA & Hsm).
  pose proof (inv_id32 _ _ _ _ _ _ _ Hi Es) as Hid.
  set (ref := {| ref_id := sm_ID sm; ref_indexed := sm_Indexed sm; ref_indexCol := sm_IndexCol sm |}).
  apply wp_bind, wp_modify, wp_bind, wp_pebble_call.
  2: { intros Hf d1 (f & -> & Hff). do 2 (split; [done|]). do 2 right. by split. }
  intros d1 (f & -> & Hf). apply wp_bind, wp_modify, wp_bind, wp_get_db, wp_ret.
  change (kv_scan _ (pl_lower (plan ref q)) (pl_upper (plan ref q))) with
    (kv_scan (d_kv d) (pl_lower (plan ref q)) (pl_upper (plan ref q))).
  fold (started_iter (d_kv d) ref q ctx).
  destruct (started_answer (d_kv d) ref R q ctx (si_rep _ _ _ _ Hsm) Hid (si_col _ _ _ _ Hsm) Hbet) as [Hans Hnf].
  split; [done|]. split; [exact Hf|]. do 6 (split; [done|]). by exists sm, R.
Qed.

Lemma query_wp q ctx d A :
  db_inv d A -> bet_ok (q_bet q) -> wp (i ← Run q ctx; collect i) (query_post q ctx d A) d.
Proof.
  intros Hi Hbet. apply wp_bind. eapply wp_mono; [by apply run_wp|]. intros [i|e] d1 (Hr & Hf & Hrun); [|done].
  destruct Hrun as (Hopen & Hst & Herr & Hcl & Hctx & Hnf & sm & R & Hsm & HA & Hans).
  eapply wp_mono; [by apply collect_wp|].
  intros r d2 (Hr2 & rows & i' & -> & Hpre & Hall & Hcalm). cbn [app].
  split; [unfold reads_only in *; intuition congruence|]. split; [done|].
  exists sm, R, (answer i 0). do 5 (split; [done|]).
  intros Hff Hc. apply Hcalm; [|done]. split; [auto|]. by rewrite Hctx.
Qed.
End Scan.
