(* ===== verification/EngineTrace.v ===== *)
(** * EngineTrace: the store over its whole life

    Sequences of operations, with calls failing anywhere, reads, drops,
    sweeps and restarts.  The invariant holds throughout, and a set id once
    taken from a set is never given to another. *)

From Stdlib Require Import ZArith Lia Bool Relations.
From Stdlib Require Import Strings.Byte Strings.String.
From S2P Require Import Prelude Bytes Float64 GoStd Model EngineKeys EngineCodec EngineDB EngineRep.
From S2P Require Import EngineInv EngineSchema EngineStore EngineOpen EngineQuery EngineScan.

Section Trace.
Context `{FloatText} `{J : MetaJSON} `{!MetaJSONLaws J} `{L : LSM} `{!LSMLaws L}.

Abbreviation AStore := (gmap gostr Rows).

(** ** The remaining writes *)

Lemma RegisterSet_wp name cols d A :
  db_inv d A -> ValidString name = true -> cols_utf8 cols -> in_u32 (d_nextID d + 1) ->
  wp (RegisterSet name cols) (fun r d' =>
    (exists A', db_inv d' A') /\ d_nextID d <= d_nextID d' /\
    recorded_next (kv_get (d_kv d)) <= recorded_next (kv_get (d_kv d')) /\
    others name d d' /\ (forall sm', d_sets d' !! name = Some sm' -> schema_le (base_meta d name) sm')) d.
Proof.
  intros Hi Hn Hc Hnext. apply wp_bind, guard_open_wp.
  2: { intros _. split; [by exists A|]. split; [done|]. split; [done|]. split; [by intros ?|].
       intros sm' Hs. by rewrite (base_meta_eq _ _ _ Hs). }
  intros _. apply wp_bind. eapply wp_mono; [by apply setLocked_wp|].
  intros r d' [_ O N R S I _].
  assert (Hgoal : (exists A', db_inv d' A') /\ d_nextID d <= d_nextID d' /\
    recorded_next (kv_get (d_kv d)) <= recorded_next (kv_get (d_kv d')) /\
    others name d d' /\ (forall sm', d_sets d' !! name = Some sm' -> schema_le (base_meta d name) sm')).
  { split; [destruct I as [[? _]|?]; eauto|]. split; [done|]. split; [done|]. split; [done|].
    intros sm' Hs. by apply S. }
  destruct r; [apply wp_ret|]; exact Hgoal.
Qed.

Lemma dict_write_wp op name d A :
  db_inv d A -> (exists v, op = BSet (dictKey name) v) \/ op = BDelete (dictKey name) ->
  wp (guard_open ;; pdb_Apply [op]) (fun r d' =>
    db_inv d' A /\ d_sets d' = d_sets d /\ d_nextID d' = d_nextID d /\
    recorded_next (kv_get (d_kv d')) = recorded_next (kv_get (d_kv d))) d.
Proof.
  intros Hi Hop. apply wp_bind, guard_open_wp; [|done]. intros _. apply wp_pdb_Apply.
  2: { by intros _ d' (f & -> & _). }
  intros d' (f & -> & _).
  assert (Hk : forall k, k <> dictKey name -> kv_get (kv_apply (d_kv d) [op]) k = kv_get (d_kv d) k).
  { intros k Hne. rewrite kv_get_apply. cbn [ops_get foldl].
    destruct Hop as [[v ->]| ->]; cbn [op_get]; by rewrite bytes_eqb_dec, bool_decide_false by congruence. }
  assert (Hrec : recorded_next (kv_get (kv_apply (d_kv d) [op])) = recorded_next (kv_get (d_kv d)))
    by (apply recorded_other; by apply Hk).
  split; [|done]. unfold db_inv. cbn [d_kv d_sets d_byID d_nextID set_kv set_faults].
  eapply inv_elsewhere; [exact Hi| | | |].
  - intros id k Ha. apply Hk. intros ->. done.
  - by apply Hk.
  - by apply Hk.
  - intros n. by apply Hk.
Qed.

(** ** Steps *)

(** One operation, whichever of its calls into the LSM fail. *)
Inductive step : DB -> DB -> Prop :=
| step_put d f set recs :
    ValidString set = true -> Forall rec_ok recs -> in_u32 (d_nextID d + 1) ->
    (forall A idx, db_inv d A -> index_candidate d set idx ->
       keys_agree idx (rows_of A set) (map rec_pair recs)) ->
    step d (PutBatch set recs (set_faults f d)).2
| step_register d f name cols :
    ValidString name = true -> cols_utf8 cols -> in_u32 (d_nextID d + 1) ->
    step d (RegisterSet name cols (set_faults f d)).2
| step_drop d f name : step d (DropSet name (set_faults f d)).2
| step_sweep d f set beforeMs : in_i64 beforeMs -> step d (DeleteOlderThan set beforeMs (set_faults f d)).2
| step_put_dict d f name val : step d (PutDict name val (set_faults f d)).2
| step_delete_dict d f name : step d (DeleteDict name (set_faults f d)).2
| step_get d f set pk cols : step d (Get set pk cols (set_faults f d)).2
| step_query d f q ctx : bet_ok (q_bet q) -> step d ((i ← Run q ctx; collect i) (set_faults f d)).2
| step_close d f : step d (Close (set_faults f d)).2
| step_reopen d f path d' : path <> [] -> Open path (d_kv d) f = (Ok tt, d') -> step d d'.

Abbreviation steps := (clos_refl_trans_1n DB step).

(** What every step keeps: the invariant, and the fence between the ids
    already recorded and those still to be handed out. *)
Record step_ok (d d' : DB) : Prop := {
  so_inv : exists A, db_inv d' A;
  so_rec : recorded_next (kv_get (d_kv d)) <= recorded_next (kv_get (d_kv d'));
  so_ids : forall n id, holds_id (d_sets d') n id ->
    holds_id (d_sets d) n id \/ recorded_next (kv_get (d_kv d)) <= id;
}.

Lemma step_ok_maps d d' : (exists A, db_inv d' A) ->
  recorded_next (kv_get (d_kv d)) <= recorded_next (kv_get (d_kv d')) ->
  (forall n sm', d_sets d' !! n = Some sm' ->
     (exists sm, d_sets d !! n = Some sm /\ sm_ID sm' = sm_ID sm) \/ sm_ID sm' = d_nextID d) ->
  recorded_next (kv_get (d_kv d)) <= d_nextID d -> step_ok d d'.
Proof.
  intros Hi Hr Hs Hn. split; [done|done|]. intros n id (sm' & Hs' & <-).
  destruct (Hs n sm' Hs') as [(sm & Es & E)|E]; [left; by exists sm | right; lia].
Qed.

Lemma locked_ids name d d' :
  others name d d' -> (forall sm', d_sets d' !! name = Some sm' -> schema_le (base_meta d name) sm') ->
  forall n sm', d_sets d' !! n = Some sm' ->
    (exists sm, d_sets d !! n = Some sm /\ sm_ID sm' = sm_ID sm) \/ sm_ID sm' = d_nextID d.
Proof.
  intros Ho Hs n sm' Hs'. destruct (decide (n = name)) as [->|Hne].
  - pose proof (sl_id _ _ (Hs _ Hs')) as E. unfold base_meta in E.
    destruct (d_sets d !! name) as [sm|]; [left; by exists sm | by right].
  - rewrite Ho in Hs' by done. left. by exists sm'.
Qed.

Lemma reads_step_ok d A d' : db_inv d A -> reads_only d d' -> step_ok d d'.
Proof.
  intros Hi Hr. pose proof (reads_inv _ _ _ Hr Hi) as Hi'. destruct Hr as (E1 & E2 & _).
  split; [by exists A|by rewrite E1|]. rewrite E2. by left.
Qed.

Lemma Close_reads f d : d_kv (Close (set_faults f d)).2 = d_kv d /\ d_sets (Close (set_faults f d)).2 = d_sets d /\
  d_byID (Close (set_faults f d)).2 = d_byID d /\ d_nextID (Close (set_faults f d)).2 = d_nextID d.
Proof.
  unfold Close, mbind, M_bind, get_db. cbn [d_closed set_faults]. destruct (d_closed d); [done|].
  unfold modify, pebble_call. cbn. destruct f as [|[] [|[] f]]; done.
Qed.

Lemma step_sound d A d' : db_inv d A -> step d d' -> step_ok d d'.
Proof.
  intros Hi Hstep. pose proof (inv_rec _ _ _ _ _ Hi) as Hrec.
  destruct Hstep as [d f set recs Hset Hrecs Hnext Hag|d f name cols Hn Hc Hnext|d f name|d f set ms Hms
                    |d f name val|d f name|d f set pk cols|d f q ctx Hq|d f|d f path d' Hp Ho].
  - destruct (PutBatch_wp set recs (set_faults f d) A Hi Hset Hrecs Hnext (fun idx => Hag A idx Hi)) as [I O R S _ _].
    apply step_ok_maps; [|done| |done].
    + destruct ((PutBatch set recs (set_faults f d)).1); [eauto|]. destruct I as [[?|?] _]; eauto.
    + intros n sm'. by apply (locked_ids set (set_faults f d)).
  - destruct (RegisterSet_wp name cols (set_faults f d) A Hi Hn Hc Hnext) as (I & _ & R & O & S).
    apply step_ok_maps; [done|done| |done]. intros n sm'. by apply (locked_ids name (set_faults f d)).
  - destruct (DropSet_wp name (set_faults f d) A Hi) as [I _ R _]. apply step_ok_maps; [|by rewrite R| |done].
    + destruct ((DropSet name (set_faults f d)).1); [destruct I as (_ & _ & ? & _)|destruct I as [? _]]; eauto.
    + intros n sm' Hs. left. destruct ((DropSet name (set_faults f d)).1).
      * destruct I as (_ & _ & _ & E). rewrite E in Hs. apply lookup_delete_Some in Hs as [_ Hs]. by exists sm'.
      * destruct I as (_ & _ & E & _). rewrite E in Hs. by exists sm'.
  - destruct (DeleteOlderThan_wp set ms (set_faults f d) A Hi Hms) as (S & N & _ & R & I).
    apply step_ok_maps; [|by rewrite R| |done].
    + destruct ((DeleteOlderThan set ms (set_faults f d)).1).
      * destruct I as [(_ & _ & ?)|(R' & sm & _ & _ & _ & ?)]; eauto.
      * destruct I as [? _]. eauto.
    + intros n sm' Hs. rewrite S in Hs. left. by exists sm'.
  - destruct (dict_write_wp (BSet (dictKey name) val) name (set_faults f d) A Hi) as (I & S & N & R); [left; by eexists|].
    apply step_ok_maps; [eauto| | |done].
    + unfold PutDict, pdb_Set. by rewrite R.
    + intros n sm' Hs. left. exists sm'. unfold PutDict, pdb_Set in Hs. by rewrite S in Hs.
  - destruct (dict_write_wp (BDelete (dictKey name)) name (set_faults f d) A Hi) as (I & S & N & R); [by right|].
    apply step_ok_maps; [eauto| | |done].
    + unfold DeleteDict, pdb_Delete. by rewrite R.
    + intros n sm' Hs. left. exists sm'. unfold DeleteDict, pdb_Delete in Hs. by rewrite S in Hs.
  - destruct (Get_wp set pk cols (set_faults f d) A Hi) as [Hr _]. exact (reads_step_ok d A _ Hi Hr).
  - destruct (query_wp q ctx (set_faults f d) A Hi Hq) as [Hr _]. exact (reads_step_ok d A _ Hi Hr).
  - destruct (Close_reads f d) as (E1 & E2 & E3 & E4). split.
    + exists A. unfold db_inv. rewrite E1, E2, E3, E4. exact Hi.
    + by rewrite E1.
    + rewrite E2. by left.
  - assert (reopened d A d') as (A' & I & _ & K & N & _ & _ & S).
    { pose proof (Open_run path d A f (fun r d1 => r = Ok tt -> reopened d A d1) Hi Hp) as Hrun.
      rewrite Ho in Hrun. apply Hrun; [done|done|done]. }
    split; [eauto|by rewrite K|]. intros n id (sm0 & Hs & <-). left.
    destruct (S n sm0 Hs) as (sm' & Es & E). by exists sm'.
Qed.

Lemma steps_ok d d' : steps d d' -> forall A, db_inv d A -> step_ok d d'.
Proof.
  induction 1 as [d|d d1 d2 Hs _ IH]; intros A Hi.
  { split; [eauto|done|]. by left. }
  destruct (step_sound d A d1 Hi Hs) as [[A1 Hi1] R1 S1]. destruct (IH A1 Hi1) as [I2 R2 S2].
  split; [done|lia|]. intros n id Hh. destruct (S2 n id Hh) as [Hh1|Hle]; [|right; lia].
  destruct (S1 n id Hh1); [by left|by right].
Qed.

Lemma held_below d A n id : db_inv d A -> holds_id (d_sets d) n id -> id < recorded_next (kv_get (d_kv d)).
Proof.
  intros Hi (sm & Hs & <-). destruct (inv_lookup _ _ _ _ _ _ _ Hi Hs) as (R & _ & Hsm). apply Hsm.
Qed.

Lemma ids_not_reissued d0 A d1 d2 n0 id :
  db_inv d0 A -> steps d0 d1 -> steps d1 d2 ->
  holds_id (d_sets d0) n0 id -> (forall n, ~ holds_id (d_sets d1) n id) ->
  forall n, ~ holds_id (d_sets d2) n id.
Proof.
  intros Hi H01 H12 Hh Hgone n Hn. destruct (steps_ok _ _ H01 _ Hi) as [[A1 Hi1] R1 _].
  destruct (steps_ok _ _ H12 _ Hi1) as [_ _ S2]. pose proof (held_below _ _ _ _ Hi Hh).
  destruct (S2 n id Hn) as [Hh1|Hle]; [by apply (Hgone n)|lia].
Qed.
End Trace.

(** * What any run of an operation keeps

    A relation between the engine before and after that holds however the
    operation ends: the id counter of what takes no id, the faults still to
    come, the schemas. *)

Section Keeps.
Context `{FloatText} `{J : MetaJSON} `{L : LSM}.

Definition keeps {A} (R : DB -> DB -> Prop) (m : M A) : Prop := forall d, R d (m d).2.

Section Relation.
Context (R : DB -> DB -> Prop) `{!PreOrder R}.
Hypothesis (keeps_pebble : keeps R pebble_call).

Lemma keeps_bind {A B} (m : M A) (k : A -> M B) : keeps R m -> (forall a, keeps R (k a)) -> keeps R (m ≫= k).
Proof.
  intros Hm Hk d. specialize (Hm d). unfold mbind, M_bind. destruct (m d) as [[a|e] d1]; cbn [snd] in *; [|done].
  etransitivity; [exact Hm | apply Hk].
Qed.
Lemma keeps_ret {A} (a : A) : keeps R (mret a).
Proof. intros d. reflexivity. Qed.
Lemma keeps_fail {A} e : keeps R (fail e : M A).
Proof. intros d. reflexivity. Qed.
Lemma keeps_get : keeps R get_db.
Proof. intros d. reflexivity. Qed.
Lemma keeps_modify f : (forall d, R d (f d)) -> keeps R (modify f).
Proof. intros Hf d. apply Hf. Qed.
Lemma keeps_guard : keeps R guard_open.
Proof. apply keeps_bind; [apply keeps_get|]. intros d. destruct (d_closed d); [apply keeps_fail | apply keeps_ret]. Qed.

Lemma keeps_rows id : keeps R (hasDataRows id).
Proof.
  apply keeps_bind; [|intros rows; apply keeps_ret]. apply keeps_bind; [apply keeps_pebble|]. intros _. apply keeps_bind; [apply keeps_get|].
  intros d. apply keeps_bind; [apply keeps_pebble|]. intros _. apply keeps_ret.
Qed.
Lemma keeps_add b op : keeps R (batch_add b op).
Proof. apply keeps_bind; [apply keeps_pebble|]. intros _. apply keeps_ret. Qed.
Lemma keeps_put_records set id indexed icol recs : forall b, keeps R (put_records set id indexed icol b recs).
Proof.
  induction recs as [|r recs IH]; intros b; [apply keeps_ret|]. cbn [put_records]. apply keeps_bind; [|intros b'; apply IH]. unfold put_record.
  break_if; [|apply keeps_add]. destruct (rec_Row r !! indexed) as [v|]; [|apply keeps_fail]. destruct (AsInt v) as [ts ok].
  break_if; [apply keeps_fail|]. apply keeps_bind; [apply keeps_add|]. intros b'. apply keeps_add.
Qed.

Hypothesis (keeps_kv : forall d k, R d (set_kv k d)).
Lemma keeps_apply ops : keeps R (pdb_Apply ops).
Proof. apply keeps_bind; [apply keeps_pebble|]. intros _. by apply keeps_modify. Qed.

Hypothesis (keeps_meta : forall d sets, R d (set_maps sets (d_byID d) (d_nextID d) d)).
Lemma keeps_store sm : keeps R (store_meta sm).
Proof. apply keeps_bind; [by apply keeps_modify|]. intros _. apply keeps_ret. Qed.
Lemma keeps_add_columns created cols : forall sm, keeps R (add_columns created sm cols).
Proof.
  induction cols as [|c cols IH]; intros sm; [apply keeps_ret|]. cbn [add_columns]. apply keeps_bind; [|intros sm'; apply IH]. unfold add_column.
  destruct (sm_Columns sm !! cs_Name c); [repeat break_if; try apply keeps_ret; apply keeps_store|].
  apply keeps_bind; [|intros sm1; apply keeps_store]. break_if; [|apply keeps_ret].
  apply keeps_bind; [destruct created; [apply keeps_ret | apply keeps_rows]|]. intros []; [apply keeps_fail | apply keeps_ret].
Qed.
Lemma keeps_saved created sm cols :
  keeps R (sm ← add_columns created sm cols; if sm_dirty sm then persistSet sm ;; store_meta (with_dirty false sm) else mret sm).
Proof.
  apply keeps_bind; [apply keeps_add_columns|]. intros sm'. break_if; [|apply keeps_ret]. apply keeps_bind; [apply keeps_apply|].
  intros _. apply keeps_store.
Qed.

Hypothesis (keeps_create : forall name, keeps R (create_set name)) (keeps_stats : forall d st, R d (set_stats st d)).
Lemma keeps_PutBatch set recs : keeps R (PutBatch set recs).
Proof.
  apply keeps_bind; [apply keeps_guard|]. intros _. destruct recs as [|r recs]; [apply keeps_ret|]. apply keeps_bind.
  - apply keeps_bind; [apply keeps_get|]. intros d0. apply (keeps_bind (match d_sets d0 !! set with Some sm => mret sm | None => create_set set end)).
    + destruct (d_sets d0 !! set); [apply keeps_ret | apply keeps_create].
    + intros sm. apply keeps_saved.
  - intros sm. apply keeps_bind; [apply keeps_put_records|]. intros b. apply keeps_bind; [apply keeps_apply|]. intros _. by apply keeps_modify.
Qed.
End Relation.

(** An engine nothing disturbs stays so. *)
Definition calmer (d d' : DB) : Prop := d_closed d' = d_closed d /\ (d_faults d = [] -> d_faults d' = []).
#[export] Instance calmer_preorder : PreOrder calmer.
Proof. split; [by intros d|]. intros d1 d2 d3 [C1 F1] [C2 F2]. split; [congruence | auto]. Qed.

Lemma calmer_pebble : keeps calmer pebble_call.
Proof. intros d. unfold pebble_call, calmer. destruct (d_faults d) as [|[] ?] eqn:E; cbn; rewrite ?E; by split. Qed.

Lemma PutBatch_calmer set recs : keeps calmer (PutBatch set recs).
Proof.
  apply (keeps_PutBatch calmer); [apply calmer_pebble | done | done | | done]. intros name. unfold create_set.
  apply (keeps_bind calmer); [done|]. intros d. apply (keeps_bind calmer); [by apply keeps_modify|]. intros _.
  apply (keeps_bind calmer); [|done]. intros d1. unfold on_err.
  assert (Hp : keeps calmer persistNextID) by (apply (keeps_bind calmer); [done|]; intros d0; apply (keeps_apply calmer); [apply calmer_pebble | done]).
  specialize (Hp d1). by destruct (persistNextID d1) as [[]].
Qed.
Lemma PutDict_calmer name v : keeps calmer (PutDict name v).
Proof.
  apply (keeps_bind calmer); [apply (keeps_guard calmer)|]. intros _. apply (keeps_apply calmer); [apply calmer_pebble | done].
Qed.

(** ** The column a batch files under *)

(** Indexed by the timestamp, or not yet knowing it. *)
Definition time_or_new (sm : setMeta) : Prop :=
  sm_Indexed sm = TimestampField \/ (sm_Indexed sm = [] /\ sm_Columns sm !! TimestampField = None).
Definition time_column (c : ColumnSpec) : Prop := cs_Indexed c = bytes_eqb (cs_Name c) TimestampField.

(** Every name of a batch is a column of it. *)
Definition located (st : list ColumnSpec * gmap gostr nat) : Prop :=
  forall k j, st.2 !! k = Some j -> exists c, st.1 !! j = Some c /\ cs_Name c = k.

Lemma derive_column_located st nv : located st -> let st' := derive_column st nv in
  located st' /\ (exists c, c ∈ st'.1 /\ cs_Name c = nv.1) /\ (forall c, c ∈ st.1 -> exists c', c' ∈ st'.1 /\ cs_Name c' = cs_Name c).
Proof.
  destruct st as [cols at_], nv as [k v]. intros Hl. cbn [derive_column fst snd]. destruct (at_ !! k) as [j|] eqn:Ej.
  - destruct (Hl k j Ej) as (c & Hc & Hn). cbn [fst] in Hc. rewrite Hc. assert (Hin : c ∈ cols) by (by eapply list_elem_of_lookup_2).
    break_if; [|split; [exact Hl|]; split; [by exists c | by eauto]]. pose proof (lookup_lt_Some _ _ _ Hc) as Hlt.
    set (c1 := {| cs_Name := cs_Name c; cs_Type := TypeFloat; cs_Indexed := cs_Indexed c |}).
    assert (Hin1 : c1 ∈ <[j := c1]> cols) by (by apply list_elem_of_insert). split; [|split].
    + intros k' j' Hk'. cbn [fst snd] in *. destruct (Hl k' j' Hk') as (c' & Hc' & Hn'). cbn [fst] in Hc'. destruct (decide (j' = j)) as [-> | Hne].
      * exists c1. rewrite list_lookup_insert_eq by done. split; [done|]. cbn. congruence.
      * exists c'. by rewrite list_lookup_insert_ne by congruence.
    + by exists c1.
    + intros c' [j' Hc']%list_elem_of_lookup. cbn [fst] in *. destruct (decide (j' = j)) as [-> | Hne].
      * exists c1. split; [done|]. cbn. congruence.
      * exists c'. split; [|done]. apply (list_elem_of_lookup_2 _ j'). by rewrite list_lookup_insert_ne by congruence.
  - set (c1 := {| cs_Name := k; cs_Type := v_T v; cs_Indexed := bytes_eqb k TimestampField |}). cbn [fst snd]. split; [|split].
    + intros k' j' Hk'. cbn [fst snd] in *. apply lookup_insert_Some in Hk' as [[<- <-] | [_ Hk']].
      * exists c1. by rewrite list_lookup_middle.
      * destruct (Hl k' j' Hk') as (c' & Hc' & Hn'). exists c'. split; [|done]. by apply lookup_app_l_Some.
    + exists c1. split; [|done]. apply elem_of_app. right. by apply list_elem_of_singleton.
    + intros c' Hc'. exists c'. split; [|done]. apply elem_of_app. by left.
Qed.

Lemma derive_columns_has recs k : (exists r, r ∈ recs /\ is_Some (rec_Row r !! k)) -> exists c, c ∈ derive_columns recs /\ cs_Name c = k.
Proof.
  intros (r & Hr & v & Hv). assert (Hin : (k, v) ∈ concat (map (fun r => map_to_list (rec_Row r)) recs)) by (apply entries_elem; by exists r).
  unfold derive_columns. revert Hin. generalize (concat (map (fun r => map_to_list (rec_Row r)) recs)). intros l.
  assert (Hgo : forall l st, located st -> (exists c, c ∈ st.1 /\ cs_Name c = k) \/ (k, v) ∈ l -> exists c, c ∈ (foldl derive_column st l).1 /\ cs_Name c = k).
  { clear. induction l as [|nv l IH]; intros st Hl Hk; cbn [foldl]; [by destruct Hk as [? | ?%elem_of_nil]|].
    destruct (derive_column_located st nv Hl) as (Hl' & Hnew & Hold). apply IH; [done|]. destruct Hk as [(c & Hc & Hn) | [<- | Hin]%elem_of_cons].
    - left. destruct (Hold c Hc) as (c' & ? & ?). exists c'. split; [done | congruence].
    - by left.
    - by right. }
  intros Hin. apply Hgo; [|by right]. intros k' j Hj. cbn in Hj. by rewrite lookup_empty in Hj.
Qed.

Lemma store_meta_result sm d r d' : store_meta sm d = (r, d') -> r = Ok sm.
Proof. by intros [= <- _]. Qed.

Lemma add_column_time created sm c d sm' d' : time_column c -> time_or_new sm -> add_column created sm c d = (Ok sm', d') ->
  time_or_new sm' /\ (cs_Name c = TimestampField \/ sm_Indexed sm = TimestampField -> sm_Indexed sm' = TimestampField).
Proof.
  unfold time_column, add_column. intros Hc Hsm. destruct (sm_Columns sm !! cs_Name c) as [c0|] eqn:Ec.
  - assert (Hkeep : forall sm1, sm_Indexed sm1 = sm_Indexed sm -> (sm_Columns sm1 !! TimestampField = None <-> sm_Columns sm !! TimestampField = None) ->
              time_or_new sm1 /\ (cs_Name c = TimestampField \/ sm_Indexed sm = TimestampField -> sm_Indexed sm1 = TimestampField)).
    { intros sm1 E1 E2. unfold time_or_new. rewrite E1, E2. split; [done|]. intros [En | ?]; [|done]. rewrite En in Ec. destruct Hsm as [? | [_ ?]]; [done | congruence]. }
    repeat break_if; intros Hr; try (injection Hr as <- <-; by apply Hkeep). apply store_meta_result in Hr. injection Hr as ->.
    apply Hkeep; [done|]. cbn [sm_Columns with_column]. destruct (decide (TimestampField = cs_Name c)) as [-> | Hne];
      [rewrite lookup_insert_eq, Ec; by split | by rewrite lookup_insert_ne by congruence].
  - unfold mbind, M_bind. destruct (cs_Indexed c && bytes_eqb (sm_Indexed sm) []) eqn:Ei.
    + apply andb_true_iff in Ei as [Ei _]. rewrite Hc in Ei. apply bytes_eqb_spec in Ei.
      destruct ((if created then mret false else hasDataRows (sm_ID sm)) d) as [[[]|] d1]; [done| |done].
      intros Hr%store_meta_result. injection Hr as ->. cbn [with_column with_index sm_Indexed]. unfold time_or_new. cbn [sm_Indexed with_column with_index]. rewrite Ei. by auto.
    + cbn [mret M_ret]. intros Hr%store_meta_result. injection Hr as ->. unfold time_or_new. cbn [with_column sm_Indexed sm_Columns].
      destruct Hsm as [Hi | [Hi Hn]]; [by auto|]. rewrite Hi, andb_true_r, Hc in Ei. apply bytes_eqb_neq in Ei. split; [|intros [? | ?]; congruence].
      right. by rewrite lookup_insert_ne by congruence.
Qed.

Lemma add_columns_time created cols : forall sm d sm' d', Forall time_column cols -> time_or_new sm -> add_columns created sm cols d = (Ok sm', d') ->
  time_or_new sm' /\ ((exists c, c ∈ cols /\ cs_Name c = TimestampField) \/ sm_Indexed sm = TimestampField -> sm_Indexed sm' = TimestampField).
Proof.
  induction cols as [|c cols IH]; intros sm d sm' d' Hc Hsm; cbn [add_columns].
  - intros [= <- <-]. split; [done|]. by intros [(c & ?%elem_of_nil & _) | ?].
  - apply Forall_cons in Hc as [Hc Hcols]. unfold mbind, M_bind. destruct (add_column created sm c d) as [[sm1|] d1] eqn:E; [|done].
    destruct (add_column_time _ _ _ _ _ _ Hc Hsm E) as [H1 H2]. intros Hr. destruct (IH _ _ _ _ Hcols H1 Hr) as [H3 H4]. split; [done|].
    intros [(c' & [-> | Hin]%elem_of_cons & Hn) | Hi]; apply H4; [right; auto | left; by exists c' | right; auto].
Qed.

Lemma setLocked_time name cols d sm d' : (forall m, d_sets d !! name = Some m -> sm_Indexed m = TimestampField) -> Forall time_column cols ->
  (exists c, c ∈ cols /\ cs_Name c = TimestampField) -> setLocked name cols d = (Ok sm, d') -> sm_Indexed sm = TimestampField.
Proof.
  intros Hold Hcols Hts. unfold setLocked. unfold mbind at 1, M_bind at 1, get_db. unfold mbind at 1, M_bind at 1.
  assert (Htail : forall created sm0 d0, time_or_new sm0 ->
    (sm ← add_columns created sm0 cols; if sm_dirty sm then persistSet sm ;; store_meta (with_dirty false sm) else mret sm) d0 = (Ok sm, d') ->
    sm_Indexed sm = TimestampField).
  { intros created sm0 d0 Hsm0. unfold mbind at 1, M_bind at 1. destruct (add_columns created sm0 cols d0) as [[sm1|] d1] eqn:E; [|done].
    destruct (add_columns_time _ _ _ _ _ _ Hcols Hsm0 E) as [_ Hi]. specialize (Hi (or_introl Hts)). break_if; [|by intros [= <- <-]].
    unfold mbind, M_bind. destruct (persistSet sm1 d1) as [[]]; [|done]. intros Hr%store_meta_result. injection Hr as ->. exact Hi. }
  destruct (d_sets d !! name) as [m|] eqn:Em.
  - cbn [mret M_ret]. apply Htail. left. by apply Hold.
  - destruct (create_set name d) as [[sm0|] d0] eqn:Ec; [|done]. apply Htail. right. unfold create_set, mbind, M_bind, get_db, modify in Ec.
    destruct (on_err _ _ _) as [[]]; [|done]. injection Ec as <- _. cbn. by rewrite lookup_empty.
Qed.
End Keeps.

Section Indexed.
Context `{FloatText} `{J : MetaJSON} `{!MetaJSONLaws J} `{L : LSM} `{!LSMLaws L}.

(** A batch of timestamped rows leaves its set indexed by the timestamp. *)
Lemma PutBatch_time set recs d d' A : db_inv d A -> ValidString set = true -> Forall rec_ok recs -> in_u32 (d_nextID d + 1) ->
  (forall m, d_sets d !! set = Some m -> sm_Indexed m = TimestampField) -> recs <> [] -> Forall (fun r => is_Some (rec_Row r !! TimestampField)) recs ->
  PutBatch set recs d = (Ok tt, d') -> forall m, d_sets d' !! set = Some m -> sm_Indexed m = TimestampField.
Proof.
  intros Hi Hset Hrecs Hnext Hold Hne Hts. unfold PutBatch, mbind at 1, M_bind at 1. destruct (guard_open d) as [[]] eqn:Eg; [|done].
  assert (d0 = d) as -> by (unfold guard_open, mbind, M_bind, get_db, fail, mret, M_ret in Eg; destruct (d_closed d); by injection Eg). clear Eg.
  destruct recs as [|r0 recs0] eqn:Erecs; [done|]. rewrite <- Erecs in *. unfold mbind at 1, M_bind at 1.
  pose proof (setLocked_wp set (derive_columns recs) d A Hi Hset (derived_utf8 _ Hrecs) Hnext) as Hw. unfold wp in Hw.
  destruct (setLocked set (derive_columns recs) d) as [[sm|] d1] eqn:Es; [|done]. destruct Hw as [_ _ _ _ _ _ (Hsm & _)]. cbn [snd fst] in Hsm.
  assert (Hidx : sm_Indexed sm = TimestampField).
  { apply (setLocked_time set (derive_columns recs) d sm d1 Hold); [| |done].
    - eapply Forall_impl; [apply derive_columns_origin|]. by intros c [_ ?].
    - apply derive_columns_has. rewrite Erecs in *. apply Forall_cons in Hts as [? _]. exists r0. split; [left | done]. }
  intros Hrun m Hm. assert (Hsame : d_sets d' = d_sets d1).
  { pose (R := fun d d' : DB => d_sets d' = d_sets d). assert (PreOrder R) by (split; [by intros ?|]; intros ? ? ? E1 E2; unfold R in *; congruence).
    assert (Hp : keeps R pebble_call) by (intros d2; unfold pebble_call, R; by destruct (d_faults d2) as [|[] ?]).
    pose proof (keeps_bind R (put_records set (sm_ID sm) (sm_Indexed sm) (sm_IndexCol sm) [] recs)
      (fun b => pdb_Apply b ;; modify (fun d => set_stats (add_puts (zlen recs) (d_stats d)) d))) as Hk.
    specialize (Hk (keeps_put_records R Hp _ _ _ _ _ _)). assert (Hd : R d1 ((Ok tt : result db_err unit), d').2); [|exact Hd]. rewrite <- Hrun. apply Hk.
    intros b. apply (keeps_bind R); [by apply (keeps_apply R)|]. intros _. by apply keeps_modify. }
  rewrite Hsame, Hsm in Hm. by injection Hm as <-.
Qed.
End Indexed.
