(* ===== verification/Instances.v ===== *)
(** * Instances: the interfaces, instantiated

    The development is parametric in what the program takes from outside
    its source: text of floats, XXH3, the JSON of a set's record, the LSM.
    This file gives one concrete instance of each, so that the hypotheses
    of the theorems are shown to hold somewhere, and a small store to show
    it on. *)

From Stdlib Require Import ZArith Lia Bool.
From Stdlib Require Import Strings.Byte Strings.String.
From Stdlib Require Import Floats.SpecFloat.
From S2P Require Import Prelude Bytes Float64 GoStd Model EngineKeys EngineCodec EngineDB EngineRep.
From S2P Require Import EngineInv EngineSchema EngineStore EngineOpen.

(** ** Text of floats, xxh3 *)

Fixpoint pos_bytes (p : positive) : gostr :=
  match p with xH => [] | xO p => x00 :: pos_bytes p | xI p => x01 :: pos_bytes p end.
Fixpoint bytes_pos (s : gostr) : positive :=
  match s with [] => xH | x00 :: s => xO (bytes_pos s) | _ :: s => xI (bytes_pos s) end.
Lemma bytes_pos_bytes p : bytes_pos (pos_bytes p) = p.
Proof. induction p as [p IH|p IH|]; cbn; by rewrite ?IH. Qed.

(** A whole number is written as one; any other float as ["0."] and its
    bits in decimal. *)
Definition is_whole (f : f64) : bool := bool_decide (of_int (to_int f) = f /\ in_i64 (to_int f)).
Definition bits_text (f : f64) : gostr := [x30; x2e] ++ FormatUint (Float64bits f).
Definition decimal_text (f : f64) : gostr := if is_whole f then FormatInt (to_int f) else bits_text f.
Definition decimal_value (s : gostr) : option f64 :=
  match s with
  | x30 :: x2e :: ds => Float64frombits <$> ParseUint_digits ds
  | _ => of_int <$> ParseInt s
  end.
#[export] Instance DecimalText : FloatText := {
  ParseFloat := decimal_value;
  FormatFloat_f := decimal_text;
  FormatFloat_g := decimal_text;
}.

(** No integer's text starts with ["0."]. *)
Lemma decimal_value_int n : in_i64 n -> decimal_value (FormatInt n) = Some (of_int n).
Proof.
  intros Hn. assert (E : decimal_value (FormatInt n) = of_int <$> ParseInt (FormatInt n)); [|by rewrite E, ParseInt_FormatInt].
  unfold FormatInt. destruct (n <? 0) eqn:En; [done|]. bsplit. pose proof (FormatUint_digits n En) as Hd.
  destruct (FormatUint n) as [|b [|c s]]; [done|by destruct b|]. unfold all_digits in Hd. cbn [forallb] in Hd. bsplit.
  destruct b; try done. by destruct c.
Qed.
Lemma decimal_text_law f : fvalid f = true -> number_text (decimal_text f) /\ decimal_value (decimal_text f) = Some f.
Proof.
  intros Hf. unfold decimal_text, is_whole. destruct (bool_decide _) eqn:E.
  - apply bool_decide_eq_true in E as [E Hr]. split; [apply number_text_int|].
    by rewrite decimal_value_int, E.
  - pose proof (Float64bits_range f Hf) as Hb. split.
    + rewrite <- (app_nil_r (bits_text f)).
      apply (number_text_intro [] [x30] (x2e :: FormatUint (Float64bits f)) []); [by left|done|done| |by left].
      right. exists (FormatUint (Float64bits f)). split; [done|]. split.
      * apply FormatUint_not_nil. mlia.
      * apply FormatUint_digits. mlia.
    + unfold bits_text. cbn [decimal_value app]. rewrite ParseUint_FormatUint by mlia. cbn. by rewrite Float64frombits_bits.
Qed.
#[export] Instance DecimalText_laws : FloatTextLaws DecimalText.
Proof.
  split.
  - intros f Hf _ _. by apply decimal_text_law.
  - intros f Hf _ _. by apply decimal_text_law.
  - intros n Hn. apply decimal_value_int. mlia.
Qed.

Lemma format_g_inj : format_g_injective.
Proof.
  intros f g _ _ Hf Hg E. cbn [FormatFloat_g DecimalText] in E.
  destruct (decimal_text_law f Hf) as [_ Ef]. destruct (decimal_text_law g Hg) as [_ Eg]. rewrite E in Ef. congruence.
Qed.

(** Letters of the Latin supplement and nothing else above ASCII. *)
#[export] Instance LatinUnicode : Unicode := {
  letter_above r := between 192 r 591;
  digit_above r := false;
  upper_above s := s;
  lower_above s := s;
}.
#[export] Instance LatinUnicode_laws : UnicodeLaws LatinUnicode.
Proof. by split. Qed.

(** Not a hash at all: the first sixteen bytes, padded. *)
Definition first16 (s : gostr) : gostr := take 16 (s ++ replicate 16 x00).
Lemma first16_length s : length (first16 s) = 16%nat.
Proof. unfold first16. rewrite length_take, length_app, length_replicate. lia. Qed.
#[export] Instance PrefixXXH3 : XXH3 := { Sum128 := first16; Sum128_length := first16_length }.

(** ** The record of a set *)

#[export] Instance ColumnSpec_eq_dec : EqDecision ColumnSpec.
Proof. solve_decision. Defined.
#[export] Instance ColumnSpec_countable : Countable ColumnSpec.
Proof.
  apply (inj_countable' (fun c => (cs_Name c, cs_Type c, cs_Indexed c))
           (fun t => {| cs_Name := t.1.1; cs_Type := t.1.2; cs_Indexed := t.2 |})).
  by intros [].
Defined.

Abbreviation meta_tuple := (Z * gostr * gmap gostr ColumnSpec * gostr * Z)%type.
Definition tuple_of (sm : setMeta) : meta_tuple :=
  (sm_ID sm, sm_Name sm, sm_Columns sm, sm_Indexed sm, sm_IndexCol sm).
Definition of_tuple (t : meta_tuple) : setMeta :=
  let '(id, name, cols, indexed, icol) := t in
  {| sm_ID := id; sm_Name := name; sm_Columns := cols; sm_Indexed := indexed; sm_IndexCol := icol; sm_dirty := false |}.

#[export] Instance BitsJSON : MetaJSON := {
  json_Marshal sm := pos_bytes (encode (tuple_of sm));
  json_Unmarshal s := of_tuple <$> decode (bytes_pos s);
}.
#[export] Instance BitsJSON_laws : MetaJSONLaws BitsJSON.
Proof.
  constructor. intros sm _. cbn [json_Marshal json_Unmarshal BitsJSON].
  rewrite bytes_pos_bytes, decode_encode. by destruct sm.
Qed.

(** ** A small store *)

Definition demo_pk : gostr := replicate 16 x61.
Definition demo_row (ts : Z) : Row := {[TimestampField := VInt ts; bs "usage" := VInt 7]}.
Definition demo_rec : Record_ := {| rec_Key := demo_pk; rec_Row := demo_row 1700 |}.
Definition demo_set : gostr := bs "cpu".
Definition demo_path : gostr := bs "/data".

Definition demo_empty : DB := (Open demo_path kv_empty []).2.
Definition demo_store : DB := (PutBatch demo_set [demo_rec] demo_empty).2.
Definition demo_rows : gmap gostr Rows := {[demo_set := {[demo_pk := demo_row 1700]}]}.

Lemma demo_row_storable ts : in_i64 ts -> row_storable (demo_row ts).
Proof.
  intros Hts. split; [|by vm_compute].
  intros k v. unfold demo_row. rewrite lookup_insert, lookup_singleton.
  repeat case_decide; [..|done]; intros [= <-]; subst k; (split; [by vm_compute|]); try done.
Qed.

Lemma demo_rec_ok : rec_ok demo_rec.
Proof.
  split; [done|]. split; [apply demo_row_storable; mlia|].
  intros k v. cbn [rec_Row demo_rec]. unfold demo_row. rewrite lookup_insert, lookup_singleton.
  repeat case_decide; [..|done]; by subst k.
Qed.

Lemma demo_open : Open demo_path kv_empty [] = (Ok tt, demo_empty).
Proof.
  assert ((Open demo_path kv_empty []).1 = Ok tt) as E by (vm_compute; reflexivity).
  unfold demo_empty. rewrite <- E. apply surjective_pairing.
Qed.
Lemma demo_empty_inv : db_inv demo_empty ∅.
Proof. by apply (Open_empty demo_path), demo_open. Qed.
Lemma demo_empty_next : d_nextID demo_empty = 0.
Proof. by apply (Open_empty demo_path), demo_open. Qed.

(** A batch of one row agrees with an empty set. *)
Lemma demo_agree idx : keys_agree idx (rows_of ∅ demo_set) (map rec_pair [demo_rec]).
Proof.
  intros pk r r0 _ Hin%list_elem_of_singleton [H0|H0%list_elem_of_singleton].
  - unfold rows_of in H0. rewrite lookup_empty in H0. done.
  - by injection Hin as -> ->; injection H0 as ->.
Qed.

Lemma demo_store_inv : db_inv demo_store demo_rows.
Proof.
  assert ((PutBatch demo_set [demo_rec] demo_empty).1 = Ok tt) as E by (vm_compute; reflexivity).
  destruct (PutBatch_wp demo_set [demo_rec] demo_empty ∅) as [Hi _ _ _ _ _];
    [apply demo_empty_inv|done|constructor; [apply demo_rec_ok|done]|rewrite demo_empty_next; mlia
    |intros idx _; apply demo_agree|].
  rewrite E in Hi. exact Hi.
Qed.
