(* ===== verification/EngineProps.v ===== *)
(** * EngineProps: what the embedded store promises

    The contract of [internal/engine]: an abstract map from set name to
    its rows by primary key, and what each operation does to it, whichever
    of its calls into the LSM fail.  Each theorem is followed by its
    instance on the small store of [Instances]. *)

From Stdlib Require Import ZArith Lia Bool Relations.
From Stdlib Require Import Strings.Byte Strings.String.
From S2P Require Import Prelude Bytes Float64 GoStd Model EngineKeys EngineCodec EngineFilter EngineDB.
From S2P Require Import EngineDB EngineRep EngineInv EngineSchema EngineStore EngineOpen EngineQuery.
From S2P Require Import EngineScan EngineTrace Instances.

Section Contract.
Context `{FloatText} `{J : MetaJSON} `{!MetaJSONLaws J} `{L : LSM} `{!LSMLaws L}.

Abbreviation AStore := (gmap gostr Rows).
Abbreviation steps := (clos_refl_trans_1n DB step).

(** What a batch needs: well-formed text and values, an id to spare, and
    no row that moves to another timestamp under the key it had. *)
Record put_pre (set : gostr) (recs : list Record_) (d : DB) (A : AStore) : Prop := {
  pre_inv : db_inv d A;
  pre_set : ValidString set = true;
  pre_recs : Forall rec_ok recs;
  pre_next : in_u32 (d_nextID d + 1);
  pre_agree : forall idx, index_candidate d set idx -> keys_agree idx (rows_of A set) (map rec_pair recs);
}.

Lemma put_facts set recs d A : put_pre set recs d A ->
  put_post set recs d A (PutBatch set recs d).1 (PutBatch set recs d).2.
Proof. intros []. by apply PutBatch_wp. Qed.

(** C1: a batch is atomic and refines the abstract upsert: it either
    files every row, the last of each key winning, or leaves all rows as
    they were with an error that says why; other sets and their schemas
    are untouched, the set's own schema only widens, and the recorded
    id counter never goes back. *)
Theorem PutBatch_refines (set : gostr) (recs : list Record_) (d : DB) (A : AStore) :
  put_pre set recs d A -> put_post set recs d A (PutBatch set recs d).1 (PutBatch set recs d).2.
Proof. apply put_facts. Qed.

(** with the LSM well, an open store accepts any batch whose rows
    carry a numeric value in the column they are filed under, into a set
    that is empty or already indexed. *)
Theorem PutBatch_succeeds (set : gostr) (recs : list Record_) (d : DB) (A : AStore) :
  put_pre set recs d A -> d_closed d = false -> d_faults d = [] ->
  (rows_of A set = ∅ \/ sm_Indexed (base_meta d set) <> []) ->
  (forall idx, index_candidate d set idx -> Forall (rec_filed idx) recs) ->
  (PutBatch set recs d).1 = Ok tt.
Proof.
  intros Hp Hopen Hf Hidx Hfiled. destruct (put_facts _ _ _ _ Hp) as [Hi _ _ _ _ _].
  destruct ((PutBatch set recs d).1) as [[]|e]; [done|]. exfalso.
  destruct Hi as [_ [[? _]|[[? _]|[(c & _ & _ & _ & Hn & Hne)|(idx & Hc & r & Hr & Hnf & _)]]]].
  - congruence.
  - done.
  - by destruct Hidx.
  - apply Hnf. specialize (Hfiled idx Hc). rewrite Forall_forall in Hfiled. by apply Hfiled.
Qed.

(** read your writes: after a batch that succeeded, a point read of
    any key returns the projection of the row the batch left under it --
    its last write, or the row that was there before. *)
Theorem PutBatch_then_Get (set pk : gostr) (recs : list Record_) (cols : list gostr) (d d1 : DB) (A : AStore) :
  put_pre set recs d A -> recs <> [] -> d_closed d = false -> PutBatch set recs d = (Ok tt, d1) ->
  (Get set pk cols (set_faults [] d1)).1 =
    Ok (project cols <$> foldl put_row (rows_of A set) (map rec_pair recs) !! pk).
Proof.
  intros Hp Hne Hopen E. destruct (put_facts _ _ _ _ Hp) as [Hi _ _ _ _ Hc]. rewrite E in Hi, Hc.
  cbn [fst snd] in Hi, Hc. destruct recs as [|r0 recs0]; [done|].
  destruct (Get_wp set pk cols (set_faults [] d1) _ Hi) as [_ Hg].
  destruct ((Get set pk cols (set_faults [] d1)).1) as [o|e].
  - destruct Hg as (_ & R & HR & ->). rewrite lookup_insert_eq in HR. by injection HR as <-.
  - destruct Hg as [[Hcl _]|[(_ & HA & _)|[Hf _]]]; [|by rewrite lookup_insert_eq in HA|done].
    cbn [d_closed set_faults] in Hcl. congruence.
Qed.

(** a point read is exact: it returns the projected row of the key, or
    none when the set has no such row, and changes nothing but the read
    counter; its only errors are a closed store, an unknown set and a
    failed call. *)
Theorem Get_refines (set pk : gostr) (cols : list gostr) (d : DB) (A : AStore) :
  db_inv d A -> get_post set pk cols d A (Get set pk cols d).1 (Get set pk cols d).2.
Proof. apply Get_wp. Qed.

(** C2: a query returns exactly the rows its range and predicate admit,
    each once, in timestamp order and then key order (the reverse when
    asked), with every projected column; an iteration cut short by a
    fault or a cancelled context reports it and has returned a prefix
    of that answer. *)
Theorem query_exact (q : QueryBuilder) (ctx : list bool) (d : DB) (A : AStore) :
  db_inv d A -> bet_ok (q_bet q) ->
  query_post q ctx d A ((i ← Run q ctx; collect i) d).1 ((i ← Run q ctx; collect i) d).2.
Proof. apply query_wp. Qed.

(** dropping a set removes its rows, its index and its record at once,
    or -- when any call fails -- leaves disk and schema as they were. *)
Theorem DropSet_refines (name : gostr) (d : DB) (A : AStore) :
  db_inv d A -> drop_post name d A (DropSet name d).1 (DropSet name d).2.
Proof. apply DropSet_wp. Qed.

(** C6: retention removes exactly the rows filed before the horizon and
    reports their number; a failed sweep removes none. *)
Theorem DeleteOlderThan_refines (set : gostr) (beforeMs : Z) (d : DB) (A : AStore) :
  db_inv d A -> in_i64 beforeMs ->
  sweep_post set beforeMs d A (DeleteOlderThan set beforeMs d).1 (DeleteOlderThan set beforeMs d).2.
Proof. apply DeleteOlderThan_wp. Qed.

(** schemas only widen: [setLocked] keeps the id, the name, the
    indexed column and every column of a set, its one change to a column
    being integer to float; a set with rows never gains an index, which
    is refused by name; and a schema handed back has been recorded. *)
Theorem setLocked_widens (name : gostr) (cols : list ColumnSpec) (d : DB) (A : AStore) :
  db_inv d A -> ValidString name = true -> cols_utf8 cols -> in_u32 (d_nextID d + 1) ->
  locked_post name cols d A (setLocked name cols d).1 (setLocked name cols d).2.
Proof. apply setLocked_wp. Qed.

(** C5: a restart recovers the store: opened on what the LSM holds at any
    moment, whether or not it was closed, it has every row of every set
    and every recorded schema, ids included, and resumes the id counter
    past every id on record. *)
Theorem Open_recovers (path : gostr) (d : DB) (A : AStore) (faults : list bool) :
  db_inv d A -> path <> [] ->
  ((Open path (d_kv d) faults).1 = Ok tt /\ reopened d A (Open path (d_kv d) faults).2) \/
  (faults <> [] /\ (Open path (d_kv d) faults).1 = Err ErrPebble).
Proof.
  intros Hi Hp.
  apply (Open_run path d A faults (fun r d' => (r = Ok tt /\ reopened d A d') \/ (faults <> [] /\ r = Err ErrPebble)));
    [done|done|by left|by right].
Qed.

(** C3: the store keeps its invariant for its whole life: whatever
    sequence of operations, failed calls and restarts, the keyspace holds
    exactly the rows of some abstract store, data and index areas in
    step, every id belongs to one set, and the areas of unused ids are
    empty. *)
Theorem store_invariant (d d' : DB) (A : AStore) :
  db_inv d A -> steps d d' -> exists A', db_inv d' A'.
Proof. intros Hi Hs. by apply (steps_ok d d' Hs A). Qed.

(** C4: a set id is never handed out twice: once the set that held it is
    gone, no set holds it again, across failures and restarts; so no
    cached id of a dropped set can ever name another set's rows. *)
Theorem ids_never_reissued (d0 d1 d2 : DB) (A : AStore) (n0 : gostr) (id : Z) :
  db_inv d0 A -> steps d0 d1 -> steps d1 d2 ->
  holds_id (d_sets d0) n0 id -> (forall n, ~ holds_id (d_sets d1) n id) ->
  forall n, ~ holds_id (d_sets d2) n id.
Proof. apply ids_not_reissued. Qed.
End Contract.

(** ** The theorems on the small store *)

Lemma demo_pre : put_pre demo_set [demo_rec] demo_empty ∅.
Proof.
  split; [apply demo_empty_inv|done|constructor; [apply demo_rec_ok|done]|rewrite demo_empty_next; mlia|].
  intros idx _. apply demo_agree.
Qed.

Lemma demo_faults_inv f : db_inv (set_faults f demo_store) demo_rows.
Proof. generalize demo_store demo_store_inv. intros d Hd. exact Hd. Qed.

Lemma demo_candidate idx : index_candidate demo_empty demo_set idx -> idx = TimestampField \/ idx = [].
Proof.
  intros [->| ->]; [by left|right]. unfold base_meta.
  assert (d_sets demo_empty !! demo_set = None) as -> by (vm_compute; reflexivity). done.
Qed.

Lemma PutBatch_refines_witness :
  put_post demo_set [demo_rec] demo_empty ∅ (PutBatch demo_set [demo_rec] demo_empty).1 demo_store.
Proof. exact (PutBatch_refines demo_set [demo_rec] demo_empty ∅ demo_pre). Defined.

Lemma PutBatch_succeeds_witness : (PutBatch demo_set [demo_rec] demo_empty).1 = Ok tt.
Proof.
  apply (PutBatch_succeeds demo_set [demo_rec] demo_empty ∅ demo_pre); [vm_compute; reflexivity..|by left|].
  intros idx [->| ->]%demo_candidate; apply Forall_singleton; intros Hne; [by eexists|by destruct Hne].
Defined.

Lemma PutBatch_then_Get_witness :
  (Get demo_set demo_pk [] (set_faults [] demo_store)).1 =
    Ok (project [] <$> foldl put_row (rows_of ∅ demo_set) (map rec_pair [demo_rec]) !! demo_pk).
Proof.
  apply (PutBatch_then_Get demo_set demo_pk [demo_rec] [] demo_empty demo_store ∅ demo_pre); [done|vm_compute; reflexivity|].
  assert ((PutBatch demo_set [demo_rec] demo_empty).1 = Ok tt) as E by (vm_compute; reflexivity).
  unfold demo_store. rewrite <- E. apply surjective_pairing.
Defined.

Lemma Get_refines_witness :
  get_post demo_set demo_pk [bs "usage"] demo_store demo_rows
    (Get demo_set demo_pk [bs "usage"] demo_store).1 (Get demo_set demo_pk [bs "usage"] demo_store).2.
Proof. apply Get_refines, demo_store_inv. Defined.

Definition demo_query : QueryBuilder := Reverse (Between (NewQuery demo_set) TimestampField 0 2000) true.
Lemma query_exact_witness :
  query_post demo_query [] demo_store demo_rows
    ((i ← Run demo_query []; collect i) demo_store).1 ((i ← Run demo_query []; collect i) demo_store).2.
Proof. apply query_exact; [apply demo_store_inv|split; mlia]. Defined.

Lemma DropSet_refines_witness :
  drop_post demo_set (set_faults [false; false; true] demo_store) demo_rows
    (DropSet demo_set (set_faults [false; false; true] demo_store)).1
    (DropSet demo_set (set_faults [false; false; true] demo_store)).2.
Proof. apply DropSet_refines, demo_faults_inv. Defined.

Lemma DeleteOlderThan_refines_witness :
  sweep_post demo_set 1800 demo_store demo_rows
    (DeleteOlderThan demo_set 1800 demo_store).1 (DeleteOlderThan demo_set 1800 demo_store).2.
Proof. apply DeleteOlderThan_refines; [apply demo_store_inv|mlia]. Defined.

Definition demo_cols : list ColumnSpec := [{| cs_Name := bs "usage"; cs_Type := TypeFloat; cs_Indexed := false |}].
Lemma demo_store_next : d_nextID demo_store = 1.
Proof. vm_compute. reflexivity. Qed.
Lemma setLocked_widens_witness :
  locked_post demo_set demo_cols demo_store demo_rows
    (setLocked demo_set demo_cols demo_store).1 (setLocked demo_set demo_cols demo_store).2.
Proof.
  apply setLocked_widens; [apply demo_store_inv|done|by constructor|]. rewrite demo_store_next. mlia.
Defined.

Lemma Open_recovers_witness :
  ((Open demo_path (d_kv demo_store) []).1 = Ok tt /\ reopened demo_store demo_rows (Open demo_path (d_kv demo_store) []).2) \/
  ([] <> @nil bool /\ (Open demo_path (d_kv demo_store) []).1 = Err ErrPebble).
Proof. apply Open_recovers; [apply demo_store_inv|done]. Defined.

(** The set dropped, then written again. *)
Definition demo_dropped : DB := (DropSet demo_set (set_faults [] demo_store)).2.
Definition demo_again : DB := (PutBatch demo_set [demo_rec] (set_faults [] demo_dropped)).2.

Lemma demo_gone : d_sets demo_dropped !! demo_set = None.
Proof. vm_compute. reflexivity. Qed.

Lemma demo_steps_again : clos_refl_trans_1n DB step demo_dropped demo_again.
Proof.
  eapply Relation_Operators.rt1n_trans; [|constructor 1]. apply step_put.
  - done.
  - constructor; [apply demo_rec_ok|done].
  - assert (d_nextID demo_dropped = 1) as -> by (vm_compute; reflexivity). mlia.
  - intros A idx Hi _ pk r r0 _ Hin%list_elem_of_singleton [H0|H0%list_elem_of_singleton].
    + exfalso. unfold rows_of in H0. destruct (A !! demo_set) eqn:E; [|done].
      destruct (proj2 (inv_dom _ _ _ _ _ Hi demo_set)) as [? ?]; [by rewrite E|]. rewrite demo_gone in *. done.
    + by injection Hin as -> ->; injection H0 as ->.
Qed.
Lemma demo_steps_drop : clos_refl_trans_1n DB step demo_store demo_dropped.
Proof. eapply Relation_Operators.rt1n_trans; [apply step_drop|constructor 1]. Qed.

Lemma demo_dropped_inv : db_inv demo_dropped (delete demo_set demo_rows).
Proof.
  destruct (DropSet_wp demo_set (set_faults [] demo_store) demo_rows (demo_faults_inv [])) as [Hi _ _ _].
  assert ((DropSet demo_set (set_faults [] demo_store)).1 = Ok tt) as E by (vm_compute; reflexivity).
  rewrite E in Hi. exact (proj1 (proj2 (proj2 Hi))).
Qed.

Lemma store_invariant_witness : exists A', db_inv demo_again A'.
Proof. exact (store_invariant demo_dropped demo_again (delete demo_set demo_rows) demo_dropped_inv demo_steps_again). Defined.

Lemma ids_never_reissued_witness : ~ holds_id (d_sets demo_again) demo_set 0.
Proof.
  apply (ids_never_reissued demo_store demo_dropped demo_again demo_rows demo_set 0 demo_store_inv demo_steps_drop demo_steps_again).
  - assert (sm_ID <$> d_sets demo_store !! demo_set = Some 0) as E by (vm_compute; reflexivity).
    unfold holds_id. destruct (d_sets demo_store !! demo_set) as [sm|]; [|done]. exists sm. split; [done|]. by injection E.
  - intros n Hn. destruct (steps_ok _ _ demo_steps_drop _ demo_store_inv) as [[A1 Hi] _ _].
    apply (inv_byID _ _ _ _ _ Hi) in Hn.
    assert (d_byID demo_dropped !! 0 = None) as E by (vm_compute; reflexivity).
    pose proof (eq_trans (eq_sym E) Hn) as Hc. discriminate Hc.
Defined.
