(* ===== verification/MqlProps.v ===== *)
(** * MqlProps: a printed query reads back, and the properties of the parser

    The tokens of a printed query, clause by clause, on both sides: the
    text lexes to them and the parser turns them into the query.  Then the
    properties of lexer, parser and printer with their witnesses. *)

From Stdlib Require Import ZArith Lia Bool Strings.Byte Strings.String.
From S2P Require Import Prelude Bytes Float64 GoStd MqlAst MqlLex MqlPrint MqlParse MqlQuery MqlSafe MqlTotal MqlTokens MqlReparse MqlFields.
From S2P Require Import Instances.

(** ** Optional pieces of text *)

Section Pieces.
Context `{U : Unicode} `{!UnicodeLaws U}.

(** A piece that is absent, or that starts where an identifier ends. *)
Definition piece (p : gostr) (ts : list lexeme) : Prop := (p = [] /\ ts = []) \/ (stop_head p = true /\ reads p ts).

Lemma piece_nil : piece [] [].
Proof. by left. Qed.
Lemma piece_reads p ts : stop_head p = true -> reads p ts -> piece p ts.
Proof. by right. Qed.
Lemma reads_piece p q ts us : reads p ts -> piece q us -> reads (p ++ q) (ts ++ us).
Proof.
  intros Hp [[-> ->]|[Hq Hu]]; [by rewrite !app_nil_r|]. by apply reads_seq.
Qed.
Lemma piece_app p q ts us : piece p ts -> piece q us -> piece (p ++ q) (ts ++ us).
Proof.
  intros [[-> ->]|[Hs Hp]] Hq; [done|]. right. split; [by destruct p|]. by apply reads_piece.
Qed.
(** A space, a keyword, and what follows it. *)
Lemma piece_word c w : is_space c = true -> stop_head [c] = true -> keyword_ok w = true -> piece (c :: w) [(tokKeyword, w)].
Proof. intros Hc Hs Hw. right. split; [done|]. apply reads_space; [done|]. by apply reads_keyword. Qed.
Lemma piece_clause c w p ts : is_space c = true -> stop_head [c] = true -> keyword_ok w = true -> reads p ts ->
  piece (c :: w ++ x20 :: p) ((tokKeyword, w) :: ts).
Proof. intros Hc Hs Hw Hp. right. split; [done|]. apply reads_space; [done|]. by apply reads_kw. Qed.
End Pieces.

Section FieldText.
Context `{U : Unicode} `{!UnicodeLaws U} `{F : FloatText} `{!FloatTextLaws F}.

Lemma clamp_reads c : clamp_ok c -> piece (printClamp c) (kw "CLAMP" :: clamp_tokens c).
Proof.
  intros (Hone & Hmin & Hmax & _). unfold printClamp, clamp_tokens. rewrite app_assoc.
  apply (piece_app (bs " CLAMP " ++ _) _ (kw "CLAMP" :: sep_tokens (pn ",") (bound_tokens c))).
  - apply (piece_clause x20 (bs "CLAMP")); [done|done|done|]. apply reads_join; [apply separator_comma| |].
    + unfold bound_tokens. apply Forall2_app.
      * destruct (cl_Min c) as [v|]; constructor; [|constructor]. apply (reads_kw (bs "MIN")); [done|]. by apply reads_float, Hmin.
      * destruct (cl_Max c) as [v|]; constructor; [|constructor]. apply (reads_kw (bs "MAX")); [done|]. by apply reads_float, Hmax.
    + destruct (cl_Min c), (cl_Max c); try done. by destruct Hone.
  - unfold else_tokens. destruct (bytes_eqb _ _); [|apply piece_nil].
    apply (piece_clause x20 (bs "ELSE") (bs "RAW") [_]); [done|done|done|by apply reads_keyword].
Qed.

Lemma sse_reads s : sse_ok s ->
  piece (if bytes_eqb (ss_Mode s) (bs "repeat") then bs " SSE REPEAT"
         else if bytes_eqb (ss_Mode s) (bs "off") then bs " SSE OFF" else bs " SSE " ++ printFloat (ss_Value s))
    (kw "SSE" :: sse_tokens s).
Proof.
  intros Hs. unfold sse_tokens. destruct (bytes_eqb (ss_Mode s) (bs "repeat")) eqn:E1; [|destruct (bytes_eqb (ss_Mode s) (bs "off")) eqn:E2].
  - apply (piece_clause x20 (bs "SSE") (bs "REPEAT")); [done|done|done|by apply reads_keyword].
  - apply (piece_clause x20 (bs "SSE") (bs "OFF")); [done|done|done|by apply reads_keyword].
  - apply (piece_clause x20 (bs "SSE")); [done|done|done|]. apply reads_float.
    destruct Hs as [-> |[-> |[_ Hf]]]; [done|done|exact Hf].
Qed.

Lemma field_reads fe : field_ok fe -> reads (printFieldExpr fe) (field_tokens fe).
Proof.
  intros [Hhead (Hc & Hg & Hs)]. unfold printFieldExpr, field_tokens, items. set (m := fe_Modifiers fe) in *.
  rewrite !map_app, !concat_app, <- !app_assoc. apply reads_piece; [|repeat apply piece_app].
  - unfold head_tokens. destruct (fe_Histogram fe); cbn [negb is_nil]; [apply reads_name|].
    apply (reads_seq (bs "HISTOGRAM") (bs "(" ++ _) [_]); [by apply reads_keyword|done|].
    apply reads_open. apply (reads_close _ [_]), reads_name.
  - destruct (m_Delta m && m_PerSecond m); [by apply (piece_word x20 (bs "RATE"))|].
    destruct (m_Delta m); [by apply (piece_word x20 (bs "DELTA"))|]. destruct (m_PerSecond m); [|apply piece_nil].
    apply (piece_clause x20 (bs "PER") (bs "SECOND") [_]); [done|done|done|by apply reads_keyword].
  - destruct (m_Negate m); [by apply (piece_word x20 (bs "NEGATE"))|apply piece_nil].
  - destruct (m_Clamp m) as [c|]; [|apply piece_nil]. cbn [map concat it_toks item_clamp]. rewrite app_nil_r. by apply clamp_reads, Hc.
  - destruct (m_GapMs m) as [ms|]; [|apply piece_nil]. apply (piece_clause x20 (bs "GAP")); [done|done|done|apply reads_duration].
  - destruct (m_SSE m) as [s|]; [|apply piece_nil]. cbn [map concat it_toks item_sse]. rewrite app_nil_r. by apply sse_reads, Hs.
  - destruct (m_Required m); [by apply (piece_word x20 (bs "REQUIRED"))|apply piece_nil].
  - unfold as_tokens. destruct (fe_As fe); cbn [negb is_nil]; [apply piece_nil|].
    apply (piece_clause x20 (bs "AS")); [done|done|done|apply reads_quoted].
Qed.

(** ** The clauses of a query *)

Definition where_tokens (e : Expr) : list lexeme := if Expr_Empty e then [] else kw "WHERE" :: expr_tokens e false.
Definition by_tokens (l : list gostr) : list lexeme :=
  if is_nil l then [] else kw "BY" :: sep_tokens (pn ",") (map (fun s => [name_token s]) l).
Definition every_tokens (o : option Z) : list lexeme := match o with Some ms => [kw "EVERY"; duration_token ms] | None => [] end.
Definition format_tokens (f : Format) : list lexeme :=
  if negb (is_nil f) && negb (bytes_eqb f FormatTimeseries) then [kw "FORMAT"; (tokIdent, f)] else [].
Definition limit_items (l : Limits) : list (list lexeme) :=
  (match li_Series l with Some n => [[kw "SERIES"; (tokNumber, FormatInt n)]] | None => [] end) ++
  (match li_Points l with Some n => [[kw "POINTS"; (tokNumber, FormatInt n)]] | None => [] end).
Definition limit_tokens (l : Limits) : list lexeme :=
  if is_nil (limit_items l) then [] else kw "LIMIT" :: sep_tokens (pn ",") (limit_items l).

(** A predicate the grammar can write and both bounds admit. *)
Definition where_fits (e : Expr) : Prop :=
  e = EmptyE \/ (canonical e /\ size e <= MaxPredicateNodes /\ height e <= MaxPredicateDepth).
Lemma where_piece e : where_fits e -> piece (printWhere e) (where_tokens e).
Proof.
  intros Hw. unfold printWhere, where_tokens. destruct Hw as [-> |(Hc & _)]; [apply piece_nil|].
  rewrite (canonical_not_empty _ Hc). cbn [negb].
  apply (piece_clause x0a (bs "WHERE") (x20 :: printExpr e false)); [done|done|done|].
  apply reads_space; [done|]. by apply printExpr_reads.
Qed.
Lemma by_piece l :
  piece (if negb (is_nil l) then NL ++ bs "BY     " ++ Join (bs ", ") (map quoteIdent l) else []) (by_tokens l).
Proof.
  unfold by_tokens. destruct l as [|s l]; [apply piece_nil|]. cbn [is_nil negb].
  apply (piece_clause x0a (bs "BY") (bs "    " ++ _)); [done|done|done|]. do 4 (apply reads_space; [done|]).
  apply reads_join; [apply separator_comma| |done]. induction (s :: l); constructor; [apply reads_name|done].
Qed.
Lemma every_piece o : piece (match o with Some d => NL ++ bs "EVERY  " ++ printDuration d | None => [] end) (every_tokens o).
Proof.
  destruct o as [ms|]; [|apply piece_nil]. apply (piece_clause x0a (bs "EVERY") (x20 :: _)); [done|done|done|].
  apply reads_space; [done|]. apply reads_duration.
Qed.

Definition known_format (f : Format) : Prop := In f [FormatTimeseries; FormatTable; FormatHeatmap; FormatLogs].
Lemma format_piece f : known_format f ->
  piece (if negb (is_nil f) && negb (bytes_eqb f FormatTimeseries) then NL ++ bs "FORMAT " ++ f else []) (format_tokens f).
Proof.
  intros Hf. cbn in Hf. unfold format_tokens. destruct Hf as [<-|Hf]; [apply piece_nil|].
  assert (Hword : forall w, w <> [] -> ident_runes (runes w) = true -> is_keyword (ToUpper w) = false ->
    piece (NL ++ bs "FORMAT " ++ w) [kw "FORMAT"; (tokIdent, w)]).
  { intros w H1 H2 H3. apply (piece_clause x0a (bs "FORMAT")); [done|done|done|]. split; [done|]. intros r Hr.
    pose proof (lexes_word w r H1 H2 Hr) as Hl. unfold word_token in Hl. by rewrite H3 in Hl. }
  destruct Hf as [<-|[<-|[<-|[]]]]; by apply Hword.
Qed.
Lemma limit_piece l :
  piece (let lims := (match li_Series l with Some n => [bs "SERIES " ++ FormatInt n] | None => [] end) ++
                     (match li_Points l with Some n => [bs "POINTS " ++ FormatInt n] | None => [] end) in
         if negb (is_nil lims) then NL ++ bs "LIMIT  " ++ Join (bs ", ") lims else []) (limit_tokens l).
Proof.
  assert (Hall : Forall2 reads
    ((match li_Series l with Some n => [bs "SERIES " ++ FormatInt n] | None => [] end) ++
     (match li_Points l with Some n => [bs "POINTS " ++ FormatInt n] | None => [] end)) (limit_items l)).
  { unfold limit_items. apply Forall2_app.
    - destruct (li_Series l); constructor; [|constructor]. apply (reads_kw (bs "SERIES")); [done|apply reads_int].
    - destruct (li_Points l); constructor; [|constructor]. apply (reads_kw (bs "POINTS")); [done|apply reads_int]. }
  cbv zeta. unfold limit_tokens. destruct Hall as [|p ts ps tss Hp Hall]; [apply piece_nil|]. cbn [is_nil negb].
  apply (piece_clause x0a (bs "LIMIT") (x20 :: _)); [done|done|done|]. apply reads_space; [done|].
  apply reads_join; [apply separator_comma|by constructor|done].
Qed.
End FieldText.

(** ** Whole queries *)

Section Queries.
Context `{U : Unicode} `{!UnicodeLaws U} `{F : FloatText} `{!FloatTextLaws F}.

Record data_fits (q : Query) : Prop := {
  df_kind : q_Kind q = KindQuery;
  df_from : q_From q <> [];
  df_select : q_Select q <> [] /\ Forall field_ok (q_Select q);
  df_where : where_fits (q_Where q);
  df_by : Forall (fun l => l <> []) (q_By q);
  df_every : forall ms, q_EveryMs q = Some ms -> exact ms;
  df_format : known_format (q_Format q);
  df_series : forall n, li_Series (q_Limits q) = Some n -> in_i64 n;
  df_points : forall n, li_Points (q_Limits q) = Some n -> in_i64 n;
  df_label : q_Label q = [];
}.

(** A query its canonical text can carry. *)
Inductive query_fits : Query -> Prop :=
| fits_data q : data_fits q -> query_fits q
| fits_sets : query_fits (blank_query KindSets)
| fits_fields s : s <> [] -> query_fits (from_query KindFields s)
| fits_label_keys s : s <> [] -> query_fits (from_query KindLabelKeys s)
| fits_labels l e : l <> [] -> where_fits e -> query_fits (labels_query l e).

Definition clause_tokens (q : Query) : list lexeme :=
  where_tokens (q_Where q) ++ by_tokens (q_By q) ++ every_tokens (q_EveryMs q) ++ format_tokens (q_Format q) ++
  limit_tokens (q_Limits q).
Definition data_tokens (q : Query) : list lexeme :=
  kw "FROM" :: name_token (q_From q) :: kw "SELECT" :: sep_tokens (pn ",") (map field_tokens (q_Select q)) ++ clause_tokens q.
Definition query_tokens (q : Query) : list lexeme :=
  if bytes_eqb (q_Kind q) KindSets then [kw "SETS"]
  else if bytes_eqb (q_Kind q) KindFields then [kw "FIELDS"; kw "FROM"; name_token (q_From q)]
  else if bytes_eqb (q_Kind q) KindLabelKeys then [kw "LABEL"; kw "KEYS"; kw "FROM"; name_token (q_From q)]
  else if bytes_eqb (q_Kind q) KindLabels then kw "LABELS" :: name_token (q_Label q) :: where_tokens (q_Where q)
  else data_tokens q.

Lemma data_reads q : data_fits q -> reads (Print q) (data_tokens q).
Proof.
  intros []. unfold Print, data_tokens, clause_tokens. rewrite df_kind0. cbn -[app printDuration].
  apply (reads_kw (bs "FROM") (bs "  " ++ _)); [done|]. do 2 (apply reads_space; [done|]).
  apply (reads_seq _ (NL ++ _) [_]); [apply reads_name|done|]. apply reads_space; [done|].
  apply (reads_kw (bs "SELECT")); [done|]. apply reads_piece.
  - destruct df_select0 as [Hne Hsel]. apply reads_join; [apply separator_comma_line| |by destruct (q_Select q)].
    clear Hne. induction Hsel; constructor; [by apply field_reads|done].
  - repeat apply piece_app; [by apply where_piece|apply by_piece|apply every_piece|by apply format_piece|apply limit_piece].
Qed.

Lemma print_reads q : query_fits q -> reads (Print q) (query_tokens q).
Proof.
  intros [q' Hq| |s Hs|s Hs|l e Hl He].
  - assert (query_tokens q' = data_tokens q') as -> by (unfold query_tokens; by rewrite (df_kind _ Hq)). by apply data_reads.
  - by apply (reads_keyword (bs "SETS")).
  - apply (reads_kw (bs "FIELDS") (bs "FROM " ++ _)); [done|]. apply (reads_kw (bs "FROM")); [done|apply reads_name].
  - apply (reads_kw (bs "LABEL") (bs "KEYS FROM " ++ _)); [done|]. apply (reads_kw (bs "KEYS") (bs "FROM " ++ _)); [done|].
    apply (reads_kw (bs "FROM")); [done|apply reads_name].
  - apply (reads_kw (bs "LABELS") (quoteIdent l ++ printWhere e)); [done|]. apply (reads_piece (quoteIdent l) (printWhere e) [_]); [apply reads_name|by apply where_piece].
Qed.

(** ** Parsing the clauses *)

Definition eof : lexeme := (tokEOF, []).
(** The head is the end of the text or one of the given keywords. *)
Definition head_in (ws : list gostr) (ts : list lexeme) : Prop :=
  exists x r, ts = x :: r /\ (x = eof \/ exists w, x = (tokKeyword, w) /\ In w ws).

Lemma head_in_weaken ws ws' ts : head_in ws ts -> incl ws ws' -> head_in ws' ts.
Proof. intros (x & r & -> & Hx) Hi. exists x, r. split; [done|]. destruct Hx as [?|(w & ? & ?)]; [by left|right; eauto]. Qed.
Lemma head_in_clause ws w (c ts : list lexeme) :
  head_in ws ts -> (c = [] \/ exists r, c = (tokKeyword, w) :: r) -> head_in (w :: ws) (c ++ ts).
Proof.
  intros Ht [-> |(r & ->)]; [eapply head_in_weaken; [exact Ht|by apply incl_tl, incl_refl]|].
  eexists _, _. split; [done|]. right. exists w. split; [done|by left].
Qed.
Lemma head_in_no ws k s ts : head_in ws ts -> k <> tokEOF -> (k = tokKeyword -> ~ In s ws) ->
  exists x r, ts = x :: r /\ is_lexeme k s x = false.
Proof.
  intros (x & r & -> & Hx) Hk Hs. exists x, r. split; [done|]. apply is_lexeme_neq. intros ->.
  destruct Hx as [Hx|(w & Hx & Hw)]; injection Hx as -> ->; [done|]. by apply Hs.
Qed.

Lemma runs_optional_none {A} ws w (m : P A) ts d n g : head_in ws ts -> ~ In (bs w) ws ->
  runs (optional (bs w) m) (V ts d n g) None (V ts d n g).
Proof.
  intros Ht Hw. destruct (head_in_no ws tokKeyword (bs w) ts Ht ltac:(done) ltac:(done)) as (x & r & -> & Hx).
  eapply runs_bind; [by apply runs_accept_no|]. apply runs_ret.
Qed.
Lemma runs_optional_some {A} w (m : P A) (a : A) ts ts' d n n' g :
  runs m (V ts d n g) a (V ts' d n' g) -> runs (optional (bs w) m) (V (kw w :: ts) d n g) (Some a) (V ts' d n' g).
Proof. intros Hm. eapply runs_bind; [apply runs_accept_yes|]. eapply runs_bind; [exact Hm|]. apply runs_ret. Qed.

Lemma head_in_follow ws ts : head_in ws ts -> (forall w, In w ws -> ~ In w (bs "MIN" :: bs "MAX" :: bs "ELSE" :: modifier_words)) ->
  field_follow ts.
Proof.
  intros (x & r & -> & Hx) Hws.
  assert (Hno : forall w, In w (bs "MIN" :: bs "MAX" :: bs "ELSE" :: modifier_words) -> is_lexeme tokKeyword w x = false).
  { intros w Hw. apply is_lexeme_neq. intros ->. destruct Hx as [Hx|(w' & Hx & Hw')]; injection Hx; [done|].
    intros ->. by apply (Hws w'). }
  split; [split|].
  - exists x, r. split; [done|]. split; [unfold not_bound; by rewrite !Hno by (cbn; auto 6)|].
    intros Hc. exfalso. destruct Hx as [-> |(w & -> & _)]; done.
  - exists x, r. split; [done|]. cbn [forallb]. by rewrite Hno by (cbn; auto 6).
  - exists x, r. split; [done|]. apply forallb_forall. intros w Hw. rewrite Hno; [done|]. by do 3 right.
Qed.

Definition after_select : list gostr := map bs ["WHERE"; "BY"; "EVERY"; "FORMAT"; "LIMIT"]%string.

(** A list of names. *)
Lemma runs_names what l x r d n g : l <> [] -> Forall (fun s => s <> []) l -> is_lexeme tokPunct (bs ",") x = false ->
  runs (comma_list (name what)) (V (sep_tokens (pn ",") (map (fun s => [name_token s]) l) ++ x :: r) d n g) l (V (x :: r) d n g).
Proof.
  intros Hne Hl Hx. apply (runs_comma_list _ (fun _ => True)); [done|done|done|].
  clear Hne. induction Hl as [|s l Hs Hl IH]; constructor; [|exact IH]. split; [done|]. split; [done|]. intros rest _. by apply runs_name.
Qed.

Lemma field_head fe : exists x r, field_tokens fe = x :: r /\ not_bound x = true.
Proof.
  unfold field_tokens, head_tokens. destruct (is_nil _); eexists _, _; (split; [done|]); [|done].
  unfold not_bound. by rewrite !name_not_tok.
Qed.
Lemma runs_select l x r d n g : l <> [] -> Forall field_ok l -> field_follow (x :: r) -> is_lexeme tokPunct (bs ",") x = false ->
  runs (comma_list parseFieldExpr) (V (sep_tokens (pn ",") (map field_tokens l) ++ x :: r) d n g) l (V (x :: r) d n g).
Proof.
  intros Hne Hl Hfol Hx. apply (runs_comma_list _ field_follow); [done|done|done|].
  clear Hne. induction Hl as [|fe l Hfe Hl IH]; constructor; [|exact IH].
  destruct (field_head fe) as (y & ys & E & Hy). split; [by rewrite E|]. split.
  - intros rest. rewrite E. split; [split|]; eexists _, _; (split; [done|]); [|done|done].
    split; [done|]. intros _. by eexists _, _.
  - intros rest Hrest. by apply runs_field.
Qed.

Lemma runs_where e ts g : where_fits e -> head_in [bs "BY"; bs "EVERY"; bs "FORMAT"; bs "LIMIT"] ts ->
  exists wh n, runs (optional (bs "WHERE") parsePredicate) (V (where_tokens e ++ ts) 0 0 g) wh (V ts 0 n g) /\ default EmptyE wh = e.
Proof.
  intros He Ht. unfold where_tokens. destruct He as [-> |(Hc & Hs & Hh)].
  - exists None, 0. split; [|done]. eapply runs_optional_none; [exact Ht|]. cbn. intuition discriminate.
  - rewrite (canonical_not_empty _ Hc). exists (Some e), (size e). split; [|done]. apply runs_optional_some.
    destruct Ht as (x & r & -> & Hx). apply runs_predicate; [done|done|done|].
    unfold ends_chain. destruct Hx as [-> |(w & -> & Hw)]; [done|]. cbn in Hw.
    repeat (destruct Hw as [<-|Hw]; [done|]). done.
Qed.

Lemma runs_format f ts d n g : known_format f -> head_in [bs "LIMIT"] ts ->
  exists fm, runs (optional (bs "FORMAT") parseFormat) (V (format_tokens f ++ ts) d n g) fm (V ts d n g) /\ default FormatTimeseries fm = f.
Proof.
  intros Hf Ht. cbn in Hf. destruct Hf as [<-|Hf].
  - exists None. split; [|done]. eapply runs_optional_none; [exact Ht|]. cbn. intuition discriminate.
  - exists (Some f). split; [|done].
    destruct Hf as [<-|[<-|[<-|[]]]]; apply runs_optional_some; (eapply runs_bind; [apply runs_name_tok; [done|by left]|apply runs_ret]).
Qed.

Lemma runs_limit l ts d n g : (forall k, li_Series l = Some k -> in_i64 k) -> (forall k, li_Points l = Some k -> in_i64 k) ->
  head_in [] ts ->
  exists li, (forall f, runs (optional (bs "LIMIT") (limit_loop (S (S f)) no_limits)) (V (limit_tokens l ++ ts) d n g) li (V ts d n g))
    /\ default no_limits li = l.
Proof.
  intros Hs Hp Ht. destruct (head_in_no _ tokPunct (bs ",") _ Ht ltac:(done) ltac:(done)) as (x & r & E & Hx).
  assert (Hser : forall li k f ts' v, in_i64 k -> li_Series li = None ->
    runs (more ← acceptPunct (bs ","); if more : bool then limit_loop f {| li_Series := Some k; li_Points := li_Points li |} else
          mret {| li_Series := Some k; li_Points := li_Points li |}) (V ts' d n g) v (V ts d n g) ->
    runs (limit_loop (S f) li) (V (kw "SERIES" :: (tokNumber, FormatInt k) :: ts') d n g) v (V ts d n g)).
  { intros li k f ts' v Hk Hn Hr. cbn [limit_loop]. eapply runs_bind; [|exact Hr].
    step_yes. eapply runs_bind; [by apply runs_integer|]. rewrite Hn. apply runs_ret. }
  assert (Hpts : forall li k f ts' v, in_i64 k -> li_Points li = None ->
    runs (more ← acceptPunct (bs ","); if more : bool then limit_loop f {| li_Series := li_Series li; li_Points := Some k |} else
          mret {| li_Series := li_Series li; li_Points := Some k |}) (V ts' d n g) v (V ts d n g) ->
    runs (limit_loop (S f) li) (V (kw "POINTS" :: (tokNumber, FormatInt k) :: ts') d n g) v (V ts d n g)).
  { intros li k f ts' v Hk Hn Hr. cbn [limit_loop]. eapply runs_bind; [|exact Hr].
    step_no. step_yes. eapply runs_bind; [by apply runs_integer|]. rewrite Hn. apply runs_ret. }
  assert (Hend : forall f (li : Limits), runs (more ← acceptPunct (bs ","); if more : bool then limit_loop f li else mret li) (V ts d n g) li (V ts d n g)).
  { intros f li. rewrite E. eapply runs_bind; [by apply runs_accept_no|]. apply runs_ret. }
  unfold limit_tokens, limit_items. destruct l as [[a|] [b|]]; cbn [li_Series li_Points] in *; cbn [app is_nil].
  - eexists (Some _). split; [|reflexivity]. intros f. cbn [app sep_tokens map concat].
    apply runs_optional_some, Hser; [by apply Hs|done|]. eapply runs_bind; [apply runs_accept_yes|].
    apply Hpts; [by apply Hp|done|]. apply Hend.
  - eexists (Some _). split; [|reflexivity]. intros f. cbn [app sep_tokens map concat].
    apply runs_optional_some, Hser; [by apply Hs|done|]. apply Hend.
  - eexists (Some _). split; [|reflexivity]. intros f. cbn [app sep_tokens map concat].
    apply runs_optional_some, Hpts; [by apply Hp|done|]. apply Hend.
  - exists None. split; [|done]. intros f. apply (runs_optional_none []); [done|by intros []].
Qed.


Lemma runs_by l ts d n g : Forall (fun s => s <> []) l -> head_in [bs "EVERY"; bs "FORMAT"; bs "LIMIT"] ts ->
  exists by_, runs (optional (bs "BY") (comma_list (name (bs "a label key")))) (V (by_tokens l ++ ts) d n g) by_ (V ts d n g) /\
    default [] by_ = l.
Proof.
  intros Hl Ht. unfold by_tokens. destruct l as [|s l].
  - exists None. split; [|done]. eapply runs_optional_none; [exact Ht|]. cbn. intuition discriminate.
  - exists (Some (s :: l)). split; [|done]. apply runs_optional_some.
    destruct (head_in_no _ tokPunct (bs ",") _ Ht ltac:(done) ltac:(done)) as (x & r & -> & Hx). by apply runs_names.
Qed.
Lemma runs_every o ts d n g : (forall ms, o = Some ms -> exact ms) -> head_in [bs "FORMAT"; bs "LIMIT"] ts ->
  runs (optional (bs "EVERY") duration) (V (every_tokens o ++ ts) d n g) o (V ts d n g).
Proof.
  intros Ho Ht. destruct o as [ms|].
  - apply runs_optional_some, runs_duration. by apply Ho.
  - eapply runs_optional_none; [exact Ht|]. cbn. intuition discriminate.
Qed.

(** The heads of the clauses, from the last to the first. *)
Lemma clause_heads q : data_fits q ->
  head_in [bs "LIMIT"] (limit_tokens (q_Limits q) ++ [eof]) /\
  head_in [bs "FORMAT"; bs "LIMIT"] (format_tokens (q_Format q) ++ limit_tokens (q_Limits q) ++ [eof]) /\
  head_in [bs "EVERY"; bs "FORMAT"; bs "LIMIT"]
    (every_tokens (q_EveryMs q) ++ format_tokens (q_Format q) ++ limit_tokens (q_Limits q) ++ [eof]) /\
  head_in [bs "BY"; bs "EVERY"; bs "FORMAT"; bs "LIMIT"]
    (by_tokens (q_By q) ++ every_tokens (q_EveryMs q) ++ format_tokens (q_Format q) ++ limit_tokens (q_Limits q) ++ [eof]) /\
  head_in after_select (clause_tokens q ++ [eof]).
Proof.
  intros Hq. assert (H0 : head_in [] [eof]) by (eexists _, _; split; [done|by left]).
  assert (H1 : head_in [bs "LIMIT"] (limit_tokens (q_Limits q) ++ [eof])).
  { apply head_in_clause; [done|]. unfold limit_tokens. destruct (is_nil _); [by left|right; eauto]. }
  assert (H2 : head_in [bs "FORMAT"; bs "LIMIT"] (format_tokens (q_Format q) ++ limit_tokens (q_Limits q) ++ [eof])).
  { apply head_in_clause; [done|]. unfold format_tokens. destruct (_ && _); [right; eauto|by left]. }
  assert (H3 : head_in [bs "EVERY"; bs "FORMAT"; bs "LIMIT"]
    (every_tokens (q_EveryMs q) ++ format_tokens (q_Format q) ++ limit_tokens (q_Limits q) ++ [eof])).
  { apply head_in_clause; [done|]. unfold every_tokens. destruct (q_EveryMs q); [right; eauto|by left]. }
  assert (H4 : head_in [bs "BY"; bs "EVERY"; bs "FORMAT"; bs "LIMIT"]
    (by_tokens (q_By q) ++ every_tokens (q_EveryMs q) ++ format_tokens (q_Format q) ++ limit_tokens (q_Limits q) ++ [eof])).
  { apply head_in_clause; [done|]. unfold by_tokens. destruct (is_nil _); [by left|right; eauto]. }
  do 4 (split; [done|]). unfold clause_tokens. rewrite <- !app_assoc. apply head_in_clause; [done|].
  unfold where_tokens. destruct (Expr_Empty _); [by left|right; eauto].
Qed.

Lemma runs_data q g : data_fits q ->
  exists n, runs parseDataQuery (V (data_tokens q ++ [eof]) 0 0 g) q (V [eof] 0 n g).
Proof.
  intros Hq. destruct (clause_heads q Hq) as (H1 & H2 & H3 & H4 & H5). destruct Hq. destruct df_select0 as [Hne Hsel].
  destruct (runs_where (q_Where q) _ g df_where0 H4) as (wh & n & Hwh & Ewh). exists n.
  destruct (runs_by (q_By q) _ 0 n g df_by0 H3) as (by_ & Hby & Eby).
  pose proof (runs_every (q_EveryMs q) _ 0 n g df_every0 H2) as Hev.
  destruct (runs_format (q_Format q) _ 0 n g df_format0 H1) as (fm & Hfm & Efm).
  destruct (runs_limit (q_Limits q) [eof] 0 n g df_series0 df_points0) as (li & Hli & Eli); [by eexists _, _; split; [done|left]|].
  unfold data_tokens.
  change ((?a :: ?b :: ?c :: ?l) ++ ?k) with (a :: b :: c :: (l ++ k)).
  eapply runs_bind; [apply runs_expectKeyword|]. eapply runs_bind; [by apply runs_name|].
  eapply runs_bind; [apply runs_expectKeyword|]. rewrite <- app_assoc.
  assert (Hfol : field_follow (clause_tokens q ++ [eof])).
  { eapply head_in_follow; [exact H5|]. cbn. intros w Hw Hin.
    repeat (destruct Hw as [<-|Hw]; [repeat (destruct Hin as [Hin|Hin]; [discriminate|]); done|]). done. }
  destruct (head_in_no _ tokPunct (bs ",") _ H5 ltac:(done) ltac:(done)) as (x & r & E & Hx). rewrite E in Hfol |- *.
  eapply runs_bind; [by apply runs_select|]. rewrite <- E.
  unfold clause_tokens. rewrite <- !app_assoc.
  eapply runs_bind; [exact Hwh|]. eapply runs_bind; [exact Hby|]. eapply runs_bind; [exact Hev|]. eapply runs_bind; [exact Hfm|].
  apply runs_get. intros p Hp. rewrite (view_toks_length _ _ Hp). cbn [v_toks]. rewrite length_app. cbn [length].
  rewrite Nat.add_1_r. eapply runs_bind; [apply Hli|]. rewrite Ewh, Eby, Efm, Eli.
  assert (Eq : {| q_Kind := KindQuery; q_From := q_From q; q_Select := q_Select q; q_Where := q_Where q; q_By := q_By q;
    q_EveryMs := q_EveryMs q; q_Format := q_Format q; q_Limits := q_Limits q; q_Label := [] |} = q).
  { destruct q. cbn in *. by subst. }
  rewrite Eq. apply runs_ret.
Qed.

Lemma runs_query q g : query_fits q -> exists n, runs parseQuery (V (query_tokens q ++ [eof]) 0 0 g) q (V [eof] 0 n g).
Proof.
  intros [q' Hq| |s Hs|s Hs|l e Hl He].
  - assert (query_tokens q' = data_tokens q') as -> by (unfold query_tokens; by rewrite (df_kind _ Hq)).
    destruct (runs_data q' g Hq) as (n & Hr). exists n. unfold parseQuery. change (data_tokens q' ++ [eof]) with
      (kw "FROM" :: name_token (q_From q') :: kw "SELECT" :: (sep_tokens (pn ",") (map field_tokens (q_Select q')) ++ clause_tokens q') ++ [eof]) in *.
    do 4 step_no. exact Hr.
  - exists 0. unfold parseQuery. cbn. step_yes. apply runs_ret.
  - exists 0. unfold parseQuery. change (query_tokens (from_query KindFields s) ++ [eof]) with [kw "FIELDS"; kw "FROM"; name_token s; eof].
    step_no. step_yes. eapply runs_bind; [apply runs_expectKeyword|]. eapply runs_bind; [by apply runs_name|]. apply runs_ret.
  - exists 0. unfold parseQuery. change (query_tokens (from_query KindLabelKeys s) ++ [eof]) with [kw "LABEL"; kw "KEYS"; kw "FROM"; name_token s; eof].
    do 2 step_no. step_yes. do 2 (eapply runs_bind; [apply runs_expectKeyword|]). eapply runs_bind; [by apply runs_name|]. apply runs_ret.
  - destruct (runs_where e [eof] g He) as (wh & n & Hwh & Ewh); [by eexists _, _; split; [done|left]|]. exists n.
    change (query_tokens (labels_query l e) ++ [eof]) with (kw "LABELS" :: name_token l :: where_tokens e ++ [eof]). unfold parseQuery.
    do 3 step_no. step_yes. eapply runs_bind; [by apply runs_name|]. eapply runs_bind; [exact Hwh|]. rewrite Ewh. apply runs_ret.
Qed.

Lemma parse_print q : query_fits q -> zlen (Print q) <= MaxQueryBytes -> ParseDiags (Print q) = Ok (q, []).
Proof.
  intros Hq Hlen. destruct (print_reads q Hq) as [_ Hl]. specialize (Hl [] I). rewrite app_nil_r in Hl.
  destruct (lex_lexes _ _ _ Hl eq_refl Hlen) as (toks & Hlex & Htoks). unfold ParseDiags. rewrite Hlex. cbn [rbind].
  destruct (runs_query q [] Hq) as (n & Hr).
  destruct (Hr (new_parser toks)) as (p & Ep & Hp); [unfold view_of; cbn; by rewrite Htoks|].
  unfold parse_all, mbind, P_bind. rewrite Ep. unfold view_of in Hp. injection Hp as Ht _ _ Hd.
  destruct p as [ts ds dd nn]. cbn in Ht, Hd. subst ds.
  destruct ts as [|t [|? ?]]; try done. injection Ht as Hk _. unfold cur. cbn [p_toks]. by rewrite Hk.
Qed.
End Queries.

(** * The properties of the query language

    Parsing always answers; what it accepts is well formed and within the
    node bound; the canonical text of a query reads back as that query; and
    the one place where the text and the JSON surface disagree. *)


Section Props.
Context `{U : Unicode} `{!UnicodeLaws U} `{F : FloatText}.

(** What [parse_all] leaves of a query, from the lexer's tokens on. *)
Lemma parse_all_safe toks : toks_ok toks ->
  match parse_all (new_parser toks) with Ok ((q, _), _) => query_wf q | Err e => no_bug e end.
Proof.
  intros Ht. assert (Hs : safe parse_all (new_parser toks) (fun qd _ => query_wf qd.1)).
  { unfold parse_all. apply safe_bind. eapply safe_mono; [by apply parseQuery_safe|].
    intros q p [Hq Hp]. apply safe_bind, safe_cur; [done|]. intros t l _ _.
    destruct (bool_decide _); [|by apply safe_errf]. apply safe_bind, safe_get. by apply safe_ret. }
  unfold safe in Hs. destruct (parse_all _) as [[[q ds] p]|e]; exact Hs.
Qed.
Lemma ParseDiags_safe src : match ParseDiags src with Ok (q, _) => query_wf q | Err e => no_bug e end.
Proof.
  unfold ParseDiags. pose proof (lex_total src) as Hl. destruct (lex src) as [toks|e]; cbn [rbind positioned] in *.
  - pose proof (parse_all_safe toks Hl) as Hp. destruct (parse_all (new_parser toks)) as [[[q ds] p]|e]; exact Hp.
  - destruct Hl as (pos & msg & ->). by split.
Qed.
Lemma Parse_wf src q : Parse src = Ok q -> query_wf q.
Proof.
  unfold Parse. pose proof (ParseDiags_safe src) as Hs. destruct (ParseDiags src) as [[q' ds]|e]; [|done].
  cbn. by intros [= <-].
Qed.

(** C8: [ParseDiags] answers every text, whatever bytes it holds: it never
    reads past the token slice (a run-time panic) and its loops never run
    out of the tokens or bytes that bound them. *)
Theorem ParseDiags_total (src : gostr) :
  match ParseDiags src with
  | Ok _ => True
  | Err e => e <> IndexPanic /\ e <> OutOfFuel
  end.
Proof. pose proof (ParseDiags_safe src) as Hs. by destruct (ParseDiags src) as [[q ds]|e]. Qed.

(** C9: A query [Parse] accepts is well formed -- its names are not empty,
    a data query selects something, an auxiliary query carries nothing its
    kind does not read -- and its WHERE predicate is a tagged union (one arm
    a node, no empty list or group) whose node count [checkPredicateShape]
    never refuses: the only bound it can still fail is the depth, and it
    fails it exactly when the tree is higher than 64. *)
Theorem Parse_wellformed (src : gostr) (q : Query) :
  Parse src = Ok q ->
  query_wf q /\ checkUnusedClauses q = None /\
  CheckPredicateDepth (Some q) = if height (q_Where q) <=? MaxPredicateDepth then Ok tt else Err TooDeep.
Proof.
  intros Hq. pose proof (Parse_wf _ _ Hq) as Hw. split; [done|]. split.
  - destruct (qw_kind _ Hw) as [(E & _)|[(_ & E)|[(_ & _ & E)|[(_ & _ & E)|(_ & _ & E)]]]]; unfold checkUnusedClauses.
    + by rewrite E.
    + by rewrite E.
    + rewrite E. cbn. by rewrite !andb_false_r.
    + rewrite E. cbn. by rewrite !andb_false_r.
    + rewrite E. cbn. by rewrite !andb_false_r.
  - cbn [CheckPredicateDepth]. destruct (qw_where _ Hw) as [-> |(Hc & Hs & _)]; [reflexivity|by apply shape_within].
Qed.

(** C7: The canonical text of a query is the query: for every query its
    text can carry (predicate within the bounds of [checkPredicateShape],
    finite numbers, durations a float64 holds exactly) whose text is within
    the lexer's limit, parsing what [Print] wrote gives the same query back,
    with no diagnostic -- names that collide with keywords, values that look
    like variables, escapes, nested groups and every modifier included. *)
Theorem Print_Parse_roundtrip `{!FloatTextLaws F} (q : Query) :
  query_fits q -> zlen (Print q) <= MaxQueryBytes -> ParseDiags (Print q) = Ok (q, []).
Proof. intros Hq Hlen. by apply parse_print. Qed.
End Props.

(** ** Depth: groups in the text, arms in the tree *)

(** [k] groups, each holding a conjunction inside a disjunction. *)
Fixpoint nest (k : nat) : gostr :=
  match k with
  | O => bs "a = b"
  | S k => bs "(" ++ nest k ++ bs " AND c = d OR e = f)"
  end.
Definition nested_query (k : nat) : gostr := bs "LABELS l WHERE " ++ nest k.

(** The text accepts predicates the tree refuses.  [parseUnary] counts
    one level per parenthesised group, while a group holding both AND and
    OR builds two levels of the tree, so a predicate of 40 such groups
    parses and is then refused as too deep by [checkPredicateShape], which
    [Validate] and the /v1/print endpoint apply to the same query. *)
Theorem text_deeper_than_tree `{U : Unicode} `{F : FloatText} :
  exists q, Parse (nested_query 40) = Ok q /\ CheckPredicateDepth (Some q) = Err TooDeep.
Proof.
  assert (E : match Parse (nested_query 40) with Ok q => CheckPredicateDepth (Some q) | Err _ => Ok tt end = Err TooDeep)
    by (vm_compute; reflexivity).
  destruct (Parse (nested_query 40)) as [q|e]; [by exists q|done].
Qed.

(** ** Witnesses *)

Theorem ParseDiags_total_witness :
  match ParseDiags (bs "FROM cpu SELECT") with Ok _ => True | Err e => e <> IndexPanic /\ e <> OutOfFuel end.
Proof. apply (ParseDiags_total (bs "FROM cpu SELECT")). Defined.

Definition sample_text : gostr := bs "LABELS host WHERE a = b AND NOT (c =~ /x/ OR HAS d)".
Definition sample_query : Query :=
  labels_query (bs "host")
    (AndE [EqE {| c_Label := bs "a"; c_Value := bs "b"; c_Literal := false |};
           NotE (OrE [MatchE {| mx_Label := bs "c"; mx_Regex := bs "x" |}; HasE (bs "d")])]).
Theorem Parse_wellformed_witness :
  Parse sample_text = Ok sample_query /\
  query_wf sample_query /\ checkUnusedClauses sample_query = None /\
  CheckPredicateDepth (Some sample_query) = if height (q_Where sample_query) <=? MaxPredicateDepth then Ok tt else Err TooDeep.
Proof.
  assert (E : Parse sample_text = Ok sample_query) by (vm_compute; reflexivity).
  split; [exact E|]. exact (Parse_wellformed sample_text sample_query E).
Defined.

(** A data query with every clause: a keyword for a name, a literal that
    looks like a variable, a clamp on both sides, a negative gap. *)
Definition full_query : Query :=
  {| q_Kind := KindQuery; q_From := bs "from";
     q_Select :=
       [{| fe_Field := bs "cpu.user"; fe_Histogram := []; fe_As := bs "x y";
           fe_Modifiers := {| m_Delta := true; m_PerSecond := true; m_Negate := true; m_Required := true;
             m_GapMs := Some (-90000);
             m_Clamp := Some {| cl_Min := Some f_zero; cl_Max := Some (of_int 100); cl_Else := bs "raw" |};
             m_SSE := Some {| ss_Mode := bs "const"; ss_Value := of_int 7 |} |} |};
        {| fe_Field := []; fe_Histogram := bs "lat"; fe_As := []; fe_Modifiers := no_modifiers |}];
     q_Where := OrE [EqE {| c_Label := bs "a"; c_Value := bs "$v"; c_Literal := true |};
                     InE {| in_Label := bs "b c"; in_Values := [bs "1"; bs "$w"]; in_Literal := [] |}];
     q_By := [bs "host"]; q_EveryMs := Some 1500; q_Format := FormatTable;
     q_Limits := {| li_Series := Some 5; li_Points := Some 1000 |}; q_Label := [] |}.

Lemma full_query_fits : query_fits full_query.
Proof.
  assert (Hfin : forall n, In n [0; 7; 100] -> finite (of_int n)).
  { intros n [<-|[<-|[<-|[]]]]; by vm_compute. }
  apply fits_data. split; cbn; try done.
  - split; [done|]. apply Forall_cons. split; [|apply Forall_cons; split; [|done]].
    + split; [by left|]. split; [|split].
      * intros c [= <-]. split; [by left|]. split; [intros v [= <-]; apply (Hfin 0); by left|].
        split; [intros v [= <-]; apply (Hfin 100); by do 2 right; left|by right].
      * intros ms [= <-]. done.
      * intros s [= <-]. right. right. split; [done|]. apply (Hfin 7). by right; left.
    + split; [by right|]. done.
  - right. split; [|by vm_compute]. apply can_Or; [done|]. apply Forall_cons. split; [|apply Forall_cons; split; [|done]].
    + by apply can_Eq.
    + apply can_In; [done|done|by left].
  - by apply Forall_singleton.
  - by intros ms [= <-].
  - by right; left.
  - intros n [= <-]. by vm_compute.
  - intros n [= <-]. by vm_compute.
Qed.
Theorem Print_Parse_roundtrip_witness : ParseDiags (Print full_query) = Ok (full_query, []).
Proof. apply (Print_Parse_roundtrip full_query full_query_fits). vm_compute. discriminate. Defined.
