(* ===== verification/ExtractAC.v ===== *)
(** * The literal matcher of extraction ([pkg/extract/ac.go])

    An Aho-Corasick automaton over the literals of the patterns: the trie
    [newACMatcher] grows, the failure links its breadth-first pass adds, and
    the scan of a line.  The source ranges over Go maps whose order is not
    specified; [iter] is that order, any permutation of a map's entries.

    A slice access out of range panics in Go and is [None] here, and so is a
    loop that would outrun its fuel, so that [Some] means the code returns.
    Node ids and pattern indexes are [int32], with their wrap-around. *)

From Stdlib Require Import Strings.Byte.
From stdpp Require Import gmap sorting.
From S2P Require Import Prelude.
From S2P Require Import Bytes GoText.

(** ** Data and operations *)

Record acMatcher : Type := AC {
  next : list (gmap byte Z);
  fail : list Z;
  out : list Z;
  empty : list Z;
}.

(** The inner loop of [newACMatcher]: the walk of one literal, which adds
    the nodes it lacks. *)
Fixpoint grow (m : acMatcher) (node : Z) (p : gostr) : option (acMatcher * Z) :=
  match p with
  | [] => Some (m, node)
  | c :: p' =>
      mp ← idx (next m) node;
      match (mp : gmap byte Z) !! c with
      | Some nxt => grow m nxt p'
      | None =>
          let nxt := i32 (zlen (next m)) in
          nx ← upd (next m) node (<[c := nxt]> mp);
          grow (AC (nx ++ [∅]) (fail m ++ [0]) (out m ++ [-1]) (empty m)) nxt p'
      end
  end.

Definition add_pattern (m : acMatcher) (pi : Z) (p : gostr) : option acMatcher :=
  if bytes_eqb p [] then Some (AC (next m) (fail m) (out m) (empty m ++ [i32 pi]))
  else
    '(m, node) ← grow m 0 p;
    o ← idx (out m) node;
    if (o =? -1) || (o >? i32 pi) then
      ot ← upd (out m) node (i32 pi);
      Some (AC (next m) (fail m) ot (empty m))
    else Some m.

Fixpoint add_patterns (m : acMatcher) (pi : Z) (ps : list gostr) : option acMatcher :=
  match ps with
  | [] => Some m
  | p :: ps' => m ← add_pattern m pi p; add_patterns m (pi + 1) ps'
  end.

Definition empty_matcher : acMatcher := AC [∅] [0] [-1] [].

(** The loop that climbs the failure links for a node with an edge on [c]. *)
Fixpoint climb (fuel : nat) (m : acMatcher) (f : Z) (c : byte) : option Z :=
  match fuel with
  | O => None
  | S fuel =>
      if f =? 0 then Some f
      else
        mp ← idx (next m) f;
        match (mp : gmap byte Z) !! c with
        | Some _ => Some f
        | None => f' ← idx (fail m) f; climb fuel m f' c
        end
  end.

(** One edge of the breadth-first pass: the failure link and the best output
    of the child [n] of [cur] on [c]. *)
Definition link (m : acMatcher) (cur : Z) (c : byte) (n : Z) : option acMatcher :=
  f0 ← idx (fail m) cur;
  f ← climb (S (length (next m))) m f0 c;
  mp ← idx (next m) f;
  let fn := match (mp : gmap byte Z) !! c with
            | Some nf => if nf =? n then 0 else nf
            | None => 0
            end in
  fl ← upd (fail m) n fn;
  o ← idx (out m) fn;
  on ← idx (out m) n;
  if negb (o =? -1) && ((on =? -1) || (o <? on)) then
    ot ← upd (out m) n o;
    Some (AC (next m) fl ot (empty m))
  else Some (AC (next m) fl (out m) (empty m)).

Fixpoint link_all (m : acMatcher) (cur : Z) (es : list (byte * Z)) : option acMatcher :=
  match es with
  | [] => Some m
  | (c, n) :: es' => m ← link m cur c n; link_all m cur es'
  end.

Fixpoint link_roots (m : acMatcher) (es : list (byte * Z)) : option acMatcher :=
  match es with
  | [] => Some m
  | (_, n) :: es' =>
      fl ← upd (fail m) n 0;
      link_roots (AC (next m) fl (out m) (empty m)) es'
  end.

Section Build.
Context (iter : gmap byte Z -> list (byte * Z)).

(** The loop over the queue; [queue] is the part not yet visited. *)
Fixpoint bfs (fuel : nat) (m : acMatcher) (queue : list Z) : option acMatcher :=
  match queue with
  | [] => Some m
  | cur :: rest =>
      match fuel with
      | O => None
      | S fuel =>
          mp ← idx (next m) cur;
          let es := iter mp in
          m ← link_all m cur es;
          bfs fuel m (rest ++ es.*2)
      end
  end.

Definition newACMatcher (patterns : list gostr) : option acMatcher :=
  m ← add_patterns empty_matcher 0 patterns;
  root ← idx (next m) 0;
  let es := iter root in
  m ← link_roots m es;
  bfs (length (next m)) m es.*2.
End Build.

(** [better b o]: [o] when it improves on the best index so far. *)
Definition better (b o : Z) : Z :=
  if negb (o =? -1) && ((b =? -1) || (o <? b)) then o else b.

Fixpoint best_empty (b : Z) (l : list Z) : Z :=
  match l with
  | [] => b
  | e :: l' => best_empty (if (b =? -1) || (e <? b) then e else b) l'
  end.

(** The state after one byte: an edge from the node or from a node its
    failure links lead to, else the root. *)
Fixpoint goto (fuel : nat) (m : acMatcher) (node : Z) (c : byte) : option Z :=
  match fuel with
  | O => None
  | S fuel =>
      mp ← idx (next m) node;
      match (mp : gmap byte Z) !! c with
      | Some n => Some n
      | None =>
          if node =? 0 then Some node
          else node' ← idx (fail m) node; goto fuel m node' c
      end
  end.

Fixpoint scan (m : acMatcher) (node best : Z) (s : gostr) : option Z :=
  match s with
  | [] => Some best
  | c :: s' =>
      node ← goto (S (length (next m))) m node c;
      o ← idx (out m) node;
      if negb (o =? -1) && ((best =? -1) || (o <? best)) then
        if o =? 0 then Some 0 else scan m node o s'
      else scan m node best s'
  end.

Definition FirstIndex (m : acMatcher) (s : gostr) : option Z :=
  scan m 0 (best_empty (-1) (empty m)) s.

(** ** The reference: a linear scan of the patterns *)

(** The smallest index from [i] whose pattern passes, or -1. *)
Fixpoint first_from (i : Z) (f : gostr -> bool) (ps : list gostr) : Z :=
  match ps with
  | [] => -1
  | p :: ps' => if f p then i else first_from (i + 1) f ps'
  end.

Definition linear_scan (ps : list gostr) (s : gostr) : Z :=
  first_from 0 (Contains s) ps.
