(* ===== verification/ExtractACProofs.v ===== *)
(** * The literal matcher is a linear scan

    Each node stands for the text that leads to it ([trie]).  Failure links
    and outputs are right for a node once it is queued ([good]), because the
    queue is in order of depth; a scan is then always at the longest suffix
    of the text that the trie holds ([lps]). *)

From Stdlib Require Import Strings.Byte.
From stdpp Require Import gmap sorting.
From S2P Require Import Prelude Bytes GoText ExtractAC.

(** ** The smallest index that passes *)

Section First.
Implicit Types (f g : gostr -> bool) (ps qs : list gostr).

Lemma first_from_range f ps : forall i, 0 <= i ->
  first_from i f ps = -1 \/ i <= first_from i f ps < i + zlen ps.
Proof.
  induction ps as [|p ps IH]; intros i Hi; cbn [first_from]; [by left|].
  rewrite zlen_cons. pose proof (zlen_nonneg ps).
  break_if; [right; lia|]. destruct (IH (i + 1)); lia.
Qed.

Lemma first_from_ext f g ps : forall i,
  (forall p, p ∈ ps -> f p = g p) -> first_from i f ps = first_from i g ps.
Proof.
  induction ps as [|p ps IH]; intros i H; cbn [first_from]; [done|].
  rewrite (H p), (IH (i + 1)) by set_solver. done.
Qed.

Lemma first_from_app f ps qs : forall i, 0 <= i ->
  first_from i f (ps ++ qs) =
  if first_from i f ps =? -1 then first_from (i + zlen ps) f qs else first_from i f ps.
Proof.
  induction ps as [|p ps IH]; intros i Hi; cbn [app first_from].
  - unfold zlen. simpl. by rewrite Z.add_0_r.
  - rewrite zlen_cons. break_if.
    + by rewrite (proj2 (Z.eqb_neq i (-1))) by lia.
    + rewrite IH by lia. by replace (i + 1 + zlen ps) with (i + (1 + zlen ps)) by lia.
Qed.

Lemma better_first f g ps : forall i, 0 <= i ->
  better (first_from i f ps) (first_from i g ps) = first_from i (fun p => f p || g p) ps.
Proof.
  induction ps as [|p ps IH]; intros i Hi; cbn [first_from]; [done|].
  pose proof (first_from_range f ps (i + 1) ltac:(lia)).
  pose proof (first_from_range g ps (i + 1) ltac:(lia)).
  rewrite <- IH by lia. unfold better.
  destruct (f p), (g p); cbn [orb]; try done.
  - by rewrite Z.ltb_irrefl, (proj2 (Z.eqb_neq i (-1))) by lia.
  - rewrite (proj2 (Z.eqb_neq i (-1))) by lia. cbn [orb]. break_if; bsplit; lia.
  - rewrite (proj2 (Z.eqb_neq i (-1))) by lia. cbn [negb andb].
    break_if; [done|]. apply orb_false_iff in Heqb as [??]. bsplit. lia.
Qed.

Lemma first_from_none ps i : first_from i (fun _ => false) ps = -1.
Proof. revert i. induction ps as [|p ps IH]; intros i; cbn [first_from]; [done | apply IH]. Qed.

Lemma first_from_zero f g ps :
  (forall p, f p = true -> g p = true) -> first_from 0 f ps = 0 -> first_from 0 g ps = 0.
Proof.
  intros Hfg. destruct ps as [|p ps]; cbn [first_from]; [done|].
  destruct (f p) eqn:Hf; [by rewrite Hfg|].
  pose proof (first_from_range f ps (0 + 1) ltac:(lia)). lia.
Qed.
End First.

(** ** The trie *)

Record trie (nx : list (gmap byte Z)) (paths : list gostr) : Prop := {
  t_len : length nx = length paths;
  t_nodup : NoDup paths;
  t_root : idx paths 0 = Some [];
  t_edge : forall n w mp c z, idx paths n = Some w -> idx nx n = Some mp ->
    mp !! c = Some z <-> idx paths z = Some (w ++ [c]);
  t_closed : forall w c, w ++ [c] ∈ paths -> w ∈ paths;
}.

Lemma path_uniq paths n k (w : gostr) :
  NoDup paths -> idx paths n = Some w -> idx paths k = Some w -> n = k.
Proof.
  rewrite !idx_Some. intros Hnd [? H1] [? H2].
  pose proof (proj1 (NoDup_alt _) Hnd _ _ _ H1 H2). lia.
Qed.

Lemma path_elem paths (w : gostr) : w ∈ paths <-> exists n, idx paths n = Some w.
Proof.
  rewrite list_elem_of_lookup. split.
  - intros [i Hi]. exists (Z.of_nat i). apply idx_Some. by rewrite Nat2Z.id; split; [lia|].
  - intros [n [? ?]%idx_Some]. eauto.
Qed.

Lemma path_elem_idx paths n (w : gostr) : idx paths n = Some w -> w ∈ paths.
Proof. intros H. apply path_elem. eauto. Qed.

Lemma snoc_ne_self (w : gostr) c : w ++ [c] <> w.
Proof. intros H. apply (f_equal length) in H. rewrite length_app in H. simpl in H. lia. Qed.

#[local] Hint Resolve t_nodup t_root path_elem_idx : core.

Section Trie.
Context {nx : list (gmap byte Z)} {paths : list gostr} (T : trie nx paths).

Lemma trie_idx n w : idx paths n = Some w -> exists mp, idx nx n = Some mp.
Proof.
  intros H%idx_range. apply idx_is_Some. unfold zlen in *. rewrite (t_len _ _ T). done.
Qed.

Lemma trie_root_id n : idx paths n = Some [] -> n = 0.
Proof. intros H. eapply path_uniq; eauto. Qed.

Lemma trie_root_path w : idx paths 0 = Some w -> w = [].
Proof. rewrite (t_root _ _ T). congruence. Qed.

Lemma trie_no_edge n w mp c :
  idx paths n = Some w -> idx nx n = Some mp -> mp !! c = None -> w ++ [c] ∉ paths.
Proof.
  intros Hn Hmp Hc [z Hz]%path_elem. apply (t_edge _ _ T n w mp c z Hn Hmp) in Hz. congruence.
Qed.

Lemma trie_add n w mp c :
  idx paths n = Some w -> idx nx n = Some mp -> mp !! c = None ->
  trie (<[Z.to_nat n := <[c := zlen nx]> mp]> nx ++ [∅]) (paths ++ [w ++ [c]]).
Proof.
  intros Hn Hmp Hc.
  pose proof (trie_no_edge _ _ _ _ Hn Hmp Hc) as Hnew.
  pose proof (idx_range _ _ _ Hmp) as Hnr.
  assert (Hlen : zlen nx = zlen paths) by (unfold zlen; by rewrite (t_len _ _ T)).
  split.
  - rewrite !length_app, length_insert, (t_len _ _ T). done.
  - apply NoDup_app. split; [by apply (t_nodup _ _ T)|].
    split; [set_solver | apply NoDup_singleton].
  - apply idx_app_l, (t_root _ _ T).
  - intros k x mq d z Hk Hmq.
    apply idx_snoc_inv in Hk as [Hk | [-> ->]].
    + assert (Hkr := idx_range _ _ _ Hk).
      apply idx_snoc_inv in Hmq as [Hmq | [-> _]]; [|rewrite zlen_insert in Hkr; lia].
      rewrite idx_insert in Hmq by lia.
      destruct (Z.eqb_spec n k) as [<- | Hne].
      * injection Hmq as <-. replace x with w by congruence.
        destruct (decide (d = c)) as [-> | Hd].
        -- rewrite lookup_insert_eq, Hlen. split.
           ++ intros [= <-]. apply idx_snoc.
           ++ intros [Hz | [-> _]]%idx_snoc_inv; [|done].
              exfalso. eauto.
        -- rewrite lookup_insert_ne by done.
           rewrite (t_edge _ _ T n w mp d z Hn Hmp). split; [apply idx_app_l|].
           intros [Hz | [_ Hz]]%idx_snoc_inv; [done|].
           apply app_inj_2 in Hz; [|done]. destruct Hz. congruence.
      * rewrite (t_edge _ _ T k x mq d z Hk Hmq). split; [apply idx_app_l|].
        intros [Hz | [_ Hz]]%idx_snoc_inv; [done|].
        apply app_inj_2 in Hz; [|done]. destruct Hz as [-> _].
        destruct Hne. eapply path_uniq; eauto.
    + replace mq with (∅ : gmap byte Z).
      2: { apply idx_snoc_inv in Hmq as [Hmq%idx_range | [_ ->]]; [|done].
           rewrite zlen_insert in Hmq. lia. }
      rewrite lookup_empty. split; [done|].
      intros [Hz | [_ Hz]]%idx_snoc_inv; exfalso.
      * apply Hnew, (t_closed _ _ T _ d). eauto.
      * by apply (snoc_ne_self (w ++ [c]) d).
  - intros x d [Hx | Hx]%elem_of_app.
    + apply elem_of_app. left. by apply (t_closed _ _ T _ d).
    + apply list_elem_of_singleton, app_inj_2 in Hx; [|done]. destruct Hx as [-> _].
      apply elem_of_app. eauto.
Qed.
End Trie.

(** ** Growing the trie *)

(** The arrays that run parallel to the trie's nodes. *)
Record shape (m : acMatcher) (paths : list gostr) : Prop := {
  s_trie : trie (next m) paths;
  s_fail : length (fail m) = length paths;
  s_out : length (out m) = length paths;
}.
#[local] Hint Resolve s_trie s_fail s_out : core.

Lemma shape_fail m paths n w : shape m paths -> idx paths n = Some w -> exists f, idx (fail m) n = Some f.
Proof. intros S H%idx_range. apply idx_is_Some. unfold zlen in *. by rewrite s_fail with (paths := paths). Qed.

Lemma shape_out m paths n w : shape m paths -> idx paths n = Some w -> exists o, idx (out m) n = Some o.
Proof. intros S H%idx_range. apply idx_is_Some. unfold zlen in *. by rewrite s_out with (paths := paths). Qed.

Lemma grow_ok p : forall m paths node w,
  shape m paths -> idx paths node = Some w -> zlen paths + zlen p < 2147483648 ->
  exists m' ext n', grow m node p = Some (m', n') /\
    shape m' (paths ++ ext) /\ idx (paths ++ ext) n' = Some (w ++ p) /\
    zlen ext <= zlen p /\ out m' = out m ++ replicate (length ext) (-1) /\ empty m' = empty m.
Proof.
  induction p as [|c p IH]; intros m paths node w S Hn Hsz; cbn [grow].
  - exists m, [], node. rewrite !app_nil_r. done.
  - rewrite zlen_cons in Hsz. pose proof (s_trie _ _ S) as T.
    destruct (trie_idx T _ _ Hn) as [mp Hmp]. rewrite Hmp. simpl.
    destruct (mp !! c) as [nxt|] eqn:Hc.
    + destruct (IH m paths nxt (w ++ [c])) as (m' & ext & n' & Hg & S' & Hn' & ? & ? & ?);
        [done | by apply (t_edge _ _ T node w mp c nxt) | lia |].
      exists m', ext, n'. rewrite <- app_assoc in Hn'. rewrite zlen_cons.
      split_and!; auto; lia.
    + pose proof (idx_range _ _ _ Hmp). rewrite upd_Some by done. simpl.
      assert (Hlen : zlen (next m) = zlen paths) by (unfold zlen; by rewrite (t_len _ _ T)).
      rewrite i32_id by (pose proof (zlen_nonneg paths); pose proof (zlen_nonneg p); lia).
      destruct (IH (AC (<[Z.to_nat node := <[c := zlen (next m)]> mp]> (next m) ++ [∅])
                  (fail m ++ [0]) (out m ++ [-1]) (empty m)) (paths ++ [w ++ [c]])
                  (zlen (next m)) (w ++ [c])) as (m' & ext & n' & Hg & S' & Hn' & ? & Ho & ?).
      { split; simpl; [by apply trie_add with (w := w) | |];
          rewrite !length_app; simpl; [by rewrite (s_fail _ _ S) | by rewrite (s_out _ _ S)]. }
      { rewrite Hlen. apply idx_snoc. }
      { rewrite zlen_app. unfold zlen at 2. simpl. lia. }
      exists m', ([w ++ [c]] ++ ext), n'.
      rewrite (app_assoc paths). rewrite <- (app_assoc w [c] p) in Hn'.
      rewrite zlen_cons, zlen_app. simpl in Ho.
      rewrite <- app_assoc in Ho. split_and!; auto. change (zlen [w ++ [c]]) with 1. lia.
Qed.

(** Which patterns end at a node, before and after the failure links. *)
Definition is_nil (p : gostr) : bool := bytes_eqb p [].
Definition is_at (w p : gostr) : bool := bytes_eqb p w && negb (bytes_eqb p []).
Definition ends (w p : gostr) : bool :=
  bool_decide (p `suffix_of` w) && negb (bytes_eqb p []).

Definition total (ps : list gostr) : Z := foldr (fun p z => zlen p + z) 0 ps.

Record filed (m : acMatcher) (paths ps : list gostr) : Prop := {
  f_shape : shape m paths;
  f_out : forall n w, idx paths n = Some w -> idx (out m) n = Some (first_from 0 (is_at w) ps);
  f_empty : best_empty (-1) (empty m) = first_from 0 is_nil ps;
  f_paths : forall p, p ∈ ps -> p ∈ paths;
}.

Lemma best_empty_snoc l e : forall b,
  best_empty b (l ++ [e]) =
  let r := best_empty b l in if (r =? -1) || (e <? r) then e else r.
Proof. induction l as [|x l IH]; intros b; cbn [app best_empty]; [done | apply IH]. Qed.

Lemma f_out_grow (m m' : acMatcher) paths ext ps n w :
  filed m paths ps -> shape m' (paths ++ ext) ->
  out m' = out m ++ replicate (length ext) (-1) ->
  idx (paths ++ ext) n = Some w -> idx (out m') n = Some (first_from 0 (is_at w) ps).
Proof.
  intros F S' Ho Hn. rewrite Ho.
  destruct (idx paths n) as [w'|] eqn:Hold.
  - pose proof (idx_app_l _ ext _ _ Hold). replace w with w' by congruence.
    apply idx_app_l. by apply (f_out _ _ _ F).
  - destruct (shape_out m' _ n w S' Hn) as [o Hout]. rewrite Ho in Hout. rewrite Hout. f_equal.
    assert (Hw : first_from 0 (is_at w) ps = -1).
    { rewrite <- (first_from_none ps 0). apply first_from_ext. intros p Hp.
      unfold is_at. destruct (bytes_eqb p w) eqn:He; [|done]. apply bytes_eqb_spec in He as ->.
      exfalso. apply (f_paths _ _ _ F), path_elem in Hp as [k Hk].
      pose proof (t_nodup _ _ (s_trie _ _ S')) as Hnd.
      rewrite (path_uniq _ _ _ _ Hnd Hn (idx_app_l _ ext _ _ Hk)) in Hold. congruence. }
    rewrite Hw. pose proof (idx_range _ _ _ Hn).
    apply idx_Some in Hout as [? Hout]. apply lookup_app_Some in Hout as [Hout | [_ Hout]].
    + exfalso. apply lookup_lt_Some in Hout. rewrite (s_out _ _ (f_shape _ _ _ F)) in Hout.
      assert (Hs : is_Some (paths !! Z.to_nat n)) by (by apply lookup_lt_is_Some_2).
      destruct Hs as [v Hv]. assert (idx paths n = Some v) by (by apply idx_Some). congruence.
    + by apply lookup_replicate in Hout as [-> _].
Qed.

Lemma first_is_at_snoc ps p w :
  first_from 0 (is_at w) (ps ++ [p]) =
  let o := first_from 0 (is_at w) ps in
  if is_at w p && (o =? -1) then zlen ps else o.
Proof.
  rewrite first_from_app by done. cbn [first_from].
  destruct (Z.eqb_spec (first_from 0 (is_at w) ps) (-1)) as [-> | Hne]; simpl.
  - destruct (is_at w p); done.
  - by rewrite andb_false_r.
Qed.

Lemma add_pattern_ok m paths ps p :
  filed m paths ps -> zlen ps < 2147483648 -> zlen paths + zlen p < 2147483648 ->
  exists m' ext, add_pattern m (zlen ps) p = Some m' /\
    filed m' (paths ++ ext) (ps ++ [p]) /\ zlen ext <= zlen p.
Proof.
  intros F Hps Hsz. unfold add_pattern. pose proof (zlen_nonneg ps).
  rewrite i32_id by lia. destruct (bytes_eqb p []) eqn:Hp.
  - apply bytes_eqb_spec in Hp as ->. eexists _, []. split; [done|]. rewrite app_nil_r.
    split; [|done]. destruct F as [[T Hf Ho] Fo Fe Fp]. split; simpl; [done | | |].
    + intros n w Hn. rewrite first_is_at_snoc.
      assert (is_at w [] = false) as -> by apply andb_false_r. by apply Fo.
    + rewrite best_empty_snoc, Fe, first_from_app by done. cbn [first_from].
      pose proof (first_from_range is_nil ps 0 ltac:(lia)) as Hr.
      set (b := first_from 0 is_nil ps) in *. cbv zeta.
      destruct (Z.eqb_spec b (-1)); cbn [orb]; [done|].
      break_if; [bsplit; lia | done].
    + intros p [Hp | ->%list_elem_of_singleton]%elem_of_app; [auto|].
      apply path_elem. exists 0. apply (t_root _ _ T).
  - destruct (grow_ok p m paths 0 []) as (m' & ext & n & Hg & S' & Hn & Hx & Ho & He);
      [apply F | apply (t_root _ _ (s_trie _ _ (f_shape _ _ _ F))) | lia |].
    rewrite Hg. simpl in Hn |- *.
    rewrite (f_out_grow m m' paths ext ps n p F S' Ho Hn). simpl.
    set (o := first_from 0 (is_at p) ps).
    assert (Ho_r : o = -1 \/ 0 <= o < zlen ps).
    { pose proof (first_from_range (is_at p) ps 0 ltac:(lia)). lia. }
    assert (Hempty : best_empty (-1) (empty m') = first_from 0 is_nil (ps ++ [p])).
    { rewrite He, (f_empty _ _ _ F), first_from_app by done. cbn [first_from].
      fold (is_nil p) in Hp. rewrite Hp.
      break_if; bsplit; done. }
    assert (Hpaths : forall q, q ∈ ps ++ [p] -> q ∈ paths ++ ext).
    { intros q [Hq | ->%list_elem_of_singleton]%elem_of_app; [|eauto].
      apply elem_of_app. left. by apply (f_paths _ _ _ F). }
    assert (Hother : forall k w, idx (paths ++ ext) k = Some w -> n <> k -> is_at w p = false).
    { intros k w Hk Hne. unfold is_at. destruct (bytes_eqb p w) eqn:Hw; [|done].
      apply bytes_eqb_spec in Hw as <-. destruct Hne.
      eapply path_uniq; [|done..]. apply S'. }
    pose proof (idx_range _ _ _ Hn) as Hnr.
    assert (Hat : is_at p p = true) by (unfold is_at; by rewrite bytes_eqb_refl, Hp).
    destruct ((o =? -1) || (o >? zlen ps)) eqn:Hc.
    + assert (Hm1 : o = -1) by (apply orb_true_iff in Hc as [?|?]; bsplit; lia).
      assert (Hlo : zlen (out m') = zlen (paths ++ ext)) by (unfold zlen; by rewrite (s_out _ _ S')).
      rewrite upd_Some by lia. simpl.
      eexists _, ext. split; [done|]. split; [|done]. split; simpl; [| | done | done].
      * destruct S' as [T' Hf' Ho']. split; simpl; [done | done | by rewrite length_insert].
      * intros k w Hk. pose proof (idx_range _ _ _ Hk).
        rewrite idx_insert by lia. rewrite first_is_at_snoc.
        destruct (Z.eqb_spec n k) as [<- | Hne].
        -- replace w with p by congruence. rewrite Hat. fold o. by rewrite Hm1.
        -- rewrite (Hother k w Hk Hne). by apply (f_out_grow m m' paths ext ps k w F S' Ho).
    + exists m', ext. split; [done|]. split; [|done]. apply orb_false_iff in Hc as [??]. bsplit.
      split; [done | | done | done].
      intros k w Hk. rewrite first_is_at_snoc.
      rewrite (f_out_grow m m' paths ext ps k w F S' Ho Hk). f_equal.
      destruct (Z.eqb_spec n k) as [<- | Hne]; [|by rewrite (Hother k w Hk Hne)].
      replace w with p by congruence. fold o. simpl.
      by rewrite (proj2 (Z.eqb_neq o (-1))), andb_false_r by done.
Qed.

Lemma add_patterns_ok ps : forall m paths done_,
  filed m paths done_ -> zlen done_ + zlen ps < 2147483648 ->
  zlen paths + total ps < 2147483648 ->
  exists m' ext, add_patterns m (zlen done_) ps = Some m' /\
    filed m' (paths ++ ext) (done_ ++ ps) /\ zlen ext <= total ps.
Proof.
  induction ps as [|p ps IH]; intros m paths dn F Hn Ht; cbn [add_patterns total foldr] in *.
  - exists m, []. by rewrite !app_nil_r.
  - fold (total ps) in *. rewrite zlen_cons in Hn. pose proof (zlen_nonneg ps).
    assert (0 <= total ps).
    { clear. induction ps as [|q ps IH]; simpl; [done|]. pose proof (zlen_nonneg q).
      unfold total in *. lia. }
    destruct (add_pattern_ok m paths dn p) as (m1 & e1 & H1 & F1 & L1); [done | lia | lia |].
    rewrite H1. simpl.
    destruct (IH m1 (paths ++ e1) (dn ++ [p])) as (m2 & e2 & H2 & F2 & L2); [done | | |].
    { rewrite zlen_app. change (zlen [p]) with 1. lia. }
    { rewrite zlen_app. lia. }
    rewrite zlen_app in H2. change (zlen [p]) with 1 in H2.
    exists m2, (e1 ++ e2). rewrite <- !app_assoc in F2. rewrite zlen_app.
    split_and!; [done | done | lia].
Qed.

(** ** Longest suffixes *)

Definition lps (paths : list gostr) (t v : gostr) : Prop :=
  v ∈ paths /\ v `suffix_of` t /\ forall u, u ∈ paths -> u `suffix_of` t -> u `suffix_of` v.

(** [v] is still a candidate for the longest suffix of [t ++ [c]], less its
    last byte. *)
Definition cand (paths : list gostr) (v t : gostr) (c : byte) : Prop :=
  v ∈ paths /\ v `suffix_of` t /\
  forall u, u ++ [c] ∈ paths -> u `suffix_of` t -> u `suffix_of` v.

Lemma suffix_cons_split (u v : gostr) a : u `suffix_of` a :: v -> u = a :: v \/ u `suffix_of` v.
Proof. destruct u as [|b u]; [right; apply suffix_nil | apply suffix_cons_inv]. Qed.

Section Suffixes.
Context {nx : list (gmap byte Z)} {paths : list gostr} (T : trie nx paths).

Lemma lps_cand t v c : lps paths t v -> cand paths v t c.
Proof.
  intros (? & ? & H). split_and!; [done..|]. intros u Hu. apply H. by apply (t_closed _ _ T _ c).
Qed.

Lemma cand_step a v1 v t c :
  cand paths (a :: v1) t c -> a :: v1 ++ [c] ∉ paths -> lps paths v1 v -> cand paths v t c.
Proof.
  intros (Hv & Hs & Hm) Hno (Hv' & Hs' & Hm'). split_and!; [done | |].
  - trans v1; [done|]. by apply suffix_cons_l in Hs.
  - intros u Hu Hut. pose proof (Hm u Hu Hut) as Hua.
    apply suffix_cons_split in Hua as [-> | Hua]; [done|].
    apply Hm'; [|done]. by apply (t_closed _ _ T _ c).
Qed.

Lemma suffix_snoc_split (u t : gostr) c :
  u `suffix_of` t ++ [c] -> u = [] \/ exists u', u = u' ++ [c] /\ u' `suffix_of` t.
Proof.
  intros H. destruct u as [|d u' _] using rev_ind; [by left | right].
  pose proof (suffix_snoc_inv_1 _ _ _ _ H) as ->. apply suffix_snoc_inv_2 in H. eauto.
Qed.

Lemma cand_edge v t c : cand paths v t c -> v ++ [c] ∈ paths -> lps paths (t ++ [c]) (v ++ [c]).
Proof.
  intros (Hv & Hs & Hm) Hc. split_and!; [done | by apply suffix_app |].
  intros u Hu [-> | (u' & -> & Hu')]%suffix_snoc_split; [apply suffix_nil|].
  apply suffix_app. auto.
Qed.

Lemma cand_root t c : cand paths [] t c -> [c] ∉ paths -> lps paths (t ++ [c]) [].
Proof.
  intros (Hv & _ & Hm) Hc. split_and!; [done | apply suffix_nil |].
  intros u Hu [-> | (u' & -> & Hu')]%suffix_snoc_split; [apply suffix_nil|].
  pose proof (Hm u' Hu Hu') as ->%suffix_nil_inv. done.
Qed.

Lemma lps_nil : lps paths [] [].
Proof.
  split_and!; [apply path_elem; exists 0; apply (t_root _ _ T) | done | done].
Qed.
End Suffixes.

(** ** Failure links *)

Section Links.
Context {nx : list (gmap byte Z)} {em : list Z} {paths ps : list gostr} (T : trie nx paths).
Context (Hps : forall p, p ∈ ps -> p ∈ paths).

Record frame (m : acMatcher) : Prop := {
  fr_next : next m = nx;
  fr_empty : empty m = em;
  fr_fail : length (fail m) = length paths;
  fr_out : length (out m) = length paths;
  fr_root : idx (out m) 0 = Some (-1);
}.

(** The failure link and the output of a node are final. *)
Definition good (m : acMatcher) (n : Z) : Prop :=
  exists a w f v, idx paths n = Some (a :: w) /\ idx (fail m) n = Some f /\
    idx paths f = Some v /\ lps paths w v /\
    idx (out m) n = Some (first_from 0 (ends (a :: w)) ps).

(** The output of a node is what the patterns gave it. *)
Definition raw (m : acMatcher) (n : Z) : Prop :=
  exists w, idx paths n = Some w /\ idx (out m) n = Some (first_from 0 (is_at w) ps).

(** Every node short of a length is final. *)
Definition good_below (m : acMatcher) (d : nat) : Prop :=
  forall n w, idx paths n = Some w -> w <> [] -> (length w <= d)%nat -> good m n.

Lemma length_next m : frame m -> length (next m) = length paths.
Proof. intros F. rewrite (fr_next _ F). apply (t_len _ _ T). Qed.

Lemma path_short n w : idx paths n = Some w -> (length w < length paths)%nat.
Proof.
  (* every prefix of a path is a path *)
  intros Hn. assert (Hpre : forall k, (k <= length w)%nat -> take k w ∈ paths).
  { apply path_elem_idx in Hn as Hw. clear Hn. induction w as [|c w IH] using rev_ind.
    - intros k _. by rewrite take_nil.
    - intros k Hk. rewrite length_app in Hk. simpl in Hk.
      destruct (decide (k <= length w)%nat).
      + rewrite take_app_le by done. apply IH; [by apply (t_closed _ _ T _ c) | done].
      + by rewrite take_ge by (rewrite length_app; simpl; lia). }
  assert (Hnd : NoDup ((fun k => take k w) <$> seq 0 (S (length w)))).
  { apply NoDup_fmap_2_strong; [|apply NoDup_seq].
    intros i j Hi%elem_of_seq Hj%elem_of_seq He.
    apply (f_equal length) in He. rewrite !length_take in He. lia. }
  pose proof (submseteq_length _ _ (NoDup_submseteq _ paths Hnd
    ltac:(intros x (k & -> & Hk%elem_of_seq)%list_elem_of_fmap; apply Hpre; lia))) as Hl.
  rewrite length_fmap, length_seq in Hl. lia.
Qed.

Lemma good_fail m n a w : frame m -> good m n -> idx paths n = Some (a :: w) ->
  exists f v, idx (fail m) n = Some f /\ idx paths f = Some v /\ lps paths w v.
Proof. intros F (a' & w' & f & v & Hn & ? & ? & ? & _) Hn'. naive_solver. Qed.

(** Where the climb for an edge on [c] can end. *)
Definition landed (f : Z) (v t : gostr) (c : byte) : Prop :=
  idx paths f = Some v /\ cand paths v t c /\ (v = [] \/ v ++ [c] ∈ paths).

Lemma climb_ok fuel : forall m f v t c,
  frame m -> idx paths f = Some v -> cand paths v t c -> good_below m (length v) ->
  (length v < fuel)%nat ->
  exists f' v', climb fuel m f c = Some f' /\ landed f' v' t c.
Proof.
  induction fuel as [|fuel IH]; intros m f v t c F Hf Hc Hg Hl; [lia|]. cbn [climb].
  destruct (Z.eqb_spec f 0) as [-> | Hne].
  { pose proof (trie_root_path T _ Hf) as ->. exists 0, []. split; [done|]. split_and!; auto. }
  destruct v as [|a v1]; [by destruct Hne; apply (trie_root_id T)|].
  destruct (trie_idx T _ _ Hf) as [mp Hmp]. rewrite (fr_next _ F), Hmp. simpl.
  destruct (mp !! c) as [z|] eqn:Hz.
  - exists f, (a :: v1). split; [done|]. split_and!; auto. right.
    apply (t_edge _ _ T f (a :: v1) mp) in Hz; eauto.
  - destruct (good_fail m f a v1 F) as (f' & v' & Hf' & Hv' & Hlps);
      [by apply (Hg f (a :: v1)) | done |].
    rewrite Hf'. simpl.
    assert (Hlen : (length v' <= length v1)%nat) by (apply suffix_length, Hlps).
    simpl in Hl, Hg. apply (IH m f' v'); [done | done | | | lia].
    + apply (cand_step T a v1); [done | | done]. by apply (trie_no_edge T f (a :: v1) mp c).
    + intros k w Hk Hw Hkl. apply (Hg k w); [done..|lia].
Qed.

(** The node after a landing. *)
Lemma landed_edge f v t c mp z :
  landed f v t c -> idx nx f = Some mp -> mp !! c = Some z ->
  idx paths z = Some (v ++ [c]) /\ lps paths (t ++ [c]) (v ++ [c]).
Proof.
  intros (Hf & Hc & _) Hmp Hz. apply (t_edge _ _ T f v mp c z Hf Hmp) in Hz.
  split; [done|]. apply cand_edge; eauto.
Qed.

Lemma landed_root f v t c mp :
  landed f v t c -> idx nx f = Some mp -> mp !! c = None ->
  f = 0 /\ lps paths (t ++ [c]) [].
Proof.
  intros (Hf & Hc & Hv) Hmp Hz. pose proof (trie_no_edge T _ _ _ _ Hf Hmp Hz).
  destruct Hv as [-> | Hv]; [|done]. split; [by apply (trie_root_id T) | by apply cand_root].
Qed.

(** A pattern ends at a node when it is its text, or ends at its failure. *)
Lemma ends_fail a w v :
  lps paths w v ->
  first_from 0 (ends (a :: w)) ps =
  better (first_from 0 (is_at (a :: w)) ps) (first_from 0 (ends v) ps).
Proof.
  intros (Hv & Hs & Hm). rewrite better_first by done. apply first_from_ext.
  intros p Hp. unfold ends, is_at. destruct (bytes_eqb p []) eqn:Hnil.
  { by rewrite !andb_false_r. }
  rewrite !andb_true_r. apply eq_true_iff_eq.
  rewrite orb_true_iff, !bool_decide_eq_true, bytes_eqb_spec. split.
  - intros [-> | H]%suffix_cons_split; [by left | right]. auto.
  - intros [-> | H]; [done|]. apply suffix_cons_r. by trans v.
Qed.

Lemma ends_root : first_from 0 (ends []) ps = -1.
Proof.
  rewrite <- (first_from_none ps 0). apply first_from_ext. intros p _. unfold ends.
  destruct p as [|a p]; [done|]. rewrite bool_decide_eq_false_2; [done|].
  apply suffix_cons_nil_inv.
Qed.

Lemma out_of m f v :
  frame m -> idx paths f = Some v -> good_below m (length v) ->
  idx (out m) f = Some (first_from 0 (ends v) ps).
Proof.
  intros F Hf Hg. destruct v as [|a v].
  - pose proof (trie_root_id T f Hf) as ->. rewrite ends_root. apply F.
  - destruct (Hg f (a :: v)) as (a' & w' & ? & ? & Hn & _ & _ & _ & Ho); [done..|].
    naive_solver.
Qed.

(** [m'] differs from [m] at most in what it holds for the nodes [S]. *)
Definition same_but (S : list Z) (m m' : acMatcher) : Prop :=
  forall k, k ∉ S -> idx (fail m') k = idx (fail m) k /\ idx (out m') k = idx (out m) k.

Lemma same_but_app S S' m m' m'' :
  same_but S m m' -> same_but S' m' m'' -> same_but (S ++ S') m m''.
Proof.
  intros H H' k [Hk Hk']%not_elem_of_app. destruct (H k Hk), (H' k Hk'). split; congruence.
Qed.

Lemma good_same S m m' k : same_but S m m' -> k ∉ S -> good m k -> good m' k.
Proof.
  intros Hs Hk (a & w & f & v & ? & ? & ? & ? & ?). destruct (Hs k Hk) as [Hf Ho].
  exists a, w, f, v. rewrite Hf, Ho. done.
Qed.

Lemma raw_same S m m' k : same_but S m m' -> k ∉ S -> raw m k -> raw m' k.
Proof. intros Hs Hk (w & ? & ?). destruct (Hs k Hk) as [_ Ho]. exists w. by rewrite Ho. Qed.

Lemma good_below_same n x m m' d :
  same_but [n] m m' -> idx paths n = Some x -> (d < length x)%nat -> good_below m d -> good_below m' d.
Proof.
  intros Hs Hn Hd Hg k w Hk Hw Hkl. eapply good_same; [done | | by eapply Hg].
  intros ->%list_elem_of_singleton. assert (w = x) as -> by congruence. lia.
Qed.

Lemma good_below_le m d d' : (d' <= d)%nat -> good_below m d -> good_below m d'.
Proof. intros Hd Hg n w ???. apply (Hg n w); [done..|lia]. Qed.

(** The failure link [link] computes. *)
Lemma link_target m cur n a w c f v mp :
  landed f v w c -> idx paths cur = Some (a :: w) -> idx paths n = Some (a :: w ++ [c]) ->
  idx nx f = Some mp -> frame m ->
  exists x, lps paths (w ++ [c]) x /\ (length x <= length (a :: w))%nat /\
    idx paths (match mp !! c with Some nf => if nf =? n then 0 else nf | None => 0 end) = Some x.
Proof.
  intros L Hcur Hn Hmp F.
  assert (Hlen : (length v <= length w)%nat) by (apply suffix_length, L).
  destruct (mp !! c) as [nf|] eqn:Hc.
  - destruct (landed_edge _ _ _ _ _ _ L Hmp Hc) as [Hnf Hl].
    exists (v ++ [c]). split_and!; [done | rewrite length_app; simpl; lia |].
    rewrite (proj2 (Z.eqb_neq nf n)); [done|].
    intros ->. rewrite Hn in Hnf. injection Hnf as He.
    apply (f_equal length) in He. simpl in He. rewrite !length_app in He. simpl in He. lia.
  - destruct (landed_root _ _ _ _ _ L Hmp Hc) as [_ Hl].
    exists []. split_and!; [done | simpl; lia | apply (t_root _ _ T)].
Qed.

Lemma link_ok m cur c n a w :
  frame m -> idx paths cur = Some (a :: w) -> idx paths n = Some (a :: w ++ [c]) ->
  good_below m (length (a :: w)) -> raw m n ->
  exists m', link m cur c n = Some m' /\ frame m' /\ good m' n /\ same_but [n] m m'.
Proof.
  intros F Hcur Hn Hg (x & Hx & Hraw). assert (x = a :: w ++ [c]) as -> by congruence.
  destruct (good_fail m cur a w F (Hg cur _ Hcur ltac:(done) ltac:(lia)) Hcur)
    as (f0 & v0 & Hf0 & Hv0 & Hl0).
  assert (Hlen0 : (length v0 <= length w)%nat) by (apply suffix_length, Hl0).
  pose proof (path_short _ _ Hv0).
  destruct (climb_ok (S (length (next m))) m f0 v0 w c F Hv0 (lps_cand T _ _ _ Hl0))
    as (f & v & Hcl & L); [apply (good_below_le m (length (a :: w))); [simpl; lia | done] | rewrite length_next; [lia | done] |].
  destruct (trie_idx T _ _ (proj1 L)) as [mp Hmp].
  destruct (link_target m cur n a w c f v mp L Hcur Hn Hmp F) as (y & Hly & Hyl & Hfn).
  unfold link. rewrite Hf0. cbn [mbind option_bind]. rewrite Hcl. simpl.
  rewrite (fr_next _ F), Hmp. simpl.
  set (fn := match mp !! c with Some nf => _ | None => _ end) in *.
  pose proof (idx_range _ _ _ Hn) as Hnr.
  assert (Hlf : zlen (fail m) = zlen paths) by (unfold zlen; by rewrite (fr_fail _ F)).
  assert (Hlo : zlen (out m) = zlen paths) by (unfold zlen; by rewrite (fr_out _ F)).
  assert (Hn0 : n <> 0) by (intros ->; rewrite (t_root _ _ T) in Hn; congruence).
  rewrite upd_Some by lia. simpl.
  rewrite (out_of m fn y F Hfn (good_below_le _ _ _ Hyl Hg)), Hraw. simpl.
  set (o := first_from 0 (ends y) ps). set (on := first_from 0 (is_at (a :: w ++ [c])) ps).
  assert (Hbest : better on o = first_from 0 (ends (a :: w ++ [c])) ps).
  { symmetry. by apply ends_fail. }
  assert (Hgood : forall m', fail m' = <[Z.to_nat n := fn]> (fail m) ->
            idx (out m') n = Some (better on o) -> good m' n).
  { intros m' Hf' Ho'. exists a, (w ++ [c]), fn, y. rewrite Hf', Ho', <- Hbest.
    split_and!; try done. rewrite idx_insert by lia. by rewrite Z.eqb_refl. }
  unfold better in Hgood, Hbest. break_if.
  - rewrite upd_Some by lia. simpl. eexists. split; [done|]. split_and!.
    + destruct F. split; simpl; rewrite ?length_insert; try done.
      rewrite idx_insert by lia. rewrite (proj2 (Z.eqb_neq n 0)) by done. done.
    + apply Hgood; [done|]. simpl. rewrite idx_insert by lia. by rewrite Z.eqb_refl.
    + intros k Hk%not_elem_of_cons. simpl. rewrite !idx_insert by lia. by rewrite (proj2 (Z.eqb_neq n k)) by (intros ->; by destruct Hk).
  - eexists. split; [done|]. split_and!.
    + destruct F. split; simpl; rewrite ?length_insert; done.
    + by apply Hgood.
    + intros k Hk%not_elem_of_cons. simpl. rewrite idx_insert by lia. by rewrite (proj2 (Z.eqb_neq n k)) by (intros ->; by destruct Hk).
Qed.

Lemma link_all_ok es : forall m cur a w,
  frame m -> idx paths cur = Some (a :: w) -> good_below m (length (a :: w)) ->
  NoDup es.*2 -> (forall c n, (c, n) ∈ es -> idx paths n = Some (a :: w ++ [c])) ->
  (forall n, n ∈ es.*2 -> raw m n) ->
  exists m', link_all m cur es = Some m' /\ frame m' /\
    (forall n, n ∈ es.*2 -> good m' n) /\ same_but es.*2 m m'.
Proof.
  induction es as [|[c n] es IH]; intros m cur a w F Hcur Hg Hnd Hes Hraw; cbn [link_all].
  - exists m. split_and!; [done.. | | done]. intros n Hn. by apply not_elem_of_nil in Hn.
  - rewrite fmap_cons in *. simpl in Hnd, Hraw |- *. apply NoDup_cons in Hnd as [Hnew Hnd].
    assert (Hn : idx paths n = Some (a :: w ++ [c])) by (apply Hes; left).
    destruct (link_ok m cur c n a w F Hcur Hn Hg) as (m1 & -> & F1 & G1 & S1); [apply Hraw; left|].
    simpl. destruct (IH m1 cur a w F1 Hcur) as (m2 & -> & F2 & G2 & S2); [|done| | |].
    { eapply good_below_same; [done | done | | done]. simpl. rewrite length_app. simpl. lia. }
    { intros d k Hk. apply Hes. by right. }
    { intros k Hk. eapply raw_same; [done | | apply Hraw; by right].
      intros ->%list_elem_of_singleton. done. }
    exists m2. split_and!; [done | done | |].
    + intros k [-> | Hk]%elem_of_cons; [by eapply good_same | by apply G2].
    + apply (same_but_app [n] _ _ _ _ S1 S2).
Qed.

Lemma link_roots_ok es : forall m,
  frame m -> (forall c n, (c, n) ∈ es -> idx paths n = Some [c]) ->
  (forall n, n ∈ es.*2 -> raw m n) ->
  exists m', link_roots m es = Some m' /\ frame m' /\
    (forall n, n ∈ es.*2 -> good m' n) /\ same_but es.*2 m m'.
Proof.
  induction es as [|[c n] es IH]; intros m F Hes Hraw; cbn [link_roots].
  - exists m. split_and!; [done.. | | done]. intros n Hn. by apply not_elem_of_nil in Hn.
  - rewrite fmap_cons in *. simpl in Hraw |- *.
    assert (Hn : idx paths n = Some [c]) by (apply Hes; left).
    assert (Hlf : zlen (fail m) = zlen paths) by (unfold zlen; by rewrite (fr_fail _ F)).
    pose proof (idx_range _ _ _ Hn).
    rewrite upd_Some by lia. simpl.
    set (m1 := AC _ _ _ _).
    assert (S1 : same_but [n] m m1).
    { intros k Hk%not_elem_of_cons. simpl. rewrite idx_insert by lia.
      by rewrite (proj2 (Z.eqb_neq n k)) by (intros ->; by destruct Hk). }
    assert (F1 : frame m1).
    { destruct F. split; simpl; rewrite ?length_insert; done. }
    destruct (Hraw n) as (x & Hx & Ho); [left|]. assert (x = [c]) as -> by congruence.
    assert (G1 : forall m', idx (fail m') n = Some 0 -> idx (out m') n = idx (out m) n -> good m' n).
    { intros m' Hf' Ho'. exists c, [], 0, []. split_and!; [done | done | apply (t_root _ _ T) | by eapply lps_nil |].
      rewrite Ho', Ho, (ends_fail c [] []), ends_root by (by eapply lps_nil). done. }
    destruct (IH m1 F1) as (m2 & -> & F2 & G2 & S2).
    { intros d k Hk. apply Hes. by right. }
    { intros k Hk. destruct (Hraw k) as (y & ? & ?); [by right|]. by exists y. }
    exists m2. split_and!; [done | done | | apply (same_but_app [n] _ _ _ _ S1 S2)].
    intros k [-> | Hk]%elem_of_cons; [|by apply G2].
    destruct (decide (n ∈ es.*2)) as [Hin | Hout]; [by apply G2|].
    destruct (S2 n Hout) as [Hf2 Ho2]. apply G1; [|by rewrite Ho2].
    rewrite Hf2. simpl. rewrite idx_insert by lia. by rewrite Z.eqb_refl.
Qed.

(** ** The breadth-first pass *)

Definition depth (n : Z) : nat := length (default [] (idx paths n)).
Definition shallower (x y : Z) : Prop := (depth x <= depth y)%nat.

Lemma depth_at n w : idx paths n = Some w -> depth n = length w.
Proof. intros H. unfold depth. by rewrite H. Qed.

Record walking (m : acMatcher) (vis queue : list Z) : Prop := {
  w_frame : frame m;
  w_nodup : NoDup (vis ++ queue);
  w_good : forall n, n ∈ vis ++ queue -> good m n;
  w_raw : forall n w, idx paths n = Some w -> w <> [] -> n ∉ vis ++ queue -> raw m n;
  w_roots : forall n c, idx paths n = Some [c] -> n ∈ vis ++ queue;
  w_closed : forall v w n c, v ∈ vis -> idx paths v = Some w ->
    idx paths n = Some (w ++ [c]) -> n ∈ vis ++ queue;
  w_parent : forall n w c, n ∈ vis ++ queue -> w <> [] -> idx paths n = Some (w ++ [c]) ->
    exists v, v ∈ vis /\ idx paths v = Some w;
  w_sorted : StronglySorted shallower queue;
  w_level : forall cur rest, queue = cur :: rest -> forall q, q ∈ queue -> (depth q <= S (depth cur))%nat;
}.

(** Whatever is no deeper than the head of the queue is queued. *)
Lemma walking_below m vis cur rest a w :
  walking m vis (cur :: rest) -> idx paths cur = Some (a :: w) ->
  good_below m (length (a :: w)).
Proof.
  intros W Hcur. enough (Hin : forall x k, idx paths k = Some x -> x <> [] ->
    (length x <= length (a :: w))%nat -> k ∈ vis ++ cur :: rest).
  { intros k x Hk Hx Hl. apply (w_good _ _ _ W). by apply (Hin x). }
  induction x as [|c x IH] using rev_ind; intros k Hk Hx Hl; [done|].
  destruct x as [|b x'].
  { by apply (w_roots _ _ _ W k c). }
  rewrite length_app in Hl. simpl length in Hl.
  assert (Hpre : b :: x' ∈ paths) by (apply (t_closed _ _ T _ c); eauto).
  apply path_elem in Hpre as [k' Hk'].
  assert (Hin : k' ∈ vis ++ cur :: rest) by (apply IH; [done | done | simpl; lia]).
  apply elem_of_app in Hin as [Hv | Hq].
  - by apply (w_closed _ _ _ W k' (b :: x') k c).
  - exfalso. pose proof (w_sorted _ _ _ W) as Hs. apply StronglySorted_inv in Hs as [_ Hs].
    assert (Hd : (length (a :: w) <= length (b :: x'))%nat).
    { rewrite <- (depth_at _ _ Hcur), <- (depth_at _ _ Hk').
      apply elem_of_cons in Hq as [-> | Hq]; [done|].
      by apply (proj1 (Forall_forall _ _) Hs). }
    simpl in Hd. lia.
Qed.

Lemma walking_len m vis queue : walking m vis queue -> (length (vis ++ queue) <= length paths)%nat.
Proof.
  intros W.
  assert (Hnd : NoDup ((fun n => default [] (idx paths n)) <$> (vis ++ queue))).
  { apply NoDup_fmap_2_strong; [|apply W]. intros x y Hx Hy.
    destruct (w_good _ _ _ W x Hx) as (? & ? & ? & ? & Hpx & _).
    destruct (w_good _ _ _ W y Hy) as (? & ? & ? & ? & Hpy & _).
    rewrite Hpx, Hpy. simpl. intros He. rewrite He in Hpx. eapply path_uniq; eauto. }
  apply (NoDup_submseteq _ paths) in Hnd.
  - apply submseteq_length in Hnd. by rewrite length_fmap in Hnd.
  - intros x (n & -> & Hn)%list_elem_of_fmap.
    destruct (w_good _ _ _ W n Hn) as (? & ? & ? & ? & Hpn & _). rewrite Hpn. simpl. eauto.
Qed.

(** At the end of the queue every node has been reached. *)
Lemma walking_done m vis : walking m vis [] ->
  forall n w, idx paths n = Some w -> w <> [] -> good m n.
Proof.
  intros W. enough (Hin : forall w n, idx paths n = Some w -> w <> [] -> n ∈ vis ++ []).
  { intros n w Hn Hw. apply (w_good _ _ _ W). eauto. }
  induction w as [|c w IH] using rev_ind; intros n Hn Hw; [done|].
  destruct w as [|b w']; [by apply (w_roots _ _ _ W n c)|].
  assert (Hpre : b :: w' ∈ paths) by (apply (t_closed _ _ T _ c); eauto).
  apply path_elem in Hpre as [k Hk].
  assert (Hkv : k ∈ vis) by (rewrite <- (app_nil_r vis); by apply IH).
  by apply (w_closed _ _ _ W k (b :: w') n c).
Qed.

Section Iter.
Context (iter : gmap byte Z -> list (byte * Z)).
Context (iter_perm : forall mp, iter mp ≡ₚ map_to_list mp).

Lemma iter_elem mp c n : (c, n) ∈ iter mp <-> mp !! c = Some n.
Proof. by rewrite iter_perm, elem_of_map_to_list. Qed.

Lemma iter_children cur w mp n :
  idx paths cur = Some w -> idx nx cur = Some mp ->
  n ∈ (iter mp).*2 <-> exists c, idx paths n = Some (w ++ [c]).
Proof.
  intros Hcur Hmp. rewrite list_elem_of_fmap. split.
  - intros ([c k] & -> & He%iter_elem). exists c. by apply (t_edge _ _ T cur w mp c k).
  - intros [c Hn]. exists (c, n). split; [done|]. apply iter_elem. by apply (t_edge _ _ T cur w mp c n).
Qed.

Lemma iter_nodup cur w mp :
  idx paths cur = Some w -> idx nx cur = Some mp -> NoDup (iter mp).*2.
Proof.
  intros Hcur Hmp. apply NoDup_fmap_2_strong.
  - intros [c n] [d k] Hc%iter_elem Hd%iter_elem. simpl. intros ->.
    apply (t_edge _ _ T cur w mp) in Hc, Hd; [|done..].
    rewrite Hc in Hd. injection Hd as Hd. apply app_inj_2 in Hd; [|done]. naive_solver.
  - rewrite iter_perm. apply NoDup_map_to_list.
Qed.

Lemma walking_step m vis cur rest mp :
  walking m vis (cur :: rest) -> idx nx cur = Some mp ->
  exists m', link_all m cur (iter mp) = Some m' /\
    walking m' (vis ++ [cur]) (rest ++ (iter mp).*2).
Proof.
  intros W Hmp. pose proof (w_nodup _ _ _ W) as Hnd.
  destruct (w_good _ _ _ W cur) as (a & w & _ & _ & Hcur & _); [set_solver|].
  pose proof (walking_below _ _ _ _ _ _ W Hcur) as Hbelow.
  pose proof (fun n => iter_children cur _ mp n Hcur Hmp) as Hch.
  pose proof (iter_nodup _ _ _ Hcur Hmp) as Hend.
  set (es := iter mp) in *.
  assert (Hfresh : forall n, n ∈ es.*2 -> n ∉ vis ++ cur :: rest).
  { intros n [c Hn]%Hch Hin.
    destruct (w_parent _ _ _ W n (a :: w) c Hin ltac:(done) Hn) as (v & Hv & Hvp).
    assert (v = cur) as -> by (eapply path_uniq; eauto).
    apply NoDup_app in Hnd as (_ & Hdisj & _). apply (Hdisj cur Hv). left. }
  destruct (link_all_ok es m cur a w) as (m' & Hm' & F' & G' & S'); [apply W | done | done | done | | |].
  { intros c n He. apply (t_edge _ _ T cur (a :: w) mp c n); [done..|]. by apply iter_elem. }
  { intros n He. destruct (proj1 (Hch n) He) as [c Hn].
    apply (w_raw _ _ _ W n _ Hn); [done | by apply Hfresh]. }
  exists m'. split; [done|].
  assert (Hord : forall n, n ∈ (vis ++ [cur]) ++ rest ++ es.*2 <-> n ∈ vis ++ cur :: rest \/ n ∈ es.*2)
    by set_solver.
  assert (Hdeep : forall n, n ∈ es.*2 -> depth n = S (depth cur)).
  { intros n [c Hn]%Hch. rewrite (depth_at _ _ Hn), (depth_at _ _ Hcur), length_app. simpl. lia. }
  pose proof (w_level _ _ _ W cur rest eq_refl) as Hlev.
  pose proof (w_sorted _ _ _ W) as [Hfa Hsrt]%StronglySorted_cons.
  split.
  - done.
  - rewrite <- app_assoc. simpl. rewrite app_comm_cons, app_assoc.
    apply NoDup_app. split_and!; [done | | done].
    intros n Hn He. by apply (Hfresh n He).
  - intros n [Hn | Hn]%Hord; [|by apply G'].
    apply (good_same es.*2 m); [done | | by apply (w_good _ _ _ W)].
    intros He. by apply (Hfresh n He).
  - intros n x Hn Hx Hout. apply (raw_same es.*2 m); [done | |].
    + intros He. apply Hout, Hord. by right.
    + apply (w_raw _ _ _ W n x Hn Hx). intros Hin. apply Hout, Hord. by left.
  - intros n c Hn. apply Hord. left. by apply (w_roots _ _ _ W n c).
  - intros v x n c Hv Hx Hn. apply Hord.
    apply elem_of_app in Hv as [Hv | ->%list_elem_of_singleton].
    + left. by apply (w_closed _ _ _ W v x n c).
    + right. apply Hch. exists c. congruence.
  - intros n x c Hin Hx Hn. apply Hord in Hin as [Hin | He].
    + destruct (w_parent _ _ _ W n x c Hin Hx Hn) as (v & ? & ?). exists v. set_solver.
    + apply Hch in He as [d Hd]. exists cur. split; [set_solver|].
      rewrite Hn in Hd. injection Hd as Hd.
      change (a :: w ++ [d]) with ((a :: w) ++ [d]) in Hd.
      apply app_inj_2 in Hd; [|done]. destruct Hd as [-> _]. done.
  - apply StronglySorted_app. split_and!; [| done |].
    + intros x y Hx Hy. unfold shallower. rewrite (Hdeep y Hy). apply Hlev. by right.
    + assert (Hall : forall x, x ∈ es.*2 -> depth x = S (depth cur)) by done.
      clear -Hall. induction es.*2 as [|x l IH]; constructor.
      * apply IH. intros y Hy. apply Hall. by right.
      * apply Forall_forall. intros y Hy. unfold shallower.
        rewrite (Hall x), (Hall y) by (by (left || right)). done.
  - intros cur' rest' He q Hq.
    assert (Hge : (depth cur <= depth cur')%nat).
    { assert (Hin : cur' ∈ rest ++ es.*2) by (rewrite He; left).
      apply elem_of_app in Hin as [Hin | Hin].
      - by apply (proj1 (Forall_forall _ _) Hfa).
      - rewrite (Hdeep _ Hin). lia. }
    apply elem_of_app in Hq as [Hq | Hq].
    + specialize (Hlev q ltac:(by right)). lia.
    + rewrite (Hdeep _ Hq). lia.
Qed.

Lemma bfs_ok fuel : forall m vis queue,
  walking m vis queue -> (length paths <= length vis + fuel)%nat ->
  exists m', bfs iter fuel m queue = Some m' /\ frame m' /\
    forall n w, idx paths n = Some w -> w <> [] -> good m' n.
Proof.
  induction fuel as [|fuel IH]; intros m vis queue W Hl;
    pose proof (walking_len _ _ _ W) as Hlen; rewrite length_app in Hlen;
    (destruct queue as [|cur rest];
      [exists m; split_and!; [done | apply W | by apply (walking_done m vis)] |]).
  - simpl in Hlen. lia.
  - cbn [bfs]. destruct (w_good _ _ _ W cur) as (a & w & _ & _ & Hcur & _); [set_solver|].
    destruct (trie_idx T _ _ Hcur) as [mp Hmp].
    rewrite (fr_next _ (w_frame _ _ _ W)), Hmp. simpl.
    destruct (walking_step _ _ _ _ _ W Hmp) as (m' & -> & W'). simpl.
    apply (IH m' (vis ++ [cur])); [done|]. rewrite length_app. simpl. lia.
Qed.
End Iter.

(** ** The scan *)

Lemma goto_ok fuel : forall m f v t c,
  frame m -> (forall n w, idx paths n = Some w -> w <> [] -> good m n) ->
  idx paths f = Some v -> cand paths v t c -> (length v < fuel)%nat ->
  exists f' v', goto fuel m f c = Some f' /\ idx paths f' = Some v' /\ lps paths (t ++ [c]) v'.
Proof.
  induction fuel as [|fuel IH]; intros m f v t c F Hg Hf Hc Hl; [lia|]. cbn [goto].
  destruct (trie_idx T _ _ Hf) as [mp Hmp]. rewrite (fr_next _ F), Hmp. simpl.
  destruct (mp !! c) as [z|] eqn:Hz.
  - apply (t_edge _ _ T f v mp) in Hz; [|done..].
    exists z, (v ++ [c]). split_and!; [done..|]. apply cand_edge; eauto.
  - pose proof (trie_no_edge T f v mp c Hf Hmp Hz) as Hno.
    destruct (Z.eqb_spec f 0) as [-> | Hne].
    + pose proof (trie_root_path T _ Hf) as ->. exists 0, [].
      split_and!; [done..|]. by apply cand_root.
    + destruct v as [|a v1]; [by destruct Hne; apply (trie_root_id T)|].
      destruct (good_fail m f a v1 F) as (f' & v' & Hf' & Hv' & Hlps); [by eapply Hg | done |].
      rewrite Hf'. simpl. apply (IH m f' v'); [done..| |].
      * apply (cand_step T a v1); done.
      * assert (length v' <= length v1)%nat by (apply suffix_length, Hlps). simpl in Hl. lia.
Qed.

(** The literals of the patterns that occur in a text, as its bytes come. *)
Lemma Contains_nil p : Contains [] p = is_nil p.
Proof. apply eq_true_iff_eq. destruct p; done. Qed.

Lemma Contains_snoc t c p : Contains (t ++ [c]) p = Contains t p || ends (t ++ [c]) p.
Proof.
  apply eq_true_iff_eq. unfold ends.
  rewrite orb_true_iff, andb_true_iff, bool_decide_eq_true, !Contains_spec. split.
  - intros (a & b & H). destruct b as [|d b _] using rev_ind.
    + rewrite app_nil_r in H. destruct p as [|x p]; [left; by exists [], t|].
      right. split; [|done]. by exists a.
    + left. rewrite !app_assoc in H. apply app_inj_2 in H; [|done]. destruct H as [-> _].
      exists a, b. by rewrite app_assoc.
  - intros [(a & b & ->) | [[k ->] _]].
    + exists a, (b ++ [c]). by rewrite !app_assoc.
    + exists k, []. by rewrite app_nil_r.
Qed.

(** At the longest suffix of the text, the output is the best pattern that
    ends with the text. *)
Lemma ends_lps t v : lps paths t v -> first_from 0 (ends v) ps = first_from 0 (ends t) ps.
Proof.
  intros (Hv & Hs & Hm). apply first_from_ext. intros p Hp. unfold ends.
  f_equal. apply eq_true_iff_eq. rewrite !bool_decide_eq_true.
  split; [intros; by trans v | auto].
Qed.

Lemma scan_ok s : forall m node v t,
  frame m -> (forall n w, idx paths n = Some w -> w <> [] -> good m n) ->
  idx paths node = Some v -> lps paths t v ->
  scan m node (first_from 0 (Contains t) ps) s = Some (first_from 0 (Contains (t ++ s)) ps).
Proof.
  induction s as [|c s IH]; intros m node v t F Hg Hn Hl; cbn [scan]; [by rewrite app_nil_r|].
  destruct (goto_ok (S (length (next m))) m node v t c F Hg Hn (lps_cand T _ _ _ Hl))
    as (f & x & -> & Hf & Hx).
  { rewrite length_next by done. pose proof (path_short _ _ Hn). lia. }
  cbn [mbind option_bind].
  rewrite (out_of m f x F Hf ltac:(intros k w Hk Hw _; by eapply Hg)).
  cbn [mbind option_bind]. rewrite (ends_lps _ _ Hx).
  set (b := first_from 0 (Contains t) ps). set (o := first_from 0 (ends (t ++ [c])) ps).
  assert (Hb : better b o = first_from 0 (Contains (t ++ [c])) ps).
  { unfold b, o. rewrite better_first by done. apply first_from_ext.
    intros p _. by rewrite Contains_snoc. }
  specialize (IH m f x (t ++ [c]) F Hg Hf Hx). rewrite <- Hb in IH.
  replace (t ++ c :: s) with ((t ++ [c]) ++ s) by (by rewrite <- app_assoc).
  unfold better in IH, Hb. break_if; [|done].
  destruct (Z.eqb_spec o 0) as [Ho | _]; [|done]. f_equal. symmetry.
  apply (first_from_zero (Contains (t ++ [c]))); [|congruence].
  intros p (k & l & ->)%Contains_spec. apply Contains_spec. exists k, (l ++ s).
  by rewrite !app_assoc.
Qed.
End Links.

(** ** The matcher *)

Lemma FirstIndex_newACMatcher iter ps s :
  (forall mp, iter mp ≡ₚ map_to_list mp) ->
  zlen ps < 2147483648 -> 1 + total ps < 2147483648 ->
  (m ← newACMatcher iter ps; FirstIndex m s) = Some (linear_scan ps s).
Proof.
  intros Hiter Hn Ht.
  assert (F0 : filed empty_matcher [[]] []).
  { split; simpl.
    - split; simpl; [|done..]. split; [done | apply NoDup_singleton | done | |].
      + intros n w mp c z _ [_ ->]%idx_singleton. rewrite lookup_empty.
        split; [done|]. intros [_ Hz]%idx_singleton. by destruct w.
      + intros w c H%list_elem_of_singleton. by destruct w.
    - intros n w [-> ->]%idx_singleton. done.
    - done.
    - intros p H. by apply not_elem_of_nil in H. }
  destruct (add_patterns_ok ps empty_matcher [[]] [] F0) as (m & ext & Hadd & F & Hext);
    [done | done |].
  change (zlen (@nil gostr)) with 0 in Hadd.
  unfold newACMatcher. rewrite Hadd. cbn [mbind option_bind].
  simpl in F. set (paths := [] :: ext) in *.
  destruct F as [[T Hf Ho] Fo Fe Fp].
  assert (Hroot : idx (out m) 0 = Some (-1)).
  { rewrite (Fo 0 [] (t_root _ _ T)), <- (first_from_none ps 0). f_equal.
    apply first_from_ext. intros p _. unfold is_at. by destruct (bytes_eqb p []). }
  assert (FR : frame (nx := next m) (em := empty m) (paths := paths) m) by (by split).
  destruct (trie_idx T 0 [] (t_root _ _ T)) as [root Hmp]. rewrite Hmp. cbn [mbind option_bind].
  assert (Hraw : forall n w, idx paths n = Some w -> raw (paths := paths) (ps := ps) m n).
  { intros n w Hnw. exists w. auto. }
  pose proof (fun n => iter_children T iter Hiter 0 [] root n (t_root _ _ T) Hmp) as Hch.
  destruct (link_roots_ok T Fp (iter root) m FR) as (m1 & -> & F1 & G1 & S1).
  { intros c n He. apply (t_edge _ _ T 0 [] root c n (t_root _ _ T) Hmp).
    by rewrite Hiter, elem_of_map_to_list in He. }
  { intros n [c Hnc]%Hch. by eapply Hraw. }
  cbn [mbind option_bind].
  destruct (bfs_ok (em := empty m) T Fp iter Hiter (length (next m1)) m1 [] (iter root).*2) as (m2 & -> & F2 & G2).
  { split; simpl.
    - done.
    - by apply (iter_nodup T iter Hiter 0 [] root (t_root _ _ T)).
    - done.
    - intros n w Hnw _ Hout. by eapply raw_same, Hraw.
    - intros n c Hnc. apply Hch. by exists c.
    - intros v w n c Hv. by apply not_elem_of_nil in Hv.
    - intros n w c Hin Hw Hnw. apply Hch in Hin as [d Hd]. rewrite Hnw in Hd.
      injection Hd as Hd. by destruct w as [|x [|]].
    - assert (Hone : forall n, n ∈ (iter root).*2 -> depth (paths := paths) n = 1%nat).
      { intros n [c Hnc]%Hch. by rewrite (depth_at n [c]). }
      clear -Hone. induction (iter root).*2 as [|x l IH]; constructor.
      + apply IH. intros y Hy. apply Hone. by right.
      + apply Forall_forall. intros y Hy. unfold shallower.
        rewrite (Hone x), (Hone y) by (by (left || right)). done.
    - intros cur rest Hq q Hin. rewrite Hq in Hin.
      assert (Hq1 : q ∈ (iter root).*2) by (by rewrite Hq).
      apply Hch in Hq1 as [c Hc]. rewrite (depth_at q [c]) by done. simpl. lia. }
  { rewrite (length_next T m1 F1). done. }
  cbn [mbind option_bind]. unfold FirstIndex, linear_scan.
  rewrite (fr_empty _ F2), Fe.
  rewrite (first_from_ext is_nil (Contains [])) by (intros p _; by rewrite Contains_nil).
  by rewrite (scan_ok T Fp s m2 0 [] [] F2 G2 (t_root _ _ T) (lps_nil T)).
Qed.
