(* ===== verification/ExtractHistogram.v ===== *)
(** * Histograms ([pkg/extract/histogram.go], and the bucket sets of
    [spec.go])

    A bucket set is checked when the specification is compiled: its edges
    are finite and ascending ([compile]), and the columns it writes are
    distinct ([check_columns], the part of [Profile.compile] for one bucket
    set).  [expand] turns a payload into one field per bucket it carried,
    then the tail and cumulative columns. *)

From Stdlib Require Import ZArith Lia Bool Strings.Byte Strings.String Floats.SpecFloat.
From stdpp Require Import gmap sorting.
From S2P Require Import Prelude Bytes Float64 GoStd GoText Model.

(** ** Bucket sets *)

Record BucketSet : Type := {
  bs_Name : gostr;
  bs_Parse : gostr;
  bs_Buckets : list gostr;
  bs_Edges : gostr;
  bs_TotalField : gostr;
  bs_Cumulative : bool;
  bs_Tail : bool;
  bs_edges : list f64;
}.

Inductive hist_err : Type :=
| HistIncomplete
| HistName (e : model_err)
| HistParse (mode : gostr)
| HistTooManyBuckets
| HistEdge (text : gostr)
| HistStep (step : f64)
| HistEdgeCount
| HistEdgeOrder (i : Z)
| HistEdgeNotFinite (i : Z)
| HistEdgesMode
| HistColumn (name : gostr)
| HistPayloadEmpty.

Definition maxPow2Buckets : Z := 64.
Definition tailField : gostr := bs "tail".

Section Compile.
Context `{FloatText}.

Definition parseEdge (s : gostr) : result hist_err f64 :=
  match ParseFloat (TrimSpace s) with
  | None => Err (HistEdge s)
  | Some v => if isFinite v then Ok v else Err (HistEdge s)
  end.

(** [math.Ldexp(1, i-1)] is the power of two, which is exact. *)
Definition pow2_edge (i : Z) : f64 :=
  if i =? 0 then f_zero else if i =? 1 then of_int 1 else of_int (2 ^ (i - 1)).

(** [for i := range b.Buckets]. *)
Definition positions (l : list gostr) : list Z := Z.of_nat <$> seq 0 (length l).

(** [strings.Trim(s, "[] ")]. *)
Definition edge_cut (b : byte) : bool := existsb (byte_eqb b) (bs "[] ").
Fixpoint drop_while (f : byte -> bool) (s : gostr) : gostr :=
  match s with
  | [] => []
  | b :: s' => if f b then drop_while f s' else s
  end.
Definition Trim_edges (s : gostr) : gostr :=
  rev (drop_while edge_cut (rev (drop_while edge_cut s))).

(** The [explicit:] loop; [prev] is the edge before. *)
Fixpoint explicit_edges (i : Z) (prev : option f64) (parts : list gostr) : result hist_err (list f64) :=
  match parts with
  | [] => Ok []
  | p :: parts' =>
      try v <- parseEdge p;
      if match prev with Some e => fleb v e | None => false end then Err (HistEdgeOrder i)
      else try es <- explicit_edges (i + 1) (Some v) parts'; Ok (v :: es)
  end.

Fixpoint edges_finite (i : Z) (es : list f64) : result hist_err unit :=
  match es with
  | [] => Ok tt
  | e :: es' => if isFinite e then edges_finite (i + 1) es' else Err (HistEdgeNotFinite i)
  end.

Definition compile_parse (m : gostr) : result hist_err gostr :=
  if bytes_eqb m [] then Ok (bs "paren_pairs")
  else if bytes_eqb m (bs "paren_pairs") || bytes_eqb m (bs "csv") || bytes_eqb m (bs "key_value")
  then Ok m else Err (HistParse m).

Definition compile_edges (b : BucketSet) : result hist_err (list f64) :=
  if bytes_eqb (bs_Edges b) [] || bytes_eqb (bs_Edges b) (bs "pow2") then
    if maxPow2Buckets <? zlen (bs_Buckets b) then Err HistTooManyBuckets
    else Ok (pow2_edge <$> positions (bs_Buckets b))
  else if HasPrefix (bs_Edges b) (bs "linear:") then
    try step <- parseEdge (drop 7 (bs_Edges b));
    if fleb step f_zero then Err (HistStep step)
    else Ok ((fun i => fmul (of_int i) step) <$> positions (bs_Buckets b))
  else if HasPrefix (bs_Edges b) (bs "explicit:") then
    let parts := Split (Trim_edges (drop 9 (bs_Edges b))) x2c in
    if negb (zlen parts =? zlen (bs_Buckets b)) then Err HistEdgeCount
    else explicit_edges 0 None parts
  else Err HistEdgesMode.

Definition compile `{Unicode} (b : BucketSet) : result hist_err BucketSet :=
  if bytes_eqb (bs_Name b) [] || (zlen (bs_Buckets b) =? 0) then Err HistIncomplete
  else
    match ValidateBucketSetName (bs_Name b) with
    | Err e => Err (HistName e)
    | Ok _ =>
        try parse <- compile_parse (bs_Parse b);
        try es <- compile_edges b;
        check edges_finite 0 es;
        Ok {| bs_Name := bs_Name b; bs_Parse := parse; bs_Buckets := bs_Buckets b;
              bs_Edges := bs_Edges b; bs_TotalField := bs_TotalField b;
              bs_Cumulative := bs_Cumulative b; bs_Tail := bs_Tail b; bs_edges := es |}
    end.

(** ** The columns a bucket set writes *)

(** The closure [claim]; the map holds the columns claimed so far. *)
Definition claim (cols : gset gostr) (name : gostr) : result hist_err (gset gostr) :=
  if bool_decide (name ∈ cols) then Err (HistColumn name) else Ok ({[name]} ∪ cols).

Fixpoint claim_buckets `{Unicode} (suffix : gostr) (cols : gset gostr) (l : list gostr) : result hist_err (gset gostr) :=
  match l with
  | [] => Ok cols
  | b :: l' =>
      match ValidateFieldName (b ++ suffix) with
      | Err e => Err (HistName e)
      | Ok _ => try cols <- claim cols (b ++ suffix); claim_buckets suffix cols l'
      end
  end.

Definition check_columns `{Unicode} (b : BucketSet) : result hist_err (gset gostr) :=
  try cols <- claim_buckets [] ∅ (bs_Buckets b);
  try cols <- (if bs_Cumulative b then claim_buckets (bs "plus") cols (bs_Buckets b) else Ok cols);
  try cols <- (if bs_Tail b then claim cols tailField else Ok cols);
  if bytes_eqb (bs_TotalField b) [] then Ok cols else claim cols (bs_TotalField b).
End Compile.

(** ** Expansion *)

Definition splitPair (s : gostr) : option (gostr * Z) :=
  let i := IndexAny s (bs ":=") in
  if i <? 0 then None
  else
    let k := TrimSpace (take (Z.to_nat i) s) in
    match ParseInt (TrimSpace (drop (Z.to_nat (i + 1)) s)) with
    | Some v => Some (k, v)
    | None => None
    end.

Definition count_pair (counts : gmap gostr Z) (pair : gostr) : gmap gostr Z :=
  match splitPair pair with
  | Some (k, v) => <[k := v]> counts
  | None => counts
  end.

(** The [paren_pairs] loop; each turn takes two bytes at least. *)
Fixpoint paren_loop (fuel : nat) (rest : gostr) (counts : gmap gostr Z) : option (gmap gostr Z) :=
  match fuel with
  | O => None
  | S fuel =>
      let open := IndexByte rest x28 in
      if open <? 0 then Some counts
      else
        let from := drop (Z.to_nat open) rest in
        let close := IndexByte from x29 in
        if close <? 0 then Some counts
        else
          let pair := take (Z.to_nat close - 1) (drop 1 from) in
          paren_loop fuel (drop (Z.to_nat (close + 1)) from) (count_pair counts pair)
  end.

Fixpoint csv_loop (buckets : list gostr) (i : Z) (parts : list gostr) (counts : gmap gostr Z) : gmap gostr Z :=
  match parts with
  | [] => counts
  | part :: parts' =>
      let counts :=
        match ParseInt (TrimSpace part), idx buckets i with
        | Some v, Some b => <[b := v]> counts
        | _, _ => counts
        end in
      csv_loop buckets (i + 1) parts' counts
  end.

(** The counts a payload carries; [None] for a parse mode [expand] has no
    case for. *)
Definition parse_counts (b : BucketSet) (raw : gostr) : result hist_err (gmap gostr Z) :=
  if bytes_eqb (bs_Parse b) (bs "paren_pairs") then
    Ok (default ∅ (paren_loop (S (length raw)) raw ∅))
  else if bytes_eqb (bs_Parse b) (bs "csv") then
    Ok (csv_loop (bs_Buckets b) 0 (Split raw x2c) ∅)
  else if bytes_eqb (bs_Parse b) (bs "key_value") then
    Ok (foldl count_pair ∅ (strings_Fields raw))
  else Err (HistParse (bs_Parse b)).

Abbreviation row_fields := (gmap gostr Value).

(** The loop that writes the buckets: the fields, their sum, how many. *)
Fixpoint write_buckets (counts : gmap gostr Z) (l : list gostr) (fields : row_fields) (sum present : Z) : row_fields * Z * Z :=
  match l with
  | [] => (fields, sum, present)
  | name :: l' =>
      match counts !! name with
      | None => write_buckets counts l' fields sum present
      | Some v => write_buckets counts l' (<[name := VInt v]> fields) (i64 (sum + v)) (present + 1)
      end
  end.

(** The loop from the last bucket to the first. *)
Fixpoint write_plus (counts : gmap gostr Z) (l : list gostr) (running : Z) (fields : row_fields) : row_fields :=
  match l with
  | [] => fields
  | name :: l' =>
      let running := i64 (running + default 0 (counts !! name)) in
      write_plus counts l' running (<[name ++ bs "plus" := VInt running]> fields)
  end.

Section Expand.
Context `{FloatText}.

(** The declared total, when the record captured one. *)
Definition total_of (b : BucketSet) (fields : row_fields) (sum : Z) : Z :=
  if bytes_eqb (bs_TotalField b) [] then sum
  else match fields !! bs_TotalField b with
       | Some tv => let '(n, ok) := AsInt tv in if ok then n else sum
       | None => sum
       end.

Definition expand (b : BucketSet) (raw : gostr) (fields : row_fields) : result hist_err row_fields :=
  try counts <- parse_counts b raw;
  let '(fields, sum, present) := write_buckets counts (bs_Buckets b) fields 0 0 in
  if present =? 0 then Err HistPayloadEmpty
  else if negb (bs_Cumulative b) && negb (bs_Tail b) then Ok fields
  else if present <? zlen (bs_Buckets b) then Ok fields
  else
    let total := total_of b fields sum in
    let tail := let t := i64 (total - sum) in if t <? 0 then 0 else t in
    let fields := if bs_Tail b then <[tailField := VInt tail]> fields else fields in
    let fields := if bs_Cumulative b then write_plus counts (reverse (bs_Buckets b)) tail fields else fields in
    Ok fields.
End Expand.

(** * What a histogram writes

    Lemmas behind the two properties of histograms: the columns a checked
    bucket set writes are distinct, and each loop of [expand] computes what
    its name says. *)


(** ** Wrap-around sums *)

Lemma i64_add_l a b : i64 (i64 a + b) = i64 (a + b).
Proof.
  unfold i64. f_equal.
  replace ((a + two63) mod two64 - two63 + b + two63)
    with ((a + two63) mod two64 + b) by lia.
  rewrite Zplus_mod_idemp_l. f_equal. lia.
Qed.

Definition count (counts : gmap gostr Z) (n : gostr) : Z := default 0 (counts !! n).
Definition sum_of (counts : gmap gostr Z) (l : list gostr) : Z :=
  foldr (fun n z => count counts n + z) 0 l.

Lemma sum_of_app counts l k : sum_of counts (l ++ k) = sum_of counts l + sum_of counts k.
Proof. induction l as [|n l IH]; simpl; [done|]. unfold sum_of in *. simpl. lia. Qed.

Lemma sum_of_reverse counts l : sum_of counts (reverse l) = sum_of counts l.
Proof.
  induction l as [|n l IH]; [done|]. rewrite reverse_cons, sum_of_app, IH.
  unfold sum_of. simpl. lia.
Qed.

(** ** The column check *)

Section Columns.
Context `{FloatText} `{Unicode}.

Lemma claim_ok cols n cols' :
  claim cols n = Ok cols' -> (n ∉ cols) /\ cols' = ({[n]} ∪ cols).
Proof. unfold claim. case_bool_decide; naive_solver. Qed.

Lemma claim_buckets_ok suffix l : forall cols cols',
  claim_buckets suffix cols l = Ok cols' ->
  NoDup ((fun n => n ++ suffix) <$> l) /\
  (forall n, n ∈ l -> n ++ suffix ∉ cols) /\
  (forall k, k ∈ cols' <-> k ∈ cols \/ exists n, n ∈ l /\ k = n ++ suffix).
Proof.
  induction l as [|b l IH]; intros cols cols'; cbn [claim_buckets].
  - intros [= <-]. split_and!; [constructor | set_solver | set_solver].
  - destruct (ValidateFieldName _); [|done]. intros (c1 & Hc & Hl)%rbind_ok_inv.
    apply claim_ok in Hc as [Hb ->]. apply IH in Hl as (Hnd & Hno & Hin).
    rewrite fmap_cons. split_and!.
    + apply NoDup_cons. split; [|done]. intros (n & He & Hn)%list_elem_of_fmap.
      apply (Hno n Hn). rewrite <- He. set_solver.
    + intros n [-> | Hn]%elem_of_cons; [done|]. specialize (Hno n Hn). set_solver.
    + intros k. rewrite Hin. set_solver.
Qed.

(** The columns of a checked bucket set are distinct. *)
Record columns_ok (b : BucketSet) : Prop := {
  co_nodup : NoDup (bs_Buckets b);
  co_plus : bs_Cumulative b = true -> forall n m, n ∈ bs_Buckets b -> m ∈ bs_Buckets b -> m <> n ++ bs "plus";
  co_tail : bs_Tail b = true -> tailField ∉ bs_Buckets b;
  co_tail_plus : bs_Tail b = true -> bs_Cumulative b = true -> forall n, n ∈ bs_Buckets b -> tailField <> n ++ bs "plus";
  co_total : bs_TotalField b <> [] -> bs_TotalField b ∉ bs_Buckets b;
}.

Lemma check_columns_ok b cols : check_columns b = Ok cols -> columns_ok b.
Proof.
  unfold check_columns. intros (c1 & H1 & (c2 & H2 & (c3 & H3 & H4)%rbind_ok_inv)%rbind_ok_inv)%rbind_ok_inv.
  apply claim_buckets_ok in H1 as (Hnd & _ & Hin1).
  assert (Hid : (fun n : gostr => n ++ []) <$> bs_Buckets b = bs_Buckets b).
  { rewrite <- (list_fmap_id (bs_Buckets b)) at 2. apply list_fmap_ext. intros ? x _. apply app_nil_r. }
  rewrite Hid in Hnd.
  assert (Hb1 : forall n, n ∈ bs_Buckets b -> n ∈ c1).
  { intros n Hn. apply Hin1. right. exists n. by rewrite app_nil_r. }
  assert (Hb2 : forall n, n ∈ c1 -> n ∈ c2).
  { intros n Hn. destruct (bs_Cumulative b); [|naive_solver].
    apply claim_buckets_ok in H2 as (_ & _ & ->). by left. }
  assert (Hp2 : bs_Cumulative b = true -> forall n, n ∈ bs_Buckets b -> n ++ bs "plus" ∈ c2 /\ n ++ bs "plus" ∉ c1).
  { intros Hc n Hn. rewrite Hc in H2. apply claim_buckets_ok in H2 as (_ & Hno & Hin).
    split; [apply Hin; eauto | by apply Hno]. }
  assert (Ht : bs_Tail b = true -> tailField ∉ c2).
  { intros Ht. rewrite Ht in H3. by apply claim_ok in H3 as [? _]. }
  assert (Hb3 : forall n, n ∈ c2 -> n ∈ c3).
  { intros n Hn. destruct (bs_Tail b); [|naive_solver]. apply claim_ok in H3 as [_ ->]. set_solver. }
  split.
  - done.
  - intros Hc n m Hn Hm ->. destruct (Hp2 Hc n Hn) as [_ Hno]. by apply Hno, Hb1.
  - intros Htl Hn. by apply (Ht Htl), Hb2, Hb1.
  - intros Htl Hc n Hn He. apply (Ht Htl). rewrite He. by apply Hp2.
  - intros Hne Hn. destruct (bytes_eqb (bs_TotalField b) []) eqn:He; [by apply bytes_eqb_spec in He|].
    apply claim_ok in H4 as [Hno _]. by apply Hno, Hb3, Hb2, Hb1.
Qed.
End Columns.

(** ** The loops of expand *)

(** How many of a list of buckets a payload carried. *)
Definition carried (counts : gmap gostr Z) (l : list gostr) : Z :=
  zlen (filter (fun n => is_Some (counts !! n)) l).

Lemma write_buckets_spec counts l : forall fields sum present,
  in_i64 sum ->
  exists fields', write_buckets counts l fields sum present =
    (fields', i64 (sum + sum_of counts l), present + carried counts l) /\
    forall k, fields' !! k =
      match counts !! k with
      | Some v => if bool_decide (k ∈ l) then Some (VInt v) else fields !! k
      | None => fields !! k
      end.
Proof.
  induction l as [|n l IH]; intros fields sum present Hs; cbn [write_buckets].
  - exists fields. unfold carried, sum_of. simpl. rewrite !Z.add_0_r, i64_id by done.
    split; [done|]. intros k. by destruct (counts !! k).
  - unfold carried, sum_of. simpl. fold (sum_of counts l). unfold count.
    rewrite filter_cons. destruct (counts !! n) as [v|] eqn:Hn.
    + destruct (IH (<[n := VInt v]> fields) (i64 (sum + v)) (present + 1)) as (f' & He & Hf);
        [apply i64_range|].
      exists f'. rewrite He, i64_add_l. fold (carried counts l). simpl.
      rewrite zlen_cons. split.
      { unfold carried. by rewrite <- !Z.add_assoc. }
      intros k. rewrite Hf. destruct (counts !! k) as [w|] eqn:Hk.
      * destruct (decide (k = n)) as [-> | Hne].
        -- rewrite lookup_insert_eq. assert (w = v) as -> by congruence.
           rewrite (bool_decide_eq_true_2 (n ∈ n :: l)) by left. by case_bool_decide.
        -- rewrite lookup_insert_ne by done.
           replace (bool_decide (k ∈ n :: l)) with (bool_decide (k ∈ l)); [done|].
           apply bool_decide_ext. set_solver.
      * rewrite lookup_insert_ne by congruence. done.
    + destruct (IH fields sum present Hs) as (f' & He & Hf). exists f'. rewrite He. simpl.
      split; [done|].
      intros k. rewrite Hf. destruct (counts !! k) as [w|] eqn:Hk; [|done].
      replace (bool_decide (k ∈ n :: l)) with (bool_decide (k ∈ l)); [done|].
      apply bool_decide_ext. set_solver.
Qed.

Lemma carried_range counts l : 0 <= carried counts l <= zlen l.
Proof. unfold carried, zlen. pose proof (length_filter (fun n => is_Some (counts !! n)) l). lia. Qed.

Lemma carried_zero counts l : carried counts l = 0 <-> forall n, n ∈ l -> counts !! n = None.
Proof.
  unfold carried, zlen. induction l as [|n l IH]; [set_solver|].
  rewrite filter_cons. destruct (counts !! n) as [v|] eqn:Hn.
  - simpl. split; [lia|]. intros Hall.
    specialize (Hall n ltac:(left)). congruence.
  - simpl. rewrite IH. set_solver.
Qed.

Lemma carried_full counts l : carried counts l = zlen l <-> forall n, n ∈ l -> is_Some (counts !! n).
Proof.
  unfold carried, zlen. induction l as [|n l IH]; [set_solver|].
  rewrite filter_cons. pose proof (length_filter (fun n => is_Some (counts !! n)) l).
  destruct (counts !! n) as [v|] eqn:Hn.
  - simpl. split; intros H1.
    + intros m [-> | Hm]%elem_of_cons; [by rewrite Hn|]. apply IH; [lia | done].
    + assert (Z.of_nat (length (filter (fun n => is_Some (counts !! n)) l)) = Z.of_nat (length l)); [|lia].
      apply IH. intros m Hm. apply H1. by right.
  - simpl. split; [lia|].
    intros H1. destruct (H1 n ltac:(left)). congruence.
Qed.

Lemma plus_inj (n m : gostr) : n ++ bs "plus" = m ++ bs "plus" -> n = m.
Proof. apply app_inj_2. done. Qed.

Lemma write_plus_spec counts l : forall running fields,
  NoDup l ->
  (forall i n, l !! i = Some n ->
    write_plus counts l running fields !! (n ++ bs "plus") =
    Some (VInt (i64 (running + sum_of counts (take (S i) l))))) /\
  (forall k, (forall n, n ∈ l -> k <> n ++ bs "plus") ->
    write_plus counts l running fields !! k = fields !! k).
Proof.
  induction l as [|b l IH]; intros running fields Hnd; cbn [write_plus]; [done|].
  apply NoDup_cons in Hnd as [Hb Hnd].
  destruct (IH (i64 (running + count counts b))
              (<[b ++ bs "plus" := VInt (i64 (running + count counts b))]> fields) Hnd) as [Hi Hk].
  split.
  - intros [|i] n Hn; simpl in Hn.
    + injection Hn as <-. rewrite Hk.
      * rewrite lookup_insert_eq. unfold sum_of. simpl. by rewrite Z.add_0_r.
      * intros m Hm He%plus_inj. congruence.
    + unfold count in Hi at 1 2. rewrite (Hi i n Hn), i64_add_l.
      change (take (S (S i)) (b :: l)) with (b :: take (S i) l).
      unfold sum_of at 2. simpl. fold (sum_of counts (take (S i) l)).
      do 3 f_equal. lia.
  - intros k Hno. unfold count in Hk at 1 2. rewrite Hk by set_solver.
    apply lookup_insert_ne. intros He. apply (Hno b); [left | done].
Qed.

(** The loop over the parenthesised pairs ends within the payload. *)
Lemma paren_loop_ends fuel : forall rest counts,
  (length rest < fuel)%nat -> is_Some (paren_loop fuel rest counts).
Proof.
  induction fuel as [|fuel IH]; intros rest counts Hl; [lia|]. cbn [paren_loop].
  break_if; [eauto|]. break_if; [eauto|].
  apply IH. rewrite !length_drop. bsplit.
  unfold IndexByte in *. set (o := index_from 0 (byte_eqb x28) rest) in *.
  destruct (index_from_spec (byte_eqb x28) rest 0) as [[Ho _] | (a & c & t & Hr & _ & _ & Ho)];
    fold o in Ho; [lia|].
  rewrite Hr, length_app in *. simpl in *. unfold zlen in *. lia.
Qed.

(** ** Edges *)

Definition ascending (es : list f64) : Prop := Sorted (fun a b => fltb a b = true) es.

Lemma finite_not_nan f : isFinite f = true -> IsNaN f = false.
Proof. unfold isFinite. intros H. by bsplit. Qed.

Section Edges.
Context `{FloatText} `{Unicode}.

Lemma explicit_edges_ok parts : forall i prev es,
  explicit_edges i prev parts = Ok es ->
  match prev with Some e => IsNaN e = false | None => True end ->
  length es = length parts /\ ascending es /\
  match prev, es with Some e, v :: _ => fltb e v = true | _, _ => True end.
Proof.
  induction parts as [|p parts IH]; intros i prev es; cbn [explicit_edges].
  - intros [= <-] _. split_and!; [done | constructor | by destruct prev].
  - intros (v & Hv & Hrest)%rbind_ok_inv Hprev.
    assert (Hnan : IsNaN v = false).
    { unfold parseEdge in Hv. destruct (ParseFloat _) as [w|]; [|done].
      destruct (isFinite w) eqn:Hw; [|done]. injection Hv as <-. by apply finite_not_nan. }
    destruct (match prev with Some e => fleb v e | None => false end) eqn:Hord; [done|].
    apply rbind_ok_inv in Hrest as (es' & Hes & [= <-]).
    destruct (IH _ _ _ Hes Hnan) as (Hlen & Hsort & Hhead). split_and!.
    + simpl. by rewrite Hlen.
    + constructor; [done|]. destruct es'; by constructor.
    + destruct prev as [e|]; [|done].
      rewrite fleb_negb_fltb in Hord by done. by destruct (fltb e v).
Qed.

Lemma edges_finite_ok es : forall i, edges_finite i es = Ok tt -> Forall (fun e => isFinite e = true) es.
Proof.
  induction es as [|e es IH]; intros i; cbn [edges_finite]; [constructor|].
  destruct (isFinite e) eqn:He; [|done]. intros Hr. constructor; [done | by apply (IH (i + 1))].
Qed.

Lemma Sorted_take {A} (R : relation A) n (l : list A) : Sorted R l -> Sorted R (take n l).
Proof.
  intros Hs. revert n. induction Hs as [|x l Hs IH Hd]; intros [|n]; try constructor; [apply IH|].
  destruct Hd; destruct n; by constructor.
Qed.

Lemma pow2_all_ascending : ascending (pow2_edge <$> (Z.of_nat <$> seq 0 64)).
Proof. vm_compute. repeat constructor. Qed.

Lemma pow2_ascending l : zlen l <= maxPow2Buckets -> ascending (pow2_edge <$> positions l).
Proof.
  intros Hl. unfold zlen, maxPow2Buckets in Hl. unfold positions.
  assert (Hseq : seq 0 (length l) = take (length l) (seq 0 64)).
  { rewrite take_seq. f_equal. lia. }
  rewrite Hseq, !fmap_take. apply Sorted_take, pow2_all_ascending.
Qed.
End Edges.

(** ** The fields of a row after an expansion *)

(** What the fields of a row are after the expansion of a payload. *)
Record expanded `{FloatText} (b : BucketSet) (counts : gmap gostr Z) (before after : row_fields) : Prop := {
  ex_bucket : forall n, n ∈ bs_Buckets b ->
    after !! n = match counts !! n with Some v => Some (VInt v) | None => before !! n end;
  ex_full : (forall n, n ∈ bs_Buckets b -> is_Some (counts !! n)) ->
    let sum := i64 (sum_of counts (bs_Buckets b)) in
    let tail := Z.max 0 (i64 (total_of b before sum - sum)) in
    (bs_Tail b = true -> after !! tailField = Some (VInt tail)) /\
    (bs_Cumulative b = true -> forall i n, bs_Buckets b !! i = Some n ->
       after !! (n ++ bs "plus") = Some (VInt (i64 (tail + sum_of counts (drop i (bs_Buckets b))))));
  ex_partial : ~ (forall n, n ∈ bs_Buckets b -> is_Some (counts !! n)) ->
    forall k, k ∉ bs_Buckets b -> after !! k = before !! k;
  ex_other : forall k, k ∉ bs_Buckets b -> (bs_Tail b = true -> k <> tailField) ->
    (bs_Cumulative b = true -> forall n, n ∈ bs_Buckets b -> k <> n ++ bs "plus") ->
    after !! k = before !! k;
}.


Section Expanded.
Context `{FloatText}.

Lemma carried_some counts l : carried counts l <> 0 -> exists n, n ∈ l /\ is_Some (counts !! n).
Proof.
  unfold carried, zlen. intros Hne.
  destruct (filter (fun n => is_Some (counts !! n)) l) as [|n k] eqn:Hl; [done|].
  exists n. assert (Hin : n ∈ filter (fun n => is_Some (counts !! n)) l) by (rewrite Hl; left).
  apply list_elem_of_filter in Hin. tauto.
Qed.

(** The fields after the buckets are written. *)
Record written (b : BucketSet) (counts : gmap gostr Z) (before f : row_fields) : Prop := {
  wr_bucket : forall n, n ∈ bs_Buckets b ->
    f !! n = match counts !! n with Some v => Some (VInt v) | None => before !! n end;
  wr_other : forall k, k ∉ bs_Buckets b -> f !! k = before !! k;
}.

Lemma written_buckets b counts before f :
  (forall k, f !! k =
     match counts !! k with
     | Some v => if bool_decide (k ∈ bs_Buckets b) then Some (VInt v) else before !! k
     | None => before !! k
     end) -> written b counts before f.
Proof.
  intros Hf. split.
  - intros n Hn. rewrite Hf. by rewrite bool_decide_eq_true_2.
  - intros k Hk. rewrite Hf, bool_decide_eq_false_2 by done. by destruct (counts !! k).
Qed.

Lemma expanded_plain b counts before f :
  written b counts before f ->
  (bs_Cumulative b = false /\ bs_Tail b = false \/ ~ (forall n, n ∈ bs_Buckets b -> is_Some (counts !! n))) ->
  expanded b counts before f.
Proof.
  intros [Hb Ho] Hno. split; [done | | auto | auto].
  intros Hfull. destruct Hno as [[-> ->] | Hno]; [by split | by destruct Hno].
Qed.

Lemma total_of_buckets b counts before f sum :
  columns_ok b -> written b counts before f -> total_of b f sum = total_of b before sum.
Proof.
  intros C [_ Ho]. unfold total_of. destruct (bytes_eqb (bs_TotalField b) []) eqn:He; [done|].
  apply bytes_eqb_neq in He. by rewrite Ho by (by apply (co_total _ C)).
Qed.

Lemma expanded_full b counts before f :
  columns_ok b -> written b counts before f ->
  (forall n, n ∈ bs_Buckets b -> is_Some (counts !! n)) ->
  let sum := i64 (sum_of counts (bs_Buckets b)) in
  let t := i64 (total_of b before sum - sum) in
  let tail := if t <? 0 then 0 else t in
  let f1 := if bs_Tail b then <[tailField := VInt tail]> f else f in
  expanded b counts before
    (if bs_Cumulative b then write_plus counts (reverse (bs_Buckets b)) tail f1 else f1).
Proof.
  intros C [Hb Ho] Hall sum t tail f1.
  assert (Htail : tail = Z.max 0 t) by (unfold tail; break_if; bsplit; lia).
  assert (Hf1 : forall k, (bs_Tail b = true -> k <> tailField) -> f1 !! k = f !! k).
  { intros k Hk. unfold f1. destruct (bs_Tail b); [|done]. rewrite lookup_insert_ne; [done|].
    intros He. by apply Hk. }
  assert (Hrev : NoDup (reverse (bs_Buckets b))) by (rewrite reverse_Permutation; apply C).
  destruct (write_plus_spec counts (reverse (bs_Buckets b)) tail f1 Hrev) as [Hp Hk].
  set (after := if bs_Cumulative b then _ else _).
  assert (Ha : forall k, (bs_Cumulative b = true -> forall n, n ∈ bs_Buckets b -> k <> n ++ bs "plus") ->
            after !! k = f1 !! k).
  { intros k Hno. unfold after. destruct (bs_Cumulative b); [|done].
    apply Hk. intros n Hn. apply Hno; [done|]. by apply elem_of_reverse. }
  split.
  - intros n Hn. rewrite Ha by (intros Hc m Hm; by apply (co_plus _ C Hc)).
    rewrite Hf1 by (intros Ht ->; by apply (co_tail _ C Ht)). by apply Hb.
  - intros _. cbv zeta. fold sum. fold t. rewrite <- Htail. split.
    + intros Ht. rewrite Ha by (intros Hc n Hn; by apply (co_tail_plus _ C Ht Hc)).
      unfold f1. by rewrite Ht, lookup_insert_eq.
    + intros Hc i n Hi. unfold after. rewrite Hc.
      pose proof (lookup_lt_Some _ _ _ Hi) as Hlt.
      rewrite (Hp (length (bs_Buckets b) - S i)%nat n).
      * rewrite take_reverse, sum_of_reverse. repeat f_equal. lia.
      * rewrite reverse_lookup by lia. rewrite <- Hi. f_equal. lia.
  - done.
  - intros k Hno Ht Hc. rewrite Ha, Hf1 by done. by apply Ho.
Qed.
End Expanded.
