(* ===== verification/ExtractTimestamp.v ===== *)
(** * Timestamps of records ([pkg/extract/timestamp.go])

    A [time.Time] is its instant, in nanoseconds since the epoch; the year
    zero time is [zero_time].  Regular expressions and the layouts of
    package time are the interfaces [Regexp] and [TimeLib]: the search for
    the timestamp, the epoch units, the resolution of a missing year and
    the stripping of the match are the source's. *)

From Stdlib Require Import ZArith Lia Bool.
From Stdlib Require Import Strings.Byte Strings.String.
From stdpp Require Import gmap.
From S2P Require Import Prelude Bytes GoStd GoText Model.

(** ** Packages regexp and time *)

Class Regexp := {
  regexp : Type;
  FindStringIndex : regexp -> gostr -> option (nat * nat);
  FindStringSubmatch : regexp -> gostr -> option (list gostr);
  SubexpNames : regexp -> list gostr;
  MatchString : regexp -> gostr -> bool;
  ReplaceAllString : regexp -> gostr -> gostr -> gostr;
}.

Class TimeLib := {
  location : Type;
  UTC : location;
  ParseInLocation : gostr -> gostr -> location -> option Z;
  Year : location -> Z -> Z;
  AddYears : location -> Z -> Z -> Z;
}.

(** [time.Time{}]: the first second of the year 1. *)
Definition zero_time : Z := -62135596800 * 1000000000.
Definition IsZero (t : Z) : bool := t =? zero_time.

Definition Millisecond : Z := 1000000.
Definition UnixMilli (t : Z) : Z := i64 (t / Millisecond).
Definition Nanosecond (t : Z) : Z := t mod 1000000000.

(** [t.Sub(u)] saturates at the largest and smallest [time.Duration]. *)
Definition time_sub (t u : Z) : Z := Z.max i64_min (Z.min i64_max (t - u)).

(** ** Epoch units *)

Inductive xerr : Type :=
| ErrNoTimestamp
| ErrEpochRange (n : Z)
| ErrParseInt
| ErrParseTime
| ErrNoMatch
| ErrNoJoin
| ErrNoBuckets (set bucket_set : gostr)
| ErrHistogram
| ErrNoFields (set : gostr)
| ErrAggregateKey (on : gostr)
| ErrAggregateField (field mode : gostr)
| ErrMovedBackwards (verdict : option xerr)
| Panic.

(** floorDiv divides towards negative infinity. *)
Definition floorDiv (a b : Z) : Z :=
  let q := a /go b in
  if negb (a %go b =? 0) && negb (Bool.eqb (a <? 0) (b <? 0)) then i64 (q - 1) else i64 q.

Definition epoch_s : gostr := bs "epoch_s".
Definition epoch_ms : gostr := bs "epoch_ms".
Definition epoch_us : gostr := bs "epoch_us".
Definition epoch_ns : gostr := bs "epoch_ns".

(** [time.UnixMilli], [time.UnixMicro], [time.Unix(0, n)]. *)
Definition epochTime (layout : gostr) (n : Z) : result xerr Z :=
  if bytes_eqb layout epoch_s then
    if (n >? MaxTSMs /go 1000) || (n <? - (MaxTSMs /go 1000)) then Err (ErrEpochRange n)
    else Ok (i64 (n * 1000) * Millisecond)
  else if bytes_eqb layout epoch_ms then Ok (n * Millisecond)
  else if bytes_eqb layout epoch_us then
    if (n >? i64 (MaxTSMs * 1000)) || (n <? - i64 (MaxTSMs * 1000)) then Err (ErrEpochRange n)
    else Ok (n * 1000)
  else
    let ms := floorDiv n 1000000 in
    if (ms >? MaxTSMs) || (ms <? - MaxTSMs) then Err (ErrEpochRange n) else Ok n.

Definition epochMillis (layout : gostr) (n : Z) : result xerr Z :=
  try ts <- epochTime layout n; Ok (UnixMilli ts).

(** The microseconds within the millisecond. *)
Definition subUS (ts : Z) : Z :=
  let us := Nanosecond ts /go 1000 in
  let us := if us <? 0 then - us else us in
  us %go 1000.

Definition blank (b : byte) : bool := byte_eqb b x20 || byte_eqb b x09.

Fixpoint trim_front (s : gostr) : gostr :=
  match s with
  | b :: s' => if blank b then trim_front s' else s
  | [] => []
  end.
Definition trimSpace (s : gostr) : gostr := reverse (trim_front (reverse (trim_front s))).

(** ** The search *)

Definition yearWrapThreshold : Z := 183 * 24 * 3600 * 1000000000.

Section Timestamps.
Context `{Regexp} `{TimeLib}.

Definition is_epoch (layout : gostr) : bool :=
  bytes_eqb layout epoch_s || bytes_eqb layout epoch_ms ||
  bytes_eqb layout epoch_us || bytes_eqb layout epoch_ns.

(** The instant and the location its year is read in. *)
Definition parseTimestamp (layout text : gostr) (loc : location) (assumeYear prev ref : Z) : result xerr (Z * location) :=
  if is_epoch layout then
    match ParseInt (trimSpace text) with
    | None => Err ErrParseInt
    | Some n => try ts <- epochTime layout n; Ok (ts, UTC)
    end
  else
    match ParseInLocation layout text loc with
    | None => Err ErrParseTime
    | Some ts =>
        if Year loc ts =? 0 then
          let ts := AddYears loc ts assumeYear in
          let anchor := if IsZero prev then ref else prev in
          if IsZero anchor then Ok (ts, loc)
          else if time_sub ts anchor >? yearWrapThreshold then Ok (AddYears loc ts (-1), loc)
          else if time_sub anchor ts >? yearWrapThreshold then Ok (AddYears loc ts 1, loc)
          else Ok (ts, loc)
        else Ok (ts, loc)
    end.

Record TimestampFormat : Type := { tf_Layout : gostr; tf_re : regexp }.

Record TimestampSpec : Type := {
  ts_Formats : list TimestampFormat;
  ts_Anchor : gostr;
  ts_Strip : bool;
}.

(** What the search reads and what it keeps for the next record: the format
    that matched and the year. *)
Record ts_state : Type := { tss_idx : Z; tss_year : Z }.

Section Search.
Context (spec : TimestampSpec) (loc : location) (lastTS refTime : Z).

Definition tryFormat (f : TimestampFormat) (s : ts_state) (line : gostr) : result xerr (Z * gostr * ts_state) :=
  match FindStringIndex (tf_re f) line with
  | None => Err ErrNoTimestamp
  | Some (from, to) =>
      if bytes_eqb (ts_Anchor spec) (bs "prefix") && negb (Nat.eqb from 0) then Err ErrNoTimestamp
      else
        let text := drop from (take to line) in
        try ' (ts, l) <- parseTimestamp (tf_Layout f) text loc (tss_year s) lastTS refTime;
        let y := Year l ts in
        let s := {| tss_idx := tss_idx s; tss_year := if y =? 0 then tss_year s else y |} in
        let body := if ts_Strip spec then take from line ++ drop to line else line in
        Ok (ts, body, s)
  end.

Fixpoint try_formats (fs : list TimestampFormat) (i : Z) (s : ts_state) (line : gostr) : result xerr (Z * gostr * ts_state) :=
  match fs with
  | [] => Err ErrNoTimestamp
  | f :: fs' =>
      if i =? tss_idx s then try_formats fs' (i + 1) s line
      else match tryFormat f s line with
           | Ok (ts, body, s) => Ok (ts, body, {| tss_idx := i; tss_year := tss_year s |})
           | Err _ => try_formats fs' (i + 1) s line
           end
  end.

Definition scanTimestamp (s : ts_state) (line : gostr) : result xerr (Z * gostr * ts_state) :=
  match (if tss_idx s <? 0 then None else idx (ts_Formats spec) (tss_idx s)) with
  | Some f =>
      match tryFormat f s line with
      | Ok r => Ok r
      | Err _ => try_formats (ts_Formats spec) 0 s line
      end
  | None => try_formats (ts_Formats spec) 0 s line
  end.
End Search.
End Timestamps.

(** ** Lemmas *)

Lemma floorDiv_div a b : in_i64 a -> 0 < b -> floorDiv a b = a / b.
Proof.
  intros Ha Hb. unfold floorDiv. rewrite (proj2 (Z.ltb_ge b 0)) by lia.
  pose proof (Z.quot_rem a b ltac:(lia)) as Hq. pose proof (Z.div_mod a b ltac:(lia)) as Hd.
  pose proof (Z.mod_pos_bound a b Hb).
  assert (Hrange : in_i64 (a / b)).
  { unfold in_i64 in *. split; [apply Z.div_le_lower_bound | apply Z.div_lt_upper_bound]; unfold two63 in *; nia. }
  destruct (Z.ltb_spec a 0).
  - pose proof (Z.rem_bound_pos_neg a b Hb ltac:(lia)).
    destruct (Z.eqb_spec (a %go b) 0); simpl.
    + assert (a /go b = a / b) as -> by nia. by apply i64_id.
    + assert (a /go b - 1 = a / b) as -> by nia. by apply i64_id.
  - rewrite andb_false_r. rewrite Z.quot_div_nonneg by lia. by apply i64_id.
Qed.

(** The nanoseconds of a unit. *)
Definition unit_ns (layout : gostr) : Z :=
  if bytes_eqb layout epoch_s then 1000000000
  else if bytes_eqb layout epoch_ms then 1000000
  else if bytes_eqb layout epoch_us then 1000
  else 1.

Lemma epochTime_exact layout n ts :
  in_i64 n -> epochTime layout n = Ok ts -> ts = n * unit_ns layout.
Proof.
  intros Hn. unfold epochTime, unit_ns, MaxTSMs, Millisecond.
  repeat break_if; intros [= <-]; try lia.
  apply orb_false_iff in Heqb0 as [? ?]. bsplit.
  change (253402300799999 /go 1000) with 253402300799 in *. rewrite i64_id by mlia. lia.
Qed.

Lemma subUS_range ts : 0 <= subUS ts <= 999.
Proof.
  unfold subUS, Nanosecond. pose proof (Z.mod_pos_bound ts 1000000000 ltac:(lia)).
  rewrite Z.quot_div_nonneg by lia.
  assert (0 <= ts mod 1000000000 / 1000) by (apply Z.div_pos; lia).
  rewrite (proj2 (Z.ltb_ge _ 0)) by lia. rewrite Z.rem_mod_nonneg by lia.
  pose proof (Z.mod_pos_bound (ts mod 1000000000 / 1000) 1000 ltac:(lia)). lia.
Qed.

(** The sub-millisecond part of an instant. *)
Lemma subUS_exact ts : subUS ts = (ts / 1000) mod 1000.
Proof.
  unfold subUS, Nanosecond. pose proof (Z.mod_pos_bound ts 1000000000 ltac:(lia)).
  rewrite Z.quot_div_nonneg by lia.
  assert (0 <= ts mod 1000000000 / 1000) by (apply Z.div_pos; lia).
  rewrite (proj2 (Z.ltb_ge _ 0)) by lia. rewrite Z.rem_mod_nonneg by lia.
  rewrite (Z.div_mod ts 1000000000) at 2 by lia.
  replace (1000000000 * (ts / 1000000000) + ts mod 1000000000)
    with (ts mod 1000000000 + (1000000 * (ts / 1000000000)) * 1000) by lia.
  rewrite Z.div_add by lia.
  replace (1000000 * (ts / 1000000000)) with ((1000 * (ts / 1000000000)) * 1000) by lia.
  by rewrite Z.mod_add by lia.
Qed.
