(* ===== verification/MqlValidate.v ===== *)
(** * Validating a query ([pkg/mql/validate.go])

    A query is checked against the catalogue before it runs: its clauses,
    the fields it selects and their modifiers, the labels its predicate
    compares and groups by, its limits against the store's ceilings.  The
    first fault refuses it; what is only suspicious is a warning that
    travels with the results.  A diagnostic is carried by what its text is
    made of. *)

From Stdlib Require Import ZArith Lia Bool Strings.Byte Strings.String.
From stdpp Require Import gmap.
From S2P Require Import Prelude Bytes Float64 GoStd Model MqlAst MqlLex ExtractTimestamp.

(** [regexp.Compile]; [None] is its error. *)
Class RegexpCompile `{Regexp} := { Compile : gostr -> option regexp }.

(** ** The catalogue, as the query language reads it *)

Record FieldInfo : Type := {
  fi_Kind : gostr;
  fi_Unit : gostr;
  fi_UnitHint : gostr;
  fi_Description : gostr;
  fi_MaxInterval : Z;
  fi_LimitMin : option f64;
  fi_LimitMax : option f64;
  fi_BucketSet : gostr;
  fi_BucketIndex : Z;
  fi_BucketEdge : f64;
  fi_Stale : bool;
}.

(** The interface [Schema]. *)
Record Schema : Type := {
  HasSet : gostr -> bool;
  sc_Sets : list gostr;
  Field : gostr -> gostr -> option FieldInfo;
  HasLabel : gostr -> gostr -> bool;
  BucketSet : gostr -> gostr -> option (list gostr);
}.

(** ** Diagnostics *)

Inductive VDiag : Type :=
(* the query as a whole *)
| E008_kind (kind : gostr)
| E008_unused (clause : unused_clause)
| E001_deep
| E007_nodes
| E002_label
| E002_from
| E002_unknown (set : gostr) (known : list gostr)
| E001_select
| E007_select (n : Z)
| E008_format (format : gostr)
| E007_every (ms : Z)
(* a selected field *)
| E001_noname
| E006_name (name : gostr)
| E008_histogram (name format : gostr)
| E009_buckets (name set : gostr)
| E008_modifiers (name : gostr) (modifiers : list gostr)
| E003 (field set : gostr)
| W203_unknown (field set : gostr)
| W203_stale (field : gostr)
| E005 (field : gostr)
| W104 (field : gostr)
| W105_field (field set : gostr)
| W102 (field : gostr)
| W103 (field : gostr)
| E007_gap (field : gostr)
| E008_sse (field mode : gostr)
| E007_clamp (field : gostr)
| E007_clamp_order (field : gostr) (lo hi : f64)
| E008_clamp_else (field mode : gostr)
| E008_series_only (field format : gostr)
| E008_every (format : gostr)
| E008_limit (format : gostr)
(* the predicate *)
| E001_empty (parent : gostr)
| E001_arms (n : Z)
| W106 (label value : gostr)
| E001_label
| E004_label (label set : gostr)
| E001_exists
| E004_exists (name set : gostr)
| E010 (variable : gostr)
| E007_in (label : gostr)
| E007_regex (len : Z)
| E001_badregex (regex : gostr)
(* the grouping and the limits *)
| E007_by (n : Z)
| E001_by
| E006_by (label : gostr)
| E004_by (label set : gostr)
| W105_by (label set : gostr)
| E007_series (n : Z)
| E007_points (n : Z)
| E007_max_series (n max : Z)
| E007_max_points (n max : Z)
| E008_heatmap_select
| E008_heatmap_one.
#[export] Instance VDiag_eq_dec : EqDecision VDiag.
Proof. solve_decision. Defined.

(** [maxNamedSets] and [namedSets]: the sets a diagnostic names, and how many
    it leaves out. *)
Definition maxNamedSets : Z := 50.
Definition namedSets (sets : list gostr) : list gostr * Z :=
  if zlen sets <=? maxNamedSets then (sets, 0) else (take (Z.to_nat maxNamedSets) sets, zlen sets - maxNamedSets).

(** ** Variables *)

(** [string([]rune{r})]. *)
Definition EncodeRune (r : Z) : gostr :=
  let r := if (r <? 0) || (r >? 1114111) || between 55296 r 57343 then RuneError else r in
  if r <? 128 then [z2b r]
  else if r <? 2048 then [z2b (192 + r / 64); z2b (128 + r mod 64)]
  else if r <? 65536 then [z2b (224 + r / 4096); z2b (128 + r / 64 mod 64); z2b (128 + r mod 64)]
  else [z2b (240 + r / 262144); z2b (128 + r / 4096 mod 64); z2b (128 + r / 64 mod 64); z2b (128 + r mod 64)].

Section Validate.
Context `{Unicode}.

(** The identifier runes at the head of a list, and what follows. *)
Fixpoint span_ident (rs : list Z) : list Z * list Z :=
  match rs with
  | r :: rs' => if isIdentRune r then let '(a, b) := span_ident rs' in (r :: a, b) else ([], rs)
  | [] => ([], [])
  end.

(** Without the trailing points and dashes; given the name reversed, it
    never loses the first rune. *)
Fixpoint trim_tail (rev : list Z) : list Z :=
  match rev with
  | r :: (_ :: _) as rev' => if (r =? 46) || (r =? 45) then trim_tail rev' else rev
  | _ => rev
  end.

(** [regexVariables]: the loop over the runes of the pattern.  After a
    reference it goes on behind its trimmed name. *)
Fixpoint regex_loop (fuel : nat) (rs : list Z) : list gostr :=
  match fuel with
  | O => []
  | S f =>
      match rs with
      | [] => []
      | r :: rs' =>
          if r =? 92 then regex_loop f (tail rs')
          else if negb (r =? 36) then regex_loop f rs'
          else
            match rs' with
            | a :: _ =>
                if isIdentStart a then
                  let name := rev (trim_tail (rev (a :: (span_ident (tail rs')).1))) in
                  concat (map EncodeRune name) :: regex_loop f (drop (length name) rs')
                else regex_loop f rs'
            | [] => []
            end
      end
  end.
Definition regexVariables (re : gostr) : list gostr := let rs := map snd (runes re) in regex_loop (length rs) rs.

(** The values of an [IN] list that may be variables. *)
Fixpoint in_vars (values : list gostr) (literal : list bool) : list gostr :=
  match values, literal with
  | [], _ => []
  | v :: vs, true :: ls => in_vars vs ls
  | v :: vs, _ :: ls => v :: in_vars vs ls
  | v :: vs, [] => v :: in_vars vs []
  end.

(** [Variables]: the names, each once, in the order of the walk. *)
Definition add_var (v : gostr) (out : list gostr) : list gostr :=
  if IsVariable v && negb (bool_decide (tail v ∈ out)) then out ++ [tail v] else out.
Fixpoint variables_walk (e : Expr) (out : list gostr) : list gostr :=
  let walk_list := fix walk_list (l : list Expr) (out : list gostr) : list gostr :=
    match l with [] => out | sub :: rest => walk_list rest (variables_walk sub out) end in
  let '(mkExpr ands ors nt eq ne il m nm _ _) := e in
  let out := walk_list ors (walk_list ands out) in
  let out := match nt with Some sub => variables_walk sub out | None => out end in
  let cmp (c : option Compare) out := match c with Some c => if c_Literal c then out else add_var (c_Value c) out | None => out end in
  let out := cmp ne (cmp eq out) in
  let out := match il with Some i => foldl (fun out v => add_var v out) out (in_vars (in_Values i) (in_Literal i)) | None => out end in
  let mx (x : option MatchExpr) out :=
    match x with Some x => foldl (fun out v => add_var (x24 :: v) out) out (regexVariables (mx_Regex x)) | None => out end in
  mx nm (mx m out).
Definition Variables (q : Query) : list gostr := variables_walk (q_Where q) [].

(** ** The predicate *)

Section Schema_given.
Context `{Regexp} `{RC : !RegexpCompile} (from : gostr) (sc : option Schema).

(** The label of a comparison. *)
Definition check_label (label : gostr) : option VDiag :=
  if is_nil label then Some E001_label
  else match sc with
       | Some s => if negb (is_nil from) && negb (HasLabel s from label) then Some (E004_label label from) else None
       | None => None
       end.

(** The name that [HAS] and [MISSING] address. *)
Definition checkExists (name : gostr) : option VDiag :=
  if is_nil name then Some E001_exists
  else match sc with
       | Some s =>
           if is_nil from || HasLabel s from name || negb (is_none (Field s from name)) then None
           else Some (E004_exists name from)
       | None => None
       end.

Fixpoint unresolved (vals : list gostr) : option VDiag :=
  match vals with
  | [] => None
  | v :: vals' => if IsVariable v then Some (E010 v) else unresolved vals'
  end.

Definition validate_compare (c : Compare) : option VDiag :=
  match (if c_Literal c then None else unresolved [c_Value c]) with
  | Some d => Some d
  | None => check_label (c_Label c)
  end.

Definition validate_in (i : InList) : option VDiag :=
  if is_nil (in_Values i) then Some (E007_in (in_Label i))
  else match unresolved (in_vars (in_Values i) (in_Literal i)) with
       | Some d => Some d
       | None => check_label (in_Label i)
       end.

Definition validate_match (m : MatchExpr) : option VDiag :=
  match regexVariables (mx_Regex m) with
  | v :: _ => Some (E010 (x24 :: v))
  | [] =>
      if zlen (mx_Regex m) >? MaxRegexBytes then Some (E007_regex (zlen (mx_Regex m)))
      else match Compile (mx_Regex m) with
           | None => Some (E001_badregex (mx_Regex m))
           | Some _ => check_label (mx_Label m)
           end
  end.

(** The [switch] at the end of [validateExpr]. *)
Definition validate_leaf (e : Expr) : option VDiag :=
  match e_Eq e, e_Ne e, e_In e with
  | Some c, _, _ => validate_compare c
  | None, Some c, _ => validate_compare c
  | None, None, Some i => validate_in i
  | None, None, None =>
      match e_Match e, e_NoMatch e with
      | Some m, _ => validate_match m
      | None, Some m => validate_match m
      | None, None =>
          if negb (is_nil (e_Has e)) then checkExists (e_Has e)
          else if negb (is_nil (e_Missing e)) then checkExists (e_Missing e)
          else None
      end
  end.

(** One step after another; the warnings are kept whatever the end. *)
Definition then_ (a : list VDiag * option VDiag) (k : unit -> list VDiag * option VDiag) : list VDiag * option VDiag :=
  match a with
  | (w, Some d) => (w, Some d)
  | (w, None) => let '(w', r) := k tt in (w ++ w', r)
  end.

(** [validateExpr] and [validateArm]: the warnings, and the fault. *)
Fixpoint validateExpr (e : Expr) (depth : Z) : list VDiag * option VDiag :=
  let validateArm (parent : gostr) (sub : Expr) (depth : Z) :=
    if Expr_Empty sub then ([], Some (E001_empty parent)) else validateExpr sub depth in
  let walk_list :=
    fix walk_list (parent : gostr) (l : list Expr) (depth : Z) : list VDiag * option VDiag :=
      match l with
      | [] => ([], None)
      | sub :: rest => then_ (validateArm parent sub depth) (fun _ => walk_list parent rest depth)
      end in
  let '(mkExpr ands ors nt _ _ _ _ _ _ _) := e in
  if Expr_Empty e then ([], None)
  else if depth >=? MaxPredicateDepth then ([], Some E001_deep)
  else if arms e >? 1 then ([], Some (E001_arms (arms e)))
  else
    then_ (walk_list (bs "and") ands (depth + 1)) (fun _ =>
    then_ (walk_list (bs "or") ors (depth + 1)) (fun _ =>
    then_ match nt with
          | Some sub =>
              then_ (validateArm (bs "not") sub (depth + 1)) (fun _ =>
                (match e_Eq sub with Some c => [W106 (c_Label c) (c_Value c)] | None => [] end, None))
          | None => ([], None)
          end (fun _ => ([], validate_leaf e)))).

(** ** A selected field *)

(** The tests that name the field or the histogram of a selection. *)
Definition validate_histogram (format : gostr) (fe : FieldExpr) : option VDiag :=
  let h := fe_Histogram fe in
  if negb (bytes_eqb format FormatHeatmap) then Some (E008_histogram h format)
  else if match sc with Some s => is_none (BucketSet s from h) | None => false end then Some (E009_buckets h from)
  else match modifierNames (fe_Modifiers fe) with
       | [] => None
       | m => Some (E008_modifiers h m)
       end.

Definition tabular (format : gostr) : bool := bytes_eqb format FormatTable || bytes_eqb format FormatLogs.

(** What the catalogue says of the field: the warnings, and the fault. *)
Definition validate_known (format : gostr) (fe : FieldExpr) : list VDiag * option VDiag :=
  let f := fe_Field fe in
  let m := fe_Modifiers fe in
  match sc with
  | None => ([], None)
  | Some s =>
      match Field s from f with
      | None => if m_Required m then ([], Some (E003 f from)) else ([W203_unknown f from], None)
      | Some info =>
          let string_ := bytes_eqb (fi_Kind info) (bs "string") in
          let stale := if fi_Stale info then [W203_stale f] else [] in
          if string_ && (m_Delta m || m_PerSecond m || m_Negate m || negb (is_none (m_Clamp m))) then (stale, Some (E005 f))
          else
            (stale
             ++ (if string_ && bytes_eqb format FormatTimeseries then [W104 f] else [])
             ++ (if HasLabel s from f then [W105_field f from] else [])
             ++ (if bytes_eqb (fi_Kind info) (bs "counter") && negb (m_Delta m) && negb (tabular format) then [W102 f] else [])
             ++ (if is_none (m_GapMs m) && (fi_MaxInterval info =? 0) && bytes_eqb format FormatTimeseries then [W103 f] else []), None)
      end
  end.

(** The padding, the clamp, and what a tabular format has no use for. *)
Definition validate_sse (f : gostr) (x : SSE) : option VDiag :=
  if existsb (bytes_eqb (ss_Mode x)) [[]; bs "const"; bs "repeat"; bs "off"] then None else Some (E008_sse f (ss_Mode x)).

Definition validate_clamp (f : gostr) (c : Clamp) : option VDiag :=
  let tail_ := if existsb (bytes_eqb (cl_Else c)) [[]; bs "raw"; bs "bound"] then None else Some (E008_clamp_else f (cl_Else c)) in
  match cl_Min c, cl_Max c with
  | None, None => Some (E007_clamp f)
  | Some lo, Some hi => if fgtb lo hi then Some (E007_clamp_order f lo hi) else tail_
  | _, _ => tail_
  end.

Definition series_modifier (m : Modifiers) : bool :=
  m_Delta m || m_PerSecond m || m_Negate m || negb (is_none (m_GapMs m)) || negb (is_none (m_SSE m)) || negb (is_none (m_Clamp m)).

Definition validate_modifiers (format : gostr) (fe : FieldExpr) : option VDiag :=
  let f := fe_Field fe in
  let m := fe_Modifiers fe in
  if match m_GapMs m with Some g => g <? 0 | None => false end then Some (E007_gap f)
  else match (x ← m_SSE m; validate_sse f x) with
       | Some d => Some d
       | None =>
           match (c ← m_Clamp m; validate_clamp f c) with
           | Some d => Some d
           | None => if tabular format && series_modifier m then Some (E008_series_only f format) else None
           end
       end.

Definition validate_field (format : gostr) (names : list gostr) (fe : FieldExpr) : list VDiag * option VDiag :=
  if is_nil (fe_Field fe) && is_nil (fe_Histogram fe) then ([], Some E001_noname)
  else if bool_decide (FieldExpr_Name fe ∈ names) then ([], Some (E006_name (FieldExpr_Name fe)))
  else if negb (is_nil (fe_Histogram fe)) then ([], validate_histogram format fe)
  else then_ (validate_known format fe) (fun _ => ([], validate_modifiers format fe)).

(** The loop over the selected fields; [names] are the display names so far. *)
Fixpoint validate_select (format : gostr) (names : list gostr) (sel : list FieldExpr) : list VDiag * option VDiag :=
  match sel with
  | [] => ([], None)
  | fe :: sel' => then_ (validate_field format names fe) (fun _ => validate_select format (FieldExpr_Name fe :: names) sel')
  end.

(** The loop over the grouping slots. *)
Fixpoint validate_by (seen : list gostr) (by_ : list gostr) : list VDiag * option VDiag :=
  match by_ with
  | [] => ([], None)
  | l :: by' =>
      if is_nil l then ([], Some E001_by)
      else if bool_decide (l ∈ seen) then ([], Some (E006_by l))
      else
        match sc with
        | Some s =>
            if negb (HasLabel s from l) then ([], Some (E004_by l from))
            else then_ ((if is_none (Field s from l) then [] else [W105_by l from]), None) (fun _ => validate_by (l :: seen) by')
        | None => validate_by (l :: seen) by'
        end
  end.
End Schema_given.

(** ** The query *)

Definition validate_limits (li : Limits) (maxSeries maxPoints : Z) : option VDiag :=
  let bad (o : option Z) := match o with Some n => n <=? 0 | None => false end in
  let over (o : option Z) max := match o with Some n => (max >? 0) && (n >? max) | None => false end in
  if bad (li_Series li) then E007_series <$> li_Series li
  else if bad (li_Points li) then E007_points <$> li_Points li
  else if over (li_Series li) maxSeries then (fun n => E007_max_series n maxSeries) <$> li_Series li
  else if over (li_Points li) maxPoints then (fun n => E007_max_points n maxPoints) <$> li_Points li
  else None.

(** The format a query without one is drawn in. *)
Definition drawn_format (q : Query) : gostr := if is_nil (q_Format q) then FormatTimeseries else q_Format q.

Definition validate_tabular (q : Query) : option VDiag :=
  if tabular (drawn_format q) then
    if negb (is_none (q_EveryMs q)) then Some (E008_every (drawn_format q))
    else if negb (is_none (li_Series (q_Limits q))) then Some (E008_limit (drawn_format q))
    else None
  else None.

Definition validate_heatmap (q : Query) : option VDiag :=
  if bytes_eqb (drawn_format q) FormatHeatmap then
    if existsb (fun fe => is_nil (fe_Histogram fe)) (q_Select q) then Some E008_heatmap_select
    else if zlen (q_Select q) >? 1 then Some E008_heatmap_one
    else None
  else None.

Definition shape_diag (e : shape_err) : VDiag := match e with TooDeep => E001_deep | TooMany => E007_nodes end.

Section Query_.
Context `{Regexp} `{RC : !RegexpCompile} (sc : option Schema).

(** The part of [Validate] that reads a data query's clauses, from the
    number of its fields on.  The faults up to the tabular rule drop the
    warnings gathered so far; those after it keep them. *)
Definition validate_data (q : Query) (maxSeries maxPoints : Z) : list VDiag * option VDiag :=
  let refuse d := ([], Some d) in
  if is_nil (q_Select q) then refuse E001_select
  else if zlen (q_Select q) >? MaxSelectFields then refuse (E007_select (zlen (q_Select q)))
  else if negb (existsb (bytes_eqb (q_Format q)) [[]; FormatTimeseries; FormatTable; FormatHeatmap; FormatLogs]) then refuse (E008_format (q_Format q))
  else if match q_EveryMs q with Some ms => ms <=? 0 | None => false end then refuse (E007_every (default 0 (q_EveryMs q)))
  else
    match validate_select (q_From q) sc (drawn_format q) [] (q_Select q) with
    | (_, Some d) => refuse d
    | (warns, None) =>
        match validate_tabular q with
        | Some d => refuse d
        | None =>
            then_ (warns, None) (fun _ =>
            then_ (validateExpr (q_From q) sc (q_Where q) 0) (fun _ =>
            then_ ([], if zlen (q_By q) >? MaxByLabels then Some (E007_by (zlen (q_By q))) else None) (fun _ =>
            then_ (validate_by (q_From q) sc [] (q_By q)) (fun _ =>
            then_ ([], validate_limits (q_Limits q) maxSeries maxPoints) (fun _ => ([], validate_heatmap q))))))
        end
    end.

(** The set a query reads. *)
Definition validate_from (q : Query) : option VDiag :=
  if is_nil (q_From q) then Some E002_from
  else match sc with
       | Some s => if HasSet s (q_From q) then None else Some (E002_unknown (q_From q) (sc_Sets s))
       | None => None
       end.

(** [Validate]. *)
Definition ValidateQuery (q : Query) (maxSeries maxPoints : Z) : list VDiag * option VDiag :=
  let refuse d := ([], Some d) in
  if negb (existsb (bytes_eqb (q_Kind q)) [[]; KindQuery; KindSets; KindFields; KindLabels; KindLabelKeys]) then refuse (E008_kind (q_Kind q))
  else
    match checkUnusedClauses q with
    | Some c => refuse (E008_unused c)
    | None =>
        match checkPredicateShape (q_Where q) with
        | Err e => refuse (shape_diag e)
        | Ok _ =>
            if bytes_eqb (q_Kind q) KindSets then ([], None)
            else if bytes_eqb (q_Kind q) KindLabels then
              if is_nil (q_Label q) then refuse E002_label else validateExpr (q_From q) None (q_Where q) 0
            else match validate_from q with
                 | Some d => refuse d
                 | None => if bytes_eqb (q_Kind q) KindFields || bytes_eqb (q_Kind q) KindLabelKeys then ([], None) else validate_data q maxSeries maxPoints
                 end
        end
    end.
End Query_.
End Validate.
