(* ===== verification/MqlValidateProps.v ===== *)
(** * What validation accepts

    [ValidateQuery] stops at the first fault of a long walk; the theorem
    says which queries have none, without the walk: a predicate that is a
    tagged union within the two structural bounds, comparing labels the set
    has; fields with distinct names whose modifiers make sense for their
    kind and the format; grouping slots that are labels; positive limits
    below the ceilings. *)

From Stdlib Require Import ZArith Lia Bool Strings.Byte Strings.String.
From stdpp Require Import gmap.
From S2P Require Import Prelude Bytes Float64 GoStd MqlAst MqlLex MqlSafe MqlTotal ExtractTimestamp MqlValidate.

(** ** Reflection *)

Lemma is_nil_true {A} (l : list A) : is_nil l = true <-> l = [].
Proof. by destruct l. Qed.
Lemma is_nil_false {A} (l : list A) : is_nil l = false <-> l <> [].
Proof. by destruct l. Qed.
Lemma is_none_true {A} (o : option A) : is_none o = true <-> o = None.
Proof. by destruct o. Qed.
Lemma is_none_false {A} (o : option A) : is_none o = false <-> is_Some o.
Proof. destruct o; split; intros Ho; [done..| |]; [done | by destruct Ho]. Qed.

Lemma then_ok a k : (then_ a k).2 = None <-> a.2 = None /\ (k tt).2 = None.
Proof. destruct a as [w [d|]]; cbn [then_ snd]; [by split; [|intros []]|]. destruct (k tt) as [w' r]. cbn. tauto. Qed.

Lemma one_of x l : existsb (bytes_eqb x) l = true <-> x ∈ l.
Proof.
  rewrite existsb_exists. split.
  - intros (y & Hy & ->%bytes_eqb_spec). by apply list_elem_of_In.
  - intros Hx. exists x. split; [by apply list_elem_of_In | apply bytes_eqb_refl].
Qed.

Lemma Forall_mp {A} (P Q : A -> Prop) l : Forall (fun x => P x -> Q x) l -> Forall P l -> Forall Q l.
Proof. intros Hi. induction Hi; intros Hp; [done|]. apply Forall_cons in Hp as [? ?]. constructor; auto. Qed.

Section Accepts.
Context `{Unicode} `{Regexp} `{RC : !RegexpCompile} (from : gostr) (sc : option Schema).

(** ** The predicate *)

(** A label the set has; any, without a schema or a set. *)
Definition known_label (l : gostr) : Prop :=
  l <> [] /\ match sc with Some s => from <> [] -> HasLabel s from l = true | None => True end.
Definition known_column (c : gostr) : Prop :=
  c <> [] /\ match sc with Some s => from <> [] -> HasLabel s from c = true \/ is_Some (Field s from c) | None => True end.

Definition compare_ok (c : Compare) : Prop := known_label (c_Label c) /\ (c_Literal c = false -> IsVariable (c_Value c) = false).
Definition in_ok (i : InList) : Prop :=
  known_label (in_Label i) /\ in_Values i <> [] /\
  forall k v, in_Values i !! k = Some v -> in_Literal i !! k = Some true \/ IsVariable v = false.
Definition match_ok (m : MatchExpr) : Prop :=
  known_label (mx_Label m) /\ regexVariables (mx_Regex m) = [] /\ zlen (mx_Regex m) <= MaxRegexBytes /\ is_Some (Compile (mx_Regex m)).

(** One arm a node, and every arm sound. *)
Inductive pred_ok : Expr -> Prop :=
| pk_And l : l <> [] -> Forall pred_ok l -> pred_ok (AndE l)
| pk_Or l : l <> [] -> Forall pred_ok l -> pred_ok (OrE l)
| pk_Not e : pred_ok e -> pred_ok (NotE e)
| pk_Eq c : compare_ok c -> pred_ok (EqE c)
| pk_Ne c : compare_ok c -> pred_ok (NeE c)
| pk_In i : in_ok i -> pred_ok (InE i)
| pk_Match m : match_ok m -> pred_ok (MatchE m)
| pk_NoMatch m : match_ok m -> pred_ok (NoMatchE m)
| pk_Has c : known_column c -> pred_ok (HasE c)
| pk_Missing c : known_column c -> pred_ok (MissingE c).

Lemma check_label_ok l : check_label from sc l = None <-> known_label l.
Proof.
  unfold check_label, known_label. destruct l as [|b l]; cbn [is_nil]; [by split; [|intros []]|].
  destruct sc as [s|]; [|by split]. destruct from as [|x f]; cbn [is_nil negb andb]; [by split|].
  destruct (HasLabel s (x :: f) (b :: l)); cbn; split; try done. intros [_ Hk]. by specialize (Hk ltac:(done)).
Qed.

Lemma checkExists_ok c : checkExists from sc c = None <-> known_column c.
Proof.
  unfold checkExists, known_column. destruct c as [|b c]; cbn [is_nil]; [by split; [|intros []]|].
  destruct sc as [s|]; [|by split]. destruct from as [|x f]; cbn [is_nil orb]; [by split|].
  destruct (HasLabel s (x :: f) (b :: c)); cbn [orb].
  { split; [|done]. intros _. split; [done|]. by left. }
  destruct (Field s (x :: f) (b :: c)) as [i|]; cbn; split; try done.
  - intros _. split; [done|]. intros _. right. by exists i.
  - intros [_ Hk]. by destruct (Hk ltac:(done)) as [? | []].
Qed.

Lemma unresolved_ok vals : unresolved vals = None <-> Forall (fun v => IsVariable v = false) vals.
Proof.
  induction vals as [|v vals IH]; cbn [unresolved]; [by split|]. rewrite Forall_cons. destruct (IsVariable v); [by split; [|intros []]|].
  rewrite IH. tauto.
Qed.

Lemma in_vars_ok vals : forall lits, Forall (fun v => IsVariable v = false) (in_vars vals lits) <->
  forall k v, vals !! k = Some v -> lits !! k = Some true \/ IsVariable v = false.
Proof.
  induction vals as [|v vals IH]; intros lits; cbn [in_vars]; [by split; intros _|].
  assert (Hhead : forall lits', (IsVariable v = false /\ forall k w, vals !! k = Some w -> lits' !! k = Some true \/ IsVariable w = false) ->
            forall l0, forall k w, (v :: vals) !! k = Some w -> (l0 :: lits') !! k = Some true \/ IsVariable w = false).
  { intros lits' [Hv Hr] l0 [|k] w; cbn; [intros [= <-]; by right | by apply Hr]. }
  destruct lits as [|[] lits].
  - rewrite Forall_cons, IH. split.
    + intros [Hv Hr] [|k] w; cbn; [intros [= <-]; by right|]. intros Hw. right. by destruct (Hr k w Hw).
    + intros Hall. split; [by destruct (Hall 0%nat v eq_refl)|]. intros k w Hw. right. by destruct (Hall (S k) w Hw).
  - rewrite IH. split.
    + intros Hr [|k] w; cbn; [intros _; by left | by apply Hr].
    + intros Hall k w Hw. exact (Hall (S k) w Hw).
  - rewrite Forall_cons, IH. split.
    + intros Hr. by apply Hhead.
    + intros Hall. split; [by destruct (Hall 0%nat v eq_refl)|]. intros k w Hw. exact (Hall (S k) w Hw).
Qed.

Lemma validate_compare_ok c : validate_compare from sc c = None <-> compare_ok c.
Proof.
  unfold validate_compare, compare_ok. destruct (c_Literal c); [rewrite check_label_ok; naive_solver|].
  destruct (unresolved [c_Value c]) eqn:E.
  - split; [done|]. intros [_ Hv]. assert (unresolved [c_Value c] = None) by (apply unresolved_ok, Forall_singleton; by apply Hv). congruence.
  - rewrite unresolved_ok, Forall_singleton in E. rewrite check_label_ok. split; [intros Hk; split; [exact Hk | intros _; exact E] | intros [Hk _]; exact Hk].
Qed.

Lemma validate_in_ok i : validate_in from sc i = None <-> in_ok i.
Proof.
  unfold validate_in, in_ok. destruct (is_nil (in_Values i)) eqn:En; [apply is_nil_true in En; split; [done | by intros (_ & ? & _)]|].
  apply is_nil_false in En. pose proof (in_vars_ok (in_Values i) (in_Literal i)) as Hv. rewrite <- unresolved_ok in Hv.
  destruct (unresolved _); [split; [done|]; intros (_ & _ & Hk); pose proof (proj2 Hv Hk); done|]. rewrite check_label_ok. split; [|by intros []].
  intros Hl. split_and!; [done..|]. by apply Hv.
Qed.

Lemma validate_match_ok m : validate_match from sc m = None <-> match_ok m.
Proof.
  unfold validate_match, match_ok. destruct (regexVariables (mx_Regex m)); [|by split; [|intros (_ & ? & _)]].
  destruct (_ >? _) eqn:El; bsplit; [split; [done | intros (_ & _ & ? & _); lia]|].
  destruct (Compile (mx_Regex m)); [|by split; [|intros (_ & _ & _ & [])]]. rewrite check_label_ok. split; [|by intros []].
  intros Hl. split_and!; [done | done | lia | by eexists].
Qed.

(** Which fields of a node are set. *)
Lemma pred_ok_not_empty e : pred_ok e -> Expr_Empty e = false.
Proof.
  intros [l Hl|l Hl| | | | | | |c [Hc _]|c [Hc _]]; try done; [by destruct l | by destruct l | by destruct c | by destruct c].
Qed.

(** A node with one arm is one of the ten literals. *)
Inductive one_arm : Expr -> Prop :=
| oa_And l : l <> [] -> one_arm (AndE l)
| oa_Or l : l <> [] -> one_arm (OrE l)
| oa_Not e : one_arm (NotE e)
| oa_Eq c : one_arm (EqE c)
| oa_Ne c : one_arm (NeE c)
| oa_In i : one_arm (InE i)
| oa_Match m : one_arm (MatchE m)
| oa_NoMatch m : one_arm (NoMatchE m)
| oa_Has c : c <> [] -> one_arm (HasE c)
| oa_Missing c : c <> [] -> one_arm (MissingE c).

Lemma at_most_one b bits : zlen (base.filter (fun b : bool => b = true) (b :: bits)) <= 1 ->
  (b = true /\ Forall (fun b => b = false) bits) \/ (b = false /\ zlen (base.filter (fun b : bool => b = true) bits) <= 1).
Proof.
  rewrite filter_cons. destruct b; cbn [decide bool_eq_dec bool_rec bool_rect]; [|by right]. intros Hl. left. split; [done|].
  destruct (decide (true = true)); [|done]. unfold zlen in Hl. cbn [length] in Hl.
  assert (Hn : base.filter (fun b : bool => b = true) bits = []) by (apply nil_length_inv; lia). clear Hl.
  induction bits as [|[] bits IH]; [constructor | by rewrite filter_cons in Hn |]. constructor; [done|]. apply IH. by rewrite filter_cons in Hn.
Qed.

Ltac settle_arms :=
  repeat match goal with
  | H : negb _ = true |- _ => apply negb_true_iff in H
  | H : negb _ = false |- _ => apply negb_false_iff in H
  | H : is_nil ?l = true |- _ => apply is_nil_true in H; subst l
  | H : is_none ?o = true |- _ => apply is_none_true in H; subst o
  | H : is_nil _ = false |- _ => apply is_nil_false in H
  | H : is_none _ = false |- _ => apply is_none_false in H as [? ->]
  | H : Forall _ (_ :: _) |- _ => apply Forall_cons in H as [? H]
  end.

Lemma arms_one e : one_arm e <-> Expr_Empty e = false /\ arms e <= 1.
Proof.
  split; [by intros [[] |[] | | | | | | |[] |[]]|].
  destruct e as [ands ors nt eq ne il m nm has missing]. intros [He Ha]. unfold arms in Ha. cbn [e_And e_Or e_Not e_Eq e_Ne e_In e_Match e_NoMatch e_Has e_Missing] in Ha.
  do 10 (apply at_most_one in Ha as [[? Ha] | [? Ha]]; [settle_arms; by constructor|]).
  settle_arms. discriminate He.
Qed.

(** ** The walk *)

Definition arm_ok (depth : Z) (e : Expr) : Prop := Expr_Empty e = false /\ (validateExpr from sc e depth).2 = None.

Lemma validateExpr_step e depth : Expr_Empty e = false ->
  (validateExpr from sc e depth).2 = None <->
  depth < MaxPredicateDepth /\ arms e <= 1 /\ Forall (arm_ok (depth + 1)) (e_And e) /\ Forall (arm_ok (depth + 1)) (e_Or e) /\
  match e_Not e with Some sub => arm_ok (depth + 1) sub | None => True end /\ validate_leaf from sc e = None.
Proof.
  intros He. destruct e as [ands ors nt eq ne il m nm has missing]. cbn [validateExpr e_And e_Or e_Not]. rewrite He.
  match goal with |- context [then_ (?w (bs "and") ands _) _] => set (walk := w) end.
  assert (Hwalk : forall parent l d, (walk parent l d).2 = None <-> Forall (arm_ok d) l).
  { intros parent l d. induction l as [|sub l IH]; [by split|]. change (walk parent (sub :: l) d) with
      (then_ (if Expr_Empty sub then ([], Some (E001_empty parent)) else validateExpr from sc sub d) (fun _ => walk parent l d)).
    rewrite then_ok, IH, Forall_cons. unfold arm_ok. destruct (Expr_Empty sub); cbn; intuition congruence. }
  destruct (depth >=? MaxPredicateDepth) eqn:Ed; bsplit; [cbn; split; [done | intros (? & _); lia]|].
  destruct (arms _ >? 1) eqn:Ea; bsplit; [cbn [snd]; split; [done | intros (_ & ? & _); lia]|].
  rewrite !then_ok, !Hwalk. cbn [snd].
  assert (Hnt : forall (k : list VDiag * option VDiag), k.2 = None ->
    match nt with Some sub => then_ (if Expr_Empty sub then ([], Some (E001_empty (bs "not"))) else validateExpr from sc sub (depth + 1)) (fun _ =>
      (match e_Eq sub with Some c => [W106 (c_Label c) (c_Value c)] | None => [] end, None)) | None => k end.2 = None
    <-> match nt with Some sub => arm_ok (depth + 1) sub | None => True end).
  { intros k Hk. destruct nt as [sub|]; [|by split]. rewrite then_ok. unfold arm_ok. destruct (Expr_Empty sub); cbn; intuition congruence. }
  rewrite (Hnt ([], None) eq_refl). split.
  - intros (Hands & Hors & Hn & Hl). split_and!; try done; lia.
  - intros (_ & _ & Hands & Hors & Hn & Hl). by split_and!.
Qed.

Definition walk_exact (e : Expr) : Prop := forall depth, Expr_Empty e = false ->
  (validateExpr from sc e depth).2 = None <-> pred_ok e /\ depth + height e <= MaxPredicateDepth.

Lemma walk_arms l depth : Forall walk_exact l -> depth <= MaxPredicateDepth ->
  Forall (arm_ok depth) l <-> Forall pred_ok l /\ depth + heights l <= MaxPredicateDepth.
Proof.
  intros Hl Hd. induction Hl as [|e l He Hl IH]; [cbn; split; [intros _; split; [done | lia] | done]|].
  rewrite !Forall_cons, IH. change (heights (e :: l)) with (Z.max (height e) (heights l)). unfold arm_ok at 1. split.
  - intros [[Hne Hv] [Hp Hh]]. apply He in Hv as [Hpe Hhe]; [|done]. split; [done | lia].
  - intros [[Hpe Hp] Hh]. assert (Expr_Empty e = false) as Hne by (by apply pred_ok_not_empty).
    split; [split; [done | apply He; [done | split; [done | lia]]] | split; [done | lia]].
Qed.

Lemma validateExpr_exact e : walk_exact e.
Proof.
  revert e. apply mql_Expr_ind. intros ands ors nt eq ne il m nm has missing Hands Hors Hnt depth He.
  rewrite validateExpr_step by done. cbn [e_And e_Or e_Not]. split.
  - intros (Hd & Ha & Ka & Ko & Kn & Kl). assert (Hone : one_arm (mkExpr ands ors nt eq ne il m nm has missing)) by (by apply arms_one).
    apply walk_arms in Ka as [Ka Ha']; [|done|lia]. apply walk_arms in Ko as [Ko Ho']; [|done|lia].
    inversion Hone; subst; cbn [validate_leaf e_Eq e_Ne e_In e_Match e_NoMatch e_Has e_Missing] in Kl.
    all: try (split; [|cbn; lia]; constructor; first [by apply validate_compare_ok | by apply validate_in_ok | by apply validate_match_ok]).
    + change (mkExpr ands [] None None None None None None [] []) with (AndE ands). split; [by apply pk_And | rewrite height_And; lia].
    + change (mkExpr [] ors None None None None None None [] []) with (OrE ors). split; [by apply pk_Or | rewrite height_Or; lia].
    + destruct Kn as [Kne Kn]. apply Hnt in Kn as [Kp Kh]; [|done]. split; [by apply pk_Not | cbn; pose proof (height_pos e); lia].
    + split; [|cbn; lia]. constructor. destruct has; [done|]. by apply checkExists_ok.
    + split; [|cbn; lia]. constructor. destruct missing; [done|]. by apply checkExists_ok.
  - intros [Hp Hh]. pose proof (height_pos (mkExpr ands ors nt eq ne il m nm has missing)) as Hpos.
    assert (Hone : one_arm (mkExpr ands ors nt eq ne il m nm has missing)) by (clear -Hp; inversion Hp as [| | | | | | | |c [Hc _]|c [Hc _]]; subst; by constructor).
    apply arms_one in Hone as [_ Ha]. split; [lia|]. split; [done|].
    inversion Hp; subst; cbn [validate_leaf e_Eq e_Ne e_In e_Match e_NoMatch e_Has e_Missing is_nil negb].
    all: split_and!; try done; first [by apply validate_compare_ok | by apply validate_in_ok | by apply validate_match_ok | idtac].
    + pose proof (height_And ands) as E. unfold AndE in E. apply walk_arms; [done | lia | split; [done | lia]].
    + pose proof (height_Or ors) as E. unfold OrE in E. apply walk_arms; [done | lia | split; [done | lia]].
    + assert (Hne : Expr_Empty e = false) by (by apply pred_ok_not_empty). split; [done|]. apply Hnt; [done|]. split; [done|].
      pose proof (height_pos e). pose proof (height_Not e ltac:(lia)) as E. unfold NotE in E. lia.
    + destruct has; [by match goal with Hk : known_column [] |- _ => destruct Hk end | by apply checkExists_ok].
    + destruct missing; [by match goal with Hk : known_column [] |- _ => destruct Hk end | by apply checkExists_ok].
Qed.

Lemma where_exact e : (validateExpr from sc e 0).2 = None <-> Expr_Empty e = true \/ (pred_ok e /\ height e <= MaxPredicateDepth).
Proof.
  destruct (Expr_Empty e) eqn:He.
  - split; [intros _; by left|]. intros _. destruct e. cbn [validateExpr]. by rewrite He.
  - rewrite (validateExpr_exact e 0 He), Z.add_0_l. split; [intros ?; by right | by intros [|]].
Qed.

(** The size, which [checkPredicateShape] looks at beforehand. *)
Definition spends (e : Expr) : Prop := forall depth budget left, 0 <= budget -> predicateShapeOK e depth budget = Ok left -> size e = budget - left /\ 0 <= left.

Lemma walk_spends l : Forall spends l -> forall depth budget left, 0 <= budget -> walk_list l depth budget = Ok left ->
  sizes l = budget - left /\ 0 <= left.
Proof.
  induction 1 as [|e l He Hl IH]; intros depth budget left Hb; cbn [walk_list]; [intros [= <-]; cbn; lia|].
  destruct (predicateShapeOK e depth budget) as [b1|] eqn:E; [|done]. cbn [rbind]. intros Hw.
  apply He in E as [Hs Hb1]; [|done]. apply IH in Hw as [Hs' Hb']; [|done]. change (sizes (e :: l)) with (size e + sizes l). lia.
Qed.

Lemma pred_children e : pred_ok e ->
  Forall pred_ok (e_And e) /\ Forall pred_ok (e_Or e) /\ match e_Not e with Some sub => pred_ok sub | None => True end.
Proof. by intros []. Qed.

Lemma pred_spends e : pred_ok e -> spends e.
Proof.
  revert e. apply (mql_Expr_ind (fun e => pred_ok e -> spends e)). intros ands ors nt eq ne il m nm has missing Hands Hors Hnt Hp depth budget left Hb.
  destruct (pred_children _ Hp) as (Ha & Ho & Hn). cbn [e_And e_Or e_Not] in *.
  assert (Hsz : size (mkExpr ands ors nt eq ne il m nm has missing) = 1 + sizes ands + sizes ors + match nt with Some x => size x | None => 0 end).
  { reflexivity. }
  rewrite Hsz. set (e := mkExpr ands ors nt eq ne il m nm has missing) in *. assert (He : Expr_Empty e = false) by (by apply pred_ok_not_empty).
  destruct (Z.le_gt_cases MaxPredicateDepth depth); [by rewrite walk_deep|].
  destruct (Z.le_gt_cases 0 (budget - 1)).
  2: { subst e. cbn [predicateShapeOK]. rewrite He, Z.geb_leb, (proj2 (Z.leb_gt _ _)), (proj2 (Z.ltb_lt _ _)) by lia. done. }
  rewrite walk_head by done. subst e. cbn [e_And e_Or e_Not].
  destruct (walk_list ands (depth + 1) (budget - 1)) as [b1|] eqn:E1; [|done]. cbn [rbind].
  apply walk_spends in E1 as [S1 B1]; [|by eapply Forall_mp|done].
  destruct (walk_list ors (depth + 1) b1) as [b2|] eqn:E2; [|done]. cbn [rbind].
  apply walk_spends in E2 as [S2 B2]; [|by eapply Forall_mp|done].
  destruct nt as [sub|]; [|intros [= <-]; lia]. intros E3. apply (Hnt Hn) in E3; lia.
Qed.

Lemma pred_walks e : pred_ok e -> walks e.
Proof.
  revert e. apply (mql_Expr_ind (fun e => pred_ok e -> walks e)). intros ands ors nt eq ne il m nm has missing Hands Hors Hnt Hp.
  assert (He := pred_ok_not_empty _ Hp). inversion Hp; subst; try (by apply bare_walks).
  - apply (compound_walks _ ands); [done | apply size_And | apply height_And | done | by eapply Forall_mp |]. intros. cbn. apply rbind_ok_id.
  - apply (compound_walks _ ors); [done | apply size_Or | apply height_Or | done | by eapply Forall_mp |]. intros. cbn. apply rbind_ok_id.
  - match goal with Hs : pred_ok ?x |- walks (mkExpr [] [] (Some ?x) _ _ _ _ _ _ _) =>
      pose proof (height_pos x); apply (compound_walks _ [x]); [done | cbn; lia | cbn; lia | done | by apply Forall_singleton, Hnt |] end.
    intros. cbn. symmetry. apply rbind_ok_id.
Qed.

(** The bounds of the predicate, as both checks have them. *)
Definition where_ok (e : Expr) : Prop := Expr_Empty e = true \/ (pred_ok e /\ height e <= MaxPredicateDepth /\ size e <= MaxPredicateNodes).

Lemma where_checks e : (is_ok (checkPredicateShape e) = true /\ (validateExpr from sc e 0).2 = None) <-> where_ok e.
Proof.
  rewrite where_exact. unfold where_ok, checkPredicateShape. destruct (Expr_Empty e) eqn:He.
  - split; [intros _; by left|]. intros _. split; [|by left]. destruct e. cbn [predicateShapeOK]. by rewrite He.
  - split.
    + intros [Hs [? | [Hp Hh]]]; [done|]. right. split_and!; [done..|].
      destruct (predicateShapeOK e 0 MaxPredicateNodes) as [left|] eqn:E; [|done]. apply (pred_spends e Hp) in E; [|done]. lia.
    + intros [? | (Hp & Hh & Hs)]; [done|]. split; [|by right]. rewrite pred_walks, Z.add_0_l by done.
      by rewrite (proj2 (Z.leb_le _ _)) by lia.
Qed.

(** ** The selected fields *)

Definition clamp_ok (c : Clamp) : Prop :=
  (cl_Min c <> None \/ cl_Max c <> None) /\ (forall lo hi, cl_Min c = Some lo -> cl_Max c = Some hi -> fgtb lo hi = false) /\
  cl_Else c ∈ [[]; bs "raw"; bs "bound"].

(** A field the catalogue has as text takes no arithmetic; a required one it
    has to have. *)
Definition kind_ok (fe : FieldExpr) : Prop :=
  match sc with
  | None => True
  | Some s =>
      match Field s from (fe_Field fe) with
      | None => m_Required (fe_Modifiers fe) = false
      | Some info => fi_Kind info = bs "string" ->
          m_Delta (fe_Modifiers fe) = false /\ m_PerSecond (fe_Modifiers fe) = false /\ m_Negate (fe_Modifiers fe) = false /\ m_Clamp (fe_Modifiers fe) = None
      end
  end.

Definition modifiers_ok (format : gostr) (m : Modifiers) : Prop :=
  (forall g, m_GapMs m = Some g -> 0 <= g) /\ (forall x, m_SSE m = Some x -> ss_Mode x ∈ [[]; bs "const"; bs "repeat"; bs "off"]) /\
  (forall c, m_Clamp m = Some c -> clamp_ok c) /\ (tabular format = true -> series_modifier m = false).

Definition histogram_ok (format : gostr) (fe : FieldExpr) : Prop :=
  format = FormatHeatmap /\ match sc with Some s => is_Some (BucketSet s from (fe_Histogram fe)) | None => True end /\
  modifierNames (fe_Modifiers fe) = [].

Definition field_ok (format : gostr) (fe : FieldExpr) : Prop :=
  (fe_Histogram fe <> [] /\ histogram_ok format fe) \/
  (fe_Histogram fe = [] /\ fe_Field fe <> [] /\ kind_ok fe /\ modifiers_ok format (fe_Modifiers fe)).

Lemma validate_histogram_ok format fe : validate_histogram from sc format fe = None <-> histogram_ok format fe.
Proof.
  unfold validate_histogram, histogram_ok. destruct (bytes_eqb format FormatHeatmap) eqn:Ef; cbn [negb].
  2: { apply bytes_eqb_neq in Ef. by split; [|intros [? _]]. }
  apply bytes_eqb_spec in Ef. destruct sc as [s|].
  - destruct (BucketSet s from (fe_Histogram fe)) as [b|]; cbn [is_none]; [|by split; [|intros (_ & [] & _)]].
    destruct (modifierNames _); split; first [done | by intros _; split_and!; eauto | by intros (_ & _ & ?)].
  - destruct (modifierNames _); split; first [done | by intros _; split_and!; eauto | by intros (_ & _ & ?)].
Qed.

Lemma validate_known_ok format fe : (validate_known from sc format fe).2 = None <-> kind_ok fe.
Proof.
  unfold validate_known, kind_ok. destruct sc as [s|]; [|done]. destruct (Field s from (fe_Field fe)) as [info|].
  2: { by destruct (m_Required _). }
  destruct (bytes_eqb (fi_Kind info) (bs "string")) eqn:Ek.
  - apply bytes_eqb_spec in Ek. cbn [andb]. destruct (fe_Modifiers fe) as [de ps ne rq ga cl ss]. cbn.
    destruct de, ps, ne, cl; cbn; split; try done; intros Hall; destruct (Hall Ek) as (? & ? & ? & ?); congruence.
  - apply bytes_eqb_neq in Ek. cbn [andb snd]. by split.
Qed.

Lemma validate_clamp_ok f c : validate_clamp f c = None <-> clamp_ok c.
Proof.
  unfold validate_clamp, clamp_ok. assert (Ht : (if existsb (bytes_eqb (cl_Else c)) [[]; bs "raw"; bs "bound"] then None else Some (E008_clamp_else f (cl_Else c))) = None
    <-> cl_Else c ∈ [[]; bs "raw"; bs "bound"]) by (rewrite <- one_of; by destruct (existsb _ _)).
  destruct (cl_Min c) as [lo|], (cl_Max c) as [hi|]; [destruct (fgtb lo hi) eqn:E|..]; rewrite ?Ht; split; try done; try tauto.
  - intros (_ & Ho & _). by rewrite (Ho lo hi eq_refl eq_refl) in E.
  - intros He. split_and!; [by left | by intros ? ? [= <-] [= <-] | done].
  - intros He. split_and!; [by left | done | done].
  - intros He. split_and!; [by right | done | done].
Qed.

Lemma validate_modifiers_ok format fe : validate_modifiers format fe = None <-> modifiers_ok format (fe_Modifiers fe).
Proof.
  unfold validate_modifiers, modifiers_ok. set (m := fe_Modifiers fe).
  assert (Hgap : (match m_GapMs m with Some g => g <? 0 | None => false end) = false <-> forall g, m_GapMs m = Some g -> 0 <= g).
  { destruct (m_GapMs m) as [g|]; [|by split]. rewrite Z.ltb_ge. split; [by intros ? ? [= <-] | by intros Hg; apply Hg]. }
  assert (Hsse : (x ← m_SSE m; validate_sse (fe_Field fe) x) = None <-> forall x, m_SSE m = Some x -> ss_Mode x ∈ [[]; bs "const"; bs "repeat"; bs "off"]).
  { destruct (m_SSE m) as [x|]; [|by split]. unfold mbind, option_bind, validate_sse. destruct (existsb _ _) eqn:E.
    - split; [|done]. intros _ ? [= <-]. by apply one_of.
    - split; [done|]. intros Hx. specialize (Hx x eq_refl). apply one_of in Hx. congruence. }
  assert (Hcl : (c ← m_Clamp m; validate_clamp (fe_Field fe) c) = None <-> forall c, m_Clamp m = Some c -> clamp_ok c).
  { destruct (m_Clamp m) as [c|]; [|by split]. unfold mbind, option_bind. rewrite validate_clamp_ok. split; [by intros ? ? [= <-] | by intros Hc; apply Hc]. }
  destruct (match m_GapMs m with Some g => g <? 0 | None => false end); [split; [done|]; intros (Hg & _); by apply Hgap in Hg|].
  destruct (x ← m_SSE m; _); [split; [done|]; intros (_ & Hx & _); by apply Hsse in Hx|].
  destruct (c ← m_Clamp m; _); [split; [done|]; intros (_ & _ & Hx & _); by apply Hcl in Hx|].
  rewrite <- Hgap, <- Hsse, <- Hcl. destruct (tabular format), (series_modifier m); cbn; split; try done; intros (_ & _ & _ & Hx); by specialize (Hx eq_refl).
Qed.

Lemma validate_field_ok format names fe :
  (validate_field from sc format names fe).2 = None <-> field_ok format fe /\ FieldExpr_Name fe ∉ names.
Proof.
  unfold validate_field, field_ok. destruct (bool_decide (FieldExpr_Name fe ∈ names)) eqn:En.
  - apply bool_decide_eq_true in En. destruct (_ && _); cbn; split; try done; by intros [_ ?].
  - apply bool_decide_eq_false in En. destruct (fe_Histogram fe) as [|h hs] eqn:Eh; cbn [is_nil negb].
    + destruct (fe_Field fe) as [|b f] eqn:Ef; cbn [is_nil andb].
      { split; [done|]. by intros [[[? _] | (_ & ? & _)] _]. }
      rewrite then_ok, validate_known_ok. cbn [snd]. rewrite validate_modifiers_ok. split; [|intros [[[Hh _] | (_ & _ & Hk & Hm)] _]; [by destruct Hh | by split]].
      intros [? ?]. split; [|done]. right. by split_and!.
    + rewrite andb_false_r. cbn [snd]. rewrite validate_histogram_ok. split; [|by intros [[[_ ?] | [? _]] _]].
      intros ?. split; [|done]. by left.
Qed.

Lemma validate_select_ok format sel : forall names, (validate_select from sc format names sel).2 = None <->
  NoDup (map FieldExpr_Name sel) /\ Forall (field_ok format) sel /\ Forall (fun fe => FieldExpr_Name fe ∉ names) sel.
Proof.
  induction sel as [|fe sel IH]; intros names; cbn [validate_select map]; [split; [intros _; split; [constructor | split; constructor] | done]|].
  rewrite then_ok, validate_field_ok, IH, NoDup_cons, !Forall_cons. split.
  - intros [[Hf Hn] (Hd & Hall & Hfresh)]. split_and!; try done.
    + intros (fe' & Heq & Hin)%list_elem_of_fmap. rewrite Forall_forall in Hfresh. apply (Hfresh fe' Hin). rewrite <- Heq. apply elem_of_cons. by left.
    + eapply Forall_impl; [exact Hfresh|]. intros fe' Hf'. by apply not_elem_of_cons in Hf' as [_ ?].
  - intros ([Hni Hd] & [Hf Hall] & [Hn Hfresh]). split_and!; try done. rewrite Forall_forall in Hfresh |- *. intros fe' Hin.
    apply not_elem_of_cons. split; [|by apply Hfresh]. intros Heq. apply Hni, list_elem_of_fmap. by exists fe'.
Qed.

(** ** The grouping *)

Definition slot_ok (l : gostr) : Prop := l <> [] /\ match sc with Some s => HasLabel s from l = true | None => True end.

Lemma validate_by_ok by_ : forall seen, (validate_by from sc seen by_).2 = None <-> NoDup by_ /\ Forall slot_ok by_ /\ Forall (fun l => l ∉ seen) by_.
Proof.
  induction by_ as [|l by_ IH]; intros seen; cbn [validate_by]; [split; [intros _; split; [constructor | split; constructor] | done]|].
  assert (Hrest : l <> [] -> l ∉ seen -> match sc with Some s => HasLabel s from l = true | None => True end ->
    (validate_by from sc (l :: seen) by_).2 = None <-> NoDup (l :: by_) /\ Forall slot_ok (l :: by_) /\ Forall (fun l => l ∉ seen) (l :: by_)).
  { intros Hl Hs Hk. rewrite IH, NoDup_cons, !Forall_cons. split.
    - intros (Hd & Hok & Hf). split_and!; try done.
      + intros Hin. rewrite Forall_forall in Hf. apply (Hf l Hin), elem_of_cons. by left.
      + eapply Forall_impl; [exact Hf|]. intros l' Hl'. by apply not_elem_of_cons in Hl' as [_ ?].
    - intros ([Hni Hd] & [_ Hok] & [_ Hf]). split_and!; try done. rewrite Forall_forall in Hf |- *. intros l' Hin.
      apply not_elem_of_cons. split; [by intros -> | by apply Hf]. }
  rewrite !Forall_cons in Hrest. rewrite !Forall_cons. unfold slot_ok at 1 in Hrest. unfold slot_ok at 1.
  destruct l as [|b l]; cbn [is_nil]; [split; [done|]; by intros (_ & [[? _] _] & _)|].
  destruct (bool_decide _) eqn:Es; [apply bool_decide_eq_true in Es; split; [done|]; by intros (_ & _ & [? _])|]. apply bool_decide_eq_false in Es.
  destruct sc as [s|]; [|by apply Hrest]. destruct (HasLabel s from (b :: l)) eqn:Eh; cbn [negb]; [|split; [done|]; by intros (_ & [[_ ?] _] & _)].
  rewrite then_ok. cbn [snd]. rewrite <- Hrest by done. tauto.
Qed.
End Accepts.

(** ** The query *)

Definition limit_ok (o : option Z) (max : Z) : Prop := forall n, o = Some n -> 0 < n /\ (0 < max -> n <= max).

Lemma validate_limits_ok li maxSeries maxPoints :
  validate_limits li maxSeries maxPoints = None <-> limit_ok (li_Series li) maxSeries /\ limit_ok (li_Points li) maxPoints.
Proof.
  assert (Hone : forall o max, limit_ok o max <->
    match o with Some n => n <=? 0 | None => false end = false /\ match o with Some n => (max >? 0) && (n >? max) | None => false end = false).
  { intros [n|] max; unfold limit_ok; [|by split]. split.
    - intros Hn. destruct (Hn n eq_refl) as [Hp Hm]. split; [lia|]. destruct (max >? 0) eqn:E; [bsplit; cbn [andb]; lia | done].
    - intros [Hp Hm] ? [= <-]. split; [lia|]. intros Hpos. apply andb_false_iff in Hm as [|]; lia. }
  rewrite !Hone. unfold validate_limits. destruct (li_Series li) as [a|], (li_Points li) as [b|]; cbn [fmap option_fmap option_map].
  all: repeat match goal with |- context [if ?x then _ else _] => destruct x end; split; try done; try (by intros [[? ?] [? ?]]).
Qed.

Section Query_.
Context `{Unicode} `{Regexp} `{RC : !RegexpCompile} (sc : option Schema).

Definition from_ok (q : Query) : Prop := q_From q <> [] /\ match sc with Some s => HasSet s (q_From q) = true | None => True end.

Record data_ok (q : Query) (maxSeries maxPoints : Z) : Prop := {
  dk_from : from_ok q;
  dk_select : q_Select q <> [] /\ zlen (q_Select q) <= MaxSelectFields;
  dk_format : q_Format q ∈ [[]; FormatTimeseries; FormatTable; FormatHeatmap; FormatLogs];
  dk_every : forall ms, q_EveryMs q = Some ms -> 0 < ms;
  dk_names : NoDup (map FieldExpr_Name (q_Select q));
  dk_fields : Forall (field_ok (q_From q) sc (drawn_format q)) (q_Select q);
  dk_tabular : tabular (drawn_format q) = true -> q_EveryMs q = None /\ li_Series (q_Limits q) = None;
  dk_heatmap : drawn_format q = FormatHeatmap -> exists fe, q_Select q = [fe] /\ fe_Histogram fe <> [];
  dk_where : where_ok (q_From q) sc (q_Where q);
  dk_by : zlen (q_By q) <= MaxByLabels /\ NoDup (q_By q) /\ Forall (slot_ok (q_From q) sc) (q_By q);
  dk_limits : limit_ok (li_Series (q_Limits q)) maxSeries /\ limit_ok (li_Points (q_Limits q)) maxPoints;
}.

Definition acceptable (q : Query) (maxSeries maxPoints : Z) : Prop :=
  checkUnusedClauses q = None /\
  (((q_Kind q = [] \/ q_Kind q = KindQuery) /\ data_ok q maxSeries maxPoints) \/
   q_Kind q = KindSets \/
   ((q_Kind q = KindFields \/ q_Kind q = KindLabelKeys) /\ from_ok q) \/
   (q_Kind q = KindLabels /\ q_Label q <> [] /\ where_ok (q_From q) None (q_Where q))).

Lemma validate_tabular_ok q : validate_tabular q = None <-> (tabular (drawn_format q) = true -> q_EveryMs q = None /\ li_Series (q_Limits q) = None).
Proof.
  unfold validate_tabular. destruct (tabular _); [|by split]. destruct (q_EveryMs q), (li_Series (q_Limits q)); cbn; split; try done.
  all: intros Hx; by destruct (Hx eq_refl).
Qed.

Lemma validate_heatmap_ok q : q_Select q <> [] ->
  validate_heatmap q = None <-> (drawn_format q = FormatHeatmap -> exists fe, q_Select q = [fe] /\ fe_Histogram fe <> []).
Proof.
  intros Hne. unfold validate_heatmap. destruct (bytes_eqb _ _) eqn:Ef; [|apply bytes_eqb_neq in Ef; by split].
  apply bytes_eqb_spec in Ef. destruct (q_Select q) as [|fe [|fe2 l]]; [done| |].
  - cbn. rewrite orb_false_r. destruct (fe_Histogram fe) as [|b h] eqn:Eh; cbn.
    + split; [done|]. intros Hx. destruct (Hx Ef) as (? & [= <-] & Hn). by rewrite Eh in Hn.
    + split; [|done]. intros _ _. exists fe. by rewrite Eh.
  - assert (Hz : (zlen (fe :: fe2 :: l) >? 1) = true) by (apply Z.gtb_lt; unfold zlen; cbn [length]; lia). rewrite Hz.
    split; [by destruct (existsb _ _)|]. intros Hx. by destruct (Hx Ef) as (? & ? & _).
Qed.

Lemma validate_data_ok q maxSeries maxPoints : from_ok q ->
  (is_ok (checkPredicateShape (q_Where q)) = true /\ (validate_data sc q maxSeries maxPoints).2 = None) <-> data_ok q maxSeries maxPoints.
Proof.
  intros Hfrom. unfold validate_data. split.
  - intros [Hshape Hv]. destruct (is_nil (q_Select q)) eqn:E1; [done|]. apply is_nil_false in E1.
    destruct (zlen (q_Select q) >? _) eqn:E2; [done|]. destruct (existsb _ _) eqn:E3; [|done]. apply one_of in E3.
    destruct (match q_EveryMs q with Some ms => ms <=? 0 | None => false end) eqn:E4; [done|].
    destruct (validate_select _ _ _ _ _) as [warns [d|]] eqn:E5; [done|].
    assert (Hsel : (validate_select (q_From q) sc (drawn_format q) [] (q_Select q)).2 = None) by (by rewrite E5).
    apply validate_select_ok in Hsel as (Hnames & Hfields & _).
    cbn [negb] in Hv. destruct (validate_tabular q) eqn:E6; [done|]. rewrite !then_ok in Hv. cbn [snd] in Hv. destruct Hv as (_ & Hw & Hby & Hslots & Hlim & Hheat).
    destruct (zlen (q_By q) >? _) eqn:E7; [done|]. bsplit. constructor; [done | | done | | done | done | | | | |].
    + split; [done | lia].
    + intros ms Hms. rewrite Hms in E4. bsplit. lia.
    + by apply validate_tabular_ok.
    + by apply validate_heatmap_ok.
    + by apply where_checks.
    + apply validate_by_ok in Hslots as (? & ? & _). split_and!; [lia | done | done].
    + by apply validate_limits_ok.
  - intros [_ [Hne Hlen] Hfmt Hev Hnames Hfields Htab Hheat Hw [Hby [Hnd Hslots]] Hlim].
    apply where_checks in Hw as [Hshape Hw]. split; [done|].
    rewrite (proj2 (is_nil_false _) Hne), (proj2 (one_of _ _) Hfmt). cbn [negb].
    destruct (zlen (q_Select q) >? _) eqn:E2; [bsplit; lia|].
    assert (match q_EveryMs q with Some ms => ms <=? 0 | None => false end = false) as ->
      by (destruct (q_EveryMs q) as [ms|]; [specialize (Hev ms eq_refl); lia | done]).
    assert (Hsel : (validate_select (q_From q) sc (drawn_format q) [] (q_Select q)).2 = None).
    { apply validate_select_ok. split_and!; [done..|]. apply Forall_forall. intros ? _. apply not_elem_of_nil. }
    destruct (validate_select _ _ _ _ _) as [warns r]. cbn [snd] in Hsel. subst r.
    rewrite (proj2 (validate_tabular_ok q) Htab), !then_ok. cbn [snd]. split_and!; try done.
    + destruct (zlen (q_By q) >? _) eqn:E; [bsplit; lia | done].
    + apply validate_by_ok. split_and!; [done..|]. apply Forall_forall. intros ? _. apply not_elem_of_nil.
    + by apply validate_limits_ok.
    + by apply validate_heatmap_ok.
Qed.

Lemma empty_shape e : Expr_Empty e = true -> is_ok (checkPredicateShape e) = true.
Proof. intros He. unfold checkPredicateShape. destruct e. cbn [predicateShapeOK]. by rewrite He. Qed.

(** An auxiliary query that is not [LABELS] carries no predicate. *)
Lemma unused_where q : checkUnusedClauses q = None -> q_Kind q ∈ [KindSets; KindFields; KindLabelKeys] -> Expr_Empty (q_Where q) = true.
Proof.
  intros Hu Hk. destruct (Expr_Empty (q_Where q)) eqn:He; [done|]. exfalso. revert Hu. unfold checkUnusedClauses. rewrite He.
  apply elem_of_cons in Hk as [-> | Hk]; [|apply elem_of_cons in Hk as [-> | ->%list_elem_of_singleton]]; cbn.
  all: repeat case_match; done.
Qed.

Lemma validate_from_ok q : validate_from sc q = None <-> from_ok q.
Proof.
  unfold validate_from, from_ok. destruct (q_From q) as [|b f]; cbn [is_nil]; [by split; [|intros [? _]]|]. destruct sc as [s|]; [|by split].
  destruct (HasSet s (b :: f)); split; first [done | by intros _; split | by intros [_ ?]].
Qed.

Ltac other_kinds H := exfalso; decompose [and or] H; match goal with K : _ = _ |- _ => vm_compute in K; discriminate K end.

Lemma ValidateQuery_exact (q : Query) (maxSeries maxPoints : Z) :
  (ValidateQuery sc q maxSeries maxPoints).2 = None <-> acceptable q maxSeries maxPoints.
Proof.
  unfold ValidateQuery, acceptable.
  destruct (existsb (bytes_eqb (q_Kind q)) _) eqn:Ek.
  2: { split; [done|]. intros [_ Hk]. rewrite <- not_true_iff_false, one_of in Ek. exfalso. apply Ek.
       destruct Hk as [[[-> | ->] _] | [-> | [[[-> | ->] _] | [-> _]]]]; repeat (apply elem_of_cons; first [left; reflexivity | right]). }
  destruct (checkUnusedClauses q) as [c|] eqn:Eu; [by split; [|intros [? _]]|].
  assert (Hshape : forall r : list VDiag * option VDiag,
    (match checkPredicateShape (q_Where q) with Err e => ([], Some (shape_diag e)) | Ok _ => r end).2 = None <->
    is_ok (checkPredicateShape (q_Where q)) = true /\ r.2 = None) by (intros r; destruct (checkPredicateShape _); cbn; [by split; [|intros [_ ?]] | by split; [|intros [? _]]]).
  cbn [negb]. rewrite Hshape. clear Hshape. apply one_of in Ek.
  assert (Haux : q_Kind q ∈ [KindSets; KindFields; KindLabelKeys] -> is_ok (checkPredicateShape (q_Where q)) = true)
    by (intros Hk; by apply empty_shape, unused_where).
  assert (Hfrom : forall r : list VDiag * option VDiag,
    (match validate_from sc q with Some d => ([], Some d) | None => r end).2 = None <-> from_ok q /\ r.2 = None)
    by (intros r; rewrite <- validate_from_ok; destruct (validate_from sc q); cbn; [by split; [|intros [? _]] | by split; [|intros [_ ?]]]).
  repeat (apply elem_of_cons in Ek as [Ek | Ek]); [| | | | | |by apply elem_of_nil in Ek]; rewrite Ek in *.
  all: repeat match goal with |- context [bytes_eqb ?a ?b] =>
         let v := eval vm_compute in (bytes_eqb a b) in change (bytes_eqb a b) with v end; cbn [orb].
  - rewrite Hfrom. split.
    + intros (Hsh & Hf & Hd). split; [done|]. left. split; [by left|]. by apply validate_data_ok.
    + intros [_ [[_ Hd] | Ho]]; [|other_kinds Ho]. assert (Hf := dk_from _ _ _ Hd). by apply validate_data_ok in Hd as [? ?].
  - rewrite Hfrom. split.
    + intros (Hsh & Hf & Hd). split; [done|]. left. split; [by right|]. by apply validate_data_ok.
    + intros [_ [[_ Hd] | Ho]]; [|other_kinds Ho]. assert (Hf := dk_from _ _ _ Hd). by apply validate_data_ok in Hd as [? ?].
  - split; [intros _; split; [done|]; right; by left|]. intros _. split; [|done]. apply Haux. set_solver.
  - rewrite Hfrom. split; [intros (_ & Hf & _); split; [done|]; right; right; left; split; [by left | done]|].
    intros [_ [[Ho _] | [Ho | [[_ Hf] | [Ho _]]]]]; [other_kinds Ho | other_kinds Ho | split; [apply Haux; set_solver | by split] | other_kinds Ho].
  - split.
    + intros [Hsh Hl]. split; [done|]. right. right. right. split; [done|]. destruct (q_Label q); [done|]. cbn [is_nil] in Hl. split; [done|].
      by apply where_checks.
    + intros [_ [[Ho _] | [Ho | [[Ho _] | (_ & Hl & Hw)]]]]; [other_kinds Ho..|]. apply where_checks in Hw as [Hsh Hw]. split; [done|].
      by destruct (q_Label q).
  - rewrite Hfrom. split; [intros (_ & Hf & _); split; [done|]; right; right; left; split; [by right | done]|].
    intros [_ [[Ho _] | [Ho | [[_ Hf] | [Ho _]]]]]; [other_kinds Ho | other_kinds Ho | split; [apply Haux; set_solver | by split] | other_kinds Ho].
Qed.

(** C33: [Validate] finds no fault exactly in these queries: no clause its
    kind would ignore, and for a data query a known set; at most 1024
    selected fields with distinct names, each with modifiers that fit its
    kind and the format; a predicate that is a tagged union of height at
    most 64 and size at most 1024 which compares labels the set has with
    values that are no unresolved variables; distinct grouping labels; and
    limits that are positive and within the ceilings. *)
Theorem ValidateQuery_accepts (q : Query) (maxSeries maxPoints : Z) :
  (ValidateQuery sc q maxSeries maxPoints).2 = None <-> acceptable q maxSeries maxPoints.
Proof. apply ValidateQuery_exact. Qed.
End Query_.
