(* ===== verification/Render.v ===== *)
(** * Render: the per-series downsampling walk

    [pkg/render/render.go]: one pass over a series' sorted samples, ten
    stages per sample, one flush per window, and the padding of points the
    finished series leaves stranded.  Definitions here; the theorems are
    in [RenderProofs]. *)

From Stdlib Require Import ZArith Lia Bool.
From Stdlib Require Import Floats.SpecFloat.
From S2P Require Import Prelude Float64.

Record Point := { p_Value : f64; p_TSMs : Z }.
Record Output := { o_TSMs : Z; o_Value : f64; o_Null : bool }.

Definition real (t : Z) (v : f64) : Output := {| o_TSMs := t; o_Value := v; o_Null := false |}.
Definition null_at (t : Z) : Output := {| o_TSMs := t; o_Value := f_zero; o_Null := true |}.

Inductive SSEMode := SSEConst | SSERepeat | SSEOff.
Record SSE := { sse_Mode : SSEMode; sse_Value : f64 }.

Record Spec := {
  sp_Delta : bool;
  sp_PerSecond : bool;
  sp_Negate : bool;
  sp_GapMs : Z;
  sp_ClampMin : option f64;
  sp_ClampMax : option f64;
  sp_ClampElseRaw : bool;
  sp_SSE : SSE;
  sp_EndMs : Z;
}.

Definition ssePadMs : Z := 500.

(** ** Window width *)

Definition SingleWindow (rangeMs maxDataPoints intervalMs : Z) : Z :=
  let maxDataPoints := if maxDataPoints <=? 0 then 1 else maxDataPoints in
  let w := rangeMs /go maxDataPoints in
  let w := if (0 <? intervalMs) && (intervalMs <? w) then intervalMs else w in
  if w <? 0 then 0 else w.

Definition Window (rangeMs maxDataPoints intervalMs : Z) : Z :=
  i64 (SingleWindow rangeMs maxDataPoints intervalMs * 2).

(** ** [sort.SliceStable] by time *)

Fixpoint insert_point (x : Point) (l : list Point) : list Point :=
  match l with
  | [] => [x]
  | y :: l' => if p_TSMs x <=? p_TSMs y then x :: l else y :: insert_point x l'
  end.
Definition sort_points (l : list Point) : list Point := foldr insert_point [] l.

(** ** One window's output *)

(** The slots a window's nulls fall into; a later null of the same slot
    replaces an earlier one, and one on an extremum is dropped. *)
Record slots := { sl_before : Z; sl_mid : Z; sl_after : Z }.
Definition classify (lo hi : Z) (sl : slots) (n : Z) : slots :=
  if n <? lo then {| sl_before := n; sl_mid := sl_mid sl; sl_after := sl_after sl |}
  else if hi <? n then {| sl_before := sl_before sl; sl_mid := sl_mid sl; sl_after := n |}
  else if (lo <? n) && (n <? hi) then {| sl_before := sl_before sl; sl_mid := n; sl_after := sl_after sl |}
  else sl.
Definition no_slots : slots := {| sl_before := -1; sl_mid := -1; sl_after := -1 |}.

Definition emitWindow (wMin wMax : Point) (have : bool) (nulls : list Z) : list Output :=
  if negb have then []
  else
    let lo := if p_TSMs wMax <? p_TSMs wMin then p_TSMs wMax else p_TSMs wMin in
    let hi := if p_TSMs wMax <? p_TSMs wMin then p_TSMs wMin else p_TSMs wMax in
    let sl := foldl (classify lo hi) no_slots nulls in
    (if -1 <? sl_before sl then [null_at (sl_before sl)] else []) ++
    (if p_TSMs wMin <? p_TSMs wMax then [real (p_TSMs wMin) (p_Value wMin)]
     else [real (p_TSMs wMax) (p_Value wMax)]) ++
    (if -1 <? sl_mid sl then [null_at (sl_mid sl)] else []) ++
    (if p_TSMs wMax <? p_TSMs wMin then [real (p_TSMs wMin) (p_Value wMin)]
     else if p_TSMs wMin <? p_TSMs wMax then [real (p_TSMs wMax) (p_Value wMax)]
     else []) ++
    (if -1 <? sl_after sl then [null_at (sl_after sl)] else []).

(** ** The walk *)

(** The variables of the loop. *)
Record walk := {
  w_out : list Output;
  w_last : Z;           (* lastPointTime *)
  w_lastValue : f64;
  w_isFirst : bool;
  w_start : Z;          (* windowStart *)
  w_haveWindow : bool;
  w_min : Point;
  w_max : Point;
  w_haveExtrema : bool;
  w_nulls : list Z;
}.

Definition walk0 : walk :=
  {| w_out := []; w_last := -1; w_lastValue := f_zero; w_isFirst := true; w_start := 0;
     w_haveWindow := false; w_min := {| p_Value := f_zero; p_TSMs := 0 |};
     w_max := {| p_Value := f_zero; p_TSMs := 0 |}; w_haveExtrema := false; w_nulls := [] |}.

Definition set_raw (last : Z) (nulls : list Z) (st : walk) : walk :=
  {| w_out := w_out st; w_last := last; w_lastValue := w_lastValue st; w_isFirst := w_isFirst st;
     w_start := w_start st; w_haveWindow := w_haveWindow st; w_min := w_min st; w_max := w_max st;
     w_haveExtrema := w_haveExtrema st; w_nulls := nulls |}.
Definition set_delta (isFirst : bool) (lastValue : f64) (st : walk) : walk :=
  {| w_out := w_out st; w_last := w_last st; w_lastValue := lastValue; w_isFirst := isFirst;
     w_start := w_start st; w_haveWindow := w_haveWindow st; w_min := w_min st; w_max := w_max st;
     w_haveExtrema := w_haveExtrema st; w_nulls := w_nulls st |}.

(** Stage 1. *)
Definition gap_nulls (spec : Spec) (last ts : Z) (nulls : list Z) : list Z :=
  if negb (last =? -1) && negb (sp_GapMs spec =? 0) && (sp_GapMs spec <? i64 (ts - last))
  then nulls ++ [i64 (ts - 1)] else nulls.

(** Stage 6. *)
Definition clamp (spec : Spec) (raw val : f64) : f64 :=
  let val :=
    match sp_ClampMin spec with
    | Some m => if fltb val m then (if sp_ClampElseRaw spec then raw else m) else val
    | None => val
    end in
  match sp_ClampMax spec with
  | Some m => if fgtb val m then (if sp_ClampElseRaw spec then raw else m) else val
  | None => val
  end.

(** Stages 3 to 7: the value the sample is drawn at, or [None] when it is
    consumed; and the delta state. *)
Definition transform (spec : Spec) (isFirst : bool) (lastValue : f64) (prev ts : Z) (raw : f64)
    : option f64 * (bool * f64) :=
  if sp_Delta spec && isFirst then (None, (false, raw))
  else
    let val := if sp_Delta spec then fsub raw lastValue else raw in
    let delta := if sp_Delta spec then (isFirst, raw) else (isFirst, lastValue) in
    let val := if sp_Negate spec then fneg val else val in
    let val := clamp spec raw val in
    if sp_PerSecond spec then
      if prev <? 0 then (None, delta)
      else
        let tr := fdiv (of_int (i64 (ts - prev))) (of_int 1000) in
        (Some (if fgtb tr f_zero then fdiv val tr else val), delta)
    else (Some val, delta).

(** Stages 8 to 10. *)
Definition accumulate (window : Z) (st : walk) (val : f64) (ts : Z) : walk :=
  let start := if w_haveWindow st then w_start st else ts in
  let pt := {| p_Value := val; p_TSMs := ts |} in
  let crossed := window <? i64 (ts - start) in
  let out := if crossed then w_out st ++ emitWindow (w_min st) (w_max st) (w_haveExtrema st) (w_nulls st) else w_out st in
  let start := if crossed then ts else start in
  let nulls := if crossed then [] else w_nulls st in
  let have := if crossed then false else w_haveExtrema st in
  {| w_out := out; w_last := w_last st; w_lastValue := w_lastValue st; w_isFirst := w_isFirst st;
     w_start := start; w_haveWindow := true;
     w_min := if negb have then pt else if fltb val (p_Value (w_min st)) then pt else w_min st;
     w_max := if negb have then pt else if fgtb val (p_Value (w_max st)) then pt else w_max st;
     w_haveExtrema := true; w_nulls := nulls |}.

Definition series_step (spec : Spec) (window : Z) (st : walk) (s : Point) : walk :=
  let ts := p_TSMs s in
  let prev := w_last st in
  let st1 := set_raw ts (gap_nulls spec prev ts (w_nulls st)) st in
  if prev =? ts then st1
  else
    let '(val, (isFirst, lastValue)) := transform spec (w_isFirst st) (w_lastValue st) prev ts (p_Value s) in
    let st2 := set_delta isFirst lastValue st1 in
    match val with
    | None => st2
    | Some v => accumulate window st2 v ts
    end.

Definition walk_all (spec : Spec) (window : Z) (points : list Point) : walk :=
  foldl (series_step spec window) walk0 (sort_points points).

(** The tail flush and the trailing break. *)
Definition tail_flush (st : walk) : list Output :=
  if w_haveExtrema st then w_out st ++ emitWindow (w_min st) (w_max st) (w_haveExtrema st) (w_nulls st)
  else w_out st.

Definition trailing_break (spec : Spec) (lastPointTime : Z) (out : list Output) : list Output :=
  match last out with
  | None => out
  | Some o =>
      if negb (sp_GapMs spec =? 0) && (0 <? sp_EndMs spec) && negb (lastPointTime =? -1) &&
         (sp_GapMs spec <? i64 (sp_EndMs spec - lastPointTime))
      then
        let at_ := i64 (lastPointTime + sp_GapMs spec) in
        if o_TSMs o <? at_ then out ++ [null_at at_] else out
      else out
  end.

(** The finished series before padding. *)
Definition walk_out (spec : Spec) (window : Z) (points : list Point) : list Output :=
  let st := walk_all spec window points in
  trailing_break spec (w_last st) (tail_flush st).

(** ** Singular-series padding *)

(** One turn of the loop of [padIsolated]: the neighbours are those of the
    original series. *)
Definition pad_point (sse : SSE) (left right : option Output) (p : Output) : list Output :=
  if o_Null p then [p]
  else
    let leftBreak := match left with None => true | Some l => o_Null l end in
    let rightBreak := match right with None => true | Some r => o_Null r end in
    if negb leftBreak || negb rightBreak then [p]
    else
      let value := match sse_Mode sse with SSERepeat => o_Value p | _ => sse_Value sse end in
      let before := i64 (o_TSMs p - ssePadMs) in
      let before := match left with
                    | Some l => if before <? i64 (o_TSMs l + 1) then i64 (o_TSMs l + 1) else before
                    | None => before end in
      let after := i64 (o_TSMs p + ssePadMs) in
      let after := match right with
                   | Some r => if i64 (o_TSMs r - 1) <? after then i64 (o_TSMs r - 1) else after
                   | None => after end in
      (if before <? o_TSMs p then [real before value] else []) ++ [p] ++
      (if o_TSMs p <? after then [real after value] else []).

Fixpoint pad_loop (sse : SSE) (left : option Output) (out : list Output) : list Output :=
  match out with
  | [] => []
  | p :: rest => pad_point sse left (head rest) p ++ pad_loop sse (Some p) rest
  end.

Definition padIsolated (out : list Output) (sse : SSE) : list Output :=
  match sse_Mode sse with
  | SSEOff => out
  | _ => pad_loop sse None out
  end.

Definition Series (points : list Point) (spec : Spec) (window : Z) : list Output :=
  padIsolated (walk_out spec window points) (sp_SSE spec).
