(* ===== verification/StoreShard.v ===== *)
(** * Time shards ([internal/store/store.go])

    A logical set is stored as physical sets, one for each span of time;
    the name of a shard carries its start and, when it is not a day or an
    hour, its width.  Timestamps are those a sample may carry, so a year
    has four digits. *)

From Stdlib Require Import ZArith Lia Bool Strings.Byte Strings.String.
From stdpp Require Import sorting.
From S2P Require Import Prelude Bytes GoStd GoText GoTime Model ExtractTimestamp.

(** ** Names *)

Definition Hour : Z := 3600 * 1000000000.
Definition shardAll : gostr := bs "all".

(** The hour counts that divide a day. *)
Definition subDayShardHours : list Z := [1; 2; 3; 4; 6; 8; 12].

(** A width in nanoseconds as whole hours, and whether that is exact. *)
Definition normaliseShardWidth (w : Z) : Z * bool :=
  if w >=? 24 * Hour then
    let days := w /go (24 * Hour) in (days * 24, w =? days * 24 * Hour)
  else
    let want := w /go Hour in
    let best := foldl (fun best h => if h <=? want then h else best) 1 subDayShardHours in
    (best, best * Hour =? w).

Definition floorDiv (a b : Z) : Z :=
  let q := a /go b in
  if negb (a %go b =? 0) && negb (Bool.eqb (a <? 0) (b <? 0)) then q - 1 else q.

Definition mod_ (a b : Z) : Z :=
  let m := a %go b in if m <? 0 then m + b else m.

Definition at_sign : gostr := [x40].

(** [time.UnixMilli(ts).Unix()]. *)
Definition unix_seconds (tsMs : Z) : Z := tsMs / 1000.

Definition shardNameAt (set : gostr) (tsMs w : Z) : gostr :=
  set ++ at_sign ++
  if w <=? 0 then shardAll
  else
    let '(hours, _) := normaliseShardWidth w in
    let unix := unix_seconds tsMs in
    if hours %go 24 =? 0 then
      let days := hours /go 24 in
      let day := floorDiv unix 86400 in
      let start := format_date (day - mod_ day days) in
      if days =? 1 then start else start ++ [x2d] ++ FormatInt days ++ [x64]
    else
      let hour := unix mod 86400 / 3600 in
      let start := format_hour (unix / 86400) (hour - hour %go hours) in
      if hours =? 1 then start else start ++ [x2d] ++ FormatInt hours ++ [x68].

(** [strings.Cut] at a byte: what follows is [None] when it is absent. *)
Fixpoint Cut (c : byte) (s : gostr) : gostr * option gostr :=
  match s with
  | [] => ([], None)
  | b :: s' =>
      if byte_eqb b c then ([], Some s')
      else let '(before, after) := Cut c s' in (b :: before, after)
  end.

(** The start of a shard in seconds and its width in nanoseconds. *)
Definition parseShardSuffix (suffix : gostr) : option (Z * Z) :=
  let '(stamp, unit) := Cut x2d suffix in
  match
    (if zlen stamp =? 8 then (fun d => (86400 * d, 24 * Hour)) <$> parse_date stamp
     else if zlen stamp =? 10 then (fun h => (3600 * h, Hour)) <$> parse_hour stamp
     else None)
  with
  | None => None
  | Some (start, width) =>
      match unit with
      | None => Some (start, width)
      | Some unit =>
          if zlen unit <? 2 then None
          else
            match ParseInt (take (length unit - 1) unit) with
            | None => None
            | Some n =>
                if n <=? 0 then None
                else match last unit with
                     | Some x68 => Some (start, i64 (n * Hour))
                     | Some x64 => Some (start, i64 (i64 (n * 24) * Hour))
                     | _ => None
                     end
            end
      end
  end.

Definition start_ms (start : Z) : Z := start * 1000.
(** [start.Add(width).UnixMilli()]. *)
Definition end_ms (start width : Z) : Z := (start * 1000000000 + width) / 1000000.

(** ** The shards of a range *)

Record shard : Type := { sh_name : gostr; sh_start : Z; sh_end : Z }.

Definition shard_le (a b : shard) : Prop :=
  sh_start a < sh_start b \/ (sh_start a = sh_start b /\ str_le (sh_name a) (sh_name b)).
#[export] Instance shard_le_dec a b : Decision (shard_le a b).
Proof. unfold shard_le. apply _. Defined.

Definition found_shard (set : gostr) (fromMs toMs : Z) (name : gostr) : option shard :=
  let prefix := set ++ at_sign in
  if negb (HasPrefix name prefix) then None
  else
    let suffix := drop (length prefix) name in
    if bytes_eqb suffix shardAll then Some {| sh_name := name; sh_start := i64_min; sh_end := i64_max |}
    else
      match parseShardSuffix suffix with
      | None => None
      | Some (start, width) =>
          if (end_ms start width <=? fromMs) || (start_ms start >? toMs) then None
          else Some {| sh_name := name; sh_start := start_ms start; sh_end := end_ms start width |}
      end.

Fixpoint any_overlap (covered : Z) (l : list shard) : bool :=
  match l with
  | [] => false
  | s :: l' => (sh_start s <? covered) || any_overlap (Z.max covered (sh_end s)) l'
  end.

(** The names, oldest first, and whether two shards share an instant. *)
Definition shardsInRange (set : gostr) (names : list gostr) (fromMs toMs : Z) : list gostr * bool :=
  let found := merge_sort shard_le (omap (found_shard set fromMs toMs) names) in
  (map sh_name found, any_overlap i64_min found).

(** [oldestShardStartMs]: zero for a set with an unsharded shard. *)
Fixpoint last_at (s : gostr) (found : option gostr) : option gostr :=
  match s with
  | [] => found
  | b :: s' => if byte_eqb b x40 then last_at s' (Some s') else last_at s' found
  end.

(** What follows the last [@] of a name. *)
Definition shard_suffix (name : gostr) : option gostr := last_at name None.

Definition oldestShardStartMs (shards : list gostr) : Z :=
  match shards with
  | [] => 0
  | name :: _ =>
      match shard_suffix name with
      | None => 0
      | Some suffix =>
          if bytes_eqb suffix shardAll then 0
          else match parseShardSuffix suffix with Some (start, _) => start_ms start | None => 0 end
      end
  end.

(** ** Widths *)

Lemma normalise_days w : 24 * Hour <= w ->
  exists days, 1 <= days /\ days * 24 * Hour <= w /\ (normaliseShardWidth w).1 = days * 24.
Proof.
  intros Hw. unfold normaliseShardWidth. destruct (Z.geb_spec w (24 * Hour)); [|lia].
  exists (w /go (24 * Hour)). cbn [fst]. unfold Hour in *. rewrite Z.quot_div_nonneg by lia.
  divmod w (24 * (3600 * 1000000000)). split_and!; [|lia|done].
  apply Z.div_le_lower_bound; lia.
Qed.

Lemma normalise_hours w : 0 < w < 24 * Hour ->
  (normaliseShardWidth w).1 ∈ subDayShardHours.
Proof.
  intros Hw. unfold normaliseShardWidth. destruct (Z.geb_spec w (24 * Hour)); [lia|]. cbn [fst].
  generalize (w /go Hour). intros want. unfold subDayShardHours. cbn [foldl].
  repeat break_if; set_solver.
Qed.

(** ** Names and what they say *)

Lemma Cut_none c s : c ∉ s -> Cut c s = (s, None).
Proof.
  induction s as [|b s IH]; intros Hc; [done|]. cbn [Cut]. apply not_elem_of_cons in Hc as [Hne Hc].
  destruct (byte_eqb b c) eqn:E; [apply byte_eqb_spec in E; congruence|]. by rewrite IH.
Qed.

Lemma Cut_app c a s : c ∉ a -> Cut c (a ++ c :: s) = (a, Some s).
Proof.
  induction a as [|b a IH]; intros Hc; cbn [app Cut].
  - by rewrite (proj2 (byte_eqb_spec _ _)).
  - apply not_elem_of_cons in Hc as [Hne Hc].
    destruct (byte_eqb b c) eqn:E; [apply byte_eqb_spec in E; congruence|]. by rewrite IH.
Qed.

Lemma digits_no_dash s : all_digits s = true -> x2d ∉ s.
Proof.
  unfold all_digits. rewrite forallb_forall. intros Hd Hin%list_elem_of_In. by specialize (Hd _ Hin).
Qed.

Lemma all_digits_app a b : all_digits (a ++ b) = all_digits a && all_digits b.
Proof. apply forallb_app. Qed.

Lemma format_date_digits day : 0 <= day <= 2932896 -> all_digits (format_date day) = true.
Proof.
  intros Hday. pose proof (year_range day Hday) as Hy. destruct (civil_of_day_spec day) as (_ & Hm & Hd & _).
  pose proof (daysIn_bound (cv_year (civil_of_day day)) (cv_month (civil_of_day day))).
  unfold format_date, pad4. divmod (cv_year (civil_of_day day)) 100. rewrite !all_digits_app, !pad2_digits by lia. done.
Qed.

Lemma format_hour_digits day hour : 0 <= day <= 2932896 -> 0 <= hour < 24 -> all_digits (format_hour day hour) = true.
Proof. intros Hday Hh. unfold format_hour. by rewrite all_digits_app, format_date_digits, pad2_digits by lia. Qed.

Definition stamp_value (stamp : gostr) : option (Z * Z) :=
  if zlen stamp =? 8 then (fun d => (86400 * d, 24 * Hour)) <$> parse_date stamp
  else if zlen stamp =? 10 then (fun h => (3600 * h, Hour)) <$> parse_hour stamp
  else None.

Lemma parse_plain stamp : all_digits stamp = true -> parseShardSuffix stamp = stamp_value stamp.
Proof.
  intros Hd. unfold parseShardSuffix. rewrite Cut_none by (by apply digits_no_dash).
  fold (stamp_value stamp). by destruct (stamp_value stamp) as [[? ?]|].
Qed.

(** A name that opens with a digit is not the whole-set shard. *)
Lemma digits_not_all stamp s : all_digits stamp = true -> stamp <> [] -> bytes_eqb (stamp ++ s) shardAll = false.
Proof.
  intros Hd Hne. destruct stamp as [|b stamp]; [done|]. apply bytes_eqb_neq. intros E.
  apply (f_equal head) in E. cbn in E. injection E as ->. by apply andb_prop in Hd as [? _].
Qed.

(** Seven-bit text, and without the [@] that ends a set's name. *)
Definition ascii (s : gostr) : bool := forallb (fun b => b2z b <? 128) s.
Definition shard_text (s : gostr) : bool := forallb (fun b => (b2z b <? 128) && negb (byte_eqb b x40)) s.

Lemma shard_text_ascii s : shard_text s = true -> ascii s = true.
Proof. unfold shard_text, ascii. rewrite !forallb_forall. intros Hs b Hb. specialize (Hs b Hb). by apply andb_prop in Hs as [? _]. Qed.

Lemma shard_text_no_at s : shard_text s = true -> x40 ∉ s.
Proof.
  unfold shard_text. rewrite forallb_forall. intros Hd Hin%list_elem_of_In. by specialize (Hd _ Hin).
Qed.

Lemma digits_shard_text s : all_digits s = true -> shard_text s = true.
Proof.
  unfold all_digits, shard_text. rewrite !forallb_forall. intros Hd b Hb. specialize (Hd b Hb). by destruct b.
Qed.

Lemma digits_no_at s : all_digits s = true -> x40 ∉ s.
Proof. intros Hd. by apply shard_text_no_at, digits_shard_text. Qed.

Lemma wide_shard_text stamp n unit : all_digits stamp = true -> 0 <= n -> shard_text [unit] = true ->
  shard_text (stamp ++ [x2d] ++ FormatInt n ++ [unit]) = true.
Proof.
  intros Hs Hn Hu. unfold shard_text. rewrite !forallb_app. fold (shard_text stamp). fold (shard_text (FormatInt n)). fold (shard_text [unit]).
  rewrite Hu, digits_shard_text by done. rewrite andb_true_r. cbn [forallb andb]. unfold FormatInt. rewrite (proj2 (Z.ltb_ge n 0)) by done.
  by rewrite digits_shard_text by (by apply FormatUint_digits).
Qed.

(** A width of [n] hours or days follows the stamp. *)
Lemma parse_wide stamp n unit (ns : Z) start width :
  all_digits stamp = true -> 0 < n < two63 -> stamp_value stamp = Some (start, width) ->
  (unit = x68 /\ ns = i64 (n * Hour) \/ unit = x64 /\ ns = i64 (i64 (n * 24) * Hour)) ->
  parseShardSuffix (stamp ++ [x2d] ++ FormatInt n ++ [unit]) = Some (start, ns).
Proof.
  intros Hd Hn Hs Hunit. unfold parseShardSuffix. cbn [app]. rewrite Cut_app by (by apply digits_no_dash).
  fold (stamp_value stamp). rewrite Hs.
  assert (Hlen : zlen (FormatInt n) <> 0).
  { unfold FormatInt. destruct (Z.ltb_spec n 0); [lia|]. pose proof (FormatUint_not_nil n ltac:(lia)).
    destruct (FormatUint n); [done|]. rewrite zlen_cons. pose proof (zlen_nonneg l). lia. }
  pose proof (zlen_nonneg (FormatInt n)). rewrite zlen_app. change (zlen [unit]) with 1.
  destruct (Z.ltb_spec (zlen (FormatInt n) + 1) 2); [lia|].
  rewrite length_app. cbn [length]. replace (length (FormatInt n) + 1 - 1)%nat with (length (FormatInt n)) by lia.
  rewrite take_app_length, ParseInt_FormatInt by (unfold in_i64; lia).
  destruct (Z.leb_spec n 0); [lia|]. rewrite last_snoc.
  by destruct Hunit as [[-> ->] | [-> ->]].
Qed.

(** A shard's name says when it starts and how wide it is, and the row's
    instant is inside. *)
Lemma shardNameAt_spec set tsMs w :
  0 < tsMs <= MaxTSMs -> 0 < w < two63 ->
  exists suffix start width, shardNameAt set tsMs w = set ++ at_sign ++ suffix /\ bytes_eqb suffix shardAll = false /\
    parseShardSuffix suffix = Some (start, width) /\
    start_ms start <= tsMs < end_ms start width /\ 0 <= start /\ shard_text suffix = true.
Proof.
  intros Hts Hw. unfold shardNameAt. destruct (Z.leb_spec w 0); [lia|].
  unfold MaxTSMs in Hts. set (unix := unix_seconds tsMs). unfold unix_seconds in unix.
  divmod tsMs 1000. assert (Hunix : 0 <= unix <= 253402300799) by (unfold unix; lia).
  assert (Hms : unix * 1000 <= tsMs < unix * 1000 + 1000) by (unfold unix; lia). clearbody unix.
  divmod unix 86400. set (day := unix / 86400) in *. assert (Hday : 0 <= day <= 2932896) by lia.
  destruct (Z.le_gt_cases (24 * Hour) w) as [Hwide | Hnarrow].
  - destruct (normalise_days w Hwide) as (days & Hd1 & Hdw & Hnorm).
    destruct (normaliseShardWidth w) as [hours exact]. cbn [fst] in Hnorm. subst hours.
    assert (Hdays : 0 < days < 200000) by (unfold two63, Hour in *; lia).
    rewrite (Z.rem_mul days 24), Z.quot_mul by lia. change (0 =? 0) with true. cbn iota.
    assert (Hfloor : floorDiv unix 86400 = day).
    { unfold floorDiv. rewrite (proj2 (Z.ltb_ge unix 0)) by lia. cbn [Z.ltb Z.compare Bool.eqb negb].
      rewrite andb_false_r. apply Z.quot_div_nonneg; lia. }
    rewrite Hfloor. divmod day days.
    assert (Hmod : mod_ day days = day mod days).
    { unfold mod_. rewrite Z.rem_mod_nonneg by lia. destruct (Z.ltb_spec (day mod days) 0); [lia | done]. }
    rewrite Hmod. set (first := day - day mod days).
    assert (Hfirst : 0 <= first <= day /\ day < first + days).
    { unfold first. pose proof (Z.mod_le day days). lia. }
    assert (Hstamp : stamp_value (format_date first) = Some (86400 * first, 24 * Hour)).
    { unfold stamp_value. change (zlen (format_date first) =? 8) with true. cbn iota. by rewrite parse_format_date by lia. }
    pose proof (format_date_digits first ltac:(lia)) as Hdig.
    assert (Hnot : forall s, bytes_eqb (format_date first ++ s) shardAll = false) by (intros s; by apply digits_not_all).
    assert (Hinside : start_ms (86400 * first) <= tsMs < end_ms (86400 * first) (days * 24 * Hour)).
    { unfold start_ms, end_ms, Hour. 
      replace (86400 * first * 1000000000 + days * 24 * (3600 * 1000000000)) with ((86400 * (first + days) * 1000) * 1000000) by lia.
      rewrite Z.div_mul by lia. nia. }
    destruct (Z.eqb_spec days 1) as [-> | Hmany].
    + exists (format_date first), (86400 * first), (24 * Hour). split_and!; [done | rewrite <- (app_nil_r (format_date first)); apply Hnot | | | | lia | by apply digits_shard_text].
      * by rewrite parse_plain.
      * apply Hinside.
      * apply Hinside.
    + exists (format_date first ++ [x2d] ++ FormatInt days ++ [x64]), (86400 * first), (days * 24 * Hour).
      split_and!; [done | apply Hnot | | apply Hinside .. | lia | first [by apply digits_shard_text | by apply wide_shard_text; [done | lia |]]].
      apply (parse_wide _ days x64 _ _ (24 * Hour)); [done | unfold two63 in *; lia | done |].
      right. split; [done|]. assert (days * 24 * Hour < two63) by lia.
      rewrite (i64_id (days * 24)), i64_id; [done | unfold in_i64, two63, Hour in *; lia ..].
  - pose proof (normalise_hours w ltac:(lia)) as Hh. destruct (normaliseShardWidth w) as [hours exact]. cbn [fst] in Hh.
    assert (Hr : 1 <= hours <= 12 /\ 24 mod hours = 0 /\ hours %go 24 <> 0).
    { unfold subDayShardHours in Hh. repeat (apply elem_of_cons in Hh as [-> | Hh]; [by vm_compute|]). by apply elem_of_nil in Hh. }
    destruct Hr as (Hr & Hdiv & Hrem). destruct (Z.eqb_spec (hours %go 24) 0); [done|].
    set (sod := unix mod 86400) in *. divmod sod 3600. set (hour := sod / 3600) in *. assert (Hhour : 0 <= hour < 24) by lia.
    rewrite Z.rem_mod_nonneg by lia. divmod hour hours. set (first := hour - hour mod hours).
    assert (Hfirst : 0 <= first <= hour /\ hour < first + hours).
    { unfold first. pose proof (Z.mod_le hour hours). lia. }
    assert (Hstamp : stamp_value (format_hour day first) = Some (3600 * (24 * day + first), Hour)).
    { unfold stamp_value. change (zlen (format_hour day first) =? 8) with false. change (zlen (format_hour day first) =? 10) with true.
      cbn iota. by rewrite parse_format_hour by lia. }
    pose proof (format_hour_digits day first ltac:(lia) ltac:(lia)) as Hdig.
    assert (Hnot : forall s, bytes_eqb (format_hour day first ++ s) shardAll = false) by (intros s; by apply digits_not_all).
    assert (Hinside : start_ms (3600 * (24 * day + first)) <= tsMs < end_ms (3600 * (24 * day + first)) (hours * Hour)).
    { unfold start_ms, end_ms, Hour.
      replace (3600 * (24 * day + first) * 1000000000 + hours * (3600 * 1000000000))
        with ((3600 * (24 * day + first + hours) * 1000) * 1000000) by lia.
      rewrite Z.div_mul by lia. lia. }
    destruct (Z.eqb_spec hours 1) as [-> | Hmany].
    + exists (format_hour day first), (3600 * (24 * day + first)), Hour.
      split_and!; [done | rewrite <- (app_nil_r (format_hour day first)); apply Hnot | by rewrite parse_plain | rewrite Z.mul_1_l in Hinside; apply Hinside .. | lia | first [by apply digits_shard_text | by apply wide_shard_text; [done | lia |]]].
    + exists (format_hour day first ++ [x2d] ++ FormatInt hours ++ [x68]), (3600 * (24 * day + first)), (hours * Hour).
      split_and!; [done | apply Hnot | | apply Hinside .. | lia | first [by apply digits_shard_text | by apply wide_shard_text; [done | lia |]]].
      apply (parse_wide _ hours x68 _ _ Hour); [done | unfold two63; lia | done |].
      left. split; [done|]. rewrite i64_id; [done | unfold in_i64, two63, Hour; lia].
Qed.

(** * What the shards of a set promise

    A row is found by every range that holds its instant, whatever width
    its shard was written under; and when the selected shards are reported
    not to overlap, reading them in order reads rows in order of time. *)


(** ** The shard of a row *)

(** What the name of the shard of a row says of its span. *)
Lemma row_shard set tsMs w : 0 < tsMs <= MaxTSMs -> w < two63 ->
  exists s, (forall fromMs toMs, fromMs <= tsMs <= toMs -> found_shard set fromMs toMs (shardNameAt set tsMs w) = Some s) /\
    (forall fromMs toMs s', found_shard set fromMs toMs (shardNameAt set tsMs w) = Some s' -> s' = s) /\
    sh_name s = shardNameAt set tsMs w /\ sh_start s <= tsMs < sh_end s.
Proof.
  intros Hts Hw. unfold found_shard.
  assert (Hprefix : forall suffix, HasPrefix (set ++ at_sign ++ suffix) (set ++ at_sign) = true /\
            drop (length (set ++ at_sign)) (set ++ at_sign ++ suffix) = suffix).
  { intros suffix. rewrite app_assoc. split; [apply HasPrefix_spec; by exists suffix | apply drop_app_length]. }
  destruct (Z.le_gt_cases w 0) as [Hall | Hpos].
  - unfold shardNameAt. rewrite (proj2 (Z.leb_le w 0)) by done.
    destruct (Hprefix shardAll) as [-> ->]. cbn [negb]. rewrite bytes_eqb_refl.
    eexists. split_and!; [done | by intros ??? [= <-] | done | cbn [sh_start]; unfold i64_min, two63; lia |].
    cbn [sh_end]. unfold i64_max, two63, MaxTSMs in *; lia.
  - destruct (shardNameAt_spec set tsMs w Hts ltac:(lia)) as (suffix & start & width & -> & Hnot & Hparse & Hin & _).
    destruct (Hprefix suffix) as [-> ->]. cbn [negb]. rewrite Hnot, Hparse.
    exists {| sh_name := set ++ at_sign ++ suffix; sh_start := start_ms start; sh_end := end_ms start width |}.
    split_and!; [| by intros ???; destruct (_ || _); intros [= <-] | done | apply Hin ..].
    intros fromMs toMs Hrange. rewrite (proj2 (Z.leb_gt _ _)) by lia.
    destruct (Z.gtb_spec (start_ms start) toMs); [lia | done].
Qed.

Lemma in_found set names fromMs toMs s name :
  name ∈ names -> found_shard set fromMs toMs name = Some s ->
  s ∈ merge_sort shard_le (omap (found_shard set fromMs toMs) names).
Proof.
  intros Hin Hs. rewrite (merge_sort_Permutation shard_le _). apply list_elem_of_omap. by exists name.
Qed.

(** ** Order *)

#[export] Instance shard_le_total : Total shard_le.
Proof.
  intros a b. unfold shard_le. destruct (Z.lt_trichotomy (sh_start a) (sh_start b)) as [?|[?|?]]; [by left; left| |by right; left].
  destruct (total str_le (sh_name a) (sh_name b)); [left|right]; by right.
Qed.

#[export] Instance shard_le_trans : Transitive shard_le.
Proof.
  intros a b c Hab Hbc. unfold shard_le in *.
  destruct Hab as [? | [? ?]], Hbc as [? | [? ?]]; [left; lia .. | right].
  split; [lia | by transitivity (sh_name b)].
Qed.

Lemma found_sorted set names fromMs toMs :
  StronglySorted shard_le (merge_sort shard_le (omap (found_shard set fromMs toMs) names)).
Proof. apply Sorted_StronglySorted; [apply _|]. apply Sorted_merge_sort. apply _. Qed.

(** Without an overlap, each shard ends before the ones after it start. *)
Lemma no_overlap_before covered l : any_overlap covered l = false ->
  Forall (fun s => covered <= sh_start s) l /\
  forall i j a b, l !! i = Some a -> l !! j = Some b -> (i < j)%nat -> sh_end a <= sh_start b.
Proof.
  revert covered. induction l as [|s l IH]; intros covered Hno; [split; [constructor | done]|].
  cbn [any_overlap] in Hno. apply orb_false_iff in Hno as [Hs Hl]. apply Z.ltb_ge in Hs.
  destruct (IH _ Hl) as [Hall Hpairs]. split.
  - constructor; [done|]. eapply Forall_impl; [exact Hall|]. intros x ?; cbn in *; lia.
  - intros [|i] [|j] a b Ha Hb Hij; try lia; cbn in Ha, Hb; [|eapply Hpairs; [done..|lia]].
    injection Ha as <-. rewrite Forall_lookup in Hall. specialize (Hall _ _ Hb). cbn in Hall. lia.
Qed.

Lemma result_shard set names fromMs toMs out overlapping i name :
  shardsInRange set names fromMs toMs = (out, overlapping) -> out !! i = Some name ->
  exists s, merge_sort shard_le (omap (found_shard set fromMs toMs) names) !! i = Some s /\ sh_name s = name /\
    found_shard set fromMs toMs name = Some s.
Proof.
  unfold shardsInRange. intros [= <- _] Hi. apply list_lookup_fmap_Some in Hi as (s & -> & Hs).
  exists s. split_and!; [done..|].
  assert (Hin : s ∈ omap (found_shard set fromMs toMs) names).
  { rewrite <- (merge_sort_Permutation shard_le _). by eapply list_elem_of_lookup_2. }
  apply list_elem_of_omap in Hin as (name & _ & Hf). assert (sh_name s = name) as ->; [|done].
  unfold found_shard in Hf. repeat case_match; by simplify_eq.
Qed.

(** The shard of a row is selected by a range that holds the row. *)
Lemma row_shard_selected set names tsMs w fromMs toMs :
  0 < tsMs <= MaxTSMs -> w < two63 -> shardNameAt set tsMs w ∈ names -> fromMs <= tsMs <= toMs ->
  shardNameAt set tsMs w ∈ (shardsInRange set names fromMs toMs).1.
Proof.
  intros Hts Hw Hin Hrange. destruct (row_shard set tsMs w Hts Hw) as (s & Hfound & _ & Hname & _).
  unfold shardsInRange. cbn [fst]. rewrite <- Hname at 1. apply list_elem_of_fmap. exists s. split; [done|].
  by eapply in_found; [|apply Hfound].
Qed.

(** Of two selected shards that share no instant, the earlier holds the
    earlier rows. *)
Lemma selected_in_order set names fromMs toMs out i j t1 w1 t2 w2 :
  shardsInRange set names fromMs toMs = (out, false) ->
  0 < t1 <= MaxTSMs -> w1 < two63 -> 0 < t2 <= MaxTSMs -> w2 < two63 ->
  out !! i = Some (shardNameAt set t1 w1) -> out !! j = Some (shardNameAt set t2 w2) -> (i < j)%nat ->
  t1 < t2.
Proof.
  intros Hout Ht1 Hw1 Ht2 Hw2 Hi Hj Hij.
  destruct (result_shard _ _ _ _ _ _ _ _ Hout Hi) as (s1 & Hs1 & _ & Hf1).
  destruct (result_shard _ _ _ _ _ _ _ _ Hout Hj) as (s2 & Hs2 & _ & Hf2).
  destruct (row_shard set t1 w1 Ht1 Hw1) as (s1' & _ & Hu1 & _ & Hin1). apply Hu1 in Hf1 as ->.
  destruct (row_shard set t2 w2 Ht2 Hw2) as (s2' & _ & Hu2 & _ & Hin2). apply Hu2 in Hf2 as ->.
  unfold shardsInRange in Hout. injection Hout as <- Hno.
  destruct (no_overlap_before _ _ Hno) as [_ Hpairs]. specialize (Hpairs _ _ _ _ Hs1 Hs2 Hij). lia.
Qed.

(** C40: a row written under any shard width is in one of the shards a
    query selects, whenever the range the query asks for holds the row's
    timestamp and the shard is among the engine's sets. *)
Theorem row_in_range_found set names tsMs w fromMs toMs :
  0 < tsMs <= MaxTSMs -> w < two63 -> shardNameAt set tsMs w ∈ names -> fromMs <= tsMs <= toMs ->
  shardNameAt set tsMs w ∈ (shardsInRange set names fromMs toMs).1.
Proof. apply row_shard_selected. Qed.

(** when the shards selected for a range are reported not to overlap,
    every row of an earlier one is older than every row of a later one,
    whatever widths they were written under, so a walk over them in order
    visits rows in order of time. *)
Theorem shards_in_time_order set names fromMs toMs out i j t1 w1 t2 w2 :
  shardsInRange set names fromMs toMs = (out, false) ->
  0 < t1 <= MaxTSMs -> w1 < two63 -> 0 < t2 <= MaxTSMs -> w2 < two63 ->
  out !! i = Some (shardNameAt set t1 w1) -> out !! j = Some (shardNameAt set t2 w2) -> (i < j)%nat ->
  t1 < t2.
Proof. apply selected_in_order. Qed.

(** ** The oldest instant *)

Lemma last_at_none s found : x40 ∉ s -> last_at s found = found.
Proof.
  revert found. induction s as [|b s IH]; intros found Hs; [done|]. apply not_elem_of_cons in Hs as [Hb Hs]. cbn [last_at].
  destruct (byte_eqb b x40) eqn:E; [apply byte_eqb_spec in E; congruence | by apply IH].
Qed.

Lemma last_at_app a s found : x40 ∉ s -> last_at (a ++ x40 :: s) found = Some s.
Proof.
  revert found. induction a as [|b a IH]; intros found Hs; cbn [app last_at].
  - rewrite (proj2 (byte_eqb_spec _ _)) by done. by rewrite last_at_none.
  - by destruct (byte_eqb b x40); apply IH.
Qed.

Lemma shard_suffix_app set suffix : x40 ∉ suffix -> shard_suffix (set ++ at_sign ++ suffix) = Some suffix.
Proof. intros Hs. by apply last_at_app. Qed.

(** A suffix that parses holds no [@]. *)
Lemma parse_digits_no_at s : forall acc n, parse_digits acc s = Some n -> x40 ∉ s.
Proof.
  induction s as [|b s IH]; intros acc n Hs; [apply not_elem_of_nil|]. cbn [parse_digits] in Hs.
  destruct (ascii_digit (b2z b)) eqn:Hb; [|done]. apply not_elem_of_cons. split; [by intros <- | by eapply IH].
Qed.

Lemma ParseInt_no_at s n : ParseInt s = Some n -> x40 ∉ s.
Proof.
  assert (Hu : forall b m, ParseUint_digits b = Some m -> x40 ∉ b) by (intros [|? ?] m H; [done | by eapply parse_digits_no_at]).
  unfold ParseInt. intros Hn.
  destruct s as [|b s]; [apply not_elem_of_nil|].
  destruct (decide (b = x2b \/ b = x2d)) as [Hb | Hb].
  - apply not_elem_of_cons. destruct Hb as [-> | ->]; (split; [done|]);
      destruct (ParseUint_digits s) eqn:E; [by eapply Hu | done | by eapply Hu | done].
  - apply Decidable.not_or in Hb as [Hb1 Hb2].
    assert (Hbody : match b :: s with x2b :: s' => (false, s') | x2d :: s' => (true, s') | _ => (false, b :: s) end = (false, b :: s))
      by (by destruct b).
    rewrite Hbody in Hn. destruct (ParseUint_digits (b :: s)) eqn:E; [by eapply Hu | done].
Qed.

Lemma Cut_split c s a r : Cut c s = (a, r) -> s = a ++ match r with Some r => c :: r | None => [] end.
Proof.
  revert a r. induction s as [|b s IH]; intros a r; cbn [Cut]; [by intros [= <- <-]|].
  destruct (byte_eqb b c) eqn:E; [apply byte_eqb_spec in E as ->; by intros [= <- <-]|].
  destruct (Cut c s) as [a' r'] eqn:Ec. intros [= <- <-]. cbn [app]. by rewrite (IH a' r').
Qed.

Lemma digits_value_no_at s n : digits_value s = Some n -> x40 ∉ s.
Proof. unfold digits_value. destruct (all_digits s) eqn:E; [intros _; by apply digits_no_at | done]. Qed.

Lemma parse_date_no_at s d : (length s <= 8)%nat -> parse_date s = Some d -> x40 ∉ s.
Proof.
  unfold parse_date. intros Hlen.
  destruct (digits_value (take 4 s)) eqn:H4; [|done]. destruct (digits_value (take 2 (drop 4 s))) eqn:H2; [|done].
  destruct (digits_value (take 2 (drop 6 s))) eqn:H0; [|done]. intros _.
  apply digits_value_no_at in H4, H2, H0. rewrite (take_ge (drop 6 s)) in H0 by (rewrite length_drop; lia).
  rewrite <- (take_drop 4 s), <- (take_drop 2 (drop 4 s)), drop_drop, !not_elem_of_app. done.
Qed.

Lemma stamp_no_at s v : stamp_value s = Some v -> x40 ∉ s.
Proof.
  unfold stamp_value. destruct (Z.eqb_spec (zlen s) 8) as [H8|_]; [|destruct (Z.eqb_spec (zlen s) 10) as [H10|_]; [|done]]; intros H.
  - destruct (parse_date s) eqn:E; [|done]. eapply parse_date_no_at; [|done]. unfold zlen in H8. lia.
  - destruct (parse_hour s) eqn:E; [|done]. unfold parse_hour in E. destruct (parse_date (take 8 s)) eqn:Ed; [|done].
    destruct (digits_value (drop 8 s)) eqn:Eh; [|done]. rewrite <- (take_drop 8 s), not_elem_of_app.
    split; [eapply parse_date_no_at; [rewrite length_take; lia|done] | by eapply digits_value_no_at].
Qed.

Lemma parse_no_at suffix start width : parseShardSuffix suffix = Some (start, width) -> x40 ∉ suffix.
Proof.
  unfold parseShardSuffix. destruct (Cut x2d suffix) as [stamp unit] eqn:Ec. apply Cut_split in Ec as ->. fold (stamp_value stamp).
  destruct (stamp_value stamp) as [[? ?]|] eqn:Es; [|done]. apply stamp_no_at in Es.
  destruct unit as [unit|]; [|by rewrite app_nil_r].
  destruct (Z.ltb_spec (zlen unit) 2); [done|]. destruct (ParseInt (take (length unit - 1) unit)) as [n|] eqn:Ep; [|done].
  destruct (n <=? 0); [done|]. apply ParseInt_no_at in Ep. intros H'.
  destruct (last unit) as [u|] eqn:El; [|done]. apply last_Some in El as [l ->].
  rewrite length_app in Ep. cbn [length] in Ep. replace (length l + 1 - 1)%nat with (length l) in Ep by lia.
  rewrite take_app_length in Ep. rewrite not_elem_of_app, not_elem_of_cons, not_elem_of_app, list_elem_of_singleton.
  split_and!; [done..|]. by intros <-.
Qed.

(** no row of the shards of a set is older than the instant reported
    for the oldest of them: the floor the catalogue is raised to after
    retention never passes a row that survives. *)
Theorem oldest_below_rows set names fromMs toMs tsMs w out overlapping :
  shardsInRange set names fromMs toMs = (out, overlapping) ->
  0 < tsMs <= MaxTSMs -> w < two63 -> shardNameAt set tsMs w ∈ out ->
  oldestShardStartMs out <= tsMs.
Proof.
  intros Hout Hts Hw Hin. unfold oldestShardStartMs. destruct out as [|name out]; [lia|].
  apply list_elem_of_lookup in Hin as [i Hi].
  destruct (result_shard _ _ _ _ _ _ _ _ Hout Hi) as (s & Hs & _ & Hf).
  destruct (result_shard set names fromMs toMs (name :: out) overlapping 0 name Hout eq_refl) as (s0 & Hs0 & <- & Hf0).
  destruct (row_shard set tsMs w Hts Hw) as (s' & _ & Hu & _ & Hin'). apply Hu in Hf as ->.
  assert (Hle : sh_start s0 <= sh_start s').
  { pose proof (found_sorted set names fromMs toMs) as Hsorted. destruct (merge_sort _ _) as [|a l]; [done|].
    injection Hs0 as ->. apply StronglySorted_inv in Hsorted as [_ Hall]. destruct i as [|i]; cbn in Hs; [by simplify_eq|].
    rewrite Forall_lookup in Hall. specialize (Hall _ _ Hs). unfold shard_le in Hall. lia. }
  unfold found_shard in Hf0. destruct (HasPrefix (sh_name s0) (set ++ at_sign)) eqn:Hp; [|done]. cbn [negb] in Hf0.
  apply HasPrefix_spec in Hp as [suffix Hname]. rewrite Hname in *. rewrite drop_app_length in Hf0.
  assert (Hin0 : sh_start s0 <= tsMs) by lia. clear - Hf0 Hin0 Hts Hname.
  destruct (bytes_eqb suffix shardAll) eqn:Hall.
  - apply bytes_eqb_spec in Hall as ->. rewrite <- app_assoc, shard_suffix_app by (vm_compute; set_solver). cbn. lia.
  - destruct (parseShardSuffix suffix) as [[start width]|] eqn:Hparse; [|done].
    rewrite <- app_assoc, shard_suffix_app by (by eapply parse_no_at). rewrite Hall, Hparse.
    destruct (_ || _); [done|]. by injection Hf0 as <-.
Qed.

(** ** Witnesses *)

Definition wit_ts : Z := 1700000000000.
Definition wit_names : list gostr := Eval vm_compute in
  [shardNameAt (bs "cpu") wit_ts (6 * Hour); shardNameAt (bs "cpu") (wit_ts + 3 * 86400000) (48 * Hour); shardNameAt (bs "mem") wit_ts 0].

Lemma row_in_range_found_witness :
  0 < wit_ts <= MaxTSMs /\ shardNameAt (bs "cpu") wit_ts (6 * Hour) ∈ (shardsInRange (bs "cpu") wit_names 0 wit_ts).1.
Proof.
  split; [by (vm_compute; split) |].
  apply row_in_range_found; [by (vm_compute; split) | by vm_compute | by apply list_elem_of_here | by (vm_compute; split)].
Defined.

Lemma shards_in_time_order_witness :
  (shardsInRange (bs "cpu") wit_names 0 (2 * wit_ts)).2 = false /\ wit_ts < wit_ts + 3 * 86400000.
Proof.
  split; [by vm_compute|].
  eapply (shards_in_time_order (bs "cpu") wit_names 0 (2 * wit_ts) _ 0 1 _ (6 * Hour) _ (48 * Hour));
    [by vm_compute | by (vm_compute; split) | by vm_compute | by (vm_compute; split) | by vm_compute | by vm_compute | by vm_compute | lia].
Defined.

Lemma oldest_below_rows_witness :
  0 < oldestShardStartMs (shardsInRange (bs "cpu") wit_names 0 (2 * wit_ts)).1 <= wit_ts.
Proof.
  split; [by vm_compute|].
  eapply (oldest_below_rows (bs "cpu") wit_names 0 (2 * wit_ts) wit_ts (6 * Hour));
    [by apply surjective_pairing | by (vm_compute; split) | by vm_compute | vm_compute; by apply list_elem_of_here].
Defined.
