(* ===== verification/ExtractStream.v ===== *)
(** * The extraction stream ([pkg/extract/stream.go])

    The state of one source and its operations: [Process], [Flush],
    [FlushIdle], [Mark], [HeldFrom].  Open windows are objects the map of
    windows, the expiry queue and the hold list all point to: [st_objs] is
    the store of those objects and an identity is its key.  The queue of
    container/heap is a list in the heap's order, which is total on the
    entries it holds.  [now] is the wall clock a call reads. *)

From Stdlib Require Import ZArith Lia Bool.
From Stdlib Require Import Strings.Byte Strings.String.
From stdpp Require Import gmap sorting.
From S2P Require Import Prelude Bytes Float64 GoStd GoText Model.
From S2P Require Import ExtractAC ExtractHistogram ExtractTimestamp.

(** ** Data *)

Abbreviation labels_t := (gmap gostr gostr).

Record Result : Type := {
  r_Set : gostr;
  r_TSMs : Z;
  r_SubUS : Z;
  r_Labels : labels_t;
  r_Fields : row_fields;
  r_Line : gostr;
}.

Record AggregateStat : Type := {
  as_Set : gostr;
  as_Field : gostr;
  as_Mode : gostr;
  as_Records : Z;
  as_Windows : Z;
}.

Record Stats : Type := {
  n_Records : Z;
  n_Samples : Z;
  n_Unmatched : Z;
  n_TSParseErrors : Z;
  n_Oversize : Z;
  n_Unjoined : Z;
  n_FirstUnmatched : list gostr;
  n_Aggregates : list AggregateStat;
  n_WindowsForcedClosed : Z;
  n_WindowsEmpty : Z;
}.

Record mlBuffer : Type := {
  b_line : gostr;
  b_ts : Z;
  b_seen : Z;
  b_mark : Z;
  b_lastMark : Z;
}.

Record aggregator : Type := {
  a_value : f64;
  a_start : Z;
  a_end : Z;
  a_labels : labels_t;
  a_set : gostr;
  a_line : gostr;
  a_field : gostr;
  a_mode : gostr;
  a_hasValue : bool;
  a_mark : Z;
  a_lastMark : Z;
  a_slot : Z;
}.

Record aggEntry : Type := { q_key : gostr; q_end : Z; q_a : nat }.

Record holdEntry : Type := { h_mark : Z; h_key : gostr; h_a : option nat; h_last : Z }.

Record Stream : Type := {
  st_tss : ts_state;
  st_lastTS : Z;
  st_lastWall : Z;
  st_multiline : gmap gostr mlBuffer;
  st_objs : gmap nat aggregator;
  st_next : nat;
  st_aggs : gmap gostr nat;
  st_aggQ : list aggEntry;
  st_mark : Z;
  st_holds : list holdEntry;
  st_Stats : Stats;
}.

(** The rules a profile compiles to. *)
Section Rules.
Context `{Regexp}.

Record JoinRule : Type := { j_re : regexp; j_Capture : nat }.

Record Multiline : Type := {
  m_StartContains : gostr;
  m_continueRe : option regexp;
  m_Join : list JoinRule;
  m_maxRecordBytes : Z;
  m_idleTimeout : Z;
}.

Record Aggregate : Type := {
  ag_On : list gostr;
  ag_Field : gostr;
  ag_Mode : gostr;
  ag_every : Z;
}.

(** [p_DefaultValues] lists the map in the order a range walks it. *)
Record Pattern : Type := {
  p_Set : gostr;
  p_Replace : list (regexp * gostr);
  p_extract : list regexp;
  p_Route : list (regexp * gostr);
  p_labelSet : gset gostr;
  p_DefaultValues : list (gostr * gostr);
  p_BucketSet : gostr;
  p_Aggregate : option Aggregate;
}.

Record Profile : Type := {
  pr_Timestamp : TimestampSpec;
  pr_MaxRecordBytes : Z;
  pr_Multiline : list Multiline;
  pr_labelSet : gset gostr;
  pr_Patterns : list Pattern;
  pr_matcher : acMatcher;
  pr_buckets : gmap gostr BucketSet;
}.
End Rules.

(** ** Updates of the state *)

Definition set_tss v st := {| st_tss := v; st_lastTS := st_lastTS st; st_lastWall := st_lastWall st; st_multiline := st_multiline st; st_objs := st_objs st; st_next := st_next st; st_aggs := st_aggs st; st_aggQ := st_aggQ st; st_mark := st_mark st; st_holds := st_holds st; st_Stats := st_Stats st |}.
Definition set_last ts wall st := {| st_tss := st_tss st; st_lastTS := ts; st_lastWall := wall; st_multiline := st_multiline st; st_objs := st_objs st; st_next := st_next st; st_aggs := st_aggs st; st_aggQ := st_aggQ st; st_mark := st_mark st; st_holds := st_holds st; st_Stats := st_Stats st |}.
Definition set_multiline v st := {| st_tss := st_tss st; st_lastTS := st_lastTS st; st_lastWall := st_lastWall st; st_multiline := v; st_objs := st_objs st; st_next := st_next st; st_aggs := st_aggs st; st_aggQ := st_aggQ st; st_mark := st_mark st; st_holds := st_holds st; st_Stats := st_Stats st |}.
Definition set_objs v st := {| st_tss := st_tss st; st_lastTS := st_lastTS st; st_lastWall := st_lastWall st; st_multiline := st_multiline st; st_objs := v; st_next := st_next st; st_aggs := st_aggs st; st_aggQ := st_aggQ st; st_mark := st_mark st; st_holds := st_holds st; st_Stats := st_Stats st |}.
Definition set_aggs v st := {| st_tss := st_tss st; st_lastTS := st_lastTS st; st_lastWall := st_lastWall st; st_multiline := st_multiline st; st_objs := st_objs st; st_next := st_next st; st_aggs := v; st_aggQ := st_aggQ st; st_mark := st_mark st; st_holds := st_holds st; st_Stats := st_Stats st |}.
Definition set_aggQ v st := {| st_tss := st_tss st; st_lastTS := st_lastTS st; st_lastWall := st_lastWall st; st_multiline := st_multiline st; st_objs := st_objs st; st_next := st_next st; st_aggs := st_aggs st; st_aggQ := v; st_mark := st_mark st; st_holds := st_holds st; st_Stats := st_Stats st |}.
Definition set_mark v st := {| st_tss := st_tss st; st_lastTS := st_lastTS st; st_lastWall := st_lastWall st; st_multiline := st_multiline st; st_objs := st_objs st; st_next := st_next st; st_aggs := st_aggs st; st_aggQ := st_aggQ st; st_mark := v; st_holds := st_holds st; st_Stats := st_Stats st |}.
Definition set_holds v st := {| st_tss := st_tss st; st_lastTS := st_lastTS st; st_lastWall := st_lastWall st; st_multiline := st_multiline st; st_objs := st_objs st; st_next := st_next st; st_aggs := st_aggs st; st_aggQ := st_aggQ st; st_mark := st_mark st; st_holds := v; st_Stats := st_Stats st |}.
Definition set_Stats v st := {| st_tss := st_tss st; st_lastTS := st_lastTS st; st_lastWall := st_lastWall st; st_multiline := st_multiline st; st_objs := st_objs st; st_next := st_next st; st_aggs := st_aggs st; st_aggQ := st_aggQ st; st_mark := st_mark st; st_holds := st_holds st; st_Stats := v |}.

(** [new(aggregator)]: the object and its identity. *)
Definition alloc (a : aggregator) (st : Stream) : nat * Stream :=
  (st_next st,
   {| st_tss := st_tss st; st_lastTS := st_lastTS st; st_lastWall := st_lastWall st; st_multiline := st_multiline st; st_objs := <[st_next st := a]> (st_objs st); st_next := S (st_next st); st_aggs := st_aggs st; st_aggQ := st_aggQ st; st_mark := st_mark st; st_holds := st_holds st; st_Stats := st_Stats st |}).

(** The counters, each bumped by its own function. *)
Definition bump (n : Z) : Z := i64 (n + 1).
Definition count_record s := {| n_Records := bump (n_Records s); n_Samples := n_Samples s; n_Unmatched := n_Unmatched s; n_TSParseErrors := n_TSParseErrors s; n_Oversize := n_Oversize s; n_Unjoined := n_Unjoined s; n_FirstUnmatched := n_FirstUnmatched s; n_Aggregates := n_Aggregates s; n_WindowsForcedClosed := n_WindowsForcedClosed s; n_WindowsEmpty := n_WindowsEmpty s |}.
Definition count_samples (k : Z) s := {| n_Records := n_Records s; n_Samples := i64 (n_Samples s + k); n_Unmatched := n_Unmatched s; n_TSParseErrors := n_TSParseErrors s; n_Oversize := n_Oversize s; n_Unjoined := n_Unjoined s; n_FirstUnmatched := n_FirstUnmatched s; n_Aggregates := n_Aggregates s; n_WindowsForcedClosed := n_WindowsForcedClosed s; n_WindowsEmpty := n_WindowsEmpty s |}.
Definition count_tserr s := {| n_Records := n_Records s; n_Samples := n_Samples s; n_Unmatched := n_Unmatched s; n_TSParseErrors := bump (n_TSParseErrors s); n_Oversize := n_Oversize s; n_Unjoined := n_Unjoined s; n_FirstUnmatched := n_FirstUnmatched s; n_Aggregates := n_Aggregates s; n_WindowsForcedClosed := n_WindowsForcedClosed s; n_WindowsEmpty := n_WindowsEmpty s |}.
Definition count_oversize s := {| n_Records := n_Records s; n_Samples := n_Samples s; n_Unmatched := n_Unmatched s; n_TSParseErrors := n_TSParseErrors s; n_Oversize := bump (n_Oversize s); n_Unjoined := n_Unjoined s; n_FirstUnmatched := n_FirstUnmatched s; n_Aggregates := n_Aggregates s; n_WindowsForcedClosed := n_WindowsForcedClosed s; n_WindowsEmpty := n_WindowsEmpty s |}.
Definition count_unjoined s := {| n_Records := n_Records s; n_Samples := n_Samples s; n_Unmatched := n_Unmatched s; n_TSParseErrors := n_TSParseErrors s; n_Oversize := n_Oversize s; n_Unjoined := bump (n_Unjoined s); n_FirstUnmatched := n_FirstUnmatched s; n_Aggregates := n_Aggregates s; n_WindowsForcedClosed := n_WindowsForcedClosed s; n_WindowsEmpty := n_WindowsEmpty s |}.
Definition count_forced s := {| n_Records := n_Records s; n_Samples := n_Samples s; n_Unmatched := n_Unmatched s; n_TSParseErrors := n_TSParseErrors s; n_Oversize := n_Oversize s; n_Unjoined := n_Unjoined s; n_FirstUnmatched := n_FirstUnmatched s; n_Aggregates := n_Aggregates s; n_WindowsForcedClosed := bump (n_WindowsForcedClosed s); n_WindowsEmpty := n_WindowsEmpty s |}.
Definition count_empty s := {| n_Records := n_Records s; n_Samples := n_Samples s; n_Unmatched := n_Unmatched s; n_TSParseErrors := n_TSParseErrors s; n_Oversize := n_Oversize s; n_Unjoined := n_Unjoined s; n_FirstUnmatched := n_FirstUnmatched s; n_Aggregates := n_Aggregates s; n_WindowsForcedClosed := n_WindowsForcedClosed s; n_WindowsEmpty := bump (n_WindowsEmpty s) |}.
Definition set_aggregates v s := {| n_Records := n_Records s; n_Samples := n_Samples s; n_Unmatched := n_Unmatched s; n_TSParseErrors := n_TSParseErrors s; n_Oversize := n_Oversize s; n_Unjoined := n_Unjoined s; n_FirstUnmatched := n_FirstUnmatched s; n_Aggregates := v; n_WindowsForcedClosed := n_WindowsForcedClosed s; n_WindowsEmpty := n_WindowsEmpty s |}.

Definition maxUnmatchedSamples : Z := 5.
Definition count_unmatched (line : gostr) s := {| n_Records := n_Records s; n_Samples := n_Samples s; n_Unmatched := bump (n_Unmatched s); n_TSParseErrors := n_TSParseErrors s; n_Oversize := n_Oversize s; n_Unjoined := n_Unjoined s; n_FirstUnmatched := (if zlen (n_FirstUnmatched s) <? maxUnmatchedSamples then n_FirstUnmatched s ++ [line] else n_FirstUnmatched s); n_Aggregates := n_Aggregates s; n_WindowsForcedClosed := n_WindowsForcedClosed s; n_WindowsEmpty := n_WindowsEmpty s |}.

Definition on_stats (f : Stats -> Stats) (st : Stream) : Stream := set_Stats (f (st_Stats st)) st.

(** [st.Stats.Aggregates[slot]] where the slot is in range. *)
Definition at_slot (slot : Z) (f : AggregateStat -> AggregateStat) (s : Stats) : Stats :=
  match idx (n_Aggregates s) slot with
  | Some x => set_aggregates (<[Z.to_nat slot := f x]> (n_Aggregates s)) s
  | None => s
  end.
Definition bump_records x := {| as_Set := as_Set x; as_Field := as_Field x; as_Mode := as_Mode x; as_Records := bump (as_Records x); as_Windows := as_Windows x |}.
Definition bump_windows x := {| as_Set := as_Set x; as_Field := as_Field x; as_Mode := as_Mode x; as_Records := as_Records x; as_Windows := bump (as_Windows x) |}.

(** ** The hold list *)

Definition live (st : Stream) (e : holdEntry) : bool :=
  match h_a e with
  | None => false
  | Some a => bool_decide (st_aggs st !! h_key e = Some a)
  end.

Definition endMark (st : Stream) (e : holdEntry) : Z :=
  match h_a e with
  | None => h_last e
  | Some a => match st_objs st !! a with Some o => a_lastMark o | None => 0 end
  end.

(** [(oldest, held)] as an option. *)
Definition lower (m : Z) (acc : option Z) : option Z :=
  match acc with
  | None => Some m
  | Some o => if m <? o then Some m else acc
  end.

Definition multiline_floor (ml : gmap gostr mlBuffer) : option Z :=
  map_fold (fun _ b acc => lower (b_mark b) acc) None ml.

(** The entries ahead of the first live one, the last first, and it. *)
Fixpoint first_live (st : Stream) (ahead : list holdEntry) (l : list holdEntry) : list holdEntry * option holdEntry :=
  match l with
  | [] => (ahead, None)
  | e :: l' => if live st e then (ahead, Some e) else first_live st (e :: ahead) l'
  end.

(** The backward pass over those entries. *)
Fixpoint pull_back (st : Stream) (ahead : list holdEntry) (oldest : Z) : Z :=
  match ahead with
  | [] => oldest
  | e :: ahead' =>
      if h_mark e >=? oldest then pull_back st ahead' oldest
      else pull_back st ahead' (if endMark st e >=? oldest then h_mark e else oldest)
  end.

Definition holdFloor (st : Stream) : option Z :=
  let '(ahead, first) := first_live st [] (st_holds st) in
  let held := multiline_floor (st_multiline st) in
  let held := match first with Some e => lower (h_mark e) held | None => held end in
  match held with
  | None => None
  | Some oldest => Some (pull_back st ahead oldest)
  end.

Definition pruneHolds (st : Stream) : Stream :=
  if zlen (st_holds st) >? 2 * Z.of_nat (size (st_aggs st)) + 16 then
    match holdFloor st with
    | None => set_holds [] st
    | Some floor =>
        set_holds (filter (fun e => live st e || ((endMark st e >=? floor) && (endMark st e >? h_mark e)) = true) (st_holds st)) st
    end
  else st.

(** The scan for the place of an entry, from the end of the list. *)
Fixpoint insert_back (e : holdEntry) (r : list holdEntry) : list holdEntry :=
  match r with
  | [] => [e]
  | x :: r' => if h_mark x >? h_mark e then x :: insert_back e r' else e :: r
  end.

Definition addHold (e : holdEntry) (st : Stream) : Stream :=
  pruneHolds (set_holds (reverse (insert_back e (reverse (st_holds st)))) st).

Definition holdWindow (key : gostr) (a : nat) (mark : Z) (st : Stream) : Stream :=
  addHold {| h_mark := mark; h_key := key; h_a := Some a; h_last := 0 |} st.

Definition holdRecord (buf : mlBuffer) (through : Z) (st : Stream) : Stream :=
  let last := if through >? b_lastMark buf then through else b_lastMark buf in
  if last <=? b_mark buf then st
  else addHold {| h_mark := b_mark buf; h_key := []; h_a := None; h_last := last |} st.

Definition names_window (key : gostr) (a : nat) (e : holdEntry) : bool :=
  bool_decide (h_a e = Some a) && bytes_eqb (h_key e) key.

(** The first entry that names the window, taken out. *)
Fixpoint remove_first (f : holdEntry -> bool) (l : list holdEntry) : list holdEntry :=
  match l with
  | [] => []
  | e :: l' => if f e then l' else e :: remove_first f l'
  end.

Definition lowerHoldMark (key : gostr) (a : nat) (mark : Z) (st : Stream) : Stream :=
  addHold {| h_mark := mark; h_key := key; h_a := Some a; h_last := 0 |}
    (set_holds (remove_first (names_window key a) (st_holds st)) st).

Definition HeldFrom (st : Stream) : Stream * option Z := (pruneHolds st, holdFloor st).

Definition Mark (pos : Z) (st : Stream) : Stream := set_mark pos st.

(** ** Windows *)

(** [aggQueue.Less]: by end, then by key. *)
Definition queue_before (x y : aggEntry) : bool :=
  if q_end x =? q_end y then blt (q_key x) (q_key y) else q_end x <? q_end y.

Fixpoint heap_push (e : aggEntry) (q : list aggEntry) : list aggEntry :=
  match q with
  | [] => [e]
  | x :: q' => if queue_before e x then e :: q else x :: heap_push e q'
  end.

Definition maxExactInt : Z := 9007199254740992.

Definition emit (a : aggregator) : option Result :=
  if negb (a_hasValue a) && negb (bytes_eqb (a_mode a) (bs "sum")) && negb (bytes_eqb (a_mode a) (bs "increment"))
  then None
  else
    let v := a_value a in
    let v := if fgeb v (of_int (- maxExactInt)) && fleb v (of_int maxExactInt) && feqb v (of_int (to_int v))
             then VInt (to_int v) else VFloat v in
    Some {| r_Set := a_set a; r_TSMs := UnixMilli (a_start a); r_SubUS := 0; r_Labels := a_labels a;
            r_Fields := {[ a_field a := v ]}; r_Line := a_line a |}.

Definition countWindow (a : aggregator) (st : Stream) : Stream :=
  on_stats (at_slot (a_slot a) bump_windows) st.

(** A window taken out of the map: its row, or a count. *)
Definition emit_window (id : nat) (forced : bool) (st : Stream) : Stream * list Result :=
  match st_objs st !! id with
  | None => (st, [])
  | Some a =>
      match emit a with
      | None => (on_stats count_empty st, [])
      | Some r =>
          let st := countWindow a st in
          (if forced then on_stats count_forced st else st, [r])
      end
  end.

Fixpoint close_loop (fuel : nat) (now : Z) (st : Stream) : Stream * list Result :=
  match fuel, st_aggQ st with
  | S fuel, e :: q =>
      if now <? q_end e then (st, [])
      else
        let st := set_aggQ q st in
        if bool_decide (st_aggs st !! q_key e = Some (q_a e)) then
          let st := set_aggs (delete (q_key e) (st_aggs st)) st in
          let '(st, out) := emit_window (q_a e) false st in
          let '(st, rest) := close_loop fuel now st in
          (st, out ++ rest)
        else close_loop fuel now st
  | _, _ => (st, [])
  end.

Definition closeExpiredAggregators (now : Z) (st : Stream) : Stream * list Result :=
  if IsZero now then (st, []) else close_loop (length (st_aggQ st)) now st.

Definition maxOpenWindows : Z := 100000.

Fixpoint shed_loop (fuel : nat) (over : Z) (st : Stream) : Stream * list Result :=
  match fuel, st_aggQ st with
  | S fuel, e :: q =>
      if over <=? 0 then (st, [])
      else
        let st := set_aggQ q st in
        if bool_decide (st_aggs st !! q_key e = Some (q_a e)) then
          let st := set_aggs (delete (q_key e) (st_aggs st)) st in
          let '(st, out) := emit_window (q_a e) true st in
          let '(st, rest) := shed_loop fuel (over - 1) st in
          (st, out ++ rest)
        else shed_loop fuel over st
  | _, _ => (st, [])
  end.

Definition shedOldestWindows (st : Stream) : Stream * list Result :=
  let over := Z.of_nat (size (st_aggs st)) - maxOpenWindows in
  if over <=? 0 then (st, []) else shed_loop (length (st_aggQ st)) over st.

(** ** Aggregation *)

Definition writeKeyPart (s : gostr) : gostr := framed s.

Fixpoint key_on (on : list gostr) (labels : labels_t) : result xerr gostr :=
  match on with
  | [] => Ok []
  | k :: on' =>
      match labels !! k with
      | None => Err (ErrAggregateKey k)
      | Some v => try rest <- key_on on' labels; Ok (writeKeyPart k ++ writeKeyPart v ++ rest)
      end
  end.

Section Stream.
Context `{FloatText} `{Regexp} `{TimeLib}.

Definition window_key (ag : Aggregate) (set : gostr) (labels : labels_t) : result xerr gostr :=
  try rest <- key_on (ag_On ag) labels;
  Ok (writeKeyPart set ++ writeKeyPart (ag_Field ag) ++ writeKeyPart (ag_Mode ag) ++ rest).

(** The reading of a record: nothing, or a number, or an error. *)
Definition window_reading (ag : Aggregate) (fields : row_fields) : result xerr (option f64) :=
  match fields !! ag_Field ag with
  | None => Ok None
  | Some v =>
      let '(incoming, usable) := AsFloat v in
      if negb usable && negb (bytes_eqb (ag_Mode ag) (bs "increment"))
      then Err (ErrAggregateField (ag_Field ag) (ag_Mode ag))
      else Ok (if usable then Some incoming else None)
  end.

Definition f_one : f64 := of_int 1.

(** The accumulator after one more reading. *)
Definition fold_reading (a : aggregator) (reading : option f64) : f64 * bool :=
  match reading with
  | None => (if bytes_eqb (a_mode a) (bs "increment") then fadd (a_value a) f_one else a_value a, a_hasValue a)
  | Some v =>
      (if bytes_eqb (a_mode a) (bs "increment") then fadd (a_value a) f_one
       else if bytes_eqb (a_mode a) (bs "sum") then fadd (a_value a) v
       else if bytes_eqb (a_mode a) (bs "max") then
         if negb (a_hasValue a) || fgtb v (a_value a) then v else a_value a
       else if bytes_eqb (a_mode a) (bs "last") then v
       else a_value a, true)
  end.

Definition set_span (mark last : Z) (a : aggregator) : aggregator :=
  {| a_value := a_value a; a_start := a_start a; a_end := a_end a; a_labels := a_labels a;
     a_set := a_set a; a_line := a_line a; a_field := a_field a; a_mode := a_mode a;
     a_hasValue := a_hasValue a; a_mark := mark; a_lastMark := last; a_slot := a_slot a |}.
Definition set_reading (vh : f64 * bool) (a : aggregator) : aggregator :=
  {| a_value := fst vh; a_start := a_start a; a_end := a_end a; a_labels := a_labels a;
     a_set := a_set a; a_line := a_line a; a_field := a_field a; a_mode := a_mode a;
     a_hasValue := snd vh; a_mark := a_mark a; a_lastMark := a_lastMark a; a_slot := a_slot a |}.

Definition open_window (ag : Aggregate) (set : gostr) (ts : Z) (labels : labels_t) (line : gostr) (reading : option f64) (mark slot : Z) : aggregator :=
  let vh := if bytes_eqb (ag_Mode ag) (bs "increment") then (f_one, true)
            else match reading with Some v => (v, true) | None => (f_zero, false) end in
  {| a_value := fst vh; a_start := ts; a_end := ts + ag_every ag; a_labels := labels;
     a_set := set; a_line := line; a_field := ag_Field ag; a_mode := ag_Mode ag;
     a_hasValue := snd vh; a_mark := mark; a_lastMark := mark; a_slot := slot |}.

(** The span of an open window, extended to the record in hand. *)
Definition extend_span (key : gostr) (id : nat) (a : aggregator) (st : Stream) : Stream :=
  let m := st_mark st in
  let last := if m >? a_lastMark a then m else a_lastMark a in
  if m <? a_mark a then
    lowerHoldMark key id m (set_objs (<[id := set_span m last a]> (st_objs st)) st)
  else set_objs (<[id := set_span (a_mark a) last a]> (st_objs st)) st.

Definition aggregate (aggSlot : list Z) (ag : Aggregate) (patIdx : Z) (set : gostr) (ts : Z)
    (labels : labels_t) (fields : row_fields) (line : gostr) (st : Stream) : Stream * list Result * option xerr :=
  match window_key ag set labels with
  | Err e => (st, [], Some e)
  | Ok key =>
      match window_reading ag fields with
      | Err e => (st, [], Some e)
      | Ok reading =>
          let slot := default (-1) (idx aggSlot patIdx) in
          let st := on_stats (at_slot slot bump_records) st in
          match st_aggs st !! key with
          | None =>
              let a := open_window ag set ts labels line reading (st_mark st) slot in
              let '(id, st) := alloc a st in
              let st := set_aggs (<[key := id]> (st_aggs st)) st in
              let st := set_aggQ (heap_push {| q_key := key; q_end := a_end a; q_a := id |} (st_aggQ st)) st in
              let st := holdWindow key id (a_mark a) st in
              let '(st, shed) := shedOldestWindows st in
              (st, shed, None)
          | Some id =>
              match st_objs st !! id with
              | None => (st, [], Some Panic)
              | Some a =>
                  let st := extend_span key id a st in
                  let upd := set_reading (fold_reading a reading) in
                  (set_objs (alter upd id (st_objs st)) st, [], None)
              end
          end
      end
  end.

(** ** One record *)

Context (p : Profile) (aggSlot : list Z).

Definition isLabel (pat : Pattern) (name : gostr) : bool :=
  bool_decide (name ∈ pr_labelSet p) || bool_decide (name ∈ p_labelSet pat).

Definition is_payload (name : gostr) : bool := bytes_eqb name (bs "buckets") || bytes_eqb name (bs "histogram").

(** The loop over the names of the groups. *)
Fixpoint captures (pat : Pattern) (i : nat) (names groups : list gostr) (acc : labels_t * row_fields * gostr) : labels_t * row_fields * gostr :=
  match names with
  | [] => acc
  | name :: names' =>
      let '(labels, fields, hist) := acc in
      let acc :=
        if Nat.eqb i 0 || bytes_eqb name [] then acc
        else match groups !! i with
             | None => acc
             | Some v =>
                 if is_payload name then (labels, fields, v)
                 else if isLabel pat name then
                   (if bytes_eqb v [] then labels else <[name := v]> labels, fields, hist)
                 else if bytes_eqb v [] then acc
                 else (labels, <[name := Coerce v]> fields, hist)
             end in
      captures pat (S i) names' groups acc
  end.

Fixpoint defaults (pat : Pattern) (l : list (gostr * gostr)) (labels : labels_t) (fields : row_fields) : labels_t * row_fields :=
  match l with
  | [] => (labels, fields)
  | (k, v) :: l' =>
      if isLabel pat k then
        match labels !! k with
        | None => if bytes_eqb v [] then defaults pat l' labels fields
                  else defaults pat l' (<[k := v]> labels) fields
        | Some _ => defaults pat l' labels fields
        end
      else
        match fields !! k with
        | None => defaults pat l' labels (<[k := Coerce v]> fields)
        | Some _ => defaults pat l' labels fields
        end
  end.

Fixpoint first_extract (l : list regexp) (line : gostr) : option (list gostr * list gostr) :=
  match l with
  | [] => None
  | re :: l' =>
      match FindStringSubmatch re line with
      | Some g => Some (g, SubexpNames re)
      | None => first_extract l' line
      end
  end.

Fixpoint first_route (l : list (regexp * gostr)) (line : gostr) : option (list gostr * list gostr * gostr) :=
  match l with
  | [] => None
  | (re, set) :: l' =>
      match FindStringSubmatch re line with
      | Some g => Some (g, SubexpNames re, set)
      | None => first_route l' line
      end
  end.

(** The groups of a line, their names and the set they are for. *)
Definition match_pattern (pat : Pattern) (line : gostr) : option (list gostr * list gostr * gostr) :=
  match first_extract (p_extract pat) line with
  | Some (g, names) => Some (g, names, p_Set pat)
  | None => first_route (p_Route pat) line
  end.

(** The labels and the fields of a matched record. *)
Definition row_of (pat : Pattern) (set : gostr) (groups names : list gostr) : result xerr (labels_t * row_fields) :=
  let '(labels, fields, hist) := captures pat 0 names groups (∅, ∅, []) in
  try fields <-
    (if bytes_eqb (p_BucketSet pat) [] then Ok fields
     else if bytes_eqb hist [] then Err (ErrNoBuckets set (p_BucketSet pat))
     else match pr_buckets p !! p_BucketSet pat with
          | None => Err Panic
          | Some b => match expand b hist fields with Ok f => Ok f | Err _ => Err ErrHistogram end
          end);
  let '(labels, fields) := defaults pat (p_DefaultValues pat) labels fields in
  if bool_decide (fields = ∅) && bool_decide (p_Aggregate pat = None) then Err (ErrNoFields set)
  else Ok (labels, fields).

Definition process (line : gostr) (ts : Z) (st : Stream) : Stream * list Result * option xerr :=
  match FirstIndex (pr_matcher p) line with
  | None => (st, [], Some Panic)
  | Some i =>
      if i <? 0 then (on_stats (count_unmatched line) st, [], Some ErrNoMatch)
      else
        match idx (pr_Patterns p) i with
        | None => (st, [], Some Panic)
        | Some pat =>
            let line := foldl (fun l '(re, sub) => ReplaceAllString re l sub) line (p_Replace pat) in
            match match_pattern pat line with
            | None => (on_stats (count_unmatched line) st, [], Some ErrNoMatch)
            | Some (groups, names, set) =>
                match row_of pat set groups names with
                | Err e => (st, [], Some e)
                | Ok (labels, fields) =>
                    let '(st, closed) := closeExpiredAggregators ts st in
                    match p_Aggregate pat with
                    | Some ag =>
                        let '(st, shed, err) := aggregate aggSlot ag i set ts labels fields line st in
                        let out := closed ++ shed in
                        (on_stats (count_samples (zlen out)) st, out, err)
                    | None =>
                        let r := {| r_Set := set; r_TSMs := UnixMilli ts; r_SubUS := subUS ts;
                                    r_Labels := labels; r_Fields := fields; r_Line := line |} in
                        let out := closed ++ [r] in
                        (on_stats (count_samples (zlen out)) st, out, None)
                    end
                end
            end
        end
  end.

Definition processBuffered (buf : mlBuffer) (st : Stream) : Stream * list Result * option xerr :=
  let saved := st_mark st in
  let '(st, out, err) := process (b_line buf) (b_ts buf) (set_mark (b_mark buf) st) in
  (set_mark saved st, out, err).

(** ** Multiline records *)

Fixpoint trimToRune (fuel : nat) (s : gostr) : gostr :=
  match fuel, s with
  | S fuel, _ :: _ =>
      let '(r, size) := DecodeLastRune s in
      if negb (r =? RuneError) || (size >? 1) then s
      else trimToRune fuel (take (length s - 1) s)
  | _, _ => s
  end.

Definition absorb_line (line : gostr) (now mark : Z) (buf : mlBuffer) : mlBuffer :=
  {| b_line := line; b_ts := b_ts buf; b_seen := now; b_mark := b_mark buf;
     b_lastMark := if mark >? b_lastMark buf then mark else b_lastMark buf |}.
Definition extend_buffer (mark : Z) (buf : mlBuffer) : mlBuffer :=
  {| b_line := b_line buf; b_ts := b_ts buf; b_seen := b_seen buf; b_mark := b_mark buf;
     b_lastMark := if mark >? b_lastMark buf then mark else b_lastMark buf |}.

(** The capture of the first join rule that has one. *)
Fixpoint first_join (l : list JoinRule) (body : gostr) : option gostr :=
  match l with
  | [] => None
  | j :: l' =>
      match FindStringSubmatch (j_re j) body with
      | Some g => match g !! j_Capture j with Some c => Some c | None => first_join l' body end
      | None => first_join l' body
      end
  end.

(** One rule and the buffer it has open. *)
Definition join_rule (m : Multiline) (buf : mlBuffer) (now : Z) (body : gostr) (ts : result xerr Z) (st : Stream) : Stream * list Result * option xerr :=
  let backwards := match ts with Ok t => t <? b_ts buf | Err _ => false end in
  if backwards then
    let st := set_multiline (delete (m_StartContains m) (st_multiline st)) st in
    let st := holdRecord buf (st_mark st) st in
    let '(st, out, verdict) := processBuffered buf st in
    (st, out, Some (ErrMovedBackwards verdict))
  else
    match first_join (m_Join m) body with
    | Some c =>
        let room := m_maxRecordBytes m - zlen (b_line buf) in
        let over := (m_maxRecordBytes m >? 0) && (zlen c >? room) in
        let line :=
          if over then
            if room >? 0 then b_line buf ++ trimToRune (length c) (take (Z.to_nat room) c) else b_line buf
          else b_line buf ++ c in
        let st := if over then on_stats count_oversize st else st in
        (set_multiline (<[m_StartContains m := absorb_line line now (st_mark st) buf]> (st_multiline st)) st, [], None)
    | None =>
        let st := set_multiline (<[m_StartContains m := extend_buffer (st_mark st) buf]> (st_multiline st)) st in
        (on_stats count_unjoined st, [], Some ErrNoJoin)
    end.

Fixpoint joinContinuation (rules : list Multiline) (now : Z) (body : gostr) (ts : result xerr Z) (st : Stream) : option (Stream * list Result * option xerr) :=
  match rules with
  | [] => None
  | m :: rules' =>
      if Contains body (m_StartContains m) then joinContinuation rules' now body ts st
      else
        match st_multiline st !! m_StartContains m, m_continueRe m with
        | Some buf, Some re =>
            if MatchString re body then Some (join_rule m buf now body ts st)
            else joinContinuation rules' now body ts st
        | _, _ => joinContinuation rules' now body ts st
        end
  end.

(** The first rule whose start marker a line holds opens a buffer, and the
    record the buffer before held is processed. *)
Fixpoint open_multiline (rules : list Multiline) (now : Z) (line : gostr) (ts : Z) (st : Stream) : option (Stream * list Result * option xerr) :=
  match rules with
  | [] => None
  | m :: rules' =>
      if negb (Contains line (m_StartContains m)) then open_multiline rules' now line ts st
      else
        let '(st, out, err) :=
          match st_multiline st !! m_StartContains m with
          | Some buf => processBuffered buf (holdRecord buf 0 st)
          | None => (st, [], None)
          end in
        let buf := {| b_line := line; b_ts := ts; b_seen := now; b_mark := st_mark st; b_lastMark := st_mark st |} in
        Some (set_multiline (<[m_StartContains m := buf]> (st_multiline st)) st, out, err)
  end.

Context (loc : location) (refTime from to : Z).

Definition Process (now : Z) (line : gostr) (st : Stream) : Stream * list Result * option xerr :=
  let st := on_stats count_record st in
  let n := pr_MaxRecordBytes p in
  let over := (n >? 0) && (zlen line >? n) in
  let line := if over then trimToRune (length line) (take (Z.to_nat n) line) else line in
  let st := if over then on_stats count_oversize st else st in
  let scanned := scanTimestamp (pr_Timestamp p) loc (st_lastTS st) refTime (st_tss st) line in
  let st := match scanned with Ok (_, _, s) => set_tss s st | Err _ => st end in
  let body := match scanned with Ok (_, b, _) => b | Err _ => line end in
  let ts := match scanned with Ok (t, _, _) => Ok t | Err e => Err e end in
  match joinContinuation (pr_Multiline p) now body ts st with
  | Some r => r
  | None =>
      match ts with
      | Err e => (on_stats count_tserr st, [], Some e)
      | Ok ts =>
          let st := set_last ts now st in
          if negb (IsZero from) && (ts <? from) then (st, [], None)
          else if negb (IsZero to) && (ts >? to) then (st, [], None)
          else match open_multiline (pr_Multiline p) now body ts st with
               | Some r => r
               | None => process body ts st
               end
      end
  end.

(** ** Flushes *)

(** The multiline buffers a flush closes; [due] says which. *)
Fixpoint flush_buffers (rules : list Multiline) (due : Multiline -> mlBuffer -> bool) (hold : bool) (st : Stream) : Stream * list Result * list xerr :=
  match rules with
  | [] => (st, [], [])
  | m :: rules' =>
      match st_multiline st !! m_StartContains m with
      | Some buf =>
          if due m buf then
            let st := if hold then holdRecord buf 0 st else st in
            let '(st, r, err) := processBuffered buf st in
            let st := set_multiline (delete (m_StartContains m) (st_multiline st)) st in
            let '(st, out, errs) := flush_buffers rules' due hold st in
            (st, r ++ out, match err with Some e => e :: errs | None => errs end)
          else flush_buffers rules' due hold st
      | None => flush_buffers rules' due hold st
      end
  end.

(** [aggKeysInEndOrder]: the open windows, by end and then by key, which is
    the order the queue holds them in. *)
Definition aggKeysInEndOrder (st : Stream) : list aggEntry :=
  filter (fun e => bool_decide (st_aggs st !! q_key e = Some (q_a e)) = true) (st_aggQ st).

Fixpoint flush_windows (l : list aggEntry) (st : Stream) : Stream * list Result :=
  match l with
  | [] => (st, [])
  | e :: l' =>
      let st := set_aggs (delete (q_key e) (st_aggs st)) st in
      let '(st, out) := emit_window (q_a e) false st in
      let st := on_stats (count_samples (zlen out)) st in
      let '(st, rest) := flush_windows l' st in
      (st, out ++ rest)
  end.

Definition Flush (st : Stream) : Stream * list Result * list xerr :=
  let '(st, out, errs) := flush_buffers (pr_Multiline p) (fun _ _ => true) false st in
  let '(st, rows) := flush_windows (aggKeysInEndOrder st) st in
  (set_holds [] (set_aggQ [] st), out ++ rows, errs).

Definition aggregationHorizon (now : Z) (st : Stream) : Z :=
  if IsZero (st_lastTS st) then zero_time
  else
    let elapsed := time_sub now (st_lastWall st) in
    st_lastTS st + (if elapsed <? 0 then 0 else elapsed).

Definition FlushIdle (now : Z) (st : Stream) : Stream * list Result * list xerr :=
  let idle m buf := negb (time_sub now (b_seen buf) <? m_idleTimeout m) in
  let '(st, out, errs) := flush_buffers (pr_Multiline p) idle true st in
  let '(st, closed) := closeExpiredAggregators (aggregationHorizon now st) st in
  (on_stats (count_samples (zlen closed)) st, out ++ closed, errs).
End Stream.

(** [NewStream]: the slots of the aggregating patterns and the state. *)
Fixpoint slots_of `{Regexp} (pats : list Pattern) (aggs : list AggregateStat) : list Z * list AggregateStat :=
  match pats with
  | [] => ([], aggs)
  | pat :: pats' =>
      match p_Aggregate pat with
      | None => let '(l, aggs) := slots_of pats' aggs in (-1 :: l, aggs)
      | Some ag =>
          let stat := {| as_Set := p_Set pat; as_Field := ag_Field ag; as_Mode := ag_Mode ag; as_Records := 0; as_Windows := 0 |} in
          let '(l, aggs') := slots_of pats' (aggs ++ [stat]) in (zlen aggs :: l, aggs')
      end
  end.

Definition empty_stats (aggs : list AggregateStat) : Stats :=
  {| n_Records := 0; n_Samples := 0; n_Unmatched := 0; n_TSParseErrors := 0; n_Oversize := 0;
     n_Unjoined := 0; n_FirstUnmatched := []; n_Aggregates := aggs;
     n_WindowsForcedClosed := 0; n_WindowsEmpty := 0 |}.

Definition NewStream `{Regexp} (p : Profile) (year : Z) : Stream :=
  {| st_tss := {| tss_idx := -1; tss_year := year |}; st_lastTS := zero_time; st_lastWall := zero_time;
     st_multiline := ∅; st_objs := ∅; st_next := 0; st_aggs := ∅; st_aggQ := []; st_mark := 0;
     st_holds := []; st_Stats := empty_stats (snd (slots_of (pr_Patterns p) [])) |}.
