(* ===== verification/ExtractHolds.v ===== *)
(** * The hold list of a stream

    What the floor of a stream is, and that pruning keeps it: the lemmas on
    [holdFloor], [addHold] and [pruneHolds], and the invariant [hold_inv] of
    the windows, the buffers and the list.  A bound [G] stands for the last
    floor: what was dropped from the list ends before it, and nothing live
    starts before it. *)

From Stdlib Require Import ZArith Lia Bool.
From Stdlib Require Import Strings.Byte Strings.String.
From stdpp Require Import gmap sorting.
From S2P Require Import Prelude Bytes Float64 GoStd GoText Model.
From S2P Require Import ExtractAC ExtractHistogram ExtractTimestamp ExtractStream.

Definition by_mark (x y : holdEntry) : Prop := h_mark x <= h_mark y.

(** ** Insertion *)

Lemma insert_back_perm e r : insert_back e r ≡ₚ e :: r.
Proof.
  induction r as [|x r IH]; cbn [insert_back]; [done|]. break_if; [|done].
  rewrite IH. apply Permutation_swap.
Qed.

Lemma insert_back_sorted e r :
  StronglySorted (flip by_mark) r -> StronglySorted (flip by_mark) (insert_back e r).
Proof.
  induction r as [|x r IH]; intros Hs; cbn [insert_back]; [repeat constructor|].
  apply StronglySorted_cons in Hs as [Hx Hs]. break_if; bsplit.
  - apply StronglySorted_cons. split; [|by apply IH].
    rewrite insert_back_perm. constructor; [unfold flip, by_mark; lia | done].
  - apply StronglySorted_cons. split; [|by apply StronglySorted_cons].
    constructor; [unfold flip, by_mark; lia|].
    eapply Forall_impl; [done|]. unfold flip, by_mark. intros y. simpl. lia.
Qed.

Lemma sorted_reverse {A} (R : relation A) l :
  StronglySorted R l -> StronglySorted (flip R) (reverse l).
Proof.
  induction 1 as [|x l Hs IH Hx]; [constructor|]. rewrite reverse_cons.
  apply StronglySorted_app. split_and!; [|done | repeat constructor].
  intros a b Ha ->%list_elem_of_singleton. rewrite elem_of_reverse in Ha.
  by apply (proj1 (Forall_forall _ _) Hx).
Qed.

Definition insert_hold (e : holdEntry) (l : list holdEntry) : list holdEntry :=
  reverse (insert_back e (reverse l)).

Lemma insert_hold_perm e l : insert_hold e l ≡ₚ e :: l.
Proof. unfold insert_hold. by rewrite reverse_Permutation, insert_back_perm, reverse_Permutation. Qed.

Lemma insert_hold_elem e l x : x ∈ insert_hold e l <-> x = e \/ x ∈ l.
Proof. by rewrite insert_hold_perm, elem_of_cons. Qed.

Lemma insert_hold_sorted e l :
  StronglySorted by_mark l -> StronglySorted by_mark (insert_hold e l).
Proof.
  intros Hs. apply (sorted_reverse (flip by_mark)), insert_back_sorted, sorted_reverse, Hs.
Qed.

Lemma addHold_unfold e st :
  addHold e st = pruneHolds (set_holds (insert_hold e (st_holds st)) st).
Proof. done. Qed.

Lemma sorted_filter {A} (R : relation A) (P : A -> Prop) `{forall x, Decision (P x)} l :
  StronglySorted R l -> StronglySorted R (filter P l).
Proof.
  induction 1 as [|x l Hs IH Hx]; [constructor|]. rewrite filter_cons.
  destruct (decide (P x)); [|done]. apply StronglySorted_cons. split; [|done].
  apply Forall_forall. intros y [_ Hy]%list_elem_of_filter.
  by apply (proj1 (Forall_forall _ _) Hx).
Qed.

Lemma remove_first_spec f l :
  (forall x, x ∈ remove_first f l -> x ∈ l) /\
  (forall x, x ∈ l -> f x = false -> x ∈ remove_first f l).
Proof.
  induction l as [|e l [IH1 IH2]]; cbn [remove_first]; [set_solver|].
  destruct (f e) eqn:He; (split; intros x; rewrite ?elem_of_cons).
  - auto.
  - intros [-> | Hx] Hf; [congruence | done].
  - intros [-> | Hx]; auto.
  - intros [-> | Hx] Hf; auto.
Qed.

Lemma remove_first_sorted f l :
  StronglySorted by_mark l -> StronglySorted by_mark (remove_first f l).
Proof.
  induction 1 as [|x l Hs IH Hx]; cbn [remove_first]; [constructor|].
  break_if; [done|]. apply StronglySorted_cons. split; [|done].
  apply Forall_forall. intros y Hy. apply (proj1 (Forall_forall _ _) Hx).
  by apply (proj1 (remove_first_spec f l)).
Qed.

(** ** The floor *)

Definition spans (st : Stream) (e : holdEntry) (x : Z) : Prop := h_mark e < x <= endMark st e.

Lemma pull_back_cases st l : forall o,
  pull_back st l o = o \/ exists y, y ∈ l /\ pull_back st l o = h_mark y.
Proof.
  induction l as [|y l IH]; intros o; cbn [pull_back]; [by left|].
  set (o' := if endMark st y >=? o then h_mark y else o).
  assert (Ho' : o' = o \/ o' = h_mark y) by (unfold o'; break_if; auto).
  break_if; [destruct (IH o) as [? | (z & ? & ?)] | destruct (IH o') as [-> | (z & ? & ?)]].
  - by left.
  - right. exists z. split; [by right | done].
  - destruct Ho' as [-> | ->]; [by left | right]. exists y. split; [by left | done].
  - right. exists z. split; [by right | done].
Qed.

Lemma pull_back_spec st ahead : forall oldest,
  StronglySorted (flip by_mark) ahead ->
  pull_back st ahead oldest <= oldest /\
  (forall e, e ∈ ahead -> ~ spans st e (pull_back st ahead oldest)) /\
  (forall G, G <= oldest -> (forall e, e ∈ ahead -> ~ spans st e G) -> G <= pull_back st ahead oldest).
Proof.
  induction ahead as [|e l IH]; intros oldest Hs; cbn [pull_back].
  - split_and!; [lia | intros e He; by apply not_elem_of_nil in He | auto].
  - apply StronglySorted_cons in Hs as [He Hs]. unfold spans in *.
    destruct (h_mark e >=? oldest) eqn:Hm; bsplit.
    + destruct (IH oldest Hs) as (Hle & Hno & Hlow). split_and!; [done | |].
      * intros x [-> | Hx]%elem_of_cons; [lia | by apply Hno].
      * intros G HG Hall. apply Hlow; [done|]. intros x Hx. apply Hall. by right.
    + set (o := if endMark st e >=? oldest then h_mark e else oldest).
      destruct (IH o Hs) as (Hle & Hno & Hlow).
      assert (Ho : o <= oldest /\ ((endMark st e >= oldest /\ o = h_mark e) \/ (endMark st e < oldest /\ o = oldest))).
      { unfold o. break_if; bsplit; lia. }
      split_and!; [lia | |].
      * intros x [-> | Hx]%elem_of_cons; [|by apply Hno].
        destruct Ho as [_ [[_ Ho] | [Hend Ho]]]; [lia|].
        (* the floor after the rest is the oldest, or an earlier start *)
        intros [H1 H2]. pose proof (pull_back_cases st l o) as Hcase.
        destruct Hcase as [Hc | (y & Hy & Hc)]; [lia|].
        apply (proj1 (Forall_forall _ _) He) in Hy. unfold flip, by_mark in Hy. lia.
      * intros G HG Hall. apply Hlow.
        -- destruct Ho as [_ [[Hend ->] | [_ ->]]]; [|done].
           specialize (Hall e ltac:(left)). lia.
        -- intros x Hx. apply Hall. by right.
Qed.

Lemma first_live_spec st l : forall ahead a first,
  first_live st ahead l = (a, first) ->
  exists dead, a = reverse dead ++ ahead /\ (forall e, e ∈ dead -> live st e = false) /\
    match first with
    | Some e => live st e = true /\ exists rest, l = dead ++ e :: rest
    | None => l = dead
    end.
Proof.
  induction l as [|x l IH]; intros ahead a first; cbn [first_live].
  - intros [= <- <-]. exists []. split_and!; [done | set_solver | done].
  - destruct (live st x) eqn:Hx.
    + intros [= <- <-]. exists []. split_and!; [done | set_solver | done | by exists l].
    + intros (dead & -> & Hd & Hf)%IH. exists (x :: dead). split_and!.
      * by rewrite reverse_cons, <- app_assoc.
      * intros e [-> | He]%elem_of_cons; auto.
      * destruct first as [e|]; [|by subst]. destruct Hf as [? [rest ->]]. split; [done | by exists rest].
Qed.

Lemma lower_spec m acc : exists o, lower m acc = Some o /\ o <= m /\
  (forall x, acc = Some x -> o <= x) /\ (o = m \/ acc = Some o).
Proof.
  destruct acc as [x|]; simpl.
  - break_if; bsplit; eexists; (split; [done|]); split_and!; try lia; try naive_solver lia.
  - exists m. naive_solver lia.
Qed.

Lemma multiline_floor_spec ml :
  match multiline_floor ml with
  | None => ml = ∅
  | Some o => (forall k b, ml !! k = Some b -> o <= b_mark b) /\ exists k b, ml !! k = Some b /\ o = b_mark b
  end.
Proof.
  unfold multiline_floor.
  apply (map_fold_weak_ind (fun acc (m : gmap gostr mlBuffer) =>
    match acc with
    | None => m = ∅
    | Some o => (forall k b, m !! k = Some b -> o <= b_mark b) /\ exists k b, m !! k = Some b /\ o = b_mark b
    end)); [done|].
  intros k b m acc Hk IH. destruct (lower_spec (b_mark b) acc) as (o & -> & Hle & Hacc & Hor). split.
  - intros k' b' Hb'. destruct (decide (k = k')) as [<- | Hne].
    + rewrite lookup_insert_eq in Hb'. by injection Hb' as <-.
    + rewrite lookup_insert_ne in Hb' by done. destruct acc as [x|].
      * destruct IH as [IH _]. specialize (IH _ _ Hb'). specialize (Hacc x eq_refl). lia.
      * by rewrite IH, lookup_empty in Hb'.
  - destruct Hor as [-> | ->].
    + exists k, b. by rewrite lookup_insert_eq.
    + destruct IH as [_ (k' & b' & Hb' & ->)]. exists k', b'. split; [|done].
      rewrite lookup_insert_ne; [done|]. intros ->. congruence.
Qed.

(** Something whose data only the stream holds: its first mark. *)
Inductive held_mark (st : Stream) : Z -> Prop :=
| held_buffer k b : st_multiline st !! k = Some b -> held_mark st (b_mark b)
| held_entry e : e ∈ st_holds st -> live st e = true -> held_mark st (h_mark e).

Lemma holdFloor_spec st :
  StronglySorted by_mark (st_holds st) ->
  match holdFloor st with
  | None => forall x, ~ held_mark st x
  | Some F =>
      (forall x, held_mark st x -> F <= x) /\ (exists x, held_mark st x) /\
      (forall e, e ∈ st_holds st -> live st e = false -> ~ spans st e F) /\
      (forall G, (forall x, held_mark st x -> G <= x) ->
         (forall e, e ∈ st_holds st -> live st e = false -> ~ spans st e G) -> G <= F)
  end.
Proof.
  intros Hs. unfold holdFloor.
  destruct (first_live st [] (st_holds st)) as [ahead first] eqn:Hf.
  destruct (first_live_spec st _ _ _ _ Hf) as (dead & -> & Hdead & Hfirst). clear Hf.
  rewrite app_nil_r.
  assert (Hsd : StronglySorted (flip by_mark) (reverse dead)).
  { apply sorted_reverse. destruct first as [e|].
    - destruct Hfirst as [_ [rest Hl]]. rewrite Hl in Hs. by apply StronglySorted_app_1_l in Hs.
    - by rewrite <- Hfirst. }
  set (held := match first with Some e => lower (h_mark e) _ | None => _ end).
  assert (Hheld : match held with
    | None => forall x, ~ held_mark st x
    | Some o => (forall x, held_mark st x -> o <= x) /\ held_mark st o
    end /\ (held = None -> first = None)).
  { pose proof (multiline_floor_spec (st_multiline st)) as Hml. unfold held. destruct first as [e|].
    - destruct Hfirst as [Hlive [rest Hl]].
      assert (Hin : e ∈ st_holds st) by (rewrite Hl; set_solver).
      assert (Hmin : forall x, x ∈ st_holds st -> live st x = true -> h_mark e <= h_mark x).
      { intros x Hx Hlx. rewrite Hl in Hx, Hs. apply elem_of_app in Hx as [Hx | Hx].
        - specialize (Hdead x Hx). congruence.
        - apply elem_of_cons in Hx as [-> | Hx]; [lia|].
          apply StronglySorted_app_1_r, StronglySorted_cons in Hs as [Hs _].
          by apply (proj1 (Forall_forall _ _) Hs). }
      destruct (lower_spec (h_mark e) (multiline_floor (st_multiline st))) as (o & -> & Hle & Hacc & Hor).
      split; [|done]. split.
      + intros x [k b Hb | y Hy Hly].
        * destruct (multiline_floor (st_multiline st)) as [z|]; [|by rewrite Hml, lookup_empty in Hb].
          destruct Hml as [Hml _]. specialize (Hml _ _ Hb). specialize (Hacc z eq_refl). lia.
        * specialize (Hmin y Hy Hly). lia.
      + destruct Hor as [-> | Hor]; [by apply held_entry|]. rewrite Hor in Hml.
        destruct Hml as [_ (k & b & Hb & ->)]. by apply (held_buffer st k).
    - assert (Hnone : forall x, x ∈ st_holds st -> live st x = false) by (rewrite Hfirst; done).
      split; [|done]. destruct (multiline_floor (st_multiline st)) as [z|].
      + destruct Hml as [Hml (k & b & Hb & ->)]. split; [|by apply (held_buffer st k)].
        intros x [k' b' Hb' | y Hy Hly]; [by apply (Hml k') | specialize (Hnone y Hy); congruence].
      + intros x [k b Hb | y Hy Hly]; [by rewrite Hml, lookup_empty in Hb|].
        specialize (Hnone y Hy). congruence. }
  destruct Hheld as [Hheld Hfn]. destruct held as [o|]; [|done].
  destruct Hheld as [Hmin Ho]. destruct (pull_back_spec st (reverse dead) o Hsd) as (Hle & Hno & Hlow).
  split_and!.
  - intros x Hx. specialize (Hmin x Hx). lia.
  - eauto.
  - intros e He Hle'. assert (Hcase : e ∈ dead \/ o <= h_mark e).
    { destruct first as [f|].
      - destruct Hfirst as [Hlive [rest Hl]]. pose proof Hs as Hs'. rewrite Hl in He, Hs.
        apply elem_of_app in He as [He | He]; [by left | right].
        assert (Hof : o <= h_mark f) by (apply Hmin, held_entry; [rewrite Hl; set_solver | done]).
        apply elem_of_cons in He as [-> | He]; [done|].
        apply StronglySorted_app_1_r, StronglySorted_cons in Hs as [Hs _].
        apply (proj1 (Forall_forall _ _) Hs) in He. unfold by_mark in He. lia.
      - left. by rewrite <- Hfirst. }
    destruct Hcase as [Hd | Hge]; [apply Hno; by rewrite elem_of_reverse|]. unfold spans. lia.
  - intros G HG Hall. apply Hlow; [by apply HG|]. intros e He. rewrite elem_of_reverse in He.
    apply Hall; [|by apply Hdead]. destruct first as [f|].
    + destruct Hfirst as [_ [rest ->]]. set_solver.
    + by rewrite Hfirst.
Qed.

(** ** The invariant *)

(** The windows, the queue and the hold list are in step. *)
Record hold_wf (st : Stream) : Prop := {
  wf_obj : forall k id, st_aggs st !! k = Some id -> is_Some (st_objs st !! id);
  wf_inj : forall k k' id, st_aggs st !! k = Some id -> st_aggs st !! k' = Some id -> k = k';
  wf_next : forall id a, st_objs st !! id = Some a -> (id < st_next st)%nat;
  wf_queue : forall e, e ∈ st_aggQ st -> st_aggs st !! q_key e = Some (q_a e);
  wf_queued : forall k id, st_aggs st !! k = Some id -> exists e, e ∈ st_aggQ st /\ q_key e = k;
  wf_qkeys : NoDup (q_key <$> st_aggQ st);
  wf_sorted : StronglySorted by_mark (st_holds st);
  wf_entry : forall e id, e ∈ st_holds st -> h_a e = Some id ->
    exists a, st_objs st !! id = Some a /\ h_mark e = a_mark a;
  wf_key : forall e id k, e ∈ st_holds st -> h_a e = Some id -> st_aggs st !! k = Some id -> h_key e = k;
  wf_held : forall k id, st_aggs st !! k = Some id -> exists e, e ∈ st_holds st /\ h_a e = Some id;
  wf_unique : NoDup (omap h_a (st_holds st));
  wf_order : StronglySorted (fun x y => queue_before x y = true) (st_aggQ st);
  wf_end : forall e a, e ∈ st_aggQ st -> st_objs st !! q_a e = Some a -> q_end e = a_end a;
}.

(** A span some entry of the list still names, or that ended before [G]. *)
Definition covered (G : Z) (st : Stream) (m l : Z) : Prop :=
  m < l -> l < G \/ exists e, e ∈ st_holds st /\ live st e = false /\ h_mark e = m /\ l <= endMark st e.

Record hold_inv (G K : Z) (S : list (Z * Z)) (st : Stream) : Prop := {
  hi_wf : hold_wf st;
  hi_bufs : forall k b, st_multiline st !! k = Some b -> G <= b_mark b <= b_lastMark b /\ b_lastMark b <= K;
  hi_live : forall k id a, st_aggs st !! k = Some id -> st_objs st !! id = Some a -> G <= a_mark a;
  hi_objs : forall id a, st_objs st !! id = Some a -> a_mark a <= a_lastMark a <= K;
  hi_last : forall e, e ∈ st_holds st -> h_a e = None -> h_last e <= K;
  hi_clear : forall e, e ∈ st_holds st -> live st e = false -> ~ spans st e G;
  hi_dead : forall id a, st_objs st !! id = Some a -> (forall k, st_aggs st !! k <> Some id) ->
    covered G st (a_mark a) (a_lastMark a);
  hi_S : forall m l, (m, l) ∈ S -> l <= K /\ covered G st m l;
  hi_G : 0 <= G <= K + 1;
}.

(** The invariant reads these parts of the state alone. *)
Definition same_holds (st st' : Stream) : Prop :=
  st_multiline st' = st_multiline st /\ st_objs st' = st_objs st /\ st_next st' = st_next st /\
  st_aggs st' = st_aggs st /\ st_aggQ st' = st_aggQ st /\ st_holds st' = st_holds st.

Lemma live_same st st' e : st_aggs st' = st_aggs st -> live st' e = live st e.
Proof. unfold live. by intros ->. Qed.

Lemma endMark_same st st' e : st_objs st' = st_objs st -> endMark st' e = endMark st e.
Proof. unfold endMark. by intros ->. Qed.

Lemma hold_inv_same G K S st st' : same_holds st st' -> hold_inv G K S st -> hold_inv G K S st'.
Proof.
  intros (Hm & Ho & Hn & Ha & Hq & Hh) [[] ? ? ? ? Hc Hd HS HGK].
  assert (Hcov : forall m l, covered G st m l -> covered G st' m l).
  { unfold covered. intros m l Hcv Hml. destruct (Hcv Hml) as [? | (e & ? & ? & ? & ?)]; [by left | right].
    exists e. by rewrite Hh, (live_same st), (endMark_same st). }
  split; rewrite ?Hm, ?Ho, ?Hn, ?Ha, ?Hq, ?Hh; try done.
  - by split; rewrite ?Hm, ?Ho, ?Hn, ?Ha, ?Hq, ?Hh.
  - intros e He. unfold spans. rewrite (live_same st), (endMark_same st) by done. by apply Hc.
  - intros id a ? ?. by apply Hcov, (Hd id).
  - intros m l Hin. destruct (HS m l Hin). auto.
Qed.

Lemma live_iff st e : hold_wf st -> e ∈ st_holds st ->
  live st e = true <-> exists id k, h_a e = Some id /\ st_aggs st !! k = Some id.
Proof.
  intros W He. unfold live. destruct (h_a e) as [id|] eqn:Hid.
  - rewrite bool_decide_eq_true. split; [eauto|]. intros (id' & k & [= <-] & Hk).
    by rewrite (wf_key _ W e id k).
  - split; [done|]. naive_solver.
Qed.

Lemma held_above G K S st x : hold_inv G K S st -> held_mark st x -> G <= x <= K.
Proof.
  intros I [k b Hb | e He Hl].
  - pose proof (hi_bufs _ _ _ _ I k b Hb). lia.
  - apply (live_iff st e (hi_wf _ _ _ _ I) He) in Hl as (id & k & Hid & Hk).
    destruct (wf_entry _ (hi_wf _ _ _ _ I) e id He Hid) as (a & Ha & ->).
    pose proof (hi_live _ _ _ _ I k id a Hk Ha). pose proof (hi_objs _ _ _ _ I id a Ha). lia.
Qed.

(** ** Pruning *)

Lemma sublist_omap {A B} (f : A -> option B) (l k : list A) :
  sublist l k -> sublist (omap f l) (omap f k).
Proof.
  induction 1 as [|x l k _ IH|x l k _ IH]; simpl; [constructor | |]; destruct (f x); by try constructor.
Qed.

Lemma NoDup_omap_sublist {A B} (f : A -> option B) (l k : list A) :
  sublist l k -> NoDup (omap f k) -> NoDup (omap f l).
Proof. intros Hs Hnd. eapply sublist_NoDup; [done|]. by apply sublist_omap. Qed.

Lemma prune_kept floor st e :
  e ∈ st_holds (set_holds (filter (fun e => live st e || ((endMark st e >=? floor) && (endMark st e >? h_mark e)) = true) (st_holds st)) st) <->
  e ∈ st_holds st /\ (live st e = true \/ (floor <= endMark st e /\ h_mark e < endMark st e)).
Proof.
  simpl. rewrite list_elem_of_filter, orb_true_iff, andb_true_iff.
  rewrite Z.geb_leb, Z.gtb_ltb, Z.leb_le, Z.ltb_lt. tauto.
Qed.

Lemma prune_inv G K S st :
  hold_inv G K S st -> (exists x, held_mark st x) ->
  exists G', G <= G' /\ hold_inv G' K S (pruneHolds st).
Proof.
  intros I [x0 Hx0]. unfold pruneHolds. break_if; [|exists G; split; [lia | done]].
  pose proof (holdFloor_spec st (wf_sorted _ (hi_wf _ _ _ _ I))) as Hf.
  destruct (holdFloor st) as [F|]; [|by destruct (Hf x0)].
  destruct Hf as (Hmin & _ & Hno & Hlow).
  assert (HGF : G <= F).
  { apply Hlow; [|apply I]. intros x Hx. by apply (held_above G K S st x). }
  assert (HFK : 0 <= F <= K + 1).
  { pose proof (hi_G _ _ _ _ I). pose proof (Hmin x0 Hx0). pose proof (held_above _ _ _ _ _ I Hx0). lia. }
  exists F. split; [done|]. pose proof (prune_kept F st) as Hk.
  set (st' := set_holds _ st) in *.
  assert (Hlive : forall e, live st' e = live st e) by done.
  assert (Hend : forall e, endMark st' e = endMark st e) by done.
  assert (Hcov : forall m l, covered G st m l -> covered F st' m l).
  { unfold covered. intros m l Hc Hml. destruct (Hc Hml) as [? | (e & He & Hle & Hm & Hl)]; [left; lia|].
    destruct (decide (l < F)); [by left | right]. exists e. rewrite Hlive, Hend.
    split_and!; [|done..]. apply Hk. split; [done | right; lia]. }
  destruct I as [W Hb Hlv Hob Hla Hcl Hd HS HGK]. split; simpl; try done.
  - destruct W. split; simpl; try done.
    + by apply sorted_filter.
    + intros e id [He _]%Hk. by apply wf_entry0.
    + intros e id k [He _]%Hk. by apply wf_key0.
    + intros k id Hkid. destruct (wf_held0 k id Hkid) as (e & He & Hid). exists e. split; [|done].
      apply Hk. split; [done | left]. unfold live. rewrite Hid, bool_decide_eq_true.
      by rewrite (wf_key0 e id k).
    + eapply NoDup_omap_sublist; [apply sublist_filter | done].
  - intros k b Hkb. split; [|by apply (Hb k)]. pose proof (Hb k b Hkb).
    split; [|lia]. apply Hmin. by apply (held_buffer st k).
  - intros k id a Hkid Ha. destruct (wf_held _ W k id Hkid) as (e & He & Hid).
    destruct (wf_entry _ W e id He Hid) as (a' & Ha' & Hm). assert (a' = a) as -> by congruence.
    rewrite <- Hm. apply Hmin, held_entry; [done|]. apply (live_iff st e W He). eauto.
  - intros e [He _]%Hk. by apply Hla.
  - intros e [He _]%Hk Hl. by apply Hno.
  - intros id a Ha Hdead. by apply Hcov, (Hd id).
  - intros m l Hin. destruct (HS m l Hin). auto.
Qed.
