(* ===== verification/ExtractHoldOps.v ===== *)
(** * The operations of a stream keep the hold list

    Each step of [ExtractStream] that opens, folds, closes or holds keeps
    [hold_inv]; then the handlers, which are made of those steps. *)

From Stdlib Require Import ZArith Lia Bool.
From Stdlib Require Import Strings.Byte Strings.String.
From stdpp Require Import gmap sorting.
From S2P Require Import Prelude Bytes Float64 GoStd GoText Model.
From S2P Require Import ExtractAC ExtractHistogram ExtractTimestamp ExtractStream ExtractHolds.

(** ** Entries *)

Lemma insert_hold_omap e l : omap h_a (insert_hold e l) ≡ₚ omap h_a (e :: l).
Proof. by rewrite insert_hold_perm. Qed.

Lemma covered_insert G st e m l :
  covered G st m l -> covered G (set_holds (insert_hold e (st_holds st)) st) m l.
Proof.
  unfold covered. intros Hc Hml. destruct (Hc Hml) as [? | (x & Hx & Hl & Hm & He)]; [by left | right].
  exists x. split_and!; try done. simpl. apply insert_hold_elem. by right.
Qed.

(** The span of a record that was emitted. *)
Lemma record_entry_inv G K S st mark last :
  hold_inv G K S st -> G <= mark -> last <= K ->
  hold_inv G K ((mark, last) :: S)
    (set_holds (insert_hold {| h_mark := mark; h_key := []; h_a := None; h_last := last |} (st_holds st)) st).
Proof.
  intros [W Hb Hlv Hob Hla Hcl Hd HS HGK] HG HK. set (e := {| h_mark := mark |}).
  split; simpl; try done.
  - destruct W. split; simpl; try done.
    + by apply insert_hold_sorted.
    + intros x id [-> | Hx]%insert_hold_elem Hid; [done | by apply wf_entry].
    + intros x id k [-> | Hx]%insert_hold_elem Hid; [done | by apply wf_key].
    + intros k id Hk. destruct (wf_held k id Hk) as (x & Hx & Hid). exists x.
      split; [apply insert_hold_elem; by right | done].
    + by rewrite insert_hold_omap.
  - intros x [-> | Hx]%insert_hold_elem Hid; [done | by apply Hla].
  - intros x [-> | Hx]%insert_hold_elem Hl; [unfold spans; simpl; lia | by apply Hcl].
  - intros id a Ha Hdead. by apply covered_insert, (Hd id).
  - intros m l [[= -> ->] | Hin]%elem_of_cons.
    + split; [done|]. intros Hml. right. exists e. split_and!; try done. apply insert_hold_elem. by left.
    + destruct (HS m l Hin). split; [done | by apply covered_insert].
Qed.

(** ** Windows *)

Definition opened (key : gostr) (a : aggregator) (st : Stream) : Stream :=
  let '(id, st) := alloc a st in
  let st := set_aggs (<[key := id]> (st_aggs st)) st in
  let st := set_aggQ (heap_push {| q_key := key; q_end := a_end a; q_a := id |} (st_aggQ st)) st in
  set_holds (insert_hold {| h_mark := a_mark a; h_key := key; h_a := Some id; h_last := 0 |} (st_holds st)) st.

Lemma heap_push_perm e q : heap_push e q ≡ₚ e :: q.
Proof.
  induction q as [|x q IH]; cbn [heap_push]; [done|]. break_if; [done|].
  rewrite IH. apply Permutation_swap.
Qed.

Lemma queue_before_trans x y z :
  queue_before x y = true -> queue_before y z = true -> queue_before x z = true.
Proof.
  unfold queue_before.
  destruct (Z.eqb_spec (q_end x) (q_end y)), (Z.eqb_spec (q_end y) (q_end z)), (Z.eqb_spec (q_end x) (q_end z));
    intros H1 H2; bsplit; try lia; try (apply Z.ltb_lt; lia); try congruence.
  by eapply blt_trans.
Qed.

Lemma queue_before_total x y :
  q_key x <> q_key y -> queue_before x y = false -> queue_before y x = true.
Proof.
  unfold queue_before. intros Hne.
  destruct (Z.eqb_spec (q_end x) (q_end y)) as [He | He], (Z.eqb_spec (q_end y) (q_end x)); try congruence.
  - intros Hb. destruct (blt_total (q_key x) (q_key y)) as [? | [? | ?]]; congruence.
  - intros Hb. bsplit. apply Z.ltb_lt. lia.
Qed.

Lemma heap_push_sorted e q :
  (forall x, x ∈ q -> q_key x <> q_key e) ->
  StronglySorted (fun x y => queue_before x y = true) q ->
  StronglySorted (fun x y => queue_before x y = true) (heap_push e q).
Proof.
  intros Hne Hs. induction Hs as [|x q Hs IH Hx]; cbn [heap_push]; [repeat constructor|].
  destruct (queue_before e x) eqn:Hb.
  - constructor; [by constructor|]. constructor; [done|].
    eapply Forall_impl; [done|]. intros y Hy. by eapply queue_before_trans.
  - constructor; [apply IH; intros y Hy; apply Hne; by right|].
    rewrite heap_push_perm. constructor; [|done].
    apply queue_before_total; [|done]. intros He. by apply (Hne x); [left|].
Qed.

Lemma opened_wf key a st :
  hold_wf st -> st_aggs st !! key = None -> hold_wf (opened key a st).
Proof.
  intros W Hkey. unfold opened, alloc. simpl. set (id := st_next st).
  assert (Hfresh : st_objs st !! id = None).
  { destruct (st_objs st !! id) eqn:E; [|done]. apply (wf_next _ W) in E. unfold id in E. lia. }
  assert (Hnew : forall k, st_aggs st !! k <> Some id).
  { intros k Hk. destruct (wf_obj _ W k id Hk) as [x Hx]. congruence. }
  assert (Hent : forall e i, e ∈ st_holds st -> h_a e = Some i -> i <> id).
  { intros e i He Hi ->. destruct (wf_entry _ W e id He Hi) as (x & Hx & _). congruence. }
  destruct W. split; simpl.
  - intros k i [[-> <-] | [? Hk]]%lookup_insert_Some; [by rewrite lookup_insert_eq|].
    rewrite lookup_insert_ne; [by apply (wf_obj k)|]. intros ->. by apply (Hnew k).
  - intros k k' i [[-> <-] | [? Hk]]%lookup_insert_Some [[-> ?] | [? Hk']]%lookup_insert_Some;
      [done | by destruct (Hnew k') | subst; by destruct (Hnew k) | by apply (wf_inj k k' i)].
  - intros i x [[<- _] | [_ Hx]]%lookup_insert_Some; [lia|]. apply wf_next in Hx. lia.
  - intros e. rewrite heap_push_perm. intros [-> | He]%elem_of_cons; simpl.
    + by rewrite lookup_insert_eq.
    + specialize (wf_queue e He). rewrite lookup_insert_ne; [done|]. intros Heq. congruence.
  - intros k i [[-> <-] | [Hne Hk]]%lookup_insert_Some.
    + eexists. rewrite heap_push_perm. split; [left | done].
    + destruct (wf_queued k i Hk) as (e & He & <-). exists e.
      rewrite heap_push_perm. split; [by right | done].
  - rewrite heap_push_perm. simpl. apply NoDup_cons. split; [|done].
    intros (e & He & Hin)%list_elem_of_fmap. specialize (wf_queue e Hin). congruence.
  - by apply insert_hold_sorted.
  - intros e i [-> | He]%insert_hold_elem Hi; simpl in *.
    + injection Hi as <-. exists a. by rewrite lookup_insert_eq.
    + destruct (wf_entry e i He Hi) as (x & Hx & Hm). exists x.
      rewrite lookup_insert_ne; [done|]. intros <-. by apply (Hent e id).
  - intros e i k [-> | He]%insert_hold_elem Hi Hk; simpl in *.
    + injection Hi as <-. apply lookup_insert_Some in Hk as [[-> _] | [_ Hk]]; [done | by destruct (Hnew k)].
    + apply lookup_insert_Some in Hk as [[_ <-] | [_ Hk]]; [by destruct (Hent e id)|].
      by apply (wf_key e i).
  - intros k i [[-> <-] | [Hne Hk]]%lookup_insert_Some.
    + eexists. split; [apply insert_hold_elem; by left | done].
    + destruct (wf_held k i Hk) as (e & He & Hi). exists e.
      split; [apply insert_hold_elem; by right | done].
  - rewrite insert_hold_omap. simpl. apply NoDup_cons. split; [|done].
    intros (e & He & Hi)%list_elem_of_omap. by apply (Hent e id).
  - apply heap_push_sorted; [|done]. intros x Hx He. specialize (wf_queue x Hx). simpl in He. congruence.
  - intros e x. rewrite heap_push_perm. intros [-> | He]%elem_of_cons; simpl.
    + rewrite lookup_insert_eq. by intros [= ->].
    + specialize (wf_queue e He). rewrite lookup_insert_ne; [by apply wf_end|].
      intros Heq. apply (Hnew (q_key e)). by rewrite Heq.
Qed.

Lemma opened_inv G K S st key a :
  hold_inv G K S st -> st_aggs st !! key = None ->
  G <= a_mark a -> a_mark a <= a_lastMark a <= K ->
  hold_inv G K S (opened key a st).
Proof.
  intros I Hkey HG HK. pose proof (opened_wf key a st (hi_wf _ _ _ _ I) Hkey) as W'.
  destruct I as [W Hb Hlv Hob Hla Hcl Hd HS HGK].
  unfold opened, alloc in *. simpl in *. set (id := st_next st) in *.
  assert (Hfresh : st_objs st !! id = None).
  { destruct (st_objs st !! id) eqn:E; [|done]. apply (wf_next _ W) in E. unfold id in E. lia. }
  assert (Hent : forall e i, e ∈ st_holds st -> h_a e = Some i -> i <> id).
  { intros e i He Hi ->. destruct (wf_entry _ W e id He Hi) as (x & Hx & _). congruence. }
  set (st' := set_holds _ _) in *.
  assert (Hold : forall e, e ∈ st_holds st -> endMark st' e = endMark st e /\ live st' e = live st e).
  { intros e He. unfold endMark, live. simpl. destruct (h_a e) as [i|] eqn:Hi; [|done].
    pose proof (Hent e i He Hi). rewrite lookup_insert_ne by done. split; [done|].
    apply bool_decide_ext. destruct (decide (key = h_key e)) as [-> | Hne].
    - rewrite lookup_insert_eq, Hkey. naive_solver.
    - by rewrite lookup_insert_ne. }
  assert (Hcov : forall m l, covered G st m l -> covered G st' m l).
  { intros m l Hc Hml. destruct (Hc Hml) as [? | (e & He & Hl & Hm & Hend)]; [by left | right].
    exists e. destruct (Hold e He) as [-> ->]. split_and!; try done. apply insert_hold_elem. by right. }
  split; simpl; try done.
  - intros k i x [[-> <-] | [? Hk]]%lookup_insert_Some Hx.
    + rewrite lookup_insert_eq in Hx. by injection Hx as <-.
    + apply lookup_insert_Some in Hx as [[<- <-] | [_ Hx]]; [done | by apply (Hlv k i)].
  - intros i x [[_ <-] | [_ Hx]]%lookup_insert_Some; [done | by apply (Hob i)].
  - intros e [-> | He]%insert_hold_elem Hi; [done | by apply Hla].
  - intros e [-> | He]%insert_hold_elem Hl.
    + exfalso. unfold live in Hl. simpl in Hl. by rewrite lookup_insert_eq, bool_decide_eq_true_2 in Hl.
    + destruct (Hold e He) as [Hend Hlive]. unfold spans. rewrite Hend. apply Hcl; [done | by rewrite <- Hlive].
  - intros i x [[<- <-] | [Hne Hx]]%lookup_insert_Some Hdead.
    + destruct (Hdead key). by rewrite lookup_insert_eq.
    + apply Hcov, (Hd i); [done|]. intros k Hk. apply (Hdead k).
      rewrite lookup_insert_ne; [done|]. intros <-. congruence.
  - intros m l Hin. destruct (HS m l Hin). auto.
Qed.

(** A window leaves the map and the queue; its entry stays. *)
Lemma close_inv G K S st e q :
  hold_inv G K S st -> st_aggQ st = e :: q ->
  hold_inv G K S (set_aggs (delete (q_key e) (st_aggs st)) (set_aggQ q st)).
Proof.
  intros [W Hb Hlv Hob Hla Hcl Hd HS HGK] Hq. set (st' := set_aggs _ _).
  pose proof (wf_queue _ W e ltac:(rewrite Hq; left)) as Hkey.
  destruct (wf_obj _ W _ _ Hkey) as [a Ha]. set (id := q_a e) in *.
  destruct (wf_held _ W _ _ Hkey) as (h & Hh & Hhid).
  destruct (wf_entry _ W h id Hh Hhid) as (a' & Ha' & Hm). assert (a' = a) as -> by congruence.
  assert (Hlive : forall x, x ∈ st_holds st -> live st' x = live st x && negb (bool_decide (h_a x = Some id))).
  { intros x Hx. apply eq_true_iff_eq. rewrite andb_true_iff, negb_true_iff, bool_decide_eq_false.
    unfold live. simpl. destruct (h_a x) as [i|] eqn:Hi; [|naive_solver].
    rewrite !bool_decide_eq_true, lookup_delete_Some. split.
    - intros [Hne Hi']. split; [done|]. intros [= ->]. by rewrite (wf_inj _ W _ _ _ Hkey Hi') in Hne.
    - intros [Hi' Hne]. split; [|done]. intros Heq. rewrite <- Heq in Hi'. congruence. }
  assert (Hcov : forall m l, covered G st m l -> covered G st' m l).
  { intros m l Hc Hml. destruct (Hc Hml) as [? | (x & Hx & Hl & Hmx & Hend)]; [by left | right].
    exists x. rewrite Hlive, Hl by done. done. }
  assert (Hnl : live st' h = false) by (rewrite Hlive by done; rewrite bool_decide_eq_true_2, andb_false_r by done; done).
  assert (Hend : endMark st' h = a_lastMark a) by (unfold endMark; simpl; by rewrite Hhid, Ha).
  split; simpl; try done.
  - destruct W. split; simpl; try done.
    + intros k i [_ Hk]%lookup_delete_Some. by apply (wf_obj k).
    + intros k k' i [_ Hk]%lookup_delete_Some [_ Hk']%lookup_delete_Some. by apply (wf_inj k k' i).
    + intros x Hx. rewrite lookup_delete_ne; [apply wf_queue; rewrite Hq; by right|].
      intros Heq. rewrite Hq in wf_qkeys. simpl in wf_qkeys. apply NoDup_cons in wf_qkeys as [Hno _].
      apply Hno, list_elem_of_fmap. by exists x.
    + intros k i [Hne Hk]%lookup_delete_Some. destruct (wf_queued k i Hk) as (x & Hx & <-).
      exists x. split; [|done]. rewrite Hq in Hx. apply elem_of_cons in Hx as [-> | Hx]; [done | done].
    + rewrite Hq in wf_qkeys. simpl in wf_qkeys. by apply NoDup_cons in wf_qkeys as [_ ?].
    + intros x i k Hx Hi [_ Hk]%lookup_delete_Some. by apply (wf_key x i).
    + intros k i [_ Hk]%lookup_delete_Some. by apply (wf_held k i).
    + rewrite Hq in wf_order. by apply StronglySorted_cons in wf_order as [_ ?].
    + intros x y Hx. apply wf_end. rewrite Hq. by right.
  - intros k i x [_ Hk]%lookup_delete_Some. by apply (Hlv k).
  - intros x Hx Hl. unfold spans. change (endMark st' x) with (endMark st x).
    rewrite Hlive in Hl by done. apply andb_false_iff in Hl as [Hl | Hl]; [by apply Hcl|].
    rewrite negb_false_iff, bool_decide_eq_true in Hl.
    destruct (wf_entry _ W x id Hx Hl) as (a' & Ha'' & Hmx). assert (a' = a) as -> by congruence.
    specialize (Hlv _ _ _ Hkey Ha). lia.
  - intros i x Hx Hdead. destruct (decide (i = id)) as [-> | Hne].
    + assert (x = a) as -> by congruence. intros Hml. right. exists h. rewrite Hend. done.
    + apply Hcov, (Hd i); [done|]. intros k Hk. apply (Hdead k). rewrite lookup_delete_Some.
      split; [|done]. intros <-. congruence.
  - intros m l Hin. destruct (HS m l Hin). auto.
Qed.

(** ** Folding into an open window *)

Lemma names_window_spec key id e : names_window key id e = true <-> h_a e = Some id /\ h_key e = key.
Proof. unfold names_window. by rewrite andb_true_iff, bool_decide_eq_true, bytes_eqb_spec. Qed.

Lemma remove_first_perm f l : (exists e, e ∈ l /\ f e = true) ->
  exists e, f e = true /\ l ≡ₚ e :: remove_first f l.
Proof.
  induction l as [|x l IH]; intros (e & He & Hf); [by apply not_elem_of_nil in He|].
  cbn [remove_first]. destruct (f x) eqn:Hx; [by exists x|].
  destruct IH as (y & Hy & Hp).
  { exists e. split; [|done]. apply elem_of_cons in He as [-> | He]; [congruence | done]. }
  exists y. split; [done|]. rewrite Hp at 1. apply Permutation_swap.
Qed.

Lemma remove_first_sublist f l : sublist (remove_first f l) l.
Proof.
  induction l as [|x l IH]; cbn [remove_first]; [constructor|].
  break_if; constructor; [reflexivity | done].
Qed.

(** A live window changes: its value, its end mark, its start mark if the
    entry moves with it. *)
Section Fold.
Context {G K : Z} {S : list (Z * Z)} {st : Stream} {key : gostr} {id : nat} {a a' : aggregator}.
Context (I : hold_inv G K S st) (Hkey : st_aggs st !! key = Some id) (Ha : st_objs st !! id = Some a).
Context (Hmark : G <= a_mark a') (Hlast : a_mark a' <= a_lastMark a' <= K) (Hends : a_end a' = a_end a).

Lemma entry_live e : e ∈ st_holds st -> h_a e = Some id -> live st e = true.
Proof. intros He Hid. apply (live_iff st e (hi_wf _ _ _ _ I) He). eauto. Qed.

Lemma dead_end e : e ∈ st_holds st -> live st e = false ->
  endMark (set_objs (<[id := a']> (st_objs st)) st) e = endMark st e.
Proof.
  intros He Hl. unfold endMark. simpl. destruct (h_a e) as [i|] eqn:Hi; [|done].
  rewrite lookup_insert_ne; [done|]. intros <-. by rewrite (entry_live e He Hi) in Hl.
Qed.

(** The state with the window changed and a list [l] of entries. *)
Definition refolded (l : list holdEntry) : Stream :=
  set_holds l (set_objs (<[id := a']> (st_objs st)) st).

Lemma refolded_inv l :
  StronglySorted by_mark l ->
  (forall e, e ∈ l -> h_a e <> Some id -> e ∈ st_holds st) ->
  (forall e, e ∈ st_holds st -> h_a e <> Some id -> e ∈ l) ->
  (forall e, e ∈ l -> h_a e = Some id -> h_mark e = a_mark a' /\ h_key e = key) ->
  (exists e, e ∈ l /\ h_a e = Some id) -> NoDup (omap h_a l) ->
  hold_inv G K S (refolded l).
Proof.
  intros Hsort Hin Hout Hid Hex Hnd. destruct I as [W Hb Hlv Hob Hla Hcl Hd HS HGK].
  assert (Hdead : forall e, e ∈ l -> live (refolded l) e = false ->
            h_a e <> Some id /\ e ∈ st_holds st /\ live st e = false).
  { intros e He Hl. assert (Hne : h_a e <> Some id).
    { intros Hi. destruct (Hid e He Hi) as [_ Hk]. unfold live in Hl. simpl in Hl.
      by rewrite Hi, Hk, Hkey, bool_decide_eq_true_2 in Hl. }
    split_and!; [done | by apply Hin | done]. }
  assert (Hcov : forall m z, covered G st m z -> covered G (refolded l) m z).
  { intros m z Hc Hmz. destruct (Hc Hmz) as [? | (e & He & Hl & Hm & Hend)]; [by left | right].
    assert (Hne : h_a e <> Some id) by (intros Hi; by rewrite (entry_live e He Hi) in Hl).
    exists e. split_and!; [by apply Hout | done | done |].
    unfold endMark in *. simpl. destruct (h_a e) as [i|]; [|done].
    rewrite lookup_insert_ne; [done | congruence]. }
  assert (Hspan : forall i x, <[id := a']> (st_objs st) !! i = Some x -> i = id /\ x = a' \/ i <> id /\ st_objs st !! i = Some x).
  { intros i x [[<- <-] | [? ?]]%lookup_insert_Some; auto. }
  split; simpl; try done.
  - destruct W. split; simpl; try done.
    + intros k i Hk. destruct (decide (id = i)) as [<- | Hne]; [by rewrite lookup_insert_eq|].
      rewrite lookup_insert_ne by done. by apply (wf_obj k).
    + intros i x [[-> ->] | [_ Hx]]%Hspan; [by apply (wf_next id a) | by apply (wf_next i x)].
    + intros e i He Hi. destruct (decide (id = i)) as [<- | Hne].
      * exists a'. rewrite lookup_insert_eq. split; [done | by apply Hid].
      * rewrite lookup_insert_ne by done. apply wf_entry; [|done]. apply Hin; [done | congruence].
    + intros e i k He Hi Hk. destruct (decide (id = i)) as [<- | Hne].
      * destruct (Hid e He Hi) as [_ ->]. by apply (wf_inj key k id).
      * apply (wf_key e i); [|done..]. apply Hin; [done | congruence].
    + intros k i Hk. destruct (decide (id = i)) as [<- | Hne]; [done|].
      destruct (wf_held k i Hk) as (e & He & Hi). exists e. split; [|done].
      apply Hout; [done | congruence].
    + intros e x He Hx. apply Hspan in Hx as [[Hid' ->] | [_ Hx]]; [|by apply wf_end].
      rewrite Hends. apply wf_end; [done | by rewrite Hid'].
  - intros k i x Hk [[-> ->] | [_ Hx]]%Hspan; [done | by apply (Hlv k i)].
  - intros i x [[-> ->] | [_ Hx]]%Hspan; [done | by apply (Hob i)].
  - intros e He Hi. apply Hla; [apply Hin; [done | congruence] | done].
  - intros e He Hl. destruct (Hdead e He Hl) as (Hne & He' & Hl').
    unfold spans, endMark. simpl. specialize (Hcl e He' Hl'). unfold spans, endMark in Hcl.
    destruct (h_a e) as [i|]; [|done]. rewrite lookup_insert_ne; [done | congruence].
  - intros i x [[-> ->] | [Hne Hx]]%Hspan Hno; [by destruct (Hno key)|].
    apply Hcov, (Hd i); [done|]. intros k. apply Hno.
  - intros m z Hinz. destruct (HS m z Hinz). auto.
Qed.

Lemma fold_inv : a_mark a' = a_mark a -> hold_inv G K S (set_objs (<[id := a']> (st_objs st)) st).
Proof.
  intros Hm. eapply (hold_inv_same _ _ _ (refolded (st_holds st))); [done|].
  pose proof (hi_wf _ _ _ _ I) as W. apply refolded_inv; try done; try apply W.
  - intros e He Hi. destruct (wf_entry _ W e id He Hi) as (x & Hx & ->).
    split; [congruence | by apply (wf_key _ W e id)].
  - by apply (wf_held _ W key id).
Qed.

Lemma lowered_inv :
  hold_inv G K S (refolded (insert_hold {| h_mark := a_mark a'; h_key := key; h_a := Some id; h_last := 0 |}
    (remove_first (names_window key id) (st_holds st)))).
Proof.
  pose proof (hi_wf _ _ _ _ I) as W.
  destruct (remove_first_spec (names_window key id) (st_holds st)) as [Hr1 Hr2].
  destruct (wf_held _ W key id Hkey) as (h & Hh & Hhid).
  destruct (remove_first_perm (names_window key id) (st_holds st)) as (h' & Hh' & Hperm).
  { exists h. split; [done|]. apply names_window_spec. split; [done|]. by apply (wf_key _ W h id). }
  apply names_window_spec in Hh' as [Hh'id Hh'key].
  assert (Hnd : NoDup (id :: omap h_a (remove_first (names_window key id) (st_holds st)))).
  { pose proof (wf_unique _ W) as Hu. rewrite Hperm in Hu. simpl in Hu. by rewrite Hh'id in Hu. }
  apply refolded_inv.
  - apply insert_hold_sorted, remove_first_sorted, W.
  - intros e [-> | He]%insert_hold_elem Hi; [done | by apply Hr1].
  - intros e He Hi. apply insert_hold_elem. right. apply Hr2; [done|].
    destruct (names_window key id e) eqn:Hn; [|done]. by apply names_window_spec in Hn as [? _].
  - intros e [-> | He]%insert_hold_elem Hi; [done|]. exfalso.
    apply NoDup_cons in Hnd as [Hno _]. apply Hno, list_elem_of_omap. by exists e.
  - eexists. split; [apply insert_hold_elem; by left | done].
  - rewrite insert_hold_omap. simpl. done.
Qed.
End Fold.

(** ** Buffers *)

Lemma buffer_insert_inv G K S st k b :
  hold_inv G K S st -> G <= b_mark b <= b_lastMark b -> b_lastMark b <= K ->
  hold_inv G K S (set_multiline (<[k := b]> (st_multiline st)) st).
Proof.
  intros [W Hb Hlv Hob Hla Hcl Hd HS HGK] HG HK. split; simpl; try done.
  - by destruct W; split.
  - intros k' b' [[_ <-] | [_ Hk]]%lookup_insert_Some; [done | by apply (Hb k')].
Qed.

Lemma buffer_delete_inv G K S st k :
  hold_inv G K S st -> hold_inv G K S (set_multiline (delete k (st_multiline st)) st).
Proof.
  intros [W Hb Hlv Hob Hla Hcl Hd HS HGK]. split; simpl; try done.
  - by destruct W; split.
  - intros k' b' [_ Hk]%lookup_delete_Some. by apply (Hb k').
Qed.
