(* ===== verification/ExtractStreamInv.v ===== *)
(** * The handlers of a stream keep the hold list

    [Process], [Flush] and [FlushIdle] are made of the steps of
    [ExtractHoldOps]: each keeps [hold_inv] and the cap on open windows. *)

From Stdlib Require Import ZArith Lia Bool Strings.Byte Strings.String.
From stdpp Require Import gmap sorting.
From S2P Require Import Prelude Bytes Float64 GoStd GoText Model ExtractAC ExtractHistogram ExtractTimestamp ExtractStream ExtractHolds.
From S2P Require Import ExtractHoldOps.

(** Closes a goal about a member of an empty collection. *)
Ltac nothing_held :=
  solve [intros; match goal with
    | H : _ ∈ [] |- _ => by apply not_elem_of_nil in H
    | H : ∅ !! _ = Some _ |- _ => by rewrite lookup_empty in H
    end].

Definition capped (st : Stream) : Prop := Z.of_nat (size (st_aggs st)) <= maxOpenWindows.

(** What a step of the pattern stage leaves alone. *)
Definition quiet (st st' : Stream) : Prop :=
  st_multiline st' = st_multiline st /\ st_mark st' = st_mark st.

#[export] Instance quiet_refl : Reflexive quiet.
Proof. by intros st. Qed.
#[export] Instance quiet_trans : Transitive quiet.
Proof. intros a b c [? ?] [? ?]. split; congruence. Qed.

(** ** Closing windows *)

Lemma emit_window_stats id forced st : exists s out, emit_window id forced st = (set_Stats s st, out).
Proof.
  unfold emit_window.
  destruct (st_objs st !! id) as [a|]; [|by exists (st_Stats st), []; destruct st].
  destruct (emit a) as [r|]; [|by eexists _, _].
  destruct forced; by eexists _, _.
Qed.

(** The outcome of a loop that only closes windows. *)
Definition closes (G K : Z) (S : list (Z * Z)) (st st' : Stream) : Prop :=
  hold_inv G K S st' /\ quiet st st' /\ (size (st_aggs st') <= size (st_aggs st))%nat.

Lemma close_step G K S st e q s :
  hold_inv G K S st -> st_aggQ st = e :: q ->
  let st1 := set_Stats s (set_aggs (delete (q_key e) (st_aggs st)) (set_aggQ q st)) in
  hold_inv G K S st1 /\ quiet st st1 /\ size (st_aggs st) = Datatypes.S (size (st_aggs st1)).
Proof.
  intros I Hq st1. split_and!.
  - eapply hold_inv_same; [|by eapply close_inv]. done.
  - done.
  - simpl. pose proof (wf_queue _ (hi_wf _ _ _ _ I) e ltac:(rewrite Hq; left)) as Hk.
    rewrite map_size_delete, Hk. assert (size (st_aggs st) <> 0%nat); [|lia].
    intros H0%map_size_empty_inv. by rewrite H0, lookup_empty in Hk.
Qed.

Lemma close_loop_inv G K S now fuel : forall st,
  hold_inv G K S st -> closes G K S st (close_loop fuel now st).1.
Proof.
  induction fuel as [|fuel IH]; intros st I; [by split_and!|]. cbn [close_loop].
  destruct (st_aggQ st) as [|e q] eqn:Hq; [by split_and!|].
  break_if; [by split_and!|].
  pose proof (wf_queue _ (hi_wf _ _ _ _ I) e ltac:(rewrite Hq; left)) as Hk.
  change (st_aggs (set_aggQ q st)) with (st_aggs st). rewrite bool_decide_eq_true_2 by done.
  destruct (emit_window_stats (q_a e) false (set_aggs (delete (q_key e) (st_aggs st)) (set_aggQ q st)))
    as (s & out & ->).
  destruct (close_step _ _ _ _ _ _ s I Hq) as (I1 & Q1 & N1).
  destruct (IH _ I1) as (I2 & Q2 & N2).
  destruct (close_loop fuel now _) as [st2 rest]. simpl in *. split_and!; [done | by etrans | lia].
Qed.

Lemma closeExpired_inv G K S now st :
  hold_inv G K S st -> closes G K S st (closeExpiredAggregators now st).1.
Proof. intros I. unfold closeExpiredAggregators. break_if; [by split_and! | by apply close_loop_inv]. Qed.

Lemma queue_empty st : hold_wf st -> st_aggQ st = [] -> st_aggs st = ∅.
Proof.
  intros W Hq. apply map_empty. intros k. destruct (st_aggs st !! k) eqn:Hk; [|done].
  destruct (wf_queued _ W _ _ Hk) as (e & He & _). rewrite Hq in He. by apply not_elem_of_nil in He.
Qed.

Lemma shed_loop_inv G K S fuel : forall over st,
  hold_inv G K S st -> closes G K S st (shed_loop fuel over st).1 /\
    (over <= Z.of_nat (size (st_aggs st)) -> (length (st_aggQ st) <= fuel)%nat ->
     Z.of_nat (size (st_aggs (shed_loop fuel over st).1)) <= Z.of_nat (size (st_aggs st)) - Z.max 0 over).
Proof.
  induction fuel as [|fuel IH]; intros over st I; cbn [shed_loop].
  - split; [by split_and!|]. intros Ho Hl. destruct (st_aggQ st) eqn:Hq; [|simpl in Hl; lia].
    cbn [fst]. rewrite (queue_empty st) in * by (done || apply I). rewrite map_size_empty in *. lia.
  - destruct (st_aggQ st) as [|e q] eqn:Hq.
    + split; [by split_and!|]. intros Ho _.
      cbn [fst]. rewrite (queue_empty st) in * by (done || apply I). rewrite map_size_empty in *. lia.
    + destruct (Z.leb_spec over 0) as [Hle | Hgt]; [split; [by split_and! | cbn [fst]; lia]|].
      pose proof (wf_queue _ (hi_wf _ _ _ _ I) e ltac:(rewrite Hq; left)) as Hk.
      change (st_aggs (set_aggQ q st)) with (st_aggs st). rewrite bool_decide_eq_true_2 by done.
      destruct (emit_window_stats (q_a e) true (set_aggs (delete (q_key e) (st_aggs st)) (set_aggQ q st)))
        as (s & out & ->).
      destruct (close_step _ _ _ _ _ _ s I Hq) as (I1 & Q1 & N1).
      set (st1 := set_Stats s _) in *.
      destruct (IH (over - 1) st1 I1) as [(I2 & Q2 & N2) Hcap].
      destruct (shed_loop fuel (over - 1) st1) as [st2 rest]. cbn [fst] in *. split.
      * split_and!; [done | by etrans | lia].
      * intros Ho Hl. specialize (Hcap ltac:(lia) ltac:(simpl in *; lia)). lia.
Qed.

Lemma shed_inv G K S st :
  hold_inv G K S st -> closes G K S st (shedOldestWindows st).1 /\ capped (shedOldestWindows st).1.
Proof.
  intros I. unfold shedOldestWindows, capped.
  destruct (Z.leb_spec (Z.of_nat (size (st_aggs st)) - maxOpenWindows) 0) as [Hle | Hgt].
  - split; [by split_and! | cbn [fst]; lia].
  - destruct (shed_loop_inv G K S (length (st_aggQ st))
      (Z.of_nat (size (st_aggs st)) - maxOpenWindows) st I) as [Hc Hcap]. split; [exact Hc|].
    specialize (Hcap ltac:(unfold maxOpenWindows; lia) ltac:(lia)). lia.
Qed.

(** ** One record *)

(** The outcome of a step that may hold more: the bound may rise. *)
Definition holds_on (G K : Z) (S : list (Z * Z)) (st st' : Stream) : Prop :=
  (exists G', G <= G' /\ hold_inv G' K S st') /\ quiet st st' /\ (capped st -> capped st').

Lemma closes_holds_on G K S st st' : closes G K S st st' -> holds_on G K S st st'.
Proof.
  intros (I & Q & N). split_and!; [exists G; split; [lia | done] | done|].
  unfold capped. lia.
Qed.

Lemma prune_quiet st : quiet st (pruneHolds st) /\ st_aggs (pruneHolds st) = st_aggs st /\
  st_objs (pruneHolds st) = st_objs st.
Proof. unfold pruneHolds. break_if; [|done]. by destruct (holdFloor st). Qed.

Section Handlers.
Context `{FloatText} `{Regexp} `{TimeLib}.

Lemma alter_insert_lookup {A} (f : A -> A) (m : gmap nat A) i x :
  m !! i = Some x -> alter f i m = <[i := f x]> m.
Proof.
  intros Hx. apply map_eq. intros j. destruct (decide (i = j)) as [<- | Hne].
  - by rewrite lookup_alter_eq, lookup_insert_eq, Hx.
  - by rewrite lookup_alter_ne, lookup_insert_ne.
Qed.

Lemma fold_window_inv G K S st key id a reading :
  hold_inv G K S st -> G <= st_mark st <= K ->
  st_aggs st !! key = Some id -> st_objs st !! id = Some a ->
  let st1 := extend_span key id a st in
  holds_on G K S st (set_objs (alter (set_reading (fold_reading a reading)) id (st_objs st1)) st1).
Proof.
  intros I Hm Hkey Ha st1. pose proof (hi_objs _ _ _ _ I id a Ha) as Hspan.
  pose proof (hi_live _ _ _ _ I key id a Hkey Ha) as HGa.
  assert (Hst1 : exists a1, st_objs st1 !! id = Some a1 /\ st_aggs st1 = st_aggs st /\ quiet st st1 /\
            exists G', G <= G' /\ hold_inv G' K S st1 /\ G' <= a_mark a1 /\ a_mark a1 <= a_lastMark a1 <= K).
  { unfold st1, extend_span.
    set (last := if st_mark st >? a_lastMark a then st_mark st else a_lastMark a).
    assert (Hlast : a_lastMark a <= last <= K /\ st_mark st <= last) by (unfold last; break_if; bsplit; lia).
    break_if; bsplit.
    - set (a1 := set_span (st_mark st) last a).
      pose proof (lowered_inv (a' := a1) I Hkey Ha ltac:(simpl; lia) ltac:(simpl; lia) eq_refl) as IL.
      unfold lowerHoldMark. rewrite addHold_unfold.
      match type of IL with hold_inv _ _ _ ?s => set (st2 := s) in IL end.
      change (set_holds _ (set_holds _ _)) with st2.
      assert (Hheld : exists x, held_mark st2 x).
      { exists (st_mark st). refine (held_entry st2 {| h_mark := st_mark st; h_key := key; h_a := Some id; h_last := 0 |} _ _).
        - simpl. apply insert_hold_elem. by left.
        - unfold live. simpl. by rewrite bool_decide_eq_true_2. }
      destruct (prune_inv _ _ _ _ IL Hheld) as (G' & HG' & IP).
      destruct (prune_quiet st2) as (Qp & Hpa & Hpo). exists a1.
      rewrite Hpo, Hpa. split_and!; [simpl; by rewrite lookup_insert_eq | done | done |].
      exists G'. split_and!; try done; simpl; try lia.
      apply (hi_live _ _ _ _ IP key id a1); [by rewrite Hpa|]. rewrite Hpo. simpl. by rewrite lookup_insert_eq.
    - set (a1 := set_span (a_mark a) last a). exists a1. simpl.
      split_and!; [by rewrite lookup_insert_eq | done | done |]. exists G.
      split_and!; [lia | | simpl; lia | simpl; lia | simpl; lia].
      by apply (fold_inv (a' := a1) I Hkey Ha); simpl; try lia. }
  destruct Hst1 as (a1 & Ha1 & Hag & Q & G' & HG' & I1 & HG1 & Hsp).
  split_and!.
  - exists G'. split; [done|]. rewrite (alter_insert_lookup _ _ _ a1) by done.
    rewrite <- Hag in Hkey. by apply (fold_inv (a' := set_reading (fold_reading a reading) a1) I1 Hkey Ha1).
  - destruct Q. by split.
  - unfold capped. simpl. by rewrite Hag.
Qed.

Lemma holds_on_refl G K S st : hold_inv G K S st -> holds_on G K S st st.
Proof. intros I. split_and!; [exists G; split; [lia | done] | done | done]. Qed.

Lemma inv_stats G K S f st : hold_inv G K S st -> hold_inv G K S (on_stats f st).
Proof. by apply (hold_inv_same _ _ _ st). Qed.

Lemma inv_mark G K S m st : hold_inv G K S st -> hold_inv G K S (set_mark m st).
Proof. by apply (hold_inv_same _ _ _ st). Qed.

Lemma open_window_inv G K S st key a :
  hold_inv G K S st -> st_aggs st !! key = None -> G <= a_mark a -> a_mark a <= a_lastMark a <= K ->
  capped st ->
  exists G', G <= G' /\ hold_inv G' K S (shedOldestWindows (pruneHolds (opened key a st))).1 /\
    quiet st (shedOldestWindows (pruneHolds (opened key a st))).1 /\
    capped (shedOldestWindows (pruneHolds (opened key a st))).1.
Proof.
  intros I Hkey HG HK Hcap. pose proof (opened_inv _ _ _ _ key a I Hkey HG HK) as IO.
  assert (Hheld : exists x, held_mark (opened key a st) x).
  { exists (a_mark a).
    refine (held_entry _ {| h_mark := a_mark a; h_key := key; h_a := Some (st_next st); h_last := 0 |} _ _).
    - simpl. apply insert_hold_elem. by left.
    - unfold live. simpl. by rewrite lookup_insert_eq, bool_decide_eq_true_2. }
  destruct (prune_inv _ _ _ _ IO Hheld) as (G1 & HG1 & IP).
  destruct (prune_quiet (opened key a st)) as (Qp & _ & _).
  destruct (shed_inv _ _ _ _ IP) as [(IS & QS & _) HC].
  exists G1. split_and!; [done | done | | done]. etrans; [|done]. etrans; [|done]. done.
Qed.

Lemma aggregate_inv G K S aggSlot ag patIdx set ts labels fields line st :
  hold_inv G K S st -> G <= st_mark st <= K -> capped st ->
  holds_on G K S st (aggregate aggSlot ag patIdx set ts labels fields line st).1.1.
Proof.
  intros I Hm Hcap. unfold aggregate.
  destruct (window_key ag set labels) as [key|e]; [|by apply holds_on_refl].
  destruct (window_reading ag fields) as [reading|e]; [|by apply holds_on_refl].
  set (slot := default (-1) (idx aggSlot patIdx)).
  apply (inv_stats _ _ _ (at_slot slot bump_records)) in I as I1.
  set (st1 := on_stats _ st) in *. change (st_aggs st) with (st_aggs st1).
  assert (Q1 : quiet st st1) by done. assert (Hm1 : G <= st_mark st1 <= K) by exact Hm.
  change (capped st1) in Hcap.
  enough (Hon : forall st2, holds_on G K S st1 st2 -> holds_on G K S st st2).
  { destruct (st_aggs st1 !! key) as [id|] eqn:Hkey.
    - destruct (st_objs st1 !! id) as [a|] eqn:Ha; [|by apply Hon, holds_on_refl].
      apply Hon. by eapply fold_window_inv.
    - set (a := open_window _ _ _ _ _ _ _ _).
      destruct (open_window_inv G K S st1 key a I1 Hkey) as (G2 & HG2 & I2 & Q2 & C2);
        [subst a; simpl in *; lia.. | done |].
      apply Hon. unfold alloc. cbv beta iota zeta.
      change (holdWindow key _ _ _) with (pruneHolds (opened key a st1)).
      destruct (shedOldestWindows (pruneHolds (opened key a st1))) as [st2 out].
      split_and!; [by exists G2 | done | done]. }
  intros st2 (HG2 & Q2 & C2). split_and!; [done | by etrans | auto].
Qed.

Context (p : Profile) (aggSlot : list Z).

Lemma process_inv G K S line ts st :
  hold_inv G K S st -> G <= st_mark st <= K -> capped st ->
  holds_on G K S st (process p aggSlot line ts st).1.1.
Proof.
  intros I Hm Hcap. unfold process.
  destruct (FirstIndex (pr_matcher p) line) as [i|]; [|by apply holds_on_refl].
  assert (Hstat : forall f, holds_on G K S st (on_stats f st)).
  { intros f. split_and!; [exists G; split; [lia | by apply inv_stats] | done | done]. }
  break_if; [apply Hstat|].
  destruct (idx (pr_Patterns p) i) as [pat|]; [|by apply holds_on_refl]. cbv zeta.
  destruct (match_pattern pat _) as [[[groups names] set]|]; [|apply Hstat].
  destruct (row_of p pat set groups names) as [[labels fields]|e]; [|by apply holds_on_refl].
  destruct (closeExpired_inv _ _ _ ts _ I) as (I1 & Q1 & N1).
  destruct (closeExpiredAggregators ts st) as [st1 closed]. cbn [fst] in I1, Q1, N1.
  assert (C1 : capped st1) by (unfold capped in *; lia).
  assert (Hcl : forall st2, holds_on G K S st1 st2 -> holds_on G K S st st2).
  { intros st2 (HG2 & Q2 & C2). split_and!; [done | by etrans | auto]. }
  assert (Hm1 : G <= st_mark st1 <= K) by (destruct Q1 as [_ ->]; done).
  destruct (p_Aggregate pat) as [ag|].
  - pose proof (aggregate_inv G K S aggSlot ag i set ts labels fields
      (foldl (fun l '(re, sub) => ReplaceAllString re l sub) line (p_Replace pat)) st1 I1 Hm1 C1) as HA.
    destruct (aggregate _ _ _ _ _ _ _ _ _) as [[st2 shed] err]. cbn [fst] in HA |- *.
    apply Hcl. destruct HA as ((G2 & HG2 & I2) & Q2 & C2).
    split_and!; [exists G2; split; [done | by apply inv_stats] | done | done].
  - cbn [fst]. apply Hcl. split_and!; [exists G; split; [lia | by apply inv_stats] | done | done].
Qed.

(** A buffered record is processed under its own mark. *)
Lemma processBuffered_inv G K S buf st :
  hold_inv G K S st -> G <= b_mark buf <= K -> capped st ->
  holds_on G K S st (processBuffered p aggSlot buf st).1.1.
Proof.
  intros I Hm Hcap. unfold processBuffered.
  destruct (process_inv G K S (b_line buf) (b_ts buf) (set_mark (b_mark buf) st)) as ((G1 & HG1 & I1) & [Q1 _] & C1);
    [by apply inv_mark | done | done |].
  destruct (process p aggSlot _ _ _) as [[st1 out] err]. cbn [fst] in *.
  split_and!; [exists G1; split; [done | by apply inv_mark] | by split | done].
Qed.

(** The span of an open buffer, held before the buffer is processed. *)
Lemma holdRecord_inv G K S k buf st :
  hold_inv G K S st -> st_multiline st !! k = Some buf ->
  exists G', G <= G' /\ hold_inv G' K ((b_mark buf, b_lastMark buf) :: S) (holdRecord buf 0 st) /\
    quiet st (holdRecord buf 0 st) /\ st_aggs (holdRecord buf 0 st) = st_aggs st.
Proof.
  intros I Hk. unfold holdRecord.
  set (last := if 0 >? b_lastMark buf then 0 else b_lastMark buf).
  destruct (hi_bufs _ _ _ _ I k buf Hk) as [Hb HbK]. pose proof (hi_G _ _ _ _ I).
  assert (Hlast : b_lastMark buf <= last <= K) by (unfold last; break_if; bsplit; lia).
  destruct (Z.leb_spec last (b_mark buf)) as [Hle | Hgt].
  - exists G. split_and!; [lia | | done | done]. destruct I. split; try done.
    intros m l [[= -> ->] | Hin]%elem_of_cons; [|by apply hi_S].
    split; [done | unfold covered; lia].
  - rewrite addHold_unfold.
    pose proof (record_entry_inv G K S st (b_mark buf) last I ltac:(lia) ltac:(lia)) as IE.
    set (st1 := set_holds _ st) in *.
    destruct (prune_inv _ _ _ _ IE) as (G1 & HG1 & IP).
    { exists (b_mark buf). by apply (held_buffer st1 k). }
    destruct (prune_quiet st1) as (Qp & Hpa & _).
    exists G1. split_and!; [done | | by etrans | done].
    destruct IP as [? ? ? ? ? ? ? HS HGK]. split; try done.
    intros m l [[= -> ->] | Hin]%elem_of_cons; [|apply HS; by right].
    destruct (HS (b_mark buf) last) as [_ Hcov]; [left|].
    split; [done|]. intros Hml. destruct (Hcov ltac:(lia)) as [? | (e & ? & ? & ? & ?)]; [left; lia | right].
    exists e. split_and!; try done. lia.
Qed.

(** ** Whole records *)

(** The spans of the buffers a call closed: those whose rule has no buffer
    any more, or one that starts elsewhere. *)
Definition flushed (st st' : Stream) : list (Z * Z) :=
  omap (fun '(k, b) =>
    if match st_multiline st' !! k with Some b' => b_mark b' =? b_mark b | None => false end
    then None else Some (b_mark b, b_lastMark b)) (map_to_list (st_multiline st)).

Lemma flushed_spec st st' m l :
  (m, l) ∈ flushed st st' <-> exists k b, st_multiline st !! k = Some b /\ m = b_mark b /\ l = b_lastMark b /\
    forall b', st_multiline st' !! k = Some b' -> b_mark b' <> b_mark b.
Proof.
  unfold flushed. rewrite list_elem_of_omap. split.
  - intros ([k b] & Hin & He). apply elem_of_map_to_list in Hin. exists k, b.
    destruct (st_multiline st' !! k) as [b'|] eqn:Hk.
    + destruct (Z.eqb_spec (b_mark b') (b_mark b)); [done|]. injection He as <- <-.
      split_and!; try done. intros ? [= <-]. done.
    + injection He as <- <-. done.
  - intros (k & b & Hk & -> & -> & Hno). exists (k, b). split; [by apply elem_of_map_to_list|].
    destruct (st_multiline st' !! k) as [b'|]; [|done].
    by rewrite (proj2 (Z.eqb_neq _ _)) by (by apply Hno).
Qed.

Lemma inv_spans G K S S' st :
  (forall x, x ∈ S' -> x ∈ S) -> hold_inv G K S st -> hold_inv G K S' st.
Proof. intros Hsub []. split; try done. intros m l Hin. apply hi_S. by apply Hsub. Qed.

(** The outcome of handling a record at [K]. *)
Definition ruled (ml : gmap gostr mlBuffer) : Prop :=
  forall k b, ml !! k = Some b -> exists m, m ∈ pr_Multiline p /\ m_StartContains m = k.

Definition handled (K : Z) (S : list (Z * Z)) (st st' : Stream) : Prop :=
  (exists G', hold_inv G' K (S ++ flushed st st') st') /\ capped st' /\
  (ruled (st_multiline st) -> ruled (st_multiline st')).

Lemma handled_quiet G K S st st' :
  holds_on G K S st st' -> capped st -> handled K S st st'.
Proof.
  intros ((G' & _ & I) & [Hml _] & C) Hcap. split_and!; [|auto | by rewrite Hml].
  exists G'. eapply inv_spans; [|done]. intros [m l] [Hin | Hin]%elem_of_app; [done | exfalso].
  apply flushed_spec in Hin as (k & b & Hk & _ & _ & Hno). rewrite <- Hml in Hk. by apply (Hno b).
Qed.

Lemma ruled_insert k buf buf' ml :
  ruled ml -> ml !! k = Some buf -> ruled (<[k := buf']> ml).
Proof. intros Hr Hk k' b [[<- _] | [_ Hb]]%lookup_insert_Some; [by apply (Hr k buf) | by apply (Hr k' b)]. Qed.

(** A buffer that grows keeps its start. *)
Lemma handled_grow G K S st k buf buf' s :
  hold_inv G K S st -> capped st -> st_multiline st !! k = Some buf ->
  b_mark buf' = b_mark buf -> b_lastMark buf <= b_lastMark buf' <= K ->
  handled K S st (set_Stats s (set_multiline (<[k := buf']> (st_multiline st)) st)).
Proof.
  intros I Hcap Hk Hmark Hlast. destruct (hi_bufs _ _ _ _ I k buf Hk) as [Hb HbK].
  split_and!; [|done | intros Hr; simpl; by apply (ruled_insert k buf)]. exists G.
  apply (hold_inv_same _ _ _ (set_multiline (<[k := buf']> (st_multiline st)) st)); [done|].
  eapply inv_spans; [|apply (buffer_insert_inv G K S st k buf' I); lia].
  intros [m l] [Hin | Hin]%elem_of_app; [done | exfalso].
  apply flushed_spec in Hin as (k' & b & Hk' & _ & _ & Hno). simpl in Hno.
  destruct (decide (k = k')) as [<- | Hne].
  - apply (Hno buf'); [by rewrite lookup_insert_eq | congruence].
  - apply (Hno b); [by rewrite lookup_insert_ne | done].
Qed.

Lemma join_rule_inv G K S m buf now body ts st r :
  hold_inv G K S st -> capped st -> st_mark st = K ->
  st_multiline st !! m_StartContains m = Some buf ->
  join_rule p aggSlot m buf now body ts st = r ->
  (forall v, r.2 <> Some (ErrMovedBackwards v)) ->
  handled K S st r.1.1.
Proof.
  intros I Hcap Hm Hk <- Hno. unfold join_rule in *.
  destruct (hi_bufs _ _ _ _ I _ buf Hk) as [Hb HbK].
  assert (Hlast : forall b', b_lastMark b' = (if st_mark st >? b_lastMark buf then st_mark st else b_lastMark buf) ->
            b_lastMark buf <= b_lastMark b' <= K).
  { intros b' ->. break_if; bsplit; lia. }
  destruct (match ts with Ok t => t <? b_ts buf | Err _ => false end).
  - destruct (processBuffered _ _ _ _) as [[st1 out] verdict]. by destruct (Hno verdict).
  - destruct (first_join (m_Join m) body) as [c|]; cbn [fst].
    + destruct (_ && _).
      * by eapply (handled_grow G K S st _ buf); [..|apply Hlast].
      * eapply (handled_grow G K S st _ buf _ (st_Stats st)); [..|apply Hlast]; done.
    + by eapply (handled_grow G K S st _ buf); [..|apply Hlast].
Qed.

Lemma joinContinuation_inv G K S rules now body ts st r :
  hold_inv G K S st -> capped st -> st_mark st = K ->
  joinContinuation p aggSlot rules now body ts st = Some r ->
  (forall v, r.2 <> Some (ErrMovedBackwards v)) ->
  handled K S st r.1.1.
Proof.
  intros I Hcap Hm. induction rules as [|m rules IH]; cbn [joinContinuation]; [done|].
  break_if; [done|]. destruct (st_multiline st !! m_StartContains m) as [buf|] eqn:Hk; [|done].
  destruct (m_continueRe m) as [re|]; [|done]. break_if; [|done].
  intros [= Hr]. by eapply join_rule_inv.
Qed.

Lemma open_multiline_inv G K S rules now line ts st r :
  hold_inv G K S st -> capped st -> st_mark st = K -> G <= K ->
  (forall m, m ∈ rules -> m ∈ pr_Multiline p) ->
  open_multiline p aggSlot rules now line ts st = Some r -> handled K S st r.1.1.
Proof.
  intros I Hcap Hm HGK Hrules. induction rules as [|m rules IH]; cbn [open_multiline]; [done|].
  break_if; [apply IH; intros m' Hm'; apply Hrules; by right|]. set (k := m_StartContains m).
  assert (Hruled : forall b ml, ruled ml -> ruled (<[k := b]> ml)).
  { intros b ml Hr k' b' [[<- _] | [_ Hb]]%lookup_insert_Some; [|by apply (Hr k' b')].
    exists m. split; [apply Hrules; left | done]. }
  destruct (st_multiline st !! k) as [buf|] eqn:Hk.
  - destruct (holdRecord_inv G K S k buf st I Hk) as (G1 & HG1 & I1 & Q1 & A1).
    set (st1 := holdRecord buf 0 st) in *.
    assert (Hk1 : st_multiline st1 !! k = Some buf) by (by destruct Q1 as [-> _]).
    destruct (hi_bufs _ _ _ _ I1 k buf Hk1) as [Hb1 HbK1].
    destruct (processBuffered_inv G1 K _ buf st1 I1) as ((G2 & HG2 & I2) & Q2 & C2);
      [lia | unfold capped in *; by rewrite A1 |].
    destruct (processBuffered p aggSlot buf st1) as [[st2 out] err]. cbn [fst] in *.
    assert (Hml : st_multiline st2 = st_multiline st) by (destruct Q1, Q2; congruence).
    assert (Hmk : st_mark st2 = K) by (destruct Q1, Q2; congruence).
    assert (Hk2 : st_multiline st2 !! k = Some buf) by (by rewrite Hml).
    destruct (hi_bufs _ _ _ _ I2 k buf Hk2) as [Hb2 _].
    intros [= <-]. cbn [fst]. rewrite Hmk.
    split_and!; [exists G2 | | intros Hr; simpl; rewrite Hml; by apply Hruled].
    + eapply inv_spans; [|apply (buffer_insert_inv G2 K _ st2 k _ I2); simpl; lia].
      intros [x y] [Hin | Hin]%elem_of_app; [by right|].
      apply flushed_spec in Hin as (k' & b & Hk' & -> & -> & Hno).
      destruct (decide (k = k')) as [<- | Hne]; [replace b with buf by congruence; by left | exfalso].
      apply (Hno b); [|done]. simpl. by rewrite lookup_insert_ne, Hml.
    + apply C2. unfold capped in *. by rewrite A1.
  - intros [= <-]. cbn [fst]. rewrite Hm.
    split_and!; [exists G | done | intros Hr; by apply Hruled].
    eapply inv_spans; [|apply (buffer_insert_inv G K S st k _ I); simpl; lia].
    intros [x y] [Hin | Hin]%elem_of_app; [done | exfalso].
    apply flushed_spec in Hin as (k' & b & Hk' & _ & _ & Hno).
    destruct (decide (k = k')) as [<- | Hne]; [congruence|].
    apply (Hno b); [|done]. simpl. by rewrite lookup_insert_ne.
Qed.

Context (loc : location) (refTime from to : Z).

Lemma handled_ext K S st0 st st' :
  st_multiline st0 = st_multiline st -> handled K S st0 st' -> handled K S st st'.
Proof. intros Hm. unfold handled, flushed. by rewrite Hm. Qed.

(** The parts of the state the invariant, the cap and the mark read. *)
Definition same_state (st st' : Stream) : Prop := same_holds st st' /\ st_mark st' = st_mark st.

Lemma Process_inv G K S now line st :
  hold_inv G K S st -> capped st -> st_mark st = K -> G <= K ->
  let r := Process p aggSlot loc refTime from to now line st in
  (forall v, r.2 <> Some (ErrMovedBackwards v)) ->
  handled K S st r.1.1.
Proof.
  intros I Hcap Hm HGK. unfold Process. cbv zeta.
  set (over := (pr_MaxRecordBytes p >? 0) && (zlen line >? pr_MaxRecordBytes p)).
  set (line' := if over then _ else line).
  set (st1 := if over then on_stats count_oversize (on_stats count_record st) else on_stats count_record st).
  assert (H1' : same_state st st1) by (unfold st1; by destruct over).
  destruct (scanTimestamp _ _ _ _ _ _) as [[[t b] s]|e].
  - set (st2 := set_tss s st1).
    assert (H2' : same_state st st2) by done.
    assert (I2 : hold_inv G K S st2) by (apply (hold_inv_same _ _ _ st); [apply H2' | done]).
    assert (C2 : capped st2) by (unfold capped; destruct H2' as [(_ & _ & _ & -> & _) _]; done).
    assert (M2 : st_mark st2 = K) by (destruct H2' as [_ ->]; done).
    destruct H2' as [[Hml _] _].
    destruct (joinContinuation _ _ _ _ _ _ _) as [r|] eqn:Hj.
    { intros Hno. apply (handled_ext _ _ st2); [done|]. by eapply joinContinuation_inv. }
    intros _. set (st3 := set_last t now st2).
    assert (I3 : hold_inv G K S st3) by (by apply (hold_inv_same _ _ _ st2)).
    assert (Hsame : handled K S st2 st3).
    { apply (handled_quiet G K S st2 st3); [|done..].
      split_and!; [exists G; split; [lia | done] | done | done]. }
    apply (handled_ext _ _ st2); [done|].
    destruct (negb (IsZero from) && (t <? from)); [done|].
    destruct (negb (IsZero to) && (t >? to)); [done|].
    destruct (open_multiline _ _ _ _ _ _ _) as [r|] eqn:Ho.
    { apply (handled_ext _ _ st3); [done|]. by eapply open_multiline_inv. }
    apply (handled_ext _ _ st3); [done|]. apply (handled_quiet G K S st3); [|done..].
    apply process_inv; [done | | done]. change (st_mark st3) with (st_mark st2). lia.
  - destruct H1' as [Hsame Hmk]. pose proof Hsame as (Hml & _ & _ & Hag & _).
    assert (I1 : hold_inv G K S st1) by (by apply (hold_inv_same _ _ _ st)).
    assert (C1 : capped st1) by (unfold capped; rewrite Hag; done).
    assert (M1 : st_mark st1 = K) by congruence.
    destruct (joinContinuation _ _ _ _ _ _ _) as [r|] eqn:Hj.
    { intros Hno. apply (handled_ext _ _ st1); [done|]. by eapply joinContinuation_inv. }
    intros _. apply (handled_ext _ _ st1); [done|]. apply (handled_quiet G K S st1); [|done..].
    split_and!; [exists G; split; [lia | by apply inv_stats] | done | done].
Qed.

(** ** Flushes *)

(** The buffers a flush closes, under the due ones of its rules. *)
Lemma flush_buffers_inv K due hold rules : forall G S st,
  hold_inv G K S st -> capped st ->
  let r := flush_buffers p aggSlot rules due hold st in
  capped r.1.1 /\ st_mark r.1.1 = st_mark st /\
  (forall k b, st_multiline r.1.1 !! k = Some b -> st_multiline st !! k = Some b) /\
  (forall k b, st_multiline st !! k = Some b -> st_multiline r.1.1 !! k = Some b \/ st_multiline r.1.1 !! k = None) /\
  (exists G', hold_inv G' K S r.1.1) /\
  ((forall m b, due m b = true) -> forall m, m ∈ rules -> st_multiline r.1.1 !! m_StartContains m = None) /\
  (hold = true -> exists G', hold_inv G' K (S ++ flushed st r.1.1) r.1.1).
Proof.
  induction rules as [|m rules IH]; intros G S st I Hcap; cbn [flush_buffers].
  - cbn [fst]. split_and!; [done | done | auto | auto | by exists G | | intros _; exists G].
    { intros _ m Hm. by apply not_elem_of_nil in Hm. }
    eapply inv_spans; [|done]. intros [x y] [Hin | Hin]%elem_of_app; [done | exfalso].
    apply flushed_spec in Hin as (k & b & Hk & _ & _ & Hno). by apply (Hno b).
  - set (k := m_StartContains m).
    destruct (st_multiline st !! k) as [buf|] eqn:Hk.
    2: { destruct (IH G S st I Hcap) as (? & ? & Hr1 & ? & ? & Hr4 & ?). split_and!; try done.
         intros Hdue m' [-> | Hm']%elem_of_cons; [|by apply Hr4].
         destruct (st_multiline _ !! m_StartContains m) as [b|] eqn:Hb; [|done].
         apply Hr1 in Hb. unfold k in Hk. congruence. }
    destruct (due m buf) eqn:Hd.
    2: { destruct (IH G S st I Hcap) as (? & ? & ? & ? & ? & ? & ?). split_and!; try done.
         intros Hdue. by rewrite Hdue in Hd. }
    assert (Hheld : exists G1 S1, G <= G1 /\
      hold_inv G1 K S1 (if hold then holdRecord buf 0 st else st) /\
      quiet st (if hold then holdRecord buf 0 st else st) /\
      st_aggs (if hold then holdRecord buf 0 st else st) = st_aggs st /\
      (forall x, x ∈ S -> x ∈ S1) /\ (hold = true -> (b_mark buf, b_lastMark buf) ∈ S1)).
    { destruct hold.
      - destruct (holdRecord_inv G K S k buf st I Hk) as (G1 & HG1 & I1 & Q1 & A1).
        exists G1, ((b_mark buf, b_lastMark buf) :: S). split_and!; try done; set_solver.
      - exists G, S. split_and!; try done; lia. }
    destruct Hheld as (G1 & S1 & HG1 & I1 & Q1 & A1 & Hsub & Hspan).
    set (st1 := if hold then holdRecord buf 0 st else st) in *.
    assert (Hk1 : st_multiline st1 !! k = Some buf) by (by destruct Q1 as [-> _]).
    destruct (hi_bufs _ _ _ _ I1 k buf Hk1) as [Hb1 HbK1].
    destruct (processBuffered_inv G1 K S1 buf st1 I1) as ((G2 & HG2 & I2) & Q2 & C2);
      [lia | unfold capped in *; by rewrite A1 |].
    destruct (processBuffered p aggSlot buf st1) as [[st2 r] err]. cbn [fst] in *.
    assert (Hml : st_multiline st2 = st_multiline st) by (destruct Q1, Q2; congruence).
    assert (Hmk : st_mark st2 = st_mark st) by (destruct Q1, Q2; congruence).
    pose proof (buffer_delete_inv G2 K S1 st2 k I2) as I3.
    set (st3 := set_multiline (delete k (st_multiline st2)) st2) in *.
    assert (C3 : capped st3).
    { change (capped st2). apply C2. unfold capped in *. by rewrite A1. }
    destruct (IH G2 S1 st3 I3 C3) as (Cr & Mr & Hr1 & Hr2 & (G' & I') & Hr4 & Hr3).
    destruct (flush_buffers p aggSlot rules due hold st3) as [[st4 out] errs]. cbn [fst] in *.
    assert (Hdel : forall k' b, st_multiline st3 !! k' = Some b -> st_multiline st !! k' = Some b).
    { intros k' b Hb. simpl in Hb. apply lookup_delete_Some in Hb as [_ Hb]. by rewrite <- Hml. }
    assert (Hgone : st_multiline st4 !! k = None).
    { destruct (st_multiline st4 !! k) as [b|] eqn:Hb; [|done]. apply Hr1 in Hb. simpl in Hb.
      by rewrite lookup_delete_eq in Hb. }
    split_and!; [done | by rewrite Mr | auto | | | |].
    + intros k' b Hb. destruct (decide (k = k')) as [<- | Hne]; [by right|].
      apply Hr2. simpl. by rewrite lookup_delete_ne, Hml.
    + exists G'. by eapply inv_spans.
    + intros Hdue m' [-> | Hm']%elem_of_cons; [done | by apply Hr4].
    + intros Hhold. destruct (Hr3 Hhold) as (G3 & I4). exists G3. eapply inv_spans; [|done].
      intros [x y] [Hin | Hin]%elem_of_app; [apply elem_of_app; left; by apply Hsub|].
      apply flushed_spec in Hin as (k' & b & Hb & -> & -> & Hno).
      destruct (decide (k = k')) as [<- | Hne].
      * replace b with buf by congruence. apply elem_of_app. left. by apply Hspan.
      * apply elem_of_app. right. apply flushed_spec. exists k', b. split_and!; try done.
        simpl. by rewrite lookup_delete_ne, Hml.
Qed.

Lemma FlushIdle_inv G K S now st :
  hold_inv G K S st -> capped st ->
  handled K S st (FlushIdle p aggSlot now st).1.1.
Proof.
  intros I Hcap. unfold FlushIdle. set (due := fun m buf => _).
  destruct (flush_buffers_inv K due true (pr_Multiline p) G S st I Hcap)
    as (C1 & M1 & Hr1 & _ & _ & _ & Hr3).
  destruct (Hr3 eq_refl) as (G1 & I1).
  destruct (flush_buffers p aggSlot (pr_Multiline p) due true st) as [[st1 out] errs]. cbn [fst] in *.
  destruct (closeExpired_inv _ _ _ (aggregationHorizon now st1) _ I1) as (I2 & [Q2 Q2'] & N2).
  destruct (closeExpiredAggregators (aggregationHorizon now st1) st1) as [st2 closed]. cbn [fst] in *.
  split_and!; [exists G1 | unfold capped in *; simpl; lia |].
  2: { intros Hr k b Hb. simpl in Hb. rewrite Q2 in Hb. by apply (Hr k b), Hr1. }
  eapply inv_spans; [|by apply inv_stats]. unfold flushed. simpl. by rewrite Q2.
Qed.

(** A flush leaves nothing held. *)
Lemma flush_windows_aggs l : forall st,
  exists s, (flush_windows l st).1 = set_Stats s (set_aggs (foldr (fun e m => delete (q_key e) m) (st_aggs st) (reverse l)) st).
Proof.
  induction l as [|e l IH]; intros st; cbn [flush_windows].
  - exists (st_Stats st). by destruct st.
  - destruct (emit_window_stats (q_a e) false (set_aggs (delete (q_key e) (st_aggs st)) st)) as (s & out & ->).
    set (st1 := on_stats _ _). destruct (IH st1) as (s' & Hs').
    destruct (flush_windows l st1) as [st2 rest]. cbn [fst] in *. exists s'. rewrite Hs'.
    rewrite reverse_cons, foldr_app. done.
Qed.

Lemma deleted_lookup (l : list aggEntry) (m : gmap gostr nat) k :
  foldr (fun e m => delete (q_key e) m) m l !! k =
  if bool_decide (k ∈ q_key <$> l) then None else m !! k.
Proof.
  induction l as [|e l IH]; [done|]. cbn [foldr fmap list_fmap].
  destruct (decide (q_key e = k)) as [<- | Hne].
  - rewrite lookup_delete_eq, bool_decide_eq_true_2; [done | left].
  - rewrite lookup_delete_ne, IH by done.
    replace (bool_decide (k ∈ q_key e :: (q_key <$> l))) with (bool_decide (k ∈ q_key <$> l)); [done|].
    apply bool_decide_ext. rewrite elem_of_cons. naive_solver.
Qed.


(** A flush closes every buffer and window. *)
Lemma Flush_inv G K S st :
  hold_inv G K S st -> capped st -> ruled (st_multiline st) ->
  let st' := (Flush p aggSlot st).1.1 in
  handled K S st st' /\ st_multiline st' = ∅ /\ st_aggs st' = ∅.
Proof.
  intros I Hcap Hr. unfold Flush.
  destruct (flush_buffers_inv K (fun _ _ => true) false (pr_Multiline p) G S st I Hcap)
    as (C1 & M1 & Hr1 & _ & (G1 & I1) & Hr4 & _).
  destruct (flush_buffers p aggSlot (pr_Multiline p) (fun _ _ => true) false st) as [[st1 out] errs]. cbn [fst] in *.
  assert (Hml : st_multiline st1 = ∅).
  { apply map_empty. intros k. destruct (st_multiline st1 !! k) as [b|] eqn:Hb; [|done].
    destruct (Hr k b (Hr1 k b Hb)) as (m & Hin & <-). by rewrite Hr4 in Hb. }
  pose proof (hi_wf _ _ _ _ I1) as W1.
  destruct (flush_windows_aggs (aggKeysInEndOrder st1) st1) as (s & Hs).
  destruct (flush_windows (aggKeysInEndOrder st1) st1) as [st2 rows]. cbn [fst] in *. subst st2.
  set (aggs := foldr _ _ _).
  assert (Haggs : aggs = ∅).
  { apply map_empty. intros k. unfold aggs. rewrite deleted_lookup. case_bool_decide as Hin; [done|].
    destruct (st_aggs st1 !! k) as [id|] eqn:Hk; [|done]. destruct Hin.
    destruct (wf_queued _ W1 k id Hk) as (e & He & <-).
    apply list_elem_of_fmap. exists e. split; [done|]. rewrite elem_of_reverse.
    apply list_elem_of_filter. split; [|done]. apply bool_decide_eq_true_2.
    by apply (wf_queue _ W1). }
  rewrite Haggs. clear aggs Haggs. cbn [fst]. split; [|done].
  assert (Hdead : forall m l, l <= K -> covered (K + 1) (set_holds [] (set_aggQ [] (set_Stats s (set_aggs ∅ st1)))) m l).
  { intros m l Hl _. left. lia. }
  destruct I1 as [W Hb Hlv Hob Hla Hcl Hd HS HGK].
  split_and!; [exists (K + 1) | unfold capped; simpl; rewrite map_size_empty; unfold maxOpenWindows; lia |].
  - split; simpl; try nothing_held.
    + destruct W. split; simpl; try nothing_held; try constructor. done.
    + intros k b Hk. by rewrite Hml, lookup_empty in Hk.
    + done.
    + intros id a Ha _. apply Hdead, (Hob id a Ha).
    + intros m l [Hin | Hin]%elem_of_app.
      * destruct (HS m l Hin) as [Hl _]. split; [done | by apply Hdead].
      * apply flushed_spec in Hin as (k & b & Hk & -> & -> & _).
        destruct (hi_bufs _ _ _ _ I k b Hk) as [_ Hl]. split; [done | by apply Hdead].
    + lia.
  - intros _ k b Hk. simpl in Hk. by rewrite Hml, lookup_empty in Hk.
Qed.
End Handlers.

(** * The states a stream reaches

    [reaches N S st]: a driver that gives each record a position no smaller
    than the ones before it has brought the stream to [st]; [N] is one past
    the last position and [S] the spans of the multiline records it has
    closed.  The runs are those where no continuation line went back in
    time. *)


Lemma hold_inv_later G K K' S st : K <= K' -> hold_inv G K S st -> hold_inv G K' S st.
Proof.
  intros HK [W Hb Hlv Hob Hla Hcl Hd HS HGK]. split; try done.
  - intros k b Hk. specialize (Hb k b Hk). lia.
  - intros id a Ha. specialize (Hob id a Ha). lia.
  - intros e He Hn. specialize (Hla e He Hn). lia.
  - intros m l Hin. specialize (HS m l Hin). split; [lia | apply HS].
  - lia.
Qed.

(** With nothing held every span is behind the next position. *)
Lemma nothing_held_inv G K S st :
  hold_inv G K S st -> (forall x, ~ held_mark st x) -> hold_inv (K + 1) K S (set_holds [] st).
Proof.
  intros [W Hb Hlv Hob Hla Hcl Hd HS HGK] Hno.
  assert (Hagg : forall k id, st_aggs st !! k <> Some id).
  { intros k id Hk. destruct (wf_held _ W k id Hk) as (e & He & Hid).
    apply (Hno (h_mark e)), held_entry; [done|]. apply (live_iff st e W He). eauto. }
  split; simpl; try nothing_held.
  - destruct W. split; simpl; try done; try nothing_held; try constructor.
    intros k id Hk. by destruct (Hagg k id).
  - intros k b Hk. destruct (Hno (b_mark b)). by apply (held_buffer st k).
  - intros k id a Hk. by destruct (Hagg k id).
  - done.
  - intros id a Ha _ _. left. specialize (Hob id a Ha). lia.
  - intros m l Hin. destruct (HS m l Hin). split; [done | left; lia].
  - lia.
Qed.

Lemma HeldFrom_inv G K S st :
  hold_inv G K S st -> exists G', hold_inv G' K S (HeldFrom st).1.
Proof.
  intros I. unfold HeldFrom. cbn [fst].
  pose proof (holdFloor_spec st (wf_sorted _ (hi_wf _ _ _ _ I))) as Hf.
  destruct (holdFloor st) as [F|] eqn:HF.
  - destruct Hf as (_ & Hex & _). destruct (prune_inv _ _ _ _ I Hex) as (G' & _ & ?). eauto.
  - unfold pruneHolds. rewrite HF. break_if; [|eauto]. exists (K + 1). by eapply nothing_held_inv.
Qed.

Section Reach.
Context `{FloatText} `{Regexp} `{TimeLib}.
Context (p : Profile) (year : Z) (loc : location) (refTime from to : Z).

Definition agg_slots : list Z := fst (slots_of (pr_Patterns p) []).

Inductive reaches : Z -> list (Z * Z) -> Stream -> Prop :=
| reach_new : reaches 0 [] (NewStream p year)
| reach_record N S st pos now line st' out err :
    reaches N S st -> N <= pos ->
    Process p agg_slots loc refTime from to now line (Mark pos st) = (st', out, err) ->
    (forall v, err <> Some (ErrMovedBackwards v)) ->
    reaches (pos + 1) (S ++ flushed st st') st'
| reach_held N S st : reaches N S st -> reaches N S (HeldFrom st).1
| reach_idle N S st now :
    reaches N S st ->
    reaches N (S ++ flushed st (FlushIdle p agg_slots now st).1.1) (FlushIdle p agg_slots now st).1.1
| reach_flush N S st :
    reaches N S st ->
    reaches N (S ++ flushed st (Flush p agg_slots st).1.1) (Flush p agg_slots st).1.1.

(** A file of records: the clock, the position and the line of each. *)
Definition read_record (st : Stream) (r : Z * Z * gostr) : Stream * list Result * option xerr :=
  let '(now, pos, line) := r in Process p agg_slots loc refTime from to now line (Mark pos st).

Definition run (l : list (Z * Z * gostr)) (st : Stream) : Stream :=
  foldl (fun st r => (read_record st r).1.1) st l.

Definition went_back (err : option xerr) : bool :=
  match err with Some (ErrMovedBackwards _) => true | _ => false end.

(** Positions from [N] on, and no record that goes back in time. *)
Fixpoint forward (N : Z) (l : list (Z * Z * gostr)) (st : Stream) : bool :=
  match l with
  | [] => true
  | r :: l' => (N <=? r.1.2) && negb (went_back (read_record st r).2) &&
      forward (r.1.2 + 1) l' (read_record st r).1.1
  end.

Lemma run_reaches l : forall N S st,
  reaches N S st -> forward N l st = true -> exists N' S', reaches N' S' (run l st).
Proof.
  induction l as [|[[now pos] line] l IH]; intros N S st R Hf; [by exists N, S|].
  cbn [forward] in Hf. bsplit. cbn [run foldl].
  destruct (read_record st (now, pos, line)) as [[st' out] err] eqn:Hr. cbn [fst snd] in *.
  unfold run in IH. eapply IH; [|done]. eapply (reach_record N S st pos now line st' out err); [done..|].
  intros v ->. done.
Qed.

Lemma new_inv : hold_inv 0 (-1) [] (NewStream p year).
Proof.
  split; simpl; try nothing_held; [|lia].
  split; simpl; try nothing_held; constructor.
Qed.

Lemma reaches_inv N S st : reaches N S st ->
  (exists G, hold_inv G (N - 1) S st) /\ capped st /\ ruled p (st_multiline st).
Proof.
  induction 1 as [|N S st pos now line st' out err R ((G & I) & C & Ru) Hpos HP Hno
                 |N S st R ((G & I) & C & Ru)|N S st now R ((G & I) & C & Ru)|N S st R ((G & I) & C & Ru)].
  - split_and!; [exists 0; apply new_inv | done | intros k b Hk; simpl in Hk; by rewrite lookup_empty in Hk].
  - assert (I1 : hold_inv G pos S (Mark pos st)).
    { apply inv_mark. eapply hold_inv_later; [|done]. lia. }
    pose proof (hi_G _ _ _ _ I).
    destruct (Process_inv p agg_slots loc refTime from to G pos S now line (Mark pos st) I1) as (Hinv & C' & Ru');
      [done | done | lia | by rewrite HP | rewrite HP in *].
    rewrite Z.add_simpl_r. split_and!; [done | done | by apply Ru'].
  - split_and!; [by eapply HeldFrom_inv | |].
    + unfold capped, HeldFrom. cbn [fst]. by destruct (prune_quiet st) as (_ & -> & _).
    + unfold HeldFrom. cbn [fst]. by destruct (prune_quiet st) as ((-> & _) & _ & _).
  - destruct (FlushIdle_inv p agg_slots G (N - 1) S now st I C) as (? & ? & ?). auto.
  - destruct (Flush_inv p agg_slots G (N - 1) S st I C Ru) as ((? & ? & ?) & _ & _). auto.
Qed.

(** A span of records whose rows have been produced: a closed multiline
    record's, or a closed window's. *)
Definition produced (S : list (Z * Z)) (st : Stream) (m l : Z) : Prop :=
  (m, l) ∈ S \/
  exists id a, st_objs st !! id = Some a /\ (forall k, st_aggs st !! k <> Some id) /\
    m = a_mark a /\ l = a_lastMark a.

Lemma produced_clear G K S st F m l :
  hold_inv G K S st -> holdFloor st = Some F -> produced S st m l -> ~ (m < F <= l).
Proof.
  intros I HF Hp Hs. pose proof (holdFloor_spec st (wf_sorted _ (hi_wf _ _ _ _ I))) as Hf.
  rewrite HF in Hf. destruct Hf as (_ & _ & Hno & Hlow).
  assert (HGF : G <= F).
  { apply Hlow; [|apply I]. intros x Hx. by apply (held_above G K S st x). }
  assert (Hcov : covered G st m l).
  { destruct Hp as [Hin | (id & a & Ha & Hdead & -> & ->)]; [by apply (hi_S _ _ _ _ I) | by apply (hi_dead _ _ _ _ I id)]. }
  destruct (Hcov ltac:(lia)) as [? | (e & He & Hl & Hm & Hend)]; [lia|].
  apply (Hno e He Hl). unfold spans. lia.
Qed.
End Reach.
