(* ===== verification/ExtractDemo.v ===== *)
(** * A small profile

    The interfaces of packages regexp and time are given a small instance:
    an expression is a literal or a row of words, times are epoch
    milliseconds.  [demo_profile] joins records that start with [BEGIN] and
    sums [op] records into windows of 100 ms; [note] records are rows of their own; the traces run it. *)

From Stdlib Require Import ZArith Lia Bool.
From Stdlib Require Import Strings.Byte Strings.String.
From stdpp Require Import gmap sorting.
From S2P Require Import Prelude Bytes Float64 GoStd GoText Model.
From S2P Require Import ExtractAC ExtractHistogram ExtractTimestamp ExtractStream.
From S2P Require Import Instances.

Inductive mini : Type :=
| Literal (s : gostr)
| FirstWord
| Words (names : list gostr).

Definition mini_submatch (re : mini) (line : gostr) : option (list gostr) :=
  match re with
  | Literal s => if Contains line s then Some [s] else None
  | FirstWord => match strings_Fields line with [] => None | w :: _ => Some [w] end
  | Words names =>
      let ws := strings_Fields line in
      if Nat.eqb (length ws) (length names) then Some (line :: ws) else None
  end.

#[export] Instance MiniRegexp : Regexp := {
  regexp := mini;
  FindStringIndex re line :=
    match mini_submatch re line with Some (w :: _) => Some (0%nat, length w) | _ => None end;
  FindStringSubmatch := mini_submatch;
  SubexpNames re := match re with Words names => [] :: names | _ => [[]] end;
  MatchString re line := match mini_submatch re line with Some _ => true | None => false end;
  ReplaceAllString _ line _ := line;
}.

#[export] Instance EpochTime : TimeLib := {
  location := unit;
  UTC := tt;
  ParseInLocation _ _ _ := None;
  Year _ _ := 1970;
  AddYears _ t _ := t;
}.

Definition demo_multiline : Multiline :=
  {| m_StartContains := bs "BEGIN"%string; m_continueRe := Some (Literal (bs "more"%string)); m_Join := [];
     m_maxRecordBytes := 0; m_idleTimeout := 1000000000 |}.

Definition demo_aggregate : Aggregate :=
  {| ag_On := [bs "k"%string]; ag_Field := bs "n"%string; ag_Mode := bs "sum"%string; ag_every := 100 * Millisecond |}.

Definition demo_pattern : Pattern :=
  {| p_Set := bs "ops"%string; p_Replace := [];
     p_extract := [Words [[]; bs "k"%string; bs "n"%string]; Words [[]; []; bs "k"%string; bs "n"%string]];
     p_Route := []; p_labelSet := {[ bs "k"%string ]}; p_DefaultValues := []; p_BucketSet := [];
     p_Aggregate := Some demo_aggregate |}.

Definition demo_note : Pattern :=
  {| p_Set := bs "notes"%string; p_Replace := []; p_extract := [Words [[]; bs "n"%string]]; p_Route := [];
     p_labelSet := ∅; p_DefaultValues := []; p_BucketSet := []; p_Aggregate := None |}.

Definition demo_profile : Profile :=
  {| pr_Timestamp := {| ts_Formats := [{| tf_Layout := epoch_ms; tf_re := FirstWord |}]; ts_Anchor := bs "prefix"%string; ts_Strip := true |};
     pr_MaxRecordBytes := 0; pr_Multiline := [demo_multiline]; pr_labelSet := ∅; pr_Patterns := [demo_pattern; demo_note];
     pr_matcher := default empty_matcher (newACMatcher map_to_list [bs "op"%string; bs "note"%string]); pr_buckets := ∅ |}.
