(* ===== verification/ExtractProps.v ===== *)
(** * Properties of extraction

    Streams: where a replay may start, which windows close.  Matcher and
    histograms: the first literal a line holds, the columns of a payload. *)

From Stdlib Require Import ZArith Lia Bool Strings.Byte Strings.String.
From stdpp Require Import gmap sorting.
From S2P Require Import Prelude Bytes Float64 GoStd GoText Model Instances ExtractAC ExtractACProofs ExtractHistogram ExtractTimestamp.
From S2P Require Import ExtractStream ExtractHolds ExtractHoldOps ExtractStreamInv ExtractDemo.

(** ** Where a replay may start *)

(** C14: The position [HeldFrom] gives is safe to resume at.  In every run
    of a stream in which no continuation line is refused for going back in
    time, the open windows are within the cap; with no position
    nothing is open, and a position [F] is one of a record already read, is
    at or before the first record of every open multiline record and window,
    and never falls inside the span of one whose row was already produced:
    a replay from [F] reads all of it again or none of it. *)
Theorem held_from_safe `{FloatText} `{Regexp} `{TimeLib} p year loc refTime from to N S st :
  reaches p year loc refTime from to N S st ->
  capped st /\
  match (HeldFrom st).2 with
  | None => st_multiline st = ∅ /\ st_aggs st = ∅
  | Some F =>
      0 <= F < N /\
      (forall k b, st_multiline st !! k = Some b -> F <= b_mark b) /\
      (forall k id a, st_aggs st !! k = Some id -> st_objs st !! id = Some a -> F <= a_mark a) /\
      (forall m l, produced S st m l -> ~ (m < F <= l))
  end.
Proof.
  intros R. destruct (reaches_inv _ _ _ _ _ _ _ _ _ R) as ((G & I) & C & _). split; [done|].
  pose proof (hi_wf _ _ _ _ I) as W. pose proof (holdFloor_spec st (wf_sorted _ W)) as Hf.
  assert (Hopen : forall k id a, st_aggs st !! k = Some id -> st_objs st !! id = Some a -> held_mark st (a_mark a)).
  { intros k id a Hk Ha. destruct (wf_held _ W k id Hk) as (e & He & Hid).
    destruct (wf_entry _ W e id He Hid) as (a' & Ha' & Hm). replace a with a' by congruence.
    rewrite <- Hm. apply held_entry; [done|]. apply (live_iff st e W He). eauto. }
  cbn [HeldFrom snd]. destruct (holdFloor st) as [F|] eqn:HF.
  - destruct Hf as (Hmin & (x & Hx) & _ & Hlow). split_and!.
    + assert (G <= F) by (apply Hlow; [intros y Hy; by apply (held_above G (N - 1) S st y) | apply I]).
      pose proof (hi_G _ _ _ _ I). lia.
    + pose proof (Hmin x Hx). pose proof (held_above _ _ _ _ _ I Hx). lia.
    + intros k b Hk. apply Hmin. by apply (held_buffer st k).
    + intros k id a Hk Ha. apply Hmin. by apply (Hopen k id).
    + intros m l Hp. by eapply produced_clear.
  - split; apply map_empty; intros k.
    + destruct (st_multiline st !! k) eqn:Hk; [|done]. destruct (Hf (b_mark m)). by apply (held_buffer st k).
    + destruct (st_aggs st !! k) as [id|] eqn:Hk; [|done]. destruct (wf_obj _ W k id Hk) as [a Ha].
      destruct (Hf (a_mark a)). by apply (Hopen k id).
Qed.

Definition demo_trace : list (Z * Z * gostr) :=
  [(0, 0, bs "1000 op a 5"%string); (0, 1, bs "1010 BEGIN op m 7"%string);
   (0, 2, bs "1050 op a 6"%string); (0, 3, bs "1150 op b 1"%string)].
Definition demo_run (l : list (Z * Z * gostr)) : Stream :=
  run demo_profile UTC 0 zero_time zero_time l (NewStream demo_profile 1970).

(** The window of [a] closed with the span 0 to 2 and the multiline record
    at 1 is open: the floor is 0. *)
Lemma held_from_safe_witness :
  exists N S, reaches demo_profile 1970 UTC 0 zero_time zero_time N S (demo_run demo_trace) /\
  capped (demo_run demo_trace) /\ (HeldFrom (demo_run demo_trace)).2 = Some 0 /\
  match (HeldFrom (demo_run demo_trace)).2 with
  | None => st_multiline (demo_run demo_trace) = ∅ /\ st_aggs (demo_run demo_trace) = ∅
  | Some F =>
      0 <= F < N /\
      (forall k b, st_multiline (demo_run demo_trace) !! k = Some b -> F <= b_mark b) /\
      (forall k id a, st_aggs (demo_run demo_trace) !! k = Some id ->
         st_objs (demo_run demo_trace) !! id = Some a -> F <= a_mark a) /\
      (forall m l, produced S (demo_run demo_trace) m l -> ~ (m < F <= l))
  end.
Proof.
  destruct (run_reaches demo_profile 1970 UTC 0 zero_time zero_time demo_trace 0 []
    (NewStream demo_profile 1970)) as (N & S & R); [apply reach_new | vm_compute; reflexivity |].
  exists N, S. pose proof (held_from_safe _ _ _ _ _ _ _ _ _ R) as [C F].
  split; [exact R | split; [exact C | split; [vm_compute; reflexivity | exact F]]].
Defined.

(** The [i]-th letter, the label value of a window of the trace. *)
Definition letter (i : nat) : gostr := [z2b (97 + Z.of_nat i)].

Definition backward_trace : list (Z * Z * gostr) :=
  imap (fun i _ => (0, Z.of_nat i, bs "1000 op "%string ++ letter i ++ bs " 1"%string)) (replicate 18 tt) ++
  [(0, 20, bs "1010 BEGIN op m 7"%string)] ++
  imap (fun i _ => (0, 21 + Z.of_nat i, bs "1050 op "%string ++ letter i ++ bs " 1"%string)) (replicate 18 tt) ++
  [(0, 40, bs "1200 note 1"%string); (0, 50, bs "1005 more"%string)].

(** The path where a continuation line went back in time drops the buffer
    before it processes the record, so nothing holds the record's place
    while windows are discarded from the hold list: on the trace the
    position a caller then gets is 20, inside the span 1 to 22 of the window
    of [b], which is closed. *)
Example held_from_unsafe :
  (HeldFrom (demo_run backward_trace)).2 = Some 20 /\
  st_aggs (demo_run backward_trace) !!
    (writeKeyPart (bs "ops"%string) ++ writeKeyPart (bs "n"%string) ++ writeKeyPart (bs "sum"%string) ++
     writeKeyPart (bs "k"%string) ++ writeKeyPart (bs "b"%string)) = None /\
  (a_labels <$> st_objs (demo_run backward_trace) !! 1%nat = Some {[ bs "k"%string := bs "b"%string ]}) /\
  ((fun a => (a_mark a, a_lastMark a)) <$> st_objs (demo_run backward_trace) !! 1%nat = Some (1, 22)).
Proof. vm_compute. auto. Qed.

(** ** Closing expired windows *)

Lemma queue_before_end x y : queue_before x y = true -> q_end x <= q_end y.
Proof. unfold queue_before. break_if; bsplit; intros; bsplit; lia. Qed.

Definition expired (now : Z) (e : aggEntry) : Prop := q_end e <= now.
#[export] Instance expired_dec now e : Decision (expired now e).
Proof. unfold expired. apply _. Defined.

Lemma none_expired now l :
  (forall e, e ∈ l -> now < q_end e) -> filter (expired now) l = [] .
Proof.
  induction l as [|x l IH]; [done|]. intros Hl. rewrite filter_cons_False.
  - apply IH. intros e He. apply Hl. by right.
  - unfold expired. specialize (Hl x ltac:(left)). lia.
Qed.

Lemma emit_window_rows id forced st :
  (emit_window id forced st).2 = option_list (st_objs st !! id ≫= emit).
Proof.
  unfold emit_window. destruct (st_objs st !! id) as [a|]; [|done]. cbn [mbind option_bind].
  by destruct (emit a).
Qed.

Lemma close_loop_spec G K S now fuel : forall st,
  hold_inv G K S st -> (length (st_aggQ st) <= fuel)%nat ->
  let due := filter (expired now) (st_aggQ st) in
  (close_loop fuel now st).2 = omap (fun e => st_objs st !! q_a e ≫= emit) due /\
  (forall k, st_aggs (close_loop fuel now st).1 !! k =
     if bool_decide (k ∈ q_key <$> due) then None else st_aggs st !! k).
Proof.
  induction fuel as [|fuel IH]; intros st I Hlen; cbn [close_loop].
  - destruct (st_aggQ st); [done | simpl in Hlen; lia].
  - destruct (st_aggQ st) as [|e q] eqn:Hq; [done|].
    pose proof (wf_order _ (hi_wf _ _ _ _ I)) as Ho. rewrite Hq in Ho.
    apply StronglySorted_cons in Ho as [He Ho].
    destruct (Z.ltb_spec now (q_end e)) as [Hlt | Hge].
    + rewrite none_expired; [done|]. intros x [-> | Hx]%elem_of_cons; [done|].
      apply (proj1 (Forall_forall _ _) He), queue_before_end in Hx. lia.
    + pose proof (wf_queue _ (hi_wf _ _ _ _ I) e ltac:(rewrite Hq; left)) as Hk.
      change (st_aggs (set_aggQ q st)) with (st_aggs st). rewrite bool_decide_eq_true_2 by done.
      pose proof (emit_window_rows (q_a e) false (set_aggs (delete (q_key e) (st_aggs st)) (set_aggQ q st))) as Hrow.
      destruct (emit_window_stats (q_a e) false (set_aggs (delete (q_key e) (st_aggs st)) (set_aggQ q st)))
        as (s & out & Heq). rewrite Heq in *.
      destruct (close_step _ _ _ _ _ _ s I Hq) as (I1 & _ & _).
      destruct (IH _ I1) as [Hr Ha]; [simpl in *; lia|].
      destruct (close_loop fuel now _) as [st2 rest]. cbn [fst snd] in *.
      rewrite filter_cons_True by (unfold expired; lia). split.
      * rewrite Hr, Hrow. cbn [omap list_omap]. simpl.
        by destruct (st_objs st !! q_a e ≫= emit).
      * intros k. rewrite Ha. simpl. destruct (decide (q_key e = k)) as [<- | Hne].
        -- rewrite lookup_delete_eq, (bool_decide_eq_true_2 (_ ∈ _ :: _)) by left. by break_if.
        -- rewrite lookup_delete_ne by done.
           replace (bool_decide (k ∈ q_key e :: _)) with (bool_decide (k ∈ q_key <$> filter (expired now) q)); [done|].
           apply bool_decide_ext. rewrite elem_of_cons. naive_solver.
Qed.

Lemma sorted_fmap {A B} (R : relation A) (R' : relation B) (f : A -> B) l :
  (forall x y, x ∈ l -> y ∈ l -> R x y -> R' (f x) (f y)) ->
  StronglySorted R l -> StronglySorted R' (f <$> l).
Proof.
  intros Hf Hs. induction Hs as [|x l Hs IH Hx]; [constructor|].
  cbn [fmap list_fmap]. apply StronglySorted_cons. split.
  - apply Forall_forall. intros y' (y & -> & Hy)%list_elem_of_fmap.
    apply Hf; [left | by right |]. by apply (proj1 (Forall_forall _ _) Hx).
  - apply IH. intros a b Ha Hb. apply Hf; by right.
Qed.

Lemma omap_fmap_pair {A B C} (f : A -> B) (g : B -> option C) (l : list A) :
  omap g (f <$> l) = omap (fun x => g (f x)) l.
Proof.
  induction l as [|x l IH]; [done|].
  unfold omap in *. cbn. destruct (g (f x)); [f_equal|]; exact IH.
Qed.

(** C15: Closing expired windows closes exactly those: on every state a
    stream reaches, a window stays open when its end is after [now] and is
    closed otherwise, the rows are what the closed windows emit, and they
    come in the order of their ends and, within an end, of their keys. *)
Theorem closeExpired_exact `{FloatText} `{Regexp} `{TimeLib} p year loc refTime from to N S st now :
  reaches p year loc refTime from to N S st -> IsZero now = false ->
  let r := closeExpiredAggregators now st in
  (forall k id, st_aggs r.1 !! k = Some id <->
     st_aggs st !! k = Some id /\ forall a, st_objs st !! id = Some a -> now < a_end a) /\
  exists due : list (gostr * nat),
    r.2 = omap (fun w => st_objs st !! w.2 ≫= emit) due /\
    NoDup due.*1 /\
    (forall k id, (k, id) ∈ due <->
       st_aggs st !! k = Some id /\ exists a, st_objs st !! id = Some a /\ a_end a <= now) /\
    StronglySorted (fun x y => exists a b, st_objs st !! x.2 = Some a /\ st_objs st !! y.2 = Some b /\
      (a_end a < a_end b \/ a_end a = a_end b /\ blt x.1 y.1 = true)) due.
Proof.
  intros R Hz. destruct (reaches_inv _ _ _ _ _ _ _ _ _ R) as ((G & I) & _ & _).
  pose proof (hi_wf _ _ _ _ I) as W. unfold closeExpiredAggregators. rewrite Hz.
  destruct (close_loop_spec G (N - 1) S now (length (st_aggQ st)) st I (le_n _)) as [Hrows Haggs].
  set (due := filter (expired now) (st_aggQ st)) in *. cbv zeta.
  assert (Hqueue : forall e, e ∈ st_aggQ st ->
            exists a, st_objs st !! q_a e = Some a /\ q_end e = a_end a).
  { intros e He. destruct (wf_obj _ W (q_key e) (q_a e) (wf_queue _ W e He)) as [a Ha].
    exists a. split; [done | by apply (wf_end _ W)]. }
  assert (Hsub : forall e, e ∈ due -> e ∈ st_aggQ st) by (intros e [_ ?]%list_elem_of_filter; done).
  assert (Hdue : forall k id, (k, id) ∈ ((fun e => (q_key e, q_a e)) <$> due) <->
            st_aggs st !! k = Some id /\ exists a, st_objs st !! id = Some a /\ a_end a <= now).
  { intros k id. rewrite list_elem_of_fmap. split.
    - intros (e & [= -> ->] & [Hx He]%list_elem_of_filter). split; [by apply (wf_queue _ W)|].
      destruct (Hqueue e He) as (a & Ha & Hend). exists a. split; [done|]. unfold expired in Hx. lia.
    - intros (Hk & a & Ha & Hend). destruct (wf_queued _ W k id Hk) as (e & He & <-).
      assert (q_a e = id) as <- by (pose proof (wf_queue _ W e He); congruence).
      exists e. split; [done|]. apply list_elem_of_filter. split; [|done].
      unfold expired. rewrite (wf_end _ W e a He Ha). lia. }
  split; [|exists ((fun e => (q_key e, q_a e)) <$> due); split_and!].
  - intros k id. rewrite Haggs. case_bool_decide as Hin.
    + split; [done|]. intros [Hk Hlate]. apply list_elem_of_fmap in Hin as (e & -> & He).
      assert (Hd : (q_key e, q_a e) ∈ ((fun e => (q_key e, q_a e)) <$> due)) by (apply list_elem_of_fmap; by exists e).
      apply Hdue in Hd as (Hk' & a & Ha & Hend). replace id with (q_a e) in * by congruence.
      specialize (Hlate a Ha). lia.
    + split; [|naive_solver]. intros Hk. split; [done|]. intros a Ha.
      destruct (Z.ltb_spec now (a_end a)) as [? | Hge]; [done|]. destruct Hin.
      assert (Hd : (k, id) ∈ ((fun e => (q_key e, q_a e)) <$> due)) by (apply Hdue; eauto).
      apply list_elem_of_fmap in Hd as (e & [= -> ->] & He). apply list_elem_of_fmap. by exists e.
  - by rewrite Hrows, (omap_fmap_pair _ (fun w => st_objs st !! w.2 ≫= emit)).
  - rewrite <- list_fmap_compose. apply (sublist_NoDup _ (q_key <$> st_aggQ st)); [apply W|].
    apply (fmap_sublist q_key), sublist_filter.
  - done.
  - eapply (sorted_fmap (fun x y => queue_before x y = true)); [|apply sorted_filter, W].
    intros x y Hx Hy Hb. destruct (Hqueue x (Hsub x Hx)) as (a & Ha & Hea).
    destruct (Hqueue y (Hsub y Hy)) as (b & Hb' & Heb). exists a, b. split_and!; [done..|].
    unfold queue_before in Hb. rewrite <- Hea, <- Heb. simpl.
    destruct (Z.eqb_spec (q_end x) (q_end y)); [by right | bsplit; by left].
Qed.

Lemma closeExpired_exact_witness :
  exists N S, reaches demo_profile 1970 UTC 0 zero_time zero_time N S (demo_run demo_trace) /\
  let st := demo_run demo_trace in
  let now := 1260 * Millisecond in
  let r := closeExpiredAggregators now st in
  (forall k id, st_aggs r.1 !! k = Some id <->
     st_aggs st !! k = Some id /\ forall a, st_objs st !! id = Some a -> now < a_end a) /\
  exists due : list (gostr * nat),
    r.2 = omap (fun w => st_objs st !! w.2 ≫= emit) due /\
    NoDup due.*1 /\
    (forall k id, (k, id) ∈ due <->
       st_aggs st !! k = Some id /\ exists a, st_objs st !! id = Some a /\ a_end a <= now) /\
    StronglySorted (fun x y => exists a b, st_objs st !! x.2 = Some a /\ st_objs st !! y.2 = Some b /\
      (a_end a < a_end b \/ a_end a = a_end b /\ blt x.1 y.1 = true)) due.
Proof.
  destruct (run_reaches demo_profile 1970 UTC 0 zero_time zero_time demo_trace 0 []
    (NewStream demo_profile 1970)) as (N & S & R); [apply reach_new | vm_compute; reflexivity |].
  exists N, S. split; [exact R|]. cbv zeta.
  apply (closeExpired_exact _ _ _ _ _ _ _ _ _ _ R). reflexivity.
Defined.

(** ** Keys of windows *)

Lemma writeKeyPart_inj s t r r' :
  zlen s < two63 -> zlen t < two63 ->
  writeKeyPart s ++ r = writeKeyPart t ++ r' -> s = t /\ r = r'.
Proof. apply framed_inj. Qed.

Lemma writeKeyPart_cons s r : writeKeyPart s ++ r <> [].
Proof. apply framed_cons. Qed.

(** Every string of a running program is this short. *)
Definition short (s : gostr) : Prop := zlen s < two63.

Lemma key_on_inj on : forall on' labels labels' k,
  Forall short on -> Forall short on' -> map_Forall (fun _ v => short v) labels -> map_Forall (fun _ v => short v) labels' ->
  key_on on labels = Ok k -> key_on on' labels' = Ok k ->
  on = on' /\ Forall (fun x => labels !! x = labels' !! x) on.
Proof.
  induction on as [|x on IH]; intros [|y on'] labels labels' k Hon Hon' Hl Hl'; cbn [key_on].
  - intros [= <-] _. done.
  - intros [= <-]. destruct (labels' !! y) as [v|]; [|done]. destruct (key_on on' labels') as [r|]; [|done].
    cbn [rbind]. intros [= Hk]. by destruct (writeKeyPart_cons y (writeKeyPart v ++ r)).
  - destruct (labels !! x) as [v|]; [|done]. destruct (key_on on labels) as [r|]; [|done].
    cbn [rbind]. intros [= <-] [= Hk]. by destruct (writeKeyPart_cons x (writeKeyPart v ++ r)).
  - destruct (labels !! x) as [v|] eqn:Hv; [|done]. destruct (key_on on labels) as [r|] eqn:Hr; [|done].
    destruct (labels' !! y) as [v'|] eqn:Hv'; [|done]. destruct (key_on on' labels') as [r'|] eqn:Hr'; [|done].
    cbn [rbind]. intros [= <-] [= Hk].
    apply Forall_cons in Hon as [Hx Hon]. apply Forall_cons in Hon' as [Hy Hon'].
    apply writeKeyPart_inj in Hk as [-> Hk]; [|done..].
    apply writeKeyPart_inj in Hk as [-> ->]; [|by eapply Hl'|by eapply Hl].
    destruct (IH on' labels labels' r) as [-> Hf]; [done..|].
    split; [done|]. apply Forall_cons. split; [congruence | done].
Qed.

(** The key of a window keeps apart what it aggregates over: when two
    records get the same key, their rules name the same set, field and mode
    and the same labels to group by, and the records have the same values of
    those labels.  No value, whatever bytes it holds, runs into the next. *)
Theorem window_key_injective ag ag' set set' labels labels' key :
  window_key ag set labels = Ok key -> window_key ag' set' labels' = Ok key ->
  Forall short [set; set'; ag_Field ag; ag_Field ag'; ag_Mode ag; ag_Mode ag'] ->
  Forall short (ag_On ag ++ ag_On ag') ->
  map_Forall (fun _ v => short v) labels -> map_Forall (fun _ v => short v) labels' ->
  set = set' /\ ag_Field ag = ag_Field ag' /\ ag_Mode ag = ag_Mode ag' /\ ag_On ag = ag_On ag' /\
  Forall (fun k => labels !! k = labels' !! k) (ag_On ag).
Proof.
  unfold window_key. intros Hk Hk' Hs Hon Hl Hl'.
  destruct (key_on (ag_On ag) labels) as [r|] eqn:Hr; [|done].
  destruct (key_on (ag_On ag') labels') as [r'|] eqn:Hr'; [|done].
  cbn [rbind] in *. injection Hk as <-. injection Hk' as Hk.
  apply Forall_app in Hon as [Hon Hon'].
  repeat (apply Forall_cons in Hs as [? Hs]).
  apply writeKeyPart_inj in Hk as [-> Hk]; [|done..].
  apply writeKeyPart_inj in Hk as [-> Hk]; [|done..].
  apply writeKeyPart_inj in Hk as [-> ->]; [|done..].
  destruct (key_on_inj (ag_On ag) (ag_On ag') labels labels' r) as [Hon_eq Hf]; done.
Qed.

Lemma window_key_injective_witness :
  let labels : labels_t := {[ bs "k"%string := bs "a"%string ]} in
  let labels' : labels_t := {[ bs "k"%string := bs "a"%string; bs "j"%string := bs "b"%string ]} in
  exists key, window_key demo_aggregate (bs "ops"%string) labels = Ok key /\
    window_key demo_aggregate (bs "ops"%string) labels' = Ok key /\
    bs "ops"%string = bs "ops"%string /\ ag_Field demo_aggregate = ag_Field demo_aggregate /\
    ag_Mode demo_aggregate = ag_Mode demo_aggregate /\ ag_On demo_aggregate = ag_On demo_aggregate /\
    Forall (fun k => labels !! k = labels' !! k) (ag_On demo_aggregate).
Proof.
  cbv zeta. eexists. split; [vm_compute; reflexivity | split; [vm_compute; reflexivity|]].
  eapply window_key_injective.
  - vm_compute; reflexivity.
  - vm_compute; reflexivity.
  - repeat constructor.
  - repeat constructor.
  - apply map_Forall_singleton. vm_compute. reflexivity.
  - apply map_Forall_insert_2; [vm_compute; reflexivity | apply map_Forall_singleton; vm_compute; reflexivity].
Defined.

(** * Matcher and histograms *)


(** ** The matcher *)

Lemma first_from_spec f ps : forall i, 0 <= i ->
  (first_from i f ps = -1 /\ forall p, p ∈ ps -> f p = false) \/
  exists k p, first_from i f ps = i + Z.of_nat k /\ ps !! k = Some p /\ f p = true /\
    forall j q, (j < k)%nat -> ps !! j = Some q -> f q = false.
Proof.
  induction ps as [|p ps IH]; intros i Hi; cbn [first_from].
  - left. split; [done|]. intros p Hp. by apply not_elem_of_nil in Hp.
  - destruct (f p) eqn:Hp.
    + right. exists 0%nat, p. split_and!; [lia | done | done |]. intros j q Hj. lia.
    + destruct (IH (i + 1) ltac:(lia)) as [[-> Hno] | (k & q & -> & Hk & Hq & Hbefore)].
      * left. split; [done|]. intros q [-> | Hq]%elem_of_cons; auto.
      * right. exists (S k), q. split_and!; [lia | done | done |].
        intros [|j] r Hj Hr; [by injection Hr as <-|]. apply (Hbefore j); [lia | done].
Qed.

(** C16: The automaton chooses the first pattern: building it succeeds and a
    scan returns the smallest index of a literal that occurs in the line,
    -1 when none does, in whatever order the maps are walked. *)
Theorem FirstIndex_first_match iter ps s :
  (forall mp, iter mp ≡ₚ map_to_list mp) ->
  zlen ps < 2147483648 -> 1 + total ps < 2147483648 ->
  exists m k, newACMatcher iter ps = Some m /\ FirstIndex m s = Some k /\
    ((k = -1 /\ forall p, p ∈ ps -> Contains s p = false) \/
     exists p, idx ps k = Some p /\ Contains s p = true /\
       forall j q, j < k -> idx ps j = Some q -> Contains s q = false).
Proof.
  intros Hiter Hn Ht. pose proof (FirstIndex_newACMatcher iter ps s Hiter Hn Ht) as Hrun.
  destruct (newACMatcher iter ps) as [m|]; [|done]. cbn [mbind option_bind] in Hrun.
  exists m, (linear_scan ps s). split_and!; [done..|]. unfold linear_scan.
  destruct (first_from_spec (Contains s) ps 0 ltac:(lia)) as [H | (k & p & -> & Hk & Hp & Hb)].
  - by left.
  - right. exists p. split_and!; [|done|].
    + apply idx_Some. split; [lia|]. by rewrite Z.add_0_l, Nat2Z.id.
    + intros j q Hj [? Hq]%idx_Some. apply (Hb (Z.to_nat j)); [lia | done].
Qed.

Lemma FirstIndex_first_match_witness :
  exists m k, newACMatcher map_to_list (map bs ["hers"; "she"; "he"]%string) = Some m /\
    FirstIndex m (bs "ushers"%string) = Some k /\
    ((k = -1 /\ forall p, p ∈ map bs ["hers"; "she"; "he"]%string -> Contains (bs "ushers"%string) p = false) \/
     exists p, idx (map bs ["hers"; "she"; "he"]%string) k = Some p /\ Contains (bs "ushers"%string) p = true /\
       forall j q, j < k -> idx (map bs ["hers"; "she"; "he"]%string) j = Some q -> Contains (bs "ushers"%string) q = false).
Proof. apply FirstIndex_first_match; [done | vm_compute; done | vm_compute; done]. Defined.

(** ** Histograms *)

(** Expanding a payload into the fields of a row, for a bucket set whose
    columns the compiler accepted: it fails when the payload carries none of
    the declared buckets, else every carried bucket is its count and an
    absent one is left absent; the tail and the cumulative columns appear
    only when every bucket was carried, and are then the total's excess and
    the count at or above each bucket; nothing else changes. *)
Theorem expand_spec `{FloatText} `{Unicode} b cols raw counts fields :
  check_columns b = Ok cols -> parse_counts b raw = Ok counts ->
  match expand b raw fields with
  | Err e => e = HistPayloadEmpty /\ forall n, n ∈ bs_Buckets b -> counts !! n = None
  | Ok after => expanded b counts fields after /\ exists n, n ∈ bs_Buckets b /\ is_Some (counts !! n)
  end.
Proof.
  intros Hcols Hparse. apply check_columns_ok in Hcols as C.
  unfold expand. rewrite Hparse. simpl.
  destruct (write_buckets_spec counts (bs_Buckets b) fields 0 0) as (f & -> & Hf); [done|].
  rewrite !Z.add_0_l. destruct (Z.eqb_spec (carried counts (bs_Buckets b)) 0) as [Hnil | Hsome].
  { split; [done|]. by apply carried_zero. }
  assert (Hex : exists n, n ∈ bs_Buckets b /\ is_Some (counts !! n)).
  { by apply carried_some. }
  pose proof (written_buckets _ _ _ _ Hf) as Hw.
  destruct (negb (bs_Cumulative b) && negb (bs_Tail b)) eqn:Hnone.
  { split; [|done]. bsplit. by apply expanded_plain; [..|left]. }
  destruct (Z.ltb_spec (carried counts (bs_Buckets b)) (zlen (bs_Buckets b))) as [Hpart | Hfull].
  { split; [|done]. apply expanded_plain; [done|right]. rewrite <- carried_full. lia. }
  split; [|done]. pose proof (carried_range counts (bs_Buckets b)).
  assert (Hall : carried counts (bs_Buckets b) = zlen (bs_Buckets b)) by lia.
  rewrite (total_of_buckets b counts fields f) by done.
  apply expanded_full; [done | done | by apply carried_full].
Qed.

Definition demo_histogram : BucketSet :=
  {| bs_Name := bs "lat"%string; bs_Parse := bs "key_value"%string;
     bs_Buckets := map bs ["00"; "01"; "02"]%string; bs_Edges := []; bs_TotalField := bs "n"%string;
     bs_Cumulative := true; bs_Tail := true; bs_edges := [] |}.

Lemma expand_spec_witness :
  exists cols counts,
    check_columns demo_histogram = Ok cols /\
    parse_counts demo_histogram (bs "00=4 02:1 01=3"%string) = Ok counts /\
    match expand demo_histogram (bs "00=4 02:1 01=3"%string) {[bs "n"%string := VInt 10]} with
    | Err e => e = HistPayloadEmpty /\ forall n, n ∈ bs_Buckets demo_histogram -> counts !! n = None
    | Ok after => expanded demo_histogram counts {[bs "n"%string := VInt 10]} after /\
        exists n, n ∈ bs_Buckets demo_histogram /\ is_Some (counts !! n)
    end.
Proof.
  eexists _, _. split; [reflexivity | split; [reflexivity|]].
  eapply expand_spec; reflexivity.
Defined.
