(* ===== verification/IngestRecord.v ===== *)
(** * Record framing ([internal/ingest/record.go])

    [readRecord] over a reader that answers [ReadSlice] calls: [bufio] is
    the reader of the standard library over a stream of bytes with a buffer
    of [n], so that a stream is framed through any buffer size.  The other
    operations give a record the hint its rows are keyed by. *)

From Stdlib Require Import ZArith Lia Bool Strings.Byte Strings.String.
From S2P Require Import Prelude Bytes GoStd GoText.

(** ** Hints *)

Definition nul : byte := x00.

(** [strconv.Itoa] and [strconv.FormatInt(_, 10)]. *)
Definition keyHint (stream pos : gostr) (n : Z) : gostr :=
  let h := stream ++ nul :: pos in
  if n =? 0 then h else h ++ nul :: FormatInt n.

Definition offsetPos (off : Z) : gostr := FormatInt off.
Definition flushPos (seq : Z) : gostr := bs "flush:" ++ FormatInt seq.

(** ** Framing *)

Definition defaultMaxRecordBytes : Z := 1048576.

Definition recordCap (max : Z) : Z :=
  if max <=? 0 then defaultMaxRecordBytes else max.

Record record : Type := {
  rec_Line : gostr;
  rec_Consumed : Z;
  rec_Terminated : bool;
  rec_Oversize : bool;
}.

(** What ends a [ReadSlice]: nil, [bufio.ErrBufferFull], [io.EOF], another
    error. *)
Inductive read_err : Type :=
| ReadOK
| BufferFull
| EOF
| ReadFailed (code : Z).

Definition drop_last_if (c : byte) (b : gostr) : gostr :=
  match last b with
  | Some d => if byte_eqb d c then removelast b else b
  | None => b
  end.

Definition trimEOL (b : gostr) : gostr := drop_last_if x0d (drop_last_if x0a b).

(** One chunk: the bytes kept of it and what is counted. *)
Definition absorb (max : Z) (rec : record) (chunk : gostr) (err : read_err) : record :=
  let body := match err with ReadOK => trimEOL chunk | _ => chunk end in
  let n := max - zlen (rec_Line rec) in
  let consumed := i64 (rec_Consumed rec + zlen chunk) in
  if 0 <? n then
    let over := n <? zlen body in
    {| rec_Line := rec_Line rec ++ (if over then take (Z.to_nat n) body else body);
       rec_Consumed := consumed; rec_Terminated := rec_Terminated rec;
       rec_Oversize := rec_Oversize rec || over |}
  else
    {| rec_Line := rec_Line rec; rec_Consumed := consumed;
       rec_Terminated := rec_Terminated rec;
       rec_Oversize := rec_Oversize rec || (0 <? zlen body) |}.

(** The terminated record: a lone line feed takes the carriage return the
    chunk before ended with. *)
Definition terminate (rec : record) (chunk : gostr) : record :=
  {| rec_Line := if zlen chunk =? 1 then drop_last_if x0d (rec_Line rec) else rec_Line rec;
     rec_Consumed := rec_Consumed rec; rec_Terminated := true; rec_Oversize := rec_Oversize rec |}.

Section Reader.
Context {R : Type} (ReadSlice : R -> gostr * read_err * R).

Fixpoint read_loop (fuel : nat) (max : Z) (rec : record) (r : R) : option (record * read_err * R) :=
  match fuel with
  | O => None
  | S fuel =>
      let '(chunk, err, r) := ReadSlice r in
      let rec := absorb max rec chunk err in
      match err with
      | BufferFull => read_loop fuel max rec r
      | ReadOK => Some (terminate rec chunk, ReadOK, r)
      | _ => Some (rec, err, r)
      end
  end.

Definition empty_record : record :=
  {| rec_Line := []; rec_Consumed := 0; rec_Terminated := false; rec_Oversize := false |}.

Definition readRecord (fuel : nat) (r : R) (max : Z) : option (record * read_err * R) :=
  read_loop fuel (recordCap max) empty_record r.
End Reader.

(** [bufio.Reader.ReadSlice('\n')] with a buffer of [n] bytes: up to the
    line feed when the buffer can hold it, else a full buffer, else what is
    left of the stream. *)
Definition bufio (n : nat) (s : gostr) : gostr * read_err * gostr :=
  let i := IndexByte (take n s) x0a in
  if 0 <=? i then (take (Z.to_nat (i + 1)) s, ReadOK, drop (Z.to_nat (i + 1)) s)
  else if Nat.leb n (length s) then (take n s, BufferFull, drop n s)
  else (s, EOF, []).

(** A record of a stream of bytes: each chunk but the last takes a byte. *)
Definition read_stream (n : nat) (max : Z) (s : gostr) : option (record * read_err * gostr) :=
  readRecord (bufio n) (S (length s)) s max.

(** The stream up to its first line feed, and what follows. *)
Fixpoint cut_line (s : gostr) : option (gostr * gostr) :=
  match s with
  | [] => None
  | b :: s' =>
      if byte_eqb b x0a then Some ([], s')
      else match cut_line s' with Some (l, r) => Some (b :: l, r) | None => None end
  end.

(** A line less its carriage return. *)
Definition line_text (body : gostr) : gostr := drop_last_if x0d body.

(** ** Lemmas *)

Lemma drop_last_if_snoc c l d :
  drop_last_if c (l ++ [d]) = if byte_eqb d c then l else l ++ [d].
Proof.
  unfold drop_last_if. rewrite last_snoc. by rewrite removelast_last.
Qed.

Lemma drop_last_if_length c l : (length l <= S (length (drop_last_if c l)) /\
  length (drop_last_if c l) <= length l)%nat.
Proof.
  destruct l as [|d l _] using rev_ind; [simpl; lia|].
  rewrite drop_last_if_snoc, length_app. simpl. break_if; rewrite ?length_app; simpl; lia.
Qed.

Lemma drop_last_if_prefix c l : drop_last_if c l `prefix_of` l.
Proof.
  destruct l as [|d l _] using rev_ind; [done|].
  rewrite drop_last_if_snoc. break_if; [by exists [d] | done].
Qed.

Lemma drop_last_if_app c t l : l <> [] -> drop_last_if c (t ++ l) = t ++ drop_last_if c l.
Proof.
  destruct l as [|d l _] using rev_ind; [done|]. intros _.
  rewrite app_assoc, !drop_last_if_snoc. break_if; by rewrite <- ?app_assoc.
Qed.

Lemma trimEOL_line l : trimEOL (l ++ [x0a]) = drop_last_if x0d l.
Proof. unfold trimEOL. by rewrite drop_last_if_snoc. Qed.

(** What the record holds after chunks that add up to [t]. *)
Definition held (max : Z) (t : gostr) : record :=
  {| rec_Line := take (Z.to_nat max) t; rec_Consumed := zlen t;
     rec_Terminated := false; rec_Oversize := max <? zlen t |}.

Lemma absorb_body max t body consumed :
  0 < max ->
  let n := max - zlen (take (Z.to_nat max) t) in
  (if 0 <? n then
     {| rec_Line := take (Z.to_nat max) t ++ (if n <? zlen body then take (Z.to_nat n) body else body);
        rec_Consumed := consumed; rec_Terminated := false;
        rec_Oversize := (max <? zlen t) || (n <? zlen body) |}
   else
     {| rec_Line := take (Z.to_nat max) t; rec_Consumed := consumed; rec_Terminated := false;
        rec_Oversize := (max <? zlen t) || (0 <? zlen body) |}) =
  {| rec_Line := take (Z.to_nat max) (t ++ body); rec_Consumed := consumed;
     rec_Terminated := false; rec_Oversize := max <? zlen (t ++ body) |}.
Proof.
  intros Hmax n. unfold n. rewrite zlen_app.
  assert (Hl : zlen (take (Z.to_nat max) t) = Z.min max (zlen t)).
  { unfold zlen. rewrite length_take. lia. }
  rewrite Hl. pose proof (zlen_nonneg t). pose proof (zlen_nonneg body).
  destruct (Z.ltb_spec 0 (max - Z.min max (zlen t))).
  - assert (Hlt : zlen t < max) by lia.
    replace (max - Z.min max (zlen t)) with (max - zlen t) by lia.
    rewrite (proj2 (Z.ltb_ge max (zlen t))) by lia. cbn [orb]. f_equal.
    + rewrite take_app. f_equal.
      replace (Z.to_nat max - length t)%nat with (Z.to_nat (max - zlen t)) by (unfold zlen; lia).
      destruct (Z.ltb_spec (max - zlen t) (zlen body)); [done|].
      rewrite take_ge; [done|]. unfold zlen in *. lia.
    + apply eq_true_iff_eq. rewrite !Z.ltb_lt. lia.
  - f_equal.
    + rewrite take_app_le; [done|]. unfold zlen in *. lia.
    + apply eq_true_iff_eq. rewrite orb_true_iff, !Z.ltb_lt. lia.
Qed.

Lemma absorb_held max t chunk err :
  0 < max -> zlen (t ++ chunk) < two63 ->
  absorb max (held max t) chunk err =
  let body := match err with ReadOK => trimEOL chunk | _ => chunk end in
  {| rec_Line := take (Z.to_nat max) (t ++ body); rec_Consumed := zlen (t ++ chunk);
     rec_Terminated := false; rec_Oversize := max <? zlen (t ++ body) |}.
Proof.
  intros Hmax Hlen. cbv zeta. rewrite <- absorb_body by done.
  unfold absorb, held. cbn [rec_Line rec_Consumed rec_Terminated rec_Oversize].
  rewrite zlen_app in *. rewrite i64_id; [done|].
  pose proof (zlen_nonneg t). pose proof (zlen_nonneg chunk). mlia.
Qed.

Lemma empty_held max : 0 < max -> empty_record = held max [].
Proof.
  intros Hm. unfold empty_record, held. rewrite take_nil.
  change (zlen (@nil byte)) with 0. f_equal. symmetry. apply Z.ltb_ge. lia.
Qed.

(** Framing by any reader: full chunks [cs], then a last one. *)
Section Run.
Context {R : Type} (ReadSlice : R -> gostr * read_err * R).

Inductive run : R -> list gostr -> gostr -> read_err -> R -> Prop :=
| run_last r c e r' : ReadSlice r = (c, e, r') -> e <> BufferFull -> run r [] c e r'
| run_full r c r1 cs l e r' :
    ReadSlice r = (c, BufferFull, r1) -> run r1 cs l e r' -> run r (c :: cs) l e r'.

Lemma read_loop_run r cs l e r' : run r cs l e r' ->
  forall fuel max t, (length cs < fuel)%nat -> 0 < max -> zlen (t ++ concat cs ++ l) < two63 ->
  read_loop ReadSlice fuel max (held max t) r =
  let rec := absorb max (held max (t ++ concat cs)) l e in
  Some (match e with ReadOK => terminate rec l | _ => rec end, e, r').
Proof.
  induction 1 as [r c e r' Hr He | r c r1 cs l e r' Hr _ IH];
    intros [|fuel] max t Hf Hmax Hlen; simpl in Hf; try lia; cbn [read_loop]; rewrite Hr.
  - simpl. rewrite app_nil_r. by destruct e.
  - simpl concat in Hlen. rewrite <- app_assoc in Hlen.
    rewrite absorb_held; [|done|].
    2: { rewrite app_assoc, zlen_app in Hlen. pose proof (zlen_nonneg (concat cs ++ l)). lia. }
    cbv zeta. fold (held max (t ++ c)). rewrite IH; [|lia|done|by rewrite <- app_assoc].
    simpl concat. by rewrite app_assoc.
Qed.
End Run.

Definition no_newline (s : gostr) : Prop := forallb (fun b => negb (byte_eqb x0a b)) s = true.

Lemma cut_line_app a s : no_newline a ->
  cut_line (a ++ s) = match cut_line s with Some (l, r) => Some (a ++ l, r) | None => None end.
Proof.
  unfold no_newline. induction a as [|b a IH]; intros Ha.
  - simpl. by destruct (cut_line s) as [[??]|].
  - cbn [forallb] in Ha. bsplit. cbn [app cut_line].
    replace (byte_eqb b x0a) with false by (unfold byte_eqb in *; by rewrite Z.eqb_sym).
    rewrite IH by done. by destruct (cut_line s) as [[??]|].
Qed.

Lemma cut_line_none a : no_newline a -> cut_line a = None.
Proof. intros Ha. rewrite <- (app_nil_r a), cut_line_app by done. done. Qed.

Lemma cut_line_spec s : forall body rest,
  cut_line s = Some (body, rest) -> s = body ++ x0a :: rest /\ x0a ∉ body.
Proof.
  induction s as [|b s IH]; intros body rest; cbn [cut_line]; [done|].
  destruct (byte_eqb b x0a) eqn:Hb.
  - intros [= <- <-]. apply byte_eqb_spec in Hb as ->. split; [done | apply not_elem_of_nil].
  - destruct (cut_line s) as [[l r]|]; [|done]. intros [= <- <-].
    destruct (IH l r eq_refl) as [-> Hno]. split; [done|].
    rewrite not_elem_of_cons. split; [|done]. intros <-. by rewrite (proj2 (byte_eqb_spec _ _)) in Hb.
Qed.

(** The chunks a buffer of [n] bytes hands over for one record. *)
Lemma bufio_run n : n <> 0%nat -> forall s,
  match cut_line s with
  | Some (body, rest) =>
      exists cs l, run (bufio n) s cs (l ++ [x0a]) ReadOK rest /\ body = concat cs ++ l /\
        (length cs <= length s)%nat /\ s = body ++ x0a :: rest /\ (length (concat cs) = n * length cs)%nat /\ (length l < n)%nat
  | None => exists cs l, run (bufio n) s cs l EOF [] /\ s = concat cs ++ l /\ (length cs <= length s)%nat
  end.
Proof.
  intros Hn s. induction s as [s IH] using (induction_ltof1 _ length).
  assert (Hread : exists c e r, bufio n s = (c, e, r)) by (destruct (bufio n s) as [[??]?]; eauto).
  destruct Hread as (c & e & r & Hread). pose proof Hread as Hdef. unfold bufio, IndexByte in Hdef.
  destruct (index_from_spec (byte_eqb x0a) (take n s) 0) as [[Hi Hno] | (a & d & t & Ht & Hd & Hno & Hi)];
    rewrite Hi in Hdef; cbn [Z.leb] in Hdef.
  - change (0 <=? -1) with false in Hdef. cbn iota in Hdef.
    destruct (Nat.leb_spec n (length s)) as [Hle | Hlt]; injection Hdef as <- <- <-.
    + specialize (IH (drop n s) ltac:(unfold ltof; rewrite length_drop; lia)).
      pose proof (cut_line_app (take n s) (drop n s) Hno) as Hcut. rewrite take_drop in Hcut.
      rewrite Hcut. destruct (cut_line (drop n s)) as [[body rest]|].
      * destruct IH as (cs & l & Hrun & -> & Hlen & Hs & Hcs & Hl). exists (take n s :: cs), l.
        split_and!; [by eapply run_full | simpl; by rewrite app_assoc | | | | done].
        -- rewrite length_drop in Hlen. simpl. lia.
        -- rewrite <- app_assoc, <- Hs. by rewrite take_drop.
        -- cbn [concat length]. rewrite length_app, length_take, Hcs. lia.
      * destruct IH as (cs & l & Hrun & Hs & Hlen). exists (take n s :: cs), l.
        split_and!; [by eapply run_full | | rewrite length_drop in Hlen; simpl; lia].
        simpl. by rewrite <- app_assoc, <- Hs, take_drop.
    + rewrite take_ge in Hno by lia. rewrite (cut_line_none s) by done.
      exists [], s. split_and!; [by apply run_last | done | simpl; lia].
  - apply byte_eqb_spec in Hd as <-. rewrite Z.add_0_l in Hdef.
    rewrite (proj2 (Z.leb_le 0 (zlen a))) in Hdef by apply zlen_nonneg. injection Hdef as <- <- <-.
    assert (Hs : s = a ++ x0a :: t ++ drop n s).
    { rewrite <- (take_drop n s) at 1. by rewrite Ht, <- app_assoc. }
    set (rest := t ++ drop n s) in Hs.
    assert (Hk : Z.to_nat (zlen a + 1) = S (length a)) by (unfold zlen; lia).
    assert (Hc1 : take (Z.to_nat (zlen a + 1)) s = a ++ [x0a]).
    { rewrite Hk, Hs. replace (S (length a)) with (length (a ++ [x0a])) by (rewrite length_app; simpl; lia).
      change (x0a :: rest) with ([x0a] ++ rest). rewrite app_assoc. apply take_app_length. }
    assert (Hc2 : drop (Z.to_nat (zlen a + 1)) s = rest).
    { rewrite Hk, Hs. replace (S (length a)) with (length (a ++ [x0a])) by (rewrite length_app; simpl; lia).
      change (x0a :: rest) with ([x0a] ++ rest). rewrite app_assoc. apply drop_app_length. }
    rewrite Hc1, Hc2 in Hread. pose proof (cut_line_app a (x0a :: rest) Hno) as Hcut.
    rewrite <- Hs in Hcut. rewrite Hcut. cbn. rewrite app_nil_r. exists [], a.
    split_and!; [by apply run_last | done | simpl; lia | done | simpl; lia |].
    assert (Hlen : (length (a ++ x0a :: t) <= n)%nat) by (rewrite <- Ht, length_take; lia). rewrite length_app in Hlen. cbn [length] in Hlen. lia.
Qed.

Lemma recordCap_pos max : 0 < recordCap max.
Proof. unfold recordCap, defaultMaxRecordBytes. break_if; bsplit; lia. Qed.

(** What is kept of a line [body] and whether it is reported oversize, by a
    buffer of [n] bytes: when the buffers end where the line does, the line
    feed comes alone, and the carriage return is taken off what was kept;
    otherwise it is off before the line is cut. *)
Definition framed_line (n : nat) (cap : Z) (body : gostr) : gostr * bool :=
  if (length body mod n =? 0)%nat then (drop_last_if x0d (take (Z.to_nat cap) body), cap <? zlen body)
  else (take (Z.to_nat cap) (line_text body), cap <? zlen (line_text body)).

Lemma line_text_length body : zlen body - 1 <= zlen (line_text body) <= zlen body.
Proof. unfold line_text, zlen. pose proof (drop_last_if_length x0d body). lia. Qed.

(** A line the cap has room for is whole; one past it is cut there. *)
Lemma framed_line_short n cap body : zlen body <= cap -> framed_line n cap body = (line_text body, false).
Proof.
  intros Hle. pose proof (line_text_length body). unfold framed_line.
  break_if; rewrite take_ge by (unfold zlen in *; lia); f_equal; apply Z.ltb_ge; lia.
Qed.

Lemma framed_line_long n cap body : 0 <= cap < zlen (line_text body) ->
  (framed_line n cap body).2 = true /\
  (framed_line n cap body).1 = if (length body mod n =? 0)%nat then drop_last_if x0d (take (Z.to_nat cap) body) else take (Z.to_nat cap) body.
Proof.
  intros Hlt. pose proof (line_text_length body). unfold framed_line. break_if; cbn [fst snd]; (split; [apply Z.ltb_lt; lia|]); [done|].
  destruct (drop_last_if_prefix x0d body) as [k Hk]. fold (line_text body) in Hk. rewrite Hk at 2. rewrite take_app_le; [done|].
  unfold zlen in *. lia.
Qed.

(** One record of a stream that has a line feed. *)
Lemma read_stream_line n max s body rest :
  n <> 0%nat -> zlen s < two63 -> cut_line s = Some (body, rest) ->
  let '(line, over) := framed_line n (recordCap max) body in
  read_stream n max s =
    Some ({| rec_Line := line; rec_Consumed := zlen body + 1; rec_Terminated := true; rec_Oversize := over |}, ReadOK, rest).
Proof.
  intros Hn Hs Hcut. set (cap := recordCap max). pose proof (recordCap_pos max) as Hcap. fold cap in Hcap.
  pose proof (bufio_run n Hn s) as Hrun. rewrite Hcut in Hrun. destruct Hrun as (cs & l & Hrun & -> & Hlen & -> & Hcs & Hl).
  assert (Hz : zlen (concat cs ++ l ++ [x0a]) < two63).
  { rewrite !zlen_app in *. rewrite zlen_cons in Hs. pose proof (zlen_nonneg rest). change (zlen [x0a]) with 1. lia. }
  unfold read_stream, readRecord. fold cap. rewrite (empty_held cap) by done. rewrite (read_loop_run (bufio n) _ _ _ _ _ Hrun) by (done || lia).
  cbv zeta. rewrite app_nil_l, absorb_held by done. cbv zeta. rewrite trimEOL_line.
  unfold terminate. cbn [rec_Line rec_Consumed rec_Terminated rec_Oversize].
  assert (Hmod : (length (concat cs ++ l) mod n = length l)%nat)
    by (rewrite length_app, Hcs, Nat.add_comm, Nat.mul_comm, Nat.Div0.mod_add; by apply Nat.mod_small).
  unfold framed_line. rewrite Hmod, !zlen_app. change (zlen [x0a]) with 1. destruct l as [|x l'].
  - change (zlen [] + 1 =? 1) with true. change (length (@nil byte) =? 0)%nat with true. cbv iota. cbn [drop_last_if last]. rewrite !app_nil_r. by rewrite Z.add_0_r.
  - rewrite (proj2 (Z.eqb_neq (zlen (x :: l') + 1) 1)) by (rewrite zlen_cons; pose proof (zlen_nonneg l'); lia). cbn [length Nat.eqb].
    unfold line_text. rewrite drop_last_if_app by done. rewrite !zlen_app. by rewrite Z.add_assoc.
Qed.

(** The end of a stream without a line feed. *)
Lemma read_stream_eof n max s :
  n <> 0%nat -> zlen s < two63 -> cut_line s = None ->
  let cap := recordCap max in
  read_stream n max s =
    Some ({| rec_Line := take (Z.to_nat cap) s; rec_Consumed := zlen s;
             rec_Terminated := false; rec_Oversize := cap <? zlen s |}, EOF, []).
Proof.
  intros Hn Hs Hcut cap. pose proof (recordCap_pos max) as Hcap. fold cap in Hcap.
  pose proof (bufio_run n Hn s) as Hrun. rewrite Hcut in Hrun.
  destruct Hrun as (cs & l & Hrun & -> & Hlen).
  unfold read_stream, readRecord. fold cap. rewrite (empty_held cap) by done.
  rewrite (read_loop_run (bufio n) _ _ _ _ _ Hrun) by (done || lia).
  cbv zeta. by rewrite absorb_held by done.
Qed.

(** ** Hints *)

Definition no_nul (s : gostr) : Prop := nul ∉ s.

Lemma all_digits_no_nul s : all_digits s = true -> no_nul s.
Proof.
  unfold all_digits, no_nul. intros Hd Hin. rewrite forallb_forall in Hd.
  specialize (Hd nul (proj1 (list_elem_of_In _ _) Hin)). done.
Qed.

Lemma FormatInt_no_nul n : no_nul (FormatInt n).
Proof.
  destruct (FormatInt_split n) as (sg & ds & -> & Hsg & _ & Hd). unfold no_nul.
  rewrite not_elem_of_app. split; [|by apply all_digits_no_nul].
  destruct Hsg as [-> | ->]; [apply not_elem_of_nil | by rewrite list_elem_of_singleton].
Qed.

Lemma flushPos_no_nul n : no_nul (flushPos n).
Proof.
  unfold no_nul, flushPos. rewrite not_elem_of_app. split; [|apply FormatInt_no_nul].
  by apply (bool_decide_eq_false_1 (nul ∈ bs "flush:")).
Qed.

Lemma cut_at_nul (a b x y : gostr) : no_nul a -> no_nul b ->
  a ++ nul :: x = b ++ nul :: y -> a = b /\ x = y.
Proof.
  unfold no_nul. revert b. induction a as [|c a IH]; intros [|d b] Ha Hb He; simpl in He.
  - injection He as <-. done.
  - injection He as Hd _. subst d. destruct Hb. left.
  - injection He as Hc _. subst c. destruct Ha. left.
  - injection He as <- He. apply not_elem_of_cons in Ha as [_ Ha], Hb as [_ Hb].
    destruct (IH b Ha Hb He) as [-> ->]. done.
Qed.

Lemma keyHint_inj stream stream' pos pos' n n' :
  no_nul stream -> no_nul stream' -> no_nul pos -> no_nul pos' ->
  in_i64 n -> in_i64 n' ->
  keyHint stream pos n = keyHint stream' pos' n' ->
  stream = stream' /\ pos = pos' /\ n = n'.
Proof.
  intros Hs Hs' Hp Hp' Hn Hn'. unfold keyHint.
  assert (Hplain : forall a b c d (x : gostr), no_nul a -> no_nul c -> no_nul b -> no_nul d ->
            a ++ nul :: b = (c ++ nul :: d) ++ nul :: x -> False).
  { intros a b c d x Ha Hc Hb Hd He. rewrite <- app_assoc in He. simpl in He.
    apply cut_at_nul in He as [_ ->]; [|done..]. apply Hb, elem_of_app. right. left. }
  destruct (Z.eqb_spec n 0) as [-> | Hne], (Z.eqb_spec n' 0) as [-> | Hne'].
  - intros [-> ->]%cut_at_nul; done.
  - intros He. exfalso. by eapply Hplain, He.
  - intros He. exfalso. symmetry in He. by eapply Hplain, He.
  - rewrite <- !app_assoc. simpl. intros [-> He]%cut_at_nul; [|done..].
    apply cut_at_nul in He as [-> He]; [|done..].
    split_and!; [done | done | by apply FormatInt_inj].
Qed.

(** * Properties of ingestion *)


(** ** Framing *)

(** C17: A record of a stream, read through a buffer of any size: it is the
    text up to the line feed, less its carriage return, cut at the cap; it
    consumes exactly the bytes up to and with the line feed, whatever was
    cut; and it is reported oversize when something other than the carriage
    return was.  Only where the buffers end exactly before the line feed is
    the carriage return counted against the cap, and taken off after the cut.
    Without a line feed it is the rest of the stream, cut at the cap and
    unterminated. *)
Theorem readRecord_spec n max s :
  n <> 0%nat -> zlen s < two63 ->
  let cap := recordCap max in
  match cut_line s with
  | Some (body, rest) =>
      s = body ++ x0a :: rest /\ (x0a ∉ body) /\
      exists line over,
        read_stream n max s =
          Some ({| rec_Line := line; rec_Consumed := zlen body + 1; rec_Terminated := true; rec_Oversize := over |}, ReadOK, rest) /\
        (zlen body <= cap -> line = line_text body /\ over = false) /\
        (cap < zlen (line_text body) -> over = true /\
           line = if (length body mod n =? 0)%nat then drop_last_if x0d (take (Z.to_nat cap) body) else take (Z.to_nat cap) body) /\
        (line, over) = framed_line n cap body
  | None =>
      read_stream n max s =
        Some ({| rec_Line := take (Z.to_nat cap) s; rec_Consumed := zlen s; rec_Terminated := false; rec_Oversize := cap <? zlen s |}, EOF, [])
  end.
Proof.
  intros Hn Hs cap. destruct (cut_line s) as [[body rest]|] eqn:Hcut; [|by apply read_stream_eof].
  destruct (cut_line_spec _ _ _ Hcut) as [Heq Hno]. split_and!; [done..|]. pose proof (read_stream_line n max s body rest Hn Hs Hcut) as Hr. fold cap in Hr.
  destruct (framed_line n cap body) as [line over] eqn:Hf. exists line, over. split_and!; [exact Hr | | | done].
  - intros Hle. rewrite framed_line_short in Hf by done. by injection Hf as <- <-.
  - intros Hlt. pose proof (recordCap_pos max). destruct (framed_line_long n cap body) as [H1 H2]; [lia|]. by rewrite Hf in H1, H2.
Qed.

(** The cap cuts a line of eleven bytes at five, and the next record starts
    after its line feed. *)
Lemma readRecord_spec_witness :
  let s := bs "a long line
next"%string in
  16%nat <> 0%nat /\ zlen s < two63 /\
  read_stream 16 5 s =
    Some ({| rec_Line := bs "a lon"%string; rec_Consumed := 12; rec_Terminated := true; rec_Oversize := true |}, ReadOK, bs "next"%string).
Proof.
  cbv zeta. split; [lia|]. split; [reflexivity|].
  destruct (readRecord_spec 16 5 (bs "a long line
next"%string) ltac:(lia) eq_refl) as (_ & _ & line & over & Hr & _ & Hlong & _).
  destruct (Hlong eq_refl) as [-> ->]. exact Hr.
Defined.

(** Framing depends on the buffer at the cap itself: a line of exactly
    the cap with a carriage return is whole through one buffer, and reported
    as truncated through another whose chunk ends at the carriage return. *)
Theorem readRecord_buffer_dependent :
  let s := repeat x61 31 ++ [x0d; x0a] in
  exists line,
    read_stream 32 31 s = Some ({| rec_Line := line; rec_Consumed := 33; rec_Terminated := true; rec_Oversize := true |}, ReadOK, []) /\
    read_stream 64 31 s = Some ({| rec_Line := line; rec_Consumed := 33; rec_Terminated := true; rec_Oversize := false |}, ReadOK, []).
Proof. eexists. split; vm_compute; reflexivity. Qed.

(** ** Hints *)

(** The hint of a sample tells its stream, the position of its record
    and its place in the record apart, for offsets and flushes alike. *)
Theorem keyHint_injective stream stream' pos pos' n n' :
  no_nul stream -> no_nul stream' ->
  (exists k, pos = offsetPos k \/ pos = flushPos k) ->
  (exists k, pos' = offsetPos k \/ pos' = flushPos k) ->
  in_i64 n -> in_i64 n' ->
  keyHint stream pos n = keyHint stream' pos' n' ->
  stream = stream' /\ pos = pos' /\ n = n'.
Proof.
  intros Hs Hs' [k Hp] [k' Hp']. apply keyHint_inj; [done..| |].
  - destruct Hp as [-> | ->]; [apply FormatInt_no_nul | apply flushPos_no_nul].
  - destruct Hp' as [-> | ->]; [apply FormatInt_no_nul | apply flushPos_no_nul].
Qed.

Lemma keyHint_injective_witness :
  let h := keyHint (bs "s1"%string) (offsetPos 12) 3 in
  bs "s1"%string = bs "s1"%string /\ offsetPos 12 = bs "12"%string /\ 3 = 3 /\ h = h.
Proof.
  split_and!; [..|reflexivity].
  - apply (keyHint_injective (bs "s1"%string) (bs "s1"%string) (offsetPos 12) (offsetPos 12) 3 3);
      try (apply (bool_decide_eq_false_1 (nul ∈ bs "s1"%string)); reflexivity);
      try (exists 12; left; reflexivity); try (unfold in_i64, two63; lia); reflexivity.
  - reflexivity.
  - reflexivity.
Defined.
