(* ===== verification/IngestSink.v ===== *)
(** * The sink: batching and delivery ([internal/ingest/sink.go])

    Samples are buffered per set and shipped in requests bounded by a body
    budget.  A flush is two steps, as the locks make it: [flush_begin] takes
    a batch and, when it empties the buffer, tells the observers;
    [flush_end] acts on what the store answered.  [flushRound], [Flush] and
    [Close] compose them; other goroutines' [Add]s may run in between, which
    is what [IngestDelivery] does.

    [X] is what a buffer holds: a sample, or a sample and who added it. *)

From Stdlib Require Import ZArith Lia Bool Strings.Byte Strings.String.
From stdpp Require Import gmap.
From S2P Require Import Prelude Bytes Float64 GoStd GoText Model Wire ExtractHistogram ExtractTimestamp ExtractStream.

(** ** Configuration and state *)

Record SinkConfig : Type := {
  c_BatchSize : Z;
  c_BatchBytes : Z;
  c_FlushEvery : Z;
  c_MaxFatalDrops : Z;
  c_MaxBufferedSamples : Z;
}.

Definition DefaultSinkConfig : SinkConfig :=
  {| c_BatchSize := 1024; c_BatchBytes := 4 * 1048576; c_FlushEvery := 50 * Millisecond;
     c_MaxFatalDrops := 100; c_MaxBufferedSamples := 100000 |}.

Definition positive_or (n d : Z) : Z := if n <=? 0 then d else n.

(** What [NewSink] makes of a configuration. *)
Definition effective_config (c : SinkConfig) : SinkConfig :=
  let d := DefaultSinkConfig in
  {| c_BatchSize := positive_or (c_BatchSize c) (c_BatchSize d);
     c_BatchBytes := positive_or (c_BatchBytes c) (c_BatchBytes d);
     c_FlushEvery := positive_or (c_FlushEvery c) (c_FlushEvery d);
     c_MaxFatalDrops := if c_MaxFatalDrops c =? 0 then c_MaxFatalDrops d else c_MaxFatalDrops c;
     c_MaxBufferedSamples := positive_or (c_MaxBufferedSamples c) (c_MaxBufferedSamples d) |}.

Record SinkStats : Type := {
  k_Sent : Z;
  k_Accepted : Z;
  k_Rejected : Z;
  k_Retried : Z;
  k_Dropped : Z;
  k_FatalDrop : Z;
  k_Unencodable : Z;
}.

Record Sink (X : Type) : Type := {
  sk_buffers : gmap gostr (list X);
  sk_pending : Z;
  sk_metaSent : gset gostr;
  sk_metaQ : list FieldMeta;
  sk_setQ : list SetMeta;
  sk_Stats : SinkStats;
  sk_holdUntil : Z;
  sk_gaveUp : bool;
  sk_inflight : Z;
  sk_batchBytes : Z;
}.
Arguments sk_buffers {X}.
Arguments sk_pending {X}.
Arguments sk_metaSent {X}.
Arguments sk_metaQ {X}.
Arguments sk_setQ {X}.
Arguments sk_Stats {X}.
Arguments sk_holdUntil {X}.
Arguments sk_gaveUp {X}.
Arguments sk_inflight {X}.
Arguments sk_batchBytes {X}.
Arguments Build_Sink {X}.

(** What the store answered: a response, or the error [Client.Write]
    returns with the marks [errors.As] and [errors.Is] look for. *)
Record write_error : Type := {
  e_fatal : option Z;
  e_canceled : bool;
  e_auth : bool;
  e_retryAfter : option Z;
}.

Inductive reply : Type :=
| Replied (resp : WriteResponse)
| Failed (e : write_error).

Inductive sink_err : Type :=
| SendFailed (e : write_error)
| ErrGaveUp (drops : Z) (e : write_error)
| ContextDone.

(** [DeliveryObserver]: what a driver that tracks offsets is told. *)
Class DeliveryObserver (Obs : Type) := {
  BeginFlush : Obs -> Obs;
  EndFlush : Z -> bool -> Obs -> Obs;
}.

(** ** Body budget *)

Definition sampleFixedBytes : Z := 9 + 20 + 1 + 1.
Definition sampleMapBytes : Z := 12.
Definition sampleKeyHintBytes : Z := 14.
Definition labelPairBytes : Z := 6.
Definition fieldPairBytes : Z := 10.
Definition numericValueBytes : Z := 25.
Definition batchFixedBytes : Z := 24.
Definition metaKeyBytes : Z := 14.
Definition setMetaKeyBytes : Z := 12.

Definition short_escape (b : byte) : bool :=
  byte_eqb b x22 || byte_eqb b x5c || byte_eqb b x0a || byte_eqb b x0d || byte_eqb b x09.

Fixpoint json_bytes_loop (fuel : nat) (s : gostr) : Z :=
  match fuel, s with
  | S fuel, c :: t =>
      if b2z c <? 128 then
        (if short_escape c then 2
         else if (b2z c <? 32) || html_unsafe c then 6
         else 1) + json_bytes_loop fuel t
      else
        let '(r, size) := DecodeRune s in
        (if (r =? RuneError) && (size =? 1) then 6
         else if (r =? 8232) || (r =? 8233) then 6
         else size) + json_bytes_loop fuel (drop (Z.to_nat size) s)
  | _, _ => 0
  end.

Definition jsonStringBytes (s : gostr) : Z := json_bytes_loop (length s) s.

Definition sum_map {A} (f : A -> Z) (l : list A) : Z := foldr (fun x n => f x + n) 0 l.

Definition label_bytes (kv : gostr * gostr) : Z := jsonStringBytes kv.1 + jsonStringBytes kv.2 + labelPairBytes.
Definition field_bytes (kv : gostr * Value) : Z :=
  jsonStringBytes kv.1 + fieldPairBytes +
  match kv.2 with
  | VString s => jsonStringBytes s + 2
  | _ => numericValueBytes
  end.

Definition sampleBytes (s : Sample) : Z :=
  sampleFixedBytes
  + (if bool_decide (Labels s = ∅) then 0 else sampleMapBytes)
  + sampleMapBytes
  + (if bytes_eqb (KeyHint s) [] then 0 else sampleKeyHintBytes + jsonStringBytes (KeyHint s))
  + sum_map label_bytes (map_to_list (Labels s))
  + sum_map field_bytes (map_to_list (Fields s)).

Definition metaBytes `{JsonFloat} (meta : list FieldMeta) (sets : list SetMeta) : Z :=
  (if empty_list meta then 0
   else metaKeyBytes + match json_field_metas meta with Some b => zlen b | None => 0 end)
  + (if empty_list sets then 0 else setMetaKeyBytes + zlen (json_set_metas sets)).

Definition minBatchBytes : Z := 65536.

(** ** Updates of the state *)

Section Sink.
Context {X : Type}.
Implicit Types s : Sink X.

Definition with_buffers b n s : Sink X := Build_Sink b n (sk_metaSent s) (sk_metaQ s) (sk_setQ s) (sk_Stats s) (sk_holdUntil s) (sk_gaveUp s) (sk_inflight s) (sk_batchBytes s).
Definition with_meta sent q sq s : Sink X := Build_Sink (sk_buffers s) (sk_pending s) sent q sq (sk_Stats s) (sk_holdUntil s) (sk_gaveUp s) (sk_inflight s) (sk_batchBytes s).
Definition with_stats st s : Sink X := Build_Sink (sk_buffers s) (sk_pending s) (sk_metaSent s) (sk_metaQ s) (sk_setQ s) st (sk_holdUntil s) (sk_gaveUp s) (sk_inflight s) (sk_batchBytes s).
Definition with_hold h s : Sink X := Build_Sink (sk_buffers s) (sk_pending s) (sk_metaSent s) (sk_metaQ s) (sk_setQ s) (sk_Stats s) h (sk_gaveUp s) (sk_inflight s) (sk_batchBytes s).
Definition giveUp s : Sink X := Build_Sink (sk_buffers s) (sk_pending s) (sk_metaSent s) (sk_metaQ s) (sk_setQ s) (sk_Stats s) (sk_holdUntil s) true (sk_inflight s) (sk_batchBytes s).
Definition with_inflight n s : Sink X := Build_Sink (sk_buffers s) (sk_pending s) (sk_metaSent s) (sk_metaQ s) (sk_setQ s) (sk_Stats s) (sk_holdUntil s) (sk_gaveUp s) n (sk_batchBytes s).
Definition with_bytes n s : Sink X := Build_Sink (sk_buffers s) (sk_pending s) (sk_metaSent s) (sk_metaQ s) (sk_setQ s) (sk_Stats s) (sk_holdUntil s) (sk_gaveUp s) (sk_inflight s) n.

Definition no_stats : SinkStats :=
  {| k_Sent := 0; k_Accepted := 0; k_Rejected := 0; k_Retried := 0; k_Dropped := 0; k_FatalDrop := 0; k_Unencodable := 0 |}.

Definition NewSink (cfg : SinkConfig) : Sink X :=
  Build_Sink ∅ 0 ∅ [] [] no_stats zero_time false 0 (c_BatchBytes cfg).

Definition count_sent (accepted refused : Z) (k : SinkStats) : SinkStats :=
  {| k_Sent := i64 (k_Sent k + 1); k_Accepted := i64 (k_Accepted k + accepted); k_Rejected := i64 (k_Rejected k + refused);
     k_Retried := k_Retried k; k_Dropped := k_Dropped k; k_FatalDrop := k_FatalDrop k; k_Unencodable := k_Unencodable k |}.
Definition count_retried (k : SinkStats) : SinkStats :=
  {| k_Sent := k_Sent k; k_Accepted := k_Accepted k; k_Rejected := k_Rejected k; k_Retried := i64 (k_Retried k + 1);
     k_Dropped := k_Dropped k; k_FatalDrop := k_FatalDrop k; k_Unencodable := k_Unencodable k |}.
Definition count_dropped (n fatal : Z) (k : SinkStats) : SinkStats :=
  {| k_Sent := k_Sent k; k_Accepted := k_Accepted k; k_Rejected := k_Rejected k; k_Retried := k_Retried k;
     k_Dropped := i64 (k_Dropped k + n); k_FatalDrop := i64 (k_FatalDrop k + fatal); k_Unencodable := k_Unencodable k |}.
Definition count_unencodable (k : SinkStats) : SinkStats :=
  {| k_Sent := k_Sent k; k_Accepted := k_Accepted k; k_Rejected := k_Rejected k; k_Retried := k_Retried k;
     k_Dropped := k_Dropped k; k_FatalDrop := k_FatalDrop k; k_Unencodable := i64 (k_Unencodable k + 1) |}.

(** ** Holds, room, budget *)

Definition deliveryHold : Z := 30 * 1000000000.
Definition retryHold : Z := 5 * 1000000000.
Definition MaxRetryAfter : Z := 120 * 1000000000.

Definition holding (now : Z) s : bool := negb (IsZero (sk_holdUntil s)) && (now <? sk_holdUntil s).
Definition holdDelivery (now d : Z) s : Sink X := with_hold (now + d) s.

Definition retryHoldFor (e : write_error) : Z :=
  match e_retryAfter e with
  | Some after => if after >? 0 then (if after >? MaxRetryAfter then MaxRetryAfter else after) else retryHold
  | None => retryHold
  end.

Definition bufferedRoom (cfg : SinkConfig) (count : Z) s : bool := sk_pending s + count <=? c_MaxBufferedSamples cfg.

Definition sampleBudget `{JsonFloat} (cfg : SinkConfig) (meta : list FieldMeta) (sets : list SetMeta) s : Z :=
  let limit := sk_batchBytes s in
  let limit := if limit <=? 0 then c_BatchBytes cfg else limit in
  if limit <=? 0 then 0
  else
    let budget := limit - metaBytes meta sets in
    if budget <? 1 then 1 else budget.

(** The new budget and whether the batch is worth another attempt.  The
    loop around the compare-and-swap runs once: nothing else stores it. *)
Definition shrinkBatchBytes (cfg : SinkConfig) s : Sink X * bool :=
  let cur := if sk_batchBytes s <=? 0 then c_BatchBytes cfg else sk_batchBytes s in
  if cur <=? minBatchBytes then (s, false)
  else
    let next := cur /go 2 in
    (with_bytes (if next <? minBatchBytes then minBatchBytes else next) s, true).

(** ** Taking and putting back *)

Context (sample_of : X -> Sample).

(** The samples of one set that fit: the size, those taken and the rest. *)
Fixpoint take_samples (budget taken n size : Z) (l : list X) : Z * list X * list X :=
  match l with
  | [] => (size, [], [])
  | x :: l' =>
      let sz := sampleBytes (sample_of x) in
      if (taken + n >? 0) && (budget >? 0) && (size + sz >? budget) then (size, [], l)
      else
        let '(size', a, rest) := take_samples budget taken (n + 1) (size + sz) l' in
        (size', x :: a, rest)
  end.

Fixpoint take_sets (budget : Z) (sets : list gostr) (taken size : Z) (bufs : gmap gostr (list X))
    : list (gostr * list X) * Z * gmap gostr (list X) :=
  match sets with
  | [] => ([], taken, bufs)
  | set :: sets' =>
      match bufs !! set with
      | None | Some [] => take_sets budget sets' taken size (delete set bufs)
      | Some samples =>
          let size := size + (batchFixedBytes + jsonStringBytes set) in
          let '(size, a, rest) := take_samples budget taken 0 size samples in
          match a, rest with
          | [], _ => ([], taken, bufs)
          | _, [] =>
              let '(batches, taken, bufs) := take_sets budget sets' (taken + zlen a) size (delete set bufs) in
              ((set, a) :: batches, taken, bufs)
          | _, _ => ([(set, a)], taken + zlen a, <[set := rest]> bufs)
          end
      end
  end.

(** The batches, their count, and whether samples are left behind. *)
Definition takeLocked (budget : Z) s : list (gostr * list X) * Z * bool * Sink X :=
  let sets := sort_strings (map fst (map_to_list (sk_buffers s))) in
  let '(batches, taken, bufs) := take_sets budget sets 0 0 (sk_buffers s) in
  let s := with_inflight (sk_inflight s + taken) (with_buffers bufs (sk_pending s - taken) s) in
  (batches, taken, sk_pending s >? 0, s).

Definition releaseInflight (n : Z) s : Sink X :=
  if n =? 0 then s
  else with_inflight (if sk_inflight s - n <? 0 then 0 else sk_inflight s - n) s.

Definition put_back (b : gostr * list X) (bufs : gmap gostr (list X)) : gmap gostr (list X) :=
  <[b.1 := b.2 ++ default [] (bufs !! b.1)]> bufs.

Definition requeueBatches (batches : list (gostr * list X)) (count : Z) s : Sink X :=
  with_buffers (foldl (fun m b => put_back b m) (sk_buffers s) batches) (sk_pending s + count) s.

Definition requeueMeta (meta : list FieldMeta) (sets : list SetMeta) s : Sink X :=
  if empty_list meta && empty_list sets then s
  else with_meta (sk_metaSent s) (meta ++ sk_metaQ s) (sets ++ sk_setQ s) s.

(** Everything a failed request gives back. *)
Definition requeue (batches : list (gostr * list X)) (count : Z) (meta : list FieldMeta) (sets : list SetMeta) s : Sink X :=
  requeueMeta meta sets (releaseInflight count (requeueBatches batches count s)).

(** ** One request *)

Context `{JsonFloat} {Obs : Type} `{DeliveryObserver Obs} (cfg : SinkConfig).

Inductive begun : Type :=
| Held
| MetaOnly (meta : list FieldMeta) (sets : list SetMeta)
| Sent (meta : list FieldMeta) (sets : list SetMeta) (batches : list (gostr * list X)) (count : Z) (partial : bool).

Definition flush_begin (now : Z) (so : Sink X * list Obs) : begun * (Sink X * list Obs) :=
  let '(s, obs) := so in
  if holding now s then (Held, (s, obs))
  else
    let meta := sk_metaQ s in
    let sets := sk_setQ s in
    let s := with_meta (sk_metaSent s) [] [] s in
    let budget := sampleBudget cfg meta sets s in
    if sk_pending s =? 0 then (MetaOnly meta sets, (s, obs))
    else
      let '(batches, count, partial, s) := takeLocked budget s in
      (Sent meta sets batches count partial, (s, if partial then obs else map BeginFlush obs)).

(** [sendMeta]'s reading of the answer. *)
Definition meta_end (meta : list FieldMeta) (sets : list SetMeta) (now : Z) (r : reply) s : option sink_err * Sink X :=
  if empty_list meta && empty_list sets then (None, s)
  else match r with
       | Replied _ => (None, s)
       | Failed e =>
           match e_fatal e with
           | Some _ => (None, s)
           | None =>
               let s := requeueMeta meta sets s in
               (Some (SendFailed e), if e_auth e then holdDelivery now deliveryHold s else s)
           end
       end.

(** A batch the store refused for good. *)
Definition drop_batch (count : Z) (partial : bool) (e : write_error) (so : Sink X * list Obs) : bool * option sink_err * (Sink X * list Obs) :=
  let '(s, obs) := so in
  let s := with_stats (count_dropped count 1 (sk_Stats s)) s in
  let drops := k_FatalDrop (sk_Stats s) in
  let s := releaseInflight count s in
  let obs := map (EndFlush 0 true) (if partial then map BeginFlush obs else obs) in
  if (c_MaxFatalDrops cfg >? 0) && (drops >=? c_MaxFatalDrops cfg)
  then (false, Some (ErrGaveUp drops e), (giveUp s, obs))
  else (false, None, (s, obs)).

Definition TooLarge : Z := 413.

Definition send_failed (meta : list FieldMeta) (sets : list SetMeta) (batches : list (gostr * list X)) (count : Z)
    (partial : bool) (now : Z) (e : write_error) (so : Sink X * list Obs) : bool * option sink_err * (Sink X * list Obs) :=
  let '(s, obs) := so in
  let back s := requeue batches count meta sets s in
  match e_fatal e with
  | Some status =>
      let '(s', again) := if status =? TooLarge then shrinkBatchBytes cfg s else (s, false) in
      if again then (false, Some (SendFailed e), (back s', obs))
      else drop_batch count partial e (s, obs)
  | None =>
      if e_canceled e then (false, Some (SendFailed e), (back s, obs))
      else if e_auth e then (false, Some (SendFailed e), (holdDelivery now deliveryHold (back s), obs))
      else
        let held := holdDelivery now (retryHoldFor e) (back s) in
        let s := if bufferedRoom cfg count s then with_stats (count_retried (sk_Stats held)) held else held in
        (false, Some (SendFailed e), (s, obs))
  end.

Definition sent_ok (count : Z) (partial : bool) (resp : WriteResponse) (so : Sink X * list Obs) : bool * option sink_err * (Sink X * list Obs) :=
  let '(s, obs) := so in
  let s := with_hold zero_time (releaseInflight count s) in
  let s := with_stats (count_sent (wr_Accepted resp) (Refused resp) (sk_Stats s)) s in
  (partial, None, (s, if partial then obs else map (EndFlush (wr_Accepted resp) false) obs)).

Definition flush_end (b : begun) (now : Z) (r : reply) (so : Sink X * list Obs) : bool * option sink_err * (Sink X * list Obs) :=
  match b with
  | Held => (false, None, so)
  | MetaOnly meta sets =>
      let '(err, s) := meta_end meta sets now r so.1 in (false, err, (s, so.2))
  | Sent meta sets batches count partial =>
      match r with
      | Replied resp => sent_ok count partial resp so
      | Failed e => send_failed meta sets batches count partial now e so
      end
  end.

(** ** Whole flushes *)

(** What the outside answers to the [n]-th request: the clock before and
    after it, and the store's reply. *)
Context (world : nat -> Z * Z * reply).

Definition flushRound (n : nat) (so : Sink X * list Obs) : bool * option sink_err * (Sink X * list Obs) :=
  let '(before, after, r) := world n in
  let '(b, so) := flush_begin before so in
  flush_end b after r so.

Definition maxFlushRounds : nat := 64.

Fixpoint flush_rounds (rounds : nat) (n : nat) (so : Sink X * list Obs) : option sink_err * nat * (Sink X * list Obs) :=
  let '(partial, err, so) := flushRound n so in
  match err, partial, rounds with
  | None, true, S rounds => flush_rounds rounds (S n) so
  | _, _, _ => (err, S n, so)
  end.

Definition Flush (n : nat) (so : Sink X * list Obs) : option sink_err * nat * (Sink X * list Obs) :=
  flush_rounds (maxFlushRounds - 1) n so.

(** The loop of [Close]: it goes on while a flush shrinks the buffer. *)
Fixpoint close_rounds (fuel : nat) (n : nat) (so : Sink X * list Obs) : option sink_err * nat * (Sink X * list Obs) :=
  match fuel with
  | O => (None, n, so)
  | S fuel =>
      let before := sk_pending so.1 in
      if before =? 0 then (None, n, so)
      else
        let '(err, n, so) := Flush n so in
        match err with
        | Some _ => (err, n, so)
        | None => if sk_pending so.1 >=? before then (None, n, so) else close_rounds fuel n so
        end
  end.

Definition Close (n : nat) (so : Sink X * list Obs) : option sink_err * nat * (Sink X * list Obs) :=
  let '(s, obs) := so in
  let '(err, n, so) := Flush n (with_hold zero_time s, obs) in
  let '(err, n, so) := match err with
    | Some _ => (err, n, so)
    | None => close_rounds (Z.to_nat (sk_pending so.1)) n so
    end in
  let '(s, obs) := so in
  let left := sk_pending s in
  (err, n, (if left >? 0 then with_stats (count_dropped left 0 (sk_Stats s)) s else s, obs)).

(** ** Adding *)

Definition encodable (smp : Sample) s : bool * Sink X :=
  if forallb (fun kv => is_ok (ValidateFieldValue kv.2)) (map_to_list (Fields smp)) then (true, s)
  else (false, with_stats (count_unencodable (sk_Stats s)) s).

(** [waitRoom] with nothing else running: there is room, the context is
    done, or the call blocks. *)
Definition has_room s : bool :=
  (c_MaxBufferedSamples cfg <=? 0) || (sk_pending s + sk_inflight s <? c_MaxBufferedSamples cfg).

Definition enqueue (set : gostr) (x : X) s : Sink X :=
  with_buffers (<[set := default [] (sk_buffers s !! set) ++ [x]]> (sk_buffers s)) (sk_pending s + 1) s.

Inductive added : Type :=
| Added (err : option sink_err) (n : nat) (so : Sink X * list Obs)
| Blocked.

(** [AddSample]; [x] is the sample as the buffer keeps it. *)
Definition AddSample (ctx_done : bool) (set : gostr) (x : X) (n : nat) (so : Sink X * list Obs) : added :=
  let '(s, obs) := so in
  let '(ok, s) := encodable (sample_of x) s in
  if negb ok then Added None n (s, obs)
  else if negb (has_room s) then
    if ctx_done then Added (Some ContextDone) n (s, obs) else Blocked
  else
    let s := enqueue set x s in
    if sk_pending s >=? c_BatchSize cfg then
      let '(err, n, so) := Flush n (s, obs) in Added err n so
    else Added None n (s, obs).

(** The sample [Add] makes of an extracted row; the row's labels win. *)
Definition sample_of_result (r : Result) (streamLabels : labels_t) (keyHint : gostr) : Sample :=
  {| TSMs := r_TSMs r; SubUS := r_SubUS r; Labels := r_Labels r ∪ streamLabels; Fields := r_Fields r; KeyHint := keyHint |}.

Definition Add (mk : Sample -> X) (ctx_done : bool) (r : Result) (streamLabels : labels_t) (keyHint : gostr) (n : nat)
    (so : Sink X * list Obs) : added :=
  AddSample ctx_done (r_Set r) (mk (sample_of_result r streamLabels keyHint)) n so.
End Sink.

(** * Positions of a followed source ([follow.go], [remote.go])

    A source is read up to [pending], a batch on its way covers it up to
    [inflight], and the checkpoint may resume it at [acked].  The tailer of
    a file and the progress of a remote path keep the same five fields and
    obey the same rules; the sink's observer moves them. *)


Record progress : Type := {
  pg_pending : Z;
  pg_inflight : Z;
  pg_acked : Z;
  pg_holed : bool;
  pg_rewind : bool;
}.

Definition newRemoteProgress : progress :=
  {| pg_pending := 0; pg_inflight := 0; pg_acked := 0; pg_holed := false; pg_rewind := false |}.

(** How far the reader has handed bytes to the sink; nothing while a rewind
    is owed. *)
Definition setPending (n : Z) (t : progress) : progress :=
  if pg_rewind t then t
  else {| pg_pending := n; pg_inflight := pg_inflight t; pg_acked := pg_acked t; pg_holed := pg_holed t; pg_rewind := false |}.

Definition markInflight (t : progress) : progress :=
  if pg_rewind t then t
  else {| pg_pending := pg_pending t; pg_inflight := pg_pending t; pg_acked := pg_acked t; pg_holed := pg_holed t; pg_rewind := false |}.

(** The snapshot becomes the acknowledged position; whether it moved. *)
Definition commitInflight (t : progress) : progress * bool :=
  if pg_holed t || (pg_inflight t <=? pg_acked t) then (t, false)
  else ({| pg_pending := pg_pending t; pg_inflight := pg_inflight t; pg_acked := pg_inflight t;
           pg_holed := pg_holed t; pg_rewind := pg_rewind t |}, true).

(** A source with nothing in flight is left alone. *)
Definition markHoled (t : progress) : progress * bool :=
  if pg_holed t || (pg_inflight t <=? pg_acked t) then (t, false)
  else ({| pg_pending := pg_pending t; pg_inflight := pg_inflight t; pg_acked := pg_acked t;
           pg_holed := true; pg_rewind := pg_rewind t |}, true).

Definition clearHole (t : progress) : progress * bool :=
  if pg_holed t then
    ({| pg_pending := pg_acked t; pg_inflight := pg_acked t; pg_acked := pg_acked t; pg_holed := false; pg_rewind := true |}, true)
  else (t, false).

Definition replayOwed (t : progress) : bool := pg_holed t || pg_rewind t.

Definition takeRewind (t : progress) : progress * option Z :=
  if pg_rewind t then
    ({| pg_pending := pg_pending t; pg_inflight := pg_inflight t; pg_acked := pg_acked t; pg_holed := pg_holed t; pg_rewind := false |},
     Some (pg_acked t))
  else (t, None).

Definition reset (to : Z) (t : progress) : progress :=
  {| pg_pending := to; pg_inflight := to; pg_acked := to; pg_holed := false; pg_rewind := false |}.

(** Where a remote tail starts, the owed rewind taken. *)
Definition startFrom (t : progress) : progress * Z :=
  ((if pg_rewind t then
      {| pg_pending := pg_acked t; pg_inflight := pg_acked t; pg_acked := pg_acked t; pg_holed := pg_holed t; pg_rewind := false |}
    else t), pg_acked t).

(** [EndFlush]: a dropped batch freezes the source; a delivered one thaws a
    frozen source, or commits. *)
Definition end_flush (dropped : bool) (t : progress) : progress :=
  if dropped then (markHoled t).1
  else if pg_holed t then (clearHole t).1
  else (commitInflight t).1.

#[export] Instance progress_observer : DeliveryObserver progress := {
  BeginFlush := markInflight;
  EndFlush _ dropped := end_flush dropped;
}.
