(* ===== verification/IngestSinkProofs.v ===== *)
(** * Lemmas on the sink: sizes, taking and putting back *)

From Stdlib Require Import ZArith Lia Bool.
From Stdlib Require Import Strings.Byte Strings.String.
From stdpp Require Import gmap.
From S2P Require Import Prelude Bytes Float64 GoStd GoText Model Wire.
From S2P Require Import ExtractHistogram ExtractTimestamp ExtractStream IngestSink.

(** ** Sizes of text *)

Lemma json_ascii_bytes c :
  zlen (json_ascii c) <=
  (if short_escape c then 2 else if (b2z c <? 32) || html_unsafe c then 6 else 1).
Proof. destruct c; vm_compute; discriminate. Qed.

Lemma json_bytes_bound fuel : forall s, zlen (json_escape fuel s) <= json_bytes_loop fuel s.
Proof.
  induction fuel as [|fuel IH]; intros s; cbn [json_escape json_bytes_loop]; [done|].
  destruct s as [|c t]; [done|]. destruct (b2z c <? 128).
  - rewrite zlen_app. pose proof (json_ascii_bytes c). pose proof (IH t). lia.
  - pose proof (DecodeRune_size c t) as Hw.
    destruct (DecodeRune (c :: t)) as [r w]. cbn [snd] in Hw. rewrite zlen_app.
    pose proof (IH (drop (Z.to_nat w) (c :: t))). unfold json_rune.
    destruct ((r =? RuneError) && (w =? 1)); [change (zlen (bs "\ufffd")) with 6; lia|].
    destruct ((r =? 8232) || (r =? 8233)).
    + rewrite zlen_app. change (zlen (bs "\u202")) with 5. change (zlen [hex_digit (r mod 16)]) with 1. lia.
    + enough (zlen (take (Z.to_nat w) (c :: t)) <= w) by lia. unfold zlen. rewrite length_take. lia.
Qed.

Lemma json_text_bytes s : zlen (json_text s) <= jsonStringBytes s.
Proof. apply json_bytes_bound. Qed.

(** ** Sizes of numbers *)

Lemma FormatUint_len n k : 0 <= n < 10 ^ Z.of_nat k -> (1 <= k <= 20)%nat -> zlen (FormatUint n) <= Z.of_nat k.
Proof.
  unfold FormatUint. intros Hn Hk.
  enough (Hg : forall fuel n k acc, (1 <= k)%nat -> 0 <= n < 10 ^ Z.of_nat k ->
            zlen (digits_loop fuel n acc) <= Z.of_nat k + zlen acc).
  { specialize (Hg 20%nat n k [] ltac:(lia) Hn). change (zlen (@nil byte)) with 0 in Hg. lia. }
  clear. induction fuel as [|fuel IH]; intros n k acc Hk Hn; cbn [digits_loop]; [pose proof (zlen_nonneg acc); lia|].
  destruct (Z.eqb_spec (n / 10) 0) as [Hz | Hnz]; [rewrite zlen_cons; lia|].
  destruct k as [|[|k]]; [lia | |].
  { change (10 ^ Z.of_nat 1) with 10 in Hn. rewrite Z.div_small in Hnz by lia. done. }
  specialize (IH (n / 10) (S k) (digit (n mod 10) :: acc) ltac:(lia)). rewrite zlen_cons in IH.
  enough (0 <= n / 10 < 10 ^ Z.of_nat (S k)) by lia.
  rewrite (Nat2Z.inj_succ (S k)), Z.pow_succ_r in Hn by lia.
  split; [apply Z.div_pos; lia | apply Z.div_lt_upper_bound; lia].
Qed.

Lemma FormatInt_len n : in_i64 n -> zlen (FormatInt n) <= 20.
Proof.
  intros Hn. unfold FormatInt. destruct (Z.ltb_spec n 0).
  - rewrite zlen_cons. pose proof (FormatUint_len (- n) 19). change (10 ^ Z.of_nat 19) with 10000000000000000000 in *. mlia.
  - pose proof (FormatUint_len n 19). change (10 ^ Z.of_nat 19) with 10000000000000000000 in *. mlia.
Qed.

(** A valid timestamp has at most fifteen digits. *)
Lemma FormatInt_ts n : 0 < n <= MaxTSMs -> zlen (FormatInt n) <= 15.
Proof.
  unfold MaxTSMs, FormatInt. intros Hn. destruct (Z.ltb_spec n 0); [lia|].
  pose proof (FormatUint_len n 15). change (10 ^ Z.of_nat 15) with 1000000000000000 in *. lia.
Qed.

(** ** Sizes of samples *)

Lemma sum_map_app {A} (f : A -> Z) l k : sum_map f (l ++ k) = sum_map f l + sum_map f k.
Proof. induction l as [|x l IH]; [done|]. simpl. rewrite IH. lia. Qed.

Lemma sum_map_perm {A} (f : A -> Z) l k : l ≡ₚ k -> sum_map f l = sum_map f k.
Proof. induction 1; simpl; lia. Qed.

Section Sizes.
Context `{J : JsonFloat} {L : JsonFloatLaws J}.

Definition value_in_range (v : Value) : Prop := match v with VInt i => in_i64 i | _ => True end.

Lemma json_value_bytes k v t :
  value_in_range v -> json_value v = Some t -> zlen (json_member (k, t)) + 1 <= field_bytes (k, v).
Proof.
  intros Hv Ht. rewrite json_member_len. unfold field_bytes. cbn [fst snd].
  pose proof (json_text_bytes k) as Hk.
  enough (zlen t <= 6 + match v with VString s => jsonStringBytes s + 2 | _ => numericValueBytes end)
    by (unfold fieldPairBytes; lia).
  assert (Hobj : forall name x, zlen (json_text name) = 1 -> zlen (json_object [(name, x)]) = 6 + zlen x).
  { intros name x Hn. rewrite json_object_len. cbn [map total_len foldr]. rewrite json_member_len. cbn [fst snd].
    rewrite Hn. change (zlen [(name, x)]) with 1. lia. }
  unfold numericValueBytes. destruct v as [|i|f|s|b]; cbn [json_value] in Ht; try done.
  - injection Ht as <-. rewrite Hobj by done. pose proof (FormatInt_len i Hv). lia.
  - destruct (isFinite f) eqn:Hf; [|done]. injection Ht as <-. rewrite Hobj by done.
    pose proof (json_float_width f Hf). lia.
  - injection Ht as <-. rewrite Hobj by done. rewrite json_string_len. pose proof (json_text_bytes s). lia.
  - injection Ht as <-. rewrite Hobj by done. by destruct b.
Qed.

Lemma json_labels_bytes m :
  m <> ∅ -> zlen (json_labels m) + 1 <= 2 + sum_map label_bytes (map_to_list m).
Proof.
  intros Hm. unfold json_labels. rewrite json_object_len. unfold zlen. rewrite length_map, map_map.
  rewrite <- (sum_map_perm label_bytes _ _ (sorted_entries_perm m)).
  assert (Hne : sorted_entries m <> []).
  { intros E. pose proof (sorted_entries_perm m) as Hp. rewrite E in Hp.
    symmetry in Hp. apply Permutation_nil_r in Hp. by apply map_to_list_empty_iff in Hp. }
  enough (Hg : forall l : list (gostr * gostr),
    total_len (map (fun kv => json_member (kv.1, json_string kv.2)) l) + Z.of_nat (length l) <= sum_map label_bytes l).
  { specialize (Hg (sorted_entries m)). destruct (sorted_entries m); [done|]. cbn [length] in *. lia. }
  induction l as [|[k v] l IH]; [done|]. cbn [map total_len foldr sum_map length].
  fold (total_len (map (fun kv : gostr * gostr => json_member (kv.1, json_string kv.2)) l)). fold (sum_map label_bytes l).
  rewrite json_member_len. cbn [fst snd]. rewrite json_string_len.
  unfold label_bytes at 1, labelPairBytes. cbn [fst snd].
  pose proof (json_text_bytes k). pose proof (json_text_bytes v). lia.
Qed.

Lemma json_fields_bytes m t :
  map_Forall (fun _ v => value_in_range v) m -> m <> ∅ -> json_fields m = Some t ->
  zlen t + 1 <= 2 + sum_map field_bytes (map_to_list m).
Proof.
  intros Hr Hm. unfold json_fields. intros Ht.
  rewrite <- (sum_map_perm field_bytes _ _ (sorted_entries_perm m)).
  assert (Hall : Forall (fun kv : gostr * Value => value_in_range kv.2) (sorted_entries m)).
  { rewrite (sorted_entries_perm m). apply Forall_forall. intros [k v] Hin%elem_of_map_to_list. by apply (Hr k). }
  assert (Hne : sorted_entries m <> []).
  { intros E. pose proof (sorted_entries_perm m) as Hp. rewrite E in Hp.
    symmetry in Hp. apply Permutation_nil_r in Hp. by apply map_to_list_empty_iff in Hp. }
  destruct (mapM _ (sorted_entries m)) as [ms|] eqn:Hms; [|done]. injection Ht as <-.
  rewrite json_object_len. apply mapM_Some_1 in Hms.
  enough (Hg : total_len (map json_member ms) + Z.of_nat (length ms) <= sum_map field_bytes (sorted_entries m)).
  { destruct Hms; [done|]. unfold zlen. cbn [length] in *. lia. }
  clear Hne. induction Hms as [|[k v] e l ms He Hms IH]; [done|].
  apply Forall_cons in Hall as [Hv Hall]. specialize (IH Hall). cbn [fst snd] in *.
  destruct (json_value v) as [x|] eqn:Hx; [|done]. injection He as <-.
  pose proof (json_value_bytes k v x Hv Hx). cbn [map total_len foldr sum_map length].
  fold (total_len (map json_member ms)). fold (sum_map field_bytes l). lia.
Qed.
(** What a sample costs, its separator included, is within the estimate when
    it carries no fraction; the slack is the timestamp's missing digits. *)
Lemma json_sample_bytes s t :
  SubUS s = 0 -> Fields s <> ∅ -> map_Forall (fun _ v => value_in_range v) (Fields s) ->
  json_sample s = Some t -> zlen t + 22 - zlen (FormatInt (TSMs s)) <= sampleBytes s.
Proof.
  intros Hsub Hne Hr. unfold json_sample.
  destruct (json_fields (Fields s)) as [f|] eqn:Hf; [|done]. cbn [mbind option_bind]. intros [= <-].
  pose proof (json_fields_bytes _ _ Hr Hne Hf) as Hfb. rewrite json_object_len.
  unfold omit_int, omit_text, omit, sampleBytes, sampleFixedBytes, sampleMapBytes, sampleKeyHintBytes.
  rewrite Hsub. change (0 =? 0) with true. cbn [app].
  assert (Hlab : bool_decide (Labels s = ∅) = false -> zlen (json_labels (Labels s)) + 1 <= 2 + sum_map label_bytes (map_to_list (Labels s))).
  { intros Hl. apply json_labels_bytes. by apply bool_decide_eq_false in Hl. }
  assert (Hnone : bool_decide (Labels s = ∅) = true -> sum_map label_bytes (map_to_list (Labels s)) = 0).
  { intros Hl. apply bool_decide_eq_true in Hl. by rewrite Hl, map_to_list_empty. }
  pose proof (json_text_bytes (KeyHint s)).
  destruct (bool_decide (Labels s = ∅)); destruct (bytes_eqb (KeyHint s) []); cbn [map app total_len foldr];
    rewrite !json_member_len; cbn [fst snd]; rewrite ?json_string_len;
    change (zlen (json_text (bs "ts_ms"))) with 5; change (zlen (json_text (bs "fields"))) with 6;
    change (zlen (json_text (bs "labels"))) with 6; change (zlen (json_text (bs "key_hint"))) with 8;
    rewrite !zlen_cons; change (zlen (@nil (gostr * gostr))) with 0;
    first [specialize (Hlab eq_refl) | specialize (Hnone eq_refl)]; lia.
Qed.
End Sizes.

(** ** Taking a batch *)

(** Closes a goal with a member of an empty list in hand. *)
Ltac no_elem := match goal with H : _ ∈ [] |- _ => by apply not_elem_of_nil in H end.

Section Take.
Context {X : Type} (sample_of : X -> Sample).
Implicit Types (s : Sink X) (l : list X) (bufs : gmap gostr (list X)) (batches : list (gostr * list X)).

Abbreviation cost x := (sampleBytes (sample_of x)).

Lemma take_samples_spec budget taken : forall l n size,
  0 <= taken + n ->
  let '(size', a, rest) := take_samples sample_of budget taken n size l in
  l = a ++ rest /\ size' = size + sum_map (fun x => cost x) a /\
  (0 < budget -> a <> [] -> 2 <= taken + n + zlen a -> size' <= budget) /\
  (taken + n = 0 -> l <> [] -> a <> []).
Proof.
  induction l as [|x l IH]; intros n size Hn; cbn [take_samples]; [by split_and!; [done | simpl; lia | |]|].
  destruct ((taken + n >? 0) && (budget >? 0) && (size + cost x >? budget)) eqn:Hfull.
  - split_and!; [done | simpl; lia | done |]. bsplit. lia.
  - specialize (IH (n + 1) (size + cost x) ltac:(lia)).
    destruct (take_samples sample_of budget taken (n + 1) (size + cost x) l) as [[size' a] rest].
    destruct IH as (-> & -> & Hb & _). split_and!; [done | simpl; lia | | done].
    intros Hpos _ Htwo. rewrite zlen_cons in Htwo. destruct a as [|y a].
    + simpl. change (zlen (@nil X)) with 0 in Htwo.
      destruct (Z.ltb_spec budget (size + cost x)); [|lia]. exfalso.
      assert ((taken + n >? 0) && (budget >? 0) && (size + cost x >? budget) = true); [|congruence].
      rewrite !andb_true_iff, !Z.gtb_ltb, !Z.ltb_lt. lia.
    + apply Hb; [done | done | lia].
Qed.

(** What a buffer holds of a set. *)
Definition held (bufs : gmap gostr (list X)) (set : gostr) : list X := default [] (bufs !! set).

(** What batches hold of a set, and in all. *)
Definition in_batches (set : gostr) batches : list X :=
  concat (map (fun b => if bool_decide (b.1 = set) then b.2 else []) batches).
Definition batch_total batches : Z := sum_map (fun b => zlen b.2) batches.
Definition batch_cost batches : Z :=
  sum_map (fun b => batchFixedBytes + jsonStringBytes b.1 + sum_map (fun x => cost x) b.2) batches.

Lemma in_batches_cons set b batches :
  in_batches set (b :: batches) = (if bool_decide (b.1 = set) then b.2 else []) ++ in_batches set batches.
Proof. done. Qed.

Lemma batch_total_cons b batches : batch_total (b :: batches) = zlen b.2 + batch_total batches.
Proof. done. Qed.

Lemma batch_cost_cons b batches : batch_cost (b :: batches) =
  batchFixedBytes + jsonStringBytes b.1 + sum_map (fun x => cost x) b.2 + batch_cost batches.
Proof. done. Qed.

Lemma held_delete bufs set set' : held (delete set bufs) set' = if bool_decide (set = set') then [] else held bufs set'.
Proof.
  unfold held. case_bool_decide as E; [subst; by rewrite lookup_delete_eq | by rewrite lookup_delete_ne].
Qed.

Lemma held_insert bufs set l set' : held (<[set := l]> bufs) set' = if bool_decide (set = set') then l else held bufs set'.
Proof.
  unfold held. case_bool_decide as E; [subst; by rewrite lookup_insert_eq | by rewrite lookup_insert_ne].
Qed.

(** The batches name sets of the list, once each. *)
Lemma take_sets_spec budget : forall sets taken size bufs,
  NoDup sets -> 0 <= taken ->
  let '(batches, taken', bufs') := take_sets sample_of budget sets taken size bufs in
  (forall set, held bufs set = in_batches set batches ++ held bufs' set) /\
  taken' = taken + batch_total batches /\
  (0 < budget -> batches <> [] -> 2 <= taken' -> size + batch_cost batches <= budget) /\
  (forall b, b ∈ batches -> b.1 ∈ sets /\ b.2 <> []) /\ NoDup (map fst batches) /\
  (taken = 0 -> (exists set, set ∈ sets /\ held bufs set <> []) -> batches <> []).
Proof.
  induction sets as [|set sets IH]; intros taken size bufs Hnd Ht; cbn [take_sets].
  { split_and!; try done; [simpl; lia | intros b Hb; no_elem |].
    intros _ (set & Hset & _). no_elem. }
  apply NoDup_cons in Hnd as [Hset Hnd].
  assert (Hempty : held bufs set = [] -> let '(batches, taken', bufs') := take_sets sample_of budget sets taken size (delete set bufs) in
    (forall set', held bufs set' = in_batches set' batches ++ held bufs' set') /\
    taken' = taken + batch_total batches /\
    (0 < budget -> batches <> [] -> 2 <= taken' -> size + batch_cost batches <= budget) /\
    (forall b, b ∈ batches -> b.1 ∈ set :: sets /\ b.2 <> []) /\ NoDup (map fst batches) /\
    (taken = 0 -> (exists set', set' ∈ set :: sets /\ held bufs set' <> []) -> batches <> [])).
  { intros He. specialize (IH taken size (delete set bufs) Hnd Ht).
    destruct (take_sets sample_of budget sets taken size (delete set bufs)) as [[batches taken'] bufs'].
    destruct IH as (Hh & Hc & Hb & Hin & Hn & Hex). split_and!; try done.
    - intros set'. rewrite <- Hh, held_delete. case_bool_decide; [by subst | done].
    - intros b Hbin. split; [right|]; by apply Hin.
    - intros Hz (set' & Hs & Hne). apply Hex; [done|]. apply elem_of_cons in Hs as [-> | Hs]; [done|].
      exists set'. split; [done|]. rewrite held_delete. case_bool_decide; [by subst | done]. }
  destruct (bufs !! set) as [l|] eqn:Hl; [|apply Hempty; unfold held; by rewrite Hl].
  assert (Hheld : held bufs set = l) by (unfold held; by rewrite Hl).
  destruct l as [|x l]; [by apply Hempty|]. clear Hempty.
  set (size1 := size + (batchFixedBytes + jsonStringBytes set)).
  pose proof (take_samples_spec budget taken (x :: l) 0 size1 ltac:(lia)) as Hts.
  destruct (take_samples sample_of budget taken 0 size1 (x :: l)) as [[size' a] rest].
  destruct Hts as (Hsplit & Hsize & Hbudget & Hsome). destruct a as [|y a].
  { split_and!; try done; [simpl; lia | intros b Hb; no_elem | constructor |]. intros Hz _. by destruct Hsome; [lia | |]. }
  destruct rest as [|z rest].
  - specialize (IH (taken + zlen (y :: a)) size' (delete set bufs) Hnd ltac:(pose proof (zlen_nonneg (y :: a)); lia)).
    destruct (take_sets sample_of budget sets (taken + zlen (y :: a)) size' (delete set bufs)) as [[batches taken'] bufs'].
    destruct IH as (Hh & Hc & Hb & Hin & Hn & Hex). rewrite app_nil_r in Hsplit. split_and!; try done.
    + intros set'. rewrite in_batches_cons, <- app_assoc, <- Hh, held_delete. cbn [fst snd].
      case_bool_decide; [subst set'; by rewrite Hheld, app_nil_r | done].
    + rewrite batch_total_cons. cbn [snd]. lia.
    + intros Hpos _ Htwo. rewrite batch_cost_cons. cbn [fst snd]. unfold size1 in Hsize.
      destruct batches as [|b batches].
      * change (batch_cost []) with 0. change (batch_total []) with 0 in Hc.
        specialize (Hbudget Hpos ltac:(done) ltac:(lia)). lia.
      * specialize (Hb Hpos ltac:(done) Htwo). lia.
    + intros b [-> | Hbin]%elem_of_cons; [split; [left | done]|]. split; [right|]; by apply Hin.
    + cbn [map fst]. apply NoDup_cons. split; [|done]. intros Hf.
      apply list_elem_of_fmap in Hf as (b & -> & Hbin). by apply Hset, Hin.
  - split_and!; try done.
    + intros set'. rewrite in_batches_cons, held_insert. cbn [fst snd in_batches map concat app].
      case_bool_decide; [subst set'; by rewrite Hheld, app_nil_r | done].
    + intros Hpos _ Htwo. specialize (Hbudget Hpos ltac:(done) ltac:(lia)).
      rewrite batch_cost_cons. change (batch_cost []) with 0. cbn [fst snd]. unfold size1 in *. lia.
    + intros b Hb%list_elem_of_singleton. subst b. split; [left | done].
    + cbn [map]. apply NoDup_singleton.
Qed.
(** ** Totals *)

Definition buffered_total bufs : Z := map_fold (fun _ l n => zlen l + n) 0 bufs.

Lemma total_insert bufs set l :
  bufs !! set = None -> buffered_total (<[set := l]> bufs) = zlen l + buffered_total bufs.
Proof.
  intros Hs. unfold buffered_total. rewrite map_fold_insert_L; [done | intros; lia | done].
Qed.

Lemma total_delete bufs set : buffered_total bufs = zlen (held bufs set) + buffered_total (delete set bufs).
Proof.
  unfold held. destruct (bufs !! set) as [l|] eqn:Hl; cbn [default from_option id].
  - rewrite <- (insert_delete_id bufs set l Hl) at 1. apply total_insert, lookup_delete_eq.
  - by rewrite delete_id.
Qed.

Lemma total_put bufs set l : buffered_total (<[set := l]> bufs) = zlen l + buffered_total bufs - zlen (held bufs set).
Proof.
  rewrite <- insert_delete_eq, total_insert by apply lookup_delete_eq.
  pose proof (total_delete bufs set). lia.
Qed.

Lemma total_nonneg bufs : 0 <= buffered_total bufs.
Proof.
  unfold buffered_total. apply (map_fold_weak_ind (fun n _ => 0 <= n)); [done|].
  intros set l m n _ Hn. pose proof (zlen_nonneg l). lia.
Qed.

Lemma total_zero bufs set : buffered_total bufs <= 0 -> held bufs set = [].
Proof.
  rewrite (total_delete bufs set). pose proof (total_nonneg (delete set bufs)).
  destruct (held bufs set) as [|x l]; [done|]. rewrite zlen_cons. pose proof (zlen_nonneg l). lia.
Qed.

Lemma total_some bufs : buffered_total bufs <> 0 -> exists set, held bufs set <> [].
Proof.
  induction bufs as [|set l bufs Hset IH] using map_ind; [done|]. rewrite total_insert by done. intros Hne.
  destruct l as [|x l]; [|exists set; by rewrite held_insert, bool_decide_eq_true_2].
  destruct IH as [set' Hs]; [done|]. exists set'. rewrite held_insert. case_bool_decide as E; [subst set' | done].
  unfold held in Hs. by rewrite Hset in Hs.
Qed.

Lemma take_sets_total budget : forall sets taken size bufs,
  let '(batches, _, bufs') := take_sets sample_of budget sets taken size bufs in
  buffered_total bufs = batch_total batches + buffered_total bufs'.
Proof.
  induction sets as [|set sets IH]; intros taken size bufs; cbn [take_sets]; [done|].
  assert (Hempty : held bufs set = [] ->
    let '(batches, _, bufs') := take_sets sample_of budget sets taken size (delete set bufs) in
    buffered_total bufs = batch_total batches + buffered_total bufs').
  { intros He. specialize (IH taken size (delete set bufs)).
    destruct (take_sets _ _ _ _ _ _) as [[batches t'] bufs']. by rewrite (total_delete bufs set), He. }
  destruct (bufs !! set) as [l|] eqn:Hl; [|apply Hempty; unfold held; by rewrite Hl].
  assert (Hheld : held bufs set = l) by (unfold held; by rewrite Hl).
  destruct l as [|x l]; [by apply Hempty|]. clear Hempty.
  destruct (take_samples sample_of budget taken 0 _ (x :: l)) as [[size' a] rest] eqn:Ha.
  assert (Hsplit : x :: l = a ++ rest).
  { revert Ha. generalize (size + (batchFixedBytes + jsonStringBytes set)) 0 size' a rest (x :: l).
    clear. intros sz n size' a rest l. revert sz n size' a rest.
    induction l as [|y l IH]; intros sz n size' a rest; cbn [take_samples]; [by intros [= <- <- <-]|].
    break_if; [by intros [= <- <- <-]|].
    destruct (take_samples sample_of budget taken (n + 1) _ l) as [[z b] r] eqn:Hb.
    intros [= <- <- <-]. by rewrite (IH _ _ _ _ _ Hb). }
  destruct a as [|y a]; [done|]. destruct rest as [|z rest].
  - specialize (IH (taken + zlen (y :: a)) size' (delete set bufs)).
    destruct (take_sets _ _ _ _ _ _) as [[batches t'] bufs']. rewrite app_nil_r in Hsplit.
    rewrite batch_total_cons, (total_delete bufs set), Hheld, Hsplit. cbn [snd]. lia.
  - rewrite batch_total_cons, total_put, Hheld, Hsplit, zlen_app. cbn [snd]. change (batch_total []) with 0. lia.
Qed.

(** ** Whole operations *)

Definition pending_ok s : Prop := sk_pending s = buffered_total (sk_buffers s).

(** Everything a list of batches holds. *)
Definition items batches : list X := concat (map snd batches).

(** A sample some buffer holds. *)
Definition buffered bufs (x : X) : Prop := exists set, x ∈ held bufs set.

Lemma in_batches_items x batches : x ∈ items batches <-> exists set, x ∈ in_batches set batches.
Proof.
  induction batches as [|b batches IH]; [split; [intros H | intros [set H]]; by apply not_elem_of_nil in H|].
  unfold items in *. cbn [map concat]. rewrite elem_of_app, IH. split.
  - intros [Hx | [set Hx]].
    + exists b.1. rewrite in_batches_cons, bool_decide_eq_true_2 by done. apply elem_of_app. by left.
    + exists set. rewrite in_batches_cons. apply elem_of_app. by right.
  - intros [set Hx]. rewrite in_batches_cons in Hx. apply elem_of_app in Hx as [Hx | Hx]; [|by right; exists set].
    case_bool_decide; [by left | no_elem].
Qed.

Lemma buffer_keys_nodup bufs : NoDup (sort_strings (map fst (map_to_list bufs))).
Proof. rewrite (sort_strings_perm _). apply NoDup_fst_map_to_list. Qed.

Lemma sorted_keys_held bufs set : held bufs set <> [] -> set ∈ sort_strings (map fst (map_to_list bufs)).
Proof.
  unfold held. rewrite (sort_strings_perm _). destruct (bufs !! set) as [l|] eqn:Hl; [|done].
  intros _. apply list_elem_of_fmap. exists (set, l). split; [done|]. by apply elem_of_map_to_list.
Qed.

(** What taking a batch does. *)
Lemma takeLocked_spec budget s :
  pending_ok s ->
  let '(batches, count, partial, s') := takeLocked sample_of budget s in
  (forall set, held (sk_buffers s) set = in_batches set batches ++ held (sk_buffers s') set) /\
  count = batch_total batches /\ NoDup (map fst batches) /\
  pending_ok s' /\ (partial = false -> forall set, held (sk_buffers s') set = []) /\
  (0 < budget -> 2 <= count -> batch_cost batches <= budget) /\
  s' = with_inflight (sk_inflight s + count) (with_buffers (sk_buffers s') (sk_pending s - count) s).
Proof.
  intros Hok. unfold takeLocked.
  pose proof (take_sets_spec budget _ 0 0 (sk_buffers s) (buffer_keys_nodup (sk_buffers s)) ltac:(lia)) as Hs.
  pose proof (take_sets_total budget (sort_strings (map fst (map_to_list (sk_buffers s)))) 0 0 (sk_buffers s)) as Ht.
  destruct (take_sets _ _ _ _ _ _) as [[batches taken] bufs]. destruct Hs as (Hh & Hc & Hb & _ & Hn & _).
  unfold pending_ok in *. cbn [with_inflight with_buffers sk_pending sk_buffers sk_inflight].
  split_and!; try done; [lia | |].
  - intros Hp set. apply total_zero. rewrite Z.gtb_ltb, Z.ltb_ge in Hp. lia.
  - intros Hpos Htwo. specialize (Hb Hpos). destruct batches; [simpl in Hc; lia|].
    specialize (Hb ltac:(done) Htwo). lia.
Qed.

(** A take makes progress, and sends no empty batch. *)
Lemma takeLocked_progress budget s :
  pending_ok s ->
  let '(batches, count, _, s') := takeLocked sample_of budget s in
  Forall (fun b => b.2 <> []) batches /\
  (sk_pending s <> 0 -> batches <> [] /\ 1 <= count) /\ 0 <= sk_pending s'.
Proof.
  intros Hok. unfold takeLocked.
  pose proof (take_sets_spec budget _ 0 0 (sk_buffers s) (buffer_keys_nodup (sk_buffers s)) ltac:(lia)) as Hs.
  pose proof (take_sets_total budget (sort_strings (map fst (map_to_list (sk_buffers s)))) 0 0 (sk_buffers s)) as Ht.
  destruct (take_sets _ _ _ _ _ _) as [[batches taken] bufs]. destruct Hs as (_ & Hc & _ & Hin & _ & Hex).
  unfold pending_ok in Hok. cbn [with_inflight with_buffers sk_pending]. pose proof (total_nonneg bufs). split_and!; [| | lia].
  - apply Forall_forall. intros b Hb. by apply Hin.
  - rewrite Hok. intros [set Hset]%total_some.
    assert (Hne : batches <> []) by (apply Hex; [done|]; exists set; split; [by apply sorted_keys_held | done]).
    split; [done|]. rewrite Hc. destruct batches as [|b batches]; [done|]. rewrite batch_total_cons.
    assert (Hb : b.2 <> []) by (apply (Hin b); left).
    assert (Hnn : forall l : list (gostr * list X), 0 <= batch_total l).
    { induction l as [|c l IHl]; [done|]. rewrite batch_total_cons. pose proof (zlen_nonneg c.2). lia. }
    specialize (Hnn batches). destruct b.2; [done|]. rewrite zlen_cons. pose proof (zlen_nonneg l). lia.
Qed.

Lemma put_back_held b bufs set : held (put_back b bufs) set = (if bool_decide (b.1 = set) then b.2 else []) ++ held bufs set.
Proof. unfold put_back. rewrite held_insert. case_bool_decide; [by subst | done]. Qed.

Lemma put_back_total b bufs : buffered_total (put_back b bufs) = zlen b.2 + buffered_total bufs.
Proof. unfold put_back. rewrite total_put, zlen_app. unfold held. lia. Qed.

(** Putting batches back, one per set, restores each set's order. *)
Lemma put_all_held batches : forall bufs set, NoDup (map fst batches) ->
  held (foldl (fun m b => put_back b m) bufs batches) set = in_batches set batches ++ held bufs set.
Proof.
  induction batches as [|b batches IH]; intros bufs set Hn; [done|].
  cbn [map] in Hn. apply NoDup_cons in Hn as [Hno Hn].
  cbn [foldl]. rewrite IH, put_back_held, in_batches_cons by done.
  case_bool_decide as E; [|done]. subst set. rewrite app_assoc. f_equal.
  enough (in_batches b.1 batches = []) as -> by (by rewrite app_nil_r).
  clear -Hno. induction batches as [|c batches IH]; [done|]. rewrite in_batches_cons.
  cbn [map] in Hno. apply not_elem_of_cons in Hno as [Hne Hno].
  rewrite bool_decide_eq_false_2 by (by apply not_eq_sym). by apply IH.
Qed.

Lemma put_all_total batches : forall bufs,
  buffered_total (foldl (fun m b => put_back b m) bufs batches) = batch_total batches + buffered_total bufs.
Proof.
  induction batches as [|b batches IH]; intros bufs; [done|].
  cbn [foldl]. rewrite IH, put_back_total, batch_total_cons. lia.
Qed.

Lemma requeue_pending batches count s :
  count = batch_total batches -> pending_ok s -> pending_ok (requeueBatches batches count s).
Proof.
  unfold pending_ok, requeueBatches. cbn [with_buffers sk_pending sk_buffers].
  intros -> ->. rewrite put_all_total. lia.
Qed.
(** Everything a failed request gives back is where it was. *)
Lemma requeue_spec batches count meta sets s :
  count = batch_total batches -> NoDup (map fst batches) -> pending_ok s ->
  (forall set, held (sk_buffers (requeue batches count meta sets s)) set = in_batches set batches ++ held (sk_buffers s) set) /\
  pending_ok (requeue batches count meta sets s).
Proof.
  intros Hc Hn Hok. unfold requeue, requeueMeta, releaseInflight.
  pose proof (requeue_pending batches count s Hc Hok) as Hp. unfold pending_ok in *.
  repeat break_if; cbn in *; (split; [intros set; by apply put_all_held | done]).
Qed.

End Take.
