(* ===== verification/IngestFollow.v ===== *)
(** * Following a file ([internal/ingest/follow.go], [checkpoint.go])

    The reader of one file: its offset, its extractor and its checkpoint.
    The positions it shares with the sink's goroutine are the [progress]
    values of the observers' list, its own at [me]: a record handed to the
    sink may flush, and the flush may move them. *)

From Stdlib Require Import ZArith Lia Bool Strings.Byte Strings.String.
From stdpp Require Import gmap.
From S2P Require Import Prelude Bytes Float64 GoStd GoText Model Wire ExtractHistogram ExtractTimestamp ExtractStream IngestRecord.
From S2P Require Import IngestSink.

(** ** Checkpoints *)

Record RotatedTail : Type := {
  rt_Path : gostr;
  rt_Offset : Z;
  rt_Fingerprint : gostr;
  rt_FingerprintBytes : Z;
}.

Record Checkpoint : Type := {
  cp_Stream : gostr;
  cp_Path : gostr;
  cp_Fingerprint : gostr;
  cp_FingerprintBytes : Z;
  cp_Offset : Z;
  cp_AckedOffset : Z;
  cp_UpdatedUnix : Z;
  cp_PendingTail : option RotatedTail;
}.

Definition new_checkpoint (stream path : gostr) : Checkpoint :=
  {| cp_Stream := stream; cp_Path := path; cp_Fingerprint := []; cp_FingerprintBytes := 0;
     cp_Offset := 0; cp_AckedOffset := 0; cp_UpdatedUnix := 0; cp_PendingTail := None |}.

Definition cp_at (offset acked now : Z) (cp : Checkpoint) : Checkpoint :=
  {| cp_Stream := cp_Stream cp; cp_Path := cp_Path cp; cp_Fingerprint := cp_Fingerprint cp;
     cp_FingerprintBytes := cp_FingerprintBytes cp; cp_Offset := offset; cp_AckedOffset := acked;
     cp_UpdatedUnix := now; cp_PendingTail := cp_PendingTail cp |}.
Definition cp_print (fp : gostr) (width : Z) (cp : Checkpoint) : Checkpoint :=
  {| cp_Stream := cp_Stream cp; cp_Path := cp_Path cp; cp_Fingerprint := fp;
     cp_FingerprintBytes := width; cp_Offset := cp_Offset cp; cp_AckedOffset := cp_AckedOffset cp;
     cp_UpdatedUnix := cp_UpdatedUnix cp; cp_PendingTail := cp_PendingTail cp |}.
Definition cp_tail (tail : option RotatedTail) (cp : Checkpoint) : Checkpoint :=
  {| cp_Stream := cp_Stream cp; cp_Path := cp_Path cp; cp_Fingerprint := cp_Fingerprint cp;
     cp_FingerprintBytes := cp_FingerprintBytes cp; cp_Offset := cp_Offset cp; cp_AckedOffset := cp_AckedOffset cp;
     cp_UpdatedUnix := cp_UpdatedUnix cp; cp_PendingTail := tail |}.

(** The files of the state directory that parse, by stream. *)
Abbreviation checkpoints := (gmap gostr Checkpoint).

(** [List]: the checkpoints that carry a pending tail. *)
Definition List (disk : checkpoints) : list Checkpoint :=
  filter (fun cp => bool_decide (is_Some (cp_PendingTail cp)) = true) (map snd (map_to_list disk)).

(** ** Fingerprints *)

Definition fingerprintBytes : Z := 4096.
Definition fingerprintPrefix : gostr := bs "v2:".
Definition legacyFingerprintBytes : Z := 256.

Definition fingerprintWidth (consumed : Z) : Z :=
  if consumed <=? 0 then 0
  else if consumed >? fingerprintBytes then fingerprintBytes
  else consumed.

(** SHA-256, not part of the source. *)
Class SHA256 := { Sum256 : gostr -> gostr }.

Section Fingerprints.
Context `{SHA256}.

Definition hex (s : gostr) : gostr := concat (map (fun b => [hex_digit (b2z b / 16); hex_digit (b2z b mod 16)]) s).

Definition StreamID (path : gostr) : gostr := hex (take 8 (Sum256 path)).
Definition fingerprintOf (head : gostr) : gostr := fingerprintPrefix ++ hex (take 16 (Sum256 head)).
Definition legacyFingerprintOf (head : gostr) : gostr := hex (take 8 (Sum256 head)).

(** The hash of a file's first bytes and how many there were. *)
Definition fingerprintAt (file : gostr) (width : Z) : gostr * Z :=
  if width <=? 0 then ([], 0)
  else let head := take (Z.to_nat width) file in (fingerprintOf head, zlen head).

Definition fingerprintMatches (file : gostr) (cp : Checkpoint) : bool :=
  if bytes_eqb (cp_Fingerprint cp) [] then false
  else if HasPrefix (cp_Fingerprint cp) fingerprintPrefix then
    let width := cp_FingerprintBytes cp in
    if width <=? 0 then false
    else let '(got, n) := fingerprintAt file width in (n =? width) && bytes_eqb got (cp_Fingerprint cp)
  else
    let head := take (Z.to_nat legacyFingerprintBytes) file in
    if zlen head <? legacyFingerprintBytes then false
    else bytes_eqb (cp_Fingerprint cp) (legacyFingerprintOf head).

(** [ensure]: the offset a file is first read from. *)
Definition start_offset (start_at : gostr) (saved : option Checkpoint) (file : gostr) : Z :=
  let start :=
    match saved with
    | Some cp => if negb (bytes_eqb start_at (bs "beginning")) && fingerprintMatches file cp then cp_AckedOffset cp else 0
    | None => if bytes_eqb start_at (bs "end") then zlen file else 0
    end in
  if start >? zlen file then 0 else start.
End Fingerprints.

(** ** A tailer *)

Record tailer : Type := {
  tl_stream : gostr;
  tl_labels : labels_t;
  tl_offset : Z;
  tl_ex : Stream;
  tl_fingerprint : gostr;
  tl_fingerprintAt : Z;
  tl_cp : Checkpoint;
  tl_lag : Z;
  tl_savedAt : Z;
  tl_saveOwed : bool;
}.

Definition with_reading (offset : Z) (ex : Stream) (t : tailer) : tailer :=
  {| tl_stream := tl_stream t; tl_labels := tl_labels t; tl_offset := offset; tl_ex := ex;
     tl_fingerprint := tl_fingerprint t; tl_fingerprintAt := tl_fingerprintAt t; tl_cp := tl_cp t; tl_lag := tl_lag t;
     tl_savedAt := tl_savedAt t; tl_saveOwed := tl_saveOwed t |}.
Definition with_lag (lag : Z) (t : tailer) : tailer :=
  {| tl_stream := tl_stream t; tl_labels := tl_labels t; tl_offset := tl_offset t; tl_ex := tl_ex t;
     tl_fingerprint := tl_fingerprint t; tl_fingerprintAt := tl_fingerprintAt t; tl_cp := tl_cp t; tl_lag := lag;
     tl_savedAt := tl_savedAt t; tl_saveOwed := tl_saveOwed t |}.
Definition with_save (cp : Checkpoint) (savedAt : Z) (owed : bool) (t : tailer) : tailer :=
  {| tl_stream := tl_stream t; tl_labels := tl_labels t; tl_offset := tl_offset t; tl_ex := tl_ex t;
     tl_fingerprint := tl_fingerprint t; tl_fingerprintAt := tl_fingerprintAt t; tl_cp := cp; tl_lag := tl_lag t;
     tl_savedAt := savedAt; tl_saveOwed := owed |}.

Definition setFingerprint (fp : gostr) (width : Z) (t : tailer) : tailer :=
  {| tl_stream := tl_stream t; tl_labels := tl_labels t; tl_offset := tl_offset t; tl_ex := tl_ex t;
     tl_fingerprint := fp; tl_fingerprintAt := width; tl_cp := cp_print fp width (tl_cp t); tl_lag := tl_lag t;
     tl_savedAt := tl_savedAt t; tl_saveOwed := tl_saveOwed t |}.

Definition checkpointSaveInterval : Z := 1000000000.

(** The record to write now, or one owed for later. *)
Definition takeSave (force : bool) (at_ : Z) (t : tailer) : tailer * option Checkpoint :=
  if negb force && negb (IsZero (tl_savedAt t)) && (time_sub at_ (tl_savedAt t) <? checkpointSaveInterval)
  then (with_save (tl_cp t) (tl_savedAt t) true t, None)
  else (with_save (tl_cp t) at_ false t, Some (tl_cp t)).

Definition dueSave (force : bool) (at_ : Z) (t : tailer) : tailer * option Checkpoint :=
  if tl_saveOwed t then takeSave force at_ t else (t, None).

Definition dropOwedSave (t : tailer) : tailer := with_save (tl_cp t) (tl_savedAt t) false t.

(** [commitInflight] of a tailer: the acknowledged position and the record
    that says so. *)
Definition commit_tailer (now at_ : Z) (p : progress) (t : tailer) : progress * tailer * option Checkpoint :=
  let '(p, moved) := commitInflight p in
  if moved then
    let '(t, cp) := takeSave false at_ (with_save (cp_at (pg_acked p) (pg_acked p) now (tl_cp t)) (tl_savedAt t) (tl_saveOwed t) t) in
    (p, t, cp)
  else (p, t, None).

(** [follower.EndFlush] on one tailer; [disk] is written through. *)
Definition follower_end (dropped : bool) (now at_ : Z) (p : progress) (t : tailer) (disk : checkpoints) : progress * tailer * checkpoints :=
  if dropped then ((markHoled p).1, t, disk)
  else
    let '(p, thawed) := clearHole p in
    if thawed then (p, t, disk)
    else
      let '(p, t, cp) := commit_tailer now at_ p t in
      (p, t, match cp with Some cp => <[cp_Stream cp := cp]> disk | None => disk end).

(** [persistOwed] on one tailer. *)
Definition persist_owed (force : bool) (at_ : Z) (t : tailer) (disk : checkpoints) : tailer * checkpoints :=
  let '(t, cp) := dueSave force at_ t in
  (t, match cp with Some cp => <[cp_Stream cp := cp]> disk | None => disk end).

(** ** Reading *)

Section Read.
Context `{FloatText} `{Regexp} `{TimeLib} `{JsonFloat} `{SHA256}.
Context {X : Type} (sample_of : X -> Sample) (mk : Sample -> X).
Context (cfg : SinkConfig) (world : nat -> Z * Z * reply).
Context (p : Profile) (aggSlot : list Z) (loc : location) (refTime from to : Z).
Context (MaxRecordBytes : Z) (me : nat).

(** The sink with its observers, and the number of requests sent. *)
Abbreviation outside := (Sink X * list progress * nat)%type.

Definition my_progress (w : outside) : option progress := w.1.2 !! me.
Definition on_progress (f : progress -> progress) (w : outside) : outside := (w.1.1, alter f me w.1.2, w.2).

Definition rewindOwed (w : outside) : bool :=
  match my_progress w with Some q => pg_rewind q | None => false end.
Definition replay_owed (w : outside) : bool :=
  match my_progress w with Some q => replayOwed q | None => false end.

(** Every result of a record is queued; the first error is kept.  [None]
    when the sink has no room and the call would wait. *)
Fixpoint add_results (t : tailer) (pos : gostr) (n : Z) (rs : list Result) (err : option sink_err) (w : outside)
    : option (option sink_err * outside) :=
  match rs with
  | [] => Some (err, w)
  | r :: rs' =>
      match Add sample_of cfg world mk false r (tl_labels t) (keyHint (tl_stream t) pos n) w.2 w.1 with
      | Blocked => None
      | Added e k so => add_results t pos (n + 1) rs' (match err with None => e | Some _ => err end) (so, k)
      end
  end.

(** The read head, pulled back to what the extractor still holds. *)
Definition syncPending (t : tailer) (w : outside) : tailer * outside :=
  let '(ex, at_) := HeldFrom (tl_ex t) in
  let pos := match at_ with Some f => if f <? tl_offset t then f else tl_offset t | None => tl_offset t end in
  (with_reading (tl_offset t) ex t, on_progress (setPending pos) w).

Definition widenFingerprint (file : gostr) (t : tailer) : tailer :=
  let width := fingerprintWidth (tl_offset t) in
  if width <=? tl_fingerprintAt t then t
  else let '(fp, n) := fingerprintAt file width in
       if n =? width then setFingerprint fp width t else t.

(** [file] is what the handle holds when the read head stops. *)
Definition atEOF (file : gostr) (t : tailer) : tailer :=
  let t := widenFingerprint file t in
  let lag := zlen file - tl_offset t in
  with_lag (if lag >? 0 then lag else 0) t.

Inductive read_error : Type :=
| ReadErr (code : Z)
| AddErr (e : sink_err).

(** One record: extracted, queued, published. *)
Definition read_one (now : Z) (rec : record) (t : tailer) (w : outside) : option (option sink_err * tailer * outside) :=
  let recStart := tl_offset t in
  let '(ex, results, _) := Process p aggSlot loc refTime from to now (rec_Line rec) (Mark recStart (tl_ex t)) in
  match add_results t (offsetPos recStart) 0 results None w with
  | None => None
  | Some (err, w) =>
      let '(t, w) := syncPending (with_reading (recStart + rec_Consumed rec) ex t) w in
      Some (err, t, w)
  end.

Context {R : Type} (ReadSlice : R -> gostr * read_err * R) (clock : nat -> Z).

(** The loop of [read]; [i] counts its turns.  [None] when the sink blocks
    or the fuel is short. *)
Fixpoint read_turns (fuel i : nat) (file : gostr) (r : R) (t : tailer) (w : outside) : option (option read_error * tailer * outside) :=
  match fuel with
  | O => None
  | S fuel =>
      if rewindOwed w then Some (None, t, w)
      else
        match readRecord ReadSlice (S (length file)) r MaxRecordBytes with
        | None => None
        | Some (rec, err, r) =>
            let over := negb (rec_Terminated rec) in
            if over && (rec_Consumed rec <=? MaxRecordBytes) then
              match err with
              | ReadFailed c => Some (Some (ReadErr c), t, w)
              | _ => Some (None, atEOF file t, w)
              end
            else
              match read_one (clock i) rec t w with
              | None => None
              | Some (Some e, t, w) => Some (Some (AddErr e), t, w)
              | Some (None, t, w) =>
                  if over then read_turns fuel (S i) file r t w
                  else
                    match err with
                    | ReadOK | BufferFull => read_turns fuel (S i) file r t w
                    | EOF => Some (None, atEOF file t, w)
                    | ReadFailed c => Some (Some (ReadErr c), t, w)
                    end
              end
        end
  end.

(** [applyRewind]: what the extractor holds is discarded. *)
Definition applyRewind (t : tailer) (w : outside) : tailer * outside :=
  match my_progress w with
  | None => (t, w)
  | Some q =>
      match takeRewind q with
      | (_, None) => (t, w)
      | (_, Some at_) =>
          let '(ex, _, _) := ExtractStream.Flush p aggSlot (tl_ex t) in
          (with_reading at_ ex t, on_progress (reset at_) w)
      end
  end.

(** [drainExtractor]; [seq] is the number [nextFlushPos] reserves. *)
Definition drainExtractor (seq : Z) (t : tailer) (w : outside) : option (tailer * outside) :=
  let '(ex, results, _) := ExtractStream.Flush p aggSlot (tl_ex t) in
  let t := with_reading (tl_offset t) ex t in
  match results with
  | [] => Some (syncPending t w)
  | _ =>
      match add_results t (flushPos seq) 0 results None w with
      | None => None
      | Some (_, w) => Some (syncPending t w)
      end
  end.

Definition drainOrDiscard (seq : Z) (t : tailer) (w : outside) : option (tailer * outside) :=
  if replay_owed w then
    let '(ex, _, _) := ExtractStream.Flush p aggSlot (tl_ex t) in Some (with_reading (tl_offset t) ex t, w)
  else drainExtractor seq t w.

(** [flushIdle] on one tailer. *)
Definition flush_idle (now seq : Z) (t : tailer) (w : outside) : option (tailer * outside) :=
  if replay_owed w then Some (t, w)
  else
    let '(ex, results, _) := FlushIdle p aggSlot now (tl_ex t) in
    let t := with_reading (tl_offset t) ex t in
    match results with
    | [] => Some (t, w)
    | _ =>
        match add_results t (flushPos seq) 0 results None w with
        | None => None
        | Some (_, w) => Some (syncPending t w)
        end
    end.

(** [drainFinalRecord]: the bytes after the read head of a handle that can
    grow no more; the reader starts at the read head. *)
Definition drainFinalRecord (now : Z) (file : gostr) (r : R) (t : tailer) (w : outside) : option (tailer * outside) :=
  match readRecord ReadSlice (S (length file)) r MaxRecordBytes with
  | None => None
  | Some (rec, err, _) =>
      let failed := match err with ReadOK | EOF => false | _ => true end in
      if rec_Terminated rec || bytes_eqb (rec_Line rec) [] || failed then Some (t, w)
      else match read_one now rec t w with
           | None => None
           | Some (_, t, w) => Some (t, w)
           end
  end.

(** ** Rotation *)

(** The truncation and rewrite test of [checkRotation]. *)
Definition rewritten (file : gostr) (t : tailer) : bool :=
  (zlen file <? tl_offset t) ||
  ((tl_fingerprintAt t >? 0) &&
   let '(current, n) := fingerprintAt file (tl_fingerprintAt t) in
   (n <? tl_fingerprintAt t) || negb (bytes_eqb current (tl_fingerprint t))).

(** What a rewritten file does to its tailer. *)
Definition restart (seq : Z) (t : tailer) (w : outside) : option (tailer * outside) :=
  match drainExtractor seq t w with
  | None => None
  | Some (t, w) => Some (setFingerprint [] 0 (with_reading 0 (tl_ex t) t), on_progress (reset 0) w)
  end.

(** [finishRotated]: the loop over the records of a renamed file, from its
    offset.  The stream of a tailer stands for the extractor here. *)
Fixpoint rotated_turns (fuel i : nat) (file : gostr) (r : R) (off : Z) (t : tailer) (w : outside) : option (option Z * Z * tailer * outside) :=
  match fuel with
  | O => None
  | S fuel =>
      match readRecord ReadSlice (S (length file)) r MaxRecordBytes with
      | None => None
      | Some (rec, err, r) =>
          let whole := rec_Terminated rec || match err with EOF => true | _ => false end in
          match
            (if (zlen (rec_Line rec) >? 0) && whole then
               let '(ex, results, _) := Process p aggSlot loc refTime from to (clock i) (rec_Line rec) (Mark off (tl_ex t)) in
               let t := with_reading (tl_offset t) ex t in
               match add_results t (offsetPos off) 0 results None w with
               | None => None
               | Some (_, w) => Some (off + rec_Consumed rec, t, w)
               end
             else Some (off, t, w))
          with
          | None => None
          | Some (off, t, w) =>
              match err with
              | ReadOK | BufferFull => rotated_turns fuel (S i) file r off t w
              | EOF => Some (None, off, t, w)
              | ReadFailed c => Some (Some c, off, t, w)
              end
          end
      end
  end.

(** The rest of [finishRotated]: what the extractor holds and the flush.
    [open_at] is the reader at an offset; [None] for an error tells that
    the tail is done with. *)
Definition finishRotated (open_at : Z -> R) (fuel : nat) (file : gostr) (tail : RotatedTail) (t : tailer) (w : outside)
    : option (option read_error * tailer * outside) :=
  let off := if rt_Offset tail >? zlen file then 0 else rt_Offset tail in
  match rotated_turns fuel 0 file (open_at off) off t w with
  | None => None
  | Some (Some c, _, t, w) => Some (Some (ReadErr c), t, w)
  | Some (None, off, t, w) =>
      let '(ex, results, _) := ExtractStream.Flush p aggSlot (tl_ex t) in
      let t := with_reading (tl_offset t) ex t in
      match add_results t (offsetPos off) 0 results None w with
      | None => None
      | Some (_, w) =>
          let '(err, n, so) := IngestSink.Flush sample_of cfg world w.2 w.1 in
          Some (AddErr <$> err, t, (so, n))
      end
  end.

(** [recoverRotated] on one checkpoint: the tail is forgotten when
    [finishRotated] reports no error. *)
Definition recover_one (open_at : Z -> R) (fuel : nat) (file : gostr) (cp : Checkpoint) (t : tailer) (w : outside) (disk : checkpoints)
    : option (outside * checkpoints) :=
  match cp_PendingTail cp with
  | None => Some (w, disk)
  | Some tail =>
      match finishRotated open_at fuel file tail t w with
      | None => None
      | Some (Some _, _, w) => Some (w, disk)
      | Some (None, _, w) => let cp := cp_tail None cp in Some (w, <[cp_Stream cp := cp]> disk)
      end
  end.

(** ** Retiring *)

(** [renamed] is what [findSameFile] found. *)
Definition noteRotated (renamed : option gostr) (q : progress) (t : tailer) (disk : checkpoints) : checkpoints :=
  match renamed with
  | None => disk
  | Some path =>
      let cp := cp_tail (Some {| rt_Path := path; rt_Offset := pg_acked q; rt_Fingerprint := tl_fingerprint t;
                                 rt_FingerprintBytes := tl_fingerprintAt t |}) (tl_cp t) in
      <[cp_Stream cp := cp]> disk
  end.

(** [closeTailer] of a rotated path: drain, flush, and a record that starts
    the replacement at zero.  The pending tail on disk survives only when
    the flush failed. *)
Definition close_rotated (seq now : Z) (t : tailer) (w : outside) (disk : checkpoints) : option (tailer * outside * checkpoints) :=
  match drainExtractor seq t w with
  | None => None
  | Some (t, w) =>
      let t := dropOwedSave t in
      let '(err, n, so) := IngestSink.Flush sample_of cfg world w.2 w.1 in
      let t := setFingerprint [] 0 (with_reading 0 (tl_ex t) t) in
      let cp := cp_at 0 0 now (tl_cp t) in
      let cp := match err, disk !! tl_stream t with
                | Some _, Some had => cp_tail (cp_PendingTail had) cp
                | _, _ => cp
                end in
      Some (t, on_progress (reset 0) (so, n), <[cp_Stream cp := cp]> disk)
  end.

(** [closeTailer] of a path that left the followed set. *)
Definition close_keeping (seq at_ : Z) (t : tailer) (w : outside) (disk : checkpoints) : option (tailer * outside * checkpoints) :=
  match drainOrDiscard seq t w with
  | None => None
  | Some (t, w) => let '(t, disk) := persist_owed true at_ t disk in Some (t, w, disk)
  end.

(** [retire]. *)
Definition retire (now seq : Z) (file : gostr) (r : R) (t : tailer) (w : outside) (disk : checkpoints) : option (tailer * outside * checkpoints) :=
  match drainFinalRecord now file r t w with
  | None => None
  | Some (t, w) => close_rotated seq now t w disk
  end.
End Read.

(** * Lemmas on following a file

    Whatever the sink tells its observers keeps a source's positions behind
    any bound they were behind; so reading keeps them behind the read head,
    and the read head inside the file. *)


(** ** Observers *)

(** A predicate on one observer that every notification keeps. *)
Class Stable {Obs} `{DeliveryObserver Obs} (P : Obs -> Prop) : Prop := {
  stable_begin : forall o, P o -> P (BeginFlush o);
  stable_end : forall n dropped o, P o -> P (EndFlush n dropped o);
}.

Section Observers.
Context {X : Type} (sample_of : X -> Sample) `{JsonFloat} {Obs : Type} `{DeliveryObserver Obs}.
Context (cfg : SinkConfig) (world : nat -> Z * Z * reply) (P : Obs -> Prop) `{!Stable P} (me : nat).
Implicit Types (s : Sink X) (obs : list Obs).

Definition mine obs : Prop := forall o, obs !! me = Some o -> P o.

Lemma mine_map f obs : (forall o, P o -> P (f o)) -> mine obs -> mine (map f obs).
Proof.
  intros Hf Hm o. rewrite list_lookup_fmap. intros (o' & Ho & ->)%fmap_Some. apply Hf, (Hm o' Ho).
Qed.

Lemma mine_begin obs : mine obs -> mine (map BeginFlush obs).
Proof. apply mine_map, stable_begin. Qed.
Lemma mine_end n dropped obs : mine obs -> mine (map (EndFlush n dropped) obs).
Proof. apply mine_map, stable_end. Qed.

Lemma flush_begin_mine now s obs : mine obs -> mine (flush_begin sample_of cfg now (s, obs)).2.2.
Proof.
  intros Hm. unfold flush_begin. destruct (holding now s); [done|]. destruct (_ =? 0); [done|].
  destruct (takeLocked sample_of _ _) as [[[batches count] partial] s']. cbn.
  destruct partial; [done | by apply mine_begin].
Qed.

Lemma flush_end_mine b now r s obs : mine obs -> mine (flush_end (X := X) cfg b now r (s, obs)).2.2.
Proof.
  intros Hm. destruct b as [|meta sets|meta sets batches count partial]; cbn [flush_end]; [done | |].
  - by destruct (meta_end _ _ _ _ _).
  - destruct r as [resp|e]; [cbn; destruct partial; [done | by apply mine_end]|].
    unfold send_failed. destruct (e_fatal e) as [status|]; [|by repeat break_if].
    destruct (if status =? TooLarge then _ else _) as [s' again]. destruct again; [done|].
    unfold drop_batch. destruct (_ && _); cbn; apply mine_end; destruct partial; auto using mine_begin.
Qed.

Lemma flushRound_mine n s obs : mine obs -> mine (flushRound sample_of cfg world n (s, obs)).2.2.
Proof.
  intros Hm. unfold flushRound. destruct (world n) as [[before after] r].
  pose proof (flush_begin_mine before s obs Hm) as Hb. destruct (flush_begin _ _ _ _) as [b [s' obs']].
  by apply flush_end_mine.
Qed.

Lemma flush_rounds_mine rounds : forall n s obs, mine obs -> mine (flush_rounds sample_of cfg world rounds n (s, obs)).2.2.
Proof.
  induction rounds as [|rounds IH]; intros n s obs Hm; cbn [flush_rounds];
    pose proof (flushRound_mine n s obs Hm) as Hr; destruct (flushRound _ _ _ _ _) as [[more err] [s' obs']];
    destruct err, more; try done. by apply IH.
Qed.

Lemma AddSample_mine ctx set x n s obs :
  mine obs -> match AddSample sample_of cfg world ctx set x n (s, obs) with Added _ _ so => mine so.2 | Blocked => True end.
Proof.
  intros Hm. unfold AddSample. destruct (encodable _ _) as [ok s']. destruct ok; cbn [negb]; [|done].
  destruct (has_room _ _); cbn [negb]; [|by destruct ctx].
  destruct (_ >=? _); [|done]. unfold Flush.
  pose proof (flush_rounds_mine (maxFlushRounds - 1) n (enqueue set x s') obs Hm) as Hf.
  by destruct (flush_rounds _ _ _ _ _ _) as [[err k] [s2 obs2]].
Qed.
End Observers.

(** ** Positions *)

(** Every position is at most [b]. *)
Definition behind (b : Z) (q : progress) : Prop := pg_pending q <= b /\ pg_inflight q <= b /\ pg_acked q <= b.

#[export] Instance behind_stable b : Stable (behind b).
Proof.
  unfold behind. split; cbn.
  - intros q (? & ? & ?). unfold markInflight. by destruct (pg_rewind q).
  - intros _ dropped q (? & ? & ?). unfold end_flush, markHoled, clearHole, commitInflight. by repeat break_if.
Qed.

Lemma behind_mono b b' q : b <= b' -> behind b q -> behind b' q.
Proof. unfold behind. lia. Qed.

Lemma setPending_behind b n q : n <= b -> behind b q -> behind b (setPending n q).
Proof. unfold behind, setPending. intros ? (? & ? & ?). destruct (pg_rewind q); cbn; lia. Qed.

Lemma reset_behind b q : behind b (reset b q).
Proof. unfold behind. cbn. lia. Qed.

(** ** Reading *)

Lemma read_loop_fuel {R} (rs : R -> gostr * read_err * R) fuel : forall fuel' max rec r x,
  (fuel <= fuel')%nat -> read_loop rs fuel max rec r = Some x -> read_loop rs fuel' max rec r = Some x.
Proof.
  induction fuel as [|fuel IH]; intros [|fuel'] max rec r x Hle Hx; try done; [lia|].
  cbn [read_loop] in *. destruct (rs r) as [[c e] r']. destruct e; try done. apply IH; [lia | done].
Qed.

(** One framed record of the rest [s] of a file: what is consumed, and the
    rest after it. *)
Lemma read_rest n max fuel s :
  n <> 0%nat -> zlen s < two63 -> (length s < fuel)%nat ->
  exists rec err rest, readRecord (bufio n) fuel s max = Some (rec, err, rest) /\
    rec_Consumed rec + zlen rest = zlen s /\ 0 <= rec_Consumed rec /\
    (rec_Terminated rec = true -> 1 <= rec_Consumed rec /\ err = ReadOK) /\
    (rec_Terminated rec = false -> rest = [] /\ err = EOF).
Proof.
  intros Hn Hs Hf. destruct (cut_line s) as [[body rest]|] eqn:Hcut.
  - pose proof (read_stream_line n max s body rest Hn Hs Hcut) as Hr. destruct (framed_line n (recordCap max) body) as [line over].
    apply cut_line_spec in Hcut as [-> _]. eexists _, ReadOK, rest.
    split; [apply (read_loop_fuel _ (S (length (body ++ x0a :: rest)))); [lia | exact Hr]|]. cbn [rec_Consumed rec_Terminated].
    rewrite zlen_app, zlen_cons. pose proof (zlen_nonneg body). split_and!; [lia | lia | intros _; split; [lia | done] | done].
  - pose proof (read_stream_eof n max s Hn Hs Hcut) as Hr. eexists _, _, [].
    split; [apply (read_loop_fuel _ (S (length s))); [lia | exact Hr]|]. cbn. change (zlen (@nil byte)) with 0.
    pose proof (zlen_nonneg s). split_and!; (done || lia).
Qed.

Section Read.
Context `{FloatText} `{Regexp} `{TimeLib} `{JsonFloat} `{SHA256}.
Context {X : Type} (sample_of : X -> Sample) (mk : Sample -> X).
Context (cfg : SinkConfig) (world : nat -> Z * Z * reply).
Context (p : Profile) (aggSlot : list Z) (loc : location) (refTime from to : Z).
Context (MaxRecordBytes : Z) (me : nat) (n : nat) (clock : nat -> Z).
Abbreviation outside := (Sink X * list progress * nat)%type.
Implicit Types (t : tailer) (w : outside).

Abbreviation add_all := (add_results sample_of mk cfg world).
Abbreviation one := (read_one sample_of mk cfg world p aggSlot loc refTime from to me).
Abbreviation turns := (read_turns sample_of mk cfg world p aggSlot loc refTime from to MaxRecordBytes me (bufio n) clock).

Definition positions (b : Z) w : Prop := mine (behind b) me w.1.2.

Lemma add_results_positions b t pos rs : forall k err w,
  positions b w -> match add_all t pos k rs err w with Some (_, w') => positions b w' | None => True end.
Proof.
  induction rs as [|r rs IH]; intros k err w Hw; cbn [add_results]; [done|].
  unfold Add. destruct w as [[s obs] j]. cbn [fst snd] in *.
  pose proof (AddSample_mine sample_of cfg world (behind b) me false (r_Set r)
    (mk (sample_of_result r (tl_labels t) (keyHint (tl_stream t) pos k))) j s obs Hw) as Ha.
  destruct (AddSample _ _ _ _ _ _ _ _) as [e j' so|]; [|done]. by apply IH.
Qed.

Lemma on_progress_positions b f w : (forall q, behind b q -> behind b (f q)) -> positions b w -> positions b (on_progress me f w).
Proof.
  intros Hf Hw q. unfold on_progress. cbn. rewrite list_lookup_alter_eq. intros (q' & Hq & ->)%fmap_Some. apply Hf, (Hw q' Hq).
Qed.

Lemma read_one_positions now rec t w :
  0 <= rec_Consumed rec -> positions (tl_offset t) w ->
  match one now rec t w with
  | Some (_, t', w') => tl_offset t' = tl_offset t + rec_Consumed rec /\ positions (tl_offset t') w'
  | None => True
  end.
Proof.
  intros Hc Hw. unfold read_one. destruct (Process _ _ _ _ _ _ _ _ _) as [[ex results] verdict].
  pose proof (add_results_positions (tl_offset t) t (offsetPos (tl_offset t)) results 0 None w Hw) as Ha.
  destruct (add_all _ _ _ _ _ _) as [[err w']|]; [|done]. unfold syncPending.
  cbn [tl_ex with_reading tl_offset]. destruct (HeldFrom ex) as [ex' held]. split; [done|].
  cbn [tl_offset with_reading]. apply on_progress_positions.
  - intros q. apply setPending_behind. destruct held as [h|]; [destruct (Z.ltb_spec h (tl_offset t + rec_Consumed rec))|]; lia.
  - intros q Hq. apply (behind_mono (tl_offset t)); [lia | by apply Ha].
Qed.

Lemma atEOF_offset file t : tl_offset (atEOF file t) = tl_offset t.
Proof. unfold atEOF, widenFingerprint. destruct (_ <=? _); [done|]. destruct (fingerprintAt _ _) as [fp k]. by destruct (k =? _). Qed.

Lemma read_turns_positions file fuel : forall i s t w,
  n <> 0%nat -> zlen file < two63 -> tl_offset t + zlen s = zlen file -> 0 <= tl_offset t -> positions (tl_offset t) w ->
  match turns fuel i file s t w with
  | Some (_, t', w') => tl_offset t <= tl_offset t' <= zlen file /\ positions (tl_offset t') w'
  | None => True
  end.
Proof.
  induction fuel as [|fuel IH]; intros i s t w Hn Hfile Hs Hoff Hw; cbn [read_turns]; [done|].
  pose proof (zlen_nonneg s). destruct (rewindOwed me w); [split; [lia | done]|].
  destruct (read_rest n MaxRecordBytes (S (length file)) s Hn ltac:(lia) ltac:(unfold zlen in *; lia))
    as (rec & err & rest & -> & Hc & Hpos & Hterm & Hunterm).
  destruct (negb (rec_Terminated rec) && (rec_Consumed rec <=? MaxRecordBytes)).
  { destruct err; rewrite ?atEOF_offset; (split; [lia | done]). }
  pose proof (read_one_positions (clock i) rec t w Hpos Hw) as Hone.
  destruct (one (clock i) rec t w) as [[[e t'] w']|]; [|done]. destruct Hone as [Ho Hw'].
  pose proof (zlen_nonneg rest).
  assert (Hnext : match turns fuel (S i) file rest t' w' with
    | Some (_, t2, w2) => tl_offset t <= tl_offset t2 <= zlen file /\ positions (tl_offset t2) w2 | None => True end).
  { pose proof (IH (S i) rest t' w' Hn Hfile ltac:(lia) ltac:(lia) Hw') as Hi.
    destruct (turns fuel (S i) file rest t' w') as [[[e2 t2] w2]|]; [|done]. destruct Hi. split; [lia | done]. }
  destruct e; [split; [lia | done]|]. destruct (negb (rec_Terminated rec)); [done|].
  destruct err; rewrite ?atEOF_offset; first [exact Hnext | split; [lia | done]].
Qed.

(** A turn that goes on has consumed something. *)
Lemma read_turns_fuel_S file fuel : forall i s t w,
  n <> 0%nat -> 0 <= MaxRecordBytes -> zlen file < two63 -> (length s <= length file)%nat -> (length s + 1 < fuel)%nat ->
  turns (S fuel) i file s t w = turns fuel i file s t w.
Proof.
  induction fuel as [|fuel IH]; intros i s t w Hn Hmax Hfile Hs Hfuel; [lia|].
  remember (S fuel) as big eqn:Hbig. cbn [read_turns]. replace (turns big i file s t w) with (turns (S fuel) i file s t w) by (by rewrite Hbig). cbn [read_turns].
  destruct (rewindOwed me w); [done|].
  destruct (read_rest n MaxRecordBytes (S (length file)) s Hn ltac:(unfold zlen in *; lia) ltac:(lia))
    as (rec & err & rest & -> & Hc & Hpos & Hterm & Hunterm).
  destruct (rec_Terminated rec) eqn:Ht; cbn [negb andb].
  - destruct (Hterm eq_refl) as [Hone ->]. destruct (one _ _ _ _) as [[[[e|] t'] w']|]; try done.
    subst big. apply IH; unfold zlen in *; (done || lia).
  - destruct (Hunterm eq_refl) as [-> ->]. change (zlen (@nil byte)) with 0 in Hc.
    destruct (Z.leb_spec (rec_Consumed rec) MaxRecordBytes); [done|].
    destruct (one _ _ _ _) as [[[[e|] t'] w']|]; try done. subst big. apply IH; unfold zlen in *; cbn; (done || lia).
Qed.
End Read.
