(* ===== verification/IngestDelivery.v ===== *)
(** * Delivery: readers, the sink and the store, interleaved

    Readers hand samples to one sink and publish positions; a flush takes a
    batch, the store answers, and the observers move the readers' positions.
    The steps of [reaches] are those critical sections, in any order: a
    flush is serialised with itself alone, so readers run between its two
    halves.  Each sample carries who handed it, in which pass over the
    source and as which of that pass; what was handed before a position was
    published is kept beside the position, so that the invariant can say
    what an acknowledged position promises. *)

From Stdlib Require Import ZArith Lia Bool Strings.Byte Strings.String.
From stdpp Require Import gmap.
From S2P Require Import Prelude Bytes Float64 GoStd GoText Model Wire ExtractHistogram ExtractTimestamp ExtractStream IngestSink.
From S2P Require Import IngestSinkProofs IngestSink.

(** ** States *)

(** A sample and its origin: the reader, the pass, the place in the pass. *)
Record origin : Type := { og_reader : nat; og_pass : nat; og_index : nat }.
Abbreviation tagged := (Sample * origin)%type.

(** A reader's positions, and for each the number of samples of this pass
    handed over when it was published; the log of publications. *)
Record reader : Type := {
  rd_pos : progress;
  rd_pass : nat;
  rd_handed : nat;
  rd_start : Z;
  rd_log : list (Z * nat);
  rd_pending : nat;
  rd_inflight : nat;
  rd_acked : nat;
}.

Definition new_reader (at_ : Z) : reader :=
  {| rd_pos := reset at_ newRemoteProgress; rd_pass := 0; rd_handed := 0; rd_start := at_; rd_log := [];
     rd_pending := 0; rd_inflight := 0; rd_acked := 0 |}.

Definition moved (pos : progress) (log : list (Z * nat)) (pending inflight acked : nat) (r : reader) : reader :=
  {| rd_pos := pos; rd_pass := rd_pass r; rd_handed := rd_handed r; rd_start := rd_start r; rd_log := log;
     rd_pending := pending; rd_inflight := inflight; rd_acked := acked |}.

(** The operations of [progress], with what they mean for the counts. *)
Definition publish (n : Z) (r : reader) : reader :=
  let pos := setPending n (rd_pos r) in
  if pg_rewind (rd_pos r) then moved pos (rd_log r) (rd_pending r) (rd_inflight r) (rd_acked r) r
  else moved pos ((n, rd_handed r) :: rd_log r) (rd_handed r) (rd_inflight r) (rd_acked r) r.

Definition begin_reader (r : reader) : reader :=
  moved (markInflight (rd_pos r)) (rd_log r) (rd_pending r)
    (if pg_rewind (rd_pos r) then rd_inflight r else rd_pending r) (rd_acked r) r.

Definition end_reader (dropped : bool) (r : reader) : reader :=
  let q := rd_pos r in
  let pos := end_flush dropped q in
  if dropped then moved pos (rd_log r) (rd_pending r) (rd_inflight r) (rd_acked r) r
  else if pg_holed q then moved pos (rd_log r) (rd_acked r) (rd_acked r) (rd_acked r) r
  else if snd (commitInflight q) then moved pos (rd_log r) (rd_pending r) (rd_inflight r) (rd_inflight r) r
  else moved pos (rd_log r) (rd_pending r) (rd_inflight r) (rd_acked r) r.

#[export] Instance reader_observer : DeliveryObserver reader := {
  BeginFlush := begin_reader;
  EndFlush _ dropped := end_reader dropped;
}.

(** The observer of the code sees the positions alone. *)
Lemma begin_pos r : rd_pos (BeginFlush r) = BeginFlush (rd_pos r).
Proof. done. Qed.
Lemma end_pos n dropped r : rd_pos (EndFlush n dropped r) = EndFlush n dropped (rd_pos r).
Proof. cbn. unfold end_reader. by repeat break_if. Qed.

(** A new pass over the source, from [to]. *)
Definition restart_reader (to : Z) (r : reader) : reader :=
  {| rd_pos := reset to (rd_pos r); rd_pass := S (rd_pass r); rd_handed := 0; rd_start := to; rd_log := [];
     rd_pending := 0; rd_inflight := 0; rd_acked := 0 |}.

Definition hand (r : reader) : reader :=
  {| rd_pos := rd_pos r; rd_pass := rd_pass r; rd_handed := S (rd_handed r); rd_start := rd_start r; rd_log := rd_log r;
     rd_pending := rd_pending r; rd_inflight := rd_inflight r; rd_acked := rd_acked r |}.

Record system : Type := {
  y_sink : Sink tagged;
  y_readers : list reader;
  y_flight : option (@begun tagged);
  y_added : list (gostr * tagged);
  y_settled : list (gostr * tagged);
  y_delivered : list tagged;
  y_lost : list tagged;
}.

Definition batches_of (f : option (@begun tagged)) : list (gostr * list tagged) :=
  match f with Some (Sent _ _ batches _ _) => batches | _ => [] end.

(** The samples of batches, with their sets. *)
Definition labelled (batches : list (gostr * list tagged)) : list (gostr * tagged) :=
  concat (map (fun b => pair b.1 <$> b.2) batches).

Section Delivery.
Context `{JsonFloat} (cfg : SinkConfig).

Inductive fate : Type := Delivered | Returned | Lost.

(** What becomes of a batch, as [flush_end] decides it. *)
Definition fate_of (r : reply) (s : Sink tagged) : fate :=
  match r with
  | Replied _ => Delivered
  | Failed e =>
      match e_fatal e with
      | Some status => if (status =? TooLarge) && (shrinkBatchBytes cfg s).2 then Returned else Lost
      | None => Returned
      end
  end.

(** ** Steps *)

Definition add_step (i : nat) (set : gostr) (smp : Sample) (y : system) : system :=
  match y_readers y !! i with
  | None => y
  | Some r =>
      let '(ok, s) := encodable smp (y_sink y) in
      if ok then
        let x := (smp, {| og_reader := i; og_pass := rd_pass r; og_index := rd_handed r |}) in
        {| y_sink := enqueue set x s; y_readers := <[i := hand r]> (y_readers y); y_flight := y_flight y;
           y_added := y_added y ++ [(set, x)]; y_settled := y_settled y; y_delivered := y_delivered y; y_lost := y_lost y |}
      else
        {| y_sink := s; y_readers := y_readers y; y_flight := y_flight y; y_added := y_added y;
           y_settled := y_settled y; y_delivered := y_delivered y; y_lost := y_lost y |}
  end.

Definition on_reader (f : reader -> reader) (i : nat) (y : system) : system :=
  {| y_sink := y_sink y; y_readers := alter f i (y_readers y); y_flight := y_flight y; y_added := y_added y;
     y_settled := y_settled y; y_delivered := y_delivered y; y_lost := y_lost y |}.

Definition rewind_step (r : reader) : reader :=
  match (takeRewind (rd_pos r)).2 with Some at_ => restart_reader at_ r | None => r end.

Definition begin_step (now : Z) (y : system) : system :=
  let '(b, (s, rs)) := flush_begin fst cfg now (y_sink y, y_readers y) in
  {| y_sink := s; y_readers := rs; y_flight := Some b; y_added := y_added y;
     y_settled := y_settled y; y_delivered := y_delivered y; y_lost := y_lost y |}.

Definition end_step (b : begun) (now : Z) (r : reply) (y : system) : system :=
  let f := fate_of r (y_sink y) in
  let '(_, _, (s, rs)) := flush_end cfg b now r (y_sink y, y_readers y) in
  let bs := batches_of (Some b) in
  {| y_sink := s; y_readers := rs; y_flight := None; y_added := y_added y;
     y_settled := y_settled y ++ (match f with Returned => [] | _ => labelled bs end);
     y_delivered := y_delivered y ++ (match f with Delivered => items bs | _ => [] end);
     y_lost := y_lost y ++ (match f with Lost => items bs | _ => [] end) |}.

(** What the code takes for granted when it leaves a reader alone: a reader
    with nothing in flight has no sample in a lost batch. *)
Definition contributors_in_flight (b : begun) (y : system) : Prop :=
  forall i r x, y_readers y !! i = Some r -> x ∈ items (batches_of (Some b)) ->
    og_reader x.2 = i -> og_pass x.2 = rd_pass r ->
    pg_holed (rd_pos r) = true \/ pg_rewind (rd_pos r) = true \/
    pg_acked (rd_pos r) < (if match b with Sent _ _ _ _ partial => partial | _ => false end
                           then pg_pending (rd_pos r) else pg_inflight (rd_pos r)).

(** [safe] says which losses may happen. *)
Inductive reaches (safe : begun -> system -> Prop) : system -> Prop :=
| reach_init starts :
    reaches safe {| y_sink := NewSink cfg; y_readers := map new_reader starts; y_flight := None;
                    y_added := []; y_settled := []; y_delivered := []; y_lost := [] |}
| reach_add y i set smp :
    reaches safe y -> has_room cfg (y_sink y) = true -> reaches safe (add_step i set smp y)
| reach_publish y i n : reaches safe y -> reaches safe (on_reader (publish n) i y)
| reach_rewind y i : reaches safe y -> reaches safe (on_reader rewind_step i y)
| reach_restart y i to : reaches safe y -> reaches safe (on_reader (restart_reader to) i y)
| reach_begin y now : reaches safe y -> y_flight y = None -> reaches safe (begin_step now y)
| reach_end y b now r :
    reaches safe y -> y_flight y = Some b ->
    (fate_of r (y_sink y) = Lost -> safe b y) ->
    reaches safe (end_step b now r y).
End Delivery.

(** * The invariant of delivery

    What a reader's positions promise ([reader_ok]), kept by each of its
    own operations; what the two halves of a flush do with the samples
    ([flush_begin_spec], [flush_end_spec]); and the invariant of the whole
    system, by induction on the steps. *)


(** ** One reader *)

(** A reader whose checkpoint may move. *)
Definition live (r : reader) : bool := negb (pg_holed (rd_pos r)) && negb (pg_rewind (rd_pos r)).

Definition tag (i : nat) (r : reader) (j : nat) : origin := {| og_reader := i; og_pass := rd_pass r; og_index := j |}.

(** [n] samples of this pass had been handed over when [pos] was published;
    none had at the start of the pass. *)
Definition published (r : reader) (pos : Z) (n : nat) : Prop := (pos, n) = (rd_start r, 0%nat) \/ (pos, n) ∈ rd_log r.

(** [D]: the store holds the sample; [C]: the store holds it, or it is on
    its way or buffered; [F]: the store holds it or the batch on its way
    does, when the observers were told of that batch. *)
Record reader_ok (D C : origin -> Prop) (F : option (origin -> Prop)) (i : nat) (r : reader) : Prop := {
  ok_counts : (rd_acked r <= rd_inflight r <= rd_pending r)%nat /\ (rd_pending r <= rd_handed r)%nat;
  ok_acked : forall j, (j < rd_acked r)%nat -> D (tag i r j);
  ok_live : live r = true -> forall j, (j < rd_handed r)%nat -> C (tag i r j);
  ok_flight : forall P, F = Some P -> live r = true -> forall j, (j < rd_inflight r)%nat -> P (tag i r j);
  ok_log : published r (pg_acked (rd_pos r)) (rd_acked r) /\ published r (pg_inflight (rd_pos r)) (rd_inflight r) /\
           published r (pg_pending (rd_pos r)) (rd_pending r);
  ok_rewind : pg_rewind (rd_pos r) = true -> pg_holed (rd_pos r) = false /\ pg_inflight (rd_pos r) = pg_acked (rd_pos r);
}.

Lemma published_log n k r pos m : published r pos m -> (pos, m) = (rd_start r, 0%nat) \/ (pos, m) ∈ (n, k) :: rd_log r.
Proof. intros [H | H]; [by left | right; by right]. Qed.

Create HintDb ingest.
#[export] Hint Resolve published_log : ingest.

Section Reader.
Context (D C : origin -> Prop) (F : option (origin -> Prop)) (i : nat).
Implicit Type r : reader.

Lemma reader_ok_mono (D' C' : origin -> Prop) F' r :
  (forall o, D o -> D' o) -> (forall o, C o -> C' o) ->
  (forall P', F' = Some P' -> exists P, F = Some P /\ forall o, P o -> P' o) ->
  reader_ok D C F i r -> reader_ok D' C' F' i r.
Proof.
  intros HD HC HF [? Ha Hl Hf ? ?]. split; auto.
  intros P' HP' Hlive j Hj. destruct (HF P' HP') as (P & HP & Hsub). apply Hsub. by apply (Hf P HP Hlive).
Qed.

Lemma new_reader_ok at_ : reader_ok D C F i (new_reader at_).
Proof. split; cbn; try lia; try done. by split_and!; left. Qed.

Lemma restart_ok to r : reader_ok D C F i (restart_reader to r).
Proof. split; cbn; try lia; try done. by split_and!; left. Qed.

Lemma hand_ok r : C (tag i r (rd_handed r)) -> reader_ok D C F i r -> reader_ok D C F i (hand r).
Proof.
  intros Hc [[? ?] Ha Hl Hf Hlog Hr]. split; cbn; auto; try lia.
  intros Hlive j Hj. destruct (decide (j = rd_handed r)) as [-> | Hne]; [done|]. apply Hl; [done | lia].
Qed.

Lemma publish_ok n r : reader_ok D C F i r -> reader_ok D C F i (publish n r).
Proof.
  intros [[? ?] Ha Hl Hf (H1 & H2 & H3) Hr]. unfold publish, setPending.
  destruct (pg_rewind (rd_pos r)) eqn:Hrew; split; cbn; rewrite ?Hrew; auto; try done; try lia.
  - unfold live in *. cbn in *. intros Hh. apply Hl. by rewrite Hrew.
  - unfold live in *. cbn in *. intros P HP Hh. apply (Hf P HP). by rewrite Hrew.
  - split_and!; [unfold published in *; cbn; eauto with ingest .. | right; left].
Qed.

Lemma rewind_step_ok r : reader_ok D C F i r -> reader_ok D C F i (rewind_step r).
Proof. unfold rewind_step. intros Hr. destruct (takeRewind _).2; [apply restart_ok | done]. Qed.
End Reader.

Section Flush.
Context (D C : origin -> Prop) (i : nat).
Implicit Type r : reader.

Lemma begin_same r : live (begin_reader r) = live r.
Proof. unfold live, begin_reader, markInflight. cbn. by destruct (pg_rewind (rd_pos r)) eqn:E; cbn; rewrite ?E. Qed.

(** Once the buffers are empty, a live reader's batch holds all it handed. *)
Lemma begin_ok P r :
  (forall o, C o -> P o) -> reader_ok D C None i r -> reader_ok D C (Some P) i (begin_reader r).
Proof.
  intros HCP [[? ?] Ha Hl _ (H1 & H2 & H3) Hr]. unfold begin_reader, markInflight.
  destruct (pg_rewind (rd_pos r)) eqn:Hrew; split; cbn; rewrite ?Hrew; auto; try done; try lia.
  - unfold live in *. cbn. by rewrite ?Hrew, ?andb_false_r.
  - unfold live in *. cbn in *. intros Hh. apply Hl. by rewrite Hrew.
  - unfold live in *. cbn in *. intros P' [= <-] Hh j Hj. apply HCP, Hl; [by rewrite Hrew | lia].
Qed.

(** A commit or a thaw: what the batch held is delivered. *)
Lemma end_delivered_ok P r :
  (forall o, P o -> D o) -> reader_ok D C (Some P) i r -> reader_ok D C None i (end_reader false r).
Proof.
  intros HPD [[? ?] Ha Hl Hf (H1 & H2 & H3) Hr]. unfold end_reader, end_flush, clearHole, commitInflight.
  destruct (pg_holed (rd_pos r)) eqn:Hh; cbn.
  - by split; cbn; auto; try lia.
  - destruct (Z.leb_spec (pg_inflight (rd_pos r)) (pg_acked (rd_pos r))) as [Hle | Hgt]; cbn.
    + split; cbn; rewrite ?Hh; auto; done.
    + destruct (pg_rewind (rd_pos r)) eqn:Hrew; [destruct (Hr eq_refl) as [? Heq]; lia|].
      assert (live r = true) as Hlive by (unfold live; by rewrite Hh, Hrew).
      split; cbn; auto; try done; try lia.
      * intros j Hj. apply HPD, (Hf P); auto.
      * intros _. by apply Hl.
Qed.

(** A loss: a reader with a sample in the batch is frozen. *)
Lemma end_lost_ok F (C' : origin -> Prop) r :
  (live r = true -> pg_acked (rd_pos r) < pg_inflight (rd_pos r) \/ forall j, C (tag i r j) -> C' (tag i r j)) ->
  reader_ok D C F i r -> reader_ok D C' None i (end_reader true r).
Proof.
  intros Hsafe [[? ?] Ha Hl _ (H1 & H2 & H3) Hr]. unfold end_reader, end_flush, markHoled.
  destruct (pg_holed (rd_pos r)) eqn:Hh; cbn.
  - split; cbn; auto; try done; [unfold live; cbn; by rewrite Hh | by rewrite Hh].
  - destruct (Z.leb_spec (pg_inflight (rd_pos r)) (pg_acked (rd_pos r))) as [Hle | Hgt]; cbn.
    + split; cbn; auto; try done.
      * unfold live at 1. cbn. fold (live r). intros Hlive j Hj.
        destruct (Hsafe Hlive) as [? | Hsub]; [lia|]. by apply Hsub, Hl.
      * by rewrite Hh.
    + split; cbn; auto; try done. intros Hrew. destruct (Hr Hrew). lia.
Qed.
End Flush.

(** ** The two halves of a flush *)

(** The observers were told of the batch. *)
Definition told (b : @begun tagged) : bool := match b with Sent _ _ _ _ partial => negb partial | _ => false end.

Definition batch_ok (b : @begun tagged) : Prop :=
  match b with Sent _ _ batches count _ => count = batch_total batches /\ NoDup (map fst batches) | _ => True end.

Section Halves.
Context `{JsonFloat} (cfg : SinkConfig).
Implicit Types (s : Sink tagged) (rs : list reader).

Lemma flush_begin_spec now s rs :
  pending_ok s ->
  let '(b, (s', rs')) := flush_begin fst cfg now (s, rs) in
  (forall set, held (sk_buffers s) set = in_batches set (batches_of (Some b)) ++ held (sk_buffers s') set) /\
  pending_ok s' /\ batch_ok b /\
  rs' = (if told b then map begin_reader rs else rs) /\
  (told b = true -> forall set, held (sk_buffers s') set = []).
Proof.
  intros Hok. unfold flush_begin. destruct (holding now s); [done|].
  cbn [sk_pending with_meta]. destruct (sk_pending s =? 0); [done|].
  set (budget := sampleBudget cfg _ _ _). set (s1 := with_meta _ _ _ s).
  pose proof (takeLocked_spec fst budget s1 Hok) as Ht.
  destruct (takeLocked fst budget s1) as [[[batches count] partial] s'].
  destruct Ht as (Hh & Hc & Hn & Hp & He & _ & _). split_and!; try done.
  - by destruct partial.
  - intros Htold. apply He. by destruct partial.
Qed.

(** What a buffer is left with, by the fate of the batch. *)
Definition settled_as (f : fate) batches s s' : Prop :=
  pending_ok s' /\
  forall set, held (sk_buffers s') set =
    (match f with Returned => in_batches set batches | _ => [] end) ++ held (sk_buffers s) set.

Definition readers_after (f : fate) (b : @begun tagged) rs : list reader :=
  match f with
  | Delivered => if told b then map (end_reader false) rs else rs
  | Returned => rs
  | Lost => map (end_reader true) (if told b then rs else map begin_reader rs)
  end.

Lemma send_failed_spec meta sets batches count partial now e s rs :
  count = batch_total batches -> NoDup (map fst batches) -> pending_ok s ->
  let f := fate_of cfg (Failed e) s in
  let '(_, _, (s', rs')) := send_failed cfg meta sets batches count partial now e (s, rs) in
  settled_as f batches s s' /\ rs' = readers_after f (Sent meta sets batches count partial) rs.
Proof.
  intros Hc Hn Hok. unfold send_failed, fate_of, settled_as.
  assert (Hback : forall s', sk_buffers s' = sk_buffers s -> sk_pending s' = sk_pending s ->
    (forall set, held (sk_buffers (requeue batches count meta sets s')) set = in_batches set batches ++ held (sk_buffers s) set) /\
    pending_ok (requeue batches count meta sets s')).
  { intros s' Hb Hp. rewrite <- Hb. apply requeue_spec; [done..|]. unfold pending_ok. by rewrite Hb, Hp. }
  destruct (e_fatal e) as [status|].
  - destruct (status =? TooLarge) eqn:Hs; cbn [andb].
    + unfold shrinkBatchBytes. destruct (_ <=? minBatchBytes); cbn [snd].
      * unfold drop_batch, releaseInflight, pending_ok in *. repeat break_if; cbn; by destruct partial.
      * destruct (Hback (with_bytes (if (if sk_batchBytes s <=? 0 then c_BatchBytes cfg else sk_batchBytes s) /go 2 <? minBatchBytes
          then minBatchBytes else (if sk_batchBytes s <=? 0 then c_BatchBytes cfg else sk_batchBytes s) /go 2) s)); done.
    + unfold drop_batch, releaseInflight, pending_ok in *. repeat break_if; cbn; by destruct partial.
  - destruct (Hback s) as [Hh Hp]; [done..|]. repeat break_if; done.
Qed.

Lemma flush_end_spec b now r s rs :
  batch_ok b -> pending_ok s ->
  let f := fate_of cfg r s in
  let '(_, _, (s', rs')) := flush_end cfg b now r (s, rs) in
  settled_as f (batches_of (Some b)) s s' /\
  (rs' = match b with Sent _ _ _ _ _ => readers_after f b rs | _ => rs end).
Proof.
  intros Hb Hok. destruct b as [|meta sets|meta sets batches count partial]; cbn [flush_end batches_of].
  - cbn. unfold settled_as. by destruct (fate_of cfg r s).
  - unfold meta_end, settled_as, requeueMeta. destruct (empty_list meta && empty_list sets); [cbn; by destruct (fate_of cfg r s)|].
    destruct r as [resp|e]; cbn; [done|]. destruct (e_fatal e); [cbn; by destruct (if _ : bool then _ else _)|].
    by destruct (e_auth e); cbn.
  - destruct Hb as [Hc Hn]. destruct r as [resp|e]; [|by apply send_failed_spec].
    cbn. unfold settled_as, releaseInflight, pending_ok in *. repeat break_if; cbn; by destruct partial.
Qed.
End Halves.

(** ** The system *)

Definition of_set (set : gostr) (l : list (gostr * tagged)) : list tagged := snd <$> filter (fun p => p.1 = set) l.

Lemma of_set_app set l k : of_set set (l ++ k) = of_set set l ++ of_set set k.
Proof. unfold of_set. by rewrite filter_app, fmap_app. Qed.

Lemma of_set_labelled set batches : of_set set (labelled batches) = in_batches set batches.
Proof.
  induction batches as [|[set' l] batches IH]; [done|]. unfold labelled in *. cbn [map concat fst snd].
  rewrite of_set_app, IH, in_batches_cons. f_equal. clear IH. cbn [fst snd]. unfold of_set.
  case_bool_decide as E; induction l as [|x l IHl]; cbn [fmap list_fmap]; try done.
  - rewrite filter_cons_True by done. cbn. by f_equal.
  - by rewrite filter_cons_False by done.
Qed.

(** Every sample, with its order in its set, is settled, on its way or
    buffered, in this order. *)
Record system_ok (y : system) : Prop := {
  sys_pending : pending_ok (y_sink y);
  sys_flight : forall b, y_flight y = Some b -> batch_ok b;
  sys_fifo : forall set, of_set set (y_added y) =
    of_set set (y_settled y) ++ in_batches set (batches_of (y_flight y)) ++ held (sk_buffers (y_sink y)) set;
}.

(** Where a sample is. *)
Definition in_store (y : system) (o : origin) : Prop := exists smp, (smp, o) ∈ y_delivered y.
Definition in_flight (y : system) (o : origin) : Prop := exists smp, (smp, o) ∈ items (batches_of (y_flight y)).
Definition in_buffer (y : system) (o : origin) : Prop := exists smp, buffered (sk_buffers (y_sink y)) (smp, o).
Definition kept (y : system) (o : origin) : Prop := in_store y o \/ in_flight y o \/ in_buffer y o.
Definition told_of (y : system) : option (origin -> Prop) :=
  match y_flight y with
  | Some b => if told b then Some (fun o => in_store y o \/ in_flight y o) else None
  | None => None
  end.

Definition readers_ok (y : system) : Prop :=
  forall i r, y_readers y !! i = Some r -> reader_ok (in_store y) (kept y) (told_of y) i r.

Section System.
Context `{JsonFloat} (cfg : SinkConfig).
Implicit Types (y : system) (safe : @begun tagged -> system -> Prop).

Lemma encodable_sink smp (s : Sink tagged) : sk_buffers (encodable smp s).2 = sk_buffers s /\ sk_pending (encodable smp s).2 = sk_pending s.
Proof. unfold encodable. by break_if. Qed.

Lemma enqueue_ok set x (s : Sink tagged) :
  pending_ok s -> pending_ok (enqueue set x s) /\
  forall set', held (sk_buffers (enqueue set x s)) set' = held (sk_buffers s) set' ++ (if bool_decide (set = set') then [x] else []).
Proof.
  unfold pending_ok, enqueue. cbn. intros ->. split.
  - rewrite total_put, zlen_app. change (zlen [x]) with 1. unfold held. lia.
  - intros set'. rewrite held_insert. case_bool_decide; [by subst | by rewrite app_nil_r].
Qed.

Lemma of_set_one set set' x : of_set set' [(set, x)] = (if bool_decide (set = set') then [x] else []).
Proof. unfold of_set. case_bool_decide; [by rewrite filter_cons_True | by rewrite filter_cons_False]. Qed.

Lemma add_system_ok i set smp y : system_ok y -> system_ok (add_step i set smp y).
Proof.
  intros [Hp Hf Hq]. unfold add_step. destruct (y_readers y !! i) as [r|]; [|done].
  destruct (encodable_sink smp (y_sink y)) as [Hb Hn]. destruct (encodable smp (y_sink y)) as [ok s]. cbn in Hb, Hn.
  assert (Hps : pending_ok s) by (unfold pending_ok in *; by rewrite Hb, Hn).
  destruct ok; split; cbn [y_sink y_flight y_added y_settled]; try done.
  - by apply enqueue_ok.
  - intros set'. destruct (enqueue_ok set (smp, {| og_reader := i; og_pass := rd_pass r; og_index := rd_handed r |}) s Hps) as [_ He].
    rewrite He, Hb, of_set_app, Hq, of_set_one. by rewrite !app_assoc.
  - intros set'. by rewrite Hq, Hb.
Qed.

Lemma begin_system_ok now y : y_flight y = None -> system_ok y -> system_ok (begin_step cfg now y).
Proof.
  intros Hno [Hp _ Hq]. unfold begin_step.
  pose proof (flush_begin_spec cfg now (y_sink y) (y_readers y) Hp) as Hb.
  destruct (flush_begin fst cfg now (y_sink y, y_readers y)) as [b [s rs]]. destruct Hb as (Hh & Hps & Hbo & _).
  split; cbn [y_sink y_flight y_added y_settled]; [done | by intros ? [= <-] |].
  intros set. by rewrite Hq, Hno, Hh.
Qed.

Lemma end_system_ok b now r y : y_flight y = Some b -> system_ok y -> system_ok (end_step cfg b now r y).
Proof.
  intros Hb [Hp Hf Hq]. specialize (Hf b Hb). unfold end_step.
  pose proof (flush_end_spec cfg b now r (y_sink y) (y_readers y) Hf Hp) as Hs.
  destruct (flush_end cfg b now r (y_sink y, y_readers y)) as [[more err] [s rs]].
  destruct Hs as ((Hps & Hh) & _).
  split; cbn [y_sink y_flight y_added y_settled]; [done | done |].
  intros set. rewrite Hq, Hb, Hh, of_set_app. destruct (fate_of cfg r (y_sink y)); cbn [app];
    rewrite ?of_set_labelled, ?app_nil_r; by rewrite <- ?app_assoc.
Qed.

Theorem reaches_system_ok safe y : reaches cfg safe y -> system_ok y.
Proof.
  induction 1; [split; cbn; try done | by apply add_system_ok | | | | by apply begin_system_ok | by apply end_system_ok];
    by destruct IHreaches.
Qed.

(** ** The readers of the system *)

Lemma readers_mono y y' :
  y_readers y' = y_readers y ->
  (forall o, in_store y o -> in_store y' o) -> (forall o, kept y o -> kept y' o) ->
  told_of y' = None \/
    (is_Some (told_of y) /\ told_of y' = Some (fun o => in_store y' o \/ in_flight y' o) /\ forall o, in_flight y o -> in_flight y' o) ->
  readers_ok y -> readers_ok y'.
Proof.
  intros Hrs HD HC HF Hok i r. rewrite Hrs. intros Hr.
  apply (reader_ok_mono (in_store y) (kept y) (told_of y)); auto.
  intros P' HP'. destruct HF as [HF | ([P HP] & HF & Hsub)]; [congruence|].
  exists P. split; [done|]. rewrite HF in HP'. injection HP' as <-. unfold told_of in HP.
  destruct (y_flight y) as [b|]; [destruct (told b)|]; simplify_eq. intros o [Ho | Ho]; auto.
Qed.

(** A reader moves by itself. *)
Lemma on_reader_ok f i y :
  (forall D C F r, reader_ok D C F i r -> reader_ok D C F i (f r)) -> readers_ok y -> readers_ok (on_reader f i y).
Proof.
  intros Hf Hok k r. cbn [y_readers on_reader]. intros Hr.
  destruct (decide (i = k)) as [<- | Hne]; [|rewrite list_lookup_alter_ne in Hr by done; by apply Hok].
  rewrite list_lookup_alter_eq in Hr. apply fmap_Some in Hr as (r' & Hr & ->). by apply Hf, Hok.
Qed.

Lemma add_readers_ok i set smp y : system_ok y -> readers_ok y -> readers_ok (add_step i set smp y).
Proof.
  intros [Hp _ _] Hok. unfold add_step. destruct (y_readers y !! i) as [r|] eqn:Hi; [|done].
  destruct (encodable_sink smp (y_sink y)) as [Hb Hn]. destruct (encodable smp (y_sink y)) as [ok s]. cbn in Hb, Hn.
  assert (Hps : pending_ok s) by (unfold pending_ok in *; by rewrite Hb, Hn).
  destruct ok.
  2:{ intros k r' Hr'. specialize (Hok k r' Hr'). revert Hok. unfold kept, in_buffer. cbn. by rewrite Hb. }
  set (x := (smp, {| og_reader := i; og_pass := rd_pass r; og_index := rd_handed r |})).
  destruct (enqueue_ok set x s Hps) as [_ He].
  assert (Hkept : forall o, kept y o -> o = x.2 \/ kept y o) by auto.
  set (y' := Build_system _ _ _ _ _ _ _).
  assert (HC : forall o, kept y o -> kept y' o).
  { intros o [Ho | [Ho | (smp' & set' & Ho)]]; [by left | by right; left | right; right].
    exists smp', set'. unfold y'. cbn [y_sink]. rewrite He, Hb. apply elem_of_app. by left. }
  intros k r' Hr'.
  assert (Hmono : forall r0, reader_ok (in_store y) (kept y) (told_of y) k r0 -> reader_ok (in_store y') (kept y') (told_of y') k r0).
  { intros r0. apply reader_ok_mono; [done | done |]. intros P' HP'. by exists P'. }
  cbn [y' y_readers] in Hr'. apply list_lookup_insert_Some in Hr' as [(<- & <- & _) | [Hne Hr']]; [|by apply Hmono, Hok].
  apply hand_ok; [|by apply Hmono, Hok]. right; right. exists smp, set. unfold y'. cbn [y_sink].
  rewrite He, bool_decide_eq_true_2 by done. apply elem_of_app. right. by left.
Qed.

Lemma begin_readers_ok now y : y_flight y = None -> system_ok y -> readers_ok y -> readers_ok (begin_step cfg now y).
Proof.
  intros Hno [Hp _ _] Hok. unfold begin_step.
  pose proof (flush_begin_spec cfg now (y_sink y) (y_readers y) Hp) as Hb.
  destruct (flush_begin fst cfg now (y_sink y, y_readers y)) as [b [s rs]]. destruct Hb as (Hh & _ & _ & -> & He).
  set (y' := Build_system _ _ _ _ _ _ _).
  assert (HC : forall o, kept y o -> in_store y' o \/ in_flight y' o \/ in_buffer y' o).
  { intros o [Ho | [(smp & Ho) | (smp & set & Ho)]]; [by left | rewrite Hno in Ho; by apply not_elem_of_nil in Ho |].
    rewrite Hh in Ho. apply elem_of_app in Ho as [Ho | Ho]; right; [left | right]; exists smp; [|by exists set].
    apply in_batches_items. by exists set. }
  destruct (told b) eqn:Htold.
  - intros k r' Hr'. cbn [y' y_readers] in Hr'. rewrite list_lookup_fmap in Hr'.
    destruct (y_readers y !! k) as [r|] eqn:Hk; [|done]. injection Hr' as <-.
    apply (reader_ok_mono (in_store y) (kept y) (Some (fun o => in_store y' o \/ in_flight y' o))); [done | done | |].
    { unfold told_of. cbn [y' y_flight]. rewrite Htold. intros P' [= <-]. eexists. by split. }
    apply begin_ok; [|specialize (Hok k r Hk); by unfold told_of in Hok; rewrite Hno in Hok].
    intros o Ho. destruct (HC o Ho) as [? | [? | (smp & set & Hbuf)]]; [by left | by right|].
    cbn [y' y_sink] in Hbuf. rewrite He in Hbuf by done. no_elem.
  - apply (readers_mono y); [done | done | done | left | done]. unfold told_of. cbn [y' y_flight]. by rewrite Htold.
Qed.

(** Where the samples of a batch that was answered are. *)
Lemma end_kept b now r y :
  y_flight y = Some b -> system_ok y ->
  let y' := end_step cfg b now r y in
  (forall o, in_store y o -> in_store y' o) /\
  (forall o, in_buffer y o -> in_buffer y' o) /\
  (forall o, in_flight y o -> match fate_of cfg r (y_sink y) with
                              | Delivered => in_store y' o | Returned => in_buffer y' o | Lost => True end) /\
  told_of y' = None /\
  y_readers y' = match b with Sent _ _ _ _ _ => readers_after (fate_of cfg r (y_sink y)) b (y_readers y) | _ => y_readers y end.
Proof.
  intros Hb [Hp Hf _]. specialize (Hf b Hb). unfold end_step, in_store, in_buffer, in_flight.
  pose proof (flush_end_spec cfg b now r (y_sink y) (y_readers y) Hf Hp) as Hs.
  destruct (flush_end cfg b now r (y_sink y, y_readers y)) as [[more err] [s rs]].
  destruct Hs as ((_ & Hh) & ->). rewrite Hb. cbn [y_delivered y_sink y_readers]. split_and!; [| | |done..].
  - intros o [smp Ho]. exists smp. apply elem_of_app. by left.
  - intros o (smp & set & Ho). exists smp, set. rewrite Hh. apply elem_of_app. by right.
  - intros o [smp Ho]. destruct (fate_of cfg r (y_sink y)); [| |done].
    + exists smp. apply elem_of_app. by right.
    + apply in_batches_items in Ho as [set Ho]. exists smp, set. rewrite Hh. apply elem_of_app. by left.
Qed.

(** The samples of a frozen or untouched reader survive a loss. *)
Lemma lost_keeps b i r y :
  y_flight y = Some b -> contributors_in_flight b y -> y_readers y !! i = Some r -> live r = true ->
  let pos := rd_pos r in
  pg_acked pos < (if told b then pg_inflight pos else pg_pending pos) \/ match b with Sent _ _ _ _ _ => False | _ => True end \/
  forall j, kept y (tag i r j) -> in_store y (tag i r j) \/ in_buffer y (tag i r j).
Proof.
  intros Hb Hsafe Hr Hlive. cbn.
  destruct (decide (Exists (fun x => og_reader x.2 = i /\ og_pass x.2 = rd_pass r) (items (batches_of (Some b))))) as [He | He].
  - apply Exists_exists in He as (x & Hx & Hi & Hpass). unfold live in Hlive.
    destruct (Hsafe i r x Hr Hx Hi Hpass) as [E | [E | Hlt]]; [by rewrite E in Hlive | by rewrite E, andb_false_r in Hlive |].
    destruct b as [| |? ? ? ? partial]; [right; by left .. | left]. by destruct partial.
  - right; right. intros j [Ho | [[smp Ho] | Ho]]; [by left | | by right]. exfalso. apply He, Exists_exists.
    rewrite Hb in Ho. by exists (smp, tag i r j).
Qed.

Lemma end_readers_ok b now r y :
  y_flight y = Some b -> (fate_of cfg r (y_sink y) = Lost -> contributors_in_flight b y) ->
  system_ok y -> readers_ok y -> readers_ok (end_step cfg b now r y).
Proof.
  intros Hb Hsafe Hsys Hok. destruct (end_kept b now r y Hb Hsys) as (HD & HB & HF & Htold & Hrs).
  set (y' := end_step cfg b now r y) in *.
  assert (Hnot : match b with Sent _ _ _ _ _ => False | _ => True end -> readers_ok y').
  { intros Hn. apply (readers_mono y); [by destruct b | done | | by left | done].
    intros o [Ho | [[smp Ho] | Ho]]; [left; auto | | right; right; auto].
    rewrite Hb in Ho. destruct b; [by apply not_elem_of_nil in Ho .. | done]. }
  destruct b as [| |meta sets batches count partial] eqn:Eb; [by apply Hnot .. |]. rewrite <- Eb in *. clear Hnot.
  assert (Hrs' : y_readers y' = readers_after (fate_of cfg r (y_sink y)) b (y_readers y)) by by rewrite Hrs, Eb.
  clear Hrs. destruct (fate_of cfg r (y_sink y)) eqn:Hfate; cbn [readers_after] in Hrs'.
  - assert (HC : forall o, kept y o -> kept y' o).
    { intros o [Ho | [Ho | Ho]]; [left; auto .. | right; right; auto]. }
    destruct (told b) eqn:Ht; [|apply (readers_mono y); auto].
    intros i r' Hr'. rewrite Hrs', list_lookup_fmap in Hr'. apply fmap_Some in Hr' as (r0 & Hr0 & ->).
    rewrite Htold. apply (end_delivered_ok _ _ _ (fun o => in_store y o \/ in_flight y o)); [intros o [Ho | Ho]; auto|].
    apply (reader_ok_mono (in_store y) (kept y) (told_of y)); [done | done | | by apply Hok].
    unfold told_of. rewrite Hb, Ht. intros P' [= <-]. by eexists.
  - apply (readers_mono y); [done | done | | by left | done].
    intros o [Ho | [Ho | Ho]]; [left; auto | right; right; auto ..].
  - specialize (Hsafe eq_refl). intros i r' Hr'. rewrite Hrs', list_lookup_fmap in Hr'.
    apply fmap_Some in Hr' as (r1 & Hr1 & ->). rewrite Htold.
    apply (reader_ok_mono (in_store y) (kept y') None); [done | done | done |].
    assert (Hlost : forall r0, y_readers y !! i = Some r0 -> live r0 = true ->
      pg_acked (rd_pos r0) < (if told b then pg_inflight (rd_pos r0) else pg_pending (rd_pos r0)) \/
      forall j, kept y (tag i r0 j) -> kept y' (tag i r0 j)).
    { intros r0 Hr0 Hlive. destruct (lost_keeps b i r0 y Hb Hsafe Hr0 Hlive) as [? | [Hn | Hk]]; [by left | by rewrite Eb in Hn |].
      right. intros j Hj. destruct (Hk j Hj); [left; auto | right; right; auto]. }
    destruct (told b) eqn:Ht.
    + apply (end_lost_ok _ (kept y) _ (told_of y)); [|by apply Hok]. by apply Hlost.
    + rewrite list_lookup_fmap in Hr1. apply fmap_Some in Hr1 as (r0 & Hr0 & ->).
      apply (end_lost_ok _ (kept y) _ (Some (kept y))).
      * rewrite begin_same. intros Hlive. destruct (Hlost r0 Hr0 Hlive) as [Hlt | Hk]; [left | by right].
        unfold live in Hlive. cbn. unfold markInflight. destruct (pg_rewind (rd_pos r0)); [by rewrite andb_false_r in Hlive | done].
      * apply begin_ok; [done|]. apply (reader_ok_mono (in_store y) (kept y) (told_of y)); [done | done | done | by apply Hok].
Qed.

Theorem reaches_readers_ok y : reaches cfg contributors_in_flight y -> readers_ok y.
Proof.
  intros Hr. assert (Hsys := fun z Hz => reaches_system_ok contributors_in_flight z Hz).
  induction Hr as [starts | y i set smp Hr IH | y i n Hr IH | y i Hr IH | y i to Hr IH | y now Hr IH | y b now r Hr IH Hb Hsafe].
  - intros i r Hi. cbn in Hi. rewrite list_lookup_fmap in Hi. apply fmap_Some in Hi as (at_ & _ & ->). apply new_reader_ok.
  - apply add_readers_ok; auto.
  - apply on_reader_ok; [|done]. intros *. apply publish_ok.
  - apply on_reader_ok; [|done]. intros *. apply rewind_step_ok.
  - apply on_reader_ok; [|done]. intros *. intros _. apply restart_ok.
  - apply begin_readers_ok; auto.
  - apply end_readers_ok; auto.
Qed.
End System.
