(* ===== verification/IngestDeliveryProps.v ===== *)
(** * Delivery: what the sink and the readers' positions promise

    Safety of the acknowledged positions, the order of samples, the body
    budget, what a refused batch leaves behind, and draining. *)

From Stdlib Require Import ZArith Lia Bool.
From Stdlib Require Import Strings.Byte Strings.String.
From stdpp Require Import gmap.
From S2P Require Import Prelude Bytes Float64 GoStd GoText Model Wire.
From S2P Require Import ExtractHistogram ExtractTimestamp ExtractStream.
From S2P Require Import IngestSink IngestSinkProofs IngestDelivery Instances.

(** ** Sizes of requests *)

(** A sample as the extractors make it: a valid whole-millisecond timestamp,
    fields, machine integers. *)
Record plain_sample (s : Sample) : Prop := {
  ps_ts : 0 < TSMs s <= MaxTSMs;
  ps_sub : SubUS s = 0;
  ps_fields : Fields s <> ∅;
  ps_range : map_Forall (fun _ v => value_in_range v) (Fields s);
}.

Section Budget.
Context `{J : JsonFloat} {L : JsonFloatLaws J}.

Lemma plain_sample_bytes s t : plain_sample s -> json_sample s = Some t -> zlen t + 7 <= sampleBytes s.
Proof.
  intros [Hts Hsub Hf Hr] Ht. pose proof (json_sample_bytes s t Hsub Hf Hr Ht).
  pose proof (FormatInt_ts (TSMs s) Hts). lia.
Qed.

Lemma samples_bytes l ts :
  Forall plain_sample l -> mapM json_sample l = Some ts ->
  total_len ts + 7 * zlen l <= sum_map sampleBytes l /\ zlen ts = zlen l.
Proof.
  intros Hl Hts. apply mapM_Some_1 in Hts. induction Hts as [|s t l ts Ht Hts IH]; [done|].
  apply Forall_cons in Hl as [Hs Hl]. destruct (IH Hl) as [Hb Hn]. pose proof (plain_sample_bytes s t Hs Ht).
  rewrite !zlen_cons. cbn [total_len foldr sum_map].
  fold (total_len ts). fold (sum_map sampleBytes l). lia.
Qed.

Lemma batch_bytes (b : gostr * list Sample) t :
  Forall plain_sample b.2 -> b.2 <> [] -> json_batch b = Some t ->
  zlen t + 2 + 6 * zlen b.2 <= batchFixedBytes + jsonStringBytes b.1 + sum_map sampleBytes b.2.
Proof.
  destruct b as [set l]. cbn [fst snd]. intros Hl Hne. unfold json_batch. cbn [fst snd].
  destruct (mapM json_sample l) as [ts|] eqn:Hts; [|done]. cbn [mbind option_bind]. intros [= <-].
  destruct (samples_bytes l ts Hl Hts) as [Hb Hn]. rewrite json_object_len.
  cbn [map total_len foldr]. rewrite !json_member_len. cbn [fst snd].
  rewrite json_array_len, json_string_len. pose proof (json_text_bytes set).
  assert (1 <= zlen l) by (destruct l; [done|]; rewrite zlen_cons; pose proof (zlen_nonneg l); lia).
  change (zlen (json_text (bs "set"))) with 3. change (zlen (json_text (bs "samples"))) with 7.
  change (zlen [(bs "set", json_string set); (bs "samples", json_array ts)]) with 2.
  unfold batchFixedBytes. lia.
Qed.

Lemma batches_bytes batches ts :
  Forall (fun b : gostr * list Sample => Forall plain_sample b.2 /\ b.2 <> []) batches ->
  mapM json_batch batches = Some ts ->
  total_len ts + 2 * zlen ts + 6 * batch_total batches <= batch_cost id batches /\ zlen ts = zlen batches.
Proof.
  intros Hl Hts. apply mapM_Some_1 in Hts. induction Hts as [|b t l ts Ht Hts IH]; [done|].
  apply Forall_cons in Hl as [[Hp Hne] Hl]. destruct (IH Hl) as [Hb Hn]. pose proof (batch_bytes b t Hp Hne Ht) as H.
  rewrite batch_total_cons, batch_cost_cons, !zlen_cons. cbn [total_len foldr]. fold (total_len ts).
  change (sum_map (fun x : Sample => sampleBytes (id x)) b.2) with (sum_map sampleBytes b.2). lia.
Qed.

Lemma request_bytes meta sets (batches : list (gostr * list Sample)) body :
  Forall (fun b : gostr * list Sample => Forall plain_sample b.2 /\ b.2 <> []) batches -> batches <> [] ->
  json_request meta sets batches = Some body ->
  zlen body + 6 * batch_total batches <= 12 + metaBytes meta sets + batch_cost id batches.
Proof.
  intros Hb Hne. unfold json_request, metaBytes.
  destruct (mapM json_batch batches) as [ts|] eqn:Hts; [|done].
  destruct (json_field_metas meta) as [m|] eqn:Hm; [|done]. cbn [mbind option_bind]. intros [= <-].
  destruct (batches_bytes batches ts Hb Hts) as [Hcost Hn].
  assert (1 <= zlen batches) by (destruct batches; [done|]; rewrite zlen_cons; pose proof (zlen_nonneg batches); lia).
  rewrite json_object_len. unfold omit, metaKeyBytes, setMetaKeyBytes.
  destruct (empty_list meta), (empty_list sets); cbn [app map total_len foldr];
    rewrite !zlen_cons, !json_member_len; change (zlen (@nil (gostr * gostr))) with 0; cbn [fst snd]; rewrite json_array_len;
    change (zlen (json_text (bs "batches"))) with 7;
    change (zlen (json_text (bs "field_meta"))) with 10; change (zlen (json_text (bs "set_meta"))) with 8; lia.
Qed.
End Budget.

(** ** Taking a batch within the budget *)

Section Take.
Context `{J : JsonFloat} {L : JsonFloatLaws J} {Obs : Type} `{DeliveryObserver Obs} (cfg : SinkConfig).

(** What a flush took: never an empty batch, something, and within the
    budget when it is more than one sample. *)
Lemma flush_begin_sent now (s : Sink Sample) (obs : list Obs) meta sets batches count partial so' :
  pending_ok s -> flush_begin id cfg now (s, obs) = (Sent meta sets batches count partial, so') ->
  Forall (fun b : gostr * list Sample => b.2 <> []) batches /\ batches <> [] /\ count = batch_total batches /\
  (2 <= count -> 0 < sampleBudget cfg meta sets s -> batch_cost id batches <= sampleBudget cfg meta sets s).
Proof.
  intros Hok. unfold flush_begin. destruct (holding now s); [done|]. cbn [sk_pending with_meta].
  destruct (Z.eqb_spec (sk_pending s) 0) as [|Hpos]; [done|].
  set (s1 := with_meta _ _ _ s). assert (Hok1 : pending_ok s1) by done.
  change (sampleBudget cfg (sk_metaQ s) (sk_setQ s) s1) with (sampleBudget cfg (sk_metaQ s) (sk_setQ s) s).
  set (budget := sampleBudget _ _ _ s).
  pose proof (takeLocked_spec id budget s1 Hok1) as Hs. pose proof (takeLocked_progress id budget s1 Hok1) as Hp.
  destruct (takeLocked id budget s1) as [[[bs n] more] s2].
  destruct Hs as (_ & Hn & _ & _ & _ & Hcost & _). destruct Hp as (Hne & Hsome & _).
  intros [= <- <- <- <- <- <-]. fold budget. split_and!; [done | by apply Hsome | done | auto].
Qed.

(** C22: the body of a request stays within the body budget whenever it
    carries at least two samples: a take of plain samples (valid
    whole-millisecond timestamps) never encodes, declarations and
    punctuation included, to more than the effective [batchBytes]. *)
Theorem body_within_budget now (s : Sink Sample) (obs : list Obs) meta sets batches count partial so' body :
  pending_ok s -> 0 < sk_batchBytes s ->
  flush_begin id cfg now (s, obs) = (Sent meta sets batches count partial, so') ->
  2 <= count -> Forall (fun b : gostr * list Sample => Forall plain_sample b.2) batches ->
  json_request meta sets batches = Some body ->
  zlen body <= sk_batchBytes s.
Proof.
  intros Hok Hlimit Hflush Htwo Hplain Hbody.
  destruct (flush_begin_sent now s obs meta sets batches count partial so' Hok Hflush) as (Hne & Hsome & Hcount & Hcost).
  assert (Hall : Forall (fun b : gostr * list Sample => Forall plain_sample b.2 /\ b.2 <> []) batches)
    by (apply Forall_and; split; [exact Hplain | exact Hne]).
  pose proof (request_bytes meta sets batches body Hall Hsome Hbody) as Hreq.
  assert (Hlow : 12 <= batch_cost id batches).
  { unfold json_request in Hbody. destruct (mapM json_batch batches) as [ts|] eqn:Hts; [|done].
    destruct (batches_bytes batches ts Hall Hts) as [Hb _]. pose proof (total_len_nonneg ts). pose proof (zlen_nonneg ts). lia. }
  unfold sampleBudget in Hcost.
  rewrite !(proj2 (Z.leb_gt _ _) Hlimit) in Hcost.
  destruct (Z.ltb_spec (sk_batchBytes s - metaBytes meta sets) 1); lia.
Qed.
End Take.

(** ** Acknowledged positions, order *)

Section Safety.
Context `{JsonFloat} (cfg : SinkConfig).

(** C18: an acknowledged position is safe to resume from.  In every
    reachable interleaving of readers and flushes in which a lost batch
    only holds samples of readers with something in flight, the position a
    checkpoint may record was published when some [n] samples of the pass
    had been handed to the sink, and the store holds all [n] of them. *)
Theorem acked_delivered y i r :
  reaches cfg contributors_in_flight y -> y_readers y !! i = Some r ->
  exists n, published r (pg_acked (rd_pos r)) n /\ forall j, (j < n)%nat -> in_store y (tag i r j).
Proof.
  intros Hy Hr. pose proof (reaches_readers_ok cfg y Hy i r Hr) as [_ Ha _ _ (Hlog & _) _].
  by exists (rd_acked r).
Qed.

(** C19: samples of a set keep their order and none is lost from sight: in
    every reachable state, whatever was lost, the samples handed over for a
    set are those settled (delivered or dropped), then those on their way,
    then those buffered, in the order they were added; and [sk_pending]
    counts the buffered ones. *)
Theorem samples_in_order safe y set :
  reaches cfg safe y ->
  of_set set (y_added y) =
    of_set set (y_settled y) ++ in_batches set (batches_of (y_flight y)) ++ held (sk_buffers (y_sink y)) set /\
  sk_pending (y_sink y) = buffered_total (sk_buffers (y_sink y)).
Proof. intros Hy. by destruct (reaches_system_ok cfg safe y Hy). Qed.
End Safety.

(** ** A refused batch, and draining *)

Section Requests.
Context {X : Type} (sample_of : X -> Sample) `{JsonFloat} {Obs : Type} `{DeliveryObserver Obs} (cfg : SinkConfig).
Implicit Types (s : Sink X) (obs : list Obs).

(** C20: a request that fails without a verdict on its samples gives
    everything back.  Taking a batch and having it cancelled, refused for
    its credential or shed leaves every set's samples in their order, the
    counts, the declarations owed and the statistics of losses as they
    were, and tells no observer of an end. *)
Theorem refused_batch_returns before after e s obs b so' :
  pending_ok s -> 0 <= sk_inflight s -> e_fatal e = None ->
  flush_begin sample_of cfg before (s, obs) = (b, so') ->
  let '(more, _, (s2, obs2)) := flush_end cfg b after (Failed e) so' in
  more = false /\ obs2 = so'.2 /\ (forall set, held (sk_buffers s2) set = held (sk_buffers s) set) /\
  sk_pending s2 = sk_pending s /\ sk_inflight s2 = sk_inflight s /\
  sk_metaQ s2 = sk_metaQ s /\ sk_setQ s2 = sk_setQ s /\
  k_Dropped (sk_Stats s2) = k_Dropped (sk_Stats s).
Proof.
  intros Hok Hin He. unfold flush_begin. destruct (holding before s); [by intros [= <- <-]|].
  cbn [sk_pending with_meta]. destruct (sk_pending s =? 0).
  - intros [= <- <-]. cbn. unfold meta_end, requeueMeta. rewrite He.
    destruct (empty_list (sk_metaQ s) && empty_list (sk_setQ s)) eqn:Hempty.
    + destruct (sk_metaQ s), (sk_setQ s); done.
    + destruct (e_auth e); cbn; by rewrite !app_nil_r.
  - set (s1 := with_meta _ _ _ s).
    pose proof (takeLocked_spec sample_of (sampleBudget cfg (sk_metaQ s) (sk_setQ s) s1) s1 Hok) as Hs.
    destruct (takeLocked sample_of _ s1) as [[[batches n] more] s2]. destruct Hs as (Hh & Hn & Hnd & Hp & _ & _ & Hs2).
    intros [= <- <-]. cbn [flush_end]. unfold send_failed. rewrite He.
    set (back := requeue batches n (sk_metaQ s) (sk_setQ s) s2).
    assert (Hback : (forall set, held (sk_buffers back) set = held (sk_buffers s) set) /\ sk_pending back = sk_pending s /\
              sk_inflight back = sk_inflight s /\ sk_metaQ back = sk_metaQ s /\ sk_setQ back = sk_setQ s /\ sk_Stats back = sk_Stats s).
    { destruct (requeue_spec batches n (sk_metaQ s) (sk_setQ s) s2 Hn Hnd Hp) as [Hheld Hpend].
      split_and!; [intros set; unfold back; by rewrite Hheld, <- Hh | ..].
      all: unfold back, requeue, requeueMeta, releaseInflight, requeueBatches; rewrite Hs2.
      all: repeat break_if; cbn in *; bsplit; rewrite ?app_nil_r; try done; try lia.
      all: by destruct (sk_metaQ s), (sk_setQ s). }
    destruct Hback as (H1 & H2 & H3 & H4 & H5 & H6). fold back.
    repeat break_if; cbn; rewrite ?H6; done.
Qed.
End Requests.

Section Draining.
Context {X : Type} (sample_of : X -> Sample) `{JsonFloat} {Obs : Type} `{DeliveryObserver Obs} (cfg : SinkConfig).
Context (world : nat -> Z * Z * reply) (Haccepts : forall n, exists t t' resp, world n = (t, t', Replied resp)).
Implicit Types (s : Sink X) (obs : list Obs).

Definition calm s : Prop := pending_ok s /\ IsZero (sk_holdUntil s) = true.

(** One request the store takes. *)
Lemma round_accepted n s obs :
  calm s ->
  let '(more, err, (s', _)) := flushRound sample_of cfg world n (s, obs) in
  err = None /\ calm s' /\ 0 <= sk_pending s' <= sk_pending s /\ (sk_pending s <> 0 -> sk_pending s' < sk_pending s) /\
  (more = false -> sk_pending s' = 0) /\ k_Dropped (sk_Stats s') = k_Dropped (sk_Stats s).
Proof.
  intros [Hok Hcalm]. unfold flushRound. destruct (Haccepts n) as (t & t' & resp & ->).
  unfold flush_begin, holding. rewrite Hcalm. cbn [negb andb sk_pending with_meta].
  pose proof (total_nonneg (sk_buffers s)). assert (0 <= sk_pending s) by (unfold pending_ok in Hok; lia).
  destruct (Z.eqb_spec (sk_pending s) 0) as [Hz | Hnz].
  - cbn. unfold meta_end. destruct (_ && _); cbn; unfold calm; cbn; split_and!; try done; lia.
  - set (s1 := with_meta _ _ _ s). set (budget := sampleBudget _ _ _ _).
    pose proof (takeLocked_spec sample_of budget s1 Hok) as Hs.
    pose proof (takeLocked_progress sample_of budget s1 Hok) as Hp.
    assert (Hmore : (takeLocked sample_of budget s1).1.2 = (sk_pending (takeLocked sample_of budget s1).2 >? 0)).
    { unfold takeLocked. by destruct (take_sets _ _ _ _ _ _) as [[? ?] ?]. }
    destruct (takeLocked sample_of budget s1) as [[[batches k] more] s2].
    destruct Hs as (_ & _ & _ & Hok2 & _ & _ & Hs2). destruct Hp as (_ & Hone & Hnn).
    assert (Hpend : sk_pending s2 = sk_pending s - k) by (by rewrite Hs2).
    assert (Hstats : sk_Stats s2 = sk_Stats s) by (by rewrite Hs2).
    destruct (Hone Hnz) as [_ Hk]. cbn [fst snd] in Hmore. cbn [flush_end sent_ok]. unfold releaseInflight, calm, pending_ok in *.
    repeat break_if; cbn; rewrite ?Hstats; split_and!; try done; try lia; subst more; intros Hm;
      rewrite Z.gtb_ltb, Z.ltb_ge in Hm; lia.
Qed.

Lemma flush_accepted rounds : forall n s obs,
  calm s ->
  let '(err, _, (s', _)) := flush_rounds sample_of cfg world rounds n (s, obs) in
  err = None /\ calm s' /\ 0 <= sk_pending s' /\ (sk_pending s <> 0 -> sk_pending s' < sk_pending s) /\
  sk_pending s' <= sk_pending s /\ k_Dropped (sk_Stats s') = k_Dropped (sk_Stats s).
Proof.
  induction rounds as [|rounds IH]; intros n s obs Hc; cbn [flush_rounds];
    pose proof (round_accepted n s obs Hc) as Hr;
    destruct (flushRound sample_of cfg world n (s, obs)) as [[more err] [s1 obs1]]; destruct Hr as (-> & Hc1 & ? & ? & Hz & Hd).
  - destruct more; split_and!; done || lia.
  - destruct more; [|split_and!; done || lia]. specialize (IH (S n) s1 obs1 Hc1).
    destruct (flush_rounds _ _ _ _ _ _) as [[err n2] [s2 obs2]]. destruct IH as (-> & ? & ? & ? & ? & ?).
    rewrite <- Hd. split_and!; try done; lia.
Qed.

Lemma close_rounds_accepted fuel : forall n s obs,
  calm s -> (Z.to_nat (sk_pending s) <= fuel)%nat ->
  let '(err, _, (s', _)) := close_rounds sample_of cfg world fuel n (s, obs) in
  err = None /\ pending_ok s' /\ sk_pending s' = 0 /\ k_Dropped (sk_Stats s') = k_Dropped (sk_Stats s).
Proof.
  induction fuel as [|fuel IH]; intros n s obs Hc Hfuel; cbn [close_rounds];
    pose proof (total_nonneg (sk_buffers s)); destruct (proj1 Hc).
  - split_and!; [done | by apply Hc | lia | done].
  - cbn [fst]. destruct (Z.eqb_spec (sk_pending s) 0) as [Hz | Hnz]; [split_and!; [done | by apply Hc | done | done]|].
    unfold Flush. pose proof (flush_accepted (maxFlushRounds - 1) n s obs Hc) as Hf.
    destruct (flush_rounds _ _ _ _ _ _) as [[err n1] [s1 obs1]]. destruct Hf as (-> & Hc1 & ? & Hlt & _ & Hd). specialize (Hlt Hnz).
    cbn [fst]. destruct (Z.geb_spec (sk_pending s1) (sk_pending s)); [lia|].
    specialize (IH n1 s1 obs1 Hc1 ltac:(lia)). by rewrite <- Hd.
Qed.

(** C21: [Close] empties the sink when the store accepts.  Whatever is
    buffered, however many requests of the body budget it takes and even
    while delivery is being held, a [Close] whose requests are all accepted
    returns without an error, leaves nothing buffered and drops nothing. *)
Theorem close_drains n s obs :
  pending_ok s ->
  let '(err, _, (s', _)) := Close sample_of cfg world n (s, obs) in
  err = None /\ sk_pending s' = 0 /\ (forall set, held (sk_buffers s') set = []) /\
  k_Dropped (sk_Stats s') = k_Dropped (sk_Stats s).
Proof.
  intros Hok. unfold Close, Flush. set (s0 := with_hold zero_time s).
  assert (Hc : calm s0) by (by split).
  pose proof (flush_accepted (maxFlushRounds - 1) n s0 obs Hc) as Hf.
  destruct (flush_rounds _ _ _ _ _ _) as [[err n1] [s1 obs1]]. destruct Hf as (-> & Hc1 & _ & _ & _ & Hd). cbn [fst].
  pose proof (close_rounds_accepted (Z.to_nat (sk_pending s1)) n1 s1 obs1 Hc1 ltac:(lia)) as Hcl.
  destruct (close_rounds _ _ _ _ _ _) as [[err n2] [s2 obs2]]. destruct Hcl as (-> & Hok2 & Hz & Hd2).
  rewrite Hz. cbn. split_and!; [done | done | | by rewrite Hd2, Hd].
  intros set. apply total_zero. unfold pending_ok in Hok2. lia.
Qed.
End Draining.

(** ** A small run *)

(** A whole number as one, any other float as ["0."] and its bits. *)
#[export] Instance demo_json_float : JsonFloat := { json_float f := if fvalid f then decimal_text f else [] }.
#[export] Instance demo_json_float_laws : JsonFloatLaws demo_json_float.
Proof.
  split. intros f _. cbn. destruct (fvalid f) eqn:Hf; [|done]. unfold decimal_text, is_whole, bits_text. case_bool_decide as Hw.
  - pose proof (FormatInt_len (to_int f) (proj2 Hw)). lia.
  - rewrite zlen_app. change (zlen [x30; x2e]) with 2. pose proof (Float64bits_range f Hf) as Hb.
    pose proof (FormatUint_len (Float64bits f) 20) as Hl. change (10 ^ Z.of_nat 20) with 100000000000000000000 in Hl.
    unfold in_u64, two64 in Hb. specialize (Hl ltac:(lia) ltac:(lia)). lia.
Qed.

Definition demo_row (sub : Z) : Sample :=
  {| TSMs := 1700000000000; SubUS := sub; Labels := ∅; Fields := {[bs "n" := VInt 7]}; KeyHint := [] |}.

Definition fatal_reply : reply := Failed {| e_fatal := Some 400; e_canceled := false; e_auth := false; e_retryAfter := None |}.
Definition shed_reply : write_error := {| e_fatal := None; e_canceled := false; e_auth := false; e_retryAfter := None |}.
Definition accept_reply (n : Z) : reply :=
  Replied {| wr_Accepted := n; wr_Duplicate := false; wr_Rejected := []; wr_RejectedCount := 0; wr_CatalogueVersion := 0; wr_Durable := true |}.

Abbreviation demo_cfg := DefaultSinkConfig.
Abbreviation hand_over := (add_step 0 (bs "cpu") (demo_row 0)).
Abbreviation publish_at n := (on_reader (publish n) 0).
Definition answer (r : reply) (y : system) : system :=
  match y_flight y with Some b => end_step demo_cfg b 0 r y | None => y end.
Abbreviation start := {| y_sink := NewSink demo_cfg; y_readers := map new_reader [0]; y_flight := None;
                         y_added := []; y_settled := []; y_delivered := []; y_lost := [] |}.

(** A record is read, published and delivered. *)
Definition demo_delivered : system :=
  answer (accept_reply 1) (begin_step demo_cfg 0 (publish_at 100 (hand_over start))).

(** A record's sample is lost before the record is published. *)
Definition demo_lost : system :=
  answer (accept_reply 1) (begin_step demo_cfg 0 (hand_over (publish_at 100
    (answer fatal_reply (begin_step demo_cfg 0 (hand_over start)))))).

Lemma reaches_answer safe r y :
  reaches demo_cfg safe y -> (forall b, y_flight y = Some b -> fate_of demo_cfg r (y_sink y) = Lost -> safe b y) ->
  reaches demo_cfg safe (answer r y).
Proof.
  unfold answer. intros Hy Hs. destruct (y_flight y) as [b|] eqn:Hb; [|done]. apply reach_end; auto.
Qed.

Lemma demo_delivered_reaches safe : reaches demo_cfg safe demo_delivered.
Proof.
  apply reaches_answer; [|by vm_compute]. apply reach_begin; [|done]. apply reach_publish.
  apply reach_add; [|done]. apply (reach_init demo_cfg safe [0]).
Qed.

Lemma acked_delivered_witness :
  exists n, published (default (new_reader 0) (y_readers demo_delivered !! 0%nat)) 100 n /\
    forall j, (j < n)%nat -> in_store demo_delivered {| og_reader := 0; og_pass := 0; og_index := j |}.
Proof.
  destruct (y_readers demo_delivered !! 0%nat) as [r|] eqn:Hr; [|by vm_compute in Hr].
  destruct (acked_delivered demo_cfg demo_delivered 0 r (demo_delivered_reaches _) Hr) as (n & Hn & Hall).
  exists n. vm_compute in Hr. injection Hr as <-. by split.
Defined.

Lemma samples_in_order_witness :
  of_set (bs "cpu") (y_added demo_lost) = of_set (bs "cpu") (y_settled demo_lost) /\ length (y_added demo_lost) = 2%nat.
Proof.
  assert (Hy : reaches demo_cfg (fun _ _ => True) demo_lost).
  { apply reaches_answer; [|done]. apply reach_begin; [|done]. apply reach_add; [|done]. apply reach_publish.
    apply reaches_answer; [|done]. apply reach_begin; [|done]. apply reach_add; [|done]. apply (reach_init demo_cfg _ [0]). }
  split; [|by vm_compute].
  destruct (samples_in_order demo_cfg (fun _ _ => True) demo_lost (bs "cpu") Hy) as [-> _]. by vm_compute.
Defined.

Lemma demo_row_plain : plain_sample (demo_row 0).
Proof.
  split; unfold demo_row; cbn [TSMs SubUS Fields].
  - unfold MaxTSMs. lia.
  - reflexivity.
  - apply map_non_empty_singleton.
  - apply map_Forall_singleton. unfold value_in_range. mlia.
Qed.

Lemma body_within_budget_witness :
  let '(b, so') := flush_begin id demo_cfg 0 (enqueue (bs "cpu") (demo_row 0) (enqueue (bs "cpu") (demo_row 0) (NewSink demo_cfg)), [newRemoteProgress]) in
  match b with
  | Sent meta sets batches count partial => exists body, json_request meta sets batches = Some body /\ zlen body <= 4194304
  | _ => False
  end.
Proof.
  set (s := enqueue (bs "cpu") (demo_row 0) (enqueue (bs "cpu") (demo_row 0) (NewSink demo_cfg))).
  assert (Hb : (flush_begin id demo_cfg 0 (s, [newRemoteProgress])).1 = Sent [] [] [(bs "cpu", [demo_row 0; demo_row 0])] 2 false)
    by (vm_compute; reflexivity).
  destruct (flush_begin id demo_cfg 0 (s, [newRemoteProgress])) as [b so'] eqn:Hf. cbn [fst] in Hb. subst b. destruct (json_request [] [] [(bs "cpu", [demo_row 0; demo_row 0])]) as [body|] eqn:Hbody; [|by vm_compute in Hbody].
  exists body. split; [reflexivity|]. change 4194304 with (sk_batchBytes s).
  apply (body_within_budget demo_cfg 0 s [newRemoteProgress] [] [] [(bs "cpu", [demo_row 0; demo_row 0])] 2 false so' body);
    [by vm_compute | by vm_compute | exact Hf | lia | | exact Hbody].
  apply Forall_singleton. apply Forall_cons. split; [|apply Forall_singleton]; exact demo_row_plain.
Defined.

Lemma refused_batch_returns_witness :
  let s := enqueue (bs "cpu") (demo_row 0) (NewSink demo_cfg) in
  let '(b, so') := flush_begin id demo_cfg 0 (s, [newRemoteProgress]) in
  let '(more, _, (s2, _)) := flush_end demo_cfg b 1 (Failed shed_reply) so' in
  more = false /\ held (sk_buffers s2) (bs "cpu") = [demo_row 0].
Proof.
  set (s := enqueue (bs "cpu") (demo_row 0) (NewSink demo_cfg)). cbv zeta.
  destruct (flush_begin id demo_cfg 0 (s, [newRemoteProgress])) as [b so'] eqn:Hf.
  pose proof (refused_batch_returns id demo_cfg 0 1 shed_reply s [newRemoteProgress] b so' ltac:(by vm_compute) ltac:(by vm_compute) eq_refl Hf) as Hr.
  destruct (flush_end demo_cfg b 1 (Failed shed_reply) so') as [[more err] [s2 obs2]].
  destruct Hr as (Hm & _ & Hh & _). split; [done|]. rewrite Hh. by vm_compute.
Defined.

Lemma close_drains_witness :
  let s := with_hold 5 (enqueue (bs "cpu") (demo_row 0) (NewSink demo_cfg)) in
  let '(err, _, (s', _)) := Close id demo_cfg (fun _ => (1, 2, accept_reply 1)) 0 (s, [newRemoteProgress]) in
  err = None /\ sk_pending s' = 0.
Proof.
  set (s := with_hold 5 (enqueue (bs "cpu") (demo_row 0) (NewSink demo_cfg))). cbv zeta.
  pose proof (close_drains (Obs := progress) id demo_cfg (fun _ => (1, 2, accept_reply 1)) ltac:(intros; by repeat eexists) 0 s [newRemoteProgress] ltac:(by vm_compute)) as Hc.
  destruct (Close _ _ _ _ _) as [[err n] [s' obs']]. by destruct Hc as (? & ? & _).
Defined.

(** ** Where the code falls short *)

(** C23: code bug. the premise of [acked_delivered] does not hold by itself.
    A reader whose record's sample is flushed before the record's position
    is published has nothing in flight, so [markHoled] leaves it alone when
    the store refuses that batch for good; the next delivery acknowledges
    the published position, and the lost sample is never read again. *)
Theorem acked_past_lost :
  exists y r, reaches demo_cfg (fun _ _ => True) y /\ y_readers y !! 0%nat = Some r /\
    pg_acked (rd_pos r) = 100 /\ rd_start r = 0 /\ rd_log r = [(100, 1%nat)] /\ replayOwed (rd_pos r) = false /\
    tag 0 r 0 ∈ (y_lost y).*2 /\ ~ in_store y (tag 0 r 0).
Proof.
  exists demo_lost. destruct (y_readers demo_lost !! 0%nat) as [r|] eqn:Hr; [|by vm_compute in Hr].
  exists r. assert (Hd : y_delivered demo_lost = [(demo_row 0, {| og_reader := 0; og_pass := 0; og_index := 1 |})]) by by vm_compute.
  assert (Hl : y_lost demo_lost = [(demo_row 0, {| og_reader := 0; og_pass := 0; og_index := 0 |})]) by by vm_compute.
  split; [|split; [done|]].
  - apply reaches_answer; [|done]. apply reach_begin; [|done]. apply reach_add; [|done]. apply reach_publish.
    apply reaches_answer; [|done]. apply reach_begin; [|done]. apply reach_add; [|done]. apply (reach_init demo_cfg _ [0]).
  - rewrite Hl. unfold in_store. rewrite Hd. vm_compute in Hr. injection Hr as <-. do 4 (split; [reflexivity|]).
    split; [left|]. intros [smp Hin]. by apply list_elem_of_singleton in Hin.
Qed.

(** A row whose timestamp has a microsecond fraction. *)
Definition fraction_row : Sample :=
  {| TSMs := 1700000000000; SubUS := 999; Labels := ∅; Fields := {[bs "m" := VString (bs "x")]}; KeyHint := [] |}.
Definition tight_cfg : SinkConfig :=
  {| c_BatchSize := 1024; c_BatchBytes := 600; c_FlushEvery := 1; c_MaxFatalDrops := 0; c_MaxBufferedSamples := 1000 |}.
Definition tight_sink : Sink Sample := Nat.iter 10 (enqueue (bs "cpu") fraction_row) (NewSink tight_cfg).

(** code bug. [sampleBytes] does not count [sub_us], so a take of
    several samples with a microsecond fraction can encode to more than the
    budget it was measured against. *)
Theorem sub_us_undercounted :
  exists meta sets batches count partial so' body,
    flush_begin id tight_cfg 0 (tight_sink, [newRemoteProgress]) = (Sent meta sets batches count partial, so') /\
    2 <= count /\ batch_cost id batches <= sk_batchBytes tight_sink /\
    json_request meta sets batches = Some body /\ sk_batchBytes tight_sink < zlen body.
Proof.
  assert (Hb : (flush_begin id tight_cfg 0 (tight_sink, [newRemoteProgress])).1 =
      Sent [] [] [(bs "cpu", replicate 10 fraction_row)] 10 false) by (vm_compute; reflexivity).
  destruct (flush_begin id tight_cfg 0 (tight_sink, [newRemoteProgress])) as [b so'] eqn:Hf. cbn [fst] in Hb. subst b. destruct (json_request [] [] [(bs "cpu", replicate 10 fraction_row)]) as [body|] eqn:Hbody; [|by vm_compute in Hbody].
  exists [], [], [(bs "cpu", replicate 10 fraction_row)], 10, false, so', body.
  split; [done|]. split; [lia|]. split; [by vm_compute|]. split; [done|]. vm_compute in Hbody. injection Hbody as <-. by vm_compute.
Qed.
