(* ===== verification/IngestFollowProps.v ===== *)
(** * Following a file: what holds, and where it falls short *)

From Stdlib Require Import ZArith Lia Bool.
From Stdlib Require Import Strings.Byte Strings.String.
From stdpp Require Import gmap.
From S2P Require Import Prelude Bytes Float64 GoStd GoText Model Wire.
From S2P Require Import ExtractHistogram ExtractTimestamp ExtractStream Instances ExtractDemo.
From S2P Require Import IngestRecord IngestSink IngestFollow IngestDeliveryProps.

(** ** Positions and loops *)

Section Read.
Context `{FloatText} `{Regexp} `{TimeLib} `{JsonFloat} `{SHA256}.
Context {X : Type} (sample_of : X -> Sample) (mk : Sample -> X).
Context (cfg : SinkConfig) (world : nat -> Z * Z * reply).
Context (p : Profile) (aggSlot : list Z) (loc : location) (refTime from to : Z).
Context (MaxRecordBytes : Z) (me : nat) (n : nat) (clock : nat -> Z).
Implicit Types (t : tailer) (w : Sink X * list progress * nat).

Abbreviation turns := (read_turns sample_of mk cfg world p aggSlot loc refTime from to MaxRecordBytes me (bufio n) clock).

(** C24: no position runs ahead of the read head.  However the file is
    chunked, whatever the extractor holds and whatever the flushes a record
    triggers tell the observers, [read] moves the head forward inside the
    file and leaves what a checkpoint may record at or behind it. *)
Theorem read_never_ahead fuel i file s t w err t' w' :
  n <> 0%nat -> zlen file < two63 -> 0 <= tl_offset t -> tl_offset t + zlen s = zlen file ->
  positions me (tl_offset t) w ->
  turns fuel i file s t w = Some (err, t', w') ->
  tl_offset t <= tl_offset t' <= zlen file /\ positions me (tl_offset t') w'.
Proof.
  intros Hn Hf Ho Hs Hw Hr.
  pose proof (read_turns_positions sample_of mk cfg world p aggSlot loc refTime from to MaxRecordBytes me n clock
                file fuel i s t w Hn Hf Hs Ho Hw) as Hp.
  by rewrite Hr in Hp.
Qed.

(** [read] ends.  Two turns more than the bytes left are enough: with
    that fuel the loop gives what it gives with any more, so a result that
    is missing means the sink blocked. *)
Theorem read_turns_enough_fuel fuel i file s t w :
  n <> 0%nat -> 0 <= MaxRecordBytes -> zlen file < two63 -> (length s <= length file)%nat -> (length s + 2 <= fuel)%nat ->
  turns fuel i file s t w = turns (length s + 2) i file s t w.
Proof.
  intros Hn Hmax Hf Hs. induction 1 as [|fuel Hle IH]; [done|].
  rewrite <- IH. by apply read_turns_fuel_S; (done || lia).
Qed.
End Read.

(** a start that resumes has checked the file.  A followed file is read
    from a saved position only when its leading bytes, as many as the
    fingerprint covers, hash to the recorded fingerprint and the position
    lies inside the file; otherwise it starts at zero. *)
Theorem resume_checked `{SHA256} start_at cp file :
  let off := start_offset start_at (Some cp) file in
  off = 0 \/
  (off = cp_AckedOffset cp /\ off <= zlen file /\
   exists width hash, (0 < width <= zlen file) /\ hash (take (Z.to_nat width) file) = cp_Fingerprint cp /\
     ((width = cp_FingerprintBytes cp /\ hash = fingerprintOf) \/ (width = legacyFingerprintBytes /\ hash = legacyFingerprintOf))).
Proof.
  cbn. unfold start_offset. destruct (negb _ && fingerprintMatches file cp) eqn:Hm; [|by break_if; left].
  apply andb_true_iff in Hm as [_ Hm]. destruct (Z.gtb_spec (cp_AckedOffset cp) (zlen file)) as [|Hle]; [by left | right].
  split_and!; [done | lia|]. unfold fingerprintMatches, fingerprintAt in Hm.
  destruct (bytes_eqb (cp_Fingerprint cp) []); [done|]. destruct (HasPrefix _ _).
  - destruct (Z.leb_spec (cp_FingerprintBytes cp) 0); [done|]. apply andb_true_iff in Hm as [Hn Hb].
    apply Z.eqb_eq in Hn. apply bytes_eqb_spec in Hb. exists (cp_FingerprintBytes cp), fingerprintOf.
    split_and!; [lia | | done | by left]. rewrite <- Hn. unfold zlen. rewrite length_take. lia.
  - destruct (Z.ltb_spec (zlen (take (Z.to_nat legacyFingerprintBytes) file)) legacyFingerprintBytes); [done|].
    apply bytes_eqb_spec in Hm. exists legacyFingerprintBytes, legacyFingerprintOf.
    split_and!; [by vm_compute | | done | by right]. unfold zlen in *. rewrite length_take in *. lia.
Qed.

(** ** A small file *)

(** Thirty-two bytes that tell short texts apart. *)
#[export] Instance padded_sum : SHA256 := { Sum256 s := take 32 (s ++ replicate 32 x00) }.

Definition demo_file : gostr := [x0a] ++ bs "1700 note 5" ++ [x0a].
Definition demo_tailer (offset : Z) : tailer :=
  {| tl_stream := bs "s"; tl_labels := ∅; tl_offset := offset; tl_ex := NewStream demo_profile 1970;
     tl_fingerprint := []; tl_fingerprintAt := 0; tl_cp := new_checkpoint (bs "s") (bs "/var/log/a"); tl_lag := 0;
     tl_savedAt := zero_time; tl_saveOwed := false |}.
Definition demo_outside (s : Sink Sample) : Sink Sample * list progress * nat := (s, [newRemoteProgress], 0%nat).
Definition quiet : nat -> Z * Z * reply := fun _ => (1, 1, accept_reply 0).

Abbreviation demo_turns fuel := (read_turns id id DefaultSinkConfig quiet demo_profile [] UTC 0 zero_time zero_time 1000 0 (bufio 16) (fun _ => 0)
  fuel 0 demo_file demo_file (demo_tailer 0) (demo_outside (NewSink DefaultSinkConfig))).
Definition demo_rotated := rotated_turns id id DefaultSinkConfig quiet demo_profile [] UTC 0 zero_time zero_time 1000 (bufio 16) (fun _ => 0)
  20 0 demo_file demo_file 0 (demo_tailer 0) (demo_outside (NewSink DefaultSinkConfig)).

Definition hints_of (w : Sink Sample * list progress * nat) (set : gostr) : list gostr := map KeyHint (default [] (sk_buffers w.1.1 !! set)).

(** code bug. the loop over a rotated file moves its offset over
    non-empty lines only, so after a blank line a record gets another key
    hint than [read] gives it: under offset keying a replay of the tail
    writes the record a second time instead of over itself. *)
Theorem rotated_hints_drift :
  match demo_turns 20%nat, demo_rotated with
  | Some (None, t, w), Some (None, off, _, w') =>
      hints_of w (bs "notes") = [keyHint (bs "s") (offsetPos 1) 0] /\
      hints_of w' (bs "notes") = [keyHint (bs "s") (offsetPos 0) 0] /\
      tl_offset t = zlen demo_file /\ off = zlen demo_file - 1
  | _, _ => False
  end.
Proof. vm_compute. by split_and!. Qed.

(** A sink that is holding delivery, with one sample of the rotated file. *)
Definition holding_sink : Sink Sample := with_hold 100 (enqueue (bs "notes") (demo_row 0) (NewSink DefaultSinkConfig)).
Definition tail_on_disk : Checkpoint :=
  cp_tail (Some {| rt_Path := bs "/var/log/a.1"; rt_Offset := 0; rt_Fingerprint := []; rt_FingerprintBytes := 0 |})
    (new_checkpoint (bs "s") (bs "/var/log/a")).

(** for one, a rotated file's tail is forgotten while its samples are
    still in memory.  [closeTailer] keeps the pending tail only when the
    flush reports an error, and [Flush] reports none when delivery is being
    held: the record that would finish the file after a crash is replaced by
    one without a tail, with the drained sample undelivered. *)
Example rotated_tail_forgotten :
  match close_rotated id id DefaultSinkConfig quiet demo_profile [] 0 7 5 (demo_tailer 12) (demo_outside holding_sink)
          {[bs "s" := tail_on_disk]} with
  | Some (t, w, disk) =>
      sk_pending w.1.1 = 1 /\ (disk !! bs "s") ≫= cp_PendingTail = None /\ cp_PendingTail tail_on_disk <> None
  | None => False
  end.
Proof. vm_compute. by split_and!. Qed.

Lemma read_never_ahead_witness :
  match demo_turns 20%nat with
  | Some (_, t', w') => 0 <= tl_offset t' <= zlen demo_file /\ positions 0 (tl_offset t') w'
  | None => False
  end.
Proof.
  assert (Hsome : (if demo_turns 20%nat is Some _ then true else false) = true) by (vm_compute; reflexivity).
  destruct (demo_turns 20%nat) as [[[err t'] w']|] eqn:Hr; [|discriminate Hsome]. clear Hsome.
  apply (read_never_ahead id id DefaultSinkConfig quiet demo_profile [] UTC 0 zero_time zero_time 1000 0 16 (fun _ => 0)
    20 0 demo_file demo_file (demo_tailer 0) (demo_outside (NewSink DefaultSinkConfig)) err t' w');
    [done | reflexivity | reflexivity | reflexivity | | exact Hr].
  intros q Hq. cbn in Hq. injection Hq as <-. unfold behind. cbn. lia.
Defined.

Lemma read_turns_enough_fuel_witness : demo_turns 50%nat = demo_turns 15%nat.
Proof.
  apply (read_turns_enough_fuel id id DefaultSinkConfig quiet demo_profile [] UTC 0 zero_time zero_time 1000 0 16 (fun _ => 0)
    50 0 demo_file demo_file (demo_tailer 0) (demo_outside (NewSink DefaultSinkConfig))); [done | done | done | done |].
  apply Nat.leb_le. reflexivity.
Defined.
