(* ===== verification/StoreState.v ===== *)
(** * The state of the store process ([internal/store/store.go])

    The store holds the engine, the catalogue of what its sets carry, a
    dictionary for each label key, the retention and shard widths that were
    declared, and the keys of the writes it has answered.  An operation is
    state passing with errors; what it changed before an error stays, as
    in the code.  Each read of the clock takes the next reading of
    [s_clock]; a map is walked in the order of [map_to_list]. *)

From Stdlib Require Import ZArith Lia Bool.
From Stdlib Require Import Strings.Byte Strings.String.
From stdpp Require Import gmap.
From S2P Require Import Prelude Bytes Float64 GoStd GoText Model Wire EngineKeys EngineCodec EngineDB.

(** ** What the store is configured with *)

Record Config : Type := {
  cf_Retention : Z;
  cf_Shard : Z;
  cf_SetRetention : gmap gostr Z;
  cf_SetShard : gmap gostr Z;
  cf_RetentionSweep : Z;
  cf_MaxSeriesPerGraph : Z;
  cf_MaxDataPointsReceived : Z;
  cf_MaxLabelCardinality : Z;
  cf_MaxLabelKeys : Z;
  cf_MaxSets : Z;
  cf_MaxFieldsPerSet : Z;
  cf_MaxBucketSetsPerSet : Z;
}.

(** ** The catalogue *)

Record BucketSetInfo : Type := { bi_Buckets : list gostr; bi_Edges : list f64; bi_Unit : gostr }.

Record CatalogueConflict : Type := { cc_Set : gostr; cc_Field : gostr; cc_Was : gostr; cc_Now : gostr }.

Record fieldEntry : Type := {
  fe_Kind : gostr;
  fe_Unit : gostr;
  fe_UnitHint : gostr;
  fe_Description : gostr;
  fe_MaxInterval : Z;
  fe_LimitMin : option f64;
  fe_LimitMax : option f64;
  fe_BucketSet : gostr;
  fe_BucketIndex : Z;
  fe_BucketEdge : f64;
  fe_LastSeenMs : Z;
}.

(** [&fieldEntry{}]. *)
Definition new_field : fieldEntry :=
  {| fe_Kind := []; fe_Unit := []; fe_UnitHint := []; fe_Description := []; fe_MaxInterval := 0; fe_LimitMin := None;
     fe_LimitMax := None; fe_BucketSet := []; fe_BucketIndex := 0; fe_BucketEdge := of_int 0; fe_LastSeenMs := 0 |}.

Definition observed (f : fieldEntry) : bool := fe_LastSeenMs f >? 0.

(** [kind]: a field no one declared is a gauge. *)
Definition kind (f : fieldEntry) : gostr := if bytes_eqb (fe_Kind f) [] then bs "gauge" else fe_Kind f.

Definition staleAfter_ms : Z := 7 * 24 * 3600 * 1000.
Definition stale (nowMs : Z) (f : fieldEntry) : bool := observed f && (nowMs - fe_LastSeenMs f >? staleAfter_ms).

Record setEntry : Type := {
  se_Name : gostr;
  se_Fields : gmap gostr fieldEntry;
  se_Labels : gset gostr;
  se_BucketSets : gmap gostr BucketSetInfo;
  se_KeyScheme : gostr;
  se_FirstTSMs : Z;
  se_LastTSMs : Z;
  se_RetentionMs : option Z;
  se_ShardMs : option Z;
}.

Definition new_entry (set : gostr) : setEntry :=
  {| se_Name := set; se_Fields := ∅; se_Labels := ∅; se_BucketSets := ∅; se_KeyScheme := []; se_FirstTSMs := 0;
     se_LastTSMs := 0; se_RetentionMs := None; se_ShardMs := None |}.

Definition se_set_Fields v (e : setEntry) : setEntry :=
  {| se_Name := se_Name e; se_Fields := v; se_Labels := se_Labels e; se_BucketSets := se_BucketSets e; se_KeyScheme := se_KeyScheme e; se_FirstTSMs := se_FirstTSMs e; se_LastTSMs := se_LastTSMs e; se_RetentionMs := se_RetentionMs e; se_ShardMs := se_ShardMs e |}.
Definition se_set_Labels v (e : setEntry) : setEntry :=
  {| se_Name := se_Name e; se_Fields := se_Fields e; se_Labels := v; se_BucketSets := se_BucketSets e; se_KeyScheme := se_KeyScheme e; se_FirstTSMs := se_FirstTSMs e; se_LastTSMs := se_LastTSMs e; se_RetentionMs := se_RetentionMs e; se_ShardMs := se_ShardMs e |}.
Definition se_set_BucketSets v (e : setEntry) : setEntry :=
  {| se_Name := se_Name e; se_Fields := se_Fields e; se_Labels := se_Labels e; se_BucketSets := v; se_KeyScheme := se_KeyScheme e; se_FirstTSMs := se_FirstTSMs e; se_LastTSMs := se_LastTSMs e; se_RetentionMs := se_RetentionMs e; se_ShardMs := se_ShardMs e |}.
Definition se_set_KeyScheme v (e : setEntry) : setEntry :=
  {| se_Name := se_Name e; se_Fields := se_Fields e; se_Labels := se_Labels e; se_BucketSets := se_BucketSets e; se_KeyScheme := v; se_FirstTSMs := se_FirstTSMs e; se_LastTSMs := se_LastTSMs e; se_RetentionMs := se_RetentionMs e; se_ShardMs := se_ShardMs e |}.
Definition se_set_FirstTSMs v (e : setEntry) : setEntry :=
  {| se_Name := se_Name e; se_Fields := se_Fields e; se_Labels := se_Labels e; se_BucketSets := se_BucketSets e; se_KeyScheme := se_KeyScheme e; se_FirstTSMs := v; se_LastTSMs := se_LastTSMs e; se_RetentionMs := se_RetentionMs e; se_ShardMs := se_ShardMs e |}.
Definition se_set_LastTSMs v (e : setEntry) : setEntry :=
  {| se_Name := se_Name e; se_Fields := se_Fields e; se_Labels := se_Labels e; se_BucketSets := se_BucketSets e; se_KeyScheme := se_KeyScheme e; se_FirstTSMs := se_FirstTSMs e; se_LastTSMs := v; se_RetentionMs := se_RetentionMs e; se_ShardMs := se_ShardMs e |}.
Definition se_set_RetentionMs v (e : setEntry) : setEntry :=
  {| se_Name := se_Name e; se_Fields := se_Fields e; se_Labels := se_Labels e; se_BucketSets := se_BucketSets e; se_KeyScheme := se_KeyScheme e; se_FirstTSMs := se_FirstTSMs e; se_LastTSMs := se_LastTSMs e; se_RetentionMs := v; se_ShardMs := se_ShardMs e |}.
Definition se_set_ShardMs v (e : setEntry) : setEntry :=
  {| se_Name := se_Name e; se_Fields := se_Fields e; se_Labels := se_Labels e; se_BucketSets := se_BucketSets e; se_KeyScheme := se_KeyScheme e; se_FirstTSMs := se_FirstTSMs e; se_LastTSMs := se_LastTSMs e; se_RetentionMs := se_RetentionMs e; se_ShardMs := v |}.

(** ** The dictionary of a label key *)

Record dictionary : Type := {
  Entries : list gostr;
  index : gmap gostr Z;
  live : Z;
  holes : list Z;
  alias : gmap gostr (list Z);
}.

Definition new_dictionary : dictionary := {| Entries := []; index := ∅; live := 0; holes := []; alias := ∅ |}.

(** ** Errors *)

Inductive bad_request : Type :=
| BadName (e : model_err)
| BadReserved (set : gostr)
| BadNegative (set : gostr)
| BadTooLong (set : gostr)
| BadKeyScheme (set scheme : gostr)
| BadField (set field : gostr) (e : model_err)
| BadBucketIndex (set field : gostr) (i : Z)
| BadText (set field : gostr)
| BadInterval (set field : gostr)
| BadLimits (set field : gostr)
| BadTooManySets (set : gostr)
| BadTooManyBuckets (set bucketSet : gostr)
| BadTooManyFields (set field : gostr).

Inductive store_err : Type :=
| StClosed
| StEngine (e : db_err)
| StFault (key : gostr) (e : db_err)
| StBad (e : bad_request)
| StDictUnreadable (k : gostr)
| StDictIndex (k : gostr) (i : Z)
| StCatalogue
| StTooManyKeys (key : gostr)
| StTooManyValues (key : gostr)
| StReservedLabel (key : gostr)
| StLabelValue (key : gostr) (e : model_err)
| StBoth (name : gostr)
| StColumn (name set : gostr)
| StTooManySets (set : gostr)
| StTooManyFields (set : gostr)
| StSample (e : model_err)
| StNeedsKeyHint (set : gostr).

(** [errors.Is(err, ErrStoreFault)]. *)
Definition is_fault (e : store_err) : bool := match e with StFault _ _ => true | _ => false end.

(** ** The store *)

(** An answered write's key, and when it is forgotten. *)
Record idemItem : Type := { it_key : gostr; it_exp : Z }.

(** The list from the front, which [keys] indexes. *)
Record idempotencyCache : Type := { ic_max : Z; ic_ll : list idemItem }.

(** [encoding/json] on the catalogue record and on a packed dictionary;
    [None] is its error. *)
Class StoreJSON := {
  cat_Marshal : Z -> gmap gostr setEntry -> list CatalogueConflict -> option gostr;
  cat_Unmarshal : gostr -> option (Z * gmap gostr setEntry * list CatalogueConflict);
  dict_Marshal : list gostr -> option gostr;
  dict_Unmarshal : gostr -> option (list gostr);
}.

(** The text of an error, which a rejection carries to the client. *)
Class ErrorText := { Error_ : store_err -> gostr }.

Section Store.
Context `{FloatText} `{MetaJSON} `{L : LSM}.

Record Store : Type := {
  s_cfg : Config;
  s_db : DB;
  s_catalogue : gmap gostr setEntry;
  s_catVer : Z;
  s_conflicts : list CatalogueConflict;
  s_dict : gmap gostr dictionary;
  s_setRetention : gmap gostr Z;
  s_setShard : gmap gostr Z;
  s_idem : idempotencyCache;
  s_closed : bool;
  s_now : Z;
  s_clock : list Z;
}.

Definition s_set_db v (s : Store) : Store :=
  {| s_cfg := s_cfg s; s_db := v; s_catalogue := s_catalogue s; s_catVer := s_catVer s; s_conflicts := s_conflicts s; s_dict := s_dict s; s_setRetention := s_setRetention s; s_setShard := s_setShard s; s_idem := s_idem s; s_closed := s_closed s; s_now := s_now s; s_clock := s_clock s |}.
Definition s_set_catalogue v (s : Store) : Store :=
  {| s_cfg := s_cfg s; s_db := s_db s; s_catalogue := v; s_catVer := s_catVer s; s_conflicts := s_conflicts s; s_dict := s_dict s; s_setRetention := s_setRetention s; s_setShard := s_setShard s; s_idem := s_idem s; s_closed := s_closed s; s_now := s_now s; s_clock := s_clock s |}.
Definition s_set_catVer v (s : Store) : Store :=
  {| s_cfg := s_cfg s; s_db := s_db s; s_catalogue := s_catalogue s; s_catVer := v; s_conflicts := s_conflicts s; s_dict := s_dict s; s_setRetention := s_setRetention s; s_setShard := s_setShard s; s_idem := s_idem s; s_closed := s_closed s; s_now := s_now s; s_clock := s_clock s |}.
Definition s_set_conflicts v (s : Store) : Store :=
  {| s_cfg := s_cfg s; s_db := s_db s; s_catalogue := s_catalogue s; s_catVer := s_catVer s; s_conflicts := v; s_dict := s_dict s; s_setRetention := s_setRetention s; s_setShard := s_setShard s; s_idem := s_idem s; s_closed := s_closed s; s_now := s_now s; s_clock := s_clock s |}.
Definition s_set_dict v (s : Store) : Store :=
  {| s_cfg := s_cfg s; s_db := s_db s; s_catalogue := s_catalogue s; s_catVer := s_catVer s; s_conflicts := s_conflicts s; s_dict := v; s_setRetention := s_setRetention s; s_setShard := s_setShard s; s_idem := s_idem s; s_closed := s_closed s; s_now := s_now s; s_clock := s_clock s |}.
Definition s_set_setRetention v (s : Store) : Store :=
  {| s_cfg := s_cfg s; s_db := s_db s; s_catalogue := s_catalogue s; s_catVer := s_catVer s; s_conflicts := s_conflicts s; s_dict := s_dict s; s_setRetention := v; s_setShard := s_setShard s; s_idem := s_idem s; s_closed := s_closed s; s_now := s_now s; s_clock := s_clock s |}.
Definition s_set_setShard v (s : Store) : Store :=
  {| s_cfg := s_cfg s; s_db := s_db s; s_catalogue := s_catalogue s; s_catVer := s_catVer s; s_conflicts := s_conflicts s; s_dict := s_dict s; s_setRetention := s_setRetention s; s_setShard := v; s_idem := s_idem s; s_closed := s_closed s; s_now := s_now s; s_clock := s_clock s |}.
Definition s_set_idem v (s : Store) : Store :=
  {| s_cfg := s_cfg s; s_db := s_db s; s_catalogue := s_catalogue s; s_catVer := s_catVer s; s_conflicts := s_conflicts s; s_dict := s_dict s; s_setRetention := s_setRetention s; s_setShard := s_setShard s; s_idem := v; s_closed := s_closed s; s_now := s_now s; s_clock := s_clock s |}.
Definition s_set_closed v (s : Store) : Store :=
  {| s_cfg := s_cfg s; s_db := s_db s; s_catalogue := s_catalogue s; s_catVer := s_catVer s; s_conflicts := s_conflicts s; s_dict := s_dict s; s_setRetention := s_setRetention s; s_setShard := s_setShard s; s_idem := s_idem s; s_closed := v; s_now := s_now s; s_clock := s_clock s |}.
Definition s_set_now v (s : Store) : Store :=
  {| s_cfg := s_cfg s; s_db := s_db s; s_catalogue := s_catalogue s; s_catVer := s_catVer s; s_conflicts := s_conflicts s; s_dict := s_dict s; s_setRetention := s_setRetention s; s_setShard := s_setShard s; s_idem := s_idem s; s_closed := s_closed s; s_now := v; s_clock := s_clock s |}.
Definition s_set_clock v (s : Store) : Store :=
  {| s_cfg := s_cfg s; s_db := s_db s; s_catalogue := s_catalogue s; s_catVer := s_catVer s; s_conflicts := s_conflicts s; s_dict := s_dict s; s_setRetention := s_setRetention s; s_setShard := s_setShard s; s_idem := s_idem s; s_closed := s_closed s; s_now := s_now s; s_clock := v |}.

(** [catVer.Add(1)]. *)
Definition bump (s : Store) : Store := s_set_catVer (i64 (s_catVer s + 1)) s.

(** ** The monad of the store's operations *)

Definition SM (A : Type) : Type := Store -> result store_err A * Store.
#[global] Instance SM_ret : MRet SM := fun A a s => (Ok a, s).
#[global] Instance SM_bind : MBind SM := fun A B k m s =>
  match m s with
  | (Ok a, s') => k a s'
  | (Err e, s') => (Err e, s')
  end.

Definition sfail {A} (e : store_err) : SM A := fun s => (Err e, s).
Definition get_store : SM Store := fun s => (Ok s, s).
Definition smodify (f : Store -> Store) : SM unit := fun s => (Ok tt, f s).
Definition slift {A} (r : result store_err A) : SM A := fun s => (r, s).

(** A call into the engine. *)
Definition engine {A} (m : M A) : SM A := fun s =>
  let '(r, d) := m (s_db s) in
  (match r with Ok a => Ok a | Err e => Err (StEngine e) end, s_set_db d s).

(** One whose error the caller looks at. *)
Definition engine_try {A} (m : M A) : SM (result db_err A) := fun s =>
  let '(r, d) := m (s_db s) in (Ok r, s_set_db d s).

(** A call whose error the caller keeps and goes on. *)
Definition stry {A} (m : SM A) : SM (result store_err A) := fun s => let '(r, s') := m s in (Ok r, s').

(** [time.Now()], in nanoseconds. *)
Definition time_Now : SM Z := fun s =>
  match s_clock s with
  | t :: c => (Ok t, s_set_clock c (s_set_now t s))
  | [] => (Ok (s_now s), s)
  end.

(** [enterEngine]: refused once the store is closed. *)
Definition enterEngine : SM unit := s ← get_store; if s_closed s then sfail StClosed else mret tt.

(** ** What every run of an operation keeps *)

(** A relation between the store before and after that any run of [m]
    keeps, however it ends. *)
Definition respects {A} (R : Store -> Store -> Prop) (m : SM A) : Prop := forall s, R s (m s).2.

Section Respects.
Context (R : Store -> Store -> Prop) `{!PreOrder R}.

Lemma respects_bind {A B} (m : SM A) (k : A -> SM B) : respects R m -> (forall a, respects R (k a)) -> respects R (m ≫= k).
Proof.
  intros Hm Hk s. specialize (Hm s). unfold mbind, SM_bind. destruct (m s) as [[a|e] s1]; cbn [snd] in *; [|done].
  etransitivity; [exact Hm | apply Hk].
Qed.
Lemma respects_ret {A} (a : A) : respects R (mret a).
Proof. intros s. reflexivity. Qed.
Lemma respects_fail {A} e : respects R (sfail e : SM A).
Proof. intros s. reflexivity. Qed.
Lemma respects_get : respects R get_store.
Proof. intros s. reflexivity. Qed.
Lemma respects_lift {A} (r : result store_err A) : respects R (slift r).
Proof. intros s. reflexivity. Qed.
Lemma respects_try {A} (m : SM A) : respects R m -> respects R (stry m).
Proof. intros Hm s. specialize (Hm s). unfold stry. by destruct (m s). Qed.
Lemma respects_modify f : (forall s, R s (f s)) -> respects R (smodify f).
Proof. intros Hf s. apply Hf. Qed.
Lemma respects_engine {A} (m : M A) : (forall s, R s (s_set_db (m (s_db s)).2 s)) -> respects R (engine m) /\ respects R (engine_try m).
Proof. intros Hm. split; intros s; specialize (Hm s); unfold engine, engine_try; by destruct (m (s_db s)). Qed.
Lemma respects_enter : respects R enterEngine.
Proof. apply respects_bind; [apply respects_get|]. intros s. destruct (s_closed s); [apply respects_fail | apply respects_ret]. Qed.

End Respects.

End Store.

(** One step into a run: what is atomic is closed, and a bind is split. *)
Ltac respects_step :=
  first [ apply respects_ret; apply _ | apply respects_fail; apply _ | apply respects_get; apply _ | apply respects_lift; apply _
        | apply respects_enter; apply _ | apply respects_try | (apply respects_bind; [apply _| |intros ?]) ].
