(* ===== verification/StoreDict.v ===== *)
(** * Label dictionaries ([internal/store/store.go])

    A label value is stored in a row as its index in the dictionary of the
    label's key.  One engine record holds each value, named by the key and
    the index, so the dictionary is what those records say. *)

From Stdlib Require Import ZArith Lia Bool.
From Stdlib Require Import Strings.Byte Strings.String.
From stdpp Require Import gmap.
From S2P Require Import Prelude Bytes Float64 GoStd GoText Model Wire EngineKeys EngineCodec EngineDB EngineQuery StoreShard StoreState.

(** ** One dictionary *)

(** [d.alias[e] = append(d.alias[e], i)]. *)
Definition push_alias (e : gostr) (i : Z) (m : gmap gostr (list Z)) : gmap gostr (list Z) :=
  <[e := default [] (m !! e) ++ [i]]> m.

(** The loop of [rebuildIndex] from position [i]. *)
Fixpoint rebuild_from (i : Z) (es : list gostr) (d : dictionary) : dictionary :=
  match es with
  | [] => d
  | e :: es' =>
      rebuild_from (i + 1) es'
        (if bytes_eqb e [] then
           {| Entries := Entries d; index := index d; live := live d; holes := holes d ++ [i32 i]; alias := alias d |}
         else
           match index d !! e with
           | None => {| Entries := Entries d; index := <[e := i32 i]> (index d); live := live d + 1; holes := holes d; alias := alias d |}
           | Some _ => {| Entries := Entries d; index := index d; live := live d + 1; holes := holes d; alias := push_alias e (i32 i) (alias d) |}
           end)
  end.

Definition rebuildIndex (d : dictionary) : dictionary :=
  rebuild_from 0 (Entries d) {| Entries := Entries d; index := ∅; live := 0; holes := []; alias := ∅ |}.

Definition positions (d : dictionary) (value : gostr) : option (list Z) :=
  match index d !! value with
  | None => None
  | Some i => Some (i :: default [] (alias d !! value))
  end.

Definition is_hole (es : list gostr) (h : Z) : bool :=
  (h <? zlen es) && match idx es h with Some e => bytes_eqb e [] | None => false end.

(** The free list, newest first: what is popped, and what is left. *)
Fixpoint pop_hole (es : list gostr) (newest : list Z) : option Z * list Z :=
  match newest with
  | [] => (None, [])
  | h :: rest => if is_hole es h then (Some h, rest) else pop_hole es rest
  end.

Definition takeHole (d : dictionary) : option Z * dictionary :=
  let '(h, rest) := pop_hole (Entries d) (rev (holes d)) in
  (h, {| Entries := Entries d; index := index d; live := live d; holes := rev rest; alias := alias d |}).

(** ** The names of the records *)

Definition dictEntryPrefix : gostr := bs "labelv:".
Definition dictPackedPrefix : gostr := bs "label:".
Definition maxDictIndex : Z := 16777216.

(** [%010d] of an index, which is not negative. *)
Definition pad10 (n : Z) : gostr := let s := FormatInt n in replicate (10 - length s) x30 ++ s.

Definition dictEntryKey (label : gostr) (i : Z) : gostr := dictEntryPrefix ++ label ++ [x00] ++ pad10 i.

(** [strings.CutPrefix]. *)
Definition CutPrefix (s p : gostr) : option gostr := if HasPrefix s p then Some (drop (length p) s) else None.

(** [strconv.ParseInt(s, 10, 32)]. *)
Definition ParseInt32 (s : gostr) : option Z :=
  match ParseInt s with
  | Some n => if between (- 2147483648) n 2147483647 then Some n else None
  | None => None
  end.

Definition splitDictEntryKey (k : gostr) : option (gostr * Z) :=
  match CutPrefix k dictEntryPrefix with
  | None => None
  | Some rest =>
      match Cut x00 rest with
      | (_, None) => None
      | (label, Some idxText) =>
          match ParseInt32 idxText with
          | None => None
          | Some i => if i <? 0 then None else Some (label, i)
          end
      end
  end.

Section Dict.
Context `{FloatText} `{MetaJSON} `{L : LSM} `{StoreJSON}.

(** ** Loading *)

(** [d.index[e] = i] for the entries that are not holes. *)
Fixpoint index_entries (i : Z) (es : list gostr) (m : gmap gostr Z) : gmap gostr Z :=
  match es with
  | [] => m
  | e :: es' => index_entries (i + 1) es' (if bytes_eqb e [] then m else <[e := i32 i]> m)
  end.

(** The whole-array records of earlier builds. *)
Fixpoint load_packed (keys : list gostr) : SM unit :=
  match keys with
  | [] => mret tt
  | k :: keys' =>
      (if negb (HasPrefix k dictPackedPrefix) then mret tt
       else
         r ← engine_try (GetDict k);
         match r with
         | Ok (Some b) =>
             match dict_Unmarshal b with
             | None => sfail (StDictUnreadable k)
             | Some es =>
                 smodify (fun s =>
                   s_set_dict (<[drop (length dictPackedPrefix) k :=
                     {| Entries := es; index := index_entries 0 es ∅; live := 0; holes := []; alias := ∅ |}]> (s_dict s)) s)
             end
         | _ => mret tt
         end) ;;
      load_packed keys'
  end.

(** The entry of one record, at its own position. *)
Definition place (i : Z) (v : gostr) (d : dictionary) : dictionary :=
  let es := Entries d ++ replicate (Z.to_nat (i + 1 - zlen (Entries d))) [] in
  {| Entries := <[Z.to_nat i := v]> es;
     index := if bytes_eqb v [] then index d
              else match index d !! v with None => <[v := i]> (index d) | Some _ => index d end;
     live := live d; holes := holes d; alias := alias d |}.

Fixpoint load_entries (keys : list gostr) : SM unit :=
  match keys with
  | [] => mret tt
  | k :: keys' =>
      match splitDictEntryKey k with
      | None => mret tt
      | Some (label, i) =>
          r ← engine_try (GetDict k);
          match r with
          | Ok (Some v) =>
              smodify (fun s => s_set_dict (<[label := default new_dictionary (s_dict s !! label)]> (s_dict s)) s) ;;
              if i >? maxDictIndex then sfail (StDictIndex k i)
              else smodify (fun s => s_set_dict (alter (place i v) label (s_dict s)) s)
          | _ => mret tt
          end
      end ;;
      load_entries keys'
  end.

Definition loadDictionaries : SM unit :=
  keys ← engine DictKeys;
  load_packed keys ;;
  load_entries keys ;;
  smodify (fun s => s_set_dict (rebuildIndex <$> s_dict s) s).

(** ** Interning *)

Definition set_dictionary (key : gostr) (d : dictionary) (s : Store) : Store := s_set_dict (<[key := d]> (s_dict s)) s.

(** The value in its slot, counted and indexed. *)
Definition add_value (i : Z) (value : gostr) (d : dictionary) : dictionary :=
  {| Entries := if i <? zlen (Entries d) then <[Z.to_nat i := value]> (Entries d) else Entries d ++ [value];
     index := <[value := i]> (index d); live := live d + 1; holes := holes d; alias := alias d |}.

Definition push_hole (i : Z) (d : dictionary) : dictionary :=
  {| Entries := Entries d; index := index d; live := live d; holes := holes d ++ [i]; alias := alias d |}.

(** What [intern] does under the exclusive lock, for a key whose
    dictionary is [d]; [fresh] when this call made it. *)
Definition intern_locked (key value : gostr) (fresh : bool) (d : dictionary) : SM Z :=
  s ← get_store;
  match index d !! value with
  | Some i => mret i
  | None =>
      if (cf_MaxLabelCardinality (s_cfg s) >? 0) && (live d >=? cf_MaxLabelCardinality (s_cfg s))
      then sfail (StTooManyValues key)
      else
        let '(hole, d) := takeHole d in
        smodify (set_dictionary key d) ;;
        let i := match hole with Some h => h | None => i32 (zlen (Entries d)) end in
        r ← engine_try (PutDict (dictEntryKey key i) value);
        match r with
        | Err e =>
            smodify (fun s =>
              let s := match hole with Some h => set_dictionary key (push_hole h d) s | None => s end in
              if fresh then s_set_dict (delete key (s_dict s)) s else s) ;;
            sfail (StFault key e)
        | Ok _ =>
            smodify (set_dictionary key (add_value i value d)) ;;
            mret i
        end
  end.

Definition intern (key value : gostr) : SM Z :=
  s ← get_store;
  match s_dict s !! key with
  | Some d =>
      match index d !! value with
      | Some i => mret i
      | None => intern_locked key value false d
      end
  | None =>
      if (cf_MaxLabelKeys (s_cfg s) >? 0) && (Z.of_nat (size (s_dict s)) >=? cf_MaxLabelKeys (s_cfg s))
      then sfail (StTooManyKeys key)
      else
        smodify (set_dictionary key new_dictionary) ;;
        intern_locked key value true new_dictionary
  end.

(** ** Reading *)

Definition lookup_label (s : Store) (key value : gostr) : option Z :=
  match s_dict s !! key with Some d => index d !! value | None => None end.

Definition lookupPositions (s : Store) (key value : gostr) : option (list Value) :=
  match s_dict s !! key with
  | None => None
  | Some d => map VInt <$> positions d value
  end.

Definition labelValue (s : Store) (key : gostr) (i : Z) : option gostr :=
  match s_dict s !! key with
  | None => None
  | Some d =>
      if (i <? 0) || (i >=? zlen (Entries d)) then None
      else match idx (Entries d) i with
           | Some e => if bytes_eqb e [] then None else Some e
           | None => None
           end
  end.

Fixpoint matching_from (i : Z) (keep : gostr -> bool) (es : list gostr) : list Value * Z :=
  match es with
  | [] => ([], 0)
  | e :: es' =>
      let '(vals, total) := matching_from (i + 1) keep es' in
      if bytes_eqb e [] then (vals, total)
      else (if keep e then VInt i :: vals else vals, total + 1)
  end.

Definition labelIndicesMatching (s : Store) (key : gostr) (keep : gostr -> bool) : list Value * Z :=
  match s_dict s !! key with
  | None => ([], 0)
  | Some d => matching_from 0 keep (Entries d)
  end.

Fixpoint distinct_values (seen : gset gostr) (es : list gostr) : list gostr :=
  match es with
  | [] => []
  | e :: es' =>
      if bytes_eqb e [] || bool_decide (e ∈ seen) then distinct_values seen es'
      else e :: distinct_values ({[e]} ∪ seen) es'
  end.

Definition LabelValues (s : Store) (key : gostr) : list gostr :=
  match s_dict s !! key with
  | None => []
  | Some d => sort_strings (distinct_values ∅ (Entries d))
  end.

End Dict.
