(* ===== verification/StoreDictProofs.v ===== *)
(** * What a dictionary keeps, and that interning keeps it

    [dict_wf]: every value has one indexed position and its other ones are
    aliases, every hole is on the free list, and [live] counts the values.
    Interning finds or adds a value, moves no value already there, and
    leaves the engine's records in step. *)

From Stdlib Require Import ZArith Lia Bool Strings.Byte Strings.String.
From stdpp Require Import gmap.
From S2P Require Import Prelude Bytes Float64 GoStd GoText Model Wire EngineKeys EngineCodec EngineDB EngineQuery StoreShard.
From S2P Require Import StoreState StoreDict.

(** ** The invariant of one dictionary *)

Fixpoint count_values (es : list gostr) : Z :=
  match es with
  | [] => 0
  | e :: es' => (if bytes_eqb e [] then 0 else 1) + count_values es'
  end.

(** [d]'s maps describe the entries [es]. *)
Record agrees (es : list gostr) (d : dictionary) : Prop := {
  ag_index : forall v i, index d !! v = Some i -> v <> [] /\ idx es i = Some v;
  ag_entry : forall i v, idx es i = Some v -> v <> [] -> exists j, index d !! v = Some j /\ (i = j \/ i ∈ default [] (alias d !! v));
  ag_alias : forall v i, i ∈ default [] (alias d !! v) -> v <> [] /\ idx es i = Some v;
  ag_live : live d = count_values es;
  ag_holes : forall i, idx es i = Some [] -> i ∈ holes d;
  ag_small : zlen es <= 2147483647;
}.

Definition dict_wf (d : dictionary) : Prop := agrees (Entries d) d.

Lemma count_values_app a b : count_values (a ++ b) = count_values a + count_values b.
Proof. induction a as [|e a IH]; [done|]. cbn [app count_values]. lia. Qed.

Lemma count_values_nonneg es : 0 <= count_values es <= zlen es.
Proof. induction es as [|e es IH]; [done|]. rewrite zlen_cons. cbn [count_values]. break_if; lia. Qed.

(** Without a hole every entry is counted. *)
Lemma count_values_full es : (forall i, idx es i <> Some []) -> count_values es = zlen es.
Proof.
  induction es as [|e es IH]; intros Hno; [done|]. rewrite zlen_cons. cbn [count_values].
  destruct (bytes_eqb e []) eqn:E; [apply bytes_eqb_spec in E as ->; by destruct (Hno 0)|].
  rewrite IH; [done|]. intros i Hi. apply (Hno (i + 1)). apply idx_Some in Hi as [? Hi].
  apply idx_Some. split; [lia|]. replace (Z.to_nat (i + 1)) with (S (Z.to_nat i)) by lia. done.
Qed.

Lemma count_values_insert es i v : idx es i = Some [] -> v <> [] -> count_values (<[Z.to_nat i := v]> es) = count_values es + 1.
Proof.
  intros [_ Hi]%idx_Some Hv. revert Hi. generalize (Z.to_nat i) as n. induction es as [|e es IH]; intros [|n] Hi; try done.
  - injection Hi as ->. cbn. destruct (bytes_eqb v []) eqn:E; [by apply bytes_eqb_spec in E | lia].
  - cbn in Hi |- *. rewrite IH by done. lia.
Qed.

Lemma new_dictionary_wf : dict_wf new_dictionary.
Proof.
  constructor; unfold new_dictionary; cbn [Entries index live holes alias]; try done.
  - by intros i v [_ H]%idx_Some.
  - intros v i H. rewrite lookup_empty in H. by apply elem_of_nil in H.
  - by intros i [_ H]%idx_Some.
Qed.

Lemma push_alias_elem e i m v j :
  j ∈ default [] (push_alias e i m !! v) <-> j ∈ default [] (m !! v) \/ (v = e /\ j = i).
Proof.
  unfold push_alias. destruct (decide (v = e)) as [-> | Hne].
  - rewrite lookup_insert_eq. cbn. rewrite elem_of_app, list_elem_of_singleton. naive_solver.
  - rewrite lookup_insert_ne by done. naive_solver.
Qed.

(** One more entry. *)
Lemma agrees_snoc pre e d d' :
  agrees pre d -> zlen pre < 2147483647 ->
  d' = (if bytes_eqb e [] then
          {| Entries := Entries d; index := index d; live := live d; holes := holes d ++ [i32 (zlen pre)]; alias := alias d |}
        else
          match index d !! e with
          | None => {| Entries := Entries d; index := <[e := i32 (zlen pre)]> (index d); live := live d + 1; holes := holes d; alias := alias d |}
          | Some _ => {| Entries := Entries d; index := index d; live := live d + 1; holes := holes d; alias := push_alias e (i32 (zlen pre)) (alias d) |}
          end) ->
  agrees (pre ++ [e]) d'.
Proof.
  intros Hag Hsmall ->. pose proof (zlen_nonneg pre). rewrite (i32_id (zlen pre)) by lia.
  destruct Hag as [Hix Hen Hal Hli Hho _].
  assert (Hlen : zlen (pre ++ [e]) <= 2147483647) by (rewrite zlen_app; change (zlen [e]) with 1; lia).
  destruct (bytes_eqb e []) eqn:E.
  - apply bytes_eqb_spec in E as ->. constructor; cbn; try done.
    + intros v i Hv. destruct (Hix v i Hv). split; [done | by apply idx_app_l].
    + intros i v Hi Hv. apply idx_snoc_inv in Hi as [Hi | [_ ->]]; [by apply Hen | done].
    + intros v i Hv. destruct (Hal v i Hv). split; [done | by apply idx_app_l].
    + rewrite count_values_app. cbn. lia.
    + intros i Hi. apply elem_of_app. apply idx_snoc_inv in Hi as [Hi | [-> _]]; [left; by apply Hho | right; by apply list_elem_of_singleton].
  - assert (Hne : e <> []) by (intros ->; by rewrite bytes_eqb_refl in E).
    assert (Hcount : count_values (pre ++ [e]) = count_values pre + 1) by (rewrite count_values_app; cbn; rewrite E; lia).
    assert (Hnohole : forall i, idx (pre ++ [e]) i = Some [] -> i ∈ holes d).
    { intros i Hi. apply idx_snoc_inv in Hi as [Hi | [_ <-]]; [by apply Hho | done]. }
    destruct (index d !! e) as [j|] eqn:Ej.
    + constructor; cbn; try done; [| | | lia].
      * intros v i Hv. destruct (Hix v i Hv). split; [done | by apply idx_app_l].
      * intros i v Hi Hv. apply idx_snoc_inv in Hi as [Hi | [-> ->]].
        -- destruct (Hen i v Hi Hv) as (k & Hk & Hin). exists k. split; [done|]. rewrite push_alias_elem. tauto.
        -- exists j. split; [done|]. right. rewrite push_alias_elem. tauto.
      * intros v i Hv. apply push_alias_elem in Hv as [Hv | [-> ->]]; [|split; [done | apply idx_snoc]].
        destruct (Hal v i Hv). split; [done | by apply idx_app_l].
    + constructor; cbn; try done; [| | | lia].
      * intros v i Hv. apply lookup_insert_Some in Hv as [[<- <-] | [_ Hv]]; [split; [done | apply idx_snoc]|].
        destruct (Hix v i Hv). split; [done | by apply idx_app_l].
      * intros i v Hi Hv. apply idx_snoc_inv in Hi as [Hi | [-> ->]].
        -- destruct (Hen i v Hi Hv) as (k & Hk & Hin). exists k. split; [|done].
           rewrite lookup_insert_ne; [done|]. intros ->. by rewrite Ej in Hk.
        -- exists (zlen pre). split; [apply lookup_insert_eq | by left].
      * intros v i Hv. destruct (Hal v i Hv). split; [done | by apply idx_app_l].
Qed.

Lemma rebuild_from_agrees es : forall pre d,
  agrees pre d -> zlen (pre ++ es) <= 2147483647 -> agrees (pre ++ es) (rebuild_from (zlen pre) es d).
Proof.
  induction es as [|e es IH]; intros pre d Hag Hsmall; cbn [rebuild_from]; [by rewrite app_nil_r|].
  replace (pre ++ e :: es) with ((pre ++ [e]) ++ es) in * by (by rewrite <- app_assoc).
  replace (zlen pre + 1) with (zlen (pre ++ [e])) by (by rewrite zlen_app).
  apply IH; [|done]. eapply agrees_snoc; [done | | done].
  rewrite !zlen_app in Hsmall. change (zlen [e]) with 1 in Hsmall. pose proof (zlen_nonneg es). lia.
Qed.

Lemma rebuild_from_entries es : forall i d, Entries (rebuild_from i es d) = Entries d.
Proof.
  induction es as [|e es IH]; intros i d; cbn [rebuild_from]; [done|]. rewrite IH.
  destruct (bytes_eqb e []); [done|]. by destruct (index d !! e).
Qed.

Lemma rebuildIndex_entries d : Entries (rebuildIndex d) = Entries d.
Proof. unfold rebuildIndex. by rewrite rebuild_from_entries. Qed.

(** [rebuildIndex] makes the maps describe the entries, whatever they held
    before. *)
Lemma rebuildIndex_wf d : zlen (Entries d) <= 2147483647 -> dict_wf (rebuildIndex d).
Proof.
  intros Hsmall. unfold dict_wf. rewrite rebuildIndex_entries. unfold rebuildIndex.
  apply (rebuild_from_agrees (Entries d) []); [|done].
  destruct new_dictionary_wf as [Hix Hen Hal Hli Hho Hsm]. by constructor.
Qed.

(** ** The free list *)

Lemma is_hole_spec es h : is_hole es h = true <-> idx es h = Some [].
Proof.
  unfold is_hole. rewrite andb_true_iff, Z.ltb_lt. split.
  - intros [_ H]. destruct (idx es h); [|done]. by apply bytes_eqb_spec in H as ->.
  - intros H. split; [apply idx_range in H; lia | by rewrite H].
Qed.

Lemma pop_hole_spec es l h rest : pop_hole es l = (h, rest) ->
  match h with
  | Some i => idx es i = Some [] /\ (forall j, idx es j = Some [] -> j ∈ l -> j = i \/ j ∈ rest)
  | None => forall j, j ∈ l -> idx es j <> Some []
  end.
Proof.
  revert h rest. induction l as [|x l IH]; intros h rest; cbn [pop_hole].
  - intros [= <- <-] j Hj. by apply elem_of_nil in Hj.
  - destruct (is_hole es x) eqn:E.
    + intros [= <- <-]. split; [by apply is_hole_spec|]. intros j _ Hj. by apply elem_of_cons in Hj.
    + intros Hpop. apply IH in Hpop. destruct h as [i|].
      * destruct Hpop as [Hi Hrest]. split; [done|]. intros j Hj Hin. apply elem_of_cons in Hin as [-> | Hin]; [|by apply Hrest].
        apply is_hole_spec in Hj. congruence.
      * intros j Hin. apply elem_of_cons in Hin as [-> | Hin]; [|by apply Hpop]. intros Hj%is_hole_spec. congruence.
Qed.

Lemma elem_of_rev {A} (x : A) l : x ∈ rev l <-> x ∈ l.
Proof. rewrite !list_elem_of_In. symmetry. apply in_rev. Qed.

(** What [takeHole] answers and what it leaves. *)
Lemma takeHole_spec d h d' : dict_wf d -> takeHole d = (h, d') ->
  Entries d' = Entries d /\ index d' = index d /\ live d' = live d /\ alias d' = alias d /\
  match h with
  | Some i => idx (Entries d) i = Some [] /\ (forall j, idx (Entries d) j = Some [] -> j = i \/ j ∈ holes d')
  | None => (forall i, idx (Entries d) i <> Some [])
  end.
Proof.
  intros Hwf. unfold takeHole. destruct (pop_hole (Entries d) (rev (holes d))) as [x rest] eqn:E. intros [= <- <-].
  apply pop_hole_spec in E. cbn. split_and!; try done. destruct x as [i|].
  - destruct E as [Hi Hrest]. split; [done|]. intros j Hj. rewrite elem_of_rev.
    apply Hrest; [done|]. rewrite elem_of_rev. by apply (ag_holes _ _ Hwf).
  - intros i Hi. apply (E i); [|done]. rewrite elem_of_rev. by apply (ag_holes _ _ Hwf).
Qed.

(** ** Adding a value *)

Definition new_slot (hole : option Z) (d : dictionary) : Z :=
  match hole with Some h => h | None => i32 (zlen (Entries d)) end.

Lemma idx_set {A} (l : list A) i x j : 0 <= i < zlen l -> 
  idx (<[Z.to_nat i := x]> l) j = if j =? i then Some x else idx l j.
Proof.
  intros Hi. unfold idx. destruct (Z.ltb_spec j 0).
  - destruct (Z.eqb_spec j i); [lia | done].
  - destruct (Z.eqb_spec j i) as [-> | Hne].
    + apply list_lookup_insert_eq. unfold zlen in Hi. lia.
    + apply list_lookup_insert_ne. lia.
Qed.

Lemma idx_append {A} (l : list A) x j : idx (l ++ [x]) j = if j =? zlen l then Some x else idx l j.
Proof.
  destruct (Z.eqb_spec j (zlen l)) as [-> | Hne]; [apply idx_snoc|].
  destruct (idx l j) eqn:E; [by apply idx_app_l|].
  destruct (idx (l ++ [x]) j) as [y|] eqn:E'; [|done]. apply idx_snoc_inv in E' as [E' | [? _]]; congruence.
Qed.

(** The slot of a new value: a hole, or the end. *)
Lemma new_slot_spec d hole d' : dict_wf d -> takeHole d = (hole, d') ->
  (hole = None -> count_values (Entries d) = zlen (Entries d)) /\
  0 <= new_slot hole d' <= zlen (Entries d) /\
  (forall v, v <> [] -> idx (Entries d) (new_slot hole d') <> Some v) /\
  forall v j, idx (Entries (add_value (new_slot hole d') v d')) j = if j =? new_slot hole d' then Some v else idx (Entries d) j.
Proof.
  intros Hwf Htake. destruct (takeHole_spec _ _ _ Hwf Htake) as (He & _ & _ & _ & Hh). unfold new_slot, add_value. rewrite He.
  pose proof (zlen_nonneg (Entries d)). pose proof (ag_small _ _ Hwf). destruct hole as [h|].
  - destruct Hh as [Hhole _]. pose proof (idx_range _ _ _ Hhole). split_and!; [done | lia | lia | congruence |].
    intros v j. cbn [Entries]. rewrite (proj2 (Z.ltb_lt _ _)) by lia. by apply idx_set.
  - rewrite i32_id by lia. split_and!; [intros; by apply count_values_full | lia | lia | |].
    + intros v Hv Hx%idx_range. lia.
    + intros v j. cbn [Entries]. rewrite Z.ltb_irrefl. apply idx_append.
Qed.

Lemma add_value_wf d hole d' v : dict_wf d -> takeHole d = (hole, d') -> index d !! v = None -> v <> [] ->
  count_values (Entries d) < 2147483647 -> dict_wf (add_value (new_slot hole d') v d').
Proof.
  intros Hwf Htake Hnew Hv Hroom. destruct (new_slot_spec _ _ _ Hwf Htake) as (Hfull & Hslot & Hfree & Hidx).
  destruct (takeHole_spec _ _ _ Hwf Htake) as (He & Hix & Hli & Hal & Hh).
  set (i := new_slot hole d') in *. destruct Hwf as [Wix Wen Wal Wli Who Wsm].
  assert (Hkeep : forall w j, w <> [] -> idx (Entries d) j = Some w -> idx (Entries (add_value i v d')) j = Some w).
  { intros w j Hw Hj. rewrite Hidx. destruct (Z.eqb_spec j i) as [-> | _]; [by destruct (Hfree w) | done]. }
  assert (Hslot' : idx (Entries (add_value i v d')) i = Some v) by (by rewrite Hidx, Z.eqb_refl).
  constructor.
  - intros w j. unfold add_value at 1. cbn [index]. rewrite Hix. intros [[<- <-] | [_ Hj]]%lookup_insert_Some; [done|].
    destruct (Wix w j Hj). split; [done | by apply Hkeep].
  - intros j w Hj Hw. rewrite Hidx in Hj. unfold add_value. cbn [index alias]. rewrite Hix, Hal.
    destruct (Z.eqb_spec j i) as [-> | Hne].
    + injection Hj as <-. exists i. split; [apply lookup_insert_eq | by left].
    + destruct (Wen j w Hj Hw) as (k & Hk & Hin). exists k. split; [|done]. rewrite lookup_insert_ne; [done|]. congruence.
  - intros w j. unfold add_value at 1. cbn [alias]. rewrite Hal. intros Hj. destruct (Wal w j Hj). split; [done | by apply Hkeep].
  - unfold add_value. cbn [live Entries]. rewrite Hli, Wli, He. unfold i, new_slot. destruct hole as [h|].
    + destruct Hh as [Hhole _]. pose proof (idx_range _ _ _ Hhole). rewrite (proj2 (Z.ltb_lt _ _)) by lia.
      by rewrite count_values_insert.
    + rewrite He, i32_id, Z.ltb_irrefl by (pose proof (zlen_nonneg (Entries d)); lia). rewrite count_values_app. cbn.
      destruct (bytes_eqb v []) eqn:E; [by apply bytes_eqb_spec in E | lia].
  - intros j Hj. rewrite Hidx in Hj. unfold add_value. cbn [holes]. destruct (Z.eqb_spec j i) as [_ | Hne]; [congruence|].
    unfold i, new_slot in Hne. destruct hole as [h|]; [|by apply Hh in Hj]. destruct Hh as [_ Hh]. destruct (Hh j Hj) as [Heq | Hin]; [congruence | done].
  - unfold add_value. cbn [Entries]. rewrite He. unfold i, new_slot in *. destruct hole as [h|].
    + destruct Hh as [Hhole _]. pose proof (idx_range _ _ _ Hhole). rewrite (proj2 (Z.ltb_lt _ _)) by lia.
      unfold zlen. by rewrite length_insert.
    + rewrite He, i32_id, Z.ltb_irrefl by (pose proof (zlen_nonneg (Entries d)); lia). rewrite zlen_app. change (zlen [v]) with 1.
      rewrite <- (Hfull eq_refl). lia.
Qed.

(** The slot a failed write gives back. *)
Lemma put_back_wf d hole d' : dict_wf d -> takeHole d = (hole, d') ->
  dict_wf (match hole with Some h => push_hole h d' | None => d' end).
Proof.
  intros Hwf Htake. destruct (takeHole_spec _ _ _ Hwf Htake) as (He & Hix & Hli & Hal & Hh).
  destruct Hwf as [Wix Wen Wal Wli Who Wsm].
  destruct hole as [h|]; (constructor; unfold push_hole; cbn [Entries index live holes alias]; rewrite ?He, ?Hix, ?Hli, ?Hal; try done).
  - intros i Hi. apply elem_of_app. destruct Hh as [_ Hh]. destruct (Hh i Hi) as [-> | ?]; [right; by apply list_elem_of_singleton | by left].
  - intros i Hi. by apply Hh in Hi.
Qed.

(** ** The store's dictionaries *)

Section Store.
Context `{FloatText} `{J : MetaJSON} `{L : LSM} `{!LSMLaws L} `{SJ : StoreJSON}.
Implicit Types (s : Store) (d : dictionary).

Definition dicts_wf s : Prop := map_Forall (fun _ d => dict_wf d) (s_dict s).

Lemma labelValue_spec s key i v :
  labelValue s key i = Some v <-> exists d, s_dict s !! key = Some d /\ idx (Entries d) i = Some v /\ v <> [].
Proof.
  unfold labelValue. destruct (s_dict s !! key) as [d|]; [|by split; [|intros (? & ? & _)]]. split.
  - destruct (_ || _); [done|]. destruct (idx (Entries d) i) as [e|] eqn:E; [|done].
    destruct (bytes_eqb e []) eqn:Ee; [done|]. intros [= <-]. exists d. split_and!; try done. intros ->. by rewrite bytes_eqb_refl in Ee.
  - intros (? & [= <-] & Hi & Hv). pose proof (idx_range _ _ _ Hi).
    rewrite (proj2 (Z.ltb_ge i 0)) by lia. destruct (Z.geb_spec i (zlen (Entries d))); [lia|]. cbn [orb]. rewrite Hi.
    destruct (bytes_eqb v []) eqn:Ee; [by apply bytes_eqb_spec in Ee | done].
Qed.

(** All that [intern] may change. *)
Definition only_dict s s' : Prop := s' = s_set_db (s_db s') (s_set_dict (s_dict s') s).

Lemma only_dict_refl s : only_dict s s.
Proof. by destruct s. Qed.

(** Two stores whose dictionaries differ at [key] only. *)
Lemma labelValue_insert s s' key d' k j v : s_dict s' = <[key := d']> (s_dict s) ->
  labelValue s' k j = Some v <->
  (k = key /\ idx (Entries d') j = Some v /\ v <> []) \/ (k <> key /\ labelValue s k j = Some v).
Proof.
  intros Hd. rewrite !labelValue_spec, Hd. destruct (decide (k = key)) as [-> | Hne].
  - rewrite lookup_insert_eq. naive_solver.
  - rewrite lookup_insert_ne by done. naive_solver.
Qed.

(** *** Records *)

Definition record_of (D : DB) (label : gostr) (i : Z) : option gostr := kv_get (d_kv D) (dictKey (dictEntryKey label i)).

Lemma PutDict_spec name v D r D' : PutDict name v D = (r, D') ->
  match r with
  | Ok _ => forall k, kv_get (d_kv D') k = if bytes_eqb (dictKey name) k then Some v else kv_get (d_kv D) k
  | Err _ => d_kv D' = d_kv D
  end.
Proof.
  unfold PutDict, guard_open, pdb_Set, pdb_Apply, pebble_call, mbind, M_bind, get_db, modify, mret, M_ret, fail.
  destruct (d_closed D); [by intros [= <- <-]|].
  destruct (d_faults D) as [|[] f]; intros [= <- <-]; try done; intros k; cbn [d_kv set_kv set_faults]; by rewrite kv_get_apply.
Qed.

(** *** Interning *)

(** What the locked half does to a dictionary in the map. *)
Lemma intern_locked_spec s key value fresh d r s' :
  s_dict s !! key = Some d -> dict_wf d -> value <> [] -> 0 < cf_MaxLabelCardinality (s_cfg s) <= 2147483647 ->
  intern_locked key value fresh d s = (r, s') ->
  only_dict s s' /\
  match r with
  | Ok i =>
      (index d !! value = Some i /\ s' = s) \/
      (exists d', s_dict s' = <[key := d']> (s_dict s) /\ dict_wf d' /\ index d' !! value = Some i /\
         count_values (Entries d) < cf_MaxLabelCardinality (s_cfg s) /\
         0 <= i <= zlen (Entries d) /\ (i = zlen (Entries d) -> count_values (Entries d) = zlen (Entries d)) /\
         (forall v, v <> [] -> idx (Entries d) i <> Some v) /\
         (forall j, idx (Entries d') j = if j =? i then Some value else idx (Entries d) j) /\
         PutDict (dictEntryKey key i) value (s_db s) = (Ok tt, s_db s'))
  | Err e =>
      (s' = s /\ index d !! value = None /\ 0 < live d) \/
      (exists d' i e, s_dict s' = (if fresh then delete key (s_dict s) else <[key := d']> (s_dict s)) /\ dict_wf d' /\ Entries d' = Entries d /\
         index d' = index d /\ PutDict (dictEntryKey key i) value (s_db s) = (Err e, s_db s'))
  end.
Proof.
  intros Hd Hwf Hv Hmax. unfold intern_locked, mbind, SM_bind, get_store, mret, SM_ret, sfail, smodify, engine_try.
  destruct (index d !! value) as [i|] eqn:Hi; [intros [= <- <-]; split; [apply only_dict_refl | by left]|].
  destruct (Z.gtb_spec (cf_MaxLabelCardinality (s_cfg s)) 0); [cbn [andb]|lia].
  destruct (Z.geb_spec (live d) (cf_MaxLabelCardinality (s_cfg s))) as [Hfull | Hroom].
  { intros [= <- <-]. split; [apply only_dict_refl|]. left. split_and!; [done | done | lia]. }
  destruct (takeHole d) as [hole d1] eqn:Htake.
  destruct (takeHole_spec _ _ _ Hwf Htake) as (He & Hix & Hli & Hal & Hh).
  fold (new_slot hole d1). set (i := new_slot hole d1).
  cbn [s_db set_dictionary s_set_dict].
  destruct (PutDict (dictEntryKey key i) value (s_db s)) as [[[]|e] D'] eqn:Hput; intros [= <- <-].
  - split; [by destruct s; cbn|]. right.
    destruct (new_slot_spec _ _ _ Hwf Htake) as (Hcount & Hslot & Hfree & Hidx).
    exists (add_value i value d1). cbn [s_db s_dict s_set_db s_set_dict set_dictionary].
    pose proof (ag_live _ _ Hwf) as Hlive.
    split_and!; try done; try lia.
    + by rewrite insert_insert_eq.
    + apply (add_value_wf d); [done | done | done | done | lia].
    + unfold add_value. cbn [index]. apply lookup_insert_eq.
    + intros Hend. destruct hole as [h|]; [|by apply Hcount]. destruct Hh as [Hhole _]. apply idx_range in Hhole.
      unfold i, new_slot in Hend. lia.
  - split; [by destruct s, hole, fresh; cbn|]. right.
    exists (match hole with Some h => push_hole h d1 | None => d1 end), i, e.
    cbn [s_db s_dict s_set_db s_set_dict set_dictionary]. split_and!.
    + destruct fresh, hole; cbn; by rewrite ?insert_insert_eq, ?delete_insert_eq.
    + by eapply put_back_wf.
    + by destruct hole.
    + by destruct hole.
    + rewrite Hput. destruct fresh, hole; done.
Qed.

(** The store just before the locked half, for a key not yet known. *)
Lemma only_dict_trans s1 s2 s3 : only_dict s1 s2 -> only_dict s2 s3 -> only_dict s1 s3.
Proof. unfold only_dict. intros H1 H2. rewrite H2 at 1. rewrite H1 at 1. by destruct s1. Qed.

(** [intern] as one equation: the three ways it ends, by what the
    dictionaries and the engine's records become. *)
Inductive intern_outcome (key value : gostr) (s s' : Store) : result store_err Z -> Prop :=
| intern_known i : lookup_label s key value = Some i -> s' = s -> intern_outcome key value s s' (Ok i)
| intern_added i d d' : s_dict s' = <[key := d']> (s_dict s) -> d = default new_dictionary (s_dict s !! key) -> dict_wf d' ->
    index d' !! value = Some i -> count_values (Entries d) < cf_MaxLabelCardinality (s_cfg s) ->
    0 <= i <= zlen (Entries d) -> (i = zlen (Entries d) -> count_values (Entries d) = zlen (Entries d)) ->
    (forall v, v <> [] -> idx (Entries d) i <> Some v) ->
    (forall j, idx (Entries d') j = if j =? i then Some value else idx (Entries d) j) ->
    PutDict (dictEntryKey key i) value (s_db s) = (Ok tt, s_db s') ->
    intern_outcome key value s s' (Ok i)
| intern_refused e : s' = s -> lookup_label s key value = None -> intern_outcome key value s s' (Err e)
| intern_failed e e' i d d' : s_dict s' = s_dict s \/ (s_dict s !! key = Some d /\ s_dict s' = <[key := d']> (s_dict s) /\ dict_wf d' /\ Entries d' = Entries d /\ index d' = index d) ->
    PutDict (dictEntryKey key i) value (s_db s) = (Err e', s_db s') ->
    intern_outcome key value s s' (Err e).

Lemma intern_cases s key value r s' :
  dicts_wf s -> value <> [] -> 0 < cf_MaxLabelCardinality (s_cfg s) <= 2147483647 ->
  intern key value s = (r, s') -> only_dict s s' /\ intern_outcome key value s s' r.
Proof.
  intros Hwf Hv Hmax. unfold intern, mbind, SM_bind, get_store, mret, SM_ret.
  destruct (s_dict s !! key) as [d|] eqn:Hd.
  - pose proof (Hwf _ _ Hd) as Hd'. cbn in Hd'.
    assert (Hlook : forall o, index d !! value = o -> lookup_label s key value = o) by (intros o; unfold lookup_label; by rewrite Hd).
    destruct (index d !! value) as [i|] eqn:Hi.
    { intros [= <- <-]. split; [apply only_dict_refl|]. apply intern_known; [by apply Hlook | done]. }
    intros Hrun. destruct (intern_locked_spec _ _ _ _ _ _ _ Hd Hd' Hv Hmax Hrun) as [Honly Hcase]. split; [done|]. destruct r as [i|e].
    + destruct Hcase as [[Hknown ->] | (d' & Hdict & Hwf' & Hidx & Hcount & Hrange & Hend & Hfree & Hent & Hput)]; [congruence|].
      eapply (intern_added _ _ _ _ i d d'); try done. by rewrite Hd.
    + destruct Hcase as [(-> & _ & _) | (d' & i & e' & Hdict & Hwf' & He & Hix & Hput)]; [apply intern_refused; [done | by apply Hlook]|].
      eapply (intern_failed _ _ _ _ e e' i d d'); [right; split_and!; done | done].
  - destruct (_ && _).
    { intros [= <- <-]. split; [apply only_dict_refl|]. apply intern_refused; [done|]. unfold lookup_label. by rewrite Hd. }
    unfold smodify. intros Hrun.
    assert (Hd0 : s_dict (set_dictionary key new_dictionary s) !! key = Some new_dictionary) by apply lookup_insert_eq.
    destruct (intern_locked_spec (set_dictionary key new_dictionary s) key value true new_dictionary r s' Hd0 new_dictionary_wf Hv Hmax Hrun)
      as [Honly Hcase].
    split. { eapply only_dict_trans; [|exact Honly]. by destruct s. }
    destruct r as [i|e].
    + destruct Hcase as [[Hknown _] | (d' & Hdict & Hwf' & Hidx & Hcount & Hrange & Hend & Hfree & Hent & Hput)]; [by cbn [new_dictionary index] in Hknown; rewrite lookup_empty in Hknown|].
      eapply (intern_added _ _ _ _ i new_dictionary d'); try done.
      * rewrite Hdict. cbn. by rewrite insert_insert_eq.
      * by rewrite Hd.
    + destruct Hcase as [(_ & _ & Hlive) | (d' & i & e' & Hdict & Hwf' & He & Hix & Hput)]; [done|].
      eapply (intern_failed _ _ _ _ e e' i new_dictionary d'); [left | done].
      rewrite Hdict. cbn. by rewrite delete_insert_id.
Qed.
End Store.

(** * Dictionaries on disk: what a reopened store reads back

    [synced]: the per-value records of the engine say exactly what the
    dictionaries hold.  Interning keeps it, and loading the records of a
    synced store gives every index the value it had. *)


(** ** Record names *)

Lemma parse_zeros n s : parse_digits 0 (replicate n x30 ++ s) = parse_digits 0 s.
Proof. induction n as [|n IH]; [done|]. cbn [replicate app parse_digits]. exact IH. Qed.

Lemma ParseInt_pad10 n : 0 <= n < two63 -> ParseInt (pad10 n) = Some n.
Proof.
  intros Hn. unfold pad10, FormatInt. rewrite (proj2 (Z.ltb_ge n 0)) by lia.
  pose proof (FormatUint_not_nil n ltac:(lia)) as Hne. pose proof (FormatUint_digits n ltac:(lia)) as Hd.
  pose proof (ParseUint_FormatUint n ltac:(unfold two63 in *; lia)) as Hp.
  set (s := FormatUint n) in *. assert (Hbody : ParseUint_digits (replicate (10 - length s) x30 ++ s) = Some n).
  { destruct s as [|b s]; [done|]. unfold ParseUint_digits in *. destruct (replicate _ x30 ++ b :: s) eqn:E; [by destruct (10 - length (b :: s))%nat|].
    rewrite <- E. by rewrite parse_zeros. }
  assert (Hsign : forall t, all_digits t = true -> match t with x2b :: s' => (false, s') | x2d :: s' => (true, s') | _ => (false, t) end = (false, t)).
  { intros [|b t] Ht; [done|]. apply andb_prop in Ht as [Hb _]. by destruct b. }
  unfold ParseInt. rewrite Hsign, Hbody; [cbn [negb andb]; by rewrite (proj2 (Z.leb_gt _ _)) by lia|].
  rewrite all_digits_app, Hd, andb_true_r. unfold all_digits. apply forallb_forall. intros b Hb%list_elem_of_In%elem_of_replicate. by destruct Hb as [-> _].
Qed.

Lemma ParseInt32_pad10 n : 0 <= n <= 2147483647 -> ParseInt32 (pad10 n) = Some n.
Proof.
  intros Hn. unfold ParseInt32. rewrite ParseInt_pad10 by (unfold two63; lia). unfold between.
  by rewrite (proj2 (Z.leb_le _ _)), (proj2 (Z.leb_le _ _)) by lia.
Qed.

Lemma CutPrefix_app p s : CutPrefix (p ++ s) p = Some s.
Proof. unfold CutPrefix. rewrite (proj2 (HasPrefix_spec _ _)) by (by exists s). by rewrite drop_app_length. Qed.

(** A record's name gives its label and index back. *)
Lemma split_dictEntryKey label i : x00 ∉ label -> 0 <= i <= 2147483647 -> splitDictEntryKey (dictEntryKey label i) = Some (label, i).
Proof.
  intros Hl Hi. unfold splitDictEntryKey, dictEntryKey. rewrite CutPrefix_app. cbn [app].
  rewrite Cut_app, ParseInt32_pad10 by done. by destruct (Z.ltb_spec i 0); [lia|].
Qed.

Lemma dictKey_inj a b : dictKey a = dictKey b -> a = b.
Proof. by intros [= ->]. Qed.

Lemma dictEntryKey_not_packed label i : HasPrefix (dictEntryKey label i) dictPackedPrefix = false.
Proof. reflexivity. Qed.

(** ** One record *)

Lemma idx_replicate {A} (x : A) n j y : idx (replicate n x) j = Some y -> y = x.
Proof. intros [_ Hj]%idx_Some. by apply lookup_replicate in Hj as [? _]. Qed.

Lemma idx_app_inv {A} (l k : list A) j x : idx (l ++ k) j = Some x -> idx l j = Some x \/ (zlen l <= j /\ idx k (j - zlen l) = Some x).
Proof.
  rewrite !idx_Some. intros [Hj [H | [Hl H]]%lookup_app_Some]; [by left|]. right. unfold zlen. 
  split; [lia|]. split; [lia|]. by replace (Z.to_nat (j - Z.of_nat (length l))) with (Z.to_nat j - length l)%nat by lia.
Qed.

(** [place] sets its own position and moves no other value. *)
Lemma place_idx i v d j w : 0 <= i -> w <> [] ->
  idx (Entries (place i v d)) j = Some w <-> (j = i /\ w = v) \/ (j <> i /\ idx (Entries d) j = Some w).
Proof.
  intros Hi Hw. unfold place. cbn [Entries]. pose proof (zlen_nonneg (Entries d)).
  set (es := Entries d ++ replicate (Z.to_nat (i + 1 - zlen (Entries d))) []).
  assert (Hlen : 0 <= i < zlen es).
  { unfold es. rewrite zlen_app. unfold zlen at 2. rewrite length_replicate. lia. }
  rewrite idx_set by done. destruct (Z.eqb_spec j i) as [-> | Hne]; [naive_solver|]. split.
  - intros Hj. right. split; [done|]. apply idx_app_inv in Hj as [Hj | [_ Hj]]; [done|]. by apply idx_replicate in Hj.
  - intros [[? _] | [_ Hj]]; [done|]. by apply idx_app_l.
Qed.

Lemma place_small i v d : 0 <= i <= maxDictIndex -> zlen (Entries d) <= maxDictIndex + 1 -> zlen (Entries (place i v d)) <= maxDictIndex + 1.
Proof.
  intros Hi Hd. unfold place. cbn [Entries]. unfold zlen. rewrite length_insert, length_app, length_replicate. unfold zlen in *. lia.
Qed.

Section Load.
Context `{FloatText} `{J : MetaJSON} `{L : LSM} `{!LSMLaws L} `{SJ : StoreJSON}.
Implicit Types (s : Store) (d : dictionary) (D : DB).

(** ** The records and the dictionaries say the same *)

Record synced s : Prop := {
  sy_value : forall label i v, labelValue s label i = Some v -> record_of (s_db s) label i = Some v;
  sy_record : forall k v label i, kv_get (d_kv (s_db s)) (dictKey k) = Some v -> splitDictEntryKey k = Some (label, i) ->
    k = dictEntryKey label i /\ labelValue s label i = Some v;
  sy_packed : forall k v, kv_get (d_kv (s_db s)) (dictKey k) = Some v -> HasPrefix k dictPackedPrefix = false;
  sy_labels : forall label d, s_dict s !! label = Some d -> (x00 ∉ label) /\ zlen (Entries d) <= maxDictIndex + 1;
}.

Lemma labelValue_range s label i v : synced s -> labelValue s label i = Some v -> (x00 ∉ label) /\ 0 <= i <= maxDictIndex.
Proof.
  intros Hs (d & Hd & Hi%idx_range & _)%labelValue_spec. destruct (sy_labels s Hs _ _ Hd) as [Hl Hsmall]. split; [done|]. lia.
Qed.

(** Two names of records of values are different records. *)
Lemma dictEntryKey_inj l1 i1 l2 i2 : x00 ∉ l1 -> x00 ∉ l2 -> 0 <= i1 <= 2147483647 -> 0 <= i2 <= 2147483647 ->
  dictEntryKey l1 i1 = dictEntryKey l2 i2 -> l1 = l2 /\ i1 = i2.
Proof.
  intros H1 H2 H3 H4 E. pose proof (split_dictEntryKey l1 i1 H1 H3) as S1. rewrite E, split_dictEntryKey in S1 by done. naive_solver.
Qed.

Lemma intern_synced s key value r s' :
  dicts_wf s -> synced s -> value <> [] -> x00 ∉ key -> 0 < cf_MaxLabelCardinality (s_cfg s) <= maxDictIndex + 1 ->
  intern key value s = (r, s') -> synced s'.
Proof.
  intros Hwf Hs Hv Hkey Hmax Hrun. unfold maxDictIndex in Hmax.
  destruct (intern_cases _ _ _ _ _ Hwf Hv ltac:(lia) Hrun) as [Honly Hcase].
  destruct Hcase as [i Hlook -> | i d d' Hdict Hd Hwf' Hidx Hcount Hrange Hend Hfree Hent Hput | e -> _ | e e' i d d' Hsame Hput]; [done | | done |].
  - pose proof (PutDict_spec _ _ _ _ _ Hput) as Hkv. cbv beta iota in Hkv.
    assert (Hdsmall : zlen (Entries d) <= maxDictIndex + 1).
    { subst d. destruct (s_dict s !! key) as [d0|] eqn:E; [by destruct (sy_labels s Hs _ _ E)|]. cbn. unfold maxDictIndex. done. }
    assert (Hi : 0 <= i <= maxDictIndex).
    { destruct (decide (i = zlen (Entries d))) as [Heq|]; [specialize (Hend Heq); unfold maxDictIndex; lia | lia]. }
    assert (Hold : forall j v, labelValue s key j = Some v <-> idx (Entries d) j = Some v /\ v <> []).
    { intros j v. rewrite labelValue_spec. subst d. destruct (s_dict s !! key) as [d0|]; cbn; [naive_solver|].
      split; [by intros (? & ? & _) | by intros [[_ ?]%idx_Some _]]. }
    assert (Hnew : forall k j v, labelValue s' k j = Some v <-> (k = key /\ j = i /\ v = value) \/ (~ (k = key /\ j = i) /\ labelValue s k j = Some v)).
    { intros k j v. rewrite (labelValue_insert s s' key d' k j v Hdict), Hent. destruct (decide (k = key)) as [-> | Hk].
      - rewrite Hold. destruct (Z.eqb_spec j i) as [-> | Hne]; naive_solver.
      - naive_solver. }
    assert (Hinj : forall l j, x00 ∉ l -> 0 <= j <= maxDictIndex -> dictEntryKey key i = dictEntryKey l j -> key = l /\ i = j).
    { intros l j Hl Hj. apply dictEntryKey_inj; unfold maxDictIndex in *; try done; lia. }
    constructor.
    + intros l j v Hlv. unfold record_of. rewrite Hkv. apply Hnew in Hlv as [(-> & -> & ->) | [Hne Hlv]]; [by rewrite bytes_eqb_refl|].
      destruct (labelValue_range _ _ _ _ Hs Hlv) as [Hl Hj].
      destruct (bytes_eqb (dictKey (dictEntryKey key i)) (dictKey (dictEntryKey l j))) eqn:E; [|by apply (sy_value s Hs)].
      apply bytes_eqb_spec, dictKey_inj in E. destruct (Hinj l j Hl Hj E) as [-> ->]. by destruct Hne.
    + intros k v l j Hget Hsplit. rewrite Hkv in Hget.
      destruct (bytes_eqb (dictKey (dictEntryKey key i)) (dictKey k)) eqn:E.
      * apply bytes_eqb_spec, dictKey_inj in E as <-. injection Hget as <-.
        rewrite split_dictEntryKey in Hsplit by (unfold maxDictIndex in *; done || lia). injection Hsplit as <- <-.
        split; [done|]. apply Hnew. by left.
      * destruct (sy_record s Hs k v l j Hget Hsplit) as [-> Hlv]. split; [done|]. apply Hnew. right. split; [|done].
        intros [-> ->]. by rewrite bytes_eqb_refl in E.
    + intros k v Hget. rewrite Hkv in Hget.
      destruct (bytes_eqb (dictKey (dictEntryKey key i)) (dictKey k)) eqn:E; [|by eapply (sy_packed s Hs)].
      apply bytes_eqb_spec, dictKey_inj in E as <-. apply dictEntryKey_not_packed.
    + intros l d2 Hl. rewrite Hdict in Hl. apply lookup_insert_Some in Hl as [[<- <-] | [_ Hl]]; [|by apply (sy_labels s Hs)].
      split; [done|]. apply Z.le_ngt. intros Hbig.
      destruct (idx_is_Some (Entries d') (maxDictIndex + 1)) as [x Hx]; [unfold maxDictIndex in *; lia|].
      rewrite Hent in Hx. destruct (Z.eqb_spec (maxDictIndex + 1) i); [lia|]. apply idx_range in Hx. lia.
  - pose proof (PutDict_spec _ _ _ _ _ Hput) as Hkv. cbv beta iota in Hkv.
    assert (Hsame' : forall k j, labelValue s' k j = labelValue s k j).
    { intros k j. destruct Hsame as [Heq | (Hd & Heq & _ & He & _)]; unfold labelValue; rewrite Heq; [done|].
      destruct (decide (k = key)) as [-> | Hne]; [rewrite lookup_insert_eq, Hd, He; done | by rewrite lookup_insert_ne]. }
    constructor.
    + intros l j v. rewrite Hsame'. unfold record_of. rewrite Hkv. by apply (sy_value s Hs).
    + intros k v l j. rewrite Hkv, Hsame'. by apply (sy_record s Hs).
    + intros k v. rewrite Hkv. by apply (sy_packed s Hs).
    + intros l d2 Hl. destruct Hsame as [Heq | (Hd & Heq & _ & He & _)]; rewrite Heq in Hl; [by apply (sy_labels s Hs)|].
      apply lookup_insert_Some in Hl as [[<- <-] | [_ Hl]]; [|by apply (sy_labels s Hs)]. rewrite He. by apply (sy_labels s Hs).
Qed.

(** ** Loading *)

Definition healthy D : Prop := d_closed D = false /\ d_faults D = [].

Lemma GetDict_healthy k D : healthy D -> GetDict k D = (Ok (kv_get (d_kv D) (dictKey k)), D).
Proof.
  intros [Hc Hf]. unfold GetDict, guard_open, pdb_Get, pebble_call, mbind, M_bind, get_db, mret, M_ret. rewrite Hc, Hf. cbn [d_faults].
  destruct (kv_get _ _); [|done]. by rewrite Hf.
Qed.

Lemma DictKeys_healthy D : healthy D -> exists keys, DictKeys D = (Ok keys, D) /\
  forall k, k ∈ keys <-> exists v, kv_get (d_kv D) (dictKey k) = Some v.
Proof.
  intros [Hc Hf]. unfold DictKeys, guard_open, pdb_Iter, pebble_call, mbind, M_bind, get_db, mret, M_ret. rewrite !Hc, !Hf.
  eexists. split; [reflexivity|]. intros k. rewrite (sort_strings_perm _). rewrite list_elem_of_fmap. split.
  - intros ([k' v] & -> & Hin). apply kv_scan_elem in Hin as [Hr Hget]. apply in_range_prefix in Hr as [rest ->].
    exists v. exact Hget.
  - intros [v Hget]. exists (dictKey k, v). split; [done|]. apply kv_scan_elem. split; [|done].
    apply in_range_prefix. by exists k.
Qed.

(** What a walk over the records has placed so far. *)
Definition placed D (keys : list gostr) s : Prop :=
  s_db s = D /\ (forall label i v, labelValue s label i = Some v <-> dictEntryKey label i ∈ keys /\ kv_get (d_kv D) (dictKey (dictEntryKey label i)) = Some v /\ (x00 ∉ label) /\ 0 <= i <= maxDictIndex) /\
  forall label d, s_dict s !! label = Some d -> (x00 ∉ label) /\ zlen (Entries d) <= maxDictIndex + 1.

(** The records of a dictionary: every one is named canonically and holds
    a value. *)
Definition clean_records D : Prop :=
  forall k v, kv_get (d_kv D) (dictKey k) = Some v ->
    HasPrefix k dictPackedPrefix = false /\
    forall label i, splitDictEntryKey k = Some (label, i) -> k = dictEntryKey label i /\ (x00 ∉ label) /\ 0 <= i <= maxDictIndex /\ v <> [].

Lemma load_packed_clean D keys s : healthy D -> s_db s = D -> clean_records D ->
  (forall k, k ∈ keys -> exists v, kv_get (d_kv D) (dictKey k) = Some v) -> load_packed keys s = (Ok tt, s).
Proof.
  intros Hh Hdb Hclean. induction keys as [|k keys IH]; intros Hkeys; [done|]. cbn [load_packed].
  destruct (Hkeys k) as [v Hv]; [by apply list_elem_of_here|]. destruct (Hclean k v Hv) as [-> _]. cbn [negb].
  unfold mbind, SM_bind, mret, SM_ret in *. apply IH. intros k' Hk'. apply Hkeys. by apply list_elem_of_further.
Qed.

Lemma load_entries_placed D keys : forall done s, healthy D -> clean_records D ->
  (forall k, k ∈ keys -> exists v, kv_get (d_kv D) (dictKey k) = Some v) -> placed D done s ->
  exists s', load_entries keys s = (Ok tt, s') /\ placed D (done ++ keys) s'.
Proof.
  induction keys as [|k keys IH]; intros done s Hh Hclean Hkeys Hplaced; cbn [load_entries].
  - exists s. split; [done|]. by rewrite app_nil_r.
  - destruct (Hkeys k) as [v Hv]; [by apply list_elem_of_here|]. destruct (Hclean k v Hv) as [_ Hk].
    replace (done ++ k :: keys) with ((done ++ [k]) ++ keys) by (by rewrite <- app_assoc).
    assert (Hkeys' : forall k', k' ∈ keys -> exists v, kv_get (d_kv D) (dictKey k') = Some v)
      by (intros k' Hk'; apply Hkeys; by apply list_elem_of_further).
    destruct Hplaced as (Hdb & Hval & Hlab).
    destruct (splitDictEntryKey k) as [[label i]|] eqn:Hsplit.
    + destruct (Hk label i eq_refl) as (-> & Hl & Hi & Hne).
      unfold mbind, SM_bind, engine_try, smodify, mret, SM_ret. rewrite Hdb, GetDict_healthy, Hv by done.
      cbn [s_dict s_set_db s_set_dict]. destruct (Z.gtb_spec i maxDictIndex); [lia|].
      apply IH; [done..|]. set (d0 := default new_dictionary (s_dict s !! label)).
      assert (Hdict : s_dict (s_set_dict (alter (place i v) label (<[label := d0]> (s_dict s)))
                        (s_set_dict (<[label := d0]> (s_dict s)) (s_set_db D s))) = <[label := place i v d0]> (s_dict s)).
      { cbn. rewrite alter_insert_eq. by apply insert_insert_eq || done. }
      split_and!; [done | |].
      * intros l j w. rewrite (labelValue_insert s _ label (place i v d0)) by done.
        rewrite elem_of_app, list_elem_of_singleton, Hval.
        assert (Hd0 : forall j w, w <> [] -> idx (Entries d0) j = Some w <-> labelValue s label j = Some w).
        { intros j' w' Hw'. rewrite labelValue_spec. unfold d0. destruct (s_dict s !! label) as [d1|]; cbn; [naive_solver|].
          split; [by intros [_ ?]%idx_Some | by intros (? & ? & _)]. }
        split.
        -- intros [(-> & Hp & Hw) | (Hne' & Hp)]; [|naive_solver]. apply place_idx in Hp as [[-> ->] | [Hji Hp]]; [naive_solver | | lia | done].
           rewrite Hd0, Hval in Hp by done. naive_solver.
        -- intros ([Hin | Heq] & Hget & Hl' & Hj).
           ++ destruct (decide (l = label)) as [-> | Hll]; [|right; naive_solver]. left.
              assert (Hw : w <> []).
              { destruct (Hclean _ _ Hget) as [_ Hc]. apply (Hc label j). apply split_dictEntryKey; [done | unfold maxDictIndex in *; lia]. }
              split_and!; [done | | done]. apply place_idx; [lia | done |].
              destruct (decide (j = i)) as [-> | Hji]; [left; split; [done | congruence]|]. right. split; [done|]. apply Hd0; [done|]. by apply Hval.
           ++ apply dictEntryKey_inj in Heq as [-> ->]; [|done | done | unfold maxDictIndex in *; lia ..].
              left. rewrite Hv in Hget. injection Hget as <-. split_and!; [done | | done]. apply place_idx; [lia | done | by left].
      * intros l d Hd. assert (Hd' : <[label := place i v d0]> (s_dict s) !! l = Some d) by (rewrite <- Hdict; exact Hd). clear Hd. rename Hd' into Hd. apply lookup_insert_Some in Hd as [[<- <-] | [_ Hd]]; [|by apply Hlab].
        split; [done|]. apply place_small; [done|]. unfold d0. destruct (s_dict s !! label) as [d1|] eqn:E; [by destruct (Hlab _ _ E) | done].
    + unfold mbind, SM_bind, mret, SM_ret. apply IH; [done..|]. split_and!; [done | | done].
      intros l j w. rewrite Hval, elem_of_app, list_elem_of_singleton. split; [naive_solver|].
      intros ([Hin | <-] & Hrest); [done|]. destruct Hrest as (_ & Hl & Hj).
      rewrite split_dictEntryKey in Hsplit by (unfold maxDictIndex in *; done || lia). done.
Qed.

(** A synced store's records, loaded into an empty store. *)
Lemma loadDictionaries_synced s s0 : synced s -> healthy (s_db s) -> s_db s0 = s_db s -> s_dict s0 = ∅ ->
  exists s', loadDictionaries s0 = (Ok tt, s') /\ dicts_wf s' /\ (forall label i, labelValue s' label i = labelValue s label i) /\ s_db s' = s_db s.
Proof.
  intros Hs Hh Hdb Hempty. set (D := s_db s) in *.
  assert (Hclean : clean_records D).
  { intros k v Hget. split; [by eapply (sy_packed s Hs)|]. intros label i Hsplit.
    destruct (sy_record s Hs _ _ _ _ Hget Hsplit) as [-> Hlv]. destruct (labelValue_range _ _ _ _ Hs Hlv).
    apply labelValue_spec in Hlv as (? & _ & _ & Hne). done. }
  destruct (DictKeys_healthy D Hh) as (keys & Hrun & Hkeys).
  unfold loadDictionaries, mbind, SM_bind, engine, smodify. rewrite Hdb, Hrun.
  assert (Hs0 : s_set_db D s0 = s0) by (rewrite <- Hdb; by destruct s0). rewrite Hs0.
  rewrite (load_packed_clean D); [|done | done | done | intros k Hk; by apply Hkeys].
  destruct (load_entries_placed D keys [] s0) as (s1 & Hload & Hdb1 & Hval & Hlab); [done | done | intros k Hk; by apply Hkeys | |].
  { split_and!; [done | | intros label d Hd; by rewrite Hempty, lookup_empty in Hd].
    intros label i v. rewrite labelValue_spec, Hempty. setoid_rewrite lookup_empty. split; [by intros (? & ? & _) | by intros [?%elem_of_nil _]]. }
  rewrite Hload. eexists. split; [reflexivity|].
  assert (Hval' : forall label i, labelValue (s_set_dict (rebuildIndex <$> s_dict s1) s1) label i = labelValue s1 label i).
  { intros label i. unfold labelValue. cbn [s_dict s_set_dict]. rewrite lookup_fmap. destruct (s_dict s1 !! label); [|done]. cbn.
    by rewrite rebuildIndex_entries. }
  split_and!; [| |done].
  - intros label d Hd. cbn [s_dict s_set_dict] in Hd. apply lookup_fmap_Some in Hd as (d1 & <- & Hd1).
    apply rebuildIndex_wf. destruct (Hlab _ _ Hd1). unfold maxDictIndex in *. lia.
  - intros label i. rewrite Hval'. apply option_eq. intros v. rewrite Hval. cbn [app]. split.
    + intros (Hin & Hget & Hl & Hi). destruct (sy_record s Hs _ _ label i Hget) as [_ Hlv]; [|done].
      apply split_dictEntryKey; [done | unfold maxDictIndex in *; lia].
    + intros Hlv. pose proof (sy_value s Hs _ _ _ Hlv) as Hget. destruct (labelValue_range _ _ _ _ Hs Hlv).
      split_and!; [apply Hkeys; by exists v | done | done | lia | lia].
Qed.
End Load.
