(* ===== verification/StoreReclaim.v ===== *)
(** * Reclaiming label values ([internal/store/store.go])

    After retention has dropped rows, the values no remaining row refers to
    go back to the cardinality budget.  The rows are read without holding
    the dictionaries, so the two halves are separate operations: the scan,
    and the freeing of what it did not find. *)

From Stdlib Require Import ZArith Lia Bool Strings.Byte Strings.String.
From stdpp Require Import gmap.
From S2P Require Import Prelude Bytes Float64 GoStd GoText Model Wire EngineKeys EngineCodec EngineDB EngineRep EngineInv.
From S2P Require Import EngineSchema EngineStore EngineQuery EngineScan StoreShard StoreState StoreDict StoreDictProofs.

Section Reclaim.
Context `{FloatText} `{J : MetaJSON} `{L : LSM} `{SJ : StoreJSON}.

(** ** The scan *)

Abbreviation used_t := (gmap gostr (gset Z)).

Definition mark (used : used_t) (key : gostr) (i : Z) : used_t := <[key := {[i]} ∪ default ∅ (used !! key)]> used.

(** The index one row carries under one key. *)
Definition mark_key (row : Row) (used : used_t) (key : gostr) : used_t :=
  match row !! key with
  | None => used
  | Some v =>
      let '(i, ok) := AsInt v in
      if negb ok || (i <? 0) || (i >? 2147483647) then used else mark used key i
  end.

Definition mark_rows (keys : list gostr) (used : used_t) (rows : list (gostr * Row)) : used_t :=
  foldl (fun used kr => foldl (mark_key kr.2) used keys) used rows.

Definition scan_shard (keys : list gostr) (used : used_t) (shard : gostr) : SM used_t :=
  r ← engine_try (Scan shard keys []);
  match r with
  | Err ErrUnknownSet => mret used
  | Err e => sfail (StEngine e)
  | Ok it =>
      x ← engine (collect it);
      let '(rows, it) := x : list (gostr * Row) * Iter in
      _ ← engine_try (Iter_Close it);
      match Iter_Err it with
      | Some e => sfail (StEngine e)
      | None => mret (mark_rows keys used rows)
      end
  end.

Fixpoint scan_shards (keys : list gostr) (used : used_t) (shards : list gostr) : SM used_t :=
  match shards with
  | [] => mret used
  | shard :: shards' => used ← scan_shard keys used shard; scan_shards keys used shards'
  end.

Definition reclaim_scan (keys : list gostr) : SM used_t :=
  s ← get_store; scan_shards keys ∅ (Sets (s_db s)).

(** ** Freeing *)

Definition blank (i : Z) (d : dictionary) : dictionary :=
  {| Entries := <[Z.to_nat i := []]> (Entries d); index := index d; live := live d; holes := holes d; alias := alias d |}.

(** The loop over one dictionary's entries, from position [i]: how many
    were freed. *)
Fixpoint free_values (label : gostr) (used : gset Z) (i : Z) (es : list gostr) : SM Z :=
  match es with
  | [] => mret 0
  | e :: es' =>
      if bytes_eqb e [] || bool_decide (i32 i ∈ used) then free_values label used (i + 1) es'
      else
        smodify (fun s => s_set_dict (alter (blank i) label (s_dict s)) s) ;;
        engine (DeleteDict (dictEntryKey label (i32 i))) ;;
        n ← free_values label used (i + 1) es';
        mret (n + 1)
  end.

(** The packed entries, overlaid with the dictionary's. *)
Fixpoint overlay (packed es : list gostr) : list gostr :=
  match packed, es with
  | _ :: packed', e :: es' => e :: overlay packed' es'
  | packed, [] => packed
  | [], _ => []
  end.

Definition rewrite_packed (label : gostr) : SM unit :=
  s ← get_store;
  let d := default new_dictionary (s_dict s !! label) in
  raw ← engine (GetDict (dictPackedPrefix ++ label));
  match raw with
  | None => mret tt
  | Some raw =>
      match dict_Unmarshal raw with
      | None | Some [] => mret tt
      | Some packed =>
          match dict_Marshal (overlay packed (Entries d)) with
          | None => sfail StCatalogue
          | Some b => engine (PutDict (dictPackedPrefix ++ label) b)
          end
      end
  end.

Definition free_label (used : used_t) (label : gostr) : SM Z :=
  s ← get_store;
  match s_dict s !! label with
  | None => mret 0
  | Some d =>
      n ← free_values label (default ∅ (used !! label)) 0 (Entries d);
      if n =? 0 then mret 0
      else
        smodify (fun s => s_set_dict (alter rebuildIndex label (s_dict s)) s) ;;
        rewrite_packed label ;;
        mret n
  end.

Fixpoint free_labels (used : used_t) (labels : list gostr) : SM Z :=
  match labels with
  | [] => mret 0
  | label :: labels' => n ← free_label used label; m ← free_labels used labels'; mret (n + m)
  end.

Definition reclaim_free (used : used_t) : SM Z :=
  s ← get_store; free_labels used (map_to_list (s_dict s)).*1.

Definition reclaimDictionaries : SM Z :=
  enterEngine ;;
  s ← get_store;
  match (map_to_list (s_dict s)).*1 with
  | [] => mret 0
  | keys => used ← reclaim_scan keys; reclaim_free used
  end.

(** ** The scan finds every index a row carries *)

Definition marked (used : used_t) (key : gostr) (i : Z) : Prop := i ∈ default ∅ (used !! key).

Lemma marked_mark used key i k j : marked (mark used key i) k j <-> marked used k j \/ (k = key /\ j = i).
Proof.
  unfold marked, mark. destruct (decide (k = key)) as [-> | Hne].
  - rewrite lookup_insert_eq. cbn. set_solver.
  - rewrite lookup_insert_ne by done. naive_solver.
Qed.

Lemma marked_mark_key row used key k j : marked used k j -> marked (mark_key row used key) k j.
Proof.
  intros Hm. unfold mark_key. destruct (row !! key) as [v|]; [|done]. destruct (AsInt v) as [i ok]. 
  break_if; [done|]. apply marked_mark. by left.
Qed.

Lemma marked_row_mono row keys : forall used k j, marked used k j -> marked (foldl (mark_key row) used keys) k j.
Proof. induction keys as [|key keys IH]; intros used k j Hm; [done|]. apply IH. by apply marked_mark_key. Qed.

Lemma marked_row row keys k j : forall used, k ∈ keys -> row !! k = Some (VInt j) -> 0 <= j <= 2147483647 ->
  marked (foldl (mark_key row) used keys) k j.
Proof.
  induction keys as [|key keys IH]; intros used Hk Hrow Hj; [by apply elem_of_nil in Hk|]. cbn [foldl].
  apply elem_of_cons in Hk as [<- | Hk]; [|by apply IH]. apply marked_row_mono. unfold mark_key. rewrite Hrow. cbn [AsInt].
  destruct (Z.ltb_spec j 0); [lia|]. destruct (Z.gtb_spec j 2147483647); [lia|]. apply marked_mark. by right.
Qed.

Lemma marked_rows_mono keys rows : forall used k j, marked used k j -> marked (mark_rows keys used rows) k j.
Proof.
  unfold mark_rows. induction rows as [|kr rows IH]; intros used k j Hm; [done|]. apply IH. by apply marked_row_mono.
Qed.

Lemma marked_rows keys rows k j pk row : forall used, (pk, row) ∈ rows -> k ∈ keys -> row !! k = Some (VInt j) -> 0 <= j <= 2147483647 ->
  marked (mark_rows keys used rows) k j.
Proof.
  induction rows as [|kr rows IH]; intros used Hin Hk Hrow Hj; [by apply elem_of_nil in Hin|].
  unfold mark_rows in *. cbn [foldl]. apply elem_of_cons in Hin as [<- | Hin]; [|by apply IH].
  apply (marked_rows_mono keys rows). by apply marked_row.
Qed.
End Reclaim.

(** * Reclaiming keeps what a row refers to

    The scan marks every index a stored row carries, so the freeing that
    follows it, with nothing in between, leaves all of those alone --
    however it ends. *)


Section Reclaim.
Context `{FloatText} `{J : MetaJSON} `{!MetaJSONLaws J} `{L : LSM} `{!LSMLaws L} `{SJ : StoreJSON}.

Abbreviation AStore := (gmap gostr Rows).
Abbreviation used_t := (gmap gostr (gset Z)).

(** ** The scan *)

Lemma reads_only_refl (d : DB) : reads_only d d.
Proof. done. Qed.
Lemma reads_only_trans (d1 d2 d3 : DB) : reads_only d1 d2 -> reads_only d2 d3 -> reads_only d1 d3.
Proof. unfold reads_only. intuition congruence. Qed.

Lemma Iter_Close_reads i (d : DB) : exists r d', Iter_Close i d = (Ok r, d') /\ reads_only d d'.
Proof.
  unfold Iter_Close, mbind, M_bind, mret, M_ret, modify, attempt, pebble_call. destruct (it_closed i); [by repeat eexists|].
  destruct (d_faults _) as [|[] f] eqn:E1; cbn [d_faults set_faults set_stats] in *; rewrite ?E1;
    try (destruct f as [|[] f']); by repeat eexists.
Qed.

(** A scan is the query [query_exact] describes. *)
Definition whole (set : gostr) (cols : list gostr) : QueryBuilder := Project (NewQuery set) cols.

Lemma scan_as_query set cols ctx (d : DB) :
  Scan set cols ctx d = Run (whole set cols) ctx (set_stats (add_scans (d_stats d)) d).
Proof. done. Qed.

Definition shard_marked (A : AStore) (keys : list gostr) (used : used_t) (shard : gostr) : Prop :=
  forall R pk row k j, A !! shard = Some R -> R !! pk = Some row -> k ∈ keys -> row !! k = Some (VInt j) ->
    0 <= j <= 2147483647 -> marked used k j.

Lemma scan_shard_spec keys used shard s A r s' :
  keys <> [] -> db_inv (s_db s) A -> scan_shard keys used shard s = (r, s') ->
  reads_only (s_db s) (s_db s') /\ s' = s_set_db (s_db s') s /\
  match r with
  | Ok used' => (forall k j, marked used k j -> marked used' k j) /\ shard_marked A keys used' shard
  | Err _ => True
  end.
Proof.
  intros Hkeys Hinv. unfold scan_shard, mbind, SM_bind, engine_try, engine, mret, SM_ret, sfail.
  set (d0 := set_stats (add_scans (d_stats (s_db s))) (s_db s)). rewrite scan_as_query. fold d0.
  assert (Hinv0 : db_inv d0 A) by exact Hinv.
  pose proof (query_wp (whole shard keys) [] d0 A Hinv0 I) as Hq. unfold wp, mbind, M_bind in Hq.
  destruct (Run (whole shard keys) [] d0) as [[it|e] d1] eqn:Hrun.
  - destruct (collect it d1) as [[[rows it']|e] d2] eqn:Hcol; cbn [fst snd] in Hq.
    + destruct Hq as (Hr & _ & sm & R & all & Hsm & HA & Hans & Hpre & Hall & _).
      cbn [s_db s_set_db]. rewrite Hcol. destruct (Iter_Close_reads it' d2) as (cl & d3 & Hclose & Hr3).
      cbn [s_db s_set_db]. rewrite Hclose.
      assert (Hreads : reads_only (s_db s) d3) by (eapply reads_only_trans; [exact Hr | exact Hr3]).
      unfold Iter_Err. destruct (it_err it') as [e|] eqn:Herr; intros [= <- <-].
      { split; [exact Hreads|]. by destruct s. }
      split; [exact Hreads|]. split; [by destruct s|]. split; [intros k j; apply marked_rows_mono|].
      intros R' pk row k j HR Hpk Hk Hrow Hj. cbn in HA. rewrite HA in HR. injection HR as <-.
      rewrite (Hall eq_refl). destruct Hans as (prs & proj & -> & Hin & _ & _ & Hproj).
      assert (Hwant : wants proj k = true).
      { cbn in Hproj. destruct keys as [|k0 keys]; [done|]. destruct Hproj as (P & -> & HP). cbn. apply bool_decide_eq_true_2. by apply HP. }
      apply (marked_rows keys _ k j pk (filter (fun kv => wants proj kv.1 = true) row)); [|done| |done].
      * apply list_elem_of_fmap. exists (pk, row). split; [done|]. apply Hin. split; [done|]. by destruct (sm_Indexed sm).
      * apply map_lookup_filter_Some. split; [done|]. done.
    + cbn [s_db s_set_db]. rewrite Hcol. intros [= <- <-]. split; [exact (proj1 Hq)|]. by destruct s.
  - cbn [fst snd] in Hq. destruct Hq as [Hr Hcase].
    assert (Hs : s_set_db d1 s = s_set_db (s_db (s_set_db d1 s)) s) by done.
    destruct e; intros [= <- <-]; (split; [exact Hr|]; split; [done|]); try done.
    split; [done|]. intros R pk row k j HR. destruct Hcase as [[_ ?] | [[Hnone _] | [_ ?]]]; [done | | done]. cbn in Hnone. congruence.
Qed.

Lemma scan_shards_spec keys shards : forall used s A r s',
  keys <> [] -> db_inv (s_db s) A -> scan_shards keys used shards s = (r, s') ->
  reads_only (s_db s) (s_db s') /\ s' = s_set_db (s_db s') s /\
  match r with
  | Ok used' => (forall k j, marked used k j -> marked used' k j) /\ forall shard, shard ∈ shards -> shard_marked A keys used' shard
  | Err _ => True
  end.
Proof.
  induction shards as [|shard shards IH]; intros used s A r s' Hkeys Hinv; cbn [scan_shards].
  - unfold mret, SM_ret. intros [= <- <-]. split; [apply reads_only_refl|]. split; [by destruct s|]. split; [done|].
    intros shard Hin. by apply elem_of_nil in Hin.
  - unfold mbind at 1, SM_bind. destruct (scan_shard keys used shard s) as [[used1|e] s1] eqn:E.
    + destruct (scan_shard_spec _ _ _ _ _ _ _ Hkeys Hinv E) as (Hr1 & Hs1 & Hm1 & Hsh).
      intros Hrest. destruct (IH used1 s1 A r s' Hkeys (reads_inv _ _ _ Hr1 Hinv) Hrest) as (Hr2 & Hs2 & Hm2).
      split; [by eapply reads_only_trans|]. split; [rewrite Hs2, Hs1; by destruct s|].
      destruct r as [used2|]; [|done]. destruct Hm2 as [Hm2 Hall]. split; [intros k j Hm; by apply Hm2, Hm1|].
      intros x [-> | Hx]%elem_of_cons; [|by apply Hall]. intros R pk row k j HR Hpk Hk Hrow Hj. apply Hm2. by eapply Hsh.
    + intros [= <- <-]. destruct (scan_shard_spec _ _ _ _ _ _ _ Hkeys Hinv E) as (Hr & Hs & _). done.
Qed.

(** ** The freeing *)

(** Every index [used] marks keeps its value. *)
Definition kept (used : used_t) (s s' : Store) : Prop :=
  forall k j, marked used k j -> labelValue s' k j = labelValue s k j.

Lemma kept_trans used s1 s2 s3 : kept used s1 s2 -> kept used s2 s3 -> kept used s1 s3.
Proof. intros H1 H2 k j Hm. by rewrite (H2 k j Hm), (H1 k j Hm). Qed.

(** Nothing in the map but [label]'s entries, and of those none marked. *)
Lemma labelValue_db s D k j : labelValue (s_set_db D s) k j = labelValue s k j.
Proof. done. Qed.

Lemma alter_blank_kept used label i s : ~ marked used label i -> 0 <= i -> kept used s (s_set_dict (alter (blank i) label (s_dict s)) s).
Proof.
  intros Hi Hpos k j Hm. unfold labelValue. cbn [s_dict s_set_dict].
  destruct (decide (k = label)) as [-> | Hne]; [|by rewrite lookup_alter_ne].
  rewrite lookup_alter_eq. destruct (s_dict s !! label) as [d|]; [|done]. cbn [fmap option_fmap option_map blank Entries].
  assert (Hji : j <> i) by (intros ->; done). unfold zlen. rewrite length_insert.
  destruct (_ || _) eqn:E; [done|]. unfold idx. destruct (j <? 0) eqn:Ej; [done|].
  rewrite list_lookup_insert_ne; [done|]. intros Heq. apply Hji. apply Z.ltb_ge in Ej. lia.
Qed.

Lemma free_values_kept used label es : forall i s r s', 0 <= i -> i + zlen es <= 2147483648 ->
  free_values label (default ∅ (used !! label)) i es s = (r, s') -> kept used s s'.
Proof.
  induction es as [|e es IH]; intros i s r s' Hi Hsmall; cbn [free_values].
  - unfold mret, SM_ret. by intros [= <- <-].
  - rewrite zlen_cons in Hsmall. pose proof (zlen_nonneg es).
    destruct (bytes_eqb e [] || bool_decide (i32 i ∈ default ∅ (used !! label))) eqn:E; [apply IH; lia|].
    apply orb_false_iff in E as [_ E]. apply bool_decide_eq_false in E. rewrite i32_id in * by lia.
    unfold mbind, SM_bind, smodify, engine, mret, SM_ret. cbn [s_db s_set_dict].
    pose proof (alter_blank_kept used label i s E Hi) as Hk.
    destruct (DeleteDict (dictEntryKey label i) (s_db s)) as [[[]|e'] D] eqn:Ed.
    + destruct (free_values label _ (i + 1) es _) as [[n|e'] s2] eqn:Ef; intros [= <- <-];
        (eapply kept_trans; [exact Hk|]; intros k j Hm; erewrite (IH _ _ _ _ _ _ Ef) by done; apply labelValue_db).
      Unshelve. all: lia.
    + intros [= <- <-]. intros k j Hm. rewrite labelValue_db. by apply Hk.
Qed.

Lemma rebuild_kept used label s : kept used s (s_set_dict (alter rebuildIndex label (s_dict s)) s).
Proof.
  intros k j _. unfold labelValue. cbn [s_dict s_set_dict].
  destruct (decide (k = label)) as [-> | Hne]; [|by rewrite lookup_alter_ne].
  rewrite lookup_alter_eq. destruct (s_dict s !! label); [|done]. cbn [fmap option_fmap option_map]. by rewrite rebuildIndex_entries.
Qed.

(** It touches the engine alone. *)
Lemma rewrite_packed_dict label s r s' : rewrite_packed label s = (r, s') -> s_dict s' = s_dict s.
Proof.
  unfold rewrite_packed, mbind, SM_bind, get_store, engine, mret, SM_ret, sfail.
  destruct (GetDict _ _) as [[[raw|]|e] D]; [|by intros [= <- <-]..].
  destruct (dict_Unmarshal raw) as [[|p packed]|]; [by intros [= <- <-] | |by intros [= <- <-]].
  destruct (dict_Marshal _); [|by intros [= <- <-]]. cbn [s_db s_set_db]. destruct (PutDict _ _ _) as [[]]; by intros [= <- <-].
Qed.

Definition fits_i32 (s : Store) : Prop := map_Forall (fun _ d => zlen (Entries d) <= 2147483647) (s_dict s).

(** Lengths do not change. *)
Definition same_lengths (s s' : Store) : Prop :=
  forall k d', s_dict s' !! k = Some d' -> exists d, s_dict s !! k = Some d /\ zlen (Entries d') = zlen (Entries d).

Lemma same_lengths_refl s : same_lengths s s.
Proof. intros k d Hd. by exists d. Qed.
Lemma same_lengths_trans s1 s2 s3 : same_lengths s1 s2 -> same_lengths s2 s3 -> same_lengths s1 s3.
Proof. intros H1 H2 k d Hd. destruct (H2 k d Hd) as (d2 & Hd2 & ->). by apply H1. Qed.
Lemma same_lengths_alter f label s : (forall d, zlen (Entries (f d)) = zlen (Entries d)) -> same_lengths s (s_set_dict (alter f label (s_dict s)) s).
Proof.
  intros Hf k d Hd. cbn [s_dict s_set_dict] in Hd. apply lookup_alter_Some in Hd as [(-> & d0 & Hd0 & ->) | [_ Hd]]; eauto.
Qed.
Lemma same_lengths_fits s s' : same_lengths s s' -> fits_i32 s -> fits_i32 s'.
Proof. intros Hl Hf k d Hd. destruct (Hl k d Hd) as (d0 & Hd0 & ->). by apply (Hf k d0). Qed.

Lemma free_values_lengths label used es : forall i s r s', free_values label used i es s = (r, s') -> same_lengths s s'.
Proof.
  induction es as [|e es IH]; intros i s r s'; cbn [free_values].
  - unfold mret, SM_ret. intros [= <- <-]. apply same_lengths_refl.
  - destruct (_ || _); [apply IH|]. unfold mbind, SM_bind, smodify, engine, mret, SM_ret. cbn [s_db s_set_dict].
    assert (Hb : same_lengths s (s_set_dict (alter (blank i) label (s_dict s)) s)).
    { apply same_lengths_alter. intros d. unfold blank, zlen. cbn [Entries]. by rewrite length_insert. }
    assert (Hb' : forall m, same_lengths s (s_set_dict (alter (blank m) label (s_dict s)) s)).
    { intros m. apply same_lengths_alter. intros d. unfold blank, zlen. cbn [Entries]. by rewrite length_insert. }
    destruct (DeleteDict _ _) as [[[]|e'] D].
    + destruct (free_values _ _ _ _ _) as [[n|e'] s2] eqn:Ef; intros [= <- <-];
        (eapply same_lengths_trans; [apply Hb|]; apply (IH _ _ _ _ Ef)).
    + intros [= <- <-]. exact Hb.
Qed.

Lemma free_label_kept used label s r s' : fits_i32 s -> free_label used label s = (r, s') -> kept used s s' /\ same_lengths s s'.
Proof.
  intros Hfits. unfold free_label, mbind, SM_bind, get_store, mret, SM_ret, smodify.
  destruct (s_dict s !! label) as [d|] eqn:Hd; [|intros [= <- <-]; by split; [|apply same_lengths_refl]].
  pose proof (Hfits _ _ Hd) as Hsmall. cbn in Hsmall.
  destruct (free_values label _ 0 (Entries d) s) as [[n|e] s1] eqn:Ef.
  - pose proof (free_values_kept used label (Entries d) 0 s _ _ ltac:(lia) ltac:(lia) Ef) as Hk. pose proof (free_values_lengths _ _ _ _ _ _ _ Ef) as Hl.
    destruct (n =? 0); [by intros [= <- <-]|].
    destruct (rewrite_packed label _) as [rr s2] eqn:Ep. pose proof (rewrite_packed_dict _ _ _ _ Ep) as Hp. cbn [s_dict s_set_dict] in Hp.
    assert (Hall : kept used s s2 /\ same_lengths s s2).
    { split.
      - eapply kept_trans; [exact Hk|]. intros k j Hm. rewrite <- (rebuild_kept used label s1 k j Hm). unfold labelValue. by rewrite Hp.
      - eapply same_lengths_trans; [exact Hl|]. intros k d2 Hd2. rewrite Hp in Hd2.
        eapply (same_lengths_alter rebuildIndex label s1); [|exact Hd2]. intros d'. by rewrite rebuildIndex_entries. }
    destruct rr; by intros [= <- <-].
  - intros [= <- <-]. split; [|by eapply free_values_lengths]. apply (free_values_kept used label (Entries d) 0 s _ _ ltac:(lia) ltac:(lia) Ef).
Qed.

Lemma free_labels_kept used labels : forall s r s', fits_i32 s -> free_labels used labels s = (r, s') -> kept used s s'.
Proof.
  induction labels as [|label labels IH]; intros s r s' Hfits; cbn [free_labels]; unfold mbind, SM_bind, mret, SM_ret; [by intros [= <- <-]|].
  destruct (free_label used label s) as [[n|e] s1] eqn:E; destruct (free_label_kept _ _ _ _ _ Hfits E) as [Hk Hl].
  - destruct (free_labels used labels s1) as [[m|e] s2] eqn:E2; intros [= <- <-];
      (eapply kept_trans; [exact Hk|]; eapply IH; [by eapply same_lengths_fits | exact E2]).
  - by intros [= <- <-].
Qed.
End Reclaim.
