(* ===== verification/StoreDemo.v ===== *)
(** * A small store to evaluate

    The catalogue's and the dictionaries' JSON instantiated by an injective
    encoding, and the stores the examples run on. *)

From Stdlib Require Import ZArith Lia Bool.
From Stdlib Require Import Strings.Byte Strings.String.
From Stdlib Require Import Floats.SpecFloat.
From stdpp Require Import gmap countable.
From S2P Require Import Prelude Bytes Float64 GoStd GoText Model Wire EngineKeys EngineCodec EngineDB Instances.
From S2P Require Import StoreShard StoreState StoreDict.

(** ** Countable data *)

Definition float_sum (f : f64) : bool + bool + unit + (bool * positive * Z) :=
  match f with
  | S754_zero s => inl (inl (inl s))
  | S754_infinity s => inl (inl (inr s))
  | S754_nan => inl (inr tt)
  | S754_finite s m e => inr (s, m, e)
  end.
Definition sum_float (x : bool + bool + unit + (bool * positive * Z)) : f64 :=
  match x with
  | inl (inl (inl s)) => S754_zero s
  | inl (inl (inr s)) => S754_infinity s
  | inl (inr tt) => S754_nan
  | inr (s, m, e) => S754_finite s m e
  end.
#[export] Instance f64_countable : Countable f64.
Proof. apply (inj_countable' float_sum sum_float). by intros []. Defined.

#[export] Instance BucketSetInfo_eq_dec : EqDecision BucketSetInfo.
Proof. solve_decision. Defined.
#[export] Instance BucketSetInfo_countable : Countable BucketSetInfo.
Proof.
  apply (inj_countable' (fun b => (bi_Buckets b, bi_Edges b, bi_Unit b)) (fun t => {| bi_Buckets := t.1.1; bi_Edges := t.1.2; bi_Unit := t.2 |})).
  by intros [].
Defined.

#[export] Instance CatalogueConflict_eq_dec : EqDecision CatalogueConflict.
Proof. solve_decision. Defined.
#[export] Instance CatalogueConflict_countable : Countable CatalogueConflict.
Proof.
  apply (inj_countable' (fun c => (cc_Set c, cc_Field c, cc_Was c, cc_Now c))
           (fun t => {| cc_Set := t.1.1.1; cc_Field := t.1.1.2; cc_Was := t.1.2; cc_Now := t.2 |})).
  by intros [].
Defined.

Abbreviation field_tuple := (gostr * gostr * gostr * gostr * Z * option f64 * option f64 * gostr * Z * f64 * Z)%type.
Definition tuple_of_field (f : fieldEntry) : field_tuple :=
  (fe_Kind f, fe_Unit f, fe_UnitHint f, fe_Description f, fe_MaxInterval f, fe_LimitMin f, fe_LimitMax f, fe_BucketSet f,
   fe_BucketIndex f, fe_BucketEdge f, fe_LastSeenMs f).
Definition field_of_tuple (t : field_tuple) : fieldEntry :=
  let '(k, u, h, d, m, lo, hi, b, i, e, l) := t in
  {| fe_Kind := k; fe_Unit := u; fe_UnitHint := h; fe_Description := d; fe_MaxInterval := m; fe_LimitMin := lo; fe_LimitMax := hi;
     fe_BucketSet := b; fe_BucketIndex := i; fe_BucketEdge := e; fe_LastSeenMs := l |}.
#[export] Instance fieldEntry_eq_dec : EqDecision fieldEntry.
Proof. solve_decision. Defined.
#[export] Instance fieldEntry_countable : Countable fieldEntry.
Proof. apply (inj_countable' tuple_of_field field_of_tuple). by intros []. Defined.

Abbreviation entry_tuple := (gostr * gmap gostr fieldEntry * gset gostr * gmap gostr BucketSetInfo * gostr * Z * Z * option Z * option Z)%type.
Definition tuple_of_entry (e : setEntry) : entry_tuple :=
  (se_Name e, se_Fields e, se_Labels e, se_BucketSets e, se_KeyScheme e, se_FirstTSMs e, se_LastTSMs e, se_RetentionMs e, se_ShardMs e).
Definition entry_of_tuple (t : entry_tuple) : setEntry :=
  let '(n, f, l, b, k, a, z, r, s) := t in
  {| se_Name := n; se_Fields := f; se_Labels := l; se_BucketSets := b; se_KeyScheme := k; se_FirstTSMs := a; se_LastTSMs := z;
     se_RetentionMs := r; se_ShardMs := s |}.
#[export] Instance setEntry_eq_dec : EqDecision setEntry.
Proof. solve_decision. Defined.
#[export] Instance setEntry_countable : Countable setEntry.
Proof. apply (inj_countable' tuple_of_entry entry_of_tuple). by intros []. Defined.

#[export] Instance BitsStoreJSON : StoreJSON := {
  cat_Marshal v c l := Some (pos_bytes (encode (v, c, l)));
  cat_Unmarshal s := decode (bytes_pos s);
  dict_Marshal es := Some (pos_bytes (encode es));
  dict_Unmarshal s := decode (bytes_pos s);
}.

#[export] Instance PlainErrors : ErrorText := { Error_ _ := bs "refused" }.

(** ** Stores *)

Definition demo_config : Config :=
  {| cf_Retention := 30 * 24 * Hour; cf_Shard := 24 * Hour; cf_SetRetention := ∅; cf_SetShard := ∅; cf_RetentionSweep := Hour;
     cf_MaxSeriesPerGraph := 1000; cf_MaxDataPointsReceived := 34560000; cf_MaxLabelCardinality := 100000; cf_MaxLabelKeys := 1000; cf_MaxSets := 10000; cf_MaxFieldsPerSet := 10000;
     cf_MaxBucketSetsPerSet := 64 |}.

Definition store_on (cfg : Config) (d : DB) : Store :=
  {| s_cfg := cfg; s_db := d; s_catalogue := ∅; s_catVer := 0; s_conflicts := []; s_dict := ∅; s_setRetention := ∅; s_setShard := ∅;
     s_idem := {| ic_max := 100000; ic_ll := [] |}; s_closed := false; s_now := 1700000000000000000; s_clock := [] |}.

Lemma store_on_db cfg d : s_db (store_on cfg d) = d.
Proof. done. Qed.
Lemma store_on_dict cfg d : s_dict (store_on cfg d) = ∅.
Proof. done. Qed.

Definition empty_store : Store := store_on demo_config demo_empty.
Definition with_faults (f : list bool) (s : Store) : Store := s_set_db (set_faults f (s_db s)) s.

(** A run by its result alone. *)
Lemma run_result {A B} (run : A * B) a : run.1 = a -> run = (a, run.2).
Proof. intros <-. apply surjective_pairing. Qed.

(** Two hosts, interned. *)
Definition two_hosts : Store := Eval vm_compute in (intern (bs "host") (bs "b") (intern (bs "host") (bs "a") empty_store).2).2.
Example two_hosts_values : labelValue two_hosts (bs "host") 0 = Some (bs "a") /\ labelValue two_hosts (bs "host") 1 = Some (bs "b").
Proof. by vm_compute. Qed.
