(* ===== verification/StoreDictProps.v ===== *)
(** * What the label dictionaries promise

    Interning, reading back, restarting and reclaiming, and where the code
    falls short of it. *)

From Stdlib Require Import ZArith Lia Bool.
From Stdlib Require Import Strings.Byte Strings.String.
From stdpp Require Import gmap.
From S2P Require Import Prelude Bytes Float64 GoStd GoText Model Wire EngineKeys EngineCodec EngineDB EngineRep EngineInv EngineSchema EngineStore EngineQuery EngineScan Instances EngineProps.
From S2P Require Import StoreShard StoreState StoreDict StoreDictProofs StoreReclaim StoreDemo.

Section Props.
Context `{FloatText} `{J : MetaJSON} `{!MetaJSONLaws J} `{L : LSM} `{!LSMLaws L} `{SJ : StoreJSON}.

(** C36: with a label cardinality limit in force, of 1 to 2^31 - 1 values,
    interning a value answers an index that resolves back to it, moves no
    value that was there and adds no other; when it fails, no index has
    changed its meaning; and either way every dictionary stays consistent
    and the rest of the store is untouched. *)
Theorem intern_spec (s s' : Store) (key value : gostr) (r : result store_err Z) :
  dicts_wf s -> value <> [] -> 0 < cf_MaxLabelCardinality (s_cfg s) <= 2147483647 -> intern key value s = (r, s') ->
  dicts_wf s' /\ only_dict s s' /\
  match r with
  | Ok i => labelValue s' key i = Some value /\ lookup_label s' key value = Some i /\
      (forall k j v, labelValue s' k j = Some v <-> labelValue s k j = Some v \/ (k = key /\ j = i /\ v = value))
  | Err _ => forall k j, labelValue s' k j = labelValue s k j
  end.
Proof.
  intros Hwf Hv Hmax Hrun. destruct (intern_cases _ _ _ _ _ Hwf Hv Hmax Hrun) as [Honly Hcase].
  destruct Hcase as [i Hlook -> | i d d' Hdict Hd Hwf' Hidx Hcount Hrange Hend Hfree Hent Hput | e -> _ | e e' i d d' Hsame Hput].
  - split_and!; [done..| |done|].
    + unfold lookup_label in Hlook. destruct (s_dict s !! key) as [d|] eqn:Hd; [|done].
      apply labelValue_spec. exists d. destruct (ag_index _ _ (Hwf _ _ Hd) _ _ Hlook) as [? ?]. done.
    + intros k j v. split; [by left|]. intros [? | (-> & -> & ->)]; [done|].
      unfold lookup_label in Hlook. destruct (s_dict s !! key) as [d|] eqn:Hd; [|done].
      apply labelValue_spec. exists d. destruct (ag_index _ _ (Hwf _ _ Hd) _ _ Hlook) as [? ?]. done.
  - assert (Hat : labelValue s' key i = Some value).
    { apply (labelValue_insert s s' key d' key i value Hdict). left. rewrite Hent, Z.eqb_refl. done. }
    split_and!; [|done|done| |].
    + intros k d2 Hk. rewrite Hdict in Hk. apply lookup_insert_Some in Hk as [[<- <-] | [_ Hk]]; [done | by apply (Hwf k)].
    + unfold lookup_label. by rewrite Hdict, lookup_insert_eq.
    + intros k j v. rewrite (labelValue_insert s s' key d' k j v Hdict), Hent.
      assert (Hold : labelValue s key j = Some v <-> idx (Entries d) j = Some v /\ v <> []).
      { rewrite labelValue_spec, Hd. destruct (s_dict s !! key) as [d0|]; cbn; [naive_solver|].
        split; [by intros (? & ? & _) | by intros [[_ ?]%idx_Some _]]. }
      destruct (decide (k = key)) as [-> | Hne]; [|naive_solver]. rewrite Hold.
      destruct (Z.eqb_spec j i) as [-> | Hji]; [|naive_solver]. specialize (Hfree v). naive_solver.
  - split_and!; done.
  - split_and!; [|done|].
    + intros k d2 Hk. destruct Hsame as [Heq | (_ & Heq & Hwf' & _)]; rewrite Heq in Hk; [by apply (Hwf k)|].
      apply lookup_insert_Some in Hk as [[<- <-] | [_ Hk]]; [done | by apply (Hwf k)].
    + intros k j. unfold labelValue. destruct Hsame as [Heq | (Hd & Heq & _ & He & _)]; rewrite Heq; [done|].
      destruct (decide (k = key)) as [-> | Hne]; [by rewrite lookup_insert_eq, Hd, He | by rewrite lookup_insert_ne].
Qed.

(** C37: with a label cardinality limit in force that keeps indices within
    what the loader takes, of 1 to [maxDictIndex] + 1 values, a value interned
    under a key free of NUL, by a store whose records and dictionaries agree,
    is there after a restart on an engine that answers: the records load, and
    every index has the value it had.  Without a limit it is not so
    ([unlimited_values_block_restart]). *)
Theorem interned_survives_restart (s s1 s0 : Store) (key value : gostr) (i : Z) :
  dicts_wf s -> synced s -> value <> [] -> (x00 ∉ key) -> 0 < cf_MaxLabelCardinality (s_cfg s) <= maxDictIndex + 1 ->
  intern key value s = (Ok i, s1) -> healthy (s_db s1) -> s_db s0 = s_db s1 -> s_dict s0 = ∅ ->
  synced s1 /\ exists s2, loadDictionaries s0 = (Ok tt, s2) /\ dicts_wf s2 /\
    labelValue s2 key i = Some value /\ forall k j, labelValue s2 k j = labelValue s1 k j.
Proof.
  intros Hwf Hs Hv Hkey Hmax Hrun Hh Hdb Hempty.
  pose proof (intern_synced _ _ _ _ _ Hwf Hs Hv Hkey Hmax Hrun) as Hs1. split; [done|].
  destruct (loadDictionaries_synced s1 s0 Hs1 Hh Hdb Hempty) as (s2 & Hload & Hwf2 & Hval & _).
  exists s2. split_and!; [done | done | | done]. rewrite Hval.
  destruct (intern_cases _ _ _ _ _ Hwf Hv ltac:(unfold maxDictIndex in Hmax; lia) Hrun) as [_ Hcase].
  inversion Hcase as [? Hlook Heq | ? d d' Hdict ? ? ? ? ? ? ? Hent ? | |]; subst.
  - unfold lookup_label in Hlook. destruct (s_dict s !! key) as [d|] eqn:Hd; [|done].
    apply labelValue_spec. exists d. destruct (ag_index _ _ (Hwf _ _ Hd) _ _ Hlook) as [? ?]. done.
  - apply (labelValue_insert s s1 key d' key i value Hdict). left. by rewrite Hent, Z.eqb_refl.
Qed.

(** ** Two spellings of one clause *)

Lemma matching_from_elem keep es : forall i0 v,
  v ∈ (matching_from i0 keep es).1 <-> exists n e, v = VInt (i0 + Z.of_nat n) /\ es !! n = Some e /\ e <> [] /\ keep e = true.
Proof.
  induction es as [|e es IH]; intros i0 v; cbn [matching_from].
  - split; [by intros ?%elem_of_nil | by intros (n & e & _ & ? & _)].
  - specialize (IH (i0 + 1) v). destruct (matching_from (i0 + 1) keep es) as [vals total]. cbn [fst] in IH.
    assert (Hshift : v ∈ vals <-> exists n e', v = VInt (i0 + Z.of_nat (S n)) /\ es !! n = Some e' /\ e' <> [] /\ keep e' = true).
    { rewrite IH. split; intros (n & e' & -> & Hrest); exists n, e'; (split; [f_equal; lia | done]). }
    split.
    + intros Hin. assert (v ∈ vals \/ (v = VInt i0 /\ e <> [] /\ keep e = true)) as [Hv | (-> & Hne & Hk)].
      { destruct (bytes_eqb e []) eqn:Ee; [by left|]. assert (e <> []) by (intros ->; by rewrite bytes_eqb_refl in Ee).
        destruct (keep e); [|by left]. cbn [fst] in Hin. apply elem_of_cons in Hin as [-> | Hin]; [by right | by left]. }
      * apply Hshift in Hv as (n & e' & -> & Hn & Hrest). by exists (S n), e'.
      * exists 0%nat, e. split_and!; try done. f_equal. lia.
    + intros ([|n] & e' & -> & Hn & Hne & Hk).
      * injection Hn as ->. destruct (bytes_eqb e' []) eqn:Ee; [by apply bytes_eqb_spec in Ee|]. rewrite Hk. cbn [fst].
        apply elem_of_cons. left. f_equal. lia.
      * assert (Hv : VInt (i0 + Z.of_nat (S n)) ∈ vals) by (apply Hshift; by exists n, e').
        destruct (bytes_eqb e []); [done|]. cbn [fst]. destruct (keep e); [|done]. apply elem_of_cons. by right.
Qed.

(** [host = "a"] and [host =~ /^a$/] select the same indices: the
    positions the index and the aliases name are exactly those whose entry
    is the value. *)
Theorem positions_match_scan (s : Store) (key value : gostr) (i : Z) :
  dicts_wf s -> value <> [] ->
  VInt i ∈ default [] (lookupPositions s key value) <-> VInt i ∈ (labelIndicesMatching s key (fun e => bytes_eqb e value)).1.
Proof.
  intros Hwf Hv. unfold lookupPositions, labelIndicesMatching. destruct (s_dict s !! key) as [d|] eqn:Hd; [|done].
  pose proof (Hwf _ _ Hd) as Hag. cbn in Hag.
  rewrite matching_from_elem. transitivity (idx (Entries d) i = Some value).
  - unfold positions. destruct (index d !! value) as [i0|] eqn:Hi.
    + transitivity (VInt i ∈ VInt <$> (i0 :: default [] (alias d !! value))); [done|]. rewrite list_elem_of_fmap.
      transitivity (i ∈ i0 :: default [] (alias d !! value)); [split; [by intros (j & [= ->] & ?) | intros ?; by exists i]|]. rewrite elem_of_cons. split.
      * intros [-> | Ha]; [by apply (ag_index _ _ Hag) | by apply (ag_alias _ _ Hag)].
      * intros He. destruct (ag_entry _ _ Hag _ _ He Hv) as (j & Hj & Hin). rewrite Hi in Hj. injection Hj as ->. done.
    + cbn. split; [by intros ?%elem_of_nil|]. intros He. destruct (ag_entry _ _ Hag _ _ He Hv) as (j & Hj & _). congruence.
  - split.
    + intros [Hpos Hi]%idx_Some. exists (Z.to_nat i), value. split; [f_equal; lia|]. split_and!; [done | done | by apply bytes_eqb_spec].
    + intros (n & e & [= ->] & Hn & _ & He%bytes_eqb_spec). subst. apply idx_Some. split; [lia|]. by rewrite Z.add_0_l, Nat2Z.id.
Qed.

(** ** Reclaiming *)

(** C38: reclaiming, run by itself, frees no value a stored row refers to,
    whether it finishes, fails part-way or is refused: an index that a row
    of any shard carries resolves to the same string afterwards. *)
Theorem reclaim_keeps_referenced (s s' : Store) (A : gmap gostr Rows) (r : result store_err Z) :
  db_inv (s_db s) A -> fits_i32 s -> reclaimDictionaries s = (r, s') ->
  forall shard R pk row k i v, A !! shard = Some R -> R !! pk = Some row -> row !! k = Some (VInt i) ->
    labelValue s k i = Some v -> labelValue s' k i = Some v.
Proof.
  intros Hinv Hfits Hrun shard R pk row k i v HR Hpk Hrow Hval.
  unfold reclaimDictionaries, enterEngine, mbind, SM_bind, get_store, mret, SM_ret, sfail in Hrun.
  destruct (s_closed s); [by injection Hrun as <- <-|].
  destruct (map_to_list (s_dict s)).*1 as [|key keys] eqn:Hkeys; [by injection Hrun as <- <-|].
  pose proof Hval as Hval0. apply labelValue_spec in Hval as (d & Hd & Hi%idx_range & _). pose proof (Hfits _ _ Hd) as Hsmall. cbn in Hsmall.
  assert (Hk : k ∈ key :: keys).
  { rewrite <- Hkeys. apply list_elem_of_fmap. exists (k, d). split; [done|]. by apply elem_of_map_to_list. }
  unfold reclaim_scan, mbind, SM_bind, get_store in Hrun. assert (Hne : key :: keys <> []) by done.
  destruct (scan_shards (key :: keys) ∅ (Sets (s_db s)) s) as [[used|e] s1] eqn:Escan;
    destruct (scan_shards_spec _ _ _ _ _ _ _ Hne Hinv Escan) as (Hr & Hs1 & Hm).
  - destruct Hm as [_ Hall].
    assert (Hin : shard ∈ Sets (s_db s)).
    { unfold Sets. rewrite sort_strings_perm. destruct (proj2 (inv_dom _ _ _ _ _ Hinv shard)) as [sm Hsm]; [by rewrite HR|].
      apply list_elem_of_fmap. exists (shard, sm). split; [done|]. by apply elem_of_map_to_list. }
    assert (Hmark : marked used k i) by (eapply (Hall shard Hin); [done..|lia]).
    assert (Hfits1 : fits_i32 s1) by (unfold fits_i32; rewrite Hs1; exact Hfits).
    unfold reclaim_free, mbind, SM_bind, get_store in Hrun.
    rewrite (free_labels_kept used _ s1 r s' Hfits1 Hrun k i Hmark). by rewrite Hs1, labelValue_db.
  - injection Hrun as <- <-. by rewrite Hs1, labelValue_db.
Qed.
End Props.

(** ** Past the bound a loader accepts

    [MaxLabelCardinality] below one switches the limit off, and [intern]
    then hands out indices the loader refuses. *)

Section Limit.
Context `{FloatText} `{J : MetaJSON} `{L : LSM} `{!LSMLaws L} `{SJ : StoreJSON}.

Lemma load_packed_db keys : forall s r s', load_packed keys s = (r, s') -> healthy (s_db s) -> s_db s' = s_db s.
Proof.
  induction keys as [|k keys IH]; intros s r s'; cbn [load_packed]; unfold mbind, SM_bind, engine_try, smodify, mret, SM_ret, sfail; [by intros [= <- <-]|].
  intros Hrun Hh. destruct (negb _); [by eapply IH|]. rewrite GetDict_healthy in Hrun by done.
  destruct (kv_get _ _) as [b|].
  - destruct (dict_Unmarshal b); [by apply IH in Hrun|]. by injection Hrun as <- <-.
  - by apply IH in Hrun.
Qed.

Lemma load_entries_refuses D k v label i keys : forall s,
  healthy D -> s_db s = D -> k ∈ keys -> kv_get (d_kv D) (dictKey k) = Some v -> splitDictEntryKey k = Some (label, i) -> maxDictIndex < i ->
  exists e, (load_entries keys s).1 = Err e.
Proof.
  induction keys as [|k0 keys IH]; intros s Hh Hdb Hin Hget Hsplit Hbig; [by apply elem_of_nil in Hin|].
  cbn [load_entries]. unfold mbind, SM_bind, engine_try, smodify, mret, SM_ret, sfail. apply elem_of_cons in Hin as [<- | Hin].
  - rewrite Hsplit, Hdb, GetDict_healthy, Hget by done. destruct (Z.gtb_spec i maxDictIndex); [|lia]. by eexists.
  - destruct (splitDictEntryKey k0) as [[l0 i0]|]; [|by apply IH]. rewrite Hdb, GetDict_healthy by done.
    destruct (kv_get (d_kv D) (dictKey k0)); [|by apply IH]. destruct (i0 >? maxDictIndex); [by eexists | by apply IH].
Qed.

(** with the cardinality limit switched off (which the configuration
    documents), the value after [maxDictIndex + 1] others is accepted and
    recorded under an index the loader calls implausible: the store writes
    on, and does not open again. *)
Theorem unlimited_values_block_restart (s : Store) (key value : gostr) (d : dictionary) :
  s_dict s !! key = Some d -> index d !! value = None -> holes d = [] -> zlen (Entries d) = maxDictIndex + 1 ->
  cf_MaxLabelCardinality (s_cfg s) <= 0 -> (x00 ∉ key) -> healthy (s_db s) ->
  exists s1, intern key value s = (Ok (maxDictIndex + 1), s1) /\
    forall s0, s_db s0 = s_db s1 -> exists e, (loadDictionaries s0).1 = Err e.
Proof.
  intros Hd Hnew Hholes Hlen Hoff Hkey [Hc Hf]. unfold intern, intern_locked, mbind, SM_bind, get_store, mret, SM_ret, sfail, smodify, engine_try.
  rewrite Hd, Hnew. destruct (Z.gtb_spec (cf_MaxLabelCardinality (s_cfg s)) 0); [lia|]. cbn [andb].
  unfold takeHole. rewrite Hholes. cbn [rev pop_hole Entries]. rewrite Hlen, i32_id by (unfold maxDictIndex; lia).
  cbn [s_db set_dictionary s_set_dict].
  destruct (PutDict (dictEntryKey key (maxDictIndex + 1)) value (s_db s)) as [[[]|e] D] eqn:Hput.
  - eexists. split; [reflexivity|]. intros s0 Hs0. cbn [s_db s_set_db s_set_dict set_dictionary] in Hs0.
    pose proof (PutDict_spec _ _ _ _ _ Hput) as Hkv. cbv beta iota in Hkv.
    assert (Hh : healthy D).
    { unfold PutDict, guard_open, pdb_Set, pdb_Apply, pebble_call, mbind, M_bind, get_db, modify, mret, M_ret in Hput. rewrite Hc, Hf in Hput.
      by injection Hput as <-. }
    set (k := dictEntryKey key (maxDictIndex + 1)) in *.
    assert (Hget : kv_get (d_kv D) (dictKey k) = Some value) by (by rewrite Hkv, bytes_eqb_refl).
    destruct (DictKeys_healthy D Hh) as (keys & Hrun & Hkeys). unfold loadDictionaries, mbind, SM_bind, engine. rewrite Hs0, Hrun.
    assert (Hin : k ∈ keys) by (apply Hkeys; by exists value).
    destruct (load_packed keys (s_set_db D s0)) as [[[]|e] s2] eqn:Hp; [|by exists e].
    pose proof (load_packed_db _ _ _ _ Hp Hh) as Hdb2.
    destruct (load_entries_refuses D k value key (maxDictIndex + 1) keys s2 Hh Hdb2 Hin Hget) as [e He].
    { apply split_dictEntryKey; [done | unfold maxDictIndex; lia]. }
    { unfold maxDictIndex. lia. }
    destruct (load_entries keys s2) as [[[]|e'] s3]; [done | by exists e'].
  - exfalso. unfold PutDict, guard_open, pdb_Set, pdb_Apply, pebble_call, mbind, M_bind, get_db, modify, mret, M_ret in Hput. rewrite Hc, Hf in Hput. done.
Qed.
End Limit.

(** ** Two faults that relabel rows *)

Abbreviation host := (bs "host").
Abbreviation misread := (loadDictionaries (store_on demo_config (set_faults [false; false; true] (s_db two_hosts)))).
Abbreviation reloaded s := (loadDictionaries (store_on demo_config (s_db s))).

(** a read error while a dictionary loads is passed over, so the
    record's position becomes a hole, the next new value takes it, and the
    record is overwritten: the rows stored under the first value carry the
    second one from then on, across restarts too. *)
Theorem load_error_relabels :
  labelValue two_hosts host 0 = Some (bs "a") /\
  misread.1 = Ok tt /\ labelValue misread.2 host 0 = None /\
  (intern host (bs "c") misread.2).1 = Ok 0 /\
  (reloaded (intern host (bs "c") misread.2).2).1 = Ok tt /\
  labelValue (reloaded (intern host (bs "c") misread.2).2).2 host 0 = Some (bs "c").
Proof. split_and!; vm_compute; reflexivity. Qed.

Abbreviation half_reclaimed := (reclaimDictionaries (with_faults [true] two_hosts)).

(** a reclaim whose first delete fails returns with the entry blanked
    and the index still naming it, so a write of that value is answered
    with an index that resolves to nothing. *)
Theorem failed_reclaim_dangles :
  half_reclaimed.1 = Err (StEngine ErrPebble) /\
  (intern host (bs "a") half_reclaimed.2).1 = Ok 0 /\
  labelValue (intern host (bs "a") half_reclaimed.2).2 host 0 = None.
Proof. split_and!; vm_compute; reflexivity. Qed.

(** ** Witnesses *)

Lemma empty_dicts_wf cfg d : dicts_wf (store_on cfg d).
Proof. intros k x Hx. by cbn [store_on s_dict] in Hx; rewrite lookup_empty in Hx. Qed.

Lemma demo_no_dict k : kv_get (d_kv (s_db empty_store)) (dictKey k) = None.
Proof.
  assert (E : d_kv (s_db empty_store) = ({[verKey := PutUint32 currentStorageVersion]} : gmap gostr gostr)) by (vm_compute; reflexivity).
  rewrite E. exact (lookup_singleton_ne (M := gmap gostr) verKey (dictKey k) (PutUint32 currentStorageVersion) ltac:(discriminate)).
Qed.

Lemma empty_synced : synced empty_store.
Proof.
  constructor.
  - intros label i v Hv. apply labelValue_spec in Hv as (d & Hd & _). cbn in Hd. by rewrite lookup_empty in Hd.
  - intros k v label i Hget. by rewrite demo_no_dict in Hget.
  - intros k v Hget. by rewrite demo_no_dict in Hget.
  - intros label d Hd. cbn in Hd. by rewrite lookup_empty in Hd.
Qed.

Lemma intern_spec_witness : labelValue (intern host (bs "a") empty_store).2 host 0 = Some (bs "a").
Proof.
  assert (Hrun : intern host (bs "a") empty_store = (Ok 0, (intern host (bs "a") empty_store).2)) by (apply run_result; vm_compute; reflexivity).
  destruct (intern_spec empty_store _ host (bs "a") (Ok 0) (empty_dicts_wf _ _) ltac:(discriminate) ltac:(by (vm_compute; split)) Hrun)
    as (_ & _ & Hv & _).
  exact Hv.
Defined.

Lemma interned_survives_restart_witness :
  exists s2, loadDictionaries (store_on demo_config (s_db (intern host (bs "a") empty_store).2)) = (Ok tt, s2) /\
    labelValue s2 host 0 = Some (bs "a").
Proof.
  assert (Hrun : intern host (bs "a") empty_store = (Ok 0, (intern host (bs "a") empty_store).2)) by (apply run_result; vm_compute; reflexivity).
  assert (Hh : healthy (s_db (intern host (bs "a") empty_store).2)) by (split; vm_compute; reflexivity).
  assert (Hnul : x00 ∉ host) by (apply (bool_decide_unpack (x00 ∉ host)); vm_compute; exact I).
  assert (Hmax : 0 < cf_MaxLabelCardinality (s_cfg empty_store) <= maxDictIndex + 1) by (vm_compute; split; [reflexivity | discriminate]).
  destruct (interned_survives_restart empty_store (intern host (bs "a") empty_store).2
    (store_on demo_config (s_db (intern host (bs "a") empty_store).2)) host (bs "a") 0 (empty_dicts_wf _ _) empty_synced
    ltac:(discriminate) Hnul Hmax Hrun Hh (store_on_db _ _) (store_on_dict _ _)) as [_ (s2 & H2 & _ & Hv & _)].
  exists s2. split; [exact H2 | exact Hv].
Defined.

Lemma two_hosts_wf : dicts_wf two_hosts.
Proof.
  intros k d Hd. assert (E : s_dict two_hosts = rebuildIndex <$> s_dict two_hosts) by (vm_compute; reflexivity).
  rewrite E in Hd. apply lookup_fmap_Some in Hd as (d0 & <- & Hd0). apply rebuildIndex_wf.
  assert (Hall : map_Forall (fun _ d => zlen (Entries d) <= 2147483647) (s_dict two_hosts)); [|by apply (Hall k)].
  refine (bool_decide_unpack _ _). by vm_compute.
Qed.

Lemma positions_match_scan_witness :
  VInt 1 ∈ (labelIndicesMatching two_hosts host (fun e => bytes_eqb e (bs "b"))).1.
Proof.
  apply (positions_match_scan two_hosts host (bs "b") 1); [apply two_hosts_wf | done|].
  vm_compute. by apply list_elem_of_here.
Defined.

(** Eight values, of which the demo row refers to the last. *)
Definition eight : Store :=
  set_dictionary (bs "usage")
    (rebuildIndex {| Entries := map bs ["a"; "b"; "c"; "d"; "e"; "f"; "g"; "h"]%string; index := ∅; live := 0; holes := []; alias := ∅ |})
    (store_on demo_config demo_store).

Lemma reclaim_keeps_referenced_witness :
  labelValue (reclaimDictionaries eight).2 (bs "usage") 7 = Some (bs "h") /\
  labelValue (reclaimDictionaries eight).2 (bs "usage") 6 = None.
Proof.
  split; [|by (vm_compute; reflexivity)].
  apply (reclaim_keeps_referenced eight _ demo_rows (reclaimDictionaries eight).1 (demo_faults_inv [])) with
    (shard := demo_set) (R := {[demo_pk := demo_row 1700]}) (pk := demo_pk) (row := demo_row 1700).
  - refine (bool_decide_unpack _ _). by vm_compute.
  - apply surjective_pairing.
  - apply lookup_singleton_eq.
  - apply lookup_singleton_eq.
  - by vm_compute.
  - by vm_compute.
Defined.

(** A dictionary at the loader's bound. *)
Definition full_dictionary : dictionary :=
  {| Entries := replicate (Z.to_nat (maxDictIndex + 1)) (bs "a"); index := {[bs "a" := 0]}; live := maxDictIndex + 1; holes := []; alias := ∅ |}.
Definition unlimited : Config :=
  {| cf_Retention := 0; cf_Shard := Hour; cf_SetRetention := ∅; cf_SetShard := ∅; cf_RetentionSweep := 0; cf_MaxSeriesPerGraph := 1000; cf_MaxDataPointsReceived := 34560000; cf_MaxLabelCardinality := -1;
     cf_MaxLabelKeys := 1000; cf_MaxSets := 10000; cf_MaxFieldsPerSet := 10000; cf_MaxBucketSetsPerSet := 64 |}.

Lemma unlimited_values_block_restart_witness :
  exists s1, intern host (bs "b") (set_dictionary host full_dictionary (store_on unlimited demo_empty)) = (Ok 16777217, s1) /\
    exists e, (loadDictionaries (store_on unlimited (s_db s1))).1 = Err e.
Proof.
  destruct (unlimited_values_block_restart (set_dictionary host full_dictionary (store_on unlimited demo_empty)) host (bs "b") full_dictionary)
    as (s1 & Hrun & Hload); [by apply lookup_insert_eq | by vm_compute | done | | done | by refine (bool_decide_unpack _ _) | by (vm_compute; split) |].
  - unfold full_dictionary, zlen. cbn [Entries]. rewrite length_replicate, Z2Nat.id; [done|]. unfold maxDictIndex. lia.
  - exists s1. split; [exact Hrun|]. apply Hload. done.
Defined.
