(* ===== verification/StoreCatalogue.v ===== *)
(** * The catalogue ([internal/store/write.go], [store.go])

    What each logical set carries -- its fields, its label keys, its bucket
    sets -- and what was declared about it: retention, shard width, key
    scheme.  An observation widens it and moves the catalogue's version
    only when the schema changed; a declaration is checked whole before any
    of it is applied. *)

From Stdlib Require Import ZArith Lia Bool.
From Stdlib Require Import Strings.Byte Strings.String.
From stdpp Require Import gmap.
From S2P Require Import Prelude Bytes Float64 GoStd GoText Model Wire EngineKeys EngineCodec EngineDB StoreShard StoreState.

(** ** Entries *)

Definition has_field (e : setEntry) (k : gostr) : bool := match se_Fields e !! k with Some _ => true | None => false end.

(** [FirstTSMs] only falls and [LastTSMs] only rises. *)
Definition se_observe_ts (ts : Z) (e : setEntry) : setEntry :=
  let e := if (se_FirstTSMs e =? 0) || (ts <? se_FirstTSMs e) then se_set_FirstTSMs ts e else e in
  if ts >? se_LastTSMs e then se_set_LastTSMs ts e else e.

Definition see_label (st : setEntry * bool) (k : gostr) : setEntry * bool :=
  let '(e, changed) := st in
  if bool_decide (k ∈ se_Labels e) then st else (se_set_Labels ({[k]} ∪ se_Labels e) e, true).

Definition seen_at (now : Z) (f : fieldEntry) : fieldEntry :=
  {| fe_Kind := fe_Kind f; fe_Unit := fe_Unit f; fe_UnitHint := fe_UnitHint f; fe_Description := fe_Description f;
     fe_MaxInterval := fe_MaxInterval f; fe_LimitMin := fe_LimitMin f; fe_LimitMax := fe_LimitMax f; fe_BucketSet := fe_BucketSet f;
     fe_BucketIndex := fe_BucketIndex f; fe_BucketEdge := fe_BucketEdge f; fe_LastSeenMs := now |}.

Definition see_field (now : Z) (st : setEntry * bool) (k : gostr) : setEntry * bool :=
  let '(e, changed) := st in
  match se_Fields e !! k with
  | Some f => (se_set_Fields (<[k := seen_at now f]> (se_Fields e)) e, changed)
  | None => (se_set_Fields (<[k := seen_at now new_field]> (se_Fields e)) e, true)
  end.

Definition label_keys (sm : Sample) : list gostr := (map_to_list (Labels sm)).*1.
Definition field_keys (sm : Sample) : list gostr := (map_to_list (Fields sm)).*1.

Definition observe_sample (now : Z) (st : setEntry * bool) (sm : Sample) : setEntry * bool :=
  let st := (se_observe_ts (TSMs sm) st.1, st.2) in
  let st := foldl see_label st (label_keys sm) in
  foldl (see_field now) st (field_keys sm).

(** ** Equality of entries *)

Definition sameLimit (a b : option f64) : bool :=
  match a, b with
  | None, None => true
  | Some a, Some b => feqb a b
  | _, _ => false
  end.

Definition field_equal (a b : fieldEntry) : bool :=
  bytes_eqb (fe_Kind a) (fe_Kind b) && bytes_eqb (fe_Unit a) (fe_Unit b) && bytes_eqb (fe_UnitHint a) (fe_UnitHint b)
  && bytes_eqb (fe_Description a) (fe_Description b) && (fe_MaxInterval a =? fe_MaxInterval b)
  && sameLimit (fe_LimitMin a) (fe_LimitMin b) && sameLimit (fe_LimitMax a) (fe_LimitMax b)
  && bytes_eqb (fe_BucketSet a) (fe_BucketSet b) && (fe_BucketIndex a =? fe_BucketIndex b)
  && feqb (fe_BucketEdge a) (fe_BucketEdge b) && (fe_LastSeenMs a =? fe_LastSeenMs b).

Fixpoint lists_equal {A} (eqb : A -> A -> bool) (a b : list A) : bool :=
  match a, b with
  | [], [] => true
  | x :: a', y :: b' => eqb x y && lists_equal eqb a' b'
  | _, _ => false
  end.

Definition bucketSetEqual (a b : BucketSetInfo) : bool :=
  bytes_eqb (bi_Unit a) (bi_Unit b) && lists_equal bytes_eqb (bi_Buckets a) (bi_Buckets b) && lists_equal feqb (bi_Edges a) (bi_Edges b).

(** ** One field declaration *)

Definition maxBucketIndex : Z := 4096.
Definition maxMetaTextBytes : Z := 4096.

(** [for len(l) < n { l = append(l, x) }]. *)
Definition grow {A} (n : Z) (x : A) (l : list A) : list A := l ++ replicate (Z.to_nat (n - zlen l)) x.

Definition placed_bucket (m : FieldMeta) (stored : BucketSetInfo) : BucketSetInfo :=
  let buckets := grow (fm_BucketIndex m + 1) [] (bi_Buckets stored) in
  let edges := take (length buckets) (grow (zlen buckets) (of_int 0) (bi_Edges stored)) in
  {| bi_Buckets := <[Z.to_nat (fm_BucketIndex m) := fm_Field m]> buckets;
     bi_Edges := <[Z.to_nat (fm_BucketIndex m) := fm_BucketEdge m]> edges;
     bi_Unit := if bytes_eqb (fm_Unit m) [] then bi_Unit stored else fm_Unit m |}.

Definition or_text (new old : gostr) : gostr := if bytes_eqb new [] then old else new.
Definition or_limit (new old : option f64) : option f64 := match new with Some _ => new | None => old end.

Definition declared (m : FieldMeta) (f : fieldEntry) : fieldEntry :=
  {| fe_Kind := or_text (fm_Kind m) (fe_Kind f);
     fe_Unit := or_text (fm_Unit m) (fe_Unit f);
     fe_UnitHint := or_text (fm_UnitHint m) (fe_UnitHint f);
     fe_Description := or_text (fm_Description m) (fe_Description f);
     fe_MaxInterval := if fm_MaxIntervalMs m >? 0 then fm_MaxIntervalMs m
                       else if fm_MaxIntervalS m >? 0 then i64 (fm_MaxIntervalS m * 1000) else fe_MaxInterval f;
     fe_LimitMin := or_limit (fm_LimitMin m) (fe_LimitMin f);
     fe_LimitMax := or_limit (fm_LimitMax m) (fe_LimitMax f);
     fe_BucketSet := or_text (fm_BucketSet m) (fe_BucketSet f);
     fe_BucketIndex := if bytes_eqb (fm_BucketSet m) [] then fe_BucketIndex f else fm_BucketIndex m;
     fe_BucketEdge := if bytes_eqb (fm_BucketSet m) [] then fe_BucketEdge f else fm_BucketEdge m;
     fe_LastSeenMs := fe_LastSeenMs f |}.

Definition unnamed (m : FieldMeta) : bool := bytes_eqb (fm_Set m) [] || bytes_eqb (fm_Field m) [].

Definition bad_name {A} (r : result model_err A) (why : model_err -> bad_request) : result store_err unit :=
  match r with Ok _ => Ok tt | Err e => Err (StBad (why e)) end.
Definition bad_if (b : bool) (e : bad_request) : result store_err unit := if b then Err (StBad e) else Ok tt.

(** [model.IngestSet]. *)
Definition IngestSet : gostr := bs "_mensura_ingest".

(** The checks on one declaration, in order. *)
Definition check_field_meta (m : FieldMeta) : result store_err unit :=
  let set := fm_Set m in let field := fm_Field m in
  if unnamed m then Ok tt
  else
    check bad_name (ValidateSetName set) BadName;
    check bad_if (IsReserved set && negb (bytes_eqb set IngestSet)) (BadReserved set);
    check bad_name (ValidateFieldName field) BadName;
    check (if bytes_eqb (fm_Kind m) [] then Ok tt else bad_name (ValidateKind (fm_Kind m)) (BadField set field));
    check (if bytes_eqb (fm_BucketSet m) [] then Ok tt else bad_name (ValidateBucketSetName (fm_BucketSet m)) (BadField set field));
    check bad_if (negb (bytes_eqb (fm_BucketSet m) []) && ((fm_BucketIndex m <? 0) || (fm_BucketIndex m >=? maxBucketIndex)))
                 (BadBucketIndex set field (fm_BucketIndex m));
    check bad_if ((zlen (fm_Unit m) >? maxMetaTextBytes) || (zlen (fm_UnitHint m) >? maxMetaTextBytes) || (zlen (fm_Description m) >? maxMetaTextBytes))
                 (BadText set field);
    check bad_if (fm_MaxIntervalMs m <? 0) (BadInterval set field);
    check bad_if (fm_MaxIntervalS m <? 0) (BadInterval set field);
    bad_if (match fm_LimitMin m, fm_LimitMax m with Some lo, Some hi => fgtb lo hi | _, _ => false end) (BadLimits set field).

(** [setDeclarationRoom], [declarationRoomLocked]: what one request would
    add, counted against the limits before any of it is applied. *)
Definition maxDeclaredDurationMs : Z := i64_max /go 1000000.

Section Catalogue.
Context `{FloatText} `{MetaJSON} `{L : LSM} `{SJ : StoreJSON}.

(** [entryLocked]. *)
Definition entryLocked (set : gostr) (s : Store) : setEntry := default (new_entry set) (s_catalogue s !! set).

Definition set_entry (set : gostr) (e : setEntry) (s : Store) : Store := s_set_catalogue (<[set := e]> (s_catalogue s)) s.

(** ** Observing *)

Definition observeSet (set : gostr) (samples : list Sample) : SM unit :=
  match samples with
  | [] => mret tt
  | _ =>
      now ← time_Now;
      smodify (fun s =>
        let '(e, changed) := foldl (observe_sample (now / 1000000)) (entryLocked set s, false) samples in
        let s := set_entry set e s in
        if changed then bump s else s)
  end.

Definition fieldObserved (e : setEntry) (name : gostr) : bool :=
  match se_Fields e !! name with Some f => observed f | None => false end.

(** The first name of a list that a test refuses. *)
Definition first_bad (bad : gostr -> bool) (l : list gostr) : option gostr := List.find bad l.

(** Labels and fields share the columns of a set: the first name this
    sample carries as the other kind, in this request or in the catalogue. *)
Definition checkColumnNamespace (s : Store) (set : gostr) (sm : Sample) (kinds : gmap gostr bool) : result store_err unit :=
  match first_bad (fun k => match kinds !! k with Some wasLabel => negb wasLabel | None => false end) (label_keys sm) with
  | Some k => Err (StColumn k set)
  | None =>
  match first_bad (fun k => match kinds !! k with Some wasLabel => wasLabel | None => false end) (field_keys sm) with
  | Some k => Err (StColumn k set)
  | None =>
  match s_catalogue s !! set with
  | None => Ok tt
  | Some e =>
      match first_bad (fieldObserved e) (label_keys sm) with
      | Some k => Err (StColumn k set)
      | None =>
      match first_bad (fun k => bool_decide (k ∈ se_Labels e)) (field_keys sm) with
      | Some k => Err (StColumn k set)
      | None => Ok tt
      end end
  end end end.

(** The fields of a sample that are new, taken off the room one by one. *)
Fixpoint field_room (e : setEntry) (room : Z) (keys : list gostr) : bool :=
  match keys with
  | [] => true
  | k :: keys' =>
      if has_field e k then field_room e room keys'
      else if room - 1 <? 0 then false else field_room e (room - 1) keys'
  end.

Definition catalogueRoom (s : Store) (set : gostr) (sm : Sample) : result store_err unit :=
  let maxSets := cf_MaxSets (s_cfg s) in let maxFields := cf_MaxFieldsPerSet (s_cfg s) in
  if (maxSets <=? 0) && (maxFields <=? 0) then Ok tt
  else
    match s_catalogue s !! set with
    | None =>
        if (maxSets >? 0) && (Z.of_nat (size (s_catalogue s)) >=? maxSets) then Err (StTooManySets set)
        else if (maxFields >? 0) && (Z.of_nat (size (Fields sm)) >? maxFields) then Err (StTooManyFields set)
        else Ok tt
    | Some e =>
        if maxFields <=? 0 then Ok tt
        else if field_room e (maxFields - Z.of_nat (size (se_Fields e))) (field_keys sm) then Ok tt else Err (StTooManyFields set)
    end.

(** ** Declaring a set *)

Definition checkSetMeta (m : SetMeta) : result store_err unit :=
  let set := sm_Set m in
  let negative o := match o with Some n => n <? 0 | None => false end in
  let beyond o := match o with Some n => n >? maxDeclaredDurationMs | None => false end in
  if bytes_eqb set [] then Ok tt
  else
    check bad_name (ValidateSetName set) BadName;
    check bad_if (IsReserved set && negb (bytes_eqb set IngestSet)) (BadReserved set);
    check bad_if (negative (sm_RetentionMs m)) (BadNegative set);
    check bad_if (negative (sm_ShardMs m)) (BadNegative set);
    check bad_if (beyond (sm_RetentionMs m)) (BadTooLong set);
    check bad_if (beyond (sm_ShardMs m)) (BadTooLong set);
    bad_if (negb (bytes_eqb (sm_KeyScheme m) [] || bytes_eqb (sm_KeyScheme m) (bs "content") || bytes_eqb (sm_KeyScheme m) (bs "offset")))
           (BadKeyScheme set (sm_KeyScheme m)).

Fixpoint set_room (s : Store) (sets : Z) (seen : gset gostr) (metas : list SetMeta) : result store_err unit :=
  match metas with
  | [] => Ok tt
  | m :: metas' =>
      if bytes_eqb (sm_Set m) [] || bool_decide (is_Some (s_catalogue s !! sm_Set m)) || bool_decide (sm_Set m ∈ seen) then set_room s sets seen metas'
      else if sets + 1 >? cf_MaxSets (s_cfg s) then Err (StBad (BadTooManySets (sm_Set m)))
      else set_room s (sets + 1) ({[sm_Set m]} ∪ seen) metas'
  end.

Definition setDeclarationRoom (s : Store) (metas : list SetMeta) : result store_err unit :=
  if cf_MaxSets (s_cfg s) <=? 0 then Ok tt else set_room s (Z.of_nat (size (s_catalogue s))) ∅ metas.

Definition keyScheme (s : Store) (set : gostr) : gostr :=
  match s_catalogue s !! set with
  | Some e => if bytes_eqb (se_KeyScheme e) [] then bs "content" else se_KeyScheme e
  | None => bs "content"
  end.

Definition SetKeyScheme (set scheme : gostr) (s : Store) : Store :=
  let e := entryLocked set s in
  let changed := negb (bool_decide (is_Some (s_catalogue s !! set))) || negb (bytes_eqb (se_KeyScheme e) scheme) in
  let s := set_entry set (se_set_KeyScheme scheme e) s in
  if changed then bump s else s.

Definition other_ms (o : option Z) (ms : Z) : bool := match o with Some x => negb (x =? ms) | None => true end.

(** [SetRetentionFor]: durations in nanoseconds; a negative retention and a
    shard width that is not positive say nothing. *)
Definition SetRetentionFor (set : gostr) (retention shard : Z) (s : Store) : Store :=
  let s := if retention >=? 0 then s_set_setRetention (<[set := retention]> (s_setRetention s)) s else s in
  let s := if shard >? 0 then s_set_setShard (<[set := shard]> (s_setShard s)) s else s in
  let known := bool_decide (is_Some (s_catalogue s !! set)) in
  let e := entryLocked set s in
  let '(e, changed) :=
    if retention >=? 0 then
      let ms := retention /go 1000000 in (se_set_RetentionMs (Some ms) e, negb known || other_ms (se_RetentionMs e) ms)
    else (e, negb known) in
  let '(e, changed) :=
    if shard >? 0 then
      let ms := shard /go 1000000 in (se_set_ShardMs (Some ms) e, changed || other_ms (se_ShardMs e) ms)
    else (e, changed) in
  let s := set_entry set e s in
  if changed then bump s else s.

Definition apply_set_meta (s : Store) (m : SetMeta) : Store :=
  if bytes_eqb (sm_Set m) [] then s
  else
    let retention := match sm_RetentionMs m with Some ms => i64 (ms * 1000000) | None => -1 end in
    let shard := match sm_ShardMs m with Some ms => i64 (ms * 1000000) | None => 0 end in
    let s := match sm_RetentionMs m, sm_ShardMs m with None, None => s | _, _ => SetRetentionFor (sm_Set m) retention shard s end in
    if bytes_eqb (sm_KeyScheme m) [] then s else SetKeyScheme (sm_Set m) (sm_KeyScheme m) s.

Fixpoint check_all {A} (f : A -> result store_err unit) (l : list A) : result store_err unit :=
  match l with [] => Ok tt | x :: l' => check f x; check_all f l' end.

Definition applySetMeta (metas : list SetMeta) : SM unit :=
  slift (check_all checkSetMeta metas) ;;
  s ← get_store;
  slift (setDeclarationRoom s metas) ;;
  smodify (fun s => foldl apply_set_meta s metas).

(** ** Retention and shard width in force *)

Definition retentionFor (s : Store) (set : gostr) : Z :=
  match s_setRetention s !! set with
  | Some d => d
  | None => default (cf_Retention (s_cfg s)) (cf_SetRetention (s_cfg s) !! set)
  end.

Definition shardWidth (s : Store) (set : gostr) : Z :=
  let declared := match s_setShard s !! set with Some w => Some w | None => cf_SetShard (s_cfg s) !! set end in
  match declared with
  | Some w => if w >? 0 then w else if retentionFor s set <=? 0 then 0 else cf_Shard (s_cfg s)
  | None => if retentionFor s set <=? 0 then 0 else cf_Shard (s_cfg s)
  end.

(** ** Declaring fields *)

(** What the declarations so far would add. *)
Record room : Type := {
  rm_sets : Z;
  rm_newSets : gset gostr;
  rm_newFields : gmap gostr (gset gostr);
  rm_newBuckets : gmap gostr (gset gostr);
}.

Definition room_meta (s : Store) (m : FieldMeta) (r : room) : result store_err room :=
  let maxSets := cf_MaxSets (s_cfg s) in let maxFields := cf_MaxFieldsPerSet (s_cfg s) in
  let maxBuckets := cf_MaxBucketSetsPerSet (s_cfg s) in
  let set := fm_Set m in
  if unnamed m then Ok r
  else
    let e := s_catalogue s !! set in
    try r <- (if bool_decide (is_Some e) || bool_decide (set ∈ rm_newSets r) then Ok r
              else if (maxSets >? 0) && (rm_sets r + 1 >? maxSets) then Err (StBad (BadTooManySets set))
              else Ok {| rm_sets := rm_sets r + 1; rm_newSets := {[set]} ∪ rm_newSets r; rm_newFields := rm_newFields r; rm_newBuckets := rm_newBuckets r |});
    try r <- (if (maxBuckets >? 0) && negb (bytes_eqb (fm_BucketSet m) []) then
                let new := default ∅ (rm_newBuckets r !! set) in
                let held := match e with Some e => bool_decide (is_Some (se_BucketSets e !! fm_BucketSet m)) | None => false end in
                if held || bool_decide (fm_BucketSet m ∈ new) then Ok r
                else
                  let new := {[fm_BucketSet m]} ∪ new in
                  let have := match e with Some e => Z.of_nat (size (se_BucketSets e)) | None => 0 end in
                  if have + Z.of_nat (size new) >? maxBuckets then Err (StBad (BadTooManyBuckets set (fm_BucketSet m)))
                  else Ok {| rm_sets := rm_sets r; rm_newSets := rm_newSets r; rm_newFields := rm_newFields r; rm_newBuckets := <[set := new]> (rm_newBuckets r) |}
              else Ok r);
    if maxFields <=? 0 then Ok r
    else
      let new := default ∅ (rm_newFields r !! set) in
      if match e with Some e => has_field e (fm_Field m) | None => false end || bool_decide (fm_Field m ∈ new) then Ok r
      else
        let new := {[fm_Field m]} ∪ new in
        let have := match e with Some e => Z.of_nat (size (se_Fields e)) | None => 0 end in
        if have + Z.of_nat (size new) >? maxFields then Err (StBad (BadTooManyFields set (fm_Field m)))
        else Ok {| rm_sets := rm_sets r; rm_newSets := rm_newSets r; rm_newFields := <[set := new]> (rm_newFields r); rm_newBuckets := rm_newBuckets r |}.

Fixpoint room_metas (s : Store) (metas : list FieldMeta) (r : room) : result store_err room :=
  match metas with
  | [] => Ok r
  | m :: metas' => try r <- room_meta s m r; room_metas s metas' r
  end.

Definition declarationRoomLocked (s : Store) (metas : list FieldMeta) : result store_err unit :=
  if (cf_MaxSets (s_cfg s) <=? 0) && (cf_MaxFieldsPerSet (s_cfg s) <=? 0) && (cf_MaxBucketSetsPerSet (s_cfg s) <=? 0) then Ok tt
  else
    check room_metas s metas {| rm_sets := Z.of_nat (size (s_catalogue s)); rm_newSets := ∅; rm_newFields := ∅; rm_newBuckets := ∅ |};
    Ok tt.

(** The last 64 of the conflicts. *)
Definition last64 {A} (l : list A) : list A := drop (length l - 64) l.

Definition apply_field_meta (st : Store * bool) (m : FieldMeta) : Store * bool :=
  let '(s, changed) := st in
  if unnamed m then st
  else
    let set := fm_Set m in
    let changed := changed || negb (bool_decide (is_Some (s_catalogue s !! set))) in
    let e := entryLocked set s in
    let had := has_field e (fm_Field m) in
    let before := default new_field (se_Fields e !! fm_Field m) in
    let changed := changed || negb had in
    let s :=
      if had && negb (bytes_eqb (fe_Kind before) []) && negb (bytes_eqb (fm_Kind m) []) && negb (bytes_eqb (fe_Kind before) (fm_Kind m)) then
        s_set_conflicts (last64 (s_conflicts s ++ [{| cc_Set := set; cc_Field := fm_Field m; cc_Was := fe_Kind before; cc_Now := fm_Kind m |}])) s
      else s in
    let after := declared m before in
    let e := se_set_Fields (<[fm_Field m := after]> (se_Fields e)) e in
    let '(e, changed) :=
      if bytes_eqb (fm_BucketSet m) [] then (e, changed)
      else
        let stored := default {| bi_Buckets := []; bi_Edges := []; bi_Unit := [] |} (se_BucketSets e !! fm_BucketSet m) in
        let new := placed_bucket m stored in
        if bucketSetEqual stored new then (e, changed)
        else (se_set_BucketSets (<[fm_BucketSet m := new]> (se_BucketSets e)) e, true) in
    (set_entry set e s, changed || negb (field_equal before after)).

Definition applyFieldMeta (metas : list FieldMeta) : SM unit :=
  slift (check_all check_field_meta metas) ;;
  s ← get_store;
  slift (declarationRoomLocked s metas) ;;
  smodify (fun s => let '(s, changed) := foldl apply_field_meta (s, false) metas in if changed then bump s else s).

(** ** Forgetting *)

Definition raiseFirstSeen (name : gostr) (floorMs : Z) (s : Store) : Store * bool :=
  if floorMs <=? 0 then (s, false)
  else
    match s_catalogue s !! name with
    | None => (s, false)
    | Some e =>
        if (se_FirstTSMs e =? 0) || (se_FirstTSMs e >=? floorMs) then (s, false)
        else
          let e := se_set_FirstTSMs floorMs e in
          let e := if se_LastTSMs e <? floorMs then se_set_LastTSMs floorMs e else e in
          (bump (set_entry name e s), true)
    end.

Definition ForgetSet (name : gostr) (s : Store) : Store :=
  let gone := bool_decide (is_Some (s_catalogue s !! name)) || bool_decide (is_Some (s_setRetention s !! name))
              || bool_decide (is_Some (s_setShard s !! name)) in
  let s := s_set_catalogue (delete name (s_catalogue s)) s in
  let s := s_set_setShard (delete name (s_setShard s)) (s_set_setRetention (delete name (s_setRetention s)) s) in
  if gone then bump s else s.

(** What the shards took with them: the observed half of an entry. *)
Definition unobserved (e : setEntry) : setEntry :=
  se_set_LastTSMs 0 (se_set_FirstTSMs 0 (se_set_BucketSets ∅ (se_set_Labels ∅ (se_set_Fields ∅ e)))).
Definition anything_observed (e : setEntry) : bool :=
  negb (Nat.eqb (size (se_Fields e)) 0) || negb (Nat.eqb (size (se_Labels e)) 0) || negb (Nat.eqb (size (se_BucketSets e)) 0)
  || negb (se_FirstTSMs e =? 0) || negb (se_LastTSMs e =? 0).
Definition nothing_declared (e : setEntry) : bool :=
  match se_RetentionMs e, se_ShardMs e with None, None => bytes_eqb (se_KeyScheme e) [] | _, _ => false end.

Definition forgetAgedSet (name : gostr) (s : Store) : Store * bool :=
  match s_catalogue s !! name with
  | None => (s, false)
  | Some e =>
      if nothing_declared e then
        let s := s_set_catalogue (delete name (s_catalogue s)) s in
        (bump (s_set_setShard (delete name (s_setShard s)) (s_set_setRetention (delete name (s_setRetention s)) s)), true)
      else
        let s := set_entry name (unobserved e) s in
        (if anything_observed e then bump s else s, anything_observed e)
  end.

Definition LabelKeys (s : Store) (set : gostr) : list gostr :=
  match s_catalogue s !! set with
  | None => []
  | Some e => sort_strings (elements (se_Labels e))
  end.

Definition Store_Sets (s : Store) : list gostr := sort_strings (map_to_list (s_catalogue s)).*1.

End Catalogue.
