(* ===== verification/StoreWrite.v ===== *)
(** * Writing ([internal/store/write.go])

    One write request: declarations first, then the samples, each checked,
    turned into a row whose labels are dictionary indices, and filed in the
    shard its timestamp falls in.  A sample that is refused is named in the
    response and the rest go on; a fault of the store ends the request. *)

From Stdlib Require Import ZArith Lia Bool.
From Stdlib Require Import Strings.Byte Strings.String.
From stdpp Require Import gmap.
From S2P Require Import Prelude Bytes Float64 GoStd GoText Model Wire EngineKeys EngineCodec EngineDB.
From S2P Require Import StoreShard StoreState StoreDict StoreCatalogue.

(** ** Answered writes *)

Definition idempotencyWindow : Z := 10 * 60 * 1000000000.

Definition find_key (key : gostr) (l : list idemItem) : option idemItem := List.find (fun i => bytes_eqb (it_key i) key) l.
Definition drop_key (key : gostr) (l : list idemItem) : list idemItem := List.filter (fun i => negb (bytes_eqb (it_key i) key)) l.

(** Whether a key was answered and is not yet forgotten; it moves to the
    front. *)
Definition idem_seen (key : gostr) (now : Z) (c : idempotencyCache) : bool * idempotencyCache :=
  if bytes_eqb key [] then (false, c)
  else
    match find_key key (ic_ll c) with
    | None => (false, c)
    | Some item =>
        if now >? it_exp item then (false, {| ic_max := ic_max c; ic_ll := drop_key key (ic_ll c) |})
        else (true, {| ic_max := ic_max c; ic_ll := item :: drop_key key (ic_ll c) |})
    end.

(** The eviction loop, on the list from the back. *)
Fixpoint evict (max now : Z) (back : list idemItem) : list idemItem :=
  match back with
  | [] => []
  | last :: back' => if (zlen back <=? max) && (now <? it_exp last) then back else evict max now back'
  end.

Definition idem_record (key : gostr) (t now : Z) (c : idempotencyCache) : idempotencyCache :=
  if bytes_eqb key [] then c
  else
    let item := {| it_key := key; it_exp := t + idempotencyWindow |} in
    match find_key key (ic_ll c) with
    | Some _ => {| ic_max := ic_max c; ic_ll := item :: drop_key key (ic_ll c) |}
    | None => {| ic_max := ic_max c; ic_ll := rev (evict (ic_max c) now (rev (item :: ic_ll c))) |}
    end.

(** [wire.Batch] and [wire.WriteRequest]. *)
Record Batch : Type := { b_Set : gostr; b_Samples : list Sample }.
Record WriteRequest : Type := { rq_Batches : list Batch; rq_FieldMeta : list FieldMeta; rq_SetMeta : list SetMeta }.

Definition empty_response : WriteResponse :=
  {| wr_Accepted := 0; wr_Duplicate := false; wr_Rejected := []; wr_RejectedCount := 0; wr_CatalogueVersion := 0; wr_Durable := false |}.
Definition accept (r : WriteResponse) : WriteResponse :=
  {| wr_Accepted := wr_Accepted r + 1; wr_Duplicate := wr_Duplicate r; wr_Rejected := wr_Rejected r; wr_RejectedCount := wr_RejectedCount r;
     wr_CatalogueVersion := wr_CatalogueVersion r; wr_Durable := wr_Durable r |}.
Definition at_version (v : Z) (dup : bool) (r : WriteResponse) : WriteResponse :=
  {| wr_Accepted := wr_Accepted r; wr_Duplicate := dup; wr_Rejected := wr_Rejected r; wr_RejectedCount := wr_RejectedCount r;
     wr_CatalogueVersion := v; wr_Durable := wr_Durable r |}.

Section Write.
Context `{FloatText} `{XXH3} `{MetaJSON} `{L : LSM} `{SJ : StoreJSON} `{ErrorText}.

(** ** One row *)

(** The reserved key and the values, over the labels. *)
Fixpoint check_row_labels (l : list (gostr * gostr)) : result store_err unit :=
  match l with
  | [] => Ok tt
  | (k, v) :: l' =>
      if bytes_eqb k TimestampField then Err (StReservedLabel k)
      else
        check match ValidateLabelValue v with Ok _ => Ok tt | Err e => Err (StLabelValue k e) end;
        check_row_labels l'
  end.

Fixpoint intern_labels (l : list (gostr * gostr)) (row : Row) : SM Row :=
  match l with
  | [] => mret row
  | (k, v) :: l' => i ← intern k v; intern_labels l' (<[k := VInt i]> row)
  end.

Definition note_kinds (sm : Sample) (kinds : gmap gostr bool) : gmap gostr bool :=
  let kinds := foldl (fun m k => <[k := true]> m) kinds (label_keys sm) in
  foldl (fun m k => <[k := false]> m) kinds (field_keys sm).

(** The row of a sample, and the kinds with its columns. *)
Definition rowFor (set : gostr) (sm : Sample) (kinds : gmap gostr bool) : SM (Row * gmap gostr bool) :=
  slift (check_row_labels (map_to_list (Labels sm))) ;;
  slift (match first_bad (fun k => bool_decide (is_Some (Labels sm !! k))) (field_keys sm) with
         | Some k => Err (StBoth k)
         | None => Ok tt
         end) ;;
  s ← get_store;
  slift (checkColumnNamespace s set sm kinds) ;;
  slift (catalogueRoom s set sm) ;;
  row ← intern_labels (map_to_list (Labels sm)) {[TimestampField := VInt (TSMs sm)]};
  mret (foldl (fun row kv => <[kv.1 := kv.2]> row) row (map_to_list (Fields sm)), note_kinds sm kinds).

(** ** One batch *)

(** What the walk over a batch has gathered. *)
Record progress : Type := {
  p_index : Z;
  p_kinds : gmap gostr bool;
  p_shards : gmap gostr (list Record_ * list Sample);
  p_resp : WriteResponse;
}.

Definition reject (e : store_err) (p : progress) : progress :=
  {| p_index := p_index p + 1; p_kinds := p_kinds p; p_shards := p_shards p; p_resp := Reject (p_index p) (Error_ e) (p_resp p) |}.

Definition file_row (shard pk : gostr) (row : Row) (kinds : gmap gostr bool) (sm : Sample) (p : progress) : progress :=
  let '(recs, samples) := default ([], []) (p_shards p !! shard) in
  {| p_index := p_index p + 1; p_kinds := kinds;
     p_shards := <[shard := (recs ++ [{| rec_Key := pk; rec_Row := row |}], samples ++ [sm])]> (p_shards p);
     p_resp := accept (p_resp p) |}.

(** The set's key scheme for [PrimaryKey], which tells [offset] from the
    rest. *)
Definition scheme_of (scheme : gostr) : KeyScheme := if bytes_eqb scheme (bs "offset") then KeyOffset else KeyContent.

Definition label_client (set clientName : gostr) (sm : Sample) : Sample :=
  if bytes_eqb set IngestSet && negb (bytes_eqb clientName []) then
    {| TSMs := TSMs sm; SubUS := SubUS sm; Labels := <[bs "client" := clientName]> (Labels sm); Fields := Fields sm; KeyHint := KeyHint sm |}
  else sm.

Definition write_sample (set scheme clientName : gostr) (width : Z) (sm : Sample) (p : progress) : SM progress :=
  match Validate sm with
  | Err e => mret (reject (StSample e) p)
  | Ok _ =>
      if bytes_eqb scheme (bs "offset") && bytes_eqb (KeyHint sm) [] then mret (reject (StNeedsKeyHint set) p)
      else
        let sm := label_client set clientName sm in
        r ← stry (rowFor set sm (p_kinds p));
        match r with
        | Err e => if is_fault e then sfail e else mret (reject e p)
        | Ok (row, kinds) =>
            mret (file_row (shardNameAt set (TSMs sm) width) (PrimaryKey set sm (scheme_of scheme)) row kinds sm p)
        end
  end.

Fixpoint write_samples (set scheme clientName : gostr) (width : Z) (samples : list Sample) (p : progress) : SM progress :=
  match samples with
  | [] => mret p
  | sm :: samples' => p ← write_sample set scheme clientName width sm p; write_samples set scheme clientName width samples' p
  end.

Fixpoint commit_shards (set : gostr) (l : list (gostr * (list Record_ * list Sample))) : SM unit :=
  match l with
  | [] => mret tt
  | (shard, (recs, samples)) :: l' =>
      engine (PutBatch shard recs) ;;
      observeSet set samples ;;
      commit_shards set l'
  end.

(** The index, the response and the kinds of every set so far. *)
Record request : Type := { q_index : Z; q_resp : WriteResponse; q_kinds : gmap gostr (gmap gostr bool) }.

Fixpoint reject_all (e : store_err) (samples : list Sample) (q : request) : request :=
  match samples with
  | [] => q
  | _ :: samples' =>
      reject_all e samples' {| q_index := q_index q + 1; q_resp := Reject (q_index q) (Error_ e) (q_resp q); q_kinds := q_kinds q |}
  end.

Definition write_batch (clientName : gostr) (b : Batch) (q : request) : SM request :=
  let set := b_Set b in
  match ValidateSetName set with
  | Err e => mret (reject_all (StSample e) (b_Samples b) q)
  | Ok _ =>
      if IsReserved set && negb (bytes_eqb set IngestSet) then mret (reject_all (StBad (BadReserved set)) (b_Samples b) q)
      else
        s ← get_store;
        let kinds := default ∅ (q_kinds q !! set) in
        p ← write_samples set (keyScheme s set) clientName (shardWidth s set) (b_Samples b)
              {| p_index := q_index q; p_kinds := kinds; p_shards := ∅; p_resp := q_resp q |};
        commit_shards set (map_to_list (p_shards p)) ;;
        mret {| q_index := p_index p; q_resp := p_resp p; q_kinds := <[set := p_kinds p]> (q_kinds q) |}
  end.

Fixpoint write_batches (clientName : gostr) (l : list Batch) (q : request) : SM request :=
  match l with
  | [] => mret q
  | b :: l' => q ← write_batch clientName b q; write_batches clientName l' q
  end.

(** ** The catalogue's record *)

Definition catalogueDictKey : gostr := bs "catalogue".

Definition saveCatalogue : SM unit :=
  s ← get_store;
  match cat_Marshal (s_catVer s) (s_catalogue s) (s_conflicts s) with
  | None => sfail StCatalogue
  | Some b => engine (PutDict catalogueDictKey b)
  end.

(** A set's declarations, restored into the live maps. *)
Definition load_entry (s : Store) (ne : gostr * setEntry) : Store :=
  let '(name, e) := ne in
  let s := set_entry name e s in
  let s := match se_RetentionMs e with Some ms => s_set_setRetention (<[name := i64 (ms * 1000000)]> (s_setRetention s)) s | None => s end in
  match se_ShardMs e with
  | Some ms => if ms >? 0 then s_set_setShard (<[name := i64 (ms * 1000000)]> (s_setShard s)) s else s
  | None => s
  end.

Definition loadCatalogue : SM unit :=
  r ← engine (GetDict catalogueDictKey);
  match r with
  | None => mret tt
  | Some b =>
      match cat_Unmarshal b with
      | None => sfail StCatalogue
      | Some (v, sets, conflicts) =>
          smodify (fun s => s_set_catVer v (s_set_conflicts conflicts (foldl load_entry s (map_to_list sets))))
      end
  end.

(** ** One request *)

(** [s.idem.seen], which reads the clock for a key it holds. *)
Definition check_seen (key : gostr) : SM bool :=
  s ← get_store;
  now ← match find_key key (ic_ll (s_idem s)) with Some _ => time_Now | None => mret 0 end;
  s ← get_store;
  let '(seen, cache) := idem_seen key now (s_idem s) in
  smodify (s_set_idem cache) ;;
  mret seen.

(** [s.idem.record], which reads it again to evict. *)
Definition remember (key : gostr) : SM unit :=
  if bytes_eqb key [] then mret tt
  else
    t ← time_Now;
    s ← get_store;
    now ← match find_key key (ic_ll (s_idem s)) with Some _ => mret t | None => time_Now end;
    smodify (fun s => s_set_idem (idem_record key t now (s_idem s)) s).

(** The declarations, persisted at once when they changed something. *)
Definition declare (req : WriteRequest) : SM unit :=
  s ← get_store;
  let declaredAt := s_catVer s in
  match rq_FieldMeta req with [] => mret tt | metas => applyFieldMeta metas end ;;
  applySetMeta (rq_SetMeta req) ;;
  s ← get_store;
  if s_catVer s =? declaredAt then mret tt else _ ← stry saveCatalogue; mret tt.

Definition Write (req : WriteRequest) (idempotencyKey clientName : gostr) : SM WriteResponse :=
  enterEngine ;;
  seen ← check_seen idempotencyKey;
  if seen : bool then s ← get_store; mret (at_version (s_catVer s) true empty_response)
  else
    declare req ;;
    q ← write_batches clientName (rq_Batches req) {| q_index := 0; q_resp := empty_response; q_kinds := ∅ |};
    remember idempotencyKey ;;
    s ← get_store;
    mret (at_version (s_catVer s) false (q_resp q)).

End Write.
