(* ===== verification/StoreWriteProofs.v ===== *)
(** * What a write files

    A row built for a sample resolves back to it, and goes on resolving as
    later samples intern their own values; every sample of a request is
    accepted or rejected once. *)

From Stdlib Require Import ZArith Lia Bool.
From Stdlib Require Import Strings.Byte Strings.String.
From stdpp Require Import gmap.
From S2P Require Import Prelude Bytes Float64 GoStd GoText Model Wire EngineKeys EngineCodec EngineDB EngineRep EngineInv EngineSchema EngineStore EngineTrace.
From S2P Require Import StoreShard StoreState StoreDict StoreDictProofs StoreCatalogue StoreWrite.

(** ** The last of those that go to one place *)

Section Last.
Context {K V X : Type} `{Countable K} (key : X -> K) (val : X -> V).

Lemma foldl_put_lookup l : forall (m : gmap K V) k,
  foldl (fun m x => <[key x := val x]> m) m l !! k =
  match last (base.filter (fun x => key x = k) l) with Some x => Some (val x) | None => m !! k end.
Proof.
  induction l as [|x l IH] using rev_ind; intros m k; [done|]. rewrite foldl_app, filter_app. cbn [foldl].
  destruct (decide (key x = k)) as [<- | Hne].
  - rewrite lookup_insert_eq, filter_cons_True, filter_nil, last_snoc by done. done.
  - rewrite lookup_insert_ne, filter_cons_False, filter_nil, app_nil_r by done. apply IH.
Qed.
End Last.

Lemma filter_filter_and {X} (P Q : X -> Prop) `{!forall x, Decision (P x)} `{!forall x, Decision (Q x)} (PQ : X -> Prop) `{!forall x, Decision (PQ x)} (l : list X) :
  (forall x, PQ x <-> P x /\ Q x) -> base.filter PQ l = base.filter P (base.filter Q l).
Proof.
  intros Hpq. induction l as [|x l IH]; [done|]. destruct (decide (Q x)) as [Hq | Hq].
  - rewrite (filter_cons_True Q) by done. destruct (decide (P x)) as [Hp | Hp].
    + rewrite !filter_cons_True by (done || by apply Hpq). by rewrite IH.
    + rewrite !filter_cons_False by (done || by intros [??]%Hpq). exact IH.
  - rewrite (filter_cons_False Q), filter_cons_False by (done || by intros [??]%Hpq). exact IH.
Qed.

Lemma Forall2_filter_last {X Y} (R : X -> Y -> Prop) (P : X -> Prop) (Q : Y -> Prop) `{!forall x, Decision (P x)} `{!forall y, Decision (Q y)} (l : list X) (k : list Y) :
  (forall x y, R x y -> P x <-> Q y) -> Forall2 R l k ->
  option_Forall2 (fun x y => R x y /\ P x) (last (base.filter P l)) (last (base.filter Q k)).
Proof.
  intros Hpq Hl. apply Forall2_last.
  induction Hl as [|x y l k Hxy _ IH]; [constructor|]. destruct (decide (P x)) as [Hp | Hp].
  - rewrite !filter_cons_True by (done || by apply (Hpq _ _ Hxy)). by constructor.
  - rewrite !filter_cons_False by (done || by intros ?%(Hpq _ _ Hxy)). exact IH.
Qed.

Section Write.
Context `{FloatText} `{XXH3} `{J : MetaJSON} `{!MetaJSONLaws J} `{L : LSM} `{!LSMLaws L} `{SJ : StoreJSON} `{ErrorText}.
Implicit Types (s : Store) (row : Row) (p : progress) (P : Sample -> Prop) (width : Z) (set scheme clientName : gostr).

(** ** Stores that only learnt values *)

(** The configuration stands and no index changed its meaning. *)
Record grown s s' : Prop := {
  gr_wf : dicts_wf s';
  gr_frame : only_dict s s';
  gr_values : forall k i v, labelValue s k i = Some v -> labelValue s' k i = Some v;
  gr_inv : forall A, db_inv (s_db s) A -> db_inv (s_db s') A;
  gr_db : (forall A, db_inv (s_db s) A -> d_sets (s_db s') = d_sets (s_db s) /\ d_nextID (s_db s') = d_nextID (s_db s));
  gr_calm : calmer (s_db s) (s_db s');
}.
Lemma gr_cfg s s' : grown s s' -> s_cfg s' = s_cfg s.
Proof. intros Hg. by rewrite (gr_frame _ _ Hg). Qed.
Lemma gr_catalogue s s' : grown s s' -> s_catalogue s' = s_catalogue s.
Proof. intros Hg. by rewrite (gr_frame _ _ Hg). Qed.

Definition limits s : Prop := 0 < cf_MaxLabelCardinality (s_cfg s) <= 2147483647.

Lemma grown_refl s : dicts_wf s -> grown s s.
Proof. constructor; done || apply only_dict_refl. Qed.
Lemma grown_trans s1 s2 s3 : grown s1 s2 -> grown s2 s3 -> grown s1 s3.
Proof.
  intros [W1 C1 V1 I1 D1 K1] [W2 C2 V2 I2 D2 K2]. constructor; [done | by eapply only_dict_trans | auto | auto | | by etransitivity].
  intros A Hi. destruct (D1 A Hi) as [E1 E2]. destruct (D2 A (I1 A Hi)) as [E3 E4]. split; congruence.
Qed.
Lemma grown_limits s s' : grown s s' -> limits s -> limits s'.
Proof. intros Hg. unfold limits. by rewrite (gr_cfg _ _ Hg). Qed.

(** The record of a value touches no row. *)
Lemma PutDict_rows name v D r D' : PutDict name v D = (r, D') ->
  forall A, db_inv D A -> db_inv D' A /\ d_sets D' = d_sets D /\ d_nextID D' = d_nextID D.
Proof.
  intros Hput A Hi. destruct (dict_write_wp (BSet (dictKey name) v) name D A Hi) as (I & S & N & _); [left; by exists v|].
  unfold PutDict, pdb_Set in Hput. rewrite Hput in I, S, N. done.
Qed.

Lemma intern_grows s key value r s' : dicts_wf s -> limits s -> value <> [] -> intern key value s = (r, s') ->
  grown s s' /\ match r with Ok i => labelValue s' key i = Some value | Err _ => True end.
Proof.
  intros Hwf Hlim Hv Hrun. destruct (intern_cases _ _ _ _ _ Hwf Hv Hlim Hrun) as [Honly Hcase].
  assert (Hcalm : forall name v r', PutDict name v (s_db s) = (r', s_db s') -> calmer (s_db s) (s_db s'))
    by (intros name v r' E; pose proof (PutDict_calmer name v (s_db s)) as Hc; by rewrite E in Hc).
  destruct Hcase as [i Hlook -> | i d d' Hdict Hd Hwf' Hidx Hcount Hrange Hend Hfree Hent Hput | e -> _ | e e' i d d' Hsame Hput].
  - split; [by apply grown_refl|]. unfold lookup_label in Hlook. destruct (s_dict s !! key) as [d|] eqn:Hd; [|done].
    apply labelValue_spec. exists d. by destruct (ag_index _ _ (Hwf _ _ Hd) _ _ Hlook).
  - split.
    + constructor; [|done| |intros A Hi; by apply (PutDict_rows _ _ _ _ _ Hput) | intros A Hi; by apply (PutDict_rows _ _ _ _ _ Hput A) | by eapply Hcalm].
      * intros k d2 Hk. rewrite Hdict in Hk. apply lookup_insert_Some in Hk as [[<- <-] | [_ Hk]]; [done | by apply (Hwf k)].
      * intros k j v Hval. rewrite (labelValue_insert s s' key d' k j v Hdict). destruct (decide (k = key)) as [-> | Hne]; [|by right].
        left. apply labelValue_spec in Hval as (d0 & Hd0 & Hj & Hvne). rewrite Hd0 in Hd. cbn in Hd. subst d0. rewrite Hent.
        destruct (Z.eqb_spec j i) as [-> | _]; [by destruct (Hfree v Hvne)|]. done.
    + apply (labelValue_insert s s' key d' key i value Hdict). left. by rewrite Hent, Z.eqb_refl.
  - split; [by apply grown_refl | done].
  - split; [|done]. constructor; [|done| |intros A Hi; by apply (PutDict_rows _ _ _ _ _ Hput) | intros A Hi; by apply (PutDict_rows _ _ _ _ _ Hput A) | by eapply Hcalm].
    + intros k d2 Hk. destruct Hsame as [Heq | (_ & Heq & Hwf' & _)]; rewrite Heq in Hk; [by apply (Hwf k)|].
      apply lookup_insert_Some in Hk as [[<- <-] | [_ Hk]]; [done | by apply (Hwf k)].
    + intros k j v Hval. unfold labelValue in *. destruct Hsame as [Heq | (Hd & Heq & _ & He & _)]; rewrite Heq; [done|].
      destruct (decide (k = key)) as [-> | Hne]; [by rewrite lookup_insert_eq, He; rewrite Hd in Hval | by rewrite lookup_insert_ne].
Qed.

(** ** Rows *)

(** What a row says, read through the dictionaries. *)
Record resolves s (sm : Sample) row : Prop := {
  rs_ts : row !! TimestampField = Some (VInt (TSMs sm));
  rs_labels : forall k v, Labels sm !! k = Some v -> exists i, row !! k = Some (VInt i) /\ labelValue s k i = Some v;
  rs_fields : forall k v, Fields sm !! k = Some v -> row !! k = Some v;
  rs_only : forall k, is_Some (row !! k) -> k = TimestampField \/ is_Some (Labels sm !! k) \/ is_Some (Fields sm !! k);
  rs_plain : Labels sm !! TimestampField = None /\ Fields sm !! TimestampField = None;
  rs_apart : forall k, is_Some (Labels sm !! k) -> Fields sm !! k = None;
}.

Lemma resolves_values s s' sm row : (forall k i v, labelValue s k i = Some v -> labelValue s' k i = Some v) -> resolves s sm row -> resolves s' sm row.
Proof.
  intros Hv [Ht Hl Hf Ho Hp Ha]. constructor; [done | | done..]. intros k v Hk. destruct (Hl k v Hk) as (i & Hi & Hi').
  exists i. split; [done | by apply Hv].
Qed.
Lemma resolves_grown s s' sm row : grown s s' -> resolves s sm row -> resolves s' sm row.
Proof. intros Hg. apply resolves_values, Hg. Qed.

Lemma intern_labels_spec l : forall s row r s',
  dicts_wf s -> limits s -> Forall (fun kv => kv.2 <> []) l -> NoDup l.*1 -> intern_labels l row s = (r, s') ->
  grown s s' /\
  match r with
  | Ok row' => (forall k, k ∉ l.*1 -> row' !! k = row !! k) /\
      (forall k v, (k, v) ∈ l -> exists i, row' !! k = Some (VInt i) /\ labelValue s' k i = Some v)
  | Err _ => True
  end.
Proof.
  induction l as [|[k v] l IH]; intros s row r s' Hwf Hlim Hne Hnd; cbn [intern_labels].
  - unfold mret, SM_ret. intros [= <- <-]. split; [by apply grown_refl|]. split; [done|]. by intros k v ?%elem_of_nil.
  - unfold mbind, SM_bind. apply Forall_cons in Hne as [Hv Hne]. cbn in Hv. cbn [fmap list_fmap] in Hnd. apply NoDup_cons in Hnd as [Hk Hnd].
    destruct (intern k v s) as [[i|e] s1] eqn:E; destruct (intern_grows _ _ _ _ _ Hwf Hlim Hv E) as [Hg Hval].
    + intros Hrun. destruct (IH s1 (<[k := VInt i]> row) r s' (gr_wf _ _ Hg) (grown_limits _ _ Hg Hlim) Hne Hnd Hrun) as [Hg' Hrest].
      split; [by eapply grown_trans|]. destruct r as [row'|]; [|done]. destruct Hrest as [Hkeep Hall]. split.
      * intros k' Hk'. cbn [fmap list_fmap] in Hk'. apply not_elem_of_cons in Hk' as [Hk1 Hk2]. rewrite Hkeep by done. by rewrite lookup_insert_ne.
      * intros k' v' Hin. apply elem_of_cons in Hin as [[= -> ->] | Hin]; [|by apply Hall].
        exists i. rewrite Hkeep, lookup_insert_eq by done. split; [done|]. by apply Hg'.
    + intros [= <- <-]. done.
Qed.

Lemma check_row_labels_spec l : check_row_labels l = Ok tt ->
  Forall (fun kv : gostr * gostr => kv.1 <> TimestampField /\ kv.2 <> []) l.
Proof.
  induction l as [|[k v] l IH]; [by constructor|]. cbn [check_row_labels].
  destruct (bytes_eqb k TimestampField) eqn:Ek; [done|]. destruct (ValidateLabelValue v) as [[]|] eqn:Ev; cbn [rbind]; [|done].
  intros Hl. constructor; [|by apply IH]. cbn. split; [by apply bytes_eqb_neq in Ek|]. intros ->. done.
Qed.

Lemma first_bad_none bad l : first_bad bad l = None -> forall k, k ∈ l -> bad k = false.
Proof. unfold first_bad. intros Hf k Hk. apply (find_none bad l Hf). by apply list_elem_of_In. Qed.

Lemma foldl_insert_fields (m : list (gostr * Value)) : forall row k, NoDup m.*1 ->
  foldl (fun row kv => <[kv.1 := kv.2]> row) row m !! k =
  match (list_to_map m : gmap gostr Value) !! k with Some v => Some v | None => row !! k end.
Proof.
  induction m as [|[k0 v0] m IH]; intros row k Hnd; [by cbn; rewrite lookup_empty|].
  cbn [fmap list_fmap] in Hnd. apply NoDup_cons in Hnd as [Hk0 Hnd]. cbn [foldl list_to_map fst snd]. rewrite IH by done.
  destruct (decide (k = k0)) as [-> | Hne].
  - change (list_to_map ((k0, v0) :: m)) with (<[k0 := v0]> (list_to_map m : gmap gostr Value)).
    rewrite not_elem_of_list_to_map_1 by done. by rewrite !lookup_insert_eq.
  - change (list_to_map ((k0, v0) :: m)) with (<[k0 := v0]> (list_to_map m : gmap gostr Value)).
    by rewrite !lookup_insert_ne.
Qed.

(** A row resolves to the sample it was built for. *)
Lemma rowFor_grows s set sm kinds r s' :
  dicts_wf s -> limits s -> Fields sm !! TimestampField = None -> rowFor set sm kinds s = (r, s') ->
  grown s s' /\ match r with Ok (row, _) => resolves s' sm row | Err _ => True end.
Proof.
  intros Hwf Hlim Hts. unfold rowFor, mbind, SM_bind, slift, get_store, mret, SM_ret.
  destruct (check_row_labels _) as [[]|e] eqn:Hlab; [|intros [= <- <-]; split; [by apply grown_refl | done]].
  apply check_row_labels_spec in Hlab. rewrite Forall_forall in Hlab.
  destruct (first_bad _ (field_keys sm)) eqn:Hboth; [intros [= <- <-]; split; [by apply grown_refl | done]|].
  destruct (checkColumnNamespace s set sm kinds) as [[]|e]; [|intros [= <- <-]; split; [by apply grown_refl | done]].
  destruct (catalogueRoom s set sm) as [[]|e]; [|intros [= <- <-]; split; [by apply grown_refl | done]].
  destruct (intern_labels (map_to_list (Labels sm)) {[TimestampField := VInt (TSMs sm)]} s) as [[row|e] s1] eqn:E;
    destruct (intern_labels_spec _ _ _ _ _ Hwf Hlim ltac:(apply Forall_forall; intros kv Hkv; by apply (Hlab kv)) (NoDup_fst_map_to_list _) E) as [Hg Hrow];
    intros [= <- <-]; (split; [done|]); [|done].
  destruct Hrow as [Hkeep Hall].
  assert (Hin : forall k, k ∈ (map_to_list (Labels sm)).*1 <-> is_Some (Labels sm !! k)).
  { intros k. rewrite list_elem_of_fmap. split.
    - intros ([k' v] & -> & Hk). exists v. by apply elem_of_map_to_list in Hk.
    - intros [v Hk]. exists (k, v). split; [done|]. by apply elem_of_map_to_list. }
  assert (Hlook : forall k, foldl (fun row kv => <[kv.1 := kv.2]> row) row (map_to_list (Fields sm)) !! k =
            match Fields sm !! k with Some v => Some v | None => row !! k end).
  { intros k. rewrite foldl_insert_fields by apply NoDup_fst_map_to_list. by rewrite list_to_map_to_list. }
  assert (Hno : forall k, is_Some (Fields sm !! k) -> Labels sm !! k = None).
  { intros k [v Hk]. assert (Hfk : k ∈ field_keys sm) by (apply list_elem_of_fmap; exists (k, v); split; [done|]; by apply elem_of_map_to_list).
    pose proof (first_bad_none _ _ Hboth k Hfk) as Hb. apply bool_decide_eq_false in Hb. destruct (Labels sm !! k); [by destruct Hb | done]. }
  assert (Htl : TimestampField ∉ (map_to_list (Labels sm)).*1).
  { intros [[k v] [Heq Hk]]%list_elem_of_fmap. destruct (Hlab _ Hk) as [Hne _]. by symmetry in Heq. }
  constructor.
  - by rewrite Hlook, Hts, Hkeep, lookup_singleton_eq by done.
  - intros k v Hk. destruct (Hall k v) as (i & Hi & Hv); [by apply elem_of_map_to_list|]. exists i. split; [|done].
    rewrite Hlook. destruct (Fields sm !! k) as [w|] eqn:Hf; [|done]. rewrite Hno in Hk by (by rewrite Hf). done.
  - intros k v Hk. by rewrite Hlook, Hk.
  - intros k. rewrite Hlook. destruct (Fields sm !! k) as [w|] eqn:Hf; [by right; right|]. intros Hrow.
    destruct (decide (k ∈ (map_to_list (Labels sm)).*1)) as [Hk | Hk]; [right; left; by apply Hin|].
    rewrite Hkeep in Hrow by done. left. destruct (decide (k = TimestampField)) as [->|Hne]; [done|].
    rewrite lookup_singleton_ne in Hrow by done. by destruct Hrow.
  - split; [|done]. destruct (Labels sm !! TimestampField) eqn:El; [|done]. exfalso. apply Htl, Hin. by rewrite El.
  - intros k Hl. destruct (Fields sm !! k) eqn:Ef; [|done]. destruct Hl as [x Hl]. rewrite Hno in Hl by (by rewrite Ef). done.
Qed.

(** ** A batch *)

(** Names that are identifiers: seven-bit, at most 128 bytes. *)
Definition name_ok (k : gostr) : Prop := ascii k = true /\ zlen k <= 128.

Definition named (sm : Sample) : Prop :=
  0 < TSMs sm <= MaxTSMs /\ forall k, is_Some (Labels sm !! k) \/ is_Some (Fields sm !! k) -> name_ok k.

(** The rows of one shard, each with the sample it was built for, one of
    those of which [P] holds. *)
Definition filed (P : Sample -> Prop) (set scheme : gostr) (width : Z) s (shard : gostr) (x : list Record_ * list Sample) : Prop :=
  Forall2 (fun rc sm => rec_Key rc = PrimaryKey set sm (scheme_of scheme) /\ shard = shardNameAt set (TSMs sm) width /\
                        resolves s sm (rec_Row rc) /\ named sm /\ P sm)
    x.1 x.2.

Lemma filed_grown P (set scheme : gostr) (width : Z) s s' (m : gmap gostr (list Record_ * list Sample)) : grown s s' -> map_Forall (filed P set scheme width s) m -> map_Forall (filed P set scheme width s') m.
Proof.
  intros Hg Hm shard x Hx. specialize (Hm shard x Hx). unfold filed in *. eapply Forall2_impl; [exact Hm|].
  intros rc sm (Hk & Hs & Hr & Hrest). split_and!; [done | done | by eapply resolves_grown | apply Hrest ..].
Qed.

(** How many rows are waiting to be committed. *)
Definition waiting (m : gmap gostr (list Record_ * list Sample)) : Z := map_fold (fun _ x n => zlen x.2 + n) 0 m.

Lemma waiting_insert m shard x : waiting (<[shard := x]> m) = zlen x.2 + waiting (delete shard m).
Proof.
  unfold waiting. rewrite (map_fold_delete_L _ _ shard x); [by rewrite delete_insert_eq | intros; lia | apply lookup_insert_eq].
Qed.
Lemma waiting_at m shard : waiting m = zlen (default ([], []) (m !! shard)).2 + waiting (delete shard m).
Proof.
  destruct (m !! shard) as [x|] eqn:E; [|by rewrite delete_id].
  unfold waiting. by rewrite (map_fold_delete_L _ _ shard x) by (done || intros; lia).
Qed.

(** Samples so far: answered one way or the other, the accepted ones
    waiting, on top of [base] earlier ones, and [refused] of those. *)
Definition counted (base refused : Z) p : Prop :=
  0 <= refused <= wr_RejectedCount (p_resp p) /\ wr_RejectedCount (p_resp p) <= p_index p /\
  wr_Accepted (p_resp p) + wr_RejectedCount (p_resp p) = p_index p /\
  wr_Accepted (p_resp p) = base + waiting (p_shards p).

Lemma counted_reject base refused e p : counted base refused p -> p_index p < i64_max -> counted base refused (reject e p).
Proof.
  intros (Hc1 & Hc2 & Hc3 & Hc4) Hmax. unfold counted, reject. cbn [p_resp p_index p_shards]. unfold Reject. cbn [wr_RejectedCount wr_Accepted].
  rewrite i64_id by (unfold in_i64, i64_max, i64_min, two63 in *; lia). lia.
Qed.

Lemma counted_file base refused shard pk row kinds sm p : counted base refused p -> counted base refused (file_row shard pk row kinds sm p).
Proof.
  intros (Hc1 & Hc2 & Hc3 & Hc4). unfold counted, file_row. pose proof (waiting_at (p_shards p) shard) as Hw.
  destruct (default ([], []) (p_shards p !! shard)) as [recs samples]. cbn [p_resp p_index p_shards accept wr_RejectedCount wr_Accepted snd] in *.
  rewrite waiting_insert. cbn [snd]. rewrite zlen_app. change (zlen [sm]) with 1. lia.
Qed.

Lemma filed_file P (set scheme : gostr) (width : Z) s p pk row kinds sm :
  map_Forall (filed P set scheme width s) (p_shards p) -> resolves s sm row -> named sm -> P sm -> pk = PrimaryKey set sm (scheme_of scheme) ->
  map_Forall (filed P set scheme width s) (p_shards (file_row (shardNameAt set (TSMs sm) width) pk row kinds sm p)).
Proof.
  intros Hm Hr Hn HP ->. unfold file_row. set (shard := shardNameAt set (TSMs sm) width).
  assert (Hold : filed P set scheme width s shard (default ([], []) (p_shards p !! shard))).
  { destruct (p_shards p !! shard) as [x|] eqn:E; [by apply Hm | by constructor]. }
  destruct (default ([], []) (p_shards p !! shard)) as [recs samples]. cbn [p_shards].
  intros sh x Hx. apply lookup_insert_Some in Hx as [[<- <-] | [_ Hx]]; [|by apply Hm].
  apply Forall2_app; [exact Hold|]. constructor; [done | by constructor].
Qed.

Lemma file_row_nonempty shard pk row kinds sm p : map_Forall (fun _ x => x.2 <> []) (p_shards p) ->
  map_Forall (fun _ x => x.2 <> []) (p_shards (file_row shard pk row kinds sm p)).
Proof.
  intros Hm. unfold file_row. destruct (default ([], []) (p_shards p !! shard)) as [recs samples]. cbn [p_shards].
  intros sh x Hx. apply lookup_insert_Some in Hx as [[<- <-] | [_ Hx]]; [by destruct samples | by apply (Hm sh)].
Qed.

Lemma label_client_ts set clientName sm : TSMs (label_client set clientName sm) = TSMs sm /\ Fields (label_client set clientName sm) = Fields sm.
Proof. unfold label_client. by destruct (_ && _). Qed.

(** The state of a batch: what is filed resolves, and the counts are
    right. *)
Record sound P (set scheme : gostr) (width base refused : Z) s p : Prop := {
  so_wf : dicts_wf s;
  so_filed : map_Forall (filed P set scheme width s) (p_shards p);
  so_counted : counted base refused p;
  so_nonempty : map_Forall (fun _ x => x.2 <> []) (p_shards p);
}.

(** What a sample that passed [Validate] has. *)
Lemma validate_facts sm : Validate sm = Ok tt ->
  0 < TSMs sm <= MaxTSMs /\ (forall k v, Labels sm !! k = Some v -> label_ok k v) /\ (forall k v, Fields sm !! k = Some v -> field_ok k v).
Proof.
  unfold Validate. rewrite !Z.gtb_ltb. repeat break_if; try done. bsplit. rewrite check_ok_iff, validate_labels_spec, validate_fields_spec, !Forall_forall.
  intros [Hl Hf]. split; [lia|]. split; intros k v Hk%elem_of_map_to_list; [exact (Hl (k, v) Hk) | exact (Hf (k, v) Hk)].
Qed.

Lemma ident_name_ok (t0 : gostr) (allow : bool) : validIdent t0 allow = true -> name_ok t0.
Proof.
  rewrite validIdent_regex. destruct t0 as [|b t]; [done|]. cbn [ident_regex]. rewrite !andb_true_iff, Z.leb_le. intros [[Hb Ht] Hlen].
  split; [|rewrite zlen_cons; lia]. cbn [ascii forallb]. apply andb_true_iff. split; [by destruct allow, b|].
  apply forallb_forall. intros c Hc. rewrite forallb_forall in Ht. specialize (Ht c Hc). by destruct c.
Qed.

Lemma label_key_ok k : ValidateLabelKey k = Ok tt -> name_ok k.
Proof. unfold ValidateLabelKey. destruct (validIdent k false) eqn:E; [intros _; by eapply ident_name_ok | done]. Qed.
Lemma field_name_ok k : ValidateFieldName k = Ok tt -> name_ok k /\ k <> TimestampField.
Proof.
  unfold ValidateFieldName. destruct (validIdent k true) eqn:E; [|done]. cbn [negb]. destruct (bytes_eqb k TimestampField) eqn:Et; [done|].
  intros _. split; [by eapply ident_name_ok | by apply bytes_eqb_neq].
Qed.

Lemma validate_no_timestamp sm : Validate sm = Ok tt -> Fields sm !! TimestampField = None.
Proof.
  intros Hv. destruct (validate_facts sm Hv) as (_ & _ & Hf). destruct (Fields sm !! TimestampField) as [v|] eqn:E; [|done].
  destruct (Hf _ _ E) as [Hn _]. by destruct (field_name_ok _ Hn).
Qed.

Lemma label_client_named set clientName sm : Validate sm = Ok tt -> named (label_client set clientName sm).
Proof.
  intros Hv. destruct (validate_facts sm Hv) as (Hts & Hl & Hf). destruct (label_client_ts set clientName sm) as [Et Ef].
  split; [by rewrite Et|]. intros k. rewrite Ef. intros [[v Hk] | [v Hk]].
  - unfold label_client in Hk. destruct (_ && _); [|by eapply label_key_ok, (Hl k v)]. cbn [Labels] in Hk.
    apply lookup_insert_Some in Hk as [[<- _] | [_ Hk]]; [by vm_compute | by eapply label_key_ok, (Hl k v)].
  - destruct (Hf k v Hk) as [Hn _]. by destruct (field_name_ok _ Hn).
Qed.

Lemma write_sample_sound P set scheme clientName width base refused sm s p r s' :
  sound P set scheme width base refused s p -> limits s -> p_index p < i64_max -> (Validate sm = Ok tt -> P (label_client set clientName sm)) ->
  write_sample set scheme clientName width sm p s = (r, s') ->
  grown s s' /\ match r with
    | Ok p' => sound P set scheme width base refused s' p' /\ p_index p' = p_index p + 1
    | Err e => is_fault e = true
    end.
Proof.
  intros [Hwf Hfiled Hcount Hfull] Hlim Hmax HP. unfold write_sample.
  assert (Hrej : forall e, sound P set scheme width base refused s (reject e p)) by (intros e; constructor; [done | done | by apply counted_reject | done]).
  destruct (Validate sm) as [[]|e] eqn:Hval; [specialize (HP eq_refl)|].
  2: { unfold mret, SM_ret. intros [= <- <-]. split; [by apply grown_refl|]. by split. }
  destruct (_ && _).
  { unfold mret, SM_ret. intros [= <- <-]. split; [by apply grown_refl|]. by split. }
  unfold mbind, SM_bind, stry, mret, SM_ret, sfail.
  destruct (label_client_ts set clientName sm) as [Hts Hfields].
  destruct (rowFor set (label_client set clientName sm) (p_kinds p) s) as [r0 s1] eqn:E.
  destruct (rowFor_grows _ _ _ _ _ _ Hwf Hlim ltac:(rewrite Hfields; by apply validate_no_timestamp) E) as [Hg Hrow].
  destruct r0 as [[row kinds]|e].
  - intros [= <- <-]. split; [done|]. split.
    + constructor; [by apply Hg | | by apply counted_file | by apply file_row_nonempty]. apply filed_file; [by eapply filed_grown | done | by apply label_client_named | done | done].
    + unfold file_row. by destruct (default _ _).
  - destruct (is_fault e) eqn:Ef; intros [= <- <-]; [done|]. split; [done|]. split; [|done].
    constructor; [by apply Hg | by eapply filed_grown | by apply counted_reject | done].
Qed.

Lemma write_samples_sound P set scheme clientName width base refused samples : forall s p r s',
  sound P set scheme width base refused s p -> limits s -> p_index p + zlen samples <= i64_max ->
  Forall (fun sm => Validate sm = Ok tt -> P (label_client set clientName sm)) samples ->
  write_samples set scheme clientName width samples p s = (r, s') ->
  grown s s' /\ match r with
    | Ok p' => sound P set scheme width base refused s' p' /\ p_index p' = p_index p + zlen samples
    | Err e => is_fault e = true
    end.
Proof.
  induction samples as [|sm samples IH]; intros s p r s' Hsound Hlim Hmax HP; cbn [write_samples].
  - unfold mret, SM_ret. intros [= <- <-]. split; [apply grown_refl; by destruct Hsound|]. split; [done|]. change (zlen []) with 0. lia.
  - unfold mbind, SM_bind. rewrite zlen_cons in *. pose proof (zlen_nonneg samples). apply Forall_cons in HP as [HP0 HP].
    destruct (write_sample set scheme clientName width sm p s) as [[p1|e] s1] eqn:E;
      destruct (write_sample_sound _ _ _ _ _ _ _ _ _ _ _ _ Hsound Hlim ltac:(lia) HP0 E) as [Hg Hstep].
    + destruct Hstep as [Hsound1 Hix]. intros Hrun.
      destruct (IH s1 p1 r s' Hsound1 (grown_limits _ _ Hg Hlim) ltac:(lia) HP Hrun) as [Hg' Hrest].
      split; [by eapply grown_trans|]. destruct r; [|done]. destruct Hrest as [? ->]. split; [done | lia].
    + intros [= <- <-]. done.
Qed.
(** ** The samples of a batch, as they are gathered *)

Definition grouped set (width : Z) (m : gmap gostr (list Record_ * list Sample)) (F : list Sample) : Prop :=
  forall shard, (default ([], []) (m !! shard)).2 = base.filter (fun sm => shardNameAt set (TSMs sm) width = shard) F.

Lemma grouped_file set width p F pk row kinds sm : grouped set width (p_shards p) F ->
  grouped set width (p_shards (file_row (shardNameAt set (TSMs sm) width) pk row kinds sm p)) (F ++ [sm]).
Proof.
  intros Hg shard. unfold file_row. set (sh := shardNameAt set (TSMs sm) width). pose proof (Hg sh) as Hsh.
  destruct (default ([], []) (p_shards p !! sh)) as [recs samples]. cbn [snd p_shards] in *. rewrite filter_app. destruct (decide (sh = shard)) as [<- | Hne].
  - rewrite lookup_insert_eq, filter_cons_True, filter_nil by done. cbn [default snd]. by rewrite Hsh.
  - rewrite lookup_insert_ne, filter_cons_False, filter_nil, app_nil_r by done. apply Hg.
Qed.

Lemma write_samples_grouped set scheme client width samples : forall p s p' s' F, grouped set width (p_shards p) F ->
  write_samples set scheme client width samples p s = (Ok p', s') ->
  exists G, grouped set width (p_shards p') (F ++ G) /\ G `sublist_of` map (label_client set client) samples /\
    wr_Accepted (p_resp p') = wr_Accepted (p_resp p) + zlen G.
Proof.
  induction samples as [|sm samples IH]; intros p s p' s' F Hg; cbn [write_samples].
  { unfold mret, SM_ret. intros [= <- _]. exists []. rewrite app_nil_r. split_and!; [done | constructor | change (zlen []) with 0; lia]. }
  unfold mbind, SM_bind. destruct (write_sample set scheme client width sm p s) as [[p1|] s1] eqn:Ew; [|done].
  assert (Hone : exists G1, grouped set width (p_shards p1) (F ++ G1) /\ G1 `sublist_of` [label_client set client sm] /\
            wr_Accepted (p_resp p1) = wr_Accepted (p_resp p) + zlen G1).
  { assert (Hrej : forall e, exists G1, grouped set width (p_shards (reject e p)) (F ++ G1) /\ G1 `sublist_of` [label_client set client sm] /\
              wr_Accepted (p_resp (reject e p)) = wr_Accepted (p_resp p) + zlen G1).
    { intros e. exists []. rewrite app_nil_r. split_and!; [done | apply sublist_nil_l | symmetry; apply Z.add_0_r]. }
    revert Ew. unfold write_sample, mret, SM_ret. destruct (Validate sm); [|intros [= <- _]; apply Hrej]. break_if; [intros [= <- _]; apply Hrej|].
    unfold mbind, SM_bind, stry. destruct (rowFor _ _ _ _) as [[[row kinds]|e] s2]; [intros [= <- _] | by destruct (is_fault e); [|intros [= <- _]; apply Hrej]].
    exists [label_client set client sm]. split_and!; [by apply grouped_file | done|]. unfold file_row. by destruct (default _ _). }
  destruct Hone as (G1 & Hg1 & Hs1 & Ha1). intros Hrest. destruct (IH p1 s1 p' s' (F ++ G1) Hg1 Hrest) as (G2 & Hg2 & Hs2 & Ha2).
  exists (G1 ++ G2). rewrite app_assoc. split_and!; [done | by apply (sublist_app G1 [label_client set client sm]) | rewrite zlen_app; lia].
Qed.

End Write.
