(* ===== verification/StoreWriteProps.v ===== *)
(** * What a write promises

    From the samples of a request to the rows of the engine, and where the
    code falls short. *)

From Stdlib Require Import ZArith Lia Bool Strings.Byte Strings.String.
From stdpp Require Import gmap.
From S2P Require Import Prelude Bytes Float64 GoStd GoText Model Wire EngineKeys EngineCodec EngineDB EngineRep EngineInv.
From S2P Require Import EngineSchema EngineStore EngineQuery EngineScan EngineTrace Instances EngineProps StoreShard StoreState StoreDict.
From S2P Require Import StoreDictProofs StoreReclaim StoreDemo StoreCatalogue StoreWrite StoreWriteProofs.

Lemma size_union_le (X Y : gset gostr) : (size (X ∪ Y) <= size X + size Y)%nat.
Proof.
  rewrite size_union_alt. assert (size (Y ∖ X) <= size Y)%nat; [|lia]. apply subseteq_size. set_solver.
Qed.

Section Commit.
Context `{FloatText} `{XXH3} `{J : MetaJSON} `{!MetaJSONLaws J} `{L : LSM} `{!LSMLaws L} `{SJ : StoreJSON} `{ErrorText}.

Abbreviation AStore := (gmap gostr Rows).
Abbreviation shard_rows := (gostr * (list Record_ * list Sample))%type.

(** What the engine asks of the rows of one shard. *)
Definition fileable (d : DB) (A : AStore) (x : shard_rows) : Prop :=
  ValidString x.1 = true /\ Forall rec_ok x.2.1 /\
  forall idx, index_candidate d x.1 idx -> keys_agree idx (rows_of A x.1) (map rec_pair x.2.1).

Definition merged (A : AStore) (x : shard_rows) : Rows := foldl put_row (rows_of A x.1) (map rec_pair x.2.1).

Lemma observeSet_frame set samples (s : Store) : exists s', observeSet set samples s = (Ok tt, s') /\
  s_db s' = s_db s /\ s_dict s' = s_dict s /\ s_cfg s' = s_cfg s.
Proof.
  unfold observeSet, mbind, SM_bind, mret, SM_ret, time_Now, smodify. destruct samples as [|sm samples]; [by exists s|].
  destruct (s_clock s) as [|t c]; destruct (foldl _ _ _) as [e []]; by eexists.
Qed.

(** A set that is not yet there is indexed by nothing, whatever its id. *)
Lemma index_candidate_others d d' set n idx : others set d d' -> n <> set -> index_candidate d' n idx -> index_candidate d n idx.
Proof.
  intros Ho Hn [-> | ->]; [by left|]. right. unfold base_meta. rewrite (Ho n Hn). by destruct (d_sets d !! n).
Qed.

(** ** Set ids: a batch takes one at most *)

Definition same_id (d d' : DB) : Prop := d_nextID d' = d_nextID d.
#[local] Instance same_id_preorder : PreOrder same_id.
Proof. split; [by intros d|]. intros d1 d2 d3 E1 E2. unfold same_id in *. congruence. Qed.
Lemma same_id_pebble : keeps same_id pebble_call.
Proof. intros d. unfold pebble_call, same_id. by destruct (d_faults d) as [|[] ?]. Qed.

Lemma create_set_next name d : 0 <= d_nextID d -> d_nextID (create_set name d).2 <= d_nextID d + 1.
Proof.
  intros Hd. pose proof (Z.mod_le (d_nextID d + 1) 4294967296 ltac:(lia) ltac:(lia)) as Hle.
  unfold create_set, mbind, M_bind, get_db, modify, on_err, persistNextID, pdb_Set, mret, M_ret.
  set (d1 := set_maps _ _ (u32 (d_nextID d + 1)) d).
  assert (Hn : d_nextID d1 <= d_nextID d + 1) by (unfold d1, u32; cbn; exact Hle).
  pose proof (keeps_bind same_id get_db (fun d => pdb_Apply [BSet nextIDKey (PutUint32 (d_nextID d))]) ltac:(done)
    (fun d => keeps_apply same_id same_id_pebble ltac:(done) _) d1) as Hk. unfold same_id in Hk.
  match type of Hk with context [(?m d1).2] => destruct (m d1) as [[[]|e] d2] end; cbn [snd d_nextID set_maps] in *; lia.
Qed.

Lemma PutBatch_next set recs d : 0 <= d_nextID d -> d_nextID (PutBatch set recs d).2 <= d_nextID d + 1.
Proof.
  intros Hd. unfold PutBatch, mbind at 1, M_bind at 1, guard_open, mbind at 1, M_bind at 1, get_db.
  destruct (d_closed d); [cbn; lia|]. unfold mret at 1, M_ret at 1. destruct recs as [|r recs]; [cbn; lia|].
  unfold mbind at 1, M_bind at 1. set (recs' := r :: recs). set (cols := derive_columns recs').
  assert (Hset : d_nextID (setLocked set cols d).2 <= d_nextID d + 1).
  { unfold setLocked, mbind at 1, M_bind at 1, get_db at 1. unfold mbind at 1, M_bind at 1.
    pose proof (fun (created : bool) (sm : setMeta) => keeps_saved same_id same_id_pebble ltac:(done) ltac:(done) created sm cols) as Htail.
    destruct (d_sets d !! set) as [sm|]; cbn [mret M_ret].
    - rewrite (Htail false sm d). lia.
    - pose proof (create_set_next set d Hd) as Hc. destruct (create_set set d) as [[sm|e] d1]; cbn [snd] in Hc; [|exact Hc].
      by rewrite (Htail true sm d1). }
  destruct (setLocked set cols d) as [[sm|e] d1]; cbn [snd] in Hset; [|exact Hset].
  assert (Hrest : keeps same_id (b ← put_records set (sm_ID sm) (sm_Indexed sm) (sm_IndexCol sm) [] recs'; pdb_Apply b ;;
            modify (fun d => set_stats (add_puts (zlen recs') (d_stats d)) d))).
  { apply (keeps_bind same_id); [apply (keeps_put_records same_id same_id_pebble)|]. intros b.
    apply (keeps_bind same_id); [apply (keeps_apply same_id same_id_pebble); done|]. intros _. by apply keeps_modify. }
  by rewrite (Hrest d1).
Qed.

(** ** The shards of a batch, committed one after another *)

(** The steps of a commit, one shard after another: what each preserves
    ([I]), what each keeps of the store ([R]) and what each establishes of
    its shard ([Q]) hold at the end. *)
Section Along.
Context (I : Store -> Prop) (R : Store -> Store -> Prop) `{!PreOrder R} (Q : shard_rows -> Store -> Prop).
Hypothesis (Q_kept : forall x s s', R s s' -> Q x s -> Q x s').

Lemma commit_shards_along set l : forall (s : Store) A r s',
  (forall x s1 d1 s2 A1, x ∈ l -> I s1 -> db_inv (s_db s1) A1 -> fileable (s_db s1) A1 x -> in_u32 (d_nextID (s_db s1) + 1) ->
     PutBatch x.1 x.2.1 (s_db s1) = (Ok tt, d1) -> observeSet set x.2.2 (s_set_db d1 s1) = (Ok tt, s2) -> I s2 /\ R s1 s2 /\ Q x s2) ->
  I s -> db_inv (s_db s) A -> NoDup l.*1 -> Forall (fileable (s_db s) A) l -> (forall x, x ∈ l -> x.2.1 <> []) ->
  d_nextID (s_db s) + zlen l < 4294967296 -> commit_shards set l s = (r, s') ->
  s_dict s' = s_dict s /\ s_cfg s' = s_cfg s /\
  match r with
  | Ok _ => I s' /\ R s s' /\ (forall x, x ∈ l -> Q x s') /\ d_nextID (s_db s') <= d_nextID (s_db s) + zlen l /\
      exists A', db_inv (s_db s') A' /\ (forall x, x ∈ l -> A' !! x.1 = Some (merged A x)) /\ (forall n, n ∉ l.*1 -> A' !! n = A !! n)
  | Err _ => exists x s1 A1, x ∈ l /\ I s1 /\ db_inv (s_db s1) A1 /\ fileable (s_db s1) A1 x /\ in_u32 (d_nextID (s_db s1) + 1) /\
      (PutBatch x.1 x.2.1 (s_db s1)).1 <> Ok tt
  end.
Proof.
  induction l as [|[shard [recs samples]] l IH]; intros s A r s' Hstep HI Hinv Hnd Hfile Hne Hnext; cbn [commit_shards].
  - unfold mret, SM_ret. intros [= <- <-]. split_and!; [done | done | done | reflexivity | by intros x ?%elem_of_nil | change (zlen []) with 0; lia |]. exists A.
    split_and!; [done | by intros x ?%elem_of_nil | done].
  - cbn [fmap list_fmap] in Hnd. apply NoDup_cons in Hnd as [Hshard Hnd]. apply Forall_cons in Hfile as [Hfile0 Hfile].
    pose proof Hfile0 as (Hv & Hok & Hagree). cbn [fst snd] in *.
    rewrite zlen_cons in Hnext. pose proof (zlen_nonneg l). pose proof (inv_next _ _ _ _ _ Hinv) as Hu32. unfold in_u32 in Hu32.
    unfold mbind, SM_bind, engine. assert (Hu : in_u32 (d_nextID (s_db s) + 1)) by (unfold in_u32; lia).
    pose proof (PutBatch_wp shard recs (s_db s) A Hinv Hv Hok Hu Hagree) as Hput. unfold wp in Hput.
    pose proof (PutBatch_next shard recs (s_db s) ltac:(lia)) as Hid.
    destruct (PutBatch shard recs (s_db s)) as [[[]|e] d1] eqn:Eput; cbn [fst snd] in Hput, Hid.
    2: { intros [= <- <-]. split_and!; [done..|]. exists (shard, (recs, samples)), s, A. split_and!; try done; [apply list_elem_of_here|].
         cbn [fst snd]. by rewrite Eput. }
    destruct Hput as [Hinv1 Hoth _ _ Hge _].
    assert (Hnonempty : recs <> []) by (apply (Hne (shard, (recs, samples))); apply list_elem_of_here).
    assert (Hinv1' : db_inv d1 (<[shard := merged A (shard, (recs, samples))]> A)) by (destruct recs; [done | exact Hinv1]). clear Hinv1.
    destruct (observeSet_frame set samples (s_set_db d1 s)) as (s1 & Eobs & Hdb1 & Hd1 & Hc1). rewrite Eobs. cbn [s_db s_set_db s_dict s_cfg] in Hdb1, Hd1, Hc1.
    destruct (Hstep (shard, (recs, samples)) s d1 s1 A (list_elem_of_here _ _) HI Hinv Hfile0 Hu Eput Eobs) as (HI1 & HR & HQ).
    intros Hrun. destruct (IH s1 (<[shard := merged A (shard, (recs, samples))]> A) r s') as (Hd & Hc & Hres);
      [intros x ? ? ? ? Hx; apply Hstep; by apply list_elem_of_further | done | by rewrite Hdb1 | done | | intros x Hx; apply Hne; by apply list_elem_of_further | rewrite Hdb1; lia | done |].
    { rewrite Forall_forall in Hfile |- *. intros x Hx. destruct (Hfile x Hx) as (Hxv & Hxok & Hxagree).
      assert (Hxs : x.1 <> shard) by (intros <-; apply Hshard; by apply list_elem_of_fmap_2). split_and!; [done | done|].
      intros idx Hidx. rewrite Hdb1 in Hidx. unfold rows_of. rewrite lookup_insert_ne by done. apply Hxagree.
      by eapply index_candidate_others. }
    rewrite Hd, Hc, Hd1, Hc1. split_and!; [done..|]. destruct r as [[]|].
    2: { destruct Hres as (x & s2 & A2 & Hx & Hrest). exists x, s2, A2. split; [by apply list_elem_of_further | exact Hrest]. }
    destruct Hres as (HI' & HR' & HQ' & Hid' & A' & Hinv' & Hin & Hout).
    split; [done|]. split; [by etransitivity|]. split; [intros x [-> | Hx]%elem_of_cons; [by eapply Q_kept | by apply HQ']|].
    split; [rewrite zlen_cons; rewrite Hdb1 in Hid'; lia|]. exists A'. split_and!; [done | |].
    + intros x [-> | Hx]%elem_of_cons; cbn [fst].
      * rewrite Hout by done. by rewrite lookup_insert_eq.
      * rewrite Hin by done. unfold merged, rows_of. rewrite lookup_insert_ne; [done|]. intros Heq. apply Hshard. rewrite Heq. by apply list_elem_of_fmap_2.
    + intros n Hn. cbn [fmap list_fmap] in Hn. apply not_elem_of_cons in Hn as [Hn1 Hn2]. rewrite Hout by done. by rewrite lookup_insert_ne.
Qed.
End Along.

Lemma commit_shards_spec set l : forall (s : Store) A r s',
  db_inv (s_db s) A -> NoDup l.*1 -> Forall (fileable (s_db s) A) l -> (forall x, x ∈ l -> x.2.1 <> []) ->
  d_nextID (s_db s) + zlen l < 4294967296 -> commit_shards set l s = (r, s') ->
  s_dict s' = s_dict s /\ s_cfg s' = s_cfg s /\
  match r with
  | Ok _ => exists A', db_inv (s_db s') A' /\ (forall x, x ∈ l -> A' !! x.1 = Some (merged A x)) /\ (forall n, n ∉ l.*1 -> A' !! n = A !! n)
  | Err _ => True
  end.
Proof.
  intros s A r s' Hinv Hnd Hfile Hne Hnext Hrun. assert (PreOrder (fun _ _ : Store => True)) by done.
  destruct (commit_shards_along (fun _ => True) (fun _ _ => True) (fun _ _ => True) ltac:(done) set l s A r s' ltac:(done) ltac:(done) Hinv Hnd Hfile Hne Hnext Hrun)
    as (Hd & Hc & Hres).
  split_and!; [done..|]. destruct r; [|done]. by destruct Hres as (_ & _ & _ & _ & ?).
Qed.

(** ** What the engine asks of the rows, from what a sample is *)

(** Values a machine holds, and maps of a size it can count. *)
Definition storable (sm : Sample) : Prop :=
  (forall k v, Fields sm !! k = Some v -> value_storable v) /\ Z.of_nat (size (Labels sm)) + Z.of_nat (size (Fields sm)) < two63.

Lemma ascii_valid t : ascii t = true -> ValidString t = true.
Proof.
  unfold ValidString, ascii. induction t as [|b t IH]; [done|]. cbn [forallb length valid_utf8]. rewrite andb_true_iff, Z.ltb_lt. intros [Hb Ht].
  rewrite DecodeRune_ascii by done. rewrite (proj2 (Z.leb_gt 128 (b2z b))) by done. cbn [andb]. change (drop (Z.to_nat 1) (b :: t)) with t. by apply IH.
Qed.

Lemma shard_ascii set tsMs width : ascii set = true -> 0 < tsMs <= MaxTSMs -> width < two63 -> ascii (shardNameAt set tsMs width) = true.
Proof.
  intros Hs Hts Hw. assert (Happ : forall suffix, ascii suffix = true -> ascii (set ++ at_sign ++ suffix) = true).
  { intros suffix Hsuf. unfold ascii in *. by rewrite !forallb_app, Hs, Hsuf. }
  destruct (Z.le_gt_cases width 0) as [Hall | Hpos].
  - unfold shardNameAt. rewrite (proj2 (Z.leb_le width 0)) by done. by apply Happ.
  - destruct (shardNameAt_spec set tsMs width Hts ltac:(lia)) as (suffix & start & w & -> & _ & _ & _ & _ & Htext).
    by apply Happ, shard_text_ascii.
Qed.

Lemma row_size (s : Store) sm row : resolves s sm row -> Z.of_nat (size row) <= 1 + Z.of_nat (size (Labels sm)) + Z.of_nat (size (Fields sm)).
Proof.
  intros Hr. rewrite <- (size_dom row), <- (size_dom (Labels sm)), <- (size_dom (Fields sm)).
  assert (Hsub : dom row ⊆ {[TimestampField]} ∪ (dom (Labels sm) ∪ dom (Fields sm))).
  { intros k Hk. apply elem_of_dom in Hk. rewrite !elem_of_union, elem_of_singleton, !elem_of_dom. by apply (rs_only _ _ _ Hr). }
  apply subseteq_size in Hsub. pose proof (size_union_le {[TimestampField]} (dom (Labels sm) ∪ dom (Fields sm))) as Hu1.
  pose proof (size_union_le (dom (Labels sm)) (dom (Fields sm))) as Hu2. rewrite size_singleton in Hu1. lia.
Qed.

Lemma row_rec_ok (s : Store) set scheme sm row : dicts_wf s -> resolves s sm row -> named sm -> storable sm ->
  rec_ok {| rec_Key := PrimaryKey set sm scheme; rec_Row := row |}.
Proof.
  intros Hwf Hr [Hts Hnames] [Hvals Hsize].
  assert (Hkey : forall k v, row !! k = Some v -> name_ok k).
  { intros k v Hk. destruct (rs_only _ _ _ Hr k) as [-> | Hin]; [by rewrite Hk | by vm_compute | by apply Hnames]. }
  split; [apply Sum128_length|]. cbn [rec_Row]. split; [split|].
  - intros k v Hk. split; cbn [fst snd].
    + destruct (Hkey k v Hk) as [_ Hlen]. unfold fits, two64. lia.
    + destruct (rs_only _ _ _ Hr k) as [-> | [[w Hl] | [w Hf]]]; [by rewrite Hk | | |].
      * rewrite (rs_ts _ _ _ Hr) in Hk. injection Hk as <-. cbn. unfold in_i64, i64_min, i64_max, two63, MaxTSMs in *. lia.
      * destruct (rs_labels _ _ _ Hr _ _ Hl) as (i & Hi & Hv). rewrite Hk in Hi. injection Hi as ->. cbn.
        apply labelValue_spec in Hv as (d & Hd & Hrange%idx_range & _). pose proof (ag_small _ _ (Hwf _ _ Hd)). unfold in_i64, i64_min, i64_max, two63. lia.
      * rewrite (rs_fields _ _ _ Hr _ _ Hf) in Hk. injection Hk as <-. by eapply Hvals.
  - pose proof (row_size s sm row Hr). unfold in_u64, two64, two63 in *. lia.
  - intros k v Hk. apply ascii_valid. by destruct (Hkey k v Hk).
Qed.

(** ** A batch, from samples to rows *)

(** The samples filed, over all shards. *)
Definition filed_samples (m : gmap gostr (list Record_ * list Sample)) : list Sample := concat (map (fun x => x.2.2) (map_to_list m)).

Lemma filed_samples_count m : zlen (filed_samples m) = waiting m.
Proof.
  unfold filed_samples, waiting. rewrite map_fold_foldr. induction (map_to_list m) as [|[k x] l IH]; [done|].
  cbn [map concat foldr uncurry fst snd]. rewrite zlen_app, IH. done.
Qed.

(** No two samples, and no sample and a stored row, share a primary key
    and differ in their timestamp; and the shards are indexed by the
    timestamp, as the store indexes them. *)
Record settled (set scheme : gostr) (width : Z) (P : Sample -> Prop) (d : DB) (A : AStore) : Prop := {
  se_keys : forall a b, P a -> P b -> PrimaryKey set a (scheme_of scheme) = PrimaryKey set b (scheme_of scheme) -> TSMs a = TSMs b;
  se_rows : forall a R r0, P a -> A !! shardNameAt set (TSMs a) width = Some R -> R !! PrimaryKey set a (scheme_of scheme) = Some r0 ->
    row_ts TimestampField r0 = Some (TSMs a);
  se_index : forall a m, P a -> d_sets d !! shardNameAt set (TSMs a) width = Some m -> sm_Indexed m = TimestampField \/ sm_Indexed m = [];
}.

Lemma filed_fileable P set scheme width (s s0 : Store) A shard x :
  dicts_wf s -> ascii set = true -> width < two63 -> filed P set scheme width s shard x -> x.2 <> [] -> (forall sm, P sm -> storable sm) ->
  settled set scheme width P (s_db s0) A -> fileable (s_db s0) A (shard, x).
Proof.
  intros Hwf Hset Hw Hf Hne HP Hset'. destruct x as [recs samples]. unfold filed in Hf. cbn [fst snd] in *.
  assert (Hshard : exists a, P a /\ named a /\ shard = shardNameAt set (TSMs a) width).
  { destruct Hf as [|rc sm recs samples (_ & Hs & _ & Hn & Hp) _]; [done|]. by exists sm. }
  destruct Hshard as (a0 & Ha0 & Hn0 & Hs0).
  assert (Hrow : forall pk r, (pk, r) ∈ map rec_pair recs -> exists sm, P sm /\ pk = PrimaryKey set sm (scheme_of scheme) /\
            shard = shardNameAt set (TSMs sm) width /\ resolves s sm r).
  { intros pk r Hin. apply list_elem_of_In, in_map_iff in Hin as (rc & [= <- <-] & Hin%list_elem_of_In).
    apply list_elem_of_lookup in Hin as [i Hi]. destruct (Forall2_lookup_l _ _ _ _ _ Hf Hi) as (sm & _ & Hk & Hs & Hr & _ & Hp). by exists sm. }
  assert (Hts : forall sm r, resolves s sm r -> row_ts TimestampField r = Some (TSMs sm)) by (intros sm r Hr; unfold row_ts; by rewrite (rs_ts _ _ _ Hr)).
  split_and!.
  - cbn [fst]. rewrite Hs0. apply ascii_valid, shard_ascii; [done | by destruct Hn0 | done].
  - cbn [fst snd]. apply Forall_forall. intros rc Hin. apply list_elem_of_lookup in Hin as [i Hi].
    destruct (Forall2_lookup_l _ _ _ _ _ Hf Hi) as (sm & _ & Hk & _ & Hr & Hn & Hp).
    pose proof (row_rec_ok s set (scheme_of scheme) sm (rec_Row rc) Hwf Hr Hn (HP sm Hp)) as Hok. destruct rc as [pk row]. cbn in *. by rewrite Hk.
  - cbn [fst snd]. intros idx Hidx pk r r0 Hidxne Hin Hor.
    assert (idx = TimestampField) as ->.
    { destruct Hidx as [-> | ->]; [done|]. unfold base_meta in *. destruct (d_sets (s_db s0) !! shard) as [m|] eqn:Em; cbn [default] in *; [|done].
      rewrite Hs0 in Em. by destruct (se_index _ _ _ _ _ _ Hset' a0 m Ha0 Em). }
    destruct (Hrow pk r Hin) as (sm & Hp & -> & Hs & Hr). rewrite (Hts sm r Hr). destruct Hor as [Hold | Hnew].
    + unfold rows_of in Hold. destruct (A !! shard) as [R|] eqn:EA; cbn [default] in Hold; [|by rewrite lookup_empty in Hold].
      rewrite Hs in EA. by apply (se_rows _ _ _ _ _ _ Hset' sm R).
    + destruct (Hrow _ r0 Hnew) as (sm' & Hp' & Hpk & _ & Hr'). rewrite (Hts sm' r0 Hr'). f_equal. symmetry. by apply (se_keys _ _ _ _ _ _ Hset').
Qed.

(** ** Where the samples of a batch are, once it is committed *)

Definition row_at (A : AStore) (shard pk : gostr) : option Row := A !! shard ≫= fun R => R !! pk.
Lemma row_at_rows (A : AStore) shard pk : row_at A shard pk = rows_of A shard !! pk.
Proof. unfold row_at, rows_of. destruct (A !! shard); cbn; [done | by rewrite lookup_empty]. Qed.


(** The samples that go to one place. *)
Definition goes_to set scheme width (shard pk : gostr) (sm : Sample) : Prop :=
  shardNameAt set (TSMs sm) width = shard /\ PrimaryKey set sm (scheme_of scheme) = pk.
#[export] Instance goes_to_dec set scheme width shard pk sm : Decision (goes_to set scheme width shard pk sm).
Proof. unfold goes_to. apply _. Defined.

(** In each place the last sample of the batch that goes there, or what was
    there before. *)
Lemma commit_places set scheme width P (s1 : Store) A A' m F :
  (forall x, x ∈ map_to_list m -> A' !! x.1 = Some (merged A x)) -> (forall n, n ∉ (map_to_list m).*1 -> A' !! n = A !! n) ->
  map_Forall (filed P set scheme width s1) m -> grouped set width m F -> forall shard pk,
  match last (base.filter (goes_to set scheme width shard pk) F) with
  | Some sm => exists x row, m !! shard = Some x /\ sm ∈ x.2 /\ row_at A' shard pk = Some row /\
      pk = PrimaryKey set sm (scheme_of scheme) /\ shard = shardNameAt set (TSMs sm) width /\ resolves s1 sm row /\ named sm /\ P sm
  | None => row_at A' shard pk = row_at A shard pk
  end.
Proof.
  intros Hin Hout Hfiled Hg shard pk.
  rewrite (filter_filter_and (fun sm => PrimaryKey set sm (scheme_of scheme) = pk) (fun sm => shardNameAt set (TSMs sm) width = shard))
    by (intros sm; unfold goes_to; tauto).
  rewrite <- Hg. destruct (m !! shard) as [x|] eqn:Ex; cbn [default].
  - assert (Hx : (shard, x) ∈ map_to_list m) by (by apply elem_of_map_to_list). change (id x) with x.
    assert (Hrow : row_at A' shard pk = match last (base.filter (fun pr => pr.1 = pk) (map rec_pair x.1)) with Some pr => Some pr.2 | None => rows_of A shard !! pk end).
    { unfold row_at. rewrite (Hin _ Hx : A' !! shard = _). cbn [mbind option_bind]. unfold merged. cbn [fst snd].
      change (foldl put_row) with (foldl (fun (m : Rows) (pr : gostr * Row) => <[fst pr := snd pr]> m)). apply (foldl_put_lookup fst snd). }
    pose proof (Hfiled _ _ Ex) as Hf. unfold filed in Hf.
    set (rel := fun (pr : gostr * Row) sm => (pr.1 = PrimaryKey set sm (scheme_of scheme) /\ sm ∈ x.2) /\
        shard = shardNameAt set (TSMs sm) width /\ resolves s1 sm pr.2 /\ named sm /\ P sm).
    assert (Hrel : Forall2 rel (map rec_pair x.1) x.2).
    { apply Forall2_fmap_l, Forall2_same_length_lookup_2; [by eapply Forall2_length|]. intros i rc sm Hrc Hsm.
      destruct (Forall2_lookup_lr _ _ _ _ _ _ Hf Hrc Hsm) as (Hk & Hs & Hr & Hn & Hp). split_and!; try done. by eapply list_elem_of_lookup_2. }
    pose proof (Forall2_filter_last rel (fun pr => pr.1 = pk) (fun sm => PrimaryKey set sm (scheme_of scheme) = pk) _ _ ltac:(intros pr sm [[-> _] _]; done) Hrel) as Hlast.
    destruct Hlast as [pr sm (((Hk & Hsm) & Hs & Hr & Hn & Hp) & <-)|]; [|by rewrite Hrow, row_at_rows].
    exists x, pr.2. by split_and!.
  - cbn. unfold row_at. rewrite Hout; [done|]. intros ([k y] & -> & Hk%elem_of_map_to_list)%list_elem_of_fmap. cbn in Ex. congruence.
Qed.

(** The samples of a batch as the store files them. *)
Definition batch_sample (clientName : gostr) (b : Batch) (sm : Sample) : Prop :=
  exists sm0, sm0 ∈ b_Samples b /\ sm = label_client (b_Set b) clientName sm0 /\ storable sm.

Definition tallied (q : request) : Prop :=
  0 <= wr_RejectedCount (q_resp q) <= q_index q /\ wr_Accepted (q_resp q) + wr_RejectedCount (q_resp q) = q_index q.

Lemma reject_all_tallied e samples : forall q, tallied q -> q_index q + zlen samples <= i64_max ->
  tallied (reject_all e samples q) /\ q_index (reject_all e samples q) = q_index q + zlen samples /\
  wr_Accepted (q_resp (reject_all e samples q)) = wr_Accepted (q_resp q).
Proof.
  induction samples as [|sm samples IH]; intros q Hq Hmax; cbn [reject_all]; [change (zlen []) with 0; split_and!; [done | lia | done]|].
  rewrite zlen_cons in *. pose proof (zlen_nonneg samples). destruct Hq as [Hrange Hsum].
  destruct (IH {| q_index := q_index q + 1; q_resp := Reject (q_index q) (Error_ e) (q_resp q); q_kinds := q_kinds q |}) as (Ht & Hi & Ha).
  - unfold tallied, Reject. cbn [q_resp q_index wr_RejectedCount wr_Accepted].
    rewrite i64_id by (unfold in_i64, i64_min, i64_max, two63 in *; lia). lia.
  - cbn [q_index]. lia.
  - cbn [q_index q_resp Reject wr_Accepted] in *. split_and!; [done | lia | done].
Qed.

Lemma shards_waiting m : map_Forall (fun _ (x : list Record_ * list Sample) => x.2 <> []) m -> zlen (map_to_list m) <= waiting m.
Proof.
  intros Hm. rewrite <- filed_samples_count. unfold filed_samples.
  assert (Hall : Forall (fun x : gostr * (list Record_ * list Sample) => x.2.2 <> []) (map_to_list m)).
  { apply Forall_forall. intros [k x] Hx%elem_of_map_to_list. by apply (Hm k). }
  induction Hall as [|x l Hx _ IH]; [done|]. cbn [map concat]. rewrite zlen_cons, zlen_app.
  destruct x as [k [recs [|sm samples]]]; [done|]. cbn [snd]. rewrite zlen_cons. pose proof (zlen_nonneg samples). lia.
Qed.

(** What became of the samples of a batch that were accepted, [F], in order:
    each place holds the row of the last of them that goes there, or what it
    held before. *)
Definition batch_filed (set scheme : gostr) (width : Z) (s' : Store) (A A' : AStore) (F : list Sample) : Prop := forall shard pk,
  match last (base.filter (goes_to set scheme width shard pk) F) with
  | Some sm => exists row, row_at A' shard pk = Some row /\ resolves s' sm row
  | None => row_at A' shard pk = row_at A shard pk
  end.

Lemma batch_filed_none set scheme width (s' : Store) A : batch_filed set scheme width s' A A [].
Proof. done. Qed.

(** ** The samples of a batch, made into rows *)

(** The gathering of a batch: the rows it hands to the engine, and the
    samples [F] they are made of. *)
Record gathered_batch (clientName : gostr) (b : Batch) (scheme : gostr) (width : Z) (P : Sample -> Prop) (q : request) (s : Store) (A : AStore)
    (p : progress) (s1 : Store) (F : list Sample) : Prop := {
  gb_grown : grown s s1;
  gb_wf : dicts_wf s1;
  gb_filed : map_Forall (filed P (b_Set b) scheme width s1) (p_shards p);
  gb_grouped : grouped (b_Set b) width (p_shards p) F;
  gb_sub : F `sublist_of` map (label_client (b_Set b) clientName) (b_Samples b);
  gb_accepted : wr_Accepted (p_resp p) = wr_Accepted (q_resp q) + zlen F;
  gb_answered : p_index p = q_index q + zlen (b_Samples b) /\ 0 <= wr_RejectedCount (p_resp p) <= p_index p /\
    wr_Accepted (p_resp p) + wr_RejectedCount (p_resp p) = p_index p;
  gb_full : map_Forall (fun _ x => x.2 <> []) (p_shards p);
  gb_fileable : Forall (fileable (s_db s1) A) (map_to_list (p_shards p));
  gb_nonempty : forall x, x ∈ map_to_list (p_shards p) -> x.2.1 <> [];
  gb_next : d_nextID (s_db s1) + zlen (map_to_list (p_shards p)) <= d_nextID (s_db s) + zlen (b_Samples b);
}.

Definition batch_start (q : request) (set : gostr) : progress :=
  {| p_index := q_index q; p_kinds := default ∅ (q_kinds q !! set); p_shards := ∅; p_resp := q_resp q |}.

Lemma batch_gathered (clientName : gostr) (b : Batch) (scheme : gostr) (width : Z) (P : Sample -> Prop) (q : request) (s : Store) (A : AStore) (p1 : progress) (s1 : Store) :
  dicts_wf s -> limits s -> db_inv (s_db s) A -> ascii (b_Set b) = true -> width < two63 -> (forall sm, P sm -> storable sm) ->
  (forall sm, sm ∈ b_Samples b -> Validate sm = Ok tt -> P (label_client (b_Set b) clientName sm)) ->
  settled (b_Set b) scheme width P (s_db s) A -> tallied q -> q_index q + zlen (b_Samples b) <= i64_max ->
  write_samples (b_Set b) scheme clientName width (b_Samples b) (batch_start q (b_Set b)) s = (Ok p1, s1) ->
  exists F, gathered_batch clientName b scheme width P q s A p1 s1 F.
Proof.
  intros Hwf Hlim Hinv Hasc Hwidth Hst HP [K1 K2 K3] [Hq1 Hq2] Hmax Hrun.
  assert (Hsound : sound P (b_Set b) scheme width (wr_Accepted (q_resp q)) (wr_RejectedCount (q_resp q)) s (batch_start q (b_Set b))).
  { constructor; [done | apply map_Forall_empty | | apply map_Forall_empty]. unfold counted, batch_start, waiting. cbn [p_resp p_index p_shards].
    rewrite map_fold_empty. lia. }
  destruct (write_samples_sound _ _ _ _ _ _ _ _ _ _ _ _ Hsound Hlim Hmax ltac:(by apply Forall_forall) Hrun) as [Hg [[Hwf1 Hfiled1 Hcount1 Hfull1] Hix1]].
  destruct (write_samples_grouped (b_Set b) scheme clientName width (b_Samples b) (batch_start q (b_Set b)) s p1 s1 [] ltac:(done) Hrun) as (F & Hgr & Hsub & Hacc).
  exists F. destruct (gr_db _ _ Hg A Hinv) as [Hsets1 Hnext1]. cbn [batch_start p_index p_resp app] in *.
  pose proof (shards_waiting _ Hfull1) as Hshards. destruct Hcount1 as (Hc1 & Hc2 & Hc3 & Hc4).
  constructor; [done | done | done | done | done | done | lia | done | | | lia].
  - apply Forall_forall. intros [shard x] Hx%elem_of_map_to_list.
    apply (filed_fileable P (b_Set b) scheme width s1 s1 A shard x Hwf1 Hasc Hwidth (Hfiled1 _ _ Hx) (Hfull1 _ _ Hx)); [done|].
    constructor; [exact K1 | exact K2 | by rewrite Hsets1].
  - intros [shard x] Hx%elem_of_map_to_list. pose proof (Hfiled1 _ _ Hx) as Hf. pose proof (Hfull1 _ _ Hx) as Hne. unfold filed in Hf. cbn [snd].
    destruct x as [recs samples]. cbn [fst snd] in *. by destruct Hf.
Qed.

Lemma set_name_ok set : ValidateSetName set = Ok tt -> ascii set = true /\ set <> [].
Proof.
  unfold ValidateSetName. destruct (validIdent set false) eqn:Ei; [|done]. intros _. split; [by destruct (ident_name_ok _ _ Ei)|].
  by intros ->.
Qed.

(** C28: every sample of a batch is answered once, accepted or refused by
    name, and when the batch returns, the engine holds exactly what it held
    before and the samples it accepted: in each shard and under each primary
    key the row of the last accepted sample that goes there, which the
    dictionaries resolve back to it, and elsewhere what was there.  This is
    of a batch whose samples do not share a primary key with another sample
    or a stored row of a different time, on shards indexed by the timestamp
    as the store indexes them. *)
Theorem write_batch_commits (clientName : gostr) (b : Batch) (q q' : request) (s s' : Store) (A : AStore) :
  let scheme := keyScheme s (b_Set b) in let width := shardWidth s (b_Set b) in let P := batch_sample clientName b in
  dicts_wf s -> limits s -> db_inv (s_db s) A -> (forall sm0, sm0 ∈ b_Samples b -> storable (label_client (b_Set b) clientName sm0)) ->
  settled (b_Set b) scheme width P (s_db s) A -> width < two63 -> d_nextID (s_db s) + zlen (b_Samples b) < 4294967296 ->
  tallied q -> q_index q + zlen (b_Samples b) <= i64_max ->
  write_batch clientName b q s = (Ok q', s') ->
  q_index q' = q_index q + zlen (b_Samples b) /\ tallied q' /\ dicts_wf s' /\
  exists A' F, db_inv (s_db s') A' /\ F `sublist_of` map (label_client (b_Set b) clientName) (b_Samples b) /\
    zlen F = wr_Accepted (q_resp q') - wr_Accepted (q_resp q) /\ batch_filed (b_Set b) scheme width s' A A' F.
Proof.
  intros scheme width P Hwf Hlim Hinv Hst Hset Hwidth Hnext Hq Hmax. unfold write_batch.
  assert (Hrej : forall e, (Ok (reject_all e (b_Samples b) q) : result store_err request, s) = (Ok q', s') ->
            q_index q' = q_index q + zlen (b_Samples b) /\ tallied q' /\ dicts_wf s' /\
            exists A' F, db_inv (s_db s') A' /\ F `sublist_of` map (label_client (b_Set b) clientName) (b_Samples b) /\
              zlen F = wr_Accepted (q_resp q') - wr_Accepted (q_resp q) /\ batch_filed (b_Set b) scheme width s' A A' F).
  { intros e [= <- <-]. destruct (reject_all_tallied e (b_Samples b) q Hq Hmax) as (Ht & Hi & Ha). split_and!; [done..|].
    exists A, []. split_and!; [done | apply sublist_nil_l | change (zlen []) with 0; lia | apply batch_filed_none]. }
  destruct (ValidateSetName (b_Set b)) as [[]|e] eqn:Hname; [|apply Hrej]. destruct (_ && _); [apply Hrej|]. clear Hrej.
  unfold mbind, SM_bind, get_store, mret, SM_ret. fold scheme width. fold (batch_start q (b_Set b)).
  destruct (write_samples (b_Set b) scheme clientName width (b_Samples b) (batch_start q (b_Set b)) s) as [[p1|e] s1] eqn:Hrun; [|done].
  destruct (batch_gathered clientName b scheme width P q s A p1 s1 Hwf Hlim Hinv (proj1 (set_name_ok _ Hname)) Hwidth ltac:(by intros sm (? & _ & _ & ?))
    ltac:(intros sm Hsm _; exists sm; split_and!; [done | done | by apply Hst]) Hset Hq Hmax Hrun) as (F & [Hg Hwf1 Hfiled Hgr Hsub Hacc Hans _ Hfile Hne Hnext1]).
  destruct (commit_shards (b_Set b) (map_to_list (p_shards p1)) s1) as [[[]|e] s2] eqn:Hcommit; [|done]. intros [= <- <-].
  destruct (commit_shards_spec (b_Set b) _ s1 A (Ok tt) s2 (gr_inv _ _ Hg A Hinv) (NoDup_fst_map_to_list _) Hfile Hne ltac:(lia) Hcommit)
    as (Hd2 & _ & A' & Hinv' & Hin' & Hout').
  split_and!; [cbn [q_index]; lia | unfold tallied; cbn [q_resp q_index]; lia | intros k d Hk; rewrite Hd2 in Hk; by apply (Hwf1 k) |].
  exists A', F. split_and!; [done | done | cbn [q_resp]; lia |]. intros shard pk.
  pose proof (commit_places (b_Set b) scheme width P s1 A A' (p_shards p1) F Hin' Hout' Hfiled Hgr shard pk) as Hplace.
  destruct (last _) as [sm|]; [|exact Hplace]. destruct Hplace as (x & row & _ & _ & Hrow & _ & _ & Hres & _).
  exists row. split; [done|]. eapply resolves_values; [|exact Hres]. intros k i v. unfold labelValue. by rewrite Hd2.
Qed.
End Commit.

(** ** Witness: one sample on an empty store *)

Definition lone : Sample := {| TSMs := 1700000000000; SubUS := 0; Labels := {[bs "host" := bs "a"]}; Fields := {[bs "v" := VInt 1]}; KeyHint := [] |}.
Definition lone_batch : Batch := {| b_Set := bs "cpu"; b_Samples := [lone] |}.
Definition opening : request := {| q_index := 0; q_resp := empty_response; q_kinds := ∅ |}.
Abbreviation lone_run := (write_batch [] lone_batch opening empty_store).

Lemma lone_settled scheme width : settled (bs "cpu") scheme width (batch_sample [] lone_batch) demo_empty ∅.
Proof.
  assert (Hts : forall sm, batch_sample [] lone_batch sm -> TSMs sm = 1700000000000).
  { intros sm (sm0 & ->%list_elem_of_singleton & -> & _). reflexivity. }
  constructor; [intros a b Ha Hb _; by rewrite (Hts a Ha), (Hts b Hb) | intros a R r0 _; by rewrite lookup_empty |].
  intros a m _ Hm. change (d_sets demo_empty) with (∅ : gmap gostr setMeta) in Hm. by rewrite lookup_empty in Hm.
Qed.

Lemma lone_storable sm : sm ∈ b_Samples lone_batch -> storable (label_client (b_Set lone_batch) [] sm).
Proof.
  intros ->%list_elem_of_singleton. split; [|by vm_compute]. intros k v. change (Fields _) with ({[bs "v" := VInt 1]} : gmap gostr Value).
  rewrite lookup_singleton_Some. by intros [<- <-].
Qed.

(** The lone sample is where it belongs. *)
Lemma write_batch_commits_witness :
  exists q' s' A' row, lone_run = (Ok q', s') /\ db_inv (s_db s') A' /\
    row_at A' (shardNameAt (bs "cpu") (TSMs lone) (shardWidth empty_store (bs "cpu")))
      (PrimaryKey (bs "cpu") lone (scheme_of (keyScheme empty_store (bs "cpu")))) = Some row /\ resolves s' lone row.
Proof.
  assert (Hok : exists q', lone_run.1 = Ok q' /\ wr_Accepted (q_resp q') = 1) by (eexists; split; vm_compute; reflexivity).
  destruct Hok as (q' & Hok & Hacc). apply run_result in Hok.
  assert (Hwf : dicts_wf empty_store) by apply map_Forall_empty.
  assert (Hinv : db_inv (s_db empty_store) ∅) by (unfold empty_store; rewrite store_on_db; apply demo_empty_inv).
  assert (Hset : forall scheme width, settled (bs "cpu") scheme width (batch_sample [] lone_batch) (s_db empty_store) ∅)
    by (intros; unfold empty_store; rewrite store_on_db; apply lone_settled).
  assert (Hnext : d_nextID (s_db empty_store) + zlen (b_Samples lone_batch) < 4294967296)
    by (unfold empty_store; rewrite store_on_db, demo_empty_next; reflexivity).
  assert (Hwidth : shardWidth empty_store (b_Set lone_batch) < two63) by (vm_compute; reflexivity).
  assert (Hlim : limits empty_store) by (unfold limits, empty_store; cbn; lia).
  assert (Hidx : q_index opening + zlen (b_Samples lone_batch) <= i64_max) by (vm_compute; discriminate).
  assert (Ht : tallied opening) by (unfold tallied; cbn; lia).
  destruct (write_batch_commits [] lone_batch opening q' empty_store lone_run.2 ∅ Hwf Hlim Hinv lone_storable (Hset _ _) Hwidth Hnext Ht Hidx Hok)
    as (_ & _ & _ & A' & F & Hinv' & Hsub & Hlen & Hfiled).
  assert (HF : F = [lone]).
  { rewrite Hacc in Hlen. change (wr_Accepted (q_resp opening)) with 0 in Hlen. change (map _ _) with [lone] in Hsub.
    apply sublist_cons_r in Hsub as [->%sublist_nil_r | (F' & -> & ->%sublist_nil_r)]; [discriminate Hlen | reflexivity]. }
  rewrite HF in Hfiled. clear HF Hlen Hsub. specialize (Hfiled (shardNameAt (bs "cpu") (TSMs lone) (shardWidth empty_store (bs "cpu")))
    (PrimaryKey (bs "cpu") lone (scheme_of (keyScheme empty_store (bs "cpu"))))).
  rewrite filter_cons_True in Hfiled by (split; reflexivity). rewrite filter_nil in Hfiled. destruct Hfiled as (row & Hrow & Hres).
  exists q', lone_run.2, A', row. split; [exact Hok|]. split; [exact Hinv'|]. split; [exact Hrow | exact Hres].
Defined.

(** * Where writing and reclaiming fall short

    Runs of the store, each from a state the code reaches by itself. *)


Abbreviation host := (bs "host").
Abbreviation cpu := (bs "cpu").

Definition host_sample (ts : Z) (h field : gostr) : Sample :=
  {| TSMs := ts; SubUS := 0; Labels := {[host := h]}; Fields := {[field := VInt 1]}; KeyHint := [] |}.
Definition one_batch (samples : list Sample) : WriteRequest :=
  {| rq_Batches := [{| b_Set := cpu; b_Samples := samples |}]; rq_FieldMeta := []; rq_SetMeta := [] |}.

(** ** A write between the two halves of a reclaim *)

(** The scan, a write of a value it saw no row of, the freeing; then two
    more values. *)
Abbreviation scanned := (reclaim_scan [host] two_hosts).
Abbreviation raced_write := (Write (one_batch [host_sample 1700000000000 (bs "a") (bs "v")]) [] [] scanned.2).
Abbreviation used_by_scan := (match scanned.1 with Ok used => used | Err _ => ∅ end).
Abbreviation raced_free := (reclaim_free used_by_scan raced_write.2).
Abbreviation raced_later := (intern host (bs "d") (intern host (bs "c") raced_free.2).2).

Definition raced_shard : gostr := shardNameAt cpu 1700000000000 (24 * Hour).
Definition raced_key : gostr := PrimaryKey cpu (host_sample 1700000000000 (bs "a") (bs "v")) KeyContent.

(** The index a stored row carries under a key. *)
Definition stored_index (s : Store) (shard pk k : gostr) : option Value :=
  match (Get shard pk [] (s_db s)).1 with Ok (Some row) => row !! k | _ => None end.

(** for one run, a write that lands between the scan and the freeing is answered as
    accepted, and the freeing then takes its label value away: the stored
    row resolves to nothing, and after two more values have been interned it
    resolves to one it was never written with. *)
Example reclaim_races_write :
  wr_Accepted <$> (match raced_write.1 with Ok r => Some r | Err _ => None end) = Some 1 /\
  raced_free.1 = Ok 2 /\
  stored_index raced_free.2 raced_shard raced_key host = Some (VInt 0) /\
  labelValue raced_free.2 host 0 = None /\
  stored_index raced_later.2 raced_shard raced_key host = Some (VInt 0) /\
  labelValue raced_later.2 host 0 = Some (bs "d").
Proof. split_and!; vm_compute; reflexivity. Qed.

(** ** The field limit *)

Definition one_field : Config :=
  {| cf_Retention := 0; cf_Shard := 24 * Hour; cf_SetRetention := ∅; cf_SetShard := ∅; cf_RetentionSweep := 0; cf_MaxSeriesPerGraph := 1000; cf_MaxDataPointsReceived := 34560000; cf_MaxLabelCardinality := 100;
     cf_MaxLabelKeys := 10; cf_MaxSets := 10; cf_MaxFieldsPerSet := 1; cf_MaxBucketSetsPerSet := 1 |}.

Abbreviation over_limit :=
  (Write (one_batch [host_sample 1700000000000 (bs "a") (bs "v"); host_sample 1700000000000 (bs "a") (bs "w"); host_sample 1700000000000 (bs "a") (bs "x")])
     [] [] (store_on one_field demo_empty)).

(** the room for new fields is judged for each sample against the
    catalogue as the batch found it, which only learns of the batch's
    fields when it is committed; so one batch takes a set past
    [MaxFieldsPerSet] by as many fields as it has samples. *)
Theorem batch_passes_field_limit :
  wr_Accepted <$> (match over_limit.1 with Ok r => Some r | Err _ => None end) = Some 3 /\
  (fun e => Z.of_nat (size (se_Fields e))) <$> (s_catalogue over_limit.2 !! cpu) = Some 3 /\
  cf_MaxFieldsPerSet (s_cfg over_limit.2) = 1.
Proof. split_and!; vm_compute; reflexivity. Qed.
