(* ===== verification/StoreRetention.v ===== *)
(** * Retention ([internal/store/store.go])

    The sweep that drops the shards past their set's horizon, what it makes
    of the catalogue afterwards, the administrator's drop, and the store's
    own opening and closing. *)

From Stdlib Require Import ZArith Lia Bool Strings.Byte Strings.String.
From stdpp Require Import gmap sorting.
From S2P Require Import Prelude Bytes Float64 GoStd GoText Model Wire EngineKeys EngineCodec EngineDB EngineRep EngineInv.
From S2P Require Import EngineSchema EngineStore EngineQuery EngineScan EngineTrace Instances ExtractTimestamp StoreShard StoreState.
From S2P Require Import StoreDict StoreReclaim StoreDemo StoreCatalogue StoreWrite StoreWriteProofs.

(** A name cut at its last [@]: [strings.LastIndex] and what is on either
    side. *)
Fixpoint split_last_at (s : gostr) : option (gostr * gostr) :=
  match s with
  | [] => None
  | b :: s' =>
      match split_last_at s' with
      | Some (logical, suffix) => Some (b :: logical, suffix)
      | None => if byte_eqb b x40 then Some ([], s') else None
      end
  end.

(** The logical set of a shard and the suffix: none for a name without [@]
    or with nothing before it. *)
Definition shard_of_set (name : gostr) : option (gostr * gostr) :=
  match split_last_at name with
  | Some ([], _) => None
  | r => r
  end.

(** [now.Add(-retention).UnixMilli()], the instants in nanoseconds. *)
Definition horizon_ms (now retention : Z) : Z := (now - retention) / 1000000.

(** [start.Add(width).Before(now.Add(-retention))]. *)
Definition span_passed (now retention start width : Z) : bool := start * 1000000000 + width <? now - retention.

(** What a sweep has done so far. *)
Record sweep : Type := { sw_dropped : Z; sw_rowsDeleted : Z; sw_emptied : gset gostr }.
Definition empty_sweep : sweep := {| sw_dropped := 0; sw_rowsDeleted := 0; sw_emptied := ∅ |}.
Definition note_emptied (dropped rows : Z) (logical : gostr) (sw : sweep) : sweep :=
  {| sw_dropped := sw_dropped sw + dropped; sw_rowsDeleted := sw_rowsDeleted sw + rows; sw_emptied := {[logical]} ∪ sw_emptied sw |}.

Section Retention.
Context `{FloatText} `{J : MetaJSON} `{L : LSM} `{SJ : StoreJSON}.

(** [shardsFor]. *)
Definition shardsFor (s : Store) (set : gostr) (fromMs toMs : Z) : list gostr * bool :=
  shardsInRange set (Sets (s_db s)) fromMs toMs.

(** ** The sweep *)

(** One turn of the loop over the physical sets. *)
Definition sweep_shard (now : Z) (name : gostr) (sw : sweep) : SM sweep :=
  match shard_of_set name with
  | None => mret sw
  | Some (logical, suffix) =>
      s ← get_store;
      let retention := retentionFor s logical in
      if bytes_eqb suffix shardAll then
        if retention <=? 0 then mret sw
        else
          n ← engine (DeleteOlderThan name (horizon_ms now retention));
          mret (if n >? 0 then note_emptied 0 n logical sw else sw)
      else if retention <=? 0 then mret sw
      else
        match parseShardSuffix suffix with
        | None => mret sw
        | Some (start, width) =>
            if span_passed now retention start width then
              r ← engine_try (DropSet name);
              match r with
              | Ok _ => mret (note_emptied 1 0 logical sw)
              | Err ErrUnknownSet => mret (note_emptied 0 0 logical sw)
              | Err e => sfail (StEngine e)
              end
            else mret sw
        end
  end.

Fixpoint sweep_shards (now : Z) (names : list gostr) (sw : sweep) : SM sweep :=
  match names with
  | [] => mret sw
  | name :: names' => sw ← sweep_shard now name sw; sweep_shards now names' sw
  end.

(** The catalogue of one set that lost rows: its start raised to the oldest
    shard left, or its observed half forgotten with the last one. *)
Definition settle_set (st : Store * Z) (logical : gostr) : Store * Z :=
  let '(s, changed) := st in
  let '(s', b) :=
    match (shardsFor s logical i64_min i64_max).1 with
    | [] => forgetAgedSet logical s
    | live => raiseFirstSeen logical (oldestShardStartMs live) s
    end in
  (s', if b : bool then changed + 1 else changed).

(** [RunRetention]: how many shards were dropped.  What follows the sweep
    is logged when it fails. *)
Definition RunRetention (now : Z) : SM Z :=
  enterEngine ;;
  s ← get_store;
  sw ← sweep_shards now (Sets (s_db s)) empty_sweep;
  s ← get_store;
  let '(s, changed) := foldl settle_set (s, 0) (elements (sw_emptied sw)) in
  smodify (fun _ => s) ;;
  _ ← (if changed >? 0 then stry saveCatalogue else mret (Ok tt));
  _ ← (if (sw_dropped sw >? 0) || (sw_rowsDeleted sw >? 0) then stry reclaimDictionaries else mret (Ok 0));
  mret (sw_dropped sw).

(** ** The administrator's drop *)

Fixpoint drop_shards (shards : list gostr) (dropped : Z) : SM Z :=
  match shards with
  | [] => mret dropped
  | shard :: shards' =>
      r ← engine_try (DropSet shard);
      match r with
      | Ok _ => drop_shards shards' (dropped + 1)
      | Err ErrUnknownSet => drop_shards shards' dropped
      | Err e => sfail (StEngine e)
      end
  end.

Definition DropShards (name : gostr) : SM Z :=
  enterEngine ;;
  s ← get_store;
  drop_shards (shardsFor s name i64_min i64_max).1 0.

(** ** Opening and closing *)

(** [checkDurations]: the first setting that is negative. *)
Definition negative_duration (m : gmap gostr Z) : bool := existsb (fun kv => kv.2 <? 0) (map_to_list m).
Definition checkDurations (cfg : Config) : bool :=
  negb ((cf_Retention cfg <? 0) || (cf_Shard cfg <? 0) || (cf_RetentionSweep cfg <? 0)
        || negative_duration (cf_SetRetention cfg) || negative_duration (cf_SetShard cfg)).

(** The limits an operator left at zero take their defaults. *)
Definition with_defaults (cfg : Config) : Config :=
  {| cf_Retention := cf_Retention cfg;
     cf_Shard := if cf_Shard cfg <=? 0 then 24 * Hour else cf_Shard cfg;
     cf_SetRetention := cf_SetRetention cfg; cf_SetShard := cf_SetShard cfg; cf_RetentionSweep := cf_RetentionSweep cfg;
     cf_MaxSeriesPerGraph := cf_MaxSeriesPerGraph cfg; cf_MaxDataPointsReceived := cf_MaxDataPointsReceived cfg;
     cf_MaxLabelCardinality := cf_MaxLabelCardinality cfg;
     cf_MaxLabelKeys := if cf_MaxLabelKeys cfg =? 0 then 1000 else cf_MaxLabelKeys cfg;
     cf_MaxSets := if cf_MaxSets cfg =? 0 then 10000 else cf_MaxSets cfg;
     cf_MaxFieldsPerSet := if cf_MaxFieldsPerSet cfg =? 0 then 10000 else cf_MaxFieldsPerSet cfg;
     cf_MaxBucketSetsPerSet := if cf_MaxBucketSetsPerSet cfg =? 0 then 64 else cf_MaxBucketSetsPerSet cfg |}.

Definition new_store (cfg : Config) (d : DB) (now : Z) : Store :=
  {| s_cfg := cfg; s_db := d; s_catalogue := ∅; s_catVer := 0; s_conflicts := []; s_dict := ∅; s_setRetention := ∅; s_setShard := ∅;
     s_idem := {| ic_max := 100000; ic_ll := [] |}; s_closed := false; s_now := now; s_clock := [] |}.

(** [Open] on a directory that holds [k], from the checks of the durations
    on; an error closes the engine again. *)
Definition Store_Open (cfg : Config) (path : gostr) (k : kv) (faults : list bool) (now : Z) : option (result store_err unit * Store) :=
  if negb (checkDurations cfg) then None
  else
    let cfg := with_defaults cfg in
    let '(r, d) := EngineDB.Open path k faults in
    let s := new_store cfg d now in
    Some match r with
         | Err e => (Err (StEngine e), s)
         | Ok _ =>
             match (loadCatalogue ;; loadDictionaries) s with
             | (Ok _, s') => (Ok tt, s')
             | (Err e, s') => (Err e, (engine_try Close s').2)
             end
         end.

(** [Close], once: what runs is waited for by the caller. *)
Definition Store_Close : SM unit :=
  s ← get_store;
  if s_closed s then mret tt
  else
    smodify (s_set_closed true) ;;
    _ ← stry saveCatalogue;
    engine Close.

End Retention.

(** * What retention removes

    A sweep removes rows past their set's horizon and no other, in whole
    shards or, where a set is not sharded, row by row; and when it finishes
    it has removed them all. *)


(** ** Names *)

Lemma split_last_at_none s : x40 ∉ s -> split_last_at s = None.
Proof.
  induction s as [|b s IH]; intros Hs; [done|]. apply not_elem_of_cons in Hs as [Hb Hs]. cbn [split_last_at]. rewrite IH by done.
  destruct (byte_eqb b x40) eqn:E; [by apply byte_eqb_spec in E|done].
Qed.

Lemma split_last_at_app set suffix : x40 ∉ suffix -> split_last_at (set ++ at_sign ++ suffix) = Some (set, suffix).
Proof.
  intros Hs. induction set as [|b set IH]; cbn [app split_last_at].
  - change (at_sign ++ suffix) with (x40 :: suffix). cbn [split_last_at]. by rewrite split_last_at_none.
  - by rewrite IH.
Qed.

Lemma shard_of_set_app set suffix : set <> [] -> x40 ∉ suffix -> shard_of_set (set ++ at_sign ++ suffix) = Some (set, suffix).
Proof. intros Hset Hs. unfold shard_of_set. rewrite split_last_at_app by done. by destruct set. Qed.

(** What follows a set's name in a shard's. *)
Lemma shard_named ts w : 0 < ts <= MaxTSMs -> w < two63 -> exists suffix, (forall set, shardNameAt set ts w = set ++ at_sign ++ suffix) /\ x40 ∉ suffix.
Proof.
  intros Hts Hw. destruct (Z.le_gt_cases w 0) as [Hw0|Hw0].
  - exists shardAll. split; [|by apply shard_text_no_at]. intros set. unfold shardNameAt. by rewrite (proj2 (Z.leb_le w 0)).
  - destruct (shardNameAt_spec [] ts w Hts ltac:(lia)) as (suffix & start & width & Hn & _ & _ & _ & _ & Htext).
    exists suffix. split; [|by apply shard_text_no_at]. intros set. unfold shardNameAt in *. by apply app_inv_head, app_inv_head in Hn as ->.
Qed.

Lemma shard_set_inj set set' ts ts' w w' : 0 < ts <= MaxTSMs -> w < two63 -> 0 < ts' <= MaxTSMs -> w' < two63 ->
  shardNameAt set ts w = shardNameAt set' ts' w' -> set = set'.
Proof.
  intros Hts Hw Hts' Hw'. destruct (shard_named ts w Hts Hw) as (k & -> & Hk), (shard_named ts' w' Hts' Hw') as (k' & -> & Hk').
  intros Hsame%(f_equal split_last_at). rewrite !split_last_at_app in Hsame by done. by injection Hsame.
Qed.

Section Props.
Context `{FloatText} `{J : MetaJSON} `{!MetaJSONLaws J} `{L : LSM} `{!LSMLaws L} `{SJ : StoreJSON}.
Implicit Types (s : Store).

Abbreviation AStore := (gmap gostr Rows).

(** ** The rows, and which of them have aged out *)

Definition holds (A : AStore) (name pk : gostr) (row : Row) : Prop := exists R, A !! name = Some R /\ R !! pk = Some row.

(** Past the horizon of its set: for a shard with a span, when the whole
    span is; for an unsharded one, by the row's own timestamp. *)
Definition aged (s : Store) (now : Z) (name : gostr) (row : Row) : bool :=
  match shard_of_set name with
  | None => false
  | Some (logical, suffix) =>
      let retention := retentionFor s logical in
      if retention <=? 0 then false
      else if bytes_eqb suffix shardAll then older TimestampField (horizon_ms now retention) row
      else match parseShardSuffix suffix with
           | Some (start, width) => span_passed now retention start width
           | None => false
           end
  end.

(** The shards are indexed by the timestamp, or not at all. *)
Definition time_indexed (d : DB) : Prop :=
  forall name sm, d_sets d !! name = Some sm -> sm_Indexed sm = TimestampField \/ sm_Indexed sm = [].

(** Every row is in the shard of its timestamp. *)
Definition shelved (A : AStore) : Prop :=
  forall name pk row, holds A name pk row ->
    exists set ts w, name = shardNameAt set ts w /\ set <> [] /\ 0 < ts <= MaxTSMs /\ w < two63 /\ row_ts TimestampField row = Some ts.

(** ** A turn of the sweep *)

(** The state of a sweep of [s] that has been through [done]. *)
Record swept (s : Store) (now : Z) (A : AStore) (done : list gostr) (s' : Store) (A' : AStore) : Prop := {
  sd_store : s' = s_set_db (s_db s') s;
  sd_inv : db_inv (s_db s') A';
  sd_index : time_indexed (s_db s');
  sd_rest : forall n, n ∉ done -> A' !! n = A !! n;
  sd_done : forall n pk row, n ∈ done -> holds A' n pk row <-> holds A n pk row /\ aged s now n row = false;
}.

Lemma swept_retention s now A done s' A' logical : swept s now A done s' A' -> retentionFor s' logical = retentionFor s logical.
Proof. intros Hs. by rewrite (sd_store _ _ _ _ _ _ Hs). Qed.

(** A turn that leaves the engine alone, for a shard that keeps all. *)
Lemma swept_keep s now A done s' A' name : swept s now A done s' A' -> (forall row, aged s now name row = false) -> swept s now A (name :: done) s' A'.
Proof.
  intros [K1 K2 K3 K4 K5] Hkeep. constructor; [done..| |].
  - intros n [_ Hn]%not_elem_of_cons. by apply K4.
  - intros n pk row [-> | Hn]%elem_of_cons; [|by apply K5]. destruct (decide (name ∈ done)) as [Hin | Hout]; [by apply K5|].
    unfold holds. rewrite (K4 _ Hout). naive_solver.
Qed.

(** The engine's state changed, the rows of [name] alone with it. *)
Lemma swept_step s now A done s' A' name D A'' : name ∉ done -> swept s now A done s' A' ->
  db_inv D A'' -> time_indexed D -> (forall n, n <> name -> A'' !! n = A' !! n) ->
  (forall pk row, holds A'' name pk row <-> holds A' name pk row /\ aged s now name row = false) ->
  swept s now A (name :: done) (s_set_db D s') A''.
Proof.
  intros Hname [K1 K2 K3 K4 K5] Hi Ht Hrest Hrows. constructor; [by rewrite K1 | done | done | |].
  - intros n [Hne Hn]%not_elem_of_cons. rewrite Hrest by done. by apply K4.
  - intros n pk row [-> | Hn]%elem_of_cons.
    + rewrite Hrows. unfold holds. by rewrite (K4 _ Hname).
    + assert (Hne : n <> name) by (by intros ->). rewrite <- K5 by done. unfold holds. by rewrite Hrest.
Qed.

Lemma swept_fail s now A done s' A' D : swept s now A done s' A' -> db_inv D A' -> time_indexed D -> swept s now A done (s_set_db D s') A'.
Proof. intros [K1 K2 K3 K4 K5] Hi Ht. constructor; [by rewrite K1 | done..]. Qed.

Lemma time_indexed_sub (d d' : DB) : time_indexed d -> (forall n m, d_sets d' !! n = Some m -> d_sets d !! n = Some m) -> time_indexed d'.
Proof. intros Ht Hsub n m Hm. by apply (Ht n m), Hsub. Qed.

Lemma survivors_holds (A : AStore) name col ms R pk row : A !! name = Some R ->
  holds (<[name := survivors col ms R]> A) name pk row <-> holds A name pk row /\ older col ms row = false.
Proof.
  intros HR. unfold holds, survivors. setoid_rewrite lookup_insert_eq. rewrite HR. split.
  - intros (R' & [= <-] & Hr). apply map_lookup_filter_Some in Hr as [Hr Hold]. by split; [eexists|].
  - intros [(R' & [= <-] & Hr) Hold]. eexists. split; [done|]. by apply map_lookup_filter_Some.
Qed.

Lemma sweep_shard_spec s now A done s' A' name sw r s2 :
  name ∉ done -> (forall logical, in_i64 (horizon_ms now (retentionFor s logical))) -> swept s now A done s' A' ->
  sweep_shard now name sw s' = (r, s2) ->
  exists A2, swept s now A (match r with Ok _ => name :: done | Err _ => done end) s2 A2.
Proof.
  intros Hname Hms Hsw. unfold sweep_shard. pose proof (swept_keep s now A done s' A' name Hsw) as Hkeep. unfold aged in Hkeep.
  destruct (shard_of_set name) as [[logical suffix]|] eqn:Hsplit; [|unfold mret, SM_ret; intros [= <- <-]; eauto].
  unfold mbind, SM_bind, get_store, mret, SM_ret, sfail. rewrite (swept_retention _ _ _ _ _ _ logical Hsw).
  set (retention := retentionFor s logical) in *. pose proof Hsw as [K1 K2 K3 K4 K5].
  destruct (Z.leb_spec retention 0) as [Hoff | Hon]; [destruct (bytes_eqb suffix shardAll); intros [= <- <-]; eauto|].
  assert (Haged : forall row, aged s now name row = (if bytes_eqb suffix shardAll then older TimestampField (horizon_ms now retention) row
    else match parseShardSuffix suffix with Some (start, width) => span_passed now retention start width | None => false end)).
  { intros row. unfold aged. rewrite Hsplit. fold retention. by rewrite (proj2 (Z.leb_gt _ _)). }
  destruct (bytes_eqb suffix shardAll) eqn:Hall.
  - unfold engine. pose proof (DeleteOlderThan_wp name _ (s_db s') A' K2 (Hms logical)) as Hpost. fold retention in Hpost. unfold wp, sweep_post in Hpost.
    destruct (DeleteOlderThan name _ (s_db s')) as [rr D]. cbn [fst snd] in Hpost. destruct Hpost as (Hsets & _ & _ & _ & Hpost).
    assert (Ht : time_indexed D) by (intros n m; rewrite Hsets; apply K3). destruct rr as [n|e]; intros [= <- <-].
    + destruct Hpost as [(Hnone & _ & Hi) | (R & m & HR & Hm & _ & Hi)].
      * exists A'. apply (swept_step s now A done s' A'); [done.. |]. intros pk row. split; [|tauto]. intros (R & HR & _). congruence.
      * exists (<[name := survivors TimestampField (horizon_ms now retention) R]> A'). apply (swept_step s now A done s' A'); try done.
        -- unfold sweep_column in Hi. destruct (K3 _ _ Hm) as [E | E]; rewrite E in Hi; exact Hi.
        -- intros k Hk. by rewrite lookup_insert_ne.
        -- intros pk row. rewrite Haged. by apply survivors_holds.
    + exists A'. destruct Hpost as (Hi & _). by apply swept_fail.
  - destruct (parseShardSuffix suffix) as [[start width]|] eqn:Hparse; [|intros [= <- <-]; eauto].
    destruct (span_passed now retention start width) eqn:Hspan; [|intros [= <- <-]; eauto].
    unfold engine_try. pose proof (DropSet_wp name (s_db s') A' K2) as Hpost. unfold wp in Hpost.
    destruct (DropSet name (s_db s')) as [rr D]. cbn [fst snd] in Hpost. destruct Hpost as [Hpost _ _ _]. destruct rr as [[]|e].
    + destruct Hpost as (_ & _ & Hi & Hsets). intros [= <- <-]. exists (delete name A'). apply (swept_step s now A done s' A'); try done.
      * apply (time_indexed_sub (s_db s')); [done|]. intros n m. rewrite Hsets. by intros [_ ?]%lookup_delete_Some.
      * intros k Hk. by rewrite lookup_delete_ne.
      * intros pk row. rewrite Haged. unfold holds. rewrite lookup_delete_eq. naive_solver.
    + destruct Hpost as (Hi & _ & Hsets & Hwhy).
      assert (Ht : time_indexed D) by (apply (time_indexed_sub (s_db s')); [done|]; intros n m; by rewrite Hsets).
      assert (Hfail : swept s now A done (s_set_db D s') A') by (by apply swept_fail).
      destruct Hwhy as [[_ ->] | [[Hnone ->] | [_ ->]]]; intros [= <- <-]; [by exists A' | | by exists A'].
      exists A'. apply (swept_step s now A done s' A'); [done.. |]. intros pk row. split; [|tauto]. intros (R & HR & _). congruence.
Qed.

Lemma sweep_shards_spec s now A names : forall done s' A' sw r s2,
  NoDup names -> (forall n, n ∈ names -> n ∉ done) -> (forall logical, in_i64 (horizon_ms now (retentionFor s logical))) ->
  swept s now A done s' A' -> sweep_shards now names sw s' = (r, s2) ->
  exists A2 done2, swept s now A done2 s2 A2 /\
    match r with Ok _ => forall n, n ∈ names \/ n ∈ done -> n ∈ done2 | Err _ => True end.
Proof.
  induction names as [|name names IH]; intros done s' A' sw r s2 Hnd Hout Hms Hsw; cbn [sweep_shards].
  - unfold mret, SM_ret. intros [= <- <-]. exists A', done. split; [done|]. by intros n [?%elem_of_nil | ?].
  - apply NoDup_cons in Hnd as [Hname Hnd]. unfold mbind, SM_bind.
    assert (Hnew : name ∉ done) by (apply Hout; by left).
    destruct (sweep_shard now name sw s') as [[sw1|e] s1] eqn:E;
      destruct (sweep_shard_spec _ _ _ _ _ _ _ _ _ _ Hnew Hms Hsw E) as [A1 Hsw1]; [|intros [= <- <-]; by exists A1, done].
    intros Hrest. destruct (IH (name :: done) s1 A1 sw1 r s2) as (A2 & done2 & H2 & Hr); [done | | done | done | done |].
    { intros n Hn [-> | Hd]%elem_of_cons; [done|]. apply (Hout n); [by right | done]. }
    exists A2, done2. split; [done|]. destruct r; [|done]. intros n [[-> | Hn]%elem_of_cons | Hn]; apply Hr; [right; by left | by left | right; by right].
Qed.

(** ** What follows the sweep touches no row *)

Definition same_rows (s s' : Store) : Prop := forall A, db_inv (s_db s) A -> db_inv (s_db s') A.
#[local] Instance same_rows_preorder : PreOrder same_rows.
Proof. split; [by intros s A|]. intros s1 s2 s3 H12 H23 A Hi. by apply H23, H12. Qed.
Abbreviation rows_stay := (respects same_rows).

Lemma stay_modify f : (forall s, s_db (f s) = s_db s) -> rows_stay (smodify f).
Proof. intros Hf s A Hi. cbn. by rewrite Hf. Qed.
Lemma stay_engine {X} (m : M X) : (forall D A, db_inv D A -> db_inv (m D).2 A) -> rows_stay (engine m).
Proof. intros Hm. apply respects_engine. intros s A. apply Hm. Qed.

Lemma put_dict_stays name v : rows_stay (engine (PutDict name v)).
Proof. apply stay_engine. intros D A Hi. by destruct (dict_write_wp (BSet (dictKey name) v) name D A Hi) as (I & _); [left; by exists v|]. Qed.
Lemma delete_dict_stays name : rows_stay (engine (DeleteDict name)).
Proof. apply stay_engine. intros D A Hi. by destruct (dict_write_wp (BDelete (dictKey name)) name D A Hi) as (I & _); [by right|]. Qed.
Lemma get_dict_stays name : rows_stay (engine (GetDict name)).
Proof.
  apply stay_engine. intros D A Hi. unfold GetDict, guard_open, pdb_Get, mbind, M_bind, get_db, fail, mret, M_ret, pebble_call.
  destruct (d_closed D); [done|]. destruct (d_faults D) as [|[] f] eqn:E; rewrite ?E; try done;
    (destruct (kv_get _ _); [|done]; cbn [d_faults set_faults]; rewrite ?E; try destruct f as [|[] f]; exact Hi).
Qed.

Ltac stay_step := first [respects_step | apply put_dict_stays | apply delete_dict_stays | apply get_dict_stays | by apply stay_modify].

Lemma save_stays : rows_stay saveCatalogue.
Proof. unfold saveCatalogue. stay_step; [stay_step|]. destruct (cat_Marshal _ _ _); stay_step. Qed.

Lemma scan_stays keys used shards : keys <> [] -> rows_stay (scan_shards keys used shards).
Proof.
  intros Hk s A Hi. destruct (scan_shards keys used shards s) as [r s'] eqn:E.
  destruct (scan_shards_spec _ _ _ _ _ _ _ Hk Hi E) as (Hr & _). by apply (reads_inv _ _ _ Hr).
Qed.

Lemma free_values_stays label used es : forall i, rows_stay (free_values label used i es).
Proof.
  induction es as [|e es IH]; intros i; cbn [free_values]; [stay_step|]. destruct (_ || _); [apply IH|]. repeat (first [apply IH | stay_step]).
Qed.

Lemma free_label_stays used label : rows_stay (free_label used label).
Proof.
  unfold free_label. stay_step; [stay_step|]. destruct (s_dict a !! label); [|stay_step]. stay_step; [apply free_values_stays|].
  break_if; [stay_step|]. stay_step; [stay_step|]. stay_step; [|stay_step]. unfold rewrite_packed. stay_step; [stay_step|]. stay_step; [stay_step|].
  destruct a3 as [raw|]; [|stay_step]. destruct (dict_Unmarshal raw) as [[|p packed]|]; [stay_step | | stay_step].
  destruct (dict_Marshal _); stay_step.
Qed.

Lemma free_labels_stays used labels : rows_stay (free_labels used labels).
Proof. induction labels as [|l labels IH]; cbn [free_labels]; repeat (first [apply IH | apply free_label_stays | stay_step]). Qed.

Lemma reclaim_stays : rows_stay reclaimDictionaries.
Proof.
  unfold reclaimDictionaries. stay_step; [stay_step|]. stay_step; [stay_step|]. destruct (map_to_list (s_dict a0)).*1 as [|k keys]; [stay_step|].
  stay_step; [unfold reclaim_scan; stay_step; [stay_step | by apply scan_stays]|]. unfold reclaim_free. stay_step; [stay_step | apply free_labels_stays].
Qed.

Lemma forget_db name s : s_db (forgetAgedSet name s).1 = s_db s.
Proof. unfold forgetAgedSet. destruct (s_catalogue s !! name); [|done]. destruct (nothing_declared _); [done|]. cbn. by destruct (anything_observed _). Qed.
Lemma raise_db name ms s : s_db (raiseFirstSeen name ms s).1 = s_db s.
Proof. unfold raiseFirstSeen. break_if; [done|]. destruct (s_catalogue s !! name); [|done]. by break_if. Qed.

Lemma settle_db l : forall s n, s_db (foldl settle_set (s, n) l).1 = s_db s.
Proof.
  induction l as [|name l IH]; intros s n; [done|]. cbn [foldl].
  assert (Hone : s_db (settle_set (s, n) name).1 = s_db s).
  { unfold settle_set. pose proof (forget_db name s) as Hf. pose proof (fun ms => raise_db name ms s) as Hr.
    destruct (shardsFor s name i64_min i64_max).1 as [|x live]; [by destruct (forgetAgedSet name s)|].
    specialize (Hr (oldestShardStartMs (x :: live))). by destruct (raiseFirstSeen _ _ _). }
  destruct (settle_set (s, n) name) as [s1 n1]. by rewrite IH.
Qed.

(** ** The whole of it *)

Lemma Sets_nodup (d : DB) : NoDup (Sets d).
Proof. unfold Sets, sort_strings. rewrite (merge_sort_Permutation _ _). apply NoDup_fst_map_to_list. Qed.

Lemma in_Sets (d : DB) A name R : db_inv d A -> A !! name = Some R -> name ∈ Sets d.
Proof.
  intros Hi HR. destruct (proj2 (inv_dom _ _ _ _ _ Hi name) ltac:(by eexists)) as [m Hm].
  unfold Sets, sort_strings. rewrite (merge_sort_Permutation _ _). apply list_elem_of_fmap. exists (name, m). split; [done|]. by apply elem_of_map_to_list.
Qed.

(** A row that has aged out is older than its set's retention. *)
Lemma aged_old s now A name pk row : shelved A -> holds A name pk row -> aged s now name row = true ->
  exists set ts suffix, name = set ++ at_sign ++ suffix /\ row_ts TimestampField row = Some ts /\
    0 < retentionFor s set /\ ts * 1000000 < now - retentionFor s set.
Proof.
  intros Hs Hrow Haged. destruct (Hs _ _ _ Hrow) as (set & ts & w & -> & Hset & Hts & Hw & Hval). exists set, ts.
  destruct (Z.le_gt_cases w 0) as [Hall | Hpos].
  - unfold shardNameAt in Haged |- *. rewrite (proj2 (Z.leb_le w 0)) in Haged |- * by done. unfold aged in Haged.
    rewrite shard_of_set_app in Haged; [|done | by apply shard_text_no_at].
    destruct (Z.leb_spec (retentionFor s set) 0) as [|Hon]; [done|]. rewrite bytes_eqb_refl in Haged. unfold older in Haged. rewrite Hval in Haged.
    apply Z.ltb_lt in Haged. unfold horizon_ms in Haged. exists shardAll. split_and!; [done.. |]. pose proof (Z.mul_div_le (now - retentionFor s set) 1000000 ltac:(lia)). lia.
  - destruct (shardNameAt_spec set ts w Hts ltac:(lia)) as (suffix & start & width & Hname & Hnot & Hparse & [_ Hin] & _ & Htext).
    rewrite Hname in Haged |- *. unfold aged in Haged. rewrite shard_of_set_app in Haged; [|done | by apply shard_text_no_at].
    destruct (Z.leb_spec (retentionFor s set) 0) as [|Hon]; [done|]. rewrite Hnot, Hparse in Haged. unfold span_passed in Haged. apply Z.ltb_lt in Haged.
    unfold end_ms in Hin. exists suffix. split_and!; [done.. |]. pose proof (Z.mul_div_le (start * 1000000000 + width) 1000000 ltac:(lia)). lia.
Qed.

(** From [A] to [A'] nothing is invented, and what has gone is older than
    the retention of its set. *)
Definition only_old_gone (s : Store) (now : Z) (A A' : AStore) : Prop :=
  (forall name pk row, holds A' name pk row -> holds A name pk row) /\
  (forall name pk row, holds A name pk row -> ~ holds A' name pk row ->
     exists set ts suffix, name = set ++ at_sign ++ suffix /\ row_ts TimestampField row = Some ts /\
       0 < retentionFor s set /\ ts * 1000000 < now - retentionFor s set).

Lemma swept_old s now A done s2 A2 : shelved A -> swept s now A done s2 A2 -> only_old_gone s now A A2.
Proof.
  intros Hs [_ _ _ Hrest Hdone]. split.
  - intros name pk row. destruct (decide (name ∈ done)) as [Hin | Hout]; [by rewrite Hdone by done; intros [? _]|].
    unfold holds. by rewrite Hrest.
  - intros name pk row Hrow Hgone. eapply aged_old; [done | done |]. destruct (decide (name ∈ done)) as [Hin | Hout].
    + destruct (aged s now name row) eqn:E; [done|]. exfalso. apply Hgone, Hdone; done.
    + exfalso. apply Hgone. unfold holds. by rewrite Hrest.
Qed.

Lemma swept_all s now A done s2 A2 : db_inv (s_db s) A -> swept s now A done s2 A2 -> (forall n, n ∈ Sets (s_db s) -> n ∈ done) ->
  forall name pk row, holds A2 name pk row -> aged s now name row = false.
Proof.
  intros Hi [_ _ _ Hrest Hdone] Hall name pk row Hrow. destruct (decide (name ∈ done)) as [Hin | Hout]; [by apply Hdone in Hrow as [_ ?]|].
  destruct Hrow as (R & HR & _). rewrite Hrest in HR by done. exfalso. apply Hout, Hall. by eapply in_Sets.
Qed.

(** C34: a retention sweep, however it ends, invents no row, and every row it
    removes is older than the retention of its set; and one that returns
    has removed every row whose shard has wholly passed the horizon, and
    from an unsharded shard every row before it. *)
Theorem retention_exact (s s' : Store) (A : AStore) (now : Z) (r : result store_err Z) :
  db_inv (s_db s) A -> time_indexed (s_db s) -> shelved A -> (forall set, in_i64 (horizon_ms now (retentionFor s set))) ->
  RunRetention now s = (r, s') ->
  exists A', db_inv (s_db s') A' /\ only_old_gone s now A A' /\
    match r with
    | Ok _ => forall name pk row, holds A' name pk row -> aged s now name row = false
    | Err _ => True
    end.
Proof.
  intros Hinv Htime Hshelved Hms.
  assert (Hstart : swept s now A [] s A).
  { constructor; [by destruct s | done | done | done | by intros n pk row ?%elem_of_nil]. }
  unfold RunRetention. unfold mbind at 1, SM_bind at 1, enterEngine, mbind at 1, SM_bind at 1, get_store at 1.
  destruct (s_closed s); [unfold sfail; intros [= <- <-]; exists A; split_and!; [done | by eapply swept_old | done]|]. unfold mret at 1, SM_ret at 1.
  unfold mbind at 1, SM_bind at 1, get_store at 1. unfold mbind at 1, SM_bind at 1.
  assert (Hnone : forall n, n ∈ Sets (s_db s) -> n ∉ []) by (intros n _ Hn; by apply elem_of_nil in Hn).
  destruct (sweep_shards now (Sets (s_db s)) empty_sweep s) as [[sw|e] s1] eqn:Hsweep;
    destruct (sweep_shards_spec _ _ _ _ _ _ _ _ _ _ (Sets_nodup _) Hnone Hms Hstart Hsweep) as (A1 & done1 & Hs1 & Hdone1);
    pose proof (sd_inv _ _ _ _ _ _ Hs1) as Hi1.
  2: { intros [= <- <-]. exists A1. split_and!; [done | by eapply swept_old | done]. }
  unfold mbind at 1, SM_bind at 1, get_store at 1.
  pose proof (settle_db (elements (sw_emptied sw)) s1 0) as Hdb. destruct (foldl settle_set (s1, 0) _) as [s2 changed]. cbn [fst] in Hdb.
  unfold mbind at 1, SM_bind at 1, smodify at 1. set (tail := mbind _ _). intros Hrun.
  assert (Hstay : rows_stay tail).
  { unfold tail. stay_step; [break_if; [apply respects_try, save_stays | stay_step]|].
    stay_step; [break_if; [apply respects_try, reclaim_stays | stay_step] | stay_step]. }
  specialize (Hstay s2 A1 ltac:(by rewrite Hdb)). rewrite Hrun in Hstay. cbn [snd] in Hstay.
  exists A1. split_and!; [done | by eapply swept_old |]. destruct r; [|done]. eapply swept_all; [done | done |]. intros n Hn. apply Hdone1. by left.
Qed.
End Props.

(** ** Witness: a day of rows, two months later *)

Definition old_ts : Z := 1700000000000.
Definition two_months_later : Z := old_ts * 1000000 + 60 * 24 * Hour.
Definition old_shard : gostr := shardNameAt (bs "cpu") old_ts (24 * Hour).
Definition old_rec : Record_ := {| rec_Key := demo_pk; rec_Row := demo_row old_ts |}.
Definition shelf : DB := (PutBatch old_shard [old_rec] demo_empty).2.
Definition shelf_rows : gmap gostr Rows := {[old_shard := {[demo_pk := demo_row old_ts]}]}.
Definition full_shelf : Store := store_on demo_config shelf.

Lemma old_rec_ok : rec_ok old_rec.
Proof.
  split; [done|]. split; [apply demo_row_storable; vm_compute; by split|].
  intros k v. cbn [rec_Row old_rec]. unfold demo_row. rewrite lookup_insert, lookup_singleton.
  repeat case_decide; [..|done]; by subst k.
Qed.

Lemma shelf_inv : db_inv shelf shelf_rows.
Proof.
  assert ((PutBatch old_shard [old_rec] demo_empty).1 = Ok tt) as E by (vm_compute; reflexivity).
  destruct (PutBatch_wp old_shard [old_rec] demo_empty ∅) as [Hi _ _ _ _ _].
  - apply demo_empty_inv.
  - by vm_compute.
  - constructor; [apply old_rec_ok | done].
  - rewrite demo_empty_next. mlia.
  - intros idx _ pk r r0 _ Hin%list_elem_of_singleton [H0|H0%list_elem_of_singleton].
    + unfold rows_of in H0. rewrite lookup_empty in H0. done.
    + by injection Hin as -> ->; injection H0 as ->.
  - rewrite E in Hi. exact Hi.
Qed.

Lemma shelf_indexed : time_indexed shelf.
Proof.
  assert (Hall : map_Forall (fun _ sm => sm_Indexed sm = TimestampField \/ sm_Indexed sm = []) (d_sets shelf)); [|exact Hall].
  refine (bool_decide_unpack _ _). by vm_compute.
Qed.

Lemma shelf_shelved : shelved shelf_rows.
Proof.
  intros name pk row (R & HR & Hr). unfold shelf_rows in HR. apply lookup_singleton_Some in HR as [<- <-]. apply lookup_singleton_Some in Hr as [<- <-].
  exists (bs "cpu"), old_ts, (24 * Hour). split_and!; [done | done | by vm_compute .. ].
Qed.

Lemma full_shelf_retention set : retentionFor full_shelf set = 30 * 24 * Hour.
Proof.
  unfold retentionFor. change (s_setRetention full_shelf) with (∅ : gmap gostr Z). change (cf_SetRetention (s_cfg full_shelf)) with (∅ : gmap gostr Z).
  rewrite !lookup_empty. reflexivity.
Qed.

Lemma retention_exact_witness :
  exists s' A', RunRetention two_months_later full_shelf = (Ok 1, s') /\ db_inv (s_db s') A' /\
    holds shelf_rows old_shard demo_pk (demo_row old_ts) /\ ~ holds A' old_shard demo_pk (demo_row old_ts).
Proof.
  assert (Hrun : (RunRetention two_months_later full_shelf).1 = Ok 1) by (vm_compute; reflexivity). apply run_result in Hrun.
  destruct (retention_exact full_shelf (RunRetention two_months_later full_shelf).2 shelf_rows two_months_later (Ok 1)) as (A' & Hinv & _ & Hgone).
  - unfold full_shelf. rewrite store_on_db. apply shelf_inv.
  - unfold full_shelf. rewrite store_on_db. apply shelf_indexed.
  - apply shelf_shelved.
  - intros set. rewrite full_shelf_retention. vm_compute. by split.
  - exact Hrun.
  - exists (RunRetention two_months_later full_shelf).2, A'. split; [exact Hrun|]. split; [exact Hinv|]. split.
    + exists {[demo_pk := demo_row old_ts]}. split; apply lookup_singleton_eq.
    + intros Hrow. specialize (Hgone _ _ _ Hrow).
      assert (Hag : aged full_shelf two_months_later old_shard (demo_row old_ts) = true) by (vm_compute; reflexivity). congruence.
Defined.

(** ** A sweep that stops half-way *)

Abbreviation two_sets := (Write {| rq_Batches := [{| b_Set := bs "cpu"; b_Samples := [{| TSMs := old_ts; SubUS := 0; Labels := ∅; Fields := {[bs "v" := VInt 1]}; KeyHint := [] |}] |};
    {| b_Set := bs "mem"; b_Samples := [{| TSMs := old_ts; SubUS := 0; Labels := ∅; Fields := {[bs "v" := VInt 1]}; KeyHint := [] |}] |}]; rq_FieldMeta := []; rq_SetMeta := [] |}
   [] [] empty_store).

Abbreviation halted_sweep := (RunRetention two_months_later (with_faults [false; false; false; false; true] two_sets.2)).
Abbreviation next_sweep := (RunRetention two_months_later (with_faults [] halted_sweep.2)).

(** a sweep that fails at one shard returns before it has looked at the
    catalogue of the sets it emptied before that one; no later sweep sees
    those sets again, so the catalogue advertises a set, its fields and its
    time range, for which there is no shard left. *)
Theorem halted_sweep_advertises :
  halted_sweep.1 = Err (StEngine ErrPebble) /\ next_sweep.1 = Ok 1 /\
  Sets (s_db next_sweep.2) = [] /\ Store_Sets next_sweep.2 = [bs "cpu"] /\
  se_FirstTSMs <$> s_catalogue next_sweep.2 !! bs "cpu" = Some old_ts.
Proof. split_and!; vm_compute; reflexivity. Qed.
