(* ===== verification/StoreNamespace.v ===== *)
(** * A column is a label or a field, never both

    Labels and fields of a set share its columns.  What the catalogue has
    observed of a set never carries one name as both, in any state the
    store's operations reach. *)

From Stdlib Require Import ZArith Lia Bool Relations.
From Stdlib Require Import Strings.Byte Strings.String.
From stdpp Require Import gmap.
From S2P Require Import Prelude Bytes Float64 GoStd GoText Model Wire EngineKeys EngineCodec EngineDB EngineQuery Instances.
From S2P Require Import StoreShard StoreState StoreDict StoreReclaim StoreDemo StoreCatalogue StoreWrite StoreWriteProofs StoreRetention.

(** ** One entry *)

Definition apart (e : setEntry) : Prop := forall k, k ∈ se_Labels e -> fieldObserved e k = false.

(** The kinds a request has given to names agree with the entry. *)
Record agreed (kinds : gmap gostr bool) (e : setEntry) : Prop := {
  ag_label : forall k, kinds !! k = Some true -> fieldObserved e k = false;
  ag_field : forall k, kinds !! k = Some false -> k ∉ se_Labels e;
}.

(** A sample whose names have the kinds it gives them. *)
Record classed (kinds : gmap gostr bool) (sm : Sample) : Prop := {
  cl_labels : forall k, k ∈ label_keys sm -> kinds !! k = Some true;
  cl_fields : forall k, k ∈ field_keys sm -> kinds !! k = Some false;
}.

(** What observing can add to an entry. *)
Record seen (sm : Sample) (e e' : setEntry) : Prop := {
  sn_labels : forall k, k ∈ se_Labels e' -> k ∈ se_Labels e \/ k ∈ label_keys sm;
  sn_fields : forall k, fieldObserved e' k = true -> fieldObserved e k = true \/ k ∈ field_keys sm;
}.


Lemma fold_see_label l : forall (st : setEntry * bool), let e' := (foldl see_label st l).1 in
  (forall k, k ∈ se_Labels e' -> k ∈ se_Labels st.1 \/ k ∈ l) /\ se_Fields e' = se_Fields st.1.
Proof.
  induction l as [|x l IH]; intros [e c]; cbn [foldl]; [split; [by left | done]|].
  destruct (IH (see_label (e, c) x)) as [Hl Hf]. unfold see_label in *. destruct (bool_decide (x ∈ se_Labels e)).
  - split; [|done]. intros k Hk. destruct (Hl k Hk) as [? | ?]; [by left | right; by right].
  - cbn [fst se_Labels se_set_Labels se_Fields] in *. split; [|done].
    intros k Hk. destruct (Hl k Hk) as [Hx%elem_of_union | ?]; [|right; by right].
    destruct Hx as [->%elem_of_singleton | ?]; [right; by left | by left].
Qed.

Lemma fold_see_field now l : forall (st : setEntry * bool), let e' := (foldl (see_field now) st l).1 in
  (forall k, fieldObserved e' k = true -> fieldObserved st.1 k = true \/ k ∈ l) /\ se_Labels e' = se_Labels st.1.
Proof.
  induction l as [|x l IH]; intros [e c]; cbn [foldl]; [split; [by left | done]|].
  destruct (IH (see_field now (e, c) x)) as [Hf Hl].
  assert (Hone : se_Labels (see_field now (e, c) x).1 = se_Labels e /\
            forall k, k <> x -> fieldObserved (see_field now (e, c) x).1 k = fieldObserved e k).
  { unfold see_field, fieldObserved. destruct (se_Fields e !! x); cbn [fst se_Labels se_Fields se_set_Fields];
      (split; [done|]; intros k Hk; by rewrite lookup_insert_ne by congruence). }
  destruct Hone as [Hl1 Hf1]. rewrite Hl1 in Hl. split; [|done]. intros k Hk. destruct (Hf k Hk) as [Hk1 | ?]; [|right; by right].
  destruct (decide (k = x)) as [-> | Hne]; [right; by left|]. left. by rewrite <- Hf1.
Qed.

Lemma observe_sample_seen now st sm : seen sm st.1 (observe_sample now st sm).1.
Proof.
  destruct st as [e c]. unfold observe_sample. cbn [fst snd].
  assert (Hts : se_Labels (se_observe_ts (TSMs sm) e) = se_Labels e /\ se_Fields (se_observe_ts (TSMs sm) e) = se_Fields e).
  { unfold se_observe_ts. by repeat break_if. }
  destruct Hts as [Hl0 Hf0].
  destruct (fold_see_label (label_keys sm) (se_observe_ts (TSMs sm) e, c)) as [Hl1 Hf1].
  destruct (fold_see_field now (field_keys sm) (foldl see_label (se_observe_ts (TSMs sm) e, c) (label_keys sm))) as [Hf2 Hl2].
  cbn [fst] in *. split.
  - intros k. rewrite Hl2. intros Hk. rewrite <- Hl0. by apply Hl1.
  - intros k Hk. destruct (Hf2 k Hk) as [Hk' | ?]; [left | by right]. unfold fieldObserved in *. by rewrite Hf1, Hf0 in Hk'.
Qed.

Lemma seen_apart kinds sm e e' : apart e -> agreed kinds e -> classed kinds sm -> seen sm e e' -> apart e' /\ agreed kinds e'.
Proof.
  intros Ha [K1 K2] [C1 C2] [S1 S2]. split; [|split].
  - intros k Hk. destruct (fieldObserved e' k) eqn:Ho; [exfalso|done].
    destruct (S1 k Hk) as [Hl | Hl], (S2 k Ho) as [Hf | Hf].
    + by rewrite (Ha k Hl) in Hf.
    + by apply (K2 k (C2 k Hf)).
    + by rewrite (K1 k (C1 k Hl)) in Hf.
    + pose proof (C1 k Hl). pose proof (C2 k Hf). congruence.
  - intros k Hk. destruct (fieldObserved e' k) eqn:Ho; [exfalso|done]. destruct (S2 k Ho) as [Hf | Hf].
    + by rewrite (K1 k Hk) in Hf.
    + pose proof (C2 k Hf). congruence.
  - intros k Hk Hl. destruct (S1 k Hl) as [? | Hl']; [by apply (K2 k Hk)|]. pose proof (C1 k Hl'). congruence.
Qed.

Lemma observe_apart kinds now samples : forall st, apart st.1 -> agreed kinds st.1 -> Forall (classed kinds) samples ->
  apart (foldl (observe_sample now) st samples).1 /\ agreed kinds (foldl (observe_sample now) st samples).1.
Proof.
  induction samples as [|sm samples IH]; intros st Ha Hk Hc; [done|]. cbn [foldl]. apply Forall_cons in Hc as [Hsm Hc].
  destruct (seen_apart kinds sm _ _ Ha Hk Hsm (observe_sample_seen now st sm)). by apply IH.
Qed.

Section Namespace.
Context `{FloatText} `{XXH3} `{J : MetaJSON} `{L : LSM} `{SJ : StoreJSON} `{ErrorText}.
Implicit Types (s : Store) (set : gostr).

(** ** The catalogue *)

Definition namespace_ok s : Prop := forall set, apart (entryLocked set s).

(** From [s] to [s'] nothing has been observed that was not. *)
Definition unseen s s' : Prop := forall set,
  se_Labels (entryLocked set s') ⊆ se_Labels (entryLocked set s) /\
  forall k, fieldObserved (entryLocked set s') k = true -> fieldObserved (entryLocked set s) k = true.

#[local] Instance unseen_preorder : PreOrder unseen.
Proof.
  split; [by intros s set|]. intros s1 s2 s3 H12 H23 set. destruct (H12 set) as [L12 F12], (H23 set) as [L23 F23].
  split; [by transitivity (se_Labels (entryLocked set s2)) | auto].
Qed.

Lemma unseen_same s s' : s_catalogue s' = s_catalogue s -> unseen s s'.
Proof. intros E set. unfold entryLocked. by rewrite E. Qed.

Lemma unseen_apart s s' : unseen s s' -> namespace_ok s -> namespace_ok s'.
Proof.
  intros Hu Hok set k Hk. destruct (Hu set) as [Hl Hf]. destruct (fieldObserved (entryLocked set s') k) eqn:E; [|done].
  specialize (Hf k E). rewrite (Hok set k) in Hf; [done | by apply Hl].
Qed.

Lemma unseen_agreed s s' set kinds : unseen s s' -> agreed kinds (entryLocked set s) -> agreed kinds (entryLocked set s').
Proof.
  intros Hu [K1 K2]. destruct (Hu set) as [Hl Hf]. split.
  - intros k Hk. destruct (fieldObserved (entryLocked set s') k) eqn:E; [|done]. specialize (Hf k E). by rewrite (K1 k Hk) in Hf.
  - intros k Hk Hin. by apply (K2 k Hk), Hl.
Qed.

Lemma entry_set set n e s : entryLocked n (set_entry set e s) = if decide (n = set) then e else entryLocked n s.
Proof.
  unfold entryLocked, set_entry. cbn [s_catalogue s_set_catalogue]. case_decide as Hn; [subst; by rewrite lookup_insert_eq|].
  by rewrite lookup_insert_ne by congruence.
Qed.

(** One entry replaced by one with no more observed. *)
Lemma unseen_set_entry set e s s' :
  s_catalogue s' = s_catalogue (set_entry set e s) -> se_Labels e ⊆ se_Labels (entryLocked set s) ->
  (forall k, fieldObserved e k = true -> fieldObserved (entryLocked set s) k = true) -> unseen s s'.
Proof.
  intros E Hl Hf n. assert (En : entryLocked n s' = entryLocked n (set_entry set e s)) by (unfold entryLocked at 1; by rewrite E).
  rewrite En, entry_set. by case_decide as Hn; [subst n|].
Qed.

Lemma unseen_put set e s s1 : s_catalogue s1 = s_catalogue s -> se_Labels e = se_Labels (entryLocked set s) ->
  se_Fields e = se_Fields (entryLocked set s) -> unseen s (set_entry set e s1).
Proof.
  intros E Hl Hf. apply (unseen_set_entry set e s); [unfold set_entry; cbn; by rewrite E | by rewrite Hl |].
  intros k. unfold fieldObserved. by rewrite Hf.
Qed.

Abbreviation quiet_on_catalogue := (respects unseen).

Lemma quiet_modify f : (forall s, s_catalogue (f s) = s_catalogue s) -> quiet_on_catalogue (smodify f).
Proof. intros Hf. apply respects_modify. intros s. by apply unseen_same. Qed.
Lemma quiet_engine {A} (m : M A) : quiet_on_catalogue (engine m) /\ quiet_on_catalogue (engine_try m).
Proof. apply respects_engine. intros s. by apply unseen_same. Qed.
Lemma quiet_now : quiet_on_catalogue time_Now.
Proof. intros s. apply unseen_same. unfold time_Now. by destruct (s_clock s). Qed.

Ltac quiet_step := first [respects_step | apply quiet_engine | apply quiet_now | (apply quiet_modify; intros ?; done)].

Lemma quiet_intern key value : quiet_on_catalogue (intern key value).
Proof.
  assert (Hlocked : forall fresh d, quiet_on_catalogue (intern_locked key value fresh d)).
  { intros fresh d. unfold intern_locked. quiet_step; [quiet_step|]. destruct (index d !! value); [quiet_step|]. break_if; [quiet_step|].
    destruct (takeHole d) as [hole d']. repeat quiet_step. destruct a1 as [[]|e]; repeat quiet_step. apply quiet_modify. intros s. by destruct hole, fresh. }
  unfold intern. quiet_step; [quiet_step|]. destruct (s_dict a !! key) as [d|].
  - destruct (index d !! value); [quiet_step | apply Hlocked].
  - break_if; [quiet_step|]. quiet_step; [quiet_step | apply Hlocked].
Qed.

Lemma quiet_intern_labels l : forall row, quiet_on_catalogue (intern_labels l row).
Proof. induction l as [|[k v] l IH]; intros row; cbn [intern_labels]; [quiet_step|]. quiet_step; [apply quiet_intern | apply IH]. Qed.

Lemma quiet_rowFor set sm kinds : quiet_on_catalogue (rowFor set sm kinds).
Proof. unfold rowFor. repeat (first [apply quiet_intern_labels | quiet_step]). Qed.

(** ** Declarations observe nothing *)

Lemma unseen_fold {X} (f : Store -> X -> Store) l : (forall s x, unseen s (f s x)) -> forall s, unseen s (foldl f s l).
Proof. intros Hf. induction l as [|x l IH]; intros s; [done|]. cbn [foldl]. etransitivity; [apply Hf | apply IH]. Qed.

Lemma unseen_bump s s' : unseen s s' -> unseen s (bump s').
Proof. intros Hu. etransitivity; [exact Hu | by apply unseen_same]. Qed.

Lemma unseen_field_meta st m : unseen st.1 (apply_field_meta st m).1.
Proof.
  destruct st as [s c]. unfold apply_field_meta. destruct (unnamed m); [done|]. cbn [fst snd].
  set (e := entryLocked (fm_Set m) s). set (before := default new_field (se_Fields e !! fm_Field m)).
  set (s1 := if _ && _ && _ && _ then _ else s). assert (Hs1 : s_catalogue s1 = s_catalogue s) by (unfold s1; by break_if).
  set (e1 := se_set_Fields (<[fm_Field m := declared m before]> (se_Fields e)) e).
  assert (He1 : se_Labels e1 = se_Labels e /\ forall k, fieldObserved e1 k = true -> fieldObserved e k = true).
  { split; [done|]. intros k. unfold e1, fieldObserved. cbn [se_Fields se_set_Fields]. destruct (decide (k = fm_Field m)) as [-> | Hne].
    - rewrite lookup_insert_eq. unfold before. destruct (se_Fields e !! fm_Field m); done.
    - by rewrite lookup_insert_ne by congruence. }
  assert (Hput : forall e', se_Labels e' = se_Labels e1 -> se_Fields e' = se_Fields e1 -> unseen s (set_entry (fm_Set m) e' s1)).
  { intros e' Hl Hf. apply (unseen_set_entry (fm_Set m) e' s); [unfold set_entry; cbn; by rewrite Hs1 | |].
    - rewrite Hl. by destruct He1 as [-> _].
    - intros k Hk. apply He1. unfold fieldObserved in *. by rewrite Hf in Hk. }
  destruct (bytes_eqb (fm_BucketSet m) []); [|destruct (bucketSetEqual _ _)]; cbn [fst]; by apply Hput.
Qed.

Lemma quiet_applyFieldMeta metas : quiet_on_catalogue (applyFieldMeta metas).
Proof.
  unfold applyFieldMeta. repeat quiet_step. apply respects_modify. intros s.
  assert (Hf : forall st, unseen st.1 (foldl apply_field_meta st metas).1).
  { induction metas as [|m metas IH]; intros st; [done|]. cbn [foldl]. etransitivity; [apply unseen_field_meta | apply IH]. }
  specialize (Hf (s, false)). destruct (foldl apply_field_meta (s, false) metas) as [s' []]; [by apply unseen_bump | done].
Qed.

Lemma unseen_SetRetentionFor set r w s : unseen s (SetRetentionFor set r w s).
Proof.
  unfold SetRetentionFor. destruct (r >=? 0), (w >? 0); cbn; break_if; try apply unseen_bump; by apply unseen_put.
Qed.

Lemma unseen_SetKeyScheme set scheme s : unseen s (SetKeyScheme set scheme s).
Proof. unfold SetKeyScheme. break_if; try apply unseen_bump; by apply unseen_put. Qed.

Lemma quiet_applySetMeta metas : quiet_on_catalogue (applySetMeta metas).
Proof.
  unfold applySetMeta. repeat quiet_step. apply respects_modify. apply unseen_fold. intros s m. unfold apply_set_meta.
  break_if; [done|]. set (s1 := match sm_RetentionMs m, sm_ShardMs m with None, None => s | _, _ => _ end).
  assert (Hs1 : unseen s s1) by (unfold s1; destruct (sm_RetentionMs m), (sm_ShardMs m); [apply unseen_SetRetentionFor .. | done]).
  break_if; [exact Hs1|]. etransitivity; [exact Hs1 | apply unseen_SetKeyScheme].
Qed.

Lemma quiet_save : quiet_on_catalogue saveCatalogue.
Proof. unfold saveCatalogue. quiet_step; [quiet_step|]. destruct (cat_Marshal _ _ _); quiet_step. Qed.

Lemma quiet_declare req : quiet_on_catalogue (declare req).
Proof.
  unfold declare. quiet_step; [quiet_step|]. quiet_step; [destruct (rq_FieldMeta req); [quiet_step | apply quiet_applyFieldMeta]|].
  quiet_step; [apply quiet_applySetMeta|]. quiet_step; [quiet_step|]. break_if; [quiet_step|].
  quiet_step; [apply respects_try, quiet_save | quiet_step].
Qed.
(** ** One batch *)

Lemma label_keys_elem sm k : k ∈ label_keys sm <-> is_Some (Labels sm !! k).
Proof.
  unfold label_keys. rewrite list_elem_of_fmap. split.
  - intros ([k' v] & -> & Hv%elem_of_map_to_list). by eexists.
  - intros [v Hv]. exists (k, v). split; [done | by apply elem_of_map_to_list].
Qed.

Lemma fold_note b l : forall (kinds : gmap gostr bool) k,
  foldl (fun m k => <[k := b]> m) kinds l !! k = if decide (k ∈ l) then Some b else kinds !! k.
Proof.
  induction l as [|x l IH]; intros kinds k; cbn [foldl]; [by rewrite decide_False by (apply not_elem_of_nil)|].
  rewrite IH. destruct (decide (k ∈ l)) as [Hin | Hout]; [by rewrite decide_True by (by right)|].
  destruct (decide (k = x)) as [-> | Hne].
  - rewrite lookup_insert_eq, decide_True by left. done.
  - rewrite lookup_insert_ne by congruence. rewrite decide_False; [done|]. by intros [? | ?]%elem_of_cons.
Qed.

Lemma note_kinds_spec sm kinds k : note_kinds sm kinds !! k =
  if decide (k ∈ field_keys sm) then Some false else if decide (k ∈ label_keys sm) then Some true else kinds !! k.
Proof. unfold note_kinds. by rewrite !fold_note. Qed.

(** What a sample passes to become a row. *)
Record admitted (sm : Sample) (kinds : gmap gostr bool) (e : setEntry) : Prop := {
  ad_both : forall k, k ∈ field_keys sm -> k ∉ label_keys sm;
  ad_labels : forall k, k ∈ label_keys sm -> kinds !! k <> Some false /\ fieldObserved e k = false;
  ad_fields : forall k, k ∈ field_keys sm -> kinds !! k <> Some true /\ k ∉ se_Labels e;
}.

Lemma checkColumnNamespace_admits s set sm kinds : checkColumnNamespace s set sm kinds = Ok tt ->
  (forall k, k ∈ field_keys sm -> k ∉ label_keys sm) -> admitted sm kinds (entryLocked set s).
Proof.
  unfold checkColumnNamespace. intros Hc Hboth.
  destruct (first_bad _ (label_keys sm)) eqn:E1; [done|]. destruct (first_bad _ (field_keys sm)) eqn:E2; [done|].
  pose proof (first_bad_none _ _ E1) as N1. pose proof (first_bad_none _ _ E2) as N2. cbv beta in N1, N2.
  assert (Hentry : (forall k, k ∈ label_keys sm -> fieldObserved (entryLocked set s) k = false) /\
                   (forall k, k ∈ field_keys sm -> k ∉ se_Labels (entryLocked set s))).
  { unfold entryLocked. destruct (s_catalogue s !! set) as [e|]; cbn [default].
    - destruct (first_bad (fieldObserved e) _) eqn:E3; [done|]. destruct (first_bad _ (field_keys sm)) eqn:E4 in Hc; [done|].
      pose proof (first_bad_none _ _ E3) as N3. pose proof (first_bad_none _ _ E4) as N4. cbv beta in N4.
      split; [done|]. intros k Hk. specialize (N4 k Hk). by apply bool_decide_eq_false in N4.
    - split; [done|]. intros k _. apply not_elem_of_empty. }
  destruct Hentry as [He1 He2]. split; [done | |]; intros k Hk; (split; [|by auto]); intros Hkind.
  - specialize (N1 k Hk). by rewrite Hkind in N1.
  - specialize (N2 k Hk). by rewrite Hkind in N2.
Qed.

Lemma rowFor_admits set sm kinds s row kinds' s' : rowFor set sm kinds s = (Ok (row, kinds'), s') ->
  kinds' = note_kinds sm kinds /\ admitted sm kinds (entryLocked set s).
Proof.
  unfold rowFor, mbind, SM_bind, slift, get_store, mret, SM_ret. destruct (check_row_labels _) as [[]|]; [|done].
  destruct (first_bad _ (field_keys sm)) eqn:Eb; [done|]. destruct (checkColumnNamespace s set sm kinds) as [[]|] eqn:Ec; [|done].
  destruct (catalogueRoom s set sm) as [[]|]; [|done]. destruct (intern_labels _ _ s) as [[r|] s1]; [|done]. intros [= _ <- _].
  split; [done|]. apply checkColumnNamespace_admits; [done|]. intros k Hk Hl. pose proof (first_bad_none _ _ Eb k Hk) as Hb. cbv beta in Hb.
  apply bool_decide_eq_false in Hb. apply Hb. by apply label_keys_elem.
Qed.

(** The kinds of the request, and the samples waiting to be committed. *)
Record coherent set s (p : progress) : Prop := {
  co_agreed : agreed (p_kinds p) (entryLocked set s);
  co_classed : map_Forall (fun _ x => Forall (classed (p_kinds p)) x.2) (p_shards p);
}.

Lemma admitted_agreed sm kinds e : admitted sm kinds e -> agreed kinds e -> agreed (note_kinds sm kinds) e.
Proof.
  intros [_ Al Af] [K1 K2]. split; intros k; rewrite note_kinds_spec.
  - destruct (decide (k ∈ field_keys sm)); [done|]. destruct (decide (k ∈ label_keys sm)) as [Hl | _]; [intros _; by apply Al | apply K1].
  - destruct (decide (k ∈ field_keys sm)) as [Hf | _]; [intros _; by apply Af|]. destruct (decide (k ∈ label_keys sm)); [done | apply K2].
Qed.

Lemma admitted_mono sm kinds e sm' : admitted sm kinds e -> classed kinds sm' -> classed (note_kinds sm kinds) sm'.
Proof.
  intros [_ Al Af] [C1 C2]. split; intros k Hk; rewrite note_kinds_spec.
  - specialize (C1 k Hk). destruct (decide (k ∈ field_keys sm)) as [Hf | _]; [destruct (Af k Hf); congruence | by destruct (decide _)].
  - specialize (C2 k Hk). destruct (decide (k ∈ field_keys sm)) as [Hf | _]; [done|]. destruct (decide (k ∈ label_keys sm)) as [Hl | _]; [destruct (Al k Hl); congruence | done].
Qed.

Lemma admitted_classed sm kinds e : admitted sm kinds e -> classed (note_kinds sm kinds) sm.
Proof.
  intros [Hb _ _]. split; intros k Hk; rewrite note_kinds_spec.
  - rewrite decide_False; [by rewrite decide_True|]. intros Hf. by apply (Hb k Hf).
  - by rewrite decide_True.
Qed.

Lemma write_sample_coherent set scheme client width sm p s r s' : coherent set s p -> write_sample set scheme client width sm p s = (r, s') ->
  unseen s s' /\ match r with Ok p' => coherent set s' p' | Err _ => True end.
Proof.
  intros [Ha Hc]. unfold write_sample, mret, SM_ret.
  assert (Hrej : forall e s1, unseen s s1 -> coherent set s1 (reject e p)).
  { intros e s1 Hu. split; [by eapply unseen_agreed | done]. }
  destruct (Validate sm); [|intros [= <- <-]; by split; [|apply Hrej]]. break_if; [intros [= <- <-]; by split; [|apply Hrej]|].
  set (sm' := label_client set client sm). unfold mbind, SM_bind, stry.
  pose proof (quiet_rowFor set sm' (p_kinds p) s) as Hu. destruct (rowFor set sm' (p_kinds p) s) as [[[row kinds]|e] s1] eqn:Hrow; cbn [snd] in Hu.
  - intros [= <- <-]. split; [done|]. destruct (rowFor_admits _ _ _ _ _ _ _ Hrow) as [-> Had].
    assert (Hold : forall x, Forall (classed (p_kinds p)) x.2 -> Forall (classed (note_kinds sm' (p_kinds p))) (x : list Record_ * list Sample).2).
    { intros x Hx. eapply Forall_impl; [exact Hx|]. intros sm0. by eapply admitted_mono. }
    unfold file_row. destruct (default ([], []) _) as [recs samples] eqn:Edef. split; cbn [p_kinds p_shards].
    + eapply unseen_agreed; [exact Hu|]. by apply admitted_agreed.
    + apply map_Forall_insert_2; [|intros k x Hx; apply Hold, (Hc k x Hx)]. cbn [snd]. apply Forall_app. split; [|by repeat constructor; eapply admitted_classed].
      destruct (p_shards p !! _) as [x|] eqn:Ex; cbn [default] in Edef; [|by injection Edef as <- <-]. change (x = (recs, samples)) in Edef. rewrite Edef in Ex. by apply (Hold (recs, samples)), (Hc _ _ Ex).
  - unfold sfail. break_if; intros [= <- <-]; (split; [done|]); [done | by apply Hrej].
Qed.

Lemma write_samples_coherent set scheme client width samples : forall p s r s', coherent set s p ->
  write_samples set scheme client width samples p s = (r, s') ->
  unseen s s' /\ match r with Ok p' => coherent set s' p' | Err _ => True end.
Proof.
  induction samples as [|sm samples IH]; intros p s r s' Hco; cbn [write_samples]; [unfold mret, SM_ret; by intros [= <- <-]|].
  unfold mbind, SM_bind. destruct (write_sample set scheme client width sm p s) as [[p1|e] s1] eqn:E;
    destruct (write_sample_coherent _ _ _ _ _ _ _ _ _ Hco E) as [Hu Hp]; [|by intros [= <- <-]].
  intros Hrest. destruct (IH p1 s1 r s' Hp Hrest) as [Hu' Hp']. split; [by etransitivity | done].
Qed.

(** ** Committing is where something is observed *)

(** Only [set] gains, and what it gains agrees with the kinds. *)
Record gained set (kinds : gmap gostr bool) s s' : Prop := {
  ga_others : forall n, n <> set -> entryLocked n s' = entryLocked n s;
  ga_apart : apart (entryLocked set s');
  ga_agreed : agreed kinds (entryLocked set s');
}.

Lemma observeSet_gains set kinds samples s r s' : apart (entryLocked set s) -> agreed kinds (entryLocked set s) ->
  Forall (classed kinds) samples -> observeSet set samples s = (r, s') -> gained set kinds s s'.
Proof.
  intros Ha Hk Hc. unfold observeSet. destruct samples as [|sm0 samples0]; [unfold mret, SM_ret; by intros [= <- <-]|].
  set (samples := sm0 :: samples0) in *. unfold mbind, SM_bind, smodify.
  assert (Hnow : exists t s1, time_Now s = (Ok t, s1) /\ s_catalogue s1 = s_catalogue s) by (unfold time_Now; destruct (s_clock s); eauto).
  destruct Hnow as (t & s1 & -> & Ec). assert (Ee : forall n, entryLocked n s1 = entryLocked n s) by (intros n; unfold entryLocked; by rewrite Ec).
  rewrite Ee. pose proof (observe_apart kinds (t / 1000000) samples (entryLocked set s, false) Ha Hk Hc) as [Ha' Hk'].
  destruct (foldl _ (entryLocked set s, false) samples) as [e changed]. cbn [fst] in Ha', Hk'. intros [= _ <-].
  assert (Hfin : forall n, entryLocked n (if changed then bump (set_entry set e s1) else set_entry set e s1) = if decide (n = set) then e else entryLocked n s).
  { intros n. rewrite <- (Ee n), <- entry_set. by destruct changed. }
  split; [intros n Hn; by rewrite Hfin, decide_False | by rewrite Hfin, decide_True | by rewrite Hfin, decide_True].
Qed.

Lemma gained_trans set kinds s1 s2 s3 : gained set kinds s1 s2 -> gained set kinds s2 s3 -> gained set kinds s1 s3.
Proof. intros [O1 _ _] [O2 A2 K2]. split; [|done..]. intros n Hn. by rewrite O2, O1. Qed.

Lemma commit_shards_gains set kinds l : forall s r s', apart (entryLocked set s) -> agreed kinds (entryLocked set s) ->
  Forall (fun x : gostr * (list Record_ * list Sample) => Forall (classed kinds) x.2.2) l ->
  commit_shards set l s = (r, s') -> gained set kinds s s'.
Proof.
  induction l as [|[shard [recs samples]] l IH]; intros s r s' Ha Hk Hc; cbn [commit_shards].
  - unfold mret, SM_ret. by intros [= <- <-].
  - apply Forall_cons in Hc as [Hhd Hc]. cbn [snd] in Hhd. unfold mbind, SM_bind, engine. destruct (PutBatch shard recs (s_db s)) as [[[]|e] d1]; [|by intros [= <- <-]].
    destruct (observeSet set samples (s_set_db d1 s)) as [rr s1] eqn:Eo.
    assert (Hg : gained set kinds s s1) by (destruct (observeSet_gains set kinds samples (s_set_db d1 s) rr s1 Ha Hk Hhd Eo) as [O A K]; by split).
    destruct rr as [[]|e]; [|by intros [= <- <-]]. intros Hrest. eapply gained_trans; [exact Hg|]. destruct Hg as [_ A K]. by apply (IH s1 r s').
Qed.

(** ** A request *)

Definition kinds_agree s (q : request) : Prop := forall set, agreed (default ∅ (q_kinds q !! set)) (entryLocked set s).

Lemma reject_all_kinds e samples : forall q, q_kinds (reject_all e samples q) = q_kinds q.
Proof. induction samples as [|sm samples IH]; intros q; [done|]. cbn [reject_all]. by rewrite IH. Qed.

Lemma write_batch_namespace client b q s r s' : namespace_ok s -> kinds_agree s q -> write_batch client b q s = (r, s') ->
  namespace_ok s' /\ match r with Ok q' => kinds_agree s' q' | Err _ => True end.
Proof.
  intros Hok Hq. unfold write_batch, mret, SM_ret.
  assert (Hrej : forall e, kinds_agree s (reject_all e (b_Samples b) q)) by (intros e set; rewrite reject_all_kinds; apply Hq).
  destruct (ValidateSetName (b_Set b)); [|intros [= <- <-]; by split; [|apply Hrej]]. break_if; [intros [= <- <-]; by split; [|apply Hrej]|]. clear Hrej.
  unfold mbind, SM_bind, get_store. set (set := b_Set b) in *.
  destruct (write_samples set _ client _ (b_Samples b) _ s) as [[p|e] s1] eqn:Ew;
    destruct (write_samples_coherent _ _ _ _ _ _ _ _ _ (Build_coherent set s {| p_index := q_index q; p_kinds := default ∅ (q_kinds q !! set); p_shards := ∅; p_resp := q_resp q |} (Hq set) (map_Forall_empty _)) Ew) as [Hu Hp].
  2: { intros [= <- <-]. split; [by eapply unseen_apart | done]. }
  destruct Hp as [Hpa Hpc]. pose proof (unseen_apart _ _ Hu Hok) as Hok1.
  destruct (commit_shards set (map_to_list (p_shards p)) s1) as [rc s2] eqn:Ec.
  destruct (commit_shards_gains set (p_kinds p) (map_to_list (p_shards p)) s1 rc s2 (Hok1 set) Hpa) as [Go Ga Gk]; [| exact Ec |].
  { apply Forall_forall. intros [k x] Hx%elem_of_map_to_list. by apply (Hpc k). }
  assert (Hok2 : namespace_ok s2) by (intros n; destruct (decide (n = set)) as [-> | Hn]; [done | rewrite Go by done; apply Hok1]).
  destruct rc as [[]|e]; intros [= <- <-]; [|done]. split; [done|]. intros n. cbn [q_kinds]. destruct (decide (n = set)) as [-> | Hn].
  - by rewrite lookup_insert_eq.
  - rewrite lookup_insert_ne, Go by congruence. eapply unseen_agreed; [exact Hu | apply Hq].
Qed.

Lemma write_batches_namespace client l : forall q s r s', namespace_ok s -> kinds_agree s q -> write_batches client l q s = (r, s') -> namespace_ok s'.
Proof.
  induction l as [|b l IH]; intros q s r s' Hok Hq; cbn [write_batches]; [unfold mret, SM_ret; by intros [= <- <-]|].
  unfold mbind, SM_bind. destruct (write_batch client b q s) as [[q1|e] s1] eqn:E;
    destruct (write_batch_namespace _ _ _ _ _ _ Hok Hq E) as [Hok1 Hq1]; [by apply IH | by intros [= <- <-]].
Qed.

Lemma Write_namespace req key client s : namespace_ok s -> namespace_ok (Write req key client s).2.
Proof.
  intros Hok. destruct (Write req key client s) as [r s'] eqn:Hrun. cbn [snd]. revert Hrun. unfold Write.
  assert (Hseen : quiet_on_catalogue (check_seen key)).
  { unfold check_seen. quiet_step; [quiet_step|]. quiet_step; [destruct (find_key _ _); quiet_step|]. quiet_step; [quiet_step|].
    destruct (idem_seen _ _ _). repeat quiet_step. }
  assert (Hrem : quiet_on_catalogue (remember key)).
  { unfold remember. break_if; [quiet_step|]. quiet_step; [quiet_step|]. quiet_step; [quiet_step|].
    quiet_step; [destruct (find_key _ _); quiet_step | quiet_step]. }
  unfold mbind, SM_bind, enterEngine, get_store, mret, SM_ret, mbind, SM_bind.
  destruct (s_closed s); [by intros [= <- <-]|]. specialize (Hseen s). destruct (check_seen key s) as [[seen|e] sa]; cbn [snd] in Hseen;
    pose proof (unseen_apart _ _ Hseen Hok) as Hoka; [|by intros [= <- <-]]. destruct seen; [by intros [= <- <-]|].
  pose proof (quiet_declare req sa) as Hdec. destruct (declare req sa) as [[[]|e] sb]; cbn [snd] in Hdec;
    pose proof (unseen_apart _ _ Hdec Hoka) as Hokb; [|by intros [= <- <-]].
  destruct (write_batches client (rq_Batches req) _ sb) as [rr sc] eqn:Ew. apply write_batches_namespace in Ew; [|done|].
  - destruct rr as [q|e]; [|by intros [= <- <-]]. specialize (Hrem sc). destruct (remember key sc) as [[[]|e] sd]; cbn [snd] in Hrem; intros [= <- <-];
      exact (unseen_apart _ _ Hrem Ew).
  - intros set. cbn [q_kinds]. rewrite lookup_empty. cbn [default]. split; intros k Hk; by rewrite lookup_empty in Hk.
Qed.

(** ** The other operations observe nothing *)

Lemma quiet_sweep now names : forall sw, quiet_on_catalogue (sweep_shards now names sw).
Proof.
  induction names as [|name names IH]; intros sw; cbn [sweep_shards]; [quiet_step|]. quiet_step; [|apply IH]. unfold sweep_shard.
  destruct (shard_of_set name) as [[logical suffix]|]; [|quiet_step]. quiet_step; [quiet_step|].
  break_if; [break_if; repeat quiet_step|]. break_if; [quiet_step|]. destruct (parseShardSuffix suffix) as [[start width]|]; [|quiet_step].
  break_if; [|quiet_step]. quiet_step; [quiet_step|]. destruct a0 as [[]|[]]; quiet_step.
Qed.

Lemma unseen_delete name s s' : s_catalogue s' = delete name (s_catalogue s) -> unseen s s'.
Proof.
  intros E set. unfold entryLocked. rewrite E. destruct (decide (set = name)) as [-> | Hn]; [|by rewrite lookup_delete_ne].
  rewrite lookup_delete_eq. cbn [default]. split; [apply empty_subseteq | done].
Qed.

Lemma unseen_forget_aged name s : unseen s (forgetAgedSet name s).1.
Proof.
  unfold forgetAgedSet. destruct (s_catalogue s !! name) as [e|] eqn:He; [|done]. destruct (nothing_declared e); cbn [fst].
  - apply unseen_bump. by apply (unseen_delete name).
  - assert (Hu : unseen s (set_entry name (unobserved e) s)).
    { apply (unseen_set_entry name (unobserved e) s); [done | cbn; apply empty_subseteq | done]. }
    destruct (anything_observed e); [by apply unseen_bump | done].
Qed.

Lemma unseen_raise name ms s : unseen s (raiseFirstSeen name ms s).1.
Proof.
  unfold raiseFirstSeen. break_if; [done|]. destruct (s_catalogue s !! name) as [e|] eqn:He; [|done]. break_if; [done|]. cbn [fst].
  apply unseen_bump. assert (Hee : entryLocked name s = e) by (unfold entryLocked; by rewrite He).
  apply (unseen_put name); [done | |]; rewrite Hee; by break_if.
Qed.

Lemma unseen_settle l : forall st, unseen st.1 (foldl settle_set st l).1.
Proof.
  induction l as [|name l IH]; intros [s n]; [done|]. cbn [foldl]. etransitivity; [|apply IH]. unfold settle_set. cbn [fst].
  pose proof (unseen_forget_aged name s) as Hf. destruct (shardsFor s name i64_min i64_max).1 as [|x live]; [by destruct (forgetAgedSet name s)|].
  pose proof (unseen_raise name (oldestShardStartMs (x :: live)) s) as Hr. by destruct (raiseFirstSeen _ _ _).
Qed.

Lemma quiet_scan keys shards : forall used, quiet_on_catalogue (scan_shards keys used shards).
Proof.
  induction shards as [|shard shards IH]; intros used; cbn [scan_shards]; [quiet_step|]. quiet_step; [|apply IH]. unfold scan_shard.
  quiet_step; [quiet_step|]. destruct a as [it|e]; [|destruct e; quiet_step]. quiet_step; [quiet_step|]. destruct a as [rows it']. quiet_step; [quiet_step|].
  destruct (Iter_Err it'); quiet_step.
Qed.

Lemma quiet_free_values label used es : forall i, quiet_on_catalogue (free_values label used i es).
Proof.
  induction es as [|e es IH]; intros i; cbn [free_values]; [quiet_step|]. destruct (_ || _); [apply IH|]. repeat (first [apply IH | quiet_step]).
Qed.

Lemma quiet_free_label used label : quiet_on_catalogue (free_label used label).
Proof.
  unfold free_label. quiet_step; [quiet_step|]. destruct (s_dict a !! label); [|quiet_step]. quiet_step; [apply quiet_free_values|].
  break_if; [quiet_step|]. quiet_step; [quiet_step|]. quiet_step; [|quiet_step]. unfold rewrite_packed. quiet_step; [quiet_step|]. quiet_step; [quiet_step|].
  destruct a3 as [raw|]; [|quiet_step]. destruct (dict_Unmarshal raw) as [[|p packed]|]; [quiet_step | | quiet_step]. destruct (dict_Marshal _); quiet_step.
Qed.

Lemma quiet_free_labels used labels : quiet_on_catalogue (free_labels used labels).
Proof. induction labels as [|l labels IH]; cbn [free_labels]; repeat (first [apply IH | apply quiet_free_label | quiet_step]). Qed.

Lemma quiet_reclaim : quiet_on_catalogue reclaimDictionaries.
Proof.
  unfold reclaimDictionaries. quiet_step; [quiet_step|]. quiet_step; [quiet_step|]. destruct (map_to_list (s_dict a0)).*1 as [|k keys]; [quiet_step|].
  quiet_step; [unfold reclaim_scan; quiet_step; [quiet_step | apply quiet_scan]|]. unfold reclaim_free. quiet_step; [quiet_step | apply quiet_free_labels].
Qed.

Lemma quiet_retention now : quiet_on_catalogue (RunRetention now).
Proof.
  intros s. unfold RunRetention. apply respects_bind; [apply _ | quiet_step | intros _].
  clear s. intros s. unfold mbind at 1, SM_bind at 1, get_store at 1. unfold mbind at 1, SM_bind at 1.
  pose proof (quiet_sweep now (Sets (s_db s)) empty_sweep s) as Hsw. destruct (sweep_shards _ _ _ s) as [[sw|e] s1]; cbn [snd] in *; [|done].
  unfold mbind at 1, SM_bind at 1, get_store at 1. pose proof (unseen_settle (elements (sw_emptied sw)) (s1, 0)) as Hst.
  destruct (foldl settle_set (s1, 0) _) as [s2 n]. cbn [fst] in Hst. unfold mbind at 1, SM_bind at 1, smodify at 1.
  etransitivity; [exact Hsw|]. etransitivity; [exact Hst|].
  match goal with |- unseen _ (?m _).2 => assert (Hq : quiet_on_catalogue m); [|apply Hq] end.
  quiet_step; [break_if; [apply respects_try, quiet_save | quiet_step]|]. quiet_step; [break_if; [apply respects_try, quiet_reclaim | quiet_step] | quiet_step].
Qed.

Lemma quiet_drop name : quiet_on_catalogue (DropShards name).
Proof.
  unfold DropShards. quiet_step; [quiet_step|]. quiet_step; [quiet_step|]. generalize 0. generalize (shardsFor a0 name i64_min i64_max).1.
  intros shards. induction shards as [|x shards IH]; intros n; cbn [drop_shards]; [quiet_step|]. quiet_step; [quiet_step|].
  destruct a1 as [[]|[]]; first [apply IH | quiet_step].
Qed.

Lemma quiet_close : quiet_on_catalogue Store_Close.
Proof.
  unfold Store_Close. quiet_step; [quiet_step|]. break_if; [quiet_step|]. quiet_step; [quiet_step|].
  quiet_step; [apply respects_try, quiet_save | quiet_step].
Qed.

(** ** Any history of the store *)

(** An operation, run to whatever end it comes to; time passing; and the
    calls of the LSM that will fail from here on. *)
Inductive store_step : Store -> Store -> Prop :=
| step_write req key client s : store_step s (Write req key client s).2
| step_retention now s : store_step s (RunRetention now s).2
| step_reclaim s : store_step s (reclaimDictionaries s).2
| step_drop name s : store_step s (DropShards name s).2
| step_forget name s : store_step s (ForgetSet name s)
| step_save s : store_step s (saveCatalogue s).2
| step_close s : store_step s (Store_Close s).2
| step_clock clock s : store_step s (s_set_clock clock s)
| step_faults f s : store_step s (s_set_db (set_faults f (s_db s)) s).

(** C35: labels and fields share the columns of a set, and no history of
    writes, sweeps, drops and failures makes the catalogue carry one name
    both as a label and as a field that was seen: what a column holds is
    decided by its first writer. *)
Theorem namespace_invariant (s s' : Store) :
  namespace_ok s -> clos_refl_trans _ store_step s s' -> namespace_ok s'.
Proof.
  intros Hok Hsteps. apply clos_rt_rt1n in Hsteps. induction Hsteps as [s | s s1 s' Hstep _ IH]; [done|]. apply IH. clear IH.
  destruct Hstep; [by apply Write_namespace | apply (unseen_apart s); [|done] ..].
  - apply quiet_retention.
  - apply quiet_reclaim.
  - apply quiet_drop.
  - unfold ForgetSet. break_if; [apply unseen_bump|]; by apply (unseen_delete name).
  - apply quiet_save.
  - apply quiet_close.
  - by apply unseen_same.
  - by apply unseen_same.
Qed.
End Namespace.

(** ** Witness: a name written as a label, then refused as a field *)

Definition named_host (sm_labels : gmap gostr gostr) (sm_fields : gmap gostr Value) : WriteRequest :=
  {| rq_Batches := [{| b_Set := bs "cpu"; b_Samples :=
       [{| TSMs := 1700000000000; SubUS := 0; Labels := sm_labels; Fields := sm_fields; KeyHint := [] |}] |}]; rq_FieldMeta := []; rq_SetMeta := [] |}.
Abbreviation as_label := (named_host {[bs "host" := bs "a"]} {[bs "v" := VInt 1]}).
Abbreviation as_field := (named_host ∅ {[bs "host" := VInt 1]}).
Abbreviation then_refused := (Write as_field [] [] (Write as_label [] [] empty_store).2).

Lemma namespace_invariant_witness :
  namespace_ok then_refused.2 /\ wr_RejectedCount <$> (match then_refused.1 with Ok r => Some r | Err _ => None end) = Some 1.
Proof.
  split; [|vm_compute; reflexivity]. apply (namespace_invariant empty_store).
  - intros set k. change (entryLocked set empty_store) with (default (new_entry set) ((∅ : gmap gostr setEntry) !! set)).
    rewrite lookup_empty. intros Hk. by apply elem_of_empty in Hk.
  - eapply rt_trans; apply rt_step; apply step_write.
Defined.
