(* ===== verification/StoreIdem.v ===== *)
(** * A retried write changes nothing

    The cache of answered keys: what the operations of the store leave of
    it, and that a key recorded by one write is found by a later one, as
    long as no more writes than the cache has room for come between them
    and the clock stays within the window. *)

From Stdlib Require Import ZArith Lia Bool.
From Stdlib Require Import Strings.Byte Strings.String.
From stdpp Require Import gmap.
From S2P Require Import Prelude Bytes Float64 GoStd GoText Model Wire EngineKeys EngineCodec EngineSchema EngineDB EngineStore EngineQuery EngineScan Instances.
From S2P Require Import StoreShard StoreState StoreDict StoreReclaim StoreCatalogue StoreWrite StoreDemo StoreRetention.

Section Idem.
Context `{FloatText} `{XXH3} `{J : MetaJSON} `{L : LSM} `{SJ : StoreJSON} `{ErrorText}.
Implicit Types (s : Store).

(** ** What a step leaves alone *)

Definition readings s : list Z := s_now s :: s_clock s.

Record frame s s' : Prop := {
  fr_idem : s_idem s' = s_idem s;
  fr_clock : forall t, t ∈ readings s' -> t ∈ readings s;
  fr_closed : s_closed s' = s_closed s;
}.

#[global] Instance frame_preorder : PreOrder frame.
Proof.
  split; [by constructor|]. intros s1 s2 s3 [I1 C1 D1] [I2 C2 D2]. constructor; [congruence | auto | congruence].
Qed.

Abbreviation framed := (respects frame).

Lemma framed_engine {A} (m : M A) : framed (engine m).
Proof. by apply respects_engine. Qed.
Lemma framed_engine_try {A} (m : M A) : framed (engine_try m).
Proof. by apply respects_engine. Qed.
Lemma framed_now : framed time_Now.
Proof.
  intros s. unfold time_Now. destruct (s_clock s) as [|t c] eqn:E; [done|]. constructor; cbn; [done | | done].
  unfold readings. rewrite E. cbn. intros x [-> | Hx]%elem_of_cons; [right; left | by do 2 right].
Qed.

Ltac framed_step :=
  first [ respects_step | apply framed_engine | apply framed_engine_try | apply framed_now | (apply respects_modify; intros ?; done) ].

Lemma frame_set_dictionary key d s : frame s (set_dictionary key d s).
Proof. done. Qed.
Lemma frame_bump s : frame s (bump s).
Proof. done. Qed.

Lemma framed_intern_locked key value fresh d : framed (intern_locked key value fresh d).
Proof.
  unfold intern_locked. framed_step; [framed_step|]. destruct (index d !! value); [framed_step|]. break_if; [framed_step|].
  destruct (takeHole d) as [hole d']. repeat framed_step. destruct a1 as [[]|e]; repeat framed_step.
  apply respects_modify. intros s. by destruct hole, fresh.
Qed.

Lemma framed_intern key value : framed (intern key value).
Proof.
  unfold intern. framed_step; [framed_step|]. destruct (s_dict a !! key) as [d|].
  - destruct (index d !! value); [framed_step | apply framed_intern_locked].
  - break_if; [framed_step|]. framed_step; [framed_step | apply framed_intern_locked].
Qed.

Lemma framed_intern_labels l : forall row, framed (intern_labels l row).
Proof.
  induction l as [|[k v] l IH]; intros row; cbn [intern_labels]; [framed_step|]. framed_step; [apply framed_intern | apply IH].
Qed.

Lemma framed_rowFor set sm kinds : framed (rowFor set sm kinds).
Proof. unfold rowFor. repeat (first [apply framed_intern_labels | framed_step]). Qed.

Lemma framed_write_sample set scheme client width sm p : framed (write_sample set scheme client width sm p).
Proof.
  unfold write_sample. destruct (Validate sm); [|framed_step]. break_if; [framed_step|]. framed_step; [apply respects_try, framed_rowFor|].
  destruct a0 as [[row kinds]|e]; [framed_step|]. break_if; framed_step.
Qed.

Lemma framed_write_samples set scheme client width samples : forall p, framed (write_samples set scheme client width samples p).
Proof. induction samples as [|sm samples IH]; intros p; cbn [write_samples]; [framed_step|]. framed_step; [apply framed_write_sample | apply IH]. Qed.

Lemma framed_observe set samples : framed (observeSet set samples).
Proof.
  unfold observeSet. destruct samples; [framed_step|]. framed_step; [framed_step|]. apply respects_modify. intros s'.
  by destruct (foldl _ _ _) as [e []].
Qed.

Lemma framed_commit set l : framed (commit_shards set l).
Proof.
  induction l as [|[shard [recs samples]] l IH]; cbn [commit_shards]; [framed_step|]. framed_step; [framed_step|].
  framed_step; [apply framed_observe | apply IH].
Qed.

Lemma framed_write_batch client b q : framed (write_batch client b q).
Proof.
  unfold write_batch. destruct (ValidateSetName _); [|framed_step]. break_if; [framed_step|]. framed_step; [framed_step|].
  framed_step; [apply framed_write_samples|]. framed_step; [apply framed_commit | framed_step].
Qed.

Lemma framed_write_batches client l : forall q, framed (write_batches client l q).
Proof. induction l as [|b l IH]; intros q; cbn [write_batches]; [framed_step|]. framed_step; [apply framed_write_batch | apply IH]. Qed.

Lemma frame_fold {X} (f : Store * bool -> X -> Store * bool) l : (forall st x, frame st.1 (f st x).1) -> forall st, frame st.1 (foldl f st l).1.
Proof. intros Hf. induction l as [|x l IH]; intros st; [done|]. cbn [foldl]. etransitivity; [apply Hf | apply IH]. Qed.
Lemma frame_fold1 {X} (f : Store -> X -> Store) l : (forall s x, frame s (f s x)) -> forall s, frame s (foldl f s l).
Proof. intros Hf. induction l as [|x l IH]; intros s; [done|]. cbn [foldl]. etransitivity; [apply Hf | apply IH]. Qed.

Lemma framed_applyFieldMeta metas : framed (applyFieldMeta metas).
Proof.
  unfold applyFieldMeta. repeat framed_step. apply respects_modify. intros s.
  assert (Hstep : forall st m, frame st.1 (apply_field_meta st m).1).
  { intros [s0 c] m. unfold apply_field_meta. destruct (unnamed m); [done|]. repeat (match goal with |- context [if ?b then _ else _] => destruct b end); done. }
  pose proof (frame_fold apply_field_meta metas Hstep (s, false)) as Hf.
  destruct (foldl apply_field_meta (s, false) metas) as [s' []]; cbn [fst] in Hf; [etransitivity; [exact Hf | apply frame_bump] | exact Hf].
Qed.

Lemma frame_SetRetentionFor set r w s : frame s (SetRetentionFor set r w s).
Proof. unfold SetRetentionFor. destruct (r >=? 0), (w >? 0); cbn; repeat (match goal with |- context [if ?b then _ else _] => destruct b end); done. Qed.

Lemma framed_applySetMeta metas : framed (applySetMeta metas).
Proof.
  unfold applySetMeta. repeat framed_step. apply respects_modify. apply frame_fold1. intros s m. unfold apply_set_meta.
  destruct (bytes_eqb (sm_Set m) []); [done|].
  assert (Hk : forall s0, frame s0 (SetKeyScheme (sm_Set m) (sm_KeyScheme m) s0)) by (intros s0; unfold SetKeyScheme; by destruct (_ || _)).
  set (s1 := match sm_RetentionMs m, sm_ShardMs m with None, None => s | _, _ => _ end).
  assert (Hs1 : frame s s1) by (unfold s1; destruct (sm_RetentionMs m), (sm_ShardMs m); [apply frame_SetRetentionFor .. | done]).
  destruct (bytes_eqb (sm_KeyScheme m) []); [exact Hs1|]. etransitivity; [exact Hs1 | apply Hk].
Qed.

Lemma framed_save : framed saveCatalogue.
Proof. unfold saveCatalogue. framed_step; [framed_step|]. destruct (cat_Marshal _ _ _); framed_step. Qed.

(** ** The cache *)

(** Every reading falls inside the window opened by any other. *)
Definition quick_clock s : Prop := forall a b, a ∈ readings s -> b ∈ readings s -> b < a + idempotencyWindow.

Lemma quick_frame s s' : frame s s' -> quick_clock s -> quick_clock s'.
Proof. intros Hf Hq a b Ha Hb. apply Hq; by apply (fr_clock _ _ Hf). Qed.

(** What [evict] leaves: a young entry with few before it stays, and so does
    everything before it. *)
Lemma evict_keeps max now l x r : zlen (x :: r) <= max -> now < it_exp x -> exists l', evict max now (l ++ x :: r) = l' ++ x :: r.
Proof.
  intros Hmax Hexp. induction l as [|y l IH]; cbn [app evict].
  - rewrite (proj2 (Z.leb_le _ max)), (proj2 (Z.ltb_lt _ _)) by done. by exists [].
  - break_if; [by exists (y :: l) | exact IH].
Qed.

(** Where a key is in a list that is kept in the order of use: behind [j]
    others at most. *)
Definition within (key : gostr) (j : Z) (item : idemItem) (l : list idemItem) : Prop :=
  exists pre post, l = pre ++ item :: post /\ it_key item = key /\ Forall (fun i => it_key i <> key) pre /\ zlen pre <= j.

Lemma within_find key j item l : within key j item l -> find_key key l = Some item.
Proof.
  intros (pre & post & -> & Hkey & Hpre & _). unfold find_key. induction Hpre as [|i pre Hi _ IH]; cbn [app List.find].
  - by rewrite Hkey, bytes_eqb_refl.
  - by rewrite (proj2 (bytes_eqb_neq _ _)).
Qed.

Lemma within_more key j j' item l : j <= j' -> within key j item l -> within key j' item l.
Proof. intros Hj (pre & post & Hl). exists pre, post. intuition lia. Qed.

Lemma within_front key item l : it_key item = key -> within key 0 item (item :: l).
Proof. intros Hk. exists [], l. by split_and!. Qed.

Lemma within_cons key j item i l : it_key i <> key -> within key j item l -> within key (j + 1) item (i :: l).
Proof.
  intros Hi (pre & post & -> & Hk & Hpre & Hj). exists (i :: pre), post. split_and!; [done | done | by constructor | rewrite zlen_cons; lia].
Qed.

Lemma zlen_filter {X} (f : X -> bool) (l : list X) : zlen (List.filter f l) <= zlen l.
Proof. induction l as [|x l IH]; cbn [List.filter]; [done|]. destruct (f x); rewrite ?zlen_cons; lia. Qed.

Lemma within_drop key j item k l : k <> key -> within key j item l -> within key j item (drop_key k l).
Proof.
  intros Hk (pre & post & -> & Hkey & Hpre & Hj). exists (drop_key k pre), (drop_key k post). unfold drop_key. rewrite List.filter_app. cbn [List.filter].
  rewrite Hkey, (proj2 (bytes_eqb_neq key k)) by congruence. split_and!; [done | done | | pose proof (zlen_filter (fun i => negb (bytes_eqb (it_key i) k)) pre); lia].
  apply Forall_forall. intros i Hi. apply list_elem_of_In, filter_In in Hi as [Hi _]. rewrite Forall_forall in Hpre. by apply Hpre, list_elem_of_In.
Qed.

Lemma record_other key k t now j item c : k <> key -> j + 2 <= ic_max c -> now < it_exp item ->
  within key j item (ic_ll c) -> within key (j + 1) item (ic_ll (idem_record k t now c)).
Proof.
  intros Hk Hmax Hnow Hw. unfold idem_record. destruct (bytes_eqb k []); [apply (within_more _ j); [lia | done]|].
  destruct (find_key k (ic_ll c)); cbn [ic_ll]; [by apply within_cons, within_drop|].
  destruct Hw as (pre & post & Hl & Hkey & Hpre & Hj). rewrite Hl. set (new := {| it_key := k; it_exp := _ |}).
  assert (Hrev : rev (new :: pre ++ item :: post) = rev post ++ item :: rev (new :: pre)) by (cbn [rev]; rewrite rev_app_distr; cbn [rev]; by rewrite <- !app_assoc).
  rewrite Hrev. destruct (evict_keeps (ic_max c) now (rev post) item (rev (new :: pre))) as [l' ->]; [|done|].
  { rewrite zlen_cons. unfold zlen in *. rewrite length_rev. cbn [length]. lia. }
  rewrite rev_app_distr. cbn [rev]. rewrite rev_app_distr, rev_involutive. cbn [rev app]. exists (new :: pre), (rev l').
  rewrite <- app_assoc. split_and!; [done | done | by constructor | rewrite zlen_cons; lia].
Qed.

Lemma record_found key t now c : key <> [] -> 0 < ic_max c -> now < t + idempotencyWindow ->
  exists item, within key 0 item (ic_ll (idem_record key t now c)) /\ it_exp item = t + idempotencyWindow.
Proof.
  intros Hkey Hmax Hnow. unfold idem_record. rewrite (proj2 (bytes_eqb_neq _ _)) by done.
  set (item := {| it_key := key; it_exp := t + idempotencyWindow |}). exists item. split; [|done].
  destruct (find_key key (ic_ll c)); cbn [ic_ll]; [by apply within_front|]. cbn [rev].
  destruct (evict_keeps (ic_max c) now (rev (ic_ll c)) item []) as [l' ->]; [change (zlen [item]) with 1; lia | done|].
  rewrite rev_app_distr. by apply within_front.
Qed.

Lemma record_max k t now c : ic_max (idem_record k t now c) = ic_max c.
Proof. unfold idem_record. break_if; [done|]. by destruct (find_key _ _). Qed.

Lemma framed_declare req : framed (declare req).
Proof.
  unfold declare. framed_step; [framed_step|]. framed_step; [destruct (rq_FieldMeta req); [framed_step | apply framed_applyFieldMeta]|].
  framed_step; [apply framed_applySetMeta|]. framed_step; [framed_step|]. break_if; [framed_step|].
  framed_step; [apply respects_try, framed_save | framed_step].
Qed.

(** ** The two calls on the cache *)

(** All but the cache and the clock. *)
Definition same_rest s s' : Prop :=
  s_db s' = s_db s /\ s_dict s' = s_dict s /\ s_catalogue s' = s_catalogue s /\ s_catVer s' = s_catVer s.

Lemma time_Now_spec s : exists t s', time_Now s = (Ok t, s') /\ t ∈ readings s /\ frame s s' /\ same_rest s s'.
Proof.
  pose proof (framed_now s) as Hf. unfold time_Now in *. destruct (s_clock s) as [|t c] eqn:E;
    eexists _, _; (split; [reflexivity|]); (split; [unfold readings; rewrite E; set_solver|]); (split; [exact Hf | done]).
Qed.

Lemma check_seen_spec key s : exists now s1, frame s s1 /\ same_rest s s1 /\
  (find_key key (ic_ll (s_idem s)) <> None -> now ∈ readings s) /\
  check_seen key s = (Ok (idem_seen key now (s_idem s)).1, s_set_idem (idem_seen key now (s_idem s)).2 s1).
Proof.
  unfold check_seen, mbind, SM_bind, get_store, mret, SM_ret, smodify. destruct (find_key key (ic_ll (s_idem s))).
  - destruct (time_Now_spec s) as (t & s1 & -> & Ht & Hf & Hr). exists t, s1. rewrite (fr_idem _ _ Hf). split_and!; try done.
    by destruct (idem_seen key t (s_idem s)).
  - exists 0, s. split_and!; try done. by destruct (idem_seen key 0 (s_idem s)).
Qed.

Lemma remember_spec key s : key <> [] -> exists t now s1, t ∈ readings s /\ now ∈ readings s /\ frame s s1 /\
  remember key s = (Ok tt, s_set_idem (idem_record key t now (s_idem s)) s1).
Proof.
  intros Hkey. unfold remember, mbind, SM_bind, get_store, mret, SM_ret, smodify. rewrite (proj2 (bytes_eqb_neq _ _)) by done.
  destruct (time_Now_spec s) as (t & s1 & -> & Ht & Hf1 & _). destruct (find_key key (ic_ll (s_idem s1))).
  - exists t, t, s1. by rewrite (fr_idem _ _ Hf1).
  - destruct (time_Now_spec s1) as (t2 & s2 & -> & Ht2 & Hf2 & _). exists t, t2, s2. assert (Hf : frame s s2) by (by etransitivity).
    rewrite (fr_idem _ _ Hf). split_and!; [done | by apply Hf1 | done | done].
Qed.

(** ** What is remembered *)

(** The key was answered, fewer than [j] keys were used since, and the clock
    has not come to where it is forgotten. *)
Record remembered (max : Z) (key : gostr) (j : Z) s : Prop := {
  re_within : exists item, within key j item (ic_ll (s_idem s)) /\ forall t, t ∈ readings s -> t < it_exp item;
  re_max : ic_max (s_idem s) = max;
}.

Lemma remembered_frame max key j s s' : frame s s' -> remembered max key j s -> remembered max key j s'.
Proof.
  intros [Hi Hr Hc] [(item & Hw & He) Hm]. constructor; rewrite Hi; [|done]. exists item. split; [done|]. intros t Ht. by apply He, Hr.
Qed.

Lemma remembered_more max key j j' s : j <= j' -> remembered max key j s -> remembered max key j' s.
Proof. intros Hj [(item & Hw & He) Hm]. constructor; [|done]. exists item. split; [by eapply within_more | done]. Qed.

(** It is found, and moves to the front. *)
Lemma check_seen_remembered max key j s : key <> [] -> 0 <= j -> remembered max key j s ->
  exists s1, check_seen key s = (Ok true, s1) /\ remembered max key j s1 /\ same_rest s s1 /\ s_closed s1 = s_closed s.
Proof.
  intros Hkey Hj [(item & Hw & He) Hm]. destruct (check_seen_spec key s) as (now & s1 & Hf & Hr & Hnow & ->).
  pose proof (within_find _ _ _ _ Hw) as Hfind. unfold idem_seen. rewrite (proj2 (bytes_eqb_neq _ _)), Hfind in * by done.
  specialize (Hnow ltac:(done)). specialize (He now Hnow) as Hn. rewrite Z.gtb_ltb, (proj2 (Z.ltb_ge _ _)) by lia. cbn [fst snd].
  eexists. split; [reflexivity|]. split; [|split; [done | by destruct Hf]]. apply (remembered_more _ _ 0); [done|]. constructor; cbn [s_idem s_set_idem ic_ll ic_max]; [|done].
  exists item. split; [apply within_front; by destruct Hw as (? & ? & _ & ? & _)|]. intros t Ht. apply He. by apply Hf.
Qed.

(** Looking for another key uses that one. *)
Lemma check_seen_other max key k j s seen s1 : k <> key -> remembered max key j s -> check_seen k s = (Ok seen, s1) ->
  remembered max key (if seen then j + 1 else j) s1.
Proof.
  intros Hk [(item & Hw & He) Hm]. destruct (check_seen_spec k s) as (now & s2 & Hf & _ & _ & ->).
  unfold idem_seen. destruct (bytes_eqb k []); cbn [fst snd].
  { intros [= <- <-]. by apply (remembered_frame _ _ _ s); [destruct Hf; constructor | constructor; [exists item|]]. }
  destruct (find_key k (ic_ll (s_idem s))) as [other|] eqn:Ef; cbn [fst snd].
  2: { intros [= <- <-]. by apply (remembered_frame _ _ _ s); [destruct Hf; constructor | constructor; [exists item|]]. }
  assert (Ho : it_key other <> key) by (unfold find_key in Ef; apply find_some in Ef as [_ E%bytes_eqb_spec]; congruence).
  break_if; cbn [fst snd]; intros [= <- <-]; (constructor; cbn [s_idem s_set_idem ic_ll ic_max]; [|done]); exists item;
    (split; [|intros t Ht; apply He; by apply Hf]); [by apply within_drop | by apply within_cons, within_drop].
Qed.

Lemma remember_other max key k j s s1 r : k <> key -> j + 2 <= max -> remembered max key j s -> remember k s = (r, s1) -> remembered max key (j + 1) s1.
Proof.
  intros Hk Hj Hs. destruct (decide (k = [])) as [-> | Hk0].
  { unfold remember. cbn. intros [= _ <-]. apply (remembered_more _ _ j); [lia | done]. }
  destruct Hs as [(item & Hw & He) Hm]. destruct (remember_spec k s Hk0) as (t & now & s2 & Ht & Hn & Hf & ->). intros [= _ <-].
  constructor; cbn [s_idem s_set_idem]; [|by rewrite record_max]. exists item. split; [apply record_other; [done | lia | by apply He | done]|].
  intros x Hx. apply He. by apply Hf.
Qed.

(** Another request, however it ends, pushes the key back by one at most. *)
Lemma Write_remembered max key k j req client s : key <> [] -> 0 <= j -> j + 2 <= max -> remembered max key j s ->
  remembered max key (j + 1) (Write req k client s).2.
Proof.
  intros Hkey Hj0 Hj Hs. unfold Write, enterEngine, mbind, SM_bind, get_store, mret, SM_ret.
  destruct (s_closed s); [apply (remembered_more _ _ j); [lia | exact Hs]|]. destruct (decide (k = key)) as [-> | Hk].
  { destruct (check_seen_remembered max key j s Hkey Hj0 Hs) as (s1 & -> & Hs1 & _). apply (remembered_more _ _ j); [lia | exact Hs1]. }
  destruct (check_seen k s) as [[seen|e] s1] eqn:Eseen; [|by destruct (check_seen_spec k s) as (? & ? & _ & _ & _ & E); rewrite E in Eseen].
  pose proof (check_seen_other max key k j s seen s1 Hk Hs Eseen) as Hs1. destruct seen; [exact Hs1|].
  pose proof (framed_declare req s1) as Hf2. destruct (declare req s1) as [[[]|e] s2]; cbn [snd] in Hf2;
    pose proof (remembered_frame _ _ _ _ _ Hf2 Hs1) as Hs2; [|apply (remembered_more _ _ j); [lia | exact Hs2]].
  set (q0 := {| q_index := 0; q_resp := _; q_kinds := _ |}). pose proof (framed_write_batches client (rq_Batches req) q0 s2) as Hf3.
  destruct (write_batches client (rq_Batches req) q0 s2) as [[q|e] s3]; cbn [snd] in Hf3;
    pose proof (remembered_frame _ _ _ _ _ Hf3 Hs2) as Hs3; [|apply (remembered_more _ _ j); [lia | exact Hs3]].
  destruct (remember k s3) as [[[]|e] s4] eqn:Er; exact (remember_other max key k j s3 s4 _ Hk Hj Hs3 Er).
Qed.

(** ** What else the store does *)

Lemma framed_sweep now names : forall sw, framed (sweep_shards now names sw).
Proof.
  induction names as [|name names IH]; intros sw; cbn [sweep_shards]; [framed_step|]. framed_step; [|apply IH]. unfold sweep_shard.
  destruct (shard_of_set name) as [[logical suffix]|]; [|framed_step]. framed_step; [framed_step|].
  break_if; [break_if; repeat framed_step|]. break_if; [framed_step|]. destruct (parseShardSuffix suffix) as [[start width]|]; [|framed_step].
  break_if; [|framed_step]. framed_step; [framed_step|]. destruct a0 as [[]|[]]; framed_step.
Qed.

Lemma frame_settle l : forall st, frame st.1 (foldl settle_set st l).1.
Proof.
  induction l as [|name l IH]; intros [s n]; [done|]. cbn [foldl]. etransitivity; [|apply IH]. unfold settle_set. cbn [fst].
  assert (Hf : frame s (forgetAgedSet name s).1) by (unfold forgetAgedSet; destruct (s_catalogue s !! name); [repeat break_if|]; done).
  destruct (shardsFor s name i64_min i64_max).1 as [|x live]; [by destruct (forgetAgedSet name s)|].
  assert (Hr : frame s (raiseFirstSeen name (oldestShardStartMs (x :: live)) s).1)
    by (unfold raiseFirstSeen; break_if; [done|]; destruct (s_catalogue s !! name); [break_if|]; done).
  by destruct (raiseFirstSeen _ _ _).
Qed.

Lemma framed_scan keys shards : forall used, framed (scan_shards keys used shards).
Proof.
  induction shards as [|shard shards IH]; intros used; cbn [scan_shards]; [framed_step|]. framed_step; [|apply IH]. unfold scan_shard.
  framed_step; [framed_step|]. destruct a as [it|e]; [|destruct e; framed_step]. framed_step; [framed_step|]. destruct a as [rows it']. framed_step; [framed_step|].
  destruct (Iter_Err it'); framed_step.
Qed.

Lemma framed_free_values label used es : forall i, framed (free_values label used i es).
Proof.
  induction es as [|e es IH]; intros i; cbn [free_values]; [framed_step|]. destruct (_ || _); [apply IH|]. repeat (first [apply IH | framed_step]).
Qed.

Lemma framed_free_label used label : framed (free_label used label).
Proof.
  unfold free_label. framed_step; [framed_step|]. destruct (s_dict a !! label); [|framed_step]. framed_step; [apply framed_free_values|].
  break_if; [framed_step|]. framed_step; [framed_step|]. framed_step; [|framed_step]. unfold rewrite_packed. framed_step; [framed_step|]. framed_step; [framed_step|].
  destruct a3 as [raw|]; [|framed_step]. destruct (dict_Unmarshal raw) as [[|p packed]|]; [framed_step | | framed_step]. destruct (dict_Marshal _); framed_step.
Qed.

Lemma framed_free_labels used labels : framed (free_labels used labels).
Proof. induction labels as [|l labels IH]; cbn [free_labels]; repeat (first [apply IH | apply framed_free_label | framed_step]). Qed.

Lemma framed_reclaim : framed reclaimDictionaries.
Proof.
  unfold reclaimDictionaries. framed_step; [unfold enterEngine; repeat framed_step; break_if; framed_step|]. framed_step; [framed_step|].
  destruct (map_to_list (s_dict a0)).*1 as [|k keys]; [framed_step|].
  framed_step; [unfold reclaim_scan; framed_step; [framed_step | apply framed_scan]|]. unfold reclaim_free. framed_step; [framed_step | apply framed_free_labels].
Qed.

Lemma framed_retention now : framed (RunRetention now).
Proof.
  intros s. unfold RunRetention. apply respects_bind; [apply _ | unfold enterEngine; repeat framed_step; break_if; framed_step | intros _].
  clear s. intros s. unfold mbind at 1, SM_bind at 1, get_store at 1. unfold mbind at 1, SM_bind at 1.
  pose proof (framed_sweep now (Sets (s_db s)) empty_sweep s) as Hsw. destruct (sweep_shards _ _ _ s) as [[sw|e] s1]; cbn [snd] in *; [|done].
  unfold mbind at 1, SM_bind at 1, get_store at 1. pose proof (frame_settle (elements (sw_emptied sw)) (s1, 0)) as Hst.
  destruct (foldl settle_set (s1, 0) _) as [s2 n]. cbn [fst] in Hst. unfold mbind at 1, SM_bind at 1, smodify at 1.
  etransitivity; [exact Hsw|]. etransitivity; [exact Hst|].
  match goal with |- frame _ (?m _).2 => assert (Hq : framed m); [|apply Hq] end.
  framed_step; [break_if; [apply respects_try, framed_save | framed_step]|]. framed_step; [break_if; [apply respects_try, framed_reclaim | framed_step] | framed_step].
Qed.

Lemma framed_drop name : framed (DropShards name).
Proof.
  unfold DropShards. framed_step; [unfold enterEngine; repeat framed_step; break_if; framed_step|]. framed_step; [framed_step|].
  generalize 0. generalize (shardsFor a0 name i64_min i64_max).1.
  intros shards. induction shards as [|x shards IH]; intros n; cbn [drop_shards]; [framed_step|]. framed_step; [framed_step|].
  destruct a1 as [[]|[]]; first [apply IH | framed_step].
Qed.

(** The store between two requests of one key: [n] other requests, under
    whatever keys and however they end, and the sweeps, drops and failures
    of the store itself. *)
Inductive meanwhile : nat -> Store -> Store -> Prop :=
| mw_none s : meanwhile 0 s s
| mw_write n s s1 req key client : meanwhile n s s1 -> meanwhile (S n) s (Write req key client s1).2
| mw_retention n s s1 now : meanwhile n s s1 -> meanwhile n s (RunRetention now s1).2
| mw_reclaim n s s1 : meanwhile n s s1 -> meanwhile n s (reclaimDictionaries s1).2
| mw_drop n s s1 name : meanwhile n s s1 -> meanwhile n s (DropShards name s1).2
| mw_forget n s s1 name : meanwhile n s s1 -> meanwhile n s (ForgetSet name s1)
| mw_save n s s1 : meanwhile n s s1 -> meanwhile n s (saveCatalogue s1).2
| mw_faults n s s1 f : meanwhile n s s1 -> meanwhile n s (s_set_db (set_faults f (s_db s1)) s1).

Lemma Write_open req key client s : s_closed (Write req key client s).2 = s_closed s.
Proof.
  unfold Write, enterEngine, mbind, SM_bind, get_store, mret, SM_ret. destruct (s_closed s) eqn:Ec; [exact Ec|].
  destruct (check_seen_spec key s) as (now & s1 & Hf1 & _ & _ & ->). set (s2 := s_set_idem _ s1).
  assert (E2 : s_closed s2 = false) by (rewrite <- Ec; exact (fr_closed _ _ Hf1)). destruct (idem_seen key now (s_idem s)).1; [exact E2|].
  pose proof (fr_closed _ _ (framed_declare req s2)) as Hf3. destruct (declare req s2) as [[[]|e] s3]; cbn [snd] in *; [|congruence].
  set (q0 := {| q_index := 0; q_resp := _; q_kinds := _ |}). pose proof (fr_closed _ _ (framed_write_batches client (rq_Batches req) q0 s3)) as Hf4.
  destruct (write_batches client (rq_Batches req) q0 s3) as [[q|e] s4]; cbn [snd] in *; [|congruence].
  destruct (decide (key = [])) as [-> | Hk]; [unfold remember; cbn; congruence|].
  destruct (remember_spec key s4 Hk) as (t & now' & s5 & _ & _ & Hf5 & ->). cbn. rewrite (fr_closed _ _ Hf5). congruence.
Qed.

Lemma meanwhile_remembered max key n s s1 : key <> [] -> Z.of_nat n < max -> remembered max key 0 s -> meanwhile n s s1 ->
  remembered max key (Z.of_nat n) s1 /\ s_closed s1 = s_closed s.
Proof.
  intros Hkey Hn Hs Hm. revert Hn. induction Hm as [s|n s s1 req k client _ IH|n s s1 now _ IH|n s s1 _ IH|n s s1 name _ IH|n s s1 name _ IH|n s s1 _ IH|n s s1 f _ IH]; intros Hn.
  - by split.
  - destruct (IH Hs ltac:(lia)) as [Hr Hc]. rewrite Nat2Z.inj_succ, <- Z.add_1_r, Write_open. split; [|done]. apply Write_remembered; [done | lia | lia | done].
  - destruct (IH Hs Hn) as [Hr Hc]. pose proof (framed_retention now s1) as Hf. split; [by eapply remembered_frame | by rewrite (fr_closed _ _ Hf)].
  - destruct (IH Hs Hn) as [Hr Hc]. pose proof (framed_reclaim s1) as Hf. split; [by eapply remembered_frame | by rewrite (fr_closed _ _ Hf)].
  - destruct (IH Hs Hn) as [Hr Hc]. pose proof (framed_drop name s1) as Hf. split; [by eapply remembered_frame | by rewrite (fr_closed _ _ Hf)].
  - destruct (IH Hs Hn) as [Hr Hc]. assert (Hf : frame s1 (ForgetSet name s1)) by (unfold ForgetSet; by break_if). split; [by eapply remembered_frame | by rewrite (fr_closed _ _ Hf)].
  - destruct (IH Hs Hn) as [Hr Hc]. pose proof (framed_save s1) as Hf. split; [by eapply remembered_frame | by rewrite (fr_closed _ _ Hf)].
  - destruct (IH Hs Hn) as [Hr Hc]. split; [by apply (remembered_frame _ _ _ s1) | done].
Qed.

(** A request that was answered is remembered. *)
Lemma answered_remembered req key client s s1 resp : key <> [] -> 0 < ic_max (s_idem s) -> quick_clock s ->
  Write req key client s = (Ok resp, s1) -> wr_Duplicate resp = false -> remembered (ic_max (s_idem s)) key 0 s1 /\ s_closed s1 = false.
Proof.
  intros Hkey Hmax Hquick Hrun Hdup. pose proof (Write_open req key client s) as Hopen. rewrite Hrun in Hopen. cbn [snd] in Hopen.
  unfold Write, enterEngine, mbind, SM_bind, get_store, mret, SM_ret in Hrun. destruct (s_closed s) eqn:Ec; [done|]. split; [|done].
  destruct (check_seen_spec key s) as (now & sa & Hfa & _ & _ & Hseen). rewrite Hseen in Hrun. clear Hseen.
  assert (Hcache : forall c, c = (idem_seen key now (s_idem s)).2 -> ic_max c = ic_max (s_idem s)).
  { intros c ->. unfold idem_seen. destruct (bytes_eqb key []); [done|]. destruct (find_key _ _); [|done]. by break_if. }
  destruct (idem_seen key now (s_idem s)) as [[] cache]; cbn [fst snd] in *; [by injection Hrun as <- _|]. specialize (Hcache cache eq_refl).
  set (sb := s_set_idem cache sa) in *. assert (Hrb : forall t, t ∈ readings sb -> t ∈ readings s) by (intros t Ht; by apply Hfa).
  pose proof (framed_declare req sb) as Hfc. destruct (declare req sb) as [[[]|e] sc]; cbn [snd] in Hfc; [|done].
  set (q0 := {| q_index := 0; q_resp := _; q_kinds := _ |}) in *. pose proof (framed_write_batches client (rq_Batches req) q0 sc) as Hfd.
  destruct (write_batches client (rq_Batches req) q0 sc) as [[q|e] sd]; cbn [snd] in Hfd; [|done].
  assert (Hf : frame sb sd) by (by etransitivity). destruct (remember_spec key sd Hkey) as (t & now' & se & Ht & Hn & Hfe & Hrem). rewrite Hrem in Hrun.
  injection Hrun as _ <-. assert (Hmax' : ic_max (s_idem sd) = ic_max (s_idem s)) by (rewrite (fr_idem _ _ Hf); exact Hcache).
  assert (Hin : forall x, x ∈ readings sd -> x ∈ readings s) by (intros x Hx; apply Hrb; by apply Hf).
  destruct (record_found key t now' (s_idem sd) Hkey ltac:(lia) ltac:(apply Hquick; by apply Hin)) as (item & Hw & He).
  constructor; cbn [s_idem s_set_idem]; [|by rewrite record_max]. exists item. split; [exact Hw|]. intros x Hx. rewrite He. apply Hquick; apply Hin; [done | by apply Hfe].
Qed.

(** C39: a request that was answered and is sent again under the same
    idempotency key is answered as a duplicate and writes nothing: rows,
    dictionaries and catalogue stay as they are, whatever the second request
    carries.  So it is while the clock stays within the window of ten minutes
    and the store is open, whatever the store does in between, as long as
    fewer other requests come in between than keys are kept. *)
Theorem retry_is_duplicate (req req' : WriteRequest) (key client client' : gostr) (n : nat) (s s1 s2 : Store) (resp : WriteResponse) :
  key <> [] -> Z.of_nat n < ic_max (s_idem s) -> quick_clock s ->
  Write req key client s = (Ok resp, s1) -> wr_Duplicate resp = false -> meanwhile n s1 s2 ->
  exists resp' s3, Write req' key client' s2 = (Ok resp', s3) /\ wr_Duplicate resp' = true /\
    wr_Accepted resp' = 0 /\ wr_RejectedCount resp' = 0 /\ wr_CatalogueVersion resp' = s_catVer s2 /\
    s_db s3 = s_db s2 /\ s_dict s3 = s_dict s2 /\ s_catalogue s3 = s_catalogue s2 /\ s_catVer s3 = s_catVer s2.
Proof.
  intros Hkey Hn Hquick Hrun Hdup Hm. destruct (answered_remembered req key client s s1 resp Hkey ltac:(lia) Hquick Hrun Hdup) as [Hr1 Ho1].
  destruct (meanwhile_remembered _ key n s1 s2 Hkey Hn Hr1 Hm) as [Hr2 Ho2].
  unfold Write, enterEngine, mbind, SM_bind, get_store, mret, SM_ret. rewrite Ho2, Ho1.
  destruct (check_seen_remembered _ key (Z.of_nat n) s2 Hkey ltac:(lia) Hr2) as (s3 & -> & _ & (Hdb & Hdi & Hca & Hve) & _).
  eexists _, s3. split; [reflexivity|]. cbn. by rewrite Hve.
Qed.
End Idem.

(** ** Witness *)

Definition retried : WriteRequest :=
  {| rq_Batches := [{| b_Set := bs "cpu"; b_Samples :=
       [{| TSMs := 1700000000000; SubUS := 0; Labels := ∅; Fields := {[bs "v" := VInt 1]}; KeyHint := [] |}] |}]; rq_FieldMeta := []; rq_SetMeta := [] |}.

Lemma still_quick `{J : MetaJSON} `{L : LSM} (s : Store) : s_clock s = [] -> quick_clock s.
Proof.
  intros Hc a b. unfold readings. rewrite Hc, !list_elem_of_singleton. intros -> ->.
  assert (0 < idempotencyWindow) by (by vm_compute). lia.
Qed.

(** Another request and a sweep come in between. *)
Lemma retry_is_duplicate_witness :
  exists resp' s3, Write retried (bs "k") [] (RunRetention 0 (Write retried (bs "j") [] (Write retried (bs "k") [] empty_store).2).2).2 = (Ok resp', s3) /\
    wr_Duplicate resp' = true.
Proof.
  assert (Hok : exists resp, (Write retried (bs "k") [] empty_store).1 = Ok resp /\ wr_Duplicate resp = false) by (eexists; split; vm_compute; reflexivity).
  destruct Hok as (resp & Hok & Hdup).
  destruct (retry_is_duplicate retried retried (bs "k") [] [] 1 empty_store (Write retried (bs "k") [] empty_store).2
    (RunRetention 0 (Write retried (bs "j") [] (Write retried (bs "k") [] empty_store).2).2).2 resp) as (resp' & s3 & Hw & Hd & _);
    [discriminate | by vm_compute | by apply still_quick | by apply run_result | exact Hdup | apply mw_retention, mw_write, mw_none |].
  exists resp', s3. split; [exact Hw | exact Hd].
Defined.
