(* ===== verification/StorePlan.v ===== *)
(** * Planning a query ([internal/store/query.go])

    The planner turns a query's predicate into an engine expression: every
    comparison of a label with a text becomes a comparison of the column's
    integer with the positions the text has in the label's dictionary, and a
    regular expression is run over the dictionary instead of over the rows.
    The theorem says that the expression holds of a stored row exactly when
    the query's predicate holds of the row's labels. *)

From Stdlib Require Import ZArith Lia Bool Strings.Byte Strings.String Floats.SpecFloat.
From stdpp Require Import gmap sorting.
From S2P Require Import Prelude Bytes Float64 GoStd GoText Model Wire EngineKeys EngineCodec EngineFilter EngineDB EngineQuery.
From S2P Require Import ExtractTimestamp StoreShard StoreState StoreDict StoreDictProofs StoreCatalogue StoreDictProps StoreRetention Render MqlAst MqlValidate.

(** [narrower]: a limit on top of a ceiling. *)
Definition narrower (ceiling : Z) (limit : option Z) : Z :=
  match limit with
  | None => ceiling
  | Some l =>
      if l <=? 0 then ceiling
      else if (ceiling <=? 0) || (l <? ceiling) then l
      else ceiling
  end.

(** ** The diagnostics, by code and by what their text is made of *)

(** What stopped a query short. *)
Inductive gate : Type :=
| GatePoints
| GateSeries
| GateHeatmapSeries
| GateLabelPoints
| GateLabelValues
| GateRows (limit : Z) (newest : bool).
#[export] Instance gate_eq_dec : EqDecision gate.
Proof. solve_decision. Defined.

Inductive Diag : Type :=
| Checked (d : VDiag)           (* of [mql.Validate] *)
| W201_eq (label value : gostr)
| W201_in (label : gostr) (missing : list gostr)
| W201_every (regex label : gostr)
| W201_none (regex label : gostr)
| W202 (regex label : gostr)
| E001_regex (regex : gostr)
| W301_grouped (collapsed : Z)
| W301_ungrouped (collapsed : Z) (keys : list gostr)
| W302
| W401 (g : gate)
| W402
| E002_ast
| E002_set (set : gostr)
| E008_heatmap
| E009 (name set : gostr).
#[export] Instance Diag_eq_dec : EqDecision Diag.
Proof. solve_decision. Defined.

(** [appendNewDiags]. *)
Fixpoint appendNewDiags (have add : list Diag) : list Diag :=
  match add with
  | [] => have
  | d :: add' => appendNewDiags (if bool_decide (d ∈ have) then have else have ++ [d]) add'
  end.

(** ** The catalogue, as the query language reads it *)

Definition field_info (nowMs : Z) (f : fieldEntry) : FieldInfo :=
  {| fi_Kind := kind f; fi_Unit := fe_Unit f; fi_UnitHint := fe_UnitHint f; fi_Description := fe_Description f;
     fi_MaxInterval := fe_MaxInterval f; fi_LimitMin := fe_LimitMin f; fi_LimitMax := fe_LimitMax f;
     fi_BucketSet := fe_BucketSet f; fi_BucketIndex := fe_BucketIndex f; fi_BucketEdge := fe_BucketEdge f;
     fi_Stale := stale nowMs f |}.

(** ** What a plan holds *)

Record resolvedField : Type := {
  rf_name : gostr;
  rf_label : gostr;
  rf_spec : Render.Spec;
  rf_meta : option FieldMeta;
  rf_required : bool;
}.

Record queryPlan : Type := {
  qp_shards : list gostr;
  qp_expr : option EngineFilter.Expr;
  qp_projection : list gostr;
  qp_fields : list resolvedField;
  qp_impossible : bool;
  qp_reverse : bool;
  qp_overlapping : bool;
}.

(** What [lower] answers for a node, with the warnings it appends and the
    columns it adds to the projection. *)
Record lowering : Type := {
  lo_expr : EngineFilter.Expr;
  lo_never : bool;
  lo_warns : list Diag;
  lo_proj : gset gostr;
}.

Definition lower_to (col : gostr) (e : EngineFilter.Expr) (never : bool) (warns : list Diag) : lowering :=
  {| lo_expr := e; lo_never := never; lo_warns := warns; lo_proj := {[col]} |}.

Section Plan.
Context `{FloatText} `{Regexp} `{RC : !RegexpCompile} `{J : MetaJSON} `{L : LSM} `{SJ : StoreJSON}.

(** ** The schema *)

Definition Schema_HasSet (s : Store) (set : gostr) : bool := bool_decide (is_Some (s_catalogue s !! set)).

Definition Schema_Field (s : Store) (set field : gostr) : option FieldInfo :=
  match s_catalogue s !! set with
  | None => None
  | Some e => field_info (s_now s / 1000000) <$> se_Fields e !! field
  end.

Definition Schema_HasLabel (s : Store) (set key : gostr) : bool :=
  match s_catalogue s !! set with None => false | Some e => bool_decide (key ∈ se_Labels e) end.

Definition Schema_BucketSet (s : Store) (set name : gostr) : option (list gostr) :=
  match s_catalogue s !! set with None => None | Some e => bi_Buckets <$> se_BucketSets e !! name end.

Definition Store_Schema (s : Store) : Schema :=
  {| HasSet := Schema_HasSet s; sc_Sets := Store_Sets s; Field := Schema_Field s; HasLabel := Schema_HasLabel s; BucketSet := Schema_BucketSet s |}.

Definition setsWithLabel (s : Store) (key : gostr) : list gostr :=
  sort_strings (omap (fun ne : gostr * setEntry => if decide (key ∈ se_Labels ne.2) then Some ne.1 else None)
    (map_to_list (s_catalogue s))).

(** ** A selected field *)

Definition limitsOrdered (info : FieldInfo) : bool :=
  match fi_LimitMin info, fi_LimitMax info with
  | Some lo, Some hi => fleb lo hi
  | _, _ => true
  end.

Definition resolve_SSE (m : option MqlAst.SSE) : Render.SSE :=
  match m with
  | None => {| sse_Mode := SSEConst; sse_Value := f_zero |}
  | Some m =>
      if bytes_eqb (ss_Mode m) (bs "repeat") then {| sse_Mode := SSERepeat; sse_Value := f_zero |}
      else if bytes_eqb (ss_Mode m) (bs "off") then {| sse_Mode := SSEOff; sse_Value := f_zero |}
      else {| sse_Mode := SSEConst; sse_Value := ss_Value m |}
  end.

(** The clamp an explicit modifier or the declared limits install. *)
Definition resolve_clamp (m : Modifiers) (info : option FieldInfo) : option f64 * option f64 * bool :=
  match m_Clamp m with
  | Some c => (cl_Min c, cl_Max c, bytes_eqb (cl_Else c) (bs "raw"))
  | None =>
      match info with
      | Some i =>
          if negb (m_Negate m) && (negb (is_none (fi_LimitMin i)) || negb (is_none (fi_LimitMax i))) && limitsOrdered i
          then (fi_LimitMin i, fi_LimitMax i, m_Delta m)
          else (None, None, false)
      | None => (None, None, false)
      end
  end.

Definition resolveField (s : Store) (set : gostr) (fe : FieldExpr) : resolvedField :=
  let m := fe_Modifiers fe in
  let info := Schema_Field s set (fe_Field fe) in
  let '(lo, hi, raw) := resolve_clamp m info in
  {| rf_name := fe_Field fe; rf_label := FieldExpr_Name fe;
     rf_spec := {| sp_Delta := m_Delta m; sp_PerSecond := m_PerSecond m; sp_Negate := m_Negate m;
       sp_GapMs := match m_GapMs m, info with
                   | Some g, _ => g
                   | None, Some i => fi_MaxInterval i
                   | None, None => 0
                   end;
       sp_ClampMin := lo; sp_ClampMax := hi; sp_ClampElseRaw := raw;
       sp_SSE := resolve_SSE (m_SSE m); sp_EndMs := 0 |};
     rf_meta := (fun i => {| fm_Set := set; fm_Field := fe_Field fe; fm_Kind := fi_Kind i; fm_Unit := fi_Unit i;
       fm_UnitHint := fi_UnitHint i; fm_Description := fi_Description i; fm_MaxIntervalMs := 0; fm_MaxIntervalS := 0;
       fm_LimitMin := None; fm_LimitMax := None; fm_BucketSet := []; fm_BucketIndex := 0; fm_BucketEdge := f_zero |}) <$> info;
     rf_required := m_Required m |}.

(** ** The predicate *)

(** The values of an [IN] list that a dictionary has, and those it has not. *)
Fixpoint in_positions (s : Store) (label : gostr) (values : list gostr) : list Value * list gostr :=
  match values with
  | [] => ([], [])
  | v :: values' =>
      let '(vals, missing) := in_positions s label values' in
      match lookupPositions s label v with
      | Some idxs => (idxs ++ vals, missing)
      | None => (vals, v :: missing)
      end
  end.

Definition lower_eq (s : Store) (c : Compare) : lowering :=
  let l := c_Label c in
  match lookupPositions s l (c_Value c) with
  | None => lower_to l (ConstExpr false) true [W201_eq l (c_Value c)]
  | Some [i] => lower_to l (EqExpr l i) false []
  | Some idxs => lower_to l (newInExpr l idxs) false []
  end.

Definition lower_ne (s : Store) (c : Compare) : lowering :=
  let l := c_Label c in
  match lookupPositions s l (c_Value c) with
  | None => lower_to l (ExistsExpr l) false []
  | Some idxs => lower_to l (AndExpr [ExistsExpr l; NotExpr (newInExpr l idxs)]) false []
  end.

Definition lower_in (s : Store) (i : InList) : lowering :=
  let l := in_Label i in
  let '(vals, missing) := in_positions s l (in_Values i) in
  let warns := match missing with [] => [] | _ => [W201_in l missing] end in
  match vals with
  | [] => lower_to l (ConstExpr false) true warns
  | _ => lower_to l (newInExpr l vals) false warns
  end.

Definition lower_match (s : Store) (m : MatchExpr) (negate : bool) : lowering :=
  let l := mx_Label m in
  let re := mx_Regex m in
  match Compile re with
  | None => lower_to l (ConstExpr false) (negb negate) [E001_regex re]
  | Some r =>
      let '(vals, all) := labelIndicesMatching s l (MatchString r) in
      if (zlen vals =? all) && (all >? 0) then
        if negate then lower_to l (ConstExpr false) true [W201_every re l]
        else lower_to l (ExistsExpr l) false [W202 re l]
      else match vals with
           | [] => if negate then lower_to l (ExistsExpr l) false []
                   else lower_to l (ConstExpr false) true [W201_none re l]
           | _ =>
               let in_ := newInExpr l vals in
               lower_to l (if negate then AndExpr [ExistsExpr l; NotExpr in_] else in_) false []
           end
  end.

Fixpoint lower (s : Store) (e : Expr) : lowering :=
  let '(mkExpr ands ors nt eq ne il m nm has missing) := e in
  match ands, ors, nt with
  | _ :: _, _, _ =>
      let subs := map (lower s) ands in
      {| lo_expr := AndExpr (map lo_expr subs); lo_never := existsb lo_never subs;
         lo_warns := concat (map lo_warns subs); lo_proj := ⋃ map lo_proj subs |}
  | [], _ :: _, _ =>
      let subs := map (lower s) ors in
      {| lo_expr := OrExpr (map lo_expr subs); lo_never := forallb lo_never subs;
         lo_warns := concat (map lo_warns subs); lo_proj := ⋃ map lo_proj subs |}
  | [], [], Some sub =>
      let i := lower s sub in
      {| lo_expr := NotExpr (lo_expr i); lo_never := false; lo_warns := lo_warns i; lo_proj := lo_proj i |}
  | [], [], None =>
      if negb (is_nil has) then lower_to has (ExistsExpr has) false []
      else if negb (is_nil missing) then lower_to missing (NotExpr (ExistsExpr missing)) false []
      else match eq, ne, il with
           | Some c, _, _ => lower_eq s c
           | None, Some c, _ => lower_ne s c
           | None, None, Some i => lower_in s i
           | None, None, None =>
               match m, nm with
               | Some x, _ => lower_match s x false
               | None, Some x => lower_match s x true
               | None, None => {| lo_expr := ConstExpr true; lo_never := false; lo_warns := []; lo_proj := ∅ |}
               end
           end
  end.

(** [buildExpr], with the columns it adds to the projection. *)
Definition buildExpr (s : Store) (e : Expr) (proj : gset gostr)
    : option EngineFilter.Expr * list Diag * bool * gset gostr :=
  if Expr_Empty e then (None, [], false, proj)
  else let r := lower s e in (Some (lo_expr r), lo_warns r, lo_never r, proj ∪ lo_proj r).

(** ** The plan *)

(** The columns the selected fields need. *)
Definition select_columns (s : Store) (set : gostr) (sel : list FieldExpr) : gset gostr :=
  ⋃ map (fun fe : FieldExpr =>
    if negb (is_nil (fe_Histogram fe)) then
      match s_catalogue s !! set with
      | None => ∅
      | Some e => list_to_set (base.filter (fun b => b <> []) (default [] (bi_Buckets <$> se_BucketSets e !! fe_Histogram fe)))
      end
    else {[fe_Field fe]}) sel.

Definition requires (sel : list FieldExpr) : list EngineFilter.Expr :=
  omap (fun fe => if m_Required (fe_Modifiers fe) && negb (is_nil (fe_Field fe)) then Some (ExistsExpr (fe_Field fe)) else None) sel.

Definition with_requires (expr : option EngineFilter.Expr) (reqs : list EngineFilter.Expr) : option EngineFilter.Expr :=
  match reqs with
  | [] => expr
  | _ => Some (match expr with None => AndExpr reqs | Some e => AndExpr (e :: reqs) end)
  end.

Definition Store_plan (s : Store) (q : MqlAst.Query) (fromMs toMs : Z) : queryPlan * list Diag :=
  let '(shards, overlapping) := shardsFor s (q_From q) fromMs toMs in
  let proj := {[TimestampField]} ∪ list_to_set (q_By q) ∪ select_columns s (q_From q) (q_Select q) in
  let fields := map (resolveField s (q_From q)) (base.filter (fun fe => fe_Histogram fe = []) (q_Select q)) in
  let '(expr, warns, impossible, proj) := buildExpr s (q_Where q) proj in
  ({| qp_shards := shards; qp_expr := with_requires expr (requires (q_Select q));
      qp_projection := sort_strings (elements proj); qp_fields := fields; qp_impossible := impossible;
      qp_reverse := bytes_eqb (q_Format q) FormatLogs; qp_overlapping := overlapping |}, warns).

(** ** What the predicate of a query means *)

(** Read off the labels of something, and the columns it has. *)
Section Meaning.
Context (label : gostr -> option gostr) (has_column : gostr -> bool).

Definition says (l : gostr) (P : gostr -> bool) : bool := match label l with Some v => P v | None => false end.

Fixpoint holds_of (e : Expr) : bool :=
  let '(mkExpr ands ors nt eq ne il m nm has missing) := e in
  match ands, ors, nt with
  | _ :: _, _, _ => forallb holds_of ands
  | [], _ :: _, _ => existsb holds_of ors
  | [], [], Some sub => negb (holds_of sub)
  | [], [], None =>
      if negb (is_nil has) then has_column has
      else if negb (is_nil missing) then negb (has_column missing)
      else match eq, ne, il with
           | Some c, _, _ => says (c_Label c) (bytes_eqb (c_Value c))
           | None, Some c, _ => says (c_Label c) (fun v => negb (bytes_eqb (c_Value c) v))
           | None, None, Some i => says (in_Label i) (fun v => existsb (bytes_eqb v) (in_Values i))
           | None, None, None =>
               match m, nm with
               | Some x, _ => says (mx_Label x) (fun v => match Compile (mx_Regex x) with Some r => MatchString r v | None => false end)
               | None, Some x => says (mx_Label x) (fun v => match Compile (mx_Regex x) with Some r => negb (MatchString r v) | None => false end)
               | None, None => true
               end
           end
  end.
End Meaning.

(** The text a row carries under a label. *)
Definition label_of (s : Store) (row : Row) (l : gostr) : option gostr :=
  match row !! l with Some (VInt i) => labelValue s l (i32 i) | _ => None end.

Definition carries (row : Row) (c : gostr) : bool := bool_decide (is_Some (row !! c)).
Definition label_is (s : Store) (row : Row) (l : gostr) (P : gostr -> bool) : bool := says (label_of s row) l P.

(** Whether a row satisfies a predicate, read off its labels' texts. *)
Definition satisfies (s : Store) (row : Row) (e : Expr) : bool := holds_of (label_of s row) (carries row) e.

(** The labels a predicate compares with a text. *)
Fixpoint compared (e : Expr) : gset gostr :=
  let '(mkExpr ands ors nt eq ne il m nm has missing) := e in
  match ands, ors, nt with
  | _ :: _, _, _ => ⋃ map compared ands
  | [], _ :: _, _ => ⋃ map compared ors
  | [], [], Some sub => compared sub
  | [], [], None =>
      list_to_set (omap (fun o => o) [c_Label <$> eq; c_Label <$> ne; in_Label <$> il; mx_Label <$> m; mx_Label <$> nm])
  end.

(** Every label in [ls] that a row carries has its text in the dictionary. *)
Definition labels_resolve (s : Store) (row : Row) (ls : gset gostr) : Prop :=
  forall l v, l ∈ ls -> row !! l = Some v -> exists i x, v = VInt i /\ labelValue s l i = Some x.

End Plan.
