(* ===== verification/StorePlanProps.v ===== *)
(** * What a plan promises ([internal/store/query.go])

    The expression the planner pushes into the engine holds of a row exactly
    when the query's predicate holds of the row's labels, a predicate it calls
    impossible holds of no row, and every column the expression reads is in
    the projection. *)

From Stdlib Require Import ZArith Lia Bool Strings.Byte Strings.String Floats.SpecFloat.
From stdpp Require Import gmap sorting.
From S2P Require Import Prelude Bytes Float64 GoStd GoText Model Wire EngineKeys EngineCodec EngineFilter EngineDB EngineQuery.
From S2P Require Import ExtractTimestamp StoreShard StoreState StoreDict StoreDictProofs StoreDictProps StoreRetention Render MqlAst MqlValidate StorePlan.

(** ** Comparing positions *)

Lemma of_int_feqb i j : exact i -> exact j -> feqb (of_int i) (of_int j) = (i =? j).
Proof.
  intros Hi Hj. destruct (i =? j) eqn:E; bsplit.
  - subst. apply feqb_refl. apply of_int_finite. unfold exact in *. lia.
  - destruct (feqb _ _) eqn:F; [|done]. exfalso. apply E. rewrite <- (to_int_of_int i), <- (to_int_of_int j) by done.
    apply feqb_spec in F as (_ & _ & F).
    destruct (Z.eq_dec i 0) as [-> | Hi0], (Z.eq_dec j 0) as [-> | Hj0]; [done | | |].
    + destruct (of_int_exact j Hj Hj0) as (M & d & _ & _ & _ & _ & Ej). rewrite Ej in *. rewrite of_int_zero in F. by destruct (j <? 0).
    + destruct (of_int_exact i Hi Hi0) as (M & d & _ & _ & _ & _ & Ei). rewrite Ei in *. rewrite of_int_zero in F. by destruct (i <? 0).
    + destruct (of_int_exact i Hi Hi0) as (M & d & _ & _ & _ & _ & Ei), (of_int_exact j Hj Hj0) as (M' & d' & _ & _ & _ & _ & Ej).
      rewrite Ei, Ej in *. cbn [frank] in F. destruct (i <? 0), (j <? 0); try discriminate F; injection F as Hd HM;
        replace M with M' by lia; replace (d - 53) with (d' - 53) by lia; done.
Qed.

Lemma small_exact i : 0 <= i <= 2147483647 -> exact i.
Proof. unfold exact. lia. Qed.


Section Plan.
Context `{FloatText} `{Regexp} `{RC : !RegexpCompile} `{J : MetaJSON} `{L : LSM} `{SJ : StoreJSON}.
Implicit Types (s : Store) (row : Row).

Lemma valueEqual_int i j : 0 <= i <= 2147483647 -> 0 <= j <= 2147483647 -> valueEqual (VInt i) (VInt j) = (i =? j).
Proof. intros Hi Hj. unfold valueEqual. cbn. apply of_int_feqb; by apply small_exact. Qed.

Lemma labelValue_small s l i x : dicts_wf s -> labelValue s l i = Some x -> 0 <= i <= 2147483647 /\ x <> [].
Proof.
  intros Hwf (d & Hd & Hi & Hx)%labelValue_spec. pose proof (idx_range _ _ _ Hi). pose proof (ag_small _ _ (Hwf _ _ Hd)). split; [lia | done].
Qed.

(** The positions a list of values names, all of them small. *)
Definition small_ints (vals : list Value) : Prop := forall v, v ∈ vals -> exists j, v = VInt j /\ 0 <= j <= 2147483647.

Lemma sem_in l vals row i : small_ints vals -> 0 <= i <= 2147483647 -> row !! l = Some (VInt i) ->
  sem (newInExpr l vals) row = true <-> VInt i ∈ vals.
Proof.
  intros Hsm Hi Hrow. rewrite newInExpr_linear. cbn [sem in_eval]. rewrite Hrow, existsb_exists. split.
  - intros (v & Hin%list_elem_of_In & Hv). destruct (Hsm v Hin) as (j & -> & Hj). rewrite valueEqual_int in Hv by done. bsplit. by subst.
  - intros Hin. exists (VInt i). split; [by apply list_elem_of_In|]. rewrite valueEqual_int by done. apply Z.eqb_refl.
Qed.

Lemma sem_in_absent l vals row : row !! l = None -> sem (newInExpr l vals) row = false.
Proof. intros Hrow. rewrite newInExpr_linear. cbn [sem]. by rewrite Hrow. Qed.

(** The positions of a value are the entries that hold it. *)
Lemma lookupPositions_spec s l value : dicts_wf s ->
  match lookupPositions s l value with
  | Some vals => vals <> [] /\ small_ints vals /\ (forall i, VInt i ∈ vals <-> labelValue s l i = Some value)
  | None => forall i, labelValue s l i <> Some value
  end.
Proof.
  intros Hwf. unfold lookupPositions. destruct (s_dict s !! l) as [d|] eqn:Hd.
  2: { intros i (d & ? & _)%labelValue_spec. congruence. }
  pose proof (Hwf _ _ Hd) as Hag. cbn in Hag. unfold positions. destruct (index d !! value) as [i0|] eqn:Hi; cbn.
  - assert (Hin : forall i, i ∈ i0 :: default [] (alias d !! value) <-> labelValue s l i = Some value).
    { intros i. rewrite elem_of_cons. split.
      - intros [-> | Ha]; apply labelValue_spec; exists d; [destruct (ag_index _ _ Hag _ _ Hi) | destruct (ag_alias _ _ Hag _ _ Ha)]; done.
      - intros (d' & Hd' & Hx & Hne)%labelValue_spec. rewrite Hd in Hd'. injection Hd' as <-.
        destruct (ag_entry _ _ Hag _ _ Hx Hne) as (j & Hj & Hin). rewrite Hi in Hj. by injection Hj as <-. }
    split; [done|]. split.
    + intros v Hv. change (v ∈ VInt <$> (i0 :: default [] (alias d !! value))) in Hv. apply list_elem_of_fmap_1 in Hv as (j & -> & Hj). exists j. split; [done|]. apply Hin in Hj. by destruct (labelValue_small _ _ _ _ Hwf Hj).
    + intros i. rewrite <- Hin. change (VInt i ∈ VInt <$> (i0 :: default [] (alias d !! value)) <-> i ∈ i0 :: default [] (alias d !! value)).
      rewrite list_elem_of_fmap. split; [by intros (j & [= ->] & ?) | intros ?; by exists i].
  - intros i (d' & Hd' & Hx & Hne)%labelValue_spec. rewrite Hd in Hd'. injection Hd' as <-.
    destruct (ag_entry _ _ Hag _ _ Hx Hne) as (j & Hj & _). congruence.
Qed.

(** The count [labelIndicesMatching] returns beside the positions. *)
Lemma matching_from_total keep es : forall i, let '(vals, total) := matching_from i keep es in
  zlen vals <= total /\ (zlen vals = total -> Forall (fun e => e = [] \/ keep e = true) es).
Proof.
  induction es as [|e es IH]; intros i; cbn [matching_from]; [by split; [|constructor]|].
  specialize (IH (i + 1)). destruct (matching_from (i + 1) keep es) as [vals total]. destruct IH as [Hle Hall].
  destruct (bytes_eqb e []) eqn:Ee.
  - split; [done|]. intros ?. constructor; [left; by apply bytes_eqb_spec | auto].
  - destruct (keep e) eqn:Ek; rewrite ?zlen_cons; (split; [lia|]); intros Heq; [|exfalso; lia].
    constructor; [by right | apply Hall; lia].
Qed.

Lemma labelIndicesMatching_spec s l keep : dicts_wf s ->
  let '(vals, all) := labelIndicesMatching s l keep in
  small_ints vals /\
  (forall i, VInt i ∈ vals <-> exists x, labelValue s l i = Some x /\ keep x = true) /\
  (zlen vals = all -> forall i x, labelValue s l i = Some x -> keep x = true).
Proof.
  intros Hwf. unfold labelIndicesMatching. destruct (s_dict s !! l) as [d|] eqn:Hd.
  2: { split; [by intros v ?%elem_of_nil|]. split.
       - intros i. split; [by intros ?%elem_of_nil|]. intros (x & (d & ? & _)%labelValue_spec & _). congruence.
       - intros _ i x (d & ? & _)%labelValue_spec. congruence. }
  pose proof (matching_from_elem keep (Entries d) 0) as Helem. pose proof (matching_from_total keep (Entries d) 0) as Htot.
  destruct (matching_from 0 keep (Entries d)) as [vals total]. cbn [fst] in Helem. destruct Htot as [_ Htot].
  assert (Hin : forall i, VInt i ∈ vals <-> exists x, labelValue s l i = Some x /\ keep x = true).
  { intros i. rewrite Helem. split.
    - intros (n & e & [= ->] & Hn & Hne & Hk). exists e. split; [|done]. apply labelValue_spec. exists d. split; [done|].
      split; [|done]. apply idx_Some. split; [lia|]. by rewrite Z.add_0_l, Nat2Z.id.
    - intros (x & (d' & Hd' & [Hpos Hx]%idx_Some & Hne)%labelValue_spec & Hk). rewrite Hd in Hd'. injection Hd' as <-.
      exists (Z.to_nat i), x. split_and!; try done. f_equal. lia. }
  split; [|split; [exact Hin|]].
  - intros v Hv. apply Helem in Hv as Hv'. destruct Hv' as (n & e & -> & _). exists (0 + Z.of_nat n). split; [done|].
    apply Hin in Hv as (x & Hx & _). by destruct (labelValue_small _ _ _ _ Hwf Hx).
  - intros Heq i x (d' & Hd' & [Hpos Hx]%idx_Some & Hne)%labelValue_spec. rewrite Hd in Hd'. injection Hd' as <-.
    pose proof (proj1 (Forall_lookup _ _) (Htot Heq) _ _ Hx) as Hcase. cbn in Hcase. by destruct Hcase.
Qed.

(** ** One clause *)

(** A clause that compares [l] is lowered faithfully on a row. *)
Definition faithful (s : Store) (row : Row) (r : lowering) (meaning : bool) : Prop :=
  sem (lo_expr r) row = meaning /\ (lo_never r = true -> meaning = false).

(** What a row that labels_resolve carries under a label. *)
Lemma label_cases s row l : dicts_wf s -> labels_resolve s row {[l]} ->
  (row !! l = None /\ label_of s row l = None) \/
  (exists i x, row !! l = Some (VInt i) /\ labelValue s l i = Some x /\ label_of s row l = Some x /\ 0 <= i <= 2147483647).
Proof.
  intros Hwf Hres. unfold label_of. destruct (row !! l) as [v|] eqn:Hrow; [right|by left].
  destruct (Hres l v ltac:(set_solver) Hrow) as (i & x & -> & Hx). destruct (labelValue_small _ _ _ _ Hwf Hx) as [Hi _].
  exists i, x. rewrite i32_id by lia. done.
Qed.

Lemma lower_eq_faithful s row c : dicts_wf s -> labels_resolve s row {[c_Label c]} ->
  faithful s row (lower_eq s c) (label_is s row (c_Label c) (bytes_eqb (c_Value c))).
Proof.
  intros Hwf Hres. unfold lower_eq, label_is, says. pose proof (lookupPositions_spec s (c_Label c) (c_Value c) Hwf) as Hpos.
  destruct (lookupPositions _ _ _) as [vals|].
  - destruct Hpos as (Hne & Hsm & Hin).
    assert (Hsem : sem (newInExpr (c_Label c) vals) row =
              match label_of s row (c_Label c) with Some v => bytes_eqb (c_Value c) v | None => false end).
    { destruct (label_cases s row (c_Label c) Hwf Hres) as [[Hrow ->] | (i & x & Hrow & Hx & -> & Hi)]; [by apply sem_in_absent|].
      apply Bool.eq_iff_eq_true. rewrite (sem_in _ _ _ i) by done. rewrite Hin, bytes_eqb_spec, Hx. split; congruence. }
    destruct vals as [|v [|]]; [done | | split; [exact Hsem | done]].
    destruct (Hsm v ltac:(set_solver)) as (j & -> & Hj). split; [|done].
    rewrite newInExpr_linear in Hsem. cbn [sem in_eval existsb] in Hsem. cbn [lower_to lo_expr sem]. rewrite <- Hsem.
    destruct (row !! c_Label c); [|done]. by rewrite orb_false_r.
  - destruct (label_cases s row (c_Label c) Hwf Hres) as [[Hrow ->] | (i & x & Hrow & Hx & -> & Hi)]; [done|].
    split; cbn; [symmetry|intros _]; apply bytes_eqb_neq; intros E; apply (Hpos i); congruence.
Qed.

Lemma lower_ne_faithful s row c : dicts_wf s -> labels_resolve s row {[c_Label c]} ->
  faithful s row (lower_ne s c) (label_is s row (c_Label c) (fun v => negb (bytes_eqb (c_Value c) v))).
Proof.
  intros Hwf Hres. unfold lower_ne, label_is, says. pose proof (lookupPositions_spec s (c_Label c) (c_Value c) Hwf) as Hpos.
  destruct (label_cases s row (c_Label c) Hwf Hres) as [[Hrow ->] | (i & x & Hrow & Hx & -> & Hi)].
  { destruct (lookupPositions _ _ _); (split; [|done]); cbn [lower_to lo_expr sem]; by rewrite Hrow. }
  destruct (lookupPositions _ _ _) as [vals|].
  - destruct Hpos as (Hne & Hsm & Hin). split; [|done]. cbn [lower_to lo_expr]. cbn [sem].
    rewrite Hrow. cbn [andb]. rewrite andb_true_r. f_equal. apply Bool.eq_iff_eq_true.
    rewrite (sem_in _ _ _ i) by done. rewrite Hin, bytes_eqb_spec, Hx. split; congruence.
  - split; [|done]. cbn [lower_to lo_expr sem]. rewrite Hrow. symmetry. apply negb_true_iff, bytes_eqb_neq. intros E. apply (Hpos i). congruence.
Qed.

Lemma in_positions_spec s l values : dicts_wf s ->
  small_ints (in_positions s l values).1 /\
  forall i, VInt i ∈ (in_positions s l values).1 <-> exists x, labelValue s l i = Some x /\ x ∈ values.
Proof.
  intros Hwf. induction values as [|v values IH]; cbn [in_positions].
  - split; [by intros v ?%elem_of_nil|]. intros i. split; [by intros ?%elem_of_nil | by intros (x & _ & ?%elem_of_nil)].
  - destruct (in_positions s l values) as [vals missing]. cbn [fst] in IH. destruct IH as [Hsm Hin].
    pose proof (lookupPositions_spec s l v Hwf) as Hpos. destruct (lookupPositions s l v) as [idxs|]; cbn [fst].
    + destruct Hpos as (_ & Hsm' & Hin'). split.
      * intros w [Hw | Hw]%elem_of_app; [by apply Hsm' | by apply Hsm].
      * intros i. rewrite elem_of_app, Hin', Hin. split.
        -- intros [? | (x & ? & ?)]; [exists v | exists x]; rewrite elem_of_cons; auto.
        -- intros (x & Hx & [-> | ?]%elem_of_cons); [by left | right; by exists x].
    + split; [done|]. intros i. rewrite Hin. split.
      * intros (x & ? & ?). exists x. rewrite elem_of_cons. auto.
      * intros (x & Hx & [-> | ?]%elem_of_cons); [by destruct (Hpos i) | by exists x].
Qed.

Lemma lower_in_faithful s row il : dicts_wf s -> labels_resolve s row {[in_Label il]} ->
  faithful s row (lower_in s il) (label_is s row (in_Label il) (fun v => existsb (bytes_eqb v) (in_Values il))).
Proof.
  intros Hwf Hres. unfold lower_in, label_is, says. destruct (in_positions_spec s (in_Label il) (in_Values il) Hwf) as [Hsm Hin].
  destruct (in_positions s (in_Label il) (in_Values il)) as [vals missing]. cbn [fst] in Hsm, Hin.
  assert (Hsem : sem (newInExpr (in_Label il) vals) row =
            match label_of s row (in_Label il) with Some v => existsb (bytes_eqb v) (in_Values il) | None => false end).
  { destruct (label_cases s row (in_Label il) Hwf Hres) as [[Hrow ->] | (i & x & Hrow & Hx & -> & Hi)]; [by apply sem_in_absent|].
    apply Bool.eq_iff_eq_true. rewrite (sem_in _ _ _ i) by done. rewrite Hin, existsb_exists. split.
    - intros (x' & Hx' & Hx2). exists x'. rewrite Hx in Hx'. injection Hx' as <-. split; [by apply list_elem_of_In | apply bytes_eqb_refl].
    - intros (x' & Hx'%list_elem_of_In & He%bytes_eqb_spec). subst x'. by exists x. }
  destruct vals as [|v vals]; [|by split].
  assert (Hf : match label_of s row (in_Label il) with Some v => existsb (bytes_eqb v) (in_Values il) | None => false end = false).
  { rewrite <- Hsem, newInExpr_linear. cbn. by destruct (row !! in_Label il). }
  rewrite Hf. by split.
Qed.

Definition matches (m : MatchExpr) (negate : bool) (v : gostr) : bool :=
  match Compile (mx_Regex m) with
  | Some r => if negate then negb (MatchString r v) else MatchString r v
  | None => false
  end.

Lemma lower_match_faithful s row m negate : dicts_wf s -> labels_resolve s row {[mx_Label m]} ->
  faithful s row (lower_match s m negate) (label_is s row (mx_Label m) (matches m negate)).
Proof.
  intros Hwf Hres. unfold lower_match, label_is, says, matches. set (l := mx_Label m) in *.
  destruct (Compile (mx_Regex m)) as [r|]; [|split; [by destruct (label_of s row l) | intros _; by destruct (label_of s row l)]].
  pose proof (labelIndicesMatching_spec s l (MatchString r) Hwf) as Hspec.
  destruct (labelIndicesMatching s l (MatchString r)) as [vals all]. destruct Hspec as (Hsm & Hin & Hall).
  destruct (label_cases s row l Hwf Hres) as [[Hrow ->] | (i & x & Hrow & Hx & -> & Hi)].
  { destruct (_ && _); [destruct negate|destruct vals; destruct negate]; split; try done; cbn [lower_to lo_expr];
      try (by apply sem_in_absent); cbn [sem]; by rewrite Hrow. }
  assert (Hsem : sem (newInExpr l vals) row = MatchString r x).
  { apply Bool.eq_iff_eq_true. rewrite (sem_in _ _ _ i) by done. rewrite Hin, Hx. split.
    - by intros (? & [= <-] & ?).
    - intros ?. by exists x. }
  destruct ((zlen vals =? all) && (all >? 0)) eqn:Efold.
  - apply andb_prop in Efold as [Efold _]. bsplit. rewrite (Hall Efold i x Hx).
    destruct negate; split; try done; cbn [lower_to lo_expr sem]; by rewrite ?Hrow.
  - destruct vals as [|v vals].
    + assert (Hf : MatchString r x = false) by (rewrite <- Hsem, newInExpr_linear; cbn; by rewrite Hrow).
      rewrite Hf. destruct negate; split; try done; cbn [lower_to lo_expr sem]; by rewrite ?Hrow.
    + destruct negate; (split; [|done]); cbn [lower_to lo_expr]; [|exact Hsem].
      cbn [sem]. rewrite Hsem, Hrow. cbn [andb]. by rewrite andb_true_r.
Qed.

(** ** The whole predicate *)

Lemma labels_resolve_sub s row ls ls' : ls ⊆ ls' -> labels_resolve s row ls' -> labels_resolve s row ls.
Proof. intros Hsub Hres l v Hl. apply Hres. by apply Hsub. Qed.

Lemma faithful_list s row (l : list Expr) :
  Forall (fun e => labels_resolve s row (compared e) -> faithful s row (lower s e) (satisfies s row e)) l ->
  labels_resolve s row (⋃ map compared l) ->
  Forall (fun e => faithful s row (lower s e) (satisfies s row e)) l.
Proof.
  induction 1 as [|e l He Hl IH]; intros Hres; constructor; cbn [map union_list foldr] in Hres.
  - apply He. eapply labels_resolve_sub; [|exact Hres]. set_solver.
  - apply IH. eapply labels_resolve_sub; [|exact Hres]. set_solver.
Qed.

Lemma faithful_and s row l : Forall (fun e => faithful s row (lower s e) (satisfies s row e)) l ->
  sem (AndExpr (map lo_expr (map (lower s) l))) row = forallb (satisfies s row) l /\
  (existsb lo_never (map (lower s) l) = true -> forallb (satisfies s row) l = false).
Proof.
  induction 1 as [|e l [Hsem Hnev] _ [IHs IHn]]; [done|]. cbn [map forallb existsb]. split.
  - cbn [sem] in IHs |- *. by rewrite Hsem, IHs.
  - intros [Hn | Hn]%orb_true_iff; apply andb_false_iff; [left; by apply Hnev | right; by apply IHn].
Qed.

Lemma faithful_or s row l : Forall (fun e => faithful s row (lower s e) (satisfies s row e)) l ->
  sem (OrExpr (map lo_expr (map (lower s) l))) row = existsb (satisfies s row) l /\
  (forallb lo_never (map (lower s) l) = true -> existsb (satisfies s row) l = false).
Proof.
  induction 1 as [|e l [Hsem Hnev] _ [IHs IHn]]; [done|]. cbn [map forallb existsb]. split.
  - cbn [sem] in IHs |- *. by rewrite Hsem, IHs.
  - intros [H1 H2]%andb_true_iff. by rewrite Hnev, IHn.
Qed.

Lemma lower_faithful s row : dicts_wf s -> forall e, labels_resolve s row (compared e) -> faithful s row (lower s e) (satisfies s row e).
Proof.
  intros Hwf. apply (mql_Expr_ind (fun e => labels_resolve s row (compared e) -> faithful s row (lower s e) (satisfies s row e))).
  intros ands ors nt eq ne il m nm has missing Hands Hors Hnt Hres. destruct ands as [|e0 ands].
  2: { apply (faithful_and s row (e0 :: ands)), (faithful_list s row _ Hands), Hres. }
  destruct ors as [|e0 ors].
  2: { apply (faithful_or s row (e0 :: ors)), (faithful_list s row _ Hors), Hres. }
  destruct nt as [sub|].
  { destruct (Hnt Hres) as [Hsem _]. split; [|done]. cbn [lower lo_expr sem]. by rewrite Hsem. }
  assert (Hsub : forall l, Some l ∈ [c_Label <$> eq; c_Label <$> ne; in_Label <$> il; mx_Label <$> m; mx_Label <$> nm] -> labels_resolve s row {[l]}).
  { intros l Hl. eapply labels_resolve_sub; [|exact Hres]. apply singleton_subseteq_l, elem_of_list_to_set, list_elem_of_omap.
    by exists (Some l). }
  unfold satisfies. cbn [lower holds_of]. destruct (negb (is_nil has)).
  { split; [|done]. cbn [lower_to lo_expr sem]. unfold carries. by destruct (row !! has). }
  destruct (negb (is_nil missing)).
  { split; [|done]. cbn [lower_to lo_expr sem]. unfold carries. by destruct (row !! missing). }
  destruct eq as [c|]; [apply lower_eq_faithful; [done | apply Hsub; set_solver]|].
  destruct ne as [c|]; [apply lower_ne_faithful; [done | apply Hsub; set_solver]|].
  destruct il as [i|]; [apply lower_in_faithful; [done | apply Hsub; set_solver]|].
  destruct m as [x|]; [apply (lower_match_faithful s row x false); [done | apply Hsub; set_solver]|].
  destruct nm as [x|]; [apply (lower_match_faithful s row x true); [done | apply Hsub; set_solver]|].
  done.
Qed.

(** ** The columns it reads *)

Lemma columns_union e into : columns e into = into ∪ columns e ∅.
Proof.
  revert into. induction e as [sub IH|sub IH|e IH|c v|c vs n ss|c lo hi|c|v] using Expr_nested_ind; intros into; cbn [columns]; try set_solver.
  all: revert into; induction IH as [|e sub He _ IHs]; intros into; [set_solver|]; rewrite IHs, He, (IHs (columns e ∅)); set_solver.
Qed.

Lemma columns_list (mk : list EngineFilter.Expr -> EngineFilter.Expr) l : mk = AndExpr \/ mk = OrExpr ->
  columns (mk l) ∅ = ⋃ map (fun e => columns e ∅) l.
Proof.
  intros Hmk. assert (Hgen : forall into, columns (mk l) into = into ∪ ⋃ map (fun e => columns e ∅) l).
  { induction l as [|e l IH]; intros into; [destruct Hmk as [-> | ->]; cbn; set_solver|].
    transitivity (columns (mk l) (columns e into)); [by destruct Hmk as [-> | ->]|]. rewrite IH, columns_union. cbn. set_solver. }
  rewrite Hgen. set_solver.
Qed.

Lemma columns_in l vals : columns (newInExpr l vals) ∅ = {[l]}.
Proof. unfold newInExpr. destruct (_ <? _); [|destruct (index_values vals [] ∅) as [[]|]]; cbn; set_solver. Qed.

Definition reads_projected (r : lowering) : Prop := columns (lo_expr r) ∅ ⊆ lo_proj r.

Lemma reads_projected_list (mk : list EngineFilter.Expr -> EngineFilter.Expr) s l : mk = AndExpr \/ mk = OrExpr ->
  Forall (fun e => reads_projected (lower s e)) l -> columns (mk (map lo_expr (map (lower s) l))) ∅ ⊆ ⋃ map lo_proj (map (lower s) l).
Proof.
  intros Hmk Hl. rewrite (columns_list mk) by done. rewrite !map_map. unfold reads_projected in Hl.
  induction Hl as [|e l He _ IH]; cbn; [done|]. set_solver.
Qed.

Lemma lower_columns s : forall e, reads_projected (lower s e).
Proof.
  apply mql_Expr_ind. intros ands ors nt eq ne il m nm has missing Hands Hors Hnt. unfold reads_projected. destruct ands as [|e0 ands].
  2: { apply (reads_projected_list AndExpr s (e0 :: ands)); [by left | exact Hands]. }
  destruct ors as [|e0 ors].
  2: { apply (reads_projected_list OrExpr s (e0 :: ors)); [by right | exact Hors]. }
  destruct nt as [sub|]; [exact Hnt|]. cbn [lower].
  destruct (negb (is_nil has)); [cbn; set_solver|]. destruct (negb (is_nil missing)); [cbn; set_solver|].
  destruct eq as [c|].
  { unfold lower_eq. destruct (lookupPositions _ _ _) as [[|v [|]]|]; cbn [lower_to lo_expr lo_proj]; rewrite ?columns_in; cbn; set_solver. }
  destruct ne as [c|].
  { unfold lower_ne. destruct (lookupPositions _ _ _); cbn [lower_to lo_expr lo_proj]; [|cbn; set_solver].
    rewrite (columns_list AndExpr) by auto. cbn [map columns]. rewrite columns_in. cbn. set_solver. }
  destruct il as [i|].
  { unfold lower_in. destruct (in_positions _ _ _) as [[|] ?]; cbn [lower_to lo_expr lo_proj]; rewrite ?columns_in; cbn; set_solver. }
  assert (Hm : forall x negate, reads_projected (lower_match s x negate)).
  { intros x negate. unfold reads_projected, lower_match. destruct (Compile _); [|cbn; set_solver].
    destruct (labelIndicesMatching _ _ _) as [vals all]. destruct (_ && _); [destruct negate; cbn; set_solver|].
    destruct vals; [destruct negate; cbn; set_solver|]. destruct negate; cbn [lower_to lo_expr lo_proj].
    - rewrite (columns_list AndExpr) by auto. cbn [map columns]. rewrite columns_in. cbn. set_solver.
    - by rewrite columns_in. }
  destruct m as [x|]; [apply Hm|]. destruct nm as [x|]; [apply Hm|]. done.
Qed.

(** What the lowering promises. *)
Lemma buildExpr_exact s e proj row : dicts_wf s -> labels_resolve s row (compared e) ->
  let '(expr, _, never, proj') := buildExpr s e proj in
  match expr with Some w => sem w row | None => true end = satisfies s row e /\
  (never = true -> satisfies s row e = false) /\
  match expr with Some w => columns w ∅ ⊆ proj' | None => True end /\ proj ⊆ proj'.
Proof.
  intros Hwf Hres. unfold buildExpr. destruct (Expr_Empty e) eqn:Ee.
  - split; [|split_and!; try done; set_solver]. destruct e as [[] [] [] [] [] [] [] [] [] []]; done.
  - destruct (lower_faithful s row Hwf e Hres) as [Hsem Hnev]. pose proof (lower_columns s e) as Hcol. unfold reads_projected in Hcol.
    split_and!; [done | done | set_solver | set_solver].
Qed.

(** C29: the predicate the planner pushes into the engine holds of a stored
    row exactly when the query's predicate holds of the texts of the row's
    labels -- a text at several positions of its dictionary and a folded
    regular expression included; a predicate the planner calls impossible
    holds of no row; and the engine decodes every column the predicate
    reads. *)
Theorem predicate_pushdown s e proj row : dicts_wf s -> labels_resolve s row (compared e) ->
  let '(expr, _, never, proj') := buildExpr s e proj in
  match expr with Some w => sem w row | None => true end = satisfies s row e /\
  (never = true -> satisfies s row e = false) /\
  match expr with Some w => columns w ∅ ⊆ proj' | None => True end /\ proj ⊆ proj'.
Proof. apply buildExpr_exact. Qed.

End Plan.
