(* ===== verification/StoreScan.v ===== *)
(** * Scanning the shards of a plan ([internal/store/query.go])

    [scan] walks the shards a plan selected, oldest first or newest first,
    and hands each row the engine yields to the visitor of one of the
    executors, which may stop it.  On an engine nothing disturbs, what the
    visitor is given is a list that does not mention the engine: the rows of
    the selected shards whose timestamp is in the range and that satisfy the
    plan's expression, in order of time. *)

From Stdlib Require Import ZArith Lia Bool Strings.Byte Strings.String.
From stdpp Require Import gmap sorting.
From S2P Require Import Prelude Bytes Float64 GoStd GoText Model Wire EngineKeys EngineCodec EngineFilter EngineDB EngineRep EngineInv.
From S2P Require Import EngineSchema EngineStore EngineQuery EngineScan ExtractTimestamp StoreShard StoreState StoreDict StoreReclaim StorePlan.

(** What a scan touched. *)
Record QueryStats : Type := { qs_ShardsScanned : Z; qs_RowsScanned : Z }.
Definition no_stats : QueryStats := {| qs_ShardsScanned := 0; qs_RowsScanned := 0 |}.
Definition add_stats (shards rows : Z) (st : QueryStats) : QueryStats :=
  {| qs_ShardsScanned := qs_ShardsScanned st + shards; qs_RowsScanned := qs_RowsScanned st + rows |}.

(** A visitor: what it has gathered, and whether it wants the next row. *)
Definition visitor (A : Type) : Type := A -> Row -> A * bool.

(** A visitor over a list of rows: what it gathered, how many rows it was
    given, and whether it stopped. *)
Fixpoint visit_list {A} (visit : visitor A) (a : A) (rows : list Row) : A * Z * bool :=
  match rows with
  | [] => (a, 0, false)
  | r :: rows' =>
      let '(a, go) := visit a r in
      if go then let '(a, n, stop) := visit_list visit a rows' in (a, 1 + n, stop)
      else (a, 1, true)
  end.

Lemma visit_list_app {A} (visit : visitor A) rows : forall a rows',
  visit_list visit a (rows ++ rows') =
  let '(a', n, stop) := visit_list visit a rows in
  if stop then (a', n, true) else let '(a'', m, stop') := visit_list visit a' rows' in (a'', n + m, stop').
Proof.
  induction rows as [|r rows IH]; intros a rows'; cbn [app visit_list].
  - by destruct (visit_list visit a rows') as [[a'' m] stop'].
  - destruct (visit a r) as [a1 []]; [|done]. rewrite IH. destruct (visit_list visit a1 rows) as [[a' n] []]; [done|].
    destruct (visit_list visit a' rows') as [[a'' m] stop']. by rewrite Z.add_assoc.
Qed.

(** The rows, in order of time and then of key. *)
Definition row_le (a b : gostr * Row) : Prop :=
  let ta := default 0 (row_ts TimestampField a.2) in
  let tb := default 0 (row_ts TimestampField b.2) in
  ta < tb \/ (ta = tb /\ ble a.1 b.1 = true).
#[export] Instance row_le_dec a b : Decision (row_le a b).
Proof. unfold row_le. apply _. Defined.
#[export] Instance row_le_trans : Transitive row_le.
Proof.
  intros a b c [Hab | [Hab Kab]] [Hbc | [Hbc Kbc]]; unfold row_le; [left; lia | left; lia | left; lia|].
  right. split; [congruence | by eapply ble_trans].
Qed.
#[export] Instance row_le_total : Total row_le.
Proof.
  intros a b. unfold row_le. destruct (Z.lt_trichotomy (default 0 (row_ts TimestampField a.2)) (default 0 (row_ts TimestampField b.2))) as [|[|]]; auto.
  destruct (blt_total a.1 b.1) as [Hc|[Hc|Hc]].
  - left. right. split; [done|]. apply ble_lt_eq. auto.
  - left. right. split; [done|]. apply ble_lt_eq. auto.
  - right. right. split; [done|]. apply ble_lt_eq. auto.
Qed.

Definition in_window (fromMs toMs : Z) (row : Row) : bool := ts_in TimestampField (fun ts => (fromMs <=? ts) && (ts <=? toMs)) row.

(** The rows of one shard that a scan owes its visitor. *)
Definition shard_rows (fromMs toMs : Z) (keep : Row -> bool) (reverse_ : bool) (R : Rows) : list Row :=
  let sorted := merge_sort row_le (base.filter (fun pr => in_window fromMs toMs pr.2 && keep pr.2 = true) (map_to_list R)) in
  (if reverse_ then reverse sorted else sorted).*2.

(** Those of the shards of a plan. *)
Definition plan_rows (A : gmap gostr Rows) (p : queryPlan) (fromMs toMs : Z) (keep : Row -> bool) : list Row :=
  concat (map (fun shard => shard_rows fromMs toMs keep (qp_reverse p) (default ∅ (A !! shard)))
    (if qp_reverse p then reverse (qp_shards p) else qp_shards p)).

Section Scan.
Context `{FloatText} `{J : MetaJSON} `{!MetaJSONLaws J} `{L : LSM} `{!LSMLaws L} `{SJ : StoreJSON}.
Abbreviation AStore := (gmap gostr Rows).

Section Visit.
Context {T : Type} (visit : visitor T).

(** The loop over one iterator. *)
Fixpoint visit_rows (fuel : nat) (it : Iter) (a : T) (rows : Z) : M (T * Z * bool * Iter) :=
  match fuel with
  | O => fail ErrFuel
  | S f =>
      bi ← Next it;
      let '(b, it) := bi : bool * Iter in
      if b then
        let '(a, go) := visit a (Iter_Record it).2 in
        if go then visit_rows f it a (rows + 1) else mret (a, rows + 1, true, it)
      else mret (a, rows, false, it)
  end.

Definition shard_query (p : queryPlan) (fromMs toMs : Z) (shard : gostr) : QueryBuilder :=
  let q := Reverse (Project (Between (NewQuery shard) TimestampField fromMs toMs) (qp_projection p)) (qp_reverse p) in
  match qp_expr p with None => q | Some e => Where q e end.

Fixpoint scan_plan_shards (p : queryPlan) (fromMs toMs : Z) (ctx : list bool) (shards : list gostr) (a : T) (st : QueryStats)
    : SM (T * QueryStats) :=
  match shards with
  | [] => mret (a, st)
  | shard :: shards' =>
      r ← engine_try (Run (shard_query p fromMs toMs shard) ctx);
      match r with
      | Err ErrUnknownSet => scan_plan_shards p fromMs toMs ctx shards' a st
      | Err e => sfail (StEngine e)
      | Ok it =>
          x ← engine (visit_rows (length (it_entries it) + 2) it a 0);
          let '(a, n, stop, it) := x : T * Z * bool * Iter in
          _ ← engine_try (Iter_Close it);
          match Iter_Err it with
          | Some e => sfail (StEngine e)
          | None =>
              let st := add_stats 1 n st in
              if stop then mret (a, st) else scan_plan_shards p fromMs toMs (it_ctx it) shards' a st
          end
      end
  end.

(** [scan]. *)
Definition scan (p : queryPlan) (fromMs toMs : Z) (ctx : list bool) (a : T) (st : QueryStats) : SM (T * QueryStats) :=
  if qp_impossible p then mret (a, st)
  else scan_plan_shards p fromMs toMs ctx (if qp_reverse p then reverse (qp_shards p) else qp_shards p) a st.

(** ** One iterator *)

Definition visit_post (i : Iter) (n : nat) (a : T) (rows : Z) (d : DB) (r : result db_err (T * Z * bool * Iter)) (d' : DB) : Prop :=
  reads_only d d' /\ (d_faults d = [] -> d_faults d' = []) /\
  exists a' m stop i', r = Ok (a', rows + m, stop, i') /\
    (calm i d -> calm i' d') /\
    (it_err i' = None -> visit_list visit a (answer i n).*2 = (a', m, stop)) /\
    (calm i d -> no_fail i -> it_err i' = None).

Lemma visit_rows_wp fuel : forall i n a rows d,
  at_n i n -> (n <= length (it_entries i))%nat -> (length (it_entries i) - n < fuel)%nat ->
  it_err i = None -> it_closed i = false -> wp (visit_rows fuel i a rows) (visit_post i n a rows d) d.
Proof.
  induction fuel as [|f IH]; intros i n a rows d Hat Hn Hf Herr Hcl; [lia|]. cbn [visit_rows]. apply wp_bind.
  eapply wp_mono; [by apply (Next_wp i n)|].
  intros r d1 (Hr & Hfl & b & i' & -> & Hs & Hcalm & Hb). destruct b.
  - destruct Hb as (Herr' & n' & Hat' & Hlt & Hans).
    assert (Hans' : forall m, answer i' m = answer i m).
    { intros m. unfold answer. rewrite (dir_same i i') by done. apply list_omap_ext.
      induction (drop m (dir i)); constructor; [by apply out_same | done]. }
    assert (Hent : it_entries i' = it_entries i) by apply Hs.
    assert (Hlist : (answer i n).*2 = it_row i' :: (answer i n').*2) by (by rewrite Hans).
    cbn [Iter_Record snd]. destruct (visit a (it_row i')) as [a1 go] eqn:Ev. destruct go.
    + eapply wp_mono; [apply (IH i' n')|]; [done | rewrite Hent; lia | rewrite Hent; lia | done | by rewrite (proj2 (proj2 (proj2 (proj2 (proj2 Hs)))))|].
      intros r d2 (Hr2 & Hfl2 & a' & m & stop & i2 & -> & Hc2 & Hall & Hcalm2).
      split; [unfold reads_only in *; intuition congruence|]. split; [auto|].
      exists a', (1 + m), stop, i2. split; [by rewrite Z.add_assoc|]. split; [auto|]. split.
      * intros E. rewrite Hlist. cbn [visit_list]. rewrite Ev. rewrite <- Hans'. by rewrite (Hall E).
      * intros Hcl1 Hnf. apply Hcalm2; [auto|]. unfold no_fail in *. rewrite Hent.
        eapply Forall_impl; [exact Hnf|]. intros x. by rewrite (visit_same i i').
    + apply wp_ret. split; [done|]. split; [done|]. exists a1, 1, true, i'. split; [done|]. split; [auto|].
      split; [|done]. intros _. rewrite Hlist. cbn [visit_list]. by rewrite Ev.
  - destruct Hb as [Hb1 Hb2]. apply wp_ret. split; [done|]. split; [done|]. exists a, 0, false, i'.
    split; [by rewrite Z.add_0_r|]. split; [auto|]. split; [intros E; by rewrite Hb1 | done].
Qed.

(** ** The rows of one shard *)

(** A visitor that reads no column outside [cols]. *)
Definition reads_columns (cols : list gostr) : Prop :=
  forall a row proj, (forall c, c ∈ cols -> wants proj c = true) ->
    visit a (filter (fun kv => wants proj kv.1 = true) row) = visit a row.

Lemma visit_list_restrict cols proj rows : reads_columns cols -> (forall c, c ∈ cols -> wants proj c = true) -> forall a,
  visit_list visit a (map (fun row : Row => filter (fun kv => wants proj kv.1 = true) row) rows) = visit_list visit a rows.
Proof.
  intros Hcols Hproj. induction rows as [|r rows IH]; intros a; cbn [map visit_list]; [done|]. rewrite (Hcols _ _ _ Hproj).
  destruct (visit a r) as [a' []]; [by rewrite IH | done].
Qed.

Lemma row_before_le a b : row_before TimestampField a b -> row_le a b.
Proof.
  unfold row_before, row_le. change (bytes_eqb TimestampField []) with false. cbv beta iota zeta.
  intros [?|[? ?]]; [by left|right]. split; [done|]. apply ble_lt_eq. by left.
Qed.

Lemma StronglySorted_mono {X} (R1 R2 : X -> X -> Prop) l : (forall x y, R1 x y -> R2 x y) -> StronglySorted R1 l -> StronglySorted R2 l.
Proof. intros Hmono. induction 1; constructor; [done|]. eapply Forall_impl; [eassumption|]. auto. Qed.

Definition keep_expr (expr : option EngineFilter.Expr) (row : Row) : bool := match expr with Some w => sem w row | None => true end.

Lemma scan_answer_rows (p : queryPlan) (fromMs toMs : Z) (shard : gostr) (R : Rows) (all : list (gostr * Row)) :
  scan_answer TimestampField (shard_query p fromMs toMs shard) R all ->
  exists proj, (forall c, c ∈ qp_projection p -> wants proj c = true) /\
    all.*2 = map (fun row : Row => filter (fun kv => wants proj kv.1 = true) row)
      (shard_rows fromMs toMs (keep_expr (qp_expr p)) (qp_reverse p) R).
Proof.
  intros (prs & proj & -> & Hin & Hnd & Hsort & Hproj). exists proj. split.
  { intros c Hc. assert (Hp : q_project (shard_query p fromMs toMs shard) = qp_projection p) by (unfold shard_query; by destruct (qp_expr p)).
    rewrite Hp in Hproj. destruct (qp_projection p) as [|c0 cols]; [by apply elem_of_nil in Hc|].
    destruct Hproj as (P & -> & HP). cbn. apply bool_decide_eq_true_2. by apply HP. }
  assert (Hrev : q_reverse (shard_query p fromMs toMs shard) = qp_reverse p) by (unfold shard_query; by destruct (qp_expr p)).
  rewrite Hrev in Hsort.
  assert (Hadm : forall row, admitted TimestampField (shard_query p fromMs toMs shard) row
            = in_window fromMs toMs row && keep_expr (qp_expr p) row).
  { intros row. unfold shard_query. by destruct (qp_expr p). }
  set (wanted := base.filter (fun pr : gostr * Row => in_window fromMs toMs pr.2 && keep_expr (qp_expr p) pr.2 = true) (map_to_list R)).
  assert (Hperm : prs ≡ₚ wanted).
  { apply NoDup_Permutation; [by eapply NoDup_fmap_1 | apply NoDup_filter, NoDup_map_to_list|].
    intros [pk row]. unfold wanted. rewrite Hin, list_elem_of_filter, elem_of_map_to_list, Hadm. cbn [snd]. tauto. }
  assert (Hbase : (if qp_reverse p then reverse prs else prs) = merge_sort row_le wanted).
  { apply (StronglySorted_unique_strong row_le).
    - intros [k1 r1] [k2 r2] H1 H2 [Hlt|[He Hk]] [Hlt'|[He' Hk']]; try (cbn in *; lia).
      cbn [fst snd] in *. assert (k1 = k2) as ->.
      { apply ble_lt_eq in Hk as [Hk|Hk]; [|done]. apply ble_lt_eq in Hk' as [Hk'|Hk']; [|done].
        by rewrite (blt_asym _ _ Hk) in Hk'. }
      f_equal. assert (Hr1 : R !! k2 = Some r1) by (apply Hin; destruct (qp_reverse p); [by apply elem_of_reverse | done]).
      assert (Hr2 : R !! k2 = Some r2).
      { rewrite merge_sort_Permutation in H2. apply list_elem_of_filter in H2 as [_ H2]. by apply elem_of_map_to_list in H2. }
      congruence.
    - eapply StronglySorted_mono; [|exact Hsort]. apply row_before_le.
    - apply StronglySorted_merge_sort; apply _.
    - rewrite merge_sort_Permutation, <- Hperm. by destruct (qp_reverse p); rewrite ?reverse_Permutation. }
  unfold shard_rows. fold wanted. rewrite <- Hbase.
  assert (Hprs : (if qp_reverse p then reverse (if qp_reverse p then reverse prs else prs) else (if qp_reverse p then reverse prs else prs)) = prs)
    by (destruct (qp_reverse p); [apply reverse_involutive | done]).
  rewrite Hprs. unfold restrict. rewrite <- !list_fmap_compose. done.
Qed.

Lemma shard_rows_empty fromMs toMs keep rev : shard_rows fromMs toMs keep rev ∅ = [].
Proof. unfold shard_rows. rewrite map_to_list_empty. by destruct rev. Qed.

(** ** The shards, with nothing in the way *)

(** An open engine whose calls do not fail. *)
Definition undisturbed (d : DB) : Prop := d_closed d = false /\ d_faults d = [].

Definition indexed_by_time (d : DB) (shards : list gostr) : Prop :=
  forall shard sm, shard ∈ shards -> d_sets d !! shard = Some sm -> sm_Indexed sm = TimestampField.

Lemma Iter_Close_calm i (d : DB) : d_faults d = [] -> exists r d', Iter_Close i d = (Ok r, d') /\ reads_only d d' /\ d_faults d' = [].
Proof.
  intros Hf. unfold Iter_Close, mbind, M_bind, mret, M_ret, modify, attempt, pebble_call.
  destruct (it_closed i); [by repeat eexists|].
  destruct (d_faults _) as [|[] f] eqn:E1; cbn [d_faults set_faults set_stats] in *; rewrite ?E1; [by repeat eexists | congruence | congruence].
Qed.

Lemma scan_shards_calm p fromMs toMs A : in_i64 fromMs -> in_i64 toMs -> reads_columns (qp_projection p) -> forall shards ctx a st s,
  db_inv (s_db s) A -> undisturbed (s_db s) -> Forall (eq false) ctx -> indexed_by_time (s_db s) shards ->
  let '(a', n, stop) := visit_list visit a
    (concat (map (fun shard => shard_rows fromMs toMs (keep_expr (qp_expr p)) (qp_reverse p) (default ∅ (A !! shard))) shards)) in
  exists k s', scan_plan_shards p fromMs toMs ctx shards a st s = (Ok (a', add_stats k n st), s') /\
    reads_only (s_db s) (s_db s') /\ s' = s_set_db (s_db s') s.
Proof.
  intros Hfrom Hto Hcols. induction shards as [|shard shards IH]; intros ctx a st s Hinv [Hopen Hf] Hctx Hix; cbn [map concat].
  { cbn. exists 0, s. split; [|by destruct s]. destruct st as [x y]. unfold add_stats. cbn. by rewrite !Z.add_0_r. }
  rewrite visit_list_app. cbn [scan_plan_shards]. unfold mbind at 1, SM_bind, engine_try.
  pose proof (run_wp (shard_query p fromMs toMs shard) ctx (s_db s) A Hinv) as Hrun. unfold wp in Hrun.
  assert (Hset : q_set (shard_query p fromMs toMs shard) = shard) by (unfold shard_query; by destruct (qp_expr p)).
  assert (Hbet : bet_ok (q_bet (shard_query p fromMs toMs shard))) by (unfold shard_query; by destruct (qp_expr p)).
  specialize (Hrun Hbet). destruct (Run (shard_query p fromMs toMs shard) ctx (s_db s)) as [[it|e] d1]; destruct Hrun as (Hr1 & Hf1 & Hrun); cbn [fst snd] in *.
  - destruct Hrun as (_ & Hst & Herr & Hcl & Hctx1 & Hnf & sm & R & Hsm & HA & Hans). rewrite Hset in *. rewrite HA. change (default ∅ (Some R)) with R.
    rewrite (Hix shard sm ltac:(apply elem_of_cons; by left) Hsm) in Hans.
    destruct (scan_answer_rows p fromMs toMs shard R _ Hans) as (proj & Hproj & Hrows).
    pose proof (visit_rows_wp (length (it_entries it) + 2) it 0 a 0 d1 ltac:(by left) ltac:(lia) ltac:(lia) Herr Hcl) as Hv. unfold wp in Hv.
    unfold mbind at 1, SM_bind, engine. cbn [s_db s_set_db].
    destruct (visit_rows (length (it_entries it) + 2) it a 0 d1) as [rv d2]; cbn [fst snd] in Hv.
    destruct Hv as (Hr2 & Hf2 & a' & n & stop & i' & -> & Hcalm & Hlist & Hok).
    assert (Hcalm0 : calm it d1) by (split; [auto | by rewrite Hctx1]).
    specialize (Hok Hcalm0 Hnf). specialize (Hlist Hok). rewrite Hrows, (visit_list_restrict _ _ _ Hcols Hproj) in Hlist. rewrite Hlist.
    destruct (Iter_Close_calm i' d2 (proj1 (Hcalm Hcalm0))) as (cl & d3 & Hclose & Hr3 & Hf3).
    unfold mbind at 1, SM_bind. cbn [s_db s_set_db]. rewrite Hclose. unfold Iter_Err. rewrite Hok, Z.add_0_l.
    assert (Hreads : reads_only (s_db s) d3) by (unfold reads_only in *; intuition congruence).
    destruct stop.
    { exists 1, (s_set_db d3 (s_set_db d2 (s_set_db d1 s))). split; [done|]. split; [exact Hreads | done]. }
    specialize (IH (it_ctx i') a' (add_stats 1 n st) (s_set_db d3 (s_set_db d2 (s_set_db d1 s)))).
    destruct (visit_list visit a' _) as [[a'' m] stop'].
    destruct IH as (k & s' & -> & Hr' & Hs').
    + by eapply reads_inv.
    + split; [|done]. cbn. by destruct Hreads as (_ & _ & _ & _ & ->).
    + by apply Hcalm.
    + intros sh sm' Hsh. cbn. destruct Hreads as (_ & -> & _). apply Hix. apply elem_of_cons. by right.
    + exists (1 + k), s'. split; [|split; [unfold reads_only in *; cbn in Hr'; intuition congruence | rewrite Hs'; done]].
      unfold add_stats. cbn. by rewrite <- !Z.add_assoc.
  - destruct Hrun as [[Hc _] | [[Hnone ->] | [Hff _]]]; [congruence | | done]. rewrite Hset in Hnone. rewrite Hnone. change (default ∅ (None : option Rows)) with (∅ : Rows).
    rewrite shard_rows_empty. cbn [visit_list].
    specialize (IH ctx a st (s_set_db d1 s)). destruct (visit_list visit a _) as [[a' m] stop'].
    destruct IH as (k & s' & Hrest & Hr' & Hs').
    + by eapply reads_inv.
    + split; cbn; [by destruct Hr1 as (_ & _ & _ & _ & ->) | auto].
    + done.
    + intros sh sm' Hsh. cbn. destruct Hr1 as (_ & -> & _). apply Hix. apply elem_of_cons. by right.
    + exists k, s'. rewrite Z.add_0_l. split; [exact Hrest|]. split; [unfold reads_only in *; cbn in Hr'; intuition congruence | rewrite Hs'; done].
Qed.

End Visit.
End Scan.
