(* ===== verification/StoreSamples.v ===== *)
(** * The samples a store holds

    Seen from outside, a store is a map from shard and primary key to the
    sample last accepted there.  [served] ties the store, with its
    dictionaries, its catalogue and its engine, to such a map; every write
    keeps the tie and puts the samples it accepts into the map. *)

From Stdlib Require Import ZArith Lia Bool Relations.
From Stdlib Require Import Strings.Byte Strings.String.
From stdpp Require Import gmap.
From S2P Require Import Prelude Bytes Float64 GoStd GoText Model Wire EngineKeys EngineCodec EngineDB EngineRep EngineInv EngineSchema EngineStore.
From S2P Require Import EngineQuery EngineScan EngineTrace EngineProps StoreShard StoreState StoreDict StoreDictProofs StoreReclaim StoreCatalogue StoreWrite.
From S2P Require Import StoreWriteProofs StoreWriteProps StoreRetention StoreNamespace StoreScan.

(** ** What a set's entry tells of its samples *)

(** More was observed, nothing forgotten. *)
Record widens (e e' : setEntry) : Prop := {
  wd_labels : se_Labels e ⊆ se_Labels e';
  wd_fields : forall k, fieldObserved e k = true -> fieldObserved e' k = true;
}.
#[export] Instance widens_preorder : PreOrder widens.
Proof. split; [by intros e|]. intros e1 e2 e3 [L1 F1] [L2 F2]. split; [by etransitivity | auto]. Qed.

(** The names of a sample are those of its set. *)
Record noted (e : setEntry) (sm : Sample) : Prop := {
  nt_labels : forall k, is_Some (Labels sm !! k) -> k ∈ se_Labels e;
  nt_fields : forall k, is_Some (Fields sm !! k) -> fieldObserved e k = true;
}.
Lemma noted_widens e e' sm : widens e e' -> noted e sm -> noted e' sm.
Proof. intros [L F] [N1 N2]. split; auto. Qed.

(** The column of the timestamp is no label and no field. *)
Definition timeless (e : setEntry) : Prop := (TimestampField ∉ se_Labels e) /\ (se_Fields e !! TimestampField = None).
Definition plain (sm : Sample) : Prop := Labels sm !! TimestampField = None /\ Fields sm !! TimestampField = None.

Lemma see_labels_all l : forall (st : setEntry * bool) k, k ∈ se_Labels st.1 \/ k ∈ l -> k ∈ se_Labels (foldl see_label st l).1.
Proof.
  induction l as [|x l IH]; intros [e c] k Hk; cbn [foldl]; [by destruct Hk as [? | ?%elem_of_nil]|]. apply IH. unfold see_label.
  destruct (bool_decide (x ∈ se_Labels e)) eqn:Ex.
  - apply bool_decide_eq_true in Ex. destruct Hk as [? | [-> | ?]%elem_of_cons]; auto.
  - cbn [fst se_Labels se_set_Labels]. destruct Hk as [Hk | [-> | ?]%elem_of_cons]; [left; set_solver | left; set_solver | by right].
Qed.

Lemma see_field_observed now st x k : 0 < now -> fieldObserved st.1 k = true \/ k = x -> fieldObserved (see_field now st x).1 k = true.
Proof.
  destruct st as [e c]. intros Hnow Hk. unfold see_field, fieldObserved in *. cbn [fst] in Hk.
  assert (Hpos : forall f, observed (seen_at now f) = true) by (intros f; unfold observed; cbn [seen_at fe_LastSeenMs]; by apply Z.gtb_lt).
  destruct (decide (k = x)) as [-> | Hne].
  - destruct (se_Fields e !! x); cbn [fst se_Fields se_set_Fields]; rewrite lookup_insert_eq; apply Hpos.
  - destruct Hk as [Hk | ?]; [|done]. destruct (se_Fields e !! x); cbn [fst se_Fields se_set_Fields]; by rewrite lookup_insert_ne by congruence.
Qed.

Lemma see_fields_all now l : 0 < now -> forall (st : setEntry * bool) k,
  fieldObserved st.1 k = true \/ k ∈ l -> fieldObserved (foldl (see_field now) st l).1 k = true.
Proof.
  intros Hnow. induction l as [|x l IH]; intros st k Hk; cbn [foldl]; [by destruct Hk as [? | ?%elem_of_nil]|]. apply IH.
  destruct Hk as [Hk | [-> | ?]%elem_of_cons]; [left | left | by right]; apply see_field_observed; auto.
Qed.

Lemma see_fields_others now l k : k ∉ l -> forall (st : setEntry * bool), se_Fields (foldl (see_field now) st l).1 !! k = se_Fields st.1 !! k.
Proof.
  induction l as [|x l IH]; intros Hk [e c]; [done|]. apply not_elem_of_cons in Hk as [Hne Hk]. cbn [foldl]. rewrite IH by done.
  unfold see_field. destruct (se_Fields e !! x); cbn [fst se_Fields se_set_Fields]; by rewrite lookup_insert_ne by congruence.
Qed.

Lemma field_keys_elem sm k : k ∈ field_keys sm <-> is_Some (Fields sm !! k).
Proof.
  unfold field_keys. rewrite list_elem_of_fmap. split.
  - intros ([k' v] & -> & Hv%elem_of_map_to_list). by eexists.
  - intros [v Hv]. exists (k, v). split; [done | by apply elem_of_map_to_list].
Qed.

(** One sample, then all of them. *)
Lemma observe_sample_spec now st sm : 0 < now -> let e' := (observe_sample now st sm).1 in
  widens st.1 e' /\ noted e' sm /\ se_KeyScheme e' = se_KeyScheme st.1 /\ (timeless st.1 -> plain sm -> timeless e').
Proof.
  intros Hnow e'. destruct st as [e c]. unfold e', observe_sample. cbn [fst snd]. clear e'.
  assert (Hts : let e1 := se_observe_ts (TSMs sm) e in se_Labels e1 = se_Labels e /\ se_Fields e1 = se_Fields e /\ se_KeyScheme e1 = se_KeyScheme e)
    by (unfold se_observe_ts; by repeat break_if).
  cbv zeta in Hts. set (e1 := se_observe_ts (TSMs sm) e) in *. destruct Hts as (L1 & F1 & S1).
  pose proof (fold_see_label (label_keys sm) (e1, c)) as [Lup Fup]. set (st2 := foldl see_label (e1, c) (label_keys sm)) in *. cbn [fst] in Lup, Fup.
  pose proof (fold_see_field now (field_keys sm) st2) as [_ Lsame].
  assert (Hscheme : forall l (st : setEntry * bool), se_KeyScheme (foldl see_label st l).1 = se_KeyScheme st.1).
  { induction l as [|x l IH]; intros [e2 c2]; [done|]. cbn [foldl]. rewrite IH. unfold see_label. by destruct (bool_decide _). }
  assert (Hscheme' : forall l (st : setEntry * bool), se_KeyScheme (foldl (see_field now) st l).1 = se_KeyScheme st.1).
  { induction l as [|x l IH]; intros [e2 c2]; [done|]. cbn [foldl]. rewrite IH. unfold see_field. by destruct (se_Fields e2 !! x). }
  assert (Hobs : forall k, fieldObserved st2.1 k = fieldObserved e k) by (intros k; unfold fieldObserved; by rewrite Fup, F1).
  split_and!.
  - split.
    + rewrite Lsame. intros k Hk. apply see_labels_all. left. cbn [fst]. by rewrite L1.
    + intros k Hk. apply see_fields_all; [done|]. left. by rewrite Hobs.
  - split; intros k Hk.
    + rewrite Lsame. apply see_labels_all. right. by apply label_keys_elem.
    + apply see_fields_all; [done|]. right. by apply field_keys_elem.
  - rewrite Hscheme'. unfold st2. by rewrite Hscheme.
  - intros [T1 T2] [P1 P2]. split.
    + rewrite Lsame. intros Hk. destruct (Lup _ Hk) as [Hk' | Hk']; [by rewrite L1 in Hk'|]. apply label_keys_elem in Hk' as [v Hv]. congruence.
    + rewrite see_fields_others by (intros [v Hv]%field_keys_elem; congruence). by rewrite Fup, F1.
Qed.

Lemma observe_samples_spec now samples : 0 < now -> forall st, let e' := (foldl (observe_sample now) st samples).1 in
  widens st.1 e' /\ Forall (noted e') samples /\ se_KeyScheme e' = se_KeyScheme st.1 /\ (timeless st.1 -> Forall plain samples -> timeless e').
Proof.
  intros Hnow. induction samples as [|sm samples IH]; intros st; cbn [foldl]; [by split_and!|].
  destruct (observe_sample_spec now st sm Hnow) as (W1 & N1 & S1 & T1). destruct (IH (observe_sample now st sm)) as (W2 & N2 & S2 & T2).
  split_and!.
  - by etransitivity.
  - constructor; [by eapply noted_widens | done].
  - congruence.
  - intros Ht [P1 P2]%Forall_cons. by apply T2, P2; apply T1.
Qed.

Section Samples.
Context `{FloatText} `{XXH3} `{J : MetaJSON} `{!MetaJSONLaws J} `{L : LSM} `{!LSMLaws L} `{SJ : StoreJSON} `{ErrorText}.
Implicit Types (s : Store) (set : gostr).
Abbreviation AStore := (gmap gostr Rows).
Abbreviation SampleStore := (gmap (gostr * gostr) Sample).

(** ** On an engine nothing disturbs *)

(** What leaves the engine so, and answers no fault of the store. *)
Definition faultless {A} (m : SM A) : Prop := forall s, undisturbed (s_db s) ->
  undisturbed (s_db (m s).2) /\ forall e, (m s).1 = Err e -> is_fault e = false.
(** What leaves it so, and answers. *)
Definition answers {A} (m : SM A) : Prop := forall s, undisturbed (s_db s) -> undisturbed (s_db (m s).2) /\ is_ok (m s).1 = true.

Lemma answers_faultless {A} (m : SM A) : answers m -> faultless m.
Proof. intros Hm s Hs. destruct (Hm s Hs) as [Hu Hr]. split; [done|]. by destruct ((m s).1). Qed.

Lemma faultless_bind {A B} (m : SM A) (k : A -> SM B) : faultless m -> (forall a, faultless (k a)) -> faultless (m ≫= k).
Proof.
  intros Hm Hk s Hs. destruct (Hm s Hs) as [Hu Hr]. unfold mbind, SM_bind. destruct (m s) as [[a|e] s1]; cbn [fst snd] in *; [by apply Hk|].
  split; [done|]. intros e' [= <-]. by apply Hr.
Qed.
Lemma answers_bind {A B} (m : SM A) (k : A -> SM B) : answers m -> (forall a, answers (k a)) -> answers (m ≫= k).
Proof.
  intros Hm Hk s Hs. destruct (Hm s Hs) as [Hu Hr]. unfold mbind, SM_bind. destruct (m s) as [[a|e] s1]; cbn [fst snd] in *; [by apply Hk | done].
Qed.
Lemma answers_ret {A} (a : A) : answers (mret a).
Proof. intros s Hs. by split. Qed.
Lemma answers_get : answers get_store.
Proof. intros s Hs. by split. Qed.
Lemma answers_modify f : (forall s, s_db (f s) = s_db s) -> answers (smodify f).
Proof. intros Hf s Hs. unfold smodify. cbn [fst snd]. by rewrite Hf. Qed.
Lemma answers_now : answers time_Now.
Proof. intros s Hs. unfold time_Now. by destruct (s_clock s). Qed.
Lemma answers_try {A} (m : SM A) : faultless m -> answers (stry m).
Proof. intros Hm s Hs. destruct (Hm s Hs) as [Hu _]. unfold stry. by destruct (m s). Qed.
Lemma faultless_fail {A} e : is_fault e = false -> faultless (sfail e : SM A).
Proof. intros He s Hs. split; [done|]. by intros e' [= <-]. Qed.
Lemma faultless_lift {A} (r : result store_err A) : (forall e, r = Err e -> is_fault e = false) -> faultless (slift r).
Proof. intros Hr s Hs. by split. Qed.

Lemma PutDict_answers name v d : undisturbed d -> exists d', PutDict name v d = (Ok tt, d') /\ undisturbed d'.
Proof.
  intros Hu. pose proof (PutDict_calmer name v d) as [Hc Hf]. destruct Hu as [Ho Hn]. specialize (Hf Hn). rewrite Ho in Hc.
  revert Hc Hf. unfold PutDict, guard_open, pdb_Set, pdb_Apply, pebble_call, mbind, M_bind, get_db, mret, M_ret, modify. rewrite Ho, Hn. cbn.
  intros _ _. eexists. split; [done|]. by split.
Qed.

Lemma intern_locked_faultless key value fresh d : faultless (intern_locked key value fresh d).
Proof.
  unfold intern_locked. apply faultless_bind; [apply answers_faultless, answers_get|]. intros s0. destruct (index d !! value); [apply answers_faultless, answers_ret|].
  break_if; [by apply faultless_fail|]. destruct (takeHole d) as [hole d1]. apply faultless_bind; [by apply answers_faultless, answers_modify|]. intros _.
  intros s Hs. unfold mbind, SM_bind, engine_try. destruct (PutDict_answers (dictEntryKey key (match hole with Some h => h | None => i32 (zlen (Entries d1)) end)) value (s_db s) Hs) as (d2 & -> & Hu).
  split; [exact Hu | done].
Qed.

Lemma intern_faultless key value : faultless (intern key value).
Proof.
  unfold intern. apply faultless_bind; [apply answers_faultless, answers_get|]. intros s0. destruct (s_dict s0 !! key) as [d|].
  - destruct (index d !! value); [apply answers_faultless, answers_ret | apply intern_locked_faultless].
  - break_if; [by apply faultless_fail|]. apply faultless_bind; [by apply answers_faultless, answers_modify|]. intros _. apply intern_locked_faultless.
Qed.

Lemma rowFor_faultless set sm kinds : faultless (rowFor set sm kinds).
Proof.
  unfold rowFor. apply faultless_bind; [apply faultless_lift|intros _].
  { induction (map_to_list (Labels sm)) as [|[k v] l IH]; intros e; cbn [check_row_labels]; [done|]. break_if; [by intros [= <-]|].
    destruct (ValidateLabelValue v); cbn [rbind]; [apply IH | by intros [= <-]]. }
  apply faultless_bind; [apply faultless_lift|intros _].
  { intros e. destruct (first_bad _ _); [by intros [= <-] | done]. }
  apply faultless_bind; [apply answers_faultless, answers_get|]. intros s0. apply faultless_bind; [apply faultless_lift|intros _].
  { intros e. unfold checkColumnNamespace. by repeat case_match; try done; intros [= <-]. }
  apply faultless_bind; [apply faultless_lift|intros _].
  { intros e. unfold catalogueRoom. by repeat case_match; try done; intros [= <-]. }
  apply faultless_bind; [|intros row; apply answers_faultless, answers_ret].
  generalize ({[TimestampField := VInt (TSMs sm)]} : Row). induction (map_to_list (Labels sm)) as [|[k v] l IH]; intros row; cbn [intern_labels].
  - apply answers_faultless, answers_ret.
  - apply faultless_bind; [apply intern_faultless|]. intros i. apply IH.
Qed.

Lemma write_samples_answers set scheme client width samples : forall p, answers (write_samples set scheme client width samples p).
Proof.
  induction samples as [|sm samples IH]; intros p; cbn [write_samples]; [apply answers_ret|]. apply answers_bind; [|intros p'; apply IH].
  unfold write_sample. destruct (Validate sm); [|apply answers_ret]. break_if; [apply answers_ret|]. intros s Hs. unfold mbind, SM_bind, stry.
  destruct (rowFor_faultless set (label_client set client sm) (p_kinds p) s Hs) as [Hu Hf].
  destruct (rowFor set (label_client set client sm) (p_kinds p) s) as [[[row kinds]|e] s1]; cbn [fst snd] in *; [by split|]. by rewrite Hf.
Qed.

(** ** Samples, and the rows they are filed as *)

(** What is written at all: samples a machine can hold, and no two of one
    set that share a primary key and are of different times. *)
Record writable (U : gostr -> Sample -> Prop) : Prop := {
  wb_storable : forall set sm, U set sm -> storable sm;
  wb_keys : forall set a b sa sb, U set a -> U set b -> PrimaryKey set a sa = PrimaryKey set b sb -> TSMs a = TSMs b;
}.
Context (U : gostr -> Sample -> Prop).

(** Where the store files a sample, and the map with it there. *)
Definition sample_place s set (sm : Sample) : gostr * gostr :=
  (shardNameAt set (TSMs sm) (shardWidth s set), PrimaryKey set sm (scheme_of (keyScheme s set))).
Definition put_sample s (W : SampleStore) (x : gostr * Sample) : SampleStore := <[sample_place s x.1 x.2 := x.2]> W.


(** A stored row is that of a sample. *)
Record filed_as s set (shard pk : gostr) (sm : Sample) (row : Row) : Prop := {
  fa_written : U set sm;
  fa_named : named sm;
  fa_set : ascii set = true /\ set <> [];
  fa_shard : exists w, w < two63 /\ shard = shardNameAt set (TSMs sm) w;
  fa_key : exists scheme, pk = PrimaryKey set sm scheme;
  fa_row : resolves s sm row;
  fa_noted : noted (entryLocked set s) sm;
}.

Definition mirrors s (A : AStore) (W : SampleStore) : Prop := forall shard pk,
  option_Forall2 (fun sm row => exists set, filed_as s set shard pk sm row) (W !! (shard, pk)) (row_at A shard pk).

Definition timed (d : DB) : Prop := forall n m, d_sets d !! n = Some m -> sm_Indexed m = TimestampField.
(** The clock is past the first millisecond of the epoch. *)
Definition ticking s : Prop := Forall (fun t => 1000000 <= t) (s_now s :: s_clock s).
Definition widths_ok s : Prop :=
  map_Forall (fun _ w => w < two63) (s_setShard s) /\ map_Forall (fun _ w => w < two63) (cf_SetShard (s_cfg s)) /\ cf_Shard (s_cfg s) < two63.

(** What every step of a write preserves of the store on its own. *)
Record sound_store s : Prop := {
  ss_calm : undisturbed (s_db s);
  ss_timed : timed (s_db s);
  ss_ticking : ticking s;
  ss_timeless : forall n, timeless (entryLocked n s);
}.

Record served s (A : AStore) (W : SampleStore) : Prop := {
  sv_sound : sound_store s;
  sv_dicts : dicts_wf s;
  sv_limits : limits s;
  sv_inv : db_inv (s_db s) A;
  sv_apart : namespace_ok s;
  sv_widths : widths_ok s;
  sv_mirror : mirrors s A W;
}.

(** What it leaves of the routes samples take, and of the catalogue. *)
Record kept s s' : Prop := {
  kp_wide : forall n, widens (entryLocked n s) (entryLocked n s');
  kp_scheme : forall n, se_KeyScheme (entryLocked n s') = se_KeyScheme (entryLocked n s);
  kp_shard : s_setShard s' = s_setShard s;
  kp_retention : s_setRetention s' = s_setRetention s;
  kp_cfg : s_cfg s' = s_cfg s;
}.
#[export] Instance kept_preorder : PreOrder kept.
Proof.
  split; [by intros s; constructor|]. intros s1 s2 s3 [W1 S1 D1 R1 C1] [W2 S2 D2 R2 C2].
  constructor; [intros n; etransitivity; [apply W1 | apply W2] | intros n; by rewrite S2 | congruence..].
Qed.

Lemma kept_frame s s' : s_catalogue s' = s_catalogue s -> s_setShard s' = s_setShard s -> s_setRetention s' = s_setRetention s -> s_cfg s' = s_cfg s -> kept s s'.
Proof. intros E1 E2 E3 E4. assert (E : forall n, entryLocked n s' = entryLocked n s) by (intros n; unfold entryLocked; by rewrite E1). constructor; intros; by rewrite ?E. Qed.

Lemma keyScheme_entry s set :
  keyScheme s set = if bytes_eqb (se_KeyScheme (entryLocked set s)) [] then bs "content" else se_KeyScheme (entryLocked set s).
Proof. unfold keyScheme, entryLocked. by destruct (s_catalogue s !! set). Qed.

Lemma kept_routes s s' set : kept s s' -> keyScheme s' set = keyScheme s set /\ shardWidth s' set = shardWidth s set.
Proof.
  intros [_ Hs Hw Hr Hc]. split; [by rewrite !keyScheme_entry, Hs|]. unfold shardWidth, retentionFor. by rewrite Hw, Hr, Hc.
Qed.
Lemma kept_place s s' set sm : kept s s' -> sample_place s' set sm = sample_place s set sm.
Proof. intros Hk. unfold sample_place. by destruct (kept_routes s s' set Hk) as [-> ->]. Qed.

Lemma widths_route s set : widths_ok s -> shardWidth s set < two63.
Proof.
  intros (Hd & Hc & Hw). unfold shardWidth, two63 in *. assert (Hz : 0 < 9223372036854775808) by lia.
  assert (Hx : forall w, (s_setShard s !! set = Some w \/ cf_SetShard (s_cfg s) !! set = Some w) -> w < 9223372036854775808)
    by (intros w [E | E]; [exact (Hd _ _ E) | exact (Hc _ _ E)]).
  destruct (s_setShard s !! set) as [w|]; [specialize (Hx w (or_introl eq_refl)); repeat break_if; lia|].
  destruct (cf_SetShard (s_cfg s) !! set) as [w|]; [specialize (Hx w (or_intror eq_refl))|]; repeat break_if; lia.
Qed.

Lemma filed_as_kept s s' set shard pk sm row : (forall k i v, labelValue s k i = Some v -> labelValue s' k i = Some v) ->
  widens (entryLocked set s) (entryLocked set s') -> filed_as s set shard pk sm row -> filed_as s' set shard pk sm row.
Proof. intros Hv Hw [F1 F2 F3 F4 F5 F6 F7]. constructor; [done..| by eapply resolves_values | by eapply noted_widens]. Qed.

Lemma mirrors_kept s s' A W : (forall k i v, labelValue s k i = Some v -> labelValue s' k i = Some v) ->
  (forall n, widens (entryLocked n s) (entryLocked n s')) -> mirrors s A W -> mirrors s' A W.
Proof.
  intros Hv Hw Hm shard pk. destruct (Hm shard pk) as [sm row (set & Hf)|]; constructor. exists set. by eapply filed_as_kept.
Qed.

(** ** Observing, and committing *)

Lemma tick s : ticking s -> exists t s1, time_Now s = (Ok t, s1) /\ 1000000 <= t /\ ticking s1 /\
  kept s s1 /\ (forall n, entryLocked n s1 = entryLocked n s) /\ s_db s1 = s_db s /\ s_dict s1 = s_dict s.
Proof.
  intros [Hn Hc]%Forall_cons. unfold time_Now. destruct (s_clock s) as [|t c] eqn:Ec.
  - exists (s_now s), s. split_and!; try done. unfold ticking. rewrite Ec. by constructor.
  - apply Forall_cons in Hc as Ht. exists t, (s_set_clock c (s_set_now t s)). split_and!; try done; by destruct Ht.
Qed.

Lemma observeSet_kept set samples s s' : ticking s -> observeSet set samples s = (Ok tt, s') ->
  kept s s' /\ ticking s' /\ Forall (noted (entryLocked set s')) samples /\
  (Forall plain samples -> (forall n, timeless (entryLocked n s)) -> forall n, timeless (entryLocked n s')) /\ s_db s' = s_db s.
Proof.
  intros Ht. unfold observeSet. destruct samples as [|sm0 samples0]; [unfold mret, SM_ret; by intros [= <-]|].
  set (samples := sm0 :: samples0). unfold mbind, SM_bind, smodify. destruct (tick s Ht) as (t & s1 & -> & Hpos & Ht1 & Hk1 & He1 & Hdb1 & _).
  rewrite He1. assert (Hms : 0 < t / 1000000) by (apply Z.div_str_pos; lia).
  pose proof (observe_samples_spec (t / 1000000) samples Hms (entryLocked set s, false)) as (Hw & Hn & Hs & Hpl).
  destruct (foldl (observe_sample (t / 1000000)) (entryLocked set s, false) samples) as [e changed]. cbn [fst] in *. intros [= <-].
  set (s2 := if changed then bump (set_entry set e s1) else set_entry set e s1).
  assert (Hfin : forall n, entryLocked n s2 = if decide (n = set) then e else entryLocked n s)
    by (intros n; rewrite <- (He1 n), <- entry_set; unfold s2; by destruct changed).
  assert (Hsame : s_setShard s2 = s_setShard s1 /\ s_setRetention s2 = s_setRetention s1 /\ s_cfg s2 = s_cfg s1 /\ s_db s2 = s_db s1 /\ s_now s2 = s_now s1 /\ s_clock s2 = s_clock s1)
    by (unfold s2; by destruct changed).
  destruct Hsame as (E1 & E2 & E3 & E4 & E5 & E6). destruct Hk1 as [_ _ F1 F2 F3]. split_and!.
  - constructor; [intros n; rewrite Hfin; case_decide; by subst | intros n; rewrite Hfin; case_decide; by subst | congruence..].
  - unfold ticking. by rewrite E5, E6.
  - by rewrite Hfin, decide_True.
  - intros Hp Hall n. rewrite Hfin. case_decide; [|done]. subst. by apply Hpl.
  - congruence.
Qed.

(** A shard of a batch, committed. *)
Lemma commit_step P set scheme width sr x s1 d1 s2 A1 : sound_store s1 -> db_inv (s_db s1) A1 -> fileable (s_db s1) A1 x ->
  in_u32 (d_nextID (s_db s1) + 1) -> filed P set scheme width sr x.1 x.2 -> x.2.2 <> [] ->
  PutBatch x.1 x.2.1 (s_db s1) = (Ok tt, d1) -> observeSet set x.2.2 (s_set_db d1 s1) = (Ok tt, s2) ->
  sound_store s2 /\ kept s1 s2 /\ Forall (noted (entryLocked set s2)) x.2.2.
Proof.
  intros [[Hop Hfl] Htm Htk Htl] Hinv (Hv & Hok & Hag) Hu Hf Hne Hput Hobs.
  destruct (observeSet_kept set x.2.2 (s_set_db d1 s1) s2 Htk Hobs) as (Hk & Htk2 & Hnoted & Htl2 & Hdb). cbn [s_db s_set_db] in Hdb.
  split; [|split; [|done]].
  - pose proof (PutBatch_calmer x.1 x.2.1 (s_db s1)) as [Hcl Hfa]. rewrite Hput in Hcl, Hfa. cbn [snd] in Hcl, Hfa.
    assert (Hplain : Forall plain x.2.2 /\ Forall (fun r => is_Some (rec_Row r !! TimestampField)) x.2.1 /\ x.2.1 <> []).
    { clear -Hf Hne. unfold filed in Hf. split_and!; [..|intros E; rewrite E in Hf; by apply Forall2_nil_inv_l in Hf].
      - clear Hne. induction Hf as [|rc sm recs samples (_ & _ & Hr & _) _ IH]; constructor; [apply Hr | done].
      - clear Hne. induction Hf as [|rc sm recs samples (_ & _ & Hr & _) _ IH]; constructor; [by rewrite (rs_ts _ _ _ Hr) | done]. }
    destruct Hplain as (Hpl & Hts & Hrne). constructor.
    + rewrite Hdb. split; [congruence | auto].
    + rewrite Hdb. intros n m Hm. destruct (decide (n = x.1)) as [-> | Hn].
      * exact (PutBatch_time x.1 x.2.1 (s_db s1) d1 A1 Hinv Hv Hok Hu (Htm _) Hrne Hts Hput m Hm).
      * pose proof (PutBatch_wp x.1 x.2.1 (s_db s1) A1 Hinv Hv Hok Hu Hag) as Hw. unfold wp in Hw. rewrite Hput in Hw.
        destruct Hw as [_ Ho _ _ _ _]. cbn [snd] in Ho. rewrite (Ho n Hn) in Hm. by apply (Htm n).
    + exact Htk2.
    + by apply Htl2.
  - etransitivity; [|exact Hk]. by apply kept_frame.
Qed.

(** The engine takes it. *)
Lemma commit_taken P set scheme width sr x s1 A1 : sound_store s1 -> db_inv (s_db s1) A1 -> fileable (s_db s1) A1 x ->
  in_u32 (d_nextID (s_db s1) + 1) -> filed P set scheme width sr x.1 x.2 -> (PutBatch x.1 x.2.1 (s_db s1)).1 = Ok tt.
Proof.
  intros [[Hop Hfl] Htm _ _] Hinv (Hv & Hok & Hag) Hu Hf.
  assert (Hbase : (d_sets (s_db s1) !! x.1 = None /\ sm_Indexed (base_meta (s_db s1) x.1) = []) \/ sm_Indexed (base_meta (s_db s1) x.1) = TimestampField).
  { unfold base_meta. destruct (d_sets (s_db s1) !! x.1) as [m|] eqn:Em; [right; by apply (Htm _ _ Em) | by left]. }
  apply (PutBatch_succeeds x.1 x.2.1 (s_db s1) A1); [by constructor | done | done | |].
  - destruct Hbase as [[Hnone _] | Hi]; [left | right; by rewrite Hi]. unfold rows_of. destruct (A1 !! x.1) as [R|] eqn:ER; [|done].
    destruct (proj2 (inv_dom _ _ _ _ _ Hinv x.1)) as [? ?]; [by rewrite ER | congruence].
  - intros idx Hidx. apply Forall_forall. intros rc Hrc Hne. assert (idx = TimestampField) as ->.
    { destruct Hidx as [-> | ->]; [done|]. destruct Hbase as [[_ Hi] | Hi]; [by rewrite Hi in Hne | done]. }
    apply list_elem_of_lookup in Hrc as [i Hi]. destruct (Forall2_lookup_l _ _ _ _ _ Hf Hi) as (sm & _ & _ & _ & Hr & _).
    unfold row_ts. rewrite (rs_ts _ _ _ Hr). by eexists.
Qed.

(** ** The samples of a batch join those of the store *)

Lemma commit_mirrors set scheme width s1 s' A A' W m F : set <> [] -> ascii set = true -> width < two63 ->
  (forall x, x ∈ map_to_list m -> A' !! x.1 = Some (merged A x)) -> (forall n, n ∉ (map_to_list m).*1 -> A' !! n = A !! n) ->
  map_Forall (filed (U set) set scheme width s1) m -> grouped set width m F ->
  (forall x, x ∈ map_to_list m -> Forall (noted (entryLocked set s')) x.2.2) ->
  (forall k i v, labelValue s1 k i = Some v -> labelValue s' k i = Some v) -> mirrors s' A W ->
  mirrors s' A' (foldl (fun W sm => <[(shardNameAt set (TSMs sm) width, PrimaryKey set sm (scheme_of scheme)) := sm]> W) W F).
Proof.
  intros Hset Hasc Hw Hin Hout Hfiled Hg Hnoted Hval Hold shard pk. specialize (Hold shard pk). rewrite foldl_put_lookup.
  rewrite (list_filter_iff _ (goes_to set scheme width shard pk)) by (intros sm; unfold goes_to; by rewrite pair_equal_spec).
  pose proof (commit_places set scheme width (U set) s1 A A' m F Hin Hout Hfiled Hg shard pk) as Hplace.
  destruct (last _) as [sm|]; [|by rewrite Hplace]. destruct Hplace as (x & row & Hx & Hsm & -> & -> & -> & Hres & Hn & HP). constructor. exists set.
  constructor; [done | done | done | by exists width | by exists (scheme_of scheme) | by eapply resolves_values |].
  apply elem_of_map_to_list, Hnoted in Hx. by eapply Forall_forall in Hx.
Qed.

(** ** A batch *)

Lemma served_settled s A W set scheme width : writable U -> served s A W -> width < two63 ->
  settled set scheme width (fun sm => U set sm /\ 0 < TSMs sm <= MaxTSMs) (s_db s) A.
Proof.
  intros HU Hs Hw. constructor.
  - intros a b [Ha _] [Hb _] Hk. by apply (wb_keys U HU set a b (scheme_of scheme) (scheme_of scheme)).
  - intros a R r0 [Ha Hta] HR Hr0. pose proof (sv_mirror _ _ _ Hs (shardNameAt set (TSMs a) width) (PrimaryKey set a (scheme_of scheme))) as Hm.
    unfold row_at in Hm. rewrite HR in Hm. cbn [mbind option_bind] in Hm. rewrite Hr0 in Hm. inversion Hm as [sm row (set' & Hf) E1 E2|]. subst row.
    destruct Hf as [Hsm [Htm _] _ (w & Hwd & Hsh) (sch & Hk) Hr _]. assert (set' = set) as -> by (symmetry; exact (shard_set_inj _ _ _ _ _ _ Hta Hw Htm Hwd Hsh)).
    unfold row_ts. rewrite (rs_ts _ _ _ Hr). f_equal. by apply (wb_keys U HU set _ _ sch (scheme_of scheme)).
  - intros a m _ Hm. left. by apply (ss_timed _ (sv_sound _ _ _ Hs) _ _ Hm).
Qed.

Lemma grown_kept s s' : grown s s' -> kept s s' /\ (forall n, entryLocked n s' = entryLocked n s).
Proof.
  intros Hg. assert (E : forall n, entryLocked n s' = entryLocked n s) by (intros n; unfold entryLocked; by rewrite (gr_catalogue _ _ Hg)).
  split; [|done]. pose proof (gr_frame _ _ Hg) as Hf. apply kept_frame; by rewrite Hf.
Qed.

Definition batch_writable client (b : Batch) : Prop :=
  forall sm, sm ∈ b_Samples b -> Validate sm = Ok tt -> U (b_Set b) (label_client (b_Set b) client sm).

(** What a batch, and then a request, has done: the samples [F], in the
    order they were accepted, are in the map. *)
Record accepted s W q s' A' W' q' (F : list (gostr * Sample)) : Prop := {
  ac_served : served s' A' W';
  ac_kept : kept s s';
  ac_kinds : kinds_agree s' q';
  ac_tallied : tallied q';
  ac_map : W' = foldl (put_sample s) W F;
  ac_count : wr_Accepted (q_resp q') = wr_Accepted (q_resp q) + zlen F;
}.

Lemma reject_all_accepts e samples s A W q : served s A W -> kinds_agree s q -> tallied q -> q_index q + zlen samples <= i64_max ->
  accepted s W q s A W (reject_all e samples q) [].
Proof.
  intros Hs Hk Hq Hmax. destruct (reject_all_tallied e samples q Hq Hmax) as (Ht & _ & Ha). constructor; [done | done | | done | done |].
  - intros set. rewrite reject_all_kinds. apply Hk.
  - rewrite Ha. change (zlen []) with 0. lia.
Qed.

Lemma sound_grown s s' A : db_inv (s_db s) A -> grown s s' -> sound_store s -> sound_store s'.
Proof.
  intros Hi Hg [[Ho Hf] Ht Hk Htl]. destruct (gr_calm _ _ Hg) as [Hc Hfl]. destruct (gr_db _ _ Hg A Hi) as [Hd _].
  destruct (grown_kept _ _ Hg) as [_ He]. constructor.
  - split; [congruence | auto].
  - unfold timed. by rewrite Hd.
  - unfold ticking. by rewrite (gr_frame _ _ Hg).
  - intros n. by rewrite He.
Qed.

Lemma foldl_map_l {X Y Z} (f : Y -> Z -> Y) (g : X -> Z) l : forall y, foldl f y (map g l) = foldl (fun y x => f y (g x)) y l.
Proof. induction l as [|x l IH]; intros y; [done|]. apply IH. Qed.

Lemma write_batch_serves client b q s A W : writable U -> served s A W -> batch_writable client b -> kinds_agree s q -> tallied q ->
  q_index q + zlen (b_Samples b) <= i64_max -> d_nextID (s_db s) + zlen (b_Samples b) < 4294967296 ->
  exists q' s', write_batch client b q s = (Ok q', s') /\ q_index q' = q_index q + zlen (b_Samples b) /\ d_nextID (s_db s') <= d_nextID (s_db s) + zlen (b_Samples b) /\
  exists A' W' F, F `sublist_of` map (label_client (b_Set b) client) (b_Samples b) /\ accepted s W q s' A' W' q' (map (pair (b_Set b)) F).
Proof.
  intros HU Hs HP Hkinds Hq Hmax Hnext. pose proof (zlen_nonneg (b_Samples b)) as Hlen0.
  pose proof (write_batch_namespace client b q s) as Hns. specialize (fun r s' => Hns r s' (sv_apart _ _ _ Hs) Hkinds).
  revert Hns. unfold write_batch. set (set := b_Set b) in *. intros Hns.
  assert (Hrej : forall e, exists q' s', (Ok (reject_all e (b_Samples b) q) : result store_err request, s) = (Ok q', s') /\
            q_index q' = q_index q + zlen (b_Samples b) /\ d_nextID (s_db s') <= d_nextID (s_db s) + zlen (b_Samples b) /\
            exists A' W' F, F `sublist_of` map (label_client set client) (b_Samples b) /\ accepted s W q s' A' W' q' (map (pair set) F)).
  { intros e. eexists _, s. split; [done|]. destruct (reject_all_tallied e (b_Samples b) q Hq Hmax) as (_ & Hi & _). split_and!; [done | lia |].
    exists A, W, []. split; [apply sublist_nil_l | by apply reject_all_accepts]. }
  destruct (ValidateSetName set) as [[]|e] eqn:Hname; [|apply Hrej]. destruct (_ && _); [apply Hrej|]. clear Hrej.
  assert (Hset : ascii set = true /\ set <> []) by (by apply set_name_ok). destruct Hset as [Hasc Hset].
  unfold mbind, SM_bind, get_store, mret, SM_ret in *. set (scheme := keyScheme s set) in *. set (width := shardWidth s set) in *.
  pose proof (widths_route s set (sv_widths _ _ _ Hs)) as Hw. fold width in Hw.
  fold (batch_start q set) in *. set (P := fun sm => U set sm /\ 0 < TSMs sm <= MaxTSMs).
  destruct (write_samples_answers set scheme client width (b_Samples b) (batch_start q set) s (ss_calm _ (sv_sound _ _ _ Hs))) as [_ Hans].
  destruct (write_samples set scheme client width (b_Samples b) (batch_start q set) s) as [[p1|e] s1] eqn:Hws; [clear Hans|done].
  destruct (batch_gathered client b scheme width P q s A p1 s1 (sv_dicts _ _ _ Hs) (sv_limits _ _ _ Hs) (sv_inv _ _ _ Hs) Hasc Hw
    ltac:(by intros sm [? _]; eapply (wb_storable U HU))
    ltac:(intros sm Hsm Hv; split; [by apply HP | by destruct (label_client_named set client sm Hv) as [? _]])
    (served_settled s A W set scheme width HU Hs Hw) Hq Hmax Hws) as (F & [Hg Hwf1 Hfiled1 Hgr Hsub Hacc Hanswered Hfull1 Hfile Hne Hnext1]).
  fold set in Hfiled1, Hgr, Hsub. pose proof (sound_grown _ _ _ (sv_inv _ _ _ Hs) Hg (sv_sound _ _ _ Hs)) as Hss1. destruct (grown_kept _ _ Hg) as [Hk1 He1].
  destruct (commit_shards set (map_to_list (p_shards p1)) s1) as [rc s2] eqn:Hcommit. set (l := map_to_list (p_shards p1)) in *.
  assert (Hfl : forall x, x ∈ l -> filed P set scheme width s1 x.1 x.2 /\ x.2.2 <> []) by (intros [k x] Hx%elem_of_map_to_list; split; [by apply Hfiled1 | by apply (Hfull1 k)]).
  destruct (commit_shards_along sound_store kept (fun x s => Forall (noted (entryLocked set s)) x.2.2)
              ltac:(intros x a c Hk Hx; eapply Forall_impl; [exact Hx|]; intros sm; apply noted_widens, Hk) set l s1 A rc s2) as (Hd2 & Hcfg2 & Hres);
    [ | done | exact (gr_inv _ _ Hg A (sv_inv _ _ _ Hs)) | apply NoDup_fst_map_to_list | exact Hfile | exact Hne | lia | exact Hcommit |].
  { intros x t1 d1 t2 A1 Hx Hst1 Hi1 Hf1 Hu1 Hput Hobs. destruct (Hfl x Hx) as [Hfx Hnx].
    by apply (commit_step P set scheme width s1 x t1 d1 t2 A1). }
  destruct rc as [[]|e].
  2: { destruct Hres as (x & t1 & A1 & Hx & Hst1 & Hi1 & Hf1 & Hu1 & Hbad). destruct Hbad.
       by apply (commit_taken P set scheme width s1 x t1 A1 Hst1 Hi1 Hf1 Hu1), Hfl. }
  destruct Hres as (Hss2 & Hk2 & Hnoted & Hn2 & A' & Hinv' & Hin' & Hout').
  eexists _, s2. split; [reflexivity|]. destruct (Hns _ s2 eq_refl) as [Hapart' Hkinds'].
  assert (Hval : forall k i v, labelValue s1 k i = Some v -> labelValue s2 k i = Some v) by (intros k i v; unfold labelValue; by rewrite Hd2).
  assert (Hkept : kept s s2) by (by etransitivity).
  split_and!; [cbn [q_index]; lia | lia |]. eexists A', _, F. split; [exact Hsub|]. constructor; [|done | exact Hkinds' | | reflexivity |].
  - constructor; [done | | | done | exact Hapart' | | ].
    + intros k d Hkd. rewrite Hd2 in Hkd. by apply (Hwf1 k).
    + unfold limits. rewrite Hcfg2, (gr_cfg _ _ Hg). apply Hs.
    + destruct Hkept as [_ _ Hsh _ Hcf]. unfold widths_ok. rewrite Hsh, Hcf. apply Hs.
    + rewrite foldl_map_l. apply (commit_mirrors set scheme width s1 s2 A A' W (p_shards p1) F Hset Hasc Hw Hin' Hout'); [ | exact Hgr | exact Hnoted | exact Hval |].
      * intros shard x Hx. eapply Forall2_impl; [exact (Hfiled1 _ _ Hx)|]. intros rc sm (? & ? & ? & ? & [? _]). by split_and!.
      * apply (mirrors_kept s s2); [intros k i v Hv; by apply Hval, Hg | apply Hkept | apply Hs].
  - unfold tallied. cbn [q_resp q_index]. lia.
  - cbn [q_resp]. rewrite Hacc. unfold zlen. by rewrite length_map.
Qed.

End Samples.
