(* ===== verification/StoreRequests.v ===== *)
(** * A request, and the samples it leaves

    A request declares, files its batches and remembers its key.  On an
    engine nothing disturbs it is answered, unless the store is closed or a
    declaration is refused; and what it leaves is the map of samples with
    those it accepted in it. *)

From Stdlib Require Import ZArith Lia Bool Relations.
From Stdlib Require Import Strings.Byte Strings.String.
From stdpp Require Import gmap.
From S2P Require Import Prelude Bytes Float64 GoStd GoText Model Wire EngineKeys EngineCodec EngineDB EngineRep EngineInv EngineSchema EngineStore.
From S2P Require Import EngineQuery EngineScan EngineTrace EngineProps StoreShard StoreState StoreDict StoreDictProofs StoreReclaim StoreCatalogue StoreWrite.
From S2P Require Import StoreWriteProofs StoreWriteProps StoreRetention StoreNamespace StoreScan StoreSamples StoreDemo Instances.

Section Requests.
Context `{FloatText} `{XXH3} `{J : MetaJSON} `{!MetaJSONLaws J} `{L : LSM} `{!LSMLaws L} `{SJ : StoreJSON} `{ErrorText}.
Implicit Types (s : Store) (set : gostr).
Abbreviation AStore := (gmap gostr Rows).
Abbreviation SampleStore := (gmap (gostr * gostr) Sample).
Context (U : gostr -> Sample -> Prop).

(** ** What writes no row *)

(** A step that only declares, remembers or saves. *)
Record settles s s' : Prop := {
  st_dict : s_dict s' = s_dict s;
  st_cfg : s_cfg s' = s_cfg s;
  st_rows : forall A, db_inv (s_db s) A -> db_inv (s_db s') A /\ d_sets (s_db s') = d_sets (s_db s) /\ d_nextID (s_db s') = d_nextID (s_db s);
  st_calm : calmer (s_db s) (s_db s');
  st_widths : widths_ok s -> widths_ok s';
  st_ticking : ticking s -> ticking s';
  st_wide : forall n, widens (entryLocked n s) (entryLocked n s');
  st_timeless : (forall n, timeless (entryLocked n s)) -> forall n, timeless (entryLocked n s');
  st_unseen : unseen s s';
}.
#[local] Instance settles_preorder : PreOrder settles.
Proof.
  split; [by intros s; constructor|]. intros s1 s2 s3 [D1 C1 R1 K1 W1 T1 E1 L1 U1] [D2 C2 R2 K2 W2 T2 E2 L2 U2].
  constructor; [congruence | congruence | | by etransitivity | auto | auto | intros n; etransitivity; [apply E1 | apply E2] | auto |].
  - intros A Hi. destruct (R1 A Hi) as (Hi1 & S1 & N1). destruct (R2 A Hi1) as (Hi2 & S2 & N2). split_and!; [done | congruence | congruence].
  - intros set. destruct (U1 set) as [A1 B1], (U2 set) as [A2 B2]. split; [by etransitivity | auto].
Qed.

Lemma served_settles s s' A W : settles s s' -> served U s A W -> served U s' A W.
Proof.
  intros [D C R K Wd T E L0 Un] [[[Ho Hf] Ht Hk Htl] Hwf Hlim Hi Ha Hw Hm]. destruct K as [Kc Kf]. destruct (R A Hi) as (Hi' & Hs' & _).
  assert (Hval : forall k i, labelValue s' k i = labelValue s k i) by (intros k i; unfold labelValue; by rewrite D).
  constructor; [constructor | | | done | by eapply unseen_apart | auto |].
  - split; [congruence | auto].
  - unfold timed. by rewrite Hs'.
  - auto.
  - auto.
  - unfold dicts_wf. rewrite D. exact Hwf.
  - unfold limits. by rewrite C.
  - apply (mirrors_kept U s s'); [intros k i v; by rewrite Hval | exact E | exact Hm].
Qed.

(** Nothing but the clock, the version, the answered keys or the engine's
    records of its own changed. *)
Lemma settles_same s s' : s_catalogue s' = s_catalogue s -> s_dict s' = s_dict s -> s_cfg s' = s_cfg s -> s_db s' = s_db s ->
  s_setShard s' = s_setShard s -> (ticking s -> ticking s') -> settles s s'.
Proof.
  intros Ec Ed Eg Eb Es Et. assert (E : forall n, entryLocked n s' = entryLocked n s) by (intros n; unfold entryLocked; by rewrite Ec).
  constructor; [done | done | rewrite Eb; auto | by rewrite Eb | unfold widths_ok; by rewrite Es, Eg | done | | | by apply unseen_same]; intros; by rewrite E.
Qed.

Lemma settles_bump s s' : settles s s' -> settles s (bump s').
Proof. intros Hs. etransitivity; [exact Hs | by apply settles_same]. Qed.

(** One entry replaced by another that carries the same. *)
Lemma settles_put s s1 set e : s_catalogue s1 = s_catalogue s -> s_dict s1 = s_dict s -> s_cfg s1 = s_cfg s -> s_db s1 = s_db s ->
  (ticking s -> ticking s1) -> (widths_ok s -> widths_ok s1) -> se_Labels e = se_Labels (entryLocked set s) ->
  (forall k, fieldObserved e k = fieldObserved (entryLocked set s) k) -> (timeless (entryLocked set s) -> timeless e) ->
  settles s (set_entry set e s1).
Proof.
  intros Ec Ed Eg Eb Et Ew El Ef Htl. assert (E : forall n, entryLocked n (set_entry set e s1) = if decide (n = set) then e else entryLocked n s).
  { intros n. rewrite entry_set. case_decide; [done|]. unfold entryLocked. by rewrite Ec. }
  constructor; [done | done | cbn; rewrite Eb; auto | cbn; by rewrite Eb | exact Ew | exact Et | | |].
  - intros n. rewrite E. case_decide as Hn; [subst n|done]. split; [by rewrite El | intros k; by rewrite Ef].
  - intros Hall n. rewrite E. case_decide as Hn; [subst n; by apply Htl | done].
  - intros n. rewrite E. case_decide as Hn; [subst n|done]. split; [by rewrite El | intros k; by rewrite Ef].
Qed.

Lemma settles_tick : respects settles time_Now.
Proof.
  intros s. unfold time_Now. destruct (s_clock s) as [|t c] eqn:Ec; [done|]. apply settles_same; try done. cbn [snd].
  intros [_ Hc]%Forall_cons. rewrite Ec in Hc. apply Forall_cons in Hc as [Ht Hc]. by constructor.
Qed.

Lemma settles_save : respects settles saveCatalogue.
Proof.
  unfold saveCatalogue. respects_step; [respects_step|]. destruct (cat_Marshal _ _ _) as [b|]; [|respects_step].
  apply respects_engine. intros s. destruct (PutDict catalogueDictKey b (s_db s)) as [r d] eqn:E. cbn [snd].
  constructor; try done. { intros A Hi. by apply (PutDict_rows _ _ _ _ _ E). } pose proof (PutDict_calmer catalogueDictKey b (s_db s)) as Hc. by rewrite E in Hc.
Qed.

Lemma settles_SetRetentionFor set r w s : w < two63 -> settles s (SetRetentionFor set r w s).
Proof.
  intros Hw. unfold SetRetentionFor.
  assert (Hins : forall s0, widths_ok s0 -> widths_ok (s_set_setShard (<[set := w]> (s_setShard s0)) s0))
    by (intros s0 (H1' & H2' & H3'); split; [by apply map_Forall_insert_2 | by split]).
  destruct (r >=? 0), (w >? 0); cbn; break_if; try apply settles_bump; apply settles_put; try done; intros Hwd; first [exact Hwd | exact (Hins _ Hwd)].
Qed.

Lemma settles_SetKeyScheme set scheme s : settles s (SetKeyScheme set scheme s).
Proof. unfold SetKeyScheme. break_if; try apply settles_bump; by apply settles_put. Qed.

Lemma settles_set_meta s m : settles s (apply_set_meta s m).
Proof.
  unfold apply_set_meta. break_if; [done|]. set (s1 := match sm_RetentionMs m, sm_ShardMs m with None, None => s | _, _ => _ end).
  assert (Hi64 : forall z, i64 z < two63) by (intros z; destruct (i64_range z); unfold two63, i64_max in *; lia).
  assert (Hs1 : settles s s1) by (unfold s1; destruct (sm_RetentionMs m), (sm_ShardMs m); [apply settles_SetRetentionFor; (apply Hi64 || done) .. | done]).
  break_if; [exact Hs1|]. etransitivity; [exact Hs1 | apply settles_SetKeyScheme].
Qed.

Lemma settles_field_meta st m : check_field_meta m = Ok tt -> settles st.1 (apply_field_meta st m).1.
Proof.
  destruct st as [s c]. unfold check_field_meta, apply_field_meta. destruct (unnamed m); [done|]. intros Hm. cbn [fst snd].
  assert (Hname : fm_Field m <> TimestampField).
  { intros E. rewrite E in Hm. destruct (bad_name (ValidateSetName _) _) as [[]|]; [|done]. cbn [rbind] in Hm. by destruct (bad_if _ _) as [[]|]. }
  clear Hm. set (e := entryLocked (fm_Set m) s). set (before := default new_field (se_Fields e !! fm_Field m)).
  set (s1 := if _ && _ && _ && _ then _ else s).
  assert (Hs1 : s_catalogue s1 = s_catalogue s /\ s_dict s1 = s_dict s /\ s_cfg s1 = s_cfg s /\ s_db s1 = s_db s /\
            s_setShard s1 = s_setShard s /\ s_now s1 = s_now s /\ s_clock s1 = s_clock s) by (unfold s1; by break_if).
  destruct Hs1 as (Ec & Ed & Eg & Eb & Es & En & Ek).
  set (e1 := se_set_Fields (<[fm_Field m := declared m before]> (se_Fields e)) e).
  assert (He1 : (forall k, fieldObserved e1 k = fieldObserved e k) /\ (timeless e -> timeless e1)).
  { split.
    - intros k. unfold e1, fieldObserved. cbn [se_Fields se_set_Fields]. destruct (decide (k = fm_Field m)) as [-> | Hne].
      + rewrite lookup_insert_eq. unfold before. by destruct (se_Fields e !! fm_Field m).
      + by rewrite lookup_insert_ne by congruence.
    - intros [T1 T2]. split; [exact T1|]. unfold e1. cbn [se_Fields se_set_Fields]. by rewrite lookup_insert_ne. }
  assert (Hput : forall e', se_Labels e' = se_Labels e1 -> se_Fields e' = se_Fields e1 -> settles s (set_entry (fm_Set m) e' s1)).
  { intros e' Hl Hf. destruct He1 as [Ho Ht]. apply settles_put; try done.
    - unfold ticking. by rewrite En, Ek.
    - unfold widths_ok. by rewrite Es, Eg.
    - intros k. unfold fieldObserved at 1. rewrite Hf. apply Ho.
    - intros Htl. destruct (Ht Htl) as [T1 T2]. split; [by rewrite Hl | by rewrite Hf]. }
  destruct (bytes_eqb (fm_BucketSet m) []); [|destruct (bucketSetEqual _ _)]; cbn [fst]; by apply Hput.
Qed.

Lemma check_all_ok {X} (f : X -> result store_err unit) l : check_all f l = Ok tt -> Forall (fun x => f x = Ok tt) l.
Proof. induction l as [|x l IH]; cbn [check_all]; [constructor|]. destruct (f x) as [[]|] eqn:E; [|done]. intros Hl. constructor; auto. Qed.

Lemma settles_applyFieldMeta metas : respects settles (applyFieldMeta metas).
Proof.
  intros s. unfold applyFieldMeta, mbind, SM_bind, slift, get_store, smodify. destruct (check_all check_field_meta metas) as [[]|] eqn:Ec; [|done].
  apply check_all_ok in Ec. destruct (declarationRoomLocked s metas); [|done]. cbn [snd].
  assert (Hf : forall st, settles st.1 (foldl apply_field_meta st metas).1).
  { clear -Ec. induction Ec as [|m metas Hm _ IH]; intros st; [done|]. cbn [foldl]. etransitivity; [by apply settles_field_meta | apply IH]. }
  specialize (Hf (s, false)). destruct (foldl apply_field_meta (s, false) metas) as [s' []]; [by apply settles_bump | done].
Qed.

Lemma settles_applySetMeta metas : respects settles (applySetMeta metas).
Proof.
  unfold applySetMeta. repeat respects_step. apply respects_modify. intros s. revert s.
  induction metas as [|m metas IH]; intros s; [done|]. cbn [foldl]. etransitivity; [apply settles_set_meta | apply IH].
Qed.

Lemma settles_declare req : respects settles (declare req).
Proof.
  unfold declare. respects_step; [respects_step|]. respects_step; [destruct (rq_FieldMeta req); [respects_step | apply settles_applyFieldMeta]|].
  respects_step; [apply settles_applySetMeta|]. respects_step; [respects_step|]. break_if; [respects_step|].
  respects_step; [apply respects_try, settles_save | respects_step].
Qed.

Lemma settles_idem (f : Store -> idempotencyCache) : respects settles (smodify (fun s => s_set_idem (f s) s)).
Proof. apply respects_modify. intros s. by apply settles_same. Qed.

Lemma settles_seen key : respects settles (check_seen key).
Proof.
  unfold check_seen. respects_step; [respects_step|]. respects_step; [destruct (find_key _ _); [apply settles_tick | respects_step]|].
  respects_step; [respects_step|]. destruct (idem_seen _ _ _) as [seen cache]. respects_step; [apply (settles_idem (fun _ => cache)) | respects_step].
Qed.

Lemma settles_remember key : respects settles (remember key).
Proof.
  unfold remember. break_if; [respects_step|]. respects_step; [apply settles_tick|]. respects_step; [respects_step|].
  respects_step; [destruct (find_key _ _); [respects_step | apply settles_tick]|]. apply (settles_idem (fun s => idem_record key a a1 (s_idem s))).
Qed.

(** ** The batches of a request, and the request *)

Lemma put_sample_kept s s' W F : kept s s' -> foldl (put_sample s') W F = foldl (put_sample s) W F.
Proof.
  intros Hk. revert W. induction F as [|x F IH]; intros W; [done|]. cbn [foldl]. rewrite IH. f_equal. unfold put_sample. by rewrite (kept_place s s').
Qed.

Lemma accepted_trans s W q s1 A1 W1 q1 F1 s2 A2 W2 q2 F2 : accepted U s W q s1 A1 W1 q1 F1 -> accepted U s1 W1 q1 s2 A2 W2 q2 F2 ->
  accepted U s W q s2 A2 W2 q2 (F1 ++ F2).
Proof.
  intros [S1 K1 N1 T1 M1 C1] [S2 K2 N2 T2 M2 C2]. constructor; [done | by etransitivity | done | done | | rewrite zlen_app; lia].
  rewrite foldl_app, <- M1, M2. by apply put_sample_kept.
Qed.

(** The samples of a request, labelled with their client. *)
Definition request_samples client (l : list Batch) : list (gostr * Sample) :=
  concat (map (fun b => map (fun sm => (b_Set b, label_client (b_Set b) client sm)) (b_Samples b)) l).

Lemma write_batches_serves client l : writable U -> Forall (batch_writable U client) l -> forall q s A W, served U s A W -> kinds_agree s q -> tallied q ->
  q_index q + zlen (request_samples client l) <= i64_max -> d_nextID (s_db s) + zlen (request_samples client l) < 4294967296 ->
  exists q' s' A' W' F, write_batches client l q s = (Ok q', s') /\ F `sublist_of` request_samples client l /\
    q_index q' = q_index q + zlen (request_samples client l) /\ accepted U s W q s' A' W' q' F.
Proof.
  intros HU. induction 1 as [|b l Hb _ IH]; intros q s A W Hs Hk Hq Hmax Hnext; cbn [write_batches].
  { exists q, s, A, W, []. change (zlen (request_samples client [])) with 0. split_and!; [done | done | lia |]. constructor; [done..| change (zlen []) with 0; lia]. }
  assert (Hlen : zlen (request_samples client (b :: l)) = zlen (b_Samples b) + zlen (request_samples client l)).
  { unfold request_samples. cbn [map concat]. rewrite zlen_app. f_equal. unfold zlen. by rewrite length_map. }
  rewrite Hlen in *. pose proof (zlen_nonneg (request_samples client l)). unfold mbind, SM_bind.
  destruct (write_batch_serves U client b q s A W HU Hs Hb Hk Hq ltac:(lia) ltac:(lia)) as (q1 & s1 & -> & Hi1 & Hn1 & A1 & W1 & F1 & Hsub1 & Hac1).
  destruct (IH q1 s1 A1 W1) as (q2 & s2 & A2 & W2 & F2 & -> & Hsub2 & Hi2 & Hac2); [apply Hac1 | apply Hac1 | apply Hac1 | lia | lia |].
  exists q2, s2, A2, W2, (map (pair (b_Set b)) F1 ++ F2). split_and!; [done | | lia | by eapply accepted_trans].
  unfold request_samples. cbn [map concat]. apply sublist_app; [|exact Hsub2].
  rewrite <- (map_map (label_client (b_Set b) client) (pair (b_Set b))). by apply (fmap_sublist (pair (b_Set b))).
Qed.

(** Everything a request may ask to have written is writable. *)
Definition request_writable client (req : WriteRequest) : Prop := Forall (batch_writable U client) (rq_Batches req).

(** ** What a request is refused for *)

Definition only_bad {A} (r : result store_err A) : Prop := forall e, r = Err e -> exists b, e = StBad b.
Definition refuses {A} (m : SM A) : Prop := forall s, only_bad (m s).1.

Lemma refuses_bind {A B} (m : SM A) (k : A -> SM B) : refuses m -> (forall a, refuses (k a)) -> refuses (m ≫= k).
Proof.
  intros Hm Hk s. specialize (Hm s). unfold mbind, SM_bind. destruct (m s) as [[a|e] s1]; cbn [fst] in *; [apply Hk|].
  intros e' [= <-]. by apply Hm.
Qed.
Lemma refuses_ret {A} (a : A) : refuses (mret a).
Proof. done. Qed.

Lemma only_bad_bind {A B} (r : result store_err A) (k : A -> result store_err B) : only_bad r -> (forall a, only_bad (k a)) -> only_bad (rbind r k).
Proof. intros Hr Hk. destruct r as [a|e]; [apply Hk|]. intros e' [= <-]. by apply Hr. Qed.
Lemma only_bad_ok {A} (a : A) : only_bad (Ok a).
Proof. done. Qed.
Lemma only_bad_err {A} b : only_bad (Err (StBad b) : result store_err A).
Proof. intros e [= <-]. by exists b. Qed.
Lemma only_bad_if b e : only_bad (bad_if b e).
Proof. intros e'. unfold bad_if. break_if; intros [= <-]; by eexists. Qed.
Lemma only_bad_name {A} (n : result model_err A) (f : model_err -> bad_request) : only_bad (bad_name n f).
Proof. intros e'. unfold bad_name. destruct n; intros [= <-]; by eexists. Qed.
Lemma only_bad_all {X} (f : X -> result store_err unit) l : (forall x, only_bad (f x)) -> only_bad (check_all f l).
Proof. intros Hf. induction l as [|x l IH]; [done|]. cbn [check_all]. by apply only_bad_bind. Qed.

Lemma room_bad s metas : only_bad (setDeclarationRoom s metas).
Proof.
  unfold setDeclarationRoom. break_if; [done|]. generalize (Z.of_nat (size (s_catalogue s))) (∅ : gset gostr). intros sets seen. revert sets seen.
  induction metas as [|m metas IH]; intros sets seen; cbn [set_room]; [done|]. break_if; [apply IH|]. break_if; [|apply IH]. intros e [= <-]. by eexists.
Qed.

Lemma room_metas_bad s metas : forall r, only_bad (room_metas s metas r).
Proof.
  induction metas as [|m metas IH]; intros r; cbn [room_metas]; [done|].
  assert (Hm : only_bad (room_meta s m r)).
  { unfold room_meta. break_if; [apply only_bad_ok|]. apply only_bad_bind; [|intros r1; apply only_bad_bind; [|intros r2]].
    all: cbv zeta; repeat break_if; first [apply only_bad_ok | apply only_bad_err]. }
  destruct (room_meta s m r) as [r'|e]; [apply IH|]. intros e' [= <-]. by apply Hm.
Qed.

Lemma declare_refuses req : refuses (declare req).
Proof.
  assert (Hget : refuses get_store) by done.
  unfold declare. apply refuses_bind; [done|]. intros s0. apply refuses_bind.
  { destruct (rq_FieldMeta req) as [|m metas]; [done|]. unfold applyFieldMeta. apply refuses_bind.
    - intros s. apply only_bad_all. intros x. unfold check_field_meta. break_if; [done|].
      repeat (apply only_bad_bind; [first [apply only_bad_name | apply only_bad_if | (break_if; [done | apply only_bad_name])]|intros _]). apply only_bad_if.
    - intros _. apply refuses_bind; [done|]. intros s1. apply refuses_bind; [|done]. intros s. unfold declarationRoomLocked. cbn [slift fst].
      break_if; [done|]. apply only_bad_bind; [apply room_metas_bad | done]. }
  intros _. apply refuses_bind.
  { unfold applySetMeta. apply refuses_bind; [|intros _; apply refuses_bind; [done|]; intros s1; apply refuses_bind; [intros s; apply room_bad | done]].
    intros s. apply only_bad_all. intros x. unfold checkSetMeta. break_if; [done|].
    repeat (apply only_bad_bind; [first [apply only_bad_name | apply only_bad_if]|intros _]). apply only_bad_if. }
  intros _. apply refuses_bind; [done|]. intros s1. break_if; [done|]. apply refuses_bind; [|done]. intros s. unfold stry. by destruct (saveCatalogue s).
Qed.

Lemma check_seen_answers key : answers (check_seen key).
Proof.
  unfold check_seen. apply answers_bind; [apply answers_get|]. intros s0. apply answers_bind.
  { destruct (find_key _ _); [apply answers_now | apply answers_ret]. }
  intros now. apply answers_bind; [apply answers_get|]. intros s1. destruct (idem_seen _ _ _) as [seen cache].
  apply answers_bind; [by apply answers_modify|]. intros _. apply answers_ret.
Qed.

Lemma remember_kept key : respects kept (remember key).
Proof.
  assert (Hnow : respects kept time_Now) by (intros s; unfold time_Now; destruct (s_clock s); by apply kept_frame).
  unfold remember. break_if; [respects_step|]. respects_step; [exact Hnow|]. respects_step; [respects_step|].
  respects_step; [destruct (find_key _ _); [respects_step | exact Hnow]|]. apply respects_modify. intros s. by apply kept_frame.
Qed.

Lemma remember_answers key : answers (remember key).
Proof.
  unfold remember. break_if; [apply answers_ret|]. apply answers_bind; [apply answers_now|]. intros t. apply answers_bind; [apply answers_get|]. intros s0.
  apply answers_bind; [destruct (find_key _ _); [apply answers_ret | apply answers_now]|]. intros now. by apply answers_modify.
Qed.

(** A request, from the declarations to the answer. *)
Lemma Write_maps (s : Store) (A : AStore) (W : SampleStore) (req : WriteRequest) (key client : gostr) :
  writable U -> served U s A W -> request_writable client req ->
  d_nextID (s_db s) + zlen (request_samples client (rq_Batches req)) < 4294967296 -> zlen (request_samples client (rq_Batches req)) <= i64_max ->
  let '(r, s') := Write req key client s in
  match r with
  | Ok resp => exists A' F, F `sublist_of` request_samples client (rq_Batches req) /\
      served U s' A' (foldl (put_sample s') W F) /\ wr_Accepted resp = zlen F /\
      (if wr_Duplicate resp then F = [] else wr_Accepted resp + wr_RejectedCount resp = zlen (request_samples client (rq_Batches req)))
  | Err e => served U s' A W /\ (s_closed s = true \/ exists b, e = StBad b)
  end.
Proof.
  intros HU Hs Hreq Hnext Hmax. unfold Write, mbind, SM_bind, mret, SM_ret.
  assert (Hent : enterEngine s = if s_closed s then (Err StClosed, s) else (Ok tt, s)) by (unfold enterEngine, mbind, SM_bind, get_store; by destruct (s_closed s)).
  rewrite Hent. destruct (s_closed s) eqn:Eclosed; [by split; [|left]|]. 
  pose proof (settles_seen key s) as Hseen. destruct (check_seen_answers key s (ss_calm _ (sv_sound _ _ _ _ Hs))) as [_ Hok].
  destruct (check_seen key s) as [[seen|e] s1]; cbn [snd fst] in *; [clear Hok|done].
  pose proof (served_settles _ _ _ _ Hseen Hs) as Hs1. destruct seen.
  { unfold get_store. exists A, []. split_and!; [apply sublist_nil_l | exact Hs1 | done..]. }
  pose proof (settles_declare req s1) as Hdec. pose proof (declare_refuses req s1) as Hbad. destruct (declare req s1) as [[[]|e] s2]; cbn [fst snd] in Hdec, Hbad.
  2: { split; [by eapply served_settles|]. right. by apply Hbad. }
  pose proof (served_settles _ _ _ _ Hdec Hs1) as Hs2. clear Hbad.
  destruct (st_rows _ _ Hseen A (sv_inv _ _ _ _ Hs)) as (Hi1 & _ & Hn1). destruct (st_rows _ _ Hdec A Hi1) as (_ & _ & Hn2).
  set (q0 := {| q_index := 0; q_resp := empty_response; q_kinds := ∅ |}).
  assert (Hk0 : kinds_agree s2 q0) by (intros set; cbn [q_kinds q0]; rewrite lookup_empty; cbn [default]; split; intros k; by rewrite lookup_empty).
  destruct (write_batches_serves client (rq_Batches req) HU Hreq q0 s2 A W Hs2 Hk0) as (q1 & s3 & A3 & W3 & F & -> & Hsub & Hi3 & [Hs3 Hk3 _ [_ Ht3] -> Hc3]);
    [unfold tallied; cbn; lia | cbn [q_index q0]; lia | lia |].
  cbn [q_index q_resp q0 empty_response wr_Accepted] in Hi3, Hc3.
  pose proof (settles_remember key s3) as Hrem. destruct (remember_answers key s3 (ss_calm _ (sv_sound _ _ _ _ Hs3))) as [_ Hok].
  destruct (remember key s3) as [[[]|e] s4] eqn:Er; cbn [snd fst] in *; [clear Hok|done]. unfold get_store.
  assert (Hk4 : forall x, sample_place s4 x.1 x.2 = sample_place s2 x.1 x.2).
  { intros x. rewrite (kept_place s3 s4 x.1 x.2); [by apply kept_place|]. pose proof (remember_kept key s3) as Hk. by rewrite Er in Hk. }
  exists A3, F. split_and!; [exact Hsub | | cbn; lia | cbn; lia].
  assert (Hfold : foldl (put_sample s4) W F = foldl (put_sample s2) W F).
  { clear -Hk4. revert W. induction F as [|x F IH]; intros W; [done|]. cbn [foldl]. rewrite IH. f_equal. unfold put_sample. by rewrite Hk4. }
  rewrite Hfold. by eapply served_settles.
Qed.

(** C25: a request to a store that serves a map of samples, on an engine
    nothing disturbs, is answered unless the store is closed or one of the
    declarations is refused.  Answered, it leaves a store that serves the
    map with the samples it accepted put in, in the order of the request,
    each in the shard of its timestamp and under its primary key; they are
    as many as the response counts, and every other sample is counted as
    rejected, unless the request is one already answered, which changes
    nothing.  Refused, it leaves the map as it was. *)
Theorem Write_serves (s : Store) (A : AStore) (W : SampleStore) (req : WriteRequest) (key client : gostr) :
  writable U -> served U s A W -> request_writable client req ->
  d_nextID (s_db s) + zlen (request_samples client (rq_Batches req)) < 4294967296 -> zlen (request_samples client (rq_Batches req)) <= i64_max ->
  let '(r, s') := Write req key client s in
  match r with
  | Ok resp => exists A' F, F `sublist_of` request_samples client (rq_Batches req) /\
      served U s' A' (foldl (put_sample s') W F) /\ wr_Accepted resp = zlen F /\
      (if wr_Duplicate resp then F = [] else wr_Accepted resp + wr_RejectedCount resp = zlen (request_samples client (rq_Batches req)))
  | Err e => served U s' A W /\ (s_closed s = true \/ exists b, e = StBad b)
  end.
Proof. apply Write_maps. Qed.

End Requests.

(** ** Witness: a batch for each of two sets, on an empty store *)

Definition sample_a : Sample := host_sample 1700000000000 (bs "a") (bs "v").
Definition sample_b : Sample := host_sample 1700000000000 (bs "b") (bs "v").
Definition pair_samples : list (gostr * Sample) := [(cpu, sample_a); (bs "mem", sample_b)].
Definition pair_request : WriteRequest :=
  {| rq_Batches := [{| b_Set := cpu; b_Samples := [sample_a] |}; {| b_Set := bs "mem"; b_Samples := [sample_b] |}]; rq_FieldMeta := []; rq_SetMeta := [] |}.
Definition pair_written (set : gostr) (sm : Sample) : Prop := (set, sm) ∈ pair_samples.
Abbreviation pair_run := (Write pair_request [] [] empty_store).
Definition pair_map : gmap (gostr * gostr) Sample := foldl (put_sample pair_run.2) ∅ pair_samples.

Lemma sublist_whole {X} (l k : list X) : l `sublist_of` k -> length l = length k -> l = k.
Proof.
  induction 1 as [|x l k _ IH|x l k Hl _]; cbn; [done | intros [= E]; by rewrite IH |]. apply sublist_length in Hl. lia.
Qed.

Lemma pair_writable : writable pair_written.
Proof.
  assert (Hall : forall set sm, pair_written set sm -> TSMs sm = 1700000000000 /\ storable sm).
  { intros set sm [[= -> ->] | [= -> ->]%list_elem_of_singleton]%elem_of_cons; (split; [reflexivity|]); (split; [|by vm_compute]);
      intros k v; cbn [Fields host_sample sample_a sample_b]; rewrite lookup_singleton_Some; by intros [<- <-]. }
  constructor; [intros set sm Hsm; by eapply Hall|]. intros set a b sa sb Ha Hb _. by rewrite (proj1 (Hall _ a Ha)), (proj1 (Hall _ b Hb)).
Qed.

Lemma pair_request_writable : request_writable pair_written [] pair_request.
Proof. constructor; [|constructor; [|constructor]]; intros sm ->%list_elem_of_singleton _; [left | right; left]. Qed.

Lemma empty_served U : served U empty_store ∅ ∅.
Proof.
  assert (He : forall n, entryLocked n empty_store = new_entry n) by (intros n; unfold entryLocked; change (s_catalogue empty_store) with (∅ : gmap gostr setEntry); by rewrite lookup_empty).
  constructor.
  - constructor.
    + unfold empty_store. rewrite store_on_db. by vm_compute.
    + unfold empty_store. rewrite store_on_db. intros n m Hm. change (d_sets demo_empty) with (∅ : gmap gostr setMeta) in Hm. by rewrite lookup_empty in Hm.
    + unfold ticking. change (s_clock empty_store) with (@nil Z). change (s_now empty_store) with 1700000000000000000. by repeat constructor.
    + intros n. rewrite He. by split.
  - apply map_Forall_empty.
  - unfold limits, empty_store. cbn. lia.
  - unfold empty_store. rewrite store_on_db. apply demo_empty_inv.
  - intros n. rewrite He. intros k Hk. by apply elem_of_empty in Hk.
  - split; [apply map_Forall_empty|]. split; [apply map_Forall_empty | by vm_compute].
  - intros shard pk. unfold row_at. rewrite !lookup_empty. constructor.
Qed.

(** What the request leaves. *)
Lemma pair_answered : exists resp, pair_run = (Ok resp, pair_run.2) /\ wr_Accepted resp = 2.
Proof.
  assert (Hok : exists resp, pair_run.1 = Ok resp /\ wr_Accepted resp = 2) by (eexists; split; vm_compute; reflexivity).
  destruct Hok as (resp & Hok & Hacc). exists resp. split; [by apply run_result | exact Hacc].
Qed.
Lemma pair_room : d_nextID (s_db empty_store) + zlen (request_samples [] (rq_Batches pair_request)) < 4294967296 /\
  zlen (request_samples [] (rq_Batches pair_request)) <= i64_max.
Proof. split; [unfold empty_store; rewrite store_on_db, demo_empty_next; reflexivity | vm_compute; discriminate]. Qed.

Lemma pair_whole F resp : F `sublist_of` request_samples [] (rq_Batches pair_request) -> wr_Accepted resp = 2 -> wr_Accepted resp = zlen F -> F = pair_samples.
Proof. intros Hsub Hacc Hlen. apply sublist_whole; [exact Hsub|]. rewrite Hacc in Hlen. unfold zlen in Hlen. cbn. lia. Qed.

Lemma pair_served : exists A', served pair_written pair_run.2 A' pair_map.
Proof.
  destruct pair_answered as (resp & Hok & Hacc), pair_room as [Hnext Hmax].
  pose proof (Write_maps pair_written empty_store ∅ ∅ pair_request [] [] pair_writable (empty_served _) pair_request_writable Hnext Hmax) as Hw.
  rewrite Hok in Hw. destruct Hw as (A' & F & Hsub & Hserved & Hlen & _). rewrite (pair_whole F resp Hsub Hacc Hlen) in Hserved. by exists A'.
Qed.

Lemma Write_serves_witness :
  exists resp A', pair_run = (Ok resp, pair_run.2) /\ wr_Accepted resp = 2 /\ served pair_written pair_run.2 A' pair_map /\
    size pair_map = 2%nat /\ Forall (fun x => pair_map !! sample_place pair_run.2 x.1 x.2 = Some x.2) pair_samples.
Proof.
  destruct pair_answered as (resp & Hok & Hacc), pair_room as [Hnext Hmax].
  pose proof (Write_serves pair_written empty_store ∅ ∅ pair_request [] [] pair_writable (empty_served _) pair_request_writable Hnext Hmax) as Hw.
  rewrite Hok in Hw. destruct Hw as (A' & F & Hsub & Hserved & Hlen & _). rewrite (pair_whole F resp Hsub Hacc Hlen) in Hserved.
  exists resp, A'. split; [exact Hok|]. split; [exact Hacc|]. split; [exact Hserved|]. split; [vm_compute; reflexivity|].
  repeat constructor; vm_compute; reflexivity.
Defined.
