(* ===== verification/StoreQuery.v ===== *)
(** * Running a query ([internal/store/query.go])

    The executors over a scan: series reduced window by window, rows of a
    table or a log view bounded to the newest or the oldest, buckets of a
    heatmap summed per window, and the auxiliary forms that read the
    catalogue and the dictionaries.  A diagnostic or a gate is carried by
    what its text is made of. *)

From Stdlib Require Import ZArith Lia Bool Strings.Byte Strings.String Floats.SpecFloat.
From stdpp Require Import gmap sorting.
From S2P Require Import Prelude Bytes Float64 GoStd GoText Model Wire EngineKeys EngineCodec EngineFilter EngineDB EngineRep EngineQuery.
From S2P Require Import ExtractTimestamp StoreShard StoreState StoreDict StoreReclaim StoreCatalogue StoreRetention Render MqlAst MqlValidate StorePlan StoreScan.

(** ** Requests and responses *)

Record QueryRequest : Type := {
  qr_FromMs : Z;
  qr_ToMs : Z;
  qr_MaxPoints : Z;
  qr_IntervalMs : Z;
  qr_DisableSafety : bool;    (* either of the two flags that are ignored *)
  qr_FromAlert : bool;
}.

Inductive Cell : Type :=
| CNull
| CInt (z : Z)
| CFloat (f : f64)
| CText (s : gostr).

Record Column : Type := { co_Name : gostr; co_Type : gostr }.

Record WSeries : Type := {
  ws_Name : gostr;
  ws_Labels : gmap gostr gostr;
  ws_Meta : option FieldMeta;
  ws_Edges : list f64;
  ws_TSMs : list Z;
  ws_Values : list f64;
  ws_IsNull : list bool;
}.

Record QueryResponse : Type := {
  rs_Series : list WSeries;
  rs_Rows : list (list Cell);
  rs_Columns : list Column;
  rs_Stats : QueryStats;
  rs_SeriesCount : Z;
  rs_PointsOut : Z;
  rs_Truncated : bool;
  rs_Warnings : list Diag;
  rs_Error : option gate;
}.

Definition response (cols : list gostr) (types : list gostr) (rows : list (list Cell)) : QueryResponse :=
  {| rs_Series := []; rs_Rows := rows; rs_Columns := zip_with Build_Column cols types; rs_Stats := no_stats; rs_SeriesCount := 0;
     rs_PointsOut := zlen rows; rs_Truncated := false; rs_Warnings := []; rs_Error := None |}.

(** A gate that tripped ends the answer with a warning. *)
Definition gate_warning (g : option gate) : list Diag := match g with Some g => [W401 g] | None => [] end.

(** ** Stable sorting, [sort.SliceStable] *)

Section Stable.
Context {X : Type} (le : X -> X -> bool).
Fixpoint insert_by (x : X) (l : list X) : list X :=
  match l with
  | [] => [x]
  | y :: l' => if le x y then x :: l else y :: insert_by x l'
  end.
Definition SliceStable (l : list X) : list X := foldr insert_by [] l.
End Stable.

(** [Value.AsInt] of a column a row may not have. *)
Definition row_int `{FloatText} (row : Row) (col : gostr) : option Z :=
  match row !! col with
  | None => None
  | Some v => let '(i, ok) := AsInt v in if ok then Some i else None
  end.

(** ** The name and the key of a series *)

Definition query_writeKeyPart (s : gostr) : gostr := framed s.

Definition seriesKey (labels : gmap gostr gostr) (by_ : list gostr) (field : gostr) : gostr :=
  concat (map (fun l => query_writeKeyPart l ++ query_writeKeyPart (default [] (labels !! l))) by_) ++ query_writeKeyPart field.

Fixpoint join (sep : gostr) (l : list gostr) : gostr :=
  match l with
  | [] => []
  | [x] => x
  | x :: l' => x ++ sep ++ join sep l'
  end.

Definition seriesName (labels : gmap gostr gostr) (by_ : list gostr) (field : gostr) : gostr :=
  join (bs " : ")
    (map (fun l => let v := default [] (labels !! l) in if bytes_eqb v [] then l ++ bs "=" else v) by_
     ++ (if bytes_eqb field [] then [] else [field])).

Definition floorTo (ts window : Z) : Z :=
  if window <=? 0 then ts
  else let m := ts %go window in i64 (ts - (if m <? 0 then m + window else m)).

(** A point that cannot be plotted reads as an absent one. *)
Definition plottable (o : Output) : Z * f64 * bool :=
  if negb (o_Null o) && negb (isFinite (o_Value o)) then (o_TSMs o, f_zero, true) else (o_TSMs o, o_Value o, o_Null o).

Section Query.
Context `{Unicode} `{FloatText} `{Regexp} `{RC : !RegexpCompile} `{J : MetaJSON} `{L : LSM} `{SJ : StoreJSON}.

Fixpoint rowLabels (s : Store) (row : Row) (by_ : list gostr) : gmap gostr gostr :=
  match by_ with
  | [] => ∅
  | l :: by' =>
      let rest := rowLabels s row by' in
      match row_int row l with
      | None => rest
      | Some i => match labelValue s l (i32 i) with Some v => <[l := v]> rest | None => rest end
      end
  end.

(** ** Time series *)

Record seriesAcc : Type := {
  sa_name : gostr;
  sa_labels : gmap gostr gostr;
  sa_field : resolvedField;
  sa_points : list Point;
}.

Record ts_state : Type := { ta_acc : gmap gostr seriesAcc; ta_gate : option gate; ta_points : Z }.
Definition ts_empty : ts_state := {| ta_acc := ∅; ta_gate := None; ta_points := 0 |}.

(** The loop over the fields of one row. *)
Fixpoint ts_fields (by_ : list gostr) (maxSeries maxPoints : Z) (labels : gmap gostr gostr) (row : Row) (ts : Z)
    (fields : list resolvedField) (st : ts_state) : ts_state * bool :=
  match fields with
  | [] => (st, true)
  | f :: fields' =>
      let next st := ts_fields by_ maxSeries maxPoints labels row ts fields' st in
      match row !! rf_name f with
      | None => next st
      | Some v =>
          let '(fv, ok) := AsFloat v in
          if negb ok then next st
          else
            let points := ta_points st + 1 in
            if (maxPoints >? 0) && (points >? maxPoints)
            then ({| ta_acc := ta_acc st; ta_gate := Some GatePoints; ta_points := points |}, false)
            else
              let key := seriesKey labels by_ (rf_label f) in
              let p := {| p_Value := fv; p_TSMs := ts |} in
              match ta_acc st !! key with
              | Some a =>
                  next {| ta_acc := <[key := {| sa_name := sa_name a; sa_labels := sa_labels a; sa_field := sa_field a;
                                                sa_points := sa_points a ++ [p] |}]> (ta_acc st);
                          ta_gate := ta_gate st; ta_points := points |}
              | None =>
                  if (maxSeries >? 0) && (Z.of_nat (size (ta_acc st)) >=? maxSeries)
                  then ({| ta_acc := ta_acc st; ta_gate := Some GateSeries; ta_points := points |}, false)
                  else
                    next {| ta_acc := <[key := {| sa_name := seriesName labels by_ (rf_label f); sa_labels := labels; sa_field := f;
                                                  sa_points := [p] |}]> (ta_acc st);
                            ta_gate := ta_gate st; ta_points := points |}
              end
      end
  end.

Definition ts_visit (s : Store) (q : MqlAst.Query) (p : queryPlan) (maxSeries maxPoints : Z) : visitor ts_state := fun st row =>
  match row_int row TimestampField with
  | None => (st, true)
  | Some ts => ts_fields (q_By q) maxSeries maxPoints (rowLabels s row (q_By q)) row ts (qp_fields p) st
  end.

Definition query_window (q : MqlAst.Query) (req : QueryRequest) : Z :=
  let window := match q_EveryMs q with
                | Some w => w
                | None => Render.Window (i64 (qr_ToMs req - qr_FromMs req)) (qr_MaxPoints req) (qr_IntervalMs req)
                end in
  if window <? 0 then 0 else window.

(** Samples that share a timestamp with the one before, in a sorted series. *)
Fixpoint collapsed_in (l : list Point) : Z :=
  match l with
  | a :: (b :: _) as l' => (if p_TSMs a =? p_TSMs b then 1 else 0) + collapsed_in l'
  | _ => 0
  end.

Definition spec_for (req : QueryRequest) (spec : Render.Spec) : Render.Spec :=
  {| sp_Delta := sp_Delta spec; sp_PerSecond := sp_PerSecond spec; sp_Negate := sp_Negate spec; sp_GapMs := sp_GapMs spec;
     sp_ClampMin := sp_ClampMin spec; sp_ClampMax := sp_ClampMax spec; sp_ClampElseRaw := sp_ClampElseRaw spec;
     sp_SSE := if qr_FromAlert req then {| sse_Mode := SSEOff; sse_Value := f_zero |} else sp_SSE spec;
     sp_EndMs := if qr_FromAlert req then 0 else qr_ToMs req |}.

Definition wire_series (req : QueryRequest) (window : Z) (a : seriesAcc) : WSeries :=
  let pts := map plottable (Render.Series (sa_points a) (spec_for req (rf_spec (sa_field a))) window) in
  {| ws_Name := sa_name a; ws_Labels := sa_labels a; ws_Meta := rf_meta (sa_field a); ws_Edges := [];
     ws_TSMs := map (fun x => x.1.1) pts; ws_Values := map (fun x => x.1.2) pts; ws_IsNull := map snd pts |}.

Definition interleaveWarning (s : Store) (q : MqlAst.Query) (collapsed : Z) : Diag :=
  match q_By q with
  | _ :: _ => W301_grouped collapsed
  | [] => W301_ungrouped collapsed (take 5 (LabelKeys s (q_From q)))
  end.

(** The series by name; the accumulator's own order breaks ties. *)
Definition by_name (acc : gmap gostr seriesAcc) : list seriesAcc :=
  SliceStable (fun a b => ble (sa_name a) (sa_name b)) (map_to_list acc).*2.

Definition runTimeseries (ctx : list bool) (q : MqlAst.Query) (req : QueryRequest) (p : queryPlan) (warns : list Diag) (maxSeries maxPoints : Z)
    : SM QueryResponse :=
  s ← get_store;
  x ← scan (ts_visit s q p maxSeries maxPoints) p (qr_FromMs req) (qr_ToMs req) ctx ts_empty no_stats;
  let '(st, stats) := x : ts_state * QueryStats in
  let out := by_name (ta_acc st) in
  let series := map (wire_series req (query_window q req)) out in
  let collapsed := foldr Z.add 0 (map (fun a => collapsed_in (Render.sort_points (sa_points a))) out) in
  mret {| rs_Series := series; rs_Rows := []; rs_Columns := []; rs_Stats := stats; rs_SeriesCount := zlen series;
          rs_PointsOut := foldr Z.add 0 (map (fun w => zlen (ws_TSMs w)) series); rs_Truncated := negb (is_none (ta_gate st));
          rs_Warnings := warns ++ (if collapsed >? 0 then [interleaveWarning s q collapsed] else []) ++ gate_warning (ta_gate st);
          rs_Error := ta_gate st |}.

(** ** Heatmaps *)

Definition heatmapWindow (q : MqlAst.Query) (req : QueryRequest) : Z :=
  let window := match q_EveryMs q with
                | Some w => w
                | None => Render.SingleWindow (i64 (qr_ToMs req - qr_FromMs req)) (qr_MaxPoints req) (qr_IntervalMs req)
                end in
  if window <=? 0 then 1 else window.

(** The sums of one group and bucket, by window. *)
Record heat_state : Type := {
  ht_sums : gmap (gostr * Z) (gmap Z f64);
  ht_groups : gmap gostr (gmap gostr gostr);
  ht_gate : option gate;
  ht_points : Z;
}.
Definition heat_empty : heat_state := {| ht_sums := ∅; ht_groups := ∅; ht_gate := None; ht_points := 0 |}.

(** The loop over the bucket columns of one row, from position [bi]. *)
Fixpoint heat_buckets (maxSeries maxPoints : Z) (g : gostr) (labels : gmap gostr gostr) (bucketTs : Z) (row : Row) (bi : Z)
    (buckets : list gostr) (st : heat_state) : heat_state * bool :=
  match buckets with
  | [] => (st, true)
  | col :: buckets' =>
      let next st := heat_buckets maxSeries maxPoints g labels bucketTs row (bi + 1) buckets' st in
      if bytes_eqb col [] then next st
      else
        match row !! col with
        | None => next st
        | Some v =>
            let '(fv, ok) := AsFloat v in
            if negb ok then next st
            else
              let full := match ht_sums st !! (g, bi) with
                          | Some _ => false
                          | None => (maxSeries >? 0) && (Z.of_nat (size (ht_sums st)) >=? maxSeries)
                          end in
              if full then ({| ht_sums := ht_sums st; ht_groups := ht_groups st; ht_gate := Some GateHeatmapSeries; ht_points := ht_points st |}, false)
              else
                let cell := default ∅ (ht_sums st !! (g, bi)) in
                let groups := <[g := labels]> (ht_groups st) in
                let points := match cell !! bucketTs with Some _ => ht_points st | None => ht_points st + 1 end in
                let tripped := match cell !! bucketTs with Some _ => false | None => (maxPoints >? 0) && (points >? maxPoints) end in
                if tripped
                then ({| ht_sums := <[(g, bi) := cell]> (ht_sums st); ht_groups := groups; ht_gate := Some GatePoints; ht_points := points |}, false)
                else
                  next {| ht_sums := <[(g, bi) := <[bucketTs := fadd (default f_zero (cell !! bucketTs)) fv]> cell]> (ht_sums st);
                          ht_groups := groups; ht_gate := ht_gate st; ht_points := points |}
        end
  end.

Definition heat_visit (s : Store) (q : MqlAst.Query) (buckets : list gostr) (window maxSeries maxPoints : Z) : visitor heat_state := fun st row =>
  match row_int row TimestampField with
  | None => (st, true)
  | Some ts =>
      let labels := rowLabels s row (q_By q) in
      heat_buckets maxSeries maxPoints (seriesKey labels (q_By q) []) labels (floorTo ts window) row 0 buckets st
  end.

(** [fmt.Sprintf("%g", ...)], the shortest text of a float. *)
Definition heatmapSeriesName (labels : gmap gostr gostr) (by_ : list gostr) (edges : list f64) (bucket : Z) : gostr :=
  seriesName labels by_ (match idx edges bucket with Some e => FormatFloat_g e | None => [] end).

Definition heat_series (q : MqlAst.Query) (edges : list f64) (groups : gmap gostr (gmap gostr gostr)) (kv : gostr * Z * gmap Z f64) : WSeries :=
  let '(g, bucket, cells) := kv in
  let labels := default ∅ (groups !! g) in
  let pts := map (fun tv : Z * f64 => if isFinite tv.2 then (tv.1, tv.2, false) else (tv.1, f_zero, true))
               (SliceStable (fun a b : Z * f64 => a.1 <=? b.1) (map_to_list cells)) in
  {| ws_Name := heatmapSeriesName labels (q_By q) edges bucket; ws_Labels := labels; ws_Meta := None; ws_Edges := edges;
     ws_TSMs := map (fun x => x.1.1) pts; ws_Values := map (fun x => x.1.2) pts; ws_IsNull := map snd pts |}.

Definition heat_order (a b : gostr * Z * gmap Z f64) : bool :=
  blt a.1.1 b.1.1 || (bytes_eqb a.1.1 b.1.1 && (a.1.2 <=? b.1.2)).

Definition runHeatmap (ctx : list bool) (q : MqlAst.Query) (req : QueryRequest) (p : queryPlan) (warns : list Diag) (maxSeries maxPoints : Z)
    : SM (result Diag QueryResponse) :=
  match q_Select q with
  | [] => mret (Err E008_heatmap)
  | fe :: _ =>
      s ← get_store;
      let name := fe_Histogram fe in
      let info := e ← s_catalogue s !! q_From q; se_BucketSets e !! name in
      match info with
      | None | Some {| bi_Buckets := [] |} => mret (Err (E009 name (q_From q)))
      | Some info =>
          x ← scan (heat_visit s q (bi_Buckets info) (heatmapWindow q req) maxSeries maxPoints) p (qr_FromMs req) (qr_ToMs req) ctx heat_empty no_stats;
          let '(st, stats) := x : heat_state * QueryStats in
          let series := map (heat_series q (bi_Edges info) (ht_groups st)) (SliceStable heat_order (map_to_list (ht_sums st))) in
          mret (Ok {| rs_Series := series; rs_Rows := []; rs_Columns := []; rs_Stats := stats; rs_SeriesCount := zlen series;
                      rs_PointsOut := foldr Z.add 0 (map (fun w => zlen (ws_TSMs w)) series); rs_Truncated := negb (is_none (ht_gate st));
                      rs_Warnings := warns ++ gate_warning (ht_gate st); rs_Error := ht_gate st |})
      end
  end.

(** ** Tables and logs *)

Record tab_state : Type := {
  tb_rows : list (Z * list Cell);
  tb_truncated : bool;
  tb_sawString : list bool;
}.

(** The cells of the selected fields, whether a row carries any of them, and
    which of its cells are text. *)
Fixpoint field_cells (row : Row) (fields : list resolvedField) : list (Cell * bool) :=
  match fields with
  | [] => []
  | f :: fields' =>
      (match row !! rf_name f with
       | None => (CNull, false)
       | Some (VString s) => (CText s, true)
       | Some v => let '(fv, ok) := AsFloat v in (if ok then CFloat fv else CNull, ok)
       end) :: field_cells row fields'
  end.

Definition is_text (c : Cell) : bool := match c with CText _ => true | _ => false end.

(** The row of a table, if the scanned row has a timestamp and carries one
    of the selected fields. *)
Definition table_row (s : Store) (by_ : list gostr) (fields : list resolvedField) (row : Row) : option (Z * list Cell) :=
  match row_int row TimestampField with
  | None => None
  | Some ts =>
      let labels := rowLabels s row by_ in
      let cells := field_cells row fields in
      if existsb snd cells
      then Some (ts, CInt ts :: map (fun l => CText (default [] (labels !! l))) by_ ++ map fst cells)
      else None
  end.

(** [tabularSlack]. *)
Definition tabularSlack : Z := 64.

(** The order of [keepBest]: newest first in a log view. *)
Definition tab_le (reverse_ : bool) (a b : Z * list Cell) : bool := if reverse_ then b.1 <=? a.1 else a.1 <=? b.1.

Definition keepBest (reverse_ : bool) (limit : Z) (rows : list (Z * list Cell)) : list (Z * list Cell) :=
  take (Z.to_nat limit) (SliceStable (tab_le reverse_) rows).

Definition tab_visit (s : Store) (q : MqlAst.Query) (p : queryPlan) (limit : Z) : visitor tab_state := fun st row =>
  let saw := if row_int row TimestampField is Some _ then zip_with orb (tb_sawString st) (map (fun c => is_text c.1) (field_cells row (qp_fields p)))
             else tb_sawString st in
  match table_row s (q_By q) (qp_fields p) row with
  | None => ({| tb_rows := tb_rows st; tb_truncated := tb_truncated st; tb_sawString := saw |}, true)
  | Some r =>
      let rows := tb_rows st ++ [r] in
      if zlen rows <=? limit then ({| tb_rows := rows; tb_truncated := tb_truncated st; tb_sawString := saw |}, true)
      else if negb (qp_overlapping p) then ({| tb_rows := rows; tb_truncated := true; tb_sawString := saw |}, false)
      else
        let rows := if zlen rows >=? 2 * limit + tabularSlack then keepBest (qp_reverse p) limit rows else rows in
        ({| tb_rows := rows; tb_truncated := true; tb_sawString := saw |}, true)
  end.

(** What the walk gathered, cut to the limit and put in order of time. *)
Definition tab_finish (p : queryPlan) (limit : Z) (rows : list (Z * list Cell)) : list (Z * list Cell) :=
  SliceStable (tab_le false) (if zlen rows >? limit then keepBest (qp_reverse p) limit rows else rows).

Definition tab_limit (q : MqlAst.Query) : Z :=
  let limit := default 1000 (li_Points (q_Limits q)) in if limit <? 0 then 0 else limit.

Definition is_string_field (f : resolvedField) : bool :=
  match rf_meta f with Some m => bytes_eqb (fm_Kind m) (bs "string") | None => false end.

(** A number in a text column, [strconv.FormatFloat(f, 'g', -1, 64)]. *)
Definition as_text (text : bool) (c : Cell) : Cell :=
  match c with CFloat f => if text then CText (FormatFloat_g f) else c | _ => c end.

Definition table_columns (q : MqlAst.Query) (p : queryPlan) (sawString : list bool) : list Column :=
  {| co_Name := bs "time"; co_Type := bs "time" |}
  :: map (fun l => {| co_Name := l; co_Type := bs "string" |}) (q_By q)
  ++ zip_with (fun f saw => {| co_Name := rf_label f; co_Type := if is_string_field f || saw then bs "string" else bs "number" |})
       (qp_fields p) sawString.

Definition table_cells (q : MqlAst.Query) (p : queryPlan) (sawString : list bool) (cells : list Cell) : list Cell :=
  let first := S (length (q_By q)) in
  take first cells ++ zip_with as_text (zip_with (fun f saw => is_string_field f || saw) (qp_fields p) sawString) (drop first cells).

Definition runTabular (ctx : list bool) (q : MqlAst.Query) (req : QueryRequest) (p : queryPlan) (warns : list Diag) : SM QueryResponse :=
  s ← get_store;
  let limit := tab_limit q in
  x ← scan (tab_visit s q p limit) p (qr_FromMs req) (qr_ToMs req) ctx
        {| tb_rows := []; tb_truncated := false; tb_sawString := map (fun _ => false) (qp_fields p) |} no_stats;
  let '(st, stats) := x : tab_state * QueryStats in
  let rows := tab_finish p limit (tb_rows st) in
  let cut := if tb_truncated st then Some (GateRows limit (qp_reverse p)) else None in
  mret {| rs_Series := []; rs_Rows := map (fun r => table_cells q p (tb_sawString st) r.2) rows;
          rs_Columns := table_columns q p (tb_sawString st); rs_Stats := stats; rs_SeriesCount := 0; rs_PointsOut := zlen rows;
          rs_Truncated := tb_truncated st; rs_Warnings := warns ++ gate_warning cut; rs_Error := cut |}.

(** ** The auxiliary forms *)

Definition text_rows (l : list gostr) : list (list Cell) := map (fun v => [CText v]) l.

Definition querySets (s : Store) : QueryResponse := response [bs "set"] [bs "string"] (text_rows (Store_Sets s)).
Definition queryLabelKeys (s : Store) (set : gostr) : QueryResponse := response [bs "label"] [bs "string"] (text_rows (LabelKeys s set)).

Definition queryFields (s : Store) (set : gostr) : result Diag QueryResponse :=
  match s_catalogue s !! set with
  | None => Err (E002_set set)
  | Some e =>
      Ok (response [bs "field"; bs "kind"; bs "unit"; bs "max_interval_ms"] [bs "string"; bs "string"; bs "string"; bs "number"]
        (map (fun nf : gostr * fieldEntry => [CText nf.1; CText (kind nf.2); CText (fe_Unit nf.2); CFloat (of_int (fe_MaxInterval nf.2))])
          (SliceStable (fun a b => ble a.1 b.1) (map_to_list (se_Fields e)))))
  end.

(** ** Label values *)

Record lv_state : Type := { lv_seen : gset gostr; lv_gate : option gate; lv_points : Z }.

Definition lv_visit (s : Store) (label : gostr) (maxSeries maxPoints : Z) : visitor lv_state := fun st row =>
  match row_int row label with
  | None => (st, true)
  | Some i =>
      let points := lv_points st + 1 in
      if (maxPoints >? 0) && (points >? maxPoints) then ({| lv_seen := lv_seen st; lv_gate := Some GateLabelPoints; lv_points := points |}, false)
      else
        match labelValue s label (i32 i) with
        | None => ({| lv_seen := lv_seen st; lv_gate := lv_gate st; lv_points := points |}, true)
        | Some v =>
            if decide (v ∈ lv_seen st) then ({| lv_seen := lv_seen st; lv_gate := lv_gate st; lv_points := points |}, true)
            else if (maxSeries >? 0) && (Z.of_nat (size (lv_seen st)) >=? maxSeries)
            then ({| lv_seen := lv_seen st; lv_gate := Some GateLabelValues; lv_points := points |}, false)
            else ({| lv_seen := {[v]} ∪ lv_seen st; lv_gate := lv_gate st; lv_points := points |}, true)
        end
  end.

(** [shardsByLogical], at one set. *)
Definition shardsByLogical (s : Store) (set : gostr) : list gostr :=
  base.filter (fun name => fst <$> shard_of_set name = Some set) (Sets (s_db s)).

(** The loop over the sets that carry the label; a gate ends it. *)
Fixpoint lv_sets (s : Store) (label : gostr) (maxSeries maxPoints fromMs toMs : Z) (ctx : list bool) (expr : option EngineFilter.Expr)
    (projection : list gostr) (sets : list gostr) (st : lv_state) (stats : QueryStats) : SM (lv_state * QueryStats) :=
  match sets with
  | [] => mret (st, stats)
  | set :: sets' =>
      if negb (is_none (lv_gate st)) then mret (st, stats)
      else
        let '(shards, overlapping) := shardsInRange set (shardsByLogical s set) fromMs toMs in
        let p := {| qp_shards := shards; qp_expr := expr; qp_projection := projection; qp_fields := []; qp_impossible := false;
                    qp_reverse := false; qp_overlapping := overlapping |} in
        x ← scan (lv_visit s label maxSeries maxPoints) p fromMs toMs ctx st stats;
        lv_sets s label maxSeries maxPoints fromMs toMs ctx expr projection sets' x.1 x.2
  end.

Definition queryLabelValues (ctx : list bool) (q : MqlAst.Query) (req : QueryRequest) (maxSeries maxPoints : Z) : SM QueryResponse :=
  s ← get_store;
  if Expr_Empty (q_Where q) then mret (response [bs "value"] [bs "string"] (text_rows (LabelValues s (q_Label q))))
  else
    let '(expr, warns, impossible, proj) := buildExpr s (q_Where q) ({[TimestampField]} ∪ {[q_Label q]}) in
    let sets := if impossible : bool then [] else setsWithLabel s (q_Label q) in
    x ← lv_sets s (q_Label q) maxSeries maxPoints (qr_FromMs req) (qr_ToMs req) ctx expr (sort_strings (elements proj)) sets
          {| lv_seen := ∅; lv_gate := None; lv_points := 0 |} no_stats;
    let '(st, stats) := x : lv_state * QueryStats in
    let out := text_rows (sort_strings (elements (lv_seen st))) in
    mret {| rs_Series := []; rs_Rows := out; rs_Columns := [{| co_Name := bs "value"; co_Type := bs "string" |}]; rs_Stats := stats;
            rs_SeriesCount := 0; rs_PointsOut := zlen out; rs_Truncated := negb (is_none (lv_gate st));
            rs_Warnings := appendNewDiags [] warns ++ gate_warning (lv_gate st); rs_Error := lv_gate st |}.

(** ** A whole query, once it is valid *)

Definition with_warns (warns : list Diag) (r : QueryResponse) : QueryResponse :=
  {| rs_Series := rs_Series r; rs_Rows := rs_Rows r; rs_Columns := rs_Columns r; rs_Stats := rs_Stats r; rs_SeriesCount := rs_SeriesCount r;
     rs_PointsOut := rs_PointsOut r; rs_Truncated := rs_Truncated r; rs_Warnings := warns ++ rs_Warnings r; rs_Error := rs_Error r |}.

(** What [Query] does with a query [mql.Validate] accepted with [warns]. *)
Definition query_valid (ctx : list bool) (q : MqlAst.Query) (req : QueryRequest) (warns : list Diag) (seriesCeiling pointsCeiling : Z)
    : SM (result Diag QueryResponse) :=
  s ← get_store;
  let maxSeries := narrower seriesCeiling (li_Series (q_Limits q)) in
  let maxPointsIn := narrower pointsCeiling (li_Points (q_Limits q)) in
  let warns := warns ++ (if qr_DisableSafety req then [W402] else []) in
  if bytes_eqb (q_Kind q) KindSets then mret (Ok (querySets s))
  else if bytes_eqb (q_Kind q) KindFields then mret (queryFields s (q_From q))
  else if bytes_eqb (q_Kind q) KindLabelKeys then mret (Ok (queryLabelKeys s (q_From q)))
  else if bytes_eqb (q_Kind q) KindLabels then
    r ← queryLabelValues ctx q req maxSeries maxPointsIn; mret (Ok (with_warns warns r))
  else
    let warns := warns ++ (if qr_FromAlert req && is_none (q_EveryMs q) then [W302] else []) in
    let '(p, planWarns) := Store_plan s q (qr_FromMs req) (qr_ToMs req) in
    let warns := warns ++ planWarns in
    if bytes_eqb (q_Format q) FormatTable || bytes_eqb (q_Format q) FormatLogs then r ← runTabular ctx q req p warns; mret (Ok r)
    else if bytes_eqb (q_Format q) FormatHeatmap then runHeatmap ctx q req p warns maxSeries maxPointsIn
    else r ← runTimeseries ctx q req p warns maxSeries maxPointsIn; mret (Ok r).

(** [Query]. *)
Definition Store_Query (ctx : list bool) (ast : option MqlAst.Query) (req : QueryRequest) : SM (result Diag QueryResponse) :=
  s ← get_store;
  if s_closed s then sfail StClosed
  else
    match ast with
    | None => mret (Err E002_ast)
    | Some q =>
        let seriesCeiling := cf_MaxSeriesPerGraph (s_cfg s) in
        let pointsCeiling := cf_MaxDataPointsReceived (s_cfg s) in
        match ValidateQuery (Some (Store_Schema s)) q seriesCeiling pointsCeiling with
        | (_, Some d) => mret (Err (Checked d))
        | (warns, None) => query_valid ctx q req (map Checked warns) seriesCeiling pointsCeiling
        end
    end.

(** ** Explain *)

(** [sseName]. *)
Definition sseName (m : Render.SSE) : gostr :=
  match sse_Mode m with
  | SSERepeat => bs "repeat"
  | SSEOff => bs "off"
  | SSEConst => bs "const " ++ FormatFloat_g (sse_Value m)
  end.

(** One selected field of a plan; a tabular format runs no render stage and
    reports none. *)
Record explained : Type := { ex_field : gostr; ex_as : gostr; ex_required : bool; ex_stages : option (Render.Spec * gostr) }.

Record Explanation : Type := {
  xp_shards : list gostr;
  xp_projection : list gostr;
  xp_fields : list explained;
  xp_window : Z;
  xp_impossible : bool;
  xp_warnings : list Diag;
}.

Definition explain_field (q : MqlAst.Query) (f : resolvedField) : explained :=
  {| ex_field := rf_name f; ex_as := rf_label f; ex_required := rf_required f;
     ex_stages := if tabular (q_Format q) then None else Some (rf_spec f, sseName (sp_SSE (rf_spec f))) |}.

Definition Explain (s : Store) (q : MqlAst.Query) (req : QueryRequest) : result Diag Explanation :=
  if zlen (q_Select q) >? MaxSelectFields then Err (Checked (E007_select (zlen (q_Select q))))
  else if zlen (q_By q) >? MaxByLabels then Err (Checked (E007_by (zlen (q_By q))))
  else match CheckPredicateDepth (Some q) with
       | Err e => Err (Checked (shape_diag e))
       | Ok _ =>
           let '(p, warns) := Store_plan s q (qr_FromMs req) (qr_ToMs req) in
           Ok {| xp_shards := qp_shards p; xp_projection := qp_projection p; xp_fields := map (explain_field q) (qp_fields p);
                 xp_window := if bytes_eqb (q_Format q) FormatHeatmap then heatmapWindow q req
                              else if tabular (q_Format q) then 0 else query_window q req;
                 xp_impossible := qp_impossible p; xp_warnings := warns |}
       end.

End Query.
