(* ===== verification/StoreQueryProps.v ===== *)
(** * What a query answers

    The rows an executor is given are exactly those of the set, the range
    and the predicate; a table keeps the newest or the oldest of them; the
    points of a series are those of the rows that carry its labels, in order
    of the scan. *)

From Stdlib Require Import ZArith Lia Bool Strings.Byte Strings.String Floats.SpecFloat.
From stdpp Require Import gmap sorting.
From S2P Require Import Prelude Bytes Float64 GoStd GoText Model Wire EngineKeys EngineCodec EngineFilter EngineDB EngineRep EngineInv.
From S2P Require Import EngineSchema EngineStore EngineQuery EngineScan ExtractTimestamp StoreShard StoreState StoreDict StoreDictProofs StoreReclaim.
From S2P Require Import StoreCatalogue StoreRetention Render MqlAst MqlValidate StorePlan StorePlanProps StoreScan StoreQuery.

(** ** Stable sorting *)

Section Stable.
Context {X : Type} (le : X -> X -> bool).
Hypothesis (le_total : forall x y, le x y = true \/ le y x = true).
Hypothesis (le_trans : forall x y z, le x y = true -> le y z = true -> le x z = true).

(** Merging two lists, the first one's elements ahead of their equals. *)
Fixpoint merge (a : list X) : list X -> list X :=
  fix go b :=
    match a, b with
    | [], _ => b
    | _, [] => a
    | x :: a', y :: b' => if le x y then x :: merge a' b else y :: go b'
    end.

Lemma merge_nil_l b : merge [] b = b.
Proof. by destruct b. Qed.
Lemma merge_nil_r a : merge a [] = a.
Proof. by destruct a. Qed.
Lemma merge_cons x a y b : merge (x :: a) (y :: b) = if le x y then x :: merge a (y :: b) else y :: merge (x :: a) b.
Proof. done. Qed.
Arguments merge : simpl never.

Lemma insert_merge x a : forall b, insert_by le x (merge a b) = merge (insert_by le x a) b.
Proof.
  induction a as [|y a IHa]; intros b.
  - induction b as [|z b IHb]; [done|]. rewrite merge_nil_l in *. cbn [insert_by]. rewrite merge_cons, IHb, merge_nil_l. done.
  - induction b as [|z b IHb]; [by rewrite !merge_nil_r|]. rewrite merge_cons. destruct (le y z) eqn:Eyz.
    + cbn [insert_by]. destruct (le x y) eqn:Exy; rewrite merge_cons.
      * by rewrite (le_trans _ _ _ Exy Eyz), merge_cons, Eyz.
      * rewrite Eyz. f_equal. apply IHa.
    + cbn [insert_by] in IHb |- *. destruct (le x z) eqn:Exz.
      * assert (Exy : le x y = true) by (apply (le_trans _ z); [done|]; destruct (le_total y z); congruence).
        by rewrite Exy, !merge_cons, Exz, Eyz.
      * destruct (le x y) eqn:Exy; rewrite merge_cons, ?Exz, ?Eyz; f_equal; exact IHb.
Qed.

Lemma SliceStable_app l m : SliceStable le (l ++ m) = merge (SliceStable le l) (SliceStable le m).
Proof.
  induction l as [|x l IH]; [by rewrite merge_nil_l|]. cbn [app]. unfold SliceStable in *. cbn [foldr]. by rewrite IH, insert_merge.
Qed.

Lemma take_merge k : forall a b, take k (merge (take k a) b) = take k (merge a b).
Proof.
  induction k as [|k IHk]; intros a b; [done|]. destruct a as [|x a]; [done|]. cbn [take].
  destruct b as [|y b]; [rewrite !merge_nil_r; cbn [take]; by rewrite take_take, Nat.min_id|]. rewrite !merge_cons.
  destruct (le x y); cbn [take]; f_equal; [apply IHk|].
  rewrite <- (IHk (x :: take k a)), <- (IHk (x :: a)). do 2 f_equal.
  destruct k as [|k]; [done|]. cbn [take]. by rewrite take_take, Nat.min_l by lia.
Qed.

(** Nondecreasing, each element against every later one. *)
Definition in_order : list X -> Prop := StronglySorted (fun x y => le x y = true).

Lemma insert_elem x l y : y ∈ insert_by le x l <-> y = x \/ y ∈ l.
Proof.
  induction l as [|z l IH]; cbn [insert_by]; [rewrite elem_of_cons; tauto|].
  destruct (le x z); rewrite !elem_of_cons; [tauto|]. rewrite IH. tauto.
Qed.

Lemma insert_in_order x l : in_order l -> in_order (insert_by le x l).
Proof.
  unfold in_order. induction 1 as [|y l Hs IH Hy]; cbn [insert_by]; [by repeat constructor|]. destruct (le x y) eqn:E.
  - constructor; [by constructor|]. constructor; [done|]. eapply Forall_impl; [exact Hy|]. intros z Hz. by eapply le_trans.
  - constructor; [done|]. apply Forall_forall. intros z [-> | Hz]%insert_elem.
    + destruct (le_total x y); congruence.
    + by apply (proj1 (Forall_forall _ _) Hy).
Qed.

Lemma SliceStable_in_order l : in_order (SliceStable le l).
Proof. induction l; cbn; [constructor | by apply insert_in_order]. Qed.

Lemma SliceStable_id l : in_order l -> SliceStable le l = l.
Proof.
  unfold in_order. induction 1 as [|x l Hs IH Hx]; [done|]. cbn [SliceStable foldr]. fold (SliceStable le l). rewrite IH.
  destruct l as [|y l]; [done|]. cbn [insert_by]. apply Forall_cons in Hx as [-> _]. done.
Qed.

Lemma insert_perm x l : insert_by le x l ≡ₚ x :: l.
Proof. induction l as [|y l IH]; cbn [insert_by]; [done|]. destruct (le x y); [done|]. rewrite IH. apply Permutation_swap. Qed.
Lemma SliceStable_perm l : SliceStable le l ≡ₚ l.
Proof. induction l as [|x l IH]; [done|]. cbn [SliceStable foldr]. fold (SliceStable le l). by rewrite insert_perm, IH. Qed.

Lemma in_order_take k l : in_order l -> in_order (take k l).
Proof. intros Hl. rewrite <- (take_drop k l) in Hl. by apply StronglySorted_app_1_l in Hl. Qed.

(** A prefix of what was gathered so far may be dropped once it is sorted and
    cut: what follows is cut the same. *)
Lemma cut_early k l m : take k (SliceStable le (take k (SliceStable le l) ++ m)) = take k (SliceStable le (l ++ m)).
Proof.
  rewrite !SliceStable_app, (SliceStable_id (take k _)) by apply in_order_take, SliceStable_in_order. apply take_merge.
Qed.

End Stable.
(** ** What a table keeps *)

Section Table.
Context `{FloatText} `{Regexp} `{RC : !RegexpCompile} `{J : MetaJSON} `{!MetaJSONLaws J} `{L : LSM} `{!LSMLaws L} `{SJ : StoreJSON}.
Implicit Types (s : Store) (p : queryPlan).

Lemma tab_le_total rev x y : tab_le rev x y = true \/ tab_le rev y x = true.
Proof. unfold tab_le. destruct rev; rewrite !Z.leb_le; lia. Qed.
Lemma tab_le_trans rev x y z : tab_le rev x y = true -> tab_le rev y z = true -> tab_le rev x z = true.
Proof. unfold tab_le. destruct rev; rewrite !Z.leb_le; lia. Qed.

Abbreviation trow := (Z * list Cell)%type.

(** The rows a table owes: all of them, or the first [limit] in the order
    it keeps. *)
Definition best (rev : bool) (limit : Z) (cs : list trow) : list trow :=
  if zlen cs <=? limit then cs else take (Z.to_nat limit) (SliceStable (tab_le rev) cs).

(** The state of the walk after the candidates [cs], where shards overlap. *)
Definition tab_inv (rev : bool) (limit : Z) (cs : list trow) (st : tab_state) : Prop :=
  if tb_truncated st then
    limit < zlen cs /\ limit <= zlen (tb_rows st) /\ (zlen (tb_rows st) = limit -> in_order (tab_le rev) (tb_rows st)) /\
    forall m, take (Z.to_nat limit) (SliceStable (tab_le rev) (tb_rows st ++ m)) = take (Z.to_nat limit) (SliceStable (tab_le rev) (cs ++ m))
  else tb_rows st = cs /\ zlen cs <= limit.

Lemma zlen_keepBest rev limit rows : 0 <= limit <= zlen rows -> zlen (keepBest rev limit rows) = limit.
Proof.
  intros Hl. unfold keepBest, zlen in *. rewrite length_take, (Permutation_length (SliceStable_perm _ rows)). lia.
Qed.

(** One more candidate past the limit, in the overlapping walk. *)
Lemma tab_inv_full rev limit cs (rows rows' : list trow) saw : 0 <= limit < zlen rows -> limit < zlen cs ->
  (forall m, take (Z.to_nat limit) (SliceStable (tab_le rev) (rows ++ m)) = take (Z.to_nat limit) (SliceStable (tab_le rev) (cs ++ m))) ->
  rows' = keepBest rev limit rows \/ rows' = rows ->
  tab_inv rev limit cs {| tb_rows := rows'; tb_truncated := true; tb_sawString := saw |}.
Proof.
  intros Hr Hc Heq [-> | ->]; unfold tab_inv; cbn [tb_truncated tb_rows].
  - rewrite zlen_keepBest by lia. split; [done|]. split; [lia|]. split.
    + intros _. apply in_order_take, SliceStable_in_order; [apply tab_le_total | apply tab_le_trans].
    + intros m. rewrite <- Heq. apply cut_early; [apply tab_le_total | apply tab_le_trans].
  - split; [done|]. split; [lia|]. split; [lia | done].
Qed.

Lemma tab_visit_inv s q p limit cs st row : 0 <= limit -> qp_overlapping p = true -> tab_inv (qp_reverse p) limit cs st ->
  exists st', tab_visit s q p limit st row = (st', true) /\
    tab_inv (qp_reverse p) limit (cs ++ option_list (table_row s (q_By q) (qp_fields p) row)) st'.
Proof.
  intros Hl Hov Hinv. unfold tab_visit. destruct (table_row _ _ _ _) as [r|]; cbn [option_list].
  2: { eexists. split; [done|]. rewrite app_nil_r. exact Hinv. }
  rewrite Hov. cbn [negb]. destruct (Z.leb_spec (zlen (tb_rows st ++ [r])) limit) as [Hle|Hgt]; (eexists; split; [done|]).
  - unfold tab_inv in *. cbn [tb_truncated tb_rows]. destruct (tb_truncated st).
    + destruct Hinv as (_ & Hr & _). rewrite zlen_app in Hle. unfold zlen in *. cbn in Hle. lia.
    + destruct Hinv as [<- _]. done.
  - apply (tab_inv_full _ _ _ (tb_rows st ++ [r])); [lia | | |destruct (_ >=? _); auto]; unfold tab_inv in Hinv;
      rewrite zlen_app in *; destruct (tb_truncated st).
    + destruct Hinv as (? & _). unfold zlen in *. cbn. lia.
    + by destruct Hinv as [<- _].
    + destruct Hinv as (_ & _ & _ & Heq). intros m. by rewrite <- !app_assoc, Heq.
    + by destruct Hinv as [<- _].
Qed.

Lemma tab_overlapping s q p limit rows : forall cs st, 0 <= limit -> qp_overlapping p = true -> tab_inv (qp_reverse p) limit cs st ->
  exists st' n, visit_list (tab_visit s q p limit) st rows = (st', n, false) /\
    tab_inv (qp_reverse p) limit (cs ++ omap (table_row s (q_By q) (qp_fields p)) rows) st'.
Proof.
  induction rows as [|row rows IH]; intros cs st Hl Hov Hinv; cbn [visit_list].
  - exists st, 0. split; [done|]. cbn. by rewrite app_nil_r.
  - destruct (tab_visit_inv s q p limit cs st row Hl Hov Hinv) as (st1 & -> & Hinv1).
    destruct (IH _ _ Hl Hov Hinv1) as (st' & n & -> & Hinv'). exists st', (1 + n). split; [done|].
    rewrite <- app_assoc in Hinv'. by destruct (table_row s (q_By q) (qp_fields p) row) eqn:E; cbn [omap list_omap] in *; rewrite E.
Qed.

Lemma tab_finish_inv p limit cs st : 0 <= limit -> tab_inv (qp_reverse p) limit cs st ->
  tab_finish p limit (tb_rows st) = SliceStable (tab_le false) (best (qp_reverse p) limit cs) /\ tb_truncated st = (limit <? zlen cs).
Proof.
  intros Hl Hinv. unfold tab_finish, best, tab_inv in *. destruct (tb_truncated st).
  - destruct Hinv as (Hc & Hr & Hord & Heq). specialize (Heq []). rewrite !app_nil_r in Heq.
    rewrite (proj2 (Z.leb_gt _ _) Hc). split; [|symmetry; by apply Z.ltb_lt]. f_equal. destruct (Z.gtb_spec (zlen (tb_rows st)) limit) as [Hgt|Hle].
    + exact Heq.
    + rewrite <- Heq, SliceStable_id by (apply Hord; lia). rewrite take_ge; [done|]. unfold zlen in *. lia.
  - destruct Hinv as [-> Hc]. rewrite (proj2 (Z.leb_le _ _) Hc). split; [|symmetry; by apply Z.ltb_ge].
    destruct (Z.gtb_spec (zlen cs) limit); [lia | done].
Qed.

(** Where no two shards share an instant the rows come in order, and the walk
    stops one past the limit. *)
Lemma tab_disjoint s q p limit rows : forall st, 0 <= limit -> qp_overlapping p = false -> zlen (tb_rows st) <= limit -> tb_truncated st = false ->
  let cs := tb_rows st ++ omap (table_row s (q_By q) (qp_fields p)) rows in
  let st' := (visit_list (tab_visit s q p limit) st rows).1.1 in
  tb_rows st' = take (Z.to_nat (limit + 1)) cs /\ tb_truncated st' = (limit <? zlen cs).
Proof.
  induction rows as [|row rows IH]; intros st Hl Hov Hst Htr; cbn [visit_list].
  - cbn. rewrite app_nil_r, take_ge by (unfold zlen in *; lia). split; [done|]. rewrite Htr. symmetry. by apply Z.ltb_ge.
  - cbv zeta. assert (Hcs : omap (table_row s (q_By q) (qp_fields p)) (row :: rows)
              = option_list (table_row s (q_By q) (qp_fields p) row) ++ omap (table_row s (q_By q) (qp_fields p)) rows)
      by (cbn; by destruct (table_row s (q_By q) (qp_fields p) row)).
    rewrite Hcs. unfold tab_visit at 1 3. destruct (table_row s (q_By q) (qp_fields p) row) as [r|]; cbn [option_list app].
    2: { match goal with |- context [visit_list _ ?s0 rows] => specialize (IH s0 Hl Hov Hst Htr) end. cbn [tb_rows] in IH.
         by destruct (visit_list _ _ rows) as [[] ?]. }
    rewrite Hov. cbn [negb]. destruct (Z.leb_spec (zlen (tb_rows st ++ [r])) limit) as [Hle|Hgt].
    + match goal with |- context [visit_list _ ?s0 rows] => specialize (IH s0 Hl Hov Hle Htr) end. cbn [tb_rows] in IH.
      rewrite <- app_assoc in IH. by destruct (visit_list _ _ rows) as [[] ?].
    + cbn [fst tb_rows tb_truncated].
      assert (Hlen : Z.to_nat (limit + 1) = length (tb_rows st ++ [r])) by (rewrite zlen_app in Hgt; rewrite length_app; unfold zlen in *; cbn in *; lia).
      change (option_list (Some r)) with [r]. rewrite app_assoc, Hlen, take_app_length.
      split; [done|]. symmetry. apply Z.ltb_lt. rewrite zlen_app. unfold zlen in *. lia.
Qed.

Lemma tab_finish_disjoint p limit (cs rows : list trow) : 0 <= limit -> in_order (tab_le (qp_reverse p)) cs -> rows = take (Z.to_nat (limit + 1)) cs ->
  tab_finish p limit rows = SliceStable (tab_le false) (best (qp_reverse p) limit cs).
Proof.
  intros Hl Hord ->. unfold tab_finish, best, keepBest. f_equal. destruct (Z.leb_spec (zlen cs) limit) as [Hle|Hgt].
  - rewrite take_ge by (unfold zlen in *; lia). by destruct (Z.gtb_spec (zlen cs) limit); [lia|].
  - destruct (Z.gtb_spec (zlen (take (Z.to_nat (limit + 1)) cs)) limit) as [_|Hle]; [|unfold zlen in *; rewrite length_take in Hle; lia].
    rewrite !SliceStable_id; [|done | by apply in_order_take]. rewrite take_take. f_equal. lia.
Qed.

End Table.

(** ** The rows a plan is owed *)

Section Rows.
Context `{FloatText} `{Regexp} `{RC : !RegexpCompile} `{J : MetaJSON} `{!MetaJSONLaws J} `{L : LSM} `{!LSMLaws L} `{SJ : StoreJSON}.
Implicit Types (s : Store) (p : queryPlan) (row : Row).
Abbreviation AStore := (gmap gostr Rows).

(** A row satisfies the predicate and carries the required fields. *)
Definition wanted s (q : MqlAst.Query) row : bool :=
  satisfies s row (q_Where q)
  && forallb (fun fe => negb (m_Required (fe_Modifiers fe) && negb (is_nil (fe_Field fe))) || carries row (fe_Field fe)) (q_Select q).

Lemma sem_and l row : sem (AndExpr l) row = forallb (fun e => sem e row) l.
Proof. induction l as [|e l IH]; [done|]. cbn [forallb]. by rewrite <- IH. Qed.

Lemma sem_requires sel row : forallb (fun e => sem e row) (requires sel) =
  forallb (fun fe => negb (m_Required (fe_Modifiers fe) && negb (is_nil (fe_Field fe))) || carries row (fe_Field fe)) sel.
Proof.
  induction sel as [|fe sel IH]; [done|]. unfold requires in *. cbn [omap list_omap forallb].
  destruct (m_Required (fe_Modifiers fe) && negb (is_nil (fe_Field fe))); cbn [negb orb forallb]; [|exact IH].
  rewrite IH. f_equal. cbn [sem]. unfold carries. by destruct (row !! fe_Field fe).
Qed.

Lemma with_requires_keep expr reqs row : keep_expr (with_requires expr reqs) row = keep_expr expr row && forallb (fun e => sem e row) reqs.
Proof.
  destruct reqs as [|e reqs]; [by rewrite andb_true_r|]. destruct expr as [w|]; unfold with_requires, keep_expr; rewrite sem_and; done.
Qed.

Definition plan_of s q fromMs toMs : queryPlan := (Store_plan s q fromMs toMs).1.

Lemma plan_keep s q fromMs toMs row : dicts_wf s -> labels_resolve s row (compared (q_Where q)) ->
  keep_expr (qp_expr (plan_of s q fromMs toMs)) row = wanted s q row /\
  (qp_impossible (plan_of s q fromMs toMs) = true -> wanted s q row = false).
Proof.
  intros Hwf Hres. unfold plan_of, Store_plan. destruct (shardsFor s (q_From q) fromMs toMs) as [shards overlapping].
  set (proj := {[TimestampField]} ∪ list_to_set (q_By q) ∪ select_columns s (q_From q) (q_Select q)).
  pose proof (buildExpr_exact s (q_Where q) proj row Hwf Hres) as Hb.
  destruct (buildExpr s (q_Where q) proj) as [[[expr warns] never] proj']. destruct Hb as (Hsem & Hnev & _).
  cbn [fst qp_expr qp_impossible]. unfold wanted. split.
  - rewrite with_requires_keep, sem_requires. unfold keep_expr at 1. by rewrite Hsem.
  - intros Hn. by rewrite (Hnev Hn).
Qed.

Lemma shard_rows_ext (fromMs toMs : Z) (keep keep' : Row -> bool) (rev : bool) (R : Rows) : (forall pk row, R !! pk = Some row -> keep row = keep' row) ->
  shard_rows fromMs toMs keep rev R = shard_rows fromMs toMs keep' rev R.
Proof.
  intros Hext. assert (Hall : forall pr, pr ∈ map_to_list R -> keep pr.2 = keep' pr.2).
  { intros [pk row] Hin%elem_of_map_to_list. by eapply Hext. }
  assert (Hf : base.filter (fun pr : gostr * Row => in_window fromMs toMs pr.2 && keep pr.2 = true) (map_to_list R)
             = base.filter (fun pr => in_window fromMs toMs pr.2 && keep' pr.2 = true) (map_to_list R)).
  { revert Hall. generalize (map_to_list R). induction l as [|pr l IH]; intros Hall; [done|].
    rewrite !filter_cons, (Hall pr) by (apply elem_of_cons; by left). rewrite IH by (intros x Hx; apply Hall, elem_of_cons; by right). done. }
  unfold shard_rows. by rewrite Hf.
Qed.

Lemma shard_rows_elem (fromMs toMs : Z) (keep : Row -> bool) (rev : bool) (R : Rows) row :
  row ∈ shard_rows fromMs toMs keep rev R <-> exists pk, R !! pk = Some row /\ in_window fromMs toMs row = true /\ keep row = true.
Proof.
  unfold shard_rows. rewrite list_elem_of_fmap.
  assert (Hin : forall pr : gostr * Row, pr ∈ (if rev then reverse (merge_sort row_le (base.filter (fun pr => in_window fromMs toMs pr.2 && keep pr.2 = true) (map_to_list R)))
                   else merge_sort row_le (base.filter (fun pr => in_window fromMs toMs pr.2 && keep pr.2 = true) (map_to_list R))) <->
            R !! pr.1 = Some pr.2 /\ in_window fromMs toMs pr.2 = true /\ keep pr.2 = true).
  { intros [pk r]. destruct rev; rewrite ?elem_of_reverse, merge_sort_Permutation, list_elem_of_filter, elem_of_map_to_list, andb_true_iff; cbn; tauto. }
  split.
  - intros ([pk r] & -> & Hpr%Hin). by exists pk.
  - intros (pk & Hpk). exists (pk, row). split; [done|]. by apply Hin.
Qed.

(** What a query needs of the store it is asked of. *)
Record query_ready s (A : AStore) (q : MqlAst.Query) (fromMs toMs : Z) (ctx : list bool) : Prop := {
  qy_inv : db_inv (s_db s) A;
  qy_undisturbed : undisturbed (s_db s);
  qy_ctx : Forall (eq false) ctx;
  qy_dicts : dicts_wf s;
  qy_from : in_i64 fromMs;
  qy_to : in_i64 toMs;
  qy_indexed : indexed_by_time (s_db s) (qp_shards (plan_of s q fromMs toMs));
  qy_resolve : forall shard pk row, shard ∈ qp_shards (plan_of s q fromMs toMs) -> holds A shard pk row ->
    labels_resolve s row (compared (q_Where q));
}.

(** The shards of a plan in the order of its walk. *)
Definition walk_shards p : list gostr := if qp_reverse p then reverse (qp_shards p) else qp_shards p.
Lemma walk_shards_elem p shard : shard ∈ walk_shards p <-> shard ∈ qp_shards p.
Proof. unfold walk_shards. destruct (qp_reverse p); [apply elem_of_reverse | done]. Qed.

Lemma scan_ready {T} (visit : visitor T) s A q fromMs toMs ctx a st : query_ready s A q fromMs toMs ctx ->
  let p := plan_of s q fromMs toMs in reads_columns visit (qp_projection p) ->
  let '(a', n, stop) := visit_list visit a (plan_rows A p fromMs toMs (wanted s q)) in
  exists k s', scan visit p fromMs toMs ctx a st s = (Ok (a', add_stats k n st), s') /\ reads_only (s_db s) (s_db s') /\ s' = s_set_db (s_db s') s.
Proof.
  intros [Hi Hu Hc Hd Hf Ht Hx Hr]. cbv zeta. set (p := plan_of s q fromMs toMs) in *. intros Hcols.
  assert (Hkeep : forall shard pk row, shard ∈ qp_shards p -> default ∅ (A !! shard) !! pk = Some row ->
            keep_expr (qp_expr p) row = wanted s q row /\ (qp_impossible p = true -> wanted s q row = false)).
  { intros shard pk row Hs Hrow. apply plan_keep; [done|]. destruct (A !! shard) as [R|] eqn:ER; [|change ((∅ : Rows) !! pk = Some row) in Hrow; by rewrite lookup_empty in Hrow].
    eapply Hr; [exact Hs|]. by exists R. }
  assert (Hrows : plan_rows A p fromMs toMs (wanted s q)
            = concat (map (fun shard => shard_rows fromMs toMs (keep_expr (qp_expr p)) (qp_reverse p) (default ∅ (A !! shard))) (walk_shards p))).
  { unfold plan_rows. fold (walk_shards p). f_equal. apply map_ext_in. intros shard Hs%list_elem_of_In%walk_shards_elem.
    apply shard_rows_ext. intros pk row Hrow. symmetry. by eapply Hkeep. }
  unfold scan. destruct (qp_impossible p) eqn:Enev.
  - assert (Hnil : plan_rows A p fromMs toMs (wanted s q) = []).
    { unfold plan_rows. fold (walk_shards p). apply concat_nil_Forall, Forall_fmap, Forall_forall. intros shard Hs%walk_shards_elem. cbn.
      destruct (shard_rows _ _ _ _ _) as [|row l] eqn:E; [done|]. exfalso.
      assert (Hin : row ∈ row :: l) by (apply elem_of_cons; by left). rewrite <- E in Hin. apply shard_rows_elem in Hin as (pk & Hpk & _ & Hw).
      destruct (Hkeep shard pk row Hs Hpk) as [_ Hfalse]. by rewrite Hfalse in Hw. }
    rewrite Hnil. cbn. exists 0, s. split; [|by destruct s]. destruct st as [x y]. unfold add_stats. cbn. by rewrite !Z.add_0_r.
  - rewrite Hrows. fold (walk_shards p). apply scan_shards_calm; try done. intros shard sm Hs%walk_shards_elem. by apply Hx.
Qed.

(** ** What the executors read of a row *)

Lemma restrict_lookup (row : Row) proj c : wants proj c = true -> filter (fun kv => wants proj kv.1 = true) row !! c = row !! c.
Proof.
  intros Hc. destruct (row !! c) as [v|] eqn:E; [by apply map_lookup_filter_Some|]. apply map_lookup_filter_None. by left.
Qed.

Definition restricted (row : Row) (proj : option (gset gostr)) : Row := filter (fun kv => wants proj kv.1 = true) row.

Lemma row_int_restrict row proj c : wants proj c = true -> row_int (restricted row proj) c = row_int row c.
Proof. intros Hc. unfold row_int, restricted. by rewrite restrict_lookup. Qed.

Lemma rowLabels_restrict s row proj by_ : (forall l, l ∈ by_ -> wants proj l = true) -> rowLabels s (restricted row proj) by_ = rowLabels s row by_.
Proof.
  induction by_ as [|l by_ IH]; intros Hby; [done|]. cbn [rowLabels].
  rewrite row_int_restrict by (apply Hby, elem_of_cons; by left). by rewrite IH by (intros l' Hl'; apply Hby, elem_of_cons; by right).
Qed.

Lemma field_cells_restrict row proj fields : (forall f, f ∈ fields -> wants proj (rf_name f) = true) ->
  field_cells (restricted row proj) fields = field_cells row fields.
Proof.
  induction fields as [|f fields IH]; intros Hf; [done|]. cbn [field_cells]. unfold restricted at 1.
  rewrite restrict_lookup by (apply Hf, elem_of_cons; by left). by rewrite IH by (intros f' Hf'; apply Hf, elem_of_cons; by right).
Qed.

Lemma plan_columns s q fromMs toMs c :
  c = TimestampField \/ c ∈ q_By q \/ (exists f, f ∈ qp_fields (plan_of s q fromMs toMs) /\ c = rf_name f) \/ c ∈ select_columns s (q_From q) (q_Select q) ->
  c ∈ qp_projection (plan_of s q fromMs toMs).
Proof.
  intros Hc. unfold plan_of, Store_plan in *. destruct (shardsFor s (q_From q) fromMs toMs) as [shards overlapping].
  set (proj := {[TimestampField]} ∪ list_to_set (q_By q) ∪ select_columns s (q_From q) (q_Select q)) in *.
  assert (Hsub : forall expr warns never proj', buildExpr s (q_Where q) proj = (expr, warns, never, proj') -> proj ⊆ proj').
  { unfold buildExpr. intros expr warns never proj'. destruct (Expr_Empty (q_Where q)); intros [= _ _ _ <-]; set_solver. }
  destruct (buildExpr s (q_Where q) proj) as [[[expr warns] never] proj']. specialize (Hsub _ _ _ _ eq_refl). cbn [fst qp_projection qp_fields] in *.
  unfold sort_strings. rewrite (merge_sort_Permutation str_le (elements proj')), elem_of_elements. apply Hsub. unfold proj.
  destruct Hc as [-> | [Hc | [(f & Hf & ->) | Hc]]]; [set_solver | set_solver | | set_solver].
  apply list_elem_of_fmap in Hf as (fe & -> & [Hh Hfe]%list_elem_of_filter). rewrite elem_of_union. right.
  unfold select_columns. apply elem_of_union_list. exists {[fe_Field fe]}. split.
  - apply list_elem_of_fmap. exists fe. split; [|done]. by rewrite Hh.
  - unfold resolveField. destruct (resolve_clamp _ _) as [[lo hi] raw]. cbn. set_solver.
Qed.

(** A visitor that reads the timestamp, the grouping labels and the selected
    fields of a plan reads nothing outside its projection. *)
Lemma plan_visit_reads {T} (visit : visitor T) s q fromMs toMs :
  let p := plan_of s q fromMs toMs in
  (forall a row proj, row_int (restricted row proj) TimestampField = row_int row TimestampField ->
     rowLabels s (restricted row proj) (q_By q) = rowLabels s row (q_By q) ->
     (forall c, (exists f, f ∈ qp_fields p /\ c = rf_name f) \/ c ∈ select_columns s (q_From q) (q_Select q) -> restricted row proj !! c = row !! c) ->
     visit a (restricted row proj) = visit a row) ->
  reads_columns visit (qp_projection p).
Proof.
  intros p Hvisit a row proj Hproj. apply (Hvisit a row proj).
  - apply row_int_restrict, Hproj, plan_columns. by left.
  - apply rowLabels_restrict. intros l Hl. apply Hproj, plan_columns. right. by left.
  - intros c Hc. apply restrict_lookup, Hproj, plan_columns. right. right. exact Hc.
Qed.

Lemma field_cells_ext row row' fields : (forall f, f ∈ fields -> row' !! rf_name f = row !! rf_name f) -> field_cells row' fields = field_cells row fields.
Proof.
  induction fields as [|f fields IH]; intros Hf; [done|]. cbn [field_cells]. rewrite Hf by (apply elem_of_cons; by left).
  by rewrite IH by (intros f' Hf'; apply Hf, elem_of_cons; by right).
Qed.

Lemma tab_reads s q fromMs toMs limit :
  reads_columns (tab_visit s q (plan_of s q fromMs toMs) limit) (qp_projection (plan_of s q fromMs toMs)).
Proof.
  apply plan_visit_reads. intros a row proj Hts Hlab Hcols. unfold tab_visit, table_row.
  by rewrite Hts, Hlab, (field_cells_ext row (restricted row proj)) by (intros f Hf; apply Hcols; left; by exists f).
Qed.

(** ** The walk goes through time *)

Definition row_time row : Z := default 0 (row_ts TimestampField row).
Definition time_le (rev : bool) (a b : Row) : Prop := if rev then row_time b <= row_time a else row_time a <= row_time b.

Lemma StronglySorted_reverse {X} (R : X -> X -> Prop) l : StronglySorted R l -> StronglySorted (flip R) (reverse l).
Proof.
  induction 1 as [|x l Hl IH Hx]; [constructor|]. rewrite reverse_cons. apply StronglySorted_app. split; [|split; [exact IH | by repeat constructor]].
  intros y z Hy ->%list_elem_of_singleton. rewrite elem_of_reverse in Hy. exact (proj1 (Forall_forall _ _) Hx y Hy).
Qed.

Lemma StronglySorted_concat {X Y} (R : Y -> Y -> Prop) (f : X -> list Y) l : (forall x, x ∈ l -> StronglySorted R (f x)) ->
  StronglySorted (fun x y => forall a b, a ∈ f x -> b ∈ f y -> R a b) l -> StronglySorted R (concat (map f l)).
Proof.
  intros Hf. induction 1 as [|x l Hl IH Hx]; cbn [map concat]; [constructor|]. apply StronglySorted_app.
  split; [|split; [apply Hf, elem_of_cons; by left | apply IH; intros y Hy; apply Hf, elem_of_cons; by right]].
  intros a b Ha Hb. apply list_elem_of_In, in_concat in Hb as (ys & Hys & Hb%list_elem_of_In). apply in_map_iff in Hys as (y & <- & Hy%list_elem_of_In).
  by apply (proj1 (Forall_forall _ _) Hx y Hy).
Qed.

Lemma StronglySorted_map {X Y} (R : Y -> Y -> Prop) (f : X -> Y) l : StronglySorted (fun a b => R (f a) (f b)) l -> StronglySorted R (map f l).
Proof. induction 1; cbn; constructor; [done|]. by apply Forall_fmap. Qed.

(** ** The rows of a plan, with the places they are in *)

Lemma found_name set fromMs toMs name x : found_shard set fromMs toMs name = Some x -> sh_name x = name.
Proof. unfold found_shard. intros Hf. repeat case_match; by simplify_eq. Qed.

Lemma plan_shards_nodup s q fromMs toMs : NoDup (qp_shards (plan_of s q fromMs toMs)).
Proof.
  assert (Hsel : qp_shards (plan_of s q fromMs toMs) = (shardsFor s (q_From q) fromMs toMs).1).
  { unfold plan_of, Store_plan. destruct (shardsFor _ _ _ _) as [shards o]. by destruct (buildExpr s (q_Where q) _) as [[[? ?] ?] ?]. }
  rewrite Hsel. unfold shardsFor, shardsInRange. cbn [fst].
  apply (NoDup_Permutation_proper _ (map sh_name (omap (found_shard (q_From q) fromMs toMs) (Sets (s_db s))))).
  { apply fmap_Permutation, merge_sort_Permutation. }
  pose proof (Sets_nodup (s_db s)) as Hnd. induction Hnd as [|name names Hname _ IH]; [constructor|]. cbn [omap list_omap].
  destruct (found_shard (q_From q) fromMs toMs name) as [x|] eqn:Ef; [|exact IH]. cbn [map]. apply NoDup_cons. split; [|exact IH].
  rewrite (found_name _ _ _ _ _ Ef). intros (y & Hy & (name' & Hin & Ef')%list_elem_of_omap)%list_elem_of_fmap.
  rewrite (found_name _ _ _ _ _ Ef') in Hy. by subst.
Qed.

Definition shard_pairs (fromMs toMs : Z) (keep : Row -> bool) (rev : bool) (R : Rows) : list (gostr * Row) :=
  let sorted := merge_sort row_le (base.filter (fun pr => in_window fromMs toMs pr.2 && keep pr.2 = true) (map_to_list R)) in
  if rev then reverse sorted else sorted.

Lemma shard_rows_pairs fromMs toMs keep rev R : shard_rows fromMs toMs keep rev R = (shard_pairs fromMs toMs keep rev R).*2.
Proof. done. Qed.

Lemma shard_pairs_perm fromMs toMs keep rev R :
  shard_pairs fromMs toMs keep rev R ≡ₚ base.filter (fun pr => in_window fromMs toMs pr.2 && keep pr.2 = true) (map_to_list R).
Proof. unfold shard_pairs. destruct rev; by rewrite ?reverse_Permutation, merge_sort_Permutation. Qed.

(** The shard and the key of each row of a plan. *)
Definition plan_entries (A : AStore) p (fromMs toMs : Z) (keep : Row -> bool) : list (gostr * gostr * Row) :=
  concat (map (fun shard => map (fun pr => (shard, pr.1, pr.2)) (shard_pairs fromMs toMs keep (qp_reverse p) (default ∅ (A !! shard)))) (walk_shards p)).

Lemma plan_rows_entries A p fromMs toMs keep : plan_rows A p fromMs toMs keep = map snd (plan_entries A p fromMs toMs keep).
Proof.
  unfold plan_rows, plan_entries. fold (walk_shards p). induction (walk_shards p) as [|shard l IH]; [done|]. cbn [map concat].
  rewrite map_app, map_map, <- IH, shard_rows_pairs. done.
Qed.

Lemma plan_entries_elem A p fromMs toMs keep shard pk row :
  (shard, pk, row) ∈ plan_entries A p fromMs toMs keep <->
  shard ∈ qp_shards p /\ holds A shard pk row /\ in_window fromMs toMs row = true /\ keep row = true.
Proof.
  unfold plan_entries. rewrite list_elem_of_In, in_concat. split.
  - intros (l & (x & <- & Hx%list_elem_of_In%walk_shards_elem)%in_map_iff & ([pk' row'] & [= -> -> ->] & Hpr%list_elem_of_In)%in_map_iff).
    rewrite shard_pairs_perm in Hpr. apply list_elem_of_filter in Hpr as [Hk Hpr%elem_of_map_to_list]. cbn [snd fst] in *. split; [done|].
    split; [|by apply andb_true_iff]. destruct (A !! shard) as [R|] eqn:ER; [by exists R|]. change ((∅ : Rows) !! pk = Some row) in Hpr. by rewrite lookup_empty in Hpr.
  - intros (Hx & (R & HR & Hr) & Hk). eexists. split.
    + apply in_map_iff. exists shard. split; [done|]. by apply list_elem_of_In, walk_shards_elem.
    + apply in_map_iff. exists (pk, row). split; [done|]. apply list_elem_of_In. rewrite shard_pairs_perm, HR. apply list_elem_of_filter.
      split; [by apply andb_true_iff | by apply elem_of_map_to_list].
Qed.

Lemma shard_pairs_in_time fromMs toMs keep rev R : StronglySorted (fun a b => time_le rev a.2 b.2) (shard_pairs fromMs toMs keep rev R).
Proof.
  unfold shard_pairs. set (l := base.filter _ _). assert (Hs : StronglySorted row_le (merge_sort row_le l)) by (apply StronglySorted_merge_sort; apply _).
  destruct rev.
  - apply StronglySorted_reverse in Hs. eapply StronglySorted_mono; [|exact Hs]. intros a b [|[]]; unfold time_le, row_time; cbn in *; lia.
  - eapply StronglySorted_mono; [|exact Hs]. intros a b [|[]]; unfold time_le, row_time; lia.
Qed.

Lemma walk_shards_nodup s q fromMs toMs : NoDup (walk_shards (plan_of s q fromMs toMs)).
Proof. unfold walk_shards. destruct (qp_reverse _); [rewrite reverse_Permutation|]; apply plan_shards_nodup. Qed.

Lemma plan_entries_nodup s A q fromMs toMs keep : NoDup (map fst (plan_entries A (plan_of s q fromMs toMs) fromMs toMs keep)).
Proof.
  unfold plan_entries. pose proof (walk_shards_nodup s q fromMs toMs) as Hnd. induction Hnd as [|shard l Hout _ IH]; [constructor|].
  cbn [map concat]. rewrite map_app, map_map. apply NoDup_app. split; [|split; [|exact IH]].
  - change (fun x : gostr * Row => (shard, x.1, x.2).1) with (fun x : gostr * Row => (shard, x.1)). rewrite <- (map_map fst (pair shard)).
    apply (NoDup_fmap_2 (pair shard)). refine (proj2 (NoDup_Permutation_proper _ _ (fmap_Permutation fst _ _ (shard_pairs_perm _ _ _ _ _))) _).
    apply (sublist_NoDup _ (map_to_list (default ∅ (A !! shard))).*1); [apply NoDup_fst_map_to_list | apply (fmap_sublist fst), sublist_filter].
  - intros k (pr & -> & _)%list_elem_of_fmap (e & He & Hin)%list_elem_of_fmap. apply list_elem_of_In, in_concat in Hin as (es & Hes & Hin).
    apply in_map_iff in Hes as (x & <- & Hx%list_elem_of_In). apply in_map_iff in Hin as (pr' & <- & _). cbn in He. injection He as -> _. done.
Qed.

(** Within a shard the walk goes through time. *)
Lemma plan_entries_in_time s A q fromMs toMs keep : let p := plan_of s q fromMs toMs in
  StronglySorted (fun a b => a.1.1 = b.1.1 -> time_le (qp_reverse p) a.2 b.2) (plan_entries A p fromMs toMs keep).
Proof.
  intros p. unfold plan_entries. apply StronglySorted_concat.
  - intros shard _. apply StronglySorted_map. cbn [fst snd]. eapply StronglySorted_mono; [|apply shard_pairs_in_time]. auto.
  - pose proof (walk_shards_nodup s q fromMs toMs) as Hnd. fold p in Hnd. induction Hnd as [|x l Hx _ IH]; constructor; [exact IH|].
    apply Forall_forall. intros y Hy a b (pa & -> & _)%list_elem_of_fmap (pb & -> & _)%list_elem_of_fmap. cbn. by intros ->.
Qed.

Lemma shard_rows_in_time (fromMs toMs : Z) (keep : Row -> bool) (rev : bool) (R : Rows) : StronglySorted (time_le rev) (shard_rows fromMs toMs keep rev R).
Proof. rewrite shard_rows_pairs. apply (StronglySorted_map (time_le rev) snd), shard_pairs_in_time. Qed.

(** The set a selected shard belongs to. *)
Lemma selected_set s (set : gostr) fromMs toMs shard set' ts w : shard ∈ (shardsFor s set fromMs toMs).1 -> shard = shardNameAt set' ts w ->
  0 < ts <= MaxTSMs -> w < two63 -> shard = shardNameAt set ts w.
Proof.
  unfold shardsFor, shardsInRange. cbn [fst]. intros (x & -> & Hx)%list_elem_of_fmap Hname Hts Hw.
  rewrite (merge_sort_Permutation shard_le _) in Hx. apply list_elem_of_omap in Hx as (name & _ & Hf).
  assert (Hsh : exists k, sh_name x = set ++ at_sign ++ k /\ x40 ∉ k).
  { unfold found_shard in Hf. destruct (HasPrefix name (set ++ at_sign)) eqn:Hp; [|done]. cbn [negb] in Hf.
    apply HasPrefix_spec in Hp as (k & ->). rewrite drop_app_length in Hf. exists k. rewrite app_assoc.
    destruct (bytes_eqb k shardAll) eqn:Ek.
    - apply bytes_eqb_spec in Ek as ->. injection Hf as <-. split; [done|]. by apply shard_text_no_at.
    - destruct (parseShardSuffix k) as [[start width]|] eqn:Ep; [|done]. split; [|by eapply parse_no_at]. by repeat case_match; simplify_eq. }
  destruct Hsh as (k & Hk & Hat).
  destruct (shard_named ts w Hts Hw) as (suffix & Hn & Hat').
  assert (Hsame : set ++ at_sign ++ k = set' ++ at_sign ++ suffix) by (by rewrite <- Hk, Hname, Hn).
  apply (f_equal split_last_at) in Hsame. rewrite !split_last_at_app in Hsame by done. by injection Hsame as -> _.
Qed.

Lemma StronglySorted_lookup {X} (R : X -> X -> Prop) l :
  (forall i j x y, l !! i = Some x -> l !! j = Some y -> (i < j)%nat -> R x y) -> StronglySorted R l.
Proof.
  induction l as [|x l IH]; intros Hl; constructor.
  - apply IH. intros i j a b Ha Hb Hij. apply (Hl (S i) (S j)); [done | done | lia].
  - apply Forall_lookup. intros j y Hy. apply (Hl 0%nat (S j)); [done | done | lia].
Qed.

Lemma StronglySorted_omap {X Y} (R : X -> X -> Prop) (S : Y -> Y -> Prop) (f : X -> option Y) l :
  (forall x y a b, R x y -> f x = Some a -> f y = Some b -> S a b) -> StronglySorted R l -> StronglySorted S (omap f l).
Proof.
  intros Hf. induction 1 as [|x l Hl IH Hx]; [constructor|]. cbn. destruct (f x) as [a|] eqn:E; [|exact IH].
  constructor; [exact IH|]. apply Forall_forall. intros b Hb. apply list_elem_of_omap in Hb as (y & Hy & Hfy).
  eapply Hf; [|exact E|exact Hfy]. exact (proj1 (Forall_forall _ _) Hx y Hy).
Qed.

(** A walk over shards that share no instant goes through time. *)
Lemma plan_rows_in_time s (A : AStore) (q : MqlAst.Query) (fromMs toMs : Z) (keep : Row -> bool) :
  let p := plan_of s q fromMs toMs in shelved A -> qp_overlapping p = false ->
  StronglySorted (time_le (qp_reverse p)) (plan_rows A p fromMs toMs keep).
Proof.
  intros p Hsh Hov. unfold plan_rows. fold (walk_shards p). apply StronglySorted_concat; [intros x _; apply shard_rows_in_time|].
  set (f := fun shard => shard_rows fromMs toMs keep (qp_reverse p) (default ∅ (A !! shard))).
  assert (Hord : StronglySorted (fun x y => forall a b, a ∈ f x -> b ∈ f y -> row_time a < row_time b) (qp_shards p)).
  { apply StronglySorted_lookup. intros i j x y Hi Hj Hij a b Ha Hb.
    assert (Hplan : shardsInRange (q_From q) (Sets (s_db s)) fromMs toMs = (qp_shards p, false)).
    { unfold p, plan_of, Store_plan, shardsFor in *. destruct (shardsInRange _ _ _ _) as [shards o].
      destruct (buildExpr s (q_Where q) _) as [[[? ?] ?] ?]. cbn in *. by subst. }
    assert (Hone : forall x c, x ∈ qp_shards p -> c ∈ f x -> exists t w, x = shardNameAt (q_From q) t w /\ 0 < t <= MaxTSMs /\ w < two63 /\ row_time c = t).
    { intros x' c Hx' Hc. unfold f in Hc. apply shard_rows_elem in Hc as (pk & Hpk & _). destruct (A !! x') as [R|] eqn:ER.
      2: { change ((∅ : Rows) !! pk = Some c) in Hpk. by rewrite lookup_empty in Hpk. }
      destruct (Hsh x' pk c ltac:(by exists R)) as (set' & t & w & Hn & _ & Ht & Hw & Hrow). exists t, w. unfold row_time. rewrite Hrow. split; [|done].
      eapply (selected_set s _ fromMs toMs); [unfold shardsFor; by rewrite Hplan | exact Hn | done | done]. }
    destruct (Hone x a) as (t1 & w1 & Hx & Ht1 & Hw1 & ->); [by eapply list_elem_of_lookup_2 | done|].
    destruct (Hone y b) as (t2 & w2 & Hy & Ht2 & Hw2 & ->); [by eapply list_elem_of_lookup_2 | done|].
    subst x y. exact (selected_in_order _ _ _ _ _ _ _ _ _ _ _ Hplan Ht1 Hw1 Ht2 Hw2 Hi Hj Hij). }
  unfold walk_shards, time_le. destruct (qp_reverse p) eqn:Er.
  - apply StronglySorted_reverse in Hord. eapply StronglySorted_mono; [|exact Hord]. intros x y Hxy a b Ha Hb. apply Z.lt_le_incl, (Hxy b a); [exact Hb | exact Ha].
  - eapply StronglySorted_mono; [|exact Hord]. intros x y Hxy a b Ha Hb. apply Z.lt_le_incl, (Hxy a b); [exact Ha | exact Hb].
Qed.

Lemma table_row_time s by_ fields row r : table_row s by_ fields row = Some r -> r.1 = row_time row.
Proof.
  unfold table_row, row_int, row_time, row_ts. destruct (row !! TimestampField) as [v|]; [|done]. destruct (AsInt v) as [ts []]; [|done].
  destruct (existsb snd _); [|done]. by intros [= <-].
Qed.

(** The shard a row was written to is among those of a range that holds it. *)
Lemma written_selected s (A : AStore) (q : MqlAst.Query) (fromMs toMs ts w : Z) (pk : gostr) (row : Row) : db_inv (s_db s) A -> 0 < ts <= MaxTSMs -> w < two63 ->
  holds A (shardNameAt (q_From q) ts w) pk row -> fromMs <= ts <= toMs -> shardNameAt (q_From q) ts w ∈ qp_shards (plan_of s q fromMs toMs).
Proof.
  intros Hi Hts Hw (R & HR & _) Hrange. unfold plan_of, Store_plan.
  pose proof (row_shard_selected (q_From q) (Sets (s_db s)) ts w fromMs toMs Hts Hw) as Hsel.
  unfold shardsFor. specialize (Hsel ltac:(by eapply in_Sets) Hrange).
  destruct (shardsInRange _ _ _ _) as [shards o]. by destruct (buildExpr s (q_Where q) _) as [[[? ?] ?] ?].
Qed.

(** What a table holds. *)
Lemma runTabular_exact s (A : AStore) (q : MqlAst.Query) (req : QueryRequest) (ctx : list bool) (warns : list Diag) :
  query_ready s A q (qr_FromMs req) (qr_ToMs req) ctx -> shelved A ->
  let p := plan_of s q (qr_FromMs req) (qr_ToMs req) in
  let cs := omap (table_row s (q_By q) (qp_fields p)) (plan_rows A p (qr_FromMs req) (qr_ToMs req) (wanted s q)) in
  exists resp s' saw, runTabular ctx q req p warns s = (Ok resp, s') /\
    rs_Rows resp = map (fun r => table_cells q p saw r.2) (SliceStable (tab_le false) (best (qp_reverse p) (tab_limit q) cs)) /\
    rs_Truncated resp = (tab_limit q <? zlen cs) /\
    rs_Error resp = (if tab_limit q <? zlen cs then Some (GateRows (tab_limit q) (qp_reverse p)) else None) /\
    s' = s_set_db (s_db s') s /\ reads_only (s_db s) (s_db s').
Proof.
  intros Hr Hsh p cs. unfold runTabular, mbind, SM_bind, get_store, mret, SM_ret. set (limit := tab_limit q).
  assert (Hl : 0 <= limit) by (unfold limit, tab_limit; destruct (_ <? 0) eqn:E; bsplit; lia).
  set (st0 := {| tb_rows := []; tb_truncated := false; tb_sawString := map (fun _ => false) (qp_fields p) |}).
  pose proof (scan_ready (tab_visit s q p limit) s A q _ _ ctx st0 no_stats Hr (tab_reads _ _ _ _ _)) as Hscan. fold p in Hscan.
  set (rows := plan_rows A p (qr_FromMs req) (qr_ToMs req) (wanted s q)) in *.
  assert (Hkept : let st := (visit_list (tab_visit s q p limit) st0 rows).1.1 in
            tab_finish p limit (tb_rows st) = SliceStable (tab_le false) (best (qp_reverse p) limit cs) /\ tb_truncated st = (limit <? zlen cs)).
  { destruct (qp_overlapping p) eqn:Eov.
    - destruct (tab_overlapping s q p limit rows [] st0 Hl Eov) as (st & n & -> & Hinv); [by split|]. by apply tab_finish_inv.
    - destruct (tab_disjoint s q p limit rows st0 Hl Eov Hl eq_refl) as [Hrows Htr]. split; [|exact Htr]. apply tab_finish_disjoint; [done | | exact Hrows].
      eapply StronglySorted_omap; [|by apply plan_rows_in_time]. intros x y a b Hxy Ha Hb. apply table_row_time in Ha, Hb.
      fold p in Hxy. unfold tab_le, time_le in *. rewrite Ha, Hb. destruct (qp_reverse p); apply Z.leb_le; lia. }
  destruct (visit_list (tab_visit s q p limit) st0 rows) as [[st n] stop]. destruct Hscan as (k & s' & -> & Hreads & Hs'). destruct Hkept as [Hrows Htr]. cbn [fst] in Hrows, Htr.
  eexists _, s', (tb_sawString st). split; [reflexivity|]. cbn [rs_Rows rs_Truncated rs_Error]. rewrite Hrows, Htr. split; [done|]. split; [done|].
  by destruct (limit <? zlen cs).
Qed.

(** ** The theorems *)

(** C30: what a scan hands its visitor, on an engine nothing disturbs, is the
    rows of the set whose timestamp is in the range and whose labels satisfy
    the query's predicate and that carry the required fields: each of them
    once, by its shard and its key, in whatever shard its write put it, and
    none but those -- unless the visitor stops.  They come in order of time
    within a shard, and, when no two of the selected shards share an instant,
    altogether. *)
Theorem scan_exact {T} (visit : visitor T) s (A : AStore) (q : MqlAst.Query) (fromMs toMs : Z) (ctx : list bool) (a : T) (st : QueryStats) : query_ready s A q fromMs toMs ctx ->
  let p := plan_of s q fromMs toMs in reads_columns visit (qp_projection p) ->
  let entries := plan_entries A p fromMs toMs (wanted s q) in
  (let '(a', n, stop) := visit_list visit a (map snd entries) in
   exists k s', scan visit p fromMs toMs ctx a st s = (Ok (a', add_stats k n st), s') /\ reads_only (s_db s) (s_db s') /\ s' = s_set_db (s_db s') s) /\
  NoDup (map fst entries) /\
  (forall shard pk row, (shard, pk, row) ∈ entries <->
     shard ∈ qp_shards p /\ holds A shard pk row /\ in_window fromMs toMs row = true /\ wanted s q row = true) /\
  (forall ts w pk row, 0 < ts <= MaxTSMs -> w < two63 -> holds A (shardNameAt (q_From q) ts w) pk row -> fromMs <= ts <= toMs ->
     shardNameAt (q_From q) ts w ∈ qp_shards p) /\
  StronglySorted (fun x y => x.1.1 = y.1.1 -> time_le (qp_reverse p) x.2 y.2) entries /\
  (shelved A -> qp_overlapping p = false -> StronglySorted (time_le (qp_reverse p)) (map snd entries)).
Proof.
  intros Hr p Hcols entries. unfold entries. rewrite <- plan_rows_entries. split_and!.
  - pose proof (scan_ready visit s A q fromMs toMs ctx a st Hr Hcols) as Hscan. fold p in Hscan.
    by destruct (visit_list visit a (plan_rows A p fromMs toMs (wanted s q))) as [[a' n] stop].
  - apply plan_entries_nodup.
  - intros shard pk row. apply plan_entries_elem.
  - intros ts w pk row Hts Hw Hrow Hrange. by apply (written_selected s A q fromMs toMs ts w pk row (qy_inv _ _ _ _ _ _ Hr)).
  - apply plan_entries_in_time.
  - intros Hsh Hov. by apply plan_rows_in_time.
Qed.

(** C31: a table or a log view holds exactly the rows the query matches, in
    order of time, up to its limit: when more match, the newest [limit] of
    them in a log view and the oldest in a table, and the response says that
    some were left out -- whether the walk could stop early or, where shards
    overlap, had to keep the best of all it met. *)
Theorem tabular_exact s (A : AStore) (q : MqlAst.Query) (req : QueryRequest) (ctx : list bool) (warns : list Diag) :
  query_ready s A q (qr_FromMs req) (qr_ToMs req) ctx -> shelved A ->
  let p := plan_of s q (qr_FromMs req) (qr_ToMs req) in
  let cs := omap (table_row s (q_By q) (qp_fields p)) (plan_rows A p (qr_FromMs req) (qr_ToMs req) (wanted s q)) in
  exists resp s' saw, runTabular ctx q req p warns s = (Ok resp, s') /\
    rs_Rows resp = map (fun r => table_cells q p saw r.2) (SliceStable (tab_le false) (best (qp_reverse p) (tab_limit q) cs)) /\
    rs_Truncated resp = (tab_limit q <? zlen cs) /\
    rs_Error resp = (if tab_limit q <? zlen cs then Some (GateRows (tab_limit q) (qp_reverse p)) else None) /\
    s' = s_set_db (s_db s') s /\ reads_only (s_db s) (s_db s').
Proof. apply runTabular_exact. Qed.

End Rows.
