(* ===== verification/StoreSeriesProps.v ===== *)
(** * What a series holds

    The executor of a time series puts each reading of each scanned row into
    the series of its labels and its field, in the order of the scan, and
    stops at the ceilings: it never holds more points or series than they
    say. *)

From Stdlib Require Import ZArith Lia Bool Strings.Byte Strings.String Floats.SpecFloat.
From stdpp Require Import gmap sorting.
From S2P Require Import Prelude Bytes Float64 GoStd GoText Model Wire EngineKeys EngineCodec EngineFilter EngineDB EngineRep EngineInv.
From S2P Require Import EngineSchema EngineStore EngineQuery EngineScan ExtractTimestamp StoreShard StoreState StoreDict StoreDictProofs StoreReclaim.
From S2P Require Import StoreCatalogue StoreRetention Render MqlAst MqlValidate StorePlan StorePlanProps StoreScan StoreQuery StoreQueryProps.

(** ** The key of a series *)

(** The part of a key that stands for the grouping labels. *)
Definition by_key (labels : gmap gostr gostr) (by_ : list gostr) : gostr :=
  concat (map (fun l => query_writeKeyPart l ++ query_writeKeyPart (default [] (labels !! l))) by_).

Definition short_text (s : gostr) : Prop := zlen s < two63.

Lemma by_key_inj by_ labels labels' r r' :
  Forall short_text by_ -> Forall (fun l => short_text (default [] (labels !! l)) /\ short_text (default [] (labels' !! l))) by_ ->
  by_key labels by_ ++ r = by_key labels' by_ ++ r' ->
  Forall (fun l => default [] (labels !! l) = default [] (labels' !! l)) by_ /\ r = r'.
Proof.
  intros Hby. induction Hby as [|l by_ Hl Hby IH]; intros Hv; [by split|]. apply Forall_cons in Hv as [[Hv1 Hv2] Hv].
  unfold by_key. cbn [map concat]. rewrite <- !app_assoc. intros Heq.
  apply framed_inj in Heq as [_ Heq]; [|done..]. apply framed_inj in Heq as [Hval Heq]; [|done..].
  destruct (IH Hv Heq) as [Hall ->]. split; [by constructor | done].
Qed.

(** two rows are put in one series exactly when they agree on every
    grouping label -- an absent label counting as an empty one -- and on the
    field's display name: no value, whatever bytes it holds, runs into the
    next. *)
Theorem seriesKey_injective (by_ : list gostr) (labels labels' : gmap gostr gostr) (field field' : gostr) :
  Forall short_text (field :: field' :: by_) -> Forall (fun l => short_text (default [] (labels !! l)) /\ short_text (default [] (labels' !! l))) by_ ->
  seriesKey labels by_ field = seriesKey labels' by_ field' <->
  field = field' /\ Forall (fun l => default [] (labels !! l) = default [] (labels' !! l)) by_.
Proof.
  intros Hs Hv. apply Forall_cons in Hs as [Hf Hs]. apply Forall_cons in Hs as [Hf' Hs]. unfold seriesKey. fold (by_key labels by_). fold (by_key labels' by_). split.
  - intros Heq. apply by_key_inj in Heq as [Hall Heq]; [|done..]. split; [|done].
    assert (Hnil : query_writeKeyPart field ++ [] = query_writeKeyPart field' ++ []) by (by rewrite !app_nil_r). by apply framed_inj in Hnil as [-> _].
  - intros [-> Hall]. f_equal. unfold by_key. f_equal. apply map_ext_in. intros l Hl%list_elem_of_In. by rewrite (proj1 (Forall_forall _ _) Hall l Hl).
Qed.

(** ** The readings of the rows *)

Section Series.
Context `{FloatText} `{Regexp} `{RC : !RegexpCompile} `{J : MetaJSON} `{!MetaJSONLaws J} `{L : LSM} `{!LSMLaws L} `{SJ : StoreJSON}.
Implicit Types (s : Store) (p : queryPlan) (row : Row) (q : MqlAst.Query).
Abbreviation AStore := (gmap gostr Rows).

(** A reading: the series it belongs to, and the point. *)
Record reading : Type := { rd_labels : gmap gostr gostr; rd_field : resolvedField; rd_point : Point }.
Definition rd_key (by_ : list gostr) (x : reading) : gostr := seriesKey (rd_labels x) by_ (rf_label (rd_field x)).

Definition field_reading (labels : gmap gostr gostr) row (ts : Z) (f : resolvedField) : option reading :=
  match row !! rf_name f with
  | None => None
  | Some v => let '(fv, ok) := AsFloat v in
      if ok : bool then Some {| rd_labels := labels; rd_field := f; rd_point := {| p_Value := fv; p_TSMs := ts |} |} else None
  end.

Definition row_readings s q p row : list reading :=
  match row_int row TimestampField with
  | None => []
  | Some ts => omap (field_reading (rowLabels s row (q_By q)) row ts) (qp_fields p)
  end.

(** One reading into the accumulator. *)
Definition ts_add (by_ : list gostr) (maxSeries maxPoints : Z) (st : ts_state) (x : reading) : ts_state * bool :=
  let points := ta_points st + 1 in
  if (maxPoints >? 0) && (points >? maxPoints) then ({| ta_acc := ta_acc st; ta_gate := Some GatePoints; ta_points := points |}, false)
  else
    match ta_acc st !! rd_key by_ x with
    | Some a =>
        ({| ta_acc := <[rd_key by_ x := {| sa_name := sa_name a; sa_labels := sa_labels a; sa_field := sa_field a;
                                          sa_points := sa_points a ++ [rd_point x] |}]> (ta_acc st);
            ta_gate := ta_gate st; ta_points := points |}, true)
    | None =>
        if (maxSeries >? 0) && (Z.of_nat (size (ta_acc st)) >=? maxSeries)
        then ({| ta_acc := ta_acc st; ta_gate := Some GateSeries; ta_points := points |}, false)
        else
          ({| ta_acc := <[rd_key by_ x := {| sa_name := seriesName (rd_labels x) by_ (rf_label (rd_field x)); sa_labels := rd_labels x;
                                            sa_field := rd_field x; sa_points := [rd_point x] |}]> (ta_acc st);
              ta_gate := ta_gate st; ta_points := points |}, true)
    end.

Fixpoint ts_run (by_ : list gostr) (maxSeries maxPoints : Z) (st : ts_state) (l : list reading) : ts_state * bool :=
  match l with
  | [] => (st, true)
  | x :: l' => let '(st, go) := ts_add by_ maxSeries maxPoints st x in if go then ts_run by_ maxSeries maxPoints st l' else (st, false)
  end.

Lemma ts_run_app by_ maxSeries maxPoints l l' : forall st,
  ts_run by_ maxSeries maxPoints st (l ++ l') =
  let '(st', go) := ts_run by_ maxSeries maxPoints st l in if go then ts_run by_ maxSeries maxPoints st' l' else (st', false).
Proof.
  induction l as [|x l IH]; intros st; cbn [app ts_run]; [by destruct (ts_run by_ maxSeries maxPoints st l') as [? []]|].
  destruct (ts_add by_ maxSeries maxPoints st x) as [st1 []]; [apply IH | done].
Qed.

Lemma ts_fields_run by_ maxSeries maxPoints labels row ts fields : forall st,
  ts_fields by_ maxSeries maxPoints labels row ts fields st = ts_run by_ maxSeries maxPoints st (omap (field_reading labels row ts) fields).
Proof.
  induction fields as [|f fields IH]; intros st; [done|]. cbn [ts_fields omap list_omap]. unfold field_reading at 1.
  destruct (row !! rf_name f) as [v|]; [|apply IH]. destruct (AsFloat v) as [fv []]; [|apply IH].
  cbn [ts_run]. unfold ts_add, rd_key. cbn [rd_labels rd_field rd_point negb]. destruct (_ && _); [done|].
  destruct (ta_acc st !! _); [apply IH|]. destruct (_ && _); [done | apply IH].
Qed.

Lemma ts_visit_run s q p maxSeries maxPoints rows : forall st,
  (visit_list (ts_visit s q p maxSeries maxPoints) st rows).1.1 = (ts_run (q_By q) maxSeries maxPoints st (concat (map (row_readings s q p) rows))).1.
Proof.
  induction rows as [|row rows IH]; intros st; [done|]. cbn [visit_list map concat]. rewrite ts_run_app.
  assert (Hrow : ts_visit s q p maxSeries maxPoints st row = ts_run (q_By q) maxSeries maxPoints st (row_readings s q p row)).
  { unfold ts_visit, row_readings. destruct (row_int row TimestampField); [apply ts_fields_run | done]. }
  rewrite Hrow. destruct (ts_run _ _ _ st _) as [st1 []]; [|done]. rewrite <- IH. by destruct (visit_list _ st1 rows) as [[] ?].
Qed.

(** ** What the accumulator holds *)

Definition points_of (acc : gmap gostr seriesAcc) (k : gostr) : list Point := default [] (sa_points <$> acc !! k).
(** The points of one series among some readings. *)
Definition keyed (by_ : list gostr) (k : gostr) (l : list reading) : list Point :=
  map rd_point (base.filter (fun x => rd_key by_ x = k) l).

(** The accumulator after the readings [done]. *)
Record gathered (by_ : list gostr) (maxSeries maxPoints : Z) (done : list reading) (st : ts_state) : Prop := {
  ga_points : forall k, points_of (ta_acc st) k = keyed by_ k done;
  ga_dom : forall k, is_Some (ta_acc st !! k) <-> k ∈ map (rd_key by_) done;
  ga_key : forall k a, ta_acc st !! k = Some a -> k = seriesKey (sa_labels a) by_ (rf_label (sa_field a)) /\
             sa_name a = seriesName (sa_labels a) by_ (rf_label (sa_field a));
  ga_series : 0 < maxSeries -> Z.of_nat (size (ta_acc st)) <= maxSeries;
  ga_count : 0 < maxPoints -> zlen done <= maxPoints;
}.

Lemma gathered_empty by_ maxSeries maxPoints : gathered by_ maxSeries maxPoints [] ts_empty.
Proof.
  constructor; cbn; try done.
  - intros k. split; [intros [? ?]; done | by intros ?%elem_of_nil].
  - rewrite map_size_empty. lia.
  - unfold zlen. cbn. lia.
Qed.

Lemma keyed_snoc by_ k l x : keyed by_ k (l ++ [x]) = keyed by_ k l ++ (if decide (rd_key by_ x = k) then [rd_point x] else []).
Proof. unfold keyed. rewrite filter_app, map_app, filter_cons, filter_nil. by destruct (decide _). Qed.

(** Why the run stopped before a reading: the points are as many as the
    ceiling allows, or the series are and the reading is of none of them. *)
Definition stopped (by_ : list gostr) (maxSeries maxPoints : Z) (taken : list reading) (acc : gmap gostr seriesAcc) (x : reading) (g : gate) : Prop :=
  match g with
  | GatePoints => 0 < maxPoints /\ zlen taken = maxPoints
  | GateSeries => 0 < maxSeries /\ Z.of_nat (size acc) = maxSeries /\ acc !! rd_key by_ x = None /\ (0 < maxPoints -> zlen taken < maxPoints)
  | _ => False
  end.

(** A run only stops when what is asked for is past the ceiling. *)
Lemma stopped_past (by_ : list gostr) (maxSeries maxPoints : Z) (taken : list reading) (acc : gmap gostr seriesAcc) (x : reading) (rest : list reading) (g : gate) :
  (forall k, is_Some (acc !! k) <-> k ∈ map (rd_key by_) taken) -> stopped by_ maxSeries maxPoints taken acc x g ->
  match g with
  | GatePoints => 0 < maxPoints < zlen (taken ++ x :: rest)
  | GateSeries => 0 < maxSeries < Z.of_nat (size (list_to_set (map (rd_key by_) (taken ++ x :: rest)) : gset gostr))
  | _ => False
  end.
Proof.
  intros Hdom. destruct g; cbn [stopped]; try done.
  - intros [Hp <-]. rewrite zlen_app, zlen_cons. pose proof (zlen_nonneg rest). lia.
  - intros (Hs & Hsize & Hx & _). split; [done|]. rewrite <- Hsize, <- size_dom. rewrite map_app, list_to_set_app_L. cbn [map list_to_set].
    assert (E : (list_to_set (map (rd_key by_) taken) : gset gostr) = dom acc) by (apply set_eq; intros k; by rewrite elem_of_list_to_set, elem_of_dom, Hdom).
    rewrite E. apply inj_lt, subset_size. split; [set_solver|]. intros Hsub. apply not_elem_of_dom in Hx. apply Hx, Hsub. set_solver.
Qed.

(** The accumulator with one series written. *)
Lemma gathered_insert by_ maxSeries maxPoints done st x a n g : gathered by_ maxSeries maxPoints done st ->
  sa_points a = points_of (ta_acc st) (rd_key by_ x) ++ [rd_point x] ->
  rd_key by_ x = seriesKey (sa_labels a) by_ (rf_label (sa_field a)) -> sa_name a = seriesName (sa_labels a) by_ (rf_label (sa_field a)) ->
  (0 < maxSeries -> Z.of_nat (size (<[rd_key by_ x := a]> (ta_acc st))) <= maxSeries) -> (0 < maxPoints -> zlen done + 1 <= maxPoints) ->
  gathered by_ maxSeries maxPoints (done ++ [x]) {| ta_acc := <[rd_key by_ x := a]> (ta_acc st); ta_gate := g; ta_points := n |}.
Proof.
  intros [G1 G2 G3 G4 G5] Hp Hk Hn Hs Hc. constructor; cbn [ta_acc].
  - intros k. rewrite keyed_snoc, <- G1. unfold points_of at 1. destruct (decide (rd_key by_ x = k)) as [<-|Hne].
    + by rewrite lookup_insert_eq.
    + rewrite lookup_insert_ne by done. by rewrite app_nil_r.
  - intros k. rewrite map_app, elem_of_app, <- G2. cbn [map]. rewrite list_elem_of_singleton. destruct (decide (rd_key by_ x = k)) as [<-|Hne].
    + rewrite lookup_insert_eq. naive_solver.
    + rewrite lookup_insert_ne by done. naive_solver.
  - intros k b. destruct (decide (rd_key by_ x = k)) as [<-|Hne]; [rewrite lookup_insert_eq; by intros [= <-]|].
    rewrite lookup_insert_ne by done. apply G3.
  - done.
  - intros Hm. rewrite zlen_app. unfold zlen in *. cbn. specialize (Hc Hm). lia.
Qed.

Lemma ts_add_gathered by_ maxSeries maxPoints done st x : gathered by_ maxSeries maxPoints done st -> ta_points st = zlen done ->
  let '(st', go) := ts_add by_ maxSeries maxPoints st x in
  if go : bool then gathered by_ maxSeries maxPoints (done ++ [x]) st' /\ ta_points st' = zlen (done ++ [x]) /\ ta_gate st' = ta_gate st
  else ta_acc st' = ta_acc st /\ exists g, ta_gate st' = Some g /\ stopped by_ maxSeries maxPoints done (ta_acc st) x g.
Proof.
  intros Hg Hn. pose proof Hg as [G1 G2 G3 G4 G5]. unfold ts_add. rewrite Hn.
  assert (Hlen : zlen (done ++ [x]) = zlen done + 1) by (rewrite zlen_app; done).
  destruct ((maxPoints >? 0) && (zlen done + 1 >? maxPoints)) eqn:Ep.
  { split; [done|]. exists GatePoints. split; [done|]. apply andb_prop in Ep as [E1 E2]. bsplit. cbn [stopped]. specialize (G5 ltac:(lia)). lia. }
  assert (Hc : 0 < maxPoints -> zlen done + 1 <= maxPoints) by (intros ?; apply andb_false_iff in Ep as [E|E]; bsplit; lia).
  destruct (ta_acc st !! rd_key by_ x) as [a|] eqn:Ea.
  - split; [|by rewrite Hlen]. destruct (G3 _ _ Ea) as [Hk Hname]. apply gathered_insert; try done.
    + unfold points_of. by rewrite Ea.
    + rewrite map_size_insert_Some; [done | by rewrite Ea].
  - destruct ((maxSeries >? 0) && (Z.of_nat (size (ta_acc st)) >=? maxSeries)) eqn:Es.
    + split; [done|]. exists GateSeries. split; [done|]. apply andb_prop in Es as [E1 E2]. bsplit. cbn [stopped]. specialize (G4 ltac:(lia)).
      split_and!; [lia | lia | done | intros Hp; specialize (Hc Hp); lia].
    + split; [|by rewrite Hlen]. apply gathered_insert; try done.
      * unfold points_of. by rewrite Ea.
      * intros ?. rewrite map_size_insert_None by done. apply andb_false_iff in Es as [E|E]; bsplit; lia.
Qed.

(** The whole run: the readings it took, and why it stopped if it did. *)
Lemma ts_run_gathered by_ maxSeries maxPoints l : forall done st, gathered by_ maxSeries maxPoints done st -> ta_points st = zlen done -> ta_gate st = None ->
  exists taken rest, l = taken ++ rest /\
    let st' := (ts_run by_ maxSeries maxPoints st l).1 in
    gathered by_ maxSeries maxPoints (done ++ taken) {| ta_acc := ta_acc st'; ta_gate := None; ta_points := 0 |} /\
    match ta_gate st' with
    | None => rest = []
    | Some g => exists x rest', rest = x :: rest' /\ stopped by_ maxSeries maxPoints (done ++ taken) (ta_acc st') x g
    end.
Proof.
  induction l as [|x l IH]; intros done st Hg Hn Hgate; cbn [ts_run].
  - exists [], []. split; [done|]. cbn. rewrite app_nil_r, Hgate. split; [|done]. by destruct Hg.
  - pose proof (ts_add_gathered by_ maxSeries maxPoints done st x Hg Hn) as Hadd.
    destruct (ts_add by_ maxSeries maxPoints st x) as [st1 []].
    + destruct Hadd as (Hg1 & Hn1 & Hgate1). rewrite Hgate in Hgate1. destruct (IH (done ++ [x]) st1 Hg1 Hn1 Hgate1) as (taken & rest & -> & Hrun).
      exists (x :: taken), rest. split; [done|]. rewrite <- !app_assoc in Hrun. exact Hrun.
    + destruct Hadd as (Hacc & g & Hgate1 & Hwhy). exists [], (x :: l). split; [done|]. cbn [fst]. rewrite app_nil_r, Hacc, Hgate1.
      split; [by destruct Hg|]. by exists x, l.
Qed.

Lemma ts_reads s q fromMs toMs maxSeries maxPoints :
  reads_columns (ts_visit s q (plan_of s q fromMs toMs) maxSeries maxPoints) (qp_projection (plan_of s q fromMs toMs)).
Proof.
  apply plan_visit_reads. intros a row proj Hts Hlab Hcols. unfold ts_visit. rewrite Hts, Hlab. destruct (row_int row TimestampField) as [ts|]; [|done].
  assert (Hf : forall f, f ∈ qp_fields (plan_of s q fromMs toMs) -> restricted row proj !! rf_name f = row !! rf_name f)
    by (intros f Hin; apply Hcols; left; by exists f).
  rewrite !ts_fields_run. f_equal. clear Hcols. induction (qp_fields (plan_of s q fromMs toMs)) as [|f fields IH]; [done|]. cbn [omap list_omap].
  assert (Hone : field_reading (rowLabels s row (q_By q)) (restricted row proj) ts f = field_reading (rowLabels s row (q_By q)) row ts f)
    by (unfold field_reading; rewrite Hf; [done | apply elem_of_cons; by left]).
  rewrite Hone, IH; [done|]. intros f' Hin. apply Hf, elem_of_cons. by right.
Qed.

(** What a graph holds. *)
Lemma runTimeseries_exact s (A : AStore) q (req : QueryRequest) (ctx : list bool) (warns : list Diag) (maxSeries maxPoints : Z) :
  query_ready s A q (qr_FromMs req) (qr_ToMs req) ctx ->
  let p := plan_of s q (qr_FromMs req) (qr_ToMs req) in
  let all := concat (map (row_readings s q p) (plan_rows A p (qr_FromMs req) (qr_ToMs req) (wanted s q))) in
  exists resp s' acc taken rest, runTimeseries ctx q req p warns maxSeries maxPoints s = (Ok resp, s') /\
    rs_Series resp = map (wire_series req (query_window q req)) (by_name acc) /\ all = taken ++ rest /\
    (forall k, points_of acc k = keyed (q_By q) k taken) /\
    (forall k, is_Some (acc !! k) <-> k ∈ map (rd_key (q_By q)) taken) /\
    (forall k a, acc !! k = Some a -> k = seriesKey (sa_labels a) (q_By q) (rf_label (sa_field a))) /\
    (0 < maxSeries -> Z.of_nat (size acc) <= maxSeries) /\ (0 < maxPoints -> zlen taken <= maxPoints) /\
    rs_Truncated resp = negb (is_none (rs_Error resp)) /\
    match rs_Error resp with
    | None => rest = []
    | Some g => exists x rest', rest = x :: rest' /\ stopped (q_By q) maxSeries maxPoints taken acc x g
    end.
Proof.
  intros Hr p all. unfold runTimeseries, mbind, SM_bind, get_store, mret, SM_ret.
  pose proof (scan_ready (ts_visit s q p maxSeries maxPoints) s A q _ _ ctx ts_empty no_stats Hr (ts_reads _ _ _ _ _ _)) as Hscan. fold p in Hscan.
  pose proof (ts_visit_run s q p maxSeries maxPoints (plan_rows A p (qr_FromMs req) (qr_ToMs req) (wanted s q)) ts_empty) as Hrun. fold all in Hrun.
  destruct (visit_list (ts_visit s q p maxSeries maxPoints) ts_empty _) as [[st n] stop]. cbn [fst] in Hrun. destruct Hscan as (k & s' & -> & _).
  destruct (ts_run_gathered (q_By q) maxSeries maxPoints all [] ts_empty (gathered_empty _ _ _) eq_refl eq_refl) as (taken & rest & Hall & Hg).
  rewrite <- Hrun in Hg. destruct Hg as [[G1 G2 G3 G4 G5] Hwhy]. cbn [app ta_acc] in *.
  eexists _, s', (ta_acc st), taken, rest. split; [reflexivity|]. cbn [rs_Series rs_Error rs_Truncated]. split_and!; try done. intros c a Ha. by destruct (G3 _ _ Ha).
Qed.

(** C32: a time series query draws exactly one series for every combination
    of grouping values and field that occurs among the readings it takes, and
    each holds its readings in the order of the scan.  It takes the readings
    of all the rows it matches, unless a ceiling stops it, and then it says
    which: it has taken exactly as many readings as points are allowed, or
    has as many series as are allowed and the next reading would open one
    more. *)
Theorem timeseries_exact s (A : AStore) q (req : QueryRequest) (ctx : list bool) (warns : list Diag) (maxSeries maxPoints : Z) :
  query_ready s A q (qr_FromMs req) (qr_ToMs req) ctx ->
  let p := plan_of s q (qr_FromMs req) (qr_ToMs req) in
  let all := concat (map (row_readings s q p) (plan_rows A p (qr_FromMs req) (qr_ToMs req) (wanted s q))) in
  exists resp s' acc taken rest, runTimeseries ctx q req p warns maxSeries maxPoints s = (Ok resp, s') /\
    rs_Series resp = map (wire_series req (query_window q req)) (by_name acc) /\ all = taken ++ rest /\
    (forall k, points_of acc k = keyed (q_By q) k taken) /\
    (forall k, is_Some (acc !! k) <-> k ∈ map (rd_key (q_By q)) taken) /\
    (forall k a, acc !! k = Some a -> k = seriesKey (sa_labels a) (q_By q) (rf_label (sa_field a))) /\
    (0 < maxSeries -> Z.of_nat (size acc) <= maxSeries) /\ (0 < maxPoints -> zlen taken <= maxPoints) /\
    rs_Truncated resp = negb (is_none (rs_Error resp)) /\
    match rs_Error resp with
    | None => rest = []
    | Some g => exists x rest', rest = x :: rest' /\ stopped (q_By q) maxSeries maxPoints taken acc x g
    end.
Proof. apply runTimeseries_exact. Qed.

End Series.
