(* ===== verification/StoreQueryDemo.v ===== *)
(** * A query to evaluate

    One row of one host, and queries over it: the theorems about queries
    applied where their hypotheses hold, and a query the catalogue lets
    through that reads a field as a label. *)

From Stdlib Require Import ZArith Lia Bool Strings.Byte Strings.String Floats.SpecFloat.
From stdpp Require Import gmap sorting.
From S2P Require Import Prelude Bytes Float64 GoStd GoText Model Wire EngineKeys EngineCodec EngineFilter EngineDB EngineRep EngineInv.
From S2P Require Import EngineSchema EngineStore EngineQuery EngineScan EngineTrace Instances ExtractTimestamp ExtractDemo StoreShard StoreState StoreDict.
From S2P Require Import StoreDictProofs StoreReclaim StoreDemo StoreDictProps StoreCatalogue StoreWrite StoreRetention Render MqlAst MqlValidate.
From S2P Require Import StorePlan StorePlanProps StoreScan StoreQuery StoreQueryProps StoreSeriesProps.

#[export] Instance LiteralCompile : RegexpCompile := { Compile s := Some (Literal s) }.

Definition q_host : gostr := bs "host".
Definition q_row : Row := {[TimestampField := VInt old_ts; q_host := VInt 1; bs "usage" := VInt 7]}.
Definition q_rec : Record_ := {| rec_Key := demo_pk; rec_Row := q_row |}.
Definition q_shelf : DB := (PutBatch old_shard [q_rec] demo_empty).2.
Definition q_rows : gmap gostr Rows := {[old_shard := {[demo_pk := q_row]}]}.
(** Host 1 is "b". *)
Definition q_store : Store := s_set_db q_shelf two_hosts.

Definition select_usage : FieldExpr := {| fe_Field := bs "usage"; fe_Histogram := []; fe_As := []; fe_Modifiers := no_modifiers |}.
(** [SELECT usage FROM cpu WHERE host = "b" BY host] *)
Definition q_query : MqlAst.Query :=
  {| q_Kind := KindQuery; q_From := bs "cpu"; q_Select := [select_usage];
     q_Where := EqE {| c_Label := q_host; c_Value := bs "b"; c_Literal := false |}; q_By := [q_host]; q_EveryMs := None;
     q_Format := FormatLogs; q_Limits := {| li_Series := None; li_Points := Some 10 |}; q_Label := [] |}.
Definition q_from : Z := old_ts - 1000.
Definition q_to : Z := old_ts + 1000.
Definition q_request : QueryRequest :=
  {| qr_FromMs := q_from; qr_ToMs := q_to; qr_MaxPoints := 100; qr_IntervalMs := 1000; qr_DisableSafety := false; qr_FromAlert := false |}.

Lemma q_row_storable : row_storable q_row.
Proof.
  split; [|by vm_compute]. intros k v. unfold q_row. rewrite !lookup_insert, lookup_singleton.
  repeat case_decide; [..|done]; intros [= <-]; subst k; (split; [by vm_compute|]); try done.
Qed.

Lemma q_rec_ok : rec_ok q_rec.
Proof.
  split; [done|]. split; [apply q_row_storable|]. intros k v. cbn [rec_Row q_rec]. unfold q_row. rewrite !lookup_insert, lookup_singleton.
  repeat case_decide; [..|done]; by subst k.
Qed.

Lemma q_inv : db_inv q_shelf q_rows.
Proof.
  assert ((PutBatch old_shard [q_rec] demo_empty).1 = Ok tt) as E by (vm_compute; reflexivity).
  destruct (PutBatch_wp old_shard [q_rec] demo_empty ∅) as [Hi _ _ _ _ _].
  - apply demo_empty_inv.
  - by vm_compute.
  - constructor; [apply q_rec_ok | done].
  - rewrite demo_empty_next. mlia.
  - intros idx _ pk r r0 _ Hin%list_elem_of_singleton [H0|H0%list_elem_of_singleton].
    + unfold rows_of in H0. rewrite lookup_empty in H0. done.
    + by injection Hin as -> ->; injection H0 as ->.
  - rewrite E in Hi. exact Hi.
Qed.

Lemma q_row_at name pk row : holds q_rows name pk row -> name = old_shard /\ pk = demo_pk /\ row = q_row.
Proof. intros (R & HR & Hr). unfold q_rows in HR. apply lookup_singleton_Some in HR as [<- <-]. by apply lookup_singleton_Some in Hr as [<- <-]. Qed.

Lemma q_shelved : shelved q_rows.
Proof.
  intros name pk row (-> & -> & ->)%q_row_at. exists (bs "cpu"), old_ts, (24 * Hour). split_and!; [done | done | by vm_compute .. ].
Qed.

Lemma q_dicts : dicts_wf q_store.
Proof. exact two_hosts_wf. Qed.

Lemma q_label : labels_resolve q_store q_row {[q_host]}.
Proof. intros l v ->%elem_of_singleton [= <-]. exists 1, (bs "b"). split; [done | vm_compute; reflexivity]. Qed.

Lemma q_ready : query_ready q_store q_rows q_query q_from q_to [].
Proof.
  constructor.
  - apply q_inv.
  - split; vm_compute; reflexivity.
  - done.
  - apply q_dicts.
  - by vm_compute.
  - by vm_compute.
  - assert (Hall : map_Forall (fun _ sm => sm_Indexed sm = TimestampField) (d_sets q_shelf)) by (refine (bool_decide_unpack _ _); by vm_compute).
    intros shard sm _ Hsm. exact (Hall shard sm Hsm).
  - intros shard pk row _ (_ & _ & ->)%q_row_at. exact q_label.
Qed.

(** ** The theorems, applied *)

Lemma predicate_pushdown_witness :
  let '(expr, _, never, _) := buildExpr q_store (q_Where q_query) ∅ in
  match expr with Some w => sem w q_row | None => true end = true /\ never = false.
Proof.
  pose proof (predicate_pushdown q_store (q_Where q_query) ∅ q_row q_dicts q_label) as Hp.
  destruct (buildExpr q_store (q_Where q_query) ∅) as [[[expr warns] never] proj']. destruct Hp as (-> & Hn & _). split; [vm_compute; reflexivity|].
  destruct never; [|done]. specialize (Hn eq_refl). vm_compute in Hn. discriminate Hn.
Defined.

Definition count_visit : visitor Z := fun n _ => (n + 1, true).
Lemma count_reads cols : reads_columns count_visit cols.
Proof. done. Qed.

Lemma scan_exact_witness :
  exists k s', scan count_visit (plan_of q_store q_query q_from q_to) q_from q_to [] 0 no_stats q_store = (Ok (1, add_stats k 1 no_stats), s').
Proof.
  pose proof (scan_exact count_visit q_store q_rows q_query q_from q_to [] 0 no_stats q_ready (count_reads _)) as Hs. cbv zeta in Hs.
  assert (Hv : visit_list count_visit 0 (map snd (plan_entries q_rows (plan_of q_store q_query q_from q_to) q_from q_to (wanted q_store q_query))) = (1, 1, false))
    by (vm_compute; reflexivity).
  rewrite Hv in Hs. destruct Hs as [(k & s' & Hrun & _) _]. by exists k, s'.
Defined.

Lemma tabular_exact_witness :
  exists resp s', runTabular [] q_query q_request (plan_of q_store q_query q_from q_to) [] q_store = (Ok resp, s') /\
    rs_Truncated resp = false /\ rs_Rows resp = [[CInt old_ts; CText (bs "b"); CFloat (of_int 7)]].
Proof.
  destruct (tabular_exact q_store q_rows q_query q_request [] [] q_ready q_shelved) as (resp & s' & saw & Hrun & Hrows & Htr & _).
  exists resp, s'. split; [exact Hrun|]. split; [rewrite Htr; vm_compute; reflexivity|].
  assert (Hvm : (fun r => match r with Ok r => Some (rs_Rows r) | Err _ => None end) (runTabular [] q_query q_request (plan_of q_store q_query q_from q_to) [] q_store).1
            = Some [[CInt old_ts; CText (bs "b"); CFloat (of_int 7)]]) by (vm_compute; reflexivity).
  change (qr_FromMs q_request) with q_from in Hrun. change (qr_ToMs q_request) with q_to in Hrun. rewrite Hrun in Hvm. by injection Hvm.
Defined.

Definition q_reading : reading :=
  {| rd_labels := {[q_host := bs "b"]}; rd_field := resolveField q_store (bs "cpu") select_usage;
     rd_point := {| p_Value := of_int 7; p_TSMs := old_ts |} |}.

Lemma timeseries_exact_witness :
  exists resp s' acc, runTimeseries [] q_query q_request (plan_of q_store q_query q_from q_to) [] 5 100 q_store = (Ok resp, s') /\
    points_of acc (seriesKey {[q_host := bs "b"]} [q_host] (bs "usage")) = [{| p_Value := of_int 7; p_TSMs := old_ts |}] /\
    rs_Series resp = map (wire_series q_request (query_window q_query q_request)) (by_name acc).
Proof.
  pose proof (timeseries_exact q_store q_rows q_query q_request [] [] 5 100 q_ready) as Ht. cbv zeta in Ht.
  change (qr_FromMs q_request) with q_from in Ht. change (qr_ToMs q_request) with q_to in Ht.
  assert (Hone : concat (map (row_readings q_store q_query (plan_of q_store q_query q_from q_to))
      (plan_rows q_rows (plan_of q_store q_query q_from q_to) q_from q_to (wanted q_store q_query))) = [q_reading]) by (vm_compute; reflexivity).
  rewrite Hone in Ht. destruct Ht as (resp & s' & acc & taken & rest & Hrun & Hser & Hall & Hpts & Hdom & _ & _ & _ & _ & Hwhy).
  exists resp, s', acc. split; [exact Hrun|]. split; [|exact Hser]. rewrite Hpts.
  assert (Hseries : Z.of_nat (size (list_to_set (map (rd_key (q_By q_query)) [q_reading]) : gset gostr)) = 1) by (vm_compute; reflexivity).
  assert (rest = []) as ->.
  { clear -Hwhy Hseries Hall Hdom. destruct (rs_Error resp) as [g|]; [|exact Hwhy]. destruct Hwhy as (x & rest' & -> & Hg).
    apply (stopped_past _ _ _ _ _ _ rest' _ Hdom) in Hg. rewrite <- Hall, Hseries in Hg. change (zlen [q_reading]) with 1 in Hg.
    destruct g; solve [lia | destruct Hg]. }
  rewrite app_nil_r in Hall. rewrite <- Hall. vm_compute. reflexivity.
Defined.

Lemma seriesKey_injective_witness :
  seriesKey {[bs "a" := bs "x=y"]} [bs "a"; bs "b"] (bs "v") <> seriesKey {[bs "a" := bs "x"; bs "b" := bs "=y"]} [bs "a"; bs "b"] (bs "v").
Proof.
  intros Heq. apply seriesKey_injective in Heq as [_ Hall].
  - apply Forall_cons in Hall as [Ha _]. vm_compute in Ha. discriminate Ha.
  - repeat constructor.
  - repeat constructor.
Defined.

(** ** A field read as a label

    [LABELS] lowers its predicate once and runs it over every set that
    carries the label it asks for.  Nothing checks that a set carries the
    labels the predicate compares: here [dc] is a label of [disk], and a
    field of [cpu], whose value 0 is taken for the index of "eu". *)

Definition labelled (set : string) (labels : gmap gostr gostr) (fields : gmap gostr Value) : WriteRequest :=
  {| rq_Batches := [{| b_Set := bs set; b_Samples := [{| TSMs := old_ts; SubUS := 0; Labels := labels; Fields := fields; KeyHint := [] |}] |}];
     rq_FieldMeta := []; rq_SetMeta := [] |}.
Abbreviation disk_then_cpu :=
  (Write (labelled "cpu" {[q_host := bs "a"]} {[bs "dc" := VInt 0]}) [] [] (Write (labelled "disk" {[bs "dc" := bs "eu"]} {[bs "v" := VInt 1]}) [] [] empty_store).2).2.
Definition labels_query : MqlAst.Query :=
  {| q_Kind := KindLabels; q_From := []; q_Select := []; q_Where := EqE {| c_Label := bs "dc"; c_Value := bs "eu"; c_Literal := false |};
     q_By := []; q_EveryMs := None; q_Format := []; q_Limits := no_limits; q_Label := q_host |}.

(** [LABELS host WHERE dc = "eu"] answers a host of a set without the label
    [dc]. *)
Lemma labels_read_field :
  Schema_HasLabel disk_then_cpu (bs "cpu") (bs "dc") = false /\
  match (Store_Query [] (Some labels_query) q_request disk_then_cpu).1 with
  | Ok (Ok resp) => rs_Rows resp = [[CText (bs "a")]]
  | _ => False
  end.
Proof. vm_compute. split; reflexivity. Qed.
