(* ===== verification/StoreAnswers.v ===== *)
(** * A query, and the samples it answers

    A store that serves a map of samples answers a query with those of the
    set and the range that satisfy it: the dictionaries, the catalogue, the
    shards and the engine beneath do not show. *)

From Stdlib Require Import ZArith Lia Bool Strings.Byte Strings.String Floats.SpecFloat.
From stdpp Require Import gmap sorting.
From S2P Require Import Prelude Bytes Float64 GoStd GoText Model Wire EngineKeys EngineCodec EngineFilter EngineDB EngineRep EngineInv.
From S2P Require Import EngineSchema EngineStore EngineQuery EngineScan EngineTrace ExtractTimestamp StoreShard StoreState StoreDict StoreDictProofs StoreReclaim.
From S2P Require Import StoreCatalogue StoreWrite StoreWriteProofs StoreWriteProps StoreRetention StoreNamespace Render MqlAst MqlValidate MqlValidateProps.
From S2P Require Import StorePlan StorePlanProps StoreScan StoreQuery StoreQueryProps StoreSeriesProps StoreSamples StoreRequests.
From S2P Require Import Instances ExtractDemo StoreDemo StoreQueryDemo.

(** ** What a query says of a sample *)

(** The columns of a sample other than its labels. *)
Definition sample_columns (sm : Sample) : Row := <[TimestampField := VInt (TSMs sm)]> (Fields sm).
Definition sample_carries (sm : Sample) (c : gostr) : bool :=
  bool_decide (c = TimestampField) || bool_decide (is_Some (Labels sm !! c)) || bool_decide (is_Some (Fields sm !! c)).
(** The labels a query groups by. *)
Definition grouping (by_ : list gostr) (sm : Sample) : gmap gostr gostr := base.filter (fun kv => kv.1 ∈ by_) (Labels sm).

Section Matches.
Context `{FloatText} `{Regexp} `{RC : !RegexpCompile}.

(** Its predicate holds, and the required fields are there. *)
Definition sample_matches (q : MqlAst.Query) (sm : Sample) : bool :=
  holds_of (fun l => Labels sm !! l) (sample_carries sm) (q_Where q)
  && forallb (fun fe => negb (m_Required (fe_Modifiers fe) && negb (is_nil (fe_Field fe))) || sample_carries sm (fe_Field fe)) (q_Select q).

(** The samples a query is about, among those of a store. *)
Definition asked (q : MqlAst.Query) (fromMs toMs : Z) (x : gostr * gostr * Sample) : bool :=
  bool_decide (fst <$> shard_of_set x.1.1 = Some (q_From q)) && ((fromMs <=? TSMs x.2) && (TSMs x.2 <=? toMs)) && sample_matches q x.2.


(** The readings of a sample. *)
Definition sample_readings (by_ : list gostr) (fields : list resolvedField) (sm : Sample) : list reading :=
  omap (field_reading (grouping by_ sm) (sample_columns sm) (TSMs sm)) fields.

Lemma forall_same {X} (l : list X) (f g : X -> bool) : Forall (fun x => f x = g x) l -> forallb f l = forallb g l.
Proof. induction 1 as [|x l Hx _ IH]; [done|]. cbn [forallb]. by rewrite Hx, IH. Qed.
Lemma exists_same {X} (l : list X) (f g : X -> bool) : Forall (fun x => f x = g x) l -> existsb f l = existsb g l.
Proof. induction 1 as [|x l Hx _ IH]; [done|]. cbn [existsb]. by rewrite Hx, IH. Qed.

(** What a predicate says hangs on the labels it compares. *)
Lemma holds_of_ext (label label' : gostr -> option gostr) (has has' : gostr -> bool) : (forall c, has c = has' c) ->
  forall e, (forall l, l ∈ compared e -> label l = label' l) -> holds_of label has e = holds_of label' has' e.
Proof.
  intros Hhas. apply (mql_Expr_ind (fun e => (forall l, l ∈ compared e -> label l = label' l) -> holds_of label has e = holds_of label' has' e)).
  intros ands ors nt eq ne il m nm h ms Hands Hors Hnt Hl.
  assert (Hlist : forall es : list Expr, Forall (fun e => (forall l, l ∈ compared e -> label l = label' l) -> holds_of label has e = holds_of label' has' e) es ->
            (forall l, l ∈ ⋃ map compared es -> label l = label' l) -> Forall (fun e => holds_of label has e = holds_of label' has' e) es).
  { clear. induction 1 as [|e es He _ IH]; intros Hes; constructor; [apply He | apply IH]; intros l Hin; apply Hes; cbn [map union_list fold_right]; apply elem_of_union; [by left | by right]. }
  destruct ands as [|e0 ands].
  2: { apply (forall_same (e0 :: ands)), (Hlist _ Hands), Hl. }
  destruct ors as [|e0 ors].
  2: { apply (exists_same (e0 :: ors)), (Hlist _ Hors), Hl. }
  destruct nt as [sub|]; [cbn [holds_of]; f_equal; by apply Hnt|].
  assert (Hsays : forall l P, Some l ∈ [c_Label <$> eq; c_Label <$> ne; in_Label <$> il; mx_Label <$> m; mx_Label <$> nm] -> says label l P = says label' l P).
  { intros l P Hin. unfold says. rewrite Hl; [done|]. cbn [compared]. apply elem_of_list_to_set, list_elem_of_omap. by exists (Some l). }
  cbn [holds_of]. rewrite !Hhas. destruct (negb (is_nil h)); [done|]. destruct (negb (is_nil ms)); [done|].
  destruct eq as [c|]; [apply Hsays; set_solver|]. destruct ne as [c|]; [apply Hsays; set_solver|]. destruct il as [i|]; [apply Hsays; set_solver|].
  destruct m as [x|]; [apply Hsays; set_solver|]. destruct nm as [x|]; [apply Hsays; set_solver | done].
Qed.
End Matches.

(** ** A stored row answers as its sample *)

Section Filed.
Context `{FloatText} `{Regexp} `{RC : !RegexpCompile} `{XXH3} `{J : MetaJSON} `{!MetaJSONLaws J} `{L : LSM} `{!LSMLaws L} `{SJ : StoreJSON} `{ErrorText}.
Implicit Types (s : Store) (set : gostr) (row : Row).
Abbreviation AStore := (gmap gostr Rows).
Abbreviation SampleStore := (gmap (gostr * gostr) Sample).
Context (U : gostr -> Sample -> Prop).

Section Row.
Context (s : Store) (set shard pk : gostr) (sm : Sample) (row : Row).
Hypothesis (Hfiled : filed_as U s set shard pk sm row) (Hdicts : dicts_wf s) (Hapart : namespace_ok s) (Htime : timeless (entryLocked set s)).

(** Under a label of the set a row carries the index of the sample's value. *)
Lemma filed_label l : l ∈ se_Labels (entryLocked set s) ->
  match Labels sm !! l with
  | Some v => exists i, row !! l = Some (VInt i) /\ labelValue s l i = Some v /\ 0 <= i <= 2147483647
  | None => row !! l = None
  end.
Proof.
  intros Hl. destruct Hfiled as [_ _ _ _ _ Hres Hnoted]. destruct (Labels sm !! l) as [v|] eqn:Ev.
  - destruct (rs_labels _ _ _ Hres l v Ev) as (i & Hi & Hv). exists i. split; [done|]. split; [done|]. by destruct (labelValue_small _ _ _ _ Hdicts Hv).
  - destruct (row !! l) as [v|] eqn:Er; [exfalso|done]. destruct (rs_only _ _ _ Hres l ltac:(by eexists)) as [-> | [[? ?] | Hf]]; [by destruct Htime | congruence |].
    apply (nt_fields _ _ Hnoted) in Hf. by rewrite (Hapart set l Hl) in Hf.
Qed.

Lemma filed_label_of l : l ∈ se_Labels (entryLocked set s) -> label_of s row l = Labels sm !! l.
Proof.
  intros Hl. pose proof (filed_label l Hl) as Hc. unfold label_of. destruct (Labels sm !! l) as [v|]; [|by rewrite Hc].
  destruct Hc as (i & -> & Hv & Hi). by rewrite i32_id by lia.
Qed.

Lemma filed_resolves ls : (forall l, l ∈ ls -> l ∈ se_Labels (entryLocked set s)) -> labels_resolve s row ls.
Proof.
  intros Hls l v Hl Hrow. pose proof (filed_label l (Hls l Hl)) as Hc. destruct (Labels sm !! l) as [x|]; [|congruence].
  destruct Hc as (i & Hi & Hx & _). exists i, x. split; [congruence | done].
Qed.

Lemma filed_carries c : carries row c = sample_carries sm c.
Proof.
  destruct Hfiled as [_ _ _ _ _ Hres _]. unfold carries, sample_carries. apply Bool.eq_iff_eq_true. rewrite !orb_true_iff, !bool_decide_eq_true. split.
  - intros Hc. apply (rs_only _ _ _ Hres) in Hc. tauto.
  - intros [[-> | [v Hv]] | [v Hv]]; [rewrite (rs_ts _ _ _ Hres) | destruct (rs_labels _ _ _ Hres c v Hv) as (i & -> & _) | rewrite (rs_fields _ _ _ Hres c v Hv)]; by eexists.
Qed.

(** Elsewhere it carries the sample's fields and its timestamp. *)
Lemma filed_column c : c ∉ se_Labels (entryLocked set s) -> row !! c = sample_columns sm !! c.
Proof.
  intros Hc. destruct Hfiled as [_ _ _ _ _ Hres Hnoted]. unfold sample_columns. destruct (decide (c = TimestampField)) as [-> | Hne].
  { by rewrite lookup_insert_eq, (rs_ts _ _ _ Hres). }
  rewrite lookup_insert_ne by congruence. destruct (Fields sm !! c) as [v|] eqn:Ef; [by apply (rs_fields _ _ _ Hres)|].
  destruct (row !! c) as [v|] eqn:Er; [exfalso|done]. destruct (rs_only _ _ _ Hres c ltac:(by eexists)) as [? | [Hl | [? ?]]]; [done | | congruence].
  by apply Hc, (nt_labels _ _ Hnoted).
Qed.

Lemma filed_ts : row_int row TimestampField = Some (TSMs sm).
Proof. destruct Hfiled as [_ _ _ _ _ Hres _]. unfold row_int. by rewrite (rs_ts _ _ _ Hres). Qed.

Lemma filed_in_window fromMs toMs : in_window fromMs toMs row = (fromMs <=? TSMs sm) && (TSMs sm <=? toMs).
Proof. destruct Hfiled as [_ _ _ _ _ Hres _]. unfold in_window, ts_in, row_ts. by rewrite (rs_ts _ _ _ Hres). Qed.

Lemma filed_wanted (q : MqlAst.Query) : (forall l, l ∈ compared (q_Where q) -> l ∈ se_Labels (entryLocked set s)) -> wanted s q row = sample_matches q sm.
Proof.
  intros Hl. unfold wanted, sample_matches, satisfies. f_equal.
  - apply holds_of_ext; [apply filed_carries | intros l Hin; by apply filed_label_of, Hl].
  - induction (q_Select q) as [|fe sel IH]; [done|]. cbn [forallb]. by rewrite filed_carries, IH.
Qed.

Lemma filed_grouping by_ : Forall (fun l => l ∈ se_Labels (entryLocked set s)) by_ -> rowLabels s row by_ = grouping by_ sm.
Proof.
  intros Hby. apply map_eq. intros l. unfold grouping.
  assert (Hg : base.filter (fun kv : gostr * gostr => kv.1 ∈ by_) (Labels sm) !! l = if decide (l ∈ by_) then Labels sm !! l else None).
  { case_decide as Hin.
    - destruct (Labels sm !! l) as [v|] eqn:Ev; [by apply map_lookup_filter_Some_2 | by apply map_lookup_filter_None; left].
    - apply map_lookup_filter_None. right. by intros v _. }
  rewrite Hg. clear Hg. induction Hby as [|k by_ Hk _ IH]; [done|]. cbn [rowLabels]. pose proof (filed_label k Hk) as Hc. unfold row_int.
  destruct (decide (l = k)) as [-> | Hne].
  - rewrite decide_True by (by left). destruct (Labels sm !! k) as [v|] eqn:Ev.
    + destruct Hc as (i & -> & Hv & Hi). cbn [AsInt]. rewrite i32_id, Hv by lia. by rewrite lookup_insert_eq.
    + rewrite Hc, IH. by case_decide.
  - assert (Hrest : rowLabels s row by_ !! l = if decide (l ∈ k :: by_) then Labels sm !! l else None).
    { rewrite IH. case_decide as Hin; case_decide as Hin'; try done; set_solver. }
    rewrite <- Hrest. destruct (Labels sm !! k) as [v|]; [|by rewrite Hc]. destruct Hc as (i & -> & Hv & Hi). cbn [AsInt]. rewrite i32_id, Hv by lia.
    by rewrite lookup_insert_ne by congruence.
Qed.



Lemma filed_readings q p : Forall (fun l => l ∈ se_Labels (entryLocked set s)) (q_By q) ->
  Forall (fun f => rf_name f ∉ se_Labels (entryLocked set s)) (qp_fields p) -> row_readings s q p row = sample_readings (q_By q) (qp_fields p) sm.
Proof.
  intros Hby Hf. unfold row_readings, sample_readings. rewrite filed_ts, (filed_grouping _ Hby).
  assert (Hone : forall f, f ∈ qp_fields p -> field_reading (grouping (q_By q) sm) row (TSMs sm) f = field_reading (grouping (q_By q) sm) (sample_columns sm) (TSMs sm) f).
  { intros f Hin. unfold field_reading. rewrite (filed_column (rf_name f)); [done|]. by apply (proj1 (Forall_forall _ _) Hf). }
  clear Hf. induction (qp_fields p) as [|f fields IH]; [done|]. cbn [omap list_omap]. rewrite Hone by (by left).
  rewrite IH; [done|]. intros f' Hin. apply Hone. by right.
Qed.
End Row.
End Filed.

(** ** The rows of a plan are the samples asked for *)

Section Answers.
Context `{Unicode} `{FloatText} `{Regexp} `{RC : !RegexpCompile} `{XXH3} `{J : MetaJSON} `{!MetaJSONLaws J} `{L : LSM} `{!LSMLaws L} `{SJ : StoreJSON} `{ErrorText}.
Implicit Types (s : Store) (set : gostr) (row : Row) (q : MqlAst.Query).
Abbreviation AStore := (gmap gostr Rows).
Abbreviation SampleStore := (gmap (gostr * gostr) Sample).
Context (U : gostr -> Sample -> Prop).

Definition set_labels s q : gset gostr := se_Labels (entryLocked (q_From q) s).

(** What validation settles about the names of a query, and what it leaves
    open: that no selected field goes by the name of a label. *)
Record names_known s q : Prop := {
  nk_compared : forall l, l ∈ compared (q_Where q) -> l ∈ set_labels s q;
  nk_by : Forall (fun l => l ∈ set_labels s q) (q_By q);
  nk_fields : Forall (fun fe => fe_Field fe ∉ set_labels s q) (q_Select q);
}.

(** The fields a plan draws. *)
Definition drawn_fields s q : list resolvedField := map (resolveField s (q_From q)) (base.filter (fun fe => fe_Histogram fe = []) (q_Select q)).

Lemma plan_fields s q fromMs toMs : qp_fields (plan_of s q fromMs toMs) = drawn_fields s q.
Proof.
  unfold plan_of, Store_plan. destruct (shardsFor _ _ _ _). by destruct (buildExpr _ _ _) as [[[? ?] ?] ?].
Qed.

Lemma drawn_names s q : names_known s q -> Forall (fun f => rf_name f ∉ set_labels s q) (drawn_fields s q).
Proof.
  intros [_ _ Hf]. apply Forall_forall. intros f (fe & -> & [_ Hfe]%list_elem_of_filter)%list_elem_of_fmap.
  apply (proj1 (Forall_forall _ _) Hf) in Hfe. unfold resolveField. by destruct (resolve_clamp _ _) as [[? ?] ?].
Qed.

Lemma plan_shards s q fromMs toMs : qp_shards (plan_of s q fromMs toMs) = (shardsFor s (q_From q) fromMs toMs).1.
Proof.
  unfold plan_of, Store_plan. destruct (shardsFor _ _ _ _). by destruct (buildExpr _ _ _) as [[[? ?] ?] ?].
Qed.

Lemma holds_row_at (A : AStore) shard pk row : holds A shard pk row <-> row_at A shard pk = Some row.
Proof.
  unfold holds, row_at. destruct (A !! shard) as [R|]; cbn; split; [by intros (? & [= <-] & ?) | by exists R | by intros (? & ? & _) | done].
Qed.

Lemma filed_set s set shard pk sm row : filed_as U s set shard pk sm row -> exists suffix, shard_of_set shard = Some (set, suffix).
Proof.
  intros [_ [Hts _] [_ Hne] (w & Hw & ->) _ _ _]. destruct (shard_named (TSMs sm) w Hts Hw) as (suffix & -> & Hat).
  exists suffix. by apply shard_of_set_app.
Qed.

Context (s : Store) (A : AStore) (W : SampleStore) (Hs : served U s A W).

(** A row of a shard of the plan is that of a sample of the set. *)
Lemma planned_sample q fromMs toMs shard pk row : shard ∈ qp_shards (plan_of s q fromMs toMs) -> holds A shard pk row ->
  exists sm, W !! (shard, pk) = Some sm /\ filed_as U s (q_From q) shard pk sm row.
Proof.
  intros Hshard Hrow%holds_row_at. rewrite plan_shards in Hshard. pose proof (sv_mirror _ _ _ _ Hs shard pk) as Hm. rewrite Hrow in Hm.
  inversion Hm as [sm row' (set & Hf) E1 E2|]. subst row'. exists sm. split; [done|].
  pose proof Hf as [_ [Hts _] _ (w & Hw & Hn) _ _ _]. pose proof (selected_set s _ _ _ _ _ _ _ Hshard Hn Hts Hw) as Hn'.
  rewrite Hn in Hn'. by rewrite <- (shard_set_inj _ _ _ _ _ _ Hts Hw Hts Hw Hn').
Qed.

(** A sample of the set in the range is a row of a shard of the plan. *)
Lemma sample_planned q fromMs toMs shard pk sm : W !! (shard, pk) = Some sm -> fst <$> shard_of_set shard = Some (q_From q) -> fromMs <= TSMs sm <= toMs ->
  exists row, shard ∈ qp_shards (plan_of s q fromMs toMs) /\ holds A shard pk row /\ filed_as U s (q_From q) shard pk sm row.
Proof.
  intros HW Hset Hrange. pose proof (sv_mirror _ _ _ _ Hs shard pk) as Hm. rewrite HW in Hm.
  inversion Hm as [sm' row (set & Hf) E1 E2|]. subst sm'. destruct (filed_set _ _ _ _ _ _ Hf) as (suffix & Hsuffix). rewrite Hsuffix in Hset.
  injection Hset as ->. exists row. assert (Hrow : holds A shard pk row) by (apply holds_row_at; congruence). split; [|done].
  pose proof Hf as [_ [Hts _] _ (w & Hw & Hn) _ _ _]. rewrite Hn in Hrow |- *. by apply (written_selected s A q fromMs toMs _ _ pk row (sv_inv _ _ _ _ Hs)).
Qed.

Lemma served_shelved : shelved A.
Proof.
  intros shard pk row Hrow%holds_row_at. pose proof (sv_mirror _ _ _ _ Hs shard pk) as Hm. rewrite Hrow in Hm.
  inversion Hm as [sm row' (set & Hf) E1 E2|]. subst row'. destruct Hf as [_ [Hts _] [_ Hne] (w & Hw & Hn) _ Hres _].
  exists set, (TSMs sm), w. split_and!; try done; try lia. unfold row_ts. by rewrite (rs_ts _ _ _ Hres).
Qed.

Lemma served_ready q fromMs toMs ctx : names_known s q -> Forall (eq false) ctx -> in_i64 fromMs -> in_i64 toMs -> query_ready s A q fromMs toMs ctx.
Proof.
  intros [Hcmp _ _] Hctx Hf Ht. pose proof (sv_sound _ _ _ _ Hs) as Hsound. constructor; try done.
  - apply Hs.
  - apply Hsound.
  - apply Hs.
  - intros shard m _ Hm. by apply (ss_timed _ Hsound _ _ Hm).
  - intros shard pk row Hshard Hrow. destruct (planned_sample q fromMs toMs shard pk row Hshard Hrow) as (sm & _ & Hfiled).
    apply (filed_resolves U s (q_From q) shard pk sm row Hfiled); [apply Hs | apply Hs | apply Hsound | exact Hcmp].
Qed.

(** The samples behind the rows of the plan, in the order of its walk. *)
Lemma plan_samples q fromMs toMs : names_known s q -> let p := plan_of s q fromMs toMs in
  exists found : list (gostr * gostr * Sample),
    found ≡ₚ base.filter (fun x => asked q fromMs toMs x = true) (map_to_list W) /\
    Forall2 (fun row x => filed_as U s (q_From q) x.1.1 x.1.2 x.2 row) (plan_rows A p fromMs toMs (wanted s q)) found.
Proof.
  intros Hk p. rewrite plan_rows_entries. pose proof (sv_sound _ _ _ _ Hs) as Hsound.
  assert (Hwanted : forall shard pk sm row, filed_as U s (q_From q) shard pk sm row ->
            wanted s q row = sample_matches q sm /\ in_window fromMs toMs row = (fromMs <=? TSMs sm) && (TSMs sm <=? toMs)).
  { intros shard pk sm row Hf. split; [|by apply (filed_in_window U s _ _ _ _ _ Hf)].
    apply (filed_wanted U s _ _ _ _ _ Hf); [apply Hs | apply Hs | apply Hsound | apply Hk]. }
  set (entries := plan_entries A p fromMs toMs (wanted s q)).
  assert (Hall : Forall (fun e : gostr * gostr * Row => exists x : gostr * gostr * Sample,
            e.1 = x.1 /\ W !! x.1 = Some x.2 /\ filed_as U s (q_From q) x.1.1 x.1.2 x.2 e.2) entries).
  { apply Forall_forall. intros [[shard pk] row] (Hshard & Hrow & _)%plan_entries_elem.
    destruct (planned_sample q fromMs toMs shard pk row Hshard Hrow) as (sm & ? & ?). by exists (shard, pk, sm). }
  apply Forall_exists_Forall2_l in Hall as (found & Hall). exists found. split.
  - apply NoDup_Permutation.
    + apply (NoDup_fmap_1 fst). assert (Hkeys : found.*1 = map fst entries); [|rewrite Hkeys; apply plan_entries_nodup].
      clear -Hall. induction Hall as [|e x entries found (He & _) _ IH]; [done|]. cbn. by rewrite IH, He.
    + apply NoDup_filter, NoDup_map_to_list.
    + intros [[shard pk] sm]. rewrite list_elem_of_filter, elem_of_map_to_list. split.
      * intros (i & Hi)%list_elem_of_lookup. destruct (Forall2_lookup_r _ _ _ _ _ Hall Hi) as (e & He & Hkey & HW & Hf). cbn [fst snd] in *.
        split; [|done]. apply list_elem_of_lookup_2 in He. destruct e as [[shard' pk'] row]. cbn [fst snd] in *. injection Hkey as -> ->.
        apply plan_entries_elem in He as (_ & _ & Hwin & Hwant). destruct (Hwanted _ _ _ _ Hf) as [Ew Ei].
        unfold asked. cbn [fst snd]. destruct (filed_set _ _ _ _ _ _ Hf) as (suffix & ->). rewrite <- Ew, Hwant, <- Ei, Hwin.
        by rewrite bool_decide_eq_true_2.
      * intros [Hasked HW]. unfold asked in Hasked. cbn [fst snd] in Hasked. rewrite !andb_true_iff, bool_decide_eq_true, !Z.leb_le in Hasked.
        destruct Hasked as ((Hset & Hrange) & Hmatch). destruct (sample_planned q fromMs toMs shard pk sm HW Hset Hrange) as (row & Hshard & Hrow & Hf).
        destruct (Hwanted _ _ _ _ Hf) as [Ew Ei].
        assert (Hin : (shard, pk, row) ∈ entries).
        { apply plan_entries_elem. split_and!; [done | done | rewrite Ei; by rewrite !(proj2 (Z.leb_le _ _)) by lia | by rewrite Ew]. }
        apply list_elem_of_lookup in Hin as (i & Hi). destruct (Forall2_lookup_l _ _ _ _ _ Hall Hi) as ([key sm'] & Hx & Hkey & HW' & _). cbn [fst snd] in *.
        subst key. rewrite HW in HW'. injection HW' as <-. by eapply list_elem_of_lookup_2.
  - clear -Hall. induction Hall as [|e x entries found (_ & _ & Hf) _ IH]; [constructor|]. cbn [map]. by constructor.
Qed.

(** What a set's entry says to validation. *)
Lemma schema_label set l : HasLabel (Store_Schema s) set l = true -> l ∈ se_Labels (entryLocked set s).
Proof.
  cbn [HasLabel Store_Schema]. unfold Schema_HasLabel, entryLocked. destruct (s_catalogue s !! set) as [e|]; [|done]. by rewrite bool_decide_eq_true.
Qed.

Lemma pred_compared set : set <> [] -> forall e, pred_ok set (Some (Store_Schema s)) e -> forall l, l ∈ compared e -> l ∈ se_Labels (entryLocked set s).
Proof.
  intros Hset. apply (mql_Expr_ind (fun e => pred_ok set (Some (Store_Schema s)) e -> forall l, l ∈ compared e -> l ∈ se_Labels (entryLocked set s))).
  intros ands ors nt eq ne il m nm has missing Hands Hors Hnt Hok.
  assert (Hlist : forall es, Forall (fun e => pred_ok set (Some (Store_Schema s)) e -> forall l, l ∈ compared e -> l ∈ se_Labels (entryLocked set s)) es ->
            Forall (pred_ok set (Some (Store_Schema s))) es -> forall l, l ∈ ⋃ map compared es -> l ∈ se_Labels (entryLocked set s)).
  { intros es Hes Hall l (X & (e & -> & He)%list_elem_of_fmap & Hl)%elem_of_union_list.
    exact (proj1 (Forall_forall _ _) Hes e He (proj1 (Forall_forall _ _) Hall e He) l Hl). }
  assert (Hknown : forall l, known_label set (Some (Store_Schema s)) l -> l ∈ se_Labels (entryLocked set s)) by (intros l [_ Hl]; by apply schema_label, Hl).
  inversion Hok as [es Hne Hall|es Hne Hall|e He|c [Hc _]|c [Hc _]|i [Hc _]|x [Hc _]|x [Hc _]|c Hc|c Hc]; subst.
  - destruct ands as [|e0 es]; [done|]. exact (Hlist _ Hands Hall).
  - destruct ors as [|e0 es]; [done|]. exact (Hlist _ Hors Hall).
  - exact (Hnt He).
  - intros l Hl. cbn in Hl. assert (l = c_Label c) as -> by set_solver. by apply Hknown.
  - intros l Hl. cbn in Hl. assert (l = c_Label c) as -> by set_solver. by apply Hknown.
  - intros l Hl. cbn in Hl. assert (l = in_Label i) as -> by set_solver. by apply Hknown.
  - intros l Hl. cbn in Hl. assert (l = mx_Label x) as -> by set_solver. by apply Hknown.
  - intros l Hl. cbn in Hl. assert (l = mx_Label x) as -> by set_solver. by apply Hknown.
  - intros l Hl. cbn in Hl. set_solver.
  - intros l Hl. cbn in Hl. set_solver.
Qed.

(** A data query validation accepts. *)
Definition data_query q : Prop :=
  (q_Kind q = [] \/ q_Kind q = KindQuery) /\
  (ValidateQuery (Some (Store_Schema s)) q (cf_MaxSeriesPerGraph (s_cfg s)) (cf_MaxDataPointsReceived (s_cfg s))).2 = None.

Lemma data_query_ok q : data_query q -> data_ok (Some (Store_Schema s)) q (cf_MaxSeriesPerGraph (s_cfg s)) (cf_MaxDataPointsReceived (s_cfg s)).
Proof.
  intros [Hkind Hv]. apply ValidateQuery_exact in Hv as [_ Hcase].
  destruct Hcase as [[_ Hd] | [E | [[[E | E] _] | [E _]]]]; [exact Hd|..];
    exfalso; destruct Hkind as [K | K]; rewrite K in E; vm_compute in E; discriminate E.
Qed.

Lemma data_query_names q : data_query q -> Forall (fun fe => fe_Field fe ∉ set_labels s q) (q_Select q) -> names_known s q.
Proof.
  intros [[Hset _] _ _ _ _ _ _ _ Hw (_ & _ & Hby) _]%data_query_ok Hfields. constructor; [|by eapply Forall_impl; [exact Hby|]; intros l [_ Hl]; apply schema_label | exact Hfields].
  destruct Hw as [He | (Hp & _)]; [|by apply pred_compared].
  intros l Hl. destruct (q_Where q) as [[] [] [] [] [] [] [] [] [] []]; try done.
Qed.
(** It goes to the executor of its format. *)
Lemma data_kind q : q_Kind q = [] \/ q_Kind q = KindQuery -> forall k, bytes_eqb [] k || bytes_eqb KindQuery k = false -> bytes_eqb (q_Kind q) k = false.
Proof. intros [-> | ->] k [? ?]%orb_false_iff; done. Qed.

Definition series_ceiling q : Z := narrower (cf_MaxSeriesPerGraph (s_cfg s)) (li_Series (q_Limits q)).
Definition points_ceiling q : Z := narrower (cf_MaxDataPointsReceived (s_cfg s)) (li_Points (q_Limits q)).


Lemma query_series q (req : QueryRequest) (ctx : list bool) : s_closed s = false -> data_query q -> q_Format q = [] \/ q_Format q = FormatTimeseries ->
  exists warns, Store_Query ctx (Some q) req s =
    (r ← runTimeseries ctx q req (plan_of s q (qr_FromMs req) (qr_ToMs req)) warns (series_ceiling q) (points_ceiling q); mret (Ok r)) s.
Proof.
  intros Hopen [Hkind Hv] Hformat. unfold Store_Query, mbind, SM_bind, get_store, mret, SM_ret. rewrite Hopen.
  destruct (ValidateQuery _ q _ _) as [warns [d|]]; [done|]. clear Hv. unfold query_valid, mbind, SM_bind, get_store, mret, SM_ret, plan_of.
  rewrite (data_kind q Hkind KindSets), (data_kind q Hkind KindFields), (data_kind q Hkind KindLabelKeys), (data_kind q Hkind KindLabels) by (by vm_compute).
  destruct (Store_plan s q (qr_FromMs req) (qr_ToMs req)) as [p planWarns].
  assert (Hf : bytes_eqb (q_Format q) FormatTable || bytes_eqb (q_Format q) FormatLogs = false /\ bytes_eqb (q_Format q) FormatHeatmap = false)
    by (destruct Hformat as [-> | ->]; by vm_compute).
  destruct Hf as [-> ->]. by eexists.
Qed.


Lemma found_readings q p found rows : names_known s q -> qp_fields p = drawn_fields s q ->
  Forall2 (fun row (x : gostr * gostr * Sample) => filed_as U s (q_From q) x.1.1 x.1.2 x.2 row) rows found ->
  concat (map (row_readings s q p) rows) = concat (map (sample_readings (q_By q) (drawn_fields s q)) (map snd found)).
Proof.
  intros Hk Hp. induction 1 as [|row x rows found Hf _ IH]; [done|]. cbn [map concat]. rewrite IH.
  rewrite (filed_readings U s _ _ _ _ _ Hf), Hp; [done | apply Hs | apply Hs | apply (sv_sound _ _ _ _ Hs) | apply Hk | rewrite Hp; by apply drawn_names].
Qed.

Lemma found_in_time q rows found : Forall2 (fun row (x : gostr * gostr * Sample) => filed_as U s (q_From q) x.1.1 x.1.2 x.2 row) rows found ->
  StronglySorted (time_le false) rows -> StronglySorted (fun a b => TSMs a <= TSMs b) (map snd found).
Proof.
  assert (Htime : forall row (x : gostr * gostr * Sample), filed_as U s (q_From q) x.1.1 x.1.2 x.2 row -> row_time row = TSMs x.2)
    by (intros row x [_ _ _ _ _ Hres _]; unfold row_time, row_ts; by rewrite (rs_ts _ _ _ Hres)).
  induction 1 as [|row x rows found Hf Hrest IH]; intros Hsorted; [constructor|]. inversion Hsorted as [|? ? Htail Hhead]; subst. cbn [map]. constructor; [by apply IH|].
  clear -Htime Hf Hrest Hhead. induction Hrest as [|row' x' rows found Hf' _ IH]; [constructor|]. apply Forall_cons in Hhead as [Hle Hhead]. cbn [map].
  constructor; [|by apply IH]. unfold time_le in Hle. by rewrite (Htime _ _ Hf), (Htime _ _ Hf') in Hle.
Qed.

(** C27: a graph of a store that serves a map of samples is drawn from
    exactly the samples of the map that the query is about, in order of time
    when no two of the shards selected share an instant: one series for
    every combination of grouping values and field that occurs among the
    readings it takes of them, each with its readings in that order.  All
    their readings are taken, unless a ceiling stops it, and then it says
    which, and has taken exactly as many as points are allowed or drawn as
    many series as are allowed with one more to come.  The conditions are
    those of [Query_answers_samples]. *)
Theorem Query_draws_samples q (req : QueryRequest) (ctx : list bool) :
  s_closed s = false -> Forall (eq false) ctx -> in_i64 (qr_FromMs req) -> in_i64 (qr_ToMs req) ->
  data_query q -> q_Format q = [] \/ q_Format q = FormatTimeseries -> Forall (fun fe => fe_Field fe ∉ set_labels s q) (q_Select q) ->
  exists (resp : QueryResponse) (s' : Store) (found : list Sample) (acc : gmap gostr seriesAcc) (taken rest : list reading),
    found ≡ₚ map snd (base.filter (fun x => asked q (qr_FromMs req) (qr_ToMs req) x = true) (map_to_list W)) /\
    ((shardsFor s (q_From q) (qr_FromMs req) (qr_ToMs req)).2 = false -> StronglySorted (fun a b => TSMs a <= TSMs b) found) /\
    Store_Query ctx (Some q) req s = (Ok (Ok resp), s') /\
    concat (map (sample_readings (q_By q) (drawn_fields s q)) found) = taken ++ rest /\
    rs_Series resp = map (wire_series req (query_window q req)) (by_name acc) /\
    (forall k, points_of acc k = keyed (q_By q) k taken) /\
    (forall k, is_Some (acc !! k) <-> k ∈ map (rd_key (q_By q)) taken) /\
    (forall k a, acc !! k = Some a -> k = seriesKey (sa_labels a) (q_By q) (rf_label (sa_field a))) /\
    rs_Truncated resp = negb (is_none (rs_Error resp)) /\
    match rs_Error resp with
    | None => rest = []
    | Some g => exists x rest', rest = x :: rest' /\ stopped (q_By q) (series_ceiling q) (points_ceiling q) taken acc x g
    end.
Proof.
  intros Hopen Hctx Hfrom Hto Hq Hformat Hfields. pose proof (data_query_names q Hq Hfields) as Hk.
  destruct (query_series q req ctx Hopen Hq Hformat) as (warns & ->). set (p := plan_of s q (qr_FromMs req) (qr_ToMs req)).
  pose proof (served_ready q _ _ ctx Hk Hctx Hfrom Hto) as Hready.
  destruct (runTimeseries_exact s A q req ctx warns (series_ceiling q) (points_ceiling q) Hready) as (resp & s' & acc & taken & rest & Hrun & Hser & Hall & Hpts & Hkeys & Hself & _ & _ & Htr & Herr).
  destruct (plan_samples q (qr_FromMs req) (qr_ToMs req) Hk) as (found & Hperm & Hfound). fold p in Hrun, Hall, Hfound.
  assert (Hp : qp_fields p = drawn_fields s q) by apply plan_fields. rewrite (found_readings q p found _ Hk Hp Hfound) in Hall.
  exists resp, s', (map snd found), acc, taken, rest. split; [by apply (fmap_Permutation snd)|]. split.
  { intros Hov. assert (Hov' : qp_overlapping p = false).
    { unfold p, plan_of, Store_plan. destruct (shardsFor _ _ _ _) as [? o]. cbn [snd] in Hov. subst o. by destruct (buildExpr _ _ _) as [[[? ?] ?] ?]. }
    pose proof (plan_rows_in_time s A q (qr_FromMs req) (qr_ToMs req) (wanted s q) served_shelved Hov') as Hsorted. fold p in Hsorted.
    assert (Hfwd : qp_reverse p = false).
    { unfold p, plan_of, Store_plan. destruct (shardsFor _ _ _ _). destruct (buildExpr _ _ _) as [[[? ?] ?] ?]. destruct Hformat as [-> | ->]; by vm_compute. }
    rewrite Hfwd in Hsorted. exact (found_in_time q _ found Hfound Hsorted). }
  unfold mbind, SM_bind, mret, SM_ret. rewrite Hrun. by split_and!.
Qed.
End Answers.

(** ** Witnesses: queries over the two samples of [pair_request] *)

(** [SELECT v FROM cpu WHERE host != "b" BY host], in a format. *)
Definition pair_query (format : gostr) : MqlAst.Query :=
  {| q_Kind := KindQuery; q_From := cpu; q_Select := [{| fe_Field := bs "v"; fe_Histogram := []; fe_As := []; fe_Modifiers := no_modifiers |}];
     q_Where := NeE {| c_Label := host; c_Value := bs "b"; c_Literal := false |}; q_By := [host]; q_EveryMs := None;
     q_Format := format; q_Limits := no_limits; q_Label := [] |}.
Definition pair_query_request : QueryRequest :=
  {| qr_FromMs := 1699999999000; qr_ToMs := 1700000001000; qr_MaxPoints := 100; qr_IntervalMs := 1000; qr_DisableSafety := false; qr_FromAlert := false |}.

Lemma pair_data_query format : format = FormatTable \/ format = FormatTimeseries -> data_query pair_run.2 (pair_query format).
Proof. intros [-> | ->]; (split; [by right | vm_compute; reflexivity]). Qed.

Lemma pair_fields format : Forall (fun fe => fe_Field fe ∉ set_labels pair_run.2 (pair_query format)) (q_Select (pair_query format)).
Proof. constructor; [|constructor]. cbn [fe_Field]. refine (bool_decide_unpack _ _). vm_compute. exact I. Qed.

Lemma pair_asked format : map snd (base.filter (fun x => asked (pair_query format) 1699999999000 1700000001000 x = true) (map_to_list pair_map)) = [sample_a].
Proof. vm_compute. reflexivity. Qed.


Lemma Query_draws_samples_witness :
  exists resp s' acc, Store_Query [] (Some (pair_query FormatTimeseries)) pair_query_request pair_run.2 = (Ok (Ok resp), s') /\
    rs_Series resp = map (wire_series pair_query_request (query_window (pair_query FormatTimeseries) pair_query_request)) (by_name acc) /\
    (rs_Error resp = None -> points_of acc (seriesKey {[host := bs "a"]} [host] (bs "v")) = [{| p_Value := of_int 1; p_TSMs := 1700000000000 |}]).
Proof.
  destruct pair_served as (A & Hserved).
  destruct (Query_draws_samples pair_written pair_run.2 A pair_map Hserved (pair_query FormatTimeseries) pair_query_request [])
    as (resp & s' & found & acc & taken & rest & Hfound & _ & Hrun & Hall & Hser & Hpts & _ & _ & _ & Hwhy);
    [vm_compute; reflexivity | constructor | by vm_compute | by vm_compute | apply pair_data_query; by right | by right | apply pair_fields |].
  change (qr_FromMs pair_query_request) with 1699999999000 in Hfound. change (qr_ToMs pair_query_request) with 1700000001000 in Hfound.
  rewrite pair_asked in Hfound. apply Permutation_singleton_r in Hfound. subst found.
  exists resp, s', acc. split; [exact Hrun|]. split; [exact Hser|]. intros Hnone. rewrite Hnone in Hwhy. subst rest. rewrite app_nil_r in Hall.
  rewrite Hpts, <- Hall. vm_compute. reflexivity.
Defined.
