(* ===== verification/RenderProofs.v ===== *)
(** * RenderProofs: what the downsampling walk guarantees

    Strictly increasing output times, extrema that survive the reduction,
    no value that no sample carried, and no line drawn across a gap. *)

From Stdlib Require Import ZArith Lia Bool Sorting.Sorted.
From Stdlib Require Import Floats.SpecFloat.
From S2P Require Import Prelude Float64 Render.

Definition o_lt (a b : Output) : Prop := o_TSMs a < o_TSMs b.

(** ** Sorted lists *)

Lemma SS_app {A} (R : A -> A -> Prop) l k :
  StronglySorted R l -> StronglySorted R k -> (forall x y, x ∈ l -> y ∈ k -> R x y) -> StronglySorted R (l ++ k).
Proof.
  induction 1 as [|a l Hs IH Ha]; intros Hk Hlk; [done|]. cbn [app]. constructor.
  - apply IH; [done|]. intros x y Hx. apply Hlk. by right.
  - apply Forall_app. split; [done|]. apply Forall_forall. intros y Hy. apply Hlk; [left|done].
Qed.

Lemma SS_single {A} (R : A -> A -> Prop) (x : A) : StronglySorted R [x].
Proof. repeat constructor. Qed.

Lemma SS_app_inv {A} (R : A -> A -> Prop) l k :
  StronglySorted R (l ++ k) -> StronglySorted R l /\ StronglySorted R k /\ forall x y, x ∈ l -> y ∈ k -> R x y.
Proof.
  induction l as [|a l IH]; cbn [app]; intros Hs.
  { split; [constructor|]. split; [done|]. by intros x y ?%not_elem_of_nil. }
  apply StronglySorted_inv in Hs as [Hs Ha]. destruct (IH Hs) as (H1 & H2 & H3).
  apply Forall_app in Ha as [Ha1 Ha2]. split; [by constructor|]. split; [done|].
  intros x y [->|Hx]%elem_of_cons Hy; [by apply (proj1 (Forall_forall _ _) Ha2)|by apply H3].
Qed.

Lemma sorted_last_max (l : list Z) m :
  StronglySorted Z.lt l -> last l = Some m -> m ∈ l /\ forall n, n ∈ l -> n <= m.
Proof.
  intros Hs Hl. apply last_Some in Hl as [l' ->]. split; [rewrite elem_of_app; right; left|].
  intros n [Hn|Hn]%elem_of_app; [|apply list_elem_of_singleton in Hn; lia].
  apply SS_app_inv in Hs as (_ & _ & Hlt). specialize (Hlt n m Hn). assert (n < m); [|lia]. apply Hlt. left.
Qed.

Lemma SS_filter (P : Z -> bool) (l : list Z) :
  StronglySorted Z.lt l -> StronglySorted Z.lt (filter (fun n => P n = true) l).
Proof.
  induction 1 as [|a l Hs IH Ha]; [constructor|]. rewrite filter_cons. case_decide; [|done].
  constructor; [done|]. apply Forall_forall. intros x [_ Hx]%list_elem_of_filter.
  by apply (proj1 (Forall_forall _ _) Ha).
Qed.

(** ** One window *)

Section Emit.
(** The null that survives in a slot: the last one that falls in it. *)
Definition slot_of (P : Z -> bool) (nulls : list Z) : Z :=
  default (-1) (last (filter (fun n => P n = true) nulls)).
Definition is_mid (lo hi n : Z) : bool := (lo <? n) && (n <? hi).

Lemma slot_of_snoc P l n : slot_of P (l ++ [n]) = if P n then n else slot_of P l.
Proof.
  unfold slot_of. rewrite filter_app, filter_cons, filter_nil.
  destruct (P n); [rewrite decide_True by done; by rewrite last_snoc | rewrite decide_False by done; by rewrite app_nil_r].
Qed.

Lemma classify_slots lo hi nulls :
  lo <= hi ->
  foldl (classify lo hi) no_slots nulls
  = {| sl_before := slot_of (fun n => n <? lo) nulls; sl_mid := slot_of (is_mid lo hi) nulls;
       sl_after := slot_of (fun n => hi <? n) nulls |}.
Proof.
  intros Hlh. induction nulls as [|n nulls IH] using rev_ind; [done|].
  rewrite foldl_app, IH, !slot_of_snoc. cbn [foldl]. unfold classify, is_mid.
  cbn [sl_before sl_mid sl_after].
  destruct (n <? lo) eqn:E1; bsplit.
  - rewrite (proj2 (Z.ltb_ge lo n)), (proj2 (Z.ltb_ge hi n)) by lia. done.
  - destruct (hi <? n) eqn:E2; bsplit.
    + rewrite (proj2 (Z.ltb_ge n hi)) by lia. by rewrite andb_false_r.
    + destruct ((lo <? n) && (n <? hi)); done.
Qed.

Lemma slot_spec P nulls :
  StronglySorted Z.lt nulls ->
  (slot_of P nulls = -1 /\ forall n, n ∈ nulls -> P n = false) \/
  (slot_of P nulls ∈ nulls /\ P (slot_of P nulls) = true /\
   forall n, n ∈ nulls -> P n = true -> n <= slot_of P nulls).
Proof.
  intros Hs. unfold slot_of. destruct (last (filter (fun n => P n = true) nulls)) as [m|] eqn:E.
  - right. cbn [default from_option]. change (id m) with m.
    destruct (sorted_last_max _ _ (SS_filter P nulls Hs) E) as [Hin Hmax].
    apply list_elem_of_filter in Hin as [HP Hin]. split; [done|]. split; [done|].
    intros n Hn HPn. apply Hmax. by apply list_elem_of_filter.
  - left. split; [done|]. intros n Hn. destruct (P n) eqn:EP; [|done]. exfalso.
    apply last_None in E. assert (n ∈ filter (fun n => P n = true) nulls) as Hin by (by apply list_elem_of_filter).
    rewrite E in Hin. by apply not_elem_of_nil in Hin.
Qed.

(** A break at [n] is drawn: a null stands at or after it, before every
    later real point. *)
Definition shown (out : list Output) (n : Z) : Prop :=
  exists m, null_at m ∈ out /\ n <= m /\
    forall o, o ∈ out -> o_Null o = false -> n < o_TSMs o -> m < o_TSMs o.

(** The pieces of a window's output. *)
Definition opt_null (n : Z) : list Output := if -1 <? n then [null_at n] else [].

Lemma opt_null_elem o n : o ∈ opt_null n <-> o = null_at n /\ -1 < n.
Proof.
  unfold opt_null. destruct (-1 <? n) eqn:E; bsplit.
  - rewrite list_elem_of_singleton. split; [by intros -> | tauto].
  - split; [by intros ?%not_elem_of_nil | lia].
Qed.
Lemma opt_null_sorted n : StronglySorted o_lt (opt_null n).
Proof. unfold opt_null. destruct (_ <? _); repeat constructor. Qed.

(** The two extrema in chronological order. *)
Definition first_ext (wMin wMax : Point) : Point := if p_TSMs wMin <? p_TSMs wMax then wMin else wMax.
Definition second_ext (wMin wMax : Point) : Point := if p_TSMs wMin <? p_TSMs wMax then wMax else wMin.
Definition real_of (p : Point) : Output := real (p_TSMs p) (p_Value p).

Lemma emitWindow_shape wMin wMax nulls :
  let a := first_ext wMin wMax in
  let b := second_ext wMin wMax in
  p_TSMs a <= p_TSMs b /\
  emitWindow wMin wMax true nulls
  = opt_null (slot_of (fun n => n <? p_TSMs a) nulls) ++ [real_of a] ++
    opt_null (slot_of (is_mid (p_TSMs a) (p_TSMs b)) nulls) ++
    (if p_TSMs a <? p_TSMs b then [real_of b] else []) ++
    opt_null (slot_of (fun n => p_TSMs b <? n) nulls).
Proof.
  cbv zeta. unfold emitWindow, first_ext, second_ext. cbn [negb].
  destruct (p_TSMs wMin <? p_TSMs wMax) eqn:E1; bsplit.
  - rewrite (proj2 (Z.ltb_ge (p_TSMs wMax) (p_TSMs wMin))) by lia.
    split; [lia|]. rewrite classify_slots by lia. cbn [sl_before sl_mid sl_after].
    rewrite (proj2 (Z.ltb_lt (p_TSMs wMin) (p_TSMs wMax))) by lia. done.
  - split; [lia|]. destruct (p_TSMs wMax <? p_TSMs wMin) eqn:E2; bsplit.
    + rewrite classify_slots by lia. done.
    + assert (p_TSMs wMin = p_TSMs wMax) as -> by lia. rewrite classify_slots by lia. done.
Qed.

Section Window.
Context (wMin wMax : Point) (nulls : list Z) (L U : Z).
Let a := first_ext wMin wMax.
Let b := second_ext wMin wMax.
Hypothesis (Hsorted : StronglySorted Z.lt nulls).
Hypothesis (Hnulls : forall n, n ∈ nulls -> 0 < n /\ L < n < U).
Hypothesis (HL : L < p_TSMs wMin /\ L < p_TSMs wMax).
Hypothesis (HU : p_TSMs wMin < U /\ p_TSMs wMax < U).
Hypothesis (Hsame : p_TSMs wMin = p_TSMs wMax -> wMin = wMax).

Let out := emitWindow wMin wMax true nulls.

Lemma emit_sorted : StronglySorted o_lt out /\ forall o, o ∈ out -> L < o_TSMs o < U.
Proof.
  destruct (emitWindow_shape wMin wMax nulls) as [Hab Hshape]. fold a b in Hab, Hshape.
  assert (Ha : L < p_TSMs a < U) by (unfold a, first_ext; destruct (p_TSMs wMin <? p_TSMs wMax); lia).
  assert (Hb : L < p_TSMs b < U) by (unfold b, second_ext; destruct (p_TSMs wMin <? p_TSMs wMax); lia).
  unfold out. rewrite Hshape.
  assert (Hslot : forall P o, o ∈ opt_null (slot_of P nulls) ->
    exists n, o = null_at n /\ n ∈ nulls /\ P n = true).
  { intros P o [-> Hn]%opt_null_elem. destruct (slot_spec P nulls Hsorted) as [[E _]|(Hin & HP & _)]; [lia|].
    by exists (slot_of P nulls). }
  assert (Hbefore : forall o, o ∈ opt_null (slot_of (fun n => n <? p_TSMs a) nulls) -> L < o_TSMs o < p_TSMs a).
  { intros o Ho. apply Hslot in Ho as (n & -> & Hin & HP). bsplit. destruct (Hnulls n Hin). simpl. lia. }
  assert (Hmid : forall o, o ∈ opt_null (slot_of (is_mid (p_TSMs a) (p_TSMs b)) nulls) ->
    p_TSMs a < o_TSMs o < p_TSMs b).
  { intros o Ho. apply Hslot in Ho as (n & -> & Hin & HP). unfold is_mid in HP. bsplit. simpl. lia. }
  assert (Hafter : forall o, o ∈ opt_null (slot_of (fun n => p_TSMs b <? n) nulls) -> p_TSMs b < o_TSMs o < U).
  { intros o Ho. apply Hslot in Ho as (n & -> & Hin & HP). bsplit. destruct (Hnulls n Hin). simpl. lia. }
  assert (Hsnd : forall o, o ∈ (if p_TSMs a <? p_TSMs b then [real_of b] else []) ->
    o = real_of b /\ p_TSMs a < p_TSMs b).
  { intros o. destruct (p_TSMs a <? p_TSMs b) eqn:E; bsplit; [|by intros ?%not_elem_of_nil].
    intros ->%list_elem_of_singleton. done. }
  split.
  - repeat apply SS_app; try apply opt_null_sorted; try apply SS_single.
    + destruct (p_TSMs a <? p_TSMs b); [apply SS_single | constructor].
    + intros x y Hx Hy. apply Hsnd in Hx as [-> ?]. apply Hafter in Hy. unfold o_lt. simpl. lia.
    + intros x y Hx Hy. apply Hmid in Hx. unfold o_lt. apply elem_of_app in Hy as [Hy|Hy].
      * apply Hsnd in Hy as [-> ?]. simpl. lia.
      * apply Hafter in Hy. lia.
    + intros x y Hx Hy. apply list_elem_of_singleton in Hx as ->. unfold o_lt. simpl.
      rewrite !elem_of_app in Hy. destruct Hy as [Hy|[Hy|Hy]].
      * apply Hmid in Hy. lia.
      * apply Hsnd in Hy as [-> ?]. simpl. lia.
      * apply Hafter in Hy. lia.
    + intros x y Hx Hy. apply Hbefore in Hx. unfold o_lt. rewrite !elem_of_app in Hy.
      destruct Hy as [Hy|[Hy|[Hy|Hy]]].
      * apply list_elem_of_singleton in Hy as ->. simpl. lia.
      * apply Hmid in Hy. lia.
      * apply Hsnd in Hy as [-> ?]. simpl. lia.
      * apply Hafter in Hy. lia.
  - intros o. rewrite !elem_of_app. intros [Ho|[Ho|[Ho|[Ho|Ho]]]].
    + apply Hbefore in Ho. lia.
    + apply list_elem_of_singleton in Ho as ->. simpl. lia.
    + apply Hmid in Ho. lia.
    + apply Hsnd in Ho as [-> ?]. simpl. lia.
    + apply Hafter in Ho. lia.
Qed.

Lemma emit_reals o : o ∈ out -> o_Null o = false -> o = real_of wMin \/ o = real_of wMax.
Proof.
  destruct (emitWindow_shape wMin wMax nulls) as [Hab Hshape]. fold a b in Hab, Hshape.
  unfold out. rewrite Hshape, !elem_of_app.
  assert (Hext : o = real_of a \/ o = real_of b -> o = real_of wMin \/ o = real_of wMax).
  { unfold a, b, first_ext, second_ext. destruct (p_TSMs wMin <? p_TSMs wMax); tauto. }
  intros [Ho|[Ho|[Ho|[Ho|Ho]]]] Hn.
  - by apply opt_null_elem in Ho as [-> _].
  - apply list_elem_of_singleton in Ho. tauto.
  - by apply opt_null_elem in Ho as [-> _].
  - destruct (p_TSMs a <? p_TSMs b); [|by apply not_elem_of_nil in Ho].
    apply list_elem_of_singleton in Ho. tauto.
  - by apply opt_null_elem in Ho as [-> _].
Qed.

Lemma emit_has_extrema : real_of wMin ∈ out /\ real_of wMax ∈ out.
Proof.
  destruct (emitWindow_shape wMin wMax nulls) as [Hab Hshape]. fold a b in Hab, Hshape.
  unfold out. rewrite Hshape.
  assert (Ha : forall l, real_of a ∈ opt_null (slot_of (fun n => n <? p_TSMs a) nulls) ++ [real_of a] ++ l).
  { intros l. rewrite !elem_of_app. right. left. left. }
  destruct (p_TSMs a <? p_TSMs b) eqn:E; bsplit.
  - assert (Hb : real_of b ∈ opt_null (slot_of (fun n => n <? p_TSMs a) nulls) ++ [real_of a] ++
        opt_null (slot_of (is_mid (p_TSMs a) (p_TSMs b)) nulls) ++ [real_of b] ++
        opt_null (slot_of (fun n => p_TSMs b <? n) nulls)).
    { rewrite !elem_of_app. do 3 right. left. left. }
    split; unfold a, b, first_ext, second_ext in *; destruct (p_TSMs wMin <? p_TSMs wMax); by auto.
  - assert (wMin = wMax) as Heq.
    { apply Hsame. unfold a, b, first_ext, second_ext in *.
      destruct (p_TSMs wMin <? p_TSMs wMax) eqn:E2; bsplit; lia. }
    assert (a = wMin) as -> by (unfold a, first_ext; rewrite <- Heq; by destruct (p_TSMs wMin <? p_TSMs wMin)).
    rewrite <- Heq. by split; apply (Ha _).
Qed.

Lemma emit_shown n :
  n ∈ nulls -> n <> p_TSMs wMin -> n <> p_TSMs wMax -> shown out n.
Proof.
  intros Hn Hmin Hmax. destruct (emitWindow_shape wMin wMax nulls) as [Hab Hshape]. fold a b in Hab, Hshape.
  assert (Hna : n <> p_TSMs a) by (unfold a, first_ext; by destruct (p_TSMs wMin <? p_TSMs wMax)).
  assert (Hnb : n <> p_TSMs b) by (unfold b, second_ext; by destruct (p_TSMs wMin <? p_TSMs wMax)).
  assert (Hreal : forall o, o ∈ out -> o_Null o = false -> o_TSMs o = p_TSMs a \/ o_TSMs o = p_TSMs b).
  { intros o Ho Hf. destruct (emit_reals o Ho Hf) as [-> | ->]; unfold a, b, first_ext, second_ext;
      destruct (p_TSMs wMin <? p_TSMs wMax); simpl; tauto. }
  assert (Hslot : forall P, P n = true ->
    opt_null (slot_of P nulls) = [null_at (slot_of P nulls)] /\ n <= slot_of P nulls /\ P (slot_of P nulls) = true).
  { intros P HP. destruct (slot_spec P nulls Hsorted) as [[_ E]|(Hin & HP' & Hle)].
    - specialize (E n Hn). congruence.
    - destruct (Hnulls _ Hin). unfold opt_null. rewrite (proj2 (Z.ltb_lt _ _)) by lia.
      split; [done|]. split; [by apply Hle | done]. }
  destruct (Z.lt_trichotomy n (p_TSMs a)) as [Hlt|[?|Hgt]]; [| lia |].
  - destruct (Hslot (fun n => n <? p_TSMs a)) as (E & Hle & HP); [by apply Z.ltb_lt|]. bsplit.
    eexists. split; [|split; [exact Hle|]].
    + unfold out. rewrite Hshape, E, !elem_of_app. left. left.
    + intros o Ho Hf _. destruct (Hreal o Ho Hf); lia.
  - destruct (Z.lt_trichotomy n (p_TSMs b)) as [Hlt|[?|Hgt']]; [| lia |].
    + destruct (Hslot (is_mid (p_TSMs a) (p_TSMs b))) as (E & Hle & HP).
      { unfold is_mid. by rewrite (proj2 (Z.ltb_lt _ _)), (proj2 (Z.ltb_lt _ _)) by lia. }
      unfold is_mid in HP. bsplit. eexists. split; [|split; [exact Hle|]].
      * unfold out. rewrite Hshape, E, !elem_of_app. do 2 right. left. left.
      * intros o Ho Hf Hno. unfold is_mid in *. destruct (Hreal o Ho Hf); lia.
    + destruct (Hslot (fun n => p_TSMs b <? n)) as (E & Hle & HP); [by apply Z.ltb_lt|]. bsplit.
      eexists. split; [|split; [exact Hle|]].
      * unfold out. rewrite Hshape, E, !elem_of_app. do 4 right. left.
      * intros o Ho Hf Hno. destruct (Hreal o Ho Hf); lia.
Qed.
End Window.
End Emit.

(** ** The loop *)

(** Times and widths a query can carry: nothing near the ends of
    [int64]. *)
Definition tmax : Z := 2305843009213693952.
Definition ts_ok (t : Z) : Prop := 0 < t <= tmax.

Definition adjacent (raws : list Z) (a b : Z) : Prop := exists l1 l2, raws = l1 ++ a :: b :: l2.

(** [o1] and [o2] bound a processed sample from below and above, at most a
    window away. *)
Definition bracketed (window : Z) (p : Point) (out : list Output) : Prop :=
  exists lo hi, lo ∈ out /\ hi ∈ out /\ o_Null lo = false /\ o_Null hi = false /\
    fltb (p_Value p) (o_Value lo) = false /\ fltb (o_Value hi) (p_Value p) = false /\
    Z.abs (o_TSMs lo - p_TSMs p) <= window /\ Z.abs (o_TSMs hi - p_TSMs p) <= window.

Section Loop.
Context (spec : Spec) (window : Z).
Hypothesis (Hgap : 0 <= sp_GapMs spec <= tmax) (Hwin : 0 <= window <= tmax).

(** [acc]: the samples drawn so far; [raws]: the distinct raw times. *)
Record winv (st : walk) (acc : list Point) (raws : list Z) : Prop := {
  wi_last : w_last st = default (-1) (last raws);
  wi_raws : StronglySorted Z.lt raws /\ forall t, t ∈ raws -> ts_ok t;
  wi_acc : forall p, p ∈ acc -> p_TSMs p ∈ raws;
  wi_out : StronglySorted o_lt (w_out st);
  wi_have : w_haveExtrema st = w_haveWindow st /\
    (w_haveExtrema st = false -> w_out st = [] /\ acc = []);
  wi_ext : w_haveExtrema st = true ->
    w_min st ∈ acc /\ w_max st ∈ acc /\ w_start st ∈ raws /\
    w_start st <= p_TSMs (w_min st) <= w_start st + window /\
    w_start st <= p_TSMs (w_max st) <= w_start st + window /\
    (p_TSMs (w_min st) = p_TSMs (w_max st) -> w_min st = w_max st) /\
    (forall o, o ∈ w_out st -> 0 < o_TSMs o < w_start st);
  wi_nulls : StronglySorted Z.lt (w_nulls st) /\
    forall n, n ∈ w_nulls st -> 0 < n < w_last st /\ (n ∉ raws) /\ forall o, o ∈ w_out st -> o_TSMs o < n;
  wi_cover : forall p, p ∈ acc -> (bracketed window p (w_out st)) \/
    (w_haveExtrema st = true /\ w_start st <= p_TSMs p <= w_start st + window /\
     fltb (p_Value p) (p_Value (w_min st)) = false /\ fltb (p_Value (w_max st)) (p_Value p) = false);
  wi_reals : forall o, o ∈ w_out st -> o_Null o = false -> exists p, p ∈ acc /\ o = real_of p;
  wi_gaps : 0 < sp_GapMs spec -> forall a b, adjacent raws a b -> sp_GapMs spec < b - a ->
    b - 1 ∈ w_nulls st \/ shown (w_out st) (b - 1);
}.

Lemma winv0 : winv walk0 [] [].
Proof.
  split; try done.
  - split; [constructor|]. by intros t ?%not_elem_of_nil.
  - by intros p ?%not_elem_of_nil.
  - constructor.
  - split; [constructor|]. by intros n ?%not_elem_of_nil.
  - by intros p ?%not_elem_of_nil.
  - by intros o ?%not_elem_of_nil.
  - intros _ a b (l1 & l2 & E). by destruct l1.
Qed.

Lemma last_raw st acc raws : winv st acc raws -> raws <> [] ->
  w_last st ∈ raws /\ forall t, t ∈ raws -> t <= w_last st.
Proof.
  intros Hi Hne. destruct (wi_raws _ _ _ Hi) as [Hs _]. rewrite (wi_last _ _ _ Hi).
  destruct (last raws) as [m|] eqn:E; [|by apply last_None in E].
  by apply sorted_last_max.
Qed.

Lemma adjacent_snoc raws t a b :
  adjacent (raws ++ [t]) a b -> adjacent raws a b \/ (b = t /\ last raws = Some a).
Proof.
  intros (l1 & l2 & E). destruct l2 as [|x l2 _] using rev_ind.
  - right. change (l1 ++ [a; b]) with (l1 ++ ([a] ++ [b])) in E. rewrite app_assoc in E.
    apply app_inj_tail in E as [-> ->]. by rewrite last_snoc.
  - left. exists l1, l2. rewrite app_comm_cons, app_comm_cons, app_assoc in E.
    by apply app_inj_tail in E as [-> _].
Qed.

(** Stages 1 and 2 on a sample later than all before it. *)
Lemma winv_raw st acc raws ts :
  winv st acc raws -> ts_ok ts -> (raws = [] \/ w_last st < ts) ->
  winv (set_raw ts (gap_nulls spec (w_last st) ts (w_nulls st)) st) acc (raws ++ [ts]).
Proof.
  intros Hi Hts Hlater. pose proof Hi as [].
  assert (Hle : forall t, t ∈ raws -> t < ts).
  { intros t Ht. destruct Hlater as [->|Hlater]; [by apply not_elem_of_nil in Ht|].
    destruct (last_raw _ _ _ Hi) as [_ Hmax]; [by intros ->; apply not_elem_of_nil in Ht|].
    specialize (Hmax t Ht). lia. }
  assert (Hlast : (raws = [] /\ w_last st = -1) \/ (w_last st ∈ raws /\ ts_ok (w_last st) /\ w_last st < ts)).
  { destruct raws as [|r0 raws0]; [by left|]. right. destruct (last_raw _ _ _ Hi) as [Hin _]; [done|].
    split; [done|]. split; [by apply wi_raws0|]. by apply Hle. }
  assert (Hnew : gap_nulls spec (w_last st) ts (w_nulls st) = w_nulls st \/
    (gap_nulls spec (w_last st) ts (w_nulls st) = w_nulls st ++ [ts - 1] /\ w_last st ∈ raws /\
     0 < sp_GapMs spec < ts - w_last st /\ ts_ok (w_last st))).
  { unfold gap_nulls. destruct (negb (w_last st =? -1) && negb (sp_GapMs spec =? 0) &&
      (sp_GapMs spec <? i64 (ts - w_last st))) eqn:E; [|by left]. bsplit.
    destruct Hlast as [[_ ?]|(Hin & Hok & Hlt)]; [lia|]. unfold ts_ok, tmax in *.
    rewrite i64_id in H0 by mlia. rewrite i64_id by mlia. right. split; [done|]. split; [done|]. lia. }
  split; cbn [set_raw w_out w_last w_haveWindow w_haveExtrema w_min w_max w_start w_nulls]; try done.
  - by rewrite last_snoc.
  - split.
    + apply SS_app; [apply wi_raws0|apply SS_single|]. intros x y Hx ->%list_elem_of_singleton. by apply Hle.
    + intros t [Ht| ->%list_elem_of_singleton]%elem_of_app; [by apply wi_raws0 | done].
  - intros p Hp. rewrite elem_of_app. left. by apply wi_acc0.
  - intros Hh. destruct (wi_ext0 Hh) as (? & ? & ? & ?). split; [done|]. split; [done|].
    split; [rewrite elem_of_app; by left | done].
  - destruct wi_nulls0 as [Hs Hn].
    assert (Hold : forall n, n ∈ w_nulls st -> 0 < n < ts /\ (n ∉ raws ++ [ts]) /\ forall o, o ∈ w_out st -> o_TSMs o < n).
    { intros n Hin. destruct (Hn n Hin) as (H1 & H2 & H3).
      assert (w_last st < ts) by (destruct Hlast as [[_ ?]|(_ & _ & ?)]; lia).
      split; [lia|]. split; [|done]. rewrite elem_of_app. intros [?|E%list_elem_of_singleton]; [done|lia]. }
    destruct Hnew as [-> | (-> & Hin & Hg & Hok)]; [by split|].
    unfold ts_ok in *. split.
    + apply SS_app; [done|apply SS_single|]. intros x y Hx ->%list_elem_of_singleton.
      destruct (Hn x Hx) as (? & _). lia.
    + intros n [Hn'| ->%list_elem_of_singleton]%elem_of_app; [by apply Hold|].
      split; [lia|]. split.
      * rewrite elem_of_app. intros [Hr|E%list_elem_of_singleton]; [|lia].
        destruct (last_raw _ _ _ Hi) as [_ Hmax]; [by intros ->; apply not_elem_of_nil in Hr|].
        specialize (Hmax _ Hr). lia.
      * intros o Ho. destruct (w_haveExtrema st) eqn:Eh.
        -- destruct (wi_ext0 eq_refl) as (_ & _ & Hst & _ & _ & _ & Hout).
           destruct (last_raw _ _ _ Hi) as [_ Hmax]; [by intros ->; apply not_elem_of_nil in Hst|].
           specialize (Hmax _ Hst). specialize (Hout _ Ho). lia.
        -- destruct (proj2 wi_have0 eq_refl) as [E _]. rewrite E in Ho. by apply not_elem_of_nil in Ho.
  - intros Hpos a b [Hadj|[-> Hl]]%adjacent_snoc Hg.
    + destruct (wi_gaps0 Hpos a b Hadj Hg) as [Hin|?]; [left|by right].
      destruct Hnew as [-> | (-> & _)]; [done|]. rewrite elem_of_app. by left.
    + left. rewrite Hl in wi_last0. cbn in wi_last0. destruct Hlast as [[E _]|(_ & Hok & _)]; [by subst|].
      unfold gap_nulls. unfold ts_ok, tmax in *. rewrite !i64_id by mlia. rewrite wi_last0.
      rewrite (proj2 (Z.eqb_neq a (-1))), (proj2 (Z.eqb_neq _ 0)), (proj2 (Z.ltb_lt _ _)) by lia.
      cbn [negb andb]. rewrite elem_of_app. right. left.
Qed.

Definition low_edge (out : list Output) : Z := match last out with Some o => o_TSMs o | None => 0 end.

Lemma low_edge_max out : StronglySorted o_lt out -> forall o, o ∈ out -> o_TSMs o <= low_edge out.
Proof.
  intros Hs o Ho. unfold low_edge. destruct (last out) as [m|] eqn:E.
  - apply last_Some in E as [l ->]. apply SS_app_inv in Hs as (_ & _ & Hlt).
    apply elem_of_app in Ho as [Ho| ->%list_elem_of_singleton]; [|lia].
    assert (o_lt o m); [|unfold o_lt in *; lia]. apply Hlt; [done|left].
  - apply last_None in E. subst. by apply not_elem_of_nil in Ho.
Qed.

Lemma low_edge_below out x : 0 < x -> (forall o, o ∈ out -> o_TSMs o < x) -> low_edge out < x.
Proof.
  intros Hx Ho. unfold low_edge. destruct (last out) as [m|] eqn:E; [|done].
  apply Ho. apply last_Some in E as [l ->]. rewrite elem_of_app. right. left.
Qed.

Lemma bracketed_mono p out out' : (forall o, o ∈ out -> o ∈ out') -> bracketed window p out -> bracketed window p out'.
Proof. intros Hsub (lo & hi & ?). exists lo, hi. naive_solver. Qed.

Lemma shown_grow out more n :
  StronglySorted o_lt (out ++ more) -> shown out n -> shown (out ++ more) n.
Proof.
  intros Hs (m & Hm & Hle & Hr). exists m. split; [rewrite elem_of_app; by left|]. split; [done|].
  intros o Ho Hf Hn. apply elem_of_app in Ho as [Ho|Ho]; [by apply Hr|].
  apply SS_app_inv in Hs as (_ & _ & Hlt). apply (Hlt _ _ Hm Ho).
Qed.

Lemma shown_later out more n :
  (forall o, o ∈ out -> o_TSMs o < n) -> shown more n -> shown (out ++ more) n.
Proof.
  intros Hb (m & Hm & Hle & Hr). exists m. split; [rewrite elem_of_app; by right|]. split; [done|].
  intros o Ho Hf Hn. apply elem_of_app in Ho as [Ho|Ho]; [specialize (Hb o Ho); lia | by apply Hr].
Qed.

(** The output once the open window is flushed, at any moment later than
    everything seen. *)
Lemma flush_ok st acc raws U :
  winv st acc raws -> w_haveExtrema st = true ->
  (forall p, p ∈ acc -> p_TSMs p < U) -> w_last st <= U ->
  let out := w_out st ++ emitWindow (w_min st) (w_max st) true (w_nulls st) in
  StronglySorted o_lt out /\ (forall o, o ∈ out -> 0 < o_TSMs o < U) /\
  (forall p, p ∈ acc -> bracketed window p out) /\
  (forall o, o ∈ out -> o_Null o = false -> exists p, p ∈ acc /\ o = real_of p) /\
  (0 < sp_GapMs spec -> forall a b, adjacent raws a b -> sp_GapMs spec < b - a -> shown out (b - 1)).
Proof.
  intros Hi Hh HaccU Hlast out. pose proof Hi as [].
  destruct (wi_ext0 Hh) as (Hmin & Hmax & Hst & Hwmin & Hwmax & Hsame & Hout).
  destruct wi_nulls0 as [Hns Hn].
  assert (Hpos : forall p, p ∈ acc -> 0 < p_TSMs p).
  { intros p Hp. apply wi_acc0 in Hp. by apply wi_raws0 in Hp as [? _]. }
  set (Lo := low_edge (w_out st)).
  assert (HnL : forall n, n ∈ w_nulls st -> 0 < n /\ Lo < n < U).
  { intros n Hin. destruct (Hn n Hin) as (H1 & _ & H3). split; [lia|]. split; [|lia].
    apply low_edge_below; [lia | done]. }
  assert (HL : Lo < p_TSMs (w_min st) /\ Lo < p_TSMs (w_max st)).
  { split; (apply low_edge_below; [by apply Hpos|]); intros o Ho; specialize (Hout o Ho); lia. }
  assert (HU : p_TSMs (w_min st) < U /\ p_TSMs (w_max st) < U) by auto.
  destruct (emit_sorted (w_min st) (w_max st) (w_nulls st) Lo U Hns HnL HL HU) as [Hes Heb].
  destruct (emit_has_extrema (w_min st) (w_max st) (w_nulls st) Hsame) as [Hemin Hemax].
  assert (HLpos : 0 <= Lo).
  { unfold Lo, low_edge. destruct (last (w_out st)) as [m|] eqn:E; [|done].
    assert (m ∈ w_out st) as Hm by (apply last_Some in E as [l ->]; rewrite elem_of_app; right; left).
    specialize (Hout m Hm). lia. }
  assert (Hsorted : StronglySorted o_lt out).
  { apply SS_app; [done|done|]. intros x y Hx Hy. pose proof (low_edge_max _ wi_out0 x Hx).
    specialize (Heb y Hy). unfold o_lt, Lo in *. lia. }
  split; [done|]. split; [|split; [|split]].
  - intros o [Ho|Ho]%elem_of_app; [|specialize (Heb o Ho); lia].
    specialize (Hout o Ho). assert (p_TSMs (w_min st) < U) by auto. lia.
  - intros p Hp. destruct (wi_cover0 p Hp) as [Hc|(_ & Hr & Hlo & Hhi)].
    + eapply bracketed_mono; [|exact Hc]. intros o Ho. unfold out. rewrite elem_of_app. by left.
    + exists (real_of (w_min st)), (real_of (w_max st)). unfold out. rewrite !elem_of_app.
      split; [by right|]. split; [by right|]. do 2 (split; [done|]). split; [done|]. split; [done|]. simpl. lia.
  - intros o [Ho|Ho]%elem_of_app Hf; [by apply wi_reals0|].
    destruct (emit_reals (w_min st) (w_max st) (w_nulls st) Lo U HL HU o Ho Hf) as [-> | ->]; eauto.
  - intros Hpg a b Hadj Hgab. destruct (wi_gaps0 Hpg a b Hadj Hgab) as [Hin|Hs].
    + destruct (Hn _ Hin) as (_ & Hnr & Hno). apply shown_later; [done|].
      eapply (emit_shown (w_min st) (w_max st) (w_nulls st) Lo U); try done; intros E; apply Hnr; rewrite E; auto.
    + by apply shown_grow.
Qed.

Lemma winv_accumulate st acc raws v ts :
  winv st acc raws -> last raws = Some ts -> (forall p, p ∈ acc -> p_TSMs p < ts) ->
  winv (accumulate window st v ts) (acc ++ [{| p_Value := v; p_TSMs := ts |}]) raws.
Proof.
  intros Hi Hlast Hacc. pose proof Hi as [].
  assert (Hin : ts ∈ raws) by (apply last_Some in Hlast as [l ->]; rewrite elem_of_app; right; left).
  assert (Hts : ts_ok ts) by (by apply wi_raws0).
  assert (Hwl : w_last st = ts) by (by rewrite wi_last0, Hlast).
  set (pt := {| p_Value := v; p_TSMs := ts |}).
  assert (Haccn : forall p, p ∈ acc ++ [pt] -> p_TSMs p ∈ raws).
  { intros p [Hp| ->%list_elem_of_singleton]%elem_of_app; [by apply wi_acc0 | done]. }
  assert (Hvv : fltb v v = false) by apply fltb_irrefl.
  assert (Hpt : pt ∈ acc ++ [pt]) by (rewrite elem_of_app; right; left).
  assert (Hsub : forall p, p ∈ acc -> p ∈ acc ++ [pt]) by (intros p ?; rewrite elem_of_app; by left).
  destruct (w_haveExtrema st) eqn:Eh.
  2: { destruct (proj2 wi_have0 eq_refl) as [Eout ->]. destruct wi_have0 as [Ehw _].
       assert (accumulate window st v ts =
         {| w_out := []; w_last := ts; w_lastValue := w_lastValue st; w_isFirst := w_isFirst st;
            w_start := ts; w_haveWindow := true; w_min := pt; w_max := pt; w_haveExtrema := true;
            w_nulls := w_nulls st |}) as ->.
       { unfold accumulate. rewrite <- Ehw, Eh, Z.sub_diag. cbn [negb].
         assert ((window <? i64 0) = false) as -> by (apply Z.ltb_ge; rewrite i64_id by mlia; lia).
         by rewrite Eout, Hwl. }
       split; cbn [w_out w_last w_haveWindow w_haveExtrema w_min w_max w_start w_nulls]; try done.
       - by rewrite Hlast.
       - constructor.
       - intros _. split; [done|]. split; [done|]. split; [done|].
         split; [simpl; lia|]. split; [simpl; lia|]. split; [done|]. by intros o ?%not_elem_of_nil.
       - rewrite Hwl, Eout in wi_nulls0. done.
       - intros p ->%list_elem_of_singleton. right. split; [done|]. split; [simpl; lia|]. done.
       - by intros o ?%not_elem_of_nil.
       - rewrite Eout in wi_gaps0. done. }
  destruct wi_have0 as [Ehw _].
  destruct (wi_ext0 eq_refl) as (Hmin & Hmax & Hst & Hwmin & Hwmax & Hsame & Hout).
  assert (Hstok : ts_ok (w_start st)) by (by apply wi_raws0).
  assert (Hstart : w_start st < ts) by (specialize (Hacc _ Hmin); lia).
  assert (Hdiff : i64 (ts - w_start st) = ts - w_start st).
  { apply i64_id. unfold ts_ok, tmax in *. mlia. }
  destruct (window <? ts - w_start st) eqn:Ec; bsplit.
  - destruct (flush_ok st acc raws ts Hi Eh Hacc ltac:(lia)) as (F1 & F2 & F3 & F4 & F5).
    set (out := w_out st ++ emitWindow (w_min st) (w_max st) true (w_nulls st)) in *.
    assert (accumulate window st v ts =
      {| w_out := out; w_last := ts; w_lastValue := w_lastValue st; w_isFirst := w_isFirst st;
         w_start := ts; w_haveWindow := true; w_min := pt; w_max := pt; w_haveExtrema := true; w_nulls := [] |}) as ->.
    { unfold accumulate. rewrite <- Ehw, Eh, Hdiff. rewrite (proj2 (Z.ltb_lt _ _)) by lia. cbn [negb].
      by rewrite Hwl. }
    split; cbn [w_out w_last w_haveWindow w_haveExtrema w_min w_max w_start w_nulls]; try done.
    + by rewrite Hlast.
    + intros _. split; [done|]. split; [done|]. split; [done|]. split; [simpl; lia|]. split; [simpl; lia|].
      split; [done|]. exact F2.
    + split; [constructor|]. by intros n ?%not_elem_of_nil.
    + intros p [Hp| ->%list_elem_of_singleton]%elem_of_app; [left; by apply F3|].
      right. split; [done|]. split; [simpl; lia|]. done.
    + intros o Ho Hf. destruct (F4 o Ho Hf) as (p & Hp & ->). eauto.
    + intros Hpg a b Hadj Hg. right. exact (F5 Hpg a b Hadj Hg).
  - assert (accumulate window st v ts =
      {| w_out := w_out st; w_last := ts; w_lastValue := w_lastValue st; w_isFirst := w_isFirst st;
         w_start := w_start st; w_haveWindow := true;
         w_min := if fltb v (p_Value (w_min st)) then pt else w_min st;
         w_max := if fgtb v (p_Value (w_max st)) then pt else w_max st;
         w_haveExtrema := true; w_nulls := w_nulls st |}) as ->.
    { unfold accumulate. rewrite <- Ehw, Eh, Hdiff. rewrite (proj2 (Z.ltb_ge window (ts - w_start st))) by lia. cbn [negb].
      by rewrite Hwl. }
    set (mn := if fltb v (p_Value (w_min st)) then pt else w_min st).
    set (mx := if fgtb v (p_Value (w_max st)) then pt else w_max st).
    assert (Hmn : (mn = pt /\ fltb v (p_Value (w_min st)) = true) \/
                  (mn = w_min st /\ fltb v (p_Value (w_min st)) = false))
      by (unfold mn; destruct (fltb v (p_Value (w_min st))); auto).
    assert (Hmx : (mx = pt /\ fltb (p_Value (w_max st)) v = true) \/
                  (mx = w_max st /\ fltb (p_Value (w_max st)) v = false))
      by (unfold mx, fgtb; destruct (fltb (p_Value (w_max st)) v); auto).
    clearbody mn mx. pose proof (Hacc _ Hmin) as Hmint. pose proof (Hacc _ Hmax) as Hmaxt.
    split; cbn [w_out w_last w_haveWindow w_haveExtrema w_min w_max w_start w_nulls]; try done.
    + by rewrite Hlast.
    + intros _. split; [destruct Hmn as [[-> _]|[-> _]]; auto|].
      split; [destruct Hmx as [[-> _]|[-> _]]; auto|]. split; [done|].
      split; [destruct Hmn as [[-> _]|[-> _]]; simpl; lia|].
      split; [destruct Hmx as [[-> _]|[-> _]]; simpl; lia|]. split; [|done].
      destruct Hmn as [[-> _]|[-> _]], Hmx as [[-> _]|[-> _]]; simpl; try done; lia.
    + by rewrite Hwl in wi_nulls0.
    + intros p [Hp| ->%list_elem_of_singleton]%elem_of_app.
      * destruct (wi_cover0 p Hp) as [?|(_ & Hr & Hlo & Hhi)]; [by left|]. right.
        split; [done|]. split; [done|]. split.
        -- destruct Hmn as [[-> Hlt]|[-> _]]; [|done]. simpl.
           destruct (fltb (p_Value p) v) eqn:E; [|done]. by rewrite (fltb_trans _ _ _ E Hlt) in Hlo.
        -- destruct Hmx as [[-> Hlt]|[-> _]]; [|done]. simpl.
           destruct (fltb v (p_Value p)) eqn:E; [|done]. by rewrite (fltb_trans _ _ _ Hlt E) in Hhi.
      * right. split; [done|]. split; [simpl; lia|].
        destruct Hmn as [[-> _]|[-> ?]], Hmx as [[-> _]|[-> ?]]; simpl; by split.
    + intros o Ho Hf. destruct (wi_reals0 o Ho Hf) as (p & Hp & ->). eauto.
Qed.

(** ** The whole walk *)

(** The samples drawn, each at the value the stages give it. *)
Fixpoint drawn (last : Z) (isFirst : bool) (lastValue : f64) (pts : list Point) : list Point :=
  match pts with
  | [] => []
  | s :: rest =>
      let ts := p_TSMs s in
      if last =? ts then drawn ts isFirst lastValue rest
      else
        let '(val, (isFirst', lastValue')) := transform spec isFirst lastValue last ts (p_Value s) in
        match val with
        | None => drawn ts isFirst' lastValue' rest
        | Some v => {| p_Value := v; p_TSMs := ts |} :: drawn ts isFirst' lastValue' rest
        end
  end.

(** The distinct raw times. *)
Fixpoint distinct (last : Z) (pts : list Point) : list Z :=
  match pts with
  | [] => []
  | s :: rest => if last =? p_TSMs s then distinct (p_TSMs s) rest else p_TSMs s :: distinct (p_TSMs s) rest
  end.

Definition p_le (a b : Point) : Prop := p_TSMs a <= p_TSMs b.

Lemma winv_set_delta st acc raws f lv : winv st acc raws -> winv (set_delta f lv st) acc raws.
Proof. intros []. by split. Qed.

Lemma walk_inv pts : forall st acc raws,
  winv st acc raws -> StronglySorted p_le pts ->
  (forall p, p ∈ pts -> ts_ok (p_TSMs p) /\ (raws = [] \/ w_last st <= p_TSMs p)) ->
  (raws = [] -> w_last st = -1) ->
  winv (foldl (series_step spec window) st pts)
       (acc ++ drawn (w_last st) (w_isFirst st) (w_lastValue st) pts) (raws ++ distinct (w_last st) pts).
Proof.
  induction pts as [|s pts IH]; intros st acc raws Hi Hs Hok Hempty; [cbn; by rewrite !app_nil_r|].
  cbn [foldl drawn distinct]. apply StronglySorted_inv in Hs as [Hs Ha].
  destruct (Hok s) as [Hts Hle]; [left|].
  assert (Hrest : forall raws' (last' : Z), last' = p_TSMs s -> forall p, p ∈ pts ->
    ts_ok (p_TSMs p) /\ (raws' = ([] : list Z) \/ last' <= p_TSMs p)).
  { intros raws' last' -> p Hp. split; [apply Hok; by right|]. right.
    by apply (proj1 (Forall_forall _ _) Ha). }
  destruct (w_last st =? p_TSMs s) eqn:Edup; bsplit.
  - unfold series_step. rewrite Edup, Z.eqb_refl.
    assert (Hnulls : gap_nulls spec (p_TSMs s) (p_TSMs s) (w_nulls st) = w_nulls st).
    { unfold gap_nulls. rewrite Z.sub_diag, (i64_id 0) by mlia.
      rewrite (proj2 (Z.ltb_ge (sp_GapMs spec) 0)) by lia. by rewrite andb_false_r. }
    rewrite Hnulls. assert (set_raw (p_TSMs s) (w_nulls st) st = st) as -> by (rewrite <- Edup; by destruct st).
    rewrite <- Edup at 1 2. apply IH; [done|done| |done]. intros p Hp. by apply (Hrest raws (w_last st)).
  - assert (Hlater : raws = [] \/ w_last st < p_TSMs s) by (destruct Hle; [by left | right; lia]).
    pose proof (winv_raw st acc raws (p_TSMs s) Hi Hts Hlater) as Hraw.
    unfold series_step. rewrite (proj2 (Z.eqb_neq _ _)) by done.
    set (st1 := set_raw (p_TSMs s) (gap_nulls spec (w_last st) (p_TSMs s) (w_nulls st)) st) in *.
    destruct (transform spec (w_isFirst st) (w_lastValue st) (w_last st) (p_TSMs s) (p_Value s))
      as [val [f lv]].
    assert (Hadd : raws ++ p_TSMs s :: distinct (p_TSMs s) pts = (raws ++ [p_TSMs s]) ++ distinct (p_TSMs s) pts)
      by (by rewrite <- app_assoc).
    rewrite Hadd. destruct val as [v|].
    + assert (Hadd2 : forall l, acc ++ {| p_Value := v; p_TSMs := p_TSMs s |} :: l
                      = (acc ++ [{| p_Value := v; p_TSMs := p_TSMs s |}]) ++ l) by (intros l; by rewrite <- app_assoc).
      rewrite Hadd2. apply (IH (accumulate window (set_delta f lv st1) v (p_TSMs s))).
      * apply winv_accumulate; [by apply winv_set_delta|by rewrite last_snoc|].
        intros p Hp. pose proof (wi_acc _ _ _ Hi p Hp) as Hin.
        destruct (last_raw _ _ _ Hi) as [_ Hmax]; [by intros ->; apply not_elem_of_nil in Hin|].
        specialize (Hmax _ Hin). destruct Hlater as [->|?]; [by apply not_elem_of_nil in Hin | lia].
      * done.
      * by apply Hrest.
      * by destruct raws.
    + apply (IH (set_delta f lv st1)); [by apply winv_set_delta|done|by apply Hrest|by destruct raws].
Qed.

Lemma insert_point_sorted x l : StronglySorted p_le l -> StronglySorted p_le (insert_point x l).
Proof.
  induction 1 as [|y l Hs IH Hy]; [apply SS_single|]. cbn [insert_point].
  destruct (p_TSMs x <=? p_TSMs y) eqn:E; bsplit.
  - constructor; [by constructor|]. constructor; [exact E|].
    eapply Forall_impl; [exact Hy|]. intros z Hz. unfold p_le in *. lia.
  - constructor; [done|]. apply Forall_forall. intros z Hz.
    assert (z = x \/ z ∈ l) as [->|Hz'].
    { clear -Hz. induction l as [|w l IH]; cbn [insert_point] in Hz.
      - apply list_elem_of_singleton in Hz. by left.
      - destruct (_ <=? _).
        + apply elem_of_cons in Hz as [?|?]; auto.
        + apply elem_of_cons in Hz as [->|Hz]; [right; left|]. destruct (IH Hz); [by left|right; by right]. }
    + unfold p_le. lia.
    + by apply (proj1 (Forall_forall _ _) Hy).
Qed.

Lemma insert_point_perm x l : insert_point x l ≡ₚ x :: l.
Proof.
  induction l as [|y l IH]; [done|]. cbn [insert_point]. destruct (_ <=? _); [done|].
  rewrite IH. apply Permutation_swap.
Qed.

Lemma sort_points_sorted l : StronglySorted p_le (sort_points l).
Proof. induction l as [|x l IH]; [constructor|]. by apply insert_point_sorted. Qed.
Lemma sort_points_perm l : sort_points l ≡ₚ l.
Proof. induction l as [|x l IH]; [done|]. cbn [sort_points foldr]. by rewrite insert_point_perm, IH. Qed.

Context (points : list Point).
Hypothesis (Hpoints : forall p, p ∈ points -> ts_ok (p_TSMs p)).

Definition accepted : list Point := drawn (-1) true f_zero (sort_points points).
Definition raw_times : list Z := distinct (-1) (sort_points points).

Lemma walk_all_inv : winv (walk_all spec window points) accepted raw_times.
Proof.
  apply (walk_inv (sort_points points) walk0 [] []); [apply winv0|apply sort_points_sorted| |done].
  intros p Hp. split; [|by left]. apply Hpoints. by rewrite <- sort_points_perm.
Qed.

Lemma accepted_known p : p ∈ accepted -> p_TSMs p <= w_last (walk_all spec window points).
Proof.
  intros Hp. pose proof walk_all_inv as Hi. pose proof (wi_acc _ _ _ Hi p Hp) as Hin.
  destruct (last_raw _ _ _ Hi) as [_ Hmax]; [by intros E; rewrite E in Hin; apply not_elem_of_nil in Hin|].
  by apply Hmax.
Qed.

(** Everything known of the output before the trailing break. *)
Lemma tail_ok :
  let st := walk_all spec window points in
  let out := tail_flush st in
  StronglySorted o_lt out /\ (forall o, o ∈ out -> 0 < o_TSMs o <= w_last st) /\
  (forall p, p ∈ accepted -> bracketed window p out) /\
  (forall o, o ∈ out -> o_Null o = false -> exists p, p ∈ accepted /\ o = real_of p) /\
  (accepted <> [] -> 0 < sp_GapMs spec -> forall a b, adjacent raw_times a b -> sp_GapMs spec < b - a -> shown out (b - 1)) /\
  (accepted = [] -> out = []).
Proof.
  cbv zeta. pose proof walk_all_inv as Hi. unfold tail_flush.
  destruct (w_haveExtrema (walk_all spec window points)) eqn:Eh.
  - destruct (flush_ok _ _ _ (w_last (walk_all spec window points) + 1) Hi Eh) as (F1 & F2 & F3 & F4 & F5).
    { intros p Hp. apply accepted_known in Hp. lia. }
    { lia. }
    split; [done|]. split; [intros o Ho; specialize (F2 o Ho); lia|]. split; [done|]. split; [done|].
    split; [by intros _|]. intros E. destruct (wi_ext _ _ _ Hi Eh) as [Hm _]. rewrite E in Hm.
    by apply not_elem_of_nil in Hm.
  - destruct (proj2 (wi_have _ _ _ Hi) Eh) as [Eout Eacc]. rewrite Eout, Eacc.
    split; [constructor|]. split; [by intros o ?%not_elem_of_nil|].
    split; [by intros p ?%not_elem_of_nil|]. split; [by intros o ?%not_elem_of_nil|]. done.
Qed.

Hypothesis (Hend : 0 <= sp_EndMs spec <= tmax).

Lemma trailing_shape :
  let st := walk_all spec window points in
  let out := tail_flush st in
  walk_out spec window points
  = out ++ (match out with
            | [] => []
            | _ => if negb (sp_GapMs spec =? 0) && (sp_GapMs spec <? sp_EndMs spec - w_last st)
                   then [null_at (w_last st + sp_GapMs spec)] else []
            end).
Proof.
  cbv zeta. unfold walk_out, trailing_break. destruct tail_ok as (Hs & Hr & _).
  set (st := walk_all spec window points) in *. set (out := tail_flush st) in *.
  destruct (last out) as [o|] eqn:El.
  2: { apply last_None in El. by rewrite El. }
  assert (Ho : o ∈ out) by (apply last_Some in El as [l ->]; rewrite elem_of_app; right; left).
  pose proof (Hr o Ho) as Hro.
  assert (Hlast : ts_ok (w_last st)).
  { pose proof walk_all_inv as Hi. assert (raw_times <> []) as Hne.
    { intros E. pose proof (wi_last _ _ _ Hi) as Hl. rewrite E in Hl. cbn in Hl. fold st in Hl. lia. }
    destruct (last_raw _ _ _ Hi Hne) as [Hin _]. by apply (proj2 (wi_raws _ _ _ Hi)). }
  assert (Hne : match out with [] => [] | _ => if negb (sp_GapMs spec =? 0) &&
            (sp_GapMs spec <? sp_EndMs spec - w_last st) then [null_at (w_last st + sp_GapMs spec)] else [] end
          = if negb (sp_GapMs spec =? 0) && (sp_GapMs spec <? sp_EndMs spec - w_last st)
            then [null_at (w_last st + sp_GapMs spec)] else []) by (by destruct out).
  rewrite Hne. unfold ts_ok, tmax in *. rewrite !i64_id by mlia.
  rewrite (proj2 (Z.eqb_neq (w_last st) (-1))) by lia. cbn [negb]. rewrite andb_true_r.
  destruct (negb (sp_GapMs spec =? 0) && (sp_GapMs spec <? sp_EndMs spec - w_last st)) eqn:E; bsplit.
  - rewrite (proj2 (Z.eqb_neq (sp_GapMs spec) 0)), (proj2 (Z.ltb_lt 0 (sp_EndMs spec))) by lia. cbn [negb andb].
    rewrite (proj2 (Z.ltb_lt _ _)) by lia. rewrite (proj2 (Z.ltb_lt (o_TSMs o) _)) by lia. done.
  - rewrite app_nil_r. destruct (negb (sp_GapMs spec =? 0)); cbn [andb] in *; [|done].
    rewrite E, andb_false_r. done.
Qed.

Lemma walk_out_ok :
  let out := walk_out spec window points in
  StronglySorted o_lt out /\ (forall o, o ∈ out -> 0 < o_TSMs o <= 2 * tmax) /\
  (forall p, p ∈ accepted -> bracketed window p out) /\
  (forall o, o ∈ out -> o_Null o = false -> exists p, p ∈ accepted /\ o = real_of p) /\
  (accepted <> [] -> 0 < sp_GapMs spec -> forall a b, adjacent raw_times a b -> sp_GapMs spec < b - a -> shown out (b - 1)).
Proof.
  cbv zeta. rewrite trailing_shape. destruct tail_ok as (T1 & T2 & T3 & T4 & T5 & T6).
  set (st := walk_all spec window points) in *. set (out := tail_flush st) in *.
  assert (Hlast : w_last st <= tmax).
  { pose proof walk_all_inv as Hi. destruct (decide (raw_times = [])) as [E|Hne].
    - pose proof (wi_last _ _ _ Hi) as Hl. rewrite E in Hl. cbn in Hl. fold st in Hl. unfold tmax. lia.
    - destruct (last_raw _ _ _ Hi Hne) as [Hin _]. apply (proj2 (wi_raws _ _ _ Hi)) in Hin as [_ ?]. done. }
  set (tail := match out with [] => [] | _ => _ end).
  assert (Htail : forall o, o ∈ tail -> o = null_at (w_last st + sp_GapMs spec) /\ 0 < sp_GapMs spec /\ out <> []).
  { intros o. unfold tail. destruct out; [by intros ?%not_elem_of_nil|].
    destruct (negb (sp_GapMs spec =? 0) && (sp_GapMs spec <? sp_EndMs spec - w_last st)) eqn:E; [|by intros ?%not_elem_of_nil].
    bsplit. intros ->%list_elem_of_singleton. split; [done|]. split; [lia | done]. }
  assert (Hsorted : StronglySorted o_lt (out ++ tail)).
  { apply SS_app; [done| |].
    - unfold tail. destruct out; [constructor|]. destruct (_ && _); repeat constructor.
    - intros x y Hx Hy. apply Htail in Hy as (-> & Hg & _). specialize (T2 x Hx). unfold o_lt. simpl. lia. }
  split; [done|]. split; [|split; [|split]].
  - intros o [Ho|Ho]%elem_of_app; [specialize (T2 o Ho); unfold tmax in *; lia|].
    apply Htail in Ho as (-> & Hg & Hne). simpl. destruct out as [|o0 out0]; [done|].
    specialize (T2 o0 ltac:(left)). unfold tmax in *. lia.
  - intros p Hp. eapply bracketed_mono; [|by apply T3]. intros o Ho. rewrite elem_of_app. by left.
  - intros o [Ho|Ho]%elem_of_app Hf; [by apply T4|]. by apply Htail in Ho as (-> & _).
  - intros Hne Hg a b Hadj Hgab. apply shown_grow; [done|]. exact (T5 Hne Hg a b Hadj Hgab).
Qed.
End Loop.
