(* ===== verification/RenderTheorems.v ===== *)
(** * RenderTheorems: the properties of a rendered series

    The statements about [Series] as a whole, padding included, and a
    concrete series for each. *)

From Stdlib Require Import ZArith Lia Bool Sorting.Sorted.
From Stdlib Require Import Floats.SpecFloat.
From S2P Require Import Prelude Float64 Render RenderProofs.

(** ** Padding *)

Definition between_neighbours (left right : option Output) (o : Output) : Prop :=
  match left with Some l => o_TSMs l < o_TSMs o | None => True end /\
  match right with Some r => o_TSMs o < o_TSMs r | None => True end.

Definition time_ok (o : Output) : Prop := 0 < o_TSMs o <= 2 * tmax.

Definition is_break (o : option Output) : Prop := match o with None => True | Some n => o_Null n = true end.

(** A point added beside [p]. *)
Definition padding_of (sse : SSE) (p o : Output) : Prop :=
  o_Null o = false /\ o_TSMs o <> o_TSMs p /\ Z.abs (o_TSMs o - o_TSMs p) <= ssePadMs /\
  o_Value o = match sse_Mode sse with SSERepeat => o_Value p | _ => sse_Value sse end.

Section Pad.
Context (sse : SSE).

(** The padding times, clamped into the gap between the neighbours. *)
Definition pad_before (left : option Output) (p : Output) : Z :=
  let before := i64 (o_TSMs p - ssePadMs) in
  match left with
  | Some l => if before <? i64 (o_TSMs l + 1) then i64 (o_TSMs l + 1) else before
  | None => before
  end.
Definition pad_after (right : option Output) (p : Output) : Z :=
  let after := i64 (o_TSMs p + ssePadMs) in
  match right with
  | Some r => if i64 (o_TSMs r - 1) <? after then i64 (o_TSMs r - 1) else after
  | None => after
  end.

Lemma pad_before_spec left p :
  time_ok p -> (match left with Some l => time_ok l /\ o_TSMs l < o_TSMs p | None => True end) ->
  o_TSMs p - ssePadMs <= pad_before left p /\ match left with Some l => o_TSMs l < pad_before left p | None => True end.
Proof.
  unfold pad_before, time_ok, tmax, ssePadMs. intros Hp Hl. destruct left as [l|].
  - rewrite !i64_id by mlia. destruct (o_TSMs p - 500 <? o_TSMs l + 1) eqn:E; bsplit; lia.
  - rewrite i64_id by mlia. lia.
Qed.

Lemma pad_after_spec right p :
  time_ok p -> (match right with Some r => time_ok r /\ o_TSMs p < o_TSMs r | None => True end) ->
  pad_after right p <= o_TSMs p + ssePadMs /\ match right with Some r => pad_after right p < o_TSMs r | None => True end.
Proof.
  unfold pad_after, time_ok, tmax, ssePadMs. intros Hp Hr. destruct right as [r|].
  - rewrite !i64_id by mlia. destruct (o_TSMs r - 1 <? o_TSMs p + 500) eqn:E; bsplit; lia.
  - rewrite i64_id by mlia. lia.
Qed.

Lemma pad_point_spec left right p :
  time_ok p -> (match left with Some l => time_ok l /\ o_TSMs l < o_TSMs p | None => True end) ->
  (match right with Some r => time_ok r /\ o_TSMs p < o_TSMs r | None => True end) ->
  StronglySorted o_lt (pad_point sse left right p) /\ p ∈ pad_point sse left right p /\
  forall o, o ∈ pad_point sse left right p -> between_neighbours left right o /\
    (o = p \/ (padding_of sse p o /\ o_Null p = false /\ is_break left /\ is_break right)).
Proof.
  intros Hp Hl Hr.
  assert (Hb : between_neighbours left right p).
  { split; [destruct left | destruct right]; tauto. }
  assert (Hplain : StronglySorted o_lt [p] /\ p ∈ [p] /\ forall o, o ∈ [p] ->
    between_neighbours left right o /\
    (o = p \/ (padding_of sse p o /\ o_Null p = false /\ is_break left /\ is_break right))).
  { split; [apply SS_single|]. split; [left|]. intros o ->%list_elem_of_singleton. split; [done|by left]. }
  unfold pad_point. destruct (o_Null p) eqn:En; [exact Hplain|].
  destruct (negb _ || negb _) eqn:Eb; [exact Hplain|]. bsplit.
  assert (Hlb : is_break left) by (by destruct left).
  assert (Hrb : is_break right) by (by destruct right).
  destruct (pad_before_spec left p Hp Hl) as [Hbef1 Hbef2]. destruct (pad_after_spec right p Hp Hr) as [Haft1 Haft2].
  set (v := match sse_Mode sse with SSERepeat => o_Value p | _ => sse_Value sse end).
  fold (pad_before left p). fold (pad_after right p).
  set (before := pad_before left p) in *. set (after := pad_after right p) in *.
  clearbody before after. destruct Hb as [Hb1 Hb2].
  assert (Hpadb : before < o_TSMs p -> between_neighbours left right (real before v) /\ padding_of sse p (real before v)).
  { intros Hlt. split; [split; cbn; [done|]|].
    - destruct right as [r|]; [destruct Hr; cbn; lia | done].
    - split; [done|]. split; [cbn; lia|]. split; [cbn [o_TSMs real]; unfold ssePadMs in *; lia | done]. }
  assert (Hpada : o_TSMs p < after -> between_neighbours left right (real after v) /\ padding_of sse p (real after v)).
  { intros Hlt. split; [split; cbn; [|done]|].
    - destruct left as [l|]; [destruct Hl; cbn; lia | done].
    - split; [done|]. split; [cbn; lia|]. split; [cbn [o_TSMs real]; unfold ssePadMs in *; lia | done]. }
  split; [|split].
  - repeat apply SS_app; try apply SS_single.
    + destruct (_ <? _); repeat constructor.
    + destruct (_ <? _); repeat constructor.
    + intros x y ->%list_elem_of_singleton Hy. destruct (o_TSMs p <? after) eqn:E; bsplit; [|by apply not_elem_of_nil in Hy].
      apply list_elem_of_singleton in Hy as ->. unfold o_lt. cbn. lia.
    + intros x y Hx Hy. destruct (before <? o_TSMs p) eqn:E; bsplit; [|by apply not_elem_of_nil in Hx].
      apply list_elem_of_singleton in Hx as ->. unfold o_lt. cbn. apply elem_of_app in Hy as [Hy|Hy].
      * apply list_elem_of_singleton in Hy as ->. lia.
      * destruct (o_TSMs p <? after) eqn:E2; bsplit; [|by apply not_elem_of_nil in Hy].
        apply list_elem_of_singleton in Hy as ->. cbn. lia.
  - rewrite !elem_of_app. right. left. left.
  - intros o. rewrite !elem_of_app. intros [Ho|[Ho|Ho]].
    + destruct (before <? o_TSMs p) eqn:E; bsplit; [|by apply not_elem_of_nil in Ho].
      apply list_elem_of_singleton in Ho as ->. destruct (Hpadb E). by split; [|right].
    + apply list_elem_of_singleton in Ho as ->. by split; [split | left].
    + destruct (o_TSMs p <? after) eqn:E; bsplit; [|by apply not_elem_of_nil in Ho].
      apply list_elem_of_singleton in Ho as ->. destruct (Hpada E). by split; [|right].
Qed.

(** What the loop may add, and where. *)
Definition pads (left : option Output) (out : list Output) (o : Output) : Prop :=
  exists l1 p l2, out = l1 ++ p :: l2 /\ padding_of sse p o /\ o_Null p = false /\
    is_break (match last l1 with Some x => Some x | None => left end) /\ is_break (head l2).

Lemma pad_loop_spec out : forall left,
  StronglySorted o_lt out -> (forall o, o ∈ out -> time_ok o) ->
  (match left with Some l => time_ok l /\ forall o, o ∈ out -> o_TSMs l < o_TSMs o | None => True end) ->
  StronglySorted o_lt (pad_loop sse left out) /\
  out `sublist_of` pad_loop sse left out /\
  (forall o, o ∈ pad_loop sse left out ->
     match left with Some l => o_TSMs l < o_TSMs o | None => True end /\ (o ∈ out \/ pads left out o)) /\
  (forall r o, head out = Some r -> o_Null r = true -> o ∈ pad_loop sse left out -> o_TSMs r <= o_TSMs o).
Proof.
  induction out as [|p out IH]; intros left Hs Hok Hleft; cbn [pad_loop].
  { split; [constructor|]. split; [constructor|]. split; [by intros o ?%not_elem_of_nil | done]. }
  apply StronglySorted_inv in Hs as [Hs Hp].
  assert (Hpout : forall o, o ∈ out -> o_TSMs p < o_TSMs o) by (intros o Ho; by apply (proj1 (Forall_forall _ _) Hp)).
  assert (Hpok : time_ok p) by (apply Hok; left).
  destruct (IH (Some p) Hs) as (I1 & I2 & I3 & I4).
  { intros o Ho. apply Hok. by right. }
  { by split. }
  destruct (pad_point_spec left (head out) p) as (P1 & P2 & P3).
  { done. }
  { destruct left; [|done]. destruct Hleft as [? Hlo]. split; [done|]. apply Hlo. left. }
  { destruct out as [|r out']; [done|]. cbn. split; [apply Hok; right; left | apply Hpout; left]. }
  split; [|split; [|split]].
  - apply SS_app; [done|done|]. intros x y Hx Hy. unfold o_lt.
    destruct (P3 x Hx) as [[_ Hxr] [->|(_ & _ & _ & Hb)]]; [by apply I3|].
    destruct out as [|r out']; [by apply not_elem_of_nil in Hy|]. cbn in Hxr, Hb.
    specialize (I4 r y eq_refl Hb Hy). lia.
  - change (p :: out) with ([p] ++ out). apply sublist_app; [|done].
    by apply singleton_sublist_l.
  - intros o [Ho|Ho]%elem_of_app.
    + destruct (P3 o Ho) as [[Hl _] [->|(Hpad & Hn & Hb1 & Hb2)]]; (split; [done|]).
      * left. left.
      * right. exists [], p, out. done.
    + destruct (I3 o Ho) as [Hlt Hwhere]. split.
      * destruct left as [l|]; [|done]. destruct Hleft as [_ Hlo]. specialize (Hlo p ltac:(left)). lia.
      * destruct Hwhere as [Hw|(l1 & q & l2 & -> & Hq1 & Hq2 & Hq3 & Hq4)]; [left; by right|].
        right. exists (p :: l1), q, l2. split; [done|]. split; [done|]. split; [done|]. split; [|done].
        destruct l1 as [|x l1]; [exact Hq3|]. change (last (p :: x :: l1)) with (last (x :: l1)).
        destruct (last (x :: l1)) as [z|] eqn:E in Hq3 |- *; [exact Hq3 | by apply last_None in E].
  - intros r o [= <-] Hn [Ho|Ho]%elem_of_app.
    + destruct (P3 o Ho) as [_ [->|(_ & Hf & _)]]; [lia | congruence].
    + destruct (I3 o Ho) as [Hlt _]. lia.
Qed.
End Pad.

(** ** The finished series *)

(** Samples with positive times, a cadence, a window and an end of range,
    none of them near the ends of [int64]. *)
Record query_ok (points : list Point) (spec : Spec) (window : Z) : Prop := {
  qo_points : Forall (fun p => ts_ok (p_TSMs p)) points;
  qo_gap : 0 <= sp_GapMs spec <= tmax;
  qo_window : 0 <= window <= tmax;
  qo_end : 0 <= sp_EndMs spec <= tmax;
}.

Section Finished.
Context (points : list Point) (spec : Spec) (window : Z).
Hypothesis (Hok : query_ok points spec window).

Lemma points_ok p : p ∈ points -> ts_ok (p_TSMs p).
Proof. destruct Hok as [H _ _ _]. by apply (proj1 (Forall_forall _ _) H). Qed.

Lemma walk_facts :
  let out := walk_out spec window points in
  StronglySorted o_lt out /\ (forall o, o ∈ out -> time_ok o) /\
  (forall p, p ∈ accepted spec points -> bracketed window p out) /\
  (forall o, o ∈ out -> o_Null o = false -> exists p, p ∈ accepted spec points /\ o = real_of p) /\
  (accepted spec points <> [] -> 0 < sp_GapMs spec ->
   forall a b, adjacent (raw_times points) a b -> sp_GapMs spec < b - a -> shown out (b - 1)).
Proof.
  destruct Hok as [_ Hg Hw He]. exact (walk_out_ok spec window Hg Hw points points_ok He).
Qed.

Lemma series_facts :
  StronglySorted o_lt (Series points spec window) /\
  walk_out spec window points `sublist_of` Series points spec window /\
  (forall o, o ∈ Series points spec window ->
     o ∈ walk_out spec window points \/ pads (sp_SSE spec) None (walk_out spec window points) o).
Proof.
  destruct walk_facts as (W1 & W2 & _). unfold Series, padIsolated.
  destruct (pad_loop_spec (sp_SSE spec) (walk_out spec window points) None W1 W2 I) as (P1 & P2 & P3 & _).
  destruct (sse_Mode (sp_SSE spec)); [| |split; [done|]; split; [done|]; by left].
  all: split; [done|]; split; [done|]; intros o Ho; by apply P3.
Qed.

Lemma series_keeps o : o ∈ walk_out spec window points -> o ∈ Series points spec window.
Proof. destruct series_facts as (_ & Hs & _). intros Ho. by apply (elem_of_sublist _ _ _ Ho Hs). Qed.
End Finished.

(** the points handed to the renderer are strictly increasing in time,
    breaks and padding included, whatever the order, the duplicates and
    the stages of the input. *)
Theorem Series_times_increase (points : list Point) (spec : Spec) (window : Z) :
  query_ok points spec window -> StronglySorted o_lt (Series points spec window).
Proof. intros Hok. apply (series_facts points spec window Hok). Qed.

(** C10: the reduction loses no extreme: for every sample drawn, the series
    holds a real point at or below it and one at or above it, each within
    one window of it. *)
Theorem Series_keeps_extremes (points : list Point) (spec : Spec) (window : Z) (p : Point) :
  query_ok points spec window -> p ∈ accepted spec points -> bracketed window p (Series points spec window).
Proof.
  intros Hok Hp. destruct (walk_facts points spec window Hok) as (_ & _ & W & _).
  eapply (bracketed_mono spec window (qo_gap _ _ _ Hok) (qo_window _ _ _ Hok)); [|exact (W p Hp)].
  apply (series_keeps points spec window Hok).
Qed.

(** Without a transforming stage the drawn samples are raw samples. *)
Definition plain (spec : Spec) : Prop :=
  sp_Delta spec = false /\ sp_PerSecond spec = false /\ sp_Negate spec = false /\
  sp_ClampMin spec = None /\ sp_ClampMax spec = None.

Lemma drawn_plain spec pts : plain spec -> forall last f lv p, p ∈ drawn spec last f lv pts -> p ∈ pts.
Proof.
  intros (H1 & H2 & H3 & H4 & H5). induction pts as [|s pts IH]; intros last f lv p; cbn [drawn]; [done|].
  destruct (last =? p_TSMs s); [intros Hp; right; by eapply IH|].
  unfold transform, clamp. rewrite H1, H2, H3, H4, H5. cbn [andb].
  intros [->|Hp]%elem_of_cons; [destruct s; left | right; by eapply IH].
Qed.

(** with no transforming stage, every value drawn was reported by a
    source at that very time, or pads a point that stands alone between
    breaks: nothing is interpolated, averaged or carried. *)
Theorem Series_invents_nothing (points : list Point) (spec : Spec) (window : Z) (o : Output) :
  query_ok points spec window -> plain spec -> o ∈ Series points spec window -> o_Null o = false ->
  (exists p, p ∈ points /\ o = real_of p) \/ pads (sp_SSE spec) None (walk_out spec window points) o.
Proof.
  intros Hok Hplain Ho Hn. destruct (series_facts points spec window Hok) as (_ & _ & Hs).
  destruct (Hs o Ho) as [Hw|Hp]; [left|by right].
  destruct (walk_facts points spec window Hok) as (_ & _ & _ & Hr & _).
  destruct (Hr o Hw Hn) as (p & Hp & ->). exists p. split; [|done].
  rewrite <- sort_points_perm. by eapply drawn_plain.
Qed.

(** C11: no line is drawn across a gap: when consecutive raw samples are
    further apart than the declared cadence, a break stands between any
    two drawn samples on either side of them, however many windows they
    are apart and however many gaps one window swallowed. *)
Theorem Series_breaks_every_gap (points : list Point) (spec : Spec) (window a b : Z) (x y : Output) :
  query_ok points spec window -> 0 < sp_GapMs spec ->
  adjacent (raw_times points) a b -> sp_GapMs spec < b - a ->
  x ∈ walk_out spec window points -> y ∈ walk_out spec window points ->
  o_Null x = false -> o_Null y = false -> o_TSMs x <= a -> b <= o_TSMs y ->
  exists m, null_at m ∈ Series points spec window /\ o_TSMs x < m < o_TSMs y.
Proof.
  intros Hok Hg Hadj Hab Hx Hy Hnx Hny Hxa Hyb.
  destruct (walk_facts points spec window Hok) as (_ & _ & _ & Hr & Hs).
  destruct (Hr x Hx Hnx) as (p & Hp & _).
  destruct (Hs) with (a := a) (b := b) as (m & Hm & Hle & Hlt); try done.
  { intros E. rewrite E in Hp. by apply not_elem_of_nil in Hp. }
  exists m. split; [by apply (series_keeps points spec window Hok)|].
  specialize (Hlt y Hy Hny ltac:(lia)). lia.
Qed.

(** a series that stopped before the end of the range ends in a break,
    placed where the cadence was first missed; one that emitted nothing
    gets none. *)
Theorem Series_trailing_break (points : list Point) (spec : Spec) (window t : Z) :
  query_ok points spec window -> 0 < sp_GapMs spec ->
  last (raw_times points) = Some t -> sp_GapMs spec < sp_EndMs spec - t ->
  match walk_out spec window points with
  | [] => Series points spec window = []
  | out => last out = Some (null_at (t + sp_GapMs spec)) /\
           null_at (t + sp_GapMs spec) ∈ Series points spec window
  end.
Proof.
  intros Hok Hg Ht Hend. pose proof (series_keeps points spec window Hok) as Hkeep.
  destruct Hok as [Hp Hg' Hw He].
  pose proof (trailing_shape spec window Hg' Hw points (points_ok points spec window (Build_query_ok _ _ _ Hp Hg' Hw He)) He) as Hshape.
  pose proof (walk_all_inv spec window Hg' Hw points (points_ok points spec window (Build_query_ok _ _ _ Hp Hg' Hw He))) as Hi.
  pose proof (wi_last _ _ _ _ _ Hi) as Hl. rewrite Ht in Hl. cbn [default from_option] in Hl. change (id t) with t in Hl.
  cbv zeta in Hshape. destruct (walk_out spec window points) as [|o0 out0] eqn:E.
  - unfold Series. rewrite E. unfold padIsolated. by destruct (sse_Mode (sp_SSE spec)).
  - rewrite Hl in Hshape. rewrite (proj2 (Z.eqb_neq _ 0)), (proj2 (Z.ltb_lt _ _)) in Hshape by lia.
    cbn [negb andb] in Hshape.
    destruct (tail_flush (walk_all spec window points)) as [|t0 tl] eqn:Et; [done|].
    rewrite Hshape. split; [by rewrite last_snoc|]. apply Hkeep. rewrite Hshape, elem_of_app. right. left.
Qed.

(** padding keeps every point of the finished series, in order, and
    adds a point only beside a real one with no real neighbour on either
    side, at most half a second away; so a healthy series is never bent
    towards the padding value. *)
Theorem padIsolated_stranded_only (points : list Point) (spec : Spec) (window : Z) :
  query_ok points spec window ->
  walk_out spec window points `sublist_of` Series points spec window /\
  forall o, o ∈ Series points spec window ->
    o ∈ walk_out spec window points \/ pads (sp_SSE spec) None (walk_out spec window points) o.
Proof. intros Hok. apply (series_facts points spec window Hok). Qed.

(** the window width: never negative, within both the render budget
    and the interval hint, and doubled without overflow for the min/max
    walk. *)
Theorem Window_bounds (rangeMs maxDataPoints intervalMs : Z) :
  0 <= rangeMs <= tmax -> in_i64 maxDataPoints -> in_i64 intervalMs ->
  let w := SingleWindow rangeMs maxDataPoints intervalMs in
  0 <= w /\ w * Z.max 1 maxDataPoints <= rangeMs /\ (0 < intervalMs -> w <= intervalMs) /\
  Window rangeMs maxDataPoints intervalMs = 2 * w.
Proof.
  intros Hr Hm Hi w.
  set (m := Z.max 1 maxDataPoints).
  assert (Hq : w = (if (0 <? intervalMs) && (intervalMs <? rangeMs / m) then intervalMs else rangeMs / m)).
  { unfold w, SingleWindow. assert ((if maxDataPoints <=? 0 then 1 else maxDataPoints) = m) as ->
      by (unfold m; destruct (maxDataPoints <=? 0) eqn:E; bsplit; lia).
    rewrite Z.quot_div_nonneg by (unfold m; lia).
    pose proof (Z.div_pos rangeMs m ltac:(lia) ltac:(unfold m; lia)).
    destruct ((0 <? intervalMs) && (intervalMs <? rangeMs / m)) eqn:E; bsplit;
      by rewrite (proj2 (Z.ltb_ge _ 0)) by lia. }
  pose proof (Z.div_pos rangeMs m ltac:(lia) ltac:(unfold m; lia)).
  pose proof (Z.mul_div_le rangeMs m ltac:(unfold m; lia)).
  assert (Hw : 0 <= w <= rangeMs / m).
  { rewrite Hq. destruct (_ && _) eqn:E; bsplit; lia. }
  assert (Hle : rangeMs / m <= rangeMs) by (apply Z.div_le_upper_bound; unfold m in *; nia).
  split; [lia|]. split; [unfold m in *; nia|]. split.
  - intros Hpos. rewrite Hq. destruct ((0 <? intervalMs) && (intervalMs <? rangeMs / m)) eqn:E; [lia|].
    apply andb_false_iff in E as [E|E]; bsplit; lia.
  - unfold Window. fold w. rewrite i64_id by (unfold tmax in *; mlia). lia.
Qed.
