(* ===== verification/Witnesses.v ===== *)
(** * Witnesses: the component theorems on concrete inputs

    Each lemma applies one theorem of the data model, the keyspace, the row
    codec, the filters or the renderer at an input where its hypotheses
    hold. *)

From Stdlib Require Import ZArith Lia Bool.
From Stdlib Require Import Strings.Byte Strings.String.
From Stdlib Require Import Floats.SpecFloat.
From Stdlib Require Import Sorting.Sorted.
From S2P Require Import Prelude Bytes Float64 GoStd Model EngineKeys EngineCodec EngineFilter Instances.
From S2P Require Import Render RenderProofs RenderTheorems.

(** ** Model *)

Definition demo_sample (v : Z) : Sample :=
  {| TSMs := 1700; SubUS := 0; Labels := {[bs "host" := bs "web1"]}; Fields := {[bs "usage" := VInt v]};
     KeyHint := bs "app.log:42" |}.

Lemma demo_label_items : label_items (demo_sample 7) = [(bs "host", bs "web1")].
Proof. vm_compute. reflexivity. Qed.
Lemma demo_field_items : field_items (demo_sample 7) = [(bs "usage", VInt 7)].
Proof. vm_compute. reflexivity. Qed.
Lemma fits_short (s : gostr) : (length s <? 100)%nat = true -> fits s.
Proof. intros Hs%Nat.ltb_lt. unfold fits, zlen, two64. lia. Qed.

Lemma demo_sample_fits : sample_fits (demo_sample 7).
Proof.
  split.
  - unfold MaxTSMs. cbn. lia.
  - cbn. lia.
  - by apply fits_short.
  - assert (zlen (SortedLabelKeys (demo_sample 7)) = 1) as -> by (vm_compute; reflexivity). mlia.
  - assert (zlen (SortedFieldKeys (demo_sample 7)) = 1) as -> by (vm_compute; reflexivity). mlia.
  - rewrite demo_label_items. apply Forall_singleton. split; by apply fits_short.
  - rewrite demo_field_items. apply Forall_singleton. split; [by apply fits_short|].
    split; [by apply fits_short|]. cbn. mlia.
Qed.

Lemma key_stream_content_injective_witness :
  demo_set = demo_set /\ TSMs (demo_sample 7) = TSMs (demo_sample 7) /\ SubUS (demo_sample 7) = SubUS (demo_sample 7) /\
  Labels (demo_sample 7) = Labels (demo_sample 7) /\ Fields (demo_sample 7) = Fields (demo_sample 7).
Proof.
  apply (key_stream_content_injective demo_set demo_set (demo_sample 7) (demo_sample 7) format_g_inj);
    [by apply fits_short|by apply fits_short|apply demo_sample_fits|apply demo_sample_fits|done|done].
Defined.

Lemma key_stream_offset_injective_witness :
  demo_set = demo_set /\ TSMs (demo_sample 7) = TSMs (demo_sample 7) /\ SubUS (demo_sample 7) = SubUS (demo_sample 7) /\
  Labels (demo_sample 7) = Labels (demo_sample 7) /\ KeyHint (demo_sample 7) = KeyHint (demo_sample 7).
Proof.
  apply (key_stream_offset_injective demo_set demo_set (demo_sample 7) (demo_sample 7));
    [by apply fits_short|by apply fits_short|apply demo_sample_fits|apply demo_sample_fits|done|done].
Defined.

(** ** Keys, rows, predicates *)

Lemma indexKey_order_witness :
  blt (indexKey 1 1 (-5) demo_pk) (indexKey 1 1 3 demo_pk) = true <->
  1 < 1 \/ (1 = 1 /\ (1 < 1 \/ (1 = 1 /\ (-5 < 3 \/ (-5 = 3 /\ blt demo_pk demo_pk = true))))).
Proof. apply indexKey_order; mlia. Defined.

Lemma decodeRow_encodeRow_witness :
  decodeRow (encode_entries (map_to_list (demo_row 1700))) (Some {[bs "usage"]}) =
  Ok (filter (fun kv => wants (Some {[bs "usage"]}) kv.1 = true) (demo_row 1700)).
Proof. apply decodeRow_encodeRow; [apply demo_row_storable; mlia|done]. Defined.

Definition demo_expr : Expr :=
  AndExpr [NotExpr (EqExpr (bs "usage") (VInt 8)); BetweenExpr TimestampField (VInt 0) (VInt 2000)].

Lemma eval_refines_sem_witness :
  exists lr', eval demo_expr (newLazyRow (encode_entries (map_to_list (demo_row 1700)))) = (sem demo_expr (demo_row 1700), lr') /\
              lr_err lr' = None /\ cache_ok (demo_row 1700) lr'.
Proof. apply eval_refines_sem; [apply demo_row_storable; mlia|done]. Defined.

Lemma columns_sufficient_witness :
  sem demo_expr (filter (fun kv => wants (Some {[bs "usage"; TimestampField]}) kv.1 = true) (demo_row 1700)) =
  sem demo_expr (demo_row 1700).
Proof. apply columns_sufficient. unfold demo_expr. cbn [columns]. set_solver. Defined.

(** ** Render *)

Definition demo_points : list Point :=
  [{| p_Value := of_int 4; p_TSMs := 1000 |}; {| p_Value := of_int 9; p_TSMs := 2000 |};
   {| p_Value := of_int 2; p_TSMs := 9000 |}].
Definition demo_spec : Spec :=
  {| sp_Delta := false; sp_PerSecond := false; sp_Negate := false; sp_GapMs := 3000; sp_ClampMin := None;
     sp_ClampMax := None; sp_ClampElseRaw := false; sp_SSE := {| sse_Mode := SSEConst; sse_Value := f_zero |};
     sp_EndMs := 20000 |}.

Lemma demo_query_ok : query_ok demo_points demo_spec 500.
Proof. split; [repeat (constructor; [unfold ts_ok, tmax; cbn; lia|]); constructor|unfold tmax; cbn; lia..]. Qed.

Lemma Series_times_increase_witness : StronglySorted o_lt (Series demo_points demo_spec 500).
Proof. exact (Series_times_increase demo_points demo_spec 500 demo_query_ok). Defined.

Lemma Series_keeps_extremes_witness :
  bracketed 500 {| p_Value := of_int 9; p_TSMs := 2000 |} (Series demo_points demo_spec 500).
Proof.
  apply (Series_keeps_extremes demo_points demo_spec 500 _ demo_query_ok).
  vm_compute. right. left.
Defined.

Lemma Series_invents_nothing_witness :
  let o := real 2000 (of_int 9) in
  (exists p, p ∈ demo_points /\ o = real_of p) \/ pads (sp_SSE demo_spec) None (walk_out demo_spec 500 demo_points) o.
Proof.
  apply (Series_invents_nothing demo_points demo_spec 500 _ demo_query_ok); [done| |done].
  vm_compute. repeat (first [left | right]).
Defined.

Lemma Series_breaks_every_gap_witness :
  exists m, null_at m ∈ Series demo_points demo_spec 500 /\ 2000 < m < 9000.
Proof.
  apply (Series_breaks_every_gap demo_points demo_spec 500 2000 9000 (real 2000 (of_int 9)) (real 9000 (of_int 2)) demo_query_ok).
  - cbn. lia.
  - by exists [1000], [].
  - cbn. lia.
  - vm_compute. repeat (first [left | right]).
  - vm_compute. repeat (first [left | right]).
  - done.
  - done.
  - cbn. lia.
  - cbn. lia.
Defined.

Lemma Series_trailing_break_witness :
  last (walk_out demo_spec 500 demo_points) = Some (null_at 12000) /\
  null_at 12000 ∈ Series demo_points demo_spec 500.
Proof.
  apply (Series_trailing_break demo_points demo_spec 500 9000 demo_query_ok); done.
Defined.

Lemma padIsolated_stranded_only_witness :
  walk_out demo_spec 500 demo_points `sublist_of` Series demo_points demo_spec 500 /\
  forall o, o ∈ Series demo_points demo_spec 500 ->
    o ∈ walk_out demo_spec 500 demo_points \/ pads (sp_SSE demo_spec) None (walk_out demo_spec 500 demo_points) o.
Proof. exact (padIsolated_stranded_only demo_points demo_spec 500 demo_query_ok). Defined.

Lemma Window_bounds_witness :
  let w := SingleWindow 3600000 1000 1500 in
  0 <= w /\ w * Z.max 1 1000 <= 3600000 /\ (0 < 1500 -> w <= 1500) /\ Window 3600000 1000 1500 = 2 * w.
Proof. apply (Window_bounds 3600000 1000 1500); [unfold tmax; lia|mlia|mlia]. Defined.
